(* ===== verification/_CoqProject ===== *)
-Q . S2P
Prelude.v
Paging.v
LiveDocs.v
TopK.v
Sha256.v
Bucket.v
Supersession.v
SegmentSet.v
Format.v
Utf8.v
Bm25Layout.v
Bm25Writer.v
Bm25Read.v
Bm25Encode.v
Bm25Image.v
Bm25Dicts.v
Bm25Hash.v
Bm25Blocks.v
Bm25DictReads.v
Bm25BlockReads.v
Bm25DictWalk.v
Bm25DictTrip.v
Bm25Layouts.v
Bm25SegmentLaid.v
Bm25Opened.v
Bm25RoundTrip.v
Bm25Build.v
Bm25Merge.v
Bm25Props.v
Bm25Index.v
Bm25Search.v
Bm25Stats.v
Bm25Scores.v
Bm25Collect.v
Bm25SearchProps.v
Bm25Tokenize.v
Bm25TokenizeProps.v
Bm25Ingest.v
Bm25IngestProps.v
Bm25Found.v
Bm25MergeProps.v
Bm25WalkProps.v
Bm25Format.v
Engine.v
EngineSwap.v
EngineLoad.v
EngineProps.v
EngineWrites.v
EngineConsolidate.v
EngineShip.v
EngineReads.v
Gostd.v
Breaker.v
Backoff.v
Admission.v
SummaryWork.v
RecipeLex.v
RecipeParse.v
RecipePrint.v
RecipeSource.v
RecipeEval.v
RecipeCheck.v
RecipeRun.v
RecipeTypes.v
