(* ===== verification/Prelude.v ===== *)
(** * knowledge-mcp client: a verification library

    The program is the client of a knowledge service: a local MCP server that drains
    graphs from a remote service page by page, keeps local full-text and vector
    indexes of them, and answers searches from those.  It also keeps the documents of
    those graphs summarized, and turns drained graphs into new ones by rules written in
    a small language.  This library models four parts of it that carry logic of their
    own, and proves them correct, or proves where they are not:

    - [internal/paging], the drains that turn a capped, paged protocol into a
      complete corpus;
    - [internal/searchengine], the segmented index: immutable segments with mutable
      live bits, published as snapshots, written, merged, swapped, shipped and
      searched; and its full-text format, [formats/bm25];
    - [internal/pipeline], the controls of the background workers (circuit breakers,
      backoff, request pacing, writeback admission) and the summary worker that obeys
      them;
    - [internal/recipe], the language of the rules: lexer, parser, scoping, the check of
      a recipe against its source graph, and its evaluation.

    ** The program's parts and the files that model them

    - [Paging.v] ([band_drain.go], [browse_drain.go]).  The page fetch is the
      caller's closure, an argument of every definition; a drain threads the union of
      the edges seen.  Section [Bands]: [drainBand] halves a saturated band at the
      median of its ids, [drainBandTiling] runs the tiles, [DrainPivotEdges] halves a
      saturated page of pivots and escapes to bands for a single one.  Module
      [Keyset]: the id-cursor drains.
    - [LiveDocs.v] ([livedocs.go]).  The live bitset over 64-bit words, its
      operations, and the compare-and-swap loops of [Kill] and [Revive] as a step
      relation over threads that share the words.
    - [TopK.v] ([topk.go]).  The bounded heap at array level, over anything that has a
      score (the class [Scored]), and the merge of the segments' hits.  A score is an IEEE
      double ([spec_float]), NaN included.
    - [Sha256.v], [Bucket.v] ([bucket.go], [contentHash] of [engine.go]).  Which
      partition a document belongs to and how many there are; a segment's id.
    - [Supersession.v] ([supersession.go]).  The stored record of what a segment
      replaced, byte by byte; a slice out of range is a [Panic] value.
    - [SegmentSet.v] ([segmentset.go], [segmentset_replace.go]).  The published
      snapshot: entries, a route flattened over a prefix of them, a tail scanned
      newest first, a set of dropped ids and an index of stale answers.  One
      definition per derivation.
    - [Format.v] ([document.go], [segment.go]).  The index format as a class,
      [SegmentFormat]; the promises of its comments as four classes of laws; and
      [TableFormat], a small implementation that keeps them, over which witnesses run.
      [Bm25Format.v] ([formats/bm25/format.go]) makes the full-text format an instance.
    - [Bm25Layout.v], [Bm25Encode.v] ([serial_v2.go], [serial_v2_dict.go], [build.go],
      [segment.go], [field.go]).  A full-text segment built from tokenized documents,
      planned and written into a buffer byte by byte, with dictionaries of three kinds:
      sorted rows, front-coded blocks, rows behind a hash table.
    - [Bm25Read.v] ([mapped.go], [mapped_dict.go], [merge_cursor.go], [validate.go]).
      Opening such bytes and reading them: members, lookups, iteration, document
      frequencies, validation.  A read of any bytes ends in a value, a refusal, a raised
      corruption, an index panic or a read out of the mapping, which are told apart.
    - [Bm25Writer.v] ([merge_writer.go]).  The coalescing writer of a merge: eight windows
      over a sink, a class with one law.
    - [Bm25Merge.v] ([format.go], [merge_stream.go], [merge_cursor.go], [merge_emit.go]).
      The streamed merge: the survivors, the walk of all dictionaries through a heap,
      the planned prefix, the emitter and its structural gate.
    - [Bm25Props.v], [Bm25MergeProps.v], [Bm25WalkProps.v].  Their theorems.
    - [Bm25Image.v], [Bm25Dicts.v], [Bm25Hash.v], [Bm25Blocks.v], [Bm25Layouts.v],
      [Bm25SegmentLaid.v]: what the encoder leaves in its buffer, structure by structure.
      [Bm25DictReads.v], [Bm25BlockReads.v], [Bm25DictWalk.v], [Bm25DictTrip.v],
      [Bm25Opened.v], [Bm25RoundTrip.v]: what the readers make of it.  [Bm25Build.v],
      [Bm25Index.v]: what a build accumulates, and the round trip from documents to
      answers.
    - [Bm25Search.v] ([mapped_search.go], [stats.go], [heap.go], [segment.go],
      [field.go], [format.go]).  The statistics of a corpus, the BM25F score and the
      searches of an opened segment and of an accumulator.  [Bm25Stats.v], [Bm25Scores.v],
      [Bm25Collect.v], [Bm25SearchProps.v]: their theorems.
    - [Utf8.v], [Bm25Tokenize.v] ([tokenizer.go], [strings.go]).  Runes and case mapping,
      and the tokenizer.  [Bm25Ingest.v] ([build.go], [format.go]).  The fields of a
      document, the parallel pass, [Build].  [Bm25TokenizeProps.v], [Bm25IngestProps.v],
      [Bm25Found.v]: their theorems.
    - [Engine.v] ([engine.go], [engine_search.go], [engine_resident_aggregates.go],
      [bucket_membership.go], [corruption.go], [options.go]).  The engine's state as a
      record and a state and error monad in which each handler is written, in the
      order of the code: an error returns the state reached so far.
    - [EngineSwap.v] ([merge_entry.go], [merge.go], [bucket_swap.go],
      [bucket_swap_group.go], [layer_swap.go], [layer_release.go]).  Merges and swaps.
    - [EngineLoad.v] ([distribution.go], [mapping_lifetime.go]).  Export, import,
      unload, remap.
    - [EngineProps.v], [EngineWrites.v], [EngineConsolidate.v], [EngineShip.v],
      [EngineReads.v].  The engine's invariant and the theorems, a file per group.

    - [Gostd.v].  What the code uses of the standard library's [strings] and [strconv].
    - [Breaker.v] ([circuit_breaker.go], [error_class.go], [escalation.go],
      [pipeline_control.go], [internal/llm/errors.go]).  Errors, their classes, the two
      breakers and their escalation as state transformers; waiters, results and
      operators interleaved as a step relation.
    - [Backoff.v] ([backoff.go], [rpmgate.go], [ratelimit.go], [rpc.go]).  The delays, the
      pacer and the retry loop of a writeback, over int64 nanoseconds.
    - [Admission.v] ([writeback_admission.go]).  The gates, a step relation over workers.
    - [SummaryWork.v] ([worker.go], [worker_summary_split.go],
      [worker_summary_lease.go]).  A batch of summaries: the call, the split of an
      oversize batch, markers, writebacks, the lease.
    - [RecipeLex.v] ([lexer.go], [lexer_tokens.go]), [RecipeParse.v] ([ast.go],
      [parser.go], [parser_expr.go], [parser_helpers.go], [parser_heads.go],
      [where_tree.go]), [RecipePrint.v].  Bytes to tokens to rules, and the check that
      every bare field head is in scope; a printer, for the round trip.
    - [RecipeSource.v] ([source_view.go], [document_order.go]): the indexed graph and its
      reading order.  [RecipeEval.v] ([interpret_expr.go], [interpret_field.go],
      [interpret_funcs.go], [interpret_render.go], [where_eval.go], [compare_ops.go]):
      fields, builtins, expressions, where-trees.  [RecipeCheck.v] ([source_census.go],
      [validate_source.go], [validate_source_fields.go], [expr_static_validate.go]): the
      check.  [RecipeRun.v] ([interpret.go], [interpret_select.go], [interpret_emit.go],
      [extract.go], [lineage.go]): the rules and what they emit.  [RecipeTypes.v]: a typing
      judgement, that the check establishes it, and that a run of a typed recipe is safe.

    ** How they interact

    The engine publishes a snapshot ([SegmentSet]) whose entries hold a payload of the
    format, a map of members to ordinals and the address of a bitset ([LiveDocs]).
    Snapshots that share an entry share its bits, so bitsets live in a store and an
    entry holds an address: killing a document through an old snapshot is seen by a
    search of the new one, as in the code.  A search asks each segment for its hits
    under the live filter and merges them ([TopK]).  A consolidation harvests the live
    members of segments into new ones, one per partition ([Bucket]), stamps on them
    what they replace ([Supersession]) and swaps the set; an import of the stored
    segments declines those a record names.

    A full-text segment is built from documents that workers tokenize ([Bm25Tokenize],
    [Bm25Ingest]), encoded ([Bm25Encode]) and opened ([Bm25Read]); a query is tokenized the
    same way, and scored in each segment under the statistics of all ([Bm25Search]), which
    ask the segments for a document frequency when a term first needs it.

    A merge of full-text segments opens each input ([Bm25Read]), walks their dictionaries
    together twice ([Bm25Merge]), once to size the prefix and once to emit rows, posting
    runs and blocks as patches and appends to the writer ([Bm25Writer]), whose windows reach
    the sink in an order of their own.

    A summary worker asks its axis' breaker before a call and reports the result to it
    ([reportErr], [recordOK] of [Breaker]), packs and splits its batch ([SummaryWork]),
    and writes back under a permit ([Admission]) with retries ([Backoff]).  The parser of
    a recipe runs on the tokens of its lexer, one of which, a where-tree, is cut out by
    matching braces and handed to the JSON decoder whole.  A run of a parsed recipe checks
    it against the census of the view first, and hands the patterns and comparisons the
    check resolved to the evaluator; a rule replaces the rows of the environment, sorted by
    the reading order, or emits from each of them.  What the evaluator uses of [regexp],
    [encoding/json], Unicode and [strconv.ParseFloat] is the class [Host].

    ** What the theorems show

    - Paging: a drain that returns has exactly the server's edges, once each; it
      returns, and without an error when single responses fit; two servers or inputs
      on which it does not return are exhibited.
    - LiveDocs, TopK, Bucket, Supersession: refinement of the words to a set and
      linearizability of the loops; best selection; partition refinement; round trip,
      bounds and determinism of the stored record.
    - SegmentSet: the two-level route answers as the flat one after any sequence of
      derivations whose arguments were not published before, and is newest-wins.
    - Bm25Props: no bytes make a read of a segment file do worse than raise a corruption,
      one index panic apart; bytes that validate answer every read, if no front-coded
      dictionary has blocks that no term fills, and two payloads show what is left out.
    - Bm25Writer: whatever windows the stores went through, the sink ends up as the image of
      the stores in their order, as long as no append pads over bytes already written; the
      windows stay within their array.
    - Bm25MergeProps, Bm25WalkProps: a merge keeps the last accepted copy of each member and
      renumbers it to its position; the walk always ends, and is the grouping of the sorted
      entries of all inputs if these read and ascend; the structural gate never fires on what the merge wrote; and a merge
      that pads over its own output, loses its only term and still validates.
    - Bm25Index: a segment built, encoded in any dictionary kind and opened again answers
      for exactly its documents, and validates.  Bm25BlockReads: a word with a suffix of
      65536 bytes is stored cut, the one bound the code does not enforce.
    - Bm25SearchProps, Bm25Stats: the search of an opened segment is that of the
      accumulator, bit for bit; scores are those of the whole corpus however it is divided
      into segments; appending to the statistics is aggregating anew, and what they
      remember cannot be observed.
    - Bm25TokenizeProps: the tokenizer is total and counts what a reference that lowers each
      piece by itself counts, if no word mixes runes that shrink with runes that grow; one
      that does has its parts cut inside a rune.  Bm25IngestProps: every interleaving of the
      tokenizing workers ends as the sequential pass.  Bm25Found: a document is found by
      each of its words, from its text to the hits, or outscored by as many as the limit.
    - EngineWrites: one live copy per id is kept by superseding writes; a delete
      forgets its id and nothing else; a search returns accepted live documents and
      withdraws exactly the corrupt segments.
    - EngineConsolidate: a group swap conserves the searchable documents, whatever its
      constituents and partitions; in particular narrowing the harvest loses nothing.
    - EngineShip: export then import restores an index; import is idempotent;
      declining loses nothing when records are written in order.
    - Bm25Format: the full-text format is a format of the engine: a build indexes exactly the
      documents with a token, a decoded segment is the one encoded, a search returns accepted
      ids only, a merge returns.
    - EngineReads: the residency read-outs agree with search, the partition read-outs
      with each other, and a remap cannot be observed.
    - Breaker, Backoff, Admission, SummaryWork: the breaker is a latch and its waiters are
      not lost; delays and pacing are bounded; at most two holders per lock domain; a
      writeback retries rate limits only, each call under the one permit it was granted, or
      under none once its context has ended; a
      batch settles every document within a bound on its calls, and size refusals never
      trip a breaker.
    - RecipeLex, RecipeParse, RecipePrint: the lexer and the parser are total, and refuse
      at a place of the source; where-trees are cut exactly; the head check is a scoping
      judgement; printing and parsing are inverse.
    - RecipeSource, RecipeEval, RecipeRun: the reading order is the preorder of the
      positioned containment, or the refusal of its least ambiguous node; an edge leaf is
      bounded reachability, its sub-tree tested at the first edge that reaches a node, and the [has_ancestor] builtin agrees with it; a walk lists each
      reachable node once; a run ends, and its result is consistent also when it fails.
    - RecipeTypes: a recipe that parses and is accepted raises none of the errors that the
      check is to rule out, if no node has the type [edge]; with one it can.
    - Runs over the reference format on which the code breaks a promise of its own
      comments are theorems too: a document rewritten to an old content escapes its
      deletion; two segments that supersede each other import as nothing; a background
      merge can retire its own output; a delete misses a buffered update; an unchanged
      re-add stays deleted; a republished and retired segment stays routed.

    ** Conventions, bounds and fuel

    A Go [(T, error)] is [result]; a recursion that is not structural takes fuel and
    returns [fueled], whose [OutOfFuel] is no result of the code.  Fuel is bounded by
    proof: [drains_terminate] gives fuel linear in the number of ids for the bands,
    and the page loops run on the number of ids; a heap sift runs on the heap's
    length; [BucketCountFor]'s loop needs at most ten doublings; the lexer's fuel is the
    length of the source, the parser's that of the token stream ([Lex_sound] and
    [Parse_sound] say it is enough); a descent or walk of a recipe visits each node of the
    graph at most once, so its fuel is one more than their number
    ([documentOrderIndex_reading_order], [evalWalk_subtrees]); every round of the walk of a
    merge takes a term off a dictionary, so its fuel is the number of terms
    ([mergeWalk_total]); a probe of a hash table looks at each slot once; the rune loop of the tokenizer
    runs on the length of its text ([tokenize_counts_reference]).  Words of the bitset
    are integers in the uint64 range; corpus counts are int64 where the code can
    overflow; lengths in the stored record are bounded by their fields.  A handler of
    the engine is one atomic step: writers that interleave inside a handler are
    modelled for the bitset only.  Map iteration order is not observable in what is
    stated.  What the owner of the engine provides (the mapping of a file, the format,
    the persist hook, the context's answers) is an argument.  A float64 is a [spec_float]
    with one rounding per operation, as on machines without fused multiply-add;
    [math.Log] and the tables of [unicode] are arguments.  The theorems on scores ask
    that no sum of a document's contributions is a NaN or falls back to zero
    ([regular]), since the code takes a zero score for a document not yet seen.

    ** What is not modelled

    Of the parts above: scratch files, garbage-collector cleanups of mappings, the merger's
    ticker, the estimates of heap bytes ([residency.go], [HeapBytes]), the worker pools and
    the dispatcher of [internal/pipeline], the text of recipe violations and the driver of a
    run ([run_recipe.go]).  The decoding of where-trees by [encoding/json] and their patterns
    by [regexp] are parameters.  The engine is generic in its format, and its theorems ask
    for the laws they use ([BuildLaws], [CodecLaws], [MergeLaws], [SearchLaws]), which
    [TableFormat] keeps.  The bm25 format keeps all but [MergeLaws], of which only the choice
    of the members is proved ([merge_keeps_the_last_copy]): a merge can overwrite bytes it
    stored ([merge_can_erase_postings]).

    Of the program: the hnsw format ([formats/hnsw]), a randomized proximity graph over
    Hamming distances with a stored layout of its own; races of two engine writers inside a handler;
    [internal/segmentdist], which drives the engine through a disk cache and a remote store;
    the graph measures of [internal/topology]; collectors and parsers of sources, over
    third-party syntax trees; the query front ends, command line, wiring, network clients
    and generated code. *)

From stdpp Require Export base list strings gmap sorting.
From Stdlib Require Export ZArith Lia.

#[global] Arguments Nat.div : simpl never.
#[global] Arguments Nat.modulo : simpl never.
#[global] Arguments Z.div : simpl never.
#[global] Arguments Z.modulo : simpl never.

(** ** Go results: a value or an error, and running out of fuel *)

(** [(T, error)] of a Go function: the error is a value of the component's own
    error type. *)
Inductive result (E A : Type) : Type :=
| Ok (a : A)
| Err (e : E).
Arguments Ok {E A} a.
Arguments Err {E A} e.

Definition result_bind {E A B : Type} (r : result E A) (f : A → result E B) : result E B :=
  match r with
  | Ok a => f a
  | Err e => Err e
  end.

Definition is_ok {E A : Type} (r : result E A) : bool :=
  match r with Ok _ => true | Err _ => false end.

(** A loop or recursion that may not terminate is given fuel; [None] is "out of
    fuel", never a result of the program. *)
Definition fueled (E A : Type) : Type := option (result E A).

Definition fueled_bind {E A B : Type} (r : fueled E A) (f : A → fueled E B) : fueled E B :=
  match r with
  | None => None
  | Some (Err e) => Some (Err e)
  | Some (Ok a) => f a
  end.

Declare Scope go_scope.
Delimit Scope go_scope with go.
Notation "x <-- m ;; k" := (result_bind m (fun x => k))
  (at level 100, m at next level, right associativity) : go_scope.
Notation "x <~~ m ;; k" := (fueled_bind m (fun x => k))
  (at level 100, m at next level, right associativity) : go_scope.

Lemma result_bind_Ok {E A B : Type} (r : result E A) (f : A → result E B) (b : B) :
  result_bind r f = Ok b → ∃ a, r = Ok a ∧ f a = Ok b.
Proof. destruct r as [a|e]; [|done]. intros H. by exists a. Qed.

(** ** Machine integers: Go's [int] and [int64], [uint64] *)

Definition wrap64 (z : Z) : Z := ((z + 2 ^ 63) mod 2 ^ 64 - 2 ^ 63)%Z.
Definition int64_range (z : Z) : Prop := (- 2 ^ 63 <= z < 2 ^ 63)%Z.

Lemma wrap64_range z : int64_range (wrap64 z).
Proof.
  unfold int64_range, wrap64.
  pose proof (Z.mod_pos_bound (z + 2 ^ 63) (2 ^ 64) ltac:(lia)). lia.
Qed.

Lemma wrap64_id z : int64_range z → wrap64 z = z.
Proof.
  unfold int64_range, wrap64. intros H. rewrite Z.mod_small; lia.
Qed.

(** ** Go strings: the byte-wise lexicographic order *)

(** Go's [a < b] on strings. *)
Definition str_lt (a b : string) : Prop := String.ltb a b = true.

#[export] Instance str_lt_dec a b : Decision (str_lt a b).
Proof. unfold str_lt. apply _. Defined.

Notation "a '<s' b" := (str_lt a b) (at level 70) : go_scope.
Notation "a '<=s' b" := (String.le a b) (at level 70) : go_scope.
Open Scope go_scope.

Lemma str_compare_refl a : String.compare a a = Eq.
Proof.
  pose proof (String.compare_antisym a a) as H. destruct (String.compare a a); done.
Qed.

Lemma str_lt_not_le a b : a <s b ↔ ¬ b <=s a.
Proof.
  unfold str_lt, String.le, String.ltb, String.leb.
  rewrite (String.compare_antisym a b).
  destruct (String.compare b a); simpl; split; intros H; try done.
  all: try (exfalso; apply H; done). intros [].
Qed.

Lemma str_le_not_lt a b : a <=s b ↔ ¬ b <s a.
Proof.
  rewrite str_lt_not_le. destruct (decide (a <=s b)); naive_solver.
Qed.

Lemma str_lt_le a b : a <s b → a <=s b.
Proof.
  rewrite str_lt_not_le. intros H.
  destruct (total String.le a b) as [|]; [done|by destruct H].
Qed.

Lemma str_le_refl a : a <=s a.
Proof. reflexivity. Qed.

Lemma str_lt_irrefl a : ¬ a <s a.
Proof. rewrite str_lt_not_le. intros H. apply H. apply str_le_refl. Qed.

Lemma str_le_trans a b c : a <=s b → b <=s c → a <=s c.
Proof. intros. by trans b. Qed.

Lemma str_lt_le_trans a b c : a <s b → b <=s c → a <s c.
Proof.
  rewrite !str_lt_not_le. intros H1 H2 H3. apply H1. by trans c.
Qed.

Lemma str_le_lt_trans a b c : a <=s b → b <s c → a <s c.
Proof.
  rewrite !str_lt_not_le. intros H1 H2 H3. apply H2. by trans a.
Qed.

Lemma str_lt_trans a b c : a <s b → b <s c → a <s c.
Proof. intros H1 H2. eapply str_lt_le_trans; [done|by apply str_lt_le]. Qed.

Lemma str_le_lt_eq a b : a <=s b → a <s b ∨ a = b.
Proof.
  intros H. destruct (decide (b <=s a)) as [H'|H'].
  - right. by apply (anti_symm String.le).
  - left. by rewrite str_lt_not_le.
Qed.

Lemma str_lt_ne a b : a <s b → a ≠ b.
Proof. intros H ->. by apply (str_lt_irrefl b). Qed.

Lemma str_empty_le a : "" <=s a.
Proof. destruct a; done. Qed.

Lemma str_lt_nonempty a b : a <s b → b ≠ "".
Proof. intros H ->. apply str_lt_not_le in H. apply H, str_empty_le. Qed.

Lemma str_nonempty_lt a : a ≠ "" → "" <s a.
Proof.
  intros H. destruct (str_le_lt_eq "" a (str_empty_le a)) as [|<-]; done.
Qed.

Create HintDb gostr.
#[export] Hint Resolve str_lt_le str_le_refl str_le_trans str_lt_le_trans
  str_le_lt_trans str_lt_trans str_empty_le str_nonempty_lt str_lt_nonempty : gostr.

(** ** [slices.Sort] and [slices.BinarySearch] on strings *)

(** Any correct sort of strings gives the same list (the order is total and
    antisymmetric), so the sort chosen here is not observable. *)
Definition sort_strings (l : list string) : list string := merge_sort String.le l.

Lemma sort_strings_perm l : sort_strings l ≡ₚ l.
Proof. apply merge_sort_Permutation. Qed.

Lemma sort_strings_sorted l : StronglySorted String.le (sort_strings l).
Proof. apply StronglySorted_merge_sort; apply _. Qed.

Lemma elem_of_sort_strings x l : x ∈ sort_strings l ↔ x ∈ l.
Proof. by rewrite sort_strings_perm. Qed.

Lemma length_sort_strings l : length (sort_strings l) = length l.
Proof. by rewrite sort_strings_perm. Qed.

(** The loop of [slices.BinarySearch]: [for i < j { h := (i+j)/2; ... }]. The
    fuel is the length of the interval, which the loop halves. *)
Fixpoint bsearch_loop (fuel : nat) (l : list string) (target : string) (i j : nat) : nat :=
  match fuel with
  | O => i
  | S fuel =>
      if decide (i < j) then
        let h := (i + j) `div` 2 in
        match l !! h with
        | Some x =>
            if decide (x <s target) then bsearch_loop fuel l target (S h) j
            else bsearch_loop fuel l target i h
        | None => i
        end
      else i
  end.

Definition binary_search (l : list string) (target : string) : nat * bool :=
  let i := bsearch_loop (length l) l target 0 (length l) in
  (i, match l !! i with Some x => bool_decide (x = target) | None => false end).

Lemma sorted_lookup_le l i j x y :
  StronglySorted String.le l → l !! i = Some x → l !! j = Some y → i ≤ j → x <=s y.
Proof.
  intros Hs. revert i j. induction Hs as [|z l Hs IH Hz]; intros i j Hi Hj Hij; [done|].
  destruct i as [|i], j as [|j]; simplify_eq/=; try lia.
  - apply str_le_refl.
  - rewrite Forall_forall in Hz. apply Hz. by eapply list_elem_of_lookup_2.
  - eapply IH; eauto with lia.
Qed.

Lemma bsearch_loop_spec fuel l target i j :
  StronglySorted String.le l → i ≤ j → j ≤ length l → j - i ≤ fuel →
  (∀ k x, k < i → l !! k = Some x → x <s target) →
  (∀ k x, j ≤ k → l !! k = Some x → target <=s x) →
  let p := bsearch_loop fuel l target i j in
  p ≤ length l ∧
  (∀ k x, k < p → l !! k = Some x → x <s target) ∧
  (∀ k x, p ≤ k → l !! k = Some x → target <=s x).
Proof.
  intros Hs. revert i j.
  induction fuel as [|fuel IH]; intros i j Hij Hj Hf Hlo Hhi; cbn [bsearch_loop]; cbv zeta.
  { assert (i = j) as -> by lia. eauto with lia. }
  destruct (decide (i < j)) as [Hlt|]; last (assert (i = j) as -> by lia; eauto with lia).
  assert (i ≤ (i + j) `div` 2 < j) as [Hh1 Hh2].
  { split; [apply Nat.div_le_lower_bound|apply Nat.Div0.div_lt_upper_bound]; lia. }
  destruct (lookup_lt_is_Some_2 l ((i + j) `div` 2)) as [x Hx]; [lia|].
  rewrite Hx. destruct (decide (x <s target)) as [Hxt|Hxt].
  - apply IH; [lia..| |done].
    intros k y Hk Hy. eapply str_le_lt_trans; [|done].
    eapply (sorted_lookup_le l k); eauto with lia.
  - apply IH; [lia..|done|].
    intros k y Hk Hy. eapply str_le_trans; [by apply str_le_not_lt|].
    by eapply (sorted_lookup_le l); [| |exact Hy|].
Qed.

(** [slices.BinarySearch] on a sorted slice returns the leftmost insertion point. *)
Lemma binary_search_spec l target :
  StronglySorted String.le l →
  let p := fst (binary_search l target) in
  p ≤ length l ∧
  (∀ k x, k < p → l !! k = Some x → x <s target) ∧
  (∀ k x, p ≤ k → l !! k = Some x → target <=s x).
Proof.
  intros Hs. apply bsearch_loop_spec; try done; try lia.
  intros k x Hk Hx%lookup_lt_Some. lia.
Qed.

(** ** Lists *)

Lemma length_filter_strict {A} (P Q : A → Prop) `{∀ x, Decision (P x), ∀ x, Decision (Q x)}
    (l : list A) (m : A) :
  (∀ x, P x → Q x) → m ∈ l → Q m → ¬ P m →
  (length (filter P l) < length (filter Q l))%nat.
Proof.
  intros HPQ Hm HQm HPm.
  assert (∀ l', (length (filter P l') ≤ length (filter Q l'))%nat) as Hle.
  { clear -HPQ. induction l' as [|x l' IH]; [done|].
    rewrite !filter_cons. repeat case_decide; simpl; try lia. naive_solver. }
  induction Hm as [m' l'|m' x l' Hm IH]; rewrite !filter_cons.
  - rewrite decide_False by done. rewrite decide_True by done. simpl. specialize (Hle l'). lia.
  - specialize (IH HQm HPm). specialize (Hle l').
    repeat case_decide; simpl; try lia. naive_solver.
Qed.

Lemma list_find_None_Forall {A} (P : A → Prop) `{∀ x, Decision (P x)} (l : list A) :
  list_find P l = None → Forall (λ x, ¬ P x) l.
Proof. by rewrite list_find_None. Qed.

Lemma exists_elem_cons {A} (P : A → Prop) y l :
  (∃ x, x ∈ y :: l ∧ P x) ↔ P y ∨ ∃ x, x ∈ l ∧ P x.
Proof.
  split.
  - intros (x & [->|Hx]%elem_of_cons & HP); [by left|right; by exists x].
  - intros [HP|(x & Hx & HP)]; [exists y|exists x]; (split; [|done]); [by left|by right].
Qed.

Lemma list_filter_none {A} (P : A → Prop) `{∀ x, Decision (P x)} (l : list A) :
  Forall (λ x, ¬ P x) l → filter P l = [].
Proof. induction 1; [done|]. by rewrite filter_cons_False. Qed.

Lemma list_filter_every {A} (P : A → Prop) `{∀ x, Decision (P x)} (l : list A) :
  Forall P l → filter P l = l.
Proof. induction 1; [done|]. rewrite filter_cons_True by done. by f_equal. Qed.

Lemma StronglySorted_lookup_lt {A} (R : A → A → Prop) (l : list A) i j x y :
  StronglySorted R l → l !! i = Some x → l !! j = Some y → i < j → R x y.
Proof.
  intros Hs. revert i j. induction Hs as [|z l Hs IH Hz]; intros i j Hi Hj Hij; [done|].
  destruct i as [|i], j as [|j]; simplify_eq/=; try lia.
  - rewrite Forall_forall in Hz. apply Hz. by eapply list_elem_of_lookup_2.
  - eapply IH; eauto with lia.
Qed.

Lemma StronglySorted_filter_fmap {A B} (R : A → A → Prop) (R' : B → B → Prop) (f : A → B)
    (P : A → Prop) `{∀ x, Decision (P x)} (l : list A) :
  (∀ x y, x ∈ l → y ∈ l → P x → P y → R x y → R' (f x) (f y)) →
  StronglySorted R l → StronglySorted R' (f <$> filter P l).
Proof.
  intros Hf Hs. induction Hs as [|x l Hs IH Hx]; [constructor|]. rewrite filter_cons.
  assert (StronglySorted R' (f <$> filter P l)) as Hl.
  { apply IH. intros a b Ha Hb. apply Hf; by right. }
  case_decide as HP; [|done]. rewrite fmap_cons. constructor; [done|].
  rewrite Forall_forall in Hx. apply Forall_forall. intros b (y & -> & [HPy Hy]%list_elem_of_filter)%list_elem_of_fmap.
  apply Hf; [by left|by right|done|done|by apply Hx].
Qed.

(** How many of the first [n] naturals a predicate holds of. *)
Definition count_true (P : nat → bool) (n : nat) : nat :=
  length (filter (λ k, P k = true) (seq 0 n)).

Lemma count_true_add P n m :
  count_true P (n + m) = count_true P n + count_true (λ k, P (n + k)) m.
Proof.
  unfold count_true. rewrite seq_app, filter_app, length_app. f_equal. simpl.
  replace (seq n m) with (Nat.add n <$> seq 0 m) by (by rewrite fmap_add_seq, Nat.add_0_r).
  induction (seq 0 m) as [|k l IH]; [done|].
  rewrite fmap_cons, !filter_cons. by repeat case_decide; simpl; rewrite ?IH.
Qed.

Lemma count_true_ext P Q n :
  (∀ k, k < n → P k = Q k) → count_true P n = count_true Q n.
Proof.
  induction n as [|n IH]; intros H; [done|].
  replace (S n) with (n + 1) by lia. rewrite !count_true_add.
  f_equal; [apply IH; auto with lia|]. unfold count_true. simpl.
  rewrite !filter_cons, H by lia. done.
Qed.

Lemma count_true_all P n : (∀ k, k < n → P k = true) → count_true P n = n.
Proof.
  induction n as [|n IH]; intros H; [done|].
  replace (S n) with (n + 1) by lia. rewrite count_true_add, IH by auto with lia.
  f_equal. unfold count_true. simpl. by rewrite filter_cons, H, decide_True by lia.
Qed.

Lemma count_true_le P n : count_true P n ≤ n.
Proof. unfold count_true. etrans; [apply length_filter|]. by rewrite length_seq. Qed.

(** A list sorted between neighbours is sorted, where the order is transitive. *)
Lemma Sorted_StronglySorted_on {A} (P : A → Prop) (R : A → A → Prop) (l : list A) :
  (∀ x y z, P x → P y → P z → R x y → R y z → R x z) →
  Forall P l → Sorted R l → StronglySorted R l.
Proof.
  intros Htrans HP Hs. induction Hs as [|x l Hs IH Hx]; [constructor|].
  apply Forall_cons in HP as [HPx HPl]. constructor; [by apply IH|].
  specialize (IH HPl). destruct Hx as [|y l Hxy]; [constructor|].
  apply StronglySorted_inv in IH as [_ Hy]. constructor; [done|].
  apply Forall_cons in HPl as [HPy HPl]. rewrite Forall_forall in Hy, HPl |- *.
  intros z Hz. apply (Htrans x y z); auto.
Qed.

Lemma NoDup_fmap_elem {A B} (f : A → B) (l : list A) x y :
  NoDup (f <$> l) → x ∈ l → y ∈ l → f x = f y → x = y.
Proof.
  intros Hnd [i Hi]%list_elem_of_lookup [j Hj]%list_elem_of_lookup Hf.
  assert (i = j) as ->; [|congruence].
  apply (NoDup_lookup (f <$> l) i j (f x)); [done|..].
  - by rewrite list_lookup_fmap, Hi.
  - by rewrite list_lookup_fmap, Hj, Hf.
Qed.

Lemma StronglySorted_take {A} (R : A → A → Prop) (l : list A) n :
  StronglySorted R l → StronglySorted R (take n l).
Proof.
  intros Hs. revert n. induction Hs as [|x l Hs IH Hx]; intros [|n]; constructor; [done|].
  by apply Forall_take.
Qed.
