(* ===== verification/Paging.v ===== *)
(** * Paging: the keyset, band and pivot drains of [internal/paging]

    [Keyset] models the id-cursor drains of browse_drain.go; [Bands] models
    band_drain.go and the pivot drain that escapes into it.  The page fetch is
    the caller's closure over a server and is an argument of every definition;
    what a theorem needs of the server is a named hypothesis. *)

From S2P Require Import Prelude.
From Stdlib Require Import SpecFloat.

(** ** Data *)

(** The protobuf edge row; [Weight] and [Confidence] are Go float64 values. *)
Record Edge := mkEdge {
  FromId : string;
  ToId : string;
  EType : string;
  Weight : spec_float;
  Confidence : spec_float;
  Method : string;
  Evidence : string;
  LastValidated : Z;
  TombstonedAt : Z;
}.

(** [edgeDedupKey]: one membership of one triple. *)
Record edgeDedupKey := mkKey {
  fromID : string;
  toID : string;
  edgeType : string;
  evidence : string;
}.

#[export] Instance edgeDedupKey_eq_dec : EqDecision edgeDedupKey.
Proof. solve_decision. Defined.

#[export] Instance edgeDedupKey_countable : Countable edgeDedupKey.
Proof.
  refine (inj_countable' (λ k, (fromID k, toID k, edgeType k, evidence k))
            (λ '(a, b, c, d), mkKey a b c d) _).
  by intros [].
Defined.

Definition dedup_key (e : Edge) : edgeDedupKey :=
  mkKey (FromId e) (ToId e) (EType e) (Evidence e).

(** The field-by-field copy appended to the union: eight of the nine fields, so
    the copy's [TombstonedAt] is the zero value. *)
Definition copy_edge (e : Edge) : Edge :=
  mkEdge (FromId e) (ToId e) (EType e) (Weight e) (Confidence e) (Method e)
    (Evidence e) (LastValidated e) 0.

(** The [seen] map and the [out] slice every drain threads. *)
Record Union := mkUnion { seen : gset edgeDedupKey; out : list Edge }.

Definition empty_union : Union := mkUnion ∅ [].

(** The dedup loop that ends [drainBand] and [drainPivotPage]. *)
Definition absorb_edge (u : Union) (e : Edge) : Union :=
  if decide (dedup_key e ∈ seen u) then u
  else mkUnion ({[dedup_key e]} ∪ seen u) (out u ++ [copy_edge e]).

Definition absorb (edges : list Edge) (u : Union) : Union :=
  fold_left absorb_edge edges u.

(** [(edgeCap > 0 && len(edges) >= edgeCap) || truncated] *)
Definition saturated (edgeCap : Z) (edges : list Edge) (truncated : bool) : bool :=
  ((0 <? edgeCap)%Z && (edgeCap <=? Z.of_nat (length edges))%Z) || truncated.

(** Errors, one constructor per [fmt.Errorf] of the package. *)
Inductive drainErr (FE : Type) : Type :=
| FetchFailed (e : FE)
| TooFewBands (boundaries : nat)
| OutOfBand (lo hi from : string)
| Unsplittable (lo hi : string) (edgeCap : Z)
| PivotUnsplit (pivot : string) (edgeCap : Z) (inner : drainErr FE)
| IndexPanic.
Arguments FetchFailed {FE} e.
Arguments TooFewBands {FE} boundaries.
Arguments OutOfBand {FE} lo hi from.
Arguments Unsplittable {FE} lo hi edgeCap.
Arguments PivotUnsplit {FE} pivot edgeCap inner.
Arguments IndexPanic {FE}.

Definition EdgeBandCount : nat := 16.
Definition EdgePivotPageSize : Z := 500%Z.

(** ** Bands of the from_id space *)

Definition inBand (from lo hi : string) : bool :=
  if bool_decide (lo ≠ "" ∧ from <s lo) then false
  else if bool_decide (hi ≠ "" ∧ hi <=s from) then false
  else true.

(** [EdgeBandBoundaries]: [sorted[i*len/n]] for [i = 1 .. n-1]. *)
Definition EdgeBandBoundaries (ids : list string) (n : nat) : list string :=
  if decide (length ids = 0 ∨ (n ≤ 1)) then []
  else
    let sorted := sort_strings ids in
    omap (λ i, sorted !! ((i * length sorted) `div` n)) (seq 1 (n - 1)).

(** [for start < len(sorted) && sorted[start] == lo { start++ }] *)
Fixpoint skip_equal (fuel : nat) (sorted : list string) (lo : string) (start : nat) : nat :=
  match fuel with
  | O => start
  | S fuel =>
      match sorted !! start with
      | Some x => if decide (x = lo) then skip_equal fuel sorted lo (S start) else start
      | None => start
      end
  end.

(** The half-open index range of the ids strictly inside the band. *)
Definition median_start (sorted : list string) (lo : string) : nat :=
  if decide (lo = "") then 0
  else skip_equal (length sorted) sorted lo (fst (binary_search sorted lo)).

Definition median_stop (sorted : list string) (hi : string) : nat :=
  if decide (hi = "") then length sorted else fst (binary_search sorted hi).

Definition medianInside (sorted : list string) (lo hi : string) : option string :=
  let start := median_start sorted lo in
  let stop := median_stop sorted hi in
  if decide (stop ≤ start) then None
  else sorted !! (start + (stop - start) `div` 2).

Section Bands.
Context {FE : Type}.
Context (fetchPage : list string → string → string → result FE (list Edge * bool)).

Fixpoint drainBand (fuel : nat) (pivots splitPoints : list string) (lo hi : string)
      (edgeCap : Z) (u : Union) : fueled (drainErr FE) Union :=
    match fuel with
    | O => None
    | S fuel =>
        match fetchPage pivots lo hi with
        | Err e => Some (Err (FetchFailed e))
        | Ok (edges, truncated) =>
            match list_find (λ e, inBand (FromId e) lo hi = false) edges with
            | Some (_, e) => Some (Err (OutOfBand lo hi (FromId e)))
            | None =>
                if saturated edgeCap edges truncated then
                  match medianInside splitPoints lo hi with
                  | None => Some (Err (Unsplittable lo hi edgeCap))
                  | Some split =>
                      u1 <~~ drainBand fuel pivots splitPoints lo split edgeCap u ;;
                      drainBand fuel pivots splitPoints split hi edgeCap u1
                  end
                else Some (Ok (absorb edges u))
            end
        end
    end.

  (** The loop of [drainBandTiling] over the upper bounds still to visit. *)
Fixpoint tile_from (fuel : nat) (pivots splitPoints : list string) (lo : string)
      (his : list string) (edgeCap : Z) (u : Union) : fueled (drainErr FE) Union :=
    match his with
    | [] => Some (Ok u)
    | hi :: his =>
        u1 <~~ drainBand fuel pivots splitPoints lo hi edgeCap u ;;
        tile_from fuel pivots splitPoints hi his edgeCap u1
    end.

Definition drainBandTiling (fuel : nat) (pivots splitPoints boundaries : list string)
      (edgeCap : Z) (u : Union) : fueled (drainErr FE) Union :=
    tile_from fuel pivots splitPoints "" (boundaries ++ [""]) edgeCap u.

Definition drainPivotByBands (fuel : nat) (pivot : string) (ids : list string)
      (edgeCap : Z) (u : Union) : fueled (drainErr FE) Union :=
    let splitPoints := sort_strings ids in
    let boundaries := EdgeBandBoundaries ids EdgeBandCount in
    match drainBandTiling fuel [pivot] splitPoints boundaries edgeCap u with
    | Some (Err e) => Some (Err (PivotUnsplit pivot edgeCap e))
    | r => r
    end.

  (** [pageFuel] bounds the halvings of the pivot page, [fuel] those of a band. *)
Fixpoint drainPivotPage (pageFuel fuel : nat) (pivots allIDs : list string)
      (edgeCap : Z) (u : Union) : fueled (drainErr FE) Union :=
    match pageFuel with
    | O => None
    | S pageFuel =>
        match fetchPage pivots "" "" with
        | Err e => Some (Err (FetchFailed e))
        | Ok (edges, truncated) =>
            if saturated edgeCap edges truncated then
              match pivots with
              | [pivot] => drainPivotByBands fuel pivot allIDs edgeCap u
              | _ =>
                  let mid := (length pivots `div` 2) in
                  u1 <~~ drainPivotPage pageFuel fuel (take mid pivots) allIDs edgeCap u ;;
                  drainPivotPage pageFuel fuel (drop mid pivots) allIDs edgeCap u1
              end
            else Some (Ok (absorb edges u))
        end
    end.

  (** [for start := 0; start < len(ids); start += pageSize]: the loop consumes
      the ids not yet paged. *)
Fixpoint pivot_pages (loopFuel pageFuel fuel : nat) (rest allIDs : list string)
      (pageSize : nat) (edgeCap : Z) (u : Union) : fueled (drainErr FE) Union :=
    match rest with
    | [] => Some (Ok u)
    | _ =>
        match loopFuel with
        | O => None
        | S loopFuel =>
            u1 <~~ drainPivotPage pageFuel fuel (take pageSize rest) allIDs edgeCap u ;;
            pivot_pages loopFuel pageFuel fuel (drop pageSize rest) allIDs pageSize edgeCap u1
        end
    end.

Definition DrainPivotEdges (fuel : nat) (ids : list string) (pageSize edgeCap : Z) :
      fueled (drainErr FE) (list Edge) :=
    match ids with
    | [] => Some (Ok [])
    | _ =>
        let size := if (pageSize <=? 0)%Z then EdgePivotPageSize else pageSize in
        u <~~ pivot_pages (length ids) (length ids) fuel ids ids (Z.to_nat size) edgeCap
                empty_union ;;
        Some (Ok (out u))
    end.
End Bands.

Definition DrainBandedEdges {FE : Type}
    (fetchPage : string → string → result FE (list Edge * bool))
    (fuel : nat) (ids boundaries : list string) (edgeCap : Z) :
    fueled (drainErr FE) (list Edge) :=
  match boundaries with
  | [] => Some (Err (TooFewBands 0))
  | _ =>
      let splitPoints := sort_strings ids in
      let widened := λ (_ : list string) lo hi, fetchPage lo hi in
      u <~~ drainBandTiling widened fuel [] splitPoints boundaries edgeCap empty_union ;;
      Some (Ok (out u))
  end.

(** ** The dedup union *)

Definition union_ok (u : Union) : Prop :=
  seen u = list_to_set (dedup_key <$> out u) ∧ NoDup (dedup_key <$> out u).

Lemma dedup_key_copy e : dedup_key (copy_edge e) = dedup_key e.
Proof. done. Qed.

Lemma empty_union_ok : union_ok empty_union.
Proof. split; [done|constructor]. Qed.

Lemma absorb_edge_ok u e : union_ok u → union_ok (absorb_edge u e).
Proof.
  intros [Hs Hn]. unfold absorb_edge. case_decide as Hd; [done|].
  split; simpl; rewrite fmap_app; simpl; rewrite dedup_key_copy.
  - rewrite list_to_set_app_L, <-Hs. set_solver.
  - apply NoDup_app. split; [done|]. split; [|apply NoDup_singleton].
    intros k Hk ->%list_elem_of_singleton. apply Hd. rewrite Hs.
    by apply elem_of_list_to_set.
Qed.

Lemma absorb_edge_seen u e k : k ∈ seen (absorb_edge u e) ↔ k ∈ seen u ∨ k = dedup_key e.
Proof. unfold absorb_edge. case_decide; set_solver. Qed.

Lemma absorb_ok es u : union_ok u → union_ok (absorb es u).
Proof.
  unfold absorb. revert u. induction es as [|e es IH]; intros u Hu; [done|].
  simpl. by apply IH, absorb_edge_ok.
Qed.

Lemma absorb_seen es u k :
  k ∈ seen (absorb es u) ↔ k ∈ seen u ∨ ∃ e, e ∈ es ∧ dedup_key e = k.
Proof.
  unfold absorb. revert u. induction es as [|e es IH]; intros u; simpl; [set_solver|].
  rewrite IH, absorb_edge_seen. setoid_rewrite elem_of_cons. naive_solver.
Qed.

Lemma absorb_out es u o :
  o ∈ out (absorb es u) → o ∈ out u ∨ ∃ e, e ∈ es ∧ o = copy_edge e.
Proof.
  unfold absorb. revert u. induction es as [|e es IH]; intros u Ho; simpl in *; [auto|].
  destruct (IH _ Ho) as [Ho'|(e' & ? & ?)]; [|set_solver].
  unfold absorb_edge in Ho'. case_decide; [auto|]. simpl in Ho'.
  apply elem_of_app in Ho' as [?| ->%list_elem_of_singleton]; set_solver.
Qed.

Lemma union_seen_out u k : union_ok u → k ∈ seen u ↔ k ∈ dedup_key <$> out u.
Proof. intros [-> _]. apply elem_of_list_to_set. Qed.

(** ** Half-open bands *)

Lemma inBand_spec x lo hi :
  inBand x lo hi = true ↔ (lo ≠ "" → lo <=s x) ∧ (hi ≠ "" → x <s hi).
Proof.
  unfold inBand. case_bool_decide as H1; [|case_bool_decide as H2]; split; try done.
  - intros [Hlo _]. destruct H1 as [H1 Hx%str_lt_not_le]. destruct Hx. by apply Hlo.
  - intros [_ Hhi]. destruct H2 as [H2 Hx%str_le_not_lt]. destruct Hx. by apply Hhi.
  - intros _. split; intros Hne.
    + apply str_le_not_lt. tauto.
    + apply str_lt_not_le. tauto.
Qed.

Lemma inBand_unbounded x : inBand x "" "" = true.
Proof. by apply inBand_spec. Qed.

Lemma inBand_cover x lo m hi :
  inBand x lo hi = true → inBand x lo m = true ∨ inBand x m hi = true.
Proof.
  rewrite !inBand_spec. intros [Hlo Hhi].
  destruct (decide (x <s m)); [left; naive_solver|].
  right. split; [|done]. intros _. by apply str_le_not_lt.
Qed.

(** The ids a saturating band may split on. *)
Definition strictly_inside (lo hi x : string) : Prop :=
  (lo ≠ "" → lo <s x) ∧ (hi ≠ "" → x <s hi).

#[export] Instance strictly_inside_dec lo hi x : Decision (strictly_inside lo hi x).
Proof. unfold strictly_inside. apply _. Defined.

Definition interior (lo hi : string) (ids : list string) : list string :=
  filter (strictly_inside lo hi) ids.

Lemma skip_equal_spec fuel l lo s :
  StronglySorted String.le l → s ≤ length l → (length l - s ≤ fuel) →
  (∀ k x, (k < s) → l !! k = Some x → x <=s lo) →
  (∀ k x, (s ≤ k) → l !! k = Some x → lo <=s x) →
  let p := skip_equal fuel l lo s in
  (∀ k x, (k < p) → l !! k = Some x → x <=s lo) ∧
  (∀ k x, (p ≤ k) → l !! k = Some x → lo <s x).
Proof.
  intros Hs. revert s. induction fuel as [|fuel IH]; intros s Hsl Hf Hlt Hge.
  { simpl. split; [done|]. intros k x Hk Hx%lookup_lt_Some. lia. }
  cbn [skip_equal]. destruct (l !! s) as [y|] eqn:Hy; cycle 1.
  { split; [done|]. intros k x Hk Hx%lookup_lt_Some. apply lookup_ge_None in Hy. lia. }
  pose proof (lookup_lt_Some _ _ _ Hy). destruct (decide (y = lo)) as [->|Hne].
  - apply IH; [lia..| |].
    + intros k x Hk Hx. destruct (decide (k = s)) as [->|]; [simplify_eq; apply str_le_refl|].
      apply (Hlt k); [lia|done].
    + intros k x Hk. apply Hge. lia.
  - split; [done|]. intros k x Hk Hx.
    eapply str_lt_le_trans; [|by eapply (sorted_lookup_le l s k)].
    destruct (str_le_lt_eq lo y) as [|<-]; [|done..]. by eapply (Hge s).
Qed.

Lemma median_bounds sorted lo hi :
  StronglySorted String.le sorted →
  median_stop sorted hi ≤ length sorted ∧
  ∀ k x, sorted !! k = Some x →
    (median_start sorted lo ≤ k ↔ (lo ≠ "" → lo <s x)) ∧
    (k < median_stop sorted hi ↔ (hi ≠ "" → x <s hi)).
Proof.
  intros Hs. unfold median_start, median_stop.
  destruct (binary_search_spec sorted lo Hs) as (Hl1 & Hl2 & Hl3).
  destruct (binary_search_spec sorted hi Hs) as (Hh1 & Hh2 & Hh3).
  split; [case_decide; lia|].
  intros k x Hx. pose proof (lookup_lt_Some _ _ _ Hx) as Hk. split.
  - destruct (decide (lo = "")) as [|Hd]; [split; [done|lia]|].
    destruct (skip_equal_spec (length sorted) sorted lo (fst (binary_search sorted lo)))
      as [Hp1 Hp2]; try done; try lia.
    { intros. apply str_lt_le. eauto. }
    set (p := skip_equal _ _ _ _) in *. split; [eauto|]. intros Hlt.
    destruct (decide (p ≤ k)) as [|Hgt]; [done|].
    exfalso. specialize (Hlt Hd). apply str_lt_not_le in Hlt. apply Hlt.
    apply (Hp1 k); [lia|done].
  - destruct (decide (hi = "")) as [|Hd]; [split; [done|lia]|]. split; [eauto|].
    intros Hlt. set (p := fst (binary_search sorted hi)) in *. destruct (decide (k < p)) as [|Hge]; [done|].
    exfalso. specialize (Hlt Hd). apply str_lt_not_le in Hlt. apply Hlt.
    apply (Hh3 k); [lia|done].
Qed.

(** The median of a sorted list is a usable split: an id strictly inside. *)
Lemma medianInside_Some sorted lo hi m :
  StronglySorted String.le sorted → medianInside sorted lo hi = Some m →
  m ∈ sorted ∧ strictly_inside lo hi m.
Proof.
  intros Hs Hm. destruct (median_bounds sorted lo hi Hs) as [Hstop Hb].
  unfold medianInside in Hm. cbv zeta in Hm. case_decide as Hd; [done|].
  split; [by eapply list_elem_of_lookup_2|].
  destruct (Hb _ _ Hm) as [H1 H2].
  pose proof (Nat.div_lt (median_stop sorted hi - median_start sorted lo) 2
    ltac:(lia) ltac:(lia)).
  split; [apply H1|apply H2]; lia.
Qed.

Lemma medianInside_None sorted lo hi :
  StronglySorted String.le sorted → medianInside sorted lo hi = None →
  interior lo hi sorted = [].
Proof.
  intros Hs Hm. destruct (median_bounds sorted lo hi Hs) as [Hstop Hb].
  unfold medianInside in Hm. cbv zeta in Hm. case_decide as Hd; cycle 1.
  { apply lookup_ge_None in Hm.
    pose proof (Nat.div_lt (median_stop sorted hi - median_start sorted lo) 2
      ltac:(lia) ltac:(lia)). lia. }
  destruct (interior lo hi sorted) as [|x l] eqn:Hi; [done|exfalso].
  assert (x ∈ interior lo hi sorted) as Hx by (rewrite Hi; set_solver).
  unfold interior in Hx. apply list_elem_of_filter in Hx as [[H1 H2] Hx].
  apply list_elem_of_lookup in Hx as [k Hx].
  destruct (Hb _ _ Hx) as [H3 H4]. apply H3 in H1. apply H4 in H2. lia.
Qed.

(** ** What a server owes, and what a drain delivers *)

(** The rows a plan selects: an empty pivot set is the match-all arm. *)
Definition selects (pivots : list string) (e : Edge) : Prop :=
  pivots = [] ∨ FromId e ∈ pivots ∨ ToId e ∈ pivots.

(** [drained E M P u u']: from [u], the union grew to [u'] by copies of edges of
    [E] that satisfy [M], and holds every edge of [E] that satisfies [P]. *)
Definition drained (E : list Edge) (M P : Edge → Prop) (u u' : Union) : Prop :=
  union_ok u' ∧ seen u ⊆ seen u' ∧
  (∀ o, o ∈ out u' → o ∈ out u ∨ ∃ e, e ∈ E ∧ M e ∧ o = copy_edge e) ∧
  (∀ e, e ∈ E → P e → dedup_key e ∈ seen u').

Lemma drained_refl E M u : union_ok u → drained E M (λ _, False) u u.
Proof. intros H. split_and!; [done|done|auto|done]. Qed.

Lemma drained_trans E M P Q u1 u2 u3 :
  drained E M P u1 u2 → drained E M Q u2 u3 → drained E M (λ e, P e ∨ Q e) u1 u3.
Proof.
  intros (_ & Hs1 & Ho1 & Hc1) (Hok & Hs2 & Ho2 & Hc2).
  split_and!; [done|set_solver| |].
  - intros o Ho. destruct (Ho2 o Ho) as [Ho'|]; [by apply Ho1|auto].
  - intros e He [HP|HQ]; [apply Hs2|]; eauto.
Qed.

Lemma drained_weaken E (M M' P P' : Edge → Prop) u u' :
  (∀ e, e ∈ E → M e → M' e) → (∀ e, e ∈ E → P' e → P e) →
  drained E M P u u' → drained E M' P' u u'.
Proof.
  intros HM HP (? & ? & Ho & Hc). split_and!; [done|done| |eauto].
  intros o Hoo. destruct (Ho o Hoo) as [|(e & ? & ? & ->)]; naive_solver.
Qed.

Lemma drained_widen E (M M' P : Edge → Prop) u u' :
  (∀ e, M e → M' e) → drained E M P u u' → drained E M' P u u'.
Proof. intros HM. by apply drained_weaken; auto. Qed.

Lemma drained_ok E M P u u' : drained E M P u u' → union_ok u'.
Proof. by intros []. Qed.

Lemma drained_absorb E (M P : Edge → Prop) edges u :
  union_ok u → (∀ e, e ∈ edges → e ∈ E ∧ M e) → (∀ e, e ∈ E → P e → e ∈ edges) →
  drained E M P u (absorb edges u).
Proof.
  intros Hu HM HP. split_and!.
  - by apply absorb_ok.
  - intros k. rewrite absorb_seen. auto.
  - intros o [|(e & He & ->)]%absorb_out; [auto|]. right. exists e. naive_solver.
  - intros e He HPe. rewrite absorb_seen. eauto.
Qed.

Create HintDb paging.
#[export] Hint Resolve empty_union_ok drained_ok : paging.

(** Halving a page of two or more pivots: two non-empty shares of the page. *)
Lemma halve_pivots (ps : list string) :
  2 ≤ length ps →
  let mid := length ps `div` 2 in
  0 < mid < length ps ∧ take mid ps ≠ [] ∧ drop mid ps ≠ [] ∧
  ∀ x, x ∈ ps ↔ x ∈ take mid ps ∨ x ∈ drop mid ps.
Proof.
  intros Hlen mid.
  assert (0 < mid < length ps) as Hmid.
  { split; [apply Nat.div_le_lower_bound|apply Nat.div_lt]; lia. }
  split_and!; [lia|lia| | |].
  - intros Hl%(f_equal length). rewrite length_take in Hl. simpl in Hl. lia.
  - intros Hl%(f_equal length). rewrite length_drop in Hl. simpl in Hl. lia.
  - intros x. by rewrite <-elem_of_app, take_drop.
Qed.

Lemma selects_subset ps qs e :
  qs ≠ [] → (∀ x, x ∈ qs → x ∈ ps) → selects qs e → selects ps e.
Proof. unfold selects. intros ? Hsub [?|[?|?]]; [done|right; eauto..]. Qed.

Section DrainSpec.
Context {FE : Type}.
Context (fetchPage : list string → string → string → result FE (list Edge * bool)).
Context (E : list Edge) (edgeCap : Z).

  (** Every row of a page is an edge of the graph the plan selects. *)
Definition page_sound (pivots : list string) : Prop :=
    ∀ lo hi edges tr, fetchPage pivots lo hi = Ok (edges, tr) →
      ∀ e, e ∈ edges → e ∈ E ∧ selects pivots e.

  (** A page without a saturation signal holds every selected row of its band. *)
Definition page_complete (pivots : list string) : Prop :=
    ∀ lo hi edges tr, fetchPage pivots lo hi = Ok (edges, tr) →
      saturated edgeCap edges tr = false →
      ∀ e, e ∈ E → selects pivots e → inBand (FromId e) lo hi = true → e ∈ edges.

  (** The server applies the band to every row. *)
Definition page_in_band (pivots : list string) : Prop :=
    ∀ lo hi edges tr, fetchPage pivots lo hi = Ok (edges, tr) →
      ∀ e, e ∈ edges → inBand (FromId e) lo hi = true.

Definition fetch_answers (pivots : list string) : Prop :=
    ∀ lo hi, ∃ edges tr, fetchPage pivots lo hi = Ok (edges, tr).

Lemma drainBand_drained fuel pivots sp lo hi u u' :
    page_sound pivots → page_complete pivots → union_ok u → drainBand fetchPage fuel pivots sp lo hi edgeCap u = Some (Ok u') →
    drained E (selects pivots) (λ e, selects pivots e ∧ inBand (FromId e) lo hi = true) u u'.
Proof.
    intros Hsound Hcomplete. revert lo hi u u'.
    induction fuel as [|fuel IH]; intros lo hi u u' Hu Hd; [done|].
    cbn [drainBand] in Hd. destruct (fetchPage pivots lo hi) as [[edges tr]|] eqn:Hf; [|done].
    destruct (list_find _ edges) as [[]|]; [done|].
    destruct (saturated edgeCap edges tr) eqn:Hsat.
    - destruct (medianInside sp lo hi) as [m|]; [|done].
      unfold fueled_bind in Hd.
      destruct (drainBand _ fuel pivots sp lo m edgeCap u) as [[u1|]|] eqn:H1; [|done..].
      pose proof (IH _ _ _ _ Hu H1) as D1.
      pose proof (IH _ _ _ _ (drained_ok _ _ _ _ _ D1) Hd) as D2.
      eapply drained_weaken; [| |exact (drained_trans _ _ _ _ _ _ _ D1 D2)]; [done|].
      intros e _ [Hsel Hin]. destruct (inBand_cover _ _ m _ Hin); auto.
    - simplify_eq. apply drained_absorb; [done|by eapply Hsound|].
      intros e He [Hsel Hin]. by eapply Hcomplete.
  Qed.

Lemma tile_from_drained fuel pivots sp lo his u u' :
    page_sound pivots → page_complete pivots → union_ok u → tile_from fetchPage fuel pivots sp lo (his ++ [""]) edgeCap u = Some (Ok u') →
    drained E (selects pivots) (λ e, selects pivots e ∧ inBand (FromId e) lo "" = true) u u'.
Proof.
    intros Hsound Hcomplete. revert lo u.
    induction his as [|hi his IH]; intros lo u Hu Ht; simpl in Ht;
      unfold fueled_bind in Ht;
      destruct (drainBand fetchPage fuel pivots sp lo _ edgeCap u) as [[u1|]|] eqn:H1;
      try done; pose proof (drainBand_drained _ _ _ _ _ _ _ Hsound Hcomplete Hu H1) as D1.
    - by simplify_eq.
    - pose proof (IH _ _ (drained_ok _ _ _ _ _ D1) Ht) as D2.
      eapply drained_weaken; [| |exact (drained_trans _ _ _ _ _ _ _ D1 D2)]; [done|].
      intros e _ [Hsel Hin]. destruct (inBand_cover _ _ hi _ Hin); auto.
  Qed.

Lemma drainPivotPage_drained pageFuel fuel pivots allIDs u u' :
    (∀ ps, page_sound ps) → (∀ ps, page_complete ps) → union_ok u → pivots ≠ [] →
    drainPivotPage fetchPage pageFuel fuel pivots allIDs edgeCap u = Some (Ok u') →
    drained E (selects pivots) (selects pivots) u u'.
Proof.
    intros Hsound Hcomplete. revert pivots u u'.
    induction pageFuel as [|pageFuel IH]; intros pivots u u' Hu Hne Hd; [done|].
    cbn [drainPivotPage] in Hd. destruct (fetchPage pivots "" "") as [[edges tr]|] eqn:Hf; [|done].
    destruct (saturated edgeCap edges tr) eqn:Hsat; cycle 1.
    { simplify_eq. apply drained_absorb; [done|by eapply Hsound|].
      intros e He Hsel. by eapply Hcomplete; [..|apply inBand_unbounded]. }
    destruct pivots as [|p [|q pivots]]; [done| |].
    - unfold drainPivotByBands, drainBandTiling in Hd.
      destruct (tile_from _ _ _ _ _ _ _ _) as [[]|] eqn:Ht; simplify_eq.
      eapply drained_weaken; [| |exact (tile_from_drained _ _ _ _ _ _ _ (Hsound _) (Hcomplete _) Hu Ht)]; [done|].
      intros e _ Hsel. split; [done|apply inBand_unbounded].
    - set (ps := p :: q :: pivots) in *. cbv zeta in Hd. unfold fueled_bind in Hd.
      destruct (halve_pivots ps ltac:(unfold ps; simpl; lia)) as (_ & Hn1 & Hn2 & Hsplit).
      set (mid := length ps `div` 2) in *.
      destruct (drainPivotPage _ pageFuel fuel (take mid ps) allIDs edgeCap u)
        as [[u1|]|] eqn:H1; [|done..].
      pose proof (IH _ _ _ Hu Hn1 H1) as D1.
      pose proof (IH _ _ _ (drained_ok _ _ _ _ _ D1) Hn2 Hd) as D2.
      apply (drained_widen _ _ (selects ps)) in D1;
        [|intros e; by apply selects_subset; naive_solver].
      apply (drained_widen _ _ (selects ps)) in D2;
        [|intros e; by apply selects_subset; naive_solver].
      eapply drained_weaken; [| |exact (drained_trans _ _ _ _ _ _ _ D1 D2)]; [done|].
      intros e _ [|Hs]; [done|]. unfold selects. rewrite !Hsplit in Hs. tauto.
  Qed.

Lemma pivot_pages_drained loopFuel pageFuel fuel rest allIDs size u u' :
    (∀ ps, page_sound ps) → (∀ ps, page_complete ps) → union_ok u → 0 < size →
    pivot_pages fetchPage loopFuel pageFuel fuel rest allIDs size edgeCap u = Some (Ok u') →
    drained E (λ e, FromId e ∈ rest ∨ ToId e ∈ rest) (λ e, FromId e ∈ rest ∨ ToId e ∈ rest) u u'.
Proof.
    intros Hsound Hcomplete. revert rest u.
    induction loopFuel as [|loopFuel IH]; intros [|r rest] u Hu Hsize Hp; try done.
    1,2: simplify_eq/=; apply (drained_weaken E (λ _, False) _ (λ _, False));
      [done|set_solver|by apply drained_refl].
    cbn [pivot_pages] in Hp. set (ps := r :: rest) in *. unfold fueled_bind in Hp.
    destruct (drainPivotPage _ pageFuel fuel (take size ps) allIDs edgeCap u)
      as [[u1|]|] eqn:H1; [|done..].
    assert (take size ps ≠ []) as Hn.
    { intros Hl%(f_equal length). rewrite length_take in Hl. unfold ps in Hl. simpl in Hl. lia. }
    assert (∀ x, x ∈ ps ↔ x ∈ take size ps ∨ x ∈ drop size ps) as Hsplit.
    { intros x. by rewrite <-elem_of_app, take_drop. }
    pose proof (drainPivotPage_drained _ _ _ _ _ _ Hsound Hcomplete Hu Hn H1) as D1.
    pose proof (IH _ _ (drained_ok _ _ _ _ _ D1) Hsize Hp) as D2.
    apply (drained_widen _ _ (λ e, FromId e ∈ ps ∨ ToId e ∈ ps)) in D1;
      [|unfold selects; setoid_rewrite Hsplit; naive_solver].
    apply (drained_widen _ _ (λ e, FromId e ∈ ps ∨ ToId e ∈ ps)) in D2;
      [|setoid_rewrite Hsplit; naive_solver].
    eapply drained_weaken; [| |exact (drained_trans _ _ _ _ _ _ _ D1 D2)]; [done|].
    intros e _ Hs. rewrite !Hsplit in Hs. unfold selects. tauto.
  Qed.
End DrainSpec.

(** ** Termination: each split leaves the candidate set of both halves *)

Lemma interior_split sp lo hi m :
  m ∈ sp → m ≠ "" → strictly_inside lo hi m →
  length (interior lo m sp) < length (interior lo hi sp) ∧
  length (interior m hi sp) < length (interior lo hi sp).
Proof.
  intros Hm Hne [Hlo Hhi]. split; apply length_filter_strict with m; try done.
  - intros x [Hx1 Hx2]. split; [done|]. intros. eapply str_lt_trans; eauto.
  - intros [_ H]. by apply (str_lt_irrefl m), H.
  - intros x [Hx1 Hx2]. split; [|done]. intros. eapply str_lt_trans; eauto.
  - intros [H _]. by apply (str_lt_irrefl m), H.
Qed.

Section Termination.
Context {FE : Type}.
Context (fetchPage : list string → string → string → result FE (list Edge * bool)).
Context (edgeCap : Z).

Lemma drainBand_terminates fuel pivots sp lo hi u :
    StronglySorted String.le sp → "" ∉ sp → length (interior lo hi sp) < fuel →
    is_Some (drainBand fetchPage fuel pivots sp lo hi edgeCap u).
Proof.
    intros Hs Hne. revert lo hi u. induction fuel as [|fuel IH]; intros lo hi u Hf; [lia|].
    cbn [drainBand]. destruct (fetchPage pivots lo hi) as [[edges tr]|]; [|done].
    destruct (list_find _ edges) as [[]|]; [done|].
    destruct (saturated edgeCap edges tr); [|done].
    destruct (medianInside sp lo hi) as [m|] eqn:Hm; [|done].
    apply medianInside_Some in Hm as [Hm Hin]; [|done].
    destruct (interior_split sp lo hi m) as [H1 H2]; [done|set_solver|done|].
    destruct (IH lo m u ltac:(lia)) as [[u1|e] Hr]; rewrite Hr; simpl; [|done].
    apply IH. lia.
  Qed.

Lemma tile_from_terminates fuel pivots sp lo his u :
    StronglySorted String.le sp → "" ∉ sp → length sp < fuel →
    is_Some (tile_from fetchPage fuel pivots sp lo his edgeCap u).
Proof.
    intros Hs Hne Hf. revert lo u. induction his as [|hi his IH]; intros lo u; [done|].
    simpl. assert (is_Some (drainBand fetchPage fuel pivots sp lo hi edgeCap u)) as [[u1|e] Hr].
    { apply drainBand_terminates; [done..|].
      pose proof (length_filter (strictly_inside lo hi) sp). unfold interior. lia. }
    all: rewrite Hr; simpl.
    - apply IH.
    - done.
  Qed.

Lemma drainPivotPage_terminates pageFuel fuel pivots allIDs u :
    "" ∉ allIDs → length allIDs < fuel → pivots ≠ [] → length pivots ≤ pageFuel →
    is_Some (drainPivotPage fetchPage pageFuel fuel pivots allIDs edgeCap u).
Proof.
    intros Hne Hf. revert pivots u.
    induction pageFuel as [|pageFuel IH]; intros pivots u Hp Hl;
      [destruct pivots; simpl in Hl; [done|lia]|].
    cbn [drainPivotPage]. destruct (fetchPage pivots "" "") as [[edges tr]|]; [|done].
    destruct (saturated edgeCap edges tr); [|done].
    destruct pivots as [|p [|q pivots]]; [done| |].
    - unfold drainPivotByBands, drainBandTiling.
      assert (is_Some (tile_from fetchPage fuel [p] (sort_strings allIDs) ""
        (EdgeBandBoundaries allIDs EdgeBandCount ++ [""]) edgeCap u)) as [[|] Hr];
        [|by rewrite Hr..].
      apply tile_from_terminates; [apply sort_strings_sorted|by rewrite elem_of_sort_strings|].
      by rewrite length_sort_strings.
    - set (ps := p :: q :: pivots) in *. cbv zeta.
      assert (2 ≤ length ps) as H2 by (unfold ps; simpl; lia). clearbody ps.
      destruct (halve_pivots ps H2) as ([Hmid1 Hmid2] & Hn1 & Hn2 & _).
      assert (length (take (length ps `div` 2) ps) ≤ pageFuel) as Hl1
        by (rewrite length_take; lia).
      destruct (IH _ u Hn1 Hl1) as [[u1|e] Hr]; rewrite Hr; cbn [fueled_bind]; [|done].
      apply IH; [done|]. rewrite length_drop. lia.
  Qed.

Lemma pivot_pages_terminates loopFuel pageFuel fuel rest allIDs size u :
    "" ∉ allIDs → length allIDs < fuel → 0 < size →
    length rest ≤ loopFuel → length rest ≤ pageFuel →
    is_Some (pivot_pages fetchPage loopFuel pageFuel fuel rest allIDs size edgeCap u).
Proof.
    intros Hne Hf Hsize. revert rest u.
    induction loopFuel as [|loopFuel IH]; intros [|r rest] u Hl Hp; simpl in Hl; try done;
      [lia|].
    cbn [pivot_pages]. set (ps := r :: rest) in *.
    assert (is_Some (drainPivotPage fetchPage pageFuel fuel (take size ps) allIDs edgeCap u))
      as [[u1|e] Hr].
    { apply drainPivotPage_terminates; [done..| |rewrite length_take; lia].
      destruct size; [lia|done]. }
    all: rewrite Hr; simpl.
    - apply IH; rewrite length_drop; unfold ps in *; simpl in *; lia.
    - done.
  Qed.
End Termination.

(** Progress: an honest server, on a graph no band of which is dense without an
    id to split on, is always read to the end. *)
Section Progress.
Context {FE : Type}.
Context (fetchPage : list string → string → string → result FE (list Edge * bool)).
Context (edgeCap : Z) (pivots sp : list string).
  Hypothesis Hanswers : fetch_answers fetchPage pivots.
  Hypothesis Hband : page_in_band fetchPage pivots.
  Hypothesis Hsparse : ∀ lo hi edges tr,
    interior lo hi sp = [] → fetchPage pivots lo hi = Ok (edges, tr) →
    saturated edgeCap edges tr = false.
  Hypothesis Hsorted : StronglySorted String.le sp.
  Hypothesis Hnames : "" ∉ sp.

Lemma drainBand_progress fuel lo hi u :
    length (interior lo hi sp) < fuel →
    ∃ u', drainBand fetchPage fuel pivots sp lo hi edgeCap u = Some (Ok u').
Proof.
    revert lo hi u. induction fuel as [|fuel IH]; intros lo hi u Hf; [lia|].
    cbn [drainBand]. destruct (Hanswers lo hi) as (edges & tr & Hp). rewrite Hp.
    destruct (list_find _ edges) as [[i e]|] eqn:Hl.
    { apply list_find_Some in Hl as (Hi & Hb & _).
      rewrite (Hband _ _ _ _ Hp) in Hb; [done|by eapply list_elem_of_lookup_2]. }
    destruct (saturated edgeCap edges tr) eqn:Hsat; [|eauto].
    destruct (medianInside sp lo hi) as [m|] eqn:Hm.
    - apply medianInside_Some in Hm as [Hm Hin]; [|done].
      destruct (interior_split sp lo hi m) as [H1 H2]; [done|set_solver|done|].
      destruct (IH lo m u ltac:(lia)) as [u1 Hr]. rewrite Hr. simpl. apply IH. lia.
    - apply medianInside_None in Hm; [|done].
      by rewrite (Hsparse _ _ _ _ Hm Hp) in Hsat.
  Qed.

Lemma tile_from_progress fuel lo his u :
    length sp < fuel →
    ∃ u', tile_from fetchPage fuel pivots sp lo his edgeCap u = Some (Ok u').
Proof.
    intros Hf. revert lo u. induction his as [|hi his IH]; intros lo u; simpl; [eauto|].
    destruct (drainBand_progress fuel lo hi u) as [u1 Hr].
    { pose proof (length_filter (strictly_inside lo hi) sp). unfold interior. lia. }
    rewrite Hr. apply IH.
  Qed.
End Progress.

(** ** The drains *)

(** The banded drain's closure names no pivots. *)
Definition widen {FE : Type} (fetchPage : string → string → result FE (list Edge * bool)) :
    list string → string → string → result FE (list Edge * bool) :=
  λ _ lo hi, fetchPage lo hi.

(** The dedup key is what identifies an edge of the union: a drain is exact when
    it returns one copy per key of the edges it owes, and nothing else. *)
Definition exact_union (E es : list Edge) (owes : Edge → Prop) : Prop :=
  NoDup (dedup_key <$> es) ∧
  (∀ o, o ∈ es → ∃ e, e ∈ E ∧ owes e ∧ o = copy_edge e) ∧
  (∀ e, e ∈ E → owes e → dedup_key e ∈ dedup_key <$> es).

Lemma drained_exact E (M P : Edge → Prop) u :
  (∀ e, M e → P e) → drained E M P empty_union u → exact_union E (out u) P.
Proof.
  intros HMP (Hok & _ & Ho & Hc). split_and!.
  - apply Hok.
  - intros o Hoo. destruct (Ho o Hoo) as [Hx|(e & ? & ? & ->)]; [|eauto].
    by apply not_elem_of_nil in Hx.
  - intros e He HP. apply union_seen_out; [done|eauto].
Qed.

(** C19: whatever the banded drain returns is the whole edge set, one copy per
    dedup key and nothing else: against any server whose pages hold edges of the
    graph and which flags (or shows by the row count) every page it cut short, a
    successful [DrainBandedEdges] is never a short union, for every tiling, every
    list of split points and however often bands were split. *)
Theorem DrainBandedEdges_exact {FE : Type}
    (fetchPage : string → string → result FE (list Edge * bool))
    (E : list Edge) (edgeCap : Z) (fuel : nat) (ids boundaries : list string) (es : list Edge) :
  page_sound (widen fetchPage) E [] →
  page_complete (widen fetchPage) E edgeCap [] →
  DrainBandedEdges fetchPage fuel ids boundaries edgeCap = Some (Ok es) →
  exact_union E es (λ _, True).
Proof.
  intros Hs Hc Hd. unfold DrainBandedEdges in Hd. destruct boundaries as [|b bs]; [done|].
  unfold fueled_bind, drainBandTiling in Hd.
  destruct (tile_from _ _ _ _ _ _ _ _) as [[u|]|] eqn:Ht; simplify_eq.
  apply (tile_from_drained (widen fetchPage) E) in Ht; [|auto with paging..].
  eapply drained_exact, drained_weaken; [| | |exact Ht]; [done..|].
  intros e _ _. split; [by left|apply inBand_unbounded].
Qed.

(** C23: the pivot drain returns exactly the edges incident to the requested ids:
    a successful [DrainPivotEdges] holds one copy of every edge with an endpoint
    among the ids and no other edge, through page halving, the dedup across pages
    and the band escape of a saturating pivot. *)
Theorem DrainPivotEdges_exact {FE : Type}
    (fetchPage : list string → string → string → result FE (list Edge * bool))
    (E : list Edge) (edgeCap : Z) (fuel : nat) (ids : list string) (pageSize : Z)
    (es : list Edge) :
  (∀ pivots, page_sound fetchPage E pivots) →
  (∀ pivots, page_complete fetchPage E edgeCap pivots) →
  DrainPivotEdges fetchPage fuel ids pageSize edgeCap = Some (Ok es) →
  exact_union E es (λ e, FromId e ∈ ids ∨ ToId e ∈ ids).
Proof.
  intros Hs Hc Hd. unfold DrainPivotEdges in Hd. destruct ids as [|i ids].
  { simplify_eq. split_and!; [constructor|by intros ? ?%not_elem_of_nil|].
    intros e _ [[]%not_elem_of_nil|[]%not_elem_of_nil]. }
  unfold fueled_bind in Hd.
  destruct (pivot_pages _ _ _ _ _ _ _ _ _) as [[u|]|] eqn:Ht; simplify_eq.
  apply (pivot_pages_drained fetchPage E) in Ht; [|auto with paging..|].
  - eapply drained_exact; [|exact Ht]. done.
  - destruct (pageSize <=? 0)%Z eqn:Hz; [unfold EdgePivotPageSize|]; lia.
Qed.

(** Both drains terminate on every server: with one more unit of fuel than
    there are ids (and no empty id), the recursion of the band splits and page
    halvings ends in a value or an error whatever the pages hold. *)
Theorem drains_terminate {FE : Type}
    (fetchPage : list string → string → string → result FE (list Edge * bool))
    (fuel : nat) (ids boundaries : list string) (pageSize edgeCap : Z) :
  "" ∉ ids → length ids < fuel →
  is_Some (DrainBandedEdges (fetchPage []) fuel ids boundaries edgeCap) ∧
  is_Some (DrainPivotEdges fetchPage fuel ids pageSize edgeCap).
Proof.
  intros Hne Hf. split.
  - unfold DrainBandedEdges, drainBandTiling. destruct boundaries as [|b bs]; [done|].
    match goal with |- is_Some (fueled_bind ?t _) =>
      assert (is_Some t) as [[u|e] Hr]; [|by rewrite Hr..] end.
    apply tile_from_terminates; [apply sort_strings_sorted|by rewrite elem_of_sort_strings|].
    by rewrite length_sort_strings.
  - unfold DrainPivotEdges. destruct ids as [|i ids]; [done|].
    set (ps := i :: ids) in *.
    set (size := Z.to_nat (if (pageSize <=? 0)%Z then EdgePivotPageSize else pageSize)).
    match goal with |- is_Some (fueled_bind ?t _) =>
      assert (is_Some t) as [[u|e] Hr]; [|by rewrite Hr..] end.
    apply pivot_pages_terminates; try done.
    unfold size. destruct (pageSize <=? 0)%Z eqn:Hz; [unfold EdgePivotPageSize|]; lia.
Qed.

(** The saturation error is the only honest way to fail: against a server that
    answers every band within its bounds, a banded drain succeeds whenever no band
    without an id strictly inside it comes back saturated. *)
Theorem DrainBandedEdges_progress {FE : Type}
    (fetchPage : string → string → result FE (list Edge * bool))
    (edgeCap : Z) (fuel : nat) (ids boundaries : list string) :
  fetch_answers (widen fetchPage) [] → page_in_band (widen fetchPage) [] →
  (∀ lo hi edges tr, interior lo hi (sort_strings ids) = [] →
     fetchPage lo hi = Ok (edges, tr) → saturated edgeCap edges tr = false) →
  "" ∉ ids → length ids < fuel → boundaries ≠ [] →
  ∃ es, DrainBandedEdges fetchPage fuel ids boundaries edgeCap = Some (Ok es).
Proof.
  intros Ha Hb Hsparse Hne Hf Hbs. unfold DrainBandedEdges, drainBandTiling.
  destruct boundaries as [|b bs]; [done|].
  destruct (tile_from_progress (widen fetchPage) edgeCap [] (sort_strings ids) Ha Hb
    Hsparse (sort_strings_sorted _) ltac:(by rewrite elem_of_sort_strings) fuel ""
    ((b :: bs) ++ [""]) empty_union) as [u Hr]; [by rewrite length_sort_strings|].
  change (λ _ lo hi, fetchPage lo hi) with (widen fetchPage). rewrite Hr. simpl. eauto.
Qed.

(** A version-skewed server is always caught: a server that ignores the band
    and answers every page with the whole graph never gets past the out-of-band
    guard once some edge lies below the first boundary; no fuel and no split makes
    the banded drain accept such an answer. *)
Theorem band_ignoring_server_rejected {FE : Type}
    (fetchPage : string → string → result FE (list Edge * bool))
    (E : list Edge) (tr : bool) (edgeCap : Z) (fuel : nat) (ids boundaries : list string)
    (b : string) (e : Edge) (es : list Edge) :
  (∀ lo hi, fetchPage lo hi = Ok (E, tr)) → e ∈ E → FromId e <s b →
  DrainBandedEdges fetchPage fuel ids (b :: boundaries) edgeCap ≠ Some (Ok es).
Proof.
  intros Hf He Hb Hd. unfold DrainBandedEdges, drainBandTiling in Hd.
  assert (b ≠ "") as Hne by eauto with gostr.
  unfold fueled_bind in Hd. simpl in Hd. unfold fueled_bind in Hd.
  destruct (drainBand _ fuel _ _ "" b _ _) as [[u1|]|]; try done.
  assert (∀ hi u, ∃ r, drainBand (λ _ lo hi, fetchPage lo hi) fuel [] (sort_strings ids)
    b hi edgeCap u = r ∧ ∀ u', r ≠ Some (Ok u')) as Hbad.
  { intros hi u. eexists. split; [done|]. intros u'. destruct fuel as [|fuel]; [done|].
    cbn [drainBand]. rewrite Hf.
    destruct (list_find _ E) as [[]|] eqn:Hl; [done|].
    apply list_find_None_Forall in Hl. rewrite Forall_forall in Hl.
    exfalso. apply (Hl _ He). destruct (inBand (FromId e) b hi) eqn:Hin; [|done].
    apply inBand_spec in Hin as [Hlo _]. specialize (Hlo Hne).
    by apply str_lt_not_le in Hb. }
  destruct boundaries as [|b' bs]; simpl in Hd; unfold fueled_bind in Hd.
  - destruct (Hbad "" u1) as (r & Hr & Hno). rewrite Hr in Hd.
    destruct r as [[u'|]|]; [by apply (Hno u')|done..].
  - destruct (Hbad b' u1) as (r & Hr & Hno). rewrite Hr in Hd.
    destruct r as [[u'|]|]; [by apply (Hno u')|done..].
Qed.

(** The termination argument needs the ids to be non-empty strings: when the
    empty string is among the split points, a saturating first band splits on it
    and its upper half is the unbounded band again, so on a graph that keeps
    saturating the recursion never ends, for any fuel. *)
Theorem drainBand_empty_id_diverges {FE : Type}
    (fetchPage : list string → string → string → result FE (list Edge * bool))
    (pivots : list string) (edgeCap : Z) (fuel : nat) (hi : string) (u : Union) :
  (∀ lo hi, ∃ edges, fetchPage pivots lo hi = Ok (edges, true) ∧
     Forall (λ e, inBand (FromId e) lo hi = true) edges) →
  drainBand fetchPage fuel pivots [""] "" hi edgeCap u = None.
Proof.
  intros Hf. revert hi u. induction fuel as [|fuel IH]; intros hi u; [done|].
  cbn [drainBand]. destruct (Hf "" hi) as (edges & -> & Hin).
  destruct (list_find _ edges) as [[i e]|] eqn:Hl.
  { apply list_find_Some in Hl as (Hi & Hb & _). rewrite Forall_forall in Hin.
    rewrite Hin in Hb; [done|by eapply list_elem_of_lookup_2]. }
  unfold saturated. rewrite orb_true_r.
  assert (medianInside [""] "" hi = Some "") as ->.
  { unfold medianInside. assert (median_stop [""] hi = 1) as ->; [|done].
    unfold median_stop. destruct (decide (hi = "")) as [|Hh]; [done|].
    unfold binary_search. cbn. change (1 / 2) with 0. cbn.
    rewrite decide_True by lia.
    by rewrite decide_True by auto with gostr. }
  by rewrite IH.
Qed.

(** ** The keyset drains of browse_drain.go *)

Module Keyset.

(** The cursor core over rows [N] with an id, in its streaming shape: [onPage]
    folds a caller state over the fresh rows of each page.  The loop's fuel is
    the number of pages; a full page of no rows (a non-positive page size) makes
    [page[len(page)-1]] panic. *)
Section Drain.
Context {N FE S : Type} (getId : N → string).
Context (fetchPage : string → result FE (list N)).
Context (onPage : S → list N → result FE S).

  (** The [fresh] slice of a page and the grown seen-set. *)
Fixpoint fresh_rows (seen : gset string) (page : list N) : gset string * list N :=
    match page with
    | [] => (seen, [])
    | n :: page =>
        if decide (getId n ∈ seen) then fresh_rows seen page
        else
          let '(seen', rest) := fresh_rows ({[getId n]} ∪ seen) page in
          (seen', n :: rest)
    end.

Fixpoint keyset_loop (fuel : nat) (pageSize : Z) (seen : gset string) (cursor : string)
      (s : S) : fueled (drainErr FE) S :=
    match fuel with
    | O => None
    | Datatypes.S fuel =>
        match fetchPage cursor with
        | Err e => Some (Err (FetchFailed e))
        | Ok page =>
            let '(seen', fresh) := fresh_rows seen page in
            match (if decide (fresh = []) then Ok s else onPage s fresh) with
            | Err e => Some (Err (FetchFailed e))
            | Ok s' =>
                if (Z.of_nat (length page) <? pageSize)%Z then Some (Ok s')
                else
                  match last page with
                  | None => Some (Err IndexPanic)
                  | Some n => keyset_loop fuel pageSize seen' (getId n) s'
                  end
            end
        end
    end.

Definition DrainKeysetPagesFunc (fuel : nat) (pageSize : Z) (s : S) :
      fueled (drainErr FE) S :=
    keyset_loop fuel pageSize ∅ "" s.
End Drain.

(** The accumulating wrapper: [onPage] appends and never fails. *)
Definition DrainKeysetPages {N FE : Type} (getId : N → string)
    (fetchPage : string → result FE (list N)) (fuel : nat) (pageSize : Z) :
    fueled (drainErr FE) (list N) :=
  DrainKeysetPagesFunc getId fetchPage (λ acc page, Ok (acc ++ page)) fuel pageSize [].

(** The ids-only twin: the loop of [DrainKeysetIDs] appends each unseen id. *)
Fixpoint ids_loop {FE : Type} (fetchPage : string → result FE (list string))
    (fuel : nat) (pageSize : Z) (seen : gset string) (cursor : string) (acc : list string) :
    fueled (drainErr FE) (list string) :=
  match fuel with
  | O => None
  | S fuel =>
      match fetchPage cursor with
      | Err e => Some (Err (FetchFailed e))
      | Ok page =>
          let '(seen', fresh) := fresh_rows id seen page in
          let acc' := acc ++ fresh in
          if (Z.of_nat (length page) <? pageSize)%Z then Some (Ok acc')
          else
            match last page with
            | None => Some (Err IndexPanic)
            | Some cursor' => ids_loop fetchPage fuel pageSize seen' cursor' acc'
            end
      end
  end.

Definition DrainKeysetIDs {FE : Type} (fetchPage : string → result FE (list string))
    (fuel : nat) (pageSize : Z) : fueled (drainErr FE) (list string) :=
  ids_loop fetchPage fuel pageSize ∅ "" [].

(** The keyset server: rows strictly sorted by id, none with the empty id, and a
    page is the first [pageSize] rows after the cursor. *)
Definition keyset_sorted {N} (getId : N → string) (corpus : list N) : Prop :=
  StronglySorted (λ a b, getId a <s getId b) corpus ∧ Forall (λ n, getId n ≠ "") corpus.

Definition keyset_page {N} (getId : N → string) (corpus : list N) (size : nat)
    (after : string) : list N :=
  take size (filter (λ n, after <s getId n) corpus).

(** The suffix of a sorted corpus the cursor has not passed. *)
Lemma keyset_filter_suffix {N} (getId : N → string) (pre suf : list N) (c : string) :
  Forall (λ n, ¬ c <s getId n) pre → Forall (λ n, c <s getId n) suf →
  filter (λ n, c <s getId n) (pre ++ suf) = suf.
Proof.
  intros Hpre Hsuf. by rewrite filter_app, list_filter_none, list_filter_every.
Qed.

Lemma fresh_rows_all {N} (getId : N → string) (seen : gset string) (page : list N) :
  NoDup (getId <$> page) → (∀ n, n ∈ page → getId n ∉ seen) →
  fresh_rows getId seen page = (list_to_set (getId <$> page) ∪ seen, page).
Proof.
  revert seen. induction page as [|n page IH]; intros seen Hnd Hout; simpl.
  { by rewrite (left_id_L ∅ (∪)). }
  inversion Hnd as [|?? Hn Hnd']; subst. rewrite decide_False by (apply Hout; set_solver).
  rewrite IH; [|done|].
  - f_equal. set_solver.
  - intros m Hm. apply not_elem_of_union. split; [|apply Hout; set_solver].
    intros Heq%elem_of_singleton. apply Hn. rewrite <-Heq. by apply list_elem_of_fmap_2.
Qed.

Lemma keyset_sorted_NoDup {N} (getId : N → string) (l : list N) :
  StronglySorted (λ a b, getId a <s getId b) l → NoDup (getId <$> l).
Proof.
  induction 1 as [|n l Hs IH Hn]; [constructor|]. constructor; [|done].
  intros (m & Heq & Hm)%list_elem_of_fmap. rewrite Forall_forall in Hn.
  apply (str_lt_irrefl (getId n)). rewrite Heq at 2. by apply Hn.
Qed.

(** The last row of a full page is the cursor: it separates the page from the rest. *)
Lemma page_cursor {N} (getId : N → string) (suf : list N) (size : nat) (n : N) :
  StronglySorted (λ a b, getId a <s getId b) suf → suf !! (size - 1) = Some n → 0 < size →
  (∀ m, m ∈ take size suf → ¬ getId n <s getId m) ∧
  (∀ m, m ∈ drop size suf → getId n <s getId m).
Proof.
  intros Hs Hn Hsize. split; intros m [k Hk]%list_elem_of_lookup.
  - intros Hlt. pose proof (lookup_lt_Some _ _ _ Hk) as Hkl. rewrite length_take in Hkl.
    rewrite lookup_take_lt in Hk by lia.
    destruct (decide (k = size - 1)) as [->|Hne].
    { simplify_eq. by apply str_lt_irrefl in Hlt. }
    pose proof (StronglySorted_lookup_lt _ suf k (size - 1) m n Hs Hk Hn ltac:(lia)) as Hmn.
    exact (str_lt_irrefl _ (str_lt_trans _ _ _ Hmn Hlt)).
  - rewrite lookup_drop in Hk.
    apply (StronglySorted_lookup_lt _ suf (size - 1) (size + k) n m Hs Hn Hk). lia.
Qed.

Section Honest.
Context {N FE : Type} (getId : N → string) (corpus : list N) (size : nat).
Context (fetchPage : string → result FE (list N)).
  Hypothesis Hsize : 0 < size.
  Hypothesis Hcorpus : keyset_sorted getId corpus.
  Hypothesis Hserver : ∀ c, fetchPage c = Ok (keyset_page getId corpus size c).

Lemma keyset_loop_honest fuel pre suf cursor (seen : gset string) (acc : list N) :
    corpus = pre ++ suf → length suf < fuel →
    (∀ n, n ∈ pre → ¬ cursor <s getId n) → (∀ n, n ∈ suf → cursor <s getId n) →
    (∀ n, n ∈ suf → getId n ∉ seen) →
    keyset_loop getId fetchPage (λ a page, Ok (a ++ page)) fuel (Z.of_nat size) seen cursor acc
      = Some (Ok (acc ++ suf)).
Proof.
    revert pre suf cursor seen acc.
    induction fuel as [|fuel IH]; intros pre suf cursor seen acc Hc Hf Hpre Hsuf Hseen; [lia|].
    destruct Hcorpus as [Hsort _]. rewrite Hc in Hsort.
    pose proof (keyset_sorted_NoDup _ _ Hsort) as Hnd.
    rewrite fmap_app, NoDup_app in Hnd. destruct Hnd as (_ & _ & Hnd).
    cbn [keyset_loop]. rewrite Hserver. unfold keyset_page. rewrite Hc.
    rewrite keyset_filter_suffix by (by rewrite Forall_forall).
    rewrite <-(take_drop size suf), fmap_app, NoDup_app in Hnd.
    destruct Hnd as (Hnd1 & Hnd12 & _).
    assert (∀ n, n ∈ take size suf → n ∈ suf) as Htake.
    { intros n Hn. rewrite <-(take_drop size suf). set_solver. }
    rewrite fresh_rows_all by naive_solver.
    assert ((if decide (take size suf = []) then Ok acc else Ok (acc ++ take size suf))
      = @Ok FE _ (acc ++ take size suf)) as ->.
    { case_decide as He; [|done]. by rewrite He, (right_id_L [] (++)). }
    rewrite length_take. destruct (Z.ltb_spec (Z.of_nat (size `min` length suf)) (Z.of_nat size)).
    { rewrite take_ge by lia. done. }
    assert (last (take size suf) = suf !! (size - 1)) as ->.
    { rewrite last_lookup, length_take. rewrite lookup_take_lt; [f_equal; lia|lia]. }
    destruct (lookup_lt_is_Some_2 suf (size - 1)) as [n Hn]; [lia|]. rewrite Hn.
    pose proof (page_cursor getId suf size n (StronglySorted_app_1_r _ _ _ Hsort) Hn Hsize)
      as Hpage.
    rewrite (IH (pre ++ take size suf) (drop size suf)).
    - by rewrite <-(assoc_L (++)), take_drop.
    - by rewrite <-(assoc_L (++)), take_drop.
    - rewrite length_drop. lia.
    - intros m [Hm|Hm]%elem_of_app; [|by apply Hpage]. intros Hlt. apply (Hpre m Hm).
      eapply str_lt_trans; [|exact Hlt]. apply Hsuf. by eapply list_elem_of_lookup_2.
    - apply Hpage.
    - intros m Hm Hin. apply elem_of_union in Hin as [Hin|Hin].
      + apply elem_of_list_to_set in Hin. apply (Hnd12 _ Hin). by apply list_elem_of_fmap_2.
      + eapply Hseen; [|done]. rewrite <-(take_drop size suf). set_solver.
  Qed.

Lemma keyset_loop_whole :
    keyset_loop getId fetchPage (λ a page, Ok (a ++ page)) (S (length corpus))
      (Z.of_nat size) ∅ "" [] = Some (Ok corpus).
Proof.
    rewrite (keyset_loop_honest _ [] corpus); [done|done|lia| | |].
    - intros n []%not_elem_of_nil.
    - destruct Hcorpus as [_ Hne]. rewrite Forall_forall in Hne.
      intros n Hn. apply str_nonempty_lt. by apply Hne.
    - intros n _. apply not_elem_of_empty.
  Qed.
End Honest.

(** The two loops are one cursor core. *)
Lemma ids_loop_keyset {FE} (fetchPage : string → result FE (list string))
    fuel pageSize seen cursor acc :
  ids_loop fetchPage fuel pageSize seen cursor acc =
  keyset_loop id fetchPage (λ a page, Ok (a ++ page)) fuel pageSize seen cursor acc.
Proof.
  revert seen cursor acc. induction fuel as [|fuel IH]; intros seen cursor acc; [done|].
  cbn [ids_loop keyset_loop]. destruct (fetchPage cursor) as [page|]; [|done].
  destruct (fresh_rows id seen page) as [seen' fresh].
  case_decide as He; [rewrite He, (right_id_L [] (++))|].
  all: destruct (_ <? _)%Z; [done|]; destruct (last page); [apply IH|done].
Qed.

(** The keyset drains read a corpus exactly: against a keyset server over any
    strictly sorted corpus of non-empty ids and any positive page size, both the
    node drain and the ids drain terminate within one page per remaining row and
    return precisely the corpus, in order. *)
Theorem keyset_drain_exact {N FE : Type} (getId : N → string) (corpus : list N) (size : nat)
    (fetchPage : string → result FE (list N)) (fetchIDs : string → result FE (list string)) :
  0 < size → keyset_sorted getId corpus →
  (∀ c, fetchPage c = Ok (keyset_page getId corpus size c)) →
  (∀ c, fetchIDs c = Ok (keyset_page id (getId <$> corpus) size c)) →
  DrainKeysetPages getId fetchPage (S (length corpus)) (Z.of_nat size) = Some (Ok corpus) ∧
  DrainKeysetIDs fetchIDs (S (length corpus)) (Z.of_nat size) = Some (Ok (getId <$> corpus)).
Proof.
  intros Hsize Hc Hs1 Hs2. pose proof Hc as [Hsort Hne]. split.
  - by apply keyset_loop_whole.
  - unfold DrainKeysetIDs. rewrite ids_loop_keyset, <-(length_fmap getId corpus).
    apply keyset_loop_whole; [done| |done].
    split; [|by rewrite Forall_fmap].
    by apply (StronglySorted_fmap getId (λ a b, getId a <s getId b)).
Qed.

(** Termination of the keyset drain rests on the server: a backend that keeps
    answering a full page whatever the cursor makes the loop run forever, because
    the seen-set drops the repeated rows but only a short page ends the loop. *)
Theorem keyset_drain_diverges {N FE : Type} (getId : N → string)
    (fetchPage : string → result FE (list N)) (pageSize : Z) (fuel : nat) :
  (∀ c, ∃ page, fetchPage c = Ok page ∧ page ≠ [] ∧ (pageSize <= Z.of_nat (length page))%Z) →
  DrainKeysetPages getId fetchPage fuel pageSize = None.
Proof.
  intros Hfull. unfold DrainKeysetPages, DrainKeysetPagesFunc.
  generalize (∅ : gset string) as seen, "" as cursor, (@nil N) as acc.
  induction fuel as [|fuel IH]; intros seen cursor acc; [done|].
  cbn [keyset_loop]. destruct (Hfull cursor) as (page & -> & Hne & Hlen).
  destruct (fresh_rows getId seen page) as [seen' fresh].
  assert ((Z.of_nat (length page) <? pageSize)%Z = false) as -> by lia.
  destruct (last page) as [n|] eqn:Hl; [|by apply last_None in Hl].
  case_decide; apply IH.
Qed.

End Keyset.

(** ** Concrete instances of the theorems above *)

Module Fixture.

(** A server over a finite edge list with a row ceiling: the rows the pivots
    select inside the band, cut at the ceiling, flagged when they were cut. *)
Definition server (E : list Edge) (rows : nat) (pivots : list string) (lo hi : string) :
    result string (list Edge * bool) :=
  let hits := filter (λ e, (pivots = [] ∨ FromId e ∈ pivots ∨ ToId e ∈ pivots)
                           ∧ inBand (FromId e) lo hi = true) E in
  Ok (take rows hits, bool_decide (rows < length hits)).

Lemma take_filter_elem {A} (P : A → Prop) `{∀ x, Decision (P x)} n l x :
  x ∈ take n (filter P l) → P x ∧ x ∈ l.
Proof.
  intros (i & Hi & _)%elem_of_take. by apply list_elem_of_lookup_2, list_elem_of_filter in Hi.
Qed.

Lemma server_sound E rows pivots : page_sound (server E rows) E pivots.
Proof.
  intros lo hi edges tr Hp e He. unfold server in Hp. simplify_eq.
  apply take_filter_elem in He. unfold selects. tauto.
Qed.

Lemma server_complete E rows edgeCap pivots : page_complete (server E rows) E edgeCap pivots.
Proof.
  intros lo hi edges tr Hp Hsat e He Hsel Hin. unfold server in Hp. simplify_eq.
  unfold saturated in Hsat. apply orb_false_iff in Hsat as [_ Hsat].
  apply bool_decide_eq_false in Hsat. rewrite take_ge by lia.
  by apply list_elem_of_filter.
Qed.

Lemma server_in_band E rows pivots : page_in_band (server E rows) pivots.
Proof.
  intros lo hi edges tr Hp e He. unfold server in Hp. simplify_eq.
  apply take_filter_elem in He. tauto.
Qed.

Lemma server_answers E rows pivots : fetch_answers (server E rows) pivots.
Proof. intros lo hi. unfold server. eauto. Qed.

Definition edge (f t : string) : Edge :=
  mkEdge f t "calls" (S754_zero false) (S754_zero false) "" "" 0 0.

Definition triangle : list Edge := [edge "a" "b"; edge "b" "c"; edge "c" "a"].

End Fixture.

Lemma DrainBandedEdges_exact_witness :
  exact_union Fixture.triangle Fixture.triangle (λ _, True).
Proof.
  apply (DrainBandedEdges_exact (Fixture.server Fixture.triangle 1 []) _ 2 5
    ["a"; "b"; "c"] (EdgeBandBoundaries ["c"; "b"; "a"] 2)).
  - apply (Fixture.server_sound _ 1 []).
  - apply (Fixture.server_complete _ 1 2 []).
  - vm_compute. reflexivity.
Defined.

Lemma DrainPivotEdges_exact_witness :
  exact_union Fixture.triangle [Fixture.edge "a" "b"; Fixture.edge "c" "a"]
    (λ e, FromId e ∈ ["a"] ∨ ToId e ∈ ["a"]).
Proof.
  apply (DrainPivotEdges_exact (Fixture.server Fixture.triangle 2) _ 5 5 ["a"] 0).
  - apply Fixture.server_sound.
  - apply Fixture.server_complete.
  - vm_compute. reflexivity.
Defined.

Lemma drains_terminate_witness :
  is_Some (DrainBandedEdges (Fixture.server Fixture.triangle 1 []) 4 ["a"; "b"; "c"] ["b"] 1) ∧
  is_Some (DrainPivotEdges (Fixture.server Fixture.triangle 1) 4 ["a"; "b"; "c"] 2 1).
Proof. apply (drains_terminate (Fixture.server Fixture.triangle 1)); [set_solver|simpl; lia]. Defined.

Lemma DrainBandedEdges_progress_witness :
  ∃ es, DrainBandedEdges (Fixture.server [] 1 []) 4 ["a"; "b"; "c"] ["b"] 2 = Some (Ok es).
Proof.
  apply DrainBandedEdges_progress.
  - apply (Fixture.server_answers _ 1 []).
  - apply (Fixture.server_in_band _ 1 []).
  - intros lo hi edges tr _ Hp. vm_compute in Hp. by simplify_eq.
  - set_solver.
  - simpl; lia.
  - done.
Defined.

Lemma band_ignoring_server_rejected_witness :
  DrainBandedEdges (λ _ _, @Ok string _ (Fixture.triangle, false)) 9 ["a"; "b"; "c"] ["b"] 9
    ≠ Some (Ok Fixture.triangle).
Proof.
  apply (band_ignoring_server_rejected _ Fixture.triangle false _ _ _ _ "b" (Fixture.edge "a" "b")).
  - done.
  - left.
  - reflexivity.
Defined.

Lemma drainBand_empty_id_diverges_witness :
  drainBand (λ _ _ _, @Ok string _ ([], true)) 50 [] [""] "" "m" 1 empty_union = None.
Proof.
  apply drainBand_empty_id_diverges. intros lo hi. exists []. split; [done|constructor].
Defined.

Lemma keyset_drain_exact_witness :
  Keyset.DrainKeysetPages (FE := string) id
    (λ c, Ok (Keyset.keyset_page id ["a"; "b"; "c"] 2 c)) 4 2 = Some (Ok ["a"; "b"; "c"]) ∧
  Keyset.DrainKeysetIDs (FE := string)
    (λ c, Ok (Keyset.keyset_page id ["a"; "b"; "c"] 2 c)) 4 2 = Some (Ok ["a"; "b"; "c"]).
Proof.
  apply (Keyset.keyset_drain_exact id ["a"; "b"; "c"] 2); [lia| |done..].
  split; repeat constructor; done.
Defined.

Lemma keyset_drain_diverges_witness :
  Keyset.DrainKeysetPages (FE := string) id (λ _, Ok ["a"; "b"]) 100 2 = None.
Proof. apply Keyset.keyset_drain_diverges. intros c. by exists ["a"; "b"]. Defined.
