(* ===== verification/LiveDocs.v ===== *)
(** * LiveDocs: the lock-free liveness bitset of [internal/searchengine/livedocs.go]

    The bitset over 64-bit words, its sequential operations, the set of live
    ordinals they implement, and the compare-and-swap loops of [Kill] and
    [Revive] as threads over the shared words. *)

From S2P Require Import Prelude.
From stdpp Require Import relations.

#[local] Open Scope Z_scope.

(** ** Data and operations *)

Record liveDocs := mkLiveDocs { words : list Z; n_ords : Z }.

(** [^uint64(0)] *)
Definition all_ones : Z := 2 ^ 64 - 1.

Definition newLiveDocs (n : Z) : liveDocs :=
  mkLiveDocs (replicate (Z.to_nat ((n + 63) / 64)) all_ones) n.

Definition word_index (i : Z) : nat := Z.to_nat (Z.shiftr i 6).
Definition bit_mask (i : Z) : Z := Z.shiftl 1 (Z.land i 63).

Definition in_range (l : liveDocs) (i : Z) : bool := negb ((i <? 0) || (n_ords l <=? i)).

Definition Live (l : liveDocs) (i : Z) : bool :=
  if in_range l i then
    match words l !! word_index i with
    | Some w => negb (Z.land w (bit_mask i) =? 0)
    | None => false
    end
  else false.

(** What one successful pass of [Kill]'s loop does to the word: nothing when the
    bit is already clear, [old &^ mask] otherwise. *)
Definition kill_word (mask old : Z) : Z :=
  if Z.land old mask =? 0 then old else Z.ldiff old mask.

Definition revive_word (mask old : Z) : Z :=
  if negb (Z.land old mask =? 0) then old else Z.lor old mask.

Definition update_word (f : Z → Z → Z) (l : liveDocs) (i : Z) : liveDocs :=
  if in_range l i then
    mkLiveDocs (alter (f (bit_mask i)) (word_index i) (words l)) (n_ords l)
  else l.

Definition Kill : liveDocs → Z → liveDocs := update_word kill_word.
Definition Revive : liveDocs → Z → liveDocs := update_word revive_word.

(** [members] is the last-wins map of a segment's ids to ordinals. *)
Abbreviation idSet := (gmap string Z).

Definition newLiveDocsFromTombstones (n : Z) (tombstones : list string) (members : idSet) :
    liveDocs :=
  fold_left (λ ld id, match members !! id with Some ord => Kill ld ord | None => ld end)
    tombstones (newLiveDocs n).

Definition distinctDeadCount (members : idSet) (live : liveDocs) : Z :=
  map_fold (λ _ ord dead, if Live live ord then dead else dead + 1) 0 members.

(** [bits.OnesCount64] *)
Definition OnesCount64 (w : Z) : Z :=
  Z.of_nat (count_true (λ b, Z.testbit w (Z.of_nat b)) 64).

Definition LiveCount (l : liveDocs) : Z :=
  let live := foldr (λ w acc, OnesCount64 w + acc) 0 (words l) in
  let pad := Z.of_nat (length (words l)) * 64 - n_ords l in
  if 0 <? pad then live - pad else live.

Definition DeadCount (l : liveDocs) : Z := n_ords l - LiveCount l.

(** ** The invariant: sized words in the uint64 range, padding bits set *)

Definition bit_at (ws : list Z) (k : nat) : bool :=
  match ws !! (k / 64)%nat with
  | Some w => Z.testbit w (Z.of_nat (k mod 64)%nat)
  | None => false
  end.

Definition live_wf (l : liveDocs) : Prop :=
  0 <= n_ords l ∧
  length (words l) = Z.to_nat ((n_ords l + 63) / 64) ∧
  Forall (λ w, 0 <= w < 2 ^ 64) (words l) ∧
  (∀ k, (Z.to_nat (n_ords l) ≤ k < 64 * length (words l))%nat → bit_at (words l) k = true).

(** ** Bits of words *)

Lemma land_mask_testbit w b :
  0 <= b → negb (Z.land w (Z.shiftl 1 b) =? 0) = Z.testbit w b.
Proof.
  intros Hb. destruct (Z.testbit w b) eqn:Ht.
  - apply negb_true_iff, Z.eqb_neq. intros H0.
    assert (Z.testbit (Z.land w (Z.shiftl 1 b)) b = true) as H1.
    { rewrite Z.land_spec, Ht, Z.shiftl_spec, Z.sub_diag by lia. done. }
    by rewrite H0, Z.bits_0 in H1.
  - apply negb_false_iff, Z.eqb_eq, Z.bits_inj'. intros k Hk.
    rewrite Z.land_spec, Z.bits_0. destruct (decide (k = b)) as [->|Hne]; [by rewrite Ht|].
    rewrite Z.shiftl_spec by done.
    destruct (Z.testbit 1 (k - b)) eqn:H1; [|by rewrite andb_false_r].
    exfalso. destruct (decide (k - b < 0)); [by rewrite Z.testbit_neg_r in H1 by lia|].
    rewrite (Z.bits_above_log2 1 (k - b)) in H1; simpl; lia || done.
Qed.

Lemma bit_mask_pos i : bit_mask i = Z.shiftl 1 (i mod 64).
Proof. unfold bit_mask. change 63 with (Z.ones 6). by rewrite Z.land_ones by lia. Qed.

Lemma kill_word_testbit i w b :
  0 <= b → Z.testbit (kill_word (bit_mask i) w) b = Z.testbit w b && negb (b =? i mod 64).
Proof.
  intros Hb. rewrite bit_mask_pos. pose proof (Z.mod_pos_bound i 64 ltac:(lia)) as Hi.
  unfold kill_word. pose proof (land_mask_testbit w (i mod 64) ltac:(lia)) as Hl.
  destruct (Z.land w _ =? 0); simpl in Hl.
  - destruct (Z.eqb_spec b (i mod 64)) as [->|]; simpl; [by rewrite <-Hl|by rewrite andb_true_r].
  - destruct (Z.eqb_spec b (i mod 64)) as [->|Hne]; simpl.
    + rewrite andb_false_r. apply Z.clearbit_eq.
    + rewrite andb_true_r. apply Z.clearbit_neq. lia.
Qed.

Lemma revive_word_testbit i w b :
  0 <= b → Z.testbit (revive_word (bit_mask i) w) b = Z.testbit w b || (b =? i mod 64).
Proof.
  intros Hb. rewrite bit_mask_pos. pose proof (Z.mod_pos_bound i 64 ltac:(lia)) as Hi.
  unfold revive_word. pose proof (land_mask_testbit w (i mod 64) ltac:(lia)) as Hl.
  rewrite Hl. destruct (Z.testbit w (i mod 64)) eqn:Ht.
  - destruct (Z.eqb_spec b (i mod 64)) as [->|]; [by rewrite Ht|by rewrite orb_false_r].
  - destruct (Z.eqb_spec b (i mod 64)) as [->|Hne].
    + rewrite orb_true_r. apply Z.setbit_eq. lia.
    + rewrite orb_false_r. apply Z.setbit_neq; lia.
Qed.

Lemma word_range w :
  0 <= w → (∀ b, 64 <= b → Z.testbit w b = false) → w < 2 ^ 64.
Proof.
  intros Hw Hb. destruct (decide (w < 2 ^ 64)) as [|Hge]; [done|exfalso].
  assert (64 <= Z.log2 w) as Hlog by (apply Z.log2_le_pow2; lia).
  specialize (Hb (Z.log2 w) Hlog). rewrite Z.bit_log2 in Hb; [done|lia].
Qed.

Lemma testbit_word_high w b : 0 <= w < 2 ^ 64 → 64 <= b → Z.testbit w b = false.
Proof.
  intros Hw Hb. destruct (decide (w = 0)) as [->|]; [apply Z.bits_0|].
  apply Z.bits_above_log2; [lia|].
  eapply Z.lt_le_trans; [|exact Hb]. apply Z.log2_lt_pow2; lia.
Qed.

Lemma kill_word_range i w : 0 <= w < 2 ^ 64 → 0 <= kill_word (bit_mask i) w < 2 ^ 64.
Proof.
  intros Hw. assert (0 <= kill_word (bit_mask i) w) as H0.
  { unfold kill_word. destruct (_ =? _); [lia|]. apply Z.ldiff_nonneg. lia. }
  split; [done|]. apply word_range; [done|]. intros b Hb.
  rewrite kill_word_testbit by lia. by rewrite testbit_word_high.
Qed.

Lemma revive_word_range i w : 0 <= w < 2 ^ 64 → 0 <= revive_word (bit_mask i) w < 2 ^ 64.
Proof.
  intros Hw. pose proof (Z.mod_pos_bound i 64 ltac:(lia)).
  assert (0 <= revive_word (bit_mask i) w) as H0.
  { unfold revive_word. destruct (negb _); [lia|]. apply Z.lor_nonneg. split; [lia|].
    rewrite bit_mask_pos. apply Z.shiftl_nonneg. lia. }
  split; [done|]. apply word_range; [done|]. intros b Hb.
  rewrite revive_word_testbit by lia. rewrite testbit_word_high by done.
  simpl. apply Z.eqb_neq. lia.
Qed.

(** ** Ordinals and their bits *)

Lemma word_index_nat i : 0 <= i → word_index i = (Z.to_nat i / 64)%nat.
Proof.
  intros Hi. unfold word_index. rewrite Z.shiftr_div_pow2 by lia. change (2 ^ 6) with 64.
  rewrite Z2Nat.inj_div by lia. done.
Qed.

Lemma mod_64_nat i : 0 <= i → i mod 64 = Z.of_nat (Z.to_nat i mod 64)%nat.
Proof. intros Hi. rewrite Nat2Z.inj_mod, Z2Nat.id by lia. done. Qed.

Lemma bit_index_eq k i :
  0 <= i →
  (k = Z.to_nat i ↔ (k / 64)%nat = word_index i ∧ Z.of_nat (k mod 64)%nat = i mod 64).
Proof.
  intros Hi. rewrite word_index_nat, mod_64_nat by done.
  pose proof (Nat.div_mod_eq k 64). pose proof (Nat.div_mod_eq (Z.to_nat i) 64).
  split; [by intros ->|]. intros [H1 H2%Nat2Z.inj]. congruence.
Qed.

Lemma in_range_spec l i : in_range l i = true ↔ 0 <= i < n_ords l.
Proof. unfold in_range. rewrite negb_true_iff, orb_false_iff. lia. Qed.

Lemma bit_at_alter f g ws i k :
  0 <= i →
  (∀ w, 0 <= Z.of_nat (k mod 64)%nat →
    Z.testbit (f (bit_mask i) w) (Z.of_nat (k mod 64)%nat) =
    g (Z.testbit w (Z.of_nat (k mod 64)%nat)) (Z.of_nat (k mod 64)%nat =? i mod 64)) →
  (∀ b, g b false = b) → (k / 64 < length ws)%nat →
  bit_at (alter (f (bit_mask i)) (word_index i) ws) k =
  g (bit_at ws k) (bool_decide (k = Z.to_nat i)).
Proof.
  intros Hi Hf Hg Hk. unfold bit_at. rewrite list_lookup_alter.
  destruct (lookup_lt_is_Some_2 _ _ Hk) as [w Hw]. rewrite Hw.
  rewrite (bool_decide_ext _ _ (bit_index_eq k i Hi)). case_decide as Hd.
  - rewrite Hd, Hw. cbn [fmap option_fmap option_map]. rewrite Hf by lia. f_equal. symmetry. destruct (Z.eqb_spec (Z.of_nat (k mod 64)) (i mod 64)).
    + by apply bool_decide_eq_true.
    + apply bool_decide_eq_false. tauto.
  - rewrite bool_decide_eq_false_2 by (intros [? _]; congruence). by rewrite Hg.
Qed.

Lemma Live_bit l i : Live l i = in_range l i && bit_at (words l) (Z.to_nat i).
Proof.
  unfold Live. destruct (in_range l i) eqn:Hr; [|done]. apply in_range_spec in Hr.
  unfold bit_at. rewrite <-word_index_nat by lia. simpl.
  destruct (words l !! word_index i) as [w|]; [|done].
  rewrite <-mod_64_nat by lia. rewrite bit_mask_pos. apply land_mask_testbit.
  apply Z.mod_pos_bound. lia.
Qed.

Lemma in_range_words l i :
  live_wf l → in_range l i = true → (Z.to_nat i / 64 < length (words l))%nat.
Proof.
  intros (Hn & Hlen & _) Hr%in_range_spec. rewrite Hlen.
  apply Nat2Z.inj_lt. rewrite Nat2Z.inj_div, Z2Nat.id, Z2Nat.id by
    (try apply Z.div_pos; lia).
  apply Z.div_lt_upper_bound; [lia|].
  pose proof (Z.div_mod (n_ords l + 63) 64 ltac:(lia)).
  pose proof (Z.mod_pos_bound (n_ords l + 63) 64 ltac:(lia)). simpl. lia.
Qed.

Section Update.
Context (f : Z → Z → Z) (g : bool → bool → bool).
  Hypothesis Hbit : ∀ i w b, 0 <= b →
    Z.testbit (f (bit_mask i) w) b = g (Z.testbit w b) (b =? i mod 64).
  Hypothesis Hg : ∀ b, g b false = b.
  Hypothesis Hrange : ∀ i w, 0 <= w < 2 ^ 64 → 0 <= f (bit_mask i) w < 2 ^ 64.

Lemma Live_update l i j :
    live_wf l →
    Live (update_word f l i) j =
    in_range l j && g (bit_at (words l) (Z.to_nat j)) (in_range l i && (j =? i)).
Proof.
    intros Hwf. rewrite Live_bit. unfold update_word.
    destruct (in_range l i) eqn:Hi; simpl; [|by rewrite Hg].
    change (in_range (mkLiveDocs _ (n_ords l)) j) with (in_range l j).
    destruct (in_range l j) eqn:Hj; [|done]. simpl.
    pose proof (proj1 (in_range_spec l i) Hi). pose proof (proj1 (in_range_spec l j) Hj).
    rewrite (bit_at_alter f g); [|lia|intros w Hw; by apply Hbit|done|by apply in_range_words].
    f_equal. destruct (Z.eqb_spec j i) as [->|Hne]; [by rewrite bool_decide_eq_true_2|].
    apply bool_decide_eq_false. lia.
  Qed.

Lemma update_word_wf l i : live_wf l → live_wf (update_word f l i).
Proof.
    intros Hwf. pose proof Hwf as (Hn & Hlen & Hw & Hpad). unfold update_word.
    destruct (in_range l i) eqn:Hi; [|done]. pose proof (proj1 (in_range_spec l i) Hi).
    split_and!; simpl.
    - done.
    - by rewrite length_alter.
    - apply Forall_alter; [done|]. intros w _ Hx. by apply Hrange.
    - intros k Hk. rewrite length_alter in Hk.
      rewrite (bit_at_alter f g); [|lia|intros w Hb; by apply Hbit|done|].
      + rewrite bool_decide_eq_false_2 by lia. rewrite Hg. by apply Hpad.
      + apply Nat.Div0.div_lt_upper_bound. lia.
  Qed.
End Update.

Lemma Kill_wf l i : live_wf l → live_wf (Kill l i).
Proof.
  apply (update_word_wf kill_word (λ b e, b && negb e)).
  - apply kill_word_testbit.
  - intros b. apply andb_true_r.
  - apply kill_word_range.
Qed.

Lemma Revive_wf l i : live_wf l → live_wf (Revive l i).
Proof.
  apply (update_word_wf revive_word orb).
  - apply revive_word_testbit.
  - intros b. apply orb_false_r.
  - apply revive_word_range.
Qed.

Lemma Live_Kill l i j : live_wf l → Live (Kill l i) j = Live l j && negb (j =? i).
Proof.
  intros Hwf. unfold Kill. rewrite (Live_update kill_word (λ b e, b && negb e)); cycle 1.
  { apply kill_word_testbit. } { intros b. apply andb_true_r. } { done. }
  rewrite (Live_bit l j), <-andb_assoc. destruct (in_range l j) eqn:Hj; [|done]. simpl. f_equal.
  destruct (Z.eqb_spec j i) as [->|]; [by rewrite Hj|by rewrite andb_false_r].
Qed.

Lemma Live_Revive l i j :
  live_wf l → Live (Revive l i) j = Live l j || (in_range l i && (j =? i)).
Proof.
  intros Hwf. unfold Revive. rewrite (Live_update revive_word orb); cycle 1.
  { apply revive_word_testbit. } { intros b. apply orb_false_r. } { done. }
  rewrite (Live_bit l j). destruct (in_range l j) eqn:Hj; [done|]. simpl.
  destruct (Z.eqb_spec j i) as [->|]; [by rewrite Hj|by rewrite andb_false_r].
Qed.

Lemma n_ords_Kill l i : n_ords (Kill l i) = n_ords l.
Proof. unfold Kill, update_word. by destruct (in_range l i). Qed.

Lemma n_ords_Revive l i : n_ords (Revive l i) = n_ords l.
Proof. unfold Revive, update_word. by destruct (in_range l i). Qed.

Create HintDb live.
Create Rewrite HintDb live.
#[export] Hint Resolve Kill_wf Revive_wf : live.
#[export] Hint Rewrite n_ords_Kill n_ords_Revive : live.

(** ** Counting: the padding bits cancel out *)

Lemma OnesCount_bits ws :
  foldr (λ w acc, OnesCount64 w + acc) 0 ws =
  Z.of_nat (count_true (bit_at ws) (64 * length ws)).
Proof.
  induction ws as [|w ws IH]; [done|].
  cbn [foldr length]. rewrite IH. replace (64 * S (length ws))%nat
    with (64 + 64 * length ws)%nat by lia.
  rewrite count_true_add, Nat2Z.inj_add. unfold OnesCount64.
  apply (f_equal2 Z.add); apply (f_equal Z.of_nat), count_true_ext; intros k Hk.
  - unfold bit_at. by rewrite Nat.div_small, Nat.mod_small.
  - unfold bit_at.
    replace (64 + k)%nat with (k + 1 * 64)%nat by lia.
    rewrite Nat.div_add, Nat.Div0.mod_add by lia. by rewrite Nat.add_1_r.
Qed.

(** The abstract count: how many ordinals are live. *)
Definition live_ordinals (l : liveDocs) : Z :=
  Z.of_nat (count_true (λ k, Live l (Z.of_nat k)) (Z.to_nat (n_ords l))).

Lemma words_cover l : live_wf l → n_ords l <= 64 * Z.of_nat (length (words l)).
Proof.
  intros (Hn & Hlen & _). rewrite Hlen, Z2Nat.id by (apply Z.div_pos; lia).
  pose proof (Z.div_mod (n_ords l + 63) 64 ltac:(lia)).
  pose proof (Z.mod_pos_bound (n_ords l + 63) 64 ltac:(lia)). lia.
Qed.

Lemma LiveCount_correct l : live_wf l → LiveCount l = live_ordinals l.
Proof.
  intros Hwf. pose proof (words_cover l Hwf) as Hcov.
  pose proof Hwf as (Hn & Hlen & _ & Hpad).
  unfold LiveCount. cbv zeta. rewrite OnesCount_bits.
  set (len := length (words l)) in *. set (n := Z.to_nat (n_ords l)) in *.
  replace (64 * len)%nat with (n + (64 * len - n))%nat by lia.
  rewrite count_true_add, (count_true_all (λ k, bit_at (words l) (n + k))); cycle 1.
  { intros k Hk. apply Hpad. lia. }
  assert (count_true (bit_at (words l)) n =
    count_true (λ k, Live l (Z.of_nat k)) n) as ->.
  { apply count_true_ext. intros k Hk. rewrite Live_bit, Nat2Z.id.
    assert (in_range l (Z.of_nat k) = true) as ->; [|done]. apply in_range_spec. lia. }
  unfold live_ordinals. fold n. destruct (Z.ltb_spec 0 (Z.of_nat len * 64 - n_ords l)); lia.
Qed.

Lemma newLiveDocs_wf n : 0 <= n → live_wf (newLiveDocs n).
Proof.
  intros Hn. split_and!; simpl; [done|by rewrite length_replicate| |].
  - apply Forall_replicate. unfold all_ones. lia.
  - intros k. rewrite length_replicate. intros Hk. unfold bit_at.
    rewrite lookup_replicate_2 by (apply Nat.Div0.div_lt_upper_bound; lia).
    unfold all_ones. change (2 ^ 64 - 1) with (Z.ones 64). apply Z.ones_spec_low.
    pose proof (Nat.mod_upper_bound k 64 ltac:(lia)). lia.
Qed.

Lemma Live_newLiveDocs n i : 0 <= n → Live (newLiveDocs n) i = in_range (newLiveDocs n) i.
Proof.
  intros Hn. pose proof (newLiveDocs_wf n Hn) as Hwf. rewrite Live_bit.
  destruct (in_range (newLiveDocs n) i) eqn:Hr; [|done]. simpl.
  pose proof (in_range_words _ _ Hwf Hr) as Hw. simpl in Hw. rewrite length_replicate in Hw.
  unfold bit_at. simpl. rewrite lookup_replicate_2 by done.
  unfold all_ones. change (2 ^ 64 - 1) with (Z.ones 64). apply Z.ones_spec_low.
  pose proof (Nat.mod_upper_bound (Z.to_nat i) 64 ltac:(lia)). lia.
Qed.

Lemma tombstones_fold ts (members : idSet) l :
  live_wf l →
  let r := fold_left (λ ld id, match members !! id with
                               | Some ord => Kill ld ord | None => ld end) ts l in
  live_wf r ∧ n_ords r = n_ords l ∧
  ∀ j, Live r j = Live l j && negb (bool_decide (Exists (λ id, members !! id = Some j) ts)).
Proof.
  revert l. induction ts as [|t ts IH]; intros l Hwf; cbn [fold_left].
  { split_and!; [done|done|]. intros j. rewrite bool_decide_eq_false_2; [by rewrite andb_true_r|].
    by intros ?%Exists_nil. }
  destruct (members !! t) as [ord|] eqn:Ht; cbv zeta.
  - destruct (IH (Kill l ord) (Kill_wf _ _ Hwf)) as (H1 & H2 & H3).
    split_and!; [done|by rewrite H2, n_ords_Kill|].
    intros j. rewrite H3, Live_Kill by done. rewrite <-andb_assoc. f_equal.
    destruct (Z.eqb_spec j ord) as [->|Hne]; simpl.
    + rewrite bool_decide_eq_true_2; [done|]. by left.
    + f_equal. apply bool_decide_ext. rewrite Exists_cons. naive_solver.
  - destruct (IH l Hwf) as (H1 & H2 & H3). split_and!; [done|done|].
    intros j. rewrite H3. do 2 f_equal. apply bool_decide_ext.
    rewrite Exists_cons. naive_solver.
Qed.

Lemma distinctDeadCount_size (members : idSet) l :
  distinctDeadCount members l =
  Z.of_nat (size (filter (λ p, Live l p.2 = false) members)).
Proof.
  unfold distinctDeadCount.
  apply (map_fold_weak_ind (λ r (m : idSet), r = Z.of_nat (size (filter (λ p, Live l p.2 = false) m)))).
  - by rewrite map_filter_empty, map_size_empty.
  - intros id ord m r Hid ->. destruct (Live l ord) eqn:Hl.
    + rewrite map_filter_insert_False by (simpl; congruence). by rewrite delete_id.
    + rewrite map_filter_insert_True by done.
      rewrite map_size_insert_None; [lia|]. apply map_lookup_filter_None. by left.
Qed.

(** ** The compare-and-swap loops as threads *)

Inductive bitop := OpKill (i : Z) | OpRevive (i : Z).

Definition op_index (o : bitop) : Z := match o with OpKill i | OpRevive i => i end.

Definition op_word (o : bitop) : Z → Z → Z :=
  match o with OpKill _ => kill_word | OpRevive _ => revive_word end.

Definition apply_op (l : liveDocs) (o : bitop) : liveDocs :=
  match o with OpKill i => Kill l i | OpRevive i => Revive l i end.

(** The early return of the loop: the loaded word already has the bit. *)
Definition already (o : bitop) (old : Z) : bool :=
  let m := bit_mask (op_index o) in
  match o with
  | OpKill _ => Z.land old m =? 0
  | OpRevive _ => negb (Z.land old m =? 0)
  end.

(** A goroutine inside [Kill] or [Revive]: at the loop head, between its load and
    its compare-and-swap, or returned. *)
Inductive thread := Ready (o : bitop) | Loaded (o : bitop) (old : Z) | Returned.

Inductive cas_step : liveDocs * thread → liveDocs * thread → Prop :=
| step_out_of_range l o :
    in_range l (op_index o) = false → cas_step (l, Ready o) (l, Returned)
| step_load_already l o w :
    in_range l (op_index o) = true → words l !! word_index (op_index o) = Some w →
    already o w = true → cas_step (l, Ready o) (l, Returned)
| step_load l o w :
    in_range l (op_index o) = true → words l !! word_index (op_index o) = Some w →
    already o w = false → cas_step (l, Ready o) (l, Loaded o w)
| step_cas_ok l o w :
    words l !! word_index (op_index o) = Some w →
    cas_step (l, Loaded o w)
      (mkLiveDocs (<[word_index (op_index o) := op_word o (bit_mask (op_index o)) w]> (words l))
         (n_ords l), Returned)
| step_cas_lost l o w w' :
    words l !! word_index (op_index o) = Some w' → w ≠ w' →
    cas_step (l, Loaded o w) (l, Ready o).

(** The pool: any thread may take the next step on the shared words. *)
Inductive pool_step : liveDocs * list thread → liveDocs * list thread → Prop :=
| pool_one l l' ts t t' k :
    ts !! k = Some t → cas_step (l, t) (l', t') → pool_step (l, ts) (l', <[k := t']> ts).

Definition thread_op (t : thread) : option bitop :=
  match t with Ready o | Loaded o _ => Some o | Returned => None end.

Definition pending (ts : list thread) : list bitop := omap thread_op ts.

(** A thread past its load knows its index is in range and the bit was not yet set. *)
Definition thread_ok (l : liveDocs) (t : thread) : Prop :=
  match t with
  | Loaded o w => in_range l (op_index o) = true ∧ already o w = false
  | _ => True
  end.

Lemma op_word_already o w : already o w = true → op_word o (bit_mask (op_index o)) w = w.
Proof.
  destruct o; simpl; unfold kill_word, revive_word; intros H; by rewrite H.
Qed.

Lemma apply_op_update o l : apply_op l o = update_word (op_word o) l (op_index o).
Proof. by destruct o. Qed.

Lemma apply_op_insert o l w :
  in_range l (op_index o) = true → words l !! word_index (op_index o) = Some w →
  apply_op l o =
  mkLiveDocs (<[word_index (op_index o) := op_word o (bit_mask (op_index o)) w]> (words l))
    (n_ords l).
Proof.
  intros Hr Hw. rewrite apply_op_update. unfold update_word. rewrite Hr. f_equal.
  apply list_eq. intros k. rewrite list_lookup_alter, list_lookup_insert.
  pose proof (lookup_lt_Some _ _ _ Hw).
  repeat case_decide; subst; rewrite ?Hw; simpl; try done; naive_solver.
Qed.

Lemma apply_op_noop o l w :
  words l !! word_index (op_index o) = Some w → already o w = true → apply_op l o = l.
Proof.
  intros Hw Ha. destruct (in_range l (op_index o)) eqn:Hr.
  - rewrite (apply_op_insert o l w) by done. rewrite op_word_already by done.
    rewrite list_insert_id by done. by destruct l.
  - rewrite apply_op_update. unfold update_word. by rewrite Hr.
Qed.

(** One step either leaves the bits alone and the operation pending, or returns
    having applied exactly its operation. *)
Lemma cas_step_linear l t l' t' :
  thread_ok l t → cas_step (l, t) (l', t') →
  thread_ok l' t' ∧ n_ords l' = n_ords l ∧
  ((l' = l ∧ thread_op t' = thread_op t) ∨
   (∃ o, thread_op t = Some o ∧ t' = Returned ∧ l' = apply_op l o)).
Proof.
  intros Hok Hs. inversion Hs as [? o Hr|? o w Hr Hw Ha|? o w Hr Hw Ha|? o w Hw|? o w w' Hw Hne];
    subst; simpl in *; split_and!; try done.
  - right. exists o. split_and!; try done. rewrite apply_op_update. unfold update_word.
    by rewrite Hr.
  - right. exists o. split_and!; try done. by erewrite apply_op_noop.
  - by left.
  - right. exists o. destruct Hok as [Hr Ha]. split_and!; try done. by rewrite (apply_op_insert o l w).
  - by left.
Qed.

Lemma pending_insert_same ts k t t' :
  ts !! k = Some t → thread_op t' = thread_op t → pending (<[k := t']> ts) = pending ts.
Proof.
  revert k. induction ts as [|s ts IH]; intros [|k] Hk Ht; simplify_eq/=; try done.
  - unfold pending. simpl. by rewrite Ht.
  - unfold pending in *. simpl. by rewrite (IH k).
Qed.

Lemma pending_insert_done ts k t o :
  ts !! k = Some t → thread_op t = Some o →
  pending ts ≡ₚ o :: pending (<[k := Returned]> ts).
Proof.
  revert k. induction ts as [|s ts IH]; intros [|k] Hk Ht; simplify_eq/=; try done.
  - unfold pending. simpl. by rewrite Ht.
  - unfold pending in *. simpl. destruct (thread_op s) as [o'|]; simpl; [|by apply IH].
    rewrite (IH k) by done. apply Permutation_swap.
Qed.

(** ** The abstract set of live ordinals *)

Definition spec_op (n : Z) (s : gset Z) (o : bitop) : gset Z :=
  match o with
  | OpKill i => s ∖ {[i]}
  | OpRevive i => if decide (0 <= i < n) then {[i]} ∪ s else s
  end.

Definition all_ordinals (n : Z) : gset Z := list_to_set (seqZ 0 n).

(** The bitset denotes a set of ordinals. *)
Definition denotes (l : liveDocs) (s : gset Z) : Prop :=
  live_wf l ∧ ∀ j, j ∈ s ↔ Live l j = true.

Lemma denotes_new n : 0 <= n → denotes (newLiveDocs n) (all_ordinals n).
Proof.
  intros Hn. split; [by apply newLiveDocs_wf|]. intros j.
  rewrite Live_newLiveDocs, in_range_spec by done. unfold all_ordinals.
  rewrite elem_of_list_to_set, elem_of_seqZ. simpl. lia.
Qed.

Lemma denotes_op l s o : denotes l s → denotes (apply_op l o) (spec_op (n_ords l) s o).
Proof.
  intros [Hwf Hs]. destruct o as [i|i]; simpl.
  - split; [by apply Kill_wf|]. intros j. rewrite Live_Kill by done.
    rewrite andb_true_iff, negb_true_iff, Z.eqb_neq, <-Hs. set_solver.
  - split; [by apply Revive_wf|]. intros j. rewrite Live_Revive by done.
    rewrite orb_true_iff, andb_true_iff, in_range_spec, Z.eqb_eq, <-Hs.
    case_decide; [rewrite elem_of_union, elem_of_singleton|]; naive_solver.
Qed.

Lemma n_ords_apply_op l o : n_ords (apply_op l o) = n_ords l.
Proof. destruct o; [apply n_ords_Kill|apply n_ords_Revive]. Qed.

Lemma live_ordinals_size l s : denotes l s → live_ordinals l = Z.of_nat (size s).
Proof.
  intros [Hwf Hs]. unfold live_ordinals, count_true. f_equal.
  set (ks := filter _ _).
  assert (s = list_to_set (Z.of_nat <$> ks)) as ->.
  { apply set_eq. intros j. rewrite Hs, elem_of_list_to_set, list_elem_of_fmap.
    unfold ks. setoid_rewrite list_elem_of_filter. setoid_rewrite elem_of_seq. split.
    - intros Hj. pose proof Hj as Hr. rewrite Live_bit in Hr. apply andb_true_iff in Hr as [Hr _].
      apply in_range_spec in Hr. exists (Z.to_nat j). rewrite Z2Nat.id by lia. split_and!; [done..|lia|lia].
    - by intros (k & -> & ? & _). }
  rewrite size_list_to_set; [by rewrite length_fmap|].
  apply NoDup_fmap_2; [apply _|]. apply NoDup_filter, NoDup_seq.
Qed.

(** C31: the bitset refines a set of ordinals: after any sequence of kills and
    revives (out-of-range ones included) from a fresh bitset of [n] ordinals, the
    live bits are exactly the abstract set, [LiveCount] is its size and [DeadCount]
    its complement in [n], with the padding bits of the last word cancelled. *)
Theorem livedocs_refines_set (n : Z) (ops : list bitop) :
  0 <= n →
  let l := fold_left apply_op ops (newLiveDocs n) in
  let s := fold_left (spec_op n) ops (all_ordinals n) in
  denotes l s ∧ LiveCount l = Z.of_nat (size s) ∧ DeadCount l = n - Z.of_nat (size s).
Proof.
  intros Hn l s.
  assert (denotes l s ∧ n_ords l = n) as [Hd Hl].
  { unfold l, s. clear l s. pose proof (denotes_new n Hn) as H.
    assert (n_ords (newLiveDocs n) = n) as Hl by done. revert H Hl.
    generalize (newLiveDocs n) (all_ordinals n). induction ops as [|o ops IH]; intros l s Hd Hl;
      [done|]. cbn [fold_left]. apply IH; [|by rewrite n_ords_apply_op].
    rewrite <-Hl. by apply denotes_op. }
  assert (LiveCount l = Z.of_nat (size s)) as Hc.
  { rewrite LiveCount_correct by apply Hd. by apply live_ordinals_size. }
  split_and!; [done..|]. unfold DeadCount. lia.
Qed.

(** C40: the compare-and-swap loops are linearizable: however the loads and swaps of
    any pool of [Kill] and [Revive] goroutines interleave, the bits reached are
    those of running the operations that returned, one after the other in some
    order, and no operation is lost or applied twice. *)
Theorem cas_loops_linearizable (l l' : liveDocs) (ts ts' : list thread) :
  Forall (thread_ok l) ts → rtc pool_step (l, ts) (l', ts') →
  ∃ returned, pending ts ≡ₚ returned ++ pending ts' ∧ l' = fold_left apply_op returned l.
Proof.
  intros Hok Hsteps. remember (l, ts) as c eqn:Hc. remember (l', ts') as c' eqn:Hc'.
  revert l ts Hc Hok. induction Hsteps as [c|c1 c2 c3 Hs Hss IH]; intros l ts -> Hok.
  { simplify_eq. by exists []. }
  inversion Hs as [? l2 ? t t2 k Hk Hcs]; subst.
  pose proof (proj1 (Forall_lookup _ _) Hok _ _ Hk) as Htok.
  destruct (cas_step_linear _ _ _ _ Htok Hcs) as (Hok2 & Hn & Hlin).
  assert (Forall (thread_ok l2) (<[k:=t2]> ts)) as Hoks.
  { apply Forall_lookup. intros k' t' Hk'. rewrite list_lookup_insert in Hk'.
    case_decide; [naive_solver|]. pose proof (proj1 (Forall_lookup _ _) Hok _ _ Hk') as H'.
    destruct t'; simpl in *; try done. unfold in_range in *. by rewrite Hn. }
  destruct (IH eq_refl l2 _ eq_refl Hoks) as (ops & Hp & ->).
  destruct Hlin as [[-> Ht]|(o & Ht & -> & ->)].
  - exists ops. by erewrite <-pending_insert_same.
  - exists (o :: ops). split; [|done]. rewrite (pending_insert_done ts k t o) by done.
    by rewrite Hp.
Qed.

(** A goroutine left alone returns: from any reachable point of its loop, three
    steps without interference are enough, whatever stale word it had loaded. *)
Theorem cas_loop_solo_returns (l : liveDocs) (t : thread) :
  live_wf l → thread_ok l t →
  ∃ l' k, (k ≤ 3)%nat ∧ nsteps cas_step k (l, t) (l', Returned) ∧
  l' = match thread_op t with Some o => apply_op l o | None => l end.
Proof.
  intros Hwf Hok.
  assert (∀ o, ∃ l' k, (k ≤ 2)%nat ∧ nsteps cas_step k (l, Ready o) (l', Returned) ∧
    l' = apply_op l o) as Hready.
  { intros o. destruct (in_range l (op_index o)) eqn:Hr; cycle 1.
    { exists l, 1%nat. split_and!; [lia|by apply nsteps_once, step_out_of_range|].
      rewrite apply_op_update. unfold update_word. by rewrite Hr. }
    pose proof (in_range_words _ _ Hwf Hr) as Hlt. rewrite <-word_index_nat in Hlt by
      (apply in_range_spec in Hr; lia).
    destruct (lookup_lt_is_Some_2 _ _ Hlt) as [w Hw].
    destruct (already o w) eqn:Ha.
    - exists l, 1%nat. split_and!; [lia|by eapply nsteps_once, step_load_already|].
      by erewrite apply_op_noop.
    - eexists _, 2%nat. split_and!; [lia| |by symmetry; eapply apply_op_insert].
      eapply nsteps_l; [by eapply step_load|]. by apply nsteps_once, step_cas_ok. }
  destruct t as [o|o w|]; simpl.
  - destruct (Hready o) as (l' & k & ? & ? & ?). exists l', k. split_and!; [lia|done..].
  - destruct Hok as [Hr Ha]. pose proof (in_range_words _ _ Hwf Hr) as Hlt.
    rewrite <-word_index_nat in Hlt by (apply in_range_spec in Hr; lia).
    destruct (lookup_lt_is_Some_2 _ _ Hlt) as [w' Hw'].
    destruct (decide (w = w')) as [->|Hne].
    + eexists _, 1%nat. split_and!; [lia|by apply nsteps_once, step_cas_ok|].
      symmetry. by apply apply_op_insert.
    + destruct (Hready o) as (l' & k & Hk & Hns & ->). exists (apply_op l o), (S k).
      split_and!; [lia| |done]. eapply nsteps_l; [by eapply step_cas_lost|done].
  - exists l, 0%nat. split_and!; [lia|constructor|done].
Qed.

(** Importing a segment with tombstones starts with exactly the tombstoned
    members dead: an ordinal of the imported bitset is live when it is in range and
    no tombstone names a member with that ordinal. *)
Theorem newLiveDocsFromTombstones_spec (n : Z) (ts : list string) (members : idSet) :
  0 <= n →
  let l := newLiveDocsFromTombstones n ts members in
  live_wf l ∧ n_ords l = n ∧
  ∀ j, Live l j = true ↔ 0 <= j < n ∧ ¬ ∃ id, id ∈ ts ∧ members !! id = Some j.
Proof.
  intros Hn l. destruct (tombstones_fold ts members (newLiveDocs n) (newLiveDocs_wf n Hn))
    as (Hwf & Hl & Hlive).
  split_and!; [done|done|]. intros j. unfold l, newLiveDocsFromTombstones. rewrite Hlive.
  rewrite andb_true_iff, negb_true_iff, bool_decide_eq_false, Exists_exists.
  rewrite Live_newLiveDocs, in_range_spec by done. done.
Qed.

Lemma livedocs_refines_set_witness :
  LiveCount (fold_left apply_op [OpKill 3; OpKill 70; OpRevive 3; OpKill 200; OpKill (-1)]
    (newLiveDocs 100)) = 99.
Proof.
  rewrite (proj1 (proj2 (livedocs_refines_set 100
    [OpKill 3; OpKill 70; OpRevive 3; OpKill 200; OpKill (-1)] ltac:(lia)))).
  vm_compute. reflexivity.
Defined.

Lemma cas_loops_linearizable_witness :
  ∃ returned, pending [Ready (OpKill 1); Ready (OpRevive 1)] ≡ₚ
    returned ++ pending [Ready (OpKill 1); Returned] ∧
  newLiveDocs 2 = fold_left apply_op returned (newLiveDocs 2).
Proof.
  apply (cas_loops_linearizable (newLiveDocs 2) (newLiveDocs 2)
    [Ready (OpKill 1); Ready (OpRevive 1)] [Ready (OpKill 1); Returned]).
  - repeat constructor.
  - apply rtc_once. change [Ready (OpKill 1); Returned] with
      (<[1%nat := Returned]> [Ready (OpKill 1); Ready (OpRevive 1)]).
    eapply (pool_one _ _ _ (Ready (OpRevive 1))); [done|].
    by eapply step_load_already.
Defined.

Lemma cas_loop_solo_returns_witness :
  ∃ l' k, (k ≤ 3)%nat ∧ nsteps cas_step k (newLiveDocs 2, Loaded (OpKill 1) 2) (l', Returned) ∧
  l' = Kill (newLiveDocs 2) 1.
Proof.
  apply (cas_loop_solo_returns (newLiveDocs 2) (Loaded (OpKill 1) 2)).
  - apply newLiveDocs_wf. lia.
  - done.
Defined.

Lemma newLiveDocsFromTombstones_spec_witness :
  Live (newLiveDocsFromTombstones 3 ["a"; "zz"] {["a" := 1; "b" := 2]}) 2 = true.
Proof.
  apply (newLiveDocsFromTombstones_spec 3 ["a"; "zz"] {["a" := 1; "b" := 2]}); [lia|].
  split; [lia|]. intros (id & Hid & Hm). set_unfold in Hid.
  destruct Hid as [->|[->|[]]]; vm_compute in Hm; discriminate.
Defined.
