(* ===== verification/TopK.v ===== *)
(** * Top-k selection over scored hits ([internal/searchengine/topk.go])

    [HitHeap] is the bounded min-heap of search hits, [mergeTopK] the merge of the
    per-segment result lists.  Scores are Go [float64]s, here [spec_float], compared
    as Go compares them: every comparison with a NaN is false.  The theorems say what
    the heap keeps, when that is the reference selection "sort, then cut", and when
    it is not. *)

From Stdlib Require Import Floats.SpecFloat.
From S2P Require Import Prelude.

Record Hit := mkHit { HitID : string; Score : spec_float }.

(** What a heap is ordered by. *)
Class Scored (A : Type) := score_of : A → spec_float.

#[export] Instance hit_scored : Scored Hit := Score.

Section Heap.
Context {A : Type} `{Scored A}.

(** The score at a heap index; the code only reads indices in range. *)
Definition sc (h : list A) (i : nat) : spec_float :=
  match h !! i with Some x => score_of x | None => S754_nan end.

Definition less (h : list A) (i j : nat) : bool := SFltb (sc h i) (sc h j).

(** [h[i], h[j] = h[j], h[i]] *)
Definition swap (h : list A) (i j : nat) : list A :=
  match h !! i, h !! j with
  | Some x, Some y => <[j := x]> (<[i := y]> h)
  | _, _ => h
  end.

Definition parent_of (i : nat) : nat := (i - 1) `div` 2.

(** The loops run at most once per heap level; the length of the heap is fuel enough. *)
Fixpoint siftUp (fuel : nat) (h : list A) (i : nat) : list A :=
  match fuel with
  | O => h
  | S fuel =>
      if decide (0 < i) then
        let parent := parent_of i in
        if negb (less h i parent) then h
        else siftUp fuel (swap h i parent) parent
      else h
  end.

(** The smaller of the children of [i], given the left one exists. *)
Definition smallest_child (h : list A) (i : nat) : nat :=
  let left := 2 * i + 1 in
  let right := left + 1 in
  if (right <? length h) && less h right left then right else left.

Fixpoint siftDown (fuel : nat) (h : list A) (i : nat) : list A :=
  match fuel with
  | O => h
  | S fuel =>
      if length h <=? 2 * i + 1 then h
      else
        let smallest := smallest_child h i in
        if negb (less h smallest i) then h
        else siftDown fuel (swap h i smallest) smallest
  end.

Definition Offer (h : list A) (hit : A) (k : Z) : list A :=
  if (k <=? 0)%Z then h
  else if (Z.of_nat (length h) <? k)%Z then
    siftUp (S (length h)) (h ++ [hit]) (length h)
  else if SFltb (sc h 0) (score_of hit) then
    siftDown (length h) (<[0 := hit]> h) 0
  else h.

Definition offer_all (k : Z) (hits h : list A) : list A :=
  fold_left (λ h hit, Offer h hit k) hits h.
End Heap.

(** The comparison closure of [sort.Slice] in [mergeTopK]. *)
Definition hit_before (a b : Hit) : bool :=
  if negb (SFeqb (Score a) (Score b)) then SFltb (Score b) (Score a)
  else String.ltb (HitID a) (HitID b).

(** [sort.Slice] leaves no element after one it is [hit_before] of. *)
Definition hit_le (a b : Hit) : Prop := hit_before b a = false.

Instance hit_le_dec a b : Decision (hit_le a b).
Proof. unfold hit_le. apply _. Defined.

Definition sort_hits (l : list Hit) : list Hit := merge_sort hit_le l.

Definition mergeTopK (perSegment : list (list Hit)) (k : Z) : list Hit :=
  if (k <=? 0)%Z then []
  else sort_hits (fold_left (λ h hits, offer_all k hits h) perSegment []).

(** ** The order of scores *)

(** A score that is not a NaN has a rank in a lexicographic order. *)
Definition rank (f : spec_float) : Z * Z * Z :=
  match f with
  | S754_zero _ => (0, 0, 0)%Z
  | S754_infinity s => (if s then -2 else 2, 0, 0)%Z
  | S754_nan => (3, 0, 0)%Z
  | S754_finite s m e => if s then (-1, - e, Z.neg m)%Z else (1, e, Z.pos m)%Z
  end.

Definition rank_lt (a b : Z * Z * Z) : Prop :=
  let '(a1, a2, a3) := a in let '(b1, b2, b3) := b in
  (a1 < b1 ∨ a1 = b1 ∧ (a2 < b2 ∨ a2 = b2 ∧ a3 < b3))%Z.

Definition scored (f : spec_float) : Prop := f ≠ S754_nan.

(** [sle a b]: [b < a] is false; on scores, "a is at most b". *)
Definition sle (a b : spec_float) : Prop := SFltb b a = false.

Lemma SFltb_rank a b : scored a → scored b → SFltb a b = true ↔ rank_lt (rank a) (rank b).
Proof.
  unfold scored, SFltb, SFcompare, rank_lt, rank.
  destruct a as [?|[]| |[] ma ea], b as [?|[]| |[] mb eb]; intros Ha Hb; try done;
    try (split; intros H; first [discriminate H|reflexivity|lia]).
  all: change (Pos.compare_cont Eq ma mb) with (Pos.compare ma mb);
    destruct (Z.compare_spec ea eb), (Pos.compare_spec ma mb); simpl;
    split; intros H'; first [discriminate H'|reflexivity|lia].
Qed.

Lemma SFeqb_rank a b : scored a → scored b → SFeqb a b = true ↔ rank a = rank b.
Proof.
  unfold scored, SFeqb, SFcompare, rank.
  destruct a as [?|[]| |[] ma ea], b as [?|[]| |[] mb eb]; intros Ha Hb; try done.
  all: change (Pos.compare_cont Eq ma mb) with (Pos.compare ma mb);
    destruct (Z.compare_spec ea eb), (Pos.compare_spec ma mb); simpl;
    split; intros H'; simplify_eq; first [done|lia].
Qed.

Lemma sle_rank a b : scored a → scored b → sle a b ↔ ¬ rank_lt (rank b) (rank a).
Proof.
  intros. unfold sle. rewrite <-SFltb_rank by done. by destruct (SFltb b a).
Qed.

(** Facts about the order of scores are linear arithmetic on their ranks. *)
Ltac score_order :=
  repeat match goal with
  | H : SFltb _ _ = true |- _ => apply SFltb_rank in H; [|assumption..]
  | H : SFltb _ _ = false |- _ => apply sle_rank in H; [|assumption..]
  | H : SFeqb _ _ = true |- _ => apply SFeqb_rank in H; [|assumption..]
  | H : sle _ _ |- _ => apply sle_rank in H; [|assumption..]
  | |- sle _ _ => apply sle_rank; [assumption..|]
  | |- SFltb _ _ = true => apply SFltb_rank; [assumption..|]
  | |- SFeqb _ _ = true => apply SFeqb_rank; [assumption..|]
  end;
  repeat match goal with H : context [rank _] |- _ => revert H end;
  repeat match goal with |- context [rank ?x] => destruct (rank x) as [[? ?] ?] end;
  unfold rank_lt; intros; simplify_eq; first [done|lia|f_equal; [f_equal|]; lia].

Lemma sle_refl a : scored a → sle a a.
Proof. intros. score_order. Qed.

Lemma sle_trans a b c : scored a → scored b → scored c → sle a b → sle b c → sle a c.
Proof. intros. score_order. Qed.

Lemma slt_sle a b : scored a → scored b → SFltb a b = true → sle a b.
Proof. intros. score_order. Qed.

Lemma sle_antisym a b : scored a → scored b → sle a b → sle b a → SFeqb a b = true.
Proof. intros. score_order. Qed.

(** ** Swaps and sifts permute the heap *)

Section HeapProps.
Context {A : Type} `{Scored A}.
Implicit Types (h : list A).

Definition all_scored (h : list A) : Prop := Forall (λ x, scored (score_of x)) h.

Lemma sc_scored h i : all_scored h → i < length h → scored (sc h i).
Proof.
  intros Hs Hi. unfold sc. destruct (lookup_lt_is_Some_2 h i Hi) as [x Hx]. rewrite Hx.
  by eapply Forall_lookup_1 in Hs.
Qed.

Lemma swap_perm h i j : swap h i j ≡ₚ h.
Proof.
  unfold swap. destruct (h !! i) as [x|] eqn:Hi, (h !! j) as [y|] eqn:Hj; try done.
  destruct (decide (i = j)) as [->|Hij].
  { simplify_eq. rewrite list_insert_insert, decide_True by done. by rewrite list_insert_id. }
  symmetry. apply Permutation_inj.
  split; [by rewrite !length_insert|].
  exists (λ k, if decide (k = i) then j else if decide (k = j) then i else k). split.
  - intros a b. repeat case_decide; congruence.
  - pose proof (lookup_lt_Some _ _ _ Hi). pose proof (lookup_lt_Some _ _ _ Hj).
    intros k. rewrite !list_lookup_insert, length_insert.
    repeat case_decide; subst; try lia; naive_solver.
Qed.

Lemma length_swap h i j : length (swap h i j) = length h.
Proof. by rewrite swap_perm. Qed.

Lemma swap_scored h i j : all_scored h → all_scored (swap h i j).
Proof. unfold all_scored. by rewrite swap_perm. Qed.

Lemma sc_swap h i j k :
  i < length h → j < length h →
  sc (swap h i j) k = if decide (k = j) then sc h i else if decide (k = i) then sc h j else sc h k.
Proof.
  intros Hi Hj. unfold swap, sc.
  destruct (lookup_lt_is_Some_2 h i Hi) as [x Hx], (lookup_lt_is_Some_2 h j Hj) as [y Hy].
  rewrite Hx, Hy, !list_lookup_insert, length_insert.
  repeat case_decide; subst; simplify_eq; try done; lia.
Qed.

Lemma siftUp_perm fuel h i : siftUp fuel h i ≡ₚ h.
Proof.
  revert h i. induction fuel as [|fuel IH]; intros h i; cbn [siftUp]; [done|].
  repeat case_match; try done. by rewrite IH, swap_perm.
Qed.

Lemma siftDown_perm fuel h i : siftDown fuel h i ≡ₚ h.
Proof.
  revert h i. induction fuel as [|fuel IH]; intros h i; cbn [siftDown]; [done|].
  cbv zeta. repeat case_match; try done. by rewrite IH, swap_perm.
Qed.

(** ** The heap order *)

(** No child scores below its parent, except possibly as [bad] allows. *)
Definition heap_except (bad : nat → bool) (h : list A) : Prop :=
  ∀ c, 0 < c < length h → bad c = false → sle (sc h (parent_of c)) (sc h c).

Definition heap_ok (h : list A) : Prop := heap_except (λ _, false) h.

(** The children of [i] are at least its parent: what a sift through [i] relies on. *)
Definition bridged (h : list A) (i : nat) : Prop :=
  ∀ c, 0 < c < length h → parent_of c = i → 0 < i → sle (sc h (parent_of i)) (sc h c).

Lemma parent_lt i : 0 < i → parent_of i < i.
Proof. intros. unfold parent_of. apply Nat.Div0.div_lt_upper_bound. lia. Qed.

Lemma parent_children c i : 0 < c → parent_of c = i → c = 2 * i + 1 ∨ c = 2 * i + 2.
Proof.
  intros Hc <-. unfold parent_of. pose proof (Nat.div_mod_eq (c - 1) 2).
  pose proof (Nat.mod_upper_bound (c - 1) 2). lia.
Qed.

Lemma parent_left i : parent_of (2 * i + 1) = i.
Proof. unfold parent_of. replace (2 * i + 1 - 1) with (i * 2) by lia. by apply Nat.div_mul. Qed.

Lemma parent_right i : parent_of (2 * i + 1 + 1) = i.
Proof.
  unfold parent_of. replace (2 * i + 1 + 1 - 1) with (1 + i * 2) by lia.
  by rewrite Nat.div_add.
Qed.

Lemma siftUp_heap fuel h i :
  all_scored h → i < length h → i < fuel →
  heap_except (λ c, bool_decide (c = i)) h → bridged h i → heap_ok (siftUp fuel h i).
Proof.
  revert h i. induction fuel as [|fuel IH]; intros h i Hs Hi Hf Hh Hb; [lia|].
  cbn [siftUp]. destruct (decide (0 < i)) as [Hpos|]; cbv zeta.
  2:{ intros c Hc _. apply Hh; [done|]. apply bool_decide_eq_false. lia. }
  pose proof (parent_lt i Hpos) as Hp. set (p := parent_of i) in *.
  destruct (less h i p) eqn:Hless; cbn [negb].
  2:{ intros c Hc _. destruct (decide (c = i)) as [->|]; [done|].
      apply Hh; [done|]. by apply bool_decide_eq_false. }
  pose proof (sc_scored h i Hs Hi). pose proof (sc_scored h p Hs ltac:(lia)).
  assert (∀ c, 0 < c < length h → c ≠ i → sle (sc h (parent_of c)) (sc h c)) as Hh'.
  { intros c Hc Hci. apply Hh; [done|]. by apply bool_decide_eq_false. }
  apply IH; rewrite ?length_swap; [by apply swap_scored|lia|lia| |].
  - intros c [Hc1 Hc2] Hcp. apply bool_decide_eq_false in Hcp. rewrite length_swap in Hc2.
    pose proof (sc_scored h c Hs Hc2). pose proof (parent_lt c Hc1).
    rewrite !sc_swap by lia. fold p.
    destruct (decide (c = i)) as [->|Hci].
    { fold p. repeat case_decide; try lia. by apply slt_sle. }
    destruct (decide (parent_of c = p)) as [Hpp|Hpp].
    { rewrite (decide_False (P := c = p)) by done. apply (sle_trans _ (sc h p)); try done.
      - by apply slt_sle.
      - rewrite <-Hpp. by apply Hh'. }
    destruct (decide (parent_of c = i)) as [Hpi|Hpi]; rewrite ?decide_False by done.
    + apply Hb; done.
    + by apply Hh'.
  - intros c [Hc1 Hc2] Hcp Hp0. rewrite length_swap in Hc2.
    pose proof (parent_lt p Hp0).
    pose proof (sc_scored h c Hs Hc2). pose proof (sc_scored h (parent_of p) Hs ltac:(lia)).
    rewrite !sc_swap by lia. fold p. pose proof (parent_lt c Hc1).
    rewrite (decide_False (P := parent_of p = p)), (decide_False (P := parent_of p = i)) by lia.
    assert (sle (sc h (parent_of p)) (sc h p)) as Hpp by (apply Hh'; lia).
    rewrite (decide_False (P := c = p)) by lia.
    destruct (decide (c = i)) as [->|Hci]; [done|].
    eapply sle_trans; [done| |done|done|]; [done|]. rewrite <-Hcp. by apply Hh'.
Qed.

Lemma smallest_child_spec h i :
  all_scored h → 2 * i + 1 < length h →
  let s := smallest_child h i in
  i < s < length h ∧ parent_of s = i ∧
  ∀ c, 0 < c < length h → parent_of c = i → sle (sc h s) (sc h c).
Proof.
  intros Hs Hi. cbv zeta.
  assert (∀ c, 0 < c < length h → parent_of c = i →
          c = 2 * i + 1 ∨ c = 2 * i + 1 + 1) as Hch.
  { intros c Hc Hp. apply parent_children in Hp; lia. }
  unfold smallest_child. cbv zeta.
  destruct (Nat.ltb_spec (2 * i + 1 + 1) (length h)) as [Hr|Hr]; cbn [andb].
  - destruct (less h (2 * i + 1 + 1) (2 * i + 1)) eqn:Hl.
    + split_and!; [lia..|apply parent_right|].
      intros c Hc Hp. destruct (Hch c Hc Hp) as [->| ->].
      * apply slt_sle; [by apply sc_scored..|done].
      * apply sle_refl. by apply sc_scored.
    + split_and!; [lia..|apply parent_left|].
      intros c Hc Hp. destruct (Hch c Hc Hp) as [->| ->]; [|done].
      apply sle_refl. by apply sc_scored.
  - split_and!; [lia..|apply parent_left|].
    intros c Hc Hp. destruct (Hch c Hc Hp) as [->| ->]; [|lia].
    apply sle_refl. by apply sc_scored.
Qed.

Lemma siftDown_heap fuel h i :
  all_scored h → i < length h → length h - i ≤ fuel →
  heap_except (λ c, bool_decide (parent_of c = i)) h → bridged h i →
  heap_ok (siftDown fuel h i).
Proof.
  revert h i. induction fuel as [|fuel IH]; intros h i Hs Hi Hf Hh Hb; [lia|].
  assert (∀ c, 0 < c < length h → parent_of c ≠ i → sle (sc h (parent_of c)) (sc h c)) as Hh'.
  { intros c Hc Hci. apply Hh; [done|]. by apply bool_decide_eq_false. }
  cbn [siftDown]. destruct (Nat.leb_spec (length h) (2 * i + 1)) as [Hleaf|Hleaf]; cbv zeta.
  { intros c Hc _. apply Hh'; [done|]. intros Hp%parent_children; lia. }
  destruct (smallest_child_spec h i Hs Hleaf) as (Hsi & Hsp & Hmin).
  set (s := smallest_child h i) in *.
  pose proof (sc_scored h i Hs Hi). pose proof (sc_scored h s Hs ltac:(lia)).
  destruct (less h s i) eqn:Hless; cbn [negb].
  2:{ intros c Hc _. destruct (decide (parent_of c = i)) as [Hp|]; [|by apply Hh'].
      rewrite Hp. pose proof (sc_scored h c Hs ltac:(lia)).
      apply (sle_trans _ (sc h s)); try done. by apply Hmin. }
  apply IH; rewrite ?length_swap; [by apply swap_scored|lia|lia| |].
  - intros c [Hc1 Hc2] Hcp. apply bool_decide_eq_false in Hcp. rewrite length_swap in Hc2.
    pose proof (sc_scored h c Hs Hc2). pose proof (parent_lt c Hc1).
    rewrite !sc_swap by lia. rewrite (decide_False (P := parent_of c = s)) by done.
    destruct (decide (parent_of c = i)) as [Hpi|Hpi].
    { rewrite (decide_False (P := c = i)) by lia.
      destruct (decide (c = s)) as [->|]; [by apply slt_sle|by apply Hmin]. }
    rewrite (decide_False (P := c = s)) by congruence.
    destruct (decide (c = i)) as [->|Hci]; [apply Hb; auto with lia|by apply Hh'].
  - intros c [Hc1 Hc2] Hcp _. rewrite length_swap in Hc2. pose proof (parent_lt c Hc1).
    rewrite !sc_swap by lia. rewrite Hsp.
    rewrite (decide_False (P := i = s)), (decide_True (P := i = i)) by lia.
    rewrite (decide_False (P := c = s)), (decide_False (P := c = i)) by lia.
    rewrite <-Hcp. apply Hh'; [lia|]. lia.
Qed.

Lemma heap_root_min h i :
  heap_ok h → all_scored h → i < length h → sle (sc h 0) (sc h i).
Proof.
  intros Hh Hs. induction (lt_wf i) as [i _ IH]. intros Hi.
  destruct (decide (i = 0)) as [->|]; [by apply sle_refl, sc_scored|].
  pose proof (parent_lt i ltac:(lia)).
  apply (sle_trans _ (sc h (parent_of i))); try (apply sc_scored; [done|lia]).
  - apply IH; lia.
  - apply Hh; [lia|done].
Qed.

(** ** What the heap keeps *)

(** [h] is a best selection of the offered hits: nothing left out beats anything kept. *)
Definition selection (k : nat) (offered h : list A) : Prop :=
  length h = k `min` length offered ∧
  ∃ rest, offered ≡ₚ h ++ rest ∧
    ∀ x y, x ∈ h → y ∈ rest → sle (score_of y) (score_of x).

Lemma selection_perm k offered h h' : h ≡ₚ h' → selection k offered h → selection k offered h'.
Proof.
  intros Hp (Hlen & rest & Hr & Hb). split; [by rewrite <-Hp|].
  exists rest. split; [by rewrite <-Hp|]. intros x y Hx Hy. apply Hb; [by rewrite Hp|done].
Qed.

Lemma root_min_elem h x :
  heap_ok h → all_scored h → x ∈ h → sle (sc h 0) (score_of x).
Proof.
  intros Hh Hs [i Hi]%list_elem_of_lookup.
  pose proof (heap_root_min h i Hh Hs (lookup_lt_Some _ _ _ Hi)) as Hm.
  by unfold sc in Hm at 2; rewrite Hi in Hm.
Qed.

Lemma sc_app_l h x i : i < length h → sc (h ++ [x]) i = sc h i.
Proof. intros. unfold sc. by rewrite lookup_app_l. Qed.

Lemma Offer_grow h hit :
  heap_ok h → all_scored h → scored (score_of hit) →
  heap_ok (siftUp (S (length h)) (h ++ [hit]) (length h)).
Proof.
  intros Hh Hs Hhit.
  apply siftUp_heap; rewrite ?length_app; simpl; try lia.
  - apply Forall_app. split; [done|]. by constructor.
  - intros c [Hc1 Hc2] Hne%bool_decide_eq_false. rewrite length_app in Hc2. simpl in Hc2.
    pose proof (parent_lt c Hc1). rewrite !sc_app_l by lia. apply Hh; [lia|done].
  - intros c [Hc1 Hc2] Hp Hpos. rewrite length_app in Hc2. simpl in Hc2.
    pose proof (parent_lt c Hc1). lia.
Qed.

Lemma Offer_evict h hit :
  heap_ok h → all_scored h → scored (score_of hit) → h ≠ [] →
  heap_ok (siftDown (length h) (<[0 := hit]> h) 0).
Proof.
  intros Hh Hs Hhit Hne. assert (0 < length h) by (destruct h; simpl; [done|lia]).
  apply siftDown_heap; rewrite ?length_insert; try lia.
  - by apply Forall_insert.
  - intros c [Hc1 Hc2] Hp%bool_decide_eq_false. rewrite length_insert in Hc2.
    unfold sc. rewrite !list_lookup_insert_ne by lia. by apply Hh.
  - intros c Hc Hp Hpos. lia.
Qed.

Lemma Offer_selection k offered h hit :
  (0 < k)%Z → Forall (λ x, scored (score_of x)) offered → scored (score_of hit) →
  heap_ok h → selection (Z.to_nat k) offered h →
  heap_ok (Offer h hit k) ∧ selection (Z.to_nat k) (offered ++ [hit]) (Offer h hit k).
Proof.
  intros Hk Ho Hhit Hh (Hlen & rest & Hperm & Hbest).
  assert (all_scored h) as Hs by (rewrite Hperm in Ho; by apply Forall_app in Ho as [? _]).
  assert (all_scored rest) as Hsr by (rewrite Hperm in Ho; by apply Forall_app in Ho as [_ ?]).
  pose proof (Permutation_length Hperm) as Hl. rewrite length_app in Hl.
  unfold Offer. rewrite (proj2 (Z.leb_gt k 0)) by done.
  destruct (Z.ltb_spec (Z.of_nat (length h)) k) as [Hroom|Hfull].
  { assert (rest = []) as -> by (apply nil_length_inv; lia). simpl in Hl.
    split; [by apply Offer_grow|].
    eapply selection_perm; [symmetry; apply siftUp_perm|].
    split; [rewrite !length_app; simpl; lia|].
    exists []. split; [by rewrite Hperm, !app_nil_r|]. intros x y _ Hy. set_solver. }
  assert (h ≠ []) as Hne by (intros ->; simpl in Hfull; lia).
  destruct (SFltb (sc h 0) (score_of hit)) eqn:Hbeat.
  - split; [by apply Offer_evict|].
    eapply selection_perm; [symmetry; apply siftDown_perm|].
    split; [rewrite length_insert, length_app; simpl; lia|].
    destruct h as [|root h]; [done|]. simpl. unfold sc in Hbeat. simpl in Hbeat.
    exists (root :: rest). split; [rewrite Hperm; solve_Permutation|].
    assert (scored (score_of root)) by (by inversion Hs).
    intros x y Hx Hy. assert (scored (score_of x) ∧ sle (score_of root) (score_of x)) as [Hxs Hrx].
    { apply elem_of_cons in Hx as [->|Hx]; [split; [done|by apply slt_sle]|].
      apply Forall_cons in Hs as Hs'. split; [by eapply (proj1 (Forall_forall _ _) (proj2 Hs'))|].
      apply (root_min_elem (root :: h)); [done..|set_solver]. }
    apply elem_of_cons in Hy as [->|Hy]; [done|].
    assert (scored (score_of y)) by (by eapply (proj1 (Forall_forall _ _) Hsr)).
    apply (sle_trans _ (score_of root)); try done. apply Hbest; set_solver.
  - split; [done|]. split; [rewrite length_app; simpl; lia|].
    exists (rest ++ [hit]). split; [rewrite Hperm; solve_Permutation|].
    intros x y Hx Hy. apply elem_of_app in Hy as [Hy|Hy]; [by apply Hbest|].
    apply list_elem_of_singleton in Hy as ->.
    pose proof (root_min_elem h x Hh Hs Hx).
    apply (sle_trans _ (sc h 0)); try done.
    + apply sc_scored; [done|]. destruct h; simpl; [done|lia].
    + by eapply (proj1 (Forall_forall _ _) Hs).
Qed.

Lemma offer_all_selection k hits offered h :
  (0 < k)%Z → all_scored (offered ++ hits) → heap_ok h → selection (Z.to_nat k) offered h →
  heap_ok (offer_all k hits h) ∧ selection (Z.to_nat k) (offered ++ hits) (offer_all k hits h).
Proof.
  intros Hk. revert offered h. induction hits as [|hit hits IH]; intros offered h Hs Hh Hsel.
  { by rewrite app_nil_r. }
  assert (all_scored offered ∧ scored (score_of hit)) as [Ho Hhit].
  { apply Forall_app in Hs as [? Hs]. by inversion Hs. }
  destruct (Offer_selection k offered h hit Hk Ho Hhit Hh Hsel) as [Hh' Hsel'].
  rewrite cons_middle, app_assoc in Hs |- *. by apply IH.
Qed.

Lemma merge_fold_selection k perSegment offered h :
  (0 < k)%Z → all_scored (offered ++ concat perSegment) → heap_ok h →
  selection (Z.to_nat k) offered h →
  let h' := fold_left (λ h hits, offer_all k hits h) perSegment h in
  heap_ok h' ∧ selection (Z.to_nat k) (offered ++ concat perSegment) h'.
Proof.
  intros Hk. revert offered h. induction perSegment as [|hits segs IH]; intros offered h Hs Hh Hsel.
  { simpl. by rewrite app_nil_r. }
  simpl in Hs |- *. rewrite app_assoc in Hs |- *.
  destruct (offer_all_selection k hits offered h) as [Hh' Hsel']; [done| |done..|].
  { by apply Forall_app in Hs as [? _]. }
  by apply IH.
Qed.
Lemma selection_nil k : selection k [] [].
Proof. split; [simpl; lia|]. exists []. split; [done|]. set_solver. Qed.

Lemma selection_scored k offered h : all_scored offered → selection k offered h → all_scored h.
Proof.
  unfold all_scored. intros Hs (_ & rest & Hr & _). rewrite Hr in Hs.
  by apply Forall_app in Hs as [? _].
Qed.
End HeapProps.

(** ** The order of the result *)

Lemma hit_le_spec a b :
  scored (Score a) → scored (Score b) →
  hit_le a b ↔
  SFltb (Score b) (Score a) = true ∨ (SFeqb (Score a) (Score b) = true ∧ HitID a <=s HitID b).
Proof.
  intros Ha Hb. unfold hit_le, hit_before.
  assert (String.ltb (HitID b) (HitID a) = false ↔ HitID a <=s HitID b) as Hid.
  { rewrite str_le_not_lt. unfold str_lt. destruct (String.ltb _ _); naive_solver. }
  destruct (SFeqb (Score b) (Score a)) eqn:He; cbn [negb].
  - rewrite Hid. split.
    + intros. right. split; [score_order|done].
    + intros [H|[_ H]]; [exfalso; score_order|done].
  - assert (SFeqb (Score a) (Score b) = true → False) as Hne.
    { intros H. assert (SFeqb (Score b) (Score a) = true) by score_order. congruence. }
    split; [|intros [H|[H _]]; [apply slt_sle in H; done|by destruct Hne]].
    intros H. left. destruct (SFltb (Score b) (Score a)) eqn:Hl; [done|].
    exfalso. apply Hne. by apply sle_antisym.
Qed.

Lemma hit_before_nan a b : ¬ (scored (Score a) ∧ scored (Score b)) → hit_before a b = false.
Proof.
  unfold scored, hit_before. intros H.
  assert (Score a = S754_nan ∨ Score b = S754_nan) as [-> | ->].
  { destruct (Score a), (Score b); try (by left); try (by right); exfalso; by apply H. }
  - by destruct (Score b) as [|[]| |[]].
  - by destruct (Score a) as [|[]| |[]].
Qed.

Lemma scored_dec f : {scored f} + {¬ scored f}.
Proof. unfold scored. destruct f; (left; discriminate) || (right; naive_solver). Defined.

#[export] Instance hit_le_total : Total hit_le.
Proof.
  intros a b.
  destruct (scored_dec (Score a)) as [Ha|Ha], (scored_dec (Score b)) as [Hb|Hb];
    try (left; apply hit_before_nan; naive_solver).
  rewrite !hit_le_spec by done.
  destruct (SFltb (Score b) (Score a)) eqn:H1; [by left; left|].
  destruct (SFltb (Score a) (Score b)) eqn:H2; [by right; left|].
  destruct (total String.le (HitID a) (HitID b)) as [Hs|Hs]; [left|right]; right;
    (split; [by apply sle_antisym|done]).
Qed.

Lemma hit_le_trans a b c :
  scored (Score a) → scored (Score b) → scored (Score c) →
  hit_le a b → hit_le b c → hit_le a c.
Proof.
  intros Ha Hb Hc. rewrite !hit_le_spec by done.
  intros [H1|[H1 H1']] [H2|[H2 H2']].
  - left. score_order.
  - left. score_order.
  - left. score_order.
  - right. split; [score_order|by eapply str_le_trans].
Qed.

Lemma sort_hits_perm l : sort_hits l ≡ₚ l.
Proof. apply merge_sort_Permutation. Qed.

Lemma sort_hits_sorted l : all_scored l → StronglySorted hit_le (sort_hits l).
Proof.
  intros Hs. apply (Sorted_StronglySorted_on (λ x, scored (Score x))).
  - intros a b c. apply hit_le_trans.
  - unfold all_scored in Hs. by rewrite <-(sort_hits_perm l) in Hs.
  - apply Sorted_merge_sort, _.
Qed.

Lemma mergeTopK_selection perSegment k :
  all_scored (concat perSegment) →
  selection (Z.to_nat k) (concat perSegment) (mergeTopK perSegment k).
Proof.
  intros Hs. unfold mergeTopK. destruct (Z.leb_spec k 0).
  { split; [simpl; lia|]. exists (concat perSegment). split; [done|]. set_solver. }
  assert (heap_ok []) as Hnil by (intros c [_ Hc]; simpl in Hc; lia).
  destruct (merge_fold_selection k perSegment [] []) as [_ Hsel];
    [lia|done|done|apply selection_nil|].
  eapply selection_perm; [symmetry; apply sort_hits_perm|done].
Qed.

Lemma mergeTopK_sorted perSegment k :
  all_scored (concat perSegment) → StronglySorted hit_le (mergeTopK perSegment k).
Proof.
  intros Hs. pose proof (selection_scored _ _ _ Hs (mergeTopK_selection _ k Hs)) as Hm.
  unfold mergeTopK in *. destruct (Z.leb_spec k 0); [constructor|].
  apply sort_hits_sorted. unfold all_scored in *. by rewrite sort_hits_perm in Hm.
Qed.

(** Whatever the scores, NaN included: what a heap holds was offered, and as many as fit. *)
Lemma Offer_kept {A} `{Scored A} (h : list A) hit k :
  (0 < k)%Z → (Z.of_nat (length h) <= k)%Z →
  length (Offer h hit k) = S (length h) `min` Z.to_nat k ∧
  ∃ rest, h ++ [hit] ≡ₚ Offer h hit k ++ rest.
Proof.
  intros Hk Hl. unfold Offer. rewrite (proj2 (Z.leb_gt k 0)) by done.
  destruct (Z.ltb_spec (Z.of_nat (length h)) k) as [Hlt|Hge].
  { rewrite (Permutation_length (siftUp_perm _ _ _)), length_app. cbn [length]. split; [lia|].
    exists []. by rewrite siftUp_perm, app_nil_r. }
  destruct h as [|root rest]; [simpl in Hge; lia|]. case_match.
  - rewrite (Permutation_length (siftDown_perm _ _ _)). cbn [length list_insert insert] in *. split; [lia|].
    exists [root]. rewrite siftDown_perm. simpl. solve_Permutation.
  - cbn [length] in *. split; [lia|]. by exists [hit].
Qed.

Lemma offer_all_kept {A} `{Scored A} k (hits h : list A) :
  (0 < k)%Z → (Z.of_nat (length h) <= k)%Z →
  length (offer_all k hits h) = (length h + length hits) `min` Z.to_nat k ∧
  ∃ rest, h ++ hits ≡ₚ offer_all k hits h ++ rest.
Proof.
  intros Hk. unfold offer_all. revert h. induction hits as [|hit hits IH]; intros h Hl; cbn [fold_left].
  { rewrite Nat.add_0_r, app_nil_r. split; [lia|]. exists []. by rewrite app_nil_r. }
  destruct (Offer_kept h hit k Hk Hl) as [Hlen [r1 Hp1]].
  destruct (IH (Offer h hit k)) as [Hlen2 [r2 Hp2]]; [rewrite Hlen; lia|].
  split; [rewrite Hlen2, Hlen; cbn [length]; lia|]. exists (r2 ++ r1).
  rewrite cons_middle, app_assoc, Hp1, <-app_assoc, (Permutation_app_comm r1 hits), !app_assoc, Hp2. done.
Qed.

Lemma mergeTopK_kept perSegment k :
  length (mergeTopK perSegment k) = Z.to_nat k `min` length (concat perSegment) ∧
  ∃ rest, concat perSegment ≡ₚ mergeTopK perSegment k ++ rest.
Proof.
  unfold mergeTopK. destruct (Z.leb_spec k 0) as [Hk|Hk].
  { split; [simpl; lia|]. by exists (concat perSegment). }
  assert (∀ (segs : list (list Hit)) (h : list Hit), (Z.of_nat (length h) <= k)%Z →
    let out := fold_left (λ h hits, offer_all k hits h) segs h in
    length out = (length h + length (concat segs)) `min` Z.to_nat k ∧
    ∃ rest, h ++ concat segs ≡ₚ out ++ rest) as Hall.
  { induction segs as [|hits segs IH]; intros h Hl; cbn [fold_left concat].
    { rewrite Nat.add_0_r, app_nil_r. split; [lia|]. exists []. by rewrite app_nil_r. }
    destruct (offer_all_kept k hits h Hk Hl) as [Hlen [r1 Hp1]].
    destruct (IH (offer_all k hits h)) as [Hlen2 [r2 Hp2]]; [rewrite Hlen; lia|].
    split; [rewrite Hlen2, Hlen, length_app; lia|]. exists (r2 ++ r1).
    rewrite app_assoc, Hp1, <-app_assoc, (Permutation_app_comm r1 _), !app_assoc, Hp2. done. }
  destruct (Hall perSegment []) as [Hlen [rest Hp]]; [simpl; lia|].
  rewrite (Permutation_length (sort_hits_perm _)). split; [rewrite Hlen; simpl; lia|].
  exists rest. by rewrite sort_hits_perm.
Qed.

(** Above a strict score boundary there is only one selection. *)
Lemma selection_above k offered h (a : spec_float) top low :
  all_scored offered → scored a → selection k offered h →
  offered ≡ₚ top ++ low → length top = k →
  (∀ x, x ∈ top → sle a (Score x)) → (∀ y, y ∈ low → SFltb (Score y) a = true) →
  h ≡ₚ top.
Proof.
  intros Hs Ha (Hlen & rest & Hr & Hbest) Hp Hk Htop Hlow.
  set (P := λ x : Hit, sle a (Score x)).
  assert (∀ x, Decision (P x)) as HPd by (intros x; unfold P, sle; apply _).
  assert (filter P offered ≡ₚ top) as Hfilter.
  { rewrite Hp, filter_app. rewrite (list_filter_every P top) by (by apply Forall_forall).
    rewrite (list_filter_none P low); [by rewrite app_nil_r|].
    apply Forall_forall. intros y Hy HP. unfold P, sle in HP. by rewrite Hlow in HP. }
  assert (all_scored h) as Hsh by (unfold all_scored in *; rewrite Hr in Hs; by apply Forall_app in Hs as [? _]).
  assert (all_scored rest) as Hsr by (unfold all_scored in *; rewrite Hr in Hs; by apply Forall_app in Hs as [_ ?]).
  pose proof (Permutation_length Hp) as Hl1. pose proof (Permutation_length Hr) as Hl2.
  rewrite length_app in Hl1, Hl2.
  assert (filter P h ++ filter P rest ≡ₚ top) as Hsplit by (by rewrite <-Hfilter, Hr, filter_app).
  pose proof (Permutation_length Hsplit) as Hl3. rewrite length_app in Hl3.
  destruct (decide (Forall P h)) as [Hall|Hnot].
  - rewrite (list_filter_every P h Hall) in Hsplit, Hl3.
    assert (filter P rest = []) as Hnil by (apply nil_length_inv; lia).
    by rewrite Hnil, app_nil_r in Hsplit.
  - exfalso. apply not_Forall_Exists in Hnot; [|done].
    apply Exists_exists in Hnot as (x & Hx & HPx). cbn beta in HPx.
    assert (scored (Score x)) by (by eapply (proj1 (Forall_forall _ _) Hsh)).
    rewrite (list_filter_none P rest) in Hl3.
    2:{ apply Forall_forall. intros y Hy HPy. apply HPx. unfold P in *.
        assert (scored (Score y)) by (by eapply (proj1 (Forall_forall _ _) Hsr)).
        apply (sle_trans _ (Score y)); try done. by apply Hbest. }
    assert (length (filter P h) < length (filter (λ _, True) h)) as Hlt.
    { by apply (length_filter_strict P (λ _, True) h x). }
    rewrite (list_filter_every (λ _, True) h) in Hlt by (by apply Forall_true).
    simpl in Hl3. lia.
Qed.

(** ** Theorems *)

(** C30: the merge keeps a best selection: min(k, total) of the hits, none of those
    left out scoring above one kept, in order of score descending, then ID ascending. *)
Theorem mergeTopK_best (perSegment : list (list Hit)) (k : Z) :
  all_scored (concat perSegment) →
  let out := mergeTopK perSegment k in
  length out = Z.to_nat k `min` length (concat perSegment) ∧
  StronglySorted hit_le out ∧
  ∃ dropped, concat perSegment ≡ₚ out ++ dropped ∧
    ∀ kept lost, kept ∈ out → lost ∈ dropped → SFltb (Score kept) (Score lost) = false.
Proof.
  intros Hs out. destruct (mergeTopK_selection perSegment k Hs) as (Hlen & rest & Hr & Hb).
  split; [done|]. split; [by apply mergeTopK_sorted|]. exists rest. split; [done|].
  intros x y. apply Hb.
Qed.

(** With distinct IDs, and no tie between the k-th and the next score, the
    merge equals the reference selection: sort the union, cut after k. *)
Theorem mergeTopK_reference (perSegment : list (list Hit)) (k : nat) (a b : Hit) :
  all_scored (concat perSegment) → NoDup (HitID <$> concat perSegment) →
  let sorted := sort_hits (concat perSegment) in
  sorted !! (k - 1) = Some a → sorted !! k = Some b → 0 < k →
  SFltb (Score b) (Score a) = true →
  mergeTopK perSegment (Z.of_nat k) = take k sorted.
Proof.
  intros Hs Hnd sorted Hka Hkb Hk Hab.
  pose proof (sort_hits_perm (concat perSegment)) as Hp. fold sorted in Hp.
  pose proof (sort_hits_sorted _ Hs) as Hsort. fold sorted in Hsort.
  assert (all_scored sorted) as Hss by (unfold all_scored in *; by rewrite Hp).
  assert (∀ i x, sorted !! i = Some x → scored (Score x)) as Hsc
    by (intros i x Hx; by eapply Forall_lookup_1 in Hss).
  pose proof (mergeTopK_selection perSegment (Z.of_nat k) Hs) as Hsel. rewrite Nat2Z.id in Hsel.
  assert (mergeTopK perSegment (Z.of_nat k) ≡ₚ take k sorted) as Hperm.
  { apply (selection_above k (concat perSegment) _ (Score a) _ (drop k sorted));
      [done|by eapply Hsc|done|by rewrite take_drop| | |].
    - rewrite length_take. pose proof (lookup_lt_Some _ _ _ Hkb). lia.
    - intros x (i & Hx & Hi)%elem_of_take.
      destruct (decide (i = k - 1)) as [->|]; [simplify_eq; apply sle_refl; by eapply Hsc|].
      eapply (StronglySorted_lookup_lt hit_le sorted i (k - 1)) in Hsort; [|done|done|lia].
      apply hit_le_spec in Hsort; [|by eapply Hsc..].
      pose proof (Hsc _ _ Hx). pose proof (Hsc _ _ Hka).
      destruct Hsort as [Hlt|[Heq _]]; [by apply slt_sle|score_order].
    - intros y [i Hy]%list_elem_of_lookup. rewrite lookup_drop in Hy.
      pose proof (Hsc _ _ Hka). pose proof (Hsc _ _ Hkb). pose proof (Hsc _ _ Hy).
      destruct (decide (i = 0)) as [->|]; [rewrite Nat.add_0_r in Hy; by simplify_eq|].
      eapply (StronglySorted_lookup_lt hit_le sorted k (k + i)) in Hsort; [|done|done|lia].
      apply hit_le_spec in Hsort; [|done..]. destruct Hsort as [Hlt|[Heq _]]; score_order. }
  apply (StronglySorted_unique_strong hit_le); [|by apply mergeTopK_sorted| |done].
  - intros x y Hx Hy Hxy Hyx. rewrite Hperm in Hx.
    apply (NoDup_fmap_elem HitID (concat perSegment)); [done|..].
    + rewrite <-Hp. by eapply elem_of_take in Hx as (? & ?%list_elem_of_lookup_2 & _).
    + rewrite <-Hp. by eapply elem_of_take in Hy as (? & ?%list_elem_of_lookup_2 & _).
    + apply elem_of_take in Hx as (i & Hx & _), Hy as (j & Hy & _).
      pose proof (Hsc _ _ Hx). pose proof (Hsc _ _ Hy).
      apply hit_le_spec in Hxy, Hyx; [|done..].
      destruct Hxy as [Hxy|[Heq Hxy]], Hyx as [Hyx|[Heq' Hyx]];
        try (exfalso; clear Hxy Hyx; score_order); try (exfalso; score_order).
      by apply (anti_symm String.le).
  - by apply StronglySorted_take.
Qed.

(** The doubles 1.0, 2.0 and 3.0. *)
Definition one : spec_float := S754_finite false 4503599627370496 (-52).
Definition two : spec_float := S754_finite false 4503599627370496 (-51).
Definition three : spec_float := S754_finite false 6755399441055744 (-51).

(** A tie is not broken by arrival order: offered in ascending ID order, the
    heap can keep a later hit and lose an earlier one of the same score, so the
    merge differs from "sort by score descending, then ID ascending, then cut". *)
Theorem mergeTopK_tie_evicts_first :
  ∃ hits k, Forall (λ x, scored (Score x)) hits ∧
    StronglySorted (λ x y, HitID x <s HitID y) hits ∧
    mergeTopK [hits] (Z.of_nat k) ≠ take k (sort_hits hits).
Proof.
  exists [mkHit "a" one; mkHit "b" one; mkHit "c" two], 2.
  split_and!; [by repeat constructor|by repeat constructor|]. vm_compute. discriminate.
Qed.

Lemma mergeTopK_best_witness :
  length (mergeTopK [[mkHit "a" one; mkHit "b" two]; [mkHit "c" three]] 2) = 2.
Proof.
  apply (mergeTopK_best [[mkHit "a" one; mkHit "b" two]; [mkHit "c" three]] 2).
  by repeat constructor.
Defined.

Lemma mergeTopK_reference_witness :
  mergeTopK [[mkHit "a" one; mkHit "b" two]; [mkHit "c" three]] 2 =
  [mkHit "c" three; mkHit "b" two].
Proof.
  etrans; [apply (mergeTopK_reference [[mkHit "a" one; mkHit "b" two]; [mkHit "c" three]] 2
    (mkHit "b" two) (mkHit "a" one))|reflexivity].
  - by repeat constructor.
  - apply NoDup_ListNoDup. repeat constructor; simpl; naive_solver.
  - reflexivity.
  - reflexivity.
  - lia.
  - reflexivity.
Defined.
