(* ===== verification/Sha256.v ===== *)
(** * SHA-256 ([crypto/sha256] of the Go standard library)

    The client hashes document ids into buckets and payloads into segment ids with
    [sha256.Sum256].  This file is that function, executable, on byte strings: 32-bit
    words are [N] below 2^32 with wrap-around addition.  Nothing is proved of it but
    the width of its digest; it is here so that the definitions that hash evaluate to
    what the program computes. *)

From Stdlib Require Import Ascii.
From S2P Require Import Prelude.

Module Sha256.

Open Scope N_scope.

Definition w32 (x : N) : N := x mod 2 ^ 32.
Definition add32 (x y : N) : N := w32 (x + y).
Definition rotr (n x : N) : N :=
  N.lor (N.shiftr x n) (w32 (N.shiftl x (32 - n))).

(** The constants as the standard defines them: the first 32 bits of the fractional
    parts of the cube roots of the first 64 primes, and of the square roots of the
    first eight. *)
Definition is_prime (n : N) : bool :=
  forallb (λ d, negb (n mod N.of_nat d =? 0)) (seq 2 (N.to_nat (N.sqrt n) - 1)).
Definition primes : list N := filter (λ n, is_prime n = true) (N.of_nat <$> seq 2 310).

(** The largest [r] below [acc + 2^bits] with [r^3 <= n], bit by bit from the top. *)
Fixpoint cbrt_bits (bits : nat) (n acc : N) : N :=
  match bits with
  | O => acc
  | S bits =>
      let next := acc + 2 ^ N.of_nat bits in
      cbrt_bits bits n (if next ^ 3 <=? n then next else acc)
  end.

Definition K : list N :=
  Eval vm_compute in (λ p, w32 (cbrt_bits 36 (p * 2 ^ 96) 0)) <$> primes.
Definition H0 : list N :=
  Eval vm_compute in (λ p, w32 (N.sqrt (p * 2 ^ 64))) <$> take 8 primes.

Definition Ch (x y z : N) : N := N.lxor (N.land x y) (N.land (N.lxor x (N.ones 32)) z).
Definition Maj (x y z : N) : N := N.lxor (N.lxor (N.land x y) (N.land x z)) (N.land y z).
Definition Sigma0 (x : N) : N := N.lxor (N.lxor (rotr 2 x) (rotr 13 x)) (rotr 22 x).
Definition Sigma1 (x : N) : N := N.lxor (N.lxor (rotr 6 x) (rotr 11 x)) (rotr 25 x).
Definition sigma0 (x : N) : N := N.lxor (N.lxor (rotr 7 x) (rotr 18 x)) (N.shiftr x 3).
Definition sigma1 (x : N) : N := N.lxor (N.lxor (rotr 17 x) (rotr 19 x)) (N.shiftr x 10).

(** Big-endian bytes of a number, [w] of them. *)
Fixpoint put_be (w : nat) (n : N) : list ascii :=
  match w with
  | O => []
  | S w => put_be w (n / 256) ++ [ascii_of_N (n mod 256)]
  end.

Definition get_be (b : list ascii) : N := fold_left (λ acc c, 256 * acc + N_of_ascii c) b 0.

(** The message, a one bit, zeros up to 56 mod 64, and the 64-bit bit length. *)
Definition pad (m : list ascii) : list ascii :=
  let zeros := ((119 - (length m mod 64)) mod 64)%nat in
  m ++ [ascii_of_N 128] ++ replicate zeros Ascii.zero ++ put_be 8 (8 * N.of_nat (length m)).

Fixpoint chunks (fuel w : nat) (b : list ascii) : list (list ascii) :=
  match fuel with
  | O => []
  | S fuel => match b with [] => [] | _ => take w b :: chunks fuel w (drop w b) end
  end.

(** The message schedule, newest word first: each new word looks 2, 7, 15 and 16 back. *)
Fixpoint extend (n : nat) (ws : list N) : list N :=
  match n with
  | O => ws
  | S n =>
      let at_ i := nth i ws 0 in
      extend n (add32 (add32 (sigma1 (at_ 1%nat)) (at_ 6%nat))
                      (add32 (sigma0 (at_ 14%nat)) (at_ 15%nat)) :: ws)
  end.

Definition schedule (block : list ascii) : list N :=
  rev (extend 48 (rev (get_be <$> chunks 16 4 block))).

Definition round (st : list N) (kw : N * N) : list N :=
  match st with
  | [a; b; c; d; e; f; g; h] =>
      let t1 := add32 (add32 (add32 h (Sigma1 e)) (add32 (Ch e f g) (fst kw))) (snd kw) in
      let t2 := add32 (Sigma0 a) (Maj a b c) in
      [add32 t1 t2; a; b; c; add32 d t1; e; f; g]
  | _ => st
  end.

Definition compress (st : list N) (block : list ascii) : list N :=
  zip_with add32 st (fold_left round (zip K (schedule block)) st).

Definition Sum256 (m : list ascii) : list ascii :=
  let p := pad m in
  concat (put_be 4 <$> fold_left compress (chunks (length p) 64 p) H0).

Close Scope N_scope.

(** ** The digest has 32 bytes *)

Lemma length_put_be w n : length (put_be w n) = w.
Proof. revert n. induction w as [|w IH]; intros n; simpl; [done|]. rewrite length_app, IH. simpl. lia. Qed.

Lemma length_round st kw : length (round st kw) = length st.
Proof. unfold round. by repeat case_match. Qed.

Lemma length_rounds st kws : length (fold_left round kws st) = length st.
Proof.
  revert st. induction kws as [|kw kws IH]; intros st; simpl; [done|]. by rewrite IH, length_round.
Qed.

Lemma length_compress st block : length (compress st block) = length st.
Proof. unfold compress. rewrite length_zip_with, length_rounds. lia. Qed.

Lemma length_Sum256 m : length (Sum256 m) = 32.
Proof.
  unfold Sum256.
  assert (∀ bs st, length (fold_left compress bs st) = length st) as H.
  { induction bs as [|b bs IH]; intros st; simpl; [done|]. by rewrite IH, length_compress. }
  specialize (H (chunks (length (pad m)) 64 (pad m)) H0).
  assert (∀ l, length (concat (put_be 4 <$> l)) = 4 * length l) as Hc.
  { induction l as [|x l IH]; [done|]. rewrite fmap_cons. cbn [concat].
    rewrite length_app, length_put_be, IH. simpl. lia. }
  by rewrite Hc, H.
Qed.

(** The digest of "abc", FIPS 180-4. *)
Example Sum256_abc :
  get_be (Sum256 (String.list_ascii_of_string "abc")) =
  0xba7816bf8f01cfea414140de5dae2223b00361a396177a9cb410ff61f20015ad%N.
Proof. vm_compute. reflexivity. Qed.

(** The digest of the empty string. *)
Example Sum256_empty :
  get_be (Sum256 []) = 0xe3b0c44298fc1c149afbf4c8996fb92427ae41e4649b934ca495991b7852b855%N.
Proof. vm_compute. reflexivity. Qed.

(** A message of two blocks. *)
Example Sum256_two_blocks :
  get_be (Sum256 (String.list_ascii_of_string
    "abcdbcdecdefdefgefghfghighijhijkijkljklmklmnlmnomnopnopq")) =
  0x248d6a61d20638b8e5c026930c3e6039a33ce45964ff2167f6ecedd419db06c1%N.
Proof. vm_compute. reflexivity. Qed.

End Sha256.
