(* ===== verification/Bucket.v ===== *)
(** * Hash buckets and content ids ([internal/searchengine/bucket.go], [contentHash])

    A document id is assigned to a bucket by the leading 64 bits of its SHA-256
    digest; the number of buckets is derived from the corpus size.  The theorems: the
    assignment is in range, a larger count refines a smaller one, and the derived
    count is the smallest power of two that is large enough, up to the cap. *)

From Stdlib Require Import Ascii.
From S2P Require Import Prelude Sha256.

#[local] Open Scope Z_scope.

Definition maxBucketCount : Z := 1024.
Definition DefaultMinSegmentDocs : Z := 1024.

(** [binary.BigEndian.Uint64(sum[:8])] *)
Definition hash64 (id : string) : Z :=
  Z.of_N (Sha256.get_be (take 8 (Sha256.Sum256 (String.list_ascii_of_string id)))).

Definition BucketOf (id : string) (bucketCount : Z) : Z :=
  if bucketCount <=? 1 then 0 else hash64 id mod bucketCount.

(** [for count < needed && count < maxBucketCount { count <<= 1 }]: ten doublings
    reach the cap, so [fuel] 11 is never exhausted. *)
Fixpoint count_loop (fuel : nat) (needed count : Z) : Z :=
  match fuel with
  | O => count
  | S fuel =>
      if (count <? needed) && (count <? maxBucketCount)
      then count_loop fuel needed (wrap64 (Z.shiftl count 1)) else count
  end.

Definition BucketCountFor (corpusDocs : Z) : Z :=
  if corpusDocs <=? 0 then 1
  else
    let needed := Z.quot corpusDocs DefaultMinSegmentDocs in
    let needed := if Z.rem corpusDocs DefaultMinSegmentDocs =? 0 then needed
                  else wrap64 (needed + 1) in
    count_loop 11 needed 1.

(** ** [contentHash]: the segment id, the hex digest of the payload *)

Definition hex_digit (n : N) : ascii :=
  ascii_of_N (if (n <? 10)%N then n + 48 else n + 87).

Definition hex_byte (c : ascii) : list ascii :=
  [hex_digit (N_of_ascii c / 16); hex_digit (N_of_ascii c mod 16)].

Definition contentHash (blob : list ascii) : string :=
  String.string_of_list_ascii (concat (hex_byte <$> Sha256.Sum256 blob)).

(** ** The assignment *)

Lemma get_be_nonneg id : 0 <= hash64 id.
Proof. unfold hash64. lia. Qed.

Lemma BucketOf_mod id n : 1 <= n → BucketOf id n = hash64 id mod n.
Proof.
  intros Hn. unfold BucketOf. destruct (Z.leb_spec n 1); [|done].
  replace n with 1 by lia. by rewrite Z.mod_1_r.
Qed.

(** The loop: what it has reached is a power of two, all smaller ones too small. *)
Definition loop_inv (needed count : Z) (k : nat) : Prop :=
  count = 2 ^ Z.of_nat k ∧ (k <= 10)%nat ∧ (k ≠ 0%nat → 2 ^ Z.of_nat (k - 1) < needed).

Lemma count_loop_spec fuel needed count k :
  loop_inv needed count k → (11 <= fuel + k)%nat →
  ∃ k', loop_inv needed (count_loop fuel needed count) k' ∧
    (count_loop fuel needed count < needed → count_loop fuel needed count = maxBucketCount).
Proof.
  revert count k. induction fuel as [|fuel IH]; intros count k (Hc & Hk & Hlow) Hf; [lia|].
  cbn [count_loop]. unfold maxBucketCount in *.
  assert (2 ^ Z.of_nat k <= 2 ^ 10) as Hpow by (apply Z.pow_le_mono_r; lia).
  destruct (Z.ltb_spec count needed) as [H1|H1]; cbn [andb].
  2:{ exists k. split; [done|]. lia. }
  destruct (Z.ltb_spec count 1024) as [H2|H2].
  2:{ exists k. split; [done|]. subst count. lia. }
  assert (k < 10)%nat as Hk'.
  { destruct (decide (k = 10%nat)) as [->|]; [|lia]. subst count. simpl in H2. lia. }
  rewrite Z.shiftl_mul_pow2 by lia.
  assert (0 < 2 ^ Z.of_nat k) by lia.
  rewrite wrap64_id by (unfold int64_range; lia).
  apply (IH _ (S k)); [|lia]. split_and!; [|lia|].
  - rewrite Nat2Z.inj_succ, Z.pow_succ_r, Hc by lia. lia.
  - intros _. replace (S k - 1)%nat with k by lia. by rewrite <-Hc.
Qed.

Definition needed_buckets (corpusDocs : Z) : Z := (corpusDocs + 1023) / 1024.

Lemma needed_eq corpusDocs :
  0 < corpusDocs → int64_range corpusDocs →
  (if Z.rem corpusDocs DefaultMinSegmentDocs =? 0 then Z.quot corpusDocs DefaultMinSegmentDocs
   else wrap64 (Z.quot corpusDocs DefaultMinSegmentDocs + 1)) = needed_buckets corpusDocs.
Proof.
  intros Hpos Hr. unfold DefaultMinSegmentDocs, needed_buckets, int64_range in *.
  rewrite Z.rem_mod_nonneg, Z.quot_div_nonneg by lia.
  pose proof (Z.div_mod corpusDocs 1024 ltac:(lia)) as Hd.
  pose proof (Z.mod_pos_bound corpusDocs 1024 ltac:(lia)) as Hm.
  destruct (Z.eqb_spec (corpusDocs mod 1024) 0) as [He|He].
  - apply Z.div_unique with 1023; lia.
  - rewrite wrap64_id by (unfold int64_range; lia).
    apply Z.div_unique with (corpusDocs mod 1024 - 1); lia.
Qed.

(** The count in closed form: a power of two up to the cap, enough for the corpus or
    the cap, and no smaller power of two is enough. *)
Lemma BucketCountFor_cases corpusDocs :
  int64_range corpusDocs →
  ∃ k : nat, (k <= 10)%nat ∧ BucketCountFor corpusDocs = 2 ^ Z.of_nat k ∧
    (needed_buckets corpusDocs <= 2 ^ Z.of_nat k ∨ k = 10%nat) ∧
    (k ≠ 0%nat → 2 ^ Z.of_nat (k - 1) < needed_buckets corpusDocs).
Proof.
  intros Hr. unfold BucketCountFor. destruct (Z.leb_spec corpusDocs 0).
  { exists 0%nat. split_and!; [lia|done| |done]. left. unfold needed_buckets.
    enough ((corpusDocs + 1023) / 1024 < 1) by lia. apply Z.div_lt_upper_bound; lia. }
  cbv zeta. rewrite needed_eq by done.
  destruct (count_loop_spec 11 (needed_buckets corpusDocs) 1 0) as (k & (Hc & Hk & Hlow) & Hcap);
    [split_and!; [done|lia|done]|lia|].
  exists k. split_and!; [done|done| |done].
  destruct (Z.ltb_spec (count_loop 11 (needed_buckets corpusDocs) 1) (needed_buckets corpusDocs))
    as [Hlt|Hge]; [right|left; lia].
  specialize (Hcap Hlt). unfold maxBucketCount in Hcap. rewrite Hc in Hcap.
  assert (¬ (k < 10)%nat); [|lia]. intros Hk'.
  assert (2 ^ Z.of_nat k <= 2 ^ 9) by (apply Z.pow_le_mono_r; lia). lia.
Qed.

Lemma BucketCountFor_mono a b :
  int64_range a → int64_range b → a <= b →
  ∃ j : nat, BucketCountFor b = BucketCountFor a * 2 ^ Z.of_nat j.
Proof.
  intros Ha Hb Hab.
  destruct (BucketCountFor_cases a Ha) as (ka & Hka & -> & _ & Hlow).
  destruct (BucketCountFor_cases b Hb) as (kb & Hkb & -> & Hup & _).
  assert (needed_buckets a <= needed_buckets b) as Hn
    by (apply Z.div_le_mono; lia).
  assert (ka <= kb)%nat as Hle.
  { destruct Hup as [Hup| ->]; [|done]. destruct (decide (ka = 0)%nat) as [->|Hk0]; [lia|].
    specialize (Hlow Hk0).
    assert (2 ^ Z.of_nat (ka - 1) < 2 ^ Z.of_nat kb) as Hlt by lia.
    apply Z.pow_lt_mono_r_iff in Hlt; lia. }
  exists (kb - ka)%nat. rewrite <-Z.pow_add_r by lia. f_equal. lia.
Qed.

(** ** Theorems *)

(** The bucket count is a power of two between 1 and the cap; below the cap it
    holds the corpus at the minimum segment size, and half of it would not. *)
Theorem BucketCountFor_smallest (corpusDocs : Z) :
  int64_range corpusDocs →
  let count := BucketCountFor corpusDocs in
  (∃ k : nat, (k <= 10)%nat ∧ count = 2 ^ Z.of_nat k) ∧ 1 <= count <= maxBucketCount ∧
  (count < maxBucketCount → corpusDocs <= count * DefaultMinSegmentDocs) ∧
  (1 < count → (count / 2) * DefaultMinSegmentDocs < corpusDocs).
Proof.
  intros Hr count. destruct (BucketCountFor_cases corpusDocs Hr) as (k & Hk & Hc & Hup & Hlow).
  fold count in Hc. unfold maxBucketCount, DefaultMinSegmentDocs.
  assert (2 ^ Z.of_nat k <= 2 ^ 10) as Hpow by (apply Z.pow_le_mono_r; lia).
  assert (needed_buckets corpusDocs * 1024 < corpusDocs + 1024
          ∧ corpusDocs <= needed_buckets corpusDocs * 1024) as [Hn1 Hn2].
  { unfold needed_buckets. pose proof (Z.div_mod (corpusDocs + 1023) 1024 ltac:(lia)).
    pose proof (Z.mod_pos_bound (corpusDocs + 1023) 1024 ltac:(lia)). lia. }
  split_and!; [by exists k|lia|lia|..].
  - intros Hcap. destruct Hup as [Hup| ->]; lia.
  - intros H1. destruct k as [|k]; [simpl in Hc; lia|]. specialize (Hlow ltac:(lia)).
    replace (S k - 1)%nat with k in Hlow by lia.
    rewrite Hc, Nat2Z.inj_succ, Z.pow_succ_r, (Z.mul_comm 2), Z.div_mul by lia. lia.
Qed.

(** A document's bucket is below the count, and growing the corpus only splits
    buckets: documents apart stay apart, a bucket's number survives modulo the old count. *)
Theorem BucketOf_refines (id : string) (before after : Z) :
  int64_range before → int64_range after → before <= after →
  0 <= BucketOf id (BucketCountFor after) < BucketCountFor after ∧
  BucketOf id (BucketCountFor after) mod BucketCountFor before
  = BucketOf id (BucketCountFor before).
Proof.
  intros Hb Ha Hle. pose proof (get_be_nonneg id) as Hh.
  destruct (BucketCountFor_cases before Hb) as (k & _ & Hk & _).
  destruct (BucketCountFor_mono before after Hb Ha Hle) as [j Hj].
  assert (1 <= BucketCountFor before) as Hpos by (rewrite Hk; lia).
  assert (0 < 2 ^ Z.of_nat j) by lia.
  assert (1 <= BucketCountFor after) as Hpos' by (rewrite Hj; nia).
  rewrite !BucketOf_mod by done. split; [apply Z.mod_pos_bound; lia|].
  rewrite Hj, Z.mul_comm. apply Z.mod_mod_divide.
  by exists (2 ^ Z.of_nat j).
Qed.

Lemma BucketCountFor_smallest_witness : BucketCountFor 5000 = 8 ∧ 8 / 2 * 1024 < 5000.
Proof.
  assert (int64_range 5000) as H by (unfold int64_range; lia).
  split; [vm_compute; reflexivity|].
  apply (proj2 (proj2 (proj2 (BucketCountFor_smallest 5000 H)))).
  vm_compute. reflexivity.
Defined.

Lemma BucketOf_refines_witness :
  BucketOf "abc" (BucketCountFor 5000) mod BucketCountFor 1500 = BucketOf "abc" 2.
Proof.
  apply (BucketOf_refines "abc" 1500 5000); unfold int64_range; lia.
Defined.
