(* ===== verification/Supersession.v ===== *)
(** * The supersession envelope ([internal/searchengine/supersession.go])

    A stored segment is an optional envelope followed by the format's payload; the
    envelope records which segments the swap that published it replaced, and what it
    published beside it.  Bytes are [ascii] characters, so a segment id is its own
    byte string.  Every slice of the stored bytes is checked here as Go checks it:
    [Panic] is the runtime's slice-bounds panic, and a theorem shows it never occurs. *)

From Stdlib Require Import Ascii.
From S2P Require Import Prelude.

Definition bytes : Type := list ascii.

Definition id_bytes (id : string) : bytes := String.list_ascii_of_string id.

(** ** Little-endian fields of fixed width: [binary.LittleEndian] *)

(** The [w] low bytes of [n]: a [uint16]/[uint32] conversion drops the rest. *)
Fixpoint put_le (w : nat) (n : N) : bytes :=
  match w with
  | O => []
  | S w => ascii_of_N (n mod 256) :: put_le w (n / 256)
  end.

Fixpoint get_le (b : bytes) : N :=
  match b with
  | [] => 0
  | c :: b => N_of_ascii c + 256 * get_le b
  end.

(** [blob[a:b]] *)
Definition slice (blob : bytes) (a b : nat) : option bytes :=
  if decide (a ≤ b ∧ b ≤ length blob) then Some (take (b - a) (drop a blob)) else None.

Inductive supErr :=
| ShortHeader (len : nat)
| BadPayloadOffset (off : N) (len : nat)
| TruncatedBlock (count : nat) (block_end : nat)
| IdOverrun (n : nat) (at_ : nat)
| Panic.

(** The bytes of a slice, or the slice-bounds panic. *)
Definition slice_or_panic (blob : bytes) (a b : nat) : result supErr bytes :=
  match slice blob a b with Some s => Ok s | None => Err Panic end.

(** [binary.LittleEndian.Uint16/Uint32(blob[at:])]: they read [w] bytes. *)
Definition read_le (w : nat) (blob : bytes) (at_ : nat) : result supErr N :=
  s <-- slice_or_panic blob at_ (at_ + w) ;; Ok (get_le s).

(** ** Layout *)

Definition supMagic : bytes :=
  [Ascii.zero; "S"; "E"; "G"; "S"; "U"; "P"; Ascii.one]%char.
Definition supMagicLen : nat := 8.
Definition supHeaderLen : nat := supMagicLen + 12.
Definition supPayloadAlign : nat := 8.

Record supersessionRecord := mkSupersession {
  Superseded : list string;
  Cohort : list string
}.

Instance supersessionRecord_eq_dec : EqDecision supersessionRecord.
Proof. solve_decision. Defined.

Definition noRecord : supersessionRecord := mkSupersession [] [].

Definition empty_record (r : supersessionRecord) : bool :=
  bool_decide (Superseded r = []).

(** [slices.Compact]: keep the first of each run of equal elements. *)
Fixpoint compact (l : list string) : list string :=
  match l with
  | x :: ((y :: _) as l') => if decide (x = y) then compact l' else x :: compact l'
  | _ => l
  end.

Definition sortedUnique (ids : list string) : list string := compact (sort_strings ids).

(** [sortedSegmentIDs]: the keys of a set, sorted. *)
Definition sortedSegmentIDs (set : gset string) : list string := sort_strings (elements set).

(** A length-prefixed id. *)
Definition put_id (id : string) : bytes :=
  put_le 2 (N.of_nat (String.length id)) ++ id_bytes id.

Definition body_len (superseded cohort : list string) : nat :=
  supHeaderLen + sum_list_with (λ id, 2 + String.length id) superseded
    + sum_list_with (λ id, 2 + String.length id) cohort.

(** [(body + 7) &^ 7] *)
Definition align_up (body : nat) : nat :=
  N.to_nat (N.ldiff (N.of_nat (body + supPayloadAlign - 1)) (N.of_nat (supPayloadAlign - 1))).

(** [encodeSupersessionPrefix]: the fields in the order the cursor writes them, then
    the zero bytes [make] left up to the payload offset. *)
Definition encodeSupersessionPrefix (rec : supersessionRecord) : bytes :=
  if empty_record rec then []
  else
    let superseded := sortedUnique (Superseded rec) in
    let cohort := sortedUnique (Cohort rec) in
    let body := body_len superseded cohort in
    let payloadOff := align_up body in
    supMagic ++ put_le 4 (N.of_nat payloadOff)
      ++ put_le 4 (N.of_nat (length superseded)) ++ put_le 4 (N.of_nat (length cohort))
      ++ concat (put_id <$> superseded) ++ concat (put_id <$> cohort)
      ++ replicate (payloadOff - body) Ascii.zero.

(** ** Readers *)

Definition supersessionPayloadOff (blob : bytes) : result supErr nat :=
  if decide (length blob < supMagicLen) then Ok 0
  else if decide (take supMagicLen blob ≠ supMagic) then Ok 0
  else if decide (length blob < supHeaderLen) then Err (ShortHeader (length blob))
  else
    off <-- read_le 4 blob supMagicLen ;;
    if decide ((off < N.of_nat supHeaderLen)%N ∨ (N.of_nat (length blob) < off)%N)
    then Err (BadPayloadOffset off (length blob))
    else Ok (N.to_nat off).

Definition splitStoredBlob (blob : bytes) : result supErr (bytes * bytes) :=
  off <-- supersessionPayloadOff blob ;;
  if decide (off = 0) then Ok ([], blob)
  else
    envelope <-- slice_or_panic blob 0 off ;;
    payload <-- slice_or_panic blob off (length blob) ;;
    Ok (envelope, payload).

(** [readIDs]: [total] is the count of the error message, the loop counts down. *)
Fixpoint read_ids_loop (blob : bytes) (end_ total : nat) (count cur : nat) :
    result supErr (list string * nat) :=
  match count with
  | O => Ok ([], cur)
  | S count =>
      if decide (end_ < cur + 2) then Err (TruncatedBlock total end_)
      else
        n <-- read_le 2 blob cur ;;
        let n := N.to_nat n in
        let cur := cur + 2 in
        if decide (end_ < cur + n) then Err (IdOverrun n cur)
        else
          s <-- slice_or_panic blob cur (cur + n) ;;
          rest <-- read_ids_loop blob end_ total count (cur + n) ;;
          Ok (String.string_of_list_ascii s :: fst rest, snd rest)
  end.

Definition readIDs (blob : bytes) (cur end_ count : nat) : result supErr (list string * nat) :=
  read_ids_loop blob end_ count count cur.

Definition decodeSupersession (blob : bytes) : result supErr (supersessionRecord * bytes) :=
  payloadOff <-- supersessionPayloadOff blob ;;
  if decide (payloadOff = 0) then Ok (noRecord, blob)
  else
    supersededCount <-- read_le 4 blob (supMagicLen + 4) ;;
    cohortCount <-- read_le 4 blob (supMagicLen + 8) ;;
    sup <-- readIDs blob supHeaderLen payloadOff (N.to_nat supersededCount) ;;
    coh <-- readIDs blob (snd sup) payloadOff (N.to_nat cohortCount) ;;
    payload <-- slice_or_panic blob payloadOff (length blob) ;;
    Ok (mkSupersession (fst sup) (fst coh), payload).

Definition decodeSupersessionEnvelope (envelope : bytes) : result supErr supersessionRecord :=
  r <-- decodeSupersession envelope ;; Ok (fst r).

Definition SupersededBy (blob : bytes) : result supErr (list string * list string) :=
  r <-- decodeSupersession blob ;; Ok (Superseded (fst r), Cohort (fst r)).

Definition SegmentPayload (blob : bytes) : result supErr bytes :=
  r <-- splitStoredBlob blob ;; Ok (snd r).
(** ** Fields *)

Lemma length_put_le w n : length (put_le w n) = w.
Proof. revert n. induction w as [|w IH]; intros n; simpl; [done|]. by rewrite IH. Qed.

Lemma get_put_le w n : (n < 256 ^ N.of_nat w)%N → get_le (put_le w n) = n.
Proof.
  revert n. induction w as [|w IH]; intros n Hn; [simpl in *; lia|].
  cbn [put_le get_le]. rewrite Nat2N.inj_succ, N.pow_succ_r' in Hn.
  pose proof (N.mod_lt n 256 ltac:(lia)).
  rewrite IH by (apply N.Div0.div_lt_upper_bound; lia).
  rewrite N_ascii_embedding by lia. pose proof (N.div_mod n 256 ltac:(lia)). lia.
Qed.

Lemma slice_mid (a b c : bytes) i j :
  i = length a → j = length a + length b → slice (a ++ b ++ c) i j = Some b.
Proof.
  intros -> ->. unfold slice. rewrite !length_app, decide_True by lia.
  rewrite drop_app_length. replace (_ - _) with (length b) by lia. by rewrite take_app_length.
Qed.

Lemma read_le_mid w (a c : bytes) n i :
  i = length a → (n < 256 ^ N.of_nat w)%N → read_le w (a ++ put_le w n ++ c) i = Ok n.
Proof.
  intros -> Hn. unfold read_le, slice_or_panic.
  rewrite slice_mid by (rewrite ?length_put_le; done). simpl. by rewrite get_put_le.
Qed.

Lemma slice_in_range blob a b :
  a ≤ b → b ≤ length blob → slice_or_panic blob a b = Ok (take (b - a) (drop a blob)).
Proof. intros. unfold slice_or_panic, slice. by rewrite decide_True. Qed.

Lemma slice_to_end blob a :
  a ≤ length blob → slice_or_panic blob a (length blob) = Ok (drop a blob).
Proof.
  intros. rewrite slice_in_range by done. by rewrite take_ge by (rewrite length_drop; lia).
Qed.

Lemma read_le_in_range w blob a :
  a + w ≤ length blob → read_le w blob a = Ok (get_le (take w (drop a blob))).
Proof.
  intros. unfold read_le. rewrite slice_in_range by lia. simpl. do 3 f_equal. lia.
Qed.

(** ** Ids *)

Lemma length_id_bytes id : length (id_bytes id) = String.length id.
Proof. induction id; simpl; [done|]. by f_equal. Qed.

Lemma length_put_id id : length (put_id id) = 2 + String.length id.
Proof. unfold put_id. by rewrite length_app, length_put_le, length_id_bytes. Qed.

Lemma length_put_ids ids :
  length (concat (put_id <$> ids)) = sum_list_with (λ id, 2 + String.length id) ids.
Proof.
  induction ids as [|id ids IH]; [done|].
  rewrite fmap_cons. cbn [concat]. by rewrite length_app, length_put_id, IH.
Qed.

Definition encodable (id : string) : Prop := (N.of_nat (String.length id) < 2 ^ 16)%N.

Lemma read_ids_loop_put ids pre post end_ total :
  Forall encodable ids →
  length pre + length (concat (put_id <$> ids)) ≤ end_ →
  read_ids_loop (pre ++ concat (put_id <$> ids) ++ post) end_ total (length ids) (length pre)
  = Ok (ids, length pre + length (concat (put_id <$> ids))).
Proof.
  revert pre. induction ids as [|id ids IH]; intros pre Hids Hend.
  { simpl. do 3 f_equal. lia. }
  apply Forall_cons in Hids as [Hid Hids]. rewrite fmap_cons in Hend |- *.
  cbn [concat length read_ids_loop] in Hend |- *.
  rewrite !length_app, length_put_id in Hend. rewrite decide_False by lia.
  set (len := put_le 2 (N.of_nat (String.length id))).
  set (blob := pre ++ (put_id id ++ concat (put_id <$> ids)) ++ post).
  assert (blob = pre ++ len ++ id_bytes id ++ concat (put_id <$> ids) ++ post) as H1
    by (unfold blob, put_id; by rewrite <-!app_assoc).
  assert (length len = 2) as Hlen by apply length_put_le.
  assert (read_le 2 blob (length pre) = Ok (N.of_nat (String.length id))) as ->
    by (rewrite H1; by apply read_le_mid).
  cbn [result_bind]. rewrite Nat2N.id, decide_False by lia.
  assert (slice_or_panic blob (length pre + 2) (length pre + 2 + String.length id)
          = Ok (id_bytes id)) as ->.
  { unfold slice_or_panic. rewrite H1, (app_assoc pre len), slice_mid; [done|..];
      rewrite length_app, Hlen, ?length_id_bytes; lia. }
  cbn [result_bind]. unfold id_bytes at 1. rewrite String.string_of_list_ascii_of_string.
  assert (length (pre ++ len ++ id_bytes id) = length pre + 2 + String.length id) as Hcur
    by (rewrite !length_app, Hlen, length_id_bytes; lia).
  rewrite H1, <-Hcur. rewrite (app_assoc len), (app_assoc pre).
  rewrite IH; [|done|lia]. cbn [result_bind fst snd].
  rewrite Hcur, length_app, length_put_id. do 2 f_equal. lia.
Qed.

Lemma align_up_spec body :
  body ≤ align_up body < body + supPayloadAlign ∧ align_up body `mod` supPayloadAlign = 0.
Proof.
  unfold align_up, supPayloadAlign. replace (N.of_nat (8 - 1)) with (N.ones 3) by done.
  rewrite N.ldiff_ones_r, N.shiftr_div_pow2, N.shiftl_mul_pow2.
  replace (2 ^ 3)%N with 8%N by done.
  set (q := (N.of_nat (body + 8 - 1) / 8)%N).
  assert (N.to_nat (q * 8) = N.to_nat q * 8) as -> by lia.
  rewrite Nat.Div0.mod_mul. split; [|done].
  pose proof (N.div_mod (N.of_nat (body + 8 - 1)) 8 ltac:(lia)) as Hd. fold q in Hd.
  pose proof (N.mod_lt (N.of_nat (body + 8 - 1)) 8 ltac:(lia)) as Hm.
  clearbody q. revert Hd Hm. generalize (N.of_nat (body + 8 - 1) mod 8)%N. lia.
Qed.

(** ** [sortedUnique] is the canonical list of a set *)

Lemma elem_of_compact x l : x ∈ compact l ↔ x ∈ l.
Proof.
  induction l as [|y l IH]; [done|]. destruct l as [|z l]; [done|].
  change (compact (y :: z :: l)) with
    (if decide (y = z) then compact (z :: l) else y :: compact (z :: l)).
  case_decide as Hyz; [subst; rewrite IH; set_solver|]. rewrite !elem_of_cons, IH. set_solver.
Qed.

Lemma compact_sorted l : StronglySorted String.le l → StronglySorted str_lt (compact l).
Proof.
  induction 1 as [|y l Hs IH Hy]; [constructor|].
  destruct l as [|z l]; [repeat constructor|].
  change (compact (y :: z :: l)) with
    (if decide (y = z) then compact (z :: l) else y :: compact (z :: l)).
  case_decide as Hyz; [done|]. constructor; [done|].
  apply Forall_cons in Hy as [Hyz' _].
  assert (y <s z) as Hlt by (destruct (str_le_lt_eq y z Hyz'); [done|by subst]).
  apply Forall_forall. intros w Hw. apply elem_of_compact, elem_of_cons in Hw as [->|Hw]; [done|].
  apply StronglySorted_inv in Hs as [_ Hz]. rewrite Forall_forall in Hz.
  eapply str_lt_le_trans; [done|by apply Hz].
Qed.

Lemma sortedUnique_sorted ids : StronglySorted str_lt (sortedUnique ids).
Proof. apply compact_sorted, sort_strings_sorted. Qed.

Lemma elem_of_sortedUnique x ids : x ∈ sortedUnique ids ↔ x ∈ ids.
Proof. unfold sortedUnique. by rewrite elem_of_compact, elem_of_sort_strings. Qed.

Lemma strict_sorted_NoDup l : StronglySorted str_lt l → NoDup l.
Proof.
  induction 1 as [|x l Hs IH Hx]; constructor; [|done].
  intros Hin. rewrite Forall_forall in Hx. by apply (str_lt_irrefl x), Hx.
Qed.

Lemma strict_sorted_unique l1 l2 :
  StronglySorted str_lt l1 → StronglySorted str_lt l2 → (∀ x, x ∈ l1 ↔ x ∈ l2) → l1 = l2.
Proof.
  intros H1 H2 Heq. apply (StronglySorted_unique_strong str_lt); try done.
  - intros x y _ _ Hxy Hyx. exfalso. eapply str_lt_irrefl, str_lt_trans; done.
  - apply NoDup_Permutation; [by apply strict_sorted_NoDup..|done].
Qed.

Lemma sortedUnique_ext a b : (∀ x, x ∈ a ↔ x ∈ b) → sortedUnique a = sortedUnique b.
Proof.
  intros H. apply strict_sorted_unique; [apply sortedUnique_sorted..|].
  intros x. by rewrite !elem_of_sortedUnique.
Qed.

Lemma sortedUnique_nil ids : sortedUnique ids = [] ↔ ids = [].
Proof.
  split; [|by intros ->]. intros H. destruct ids as [|x ids]; [done|].
  assert (x ∈ sortedUnique (x :: ids)) as Hx by (apply elem_of_sortedUnique; set_solver).
  rewrite H in Hx. set_solver.
Qed.

(** ** Encoding *)

(** A record the envelope's field widths hold: 16-bit id lengths, 32-bit offset. *)
Definition record_fits (rec : supersessionRecord) : Prop :=
  Forall encodable (Superseded rec) ∧ Forall encodable (Cohort rec) ∧
  (N.of_nat (length (encodeSupersessionPrefix rec)) < 2 ^ 32)%N.

Definition canonical (rec : supersessionRecord) : supersessionRecord :=
  mkSupersession (sortedUnique (Superseded rec)) (sortedUnique (Cohort rec)).

Lemma encodable_sortedUnique ids : Forall encodable ids → Forall encodable (sortedUnique ids).
Proof. rewrite !Forall_forall. intros H x Hx. apply H. by apply elem_of_sortedUnique. Qed.

Lemma length_prefix rec :
  empty_record rec = false →
  length (encodeSupersessionPrefix rec)
  = align_up (body_len (sortedUnique (Superseded rec)) (sortedUnique (Cohort rec))).
Proof.
  intros He. unfold encodeSupersessionPrefix. rewrite He. cbv zeta.
  rewrite !length_app, !length_put_le, !length_put_ids, length_replicate.
  change (length supMagic) with 8. set (body := body_len _ _).
  pose proof (align_up_spec body). unfold body, body_len, supHeaderLen, supMagicLen in *. lia.
Qed.

Lemma body_len_counts superseded cohort :
  supHeaderLen + 2 * length superseded + 2 * length cohort ≤ body_len superseded cohort.
Proof.
  assert (∀ l, 2 * length l ≤ sum_list_with (λ id : string, 2 + String.length id) l) as H.
  { induction l; simpl in *; lia. }
  unfold body_len. pose proof (H superseded). pose proof (H cohort). lia.
Qed.

(** The blob's fields, each at the offset its reader uses. *)
Lemma prefix_layout rec payload :
  empty_record rec = false →
  let s := sortedUnique (Superseded rec) in
  let c := sortedUnique (Cohort rec) in
  let off := length (encodeSupersessionPrefix rec) in
  encodeSupersessionPrefix rec ++ payload =
    supMagic ++ put_le 4 (N.of_nat off) ++ put_le 4 (N.of_nat (length s))
      ++ put_le 4 (N.of_nat (length c)) ++ concat (put_id <$> s) ++ concat (put_id <$> c)
      ++ replicate (off - body_len s c) Ascii.zero ++ payload.
Proof.
  intros He s c off. unfold off at 1. rewrite length_prefix by done.
  unfold off. rewrite length_prefix by done.
  unfold encodeSupersessionPrefix. rewrite He. cbv zeta. by rewrite <-!app_assoc.
Qed.

Section Encoded.
Context (rec : supersessionRecord) (payload : bytes).
Context (Hne : empty_record rec = false) (Hfits : record_fits rec).
Let s := sortedUnique (Superseded rec).
Let c := sortedUnique (Cohort rec).
Let off := length (encodeSupersessionPrefix rec).
Let blob := encodeSupersessionPrefix rec ++ payload.

Lemma off_bounds : body_len s c ≤ off ∧ supHeaderLen ≤ off ∧ off ≤ length blob.
Proof.
  pose proof (align_up_spec (body_len s c)). pose proof (body_len_counts s c).
  assert (off = align_up (body_len s c)) by (by apply length_prefix).
  unfold blob. rewrite length_app. fold off. lia.
Qed.

Lemma payloadOff_encoded : supersessionPayloadOff blob = Ok off.
Proof.
  destruct off_bounds as (Hbody & Hhead & Hlen). unfold supHeaderLen, supMagicLen in *.
  unfold supersessionPayloadOff, supMagicLen, supHeaderLen, supMagicLen.
  rewrite decide_False by lia.
  assert (blob = supMagic ++ put_le 4 (N.of_nat off) ++ drop 12 blob) as Hb.
  { unfold blob. rewrite prefix_layout by done. reflexivity. }
  rewrite decide_False by (intros Hn; apply Hn; rewrite Hb; reflexivity).
  rewrite decide_False by lia. rewrite Hb at 1.
  rewrite read_le_mid by (done || apply Hfits). cbn [result_bind].
  rewrite decide_False by lia. by rewrite Nat2N.id.
Qed.

Lemma split_encoded : splitStoredBlob blob = Ok (encodeSupersessionPrefix rec, payload).
Proof.
  destruct off_bounds as (Hbody & Hhead & Hlen).
  unfold splitStoredBlob. rewrite payloadOff_encoded. cbn [result_bind].
  rewrite decide_False by (unfold supHeaderLen in Hhead; lia).
  rewrite slice_in_range, slice_to_end by lia. cbn [result_bind]. unfold blob, off.
  by rewrite Nat.sub_0_r, drop_0, take_app_length, drop_app_length.
Qed.

Lemma decode_encoded : decodeSupersession blob = Ok (canonical rec, payload).
Proof.
  destruct off_bounds as (Hbody & Hhead & Hlen).
  pose proof (body_len_counts s c) as Hcounts. destruct Hfits as (Hs & Hc & Hoff). fold off in Hoff.
  unfold supHeaderLen, supMagicLen in *.
  unfold decodeSupersession. rewrite payloadOff_encoded. cbn [result_bind].
  rewrite decide_False by lia.
  assert (blob = (supMagic ++ put_le 4 (N.of_nat off)) ++ put_le 4 (N.of_nat (length s))
      ++ drop 16 blob) as H1.
  { unfold blob. rewrite prefix_layout by done. reflexivity. }
  assert (read_le 4 blob (supMagicLen + 4) = Ok (N.of_nat (length s))) as ->
    by (rewrite H1; apply read_le_mid; [done|simpl; lia]).
  assert (blob = (supMagic ++ put_le 4 (N.of_nat off) ++ put_le 4 (N.of_nat (length s)))
      ++ put_le 4 (N.of_nat (length c)) ++ drop 20 blob) as H2.
  { unfold blob. rewrite prefix_layout by done. reflexivity. }
  cbn [result_bind].
  assert (read_le 4 blob (supMagicLen + 8) = Ok (N.of_nat (length c))) as ->
    by (rewrite H2; apply read_le_mid; [done|simpl; lia]).
  cbn [result_bind]. rewrite !Nat2N.id. unfold readIDs.
  set (head := supMagic ++ put_le 4 (N.of_nat off) ++ put_le 4 (N.of_nat (length s))
                 ++ put_le 4 (N.of_nat (length c))).
  set (pad := replicate (off - body_len s c) Ascii.zero).
  assert (blob = head ++ concat (put_id <$> s) ++ (concat (put_id <$> c) ++ pad ++ payload)) as H3.
  { unfold blob, head, pad. rewrite prefix_layout by done. fold s c off. by rewrite <-!app_assoc. }
  assert (length head = supHeaderLen) as Hhl by done.
  assert (body_len s c = supHeaderLen + length (concat (put_id <$> s))
            + length (concat (put_id <$> c))) as Hbl by (by rewrite !length_put_ids).
  rewrite <-Hhl. rewrite H3 at 1. rewrite read_ids_loop_put;
    [|by apply encodable_sortedUnique|lia]. cbn [result_bind fst snd].
  assert (blob = (head ++ concat (put_id <$> s)) ++ concat (put_id <$> c) ++ (pad ++ payload)) as H4
    by (rewrite H3; by rewrite <-!app_assoc).
  rewrite <-length_app. rewrite H4 at 1. rewrite read_ids_loop_put;
    [|by apply encodable_sortedUnique|rewrite length_app; lia]. cbn [result_bind fst snd].
  rewrite slice_to_end by done. cbn [result_bind]. unfold blob, off. by rewrite drop_app_length.
Qed.
End Encoded.

(** ** Reading arbitrary bytes *)

Lemma payloadOff_cases blob :
  match supersessionPayloadOff blob with
  | Ok off => off = 0 ∧ take supMagicLen blob ≠ supMagic ∨ supHeaderLen ≤ off ≤ length blob
  | Err e => e ≠ Panic
  end.
Proof.
  unfold supersessionPayloadOff. case_decide as H1.
  { left. split; [done|]. intros Hm. apply (f_equal length) in Hm.
    rewrite length_take in Hm. change (length supMagic) with supMagicLen in Hm. lia. }
  case_decide as H2; [by left|]. case_decide as H3; [done|].
  rewrite read_le_in_range by (unfold supHeaderLen, supMagicLen in *; lia). cbn [result_bind].
  case_decide as H4; [done|]. right. lia.
Qed.

Lemma slice_take blob e a b :
  b ≤ e → e ≤ length blob → slice_or_panic (take e blob) a b = slice_or_panic blob a b.
Proof.
  intros Hb He. unfold slice_or_panic, slice. rewrite length_take.
  destruct (decide (a ≤ b ∧ b ≤ length blob)) as [Hab|Hab].
  - rewrite decide_True by lia. by rewrite skipn_firstn_comm, take_take, Nat.min_l by lia.
  - rewrite decide_False by lia. done.
Qed.

Lemma read_le_take w blob e a :
  a + w ≤ e → e ≤ length blob → read_le w (take e blob) a = read_le w blob a.
Proof. intros. unfold read_le. by rewrite slice_take. Qed.

Lemma read_ids_take blob e total count cur :
  e ≤ length blob →
  read_ids_loop (take e blob) e total count cur = read_ids_loop blob e total count cur.
Proof.
  intros He. revert cur. induction count as [|count IH]; intros cur; cbn [read_ids_loop]; [done|].
  case_decide; [done|]. rewrite read_le_take by lia.
  destruct (read_le 2 blob cur) as [n|]; cbn [result_bind]; [|done].
  case_decide; [done|]. rewrite slice_take by lia.
  destruct (slice_or_panic blob (cur + 2) (cur + 2 + N.to_nat n)); cbn [result_bind]; [|done].
  by rewrite IH.
Qed.

Lemma read_ids_no_panic blob e total count cur :
  e ≤ length blob → read_ids_loop blob e total count cur ≠ Err Panic.
Proof.
  intros He. revert cur. induction count as [|count IH]; intros cur; cbn [read_ids_loop]; [done|].
  case_decide; [done|]. rewrite read_le_in_range by lia. cbn [result_bind].
  case_decide; [done|]. rewrite slice_in_range by lia. cbn [result_bind].
  specialize (IH (cur + 2 + N.to_nat (get_le (take 2 (drop cur blob))))).
  destruct (read_ids_loop _ _ _ _ _); cbn [result_bind]; [done|congruence].
Qed.

(** The decoded record, as a function of the offset: what both readers compute. *)
Lemma decode_at blob off :
  supersessionPayloadOff blob = Ok off → off ≠ 0 →
  supHeaderLen ≤ off ≤ length blob ∧
  decodeSupersession blob =
    (sup <-- readIDs blob supHeaderLen off
       (N.to_nat (get_le (take 4 (drop (supMagicLen + 4) blob)))) ;;
     coh <-- readIDs blob (snd sup) off
       (N.to_nat (get_le (take 4 (drop (supMagicLen + 8) blob)))) ;;
     Ok (mkSupersession (fst sup) (fst coh), drop off blob)).
Proof.
  intros Hoff Hne. pose proof (payloadOff_cases blob) as Hc. rewrite Hoff in Hc.
  destruct Hc as [[? _]|Hc]; [done|]. split; [done|].
  unfold decodeSupersession. rewrite Hoff. cbn [result_bind]. rewrite decide_False by done.
  unfold supHeaderLen, supMagicLen in *.
  rewrite !read_le_in_range by lia. cbn [result_bind]. by rewrite slice_to_end by lia.
Qed.

Lemma payloadOff_take blob off :
  supersessionPayloadOff blob = Ok off → off ≠ 0 →
  supersessionPayloadOff (take off blob) = Ok off.
Proof.
  intros Hoff Hne. destruct (decode_at blob off Hoff Hne) as [Hb _].
  revert Hoff. unfold supersessionPayloadOff, supHeaderLen, supMagicLen in *.
  rewrite length_take, take_take, !Nat.min_l by lia.
  rewrite decide_False by lia. destruct (decide (length blob < 8)); [lia|].
  case_decide; [congruence|]. rewrite decide_False by lia.
  destruct (decide (length blob < 8 + 12)); [lia|].
  rewrite read_le_take by lia. destruct (read_le 4 blob 8) as [v|]; cbn [result_bind]; [|done].
  destruct (decide (_ ∨ _)) as [|H1]; [done|]. intros [= <-]. by rewrite !decide_False by lia.
Qed.

(** ** Theorems *)

(** C29: an envelope followed by a payload reads back as that record (its id lists
    sorted and duplicate-free) and that payload, splits at the same place, reads the
    same from the envelope alone, and keeps the payload aligned. *)
Theorem supersession_roundtrip (rec : supersessionRecord) (payload : bytes) :
  empty_record rec = false → record_fits rec →
  let envelope := encodeSupersessionPrefix rec in
  decodeSupersession (envelope ++ payload) = Ok (canonical rec, payload) ∧
  splitStoredBlob (envelope ++ payload) = Ok (envelope, payload) ∧
  decodeSupersessionEnvelope envelope = Ok (canonical rec) ∧
  length envelope `mod` supPayloadAlign = 0.
Proof.
  intros Hne Hfits envelope. split_and!.
  - by apply decode_encoded.
  - by apply split_encoded.
  - unfold decodeSupersessionEnvelope. rewrite <-(app_nil_r envelope).
    unfold envelope. by rewrite decode_encoded.
  - unfold envelope. rewrite length_prefix by done. apply align_up_spec.
Qed.

(** No stored bytes make the readers slice out of bounds: whatever the header
    claims, decoding and splitting return a result or one of the named errors. *)
Theorem supersession_readers_in_bounds (blob : bytes) :
  decodeSupersession blob ≠ Err Panic ∧ splitStoredBlob blob ≠ Err Panic ∧
  SupersededBy blob ≠ Err Panic ∧ SegmentPayload blob ≠ Err Panic.
Proof.
  pose proof (payloadOff_cases blob) as Hc.
  assert (decodeSupersession blob ≠ Err Panic) as Hd.
  { destruct (supersessionPayloadOff blob) as [off|e] eqn:Hoff.
    2:{ unfold decodeSupersession. rewrite Hoff. cbn [result_bind]. congruence. }
    destruct (decide (off = 0)) as [->|Hne].
    { unfold decodeSupersession. by rewrite Hoff. }
    destruct (decode_at blob off Hoff Hne) as [Hb ->]. unfold readIDs.
    destruct (read_ids_loop blob off _ _ _) as [[ids cur]|e] eqn:H1; cbn [result_bind fst snd].
    2:{ intros [= ->]. by eapply read_ids_no_panic in H1; [|lia]. }
    destruct (read_ids_loop blob off _ _ cur) as [[ids' cur']|e] eqn:H2; cbn [result_bind]; [done|].
    intros [= ->]. by eapply read_ids_no_panic in H2; [|lia]. }
  assert (splitStoredBlob blob ≠ Err Panic) as Hs.
  { unfold splitStoredBlob. destruct (supersessionPayloadOff blob) as [off|e]; cbn [result_bind];
      [|congruence].
    case_decide; [done|]. destruct Hc as [[? _]|Hc]; [done|].
    rewrite slice_in_range, slice_to_end by lia. done. }
  split_and!; [done|done| |].
  - unfold SupersededBy. destruct (decodeSupersession blob); cbn [result_bind]; congruence.
  - unfold SegmentPayload. destruct (splitStoredBlob blob); cbn [result_bind]; congruence.
Qed.

(** The two halves of any blob that decodes: it is its envelope then its payload,
    the record reads the same from the envelope alone as from the whole blob, and
    bytes that start with the marker never pass through whole as a payload. *)
Theorem supersession_split_agrees (blob payload : bytes) (rec : supersessionRecord) :
  decodeSupersession blob = Ok (rec, payload) →
  ∃ envelope, splitStoredBlob blob = Ok (envelope, payload) ∧ blob = envelope ++ payload ∧
    decodeSupersessionEnvelope envelope = Ok rec ∧
    (take supMagicLen blob = supMagic → supHeaderLen ≤ length envelope).
Proof.
  intros Hdec. pose proof (payloadOff_cases blob) as Hc.
  destruct (supersessionPayloadOff blob) as [off|e] eqn:Hoff.
  2:{ unfold decodeSupersession in Hdec. by rewrite Hoff in Hdec. }
  destruct (decide (off = 0)) as [->|Hne].
  { unfold decodeSupersession in Hdec. rewrite Hoff in Hdec. simplify_eq/=.
    exists []. unfold splitStoredBlob. rewrite Hoff. split_and!; try done.
    intros Hm. destruct Hc as [[_ Hc]|Hc]; [done|]. unfold supHeaderLen in Hc. lia. }
  destruct (decode_at blob off Hoff Hne) as [Hb Hd]. rewrite Hd in Hdec.
  destruct (decode_at (take off blob) off (payloadOff_take _ _ Hoff Hne) Hne) as [_ Hd'].
  exists (take off blob).
  assert (payload = drop off blob) as ->.
  { repeat (destruct (readIDs _ _ _ _); cbn [result_bind] in Hdec; [|done]).
    by simplify_eq. }
  split_and!.
  - unfold splitStoredBlob. rewrite Hoff. cbn [result_bind]. rewrite decide_False by done.
    rewrite slice_in_range, slice_to_end by lia. cbn [result_bind].
    by rewrite Nat.sub_0_r, drop_0.
  - by rewrite take_drop.
  - unfold decodeSupersessionEnvelope. rewrite Hd'. unfold readIDs in *.
    unfold supHeaderLen, supMagicLen in *.
    rewrite !skipn_firstn_comm, !take_take, !Nat.min_l, read_ids_take by lia.
    destruct (read_ids_loop blob off _ _ _) as [sup|]; cbn [result_bind] in *; [|done].
    rewrite read_ids_take by lia.
    destruct (read_ids_loop blob off _ _ _) as [coh|]; cbn [result_bind] in *; [|done].
    by simplify_eq.
  - intros _. rewrite length_take. lia.
Qed.

(** The envelope's bytes depend on the sets of ids, not on the order or the
    repetitions a caller collected them in, and are absent exactly for an empty record. *)
Theorem supersession_deterministic (r1 r2 : supersessionRecord) :
  (∀ x, x ∈ Superseded r1 ↔ x ∈ Superseded r2) → (∀ x, x ∈ Cohort r1 ↔ x ∈ Cohort r2) →
  encodeSupersessionPrefix r1 = encodeSupersessionPrefix r2 ∧
  (encodeSupersessionPrefix r1 = [] ↔ Superseded r1 = []).
Proof.
  intros Hs Hc. split.
  - assert (empty_record r1 = empty_record r2) as He.
    { unfold empty_record. apply bool_decide_ext.
      split; intros H; apply elem_of_nil_inv; intros x Hx;
        [apply Hs in Hx|apply Hs in Hx]; rewrite H in Hx; by apply elem_of_nil in Hx. }
    unfold encodeSupersessionPrefix.
    by rewrite He, (sortedUnique_ext _ _ Hs), (sortedUnique_ext _ _ Hc).
  - unfold encodeSupersessionPrefix, empty_record. case_bool_decide as He; split; done.
Qed.

(** ** Witnesses *)

Definition sample : supersessionRecord := mkSupersession ["zz"; "abc"; "zz"] ["q"].

Lemma sample_fits : record_fits sample.
Proof. split_and!; repeat constructor. Qed.

Lemma supersession_roundtrip_witness :
  decodeSupersession (encodeSupersessionPrefix sample ++ ["x"%char])
  = Ok (mkSupersession ["abc"; "zz"] ["q"], ["x"%char]).
Proof.
  apply (supersession_roundtrip sample ["x"%char]); [reflexivity|exact sample_fits].
Defined.

Lemma supersession_split_agrees_witness :
  ∃ envelope, splitStoredBlob (encodeSupersessionPrefix sample) = Ok (envelope, []) ∧
    encodeSupersessionPrefix sample = envelope ++ [].
Proof.
  destruct (supersession_split_agrees (encodeSupersessionPrefix sample) []
    (mkSupersession ["abc"; "zz"] ["q"])) as (e & H1 & H2 & _); [vm_compute; reflexivity|].
  exists e. split; [exact H1|exact H2].
Defined.

Lemma supersession_deterministic_witness :
  encodeSupersessionPrefix sample
  = encodeSupersessionPrefix (mkSupersession ["abc"; "zz"] ["q"; "q"]).
Proof.
  apply (supersession_deterministic sample (mkSupersession ["abc"; "zz"] ["q"; "q"]));
    intros x; simpl; set_solver.
Defined.
