(* ===== verification/SegmentSet.v ===== *)
(** * The segment-set snapshot and its two-level route
    ([internal/searchengine/segmentset.go], [segmentset_replace.go])

    A snapshot is the list of resident entries with a route from document ids to
    segments.  The route is split: a flat map over the first [baseN] entries, shared
    with older snapshots, and a tail scanned newest-first; a replacement records what
    it removed from the base beside the map (the drop set and the stale index).  The
    theorems compare every derivation with the flat rebuild it replaces. *)

From stdpp Require Import fin_sets.
From S2P Require Import Prelude LiveDocs Supersession.

(** ** Data *)

Record SegmentMeta := mkMeta {
  ID : string;
  MetaFormat : string;
  Generation : Z;
  DocCount : Z;
  DeadCountMeta : Z
}.

(** One segment and its mutable liveness.  [live] is the address of the entry's
    bitset: snapshots that share an entry share the bitset.  [pin] is the entry whose
    mapping the payload borrows, named by the address of its bitset. *)
Record segmentEntry (P : Type) := mkEntry {
  payload : P;
  live : nat;
  members : idSet;
  meta : SegmentMeta;
  record : supersessionRecord;
  heapPayload : Z;
  pin : option nat
}.
Arguments mkEntry {P}.
Arguments payload {P}.
Arguments live {P}.
Arguments members {P}.
Arguments meta {P}.
Arguments record {P}.
Arguments heapPayload {P}.
Arguments pin {P}.

Definition sid {P} (e : segmentEntry P) : string := ID (meta e).

(** The corpus statistics of a format: a fold over the payloads and its incremental
    form, which the interface requires to agree. *)
Class SegmentStats (P St : Type) := {
  AggregateStats : list P → St;
  AppendStats : St → P → St;
  AppendStats_agrees : ∀ ps p, AppendStats (AggregateStats ps) p = AggregateStats (ps ++ [p])
}.

Record segmentSet (P St : Type) := mkSet {
  entries : list (segmentEntry P);
  base : gmap string string;
  baseN : nat;
  dropped : gset string;
  staleIndex : gmap string (segmentEntry P);
  distinct : Z;
  stats : St
}.
Arguments mkSet {P St}.
Arguments entries {P St}.
Arguments base {P St}.
Arguments baseN {P St}.
Arguments dropped {P St}.
Arguments staleIndex {P St}.
Arguments distinct {P St}.
Arguments stats {P St}.

Definition routeTailLimit : nat := 1024.
Definition routeDropLimit : nat := 1024.

(** [excluding]: the ids outside [drop], in order. *)
Definition excluding (ids : list string) (drop : gset string) : list string :=
  filter (λ id, id ∉ drop) ids.

Section Set_ops.
Context {P St : Type} `{SegmentStats P St}.

Implicit Types (e : segmentEntry P) (es : list (segmentEntry P)) (s : segmentSet P St).

(** ** Building and reading *)

(** [for id := range e.members { route[id] = e.meta.ID }], entry by entry: a later
    entry overwrites an earlier one. *)
Definition flatRoute es : gmap string string :=
  fold_left (λ route e, ((λ _, sid e) <$> members e) ∪ route) es ∅.

Definition aggregateStatsOver es : St := AggregateStats (payload <$> es).

Definition newSegmentSet es : segmentSet P St :=
  let route := flatRoute es in
  mkSet es route (length es) ∅ ∅ (Z.of_nat (size route)) (aggregateStatsOver es).

(** The last entry of [es] that holds [id]: a scan from the newest backwards. *)
Fixpoint newest es (id : string) : option (segmentEntry P) :=
  match es with
  | [] => None
  | e :: es =>
      match newest es id with
      | Some h => Some h
      | None => match members e !! id with Some _ => Some e | None => None end
      end
  end.

Definition tailHolderOf s (id : string) : option (segmentEntry P) :=
  newest (drop (baseN s) (entries s)) id.

Definition entryByID s (id : string) : option (segmentEntry P) :=
  snd <$> list_find (λ e, sid e = id) (entries s).

Definition routeOf s (id : string) : option string :=
  match tailHolderOf s id with
  | Some e => Some (sid e)
  | None =>
      match base s !! id with
      | None => None
      | Some x =>
          if decide (x ∉ dropped s) then Some x
          else match staleIndex s !! id with Some h => Some (sid h) | None => None end
      end
  end.

Definition entryOf s (id : string) : option (segmentEntry P) :=
  match tailHolderOf s id with
  | Some e => Some e
  | None =>
      match base s !! id with
      | None => None
      | Some x => if decide (x ∈ dropped s) then staleIndex s !! id else entryByID s x
      end
  end.

(** The calls [fn(id, sid)] of [rangeRoute]: one entry's members not yet seen, ... *)
Definition range_entry (acc : gset string * list (string * string)) e :
    gset string * list (string * string) :=
  fold_left (λ '(seen, calls) id,
      if decide (id ∈ seen) then (seen, calls) else ({[id]} ∪ seen, calls ++ [(id, sid e)]))
    (map_to_list (members e)).*1 acc.

(** ... the tail from its newest entry, then the base map. *)
Definition range_base s (seen : gset string) : list (string * string) :=
  omap (λ '(id, x),
      if decide (id ∈ seen) then None
      else if decide (x ∈ dropped s) then
        match staleIndex s !! id with Some h => Some (id, sid h) | None => None end
      else Some (id, x))
    (map_to_list (base s)).

Definition rangeRoute s : list (string * string) :=
  let '(seen, calls) := fold_left range_entry (rev (drop (baseN s) (entries s))) (∅, []) in
  calls ++ range_base s seen.

(** ** Deriving the next snapshot *)

(** How many members of [e] the snapshot does not route yet. *)
Definition unrouted s (ids : gset string) : Z :=
  Z.of_nat (size (filter (λ id, routeOf s id = None) ids)).

Definition withAppended s e : segmentSet P St :=
  let es := entries s ++ [e] in
  if decide (routeTailLimit < length es - baseN s) then newSegmentSet es
  else
    mkSet es (base s) (baseN s) (dropped s) (staleIndex s)
      (distinct s + unrouted s (dom (members e)))%Z (AppendStats (stats s) (payload e)).

Definition withReplacedPayloads s (replacements : gmap nat (segmentEntry P)) : segmentSet P St :=
  let es := imap (λ i e, default e (replacements !! i)) (entries s) in
  mkSet es (base s) (baseN s) (dropped s) (staleIndex s) (distinct s) (aggregateStatsOver es).

Definition survivors es (removeIDs : gset string) : list (segmentEntry P) :=
  filter (λ e, sid e ∉ removeIDs) es.

Definition withReplacedGroup s (removeIDs : gset string) (added : list (segmentEntry P)) :
    segmentSet P St :=
  newSegmentSet (survivors (entries s) removeIDs ++ added).

Record replaceParts := mkParts {
  p_entries : list (segmentEntry P);
  p_removed : list (segmentEntry P);
  p_dropIDs : list string;
  p_baseN : nat
}.

(** One pass over the entries: what survives, what leaves, the ids that leave the
    base; then the published entry joins and its id is not a dropped one. *)
Definition partitionForReplace s (removeIDs : gset string)
    (published : option (segmentEntry P)) : replaceParts :=
  let gone es := filter (λ e, sid e ∈ removeIDs) es in
  let baseGone := gone (take (baseN s) (entries s)) in
  let kept := survivors (entries s) removeIDs in
  let dropIDs := elements (dropped s) ++ (sid <$> baseGone) in
  mkParts
    (match published with Some p => kept ++ [p] | None => kept end)
    (gone (entries s))
    (match published with Some p => excluding dropIDs {[sid p]} | None => dropIDs end)
    (baseN s - length baseGone).

Definition carried (published : option (segmentEntry P)) : idSet :=
  match published with Some p => members p | None => ∅ end.

Definition residualMembers (removed : list (segmentEntry P))
    (published : option (segmentEntry P)) : gset string :=
  ⋃ ((λ e, filter (λ id, carried published !! id = None) (dom (members e))) <$> removed).

Definition dropSetOf (ids : list string) : gset string := list_to_set ids.

Definition endedResidency s (residual : gset string) : Z := unrouted s residual.

Definition beganResidency s (published : option (segmentEntry P)) : Z :=
  match published with None => 0%Z | Some p => unrouted s (dom (members p)) end.

(** [into[id] = e] for the wanted ids [e] holds, walking the smaller of the two. *)
Definition resolve_entry (want : gset string) (into : gmap string (segmentEntry P)) e :
    gmap string (segmentEntry P) :=
  if decide (size (members e) ≤ size want)
  then ((λ _, e) <$> filter (λ kv, fst kv ∈ want) (members e)) ∪ into
  else gset_to_gmap e (filter (λ id, is_Some (members e !! id)) want) ∪ into.

Definition resolveHolders es (want : gset string) (into : gmap string (segmentEntry P)) :
    gmap string (segmentEntry P) :=
  fold_left (resolve_entry want) es into.

Definition staleAfterReplace s (p : replaceParts) (removeIDs residual : gset string) :
    gmap string (segmentEntry P) :=
  if decide (staleIndex s = ∅ ∧ residual = ∅) then ∅
  else
    let next := filter (λ kv, sid (snd kv) ∉ removeIDs) (staleIndex s) in
    let next := filter (λ kv, fst kv ∉ residual) next in
    if decide (residual = ∅) then next
    else resolveHolders (take (p_baseN p) (p_entries p)) residual next.

Definition withReplaced s (removeIDs : gset string) (published : option (segmentEntry P)) :
    segmentSet P St :=
  let p := partitionForReplace s removeIDs published in
  let residual := residualMembers (p_removed p) published in
  if decide (routeTailLimit < length (p_entries p) - p_baseN p
             ∨ routeDropLimit < length (p_dropIDs p)
             ∨ routeDropLimit < size residual
             ∨ routeDropLimit < size (staleIndex s) + size residual)
  then newSegmentSet (p_entries p)
  else
    let next := mkSet (p_entries p) (base s) (p_baseN p) (dropSetOf (p_dropIDs p))
                  (staleAfterReplace s p removeIDs residual) 0%Z
                  (aggregateStatsOver (p_entries p)) in
    mkSet (entries next) (base next) (baseN next) (dropped next) (staleIndex next)
      (distinct s - endedResidency next residual + beganResidency s published)%Z (stats next).
End Set_ops.
Arguments replaceParts : clear implicits.

(** ** The newest holder of an id *)

Section Newest.
Context {P : Type}.
Implicit Types (e : segmentEntry P) (es : list (segmentEntry P)).

(** What routing sees of an entry: a remapped entry differs in its payload only. *)
Definition seg_key e : string * idSet * nat := (sid e, members e, live e).

(** The resident ids. *)
Definition held es : gset string := ⋃ ((λ e, dom (members e)) <$> es).

Lemma newest_app es1 es2 id :
  newest (es1 ++ es2) id = match newest es2 id with Some h => Some h | None => newest es1 id end.
Proof.
  induction es1 as [|e es1 IH]; simpl; [by destruct (newest es2 id)|].
  rewrite IH. by destruct (newest es2 id).
Qed.

Lemma newest_Some es id h : newest es id = Some h → h ∈ es ∧ is_Some (members h !! id).
Proof.
  induction es as [|e es IH]; simpl; [done|]. destruct (newest es id) as [h'|].
  - intros [= ->]. destruct IH; [done|]. split; [by right|done].
  - destruct (members e !! id) eqn:Hm; [|done]. intros [= ->]. split; [by left|]. by rewrite Hm.
Qed.

Lemma newest_None es id : newest es id = None ↔ ∀ e, e ∈ es → members e !! id = None.
Proof.
  induction es as [|e es IH]; simpl; [split; [set_solver|done]|].
  destruct (newest es id) as [h|] eqn:Hn.
  - split; [done|]. intros Hall. apply newest_Some in Hn as [Hin [o Ho]].
    rewrite Hall in Ho by (by right). done.
  - destruct (members e !! id) eqn:Hm; split; try done.
    + intros Hall. by rewrite Hall in Hm by (by left).
    + intros _ e' [->|He']%elem_of_cons; [done|]. by apply IH.
Qed.

Lemma newest_filter_Some (Q : segmentEntry P → Prop) `{∀ x, Decision (Q x)} es id h :
  newest es id = Some h → Q h → newest (filter Q es) id = Some h.
Proof.
  induction es as [|e es IH]; simpl; [done|]. rewrite filter_cons.
  destruct (newest es id) as [h'|] eqn:Hn.
  - intros [= ->] HQ. specialize (IH eq_refl HQ). case_decide; simpl; by rewrite IH.
  - destruct (members e !! id) eqn:Hm; [|done]. intros [= ->] HQ.
    rewrite decide_True by done. simpl.
    assert (newest (filter Q es) id = None) as ->; [|by rewrite Hm].
    apply newest_None. intros e' [_ He']%list_elem_of_filter. by eapply newest_None in Hn.
Qed.

Lemma newest_filter_None (Q : segmentEntry P → Prop) `{∀ x, Decision (Q x)} es id :
  newest es id = None → newest (filter Q es) id = None.
Proof.
  rewrite !newest_None. intros Hall e [_ He]%list_elem_of_filter. by apply Hall.
Qed.

Lemma newest_filter_same (Q : segmentEntry P → Prop) `{∀ x, Decision (Q x)} es id :
  (∀ e, e ∈ es → ¬ Q e → members e !! id = None) → newest (filter Q es) id = newest es id.
Proof.
  intros Hout. destruct (newest es id) as [h|] eqn:Hn; [|by apply newest_filter_None].
  apply newest_filter_Some; [done|]. apply newest_Some in Hn as [Hin [o Ho]].
  destruct (decide (Q h)) as [|HQ]; [done|]. by rewrite (Hout h Hin HQ) in Ho.
Qed.

Lemma newest_keys es1 es2 id :
  seg_key <$> es1 = seg_key <$> es2 → seg_key <$> newest es1 id = seg_key <$> newest es2 id.
Proof.
  revert es2. induction es1 as [|e1 es1 IH]; intros [|e2 es2] Hk; try done.
  rewrite !fmap_cons in Hk. injection Hk as Hk1 Hk2 Hk3 Hk. specialize (IH es2 Hk). simpl.
  destruct (newest es1 id), (newest es2 id); try done.
  rewrite Hk2. destruct (members e2 !! id); [|done]. simpl. unfold seg_key. congruence.
Qed.

Lemma elem_of_held es id : id ∈ held es ↔ ∃ e, e ∈ es ∧ is_Some (members e !! id).
Proof.
  unfold held. rewrite elem_of_union_list. split.
  - intros (X & HX & Hid). apply list_elem_of_fmap in HX as (e & -> & He).
    exists e. split; [done|]. by apply elem_of_dom.
  - intros (e & He & Hid). exists (dom (members e)). split; [|by apply elem_of_dom].
    apply list_elem_of_fmap. by exists e.
Qed.

Lemma newest_held es id : is_Some (newest es id) ↔ id ∈ held es.
Proof.
  rewrite elem_of_held. split.
  - intros [h Hh]. apply newest_Some in Hh as [Hin Hs]. by exists h.
  - intros (e & He & o & Ho). destruct (newest es id) eqn:Hn; [done|].
    by rewrite (proj1 (newest_None es id) Hn e He) in Ho.
Qed.

Lemma newest_not_held es id : newest es id = None ↔ id ∉ held es.
Proof. rewrite <-newest_held. destruct (newest es id); naive_solver. Qed.

Lemma held_app es1 es2 : held (es1 ++ es2) = held es1 ∪ held es2.
Proof. unfold held. by rewrite fmap_app, union_list_app_L. Qed.

Lemma held_keys es1 es2 : seg_key <$> es1 = seg_key <$> es2 → held es1 = held es2.
Proof.
  intros Hk. apply set_eq. intros id. rewrite <-!newest_held.
  pose proof (newest_keys es1 es2 id Hk). destruct (newest es1 id), (newest es2 id); naive_solver.
Qed.

(** ** The flat route *)

Lemma flatRoute_step route e id :
  (((λ _, sid e) <$> members e) ∪ route : gmap string string) !! id
  = match members e !! id with Some _ => Some (sid e) | None => route !! id end.
Proof. rewrite lookup_union, lookup_fmap. by destruct (members e !! id), (route !! id). Qed.

Lemma flatRoute_fold es route id :
  fold_left (λ route e, ((λ _, sid e) <$> members e) ∪ route) es route !! id
  = match newest es id with Some h => Some (sid h) | None => route !! id end.
Proof.
  revert route. induction es as [|e es IH]; intros route; [done|]. cbn [fold_left newest].
  rewrite IH. destruct (newest es id); [done|]. rewrite flatRoute_step.
  by destruct (members e !! id).
Qed.

Lemma flatRoute_lookup es id : flatRoute es !! id = sid <$> newest es id.
Proof.
  unfold flatRoute. rewrite flatRoute_fold, lookup_empty. by destruct (newest es id).
Qed.

Lemma flatRoute_size es : size (flatRoute es) = size (held es).
Proof.
  rewrite <-size_dom. f_equal. apply set_eq. intros id.
  rewrite elem_of_dom, flatRoute_lookup, fmap_is_Some. apply newest_held.
Qed.
End Newest.

(** ** The snapshot invariant *)

Section Invariant.
Context {P St : Type} `{SegmentStats P St}.
Implicit Types (e : segmentEntry P) (es : list (segmentEntry P)) (s : segmentSet P St).

Definition flattened s : list (segmentEntry P) := take (baseN s) (entries s).
Definition tail s : list (segmentEntry P) := drop (baseN s) (entries s).

(** What the base map owes for one id: no record when no flattened entry holds it; a
    record of a segment that is in the set, either the newest flattened holder or a
    tail entry holding the id; or a dropped record, answered by the stale index
    whenever the tail does not answer first. *)
Definition base_ok s (id : string) : Prop :=
  match base s !! id with
  | None => newest (flattened s) id = None
  | Some x =>
      if decide (x ∈ dropped s)
      then newest (tail s) id = None →
           seg_key <$> staleIndex s !! id = seg_key <$> newest (flattened s) id
      else sid <$> newest (flattened s) id = Some x ∨
           ∃ e, e ∈ tail s ∧ sid e = x ∧ is_Some (members e !! id)
  end.

Record set_inv s : Prop := {
  inv_baseN : baseN s ≤ length (entries s);
  inv_nodup : NoDup (sid <$> entries s);
  inv_base : ∀ id, base_ok s id;
  inv_stale : ∀ id h, staleIndex s !! id = Some h → seg_key h ∈ seg_key <$> flattened s;
  inv_distinct : distinct s = Z.of_nat (size (held (entries s)));
  inv_stats : stats s = aggregateStatsOver (entries s)
}.

Lemma entries_split s : entries s = flattened s ++ tail s.
Proof. symmetry. apply take_drop. Qed.

Lemma newest_entries s id :
  newest (entries s) id
  = match newest (tail s) id with Some h => Some h | None => newest (flattened s) id end.
Proof. rewrite entries_split. apply newest_app. Qed.

Lemma newSegmentSet_inv es : NoDup (sid <$> es) → set_inv (newSegmentSet es).
Proof.
  intros Hnd. split; unfold newSegmentSet; simpl.
  - done.
  - done.
  - intros id. unfold base_ok. simpl. rewrite flatRoute_lookup.
    unfold flattened, tail. simpl. rewrite take_ge by done.
    destruct (newest es id) as [h|]; simpl; [|done].
    rewrite decide_False by set_solver. by left.
  - intros id h. by rewrite lookup_empty.
  - by rewrite flatRoute_size.
  - done.
Qed.

Lemma entryByID_Some s e : set_inv s → e ∈ entries s → entryByID s (sid e) = Some e.
Proof.
  intros Hinv He. unfold entryByID.
  destruct (list_find (λ e', sid e' = sid e) (entries s)) as [[i e']|] eqn:Hf; simpl.
  - apply list_find_Some in Hf as (Hi & Heq & _). f_equal.
    apply (NoDup_fmap_elem sid (entries s)); [by apply inv_nodup| |done|done].
    by eapply list_elem_of_lookup_2.
  - apply list_find_None in Hf. rewrite Forall_forall in Hf. by destruct (Hf e He).
Qed.

Lemma entryByID_elem s x e : entryByID s x = Some e → e ∈ entries s ∧ sid e = x.
Proof.
  unfold entryByID. destruct (list_find _ _) as [[i e']|] eqn:Hf; simpl; [|done].
  intros [= ->]. apply list_find_Some in Hf as (Hi & ? & _).
  split; [by eapply list_elem_of_lookup_2|done].
Qed.

(** The three readers agree with the newest resident holder. *)
Lemma routeOf_newest s id : set_inv s → routeOf s id = sid <$> newest (entries s) id.
Proof.
  intros Hinv. unfold routeOf, tailHolderOf. fold (tail s). rewrite newest_entries.
  destruct (newest (tail s) id) as [h|] eqn:Ht; [done|].
  pose proof (inv_base s Hinv id) as Hb. unfold base_ok in Hb.
  destruct (base s !! id) as [x|]; [|by rewrite Hb].
  destruct (decide (x ∈ dropped s)) as [Hd|Hd].
  - rewrite decide_False by (intros Hn; by apply Hn). specialize (Hb Ht).
    destruct (staleIndex s !! id), (newest (flattened s) id); try done.
    injection Hb. intros. simpl. by f_equal.
  - rewrite decide_True by done. destruct Hb as [Hb|(e & He & _ & o & Ho)]; [by rewrite Hb|].
    by rewrite (proj1 (newest_None _ _) Ht e He) in Ho.
Qed.

Lemma entryOf_newest s id :
  set_inv s → seg_key <$> entryOf s id = seg_key <$> newest (entries s) id.
Proof.
  intros Hinv. unfold entryOf, tailHolderOf. fold (tail s). rewrite newest_entries.
  destruct (newest (tail s) id) as [h|] eqn:Ht; [done|].
  pose proof (inv_base s Hinv id) as Hb. unfold base_ok in Hb.
  destruct (base s !! id) as [x|]; [|by rewrite Hb].
  destruct (decide (x ∈ dropped s)) as [Hd|Hd]; [by apply Hb|].
  destruct Hb as [Hb|(e & He & _ & o & Ho)].
  - destruct (newest (flattened s) id) as [h|] eqn:Hf; [|done]. injection Hb as <-.
    rewrite entryByID_Some; [done|done|]. apply newest_Some in Hf as [Hin _].
    rewrite entries_split. set_solver.
  - by rewrite (proj1 (newest_None _ _) Ht e He) in Ho.
Qed.

Lemma routeOf_None s id : set_inv s → routeOf s id = None ↔ id ∉ held (entries s).
Proof. intros Hinv. rewrite routeOf_newest by done. by rewrite fmap_None, newest_not_held. Qed.

Lemma unrouted_held s (ids : gset string) :
  set_inv s → unrouted s ids = Z.of_nat (size (ids ∖ held (entries s))).
Proof.
  intros Hinv. unfold unrouted. do 2 f_equal. apply set_eq. intros id.
  rewrite elem_of_filter, elem_of_difference, routeOf_None by done. tauto.
Qed.

(** ** Appending and remapping *)

Lemma size_union_ids (X Y : gset string) : size (X ∪ Y) = size X + size (Y ∖ X).
Proof. apply size_union_alt. Qed.

Lemma held_singleton e : held [e] = dom (members e).
Proof. unfold held. simpl. by rewrite union_empty_r_L. Qed.

Lemma withAppended_inv s e :
  set_inv s → sid e ∉ sid <$> entries s → set_inv (withAppended s e).
Proof.
  intros Hinv He.
  assert (NoDup (sid <$> entries s ++ [e])) as Hnd.
  { rewrite fmap_app, NoDup_app. split_and!; [by apply inv_nodup| |apply NoDup_singleton].
    intros x Hx Hx'. apply list_elem_of_singleton in Hx' as ->. done. }
  unfold withAppended. case_decide; [by apply newSegmentSet_inv|].
  pose proof (inv_baseN s Hinv) as HN.
  assert (flattened (withAppended s e) = flattened s) as Hfl.
  { unfold withAppended. case_decide; [done|]. unfold flattened. simpl.
    by rewrite take_app_le. }
  split; simpl.
  - rewrite length_app. lia.
  - done.
  - intros id. pose proof (inv_base s Hinv id) as Hb. unfold base_ok, flattened, tail in *. simpl.
    rewrite take_app_le, drop_app_le by done.
    destruct (base s !! id) as [x|]; [|done]. case_decide.
    + intros Ht. apply Hb. rewrite newest_app in Ht. by destruct (newest [e] id).
    + destruct Hb as [Hb|(e' & He' & ?)]; [by left|]. right. exists e'.
      split; [apply elem_of_app; by left|done].
  - intros id h Hh. unfold flattened. simpl. rewrite take_app_le by done.
    by apply (inv_stale s Hinv id).
  - rewrite (inv_distinct s Hinv), unrouted_held by done.
    rewrite held_app, held_singleton, size_union_ids. lia.
  - rewrite (inv_stats s Hinv). unfold aggregateStatsOver.
    by rewrite AppendStats_agrees, fmap_app.
Qed.

Lemma imap_keys es (replacements : gmap nat (segmentEntry P)) :
  (∀ i e', replacements !! i = Some e' → ∃ e, es !! i = Some e ∧ seg_key e' = seg_key e) →
  seg_key <$> imap (λ i e, default e (replacements !! i)) es = seg_key <$> es.
Proof.
  intros Hr. apply list_eq. intros i. rewrite !list_lookup_fmap, list_lookup_imap.
  destruct (es !! i) as [e|] eqn:Hi; [|done]. simpl.
  destruct (replacements !! i) as [e'|] eqn:Hi'; [|done].
  destruct (Hr i e' Hi') as (e0 & He0 & Hk). rewrite Hi in He0. injection He0 as <-. simpl. by rewrite Hk.
Qed.

Lemma sids_of_keys es1 es2 : seg_key <$> es1 = seg_key <$> es2 → sid <$> es1 = sid <$> es2.
Proof.
  intros Hk. assert (∀ es, sid <$> es = (λ k, k.1.1) <$> (seg_key <$> es)) as Hs
    by (intros es; by rewrite <-list_fmap_compose).
  by rewrite !Hs, Hk.
Qed.

Lemma withReplacedPayloads_inv s replacements :
  set_inv s →
  (∀ i e', replacements !! i = Some e' →
     ∃ e, entries s !! i = Some e ∧ seg_key e' = seg_key e) →
  set_inv (withReplacedPayloads s replacements).
Proof.
  intros Hinv Hr. pose proof (imap_keys (entries s) replacements Hr) as Hk.
  set (es' := imap _ _) in Hk.
  assert (seg_key <$> take (baseN s) es' = seg_key <$> flattened s) as Hkf
    by (unfold flattened; by rewrite !fmap_take, Hk).
  assert (seg_key <$> drop (baseN s) es' = seg_key <$> tail s) as Hkt
    by (unfold tail; by rewrite !fmap_drop, Hk).
  split; unfold withReplacedPayloads; simpl; fold es'.
  - pose proof (f_equal length Hk) as Hl. rewrite !length_fmap in Hl.
    pose proof (inv_baseN s Hinv). lia.
  - rewrite (sids_of_keys _ _ Hk). by apply inv_nodup.
  - intros id. pose proof (inv_base s Hinv id) as Hb. unfold base_ok in *. simpl.
    unfold flattened at 1 2 3, tail at 1 2. simpl. fold es'.
    pose proof (newest_keys _ _ id Hkf) as Hnf. pose proof (newest_keys _ _ id Hkt) as Hnt.
    destruct (base s !! id) as [x|].
    2:{ rewrite Hb in Hnf. by destruct (newest (take _ _) id). }
    case_decide.
    + intros Ht. rewrite Hnf. apply Hb. rewrite Ht in Hnt. by destruct (newest (tail s) id).
    + destruct Hb as [Hb|(e & He & Hx & Hm)].
      * left. destruct (newest (take _ _) id), (newest (flattened s) id); try done.
        injection Hnf. intros. simpl in *. congruence.
      * right. apply (list_elem_of_fmap_2 seg_key) in He. rewrite <-Hkt in He.
        apply list_elem_of_fmap in He as (e' & Hke & He'). exists e'.
        injection Hke as Hs Hms Hl. by rewrite <-Hs, <-Hms.
  - intros id h Hh. unfold flattened. simpl. fold es'. rewrite Hkf. by apply (inv_stale s Hinv id).
  - rewrite (inv_distinct s Hinv). by rewrite (held_keys _ _ Hk).
  - done.
Qed.
End Invariant.

(** ** Replacing *)

Section Replace.
Context {P St : Type} `{SegmentStats P St}.
Implicit Types (e : segmentEntry P) (es : list (segmentEntry P)) (s : segmentSet P St).

Lemma map_lookup_filter_ite {A} (Q : string * A → Prop) `{∀ x, Decision (Q x)}
    (m : gmap string A) i :
  filter Q m !! i
  = match m !! i with Some x => if decide (Q (i, x)) then Some x else None | None => None end.
Proof.
  rewrite map_lookup_filter. destruct (m !! i) as [x|]; [|done]. simpl.
  case_decide; [by rewrite option_guard_True|by rewrite option_guard_False].
Qed.

Lemma resolve_entry_lookup want into e id :
  resolve_entry want into e !! id
  = if decide (id ∈ want) then match members e !! id with Some _ => Some e | None => into !! id end
    else into !! id.
Proof.
  unfold resolve_entry. case_decide.
  - rewrite lookup_union, lookup_fmap, map_lookup_filter.
    destruct (members e !! id) as [o|]; simpl; [|by repeat case_decide; destruct (into !! id)].
    destruct (decide (id ∈ want)) as [Hw|Hw].
    + rewrite option_guard_True by done. simpl. by destruct (into !! id).
    + rewrite option_guard_False by done. simpl. by destruct (into !! id).
  - rewrite lookup_union, lookup_gset_to_gmap.
    destruct (decide (id ∈ want)) as [Hw|Hw].
    + destruct (members e !! id) as [o|] eqn:Ho.
      * rewrite option_guard_True by (apply elem_of_filter; rewrite Ho; eauto).
        simpl. by destruct (into !! id).
      * rewrite option_guard_False; [by destruct (into !! id)|].
        intros [[? ?] _]%elem_of_filter. congruence.
    + rewrite option_guard_False; [by destruct (into !! id)|]. by intros [_ ?]%elem_of_filter.
Qed.

(** Oldest first, later writes win: the newest holder of each wanted id. *)
Lemma resolveHolders_lookup es want into id :
  resolveHolders es want into !! id
  = if decide (id ∈ want) then match newest es id with Some h => Some h | None => into !! id end
    else into !! id.
Proof.
  revert into. induction es as [|e es IH]; intros into.
  { simpl. by case_decide. }
  change (resolveHolders (e :: es) want into)
    with (resolveHolders es want (resolve_entry want into e)).
  rewrite IH, resolve_entry_lookup. simpl.
  case_decide; [|done]. destruct (newest es id); [done|]. by destruct (members e !! id).
Qed.

Definition opt_list {A} (o : option A) : list A := match o with Some a => [a] | None => [] end.

Lemma survivors_app es1 es2 (R : gset string) :
  survivors (es1 ++ es2) R = survivors es1 R ++ survivors es2 R.
Proof. apply filter_app. Qed.

Lemma elem_of_survivors e es (R : gset string) : e ∈ survivors es R ↔ (sid e ∉ R) ∧ (e ∈ es).
Proof. unfold survivors. by rewrite list_elem_of_filter. Qed.

Lemma length_survivors es (R : gset string) :
  length (filter (λ e, sid e ∈ R) es) + length (survivors es R) = length es.
Proof.
  unfold survivors. induction es as [|e es IH]; [done|].
  rewrite !filter_cons. repeat case_decide; simpl; try lia; by exfalso.
Qed.

Section Parts.
Context (s : segmentSet P St) (R : gset string) (published : option (segmentEntry P)).
Context (Hinv : set_inv s).
Let p := partitionForReplace s R published.
Let kb := survivors (flattened s) R.
Let kt := survivors (tail s) R ++ opt_list published.
Let residual := residualMembers (p_removed p) published.

Lemma parts_entries : p_entries p = kb ++ kt.
Proof.
  unfold p, partitionForReplace, kb, kt. simpl.
  assert (survivors (entries s) R = survivors (flattened s) R ++ survivors (tail s) R) as ->
    by (by rewrite (entries_split s) at 1; rewrite survivors_app).
  destruct published; simpl; by rewrite ?app_nil_r, <-?app_assoc.
Qed.

Lemma parts_baseN : p_baseN p = length kb.
Proof.
  unfold p, partitionForReplace, kb. simpl. fold (flattened s).
  pose proof (length_survivors (flattened s) R) as Hl.
  assert (length (flattened s) = baseN s) as Hf.
  { unfold flattened. rewrite length_take. pose proof (inv_baseN s Hinv). lia. }
  lia.
Qed.

Lemma elem_of_residual id :
  id ∈ residual ↔
  (∃ e, e ∈ entries s ∧ sid e ∈ R ∧ is_Some (members e !! id)) ∧ carried published !! id = None.
Proof.
  unfold residual, residualMembers. rewrite elem_of_union_list. simpl. split.
  - intros (X & HX & Hid). apply list_elem_of_fmap in HX as (e & -> & He).
    apply list_elem_of_filter in He as [HR He].
    apply elem_of_filter in Hid as [Hc Hid]. split; [|done]. exists e. by rewrite <-elem_of_dom.
  - intros [(e & He & HR & Hm) Hc]. eexists. split.
    + apply list_elem_of_fmap. exists e. split; [reflexivity|]. by apply list_elem_of_filter.
    + apply elem_of_filter. by rewrite elem_of_dom.
Qed.

Lemma dropIDs_elem x :
  x ∈ p_dropIDs p ↔
  (x ∈ dropped s ∨ ∃ e, e ∈ flattened s ∧ sid e ∈ R ∧ sid e = x) ∧ sid <$> published ≠ Some x.
Proof.
  unfold p, partitionForReplace. simpl. fold (flattened s).
  assert (x ∈ elements (dropped s) ++ (sid <$> filter (λ e, sid e ∈ R) (flattened s)) ↔
          x ∈ dropped s ∨ ∃ e, e ∈ flattened s ∧ sid e ∈ R ∧ sid e = x) as Hbase.
  { rewrite elem_of_app, elem_of_elements, list_elem_of_fmap. setoid_rewrite list_elem_of_filter.
    split; (intros [|(e & ?)]; [by left|right; exists e; naive_solver]). }
  destruct published as [q|]; simpl.
  - unfold excluding. rewrite list_elem_of_filter, Hbase, not_elem_of_singleton.
    assert (Some (sid q) ≠ Some x ↔ x ≠ sid q) as -> by naive_solver. tauto.
  - rewrite Hbase. naive_solver.
Qed.

Lemma stale_lookup id :
  staleAfterReplace s p R residual !! id
  = if decide (id ∈ residual) then newest kb id
    else match staleIndex s !! id with
         | Some h => if decide (sid h ∈ R) then None else Some h
         | None => None
         end.
Proof.
  unfold staleAfterReplace. rewrite parts_entries, parts_baseN, take_app_length.
  assert (∀ id, filter (λ kv : string * segmentEntry P, kv.1 ∉ residual)
            (filter (λ kv, sid kv.2 ∉ R) (staleIndex s)) !! id
          = if decide (id ∈ residual) then None
            else match staleIndex s !! id with
                 | Some h => if decide (sid h ∈ R) then None else Some h
                 | None => None end) as Hnext.
  { intros i. rewrite !map_lookup_filter_ite.
    destruct (staleIndex s !! i) as [h|]; [|by destruct (decide (i ∈ residual))]. simpl.
    repeat case_decide; done. }
  case_decide as He.
  { destruct He as [Hs Hr]. rewrite Hs, Hr, !lookup_empty. by rewrite decide_False by set_solver. }
  case_decide as Hr.
  { rewrite Hnext, Hr. done. }
  rewrite resolveHolders_lookup, Hnext. case_decide; [|done]. by destruct (newest kb id).
Qed.
End Parts.

(** What the derivation of a replacement needs of the snapshot: its output is not a second
    copy of a surviving segment; an id the base records under the output's name is one the
    output holds; and no removed TAIL segment is one the base still records as live, unless
    the output is that very segment.  [history_replace_ok] derives it from the sequence of
    operations before, of which a caller can know. *)
Record replace_ok s (R : gset string) (published : option (segmentEntry P)) : Prop := {
  ro_fresh : ∀ q, published = Some q → sid q ∉ sid <$> survivors (entries s) R;
  ro_content : ∀ q id, published = Some q → base s !! id = Some (sid q) →
    is_Some (members q !! id);
  ro_tail : ∀ e id, e ∈ tail s → sid e ∈ R → base s !! id = Some (sid e) →
    sid e ∈ dropped s ∨ sid <$> published = Some (sid e)
}.

Section Replaced.
Context (s : segmentSet P St) (R : gset string) (published : option (segmentEntry P)).
Context (Hinv : set_inv s) (Hok : replace_ok s R published).
Let p := partitionForReplace s R published.
Let kb := survivors (flattened s) R.
Let kt := survivors (tail s) R ++ opt_list published.
Let residual := residualMembers (p_removed p) published.

(** The snapshot of the branch that does not flatten, whatever count it carries. *)
Definition replaced (n : Z) : segmentSet P St :=
  mkSet (p_entries p) (base s) (p_baseN p) (dropSetOf (p_dropIDs p))
    (staleAfterReplace s p R residual) n (aggregateStatsOver (p_entries p)).

Lemma replaced_flattened n : flattened (replaced n) = kb.
Proof.
  unfold flattened, replaced. cbn [entries baseN]. unfold p.
  rewrite parts_entries, parts_baseN by done. by rewrite take_app_length.
Qed.

Lemma replaced_tail n : tail (replaced n) = kt.
Proof.
  unfold tail, replaced. cbn [entries baseN]. unfold p.
  rewrite parts_entries, parts_baseN by done. by rewrite drop_app_length.
Qed.

Lemma replaced_entries : p_entries p = kb ++ kt.
Proof. apply parts_entries. Qed.

Lemma published_in_tail q : published = Some q → q ∈ kt.
Proof. intros Hq. unfold kt. rewrite Hq. simpl. set_solver. Qed.

Lemma published_answers q id :
  published = Some q → is_Some (members q !! id) → newest kt id ≠ None.
Proof.
  intros Hq [o Ho] Hn. by rewrite (proj1 (newest_None _ _) Hn q (published_in_tail q Hq)) in Ho.
Qed.

(** An id whose removed holder is not carried forward is residual. *)
Lemma removed_residual e id :
  e ∈ entries s → sid e ∈ R → is_Some (members e !! id) → newest kt id = None → id ∈ residual.
Proof.
  intros He HR Hm Hn. apply elem_of_residual. split; [by exists e|].
  enough (∀ o, published = o → carried o !! id = None) by eauto.
  intros [q|] Hq; simpl; [|apply lookup_empty]. destruct (members q !! id) eqn:Ho; [|done].
  exfalso. apply (published_answers q id); [done|by rewrite Ho|done].
Qed.

Lemma newest_kb_not_residual id :
  id ∉ residual → newest kt id = None → newest kb id = newest (flattened s) id.
Proof.
  intros Hr Hn. apply newest_filter_same. intros e He HR.
  destruct (members e !! id) eqn:Ho; [|done]. exfalso. apply Hr.
  apply (removed_residual e); [rewrite (entries_split s); set_solver| |by rewrite Ho|done].
  destruct (decide (sid e ∈ R)); [done|by destruct HR].
Qed.

Lemma dropped_next x :
  x ∈ dropSetOf (p_dropIDs p) ↔
  (x ∈ dropped s ∨ ∃ e, e ∈ flattened s ∧ sid e ∈ R ∧ sid e = x) ∧ sid <$> published ≠ Some x.
Proof. unfold dropSetOf. rewrite elem_of_list_to_set. apply dropIDs_elem. Qed.

Lemma stale_next_ok id x :
  base s !! id = Some x → x ∈ dropSetOf (p_dropIDs p) → newest kt id = None →
  seg_key <$> staleAfterReplace s p R residual !! id = seg_key <$> newest kb id.
Proof.
  intros Hb Hx Hn. unfold p, residual. rewrite stale_lookup by done. fold p residual kb.
  destruct (decide (id ∈ residual)) as [|Hr]; [done|].
  rewrite (newest_kb_not_residual id) by done.
  apply dropped_next in Hx as [Hx Hpub].
  pose proof (inv_base s Hinv id) as Hbase. unfold base_ok in Hbase. rewrite Hb in Hbase.
  assert (newest (tail s) id = None) as Htail.
  { destruct (newest (tail s) id) as [h|] eqn:Ht; [|done]. exfalso.
    pose proof (newest_Some _ _ _ Ht) as [Hh Hm].
    destruct (decide (sid h ∈ R)) as [HR|HR].
    - apply Hr, (removed_residual h); [rewrite (entries_split s); set_solver|done..].
    - destruct Hm as [o Ho]. rewrite (proj1 (newest_None _ _) Hn h) in Ho; [done|].
      unfold kt. apply elem_of_app. left. by apply elem_of_survivors. }
  destruct (decide (x ∈ dropped s)) as [Hd|Hd].
  - specialize (Hbase Htail). rewrite <-Hbase.
    destruct (staleIndex s !! id) as [h|] eqn:Hs; [|done].
    rewrite decide_False; [done|]. intros HR. apply Hr.
    destruct (newest (flattened s) id) as [h'|] eqn:Hf; [|done].
    pose proof (newest_Some _ _ _ Hf) as [Hh' Hm'].
    apply (removed_residual h'); [rewrite (entries_split s); set_solver| |done|done].
    injection Hbase as Hk _ _. by rewrite <-Hk.
  - exfalso. destruct Hx as [|(e & He & HR & <-)]; [done|].
    destruct Hbase as [Hbase|(e' & He' & Heq & Hm)].
    + destruct (newest (flattened s) id) as [h|] eqn:Hf; [|done]. injection Hbase as Hh.
      pose proof (newest_Some _ _ _ Hf) as [Hin Hm].
      apply Hr, (removed_residual h); [rewrite (entries_split s); set_solver|congruence|done..].
    + apply Hr, (removed_residual e'); [rewrite (entries_split s); set_solver|congruence|done..].
Qed.

Lemma live_next_ok id x :
  base s !! id = Some x → x ∉ dropSetOf (p_dropIDs p) →
  sid <$> newest kb id = Some x ∨ ∃ e, e ∈ kt ∧ sid e = x ∧ is_Some (members e !! id).
Proof.
  intros Hb Hx. destruct (decide (sid <$> published = Some x)) as [Hp|Hp].
  { right. apply fmap_Some in Hp as (q & Hq & Hp). exists q.
    split_and!; [by apply published_in_tail|done|].
    apply (ro_content s R _ Hok); [done|by rewrite <-Hp]. }
  assert (x ∉ dropped s) as Hd by (intros Hd; apply Hx, dropped_next; tauto).
  pose proof (inv_base s Hinv id) as Hbase. unfold base_ok in Hbase.
  rewrite Hb, decide_False in Hbase by done.
  destruct Hbase as [Hbase|(e & He & Hs & Hm)].
  - left. destruct (newest (flattened s) id) as [h|] eqn:Hf; [|done]. injection Hbase as Hh.
    unfold kb, survivors. rewrite (newest_filter_Some _ _ _ h) by
      (done || (intros HR; apply Hx, dropped_next; split; [|done]; right; exists h;
        split_and!; [by apply newest_Some in Hf as [? _]|done|done])).
    simpl. by rewrite Hh.
  - right. destruct (decide (sid e ∈ R)) as [HR|HR].
    + exfalso. subst x. destruct (ro_tail s R _ Hok e id He HR Hb); done.
    + exists e. split_and!; [|done|done]. unfold kt. apply elem_of_app. left.
      by apply elem_of_survivors.
Qed.

Lemma replaced_base_ok n id : base_ok (replaced n) id.
Proof.
  unfold base_ok. rewrite replaced_flattened, replaced_tail. cbn [replaced base dropped staleIndex].
  destruct (base s !! id) as [x|] eqn:Hb.
  2:{ pose proof (inv_base s Hinv id) as Hbase. unfold base_ok in Hbase. rewrite Hb in Hbase.
      by apply newest_filter_None. }
  case_decide; [intros Hn; by eapply stale_next_ok|by apply live_next_ok].
Qed.

Lemma survivors_sublist es : sid <$> survivors es R `sublist_of` sid <$> es.
Proof. apply fmap_sublist. apply sublist_filter. Qed.

Lemma replaced_nodup : NoDup (sid <$> p_entries p).
Proof.
  rewrite replaced_entries. unfold kb, kt. rewrite app_assoc, <-survivors_app, <-entries_split.
  rewrite fmap_app, NoDup_app. split_and!.
  - eapply sublist_NoDup; [apply (inv_nodup s Hinv)|apply survivors_sublist].
  - destruct published as [q|] eqn:Hq; simpl; [|set_solver].
    intros x Hx Hx'%list_elem_of_singleton. subst x. by apply (ro_fresh s R _ Hok) in Hx.
  - destruct published; simpl; [apply NoDup_singleton|constructor].
Qed.

Lemma replaced_stale n id h :
  staleIndex (replaced n) !! id = Some h → seg_key h ∈ seg_key <$> flattened (replaced n).
Proof.
  rewrite replaced_flattened. cbn [replaced staleIndex]. unfold p, residual. rewrite stale_lookup by done.
  fold p residual kb. case_decide.
  - intros [Hn _]%newest_Some. apply list_elem_of_fmap. by exists h.
  - destruct (staleIndex s !! id) as [h'|] eqn:Hs; [|done].
    destruct (decide (sid h' ∈ R)) as [|HR]; [done|]. intros [= ->].
    apply (inv_stale s Hinv) in Hs. apply list_elem_of_fmap in Hs as (e & Hk & He).
    apply list_elem_of_fmap. exists e. split; [done|]. apply elem_of_survivors. split; [|done].
    injection Hk as Hk _ _. by rewrite <-Hk.
Qed.

Lemma replaced_held : held (p_entries p) ∪ residual = held (entries s) ∪ dom (carried published).
Proof.
  rewrite replaced_entries. apply set_eq. intros id.
  assert (id ∈ dom (carried published) ↔ ∃ q, published = Some q ∧ is_Some (members q !! id))
    as Hcar.
  { rewrite elem_of_dom. unfold carried. destruct published as [q|]; [naive_solver|].
    rewrite lookup_empty. split; [by intros [? ?]|by intros (? & ? & _)]. }
  assert (id ∈ residual ↔ (∃ e, e ∈ entries s ∧ sid e ∈ R ∧ is_Some (members e !! id))
          ∧ carried published !! id = None) as Hres by apply elem_of_residual.
  rewrite !elem_of_union, Hcar, !elem_of_held, Hres. split.
  - intros [(e & He & Hm)|[(e & He & _ & Hm) _]]; [|left; by exists e].
    apply elem_of_app in He as [He|He].
    + left. exists e. split; [|done]. apply elem_of_survivors in He as [_ He].
      rewrite (entries_split s). set_solver.
    + unfold kt in He. apply elem_of_app in He as [He|He].
      * left. exists e. split; [|done]. apply elem_of_survivors in He as [_ He].
        rewrite (entries_split s). set_solver.
      * right. exists e. split; [|done]. destruct published; simpl in He; [|set_solver].
        by apply list_elem_of_singleton in He as ->.
  - intros [(e & He & Hm)|(q & Hq & Hm)].
    2:{ left. exists q. split; [|done]. apply elem_of_app. right. by apply published_in_tail. }
    destruct (decide (sid e ∈ R)) as [HR|HR].
    + destruct (newest (kb ++ kt) id) as [h|] eqn:Hn.
      { left. exists h. by apply newest_Some. }
      right. apply Hres, (removed_residual e); [done..|].
      rewrite newest_app in Hn. by destruct (newest kt id).
    + left. exists e. split; [|done]. rewrite (entries_split s) in He.
      apply elem_of_app in He as [He|He]; apply elem_of_app; [left|right; apply elem_of_app; left];
        by apply elem_of_survivors.
Qed.

Lemma replaced_inv_counted :
  set_inv (replaced (Z.of_nat (size (held (p_entries p))))).
Proof.
  split; cbn [replaced entries baseN staleIndex distinct stats].
  - rewrite replaced_entries. unfold p. rewrite parts_baseN, length_app by done. fold kb. lia.
  - apply replaced_nodup.
  - apply replaced_base_ok.
  - apply replaced_stale.
  - done.
  - done.
Qed.

Lemma replaced_count :
  (distinct s - endedResidency (replaced 0) residual + beganResidency s published
   = Z.of_nat (size (held (p_entries p))))%Z.
Proof.
  assert (endedResidency (replaced 0) residual
          = Z.of_nat (size (residual ∖ held (p_entries p)))) as ->
    by apply (unrouted_held _ residual replaced_inv_counted).
  assert (beganResidency s published
          = Z.of_nat (size (dom (carried published) ∖ held (entries s)))) as ->.
  { unfold beganResidency, carried. destruct published; [by apply unrouted_held|].
    rewrite dom_empty_L. symmetry. apply (Nat2Z.inj_iff _ 0), size_empty_iff. set_solver. }
  rewrite (inv_distinct s Hinv).
  pose proof (size_union_ids (held (p_entries p)) residual) as H1.
  pose proof (size_union_ids (held (entries s)) (dom (carried published))) as H2.
  rewrite replaced_held in H1. lia.
Qed.
End Replaced.

Lemma withReplaced_inv s (R : gset string) published :
  set_inv s → replace_ok s R published → set_inv (withReplaced s R published).
Proof.
  intros Hinv Hok. unfold withReplaced. case_decide.
  { apply newSegmentSet_inv. by apply (replaced_nodup s R published). }
  cbv zeta. cbn [entries base baseN dropped staleIndex stats].
  pose proof (replaced_count s R published Hinv Hok) as Hc.
  unfold replaced in Hc. rewrite Hc.
  by apply (replaced_inv_counted s R published).
Qed.

Lemma withReplaced_entries s (R : gset string) published :
  entries (withReplaced s R published) = survivors (entries s) R ++ opt_list published.
Proof.
  assert (p_entries (partitionForReplace s R published)
          = survivors (entries s) R ++ opt_list published) as Hp
    by (unfold partitionForReplace; destruct published; simpl; by rewrite ?app_nil_r).
  unfold withReplaced. by case_decide.
Qed.
End Replace.

(** ** Ranging over the route *)

Section Range.
Context {P St : Type} `{SegmentStats P St}.
Implicit Types (e : segmentEntry P) (es : list (segmentEntry P)) (s : segmentSet P St).

(** The calls made so far: one per id seen, the one [f] gives. *)
Definition calls_ok (f : string → option string) (acc : gset string * list (string * string)) :
    Prop :=
  NoDup (snd acc).*1 ∧ (∀ id x, (id, x) ∈ snd acc ↔ id ∈ fst acc ∧ f id = Some x) ∧
  ∀ id, id ∈ fst acc → is_Some (f id).

Lemma calls_ids f acc id : calls_ok f acc → id ∈ (snd acc).*1 ↔ id ∈ fst acc.
Proof.
  intros (_ & Hc & Hs). rewrite list_elem_of_fmap. split.
  - intros ([i x] & -> & Hi). by apply Hc in Hi as [? _].
  - intros Hid. destruct (Hs id Hid) as [x Hx]. exists (id, x). split; [done|]. by apply Hc.
Qed.

Lemma range_step f acc id x :
  calls_ok f acc → f id = Some x →
  calls_ok f (let '(seen, calls) := acc in
              if decide (id ∈ seen) then (seen, calls) else ({[id]} ∪ seen, calls ++ [(id, x)])).
Proof.
  intros Hok Hf. pose proof (calls_ids f acc id Hok) as Hids.
  destruct acc as [seen calls]. case_decide as Hin; [done|].
  destruct Hok as (Hnd & Hc & Hs). simpl in *. split_and!; simpl.
  - rewrite fmap_app, NoDup_app. simpl. split_and!; [done| |apply NoDup_singleton].
    intros i Hi Hi'%list_elem_of_singleton. subst i. by apply Hin, Hids.
  - intros i y. rewrite elem_of_app, list_elem_of_singleton, Hc, elem_of_union, elem_of_singleton.
    split; [|intros [[->|?] ?]; [right; congruence|by left]].
    intros [[? ?]|[= -> ->]]; split; auto.
  - intros i [->%elem_of_singleton|Hi]%elem_of_union; [by rewrite Hf|by apply Hs].
Qed.

Lemma range_entry_ok f acc e :
  calls_ok f acc → (∀ id, is_Some (members e !! id) → id ∉ fst acc → f id = Some (sid e)) →
  calls_ok f (range_entry acc e) ∧ fst (range_entry acc e) = fst acc ∪ dom (members e).
Proof.
  unfold range_entry. intros Hok Hf.
  assert (∀ id, id ∈ (map_to_list (members e)).*1 ↔ id ∈ dom (members e)) as Hdom.
  { intros id. rewrite elem_of_dom, list_elem_of_fmap. split.
    - intros ([i o] & -> & Hi%elem_of_map_to_list). simpl; by rewrite Hi.
    - intros [o Ho]. exists (id, o). split; [done|]. by apply elem_of_map_to_list. }
  assert (dom (members e) = list_to_set (map_to_list (members e)).*1) as ->.
  { apply set_eq. intros id. by rewrite elem_of_list_to_set, Hdom. }
  assert (∀ id, id ∈ (map_to_list (members e)).*1 → id ∉ fst acc → f id = Some (sid e)) as Hf'.
  { intros id Hid. apply Hf. by apply elem_of_dom, Hdom. }
  clear Hf Hdom. revert acc Hok Hf'.
  induction (map_to_list (members e)).*1 as [|id ids IH]; intros acc Hok Hf.
  { simpl. split; [done|]. set_solver. }
  cbn [fold_left list_to_set].
  assert (∃ x, f id = Some x ∧ (id ∉ fst acc → x = sid e)) as (x & Hx & Hxe).
  { destruct (decide (id ∈ fst acc)) as [Hin|Hin].
    - destruct Hok as (_ & _ & Hs). destruct (Hs id Hin) as [x Hx]. by exists x.
    - exists (sid e). split; [apply Hf; [by left|done]|done]. }
  pose proof (range_step f acc id x Hok Hx) as Hstep.
  destruct acc as [seen calls]. simpl in *. destruct (decide (id ∈ seen)) as [Hin|Hin].
  - destruct (IH (seen, calls) Hstep) as [H1 H2]; [set_solver|]. split; [done|].
    rewrite H2. set_solver.
  - rewrite (Hxe Hin) in Hstep. destruct (IH _ Hstep) as [H1 H2]; [set_solver|].
    split; [done|]. rewrite H2. set_solver.
Qed.

(** The tail, newest first. *)
Lemma range_tail_ok es :
  let acc := fold_left range_entry (rev es) (∅, []) in
  calls_ok (λ id, sid <$> newest es id) acc ∧ fst acc = held es.
Proof.
  cbv zeta. set (f := λ id, sid <$> newest es id).
  assert (∀ es1 es2, es = es1 ++ es2 → ∀ acc, calls_ok f acc → fst acc = held es2 →
    let acc' := fold_left range_entry (rev es1) acc in calls_ok f acc' ∧ fst acc' = held es) as Hgen.
  { induction es1 as [|e es1 IH] using rev_ind; intros es2 Hes acc Hok Hfst.
    { simpl. simpl in Hes. by subst es2. }
    rewrite rev_app_distr. cbn [rev app fold_left].
    destruct (range_entry_ok f acc e Hok) as [Hok' Hfst'].
    { intros id [o Ho] Hid. unfold f. rewrite Hes, <-app_assoc, newest_app. simpl.
      rewrite Hfst, <-newest_not_held in Hid. by rewrite Hid, Ho. }
    apply (IH (e :: es2)); [by rewrite Hes, <-app_assoc|done|].
    rewrite Hfst', Hfst. change (e :: es2) with ([e] ++ es2).
    rewrite held_app, held_singleton. set_solver. }
  apply (Hgen es []); [by rewrite app_nil_r| |done].
  split_and!; simpl; [constructor|..]; set_solver.
Qed.

Lemma elem_of_range_base s seen id x :
  set_inv s → seen = held (tail s) →
  (id, x) ∈ range_base s seen ↔ (id ∉ seen) ∧ routeOf s id = Some x.
Proof.
  intros Hinv ->. unfold range_base. rewrite list_elem_of_omap.
  assert (id ∉ held (tail s) → routeOf s id = match base s !! id with
    | None => None
    | Some y => if decide (y ∈ dropped s) then sid <$> staleIndex s !! id else Some y end) as Hroute.
  { intros Hid%newest_not_held. unfold routeOf, tailHolderOf. fold (tail s). rewrite Hid.
    destruct (base s !! id) as [y|]; [|done].
    repeat case_decide; first [done|by destruct (staleIndex s !! id)|by exfalso]. }
  split.
  - intros ([i y] & Hi%elem_of_map_to_list & Hc).
    destruct (decide (i ∈ held (tail s))) as [|Hn]; [done|].
    assert (i = id) as -> by (case_decide; [by destruct (staleIndex s !! i); simplify_eq|by simplify_eq]).
    split; [done|]. rewrite Hroute, Hi by done.
    case_decide; [destruct (staleIndex s !! id)|]; by simplify_eq/=.
  - intros [Hn Hr]. rewrite Hroute in Hr by done.
    destruct (base s !! id) as [y|] eqn:Hb; [|done]. exists (id, y).
    split; [by apply elem_of_map_to_list|]. rewrite decide_False by done.
    case_decide; [destruct (staleIndex s !! id)|]; by simplify_eq/=.
Qed.

Lemma NoDup_range_base s seen : NoDup (range_base s seen).*1.
Proof.
  unfold range_base. pose proof (NoDup_fst_map_to_list (base s)) as Hnd.
  induction (map_to_list (base s)) as [|[i y] l IH]; [constructor|].
  apply NoDup_cons in Hnd as [Hi Hnd]. specialize (IH Hnd). cbn [omap list_omap].
  destruct (if decide (i ∈ seen) then _ else _) as [[j z]|] eqn:Hc; [|done].
  assert (j = i) as ->.
  { case_decide; [done|]. case_decide; [destruct (staleIndex s !! i)|]; by simplify_eq. }
  rewrite fmap_cons. apply NoDup_cons. split; [|done]. simpl. intros Hin. apply Hi.
  apply list_elem_of_fmap in Hin as ([k w] & -> & Hk).
  apply list_elem_of_omap in Hk as ([k' y'] & Hk' & Hc').
  apply list_elem_of_fmap. exists (k', y'). split; [|done]. simpl.
  case_decide; [done|]. case_decide; [destruct (staleIndex s !! k')|]; by simplify_eq.
Qed.

Lemma rangeRoute_ok s :
  set_inv s →
  NoDup (rangeRoute s).*1 ∧ ∀ id x, (id, x) ∈ rangeRoute s ↔ routeOf s id = Some x.
Proof.
  intros Hinv. unfold rangeRoute. fold (tail s).
  destruct (range_tail_ok (tail s)) as [Hok Hfst].
  destruct (fold_left range_entry (rev (tail s)) (∅, [])) as [seen calls]. simpl in Hfst.
  pose proof (λ id, calls_ids _ _ id Hok) as Hids. destruct Hok as (Hnd & Hc & Hs). simpl in *.
  split.
  - rewrite fmap_app, NoDup_app. split_and!; [done| |apply NoDup_range_base].
    intros id Hin%Hids Hb. apply list_elem_of_fmap in Hb as ([i x] & -> & Hb).
    apply elem_of_range_base in Hb as [? _]; done.
  - intros id x. rewrite elem_of_app, Hc, elem_of_range_base by done.
    rewrite routeOf_newest, newest_entries by done. subst seen.
    destruct (newest (tail s) id) as [h|] eqn:Hn.
    + assert (id ∈ held (tail s)) by (apply newest_held; by rewrite Hn). simpl. tauto.
    + apply newest_not_held in Hn. tauto.
Qed.
End Range.

(** ** Sequences of derivations *)

Section Sequences.
Context {P St : Type} `{SegmentStats P St}.
Implicit Types (e : segmentEntry P) (es : list (segmentEntry P)) (s : segmentSet P St).

(** The four ways a snapshot is derived from its predecessor. *)
Inductive set_op :=
| OpAppend (e : segmentEntry P)
| OpReplace (removeIDs : gset string) (published : option (segmentEntry P))
| OpRemap (replacements : gmap nat (segmentEntry P))
| OpGroup (removeIDs : gset string) (added : list (segmentEntry P)).

Definition apply_set_op s (o : set_op) : segmentSet P St :=
  match o with
  | OpAppend e => withAppended s e
  | OpReplace R published => withReplaced s R published
  | OpRemap replacements => withReplacedPayloads s replacements
  | OpGroup R added => withReplacedGroup s R added
  end.

(** The specification state is the list of entries alone. *)
Definition spec_set_op es (o : set_op) : list (segmentEntry P) :=
  match o with
  | OpAppend e => es ++ [e]
  | OpReplace R published => survivors es R ++ opt_list published
  | OpRemap replacements => imap (λ i e, default e (replacements !! i)) es
  | OpGroup R added => survivors es R ++ added
  end.

(** What the derivation of each operation needs of the snapshot. *)
Definition set_op_ok s (o : set_op) : Prop :=
  match o with
  | OpAppend e => sid e ∉ sid <$> entries s
  | OpReplace R published => replace_ok s R published
  | OpRemap replacements =>
      ∀ i e', replacements !! i = Some e' →
        ∃ e, entries s !! i = Some e ∧ seg_key e' = seg_key e
  | OpGroup R added => NoDup (sid <$> survivors (entries s) R ++ added)
  end.

Definition run_set_ops s (ops : list set_op) : segmentSet P St := fold_left apply_set_op ops s.

Lemma apply_set_op_inv s o : set_inv s → set_op_ok s o → set_inv (apply_set_op s o).
Proof.
  intros Hinv Hok. destruct o as [e|R published|replacements|R added]; simpl in *.
  - by apply withAppended_inv.
  - by apply withReplaced_inv.
  - by apply withReplacedPayloads_inv.
  - by apply newSegmentSet_inv.
Qed.

Lemma apply_set_op_entries s o : entries (apply_set_op s o) = spec_set_op (entries s) o.
Proof.
  destruct o; simpl; [|apply withReplaced_entries|done|done].
  unfold withAppended. by case_decide.
Qed.

(** ** Valid sequences

    What the callers know is the sequence itself.  Of what was done before, three things
    matter: the entries it leaves; the ids of all the segments it ever published; and
    those that a replacement published again since the last group swap. *)
Record set_history := mkHistory {
  h_entries : list (segmentEntry P);
  h_seen : gset string;
  h_again : gset string
}.

Definition step_history (h : set_history) (o : set_op) : set_history :=
  let es := spec_set_op (h_entries h) o in
  match o with
  | OpAppend e => mkHistory es ({[sid e]} ∪ h_seen h) (h_again h)
  | OpReplace _ None => mkHistory es (h_seen h) (h_again h)
  | OpReplace _ (Some q) => mkHistory es ({[sid q]} ∪ h_seen h)
      (if decide (sid q ∈ h_seen h) then {[sid q]} ∪ h_again h else h_again h)
  | OpRemap _ => mkHistory es (h_seen h) (h_again h)
  | OpGroup _ added => mkHistory es (list_to_set (sid <$> added) ∪ h_seen h) ∅
  end.

Section Valid.
(** A segment id is the hash of the content: it determines the members. *)
Context (content : string → gset string).

Definition named e : Prop := dom (members e) = content (sid e).

(** What each caller owes: a segment is not published twice over, a remap changes payloads
    only, and a replacement does not retire a segment that an earlier replacement
    published again, unless to publish it once more. *)
Definition set_op_valid (h : set_history) (o : set_op) : Prop :=
  match o with
  | OpAppend e => named e ∧ sid e ∉ sid <$> h_entries h
  | OpReplace R published =>
      (∀ q, published = Some q → named q ∧ sid q ∉ sid <$> survivors (h_entries h) R) ∧
      ∀ x, x ∈ R → x ∈ h_again h → sid <$> published = Some x
  | OpRemap replacements =>
      ∀ i e', replacements !! i = Some e' →
        ∃ e, h_entries h !! i = Some e ∧ seg_key e' = seg_key e
  | OpGroup R added => NoDup (sid <$> survivors (h_entries h) R ++ added) ∧ Forall named added
  end.

Fixpoint set_ops_valid (h : set_history) (ops : list set_op) : Prop :=
  match ops with
  | [] => True
  | o :: ops => set_op_valid h o ∧ set_ops_valid (step_history h o) ops
  end.

(** What a history says of the snapshot it leads to. *)
Record tracks (h : set_history) s : Prop := {
  fo_inv : set_inv s;
  fo_entries : entries s = h_entries h;
  fo_named : Forall (λ e, named e ∧ sid e ∈ h_seen h) (entries s);
  fo_base : ∀ id x, base s !! id = Some x → x ∈ h_seen h ∧ id ∈ content x;
  fo_tail : ∀ e id, e ∈ tail s → base s !! id = Some (sid e) →
    sid e ∈ dropped s ∨ sid e ∈ h_again h
}.

Lemma history_replace_ok h s R published :
  tracks h s → set_op_valid h (OpReplace R published) → replace_ok s R published.
Proof.
  intros [Hinv He Hn Hb Ht] [Hpub Hagain]. split.
  - intros q Hq. rewrite He. by apply Hpub.
  - intros q id Hq Hid. destruct (Hpub q Hq) as [Hnq _]. apply elem_of_dom. rewrite Hnq.
    by apply (Hb id).
  - intros e id Hin HR Hid. destruct (Ht e id Hin Hid) as [|Hag]; [by left|right; by apply Hagain].
Qed.

(** A flat snapshot records what its entries hold. *)
Lemma flat_follows h es :
  NoDup (sid <$> es) → Forall (λ e, named e ∧ sid e ∈ h_seen h) es → h_entries h = es →
  tracks h (newSegmentSet es).
Proof.
  intros Hnd Hn He. split; cbn [newSegmentSet entries base dropped].
  - by apply newSegmentSet_inv.
  - done.
  - done.
  - intros id x. rewrite flatRoute_lookup. intros (e & Hnew & ->)%fmap_Some.
    apply newest_Some in Hnew as [Hin Hm]. rewrite Forall_forall in Hn.
    destruct (Hn e Hin) as [Hne Hs]. split; [done|]. rewrite <-Hne. by apply elem_of_dom.
  - intros e id Hin. unfold tail in Hin. cbn [newSegmentSet baseN entries] in Hin.
    rewrite drop_all in Hin. by apply elem_of_nil in Hin.
Qed.

Lemma tail_elem s e : e ∈ tail s → e ∈ entries s.
Proof. intros He. rewrite (entries_split s). apply elem_of_app. by right. Qed.

(** An id the base records under the name of a segment that is not resident is dropped. *)
Lemma base_gone s id x : set_inv s → base s !! id = Some x → x ∉ sid <$> entries s → x ∈ dropped s.
Proof.
  intros Hinv Hb Hx. pose proof (inv_base s Hinv id) as Hok. unfold base_ok in Hok. rewrite Hb in Hok.
  destruct (decide (x ∈ dropped s)) as [|Hd]; [done|]. exfalso. apply Hx.
  destruct Hok as [(e & Hn & ->)%fmap_Some|(e & He & <- & _)].
  - apply newest_Some in Hn as [Hin _]. apply list_elem_of_fmap_2.
    rewrite (entries_split s). apply elem_of_app. by left.
  - apply list_elem_of_fmap_2. by apply tail_elem.
Qed.

Lemma follows_append h s e :
  tracks h s → set_op_valid h (OpAppend e) →
  tracks (step_history h (OpAppend e)) (withAppended s e).
Proof.
  intros Hf [Hne Hnew]. pose proof Hf as [Hinv He Hn Hb Ht]. rewrite <-He in Hnew.
  pose proof (apply_set_op_inv s (OpAppend e) Hinv Hnew) as Hinv'.
  assert (Forall (λ x, named x ∧ sid x ∈ {[sid e]} ∪ h_seen h) (entries s ++ [e])) as Hall.
  { apply Forall_app. split; [|constructor; [split; [done|set_solver]|done]].
    eapply Forall_impl; [exact Hn|]. intros x [? ?]. split; [done|set_solver]. }
  cbn [apply_set_op] in Hinv'. unfold withAppended in *. case_decide.
  { apply flat_follows; [by apply (inv_nodup _ Hinv')|done|by cbn; rewrite He]. }
  split; cbn [entries base dropped step_history h_entries h_seen h_again spec_set_op].
  - done.
  - by rewrite He.
  - done.
  - intros id x Hid. destruct (Hb id x Hid) as [? ?]. split; [set_solver|done].
  - intros x id Hin Hid. unfold tail in Hin. cbn [entries baseN] in Hin.
    rewrite drop_app_le in Hin by apply (inv_baseN s Hinv).
    apply elem_of_app in Hin as [Hin|Hin]; [by eapply Ht|].
    apply list_elem_of_singleton in Hin as ->. left. by eapply base_gone.
Qed.

Lemma follows_replace h s R published :
  tracks h s → set_op_valid h (OpReplace R published) →
  tracks (step_history h (OpReplace R published)) (withReplaced s R published).
Proof.
  intros Hf Hv. pose proof (history_replace_ok _ _ _ _ Hf Hv) as Hok.
  pose proof Hf as [Hinv He Hn Hb Ht]. destruct Hv as [Hpub Hagain].
  set (h' := step_history h (OpReplace R published)).
  assert (h_entries h' = survivors (entries s) R ++ opt_list published) as He'
    by (unfold h'; destruct published; cbn; by rewrite He).
  assert (∀ x, x ∈ h_seen h → x ∈ h_seen h') as Hsub
    by (intros x Hx; unfold h'; destruct published; cbn; set_solver).
  pose proof (withReplaced_inv s R published Hinv Hok) as Hinv'.
  assert (Forall (λ x, named x ∧ sid x ∈ h_seen h') (survivors (entries s) R ++ opt_list published)) as Hall.
  { apply Forall_app. split.
    - apply Forall_forall. intros x Hx. apply elem_of_survivors in Hx as [_ Hx].
      rewrite Forall_forall in Hn. destruct (Hn x Hx). split; auto.
    - destruct published as [q|]; [|constructor]. constructor; [|constructor].
      split; [by apply Hpub|unfold h'; cbn; set_solver]. }
  pose proof (withReplaced_entries s R published) as Hes.
  unfold withReplaced in *. case_decide.
  { cbn [newSegmentSet entries] in Hes. rewrite Hes in *. apply flat_follows; [|done|done].
    apply (inv_nodup _ Hinv'). }
  cbv zeta in *. cbn [entries base baseN dropped staleIndex stats] in *.
  split; cbn [entries base dropped]; [done|by rewrite Hes|by rewrite Hes| |].
  - intros id x Hid. destruct (Hb id x Hid) as [? ?]. split; auto.
  - intros e id Hin Hid. unfold tail in Hin. cbn [entries baseN] in Hin.
    rewrite parts_entries, parts_baseN, drop_app_length in Hin by done.
    apply elem_of_app in Hin as [Hin|Hin].
    + apply elem_of_survivors in Hin as [HR Hin]. destruct (Ht e id Hin Hid) as [Hd|Ha].
      * left. apply dropped_next. split; [by left|]. intros Hp.
        apply fmap_Some in Hp as (q & Hq & Hp). destruct (Hpub q Hq) as [_ Hfresh]. apply Hfresh.
        rewrite <-Hp, <-He. apply list_elem_of_fmap_2. apply elem_of_survivors.
        split; [done|by apply tail_elem].
      * right. unfold h'. destruct published as [q|]; cbn; [case_decide; set_solver|done].
    + destruct published as [q|]; [|by apply elem_of_nil in Hin].
      apply list_elem_of_singleton in Hin as ->. right. unfold h'. cbn.
      rewrite decide_True by (by apply (Hb id)). set_solver.
Qed.

Lemma follows_remap h s r :
  tracks h s → set_op_valid h (OpRemap r) →
  tracks (step_history h (OpRemap r)) (withReplacedPayloads s r).
Proof.
  intros [Hinv He Hn Hb Ht] Hv. cbn [set_op_valid] in Hv. rewrite <-He in Hv.
  assert (∀ i e', imap (λ i e, default e (r !! i)) (entries s) !! i = Some e' →
    ∃ e, entries s !! i = Some e ∧ seg_key e' = seg_key e) as Hkey.
  { intros i e'. rewrite list_lookup_imap. intros (e & Hi & ->)%fmap_Some. exists e. split; [done|].
    destruct (r !! i) as [e'|] eqn:Hr; [|done]. destruct (Hv i e' Hr) as (e0 & Hi0 & Hk).
    rewrite Hi in Hi0. by injection Hi0 as ->. }
  split; cbn [withReplacedPayloads entries base dropped step_history h_entries h_seen h_again spec_set_op].
  - by apply withReplacedPayloads_inv.
  - by rewrite He.
  - apply Forall_forall. intros e' (i & Hi)%list_elem_of_lookup.
    destruct (Hkey i e' Hi) as (e & Hie & [= Hs Hm _]). rewrite Forall_forall in Hn.
    destruct (Hn e) as [Hne Hse]; [by eapply list_elem_of_lookup_2|].
    unfold named. by rewrite Hm, Hs.
  - done.
  - intros e' id (j & Hj)%list_elem_of_lookup Hid. unfold tail in Hj. cbn [entries baseN] in Hj.
    rewrite lookup_drop in Hj. destruct (Hkey _ e' Hj) as (e & Hie & [= Hs _ _]).
    rewrite Hs in *. apply (Ht e id); [|done]. apply (list_elem_of_lookup_2 _ j). unfold tail.
    by rewrite lookup_drop.
Qed.

Lemma follows_step h s o :
  tracks h s → set_op_valid h o → tracks (step_history h o) (apply_set_op s o).
Proof.
  intros Hf Hv. destruct o as [e|R published|r|R added].
  - by apply follows_append.
  - by apply follows_replace.
  - by apply follows_remap.
  - destruct Hf as [Hinv He Hn Hb Ht], Hv as [Hnd Hadd]. cbn [apply_set_op]. unfold withReplacedGroup.
    rewrite He in *. apply flat_follows; [done| |done]. cbn [step_history h_seen]. apply Forall_app. split.
    + apply Forall_forall. intros x Hx. apply elem_of_survivors in Hx as [_ Hx].
      rewrite Forall_forall in Hn. destruct (Hn x Hx). split; [done|set_solver].
    + apply Forall_forall. intros x Hx. rewrite Forall_forall in Hadd. split; [by apply Hadd|].
      apply elem_of_union. left. apply elem_of_list_to_set. by apply list_elem_of_fmap_2.
Qed.

Lemma run_set_ops_follows h s ops :
  tracks h s → set_ops_valid h ops →
  set_inv (run_set_ops s ops) ∧
  entries (run_set_ops s ops) = fold_left spec_set_op ops (entries s).
Proof.
  revert h s. induction ops as [|o ops IH]; intros h s Hf Hv; [split; [apply Hf|done]|].
  destruct Hv as [Ho Hv]. cbn [run_set_ops fold_left].
  destruct (IH (step_history h o) (apply_set_op s o)) as [H1 H2]; [by apply follows_step|done|].
  split; [exact H1|]. unfold run_set_ops in H2. by rewrite H2, apply_set_op_entries.
Qed.

Lemma empty_follows : tracks (mkHistory [] ∅ ∅) (newSegmentSet []).
Proof. apply flat_follows; [constructor|constructor|done]. Qed.
End Valid.

(** What a client of a snapshot sees. *)
Definition observably_equal (s1 s2 : segmentSet P St) : Prop :=
  (∀ id, routeOf s1 id = routeOf s2 id) ∧
  (∀ id, seg_key <$> entryOf s1 id = seg_key <$> entryOf s2 id) ∧
  rangeRoute s1 ≡ₚ rangeRoute s2 ∧
  distinct s1 = distinct s2 ∧ stats s1 = stats s2.

#[export] Instance observably_equal_equivalence : Equivalence observably_equal.
Proof.
  split.
  - intros s. by split_and!.
  - intros s1 s2 (H1 & H2 & H3 & H4 & H5). split_and!; done.
  - intros s1 s2 s3 (H1 & H2 & H3 & H4 & H5) (K1 & K2 & K3 & K4 & K5).
    split_and!; [intros; by rewrite H1|intros; by rewrite H2|by rewrite H3|congruence..].
Qed.

Lemma inv_observably_flat s :
  set_inv s → observably_equal s (newSegmentSet (entries s)).
Proof.
  intros Hinv. pose proof (newSegmentSet_inv (entries s) (inv_nodup s Hinv)) as Hflat.
  assert (∀ id, routeOf s id = routeOf (newSegmentSet (entries s)) id) as Hroute
    by (intros id; by rewrite !routeOf_newest).
  split_and!; [done|intros id; by rewrite !entryOf_newest| | |].
  - destruct (rangeRoute_ok s Hinv) as [Hnd Hin].
    destruct (rangeRoute_ok _ Hflat) as [Hnd' Hin'].
    apply NoDup_Permutation; [by eapply NoDup_fmap_1|by eapply NoDup_fmap_1|].
    intros [id x]. by rewrite Hin, Hin', Hroute.
  - by rewrite (inv_distinct s Hinv), (inv_distinct _ Hflat).
  - by rewrite (inv_stats s Hinv), (inv_stats _ Hflat).
Qed.
End Sequences.
Arguments set_op : clear implicits.

(** C3: the two-level route is not observable: after any valid sequence of appends,
    replacements, remaps and group swaps, the route, the entry lookup, the route walk,
    the distinct count and the statistics are those of a snapshot rebuilt flat over
    the entries the sequence leaves.  A sequence is valid when segment ids determine the
    members, no operation publishes an id that is resident and stays, remaps change
    payloads only, and no replacement retires a segment that an earlier one, since the
    last group swap, had published again under an id already used.  The last condition is
    needed, and the code does not ensure it: see [republished_then_retired_stays_routed]. *)
Theorem two_level_route_refines_flat {P St : Type} `{SegmentStats P St}
    (content : string → gset string) (ops : list (set_op P)) :
  set_ops_valid content (mkHistory [] ∅ ∅) ops →
  let s := run_set_ops (newSegmentSet []) ops in
  entries s = fold_left spec_set_op ops [] ∧
  observably_equal s (newSegmentSet (fold_left spec_set_op ops [])).
Proof.
  intros Hv s.
  destruct (run_set_ops_follows content _ _ ops (empty_follows content) Hv) as [Hinv He].
  split; [done|]. change [] with (entries (newSegmentSet (P:=P) (St:=St) [])).
  rewrite <-He. by apply inv_observably_flat.
Qed.

(** A snapshot's route answers newest-append-wins: an id routes to the last
    resident entry that holds it, is absent exactly when no entry holds it, and the
    distinct count is the number of ids that route. *)
Theorem route_newest_wins {P St : Type} `{SegmentStats P St} (s : segmentSet P St) (id : string) :
  set_inv s →
  routeOf s id = sid <$> newest (entries s) id ∧
  (∀ before e after, entries s = before ++ e :: after → is_Some (members e !! id) →
     (∀ e', e' ∈ after → members e' !! id = None) →
     routeOf s id = Some (sid e) ∧ seg_key <$> entryOf s id = Some (seg_key e)) ∧
  (routeOf s id = None ↔ ∀ e, e ∈ entries s → members e !! id = None) ∧
  distinct s = Z.of_nat (length (rangeRoute s)).
Proof.
  intros Hinv. split_and!.
  - by apply routeOf_newest.
  - intros before e after He [o Ho] Hafter.
    assert (newest (entries s) id = Some e) as Hn.
    { rewrite He, newest_app. simpl. by rewrite (proj2 (newest_None after id)), Ho. }
    rewrite routeOf_newest, entryOf_newest, Hn by done. done.
  - rewrite routeOf_newest, fmap_None by done. apply newest_None.
  - rewrite (inv_distinct s Hinv). f_equal. destruct (rangeRoute_ok s Hinv) as [Hnd Hin].
    rewrite <-(length_fmap fst), <-(size_list_to_set (C:=gset string)) by done. f_equal.
    apply set_eq. intros i. rewrite elem_of_list_to_set, <-newest_held.
    rewrite list_elem_of_fmap. split.
    + intros [h Hh]. exists (i, sid h). split; [done|]. apply Hin.
      by rewrite routeOf_newest, Hh.
    + intros ([j x] & -> & Hj). apply Hin in Hj. rewrite routeOf_newest in Hj by done.
      simpl; by destruct (newest (entries s) j).
Qed.

(** ** Concrete snapshots *)

Module Examples.

(** Payloads are numbers and the statistics count them. *)
Lemma count_agrees (ps : list nat) (p : nat) : S (length ps) = length (ps ++ [p]).
Proof. rewrite length_app. simpl. lia. Qed.

#[export] Instance count_stats : SegmentStats nat nat := {
  AggregateStats ps := length ps;
  AppendStats n _ := S n;
  AppendStats_agrees := count_agrees
}.

Definition entry (loc : nat) (name : string) (ids : list string) (p : nat) : segmentEntry nat :=
  mkEntry p loc (list_to_map (zip ids (Z.of_nat <$> seq 0 (length ids))))
    (mkMeta name "fmt" 0 (Z.of_nat (length ids)) 0) noRecord 0 None.

Definition w := entry 0 "w" ["a"] 0.
Definition x := entry 1 "x" ["a"; "c"] 0.
Definition y := entry 2 "y" ["b"] 0.

(** Two entries flattened; "x" is consolidated to its own bytes, then retired. *)
Definition s0 : segmentSet nat nat := newSegmentSet [w; x].
Definition s1 := withReplaced s0 {["x"]} (Some x).
Definition s2 := withReplaced s1 {["x"]} (Some y).

(** "x" is retired and an answer for "a" is recorded; then "w" is remapped. *)
Definition r1 := withReplaced s0 {["x"]} (Some y).
Definition r2 := withReplacedPayloads r1 {[0 := entry 0 "w" ["a"] 7]}.

End Examples.

#[local] Existing Instance Examples.count_stats.

(** A segment that a replacement republishes under its own id and a later
    replacement retires stays routed: the base map still names it, no drop is
    recorded, the route names a segment that is not resident, the distinct count
    includes ids nothing holds, and the lookup misses an older entry that holds one. *)
Theorem republished_then_retired_stays_routed :
  set_inv Examples.s0 ∧ replace_ok Examples.s0 {["x"]} (Some Examples.x) ∧
  let s := Examples.s2 in
  sid <$> entries s = ["w"; "y"] ∧
  routeOf s "c" = Some "x" ∧ newest (entries s) "c" = None ∧
  entryOf s "a" = None ∧ newest (entries s) "a" = Some Examples.w ∧
  distinct s = 3%Z ∧ size (held (entries s)) = 2.
Proof.
  split_and!.
  - apply newSegmentSet_inv. by apply (bool_decide_unpack _).
  - split.
    + intros q [= <-] Hin. vm_compute in Hin. set_solver.
    + intros q id [= <-] Hb. simpl in Hb. rewrite flatRoute_lookup in Hb.
      apply fmap_Some in Hb as (h & Hh & Hs). apply newest_Some in Hh as [Hin Hm].
      rewrite elem_of_cons, list_elem_of_singleton in Hin.
      by destruct Hin as [->| ->].
    + intros e id He. unfold tail in He. simpl in He. set_solver.
  - split_and!; vm_compute; reflexivity.
Qed.

(** A remap carries the stale index untouched, so the index can answer with the
    entry the remap replaced: an entry, and a payload, no longer in the snapshot. *)
Theorem remap_stale_answer_departed :
  entryOf Examples.r2 "a" = Some Examples.w ∧ payload Examples.w = 0 ∧
  payload <$> entries Examples.r2 = [7; 0] ∧ Examples.w ∉ entries Examples.r2.
Proof.
  split_and!; try (vm_compute; reflexivity).
  intros Hin. apply (list_elem_of_fmap_2 (λ e, (sid e, payload e))) in Hin.
  vm_compute in Hin. set_solver.
Qed.

(** Two segments published flat; one is consolidated to its own bytes, one appended, the
    other retired: the base is not empty, and has dropped and stale answers. *)
Definition sample_ops : list (set_op nat) :=
  [OpGroup ∅ [Examples.w; Examples.x]; OpReplace {["x"]} (Some Examples.x);
   OpAppend Examples.y; OpReplace {["w"]} None].

Definition sample_content (x : string) : gset string :=
  if decide (x = "w") then {["a"]} else if decide (x = "x") then {["a"; "c"]} else {["b"]}.

Lemma two_level_route_refines_flat_witness :
  let s := run_set_ops (newSegmentSet []) sample_ops in
  base s ≠ ∅ ∧ dropped s = {["w"]} ∧
  observably_equal s (newSegmentSet [Examples.x; Examples.y]).
Proof.
  split; [vm_compute; discriminate|]. split; [vm_compute; reflexivity|].
  change (newSegmentSet [Examples.x; Examples.y])
    with (newSegmentSet (St:=nat) (fold_left spec_set_op sample_ops [])).
  apply (two_level_route_refines_flat sample_content sample_ops).
  split; [split; [by apply (bool_decide_unpack _)|]|].
  { repeat constructor; unfold named; vm_compute; reflexivity. }
  split; [split|].
  { intros q [= <-]. split; [vm_compute; reflexivity|]. by apply (bool_decide_unpack _). }
  { intros i _ Hi. cbn [step_history h_again] in Hi. by apply elem_of_empty in Hi. }
  split; [split; [vm_compute; reflexivity|by apply (bool_decide_unpack _)]|].
  split; [|exact I]. split; [intros q Hq; discriminate|].
  intros i Hi Ha. apply elem_of_singleton in Hi as ->.
  exfalso. revert Ha. by apply (bool_decide_unpack _).
Defined.

Lemma route_newest_wins_witness : routeOf Examples.s0 "a" = Some "x".
Proof.
  apply (proj1 (proj2 (route_newest_wins Examples.s0 "a"
    (newSegmentSet_inv [Examples.w; Examples.x] ltac:(by apply (bool_decide_unpack _)))))
    [Examples.w] Examples.x []); [reflexivity|vm_compute; eauto|].
  intros e He. by apply elem_of_nil in He.
Defined.
