(* ===== verification/Format.v ===== *)
(** * Documents and the format interface
    ([internal/searchengine/document.go], [segment.go])

    The engine is generic in the index format: what a sealed segment is, how it is
    built, merged, encoded and searched.  [SegmentFormat] is that interface as a
    class; [BuildLaws], [CodecLaws], [SearchLaws] and [MergeLaws] are what its comments
    require of an implementation; and [TableFormat] is a small implementation that keeps
    all four, so that the engine's theorems have instances that evaluate.  The bm25 format
    is an instance that keeps the first three ([Bm25Format]). *)

From Stdlib Require Import Ascii Floats.SpecFloat.
From S2P Require Import Prelude Supersession TopK SegmentSet.

Record Document := mkDoc {
  DocID : string;
  Fields : gmap string string;
  Vector : bytes;
  Dtype : string
}.

(** The degradations a build contained: class name to count. *)
Definition BuildReport : Type := gmap string Z.

(** What a format reports: a corruption of stored bytes, raised (a panic the engine's
    boundaries catch) or returned, attributed to a segment or to none; any other error;
    or a panic of the runtime, which no boundary catches. *)
Inductive formatErr :=
| Corrupt (raised : bool) (id detail : string)
| Refused (msg : string)
| Panicked.

(** What a boundary of the engine contains. *)
Definition raised_corruption (err : formatErr) : bool :=
  match err with Corrupt raised _ _ => raised | _ => false end.

(** The methods of a format and of its segments.  [SearchSegment] and [IDs] read stored
    bytes: a failure of theirs is a panic. *)
Class SegmentFormat (P St Q : Type) := {
  FormatName : string;
  Build : list Document → BuildReport * result formatErr P;
  Decode : bytes → result formatErr P;
  MergeTo : list (P * (string → bool)) → result formatErr bytes;
  ValidateSegment : string → bytes → option formatErr;
  format_stats :: SegmentStats P St;
  SearchSegment : P → Q → St → Z → (string → bool) → result formatErr (list Hit);
  IDs : P → result formatErr (list string);
  Encode : P → result formatErr bytes
}.

(** The ids of a segment whose ids can be read. *)
Definition ids_of {P St Q : Type} `{SegmentFormat P St Q} (p : P) : list string :=
  match IDs p with Ok ids => ids | Err _ => [] end.

(** ** What a format promises

    One class per promise, so that a theorem asks for those it uses. *)

(** A build indexes documents of its batch that the format can index ([indexable]: a
    format passes over a document without a word, or without a vector, and reports
    nothing), and all of them when it reports nothing. *)
Class BuildLaws (P St Q : Type) `{SegmentFormat P St Q} := {
  indexable : Document → bool;
  Build_sound docs rep p id :
    Build docs = (rep, Ok p) → id ∈ ids_of p → ∃ d, d ∈ docs ∧ indexable d = true ∧ DocID d = id;
  Build_complete docs p d :
    Build docs = (∅, Ok p) → IDs p = Ok (ids_of p) →
    d ∈ docs → indexable d = true → DocID d ∈ ids_of p
}.

(** A decoded segment is indistinguishable from the one encoded. *)
Class CodecLaws (P St Q : Type) `{SegmentFormat P St Q} := {
  Encode_Decode p b : Encode p = Ok b → Decode b = Ok p
}.

(** A merge keeps the members its accept functions keep. *)
Class MergeLaws (P St Q : Type) `{SegmentFormat P St Q} := {
  MergeTo_ids segs b p id :
    MergeTo segs = Ok b → Decode b = Ok p → IDs p = Ok (ids_of p) →
    id ∈ ids_of p ↔ ∃ s acc, (s, acc) ∈ segs ∧ id ∈ ids_of s ∧ acc id = true
}.

(** A search excludes what its accept function excludes. *)
Class SearchLaws (P St Q : Type) `{SegmentFormat P St Q} := {
  Search_accepted p q st k acc hits h :
    SearchSegment p q st k acc = Ok hits → h ∈ hits → acc (HitID h) = true
}.

(** ** [dedupeDocsByID] ([engine.go]): last wins, survivors in order *)

Definition last_index (docs : list Document) : gmap string nat :=
  fold_left (λ m '(i, d), <[DocID d := i]> m) (imap pair docs) ∅.

Definition dedupeDocsByID (docs : list Document) : list Document :=
  let lastAt := last_index docs in
  if decide (size lastAt = length docs) then docs
  else omap (λ '(i, d), if decide (lastAt !! DocID d = Some i) then Some d else None)
         (imap pair docs).

(** The last position of an id. *)
Definition is_last (docs : list Document) (i : nat) (id : string) : Prop :=
  (∃ d, docs !! i = Some d ∧ DocID d = id) ∧
  ∀ j d, docs !! j = Some d → DocID d = id → j ≤ i.

Lemma last_index_spec docs id i : last_index docs !! id = Some i ↔ is_last docs i id.
Proof.
  unfold last_index, is_last. revert id i.
  induction docs as [|d docs IH] using rev_ind; intros id i.
  { simpl. rewrite lookup_empty. split; [done|]. intros [(d & Hd & _) _]. done. }
  rewrite imap_app, fold_left_app. simpl. rewrite Nat.add_0_r.
  destruct (decide (DocID d = id)) as [<-|Hne].
  - rewrite lookup_insert_eq. split.
    + intros [= <-]. split; [exists d; by rewrite list_lookup_middle|].
      intros j d' Hj _. apply lookup_lt_Some in Hj. rewrite length_app in Hj. simpl in Hj. lia.
    + intros [(d' & Hi & _) Hlast]. apply lookup_lt_Some in Hi. rewrite length_app in Hi.
      simpl in Hi. f_equal. specialize (Hlast (length docs) d).
      rewrite list_lookup_middle in Hlast by done. specialize (Hlast eq_refl eq_refl). lia.
  - rewrite lookup_insert_ne, IH by done. split.
    + intros [(d' & Hi & Hd') Hlast]. split.
      * exists d'. split; [by apply lookup_app_l_Some|done].
      * intros j e Hj He. apply lookup_app_Some in Hj as [Hj|[_ Hj]]; [by eapply Hlast|].
        apply list_lookup_singleton_Some in Hj as [_ <-]. done.
    + intros [(d' & Hi & Hd') Hlast]. split.
      * exists d'. split; [|done].
        apply lookup_app_Some in Hi as [Hi|[_ Hi]]; [done|].
        apply list_lookup_singleton_Some in Hi as [_ <-]. done.
      * intros j e Hj He. eapply Hlast; [by apply lookup_app_l_Some|done].
Qed.

Lemma last_index_dom docs id : is_Some (last_index docs !! id) ↔ id ∈ DocID <$> docs.
Proof.
  unfold last_index. revert id. induction docs as [|d docs IH] using rev_ind; intros id.
  { simpl. rewrite lookup_empty. split; [by intros [? ?]|]. intros H. by apply elem_of_nil in H. }
  rewrite imap_app, fold_left_app, fmap_app, elem_of_app. simpl.
  rewrite list_elem_of_singleton. destruct (decide (DocID d = id)) as [<-|Hne].
  - rewrite lookup_insert_eq. naive_solver.
  - rewrite lookup_insert_ne, IH by done. naive_solver.
Qed.

Lemma last_index_nodup docs : size (last_index docs) = length docs → NoDup (DocID <$> docs).
Proof.
  intros Hs.
  assert (dom (last_index docs) = list_to_set (DocID <$> docs)) as Hdom.
  { apply set_eq. intros id. by rewrite elem_of_dom, elem_of_list_to_set, last_index_dom. }
  rewrite <-size_dom, Hdom in Hs. clear Hdom. induction docs as [|d docs IH]; [constructor|].
  rewrite fmap_cons in Hs |- *. cbn [list_to_set length] in Hs.
  pose proof (size_union_ids {[DocID d]} (list_to_set (DocID <$> docs))) as Hu.
  rewrite size_singleton in Hu.
  assert (∀ l : list string, size (list_to_set l : gset string) ≤ length l) as Hle.
  { induction l as [|a l IHl]; [done|]. simpl.
    pose proof (size_union_ids {[a]} (list_to_set l)) as H. rewrite size_singleton in H.
    pose proof (subseteq_size (list_to_set l ∖ {[a]} : gset string) (list_to_set l)
      ltac:(set_solver)). lia. }
  specialize (Hle (DocID <$> docs)). rewrite length_fmap in Hle.
  pose proof (subseteq_size (list_to_set (DocID <$> docs) ∖ {[DocID d]} : gset string)
    (list_to_set (DocID <$> docs)) ltac:(set_solver)) as Hsub.
  constructor; [|apply IH; lia]. intros Hin.
  assert (size (list_to_set (DocID <$> docs) ∖ {[DocID d]} : gset string)
          < size (list_to_set (DocID <$> docs) : gset string)); [|lia].
  apply subset_size. split; [set_solver|]. intros Hsup.
  assert (DocID d ∈ (list_to_set (DocID <$> docs) : gset string)) by (by apply elem_of_list_to_set).
  set_solver.
Qed.

Lemma nodup_is_last docs i d :
  NoDup (DocID <$> docs) → docs !! i = Some d → is_last docs i (DocID d).
Proof.
  intros Hnd Hi. split; [by exists d|]. intros j e Hj He.
  enough (j = i) by lia. eapply NoDup_lookup; [done|..];
    rewrite list_lookup_fmap; [by rewrite Hj|by rewrite Hi, He].
Qed.

Lemma is_last_unique docs i j id : is_last docs i id → is_last docs j id → i = j.
Proof.
  intros [(d & Hd & Hi) Hil] [(e & He & Hj) Hjl].
  specialize (Hil j e He Hj). specialize (Hjl i d Hd Hi). lia.
Qed.

Lemma elem_of_dedupe docs d :
  d ∈ dedupeDocsByID docs ↔ ∃ i, docs !! i = Some d ∧ is_last docs i (DocID d).
Proof.
  unfold dedupeDocsByID. cbv zeta. case_decide as Hs.
  - apply last_index_nodup in Hs. rewrite list_elem_of_lookup. split.
    + intros [i Hi]. exists i. split; [done|]. by apply nodup_is_last.
    + intros (i & Hi & _). by exists i.
  - rewrite list_elem_of_omap. split.
    + intros ([i e] & Hin & Hc). apply elem_of_lookup_imap in Hin as (j & e' & [= <- <-] & Hj).
      case_decide as Hl; [|done]. injection Hc as <-. exists i. by rewrite <-last_index_spec.
    + intros (i & Hi & Hl). exists (i, d). split; [apply elem_of_lookup_imap; by exists i, d|].
      by rewrite decide_True by (by apply last_index_spec).
Qed.

Lemma dedupe_sublist_ids docs (l : list Document) k :
  (∀ i d, l !! i = Some d → docs !! (k + i) = Some d) →
  NoDup (DocID <$> omap (λ '(i, d),
    if decide (last_index docs !! DocID d = Some i) then Some d else None)
      (imap (λ i d, (k + i, d)) l)) ∧
  omap (λ '(i, d), if decide (last_index docs !! DocID d = Some i) then Some d else None)
      (imap (λ i d, (k + i, d)) l) `sublist_of` l.
Proof.
  revert k. induction l as [|d l IH]; intros k Hl; [split; constructor|].
  rewrite imap_cons. cbn [omap list_omap].
  assert (imap ((λ (i : nat) (d0 : Document), (k + i, d0)) ∘ S) l
          = imap (λ i d0, (S k + i, d0)) l) as ->
    by (apply imap_ext; intros; simpl; f_equal; lia).
  destruct (IH (S k)) as [Hnd Hsub].
  { intros i e He. rewrite <-(Hl (S i) e He). f_equal. lia. }
  rewrite Nat.add_0_r. case_decide as Hd; [|by split; [|apply sublist_cons]].
  split; [|by apply sublist_skip]. rewrite fmap_cons. constructor; [|done].
  intros Hin. apply list_elem_of_fmap in Hin as (e & Heq & He).
  apply list_elem_of_omap in He as ([j e'] & Hj & Hc).
  apply elem_of_lookup_imap in Hj as (i & e'' & [= -> ->] & Hi).
  case_decide as Hl'; [|done]. injection Hc as ->. rewrite <-Heq, Hd in Hl'. injection Hl'. lia.
Qed.

Lemma dedupe_nodup docs :
  NoDup (DocID <$> dedupeDocsByID docs) ∧ dedupeDocsByID docs `sublist_of` docs.
Proof.
  unfold dedupeDocsByID. cbv zeta. case_decide as Hs; [by split; [apply last_index_nodup|]|].
  apply (dedupe_sublist_ids docs docs 0). done.
Qed.

Lemma dedupe_ids docs id : id ∈ DocID <$> dedupeDocsByID docs ↔ id ∈ DocID <$> docs.
Proof.
  rewrite <-(last_index_dom docs). rewrite list_elem_of_fmap. split.
  - intros (d & -> & Hd). apply elem_of_dedupe in Hd as (i & _ & Hl).
    apply last_index_spec in Hl. by rewrite Hl.
  - intros [i Hi]. apply last_index_spec in Hi as Hl. pose proof Hl as [(d & Hd & <-) _].
    exists d. split; [done|]. apply elem_of_dedupe. by exists i.
Qed.

(** A build batch is reduced to one document per id, the last of each, in the
    order of the survivors, and every id of the batch survives. *)
Theorem dedupe_keeps_last (docs : list Document) :
  NoDup (DocID <$> dedupeDocsByID docs) ∧
  dedupeDocsByID docs `sublist_of` docs ∧
  (∀ id, id ∈ DocID <$> dedupeDocsByID docs ↔ id ∈ DocID <$> docs) ∧
  ∀ d, d ∈ dedupeDocsByID docs ↔
    ∃ before after, docs = before ++ d :: after ∧ DocID d ∉ DocID <$> after.
Proof.
  destruct (dedupe_nodup docs) as [Hnd Hsub].
  split_and!; [done|done|apply dedupe_ids|]. intros d. rewrite elem_of_dedupe. split.
  - intros (i & Hi & _ & Hlast). exists (take i docs), (drop (S i) docs).
    split; [by rewrite take_drop_middle|]. intros (e & He & Hin)%list_elem_of_fmap.
    apply list_elem_of_lookup in Hin as [j Hj]. rewrite lookup_drop in Hj.
    specialize (Hlast _ _ Hj (eq_sym He)). lia.
  - intros (before & after & -> & Hafter). exists (length before).
    split; [by rewrite list_lookup_middle|]. split; [exists d; by rewrite list_lookup_middle|].
    intros j e Hj He. destruct (decide (j ≤ length before)); [done|]. exfalso. apply Hafter.
    apply list_elem_of_fmap. exists e. split; [done|].
    rewrite cons_middle, app_assoc in Hj. rewrite lookup_app_r in Hj
      by (rewrite length_app; simpl; lia). by eapply list_elem_of_lookup_2.
Qed.

Example dedupe_last_of_each :
  DocID <$> dedupeDocsByID [mkDoc "a" ∅ [] ""; mkDoc "b" ∅ [] ""; mkDoc "a" ∅ [] "f"]
  = ["b"; "a"].
Proof. vm_compute. reflexivity. Qed.

(** ** A reference implementation of the interface *)

Module TableFormat.

(** A segment is its rows: a document id and its content field.  A string is written
    as its characters, each after a one byte, and closed by a zero byte. *)
Definition row : Type := string * string.
Definition table : Type := list row.

Fixpoint put_string (s : list ascii) : bytes :=
  match s with
  | [] => [Ascii.zero]
  | c :: s => Ascii.one :: c :: put_string s
  end.

Definition put_row (r : row) : bytes := put_string (id_bytes r.1) ++ put_string (id_bytes r.2).
Definition put_table (t : table) : bytes := concat (put_row <$> t).

Fixpoint get_string (fuel : nat) (b : bytes) : option (list ascii * bytes) :=
  match fuel with
  | O => None
  | S fuel =>
      match b with
      | [] => None
      | m :: b =>
          if decide (m = Ascii.zero) then Some ([], b)
          else if decide (m = Ascii.one) then
            match b with
            | [] => None
            | c :: b => '(s, b) ← get_string fuel b; Some (c :: s, b)
            end
          else None
      end
  end.

Fixpoint get_table (fuel : nat) (b : bytes) : option table :=
  match fuel with
  | O => None
  | S fuel =>
      match b with
      | [] => Some []
      | _ =>
          '(i, b) ← get_string (length b) b;
          '(c, b) ← get_string (length b) b;
          t ← get_table fuel b;
          Some ((String.string_of_list_ascii i, String.string_of_list_ascii c) :: t)
      end
  end.

(** Later rows replace earlier ones of the same id. *)
Fixpoint keep_last (t : table) : table :=
  match t with
  | [] => []
  | r :: t => if decide (r.1 ∈ t.*1) then keep_last t else r :: keep_last t
  end.

Definition doc_row (d : Document) : row := (DocID d, default "" (Fields d !! "content")).

Definition merge_rows (segs : list (table * (string → bool))) : table :=
  keep_last (concat ((λ '(t, acc), filter (λ r : row, acc r.1 = true) t) <$> segs)).

Lemma stats_agree (ts : list table) (t : table) : S (length ts) = length (ts ++ [t]).
Proof. rewrite length_app. simpl. lia. Qed.

#[export] Instance table_stats : SegmentStats table nat := {
  AggregateStats ts := length ts;
  AppendStats n _ := S n;
  AppendStats_agrees := stats_agree
}.

(** A query is a content to match; the empty query matches every row. *)
#[export] Instance table_format : SegmentFormat table nat string := {
  FormatName := "table";
  Build docs := (∅, Ok (keep_last (doc_row <$> docs)));
  Decode b := match get_table (S (length b)) b with Some t => Ok t | None => Err (Refused "table") end;
  MergeTo segs := Ok (put_table (merge_rows segs));
  ValidateSegment _ b := match get_table (S (length b)) b with Some _ => None
                         | None => Some (Corrupt false "" "table") end;
  SearchSegment t q _ k acc :=
    Ok ((λ r : row, mkHit r.1 one) <$>
      take (Z.to_nat k) (filter (λ r : row, acc r.1 = true ∧ (q = "" ∨ r.2 = q)) t));
  IDs t := Ok t.*1;
  Encode t := Ok (put_table t)
}.

Lemma get_put_string s b fuel :
  length (put_string s ++ b) ≤ fuel → get_string fuel (put_string s ++ b) = Some (s, b).
Proof.
  revert fuel. induction s as [|c s IH]; intros fuel Hf.
  - destruct fuel as [|fuel]; [simpl in Hf; lia|]. done.
  - destruct fuel as [|fuel]; [simpl in Hf; lia|]. cbn [put_string app get_string].
    rewrite decide_False, decide_True by done. rewrite IH; [done|]. simpl in Hf. lia.
Qed.

Lemma put_string_nonempty s : put_string s ≠ [].
Proof. by destruct s. Qed.

Lemma get_put_table t fuel :
  length t < fuel → get_table fuel (put_table t) = Some t.
Proof.
  revert fuel. induction t as [|[i c] t IH]; intros [|fuel] Hf; try (simpl in Hf; lia); [done|].
  unfold put_table. rewrite fmap_cons. cbn [concat get_table]. fold (put_table t).
  unfold put_row. cbn [fst snd]. rewrite <-!app_assoc.
  destruct (put_string (id_bytes i) ++ _) eqn:Hb.
  { apply app_eq_nil in Hb as [Hb _]. by apply put_string_nonempty in Hb. }
  rewrite <-Hb. rewrite get_put_string by done. cbn [mbind option_bind].
  rewrite get_put_string by done. cbn [mbind option_bind].
  rewrite IH by (simpl in Hf; lia). cbn [mbind option_bind]. unfold id_bytes.
  by rewrite !String.string_of_list_ascii_of_string.
Qed.

Lemma length_put_string s : 1 ≤ length (put_string s).
Proof. destruct s; simpl; lia. Qed.

Lemma length_put_table t : 2 * length t ≤ length (put_table t).
Proof.
  induction t as [|[i c] t IH]; [done|]. unfold put_table. rewrite fmap_cons. cbn [concat].
  fold (put_table t). unfold put_row. cbn [fst snd]. rewrite !length_app.
  pose proof (length_put_string (id_bytes i)). pose proof (length_put_string (id_bytes c)).
  simpl. lia.
Qed.

Lemma decode_put_table t : Decode (put_table t) = Ok t.
Proof.
  cbn [Decode table_format]. rewrite get_put_table; [done|].
  pose proof (length_put_table t). lia.
Qed.

Lemma get_string_put fuel b s b' : get_string fuel b = Some (s, b') → b = put_string s ++ b'.
Proof.
  revert b s b'. induction fuel as [|fuel IH]; intros b s b'; [done|].
  cbn [get_string]. destruct b as [|m b]; [done|]. case_decide as Hz.
  { intros [= <- <-]. by subst. }
  case_decide as Ho; [|done]. destruct b as [|c b]; [done|].
  destruct (get_string fuel b) as [[s0 b0]|] eqn:Hg; simpl; [|done].
  intros [= <- <-]. apply IH in Hg. by subst.
Qed.

Lemma get_table_put fuel b t : get_table fuel b = Some t → b = put_table t.
Proof.
  revert b t. induction fuel as [|fuel IH]; intros b t; [done|].
  cbn [get_table]. destruct b as [|m b]; [by intros [= <-]|].
  destruct (get_string _ (m :: b)) as [[i b1]|] eqn:H1; [|done]. cbn [mbind option_bind].
  destruct (get_string _ b1) as [[c b2]|] eqn:H2; [|done]. cbn [mbind option_bind].
  destruct (get_table fuel b2) as [t0|] eqn:H3; [|done]. cbn [mbind option_bind].
  intros [= <-]. apply get_string_put in H1, H2. apply IH in H3.
  unfold put_table. rewrite fmap_cons. cbn [concat]. fold (put_table t0).
  unfold put_row, id_bytes. cbn [fst snd].
  rewrite !String.list_ascii_of_string_of_list_ascii. rewrite <-app_assoc. by rewrite <-H3, <-H2, <-H1.
Qed.

Lemma keep_last_ids t id : id ∈ (keep_last t).*1 ↔ id ∈ t.*1.
Proof.
  induction t as [|r t IH]; [done|]. simpl. case_decide as Hin.
  - rewrite IH, elem_of_cons. naive_solver.
  - rewrite fmap_cons, !elem_of_cons, IH. done.
Qed.

Lemma doc_row_ids docs : (doc_row <$> docs).*1 = DocID <$> docs.
Proof. by rewrite <-list_fmap_compose. Qed.

Lemma keep_last_rows docs id :
  id ∈ (keep_last (doc_row <$> docs)).*1 ↔ ∃ d, d ∈ docs ∧ true = true ∧ DocID d = id.
Proof. rewrite keep_last_ids, doc_row_ids, list_elem_of_fmap. naive_solver. Qed.

#[export] Instance table_build : BuildLaws table nat string.
Proof.
  refine {| indexable := λ _, true |}.
  - intros docs rep p id [= <- <-]. apply keep_last_rows.
  - intros docs p d [= <-] _ Hd _. apply keep_last_rows. by exists d.
Defined.

#[export] Instance table_codec : CodecLaws table nat string.
Proof. split. intros p b [= <-]. apply decode_put_table. Qed.

#[export] Instance table_merge : MergeLaws table nat string.
Proof.
  split. intros segs b p id [= <-]. rewrite decode_put_table. intros [= <-] _. cbn [ids_of IDs table_format].
  unfold merge_rows. rewrite keep_last_ids, list_elem_of_fmap. split.
  - intros (r & -> & Hr). apply list_elem_of_In, in_concat in Hr as (rows & Hrows & Hr).
    apply list_elem_of_In, list_elem_of_fmap in Hrows as ([t acc] & -> & Ht).
    apply list_elem_of_In, list_elem_of_filter in Hr as [Hacc Hr].
    exists t, acc. split_and!; [done| |done]. apply list_elem_of_fmap. by exists r.
  - intros (t & acc & Ht & Hid & Hacc). apply list_elem_of_fmap in Hid as (r & -> & Hr).
    exists r. split; [done|]. apply list_elem_of_In, in_concat.
    exists (filter (λ r : row, acc r.1 = true) t). split; apply list_elem_of_In.
    + apply list_elem_of_fmap. by exists (t, acc).
    + by apply list_elem_of_filter.
Qed.

#[export] Instance table_search : SearchLaws table nat string.
Proof.
  split. intros p q st k acc hits h [= <-] Hh. apply list_elem_of_fmap in Hh as (r & -> & Hr).
  apply elem_of_take in Hr as (i & Hr & _). apply list_elem_of_lookup_2 in Hr.
  by apply list_elem_of_filter in Hr as [[Hacc _] _].
Qed.

End TableFormat.
