(* ===== verification/Utf8.v ===== *)
(** * UTF-8 and case mapping, as the sources use them ([unicode/utf8], [unicode],
    [strings.ToLower])

    Decoding and encoding of runes, byte by byte: any bytes are a sequence of runes, an
    invalid byte being [RuneError] of width one.  The tables of [unicode] are the class
    [Unicode]; [UnicodeAscii] is what they say of ASCII. *)

From Stdlib Require Import Ascii.
From S2P Require Import Prelude Supersession.

Local Open Scope Z_scope.

Definition byte_z (c : ascii) : Z := Z.of_N (N_of_ascii c).
Definition z_byte (z : Z) : ascii := ascii_of_N (Z.to_N z).

Lemma byte_z_range c : 0 ≤ byte_z c < 256.
Proof. unfold byte_z. pose proof (N_ascii_bounded c). lia. Qed.

Lemma byte_z_byte z : 0 ≤ z < 256 → byte_z (z_byte z) = z.
Proof. intros Hz. unfold byte_z, z_byte. rewrite N_ascii_embedding; lia. Qed.

Lemma z_byte_z c : z_byte (byte_z c) = c.
Proof. unfold byte_z, z_byte. by rewrite N2Z.id, ascii_N_embedding. Qed.

(** ** [utf8.DecodeRuneInString] and [utf8.AppendRune] *)

Definition RuneError : Z := 65533.

(** What a first byte announces: the width, and the range of the second byte. *)
Definition lead (x : Z) : option (nat * (Z * Z)) :=
  if x <? 194 then None
  else if x <=? 223 then Some (2%nat, (128, 191))
  else if x =? 224 then Some (3%nat, (160, 191))
  else if x =? 237 then Some (3%nat, (128, 159))
  else if x <=? 239 then Some (3%nat, (128, 191))
  else if x =? 240 then Some (4%nat, (144, 191))
  else if x <=? 243 then Some (4%nat, (128, 191))
  else if x =? 244 then Some (4%nat, (128, 143))
  else None.

(** The low six bits of the byte at [k], if it is there and in range. *)
Definition cont (b : list ascii) (k : nat) (range : Z * Z) : option Z :=
  c ← b !! k;
  if (range.1 <=? byte_z c) && (byte_z c <=? range.2) then Some (Z.land (byte_z c) 63) else None.

Definition any_cont : Z * Z := (128, 191).

Definition multibyte (b : list ascii) (x : Z) : option (Z * nat) :=
  '(n, range) ← lead x;
  y ← cont b 1 range;
  if decide (n = 2%nat) then Some (Z.lor (Z.shiftl (Z.land x 31) 6) y, 2%nat)
  else
    z ← cont b 2 any_cont;
    if decide (n = 3%nat) then Some (Z.lor (Z.lor (Z.shiftl (Z.land x 15) 12) (Z.shiftl y 6)) z, 3%nat)
    else
      w ← cont b 3 any_cont;
      Some (Z.lor (Z.lor (Z.lor (Z.shiftl (Z.land x 7) 18) (Z.shiftl y 12)) (Z.shiftl z 6)) w, 4%nat).

Definition DecodeRune (b : list ascii) : Z * nat :=
  match b with
  | [] => (RuneError, 0%nat)
  | c :: _ =>
      let x := byte_z c in
      if x <? 128 then (x, 1%nat) else default (RuneError, 1%nat) (multibyte b x)
  end.

Definition AppendRune (r : Z) : list ascii :=
  let tail s := z_byte (Z.lor 128 (Z.land (Z.shiftr r s) 63)) in
  if (0 <=? r) && (r <=? 127) then [z_byte r]
  else if (0 <=? r) && (r <=? 2047) then [z_byte (Z.lor 192 (Z.shiftr r 6)); tail 0]
  else if (r <? 0) || (1114111 <? r) || ((55296 <=? r) && (r <=? 57343))
  then z_byte <$> [239; 191; 189]
  else if r <=? 65535 then [z_byte (Z.lor 224 (Z.shiftr r 12)); tail 6; tail 0]
  else [z_byte (Z.lor 240 (Z.shiftr r 18)); tail 12; tail 6; tail 0].

Lemma length_AppendRune r : (1 ≤ length (AppendRune r) ≤ 4)%nat.
Proof. unfold AppendRune. repeat case_match; cbn; lia. Qed.

(** ** The width of a rune *)

Lemma multibyte_width b x r n : multibyte b x = Some (r, n) → (2 ≤ n ≤ 4)%nat ∧ (n ≤ length b)%nat.
Proof.
  unfold multibyte, cont. intros H.
  repeat (case_match || (apply bind_Some in H as (? & ? & H))); simplify_option_eq;
    repeat match goal with Hl : b !! _ = Some _ |- _ => apply lookup_lt_Some in Hl end; lia.
Qed.

Lemma DecodeRune_width b : b ≠ [] → (1 ≤ (DecodeRune b).2 ≤ 4)%nat ∧ ((DecodeRune b).2 ≤ length b)%nat.
Proof.
  intros Hb. unfold DecodeRune. destruct b as [|c b]; [done|]. set (l := c :: b).
  assert (1 ≤ length l)%nat by (unfold l; cbn; lia).
  destruct (_ <? 128); [cbn [snd]; lia|].
  destruct (multibyte _ _) as [[r n]|] eqn:Hm; cbn [default from_option id snd]; [|lia].
  apply multibyte_width in Hm. lia.
Qed.

Lemma cont_take b n k range : cont (take n b) k range = if decide (k < n)%nat then cont b k range else None.
Proof.
  unfold cont. case_decide; [by rewrite lookup_take_lt by lia|]. by rewrite lookup_take_ge by lia.
Qed.

(** A cut that leaves the first rune whole does not change it. *)
Lemma DecodeRune_take b n : (1 ≤ n)%nat → ((DecodeRune b).2 ≤ n)%nat → DecodeRune (take n b) = DecodeRune b.
Proof.
  intros Hn. destruct b as [|c b]; [by rewrite take_nil|]. destruct n as [|n]; [lia|].
  unfold DecodeRune. cbn [take]. destruct (_ <? 128); [done|]. change (c :: take n b) with (take (S n) (c :: b)).
  set (l := c :: b). clearbody l. unfold multibyte. destruct (lead _) as [[w range]|]; [|done]. cbn [mbind option_bind].
  rewrite !cont_take. destruct (cont l 1 range) as [y|] eqn:H1; cbn [mbind option_bind]; [|by destruct (decide (1 < S n)%nat)].
  destruct (decide (w = 2%nat)).
  { cbn. intros. by rewrite decide_True by lia. }
  destruct (cont l 2 any_cont) as [z|] eqn:H2; cbn [mbind option_bind];
    [|by destruct (decide (1 < S n)%nat), (decide (2 < S n)%nat)].
  destruct (decide (w = 3%nat)).
  { cbn. intros. by rewrite !decide_True by lia. }
  destruct (cont l 3 any_cont) as [v|] eqn:H3; cbn [mbind option_bind default from_option id snd];
    [|by destruct (decide (1 < S n)%nat), (decide (2 < S n)%nat), (decide (3 < S n)%nat)].
  intros. by rewrite !decide_True by lia.
Qed.

(** ** The runes of a text *)

(** Each rune with its bytes. *)
Fixpoint runes_loop (fuel : nat) (b : list ascii) : list (Z * list ascii) :=
  match fuel with
  | O => []
  | S fuel =>
      match b with
      | [] => []
      | _ => let '(r, n) := DecodeRune b in (r, take n b) :: runes_loop fuel (drop n b)
      end
  end.

Definition runes (b : list ascii) : list (Z * list ascii) := runes_loop (length b) b.

Lemma runes_loop_enough f1 f2 b : (length b ≤ f1)%nat → (length b ≤ f2)%nat → runes_loop f1 b = runes_loop f2 b.
Proof.
  revert f2 b. induction f1 as [|f1 IH]; intros f2 b H1 H2.
  - destruct b; [by destruct f2|cbn in H1; lia].
  - destruct b as [|c b]; [by destruct f2|]. destruct f2 as [|f2]; [cbn in H2; lia|].
    cbn [runes_loop]. destruct (DecodeRune (c :: b)) as [r n] eqn:Hd.
    destruct (DecodeRune_width (c :: b)) as [Hw _]; [done|]. rewrite Hd in Hw. cbn [snd] in Hw.
    f_equal. apply IH; rewrite length_drop; cbn [length] in *; lia.
Qed.

Lemma runes_nil : runes [] = [].
Proof. reflexivity. Qed.

Lemma runes_cons b : b ≠ [] →
  runes b = ((DecodeRune b).1, take (DecodeRune b).2 b) :: runes (drop (DecodeRune b).2 b).
Proof.
  intros Hb. unfold runes. destruct b as [|c b]; [done|]. cbn [length runes_loop].
  destruct (DecodeRune (c :: b)) as [r n] eqn:Hd. cbn [fst snd]. f_equal.
  destruct (DecodeRune_width (c :: b)) as [Hw _]; [done|]. rewrite Hd in Hw. cbn [snd] in Hw.
  apply runes_loop_enough; rewrite length_drop; cbn [length]; lia.
Qed.

(** The induction that goes rune by rune. *)
Lemma runes_ind (P : list ascii → Prop) :
  P [] → (∀ b, b ≠ [] → P (drop (DecodeRune b).2 b) → P b) → ∀ b, P b.
Proof.
  intros H0 HS. induction b as [b IH] using (induction_ltof1 _ (@length ascii)). unfold ltof in IH.
  destruct b as [|c b]; [done|]. apply HS; [done|]. apply IH. rewrite length_drop.
  destruct (DecodeRune_width (c :: b)) as [Hw _]; [done|]. cbn [length]. lia.
Qed.

Lemma runes_concat b : concat (runes b).*2 = b.
Proof.
  induction b as [|b Hb IH] using runes_ind; [done|]. rewrite runes_cons by done. cbn [fmap list_fmap concat snd].
  rewrite IH. apply take_drop.
Qed.

Lemma runes_width b r v : (r, v) ∈ runes b → (1 ≤ length v ≤ 4)%nat.
Proof.
  induction b as [|b Hb IH] using runes_ind; [by intros ?%elem_of_nil|]. rewrite runes_cons by done.
  intros [[= -> ->]|?]%elem_of_cons; [|by apply IH]. rewrite length_take.
  pose proof (DecodeRune_width b Hb). lia.
Qed.

(** Decoding starts anew at any rune. *)
Lemma runes_split b l1 l2 : runes b = l1 ++ l2 →
  runes (concat l1.*2) = l1 ∧ runes (concat l2.*2) = l2.
Proof.
  revert l1. induction b as [|b Hb IH] using runes_ind; intros l1 Hl.
  { rewrite runes_nil in Hl. symmetry in Hl. by apply app_nil in Hl as [-> ->]. }
  pose proof (runes_concat b) as Hc. destruct l1 as [|[r v] l1].
  { cbn in Hl. rewrite <-Hl, Hc. done. }
  rewrite runes_cons in Hl by done. cbn [app] in Hl. injection Hl as Hr Hv Hl.
  destruct (IH _ Hl) as [H1 H2]. split; [|done].
  destruct (DecodeRune_width b Hb) as [Hw Hle]. set (n := (DecodeRune b).2) in *.
  assert (length v = n) as Hvn by (rewrite <-Hv, length_take; lia).
  cbn [fmap list_fmap concat snd]. set (tl := concat l1.*2) in *.
  assert (v ++ tl = take (n + length tl) b) as E.
  { pose proof (runes_concat (drop n b)) as Hd. rewrite Hl, fmap_app, concat_app in Hd.
    rewrite <-(take_drop n b). rewrite Hv, <-Hd. fold tl.
    rewrite app_assoc, take_app_le by (rewrite length_app; lia). rewrite take_ge; [done|]. rewrite length_app. lia. }
  rewrite E. assert (take (n + length tl) b ≠ []) as Hne.
  { rewrite <-E. destruct v; [cbn in Hvn; lia|done]. }
  rewrite runes_cons by done. rewrite !DecodeRune_take by (fold n; lia). rewrite <-E. fold n.
  rewrite take_app_length' by done. rewrite drop_app_length' by done. by rewrite H1, Hr.
Qed.

(** ASCII bytes are their own runes, and no rune spans them. *)
Definition starts_ascii (b : list ascii) : Prop := match b with [] => True | c :: _ => byte_z c < 128 end.

Lemma cont_ascii a c b k range : byte_z c < 128 → 128 ≤ range.1 → k = length a → cont (a ++ c :: b) k range = None.
Proof.
  intros Hc Hr ->. unfold cont. rewrite lookup_app_r, Nat.sub_diag by done. cbn. rewrite (proj2 (Z.leb_gt _ _)) by lia. done.
Qed.

Lemma lead_range x w range : lead x = Some (w, range) → 128 ≤ range.1.
Proof. unfold lead. intros H. repeat case_match; simplify_eq; cbn; lia. Qed.

Lemma multibyte_ascii a b x r n :
  starts_ascii b → multibyte (a ++ b) x = Some (r, n) → a ≠ [] → (n ≤ length a)%nat.
Proof.
  intros Hb Hm Ha. destruct b as [|c b]; [rewrite app_nil_r in Hm; destruct (multibyte_width _ _ _ _ Hm); lia|].
  cbn in Hb. destruct (decide (n ≤ length a)%nat) as [|Hn]; [done|exfalso].
  unfold multibyte in Hm. apply bind_Some in Hm as ([w range] & Hl & Hm). apply lead_range in Hl.
  assert (0 < length a)%nat as Ha' by (destruct a; [done|cbn; lia]).
  assert (∀ k rg v, cont (a ++ c :: b) k rg = Some v → 128 ≤ rg.1 → k ≠ length a) as HN.
  { intros k rg v Hk Hrg ->. rewrite cont_ascii in Hk by done. done. }
  apply bind_Some in Hm as (y & H1 & Hm). apply HN in H1; [|done]. case_decide; [simplify_eq; lia|].
  apply bind_Some in Hm as (z & H2 & Hm). apply HN in H2; [|done]. case_decide; [simplify_eq; lia|].
  apply bind_Some in Hm as (v & H3 & Hm). apply HN in H3; [|done]. simplify_eq. lia.
Qed.

Lemma DecodeRune_app a b : a ≠ [] → starts_ascii b → DecodeRune (a ++ b) = DecodeRune a.
Proof.
  intros Ha Hb. rewrite <-(DecodeRune_take (a ++ b) (length a)), take_app_length; [done| |].
  - destruct a; [done|cbn; lia].
  - destruct a as [|c a]; [done|]. unfold DecodeRune. cbn [app]. destruct (_ <? 128); [cbn; lia|].
    destruct (multibyte (c :: a ++ b) _) as [[r n]|] eqn:Hm; cbn [default from_option id snd]; [|cbn; lia].
    change (c :: a ++ b) with ((c :: a) ++ b) in Hm. by eapply multibyte_ascii.
Qed.

Lemma runes_app a b : starts_ascii b → runes (a ++ b) = runes a ++ runes b.
Proof.
  intros Hb. induction a as [|a Ha IH] using runes_ind; [done|].
  rewrite (runes_cons (a ++ b)) by (by destruct a). rewrite DecodeRune_app by done.
  destruct (DecodeRune_width a Ha) as [_ Hw]. rewrite take_app_le, drop_app_le by done.
  rewrite IH, (runes_cons a) by done. done.
Qed.

(** A cut between runes. *)
Definition clean (a b : list ascii) : Prop := runes (a ++ b) = runes a ++ runes b.

Lemma runes_ascii_cons c b : byte_z c < 128 → runes (c :: b) = (byte_z c, [c]) :: runes b.
Proof.
  intros Hc. rewrite runes_cons by done. unfold DecodeRune. by rewrite (proj2 (Z.ltb_lt _ _)) by done.
Qed.

Lemma clean_before a b : starts_ascii b → clean a b.
Proof. apply runes_app. Qed.

Lemma clean_after a c b : byte_z c < 128 → clean (a ++ [c]) b.
Proof.
  intros Hc. unfold clean. rewrite <-(app_assoc a [c] b). cbn [app]. rewrite !(runes_app a), !runes_ascii_cons by done.
  by rewrite runes_nil, <-app_assoc.
Qed.

Lemma clean_nil a : clean [] a.
Proof. done. Qed.

Lemma runes_ascii b : Forall (λ c, byte_z c < 128) b → runes b = (λ c, (byte_z c, [c])) <$> b.
Proof.
  induction 1 as [|c b Hc _ IH]; [done|]. by rewrite runes_ascii_cons, IH by done.
Qed.

(** ** Case mapping *)

Class Unicode := {
  IsLetter : Z → bool;
  IsDigit : Z → bool;
  rune_ToLower : Z → Z
}.

(** What the tables say of ASCII. *)
Class UnicodeAscii `{Unicode} : Prop := {
  IsLetter_ascii r : 0 ≤ r < 128 → IsLetter r = (65 <=? r) && (r <=? 90) || (97 <=? r) && (r <=? 122);
  IsDigit_ascii r : 0 ≤ r < 128 → IsDigit r = (48 <=? r) && (r <=? 57);
  ToLower_ascii r : 0 ≤ r < 128 → rune_ToLower r = if (65 <=? r) && (r <=? 90) then r + 32 else r
}.

Section Lower.
Context `{Unicode}.

(** [strings.Map] drops what is mapped below zero. *)
Definition lower_rune (r : Z) : list ascii := let r' := rune_ToLower r in if r' <? 0 then [] else AppendRune r'.

(** [strings.Map(unicode.ToLower, s)]: an invalid byte becomes the encoding of
    [RuneError]'s image. *)
Definition map_lower (b : list ascii) : list ascii := mjoin (lower_rune ∘ fst <$> runes b).

Lemma lower_rune_width r : (length (lower_rune r) ≤ 4)%nat.
Proof. unfold lower_rune. case_match; [cbn; lia|]. apply length_AppendRune. Qed.

Lemma map_lower_app a b : clean a b → map_lower (a ++ b) = map_lower a ++ map_lower b.
Proof. intros Hb. unfold map_lower. rewrite Hb, fmap_app. apply join_app. Qed.

Lemma map_lower_cons b : b ≠ [] →
  map_lower b = lower_rune (DecodeRune b).1 ++ map_lower (drop (DecodeRune b).2 b).
Proof. intros Hb. unfold map_lower. by rewrite runes_cons by done. Qed.

Lemma length_map_lower b : (length (map_lower b) ≤ 4 * length b)%nat.
Proof.
  induction b as [|b Hb IH] using runes_ind; [done|].
  rewrite map_lower_cons, length_app by done. pose proof (lower_rune_width (DecodeRune b).1).
  destruct (DecodeRune_width b Hb) as [Hw Hle]. rewrite length_drop in IH. lia.
Qed.

(** *** Texts no rune of which moves the others back, or none forward *)

Definition grows (x : Z * list ascii) : Prop := (length x.2 ≤ length (lower_rune x.1))%nat.
Definition shrinks (x : Z * list ascii) : Prop := (length (lower_rune x.1) ≤ length x.2)%nat.

Definition level (b : list ascii) : Prop := Forall grows (runes b) ∨ Forall shrinks (runes b).

#[export] Instance level_dec b : Decision (level b).
Proof. unfold level, grows, shrinks. apply _. Defined.

Lemma level_app a b : clean a b → level (a ++ b) → level a ∧ level b.
Proof. unfold level. intros Hb. rewrite Hb, !Forall_app. tauto. Qed.

Lemma lowered_length (l : list (Z * list ascii)) :
  (Forall grows l → (length (concat l.*2) ≤ length (mjoin (lower_rune ∘ fst <$> l)))%nat) ∧
  (Forall shrinks l → (length (mjoin (lower_rune ∘ fst <$> l)) ≤ length (concat l.*2))%nat).
Proof.
  induction l as [|x l [IHg IHs]]; [done|].
  change (mjoin (lower_rune ∘ fst <$> x :: l)) with (lower_rune x.1 ++ mjoin (lower_rune ∘ fst <$> l)).
  change (concat (x :: l).*2) with (x.2 ++ concat l.*2). rewrite !length_app, !Forall_cons. unfold grows, shrinks in *.
  split; intros [? H']; [specialize (IHg H')|specialize (IHs H')]; lia.
Qed.

Lemma level_length b : (Forall grows (runes b) → (length b ≤ length (map_lower b))%nat) ∧
  (Forall shrinks (runes b) → (length (map_lower b) ≤ length b)%nat).
Proof. pose proof (lowered_length (runes b)) as Hl. by rewrite runes_concat in Hl. Qed.

(** In such a text, if lowering keeps the length of the whole, it keeps that of each part. *)
Lemma level_parts a b : clean a b → level (a ++ b) → length (map_lower (a ++ b)) = length (a ++ b) →
  length (map_lower a) = length a ∧ length (map_lower b) = length b.
Proof.
  intros Hb Hl. rewrite map_lower_app, !length_app by done. destruct Hl as [Hl|Hl]; rewrite Hb, Forall_app in Hl;
    destruct Hl as [H1 H2].
  - pose proof (level_length a) as [Hx _]. pose proof (level_length b) as [Hy _]. specialize (Hx H1). specialize (Hy H2). lia.
  - pose proof (level_length a) as [_ Hx]. pose proof (level_length b) as [_ Hy]. specialize (Hx H1). specialize (Hy H2). lia.
Qed.

(** So the part is found in the lowered whole where it was in the whole. *)
Lemma level_slice a p b : clean a (p ++ b) → clean p b → level (a ++ p ++ b) →
  length (map_lower (a ++ p ++ b)) = length (a ++ p ++ b) →
  take (length p) (drop (length a) (map_lower (a ++ p ++ b))) = map_lower p.
Proof.
  intros H1 H2 Hl Hlen. destruct (level_parts _ _ H1 Hl Hlen) as [Ha Hpb].
  destruct (level_parts _ _ H2 (proj2 (level_app _ _ H1 Hl)) Hpb) as [Hp _].
  rewrite !map_lower_app by done. rewrite drop_app_length' by done. by rewrite take_app_length' by done.
Qed.
End Lower.
