(* ===== verification/Bm25Layout.v ===== *)
(** * The bm25 segment layout ([formats/bm25/serial_v2.go], [serial_v2_dict.go])

    The constants of the offset-addressed blob, the arithmetic its writers share, and
    typed reads and writes of little-endian fields.  An offset is a Go [int], here a [Z]:
    every one is built from unsigned 32-bit fields and sizes, so none overflows. *)

From Stdlib Require Import Ascii.
From S2P Require Import Prelude Supersession.

Local Open Scope Z_scope.

Definition serialVersion : Z := 2.

(** Dictionary encodings. *)
Definition dictFlat : Z := 0.
Definition dictBlocked : Z := 1.
Definition dictHash : Z := 2.
Definition defaultDictKind : Z := dictBlocked.

(** Fixed layout sizes. *)
Definition v2HeaderSize : Z := 32.
Definition v2FieldEntrySize : Z := 48.
Definition v2FlatEntrySize : Z := 16.
Definition v2HashSlotSize : Z := 8.
Definition v2DocFreqRowSize : Z := 16.
Definition blockedBlockTerms : Z := 32.
Definition hashEmptySlot : Z := 2 ^ 32 - 1.

(** Header fields. *)
Definition v2HdrVersion : Z := 0.
Definition v2HdrDictKind : Z := 1.
Definition v2HdrFieldCount : Z := 2.
Definition v2HdrDocCount : Z := 4.
Definition v2HdrMemberOffsets : Z := 8.
Definition v2HdrMemberBytes : Z := 12.
Definition v2HdrFieldTable : Z := 16.
Definition v2HdrDocFreqDict : Z := 20.
Definition v2HdrBlobLen : Z := 24.

(** Field-table entries, from the entry's start. *)
Definition v2FldNameOff : Z := 0.
Definition v2FldNameLen : Z := 4.
Definition v2FldBoost : Z := 8.
Definition v2FldB : Z := 16.
Definition v2FldTotalTokens : Z := 24.
Definition v2FldDocLengths : Z := 32.
Definition v2FldDict : Z := 36.

Definition v2MaxBlobBytes : Z := 2 ^ 32 - 1.

(** [(off + a - 1) &^ (a - 1)] *)
Definition align (off a : Z) : Z := Z.ldiff (off + a - 1) (a - 1).

(** The alignments the layout uses. *)
Definition alignment (a : Z) : Prop := a = 1 ∨ a = 2 ∨ a = 4 ∨ a = 8.

#[export] Instance alignment_dec a : Decision (alignment a).
Proof. unfold alignment. apply _. Defined.

Lemma align_div off a : alignment a → align off a = (off + a - 1) / a * a.
Proof.
  intros Ha. assert (∃ k, 0 ≤ k ∧ a = 2 ^ k) as (k & Hk & ->).
  { destruct Ha as [ -> | [ -> | [ -> | -> ]]]; [by exists 0|by exists 1|by exists 2|by exists 3]. }
  unfold align. replace (2 ^ k - 1) with (Z.ones k) by (rewrite Z.ones_equiv; lia).
  by rewrite Z.ldiff_ones_r, Z.shiftr_div_pow2, Z.shiftl_mul_pow2 by lia.
Qed.

Lemma align_bounds off a : alignment a → off ≤ align off a < off + a.
Proof.
  intros Ha. rewrite align_div by done. assert (0 < a) by (unfold alignment in Ha; lia).
  pose proof (Z.div_mod (off + a - 1) a ltac:(lia)).
  pose proof (Z.mod_pos_bound (off + a - 1) a ltac:(lia)). lia.
Qed.

Lemma align_mod off a : alignment a → align off a mod a = 0.
Proof.
  intros Ha. rewrite align_div by done. unfold alignment in Ha. apply Z.mod_mul. lia.
Qed.

Lemma align_1 off : align off 1 = off.
Proof. pose proof (align_bounds off 1 ltac:(by left)). lia. Qed.

(** ** Bytes *)

Definition blen (b : bytes) : Z := Z.of_nat (length b).

(** [binary.LittleEndian.PutUint16/32/64] of a Go integer: its low bytes. *)
Definition le (w : nat) (v : Z) : bytes := put_le w (Z.to_N (v mod 2 ^ (8 * Z.of_nat w))).

Lemma length_le w v : length (le w v) = w.
Proof. apply length_put_le. Qed.

Lemma blen_nonneg b : 0 ≤ blen b.
Proof. unfold blen. lia. Qed.

(** FNV-1a over the bytes of a term. *)
Definition termHash_step (h : Z) (c : ascii) : Z :=
  (Z.lxor h (Z.of_N (N_of_ascii c)) * 1099511628211) mod 2 ^ 64.

(** FNV-1a, on a uint64. *)
Definition termHash (s : bytes) : Z := fold_left termHash_step s 14695981039346656037.

Lemma termHash_range s : 0 ≤ termHash s < 2 ^ 64.
Proof.
  unfold termHash. assert (0 ≤ 14695981039346656037 < 2 ^ 64) as Hh by lia. revert Hh.
  generalize 14695981039346656037. induction s as [|c s IH]; intros h Hh; [done|].
  cbn [fold_left]. apply IH. unfold termHash_step. apply Z.mod_pos_bound. lia.
Qed.

Fixpoint sharedPrefixLen (a b : bytes) : nat :=
  match a, b with
  | x :: a, y :: b => if decide (x = y) then S (sharedPrefixLen a b) else 0%nat
  | _, _ => 0%nat
  end.

(** [n <<= 1] until it is twice the term count: [fuel] is the number of doublings. *)
Fixpoint hashSlotCount_loop (fuel : nat) (n terms : Z) : Z :=
  match fuel with
  | O => n
  | S fuel => if decide (n < 2 * terms) then hashSlotCount_loop fuel (2 * n) terms else n
  end.
Definition hashSlotCount (terms : Z) : Z := hashSlotCount_loop 64 1 terms.
