(* ===== verification/Bm25Writer.v ===== *)
(** * The coalescing writer of a merged segment ([formats/bm25/merge_writer.go])

    A merge writes its output out of order: rows are patched into a planned prefix, data
    is appended to the tail.  [mergeWriter] holds several open windows of output back and
    writes each to the sink when it fills or is in the way.  The theorem: after the final
    flush the sink holds what the stores wrote, in the order they were made — provided
    that the zeros an append pads a small gap with fall on bytes nobody wrote, which the
    writer does not check.  The windows never outgrow their fixed allocation. *)

From Stdlib Require Import Ascii.
From S2P Require Import Prelude Supersession Bm25Layout.

Local Open Scope Z_scope.

(** ** The destination ([MergeSink], [internal/searchengine/segment.go]) *)

Class MergeSink (F : Type) := {
  WriteAt : F → Z → bytes → result string F;
  byteAt : F → Z → ascii
}.

(** The byte at [x] after [b] is stored at [off] over [old]. *)
Definition put_at (old : Z → ascii) (off : Z) (b : bytes) (x : Z) : ascii :=
  if decide (off ≤ x ∧ x < off + blen b) then default Ascii.zero (b !! Z.to_nat (x - off))
  else old x.

(** [io.WriterAt]: a write that succeeds stores all of its bytes. *)
Class MergeSinkLaws (F : Type) `{MergeSink F} : Prop := {
  WriteAt_stores (f f' : F) off b x :
    WriteAt f off b = Ok f' → byteAt f' x = put_at (byteAt f) off b x
}.

(** A file in memory: it grows as needed, the hole reads as zeros. *)
Definition file_write (f : bytes) (off : Z) (b : bytes) : result string bytes :=
  if decide (off < 0) then Err "negative offset"
  else
    let f := f ++ replicate (Z.to_nat (off + blen b) - length f) Ascii.zero in
    Ok (take (Z.to_nat off) f ++ b ++ drop (Z.to_nat (off + blen b)) f).

#[export] Instance file_sink : MergeSink bytes := {
  WriteAt := file_write;
  byteAt f x := if decide (x < 0) then Ascii.zero else default Ascii.zero (f !! Z.to_nat x)
}.

Lemma lookup_pad (f : bytes) (n i : nat) :
  default Ascii.zero ((f ++ replicate n Ascii.zero) !! i) = default Ascii.zero (f !! i).
Proof.
  destruct (decide (i < length f)%nat).
  - by rewrite lookup_app_l.
  - rewrite lookup_app_r by lia. rewrite (lookup_ge_None_2 f) by lia.
    destruct (replicate n Ascii.zero !! (i - length f)%nat) as [c|] eqn:Hc; [|done].
    by apply lookup_replicate in Hc as [-> _].
Qed.

#[export] Instance file_sink_laws : MergeSinkLaws bytes.
Proof.
  split. intros f f' off b x Hw. cbn [WriteAt file_sink] in Hw. unfold file_write in Hw.
  destruct (decide (off < 0)) as [|Hoff]; [done|]. injection Hw as <-.
  cbn [byteAt file_sink]. unfold put_at, blen, bytes in *.
  set (g := f ++ _).
  assert (length g = Nat.max (length f) (Z.to_nat (off + blen b))) as Hg.
  { unfold g, blen. rewrite length_app, length_replicate. lia. }
  unfold blen in Hg. destruct (decide (x < 0)) as [|Hx]; [by rewrite decide_False by lia|].
  destruct (decide (off ≤ x ∧ x < off + Z.of_nat (length b))) as [Hin|Hout].
  - rewrite lookup_app_r by (rewrite length_take; lia).
    rewrite length_take, lookup_app_l by lia. do 3 f_equal. lia.
  - destruct (decide (x < off)) as [Hlt|Hge].
    + rewrite lookup_app_l by (rewrite length_take; lia). rewrite lookup_take_lt by lia.
      apply lookup_pad.
    + rewrite lookup_app_r by (rewrite length_take; lia).
      rewrite length_take, lookup_app_r by lia. rewrite lookup_drop.
      replace (_ + _)%nat with (Z.to_nat x) by lia. apply lookup_pad.
Qed.

(** ** The writer *)

(** One window: [start] is where the bytes it holds go. *)
Record mergeRun := mkRun { start : Z; buf : bytes; live : bool }.

Definition run_end (r : mergeRun) : Z := start r + blen (buf r).

Definition mergeRunBytes : Z := 8192.
Definition mergeRunSlots : nat := 8.
Definition mergeRunMaxGap : Z := 8.

Inductive writeErr :=
| WriteFailed (n off : Z) (msg : string)
| AppendBelowPrefix (off floor : Z).

(** The reusable buffers [strBuf], [scratch] and the array behind the windows are how the
    code avoids allocation; the windows' bound is [runs_fit]. *)
Record mergeWriter (F : Type) := mkWriter {
  sink : F;
  wtail : Z;
  werr : option writeErr;
  padFloor : Z;
  runs : list mergeRun;
  rr : nat
}.
Arguments mkWriter {F}. Arguments sink {F}. Arguments wtail {F}. Arguments werr {F}.
Arguments padFloor {F}. Arguments runs {F}. Arguments rr {F}.

(** ** What the stores mean: an image of the file, written in order *)

Inductive op :=
| Patch (off : Z) (b : bytes)
| Append (b : bytes) (alignTo : Z).

(** A store made so far; [appended_span] if it was an append. *)
Record span := mkSpan { span_off : Z; span_end : Z; appended_span : bool }.

Record image := mkImage { content : Z → ascii; itail : Z; spans : list span }.

Definition image_step (im : image) (o : op) : image :=
  match o with
  | Patch off b =>
      mkImage (put_at (content im) off b) (itail im)
        (if decide (b = []) then spans im else mkSpan off (off + blen b) false :: spans im)
  | Append b alignTo =>
      let at_ := align (itail im) alignTo in
      mkImage (put_at (content im) at_ b) (at_ + blen b)
        (if decide (b = []) then spans im else mkSpan at_ (at_ + blen b) true :: spans im)
  end.

Definition blank (tail : Z) : image := mkImage (λ _, Ascii.zero) tail [].

(** A patch stays in the planned prefix.  Where an append starts at most a padded gap
    after a patch, nothing was stored in that gap. *)
Definition hole_after (im : image) (at_ : Z) (p : span) : Prop :=
  appended_span p = false → span_end p < at_ → at_ ≤ span_end p + mergeRunMaxGap →
  Forall (λ q, span_end q ≤ span_end p ∨ at_ ≤ span_off q) (spans im).

Definition step_allowed (floor : Z) (im : image) (o : op) : Prop :=
  match o with
  | Patch off b => 0 ≤ off ∧ off + blen b ≤ floor
  | Append b alignTo =>
      alignment alignTo ∧ (b ≠ [] → Forall (hole_after im (align (itail im) alignTo)) (spans im))
  end.

Fixpoint allowed (floor : Z) (im : image) (ops : list op) : Prop :=
  match ops with
  | [] => True
  | o :: ops => step_allowed floor im o ∧ allowed floor (image_step im o) ops
  end.

#[export] Instance hole_after_dec im at_ p : Decision (hole_after im at_ p).
Proof. unfold hole_after. apply _. Defined.

#[export] Instance step_allowed_dec floor im o : Decision (step_allowed floor im o).
Proof. unfold step_allowed. destruct o; apply _. Defined.

#[export] Instance allowed_dec floor im ops : Decision (allowed floor im ops).
Proof. revert im. induction ops; intros im; cbn; apply _. Defined.

Section Writer.
Context {F : Type} `{MergeSink F}.

Definition newMergeWriter (f : F) (tail : Z) : mergeWriter F :=
  mkWriter f tail None tail (replicate mergeRunSlots (mkRun 0 [] false)) 0.

Definition set_runs (w : mergeWriter F) (rs : list mergeRun) : mergeWriter F :=
  mkWriter (sink w) (wtail w) (werr w) (padFloor w) rs (rr w).
Definition set_tail (w : mergeWriter F) (t : Z) : mergeWriter F :=
  mkWriter (sink w) t (werr w) (padFloor w) (runs w) (rr w).
Definition set_err (w : mergeWriter F) (e : writeErr) : mergeWriter F :=
  mkWriter (sink w) (wtail w) (Some e) (padFloor w) (runs w) (rr w).
Definition set_sink (w : mergeWriter F) (f : F) : mergeWriter F :=
  mkWriter f (wtail w) (werr w) (padFloor w) (runs w) (rr w).
Definition set_rr (w : mergeWriter F) (n : nat) : mergeWriter F :=
  mkWriter (sink w) (wtail w) (werr w) (padFloor w) (runs w) n.

(** The only place the writer touches the sink. *)
Definition writeThrough (w : mergeWriter F) (off : Z) (b : bytes) : mergeWriter F :=
  match werr w with
  | Some _ => w
  | None =>
      match WriteAt (sink w) off b with
      | Ok f => set_sink w f
      | Err msg => set_err w (WriteFailed (blen b) off msg)
      end
  end.

(** [w.runs[i]] *)
Definition run_at (w : mergeWriter F) (i : nat) : mergeRun :=
  default (mkRun 0 [] false) (runs w !! i).

Definition flushRun (w : mergeWriter F) (i : nat) : mergeWriter F :=
  let r := run_at w i in
  if decide (buf r = []) then w
  else
    let w := writeThrough w (start r) (buf r) in
    set_runs w (<[i := mkRun (run_end r) [] (live r)]> (runs w)).

Definition slots : list nat := seq 0 mergeRunSlots.

Definition overlaps (r : mergeRun) (off end_ : Z) : bool :=
  bool_decide (buf r ≠ [] ∧ off < run_end r ∧ start r < end_).

Definition flush_where (P : mergeRun → bool) (l : list nat) (w : mergeWriter F) :
    mergeWriter F :=
  fold_left (λ w i, if P (run_at w i) then flushRun w i else w) l w.

Definition flushOverlapping (w : mergeWriter F) (off end_ : Z) : mergeWriter F :=
  flush_where (λ r, overlaps r off end_) slots w.

Definition flushAll (w : mergeWriter F) : mergeWriter F := fold_left flushRun slots w.

(** [copy(buf[at:], b)] for [b] within [buf]. *)
Definition overwrite (buf : bytes) (at_ : nat) (b : bytes) : bytes :=
  take at_ buf ++ b ++ drop (at_ + length b) buf.

Definition overwritten (r : mergeRun) (off : Z) (b : bytes) : mergeRun :=
  mkRun (start r) (overwrite (buf r) (Z.to_nat (off - start r)) b) (live r).

(** The first window that holds all of the range. *)
Definition covers (r : mergeRun) (off end_ : Z) : bool :=
  bool_decide (buf r ≠ [] ∧ start r ≤ off ∧ end_ ≤ run_end r).
(** The first window the store extends, across a small gap if it may pad one. *)
Definition extends (r : mergeRun) (off : Z) (mayPad : bool) : bool :=
  let gap := off - run_end r in
  live r && bool_decide (0 ≤ gap ∧ gap ≤ mergeRunMaxGap) && (bool_decide (gap ≤ 0) || mayPad).

Definition first_slot (P : mergeRun → bool) (w : mergeWriter F) : option nat :=
  fst <$> list_find (λ i, P (run_at w i) = true) slots.

(** The window is written out first if the store does not fit behind what it holds, and
    so is every other window in the range about to be covered. *)
Definition make_room (w : mergeWriter F) (i : nat) (off : Z) (b : bytes) : mergeWriter F :=
  let r := run_at w i in
  let w := if decide (mergeRunBytes < blen (buf r) + (off - run_end r) + blen b)
           then flushRun w i else w in
  flushOverlapping w (run_end (run_at w i)) (off + blen b).

(** The gap is filled with zeros. *)
Definition appended (r : mergeRun) (off : Z) (b : bytes) : mergeRun :=
  mkRun (start r) (buf r ++ replicate (Z.to_nat (off - run_end r)) Ascii.zero ++ b) (live r).

Definition append_run (w : mergeWriter F) (i : nat) (off : Z) (b : bytes) : mergeWriter F :=
  let r := appended (run_at w i) off b in
  let w := set_runs w (<[i := r]> (runs w)) in
  if decide (mergeRunBytes ≤ blen (buf r)) then flushRun w i else w.

Definition extend_run (w : mergeWriter F) (i : nat) (off : Z) (b : bytes) : mergeWriter F :=
  append_run (make_room w i off b) i off b.

Definition open_run (w : mergeWriter F) (off : Z) (b : bytes) : mergeWriter F :=
  let w := flushOverlapping w off (off + blen b) in
  let i := rr w in
  let w := set_rr w ((i + 1) `mod` mergeRunSlots)%nat in
  let w := flushRun w i in
  set_runs w (<[i := mkRun off b true]> (runs w)).

Definition storeAt (w : mergeWriter F) (off : Z) (b : bytes) (mayPad : bool) : mergeWriter F :=
  if decide (werr w ≠ None ∨ b = []) then w
  else
    let end_ := off + blen b in
    match first_slot (λ r, covers r off end_) w with
    | Some i =>
        set_runs w (<[i := overwritten (run_at w i) off b]> (runs w))
    | None =>
        if decide (mergeRunBytes < blen b + mergeRunMaxGap) then
          writeThrough (flushOverlapping w off end_) off b
        else
          match first_slot (λ r, extends r off mayPad) w with
          | Some i => extend_run w i off b
          | None => open_run w off b
          end
    end.

Definition store (w : mergeWriter F) (off : Z) (b : bytes) : mergeWriter F :=
  storeAt w off b false.

Definition storeAppend (w : mergeWriter F) (off : Z) (b : bytes) : mergeWriter F :=
  if decide (off < padFloor w) then set_err w (AppendBelowPrefix off (padFloor w))
  else storeAt w off b true.

Definition patch (w : mergeWriter F) (off : Z) (b : bytes) : mergeWriter F := store w off b.
Definition patchU16 (w : mergeWriter F) (off v : Z) : mergeWriter F := patch w off (le 2 v).
Definition patchU32 (w : mergeWriter F) (off v : Z) : mergeWriter F := patch w off (le 4 v).
Definition patchU64 (w : mergeWriter F) (off v : Z) : mergeWriter F := patch w off (le 8 v).
Definition patchStr (w : mergeWriter F) (off : Z) (s : bytes) : mergeWriter F := patch w off s.

Definition appendAligned (w : mergeWriter F) (b : bytes) (alignTo : Z) : Z * mergeWriter F :=
  match werr w with
  | Some _ => (0, w)
  | None =>
      let at_ := align (wtail w) alignTo in
      (at_, set_tail (storeAppend w at_ b) (at_ + blen b))
  end.

Definition appendStr (w : mergeWriter F) (s : bytes) (alignTo : Z) : Z * mergeWriter F :=
  appendAligned w s alignTo.


(** A sequence of stores. *)
Definition do_op (w : mergeWriter F) (o : op) : mergeWriter F :=
  match o with
  | Patch off b => patch w off b
  | Append b alignTo => snd (appendAligned w b alignTo)
  end.

Definition do_ops (w : mergeWriter F) (ops : list op) : mergeWriter F := fold_left do_op ops w.

(** ** The windows stay within their allocation *)

Definition emptied (r : mergeRun) : mergeRun := mkRun (run_end r) [] (live r).

(** What the windows' buffers may be: no longer than the array behind them, and empty
    before their first use. *)
Definition fits (r : mergeRun) : Prop :=
  blen (buf r) ≤ mergeRunBytes ∧ (live r = false → buf r = []).

Definition shaped (w : mergeWriter F) : Prop :=
  length (runs w) = mergeRunSlots ∧ (rr w < mergeRunSlots)%nat ∧ ∀ i, fits (run_at w i).

Lemma fits_nil s l : fits (mkRun s [] l).
Proof. by split. Qed.

Lemma run_at_set w i r j :
  (i < length (runs w))%nat →
  run_at (set_runs w (<[i := r]> (runs w))) j = if decide (i = j) then r else run_at w j.
Proof.
  intros Hi. unfold run_at. cbn. destruct (decide (i = j)) as [<-|Hne].
  - by rewrite list_lookup_insert_eq.
  - by rewrite list_lookup_insert_ne.
Qed.

Lemma shaped_set w i r : shaped w → fits r → shaped (set_runs w (<[i := r]> (runs w))).
Proof.
  intros (Hl & Hr & Hf) Hfit. split; [by cbn; rewrite length_insert|]. split; [done|].
  intros j. destruct (decide (i < length (runs w))%nat) as [Hi|Hi].
  - rewrite run_at_set by done. by case_decide.
  - unfold run_at. cbn. rewrite list_insert_ge by lia. apply Hf.
Qed.

Lemma writeThrough_runs w off b :
  runs (writeThrough w off b) = runs w ∧ rr (writeThrough w off b) = rr w ∧
  wtail (writeThrough w off b) = wtail w ∧ padFloor (writeThrough w off b) = padFloor w.
Proof. unfold writeThrough. destruct (werr w); [done|]. by destruct (WriteAt _ _ _). Qed.

Lemma emptied_nil r : buf r = [] → emptied r = r.
Proof. unfold emptied, run_end, blen. destruct r as [s b l]. cbn. intros ->. f_equal. cbn. lia. Qed.

Lemma flushRun_at w i j :
  run_at (flushRun w i) j = if decide (i = j) then emptied (run_at w i) else run_at w j.
Proof.
  unfold flushRun. destruct (decide (buf (run_at w i) = [])) as [Hb|Hb].
  { case_decide as Hij; [|done]. subst. by rewrite emptied_nil. }
  destruct (writeThrough_runs w (start (run_at w i)) (buf (run_at w i))) as (Hr & _).
  assert (i < length (runs w))%nat as Hi.
  { apply dec_stable. intros Hi. apply Hb. unfold run_at.
    by rewrite lookup_ge_None_2 by lia. }
  rewrite run_at_set by (by rewrite Hr). unfold run_at at 3. by rewrite Hr.
Qed.

Lemma flushRun_keeps w i :
  length (runs (flushRun w i)) = length (runs w) ∧ rr (flushRun w i) = rr w ∧
  wtail (flushRun w i) = wtail w ∧ padFloor (flushRun w i) = padFloor w.
Proof.
  unfold flushRun. case_decide; [done|]. cbn.
  destruct (writeThrough_runs w (start (run_at w i)) (buf (run_at w i))) as (-> & -> & -> & ->).
  by rewrite length_insert.
Qed.

Lemma flush_where_keeps P l w :
  length (runs (flush_where P l w)) = length (runs w) ∧ rr (flush_where P l w) = rr w ∧
  wtail (flush_where P l w) = wtail w ∧ padFloor (flush_where P l w) = padFloor w.
Proof.
  unfold flush_where. revert w. induction l as [|i l IH]; intros w; [done|]. cbn [fold_left].
  destruct (IH (if P (run_at w i) then flushRun w i else w)) as (-> & -> & -> & ->).
  destruct (P (run_at w i)); [apply flushRun_keeps|done].
Qed.

Lemma flush_where_at P l w j :
  NoDup l →
  run_at (flush_where P l w) j =
    if decide (j ∈ l ∧ P (run_at w j) = true) then emptied (run_at w j) else run_at w j.
Proof.
  unfold flush_where. revert w. induction l as [|i l IH]; intros w Hnd.
  { cbn. rewrite decide_False; [done|]. intros [Hj _]. by apply elem_of_nil in Hj. }
  apply NoDup_cons in Hnd as [Hi Hnd]. cbn [fold_left]. rewrite IH by done.
  assert (run_at (if P (run_at w i) then flushRun w i else w) j =
          if decide (i = j ∧ P (run_at w j) = true) then emptied (run_at w j) else run_at w j) as ->.
  { destruct (decide (i = j)) as [->|Hne].
    - destruct (P (run_at w j)) eqn:HP; rewrite ?flushRun_at;
        repeat case_decide; naive_solver.
    - rewrite (decide_False (P := i = j ∧ _)) by naive_solver.
      destruct (P (run_at w i)); [|done]. rewrite flushRun_at. by rewrite decide_False. }
  destruct (decide (i = j)) as [->|Hne].
  - rewrite (decide_False (P := j ∈ l ∧ _)) by naive_solver.
    destruct (P (run_at w j)) eqn:HP; repeat case_decide; set_solver.
  - rewrite (decide_False (P := i = j ∧ _)) by naive_solver.
    repeat case_decide; set_solver.
Qed.

Lemma fold_flush_where l w : fold_left flushRun l w = flush_where (λ _, true) l w.
Proof. unfold flush_where. revert w. induction l as [|i l IH]; intros w; [done|]. apply IH. Qed.

Lemma flushAll_where w : flushAll w = flush_where (λ _, true) slots w.
Proof. apply fold_flush_where. Qed.

Lemma slots_nodup : NoDup slots.
Proof. apply NoDup_ListNoDup, seq_NoDup. Qed.

Lemma fits_emptied r : fits (emptied r).
Proof. apply fits_nil. Qed.

Lemma shaped_flushRun w i : shaped w → shaped (flushRun w i).
Proof.
  intros (Hl & Hr & Hf). destruct (flushRun_keeps w i) as (Hl' & Hr' & _).
  split; [lia|]. split; [lia|]. intros j. rewrite flushRun_at. case_decide; [apply fits_emptied|done].
Qed.

Lemma shaped_flush_where P l w : shaped w → shaped (flush_where P l w).
Proof.
  unfold flush_where. revert w. induction l as [|i l IH]; intros w Hw; [done|]. cbn [fold_left].
  apply IH. destruct (P (run_at w i)); [by apply shaped_flushRun|done].
Qed.

Lemma shaped_writeThrough w off b : shaped w → shaped (writeThrough w off b).
Proof.
  unfold shaped, run_at. by destruct (writeThrough_runs w off b) as (-> & -> & _).
Qed.

Lemma first_slot_Some P w i : first_slot P w = Some i → P (run_at w i) = true ∧ (i < mergeRunSlots)%nat.
Proof.
  unfold first_slot. rewrite fmap_Some. intros ([k j] & Hf & ->).
  apply list_find_Some in Hf as (Hk & HP & _). cbn.
  unfold slots in Hk. apply lookup_seq in Hk as [-> Hk]. done.
Qed.

Lemma first_slot_None P w i : first_slot P w = None → (i < mergeRunSlots)%nat → P (run_at w i) ≠ true.
Proof.
  unfold first_slot. rewrite fmap_None. intros Hf Hi.
  apply list_find_None_Forall in Hf. rewrite Forall_forall in Hf. apply Hf.
  unfold slots. apply elem_of_seq. lia.
Qed.

Lemma blen_app a b : blen (a ++ b) = blen a + blen b.
Proof. unfold blen. rewrite length_app. lia. Qed.

Lemma blen_zeros n : 0 ≤ n → blen (replicate (Z.to_nat n) Ascii.zero) = n.
Proof. unfold blen. rewrite length_replicate. lia. Qed.

Lemma run_end_emptied r : run_end (emptied r) = run_end r.
Proof. unfold run_end at 1, emptied, blen. cbn. lia. Qed.

Lemma run_end_flushRun w i j : run_end (run_at (flushRun w i) j) = run_end (run_at w j).
Proof. rewrite flushRun_at. case_decide; [subst; apply run_end_emptied|done]. Qed.

Lemma live_flushRun w i j : live (run_at (flushRun w i) j) = live (run_at w j).
Proof. rewrite flushRun_at. by case_decide; [subst|]. Qed.

Lemma not_overlaps_end r e : overlaps r (run_end r) e = false.
Proof. unfold overlaps. apply bool_decide_eq_false. lia. Qed.

Lemma make_room_spec w i off b :
  shaped w → run_end (run_at w i) ≤ off ≤ run_end (run_at w i) + mergeRunMaxGap →
  blen b + mergeRunMaxGap ≤ mergeRunBytes →
  let w' := make_room w i off b in
  shaped w' ∧ run_end (run_at w' i) = run_end (run_at w i) ∧
  live (run_at w' i) = live (run_at w i) ∧
  blen (buf (run_at w' i)) + (off - run_end (run_at w' i)) + blen b ≤ mergeRunBytes.
Proof.
  intros Hs Hgap Hb. unfold make_room, flushOverlapping. cbv zeta.
  set (w1 := if decide _ then flushRun w i else w).
  assert (shaped w1) as Hs1 by (unfold w1; case_decide; [by apply shaped_flushRun|done]).
  split; [by apply shaped_flush_where|].
  rewrite flush_where_at by apply slots_nodup. rewrite not_overlaps_end.
  rewrite decide_False by (intros [_ ?]; done). unfold w1. case_decide as Hfull.
  - rewrite run_end_flushRun, live_flushRun, flushRun_at, decide_True by done.
    split_and!; [done..|]. cbn. unfold blen at 1. cbn. lia.
  - split_and!; [done..|]. lia.
Qed.

Lemma fits_appended r off b :
  run_end r ≤ off → blen (buf r) + (off - run_end r) + blen b ≤ mergeRunBytes →
  live r = true → fits (appended r off b).
Proof.
  intros Hle Hfit Hl. split; cbn [appended buf live].
  - rewrite !blen_app, blen_zeros by lia. lia.
  - congruence.
Qed.

Lemma shaped_append_run w i off b :
  shaped w → fits (appended (run_at w i) off b) → shaped (append_run w i off b).
Proof.
  intros Hs Hf. unfold append_run. case_decide; [apply shaped_flushRun|]; by apply shaped_set.
Qed.

Lemma shaped_extend_run w i off b :
  shaped w → live (run_at w i) = true →
  run_end (run_at w i) ≤ off ≤ run_end (run_at w i) + mergeRunMaxGap →
  blen b + mergeRunMaxGap ≤ mergeRunBytes → shaped (extend_run w i off b).
Proof.
  intros Hs Hl Hgap Hb. unfold extend_run.
  destruct (make_room_spec w i off b Hs Hgap Hb) as (Hs' & He & Hl' & Hfit).
  apply shaped_append_run; [done|]. apply fits_appended; [lia|done|congruence].
Qed.

Lemma shaped_set_rr w n : shaped w → (n < mergeRunSlots)%nat → shaped (set_rr w n).
Proof. intros (Hl & _ & Hf) Hn. by split. Qed.

Lemma shaped_open_run w off b :
  shaped w → blen b ≤ mergeRunBytes → shaped (open_run w off b).
Proof.
  intros Hs Hb. unfold open_run. apply shaped_set; [|by split].
  apply shaped_flushRun, shaped_set_rr; [by apply shaped_flush_where|].
  by apply Nat.mod_upper_bound.
Qed.

Lemma length_overwrite (c : bytes) n b :
  (n + length b ≤ length c)%nat → length (overwrite c n b) = length c.
Proof. intros. unfold overwrite. rewrite !length_app, length_take, length_drop. lia. Qed.

Lemma covers_spec r off e :
  covers r off e = true → buf r ≠ [] ∧ start r ≤ off ∧ e ≤ run_end r.
Proof. unfold covers. by rewrite bool_decide_eq_true. Qed.

Lemma extends_spec r off m :
  extends r off m = true →
  live r = true ∧ run_end r ≤ off ≤ run_end r + mergeRunMaxGap ∧ (m = false → off = run_end r).
Proof.
  unfold extends. rewrite !andb_true_iff, orb_true_iff, !bool_decide_eq_true.
  intros [[Hl Hg] Hm]. split_and!; [done|lia..|]. intros ->. destruct Hm; [lia|done].
Qed.

Lemma shaped_storeAt w off b m : shaped w → shaped (storeAt w off b m).
Proof.
  intros Hs. unfold storeAt. case_decide; [done|].
  destruct (first_slot (λ r, covers r off (off + blen b)) w) as [i|] eqn:Hc.
  - apply first_slot_Some in Hc as [(Hne & Hlo & Hhi)%covers_spec _].
    apply shaped_set; [done|]. destruct (proj2 (proj2 Hs) i) as [Hfit Hlive].
    split; cbn; [|by intros ?%Hlive]. unfold blen, run_end in *.
    rewrite length_overwrite; [done|]. unfold blen in *. lia.
  - case_decide as Hbig; [by apply shaped_writeThrough, shaped_flush_where|].
    destruct (first_slot (λ r, extends r off m) w) as [i|] eqn:He.
    + apply first_slot_Some in He as [(Hl & Hg & _)%extends_spec _].
      apply shaped_extend_run; try done; lia.
    + apply shaped_open_run; [done|]. unfold mergeRunMaxGap in *. lia.
Qed.

Lemma shaped_new f t : shaped (newMergeWriter f t).
Proof.
  split; [done|]. split; [cbn; unfold mergeRunSlots; lia|]. intros i. unfold run_at. cbn [runs newMergeWriter].
  destruct (replicate mergeRunSlots (mkRun 0 [] false) !! i) as [r|] eqn:Hr; [|apply fits_nil].
  apply lookup_replicate in Hr as [-> _]. apply fits_nil.
Qed.

(** ** The windows and the sink together hold what was stored *)

Context `{HL : !MergeSinkLaws F}.

Definition in_run (r : mergeRun) (x : Z) : Prop := start r ≤ x ∧ x < run_end r.
Definition byte_of (r : mergeRun) (x : Z) : ascii :=
  default Ascii.zero (buf r !! Z.to_nat (x - start r)).

(** [G] is what the output would be if everything held back were written now: a byte is
    in one window, or the sink has it. *)
Record agrees (w : mergeWriter F) (G : Z → ascii) : Prop := mkAgrees {
  agrees_held i x : in_run (run_at w i) x → byte_of (run_at w i) x = G x;
  agrees_sink x : (∀ i, ¬ in_run (run_at w i) x) → byteAt (sink w) x = G x;
  agrees_once i j x : i ≠ j → in_run (run_at w i) x → ¬ in_run (run_at w j) x
}.

Lemma in_run_nil s l x : ¬ in_run (mkRun s [] l) x.
Proof. unfold in_run, run_end, blen. cbn. lia. Qed.

Lemma put_at_out G off b x : ¬ (off ≤ x ∧ x < off + blen b) → put_at G off b x = G x.
Proof. intros. unfold put_at. by rewrite decide_False. Qed.

Lemma put_at_run G r x : in_run r x → put_at G (start r) (buf r) x = byte_of r x.
Proof. intros. unfold put_at. by rewrite decide_True. Qed.

Lemma writeThrough_ok w off b :
  werr (writeThrough w off b) = None →
  werr w = None ∧ ∀ x, byteAt (sink (writeThrough w off b)) x = put_at (byteAt (sink w)) off b x.
Proof.
  unfold writeThrough. destruct (werr w) as [e|] eqn:He; [congruence|].
  destruct (WriteAt (sink w) off b) as [f|] eqn:Hw; [|done]. cbn. intros _. split; [done|].
  intros x. by apply WriteAt_stores.
Qed.

Lemma flushRun_err w i : werr (flushRun w i) = None → werr w = None.
Proof.
  unfold flushRun. case_decide; [done|]. cbn. by intros [? _]%writeThrough_ok.
Qed.

Lemma flushRun_ok w i G :
  werr (flushRun w i) = None → agrees w G → werr w = None ∧ agrees (flushRun w i) G.
Proof.
  intros Herr [Hheld Hsink Honce].
  assert (∀ j x, in_run (run_at (flushRun w i) j) x → i ≠ j ∧ in_run (run_at w j) x) as Hin.
  { intros j x. rewrite flushRun_at. case_decide; [by intros ?%in_run_nil|done]. }
  assert (werr w = None ∧ ∀ x, (∀ j, i ≠ j → ¬ in_run (run_at w j) x) →
    byteAt (sink (flushRun w i)) x = G x) as [Hw Hs].
  { unfold flushRun in *. destruct (decide (buf (run_at w i) = [])) as [Hb|Hb].
    - split; [done|]. intros x Hx. apply Hsink. intros j. destruct (decide (i = j)) as [<-|]; [|by apply Hx].
      unfold in_run, run_end, blen. rewrite Hb. cbn. lia.
    - cbn in Herr. apply writeThrough_ok in Herr as [Hw Hs]. split; [done|].
      intros x Hx. cbn [sink set_runs]. rewrite Hs. destruct (decide (in_run (run_at w i) x)) as [Hi|Hi].
      + rewrite put_at_run by done. by apply Hheld.
      + rewrite put_at_out by done. apply Hsink. intros j. destruct (decide (i = j)) as [<-|]; [done|by apply Hx]. }
  split; [done|]. split.
  - intros j x Hj. destruct (Hin j x Hj) as [Hne Hj']. rewrite flushRun_at, decide_False by done.
    by apply Hheld.
  - intros x Hx. apply Hs. intros j Hne Hj. apply (Hx j). by rewrite flushRun_at, decide_False.
  - intros j k x Hne [_ Hj]%Hin [_ Hk]%Hin. by eapply Honce.
Qed.

Lemma flush_where_err P l w : werr (flush_where P l w) = None → werr w = None.
Proof.
  unfold flush_where. revert w. induction l as [|i l IH]; intros w Herr; [done|].
  cbn [fold_left] in Herr. apply IH in Herr.
  destruct (P (run_at w i)); [by apply flushRun_err in Herr|done].
Qed.

Lemma flush_where_ok P l w G :
  werr (flush_where P l w) = None → agrees w G → werr w = None ∧ agrees (flush_where P l w) G.
Proof.
  intros Herr Hag. split; [by eapply flush_where_err|]. revert w Herr Hag.
  induction l as [|i l IH]; intros w Herr Hag; [done|]. apply IH; [done|].
  change (werr (flush_where P l (if P (run_at w i) then flushRun w i else w)) = None) in Herr.
  apply flush_where_err in Herr. destruct (P (run_at w i)); [by apply flushRun_ok|done].
Qed.

#[local] Opaque flush_where.

(** After the flush no window holds a byte of the range. *)
Lemma flushOverlapping_clears w off e j x :
  shaped w → in_run (run_at (flushOverlapping w off e) j) x → ¬ (off ≤ x ∧ x < e).
Proof.
  intros (Hl & _). unfold flushOverlapping. rewrite flush_where_at by apply slots_nodup.
  case_decide as Hj; [by intros ?%in_run_nil|]. intros [Hlo Hhi] [Hx1 Hx2]. apply Hj.
  assert (buf (run_at w j) ≠ []) as Hne.
  { intros Hb. unfold run_end, blen in Hhi. rewrite Hb in Hhi. cbn in Hhi. lia. }
  split.
  - unfold slots. apply elem_of_seq. split; [lia|]. cbn.
    apply dec_stable. intros Hge. apply Hne. unfold run_at. by rewrite lookup_ge_None_2 by lia.
  - unfold overlaps. rewrite bool_decide_eq_true. split; [done|]. lia.
Qed.

(** One window is replaced by one that holds the range just stored. *)
Lemma agrees_set w G G' i r :
  (i < length (runs w))%nat → agrees w G →
  (∀ x, in_run r x → byte_of r x = G' x) →
  (∀ x, in_run (run_at w i) x → in_run r x) →
  (∀ j x, i ≠ j → in_run r x → ¬ in_run (run_at w j) x) →
  (∀ x, ¬ in_run r x → G' x = G x) →
  agrees (set_runs w (<[i := r]> (runs w))) G'.
Proof.
  intros Hi [Hheld Hsink Honce] Hr Hold Hothers Hout. split.
  - intros j x. rewrite run_at_set by done. case_decide as Hj; [by apply Hr|]. intros Hin.
    rewrite Hout; [by apply Hheld|]. intros Hr'. by apply (Hothers j x).
  - intros x Hx. cbn [sink set_runs].
    assert (¬ in_run r x) as Hxr.
    { specialize (Hx i). rewrite run_at_set, decide_True in Hx; done. }
    rewrite Hout by done. apply Hsink. intros j. destruct (decide (i = j)) as [<-|Hne].
    + intros ?%Hold. done.
    + specialize (Hx j). by rewrite run_at_set, decide_False in Hx.
  - intros j k x Hne. rewrite !run_at_set by done.
    destruct (decide (i = j)) as [<-|Hj], (decide (i = k)) as [<-|Hk]; [done|..].
    + intros Hx. by apply Hothers.
    + intros Hj' Hx. by apply (Hothers j x).
    + by apply Honce.
Qed.

Lemma agrees_ext w G G' : (∀ x, G x = G' x) → agrees w G → agrees w G'.
Proof. intros HG [Hh Hs Ho]. split; intros; rewrite <-?HG; eauto. Qed.

Lemma flushOverlapping_shaped w off e : shaped w → shaped (flushOverlapping w off e).
Proof. apply shaped_flush_where. Qed.

Lemma byte_of_overwrite s c l off b x :
  s ≤ off → off + blen b ≤ s + blen c → s ≤ x → x < s + blen c →
  byte_of (mkRun s (overwrite c (Z.to_nat (off - s)) b) l) x =
    put_at (byte_of (mkRun s c l)) off b x.
Proof.
  unfold byte_of, put_at, overwrite, blen, bytes in *. cbn [buf start]. intros.
  case_decide as Hx.
  - rewrite lookup_app_r by (rewrite length_take; lia).
    rewrite length_take, lookup_app_l by lia. f_equal. f_equal. lia.
  - destruct (decide (x < off)).
    + rewrite lookup_app_l by (rewrite length_take; lia). by rewrite lookup_take_lt by lia.
    + rewrite lookup_app_r by (rewrite length_take; lia).
      rewrite length_take, lookup_app_r by lia. rewrite lookup_drop. f_equal. f_equal. lia.
Qed.

Lemma byte_of_appended r off b x :
  run_end r ≤ off → start r ≤ x → x < off + blen b →
  byte_of (appended r off b) x =
    if decide (x < run_end r) then byte_of r x
    else if decide (x < off) then Ascii.zero else put_at (λ _, Ascii.zero) off b x.
Proof.
  unfold byte_of, put_at, appended, run_end, blen, bytes in *. cbn [buf start]. intros.
  case_decide; [by rewrite lookup_app_l by lia|]. rewrite lookup_app_r by lia. case_decide.
  - rewrite lookup_app_l by (rewrite length_replicate; lia).
    rewrite lookup_replicate_2 by lia. done.
  - rewrite lookup_app_r by (rewrite length_replicate; lia).
    rewrite length_replicate, decide_True by lia. f_equal. f_equal. lia.
Qed.

Lemma run_end_appended r off b :
  run_end r ≤ off → run_end (appended r off b) = off + blen b.
Proof.
  intros. unfold run_end at 1, appended. cbn [start buf]. rewrite !blen_app, blen_zeros by lia.
  unfold run_end in *. lia.
Qed.

Lemma flushOverlapping_ok w off e G :
  werr (flushOverlapping w off e) = None → agrees w G →
  werr w = None ∧ agrees (flushOverlapping w off e) G.
Proof. exact (flush_where_ok (λ r, overlaps r off e) slots w G). Qed.

Lemma flushOverlapping_err w off e : werr (flushOverlapping w off e) = None → werr w = None.
Proof. exact (flush_where_err (λ r, overlaps r off e) slots w). Qed.

Lemma flushed_if_ok (P : Prop) `{Decision P} w i G :
  werr (if decide P then flushRun w i else w) = None → agrees w G →
  werr w = None ∧ agrees (if decide P then flushRun w i else w) G.
Proof. case_decide; [apply flushRun_ok|done]. Qed.

Lemma make_room_ok w i off b G :
  werr (make_room w i off b) = None → agrees w G →
  werr w = None ∧ agrees (make_room w i off b) G.
Proof.
  unfold make_room. intros Herr Hag. pose proof (flushOverlapping_err _ _ _ Herr) as Herr'.
  destruct (flushed_if_ok _ w i G Herr' Hag) as [Hw Hag'].
  split; [done|]. by apply flushOverlapping_ok.
Qed.

(** The gap before an append, zeroed. *)
Definition padded (G : Z → ascii) (e off : Z) (x : Z) : ascii :=
  if decide (e ≤ x ∧ x < off) then Ascii.zero else G x.

Lemma padded_id G e off x : (e ≤ x → x < off → G x = Ascii.zero) → padded G e off x = G x.
Proof. intros Hz. unfold padded. case_decide; [|done]. symmetry. apply Hz; lia. Qed.

Lemma appended_ok w i off b G :
  shaped w → (i < mergeRunSlots)%nat → agrees w G → run_end (run_at w i) ≤ off →
  (∀ j x, i ≠ j → in_run (run_at w j) x → ¬ (run_end (run_at w i) ≤ x ∧ x < off + blen b)) →
  agrees (set_runs w (<[i := appended (run_at w i) off b]> (runs w)))
    (put_at (padded G (run_end (run_at w i)) off) off b).
Proof.
  intros (Hl & _ & _) Hi Hag Hle Hclear.
  assert (start (run_at w i) ≤ run_end (run_at w i)) as Hse
    by (unfold run_end; pose proof (blen_nonneg (buf (run_at w i))); lia).
  assert (∀ x, in_run (appended (run_at w i) off b) x ↔ start (run_at w i) ≤ x ∧ x < off + blen b)
    as Hin by (intros x; unfold in_run; by rewrite run_end_appended).
  pose proof (blen_nonneg b).
  apply (agrees_set w G); [lia|done|..]; [intros x Hx|intros x Hx|intros j x Hne Hx|intros x Hx];
    rewrite Hin in *.
  - rewrite byte_of_appended by lia. unfold put_at, padded. repeat case_decide; try lia.
    + apply (agrees_held _ _ Hag i). split; lia.
    + done.
    + done.
  - destruct Hx. lia.
  - intros Hj. destruct (decide (x < run_end (run_at w i))).
    + apply (agrees_once _ _ Hag i j x); [done|split; lia|done].
    + apply (Hclear j x Hne Hj). lia.
  - rewrite put_at_out by lia. unfold padded. rewrite decide_False; [done|]. lia.
Qed.

Lemma append_run_ok w i off b G :
  shaped w → (i < mergeRunSlots)%nat → agrees w G → run_end (run_at w i) ≤ off →
  (∀ j x, i ≠ j → in_run (run_at w j) x → ¬ (run_end (run_at w i) ≤ x ∧ x < off + blen b)) →
  werr (append_run w i off b) = None →
  werr w = None ∧ agrees (append_run w i off b) (put_at (padded G (run_end (run_at w i)) off) off b).
Proof.
  intros Hs Hi Hag Hle Hclear Herr.
  pose proof (appended_ok w i off b G Hs Hi Hag Hle Hclear) as Hset.
  unfold append_run in *. case_decide; [|done].
  by apply (flushRun_ok _ _ _ Herr) in Hset.
Qed.

Lemma append_run_err w i off b : werr (append_run w i off b) = None → werr w = None.
Proof. unfold append_run. case_decide; [by intros ?%flushRun_err|done]. Qed.

Lemma make_room_clears w i off b j x :
  shaped w → run_end (run_at (make_room w i off b) i) = run_end (run_at w i) →
  in_run (run_at (make_room w i off b) j) x →
  ¬ (run_end (run_at w i) ≤ x ∧ x < off + blen b).
Proof.
  intros Hs He. unfold make_room. set (w1 := if decide _ then flushRun w i else w).
  assert (shaped w1) by (unfold w1; case_decide; [by apply shaped_flushRun|done]).
  replace (run_end (run_at w1 i)) with (run_end (run_at w i)).
  - by apply flushOverlapping_clears.
  - unfold w1. case_decide; [by rewrite run_end_flushRun|done].
Qed.

Lemma extend_run_ok w i off b G :
  shaped w → (i < mergeRunSlots)%nat → agrees w G →
  run_end (run_at w i) ≤ off ≤ run_end (run_at w i) + mergeRunMaxGap →
  blen b + mergeRunMaxGap ≤ mergeRunBytes →
  werr (extend_run w i off b) = None →
  werr w = None ∧ agrees (extend_run w i off b) (put_at (padded G (run_end (run_at w i)) off) off b).
Proof.
  intros Hs Hi Hag Hgap Hb Herr. unfold extend_run in *.
  destruct (make_room_spec w i off b Hs Hgap Hb) as (Hs' & He & _ & _).
  pose proof (append_run_err _ _ _ _ Herr) as Herr'.
  destruct (make_room_ok w i off b G Herr' Hag) as [Hw Hag']. split; [done|].
  rewrite <-He. apply append_run_ok; try done; [lia|].
  intros j x _ Hj. rewrite He. by eapply make_room_clears.
Qed.

Lemma agrees_set_rr w n G : agrees w G → agrees (set_rr w n) G.
Proof. intros [Hh Hs Ho]. split; [exact Hh|exact Hs|exact Ho]. Qed.

(** The second half of [open_run]: slot [i] is freed and given to the store. *)
Lemma reopen_ok w i off b G :
  shaped w → (i < mergeRunSlots)%nat → agrees w G →
  (∀ j x, in_run (run_at w j) x → ¬ (off ≤ x ∧ x < off + blen b)) →
  werr (flushRun w i) = None →
  werr w = None ∧
  agrees (set_runs (flushRun w i) (<[i := mkRun off b true]> (runs (flushRun w i))))
    (put_at G off b).
Proof.
  intros (Hl & _) Hi Hag Hclear Herr. destruct (flushRun_ok _ _ _ Herr Hag) as [Hw Hag'].
  split; [done|]. destruct (flushRun_keeps w i) as (Hl' & _).
  assert (∀ x, in_run (mkRun off b true) x ↔ off ≤ x ∧ x < off + blen b) as Hin by done.
  apply (agrees_set _ G); [by rewrite Hl', Hl|done|..].
  - intros x Hx. unfold put_at. by rewrite decide_True by (by apply Hin).
  - intros x Hx. exfalso. rewrite flushRun_at, decide_True in Hx by done. by apply in_run_nil in Hx.
  - intros j x Hne Hx. rewrite flushRun_at, decide_False by done. intros Hj.
    by apply (Hclear j x Hj).
  - intros x Hx. by apply put_at_out.
Qed.

Lemma open_run_ok w off b G :
  shaped w → agrees w G → werr (open_run w off b) = None →
  werr w = None ∧ agrees (open_run w off b) (put_at G off b).
Proof.
  intros Hs Hag. unfold open_run.
  pose proof (flushOverlapping_ok w off (off + blen b) G) as Hok.
  pose proof (λ j x, flushOverlapping_clears w off (off + blen b) j x Hs) as Hclear.
  pose proof (flushOverlapping_shaped w off (off + blen b) Hs) as Hs1.
  generalize dependent (flushOverlapping w off (off + blen b)). intros w1 Hok Hclear Hs1 Herr.
  pose proof (flushRun_err _ _ Herr) as Herr1. destruct (Hok Herr1 Hag) as [Hw Hag1].
  split; [done|]. apply reopen_ok; [|apply Hs1|by apply agrees_set_rr|done|done].
  apply shaped_set_rr; [done|]. by apply Nat.mod_upper_bound.
Qed.

Lemma first_slot_lt P w i : first_slot P w = Some i → (i < mergeRunSlots)%nat.
Proof. by intros [_ ?]%first_slot_Some. Qed.

Lemma overwrite_ok w i off b G :
  shaped w → (i < mergeRunSlots)%nat → agrees w G →
  start (run_at w i) ≤ off → off + blen b ≤ run_end (run_at w i) →
  agrees (set_runs w (<[i := overwritten (run_at w i) off b]> (runs w))) (put_at G off b).
Proof.
  intros (Hl & _) Hi Hag Hlo Hhi.
  assert (∀ x, in_run (overwritten (run_at w i) off b) x ↔ in_run (run_at w i) x) as Hin.
  { intros x. unfold in_run, run_end, blen, overwritten in *. cbn [start buf].
    rewrite length_overwrite; [done|lia]. }
  apply (agrees_set w G); [by rewrite Hl|done|..].
  - intros x Hx%Hin. unfold overwritten. destruct Hx as [Hx1 Hx2].
    pose proof (agrees_held _ _ Hag i x (conj Hx1 Hx2)) as Hg. unfold run_end in *.
    rewrite byte_of_overwrite by lia. unfold put_at. case_decide; [done|exact Hg].
  - intros x. by rewrite Hin.
  - intros j x Hne Hx%Hin. by apply (agrees_once _ _ Hag i).
  - intros x Hx. apply put_at_out. rewrite Hin in Hx. unfold in_run in Hx. lia.
Qed.

Lemma pass_through_ok w off b G :
  shaped w → agrees w G →
  werr (writeThrough (flushOverlapping w off (off + blen b)) off b) = None →
  werr w = None ∧
  agrees (writeThrough (flushOverlapping w off (off + blen b)) off b) (put_at G off b).
Proof.
  intros Hs Hag [Herr Hsink]%writeThrough_ok.
  destruct (flushOverlapping_ok _ _ _ _ Herr Hag) as [Hw [Hheld Hs1 Honce]]. split; [done|].
  pose proof (flushOverlapping_clears w off (off + blen b)) as Hclear.
  generalize dependent (flushOverlapping w off (off + blen b)). intros w1 Hw1 Hsink Hheld Hs1 Honce Hclear.
  assert (∀ j, run_at (writeThrough w1 off b) j = run_at w1 j) as Hruns.
  { intros j. unfold run_at. by rewrite (proj1 (writeThrough_runs _ _ _)). }
  split.
  - intros j x. rewrite Hruns. intros Hj. rewrite put_at_out; [by apply Hheld|]. by eapply Hclear.
  - intros x Hx. rewrite Hsink. unfold put_at. case_decide; [done|]. apply Hs1.
    intros j. rewrite <-Hruns. apply Hx.
  - intros j k x. rewrite !Hruns. apply Honce.
Qed.

Lemma padded_none G off x : padded G off off x = G x.
Proof. apply padded_id. lia. Qed.

Lemma put_at_ext G G' off b x : (∀ x, G x = G' x) → put_at G off b x = put_at G' off b x.
Proof. intros HG. unfold put_at. by case_decide. Qed.

(** A store zeroes at most the gap between the window it extends and itself. *)
Lemma storeAt_pads w off b m G :
  shaped w → agrees w G → werr (storeAt w off b m) = None →
  werr w = None ∧ ∃ e,
    (e = off ∨ b ≠ [] ∧ ∃ i, extends (run_at w i) off m = true ∧ run_end (run_at w i) = e) ∧
    agrees (storeAt w off b m) (put_at (padded G e off) off b).
Proof.
  intros Hs Hag. assert (∀ w', agrees w' (put_at G off b) → ∃ e,
    (e = off ∨ b ≠ [] ∧ ∃ i, extends (run_at w i) off m = true ∧ run_end (run_at w i) = e) ∧
    agrees w' (put_at (padded G e off) off b)) as Hplain.
  { intros w' Hg. exists off. split; [by left|]. eapply agrees_ext; [|exact Hg]. intros x. apply put_at_ext.
    intros y. by rewrite padded_none. }
  unfold storeAt. destruct (decide (werr w ≠ None ∨ b = [])) as [Hn|Hn].
  { intros Herr. split; [done|]. destruct Hn as [|Hb]; [done|]. apply Hplain.
    apply (agrees_ext w G); [|done]. intros x. rewrite put_at_out; [done|].
    rewrite Hb. unfold blen. cbn. lia. }
  destruct (first_slot (λ r, covers r off (off + blen b)) w) as [i|] eqn:Hc.
  - apply first_slot_Some in Hc as [(Hne & Hlo & Hhi)%covers_spec Hi].
    intros Herr. split; [done|]. apply Hplain. by apply overwrite_ok.
  - case_decide as Hbig; [intros Herr; by destruct (pass_through_ok _ _ _ _ Hs Hag Herr); auto|].
    destruct (first_slot (λ r, extends r off m) w) as [i|] eqn:He;
      [|intros Herr; destruct (open_run_ok _ _ _ _ Hs Hag Herr); auto].
    apply first_slot_Some in He as [He Hi]. pose proof (extends_spec _ _ _ He) as (_ & Hgap & _).
    intros Herr. destruct (extend_run_ok w i off b G Hs Hi Hag Hgap ltac:(lia) Herr) as [Hw Hag'].
    split; [done|]. exists (run_end (run_at w i)). split; [right; split; [tauto|by exists i]|done].
Qed.

Lemma storeAt_ok w off b m G :
  shaped w → agrees w G →
  (∀ i x, extends (run_at w i) off m = true → run_end (run_at w i) ≤ x → x < off →
    G x = Ascii.zero) →
  werr (storeAt w off b m) = None →
  werr w = None ∧ agrees (storeAt w off b m) (put_at G off b).
Proof.
  intros Hs Hag Hz Herr. destruct (storeAt_pads w off b m G Hs Hag Herr) as (Hw & e & He & Hag').
  split; [done|]. eapply agrees_ext; [|exact Hag']. intros x. apply put_at_ext. intros y. apply padded_id.
  destruct He as [->|(_ & i & Hi & <-)]; [lia|]. by apply (Hz i).
Qed.

(** ** Where the windows end *)

Definition ends (w : mergeWriter F) (j : nat) : Z * bool :=
  (run_end (run_at w j), live (run_at w j)).

Lemma ends_flushRun w i j : ends (flushRun w i) j = ends w j.
Proof. unfold ends. by rewrite run_end_flushRun, live_flushRun. Qed.

Lemma ends_emptied r : (run_end (emptied r), live (emptied r)) = (run_end r, live r).
Proof. by rewrite run_end_emptied. Qed.

Lemma ends_flushOverlapping w off e j : ends (flushOverlapping w off e) j = ends w j.
Proof.
  unfold ends, flushOverlapping. rewrite flush_where_at by apply slots_nodup.
  case_decide; [apply ends_emptied|done].
Qed.

Lemma ends_set w i r j :
  (i < length (runs w))%nat →
  ends (set_runs w (<[i := r]> (runs w))) j =
    if decide (i = j) then (run_end r, live r) else ends w j.
Proof. intros Hi. unfold ends. rewrite run_at_set by done. by case_decide. Qed.

Lemma ends_set_rr w n j : ends (set_rr w n) j = ends w j.
Proof. done. Qed.

Lemma ends_writeThrough w off b j : ends (writeThrough w off b) j = ends w j.
Proof. unfold ends, run_at. by rewrite (proj1 (writeThrough_runs w off b)). Qed.

Lemma ends_append_run w i off b j :
  shaped w → (i < mergeRunSlots)%nat → run_end (run_at w i) ≤ off → live (run_at w i) = true →
  ends (append_run w i off b) j = if decide (i = j) then (off + blen b, true) else ends w j.
Proof.
  intros (Hl & _) Hi Hle Hlive. unfold append_run.
  destruct (decide (mergeRunBytes ≤ _)) as [Hfull|Hfull]; [rewrite ends_flushRun|].
  all: rewrite ends_set by (by rewrite Hl); case_decide; [|done].
  all: rewrite run_end_appended by done; cbn [appended live]; by rewrite Hlive.
Qed.

Lemma ends_extend_run w i off b j :
  shaped w → (i < mergeRunSlots)%nat → live (run_at w i) = true →
  run_end (run_at w i) ≤ off ≤ run_end (run_at w i) + mergeRunMaxGap →
  blen b + mergeRunMaxGap ≤ mergeRunBytes →
  ends (extend_run w i off b) j = if decide (i = j) then (off + blen b, true) else ends w j.
Proof.
  intros Hs Hi Hl Hgap Hb. unfold extend_run.
  destruct (make_room_spec w i off b Hs Hgap Hb) as (Hs' & He & Hl' & _).
  rewrite ends_append_run by (done || lia || congruence). case_decide; [done|].
  unfold make_room. rewrite ends_flushOverlapping. case_decide; [apply ends_flushRun|done].
Qed.

Lemma ends_open_run w off b j :
  shaped w →
  ends (open_run w off b) j = if decide (rr w = j) then (off + blen b, true) else ends w j.
Proof.
  intros Hs. unfold open_run. pose proof (flushOverlapping_shaped w off (off + blen b) Hs) as Hs1.
  pose proof (ends_flushOverlapping w off (off + blen b)) as He.
  destruct (flush_where_keeps (λ r, overlaps r off (off + blen b)) slots w) as (_ & Hr & _).
  change (rr (flushOverlapping w off (off + blen b)) = rr w) in Hr.
  generalize dependent (flushOverlapping w off (off + blen b)). intros w1 Hs1 He Hr.
  rewrite Hr. rewrite ends_set.
  - case_decide; [done|]. by rewrite ends_flushRun, ends_set_rr.
  - destruct (flushRun_keeps (set_rr w1 ((rr w + 1) `mod` mergeRunSlots)%nat) (rr w)) as (-> & _).
    destruct Hs1 as (Hl & Hr1 & _). cbn [runs set_rr]. lia.
Qed.

(** What a store does to them: it ends where a window already did, or one window now ends
    with it. *)
Lemma ends_storeAt w off b m :
  shaped w → werr w = None → b ≠ [] →
  ((∀ j, ends (storeAt w off b m) j = ends w j) ∧
     ((∃ i, covers (run_at w i) off (off + blen b) = true) ∨
      mergeRunBytes < blen b + mergeRunMaxGap)) ∨
  ∃ i, (∀ j, ends (storeAt w off b m) j = if decide (i = j) then (off + blen b, true) else ends w j) ∧
       (extends (run_at w i) off m = true ∨
        ∀ j, (j < mergeRunSlots)%nat → extends (run_at w j) off m ≠ true).
Proof.
  intros Hs Hw Hb. unfold storeAt. rewrite decide_False by naive_solver.
  destruct (first_slot (λ r, covers r off (off + blen b)) w) as [i|] eqn:Hc.
  - apply first_slot_Some in Hc as [Hc Hi]. pose proof (covers_spec _ _ _ Hc) as (Hne & Hlo & Hhi).
    left. split; [|left; by exists i]. intros j. rewrite ends_set by (by rewrite (proj1 Hs)).
    case_decide; [subst|done]. unfold ends, overwritten, run_end, blen in *. cbn [start buf live].
    rewrite length_overwrite; [done|lia].
  - case_decide as Hbig.
    + left. split; [|by right]. intros j. rewrite ends_writeThrough. apply ends_flushOverlapping.
    + right. destruct (first_slot (λ r, extends r off m) w) as [i|] eqn:He.
      * apply first_slot_Some in He as [He Hi]. pose proof (extends_spec _ _ _ He) as (Hl & Hg & _).
        exists i. split; [|by left]. intros j. apply ends_extend_run; done || lia.
      * exists (rr w). split; [intros j; by apply ends_open_run|]. right. intros j Hj.
        by apply (first_slot_None _ _ _ He).
Qed.

(** No store moves the tail or the floor. *)
Definition marks (w : mergeWriter F) : Z * Z := (wtail w, padFloor w).

Lemma marks_flushRun w i : marks (flushRun w i) = marks w.
Proof. unfold marks. by destruct (flushRun_keeps w i) as (_ & _ & -> & ->). Qed.

Lemma marks_flushOverlapping w o e : marks (flushOverlapping w o e) = marks w.
Proof.
  unfold marks, flushOverlapping.
  by destruct (flush_where_keeps (λ r, overlaps r o e) slots w) as (_ & _ & -> & ->).
Qed.

Lemma marks_set w rs : marks (set_runs w rs) = marks w.
Proof. destruct w. reflexivity. Qed.

Lemma marks_set_rr w n : marks (set_rr w n) = marks w.
Proof. destruct w. reflexivity. Qed.

Lemma marks_append_run w i off b : marks (append_run w i off b) = marks w.
Proof. unfold append_run. case_decide; rewrite ?marks_flushRun; apply marks_set. Qed.

Lemma marks_make_room w i off b : marks (make_room w i off b) = marks w.
Proof.
  unfold make_room. rewrite marks_flushOverlapping. case_decide; [apply marks_flushRun|done].
Qed.

Lemma marks_writeThrough w off b : marks (writeThrough w off b) = marks w.
Proof. unfold marks. by destruct (writeThrough_runs w off b) as (_ & _ & -> & ->). Qed.

Lemma marks_storeAt w off b m : marks (storeAt w off b m) = marks w.
Proof.
  unfold storeAt. case_decide; [done|]. case_match; [done|]. case_decide.
  { by rewrite marks_writeThrough, marks_flushOverlapping. }
  case_match.
  - unfold extend_run. by rewrite marks_append_run, marks_make_room.
  - unfold open_run. rewrite marks_set, marks_flushRun, marks_set_rr. apply marks_flushOverlapping.
Qed.

(** ** The writer implements the image *)

(** A live window ends where a patch ended, or far below the tail, or is the window of the
    last append. *)
Definition tail_run (floor : Z) (im : image) (e : Z) : Prop :=
  (∃ q, q ∈ spans im ∧ appended_span q = true ∧ span_end q = e) ∧
  ∀ q, q ∈ spans im → span_end q ≤ e.

Definition ends_ok (floor : Z) (w : mergeWriter F) (im : image) (ti i : nat) : Prop :=
  live (run_at w i) = true →
  (∃ q, q ∈ spans im ∧ appended_span q = false ∧ span_end q = run_end (run_at w i)) ∨
  run_end (run_at w i) + mergeRunMaxGap < itail im ∨
  (i = ti ∧ tail_run floor im (run_end (run_at w i))).

Definition span_ok (floor : Z) (im : image) (q : span) : Prop :=
  span_off q < span_end q ∧
  (if appended_span q then floor ≤ span_off q ∧ span_end q ≤ itail im else span_end q ≤ floor).

Record implements (floor : Z) (w : mergeWriter F) (im : image) : Prop := mkImpl {
  impl_shaped : shaped w;
  impl_agrees : agrees w (content im);
  impl_marks : marks w = (itail im, floor);
  impl_floor : floor ≤ itail im;
  impl_blank x : (∀ q, q ∈ spans im → ¬ (span_off q ≤ x ∧ x < span_end q)) → content im x = Ascii.zero;
  impl_spans q : q ∈ spans im → span_ok floor im q;
  impl_ends : ∃ ti, ∀ i, ends_ok floor w im ti i
}.

Lemma covers_live w i off e : shaped w → covers (run_at w i) off e = true → live (run_at w i) = true.
Proof.
  intros Hs (Hne & _)%covers_spec. destruct (live (run_at w i)) eqn:Hl; [done|].
  by destruct Hne; apply (proj2 (proj2 (proj2 Hs) i)).
Qed.

Lemma run_end_le floor w im i :
  implements floor w im → live (run_at w i) = true → run_end (run_at w i) ≤ itail im.
Proof.
  intros [_ _ _ Hf _ Hsp [ti He]] Hl. unfold mergeRunMaxGap in *.
  destruct (He i Hl) as [(q & Hq & Ht & <-)|[?|(_ & (q & Hq & Ht & <-) & _)]]; unfold mergeRunMaxGap in *.
  - destruct (Hsp q Hq) as [_ Hb]. rewrite Ht in Hb. lia.
  - lia.
  - destruct (Hsp q Hq) as [_ Hb]. rewrite Ht in Hb. lia.
Qed.

(** The bytes between a live window's end and an append are unwritten. *)
Lemma pad_is_blank floor w im i at_ x :
  implements floor w im → itail im ≤ at_ →
  Forall (hole_after im at_) (spans im) →
  live (run_at w i) = true → run_end (run_at w i) ≤ at_ ≤ run_end (run_at w i) + mergeRunMaxGap →
  run_end (run_at w i) ≤ x → x < at_ → content im x = Ascii.zero.
Proof.
  intros Hi Hat Hh Hl Hgap Hx1 Hx2. pose proof Hi as [_ _ _ _ Hz _ [ti He]].
  apply Hz. intros q Hq [Hq1 Hq2]. rewrite Forall_forall in Hh.
  destruct (He i Hl) as [(p & Hp & Ht & Hpe)|[?|(_ & _ & Hall)]].
  - specialize (Hh p Hp Ht ltac:(lia) ltac:(lia)). rewrite Forall_forall in Hh.
    specialize (Hh q Hq). lia.
  - lia.
  - specialize (Hall q Hq). lia.
Qed.

Lemma spans_end_le floor w im q : implements floor w im → q ∈ spans im → span_end q ≤ itail im.
Proof.
  intros [_ _ _ Hf _ Hsp _] Hq. destruct (Hsp q Hq) as [_ Hb]. destruct (appended_span q); lia.
Qed.

Lemma put_at_nil G off x : put_at G off [] x = G x.
Proof. apply put_at_out. unfold blen. cbn. lia. Qed.

Lemma blen_pos b : b ≠ [] → 0 < blen b.
Proof. destruct b; [done|]. unfold blen. cbn. lia. Qed.

Lemma blank_step (G : Z → ascii) qs off b k x :
  (∀ y, (∀ q, q ∈ qs → ¬ (span_off q ≤ y ∧ y < span_end q)) → G y = Ascii.zero) →
  (∀ q, q ∈ mkSpan off (off + blen b) k :: qs → ¬ (span_off q ≤ x ∧ x < span_end q)) →
  put_at G off b x = Ascii.zero.
Proof.
  intros HG Hx. rewrite put_at_out.
  - apply HG. intros q Hq. apply Hx. by right.
  - apply (Hx (mkSpan off (off + blen b) k)). by left.
Qed.

(** The ends after a patch. *)
Lemma patch_ends floor w im w' off b ti :
  implements floor w im → b ≠ [] → off + blen b ≤ floor →
  (∀ i, ends_ok floor w im ti i) →
  ((∀ j, ends w' j = ends w j) ∨
   ∃ k, ∀ j, ends w' j = if decide (k = j) then (off + blen b, true) else ends w j) →
  ∀ i, ends_ok floor w' (image_step im (Patch off b)) ti i.
Proof.
  intros Him Hb Hle Hti Hends i Hl. cbn [image_step]. rewrite decide_False by done.
  assert (ends w' i = ends w i ∨ ends w' i = (off + blen b, true)) as [He|He].
  { destruct Hends as [He|[k He]]; [by left|]. rewrite He. case_decide; [by right|by left]. }
  - injection He as He1 He2. rewrite He2 in Hl. rewrite He1.
    destruct (Hti i Hl) as [(q & Hq & ?)|[?|(Hi & (q & Hq & Ht & Hqe) & Hall)]].
    + left. exists q. split; [by right|done].
    + by right; left.
    + right; right. split; [done|]. split; [exists q; split; [by right|done]|].
      intros p [->|Hp]%elem_of_cons; [|by apply Hall]. cbn.
      destruct (impl_spans _ _ _ Him q Hq) as [Hlt Hs]. rewrite Ht in Hs. lia.
  - injection He as He1 _. left. exists (mkSpan off (off + blen b) false).
    split; [by left|]. by rewrite He1.
Qed.

Lemma patch_implements floor w im off b :
  implements floor w im → step_allowed floor im (Patch off b) →
  werr (patch w off b) = None →
  werr w = None ∧ implements floor (patch w off b) (image_step im (Patch off b)).
Proof.
  intros Him [Hoff Hle] Herr. pose proof Him as [Hs Hag Hm Hf Hz Hsp [ti Hti]].
  unfold patch, store in *.
  destruct (storeAt_ok w off b false _ Hs Hag) as [Hw Hag']; [|done|].
  { intros i x (_ & _ & He)%extends_spec ? ?. rewrite <-He in * by done. lia. }
  split; [done|]. cbn [image_step]. destruct (decide (b = [])) as [->|Hb].
  { assert (storeAt w off [] false = w) as Hst by (unfold storeAt; rewrite decide_True; auto).
    rewrite Hst in *. split; try done. intros x Hx. cbn [content]. rewrite put_at_nil. by apply Hz.
    by exists ti. }
  split; cbn [content itail spans].
  - by apply shaped_storeAt.
  - done.
  - by rewrite marks_storeAt.
  - done.
  - intros x. by apply blank_step.
  - intros q [->|Hq]%elem_of_cons; [|by apply Hsp]. pose proof (blen_pos b Hb).
    split; cbn; lia.
  - exists ti. pose proof (patch_ends floor w im (storeAt w off b false) off b ti Him Hb Hle Hti) as Hp.
    cbn [image_step] in Hp. rewrite decide_False in Hp by done. apply Hp.
    destruct (ends_storeAt w off b false Hs Hw Hb) as [[He _]|(k & He & _)]; [by left|right; by exists k].
Qed.

(** Of two windows near the tail, one ends where the last append did. *)
Lemma other_window_far floor w im at_ i k ti :
  implements floor w im → itail im ≤ at_ → Forall (hole_after im at_) (spans im) →
  (∀ i, ends_ok floor w im ti i) → tail_run floor im (run_end (run_at w ti)) →
  i = ti → k ≠ ti → live (run_at w k) = true →
  run_end (run_at w k) ≤ at_ ≤ run_end (run_at w k) + mergeRunMaxGap → False.
Proof.
  intros Him Hat Hh Hti [(q & Hq & Ht & Hqe) _] -> Hk Hl Hgap.
  destruct (impl_spans _ _ _ Him q Hq) as [Hq1 Hq2]. rewrite Ht in Hq2.
  pose proof (impl_floor _ _ _ Him).
  destruct (Hti k Hl) as [(p & Hp & Hpt & Hpe)|[?|(? & _)]]; [|lia|done].
  destruct (impl_spans _ _ _ Him p Hp) as [_ Hp2]. rewrite Hpt in Hp2.
  rewrite Forall_forall in Hh. specialize (Hh p Hp Hpt ltac:(lia) ltac:(lia)).
  rewrite Forall_forall in Hh. specialize (Hh q Hq). lia.
Qed.

Lemma run_at_live_lt w i : shaped w → live (run_at w i) = true → (i < mergeRunSlots)%nat.
Proof.
  intros (Hl & _) Hli. apply dec_stable. intros Hge. unfold run_at in Hli.
  by rewrite lookup_ge_None_2 in Hli by lia.
Qed.

Lemma append_ends floor w im w' at_ b ti :
  implements floor w im → b ≠ [] → itail im ≤ at_ → Forall (hole_after im at_) (spans im) →
  (∀ i, ends_ok floor w im ti i) →
  ((∀ j, ends w' j = ends w j) ∧
     ((∃ i, covers (run_at w i) at_ (at_ + blen b) = true) ∨
      mergeRunBytes < blen b + mergeRunMaxGap)) ∨
  (∃ k, (∀ j, ends w' j = if decide (k = j) then (at_ + blen b, true) else ends w j) ∧
     (extends (run_at w k) at_ true = true ∨
      ∀ j, (j < mergeRunSlots)%nat → extends (run_at w j) at_ true ≠ true)) →
  ∃ ti', ∀ i, ends_ok floor w'
    (mkImage (put_at (content im) at_ b) (at_ + blen b) (mkSpan at_ (at_ + blen b) true :: spans im)) ti' i.
Proof.
  intros Him Hb Hat Hh Hti Hends. pose proof (impl_shaped _ _ _ Him) as Hs.
  pose proof (blen_pos b Hb). unfold mergeRunBytes, ends_ok in *.
  destruct Hends as [[He Hbig]|(k & He & Hext)].
  - exists ti. intros i Hl. cbn [itail spans]. specialize (He i). injection He as He1 He2.
    rewrite He1. rewrite He2 in Hl. pose proof (run_end_le _ _ _ _ Him Hl) as Hre.
    destruct Hbig as [[c Hc]|Hbig].
    { pose proof (run_end_le _ _ _ _ Him (covers_live _ _ _ _ Hs Hc)).
      apply covers_spec in Hc. lia. }
    right; left. unfold mergeRunMaxGap in *. lia.
  - exists k. intros i Hl. cbn [itail spans]. specialize (He i).
    destruct (decide (k = i)) as [<-|Hki]; injection He as He1 He2; rewrite He1.
    + right; right. split; [done|]. split.
      * exists (mkSpan at_ (at_ + blen b) true). split; [by left|done].
      * intros q [->|Hq]%elem_of_cons; [done|]. pose proof (spans_end_le _ _ _ _ Him Hq). lia.
    + rewrite He2 in Hl. pose proof (run_end_le _ _ _ _ Him Hl) as Hre.
      destruct (Hti i Hl) as [(q & Hq & ?)|[?|(-> & Htr)]].
      * left. exists q. split; [by right|done].
      * right; left. lia.
      * destruct (decide (run_end (run_at w ti) + mergeRunMaxGap < at_)) as [|Hnear]; [right; left; lia|].
        exfalso. destruct Hext as [(Hlk & Hgap & _)%extends_spec|Hnone].
        -- by eapply (other_window_far floor w im at_ ti k ti).
        -- apply (Hnone ti (run_at_live_lt _ _ Hs Hl)). unfold extends.
           rewrite Hl, bool_decide_true by lia. by rewrite orb_true_r.
Qed.

Lemma agrees_set_tail w n G : agrees w G → agrees (set_tail w n) G.
Proof. intros [H1 H2 H3]. split; [exact H1|exact H2|exact H3]. Qed.

Lemma append_implements floor w im b alignTo :
  implements floor w im → step_allowed floor im (Append b alignTo) → werr w = None →
  werr (snd (appendAligned w b alignTo)) = None →
  fst (appendAligned w b alignTo) = align (itail im) alignTo ∧
  implements floor (snd (appendAligned w b alignTo)) (image_step im (Append b alignTo)).
Proof.
  intros Him [Hal Hh] Hw. pose proof Him as [Hs Hag Hm Hf Hz Hsp [ti Hti]].
  unfold appendAligned. rewrite Hw. cbn [fst snd image_step].
  assert (wtail w = itail im ∧ padFloor w = floor) as [Ht Hpf] by by (injection Hm).
  rewrite Ht. pose proof (align_bounds (itail im) alignTo Hal) as [Hat _].
  set (at_ := align (itail im) alignTo) in *. clearbody at_.
  unfold storeAppend. rewrite Hpf, decide_False by lia. intros Herr.
  change (werr (storeAt w at_ b true) = None) in Herr.
  split; [done|]. destruct (decide (b = [])) as [->|Hb].
  { assert (storeAt w at_ [] true = w) as -> by (unfold storeAt; rewrite decide_True; auto).
    unfold blen. cbn [length Z.of_nat]. rewrite Z.add_0_r. split; cbn [content itail spans].
    - done.
    - apply agrees_set_tail, (agrees_ext w (content im)); [intros x; by rewrite put_at_nil|done].
    - unfold marks. cbn. by rewrite Hpf.
    - lia.
    - intros x Hx. rewrite put_at_nil. by apply Hz.
    - intros q Hq. destruct (Hsp q Hq) as [? Hb]. split; [done|]. cbn.
      destruct (appended_span q); [lia|done].
    - exists ti. intros i Hl. change (live (run_at w i) = true) in Hl.
      change (run_at (set_tail w (at_)) i) with (run_at w i).
      destruct (Hti i Hl) as [?|[?|?]]; [by left|right; left; cbn; lia|by right; right]. }
  specialize (Hh Hb). pose proof (blen_pos b Hb).
  destruct (storeAt_ok w at_ b true _ Hs Hag) as [_ Hag']; [|done|].
  { intros i x (Hl & Hg & _)%extends_spec. by apply (pad_is_blank floor w im). }
  pose proof (marks_storeAt w at_ b true) as Hm'. rewrite Hm in Hm'.
  pose proof (shaped_storeAt w at_ b true Hs) as Hs'.
  pose proof (append_ends floor w im (storeAt w at_ b true) at_ b ti Him Hb Hat Hh Hti
    (ends_storeAt w at_ b true Hs Hw Hb)) as Hends.
  generalize dependent (storeAt w at_ b true). intros w' Herr Hag' Hm' Hs' Hends.
  split; cbn [content itail spans].
  - exact Hs'.
  - by apply agrees_set_tail.
  - unfold marks in *. cbn. injection Hm' as _ ->. done.
  - lia.
  - intros x. by apply blank_step.
  - intros q [->|Hq]%elem_of_cons; [split; cbn; lia|].
    destruct (Hsp q Hq) as [? Hb']. split; [done|]. cbn. destruct (appended_span q); [lia|done].
  - exact Hends.
Qed.

(** The only error of a writer is the sink's. *)
Definition sink_err (w : mergeWriter F) : Prop :=
  match werr w with Some (AppendBelowPrefix _ _) => False | _ => True end.

Lemma sink_err_writeThrough w off b : sink_err w → sink_err (writeThrough w off b).
Proof.
  unfold sink_err, writeThrough. destruct (werr w) as [e|] eqn:He; [by rewrite He|].
  destruct (WriteAt _ _ _); cbn; [by rewrite He|done].
Qed.

Lemma sink_err_set w rs : sink_err w → sink_err (set_runs w rs).
Proof. by destruct w. Qed.

Lemma sink_err_flushRun w i : sink_err w → sink_err (flushRun w i).
Proof. intros Hw. unfold flushRun. case_decide; [done|]. by apply sink_err_set, sink_err_writeThrough. Qed.

#[local] Transparent flush_where.
Lemma sink_err_flush_where P l w : sink_err w → sink_err (flush_where P l w).
Proof.
  unfold flush_where. revert w. induction l as [|i l IH]; intros w Hw; [done|]. cbn [fold_left].
  apply IH. destruct (P (run_at w i)); [by apply sink_err_flushRun|done].
Qed.
#[local] Opaque flush_where.

Lemma sink_err_storeAt w off b m : sink_err w → sink_err (storeAt w off b m).
Proof.
  intros Hw. unfold storeAt. case_decide; [done|]. case_match; [by apply sink_err_set|].
  case_decide; [by apply sink_err_writeThrough, sink_err_flush_where|]. case_match.
  - unfold extend_run, append_run.
    assert (sink_err (make_room w n off b)) as Hm.
    { unfold make_room. apply sink_err_flush_where. case_decide; [by apply sink_err_flushRun|done]. }
    case_decide; [apply sink_err_flushRun|]; by apply sink_err_set.
  - unfold open_run. apply sink_err_set, sink_err_flushRun.
    pose proof (sink_err_flush_where (λ r, overlaps r off (off + blen b)) slots w Hw) as Hf.
    unfold flushOverlapping. by destruct (flush_where _ _ w).
Qed.

(** A writer that met an error does nothing more. *)
Lemma do_op_err w o e : werr w = Some e → do_op w o = w.
Proof.
  intros He. destruct o as [off b|b a]; cbn [do_op].
  - unfold patch, store, storeAt. by rewrite decide_True by (left; congruence).
  - unfold appendAligned. by rewrite He.
Qed.

Lemma do_op_implements floor w im o :
  implements floor w im → step_allowed floor im o → werr w = None →
  sink_err (do_op w o) ∧ (werr (do_op w o) = None → implements floor (do_op w o) (image_step im o)).
Proof.
  intros Him Hal Hw. assert (sink_err w) as Hse by (unfold sink_err; by rewrite Hw).
  destruct o as [off b|b a]; cbn [do_op].
  - split; [by apply sink_err_storeAt|]. intros Herr. by apply patch_implements.
  - split; [|intros Herr; by apply append_implements].
    pose proof (impl_marks _ _ _ Him) as Hm. injection Hm as Ht Hf.
    pose proof (impl_floor _ _ _ Him). destruct Hal as [Hal _].
    pose proof (align_bounds (itail im) a Hal).
    unfold appendAligned. rewrite Hw. cbn [snd]. unfold storeAppend.
    rewrite Hf, Ht, decide_False by lia.
    pose proof (sink_err_storeAt w (align (itail im) a) b true Hse) as Hs.
    by destruct (storeAt w _ b true).
Qed.

Lemma do_ops_err w ops e : werr w = Some e → do_ops w ops = w.
Proof.
  intros He. induction ops as [|o ops IH]; [done|]. unfold do_ops in *. cbn [fold_left].
  by rewrite (do_op_err w o e He).
Qed.

Lemma do_ops_implements floor ops w im :
  implements floor w im → allowed floor im ops → werr w = None →
  sink_err (do_ops w ops) ∧
  (werr (do_ops w ops) = None → implements floor (do_ops w ops) (fold_left image_step ops im)).
Proof.
  revert w im. induction ops as [|o ops IH]; intros w im Him Hal Hw.
  { split; [|done]. unfold sink_err. cbn. by rewrite Hw. }
  destruct Hal as [Ho Hal]. destruct (do_op_implements _ _ _ _ Him Ho Hw) as [Hse Hi].
  change (do_ops w (o :: ops)) with (do_ops (do_op w o) ops). cbn [fold_left].
  destruct (werr (do_op w o)) as [e|] eqn:He.
  - rewrite (do_ops_err _ ops e He). split; [done|]. congruence.
  - by apply IH; [apply Hi|..].
Qed.

Lemma new_implements f floor :
  (∀ x, byteAt f x = Ascii.zero) → implements floor (newMergeWriter f floor) (blank floor).
Proof.
  intros Hf.
  assert (∀ i, run_at (newMergeWriter f floor) i = mkRun 0 [] false) as Hr.
  { intros i. unfold run_at. cbn [runs newMergeWriter].
    destruct (replicate _ _ !! i) as [r|] eqn:Hl; [|done]. by apply lookup_replicate in Hl as [-> _]. }
  split; cbn [blank content itail spans].
  - apply shaped_new.
  - split.
    + intros i x. rewrite Hr. by intros ?%in_run_nil.
    + intros x _. apply Hf.
    + intros i j x _. rewrite Hr. by intros ?%in_run_nil.
  - done.
  - lia.
  - done.
  - by intros q ?%elem_of_nil.
  - exists 0%nat. intros i. unfold ends_ok. by rewrite Hr.
Qed.

Lemma flushAll_sink w G x :
  shaped w → agrees w G → werr (flushAll w) = None → byteAt (sink (flushAll w)) x = G x.
Proof.
  rewrite flushAll_where. intros Hs Hag Herr.
  destruct (flush_where_ok _ _ _ _ Herr Hag) as [_ [_ Hsink _]]. apply Hsink.
  intros i. rewrite flush_where_at by apply slots_nodup. case_decide as Hi; [apply in_run_nil|].
  unfold in_run, run_end, blen.
  destruct (decide (i < mergeRunSlots)%nat) as [Hlt|Hge].
  - destruct Hi. split; [|done]. unfold slots. apply elem_of_seq. lia.
  - unfold run_at. rewrite lookup_ge_None_2 by (rewrite (proj1 Hs); lia). cbn. lia.
Qed.

(** ** What padding can lose *)

(** The bytes that an append may have padded over: those before one, as far as it can reach. *)
Definition padded_over (im : image) (x : Z) : Prop :=
  ∃ q, q ∈ spans im ∧ appended_span q = true ∧ span_off q - mergeRunMaxGap ≤ x < span_off q.

(** [G] is the image, but for bytes padded over. *)
Definition image_but_padding (im : image) (G : Z → ascii) : Prop :=
  ∀ x, G x = content im x ∨ (G x = Ascii.zero ∧ padded_over im x).

Lemma padded_over_step im o x : padded_over im x → padded_over (image_step im o) x.
Proof.
  intros (q & Hq & Hx). exists q. split; [|done]. destruct o; cbn [image_step spans]; case_decide; [done|by right|done|by right].
Qed.

Lemma image_but_padding_patch im G off b :
  image_but_padding im G → image_but_padding (image_step im (Patch off b)) (put_at G off b).
Proof.
  intros HG x. change (content (image_step im (Patch off b))) with (put_at (content im) off b).
  destruct (decide (off ≤ x ∧ x < off + blen b)).
  - left. unfold put_at. by rewrite !decide_True.
  - rewrite !put_at_out by done. destruct (HG x) as [?|[? Hp]]; [by left|right]. split; [done|]. by apply padded_over_step.
Qed.

Lemma image_but_padding_append im G e b alignTo :
  let at_ := align (itail im) alignTo in
  image_but_padding im G → (e = at_ ∨ b ≠ [] ∧ at_ - mergeRunMaxGap ≤ e) →
  image_but_padding (image_step im (Append b alignTo)) (put_at (padded G e at_) at_ b).
Proof.
  intros at_ HG He x. change (content (image_step im (Append b alignTo))) with (put_at (content im) at_ b).
  destruct (decide (at_ ≤ x ∧ x < at_ + blen b)).
  - left. unfold put_at. by rewrite !decide_True.
  - rewrite !put_at_out by done. unfold padded. case_decide as Hx.
    + right. split; [done|]. destruct He as [->|[Hb He]]; [lia|]. exists (mkSpan at_ (at_ + blen b) true).
      cbn [image_step spans]. rewrite decide_False by done. split; [by left|]. cbn. split; [done|]. lia.
    + destruct (HG x) as [?|[? Hp]]; [by left|right]. split; [done|]. by apply padded_over_step.
Qed.

Definition op_aligned (o : op) : Prop := match o with Append _ alignTo => alignment alignTo | Patch _ _ => True end.

#[export] Instance op_aligned_dec o : Decision (op_aligned o).
Proof. unfold op_aligned. destruct o; apply _. Defined.

(** What any stores keep. *)
Record follows_image (floor : Z) (w : mergeWriter F) (im : image) : Prop := mkFollowsImage {
  fi_shaped : shaped w;
  fi_agrees : ∃ G, agrees w G ∧ image_but_padding im G;
  fi_marks : marks w = (itail im, floor);
  fi_floor : floor ≤ itail im
}.

Lemma do_op_follows floor w im o :
  follows_image floor w im → op_aligned o → werr w = None →
  sink_err (do_op w o) ∧ (werr (do_op w o) = None → follows_image floor (do_op w o) (image_step im o)).
Proof.
  intros [Hs (G & Hag & HG) Hm Hfl] Hal Hw. assert (sink_err w) as Hse by (unfold sink_err; by rewrite Hw).
  destruct o as [off b|b a]; cbn [do_op].
  - split; [by apply sink_err_storeAt|]. unfold patch, store. intros Herr. split; [by apply shaped_storeAt| |by rewrite marks_storeAt|done].
    destruct (storeAt_pads w off b false G Hs Hag Herr) as (_ & e & He & Hag'). exists (put_at (padded G e off) off b).
    split; [done|]. assert (e = off) as -> by (destruct He as [->|(_ & i & (_ & _ & Hi)%extends_spec & <-)]; [done|by rewrite Hi]).
    apply image_but_padding_patch. intros x. rewrite padded_none. apply HG.
  - assert (wtail w = itail im ∧ padFloor w = floor) as [Ht Hpf] by by (injection Hm).
    cbn in Hal. pose proof (align_bounds (itail im) a Hal) as [Hat _]. unfold appendAligned. rewrite Hw. cbn [snd].
    unfold storeAppend. rewrite Hpf, Ht, decide_False by lia. set (at_ := align (itail im) a) in *. split.
    { pose proof (sink_err_storeAt w at_ b true Hse) as Hse'. by destruct (storeAt w at_ b true). }
    intros Herr. change (werr (storeAt w at_ b true) = None) in Herr.
    destruct (storeAt_pads w at_ b true G Hs Hag Herr) as (_ & e & He & Hag').
    pose proof (marks_storeAt w at_ b true) as Hm'. pose proof (shaped_storeAt w at_ b true Hs) as Hs'. split.
    + exact Hs'.
    + exists (put_at (padded G e at_) at_ b). split; [by apply agrees_set_tail|]. apply image_but_padding_append; [done|].
      destruct He as [->|(Hb & i & (_ & Hi & _)%extends_spec & <-)]; [by left|right]. fold at_. split; [done|lia].
    + unfold marks in *. cbn. injection Hm' as _ ->. by rewrite Hpf.
    + cbn [image_step itail]. fold at_. pose proof (blen_nonneg b). lia.
Qed.

Lemma do_ops_follows floor ops w im :
  follows_image floor w im → Forall op_aligned ops → werr w = None →
  sink_err (do_ops w ops) ∧
  (werr (do_ops w ops) = None → follows_image floor (do_ops w ops) (fold_left image_step ops im)).
Proof.
  revert w im. induction ops as [|o ops IH]; intros w im Hfi Hal Hw.
  { split; [|done]. unfold sink_err. cbn. by rewrite Hw. }
  apply Forall_cons in Hal as [Ho Hal]. destruct (do_op_follows _ _ _ _ Hfi Ho Hw) as [Hse Hi].
  change (do_ops w (o :: ops)) with (do_ops (do_op w o) ops). cbn [fold_left].
  destruct (werr (do_op w o)) as [e|] eqn:He.
  - rewrite (do_ops_err _ ops e He). split; [done|]. congruence.
  - by apply IH; [apply Hi|..].
Qed.

Lemma flushAll_err w : werr (flushAll w) = None → werr w = None.
Proof. rewrite flushAll_where. apply flush_where_err. Qed.

Lemma wtail_flushAll w : wtail (flushAll w) = wtail w.
Proof. rewrite flushAll_where. by destruct (flush_where_keeps (λ _, true) slots w) as (_ & _ & -> & _). Qed.

(** C7: The writer is the image, but for padding.  Whatever the stores and whatever windows they
    went through, over a blank sink and with appends at the layout's alignments: the writer
    fails only when its sink does; otherwise, after the final flush, the tail is where the
    image's is, and every byte of the sink is that of the last store to write it, zero where
    none did, or a zero that an append padded over it, at most the largest gap before the
    append.  Nothing is padded over, and the sink is the image exactly, if patches lie in the
    planned prefix and nothing was stored between the end of a patch and an append that starts
    at most the largest gap after it ([allowed]).  A merge can break that, and then loses the
    bytes ([Bm25MergeProps.merge_can_erase_postings]). *)
Theorem stores_reach_the_sink (f : F) (floor : Z) (ops : list op) :
  (∀ x, byteAt f x = Ascii.zero) → Forall op_aligned ops →
  let w := flushAll (do_ops (newMergeWriter f floor) ops) in
  let im := fold_left image_step ops (blank floor) in
  sink_err w ∧
  (werr w = None →
    wtail w = itail im ∧
    (∀ x, byteAt (sink w) x = content im x ∨ (byteAt (sink w) x = Ascii.zero ∧ padded_over im x)) ∧
    (allowed floor (blank floor) ops → ∀ x, byteAt (sink w) x = content im x)).
Proof.
  intros Hf Ho. cbv zeta. pose proof (new_implements f floor Hf) as Him.
  destruct (do_ops_follows floor ops (newMergeWriter f floor) (blank floor)) as [Hse Hfi]; [|done|done|].
  { destruct Him as [Hs Hag Hm Hfl _ _ _]. split; [done| |done|done]. exists (content (blank floor)). split; [done|]. intros x. by left. }
  pose proof (λ Hal, proj2 (do_ops_implements floor ops _ _ Him Hal eq_refl)) as Hi.
  generalize dependent (do_ops (newMergeWriter f floor) ops). intros w Hse Hfi Hi.
  split; [rewrite flushAll_where; by apply sink_err_flush_where|]. intros Herr. pose proof (flushAll_err w Herr) as Hw.
  destruct (Hfi Hw) as [Hs (G & Hag & HG) Hm _]. split; [rewrite wtail_flushAll; by injection Hm|]. split.
  - intros x. rewrite (flushAll_sink w G x Hs Hag Herr). apply HG.
  - intros Hal x. destruct (Hi Hal Hw) as [Hs' Hag' _ _ _ _ _]. by apply flushAll_sink.
Qed.

(** The windows never need more than the array allocated for them, whatever is stored and
    whether or not the sink fails. *)
Theorem windows_stay_within_their_array (f : F) (floor : Z) (ops : list op) :
  let w := do_ops (newMergeWriter f floor) ops in
  length (runs w) = mergeRunSlots ∧ Forall (λ r, blen (buf r) ≤ mergeRunBytes) (runs w).
Proof.
  cbv zeta. assert (shaped (do_ops (newMergeWriter f floor) ops)) as (Hl & _ & Hfit).
  { unfold do_ops. generalize (shaped_new f floor). generalize (newMergeWriter f floor).
    induction ops as [|o ops IH]; intros w Hw; [done|]. cbn [fold_left]. apply IH.
    destruct o as [off b|b a]; cbn [do_op]; [by apply shaped_storeAt|].
    unfold appendAligned. destruct (werr w); [done|]. cbn [snd].
    assert (shaped (storeAppend w (align (wtail w) a) b)) as Hst.
    { unfold storeAppend. case_decide; [by destruct w|by apply shaped_storeAt]. }
    by destruct (storeAppend w _ b). }
  split; [done|]. apply Forall_forall. intros r Hr.
  apply list_elem_of_lookup in Hr as [i Hi]. specialize (Hfit i). unfold run_at in Hfit.
  rewrite Hi in Hfit. apply Hfit.
Qed.

End Writer.

(** A prefix of sixteen bytes, a posting run, a block behind it and a pointer to the run. *)
Definition sample_ops : list op :=
  [Patch 0 (le 4 2); Append (le 4 7 ++ le 2 3) 4; Append (le 1 97) 1; Patch 8 (le 4 16);
   Append (le 4 1) 4].

Lemma stores_reach_the_sink_witness :
  allowed 16 (blank 16) sample_ops ∧
  let w := flushAll (do_ops (newMergeWriter ([] : bytes) 16) sample_ops) in
  wtail w = 28 ∧ ∀ x, byteAt (sink w) x = content (fold_left image_step sample_ops (blank 16)) x.
Proof.
  assert (allowed 16 (blank 16) sample_ops) as Hal by (apply (bool_decide_unpack _); vm_compute; exact I).
  split; [exact Hal|]. cbv zeta. pose proof (stores_reach_the_sink ([] : bytes) 16 sample_ops) as Hs.
  cbv zeta in Hs. destruct Hs as [_ Hs].
  - intros x. unfold byteAt, file_sink. by case_decide.
  - apply (bool_decide_unpack _). vm_compute. exact I.
  - destruct Hs as (Ht & _ & Hb); [vm_compute; reflexivity|]. split; [|by apply Hb].
    rewrite Ht. vm_compute. reflexivity.
Defined.
