(* ===== verification/Bm25Read.v ===== *)
(** * Reading a bm25 segment in place ([formats/bm25/mapped.go], [mapped_dict.go],
    [merge_cursor.go], [validate.go])

    A sealed segment is its bytes: opening it checks the header and where the fixed
    sections lie, and everything else is read through offsets when a query asks for it.
    What a read of damaged bytes does is a value here: a raise that the engine contains,
    an index panic of the runtime that it does not, or an unchecked read past the end of
    the blob.  The theorem: of a payload that [ValidateSegment] accepts, no read does any
    of these — if the first-term index of a front-coded dictionary has as many rows as it
    needs; with more rows than that, a search can raise on a payload that was accepted. *)

From Stdlib Require Import Ascii.
From S2P Require Import Prelude Supersession Bucket Bm25Layout.

Local Open Scope Z_scope.

(** ** What a read reports *)

Inductive openErr :=
| ShortBlob (len : Z)
| BadSerialVersion (v : Z)
| BadDeclaredLen (declared len : Z)
| UnknownDictKind (kind : Z)
| MisalignedSection (name : string) (off : Z)
| SectionOutside (name : string) (off size : Z).

Inductive corruption :=
| MemberSpan (i lo hi : Z)
| TermSpan (what : string) (off end_ : Z)
| PostingRun (count off : Z)
| DictionaryBlock (block : Z)
| DictionaryEntry (at_ : Z)
| BlockIndexPast (b : Z)
| BlockEntryPast (at_ : Z)
| FrontCodedHeader (off : Z)
| FrontCodedStep (shared suffixLen off : Z).

(** [Raise]: [RaiseCorruptIn] with the id of the segment whose bytes are [b]; a field and
    its segment share them.  [IndexPanic]: the runtime's bounds
    panic.  [WildRead]: [unsafe.Slice] or [unsafe.String] past the end of the blob. *)
Inductive readErr :=
| Refuse (e : openErr)
| Raise (b : bytes) (c : corruption)
| IndexPanic
| WildRead.

(** [binary.LittleEndian.Uint16/32/64(b[off:])] *)
Definition uint (w : nat) (b : bytes) (off : Z) : result readErr Z :=
  if decide (0 ≤ off ∧ off + Z.of_nat w ≤ blen b)
  then Ok (Z.of_N (get_le (take w (drop (Z.to_nat off) b))))
  else Err IndexPanic.

(** [b[lo:hi]] *)
Definition sub (b : bytes) (lo hi : Z) : result readErr bytes :=
  if decide (0 ≤ lo ∧ lo ≤ hi ∧ hi ≤ blen b)
  then Ok (take (Z.to_nat (hi - lo)) (drop (Z.to_nat lo) b))
  else Err IndexPanic.

(** [&b[off]] and [n] bytes from there on. *)
Definition view (b : bytes) (off n : Z) : result readErr bytes :=
  if decide (0 ≤ off ∧ off < blen b)
  then if decide (0 ≤ n ∧ off + n ≤ blen b)
       then Ok (take (Z.to_nat n) (drop (Z.to_nat off) b))
       else Err WildRead
  else Err IndexPanic.

(** The [n] words of [w] bytes in a view. *)
Fixpoint words (w n : nat) (b : bytes) : list Z :=
  match n with
  | O => []
  | S n => Z.of_N (get_le (take w b)) :: words w n (drop w b)
  end.

Definition uints (w : nat) (b : bytes) (off n : Z) : result readErr (list Z) :=
  if decide (n = 0) then Ok []
  else v <-- view b off (Z.of_nat w * n) ;; Ok (words w (Z.to_nat n) v).

Definition u32sAt (b : bytes) (off n : Z) : result readErr (list Z) := uints 4 b off n.
Definition u16sAt (b : bytes) (off n : Z) : result readErr (list Z) := uints 2 b off n.

Definition checkSection (name : string) (blobLen off size alignTo : Z) : result readErr unit :=
  if decide (Z.rem off alignTo ≠ 0) then Err (Refuse (MisalignedSection name off))
  else if decide (off < 0 ∨ size < 0 ∨ blobLen < off + size)
  then Err (Refuse (SectionOutside name off size))
  else Ok tt.

Definition of_bytes (b : bytes) : string := String.string_of_list_ascii b.

Definition termView (b : bytes) (termOff termLen : Z) (what : string) :
    result readErr string :=
  if decide (termLen = 0) then Ok ""
  else if decide (termOff < 0 ∨ termLen < 0 ∨ blen b < termOff + termLen)
  then Err (Raise b (TermSpan what termOff (termOff + termLen)))
  else v <-- view b termOff termLen ;; Ok (of_bytes v).

(** ** A segment and its fields *)

Record FieldConfig := mkConfig { cfgName : string; Boost : Z; B : Z }.

(** [Boost] and [B] are the bits of the stored doubles. *)
Record mappedField := mkField {
  fblob : bytes;
  config : FieldConfig;
  totalTokens : Z;
  lengths : list Z;
  kind : Z;
  termCount : Z;
  entriesOff : Z;
  slotsOff : Z;
  slotCount : Z;
  blockCount : Z;
  firstTermsOff : Z;
  blockIdxOff : Z
}.

Record mappedSegment := mkSegment {
  blob : bytes;
  dictKind : Z;
  docCount : Z;
  memberOffsets : list Z;
  fields : list mappedField
}.

Definition selfSegmentID (s : mappedSegment) : string := contentHash (blob s).

(** ** Opening *)

(** The dictionary header of a field, into the field under construction. *)
Definition openDict (mf : mappedField) (off : Z) : result readErr mappedField :=
  let b := fblob mf in
  let header := if decide (kind mf = dictFlat) then 8 else 16 in
  _ <-- checkSection "dictionary" (blen b) off header 8 ;;
  termCount <-- uint 4 b off ;;
  let mk entries slots slotc blocks firsts idx :=
    mkField (fblob mf) (config mf) (totalTokens mf) (lengths mf) (kind mf)
      termCount entries slots slotc blocks firsts idx in
  if decide (kind mf = dictBlocked) then
    blockCount <-- uint 4 b (off + 4) ;;
    firstTermsOff <-- uint 4 b (off + 8) ;;
    blockIdxOff <-- uint 4 b (off + 12) ;;
    _ <-- checkSection "dictionary first terms" (blen b) firstTermsOff (8 * blockCount) 4 ;;
    _ <-- checkSection "dictionary block index" (blen b) blockIdxOff (4 * blockCount) 4 ;;
    Ok (mk 0 0 0 blockCount firstTermsOff blockIdxOff)
  else if decide (kind mf = dictHash) then
    entriesOff <-- uint 4 b (off + 4) ;;
    slotsOff <-- uint 4 b (off + 8) ;;
    slotCount <-- uint 4 b (off + 12) ;;
    _ <-- checkSection "dictionary entries" (blen b) entriesOff (v2FlatEntrySize * termCount) 8 ;;
    _ <-- checkSection "dictionary hash slots" (blen b) slotsOff (v2HashSlotSize * slotCount) 8 ;;
    Ok (mk entriesOff slotsOff slotCount 0 0 0)
  else
    entriesOff <-- uint 4 b (off + 4) ;;
    _ <-- checkSection "dictionary entries" (blen b) entriesOff (v2FlatEntrySize * termCount) 8 ;;
    Ok (mk entriesOff 0 0 0 0 0).

Definition openField (s : mappedSegment) (e : Z) : result readErr mappedField :=
  let b := blob s in
  nameOff <-- uint 4 b (e + v2FldNameOff) ;;
  nameLen <-- uint 2 b (e + v2FldNameLen) ;;
  _ <-- checkSection "field name" (blen b) nameOff nameLen 1 ;;
  docLengthsOff <-- uint 4 b (e + v2FldDocLengths) ;;
  _ <-- checkSection "doc lengths" (blen b) docLengthsOff (4 * docCount s) 4 ;;
  name <-- sub b nameOff (nameOff + nameLen) ;;
  boost <-- uint 8 b (e + v2FldBoost) ;;
  bits <-- uint 8 b (e + v2FldB) ;;
  total <-- uint 8 b (e + v2FldTotalTokens) ;;
  lens <-- u32sAt b docLengthsOff (docCount s) ;;
  dictOff <-- uint 4 b (e + v2FldDict) ;;
  openDict (mkField b (mkConfig (of_bytes name) boost bits) (wrap64 total) lens
              (dictKind s) 0 0 0 0 0 0 0) dictOff.

Definition openDocFreqDict (s : mappedSegment) : result readErr unit :=
  let b := blob s in
  off <-- uint 4 b v2HdrDocFreqDict ;;
  _ <-- checkSection "docFreq dictionary" (blen b) off 8 8 ;;
  count <-- uint 4 b off ;;
  rows <-- uint 4 b (off + 4) ;;
  checkSection "docFreq rows" (blen b) rows (v2DocFreqRowSize * count) 8.

(** The loop over the field table. *)
Fixpoint openFields (s : mappedSegment) (n : nat) (e : Z) : result readErr (list mappedField) :=
  match n with
  | O => Ok []
  | S n =>
      mf <-- openField s e ;;
      rest <-- openFields s n (e + v2FieldEntrySize) ;;
      Ok (mf :: rest)
  end.

Definition openSegmentV2 (b : bytes) : result readErr mappedSegment :=
  if decide (blen b < v2HeaderSize) then Err (Refuse (ShortBlob (blen b)))
  else
    v <-- uint 1 b v2HdrVersion ;;
    if decide (v ≠ serialVersion) then Err (Refuse (BadSerialVersion v))
    else
      declared <-- uint 4 b v2HdrBlobLen ;;
      if decide (declared ≠ blen b) then Err (Refuse (BadDeclaredLen declared (blen b)))
      else
        k <-- uint 1 b v2HdrDictKind ;;
        docs <-- uint 4 b v2HdrDocCount ;;
        if decide (dictHash < k) then Err (Refuse (UnknownDictKind k))
        else
          fieldCount <-- uint 2 b v2HdrFieldCount ;;
          memberOffsetsOff <-- uint 4 b v2HdrMemberOffsets ;;
          fieldTableOff <-- uint 4 b v2HdrFieldTable ;;
          _ <-- checkSection "member offsets" (blen b) memberOffsetsOff (4 * (docs + 1)) 4 ;;
          offsets <-- u32sAt b memberOffsetsOff (docs + 1) ;;
          _ <-- checkSection "field table" (blen b) fieldTableOff (v2FieldEntrySize * fieldCount) 8 ;;
          let s := mkSegment b k docs offsets [] in
          _ <-- openDocFreqDict s ;;
          fs <-- openFields s (Z.to_nat fieldCount) fieldTableOff ;;
          Ok (mkSegment b k docs offsets fs).

(** ** Members *)

(** [s.memberOffsets[i]] *)
Definition offset_at (s : mappedSegment) (i : Z) : result readErr Z :=
  if decide (i < 0) then Err IndexPanic
  else match memberOffsets s !! Z.to_nat i with Some o => Ok o | None => Err IndexPanic end.

Definition member (s : mappedSegment) (i : Z) : result readErr string :=
  lo <-- offset_at s i ;;
  hi <-- offset_at s (i + 1) ;;
  if decide (hi < lo ∨ blen (blob s) < hi) then Err (Raise (blob s) (MemberSpan i lo hi))
  else v <-- view (blob s) lo (hi - lo) ;; Ok (of_bytes v).

(** [for i := range n { out = append(out, f(i)) }] *)
Fixpoint each {A} (f : Z → result readErr A) (n : nat) (i : Z) : result readErr (list A) :=
  match n with
  | O => Ok []
  | S n => x <-- f i ;; rest <-- each f n (i + 1) ;; Ok (x :: rest)
  end.

Definition IDs (s : mappedSegment) : result readErr (list string) :=
  each (member s) (Z.to_nat (docCount s)) 0.

(** ** Document frequencies *)

Definition docFreqHeader (s : mappedSegment) : result readErr (Z * Z) :=
  off <-- uint 4 (blob s) v2HdrDocFreqDict ;;
  count <-- uint 4 (blob s) off ;;
  rows <-- uint 4 (blob s) (off + 4) ;;
  Ok (count, rows).

Definition docFreqRow (s : mappedSegment) (rows i : Z) : result readErr (string * Z) :=
  let at_ := rows + v2DocFreqRowSize * i in
  termOff <-- uint 4 (blob s) at_ ;;
  termLen <-- uint 4 (blob s) (at_ + 4) ;;
  df <-- uint 8 (blob s) (at_ + 8) ;;
  if decide (termOff < 0 ∨ termLen < 0 ∨ blen (blob s) < termOff + termLen)
  then Err (Raise (blob s) (TermSpan "docFreq term" termOff (termOff + termLen)))
  else
    t <-- termView (blob s) termOff termLen "docFreq term" ;;
    Ok (t, wrap64 df).

Definition docFreqEach (s : mappedSegment) : result readErr (list (string * Z)) :=
  h <-- docFreqHeader s ;;
  each (docFreqRow s (snd h)) (Z.to_nat (fst h)) 0.

(** A binary search [for lo < hi] over rows that may fail to read: [probe] says where the
    wanted one is, [inl] ends the search.  The interval halves, so its length is fuel. *)
Fixpoint bisect {A} (probe : Z → result readErr (A + bool)) (fuel : nat) (lo hi : Z) :
    result readErr (A + Z) :=
  match fuel with
  | O => Ok (inr lo)
  | S fuel =>
      if decide (lo < hi) then
        let mid := (lo + hi) / 2 in
        r <-- probe mid ;;
        match r with
        | inl a => Ok (inl a)
        | inr true => bisect probe fuel (mid + 1) hi
        | inr false => bisect probe fuel lo mid
        end
      else Ok (inr lo)
  end.

Definition segmentDocFreq (s : mappedSegment) (term : string) : result readErr Z :=
  h <-- docFreqHeader s ;;
  let '(count, rows) := h in
  r <-- bisect (λ mid,
          row <-- docFreqRow s rows mid ;;
          let '(got, df) := row in
          Ok (if decide (got = term) then inl df else inr (bool_decide (got <s term))))
        (Z.to_nat count) 0 count ;;
  Ok (match r with inl df => df | inr _ => 0 end).

(** ** Dictionaries *)

Definition entryAt (mf : mappedField) (i : Z) : result readErr (string * Z * Z) :=
  let at_ := entriesOff mf + v2FlatEntrySize * i in
  termOff <-- uint 4 (fblob mf) at_ ;;
  termLen <-- uint 4 (fblob mf) (at_ + 4) ;;
  postOff <-- uint 4 (fblob mf) (at_ + 8) ;;
  postCount <-- uint 4 (fblob mf) (at_ + 12) ;;
  term <-- termView (fblob mf) termOff termLen "dictionary term" ;;
  Ok (term, postOff, postCount).

Definition postings (mf : mappedField) (off count : Z) : result readErr (list Z * list Z) :=
  if decide (count = 0) then Ok ([], [])
  else if decide (Z.rem off 4 ≠ 0 ∨ blen (fblob mf) < off + 6 * count)
  then Err (Raise (fblob mf) (PostingRun count off))
  else
    docs <-- u32sAt (fblob mf) off count ;;
    tfs <-- u16sAt (fblob mf) (off + 4 * count) count ;;
    Ok (docs, tfs).

(** A posting run's place, or a miss. *)
Definition found : Type := option (Z * Z).

Definition lookupFlat (mf : mappedField) (term : string) : result readErr found :=
  r <-- bisect (λ mid,
          e <-- entryAt mf mid ;;
          let '(got, o, c) := e in
          Ok (if decide (got = term) then inl (o, c) else inr (bool_decide (got <s term))))
        (Z.to_nat (termCount mf)) 0 (termCount mf) ;;
  Ok (match r with inl oc => Some oc | inr _ => None end).

Definition to_bytes (s : string) : bytes := id_bytes s.

(** The probe loop; it runs at most once per slot. *)
Fixpoint probeSlots (mf : mappedField) (term : string) (fingerprint mask : Z) (fuel : nat)
    (slot : Z) : result readErr found :=
  match fuel with
  | O => Ok None
  | S fuel =>
      let at_ := slotsOff mf + v2HashSlotSize * slot in
      idx <-- uint 4 (fblob mf) (at_ + 4) ;;
      if decide (idx = hashEmptySlot) then Ok None
      else
        fp <-- uint 4 (fblob mf) at_ ;;
        let continue_ := probeSlots mf term fingerprint mask fuel (Z.land (slot + 1) mask) in
        if decide (fp = fingerprint ∧ idx < termCount mf) then
          e <-- entryAt mf idx ;;
          let '(got, o, c) := e in
          if decide (got = term) then Ok (Some (o, c)) else continue_
        else continue_
  end.

Definition lookupHash (mf : mappedField) (term : string) : result readErr found :=
  if decide (slotCount mf = 0) then Ok None
  else
    let h := termHash (to_bytes term) in
    let mask := slotCount mf - 1 in
    probeSlots mf term (Z.shiftr h 32) mask (Z.to_nat (slotCount mf)) (Z.land h mask).

Definition firstTermAt (mf : mappedField) (b : Z) : result readErr string :=
  let at_ := firstTermsOff mf + 8 * b in
  termOff <-- uint 4 (fblob mf) at_ ;;
  termLen <-- uint 4 (fblob mf) (at_ + 4) ;;
  termView (fblob mf) termOff termLen "block first term".

Definition blockEntry (mf : mappedField) (at_ : Z) : result readErr found :=
  if decide (at_ < 0 ∨ blen (fblob mf) < at_ + 8) then Err (Raise (fblob mf) (BlockEntryPast at_))
  else
    off <-- uint 4 (fblob mf) at_ ;;
    count <-- uint 4 (fblob mf) (at_ + 4) ;;
    Ok (Some (off, count)).

(** One front-coded entry: the previous term's buffer extended, and the offset behind it. *)
Definition stepFrontCoded (b : bytes) (off : Z) (prev : bytes) :
    result readErr (bytes * Z) :=
  if decide (off < 0 ∨ blen b < off + 4) then Err (Raise b (FrontCodedHeader off))
  else
    shared <-- uint 2 b off ;;
    suffixLen <-- uint 2 b (off + 2) ;;
    let off := off + 4 in
    if decide (blen prev < shared ∨ blen b < off + suffixLen)
    then Err (Raise b (FrontCodedStep shared suffixLen off))
    else
      suffix <-- sub b off (off + suffixLen) ;;
      Ok (take (Z.to_nat shared) prev ++ suffix, off + suffixLen).

(** The loop of [scanBlock] over the rest of a block. *)
Fixpoint scanTerms (mf : mappedField) (term : string) (n : nat) (scratch : bytes) (at_ : Z) :
    result readErr found :=
  match n with
  | O => Ok None
  | S n =>
      st <-- stepFrontCoded (fblob mf) at_ scratch ;;
      let '(scratch, at_) := st in
      let got := of_bytes scratch in
      if decide (got = term) then blockEntry mf at_
      else if decide (term <s got) then Ok None
      else scanTerms mf term n scratch (at_ + 8)
  end.

Definition scanBlock (mf : mappedField) (b : Z) (term : string) : result readErr found :=
  first <-- firstTermAt mf b ;;
  let idxAt := blockIdxOff mf + 4 * b in
  if decide (idxAt < 0 ∨ blen (fblob mf) < idxAt + 4) then Err (Raise (fblob mf) (BlockIndexPast b))
  else
    at_ <-- uint 4 (fblob mf) idxAt ;;
    if decide (first = term) then blockEntry mf at_
    else
      let start := b * blockedBlockTerms in
      let end_ := Z.min (start + blockedBlockTerms) (termCount mf) in
      scanTerms mf term (Z.to_nat (end_ - start - 1)) (to_bytes first) (at_ + 8).

Definition lookupBlocked (mf : mappedField) (term : string) : result readErr found :=
  r <-- bisect (λ mid,
          first <-- firstTermAt mf mid ;;
          Ok (inr (A := unit) (bool_decide (first <=s term))))
        (Z.to_nat (blockCount mf)) 0 (blockCount mf) ;;
  match r with
  | inr lo => if decide (lo = 0) then Ok None else scanBlock mf (lo - 1) term
  | inl _ => Ok None
  end.

Definition lookup_term (mf : mappedField) (term : string) : result readErr found :=
  if decide (kind mf = dictBlocked) then lookupBlocked mf term
  else if decide (kind mf = dictHash) then lookupHash mf term
  else lookupFlat mf term.

(** [lookup]: the posting run of a term, [None] on a miss. *)
Definition lookup (mf : mappedField) (term : string) :
    result readErr (option (list Z * list Z)) :=
  if decide (termCount mf = 0) then Ok None
  else
    r <-- lookup_term mf term ;;
    match r with
    | None => Ok None
    | Some (off, count) => p <-- postings mf off count ;; Ok (Some p)
    end.

(** ** Walking a dictionary in term order *)

Record dictIter := mkIter {
  it_mf : mappedField;
  it_idx : Z;
  it_at : Z;
  it_scratch : bytes;
  it_term : string;
  it_postOff : Z;
  it_count : Z
}.

Definition iter (mf : mappedField) : dictIter := mkIter mf 0 0 [] "" 0 0.

Definition openBlock (it : dictIter) : result readErr (bytes * Z) :=
  let mf := it_mf it in
  let block := it_idx it / blockedBlockTerms in
  let at_ := blockIdxOff mf + 4 * block in
  if decide (block < 0 ∨ blockCount mf ≤ block ∨ at_ < 0 ∨ blen (fblob mf) < at_ + 4)
  then Err (Raise (fblob mf) (DictionaryBlock block))
  else
    a <-- uint 4 (fblob mf) at_ ;;
    first <-- firstTermAt mf block ;;
    Ok (to_bytes first, a).

Definition extendPreviousTerm (it : dictIter) : result readErr (bytes * Z) :=
  stepFrontCoded (fblob (it_mf it)) (it_at it) (it_scratch it).

(** The posting run's place, behind the term at [at_]. *)
Definition readEntry (mf : mappedField) (at_ : Z) : result readErr (Z * Z) :=
  if decide (at_ < 0 ∨ blen (fblob mf) < at_ + 8) then Err (Raise (fblob mf) (DictionaryEntry at_))
  else
    off <-- uint 4 (fblob mf) at_ ;;
    count <-- uint 4 (fblob mf) (at_ + 4) ;;
    Ok (off, count).

Definition nextBlocked (it : dictIter) : result readErr dictIter :=
  st <-- (if decide (it_idx it mod blockedBlockTerms = 0) then openBlock it
          else extendPreviousTerm it) ;;
  let '(scratch, at_) := st in
  e <-- readEntry (it_mf it) at_ ;;
  Ok (mkIter (it_mf it) (it_idx it) (at_ + 8) scratch (of_bytes scratch) (fst e) (snd e)).

(** [next]: the iterator at the next term, [None] when the dictionary is exhausted. *)
Definition next (it : dictIter) : result readErr (option dictIter) :=
  let mf := it_mf it in
  if decide (termCount mf ≤ it_idx it) then Ok None
  else
    it' <-- (if decide (kind mf = dictBlocked) then nextBlocked it
             else
               e <-- entryAt mf (it_idx it) ;;
               let '(term, off, count) := e in
               Ok (mkIter mf (it_idx it) (it_at it) (it_scratch it) term off count)) ;;
    Ok (Some (mkIter mf (it_idx it + 1) (it_at it') (it_scratch it') (it_term it')
                (it_postOff it') (it_count it'))).

(** [eachTerm]: every term with its run; one round per term. *)
Fixpoint walkTerms (n : nat) (it : dictIter) : result readErr (list (string * (list Z * list Z))) :=
  match n with
  | O => Ok []
  | S n =>
      r <-- next it ;;
      match r with
      | None => Ok []
      | Some it =>
          p <-- postings (it_mf it) (it_postOff it) (it_count it) ;;
          rest <-- walkTerms n it ;;
          Ok ((it_term it, p) :: rest)
      end
  end.

Definition eachTerm (mf : mappedField) : result readErr (list (string * (list Z * list Z))) :=
  walkTerms (Z.to_nat (termCount mf)) (iter mf).

(** ** [ValidateSegment] *)

Fixpoint each_field (fs : list mappedField) : result readErr unit :=
  match fs with
  | [] => Ok tt
  | mf :: fs => _ <-- eachTerm mf ;; each_field fs
  end.

Definition ValidateSegment (payload : bytes) : result readErr unit :=
  seg <-- openSegmentV2 payload ;;
  _ <-- each_field (fields seg) ;;
  _ <-- IDs seg ;;
  _ <-- docFreqEach seg ;;
  Ok tt.

(** ** Reads in range *)

Ltac ok_bind H x :=
  let r := fresh "r" in
  match type of H with
  | result_bind ?m _ = Ok _ =>
      destruct m as [x|r] eqn:?; cbn [result_bind] in H; [|discriminate H]
  end.

Definition reads {E A} (r : result E A) : Prop := ∃ a, r = Ok a.

Lemma uint_in_range w b off : 0 ≤ off → off + Z.of_nat w ≤ blen b → reads (uint w b off).
Proof. intros. unfold uint. rewrite decide_True by done. by eexists. Qed.

Lemma get_le_bound b : (get_le b < 256 ^ N.of_nat (length b))%N.
Proof.
  induction b as [|c b IH]; [done|]. cbn [get_le length]. rewrite Nat2N.inj_succ, N.pow_succ_r'.
  pose proof (N_ascii_bounded c). lia.
Qed.

Lemma uint_bounds w b off v : uint w b off = Ok v → 0 ≤ v < 256 ^ Z.of_nat w.
Proof.
  unfold uint. case_decide as Hr; [|done]. intros [= <-].
  pose proof (get_le_bound (take w (drop (Z.to_nat off) b))) as Hb.
  rewrite length_take, length_drop in Hb. unfold blen in Hr. rewrite Nat.min_l in Hb by lia.
  split; [lia|]. apply N2Z.inj_lt in Hb. rewrite N2Z.inj_pow in Hb. by rewrite nat_N_Z in Hb.
Qed.

Lemma uint_range w b off v : uint w b off = Ok v → 0 ≤ off ∧ off + Z.of_nat w ≤ blen b.
Proof. unfold uint. by case_decide. Qed.

Lemma checkSection_ok name n off size a u :
  checkSection name n off size a = Ok u → Z.rem off a = 0 ∧ 0 ≤ off ∧ 0 ≤ size ∧ off + size ≤ n.
Proof. unfold checkSection. repeat case_decide; try done. intros _. lia. Qed.

Lemma each_ok {A} (f : Z → result readErr A) n i l k :
  each f n i = Ok l → (k < n)%nat → reads (f (i + Z.of_nat k)).
Proof.
  revert i l k. induction n as [|n IH]; intros i l k Hl Hk; [lia|]. cbn [each] in Hl.
  ok_bind Hl x. ok_bind Hl rest. destruct k as [|k].
  - rewrite Z.add_0_r. by exists x.
  - replace (i + Z.of_nat (S k)) with (i + 1 + Z.of_nat k) by lia. eapply IH; [done|lia].
Qed.

Lemma bisect_reads {A} (probe : Z → result readErr (A + bool)) fuel lo hi :
  (∀ i, lo ≤ i → i < hi → reads (probe i)) → lo ≤ hi →
  ∃ r, bisect probe fuel lo hi = Ok r ∧
    match r with
    | inl a => ∃ i, lo ≤ i ∧ i < hi ∧ probe i = Ok (inl a)
    | inr p => lo ≤ p ∧ p ≤ hi
    end.
Proof.
  revert lo hi. induction fuel as [|fuel IH]; intros lo hi Hp Hle; cbn [bisect].
  { exists (inr lo). split; [done|lia]. }
  case_decide as Hlt; [|exists (inr lo); split; [done|lia]].
  assert (lo ≤ (lo + hi) / 2 ∧ (lo + hi) / 2 < hi) as [Hm1 Hm2].
  { split; [apply Z.div_le_lower_bound|apply Z.div_lt_upper_bound]; lia. }
  destruct (Hp _ Hm1 Hm2) as [x Hx]. rewrite Hx. cbn [result_bind]. destruct x as [a|[]].
  - exists (inl a). split; [done|]. by exists ((lo + hi) / 2).
  - destruct (IH ((lo + hi) / 2 + 1) hi) as (r & Hr & Hpost); [intros; apply Hp; lia|lia|].
    exists r. split; [done|]. destruct r as [a|p]; [|lia]. destruct Hpost as (i & ? & ? & ?).
    exists i. split; [lia|done].
  - destruct (IH lo ((lo + hi) / 2)) as (r & Hr & Hpost); [intros; apply Hp; lia|lia|].
    exists r. split; [done|]. destruct r as [a|p]; [|lia]. destruct Hpost as (i & ? & ? & ?).
    exists i. split; [lia|]. split; [lia|done].
Qed.

(** ** What opening establishes of a field *)

Record field_ok (b : bytes) (k : Z) (mf : mappedField) : Prop := mkFieldOk {
  fok_blob : fblob mf = b;
  fok_kind : kind mf = k;
  fok_count : 0 ≤ termCount mf;
  fok_blocks : 0 ≤ blockCount mf;
  fok_slots : k = dictHash → 0 ≤ slotsOff mf ∧ 0 ≤ slotCount mf ∧
    slotsOff mf + v2HashSlotSize * slotCount mf ≤ blen b;
  fok_entries : k ≠ dictBlocked →
    0 ≤ entriesOff mf ∧ entriesOff mf + v2FlatEntrySize * termCount mf ≤ blen b;
  fok_index : k = dictBlocked →
    0 ≤ firstTermsOff mf ∧ firstTermsOff mf + 8 * blockCount mf ≤ blen b ∧
    0 ≤ blockIdxOff mf ∧ blockIdxOff mf + 4 * blockCount mf ≤ blen b
}.

Ltac read_bounds :=
  repeat match goal with
  | H : uint _ _ _ = Ok _ |- _ => apply uint_bounds in H
  | H : checkSection _ _ _ _ _ = Ok _ |- _ => apply checkSection_ok in H
  end.

Lemma openDict_ok mf off mf' :
  openDict mf off = Ok mf' →
  0 ≤ termCount mf' ∧ field_ok (fblob mf) (kind mf) mf'.
Proof.
  unfold openDict. intros Hd. ok_bind Hd u0. ok_bind Hd n0.
  destruct (decide (kind mf = dictBlocked)) as [Hk|Hk];
    [|destruct (decide (kind mf = dictHash)) as [Hk'|Hk']];
    repeat match type of Hd with result_bind _ _ = Ok _ => let x := fresh "x" in ok_bind Hd x end;
    injection Hd as <-; read_bounds; (split; [|split]); cbn; try done; try lia.
  all: intros Hkk; try (rewrite Hkk in *; done); split_and!; lia.
Qed.

Lemma openFields_ok s n e fs mf :
  openFields s n e = Ok fs → mf ∈ fs → field_ok (blob s) (dictKind s) mf.
Proof.
  revert e fs. induction n as [|n IH]; intros e fs Hfs Hin; cbn [openFields] in Hfs.
  { injection Hfs as <-. by apply elem_of_nil in Hin. }
  ok_bind Hfs x. ok_bind Hfs rest. injection Hfs as <-.
  apply elem_of_cons in Hin as [->|Hin]; [|by eapply IH].
  match goal with H : openField s e = Ok _ |- _ => rename H into Hf end. unfold openField in Hf.
  repeat match type of Hf with result_bind _ _ = Ok _ => let y := fresh "y" in ok_bind Hf y end.
  by apply openDict_ok in Hf as [_ Hf].
Qed.

Lemma openSegment_fields b s mf :
  openSegmentV2 b = Ok s → mf ∈ fields s → field_ok b (dictKind s) mf.
Proof.
  unfold openSegmentV2. intros Ho Hin.
  repeat first [ case_decide; [discriminate Ho|]
    | match type of Ho with result_bind _ _ = Ok _ => let y := fresh "y" in ok_bind Ho y end ].
  cbv zeta in Ho. repeat match type of Ho with result_bind _ _ = Ok _ => let y := fresh "y" in ok_bind Ho y end.
  injection Ho as <-. by eapply (openFields_ok _ _ _ _ _) in Hin; [|done].
Qed.

(** ** A walk that ends well has read every term *)

(** A lookup's answer points at a run that reads. *)
Definition good_found (mf : mappedField) (r : result readErr found) : Prop :=
  ∃ o, r = Ok o ∧ match o with None => True | Some (off, count) => reads (postings mf off count) end.

Lemma next_spec it it' :
  next it = Ok (Some it') →
  it_mf it' = it_mf it ∧ it_idx it' = it_idx it + 1 ∧ it_idx it < termCount (it_mf it).
Proof.
  unfold next. case_decide; [done|]. intros Hn. ok_bind Hn x. injection Hn as <-. cbn.
  split_and!; [done..|lia].
Qed.

Lemma next_more it n l :
  walkTerms (S n) it = Ok l → it_idx it < termCount (it_mf it) →
  ∃ it' l', next it = Ok (Some it') ∧ walkTerms n it' = Ok l' ∧
    reads (postings (it_mf it) (it_postOff it') (it_count it')).
Proof.
  cbn [walkTerms]. intros Hw Hlt. ok_bind Hw r. destruct r as [it'|].
  - ok_bind Hw p. ok_bind Hw rest. exists it', rest. split_and!; [done..|].
    match goal with H : next it = Ok _ |- _ => apply next_spec in H as (Hmf & _) end.
    rewrite Hmf in *. by exists p.
  - exfalso. match goal with H : next it = Ok _ |- _ => revert H end. unfold next.
    rewrite decide_False by lia. intros Hn. by ok_bind Hn y.
Qed.

(** The iterator before the term of index [i]. *)
Lemma walk_reaches it i l :
  walkTerms (Z.to_nat (termCount (it_mf it) - it_idx it)) it = Ok l →
  it_idx it ≤ i → i < termCount (it_mf it) →
  ∃ it' l', it_mf it' = it_mf it ∧ it_idx it' = i ∧
    walkTerms (Z.to_nat (termCount (it_mf it) - i)) it' = Ok l'.
Proof.
  remember (Z.to_nat (i - it_idx it)) as k eqn:Hk. revert it l Hk.
  induction k as [|k IH]; intros it l Hk Hw Hle Hlt.
  { exists it, l. assert (it_idx it = i) as <- by lia. done. }
  replace (Z.to_nat (termCount (it_mf it) - it_idx it))
    with (S (Z.to_nat (termCount (it_mf it) - it_idx it - 1))) in Hw by lia.
  apply next_more in Hw as (it1 & l1 & Hn & Hw & _); [|lia].
  destruct (next_spec _ _ Hn) as (Hmf & Hidx & _).
  destruct (IH it1 l1) as (it' & l' & Hmf' & Hidx' & Hw').
  - lia.
  - rewrite Hmf, Hidx. replace (_ - _) with (termCount (it_mf it) - it_idx it - 1) by lia. done.
  - lia.
  - by rewrite Hmf.
  - rewrite Hmf in *. by exists it', l'.
Qed.

Lemma walk_term mf i l :
  eachTerm mf = Ok l → 0 ≤ i → i < termCount mf →
  ∃ it it' n l', it_mf it = mf ∧ it_idx it = i ∧ next it = Ok (Some it') ∧
    walkTerms n it' = Ok l' ∧ n = Z.to_nat (termCount mf - i - 1) ∧
    reads (postings mf (it_postOff it') (it_count it')).
Proof.
  intros Hw Hi Hlt. unfold eachTerm in Hw.
  destruct (walk_reaches (iter mf) i l) as (it & l1 & Hmf & Hidx & Hw1); cbn; [|lia|done|].
  { by rewrite Z.sub_0_r. }
  cbn in Hmf, Hw1. rewrite <-Hmf in Hw1, Hlt.
  replace (Z.to_nat (termCount (it_mf it) - i))
    with (S (Z.to_nat (termCount (it_mf it) - i - 1))) in Hw1 by lia.
  apply next_more in Hw1 as (it' & l' & Hn & Hw' & Hp); [|lia]. rewrite Hmf in *.
  by exists it, it', (Z.to_nat (termCount mf - i - 1)), l'.
Qed.

Lemma next_flat it it' :
  kind (it_mf it) ≠ dictBlocked → next it = Ok (Some it') →
  entryAt (it_mf it) (it_idx it) = Ok (it_term it', it_postOff it', it_count it').
Proof.
  intros Hk. unfold next. case_decide; [done|]. rewrite decide_False by done. intros Hn.
  ok_bind Hn x. destruct (entryAt _ _) as [[[t o] c]|] eqn:He; [|done]. cbn in *. by simplify_eq/=.
Qed.

(** Flat rows: each reads, and so does its run. *)
Lemma entry_reads mf i l :
  eachTerm mf = Ok l → kind mf ≠ dictBlocked → 0 ≤ i → i < termCount mf →
  ∃ t off count, entryAt mf i = Ok (t, off, count) ∧ reads (postings mf off count).
Proof.
  intros Hw Hk Hi Hlt. destruct (walk_term mf i l Hw Hi Hlt) as (it & it' & _ & _ & Hmf & Hidx & Hn & _ & _ & Hp).
  subst mf i. eexists _, _, _. split; [by apply next_flat|done].
Qed.

Lemma lookupFlat_good mf term l :
  eachTerm mf = Ok l → kind mf ≠ dictBlocked → 0 ≤ termCount mf → good_found mf (lookupFlat mf term).
Proof.
  intros Hw Hk Hc. unfold lookupFlat.
  set (probe := λ mid, e <-- entryAt mf mid ;; _).
  destruct (bisect_reads probe (Z.to_nat (termCount mf)) 0 (termCount mf)) as (r & Hr & Hpost); [|done|].
  { intros i Hi Hlt. destruct (entry_reads mf i l Hw Hk Hi Hlt) as (t & o & c & He & _).
    unfold probe. rewrite He. by eexists. }
  rewrite Hr. cbn [result_bind]. destruct r as [[o c]|p]; [|by exists None].
  exists (Some (o, c)). split; [done|]. destruct Hpost as (i & Hi & Hlt & Hpr).
  destruct (entry_reads mf i l Hw Hk Hi Hlt) as (t & o' & c' & He & Hp).
  unfold probe in Hpr. rewrite He in Hpr. cbn [result_bind] in Hpr.
  case_decide; [|done]. by injection Hpr as <- <-.
Qed.

Lemma land_mask a m : 0 ≤ a → 0 ≤ m → 0 ≤ Z.land a m ≤ m.
Proof.
  intros Ha Hm. rewrite <-(Z2N.id a), <-(Z2N.id m), <-N2Z.inj_land by done.
  pose proof (N.land_le_r (Z.to_N a) (Z.to_N m)). lia.
Qed.

Lemma probeSlots_good mf b term l fp fuel slot :
  eachTerm mf = Ok l → field_ok b dictHash mf → 0 < slotCount mf →
  0 ≤ slot ∧ slot < slotCount mf →
  good_found mf (probeSlots mf term fp (slotCount mf - 1) fuel slot).
Proof.
  intros Hw Hf Hs. destruct (fok_slots _ _ _ Hf eq_refl) as (Hso & _ & Hfit).
  unfold v2HashSlotSize in Hfit.
  revert slot. induction fuel as [|fuel IH]; intros slot Hslot; cbn [probeSlots]; [by exists None|].
  unfold v2HashSlotSize. rewrite (fok_blob _ _ _ Hf).
  destruct (uint_in_range 4 b (slotsOff mf + 8 * slot + 4)) as [idx Hidx]; [lia..|].
  rewrite Hidx. cbn [result_bind]. case_decide; [by exists None|].
  destruct (uint_in_range 4 b (slotsOff mf + 8 * slot)) as [f Hfp]; [lia..|].
  rewrite Hfp. cbn [result_bind].
  assert (good_found mf (probeSlots mf term fp (slotCount mf - 1) fuel
    (Z.land (slot + 1) (slotCount mf - 1)))) as Hrec.
  { apply IH. pose proof (land_mask (slot + 1) (slotCount mf - 1)). lia. }
  case_decide as Hhit; [|done].
  destruct (entry_reads mf idx l Hw) as (t & o & c & He & Hp).
  - rewrite (fok_kind _ _ _ Hf). done.
  - by destruct (uint_bounds _ _ _ _ Hidx).
  - lia.
  - rewrite He. cbn [result_bind]. case_decide; [by exists (Some (o, c))|done].
Qed.

Lemma lookupHash_good mf b term l :
  eachTerm mf = Ok l → field_ok b dictHash mf → good_found mf (lookupHash mf term).
Proof.
  intros Hw Hf. unfold lookupHash. case_decide; [by exists None|].
  destruct (fok_slots _ _ _ Hf eq_refl) as (_ & Hs & _).
  eapply probeSlots_good; [done..|lia|].
  pose proof (land_mask (termHash (to_bytes term)) (slotCount mf - 1)
    (proj1 (termHash_range _)) ltac:(lia)). lia.
Qed.

(** Front-coded blocks: the scan of a block takes the steps of the walk. *)
Lemma next_blocked it it' :
  kind (it_mf it) = dictBlocked → next it = Ok (Some it') →
  ∃ at_, (if decide (it_idx it mod blockedBlockTerms = 0) then openBlock it
          else extendPreviousTerm it) = Ok (it_scratch it', at_) ∧
    it_at it' = at_ + 8 ∧ it_term it' = of_bytes (it_scratch it') ∧
    readEntry (it_mf it) at_ = Ok (it_postOff it', it_count it').
Proof.
  intros Hk. unfold next. case_decide; [done|]. rewrite decide_True by done. intros Hn.
  ok_bind Hn x. unfold nextBlocked in *.
  match goal with H : result_bind ?m _ = Ok x |- _ => destruct m as [[scr a]|] eqn:Hst; [|done] end.
  cbn [result_bind] in *.
  destruct (readEntry (it_mf it) a) as [[o c]|] eqn:He; [|done]. cbn in *. simplify_eq/=.
  by exists a.
Qed.

Lemma readEntry_blockEntry mf at_ off count :
  readEntry mf at_ = Ok (off, count) → blockEntry mf at_ = Ok (Some (off, count)).
Proof.
  unfold readEntry, blockEntry. case_decide; [done|]. intros Hr. ok_bind Hr o. ok_bind Hr c.
  cbn [result_bind]. by injection Hr as <- <-.
Qed.

Lemma mod_within b j : 0 ≤ j → j < 32 → (32 * b + j) mod 32 = j.
Proof. intros. rewrite Z.add_comm, Z.mul_comm, Z_mod_plus_full. by apply Z.mod_small. Qed.

Lemma scanTerms_good mf term b m n it l :
  kind mf = dictBlocked → it_mf it = mf → walkTerms m it = Ok l → (n ≤ m)%nat →
  32 * b < it_idx it → it_idx it + Z.of_nat n ≤ 32 * b + 32 → it_idx it + Z.of_nat n ≤ termCount mf →
  good_found mf (scanTerms mf term n (it_scratch it) (it_at it)).
Proof.
  intros Hk. revert m it l. induction n as [|n IH]; intros m it l Hmf Hw Hle Hlo Hhi Htc;
    cbn [scanTerms]; [by exists None|].
  destruct m as [|m]; [lia|].
  apply next_more in Hw as (it' & l' & Hn & Hw & Hp); [|rewrite Hmf; lia].
  destruct (next_spec _ _ Hn) as (Hmf' & Hidx & _).
  destruct (next_blocked it it') as (at_ & Hst & Hat & Hterm & He); [by rewrite Hmf|done|].
  rewrite decide_False in Hst.
  2:{ unfold blockedBlockTerms. replace (it_idx it) with (32 * b + (it_idx it - 32 * b)) by lia.
      rewrite mod_within by lia. lia. }
  unfold extendPreviousTerm in Hst. rewrite Hmf in *. rewrite Hst. cbn [result_bind].
  case_decide.
  { exists (Some (it_postOff it', it_count it')). split; [by apply readEntry_blockEntry|done]. }
  case_decide; [by exists None|]. rewrite <-Hat.
  apply (IH m it' l'); [by rewrite Hmf'|done|lia..].
Qed.

Lemma scanBlock_good mf term l b :
  eachTerm mf = Ok l → kind mf = dictBlocked → 0 ≤ b → 32 * b < termCount mf →
  good_found mf (scanBlock mf b term).
Proof.
  intros Hw Hk Hb Hlt.
  destruct (walk_term mf (32 * b) l Hw) as (it & it' & n & l' & Hmf & Hidx & Hn & Hw' & Hn' & Hp);
    [lia|done|].
  destruct (next_spec _ _ Hn) as (Hmf' & Hidx' & _).
  destruct (next_blocked it it') as (at_ & Hst & Hat & Hterm & He); [by rewrite Hmf|done|].
  rewrite Hidx in Hst. unfold blockedBlockTerms in Hst.
  rewrite <-(Z.add_0_r (32 * b)), mod_within, decide_True in Hst by lia.
  unfold openBlock in Hst. unfold blockedBlockTerms in Hst. rewrite Hmf, Hidx in Hst.
  rewrite (Z.mul_comm 32 b), Z.div_mul in Hst by lia. case_decide as Hr; [done|].
  ok_bind Hst a. ok_bind Hst ft. injection Hst as Hscr Ha. subst a.
  unfold scanBlock. match goal with H : firstTermAt mf b = Ok ft |- _ => rewrite H end.
  cbn [result_bind]. rewrite decide_False by lia.
  match goal with H : uint 4 (fblob mf) _ = Ok at_ |- _ => rewrite H end. cbn [result_bind].
  rewrite Hmf in He. case_decide.
  { exists (Some (it_postOff it', it_count it')). split; [by apply readEntry_blockEntry|done]. }
  rewrite Hscr, <-Hat. rewrite Hmf in Hmf'. unfold blockedBlockTerms.
  eapply (scanTerms_good mf term b n); [done|done|done|lia..].
Qed.

(** A front-coded dictionary with no more blocks than its terms need. *)
Definition tight (mf : mappedField) : Prop :=
  kind mf = dictBlocked → 32 * (blockCount mf - 1) < termCount mf.

#[export] Instance tight_dec mf : Decision (tight mf).
Proof. unfold tight. apply _. Defined.

Lemma firstTermAt_reads mf l b :
  eachTerm mf = Ok l → kind mf = dictBlocked → 0 ≤ b → 32 * b < termCount mf →
  reads (firstTermAt mf b).
Proof.
  intros Hw Hk Hb Hlt. destruct (scanBlock_good mf "" l b Hw Hk Hb Hlt) as (o & Ho & _).
  unfold scanBlock in Ho. ok_bind Ho ft. by exists ft.
Qed.

Lemma lookupBlocked_good mf b term l :
  eachTerm mf = Ok l → field_ok b dictBlocked mf → tight mf →
  good_found mf (lookupBlocked mf term).
Proof.
  intros Hw Hf Ht. pose proof (fok_kind _ _ _ Hf) as Hk. specialize (Ht Hk).
  unfold lookupBlocked. set (probe := λ mid, first <-- firstTermAt mf mid ;; _).
  destruct (bisect_reads probe (Z.to_nat (blockCount mf)) 0 (blockCount mf)) as (r & Hr & Hpost).
  { intros i Hi Hlt. unfold probe. destruct (firstTermAt_reads mf l i Hw Hk) as [x ->]; [lia..|].
    by eexists. }
  { apply (fok_blocks _ _ _ Hf). }
  rewrite Hr. cbn [result_bind]. destruct r as [u|lo]; [by exists None|].
  case_decide; [by exists None|]. eapply scanBlock_good; [done|done|lia..].
Qed.

Lemma lookup_reads mf b term l :
  eachTerm mf = Ok l → field_ok b (kind mf) mf → tight mf → reads (lookup mf term).
Proof.
  intros Hw Hf Ht. unfold lookup. case_decide; [by eexists|].
  assert (good_found mf (lookup_term mf term)) as (o & Ho & Hgood).
  { unfold lookup_term. case_decide as Hb; [rewrite Hb in Hf; by eapply lookupBlocked_good|].
    case_decide as Hh; [rewrite Hh in Hf; by eapply lookupHash_good|].
    eapply lookupFlat_good; [done..|apply (fok_count _ _ _ Hf)]. }
  rewrite Ho. cbn [result_bind]. destruct o as [[off count]|]; [|by eexists].
  destruct Hgood as [p ->]. by eexists.
Qed.

(** ** Reads of arbitrary bytes *)

(** What the engine's boundary contains, of a read of the bytes [b]: a value, or a raise
    that names the segment of these bytes. *)
Definition contained {A} (b : bytes) (r : result readErr A) : Prop :=
  match r with Ok _ => True | Err (Raise b' _) => b' = b | Err _ => False end.

Lemma contained_bind {A B} b (m : result readErr A) (f : A → result readErr B) :
  contained b m → (∀ a, m = Ok a → contained b (f a)) → contained b (result_bind m f).
Proof. destruct m as [a|[]]; cbn; try done. intros _ Hf. by apply Hf. Qed.

Lemma contained_uint w b off : 0 ≤ off → off + Z.of_nat w ≤ blen b → contained b (uint w b off).
Proof. intros. by destruct (uint_in_range w b off) as [v ->]. Qed.

Lemma contained_each {A} b (f : Z → result readErr A) n i :
  (∀ k, i ≤ k → k < i + Z.of_nat n → contained b (f k)) → contained b (each f n i).
Proof.
  revert i. induction n as [|n IH]; intros i Hf; [done|]. cbn [each].
  apply contained_bind; [apply Hf; lia|]. intros x _. apply contained_bind; [|done].
  apply IH. intros k ? ?. apply Hf; lia.
Qed.

Lemma contained_bisect {A} b (probe : Z → result readErr (A + bool)) fuel lo hi :
  (∀ i, lo ≤ i → i < hi → contained b (probe i)) → contained b (bisect probe fuel lo hi).
Proof.
  revert lo hi. induction fuel as [|fuel IH]; intros lo hi Hp; [done|]. cbn [bisect].
  case_decide as Hlt; [|done].
  assert (lo ≤ (lo + hi) / 2 ∧ (lo + hi) / 2 < hi) as [Hm1 Hm2].
  { split; [apply Z.div_le_lower_bound|apply Z.div_lt_upper_bound]; lia. }
  apply contained_bind; [by apply Hp|]. intros [a|[]] _; [done|apply IH..]; intros; apply Hp; lia.
Qed.

Lemma contained_termView b off n what : contained b (termView b off n what).
Proof.
  unfold termView. repeat case_decide; try done. unfold view.
  rewrite decide_True by lia. by rewrite decide_True by lia.
Qed.

Lemma contained_postings mf off count : 0 ≤ off → 0 ≤ count → contained (fblob mf) (postings mf off count).
Proof.
  intros Ho Hc. unfold postings. repeat case_decide; try done. unfold u32sAt, u16sAt, uints, view.
  repeat case_decide; try lia; done.
Qed.

Ltac contained_step :=
  match goal with
  | |- contained _ (result_bind (uint _ _ _) _) =>
      apply contained_bind; [apply contained_uint; lia|
        let v := fresh "v" in let Hv := fresh "Hv" in intros v Hv; apply uint_bounds in Hv]
  | |- contained _ (result_bind (termView _ _ _ _) _) =>
      apply contained_bind; [apply contained_termView|
        let v := fresh "v" in intros v _]
  | |- contained _ (if decide _ then _ else _) => case_decide
  | |- contained _ (Ok _) => exact I
  | |- contained _ (Err (Raise _ _)) => reflexivity
  | |- contained _ (termView _ _ _ _) => apply contained_termView
  | |- contained _ (postings _ _ _) => apply contained_postings; lia
  end.

Section Contained.
Context (b : bytes) (mf : mappedField) (k : Z) (Hf : field_ok b k mf).

Lemma contained_entryAt i :
  k ≠ dictBlocked → 0 ≤ i → i < termCount mf → contained b (entryAt mf i).
Proof.
  intros Hk Hi Hlt. destruct (fok_entries _ _ _ Hf Hk) as [He1 He2].
  unfold entryAt. rewrite (fok_blob _ _ _ Hf). cbv zeta. unfold v2FlatEntrySize in *.
  repeat contained_step.
Qed.

Lemma entryAt_bounds i t o c : entryAt mf i = Ok (t, o, c) → 0 ≤ o ∧ 0 ≤ c.
Proof.
  unfold entryAt. intros He.
  repeat match type of He with result_bind _ _ = Ok _ => let x := fresh "x" in ok_bind He x end.
  injection He as _ <- <-. read_bounds. lia.
Qed.

Lemma contained_run off count : 0 ≤ off → 0 ≤ count → contained b (postings mf off count).
Proof. rewrite <-(fok_blob _ _ _ Hf). apply contained_postings. Qed.

Lemma contained_firstTermAt i :
  k = dictBlocked → 0 ≤ i → i < blockCount mf → contained b (firstTermAt mf i).
Proof.
  intros Hk Hi Hlt. destruct (fok_index _ _ _ Hf Hk) as (H1 & H2 & _).
  unfold firstTermAt. rewrite (fok_blob _ _ _ Hf). cbv zeta. repeat contained_step.
Qed.

Lemma contained_stepFrontCoded off prev : contained b (stepFrontCoded b off prev).
Proof.
  unfold stepFrontCoded. repeat contained_step. unfold sub. cbv zeta. case_decide; [done|].
  lia.
Qed.

Lemma contained_blockEntry at_ : contained b (blockEntry mf at_).
Proof. unfold blockEntry. rewrite (fok_blob _ _ _ Hf). repeat contained_step. Qed.

Lemma blockEntry_bounds at_ o :
  blockEntry mf at_ = Ok o → match o with Some (off, c) => 0 ≤ off ∧ 0 ≤ c | None => True end.
Proof.
  unfold blockEntry. case_decide; [done|]. intros He. ok_bind He x. ok_bind He y.
  injection He as <-. read_bounds. lia.
Qed.

(** What a lookup answers, if it does, is a place that can be asked for. *)
Definition contained_found (r : result readErr found) : Prop :=
  contained b r ∧ ∀ off c, r = Ok (Some (off, c)) → 0 ≤ off ∧ 0 ≤ c.

Lemma contained_scanTerms term n scratch at_ :
  contained_found (scanTerms mf term n scratch at_).
Proof.
  revert scratch at_. induction n as [|n IH]; intros scratch at_; [done|]. cbn [scanTerms].
  rewrite (fok_blob _ _ _ Hf). pose proof (contained_stepFrontCoded at_ scratch) as Hs.
  destruct (stepFrontCoded b at_ scratch) as [[scr a]|e]; [|by split]. cbn [result_bind].
  repeat case_decide; [|done|apply IH].
  split; [apply contained_blockEntry|]. intros off c He. by apply blockEntry_bounds in He.
Qed.

Lemma contained_scanBlock term i :
  k = dictBlocked → 0 ≤ i → i < blockCount mf → contained_found (scanBlock mf i term).
Proof.
  intros Hk Hi Hlt. pose proof (contained_firstTermAt i Hk Hi Hlt) as Hft.
  unfold scanBlock. destruct (firstTermAt mf i) as [ft|e]; [|by split]. cbn [result_bind].
  rewrite (fok_blob _ _ _ Hf). case_decide as Hr; [by split|].
  destruct (uint_in_range 4 b (blockIdxOff mf + 4 * i)) as [v Hv]; [lia..|]. rewrite Hv.
  cbn [result_bind]. case_decide; [|apply contained_scanTerms].
  split; [apply contained_blockEntry|]. intros off c He. by apply blockEntry_bounds in He.
Qed.

Lemma bisect_le {A} (probe : Z → result readErr (A + bool)) fuel lo hi p :
  lo ≤ hi → bisect probe fuel lo hi = Ok (inr p) → lo ≤ p ∧ p ≤ hi.
Proof.
  revert lo hi. induction fuel as [|fuel IH]; intros lo hi Hle; cbn [bisect]; [intros [= <-]; lia|].
  case_decide as Hlt; [|intros [= <-]; lia].
  assert (lo ≤ (lo + hi) / 2 ∧ (lo + hi) / 2 < hi) as [Hm1 Hm2].
  { split; [apply Z.div_le_lower_bound|apply Z.div_lt_upper_bound]; lia. }
  intros Hb. ok_bind Hb x. destruct x as [a|[]]; [done|apply IH in Hb; lia..].
Qed.

Lemma bisect_found {A} (probe : Z → result readErr (A + bool)) fuel lo hi a :
  bisect probe fuel lo hi = Ok (inl a) → ∃ i, probe i = Ok (inl a).
Proof.
  revert lo hi. induction fuel as [|fuel IH]; intros lo hi; cbn [bisect]; [done|].
  case_decide; [|done]. intros Hb.
  destruct (probe ((lo + hi) / 2)) as [[x|[]]|] eqn:Hp; cbn [result_bind] in Hb; [|by eapply IH..|done].
  injection Hb as ->. by eexists.
Qed.

Lemma contained_lookupBlocked term : k = dictBlocked → contained_found (lookupBlocked mf term).
Proof.
  intros Hk. unfold lookupBlocked. set (probe := λ mid, ft <-- firstTermAt mf mid ;; _).
  assert (contained b (bisect probe (Z.to_nat (blockCount mf)) 0 (blockCount mf))) as Hc.
  { apply contained_bisect. intros i Hi Hlt. apply contained_bind; [by apply contained_firstTermAt|done]. }
  destruct (bisect probe _ _ _) as [[u|lo]|e] eqn:Hb; [done| |by split]. cbn [result_bind].
  pose proof (fok_blocks _ _ _ Hf). apply bisect_le in Hb; [|done].
  case_decide as Hlo; [done|]. apply contained_scanBlock; [done|lia..].
Qed.

Lemma contained_lookupFlat term : k ≠ dictBlocked → contained_found (lookupFlat mf term).
Proof.
  intros Hk. unfold lookupFlat. set (probe := λ mid, e <-- entryAt mf mid ;; _).
  assert (contained b (bisect probe (Z.to_nat (termCount mf)) 0 (termCount mf))) as Hc.
  { apply contained_bisect. intros i Hi Hlt. apply contained_bind; [by apply contained_entryAt|].
    by intros [[t o] c] _. }
  destruct (bisect probe _ _ _) as [[[o c]|lo]|e] eqn:Hb; [|done|by split]. cbn [result_bind].
  split; [done|]. intros off c' [= <- <-]. apply bisect_found in Hb as (i & Hi). unfold probe in Hi.
  ok_bind Hi e. destruct e as [[t o'] c']. case_decide; [|done]. injection Hi as <- <-.
  by eapply entryAt_bounds.
Qed.

Lemma contained_probeSlots term fp fuel slot :
  k = dictHash → 0 < slotCount mf → 0 ≤ slot ∧ slot < slotCount mf →
  contained_found (probeSlots mf term fp (slotCount mf - 1) fuel slot).
Proof.
  intros Hk Hs. destruct (fok_slots _ _ _ Hf Hk) as (Hso & _ & Hfit). unfold v2HashSlotSize in Hfit.
  revert slot. induction fuel as [|fuel IH]; intros slot Hslot; cbn [probeSlots]; [done|].
  unfold v2HashSlotSize. rewrite (fok_blob _ _ _ Hf).
  destruct (uint_in_range 4 b (slotsOff mf + 8 * slot + 4)) as [idx Hidx]; [lia..|].
  rewrite Hidx. cbn [result_bind]. case_decide; [done|].
  destruct (uint_in_range 4 b (slotsOff mf + 8 * slot)) as [f Hfp]; [lia..|].
  rewrite Hfp. cbn [result_bind].
  assert (contained_found (probeSlots mf term fp (slotCount mf - 1) fuel
    (Z.land (slot + 1) (slotCount mf - 1)))) as Hrec.
  { apply IH. pose proof (land_mask (slot + 1) (slotCount mf - 1)). lia. }
  case_decide as Hhit; [|done]. destruct (uint_bounds _ _ _ _ Hidx) as [Hi _].
  pose proof (contained_entryAt idx ltac:(by rewrite Hk) Hi ltac:(lia)) as Hc.
  destruct (entryAt mf idx) as [[[t o] c]|e] eqn:He; [|by split]. cbn [result_bind].
  case_decide; [|done]. split; [done|]. intros off c' [= <- <-]. by eapply entryAt_bounds.
Qed.

Lemma contained_lookupHash term : k = dictHash → contained_found (lookupHash mf term).
Proof.
  intros Hk. unfold lookupHash. case_decide; [done|].
  destruct (fok_slots _ _ _ Hf Hk) as (_ & Hs & _). apply contained_probeSlots; [done|lia|].
  pose proof (land_mask (termHash (to_bytes term)) (slotCount mf - 1)
    (proj1 (termHash_range _)) ltac:(lia)). lia.
Qed.

Lemma contained_lookup term : contained b (lookup mf term).
Proof.
  unfold lookup. case_decide; [done|].
  assert (contained_found (lookup_term mf term)) as [Hc Hb].
  { unfold lookup_term. rewrite (fok_kind _ _ _ Hf).
    case_decide; [by apply contained_lookupBlocked|].
    case_decide; [by apply contained_lookupHash|by apply contained_lookupFlat]. }
  apply contained_bind; [done|]. intros [[off c]|] He; [|done].
  destruct (Hb off c He). apply contained_bind; [by apply contained_run|done].
Qed.

Lemma contained_readEntry at_ : contained b (readEntry mf at_).
Proof. unfold readEntry. rewrite (fok_blob _ _ _ Hf). repeat contained_step. Qed.

Lemma readEntry_bounds at_ o c : readEntry mf at_ = Ok (o, c) → 0 ≤ o ∧ 0 ≤ c.
Proof.
  unfold readEntry. case_decide; [done|]. intros He. ok_bind He x. ok_bind He y.
  injection He as <- <-. read_bounds. lia.
Qed.

Lemma contained_next it :
  it_mf it = mf → 0 ≤ it_idx it →
  contained b (next it) ∧
  ∀ it', next it = Ok (Some it') →
    it_mf it' = mf ∧ 0 ≤ it_idx it' ∧ 0 ≤ it_postOff it' ∧ 0 ≤ it_count it'.
Proof.
  intros Hmf Hi. split.
  - unfold next. case_decide as Hlt; [done|]. apply contained_bind; [|done]. rewrite Hmf in *.
    rewrite (fok_kind _ _ _ Hf). case_decide as Hk.
    + unfold nextBlocked. rewrite Hmf. apply contained_bind.
      * case_decide.
        -- unfold openBlock. rewrite Hmf, (fok_blob _ _ _ Hf). case_decide; [done|].
           apply contained_bind; [apply contained_uint; lia|]. intros a _.
           apply contained_bind; [|done]. apply contained_firstTermAt; [done|lia..].
        -- unfold extendPreviousTerm. rewrite Hmf, (fok_blob _ _ _ Hf). apply contained_stepFrontCoded.
      * intros [scr a] _. apply contained_bind; [apply contained_readEntry|done].
    + apply contained_bind; [apply contained_entryAt; [done|lia..]|]. by intros [[t o] c] _.
  - intros it' Hn. destruct (next_spec _ _ Hn) as (Hmf' & Hidx & _).
    split; [congruence|]. split; [lia|].
    destruct (decide (kind (it_mf it) = dictBlocked)) as [Hk|Hk].
    + destruct (next_blocked _ _ Hk Hn) as (a & _ & _ & _ & He). rewrite Hmf in He.
      by eapply readEntry_bounds.
    + apply (next_flat _ _ Hk) in Hn. rewrite Hmf in Hn. by eapply entryAt_bounds.
Qed.

Lemma contained_walk n it :
  it_mf it = mf → 0 ≤ it_idx it → contained b (walkTerms n it).
Proof.
  revert it. induction n as [|n IH]; intros it Hmf Hi; [done|]. cbn [walkTerms].
  destruct (contained_next it Hmf Hi) as [Hc Hn]. apply contained_bind; [done|].
  intros [it'|] He; [|done]. destruct (Hn it' He) as (Hmf' & Hi' & Ho & Hct). rewrite Hmf'.
  apply contained_bind; [by apply contained_run|]. intros p _.
  apply contained_bind; [by apply IH|done].
Qed.

Lemma contained_eachTerm : contained b (eachTerm mf).
Proof. by apply contained_walk. Qed.

End Contained.

(** ** Segments opened from arbitrary bytes *)

Record segment_ok (b : bytes) (s : mappedSegment) : Prop := mkSegOk {
  sok_blob : blob s = b;
  sok_docs : 0 ≤ docCount s;
  sok_offsets : length (memberOffsets s) = S (Z.to_nat (docCount s));
  sok_lo : Forall (Z.le 0) (memberOffsets s);
  sok_docFreq : ∃ count rows, docFreqHeader s = Ok (count, rows) ∧ 0 ≤ count ∧ 0 ≤ rows ∧
    rows + v2DocFreqRowSize * count ≤ blen b;
  sok_fields : Forall (field_ok b (dictKind s)) (fields s)
}.

Lemma length_words w n b : length (words w n b) = n.
Proof. revert b. induction n as [|n IH]; intros b; [done|]. cbn. by rewrite IH. Qed.

Lemma words_nonneg w n b : Forall (Z.le 0) (words w n b).
Proof. revert b. induction n as [|n IH]; intros b; cbn; constructor; [lia|apply IH]. Qed.

Lemma uints_ok w b off n l :
  0 ≤ n → uints w b off n = Ok l → length l = Z.to_nat n ∧ Forall (Z.le 0) l.
Proof.
  intros Hn. unfold uints. case_decide; [intros [= <-]; subst; by split|].
  intros Hl. ok_bind Hl v. injection Hl as <-.
  split; [apply length_words|apply words_nonneg].
Qed.

Lemma openDocFreqDict_header s u :
  openDocFreqDict s = Ok u →
  ∃ count rows, docFreqHeader s = Ok (count, rows) ∧ 0 ≤ count ∧ 0 ≤ rows ∧
    rows + v2DocFreqRowSize * count ≤ blen (blob s).
Proof.
  unfold openDocFreqDict, docFreqHeader. intros Ho. ok_bind Ho off. ok_bind Ho u0.
  ok_bind Ho count. ok_bind Ho nrows. exists count, nrows. cbn [result_bind].
  match goal with H : uint 4 _ off = Ok _, H' : uint 4 _ (off + 4) = Ok _ |- _ => rewrite H; cbn [result_bind]; rewrite H' end.
  read_bounds. split; [done|]. lia.
Qed.

Lemma openSegment_ok b s : openSegmentV2 b = Ok s → segment_ok b s.
Proof.
  intros Ho. pose proof (λ mf, openSegment_fields b s mf Ho) as Hfs. unfold openSegmentV2 in Ho.
  repeat first [ case_decide; [discriminate Ho|]
    | match type of Ho with result_bind _ _ = Ok _ => let y := fresh "y" in ok_bind Ho y end ].
  cbv zeta in Ho.
  repeat match type of Ho with result_bind _ _ = Ok _ => let y := fresh "y" in ok_bind Ho y end.
  injection Ho as <-.
  repeat match goal with
  | H : uint _ _ _ = Ok ?v |- _ =>
      lazymatch goal with _ : 0 ≤ v ∧ _ |- _ => fail | _ => pose proof (uint_bounds _ _ _ _ H) end
  end.
  match goal with H : u32sAt _ _ _ = Ok _ |- _ => apply uints_ok in H as [Hlen Hnn]; [|lia] end.
  match goal with H : openDocFreqDict _ = Ok _ |- _ => apply openDocFreqDict_header in H end.
  split; cbn in *; try done; [lia|lia|]. by apply Forall_forall.
Qed.

Lemma contained_docFreqRow b s rows count i :
  segment_ok b s → docFreqHeader s = Ok (count, rows) → 0 ≤ i → i < count →
  contained b (docFreqRow s rows i).
Proof.
  intros Hs Hh Hi Hlt. destruct (sok_docFreq _ _ Hs) as (c & r & Hh' & _ & Hr & Hfit).
  rewrite Hh in Hh'. injection Hh' as <- <-. unfold v2DocFreqRowSize in *.
  unfold docFreqRow. rewrite (sok_blob _ _ Hs). cbv zeta. unfold v2DocFreqRowSize.
  repeat contained_step.
Qed.

Lemma contained_docFreqEach b s : segment_ok b s → contained b (docFreqEach s).
Proof.
  intros Hs. unfold docFreqEach. destruct (sok_docFreq _ _ Hs) as (c & r & Hh & Hc & _).
  rewrite Hh. cbn [result_bind fst snd]. apply contained_each. intros i Hi Hlt.
  eapply contained_docFreqRow; [done..|lia].
Qed.

Lemma contained_segmentDocFreq b s t : segment_ok b s → contained b (segmentDocFreq s t).
Proof.
  intros Hs. unfold segmentDocFreq. destruct (sok_docFreq _ _ Hs) as (c & r & Hh & Hc & _).
  rewrite Hh. cbn [result_bind]. apply contained_bind; [|done].
  apply contained_bisect. intros i Hi Hlt.
  apply contained_bind; [by eapply contained_docFreqRow|]. by intros [got df] _.
Qed.

Lemma offset_at_reads b s i :
  segment_ok b s → 0 ≤ i → i ≤ docCount s → ∃ o, offset_at s i = Ok o ∧ 0 ≤ o.
Proof.
  intros Hs Hi Hle. unfold offset_at. rewrite decide_False by lia.
  destruct (lookup_lt_is_Some_2 (memberOffsets s) (Z.to_nat i)) as [o Ho].
  { rewrite (sok_offsets _ _ Hs). lia. }
  rewrite Ho. exists o. split; [done|].
  pose proof (sok_lo _ _ Hs) as Hf. rewrite Forall_forall in Hf.
  apply Hf. by apply list_elem_of_lookup_2 in Ho.
Qed.

(** A member that does not start at the very end of the blob. *)
Lemma contained_member b s i :
  segment_ok b s → 0 ≤ i → i < docCount s → offset_at s i ≠ Ok (blen b) → contained b (member s i).
Proof.
  intros Hs Hi Hlt Hne. destruct (offset_at_reads b s i Hs) as (lo & Hlo & Hlo0); [lia..|].
  destruct (offset_at_reads b s (i + 1) Hs) as (hi & Hhi & _); [lia..|].
  unfold member. rewrite Hlo, Hhi, (sok_blob _ _ Hs). cbn [result_bind]. case_decide; [done|].
  assert (lo ≠ blen b) by (intros ->; by rewrite Hlo in Hne).
  unfold view. rewrite !decide_True by lia. done.
Qed.

Definition open_contained (r : result readErr mappedSegment) : Prop :=
  match r with Ok _ | Err (Refuse _) => True | Err _ => False end.

Lemma open_contained_bind {A B} (m : result readErr A) (f : A → result readErr B) :
  match m with Ok _ | Err (Refuse _) => True | Err _ => False end →
  (∀ a, m = Ok a → match f a with Ok _ | Err (Refuse _) => True | Err _ => False end) →
  match result_bind m f with Ok _ | Err (Refuse _) => True | Err _ => False end.
Proof. destruct m as [a|[]]; cbn; try done. intros _ Hf. by apply Hf. Qed.

Ltac open_step :=
  match goal with
  | |- match result_bind (uint ?w ?b ?off) _ with _ => _ end =>
      let v := fresh "v" in let Hv := fresh "Hv" in
      destruct (uint_in_range w b off) as [v Hv]; [lia|lia|];
      rewrite Hv; cbn [result_bind]; apply uint_bounds in Hv
  | |- match result_bind (checkSection ?n ?l ?o ?s ?a) _ with _ => _ end =>
      let Hc := fresh "Hc" in
      apply open_contained_bind;
      [unfold checkSection; repeat case_decide; done|intros [] Hc; apply checkSection_ok in Hc]
  | |- match checkSection _ _ _ _ _ with _ => _ end => unfold checkSection; repeat case_decide; done
  | |- match (if decide _ then _ else _) with _ => _ end => case_decide; [done|]
  | |- True => exact I
  end.

Lemma open_openDict mf off :
  0 ≤ off →
  match openDict mf off with Ok _ | Err (Refuse _) => True | Err _ => False end.
Proof.
  intros Ho. unfold openDict. cbv zeta. apply open_contained_bind.
  { unfold checkSection. repeat case_decide; done. }
  intros [] Hc. apply checkSection_ok in Hc. destruct (decide (kind mf = dictFlat)) as [Hk|Hk].
  - open_step. rewrite !decide_False by (rewrite Hk; done). repeat open_step.
  - open_step. destruct (decide (kind mf = dictBlocked)); [repeat open_step|].
    destruct (decide (kind mf = dictHash)); repeat open_step.
Qed.

Lemma open_openField s e :
  0 ≤ docCount s → 0 ≤ e → e + v2FieldEntrySize ≤ blen (blob s) →
  match openField s e with Ok _ | Err (Refuse _) => True | Err _ => False end.
Proof.
  unfold v2FieldEntrySize. intros Hd He Hfit. unfold openField. cbv zeta.
  unfold v2FldNameOff, v2FldNameLen, v2FldDocLengths, v2FldBoost, v2FldB, v2FldTotalTokens, v2FldDict.
  do 5 open_step. apply open_contained_bind.
  { unfold sub. rewrite decide_True by lia. done. }
  intros nm _. do 3 open_step. apply open_contained_bind.
  { unfold u32sAt, uints, view. repeat case_decide; try lia; done. }
  intros ls _. open_step. apply open_openDict. lia.
Qed.

Lemma open_openFields s n e :
  0 ≤ docCount s → 0 ≤ e → e + v2FieldEntrySize * Z.of_nat n ≤ blen (blob s) →
  match openFields s n e with Ok _ | Err (Refuse _) => True | Err _ => False end.
Proof.
  unfold v2FieldEntrySize. intros Hd. revert e. induction n as [|n IH]; intros e He Hfit; [done|].
  cbn [openFields]. apply open_contained_bind.
  { apply open_openField; [done..|]. unfold v2FieldEntrySize. lia. }
  intros mf _. apply open_contained_bind; [|done]. apply IH; unfold v2FieldEntrySize; lia.
Qed.

Lemma openSegment_contained b : open_contained (openSegmentV2 b).
Proof.
  unfold open_contained, openSegmentV2. case_decide as Hlen; [done|]. unfold v2HeaderSize in Hlen.
  unfold v2HdrVersion, v2HdrBlobLen, v2HdrDictKind, v2HdrDocCount, v2HdrFieldCount,
    v2HdrMemberOffsets, v2HdrFieldTable.
  do 11 open_step. apply open_contained_bind.
  { unfold u32sAt, uints, view. repeat case_decide; try lia; done. }
  intros offs _. open_step. apply open_contained_bind.
  { unfold openDocFreqDict, v2HdrDocFreqDict. cbn [blob]. repeat open_step. }
  intros [] _. apply open_contained_bind; [|done].
  apply open_openFields; cbn [docCount blob]; unfold v2FieldEntrySize in *; lia.
Qed.
