(* ===== verification/Bm25Encode.v ===== *)
(** * Building and encoding a bm25 segment ([formats/bm25/build.go], [field.go],
    [segment.go], [serial_v2.go], [serial_v2_dict.go])

    A build fills an accumulator of maps; the encoder plans where every section of the blob
    goes in one forward pass, then stores each piece at its planned offset. *)

From Stdlib Require Import Ascii.
From S2P Require Import Prelude Supersession Bm25Layout Bm25Read.

Local Open Scope Z_scope.

(** ** The accumulator *)

Record posting := mkPosting { docID : Z; tf : Z }.

Record fieldData := mkFieldData {
  fdConfig : FieldConfig;
  fdPostings : gmap string (list posting);
  docLengths : list Z;
  fdTotal : Z
}.

Record bm25Segment := mkAcc {
  accFields : list fieldData;
  members : list string;
  docFreq : gmap string Z
}.

(** The bits of the doubles 2, 1, 0.75 and 0. *)
Definition float2 : Z := 4611686018427387904.
Definition float1 : Z := 4607182418800017408.
Definition float075 : Z := 4604930618986332160.

Definition defaultFieldConfigs : list FieldConfig :=
  [mkConfig "symbol_name" float2 0; mkConfig "summary" float2 float075;
   mkConfig "keywords" float2 0; mkConfig "description" float1 float075;
   mkConfig "content" float1 float075].

(** ** [buildSegment] *)

(** One document's tokens: the fields that have any, each term with its frequency. *)
Record docFieldTokens := mkTokens { dftId : string; dftFields : option (gmap string (gmap string Z)) }.

Definition clampTF (freq : Z) : Z :=
  if decide (65535 < freq) then 65535 else if decide (freq < 0) then 0 else freq.

Definition add_posting (p : posting) (m : gmap string (list posting)) (term : string) :
    gmap string (list posting) :=
  <[term := default [] (m !! term) ++ [p]]> m.

(** A document's share of one field; [tokens] is [None] when it has none there. *)
Definition addToField (docID : Z) (tokens : option (gmap string Z)) (fd : fieldData) : fieldData :=
  let toks := default ∅ tokens in
  let docLen := map_fold (λ _ freq n, n + freq) 0 toks in
  mkFieldData (fdConfig fd)
    (map_fold (λ term freq m, add_posting (mkPosting docID (clampTF freq)) m term) (fdPostings fd) toks)
    (docLengths fd ++ [docLen]) (fdTotal fd + docLen).

(** The terms of a document in the segment's fields. *)
Definition uniqueTerms (fields : list fieldData) (toks : gmap string (gmap string Z)) : gset string :=
  ⋃ ((λ fd, dom (default ∅ (toks !! cfgName (fdConfig fd)))) <$> fields).

Definition addDocument (s : bm25Segment) (r : docFieldTokens) : bm25Segment :=
  match dftFields r with
  | None => s
  | Some toks =>
      let d := Z.of_nat (length (members s)) in
      mkAcc ((λ fd, addToField d (toks !! cfgName (fdConfig fd)) fd) <$> accFields s)
        (members s ++ [dftId r])
        (set_fold (λ t m, <[t := default 0 (m !! t) + 1]> m) (docFreq s)
           (uniqueTerms (accFields s) toks))
  end.

Definition emptyAcc : bm25Segment :=
  mkAcc ((λ cfg, mkFieldData cfg ∅ [] 0) <$> defaultFieldConfigs) [] ∅.

Definition buildSegment (results : list docFieldTokens) : bm25Segment :=
  fold_left addDocument results emptyAcc.

(** ** The plan *)

Definition slen (s : string) : Z := blen (to_bytes s).

(** [sortedKeys] *)
Definition sortedKeys {V} (m : gmap string V) : list string := sort_strings (elements (dom m)).

(** Items laid one after another: where each starts, and the end. *)
Fixpoint lay (off : Z) (lens : list Z) : list Z * Z :=
  match lens with
  | [] => ([], off)
  | n :: lens => let '(offs, e) := lay (off + n) lens in (off :: offs, e)
  end.

Record v2DictPlan := mkDictPlan {
  dOff : Z;
  dTermsOff : Z;
  dTermOff : list Z;
  dEntriesOff : Z;
  dSlotsOff : Z;
  dSlotCount : Z;
  dBlockCount : Z;
  dBlockIdxOff : Z;
  dBlockOff : list Z
}.

Definition planFlatDict (off : Z) (terms : list string) : v2DictPlan * Z :=
  let '(termOff, e) := lay off (slen <$> terms) in
  let dOff := align e 8 in
  let entries := dOff + 8 in
  (mkDictPlan dOff off termOff entries 0 0 0 0 [],
   entries + v2FlatEntrySize * Z.of_nat (length terms)).

Definition planHashDict (off : Z) (terms : list string) : v2DictPlan * Z :=
  let '(termOff, e) := lay off (slen <$> terms) in
  let dOff := align e 8 in
  let entries := dOff + 16 in
  let e := entries + v2FlatEntrySize * Z.of_nat (length terms) in
  let slotCount := hashSlotCount (Z.of_nat (length terms)) in
  let slotsOff := align e 8 in
  (mkDictPlan dOff off termOff entries slotsOff slotCount 0 0 [],
   slotsOff + v2HashSlotSize * slotCount).

(** The blocks of a sorted run of terms. *)
Fixpoint chunk {A} (fuel : nat) (l : list A) : list (list A) :=
  match fuel, l with
  | S fuel, _ :: _ =>
      take (Z.to_nat blockedBlockTerms) l :: chunk fuel (drop (Z.to_nat blockedBlockTerms) l)
  | _, _ => []
  end.
Definition blocks {A} (l : list A) : list (list A) := chunk (length l) l.

(** The bytes of a later term of a block: header, suffix, posting pointer. *)
Fixpoint suffixes_size (prev : string) (terms : list string) : Z :=
  match terms with
  | [] => 0
  | t :: terms =>
      let shared := Z.of_nat (sharedPrefixLen (to_bytes prev) (to_bytes t)) in
      2 + 2 + (slen t - shared) + 8 + suffixes_size t terms
  end.
Definition blockedPayloadSize (block : list string) : Z :=
  match block with [] => 8 | t :: terms => 8 + suffixes_size t terms end.

Definition first_of (block : list string) : string := default "" (head block).

Definition planBlockedDict (off : Z) (terms : list string) : v2DictPlan * Z :=
  let bs := blocks terms in
  let n := Z.of_nat (length bs) in
  let '(termOff, e) := lay off (slen ∘ first_of <$> bs) in
  let dOff := align e 8 in
  let idxOff := align (dOff + 16 + 8 * n) 4 in
  let '(blockOff, e) := lay (idxOff + 4 * n) (blockedPayloadSize <$> bs) in
  (mkDictPlan dOff off termOff 0 0 0 n idxOff blockOff, e).

Definition planDict (kind off : Z) (terms : list string) : v2DictPlan * Z :=
  if decide (kind = dictBlocked) then planBlockedDict off terms
  else if decide (kind = dictHash) then planHashDict off terms
  else planFlatDict off terms.

Record v2FieldPlan := mkFieldPlan {
  pNameOff : Z;
  pDocLengthsOff : Z;
  pTerms : list string;
  pPostOff : list Z;
  pDict : v2DictPlan
}.

Record v2Plan := mkPlan {
  pKind : Z;
  pDocCount : Z;
  pMemberOffsetsOff : Z;
  pMemberOff : list Z;
  pFieldTableOff : Z;
  pFields : list v2FieldPlan;
  pDfTerms : list string;
  pDfTermOff : list Z;
  pDfDictOff : Z;
  pDfEntriesOff : Z;
  pSize : Z
}.

(** Runs laid at 4-aligned offsets. *)
Fixpoint lay_aligned (off : Z) (lens : list Z) : list Z * Z :=
  match lens with
  | [] => ([], off)
  | n :: lens =>
      let at_ := align off 4 in
      let '(offs, e) := lay_aligned (at_ + n) lens in (at_ :: offs, e)
  end.

Definition postingsOf (fd : fieldData) (term : string) : list posting :=
  default [] (fdPostings fd !! term).

Definition run_size (fd : fieldData) (term : string) : Z :=
  let n := Z.of_nat (length (postingsOf fd term)) in 4 * n + 2 * n.

(** The dictionaries and runs of the fields, one field after another. *)
Fixpoint planDicts (kind off : Z) (fds : list (Z * Z * fieldData)) : list v2FieldPlan * Z :=
  match fds with
  | [] => ([], off)
  | (nameOff, lensOff, fd) :: fds =>
      let terms := sortedKeys (fdPostings fd) in
      let '(d, off) := planDict kind off terms in
      let '(postOff, off) := lay_aligned off (run_size fd <$> terms) in
      let '(ps, e) := planDicts kind off fds in
      (mkFieldPlan nameOff lensOff terms postOff d :: ps, e)
  end.

Definition planSegmentV2 (s : bm25Segment) (kind : Z) : v2Plan :=
  let n := Z.of_nat (length (members s)) in
  let moo := align v2HeaderSize 4 in
  let '(mo, e) := lay (moo + 4 * (n + 1)) (slen <$> members s) in
  let memberOff := mo ++ [e] in
  let fto := align e 8 in
  let '(nameOff, e) :=
    lay (fto + v2FieldEntrySize * Z.of_nat (length (accFields s)))
      ((slen ∘ cfgName ∘ fdConfig) <$> accFields s) in
  let '(lensOff, e) := lay_aligned e ((λ _, 4 * n) <$> accFields s) in
  let '(fps, e) := planDicts kind e (zip (zip nameOff lensOff) (accFields s)) in
  let dfTerms := sortedKeys (docFreq s) in
  let dfDictOff := align e 8 in
  let dfEntriesOff := align (dfDictOff + 8) 8 in
  let '(dfTermOff, size) :=
    lay (dfEntriesOff + v2DocFreqRowSize * Z.of_nat (length dfTerms)) (slen <$> dfTerms) in
  mkPlan kind n moo memberOff fto fps dfTerms dfTermOff dfDictOff dfEntriesOff size.

(** ** The stores, in the order of the code *)

Definition put : Type := Z * bytes.
Definition put16 (off v : Z) : put := (off, le 2 v).
Definition put32 (off v : Z) : put := (off, le 4 v).
Definition put64 (off v : Z) : put := (off, le 8 v).
Definition putStr (off : Z) (s : string) : put := (off, to_bytes s).

(** [for i, x := range xs { f(i, x) }] *)
Fixpoint rows {A} (f : Z → A → list put) (i : Z) (xs : list A) : list put :=
  match xs with [] => [] | x :: xs => f i x ++ rows f (i + 1) xs end.

Definition writeFlatEntries (d : v2DictPlan) (ts : list (string * Z * (Z * Z))) : list put :=
  rows (λ i '(term, termOff, (postOff, count)),
    let row := dEntriesOff d + v2FlatEntrySize * i in
    [putStr termOff term; put32 row termOff; put32 (row + 4) (slen term);
     put32 (row + 8) postOff; put32 (row + 12) count]) 0 ts.

Definition writeFlatDict (d : v2DictPlan) (ts : list (string * Z * (Z * Z))) : list put :=
  [put32 (dOff d) (Z.of_nat (length ts)); put32 (dOff d + 4) (dEntriesOff d)]
    ++ writeFlatEntries d ts.

(** The slot a hash goes to: the first empty one from its own, each slot once.  The table
    holds the entry index of each slot. *)
Fixpoint free_slot (fuel : nat) (table : list Z) (mask slot : Z) : option Z :=
  match fuel with
  | O => None
  | S fuel =>
      if decide (table !! Z.to_nat slot = Some hashEmptySlot) then Some slot
      else free_slot fuel table mask (Z.land (slot + 1) mask)
  end.

(** Each hash with its slot, in term order; [None] if the table fills up, on which the code
    would not end. *)
Fixpoint place_hashes (table : list Z) (mask i : Z) (hs : list Z) : option (list (Z * Z * Z)) :=
  match hs with
  | [] => Some []
  | h :: hs =>
      slot ← free_slot (length table) table mask (Z.land h mask);
      rest ← place_hashes (<[Z.to_nat slot := i]> table) mask (i + 1) hs;
      Some ((slot, Z.shiftr h 32, i) :: rest)
  end.

Definition empty_table (slotCount : Z) : list Z := replicate (Z.to_nat slotCount) hashEmptySlot.

Definition hash_slots (slotCount : Z) (terms : list string) : list (Z * Z * Z) :=
  default [] (place_hashes (empty_table slotCount) (slotCount - 1) 0
                ((termHash ∘ to_bytes) <$> terms)).

Definition writeHashDict (d : v2DictPlan) (ts : list (string * Z * (Z * Z))) : list put :=
  [put32 (dOff d) (Z.of_nat (length ts)); put32 (dOff d + 4) (dEntriesOff d);
   put32 (dOff d + 8) (dSlotsOff d); put32 (dOff d + 12) (dSlotCount d)]
    ++ writeFlatEntries d ts
    ++ rows (λ s _, [put32 (dSlotsOff d + v2HashSlotSize * s + 4) hashEmptySlot]) 0
         (replicate (Z.to_nat (dSlotCount d)) tt)
    ++ mjoin ((λ '(slot, fp, i),
         let at_ := dSlotsOff d + v2HashSlotSize * slot in [put32 at_ fp; put32 (at_ + 4) i])
         <$> hash_slots (dSlotCount d) ((λ t, t.1.1) <$> ts)).

(** A block's payload from [at_]. *)
Fixpoint writeSuffixes (at_ : Z) (prev : string) (ts : list (string * (Z * Z))) : list put :=
  match ts with
  | [] => []
  | (t, (postOff, count)) :: ts =>
      let shared := sharedPrefixLen (to_bytes prev) (to_bytes t) in
      let suffix := drop shared (to_bytes t) in
      let next := at_ + 4 + blen suffix in
      [put16 at_ (Z.of_nat shared); put16 (at_ + 2) (blen suffix); (at_ + 4, suffix);
       put32 next postOff; put32 (next + 4) count]
        ++ writeSuffixes (next + 8) t ts
  end.

Definition writeBlockedPayload (at_ : Z) (ts : list (string * (Z * Z))) : list put :=
  match ts with
  | [] => []
  | (t, (postOff, count)) :: ts =>
      [put32 at_ postOff; put32 (at_ + 4) count] ++ writeSuffixes (at_ + 8) t ts
  end.

Definition writeBlockedDict (d : v2DictPlan) (ts : list (string * (Z * Z))) : list put :=
  let firstTermRowsOff := dOff d + 16 in
  [put32 (dOff d) (Z.of_nat (length ts)); put32 (dOff d + 4) (dBlockCount d);
   put32 (dOff d + 8) firstTermRowsOff; put32 (dOff d + 12) (dBlockIdxOff d)]
    ++ rows (λ b '(block, (termOff, blockOff)),
         let first := default "" (fst <$> head block) in
         let row := firstTermRowsOff + 8 * b in
         [putStr termOff first; put32 row termOff; put32 (row + 4) (slen first);
          put32 (dBlockIdxOff d + 4 * b) blockOff]
           ++ writeBlockedPayload blockOff block) 0
         (zip (blocks ts) (zip (dTermOff d) (dBlockOff d))).

Definition writeDict (kind : Z) (d : v2DictPlan) (terms : list string) (ptrs : list (Z * Z)) : list put :=
  if decide (kind = dictBlocked) then writeBlockedDict d (zip terms ptrs)
  else if decide (kind = dictHash) then writeHashDict d (zip (zip terms (dTermOff d)) ptrs)
  else writeFlatDict d (zip (zip terms (dTermOff d)) ptrs).

(** Where the terms' runs are, and how long. *)
Definition run_pointers (fd : fieldData) (fp : v2FieldPlan) : list (Z * Z) :=
  zip (pPostOff fp) ((λ t, Z.of_nat (length (postingsOf fd t))) <$> pTerms fp).

Definition writePostings (base : Z) (posts : list posting) : list put :=
  let tfBase := base + 4 * Z.of_nat (length posts) in
  rows (λ j p, [put32 (base + 4 * j) (docID p); put16 (tfBase + 2 * j) (tf p)]) 0 posts.

Definition writeFieldV2 (p : v2Plan) (i : Z) (fd : fieldData) (fp : v2FieldPlan) : list put :=
  let e := pFieldTableOff p + v2FieldEntrySize * i in
  let cfg := fdConfig fd in
  [put32 (e + v2FldNameOff) (pNameOff fp); put16 (e + v2FldNameLen) (slen (cfgName cfg));
   put64 (e + v2FldBoost) (Boost cfg); put64 (e + v2FldB) (B cfg);
   put64 (e + v2FldTotalTokens) (fdTotal fd);
   put32 (e + v2FldDocLengths) (pDocLengthsOff fp); put32 (e + v2FldDict) (dOff (pDict fp));
   putStr (pNameOff fp) (cfgName cfg)]
    ++ rows (λ d _, [put32 (pDocLengthsOff fp + 4 * d) (default 0 (docLengths fd !! Z.to_nat d))]) 0
         (replicate (Z.to_nat (pDocCount p)) tt)
    ++ writeDict (pKind p) (pDict fp) (pTerms fp) (run_pointers fd fp)
    ++ mjoin (zip_with (λ t off, writePostings off (postingsOf fd t)) (pTerms fp) (pPostOff fp)).

Definition writeDocFreqDict (p : v2Plan) (df : gmap string Z) : list put :=
  [put32 (pDfDictOff p) (Z.of_nat (length (pDfTerms p))); put32 (pDfDictOff p + 4) (pDfEntriesOff p)]
    ++ rows (λ i '(term, termOff),
         let row := pDfEntriesOff p + v2DocFreqRowSize * i in
         [put32 row termOff; put32 (row + 4) (slen term); put64 (row + 8) (default 0 (df !! term));
          putStr termOff term]) 0 (zip (pDfTerms p) (pDfTermOff p)).

Definition writeHeader (p : v2Plan) (fieldCount : Z) : list put :=
  [(v2HdrVersion, le 1 serialVersion); (v2HdrDictKind, le 1 (pKind p));
   put16 v2HdrFieldCount fieldCount; put32 v2HdrDocCount (pDocCount p);
   put32 v2HdrMemberOffsets (pMemberOffsetsOff p);
   put32 v2HdrMemberBytes (default 0 (head (pMemberOff p)));
   put32 v2HdrFieldTable (pFieldTableOff p); put32 v2HdrDocFreqDict (pDfDictOff p);
   put32 v2HdrBlobLen (pSize p); put32 28 0].

Definition encode_puts (s : bm25Segment) (p : v2Plan) : list put :=
  writeHeader p (Z.of_nat (length (accFields s)))
    ++ rows (λ i o, [put32 (pMemberOffsetsOff p + 4 * i) o]) 0 (pMemberOff p)
    ++ zip_with putStr (pMemberOff p) (members s)
    ++ rows (λ i '(fd, fp), writeFieldV2 p i fd fp) 0 (zip (accFields s) (pFields p))
    ++ writeDocFreqDict p (docFreq s).

(** ** [encodeSegmentV2] *)

Inductive encodeErr :=
| UnknownKind (kind : Z)
| TooLarge (size : Z)
| StoreOutside (off : Z).

(** [buf[off:]] written with all of [b]; the runtime panics if it does not fit. *)
Definition put_in (buf : bytes) (p : put) : result encodeErr bytes :=
  let '(off, b) := p in
  if decide (0 ≤ off ∧ off + blen b ≤ blen buf)
  then Ok (take (Z.to_nat off) buf ++ b ++ drop (Z.to_nat (off + blen b)) buf)
  else Err (StoreOutside off).

Fixpoint put_all (buf : bytes) (ps : list put) : result encodeErr bytes :=
  match ps with
  | [] => Ok buf
  | p :: ps => buf <-- put_in buf p ;; put_all buf ps
  end.

Definition encodeSegmentV2 (s : bm25Segment) (kind : Z) : result encodeErr bytes :=
  if decide (dictHash < kind) then Err (UnknownKind kind)
  else
    let p := planSegmentV2 s kind in
    if decide (v2MaxBlobBytes < pSize p) then Err (TooLarge (pSize p))
    else put_all (replicate (Z.to_nat (pSize p)) Ascii.zero) (encode_puts s p).
