(* ===== verification/Bm25Image.v ===== *)
(** * What a sequence of stores leaves in a buffer, and reading it back

    The encoder stores thousands of small pieces at planned offsets, in an order that
    follows the data and not the offsets.  [laid lo hi ps]: the stores [ps] fall between
    [lo] and [hi] and no two of them overlap, in whatever order they come; sections that
    are laid side by side compose.  Then the buffer [holds] each piece, and the typed
    reads of [Bm25Read] return it. *)

From Stdlib Require Import Ascii.
From S2P Require Import Prelude Supersession Bm25Layout Bm25Read Bm25Encode.

Local Open Scope Z_scope.

(** ** The image of stores *)

Definition put_end (p : put) : Z := p.1 + blen p.2.

Definition put_byte (p : put) (x : Z) : option ascii :=
  if decide (p.1 ≤ x) then p.2 !! Z.to_nat (x - p.1) else None.

(** The byte of the last store that covers [x]. *)
Fixpoint image_at (ps : list put) (x : Z) : option ascii :=
  match ps with
  | [] => None
  | p :: ps => match image_at ps x with Some c => Some c | None => put_byte p x end
  end.

Definition within (lo hi : Z) (p : put) : Prop := lo ≤ p.1 ∧ put_end p ≤ hi.

Definition apart (p q : put) : Prop := put_end p ≤ q.1 ∨ put_end q ≤ p.1.

Record laid (lo hi : Z) (ps : list put) : Prop := mkLaid {
  laid_le : lo ≤ hi;
  laid_within : Forall (within lo hi) ps;
  laid_apart : StronglySorted apart ps
}.

Lemma put_byte_range p x c : put_byte p x = Some c → p.1 ≤ x ∧ x < put_end p.
Proof.
  unfold put_byte, put_end, blen. case_decide; [|done]. intros Hl%lookup_lt_Some.
  rewrite Nat2Z.inj_lt, Z2Nat.id in Hl by lia. lia.
Qed.

Lemma put_byte_out p x : x < p.1 ∨ put_end p ≤ x → put_byte p x = None.
Proof.
  intros Hx. destruct (put_byte p x) eqn:He; [|done]. apply put_byte_range in He. lia.
Qed.

Lemma put_byte_in p x : p.1 ≤ x → x < put_end p → is_Some (put_byte p x).
Proof.
  unfold put_byte, put_end, blen. intros Hlo Hhi. rewrite decide_True by done.
  apply lookup_lt_is_Some_2. lia.
Qed.

Lemma image_app l1 l2 x :
  image_at (l1 ++ l2) x = match image_at l2 x with Some c => Some c | None => image_at l1 x end.
Proof.
  induction l1 as [|p l1 IH]; cbn; [by destruct (image_at l2 x)|]. rewrite IH.
  by destruct (image_at l2 x).
Qed.

Lemma image_out lo hi ps x : Forall (within lo hi) ps → x < lo ∨ hi ≤ x → image_at ps x = None.
Proof.
  intros Hw Hx. induction Hw as [|p ps [Hlo Hhi] _ IH]; [done|]. cbn. rewrite IH.
  apply put_byte_out. lia.
Qed.

Lemma apart_sym p q : apart p q → apart q p.
Proof. unfold apart. tauto. Qed.

#[export] Instance laid_perm lo hi : Proper ((≡ₚ) ==> impl) (laid lo hi).
Proof.
  intros l1 l2 Hp [Hle Hw Ha]. split; [done|by rewrite <-Hp|]. clear Hle Hw. revert Ha.
  induction Hp as [|x l1 l2 Hp IH|x y l|l1 l2 l3 _ IH1 _ IH2]; intros Ha; [done| | |auto].
  - apply StronglySorted_cons in Ha as [Hx Ha]. apply StronglySorted_cons. split; [by rewrite <-Hp|auto].
  - apply StronglySorted_cons in Ha as [Hx Ha]. apply StronglySorted_cons in Ha as [Hy Ha].
    inv Hx. repeat (apply StronglySorted_cons; split); try done. constructor; [by apply apart_sym|done].
Qed.

Lemma laid_weaken lo hi lo' hi' ps : laid lo hi ps → lo' ≤ lo → hi ≤ hi' → laid lo' hi' ps.
Proof.
  intros [Hle Hw Ha] Hlo Hhi. split; [lia| |done]. eapply Forall_impl; [exact Hw|].
  unfold within. intros p [? ?]. lia.
Qed.

Lemma laid_nil lo hi : lo ≤ hi → laid lo hi [].
Proof. intros. split; [done|constructor|constructor]. Qed.

Lemma laid_app lo mid hi l1 l2 : laid lo mid l1 → laid mid hi l2 → laid lo hi (l1 ++ l2).
Proof.
  intros [H1 W1 A1] [H2 W2 A2]. split; [lia| |].
  - apply Forall_app. split; (eapply Forall_impl; [eassumption|]); unfold within; intros p [? ?]; lia.
  - apply StronglySorted_app. split_and!; [|done|done]. intros p q Hp Hq.
    rewrite Forall_forall in W1, W2. destruct (W1 p Hp), (W2 q Hq). left. lia.
Qed.

Lemma laid_one off b : laid off (off + blen b) [(off, b)].
Proof.
  pose proof (blen_nonneg b). split; [lia| |].
  - constructor; [|constructor]. unfold within, put_end. cbn. lia.
  - repeat constructor.
Qed.

Lemma laid_cons off b hi ps : laid (off + blen b) hi ps → laid off hi ((off, b) :: ps).
Proof. apply (laid_app off (off + blen b) hi [(off, b)] ps), laid_one. Qed.

(** ** Rows *)

Lemma rows_app {A} (f g : Z → A → list put) i xs :
  rows (λ i x, f i x ++ g i x) i xs ≡ₚ rows f i xs ++ rows g i xs.
Proof.
  revert i. induction xs as [|x xs IH]; intros i; [done|]. cbn [rows]. rewrite IH.
  rewrite <-!app_assoc. f_equiv. rewrite !app_assoc. f_equiv. apply Permutation_app_comm.
Qed.

Lemma rows_ext {A} (f g : Z → A → list put) i xs :
  (∀ i x, f i x = g i x) → rows f i xs = rows g i xs.
Proof. intros Hfg. revert i. induction xs as [|x xs IH]; intros i; [done|]. cbn. by rewrite Hfg, IH. Qed.

Lemma rows_perm {A} (f g : Z → A → list put) i xs :
  (∀ i x, x ∈ xs → f i x ≡ₚ g i x) → rows f i xs ≡ₚ rows g i xs.
Proof.
  intros Hfg. revert i. induction xs as [|x xs IH]; intros i; [done|]. cbn. rewrite Hfg by (by left).
  f_equiv. apply IH. intros j y Hy. apply Hfg. by right.
Qed.

Lemma elem_of_rows {A} (f : Z → A → list put) i xs p :
  p ∈ rows f i xs ↔ ∃ k x, xs !! k = Some x ∧ p ∈ f (i + Z.of_nat k) x.
Proof.
  revert i. induction xs as [|x xs IH]; intros i; cbn [rows].
  - split; [by intros ?%elem_of_nil|]. by intros (k & x & ? & _).
  - rewrite elem_of_app, IH. split.
    + intros [Hp|(k & y & Hk & Hp)]; [exists 0%nat, x|exists (S k), y]; (split; [done|]).
      * by rewrite Z.add_0_r.
      * by replace (i + Z.of_nat (S k)) with (i + 1 + Z.of_nat k) by lia.
    + intros ([|k] & y & Hk & Hp); cbn in Hk.
      * left. injection Hk as ->. by rewrite Z.add_0_r in Hp.
      * right. exists k, y. split; [done|].
        by replace (i + 1 + Z.of_nat k) with (i + Z.of_nat (S k)) by lia.
Qed.

(** Rows of one width. *)
Lemma laid_rows {A} (f : Z → A → list put) base w i xs :
  0 ≤ w → (∀ j x, i ≤ j → laid (base + w * j) (base + w * (j + 1)) (f j x)) →
  laid (base + w * i) (base + w * (i + Z.of_nat (length xs))) (rows f i xs).
Proof.
  intros Hw. revert i. induction xs as [|x xs IH]; intros i Hf; cbn [rows length].
  - apply laid_nil. nia.
  - eapply laid_app; [by apply Hf|]. eapply laid_weaken; [apply (IH (i + 1))| |].
    + intros j y Hj. apply Hf. lia.
    + lia.
    + nia.
Qed.

Lemma laid_rows0 {A} (f : Z → A → list put) base w xs :
  0 ≤ w → (∀ j x, 0 ≤ j → laid (base + w * j) (base + w * (j + 1)) (f j x)) →
  laid base (base + w * Z.of_nat (length xs)) (rows f 0 xs).
Proof.
  intros Hw Hf. pose proof (laid_rows f base w 0 xs Hw Hf) as H.
  by rewrite Z.mul_0_r, Z.add_0_r, Z.add_0_l in H.
Qed.

(** Items laid one after another. *)
Lemma laid_lay off (bs : list bytes) :
  let '(offs, e) := lay off (blen <$> bs) in
  length offs = length bs ∧ laid off e (zip offs bs).
Proof.
  revert off. induction bs as [|b bs IH]; intros off; cbn [fmap list_fmap lay].
  { split; [done|]. by apply laid_nil. }
  specialize (IH (off + blen b)). destruct (lay (off + blen b) (blen <$> bs)) as [offs e].
  destruct IH as [Hl IH]. cbn. split; [by rewrite Hl|]. by apply laid_cons.
Qed.

Lemma lay_le off lens : Forall (λ n, 0 ≤ n) lens → off ≤ (lay off lens).2.
Proof.
  intros Hn. revert off. induction Hn as [|n lens Hn _ IH]; intros off; cbn [lay]; [done|].
  specialize (IH (off + n)). destruct (lay (off + n) lens). cbn in *. lia.
Qed.

Lemma lay_aligned_le off lens : Forall (λ n, 0 ≤ n) lens → off ≤ (lay_aligned off lens).2.
Proof.
  intros Hn. revert off. induction Hn as [|n lens Hn _ IH]; intros off; cbn [lay_aligned]; [done|].
  pose proof (align_bounds off 4 ltac:(by right; right; left)). specialize (IH (align off 4 + n)).
  destruct (lay_aligned (align off 4 + n) lens). cbn in *. lia.
Qed.

Lemma slen_nonneg s : 0 ≤ slen s.
Proof. apply blen_nonneg. Qed.

Lemma Forall_nonneg_fmap {A} (f : A → Z) l : (∀ x, 0 ≤ f x) → Forall (λ n, 0 ≤ n) (f <$> l).
Proof. intros Hf. apply Forall_fmap, Forall_true. intros x. apply Hf. Qed.

Lemma length_lay off lens : length (lay off lens).1 = length lens.
Proof.
  revert off. induction lens as [|n lens IH]; intros off; cbn [lay]; [done|].
  specialize (IH (off + n)). destruct (lay (off + n) lens). cbn in *. by rewrite IH.
Qed.

(** What is planned item by item, with something at each. *)
Lemma laid_lay_with {A} (size : A → Z) (f : Z → A → list put) off (xs : list A) :
  (∀ o x, x ∈ xs → laid o (o + size x) (f o x)) →
  let '(offs, e) := lay off (size <$> xs) in
  laid off e (mjoin (zip_with f offs xs)).
Proof.
  revert off. induction xs as [|x xs IH]; intros off Hf; cbn [fmap list_fmap lay].
  { by apply laid_nil. }
  specialize (IH (off + size x)). destruct (lay (off + size x) (size <$> xs)) as [offs e]. cbn.
  eapply laid_app; [apply Hf; by left|]. apply IH. intros o y Hy. apply Hf. by right.
Qed.

Lemma laid_lay_aligned {A} (size : A → Z) (f : Z → A → list put) off (xs : list A) :
  (∀ o x, x ∈ xs → laid o (o + size x) (f o x)) →
  let '(offs, e) := lay_aligned off (size <$> xs) in
  length offs = length xs ∧ Forall (λ o, off ≤ o ∧ o mod 4 = 0) offs ∧
  laid off e (mjoin (zip_with f offs xs)).
Proof.
  assert (alignment 4) as H4 by (unfold alignment; tauto).
  revert off. induction xs as [|x xs IH]; intros off Hf; cbn [fmap list_fmap lay_aligned].
  { split_and!; [done|constructor|by apply laid_nil]. }
  pose proof (align_bounds off 4 H4) as Hal. pose proof (Hf (align off 4) x ltac:(by left)) as Hx.
  specialize (IH (align off 4 + size x)).
  destruct (lay_aligned (align off 4 + size x) (size <$> xs)) as [offs e]. cbn.
  destruct IH as (Hl & Ho & IH); [intros o y Hy; apply Hf; by right|].
  pose proof (laid_le _ _ _ Hx). split_and!; [by rewrite Hl| |].
  - constructor; [split; [lia|by apply align_mod]|]. eapply Forall_impl; [exact Ho|]. cbn. lia.
  - eapply laid_weaken; [eapply laid_app; [exact Hx|exact IH]|lia|done].
Qed.

(** ** Stores with the same image *)

Definition same_image (ps qs : list put) : Prop := ∀ x, image_at ps x = image_at qs x.

#[export] Instance same_image_equiv : Equivalence same_image.
Proof. split; [by intros ps x|by intros ps qs H x|by intros ps qs rs H1 H2 x; rewrite H1]. Qed.

#[export] Instance same_image_app : Proper (same_image ==> same_image ==> same_image) (++).
Proof. intros p1 p2 Hp q1 q2 Hq x. by rewrite !image_app, Hp, Hq. Qed.

Lemma same_image_rows {A} (f g : Z → A → list put) i xs :
  (∀ i x, x ∈ xs → same_image (f i x) (g i x)) → same_image (rows f i xs) (rows g i xs).
Proof.
  intros Hfg. revert i. induction xs as [|x xs IH]; intros i; [done|]. cbn.
  rewrite (Hfg i x ltac:(by left)). f_equiv. apply IH. intros j y Hy. apply Hfg. by right.
Qed.

Lemma image_elem ps p x c :
  StronglySorted apart ps → p ∈ ps → put_byte p x = Some c → image_at ps x = Some c.
Proof.
  induction 1 as [|q ps Hs IH Hq]; intros Hin Hb; [by apply elem_of_nil in Hin|]. cbn.
  apply elem_of_cons in Hin as [->|Hin]; [|by rewrite IH].
  destruct (image_at ps x) as [d|] eqn:Hi; [|done]. exfalso.
  assert (∃ r, r ∈ ps ∧ put_byte r x = Some d) as (r & Hr & Hd).
  { clear -Hi. revert Hi. induction ps as [|r ps IH]; [done|]. cbn.
    destruct (image_at ps x) as [e|]; intros He.
    - destruct (IH He) as (r' & ? & ?). exists r'. split; [by right|done].
    - exists r. split; [by left|done]. }
  rewrite Forall_forall in Hq. specialize (Hq r Hr).
  apply put_byte_range in Hb, Hd. unfold apart in Hq. lia.
Qed.

(** ** The buffer *)

Lemma put_in_spec buf p :
  0 ≤ p.1 → put_end p ≤ blen buf →
  ∃ buf', put_in buf p = Ok buf' ∧ length buf' = length buf ∧
    ∀ x : nat, buf' !! x = match put_byte p (Z.of_nat x) with Some c => Some c | None => buf !! x end.
Proof.
  destruct p as [off b]. unfold put_end, put_in, put_byte, blen. cbn. intros Hlo Hhi.
  rewrite decide_True by lia. eexists. split; [done|].
  assert (length (take (Z.to_nat off) buf) = Z.to_nat off) as Ht by (rewrite length_take; lia).
  split; [rewrite !length_app, Ht, length_drop; lia|]. intros x. case_decide as Hx.
  - unfold bytes in *. rewrite lookup_app_r by lia. rewrite Ht.
    replace (Z.to_nat (Z.of_nat x - off)) with (x - Z.to_nat off)%nat by lia.
    destruct (b !! (x - Z.to_nat off)%nat) as [c|] eqn:Hc; [by apply lookup_app_l_Some|].
    apply lookup_ge_None in Hc. rewrite lookup_app_r by lia. rewrite lookup_drop. f_equal. lia.
  - unfold bytes in *. rewrite lookup_app_l by lia. rewrite lookup_take_lt by lia. done.
Qed.

Lemma put_all_spec buf ps :
  Forall (within 0 (blen buf)) ps →
  ∃ buf', put_all buf ps = Ok buf' ∧ length buf' = length buf ∧
    ∀ x : nat, buf' !! x = match image_at ps (Z.of_nat x) with Some c => Some c | None => buf !! x end.
Proof.
  intros Hw. revert buf Hw. induction ps as [|p ps IH]; intros buf Hw; [by exists buf|]. inv Hw.
  rename select (within _ _ p) into Hp. destruct Hp as [Hlo Hhi].
  destruct (put_in_spec buf p Hlo Hhi) as (b1 & Hb1 & Hl1 & Hx1).
  destruct (IH b1) as (b2 & Hb2 & Hl2 & Hx2); [by unfold blen; rewrite Hl1|].
  exists b2. cbn [put_all]. rewrite Hb1. split_and!; [done|lia|]. intros x. cbn [image_at].
  rewrite Hx2, Hx1. by destruct (image_at ps _).
Qed.

(** The buffer holds [b] at [off]. *)
Record holds (buf : bytes) (off : Z) (b : bytes) : Prop := mkHolds {
  holds_lo : 0 ≤ off;
  holds_hi : off + blen b ≤ blen buf;
  holds_bytes : take (length b) (drop (Z.to_nat off) buf) = b
}.

Definition holds_all (buf : bytes) (ps : list put) : Prop := ∀ p, p ∈ ps → holds buf p.1 p.2.

(** Whatever the order of the stores, if others with the same image are laid in the buffer
    then it holds each of those. *)
Lemma stores_held (size : Z) ps qs :
  0 ≤ size → Forall (within 0 size) ps → same_image ps qs → laid 0 size qs →
  ∃ buf, put_all (replicate (Z.to_nat size) Ascii.zero) ps = Ok buf ∧ blen buf = size ∧ holds_all buf qs.
Proof.
  intros Hsz Hw Hsame [_ Hq Ha].
  assert (blen (replicate (Z.to_nat size) Ascii.zero) = size) as Hl by (unfold blen; rewrite length_replicate; lia).
  destruct (put_all_spec (replicate (Z.to_nat size) Ascii.zero) ps) as (buf & Hb & Hlb & Hx); [by rewrite Hl|].
  exists buf. assert (blen buf = size) as Hlen by (by unfold blen in *; rewrite Hlb).
  split_and!; [done|done|]. intros p Hp. rewrite Forall_forall in Hq. destruct (Hq p Hp) as [Hlo Hhi].
  split; [done|unfold put_end in Hhi; lia|]. apply list_eq. intros i.
  destruct (decide (i < length p.2)%nat) as [Hi|Hi].
  - rewrite lookup_take_lt by done. rewrite lookup_drop, Hx.
    destruct (lookup_lt_is_Some_2 p.2 i Hi) as [c Hc]. rewrite Hc.
    assert (put_byte p (Z.of_nat (Z.to_nat p.1 + i)) = Some c) as Hpb.
    { unfold put_byte. rewrite decide_True by lia. rewrite <-Hc. f_equal. lia. }
    rewrite Hsame. by erewrite image_elem.
  - rewrite lookup_take_ge by lia. symmetry. apply lookup_ge_None. lia.
Qed.

Lemma holds_all_app buf ps qs : holds_all buf (ps ++ qs) ↔ holds_all buf ps ∧ holds_all buf qs.
Proof. unfold holds_all. setoid_rewrite elem_of_app. naive_solver. Qed.

Lemma holds_all_cons buf off b ps : holds_all buf ((off, b) :: ps) ↔ holds buf off b ∧ holds_all buf ps.
Proof. unfold holds_all. setoid_rewrite elem_of_cons. naive_solver. Qed.

Lemma holds_all_perm buf ps qs : ps ≡ₚ qs → holds_all buf qs → holds_all buf ps.
Proof. intros Hp Hq p Hin. apply Hq. by rewrite <-Hp. Qed.

Lemma holds_all_rows {A} buf (f : Z → A → list put) xs k x :
  holds_all buf (rows f 0 xs) → xs !! k = Some x → holds_all buf (f (Z.of_nat k) x).
Proof. intros Hh Hk p Hp. apply Hh, elem_of_rows. by exists k, x. Qed.

Lemma holds_all_join {A} buf (f : Z → A → list put) os xs k o x :
  holds_all buf (mjoin (zip_with f os xs)) → os !! k = Some o → xs !! k = Some x →
  holds_all buf (f o x).
Proof.
  intros Hh Ho Hx p Hp. apply Hh, list_elem_of_join. exists (f o x). split; [done|].
  apply list_elem_of_lookup. exists k. by rewrite lookup_zip_with, Ho, Hx.
Qed.

(** Adjacent pieces make one. *)
Lemma holds_app buf off b1 b2 :
  holds buf off b1 → holds buf (off + blen b1) b2 → holds buf off (b1 ++ b2).
Proof.
  intros [L1 H1 B1] [L2 H2 B2]. unfold blen in *. split; [done|unfold blen; rewrite length_app; lia|].
  rewrite length_app, <-take_take_drop, B1, drop_drop.
  replace (Z.to_nat off + length b1)%nat with (Z.to_nat (off + Z.of_nat (length b1))) by lia.
  by rewrite B2.
Qed.

Lemma holds_nil buf off : 0 ≤ off → off ≤ blen buf → holds buf off [].
Proof. intros. split; [done|change (blen []) with 0; lia|done]. Qed.

(** ** Reads *)

Lemma get_le_le w v : 0 ≤ v < 2 ^ (8 * Z.of_nat w) → Z.of_N (get_le (le w v)) = v.
Proof.
  intros Hv. unfold le. rewrite Z.mod_small by done.
  rewrite get_put_le; [by rewrite Z2N.id by lia|].
  apply N2Z.inj_lt. rewrite Z2N.id by lia. rewrite N2Z.inj_pow.
  replace (Z.of_N 256) with (2 ^ 8) by done. rewrite <-Z.pow_mul_r by lia.
  rewrite nat_N_Z. lia.
Qed.

Lemma uint_holds w buf off v :
  holds buf off (le w v) → 0 ≤ v < 2 ^ (8 * Z.of_nat w) → uint w buf off = Ok v.
Proof.
  intros [L H Hb] Hv. unfold blen in H. rewrite length_le in *. unfold uint, blen. rewrite decide_True by lia.
  by rewrite Hb, get_le_le.
Qed.

Lemma view_holds buf off b :
  holds buf off b → off < blen buf → view buf off (blen b) = Ok b.
Proof.
  intros [L H Hb] Hlt. unfold view. pose proof (blen_nonneg b). rewrite !decide_True by lia.
  unfold blen. by rewrite Nat2Z.id, Hb.
Qed.

Lemma sub_holds buf off b : holds buf off b → sub buf off (off + blen b) = Ok b.
Proof.
  intros [L H Hb]. unfold sub. pose proof (blen_nonneg b). rewrite decide_True by lia.
  replace (off + blen b - off) with (blen b) by lia. unfold blen. by rewrite Nat2Z.id, Hb.
Qed.

Lemma words_le w vs :
  Forall (λ v, 0 ≤ v < 2 ^ (8 * Z.of_nat w)) vs →
  words w (length vs) (mjoin (le w <$> vs)) = vs.
Proof.
  induction 1 as [|v vs Hv _ IH]; [done|]. cbn [length words fmap list_fmap mjoin list_join].
  rewrite take_app_length', drop_app_length' by (by rewrite length_le). rewrite get_le_le by done. f_equal. exact IH.
Qed.

Lemma blen_join_le w vs : blen (mjoin (le w <$> vs)) = Z.of_nat w * Z.of_nat (length vs).
Proof.
  unfold blen. induction vs as [|v vs IH]; [cbn; lia|]. change (mjoin (le w <$> v :: vs)) with (le w v ++ mjoin (le w <$> vs)).
  rewrite length_app, length_le. cbn [length]. lia.
Qed.

Lemma uints_holds w buf off vs :
  (0 < w)%nat → holds buf off (mjoin (le w <$> vs)) → Forall (λ v, 0 ≤ v < 2 ^ (8 * Z.of_nat w)) vs →
  uints w buf off (Z.of_nat (length vs)) = Ok vs.
Proof.
  intros Hw Hh Hv. unfold uints. case_decide as Hn; [by destruct vs|].
  pose proof (holds_hi _ _ _ Hh) as Hhi. rewrite blen_join_le in Hhi.
  rewrite <-blen_join_le, view_holds by (try done; nia). cbn [result_bind].
  by rewrite Nat2Z.id, words_le.
Qed.

(** A run of fixed-width stores is one piece. *)
Lemma holds_words {A} buf w (val : A → Z) base (xs : list A) :
  0 ≤ base → base ≤ blen buf →
  (∀ k x, xs !! k = Some x → holds buf (base + Z.of_nat w * Z.of_nat k) (le w (val x))) →
  holds buf base (mjoin (le w <$> (val <$> xs))).
Proof.
  revert base. induction xs as [|x xs IH]; intros base Hlo Hhi Hx; [by apply holds_nil|].
  pose proof (Hx 0%nat x eq_refl) as H0. rewrite Z.mul_0_r, Z.add_0_r in H0.
  cbn [fmap list_fmap mjoin list_join]. apply holds_app; [done|].
  pose proof (holds_hi _ _ _ H0) as Hh0. unfold blen at 1 in Hh0. unfold blen at 1. rewrite length_le in *.
  apply IH; [lia|lia|]. intros k y Hk. specialize (Hx (S k) y Hk).
  by replace (base + Z.of_nat w + Z.of_nat w * Z.of_nat k) with (base + Z.of_nat w * Z.of_nat (S k)) by lia.
Qed.
