(* ===== verification/Bm25Dicts.v ===== *)
(** * The dictionaries of a bm25 segment are laid without overlap

    Each kind's stores, in the order of the code, fall side by side in the interval its
    plan reserves.  A hash table is written twice, emptied and then filled; its image is
    that of its final slots. *)

From Stdlib Require Import Ascii.
From S2P Require Import Prelude Supersession Bm25Layout Bm25Read Bm25Encode Bm25Image.

Local Open Scope Z_scope.

Lemma alignment_4 : alignment 4.
Proof. unfold alignment. tauto. Qed.
Lemma alignment_8 : alignment 8.
Proof. unfold alignment. tauto. Qed.
#[export] Hint Resolve alignment_4 alignment_8 : core.

Lemma blen_le w v : blen (le w v) = Z.of_nat w.
Proof. unfold blen. by rewrite length_le. Qed.

Lemma laid_put w off v : laid off (off + Z.of_nat w) [(off, le w v)].
Proof. rewrite <-(blen_le w v). apply laid_one. Qed.

(** Adjacent fixed-width stores. *)
Lemma laid_step w off v hi ps :
  laid (off + Z.of_nat w) hi ps → laid off hi ((off, le w v) :: ps).
Proof. intros H. apply laid_cons. by rewrite blen_le. Qed.

(** Fixed-width stores side by side, gaps allowed. *)
Ltac laid_fixed :=
  unfold put16, put32, put64;
  repeat (eapply laid_weaken; [apply laid_step| |apply Z.le_refl]; [|lia]);
  apply laid_nil; lia.

(** A store of a literal list. *)
Ltac in_puts :=
  cbn [app];
  lazymatch goal with
  | |- ?p ∈ ?p :: _ => apply list_elem_of_here
  | |- _ ∈ _ :: _ => first [apply list_elem_of_here | apply list_elem_of_further; in_puts]
  end.

(** ** Terms, headers and rows *)

Definition term_row : Type := string * Z * (Z * Z).

Definition term_put (x : term_row) : list put := [putStr x.1.2 x.1.1].

Definition entry_puts (entries i : Z) (x : term_row) : list put :=
  let row := entries + v2FlatEntrySize * i in
  [put32 row x.1.2; put32 (row + 4) (slen x.1.1); put32 (row + 8) x.2.1; put32 (row + 12) x.2.2].

Lemma writeFlatEntries_split d ts :
  writeFlatEntries d ts ≡ₚ rows (λ _, term_put) 0 ts ++ rows (entry_puts (dEntriesOff d)) 0 ts.
Proof.
  unfold writeFlatEntries. rewrite <-rows_app. erewrite rows_ext; [done|]. by intros i [[t o] [p c]].
Qed.

Lemma rows_terms i (terms : list string) (offs : list Z) (ptrs : list (Z * Z)) :
  length offs = length terms → length ptrs = length terms →
  rows (λ _, term_put) i (zip (zip terms offs) ptrs) = zip offs (to_bytes <$> terms).
Proof.
  revert i offs ptrs. induction terms as [|t terms IH]; intros i [|o offs] [|p ptrs] Ho Hp; try done.
  cbn in *. f_equal. apply IH; lia.
Qed.

Lemma laid_terms off (terms : list string) offs e :
  lay off (slen <$> terms) = (offs, e) →
  length offs = length terms ∧ off ≤ e ∧ laid off e (zip offs (to_bytes <$> terms)).
Proof.
  intros Hl. pose proof (laid_lay off (to_bytes <$> terms)) as H. rewrite <-list_fmap_compose in H.
  change (blen ∘ to_bytes) with slen in H. rewrite Hl in H. destruct H as [Hn Hd].
  rewrite length_fmap in Hn. split_and!; [done|by eapply laid_le|done].
Qed.

Lemma entry_puts_laid entries i (x : term_row) :
  laid (entries + v2FlatEntrySize * i) (entries + v2FlatEntrySize * (i + 1)) (entry_puts entries i x).
Proof.
  unfold entry_puts, put32, v2FlatEntrySize.
  laid_fixed.
Qed.

Lemma length_rows_of (terms : list string) (offs : list Z) (ptrs : list (Z * Z)) :
  length offs = length terms → length ptrs = length terms →
  length (zip (zip terms offs) ptrs) = length terms.
Proof. intros Ho Hp. rewrite !length_zip. lia. Qed.

Lemma flat_entries_laid entries terms offs ptrs :
  length offs = length terms → length ptrs = length terms →
  laid entries (entries + v2FlatEntrySize * Z.of_nat (length terms))
    (rows (entry_puts entries) 0 (zip (zip terms offs) ptrs)).
Proof.
  intros Ho Hp. rewrite <-(length_rows_of terms offs ptrs) by done.
  apply laid_rows0; [done|]. intros j x _. apply entry_puts_laid.
Qed.

Lemma flat_laid off terms ptrs d e :
  planFlatDict off terms = (d, e) → length ptrs = length terms →
  laid off e (writeFlatDict d (zip (zip terms (dTermOff d)) ptrs)).
Proof.
  unfold planFlatDict. destruct (lay off (slen <$> terms)) as [offs e0] eqn:Hl. intros [= <- <-] Hp.
  destruct (laid_terms _ _ _ _ Hl) as (Hn & Hle & Ht).
  unfold writeFlatDict. cbn [dTermOff dOff dEntriesOff]. rewrite writeFlatEntries_split. cbn [dEntriesOff].
  rewrite rows_terms by done. rewrite Permutation_app_swap_app.
  pose proof (align_bounds e0 8 alignment_8). eapply laid_app; [exact Ht|].
  apply (laid_app _ (align e0 8 + 8)).
  - laid_fixed.
  - by apply flat_entries_laid.
Qed.

(** ** The slots of a hash table *)

Definition slot : Type := option (Z * Z).

Definition slot_puts (base s : Z) (o : slot) : list put :=
  match o with
  | None => [put32 (base + v2HashSlotSize * s + 4) hashEmptySlot]
  | Some (fp, i) => [put32 (base + v2HashSlotSize * s) fp; put32 (base + v2HashSlotSize * s + 4) i]
  end.

(** The table after some placements. *)
Definition fill (t : list slot) (x : Z * Z * Z) : list slot :=
  let '(s, fp, i) := x in <[Z.to_nat s := Some (fp, i)]> t.

Definition table_of (n : Z) (placed : list (Z * Z * Z)) : list slot :=
  fold_left fill placed (replicate (Z.to_nat n) None).

Lemma slot_puts_laid base s o :
  laid (base + v2HashSlotSize * s) (base + v2HashSlotSize * (s + 1)) (slot_puts base s o).
Proof. unfold slot_puts, v2HashSlotSize. destruct o as [[fp i]|]; laid_fixed. Qed.

Lemma image_rows {A} (f : Z → A → list put) base w i xs x :
  0 < w → (∀ j y, i ≤ j → laid (base + w * j) (base + w * (j + 1)) (f j y)) →
  image_at (rows f i xs) x =
    if decide (base + w * i ≤ x) then
      match xs !! Z.to_nat ((x - base) / w - i) with
      | Some y => image_at (f ((x - base) / w) y) x
      | None => None
      end
    else None.
Proof.
  intros Hw. revert i. induction xs as [|y xs IH]; intros i Hf; cbn [rows].
  { rewrite lookup_nil. by case_decide. }
  rewrite image_app, (IH (i + 1)) by (intros; apply Hf; lia).
  pose proof (Hf i y ltac:(lia)) as Hy.
  pose proof (Z.div_mod (x - base) w ltac:(lia)) as Hd. pose proof (Z.mod_pos_bound (x - base) w Hw).
  destruct (decide (base + w * i ≤ x)) as [Hx|Hx].
  - destruct (decide (base + w * (i + 1) ≤ x)) as [Hx'|Hx'].
    + assert (i + 1 ≤ (x - base) / w) by nia.
      replace (Z.to_nat ((x - base) / w - i)) with (S (Z.to_nat ((x - base) / w - (i + 1)))) by lia.
      rewrite lookup_cons. destruct (xs !! _); [destruct (image_at _ _); [done|]|];
        apply (image_out _ _ _ _ (laid_within _ _ _ Hy)); lia.
    + assert ((x - base) / w = i) as -> by nia. by rewrite Z.sub_diag.
  - rewrite decide_False by nia. apply (image_out _ _ _ _ (laid_within _ _ _ Hy)). lia.
Qed.

Lemma slot_full base s fp i x :
  base + v2HashSlotSize * s ≤ x → x < base + v2HashSlotSize * (s + 1) →
  is_Some (image_at (slot_puts base s (Some (fp, i))) x).
Proof.
  unfold v2HashSlotSize. intros Hlo Hhi. cbn. unfold put32.
  destruct (put_byte (base + v2HashSlotSize * s + 4, le 4 i) x) as [c|] eqn:Hi; [by eexists|].
  apply put_byte_in; unfold put_end, v2HashSlotSize; cbn [fst snd]; rewrite ?blen_le; [lia|].
  destruct (decide (base + 8 * s + 4 ≤ x)) as [Hx|]; [|lia]. exfalso.
  destruct (put_byte_in (base + v2HashSlotSize * s + 4, le 4 i) x) as [c Hc]; [done| |congruence].
  unfold put_end, v2HashSlotSize. cbn [fst snd]. rewrite blen_le. lia.
Qed.

Lemma fill_image base (t : list slot) s fp i :
  0 ≤ s → s < Z.of_nat (length t) →
  same_image (rows (slot_puts base) 0 t ++ slot_puts base s (Some (fp, i)))
    (rows (slot_puts base) 0 (<[Z.to_nat s := Some (fp, i)]> t)).
Proof.
  intros Hs Hlt x. rewrite image_app.
  rewrite !(image_rows _ base v2HashSlotSize) by (done || intros; apply slot_puts_laid).
  set (q := (x - base) / v2HashSlotSize). rewrite !Z.sub_0_r.
  pose proof (Z.div_mod (x - base) v2HashSlotSize ltac:(done)) as Hd. fold q in Hd.
  pose proof (Z.mod_pos_bound (x - base) v2HashSlotSize ltac:(done)) as Hm.
  pose proof (laid_within _ _ _ (slot_puts_laid base s (Some (fp, i)))) as Hl.
  unfold v2HashSlotSize in Hd, Hm.
  destruct (decide (base + v2HashSlotSize * 0 ≤ x)) as [Hx|Hx]; unfold v2HashSlotSize in Hx.
  - destruct (decide (q = s)) as [->|Hne].
    + rewrite list_lookup_insert_eq by lia.
      destruct (slot_full base s fp i x) as [c ->]; [unfold v2HashSlotSize; lia..|done].
    + rewrite (image_out _ _ _ _ Hl) by (unfold v2HashSlotSize; nia).
      rewrite list_lookup_insert_ne by (assert (0 ≤ q) by nia; lia). done.
  - rewrite (image_out _ _ _ _ Hl) by (unfold v2HashSlotSize; nia). done.
Qed.

Definition fill_puts (base : Z) (x : Z * Z * Z) : list put :=
  let '(s, fp, i) := x in slot_puts base s (Some (fp, i)).

Lemma length_fill t placed : length (fold_left fill placed t) = length t.
Proof.
  revert t. induction placed as [|[[s fp] i] placed IH]; intros t; [done|]. cbn [fold_left]. rewrite IH.
  apply length_insert.
Qed.

Lemma fill_images base placed t :
  Forall (λ x, 0 ≤ x.1.1 ∧ x.1.1 < Z.of_nat (length t)) placed →
  same_image (rows (slot_puts base) 0 t ++ mjoin (fill_puts base <$> placed))
    (rows (slot_puts base) 0 (fold_left fill placed t)).
Proof.
  revert t. induction placed as [|[[s fp] i] placed IH]; intros t Hp.
  { intros x. by rewrite app_nil_r. }
  inv Hp. rename select (_ ∧ _) into Hs. cbn in Hs. cbn [fmap list_fmap mjoin list_join fold_left].
  rewrite app_assoc. cbn [fill_puts fill]. rewrite fill_image by lia. apply IH. by rewrite length_insert.
Qed.

(** The stores of a hash dictionary with the table in its final state. *)
Definition hash_puts (d : v2DictPlan) (ts : list term_row) : list put :=
  [put32 (dOff d) (Z.of_nat (length ts)); put32 (dOff d + 4) (dEntriesOff d);
   put32 (dOff d + 8) (dSlotsOff d); put32 (dOff d + 12) (dSlotCount d)]
    ++ writeFlatEntries d ts
    ++ rows (slot_puts (dSlotsOff d)) 0
         (table_of (dSlotCount d) (hash_slots (dSlotCount d) ((λ t, t.1.1) <$> ts))).

Lemma hash_image d ts :
  Forall (λ x, 0 ≤ x.1.1 ∧ x.1.1 < dSlotCount d) (hash_slots (dSlotCount d) ((λ t, t.1.1) <$> ts)) →
  same_image (writeHashDict d ts) (hash_puts d ts).
Proof.
  intros Hin. unfold writeHashDict, hash_puts. do 2 f_equiv. unfold table_of.
  rewrite <-fill_images.
  - f_equiv; [|done]. generalize (Z.to_nat (dSlotCount d)) at 1 2. generalize 0 at 1 2.
    intros z n x. revert z. induction n as [|n IH]; intros z; [done|].
    cbn [replicate rows]. by rewrite !image_app, IH.
  - rewrite length_replicate. eapply Forall_impl; [exact Hin|]. cbn. lia.
Qed.
