(* ===== verification/Bm25Hash.v ===== *)
(** * The hash table of a bm25 dictionary ([serial_v2_dict.go])

    Open addressing over a power of two of slots, at least twice as many as terms: every
    hash finds a slot, and probing from a term's hash meets no empty slot before it. *)

From Stdlib Require Import Ascii.
From S2P Require Import Prelude Supersession Bm25Layout Bm25Read Bm25Encode Bm25Image Bm25Dicts.

Local Open Scope Z_scope.

(** ** The number of slots *)

Lemma hashSlotCount_loop_spec fuel m t :
  (∃ k, 0 ≤ k ∧ m = 2 ^ k) →
  (∃ k, 0 ≤ k ∧ hashSlotCount_loop fuel m t = 2 ^ k) ∧
  (2 * t ≤ hashSlotCount_loop fuel m t ∨ hashSlotCount_loop fuel m t = m * 2 ^ Z.of_nat fuel).
Proof.
  revert m. induction fuel as [|fuel IH]; intros m Hm; cbn [hashSlotCount_loop]; [split; [done|lia]|].
  case_decide as Hlt; [|split; [done|lia]]. destruct Hm as (k & Hk & ->).
  destruct (IH (2 * 2 ^ k)) as [Hp Hle].
  { exists (k + 1). split; [lia|]. by rewrite Z.pow_add_r, Z.mul_comm by lia. }
  split; [done|]. destruct Hle as [|Heq]; [by left|right].
  rewrite Heq, Nat2Z.inj_succ, Z.pow_succ_r by lia. ring.
Qed.

Lemma hashSlotCount_spec t :
  t < 2 ^ 60 → (∃ k, 0 ≤ k ∧ hashSlotCount t = 2 ^ k) ∧ 2 * t ≤ hashSlotCount t.
Proof.
  intros Ht. destruct (hashSlotCount_loop_spec 64 1 t) as [Hp Hle]; [by exists 0|].
  split; [done|]. unfold hashSlotCount. destruct Hle as [|Heq]; [done|]. rewrite Heq. lia.
Qed.

Lemma land_mod n x : (∃ k, 0 ≤ k ∧ n = 2 ^ k) → Z.land x (n - 1) = x mod n.
Proof.
  intros (k & Hk & ->). replace (2 ^ k - 1) with (Z.ones k) by (rewrite Z.ones_equiv; lia).
  by rewrite Z.land_ones.
Qed.

(** ** Placement *)

Section Table.
Context (n : Z) (n_pow : ∃ k, 0 ≤ k ∧ n = 2 ^ k).

Lemma n_pos : 0 < n.
Proof. destruct n_pow as (k & Hk & ->). lia. Qed.

Definition at_slot {A} (t : list A) (x : Z) : option A := t !! Z.to_nat (x mod n).

Lemma free_slot_spec fuel (table : list Z) s :
  match free_slot fuel table (n - 1) (s mod n) with
  | Some f => ∃ j : nat, (j < fuel)%nat ∧ f = (s + Z.of_nat j) mod n ∧
      at_slot table (s + Z.of_nat j) = Some hashEmptySlot ∧
      ∀ i : nat, (i < j)%nat → at_slot table (s + Z.of_nat i) ≠ Some hashEmptySlot
  | None => ∀ j : nat, (j < fuel)%nat → at_slot table (s + Z.of_nat j) ≠ Some hashEmptySlot
  end.
Proof.
  pose proof n_pos. revert s. induction fuel as [|fuel IH]; intros s; cbn [free_slot]; [lia|].
  destruct (decide (table !! Z.to_nat (s mod n) = Some hashEmptySlot)) as [He|He].
  - exists 0%nat. unfold at_slot. rewrite Z.add_0_r. split_and!; [lia|done|done|lia].
  - rewrite land_mod by done. rewrite Z.add_mod_idemp_l by lia. specialize (IH (s + 1)).
    assert (∀ i : nat, s + 1 + Z.of_nat i = s + Z.of_nat (S i)) as Hs by lia.
    destruct (free_slot fuel table (n - 1) ((s + 1) mod n)) as [f|].
    + destruct IH as (j & Hj & -> & Hf & Hb). exists (S j). rewrite <-Hs.
      split_and!; [lia|done|done|]. intros [|i] Hi; [by rewrite Z.add_0_r|]. rewrite <-Hs. apply Hb. lia.
    + intros [|j] Hj; [by rewrite Z.add_0_r|]. rewrite <-Hs. apply IH. lia.
Qed.

Definition slot_idx (o : slot) : Z := match o with None => hashEmptySlot | Some (_, i) => i end.

Definition empties (t : list slot) : nat := length (filter (λ o, o = None) t).

(** The table after the first [k] hashes. *)
Record placed_ok (hs : list Z) (k : nat) (t : list slot) : Prop := mkPlaced {
  po_length : Z.of_nat (length t) = n;
  po_entries s fp i : t !! s = Some (Some (fp, i)) →
    ∃ j h, i = Z.of_nat j ∧ (j < k)%nat ∧ hs !! j = Some h ∧ fp = Z.shiftr h 32;
  po_reach j h : (j < k)%nat → hs !! j = Some h →
    ∃ m : nat, Z.of_nat m < n ∧ at_slot t (h + Z.of_nat m) = Some (Some (Z.shiftr h 32, Z.of_nat j)) ∧
      ∀ i : nat, (i < m)%nat → ∃ x, at_slot t (h + Z.of_nat i) = Some (Some x);
  po_empties : (empties t + k = length t)%nat
}.

Lemma empties_insert (t : list slot) s x :
  t !! s = Some None → (empties t = S (empties (<[s := Some x]> t)))%nat.
Proof.
  intros Hs. pose proof (lookup_lt_Some _ _ _ Hs) as Hlt.
  rewrite insert_take_drop by done. unfold empties.
  rewrite <-(take_drop_middle t s None Hs) at 1. rewrite !filter_app, !length_app.
  rewrite !filter_cons. rewrite decide_True by done. rewrite decide_False by done. cbn [length].
  by rewrite Nat.add_succ_r.
Qed.

Lemma empties_some (t : list slot) : (0 < empties t)%nat → ∃ s, t !! s = Some None.
Proof.
  unfold empties. intros Hl. destruct (filter (λ o, o = None) t) as [|o l] eqn:Hf; [cbn in Hl; lia|].
  assert (o ∈ filter (λ o, o = None) t) as Ho by (rewrite Hf; by left).
  apply list_elem_of_filter in Ho as [-> Ho]. by apply list_elem_of_lookup in Ho.
Qed.

Lemma at_slot_fmap {A B} (f : A → B) (t : list A) x : at_slot (f <$> t) x = f <$> at_slot t x.
Proof. apply list_lookup_fmap. Qed.

Lemma at_slot_mod {A} (t : list A) x : t !! Z.to_nat (x mod n) = at_slot t x.
Proof. done. Qed.

(** The table with an index of its own in an empty slot. *)
Lemma placed_insert hs k t h (m : nat) :
  placed_ok hs k t → hs !! k = Some h → Z.of_nat m < n →
  at_slot t (h + Z.of_nat m) = Some None →
  (∀ i : nat, (i < m)%nat → ∃ x, at_slot t (h + Z.of_nat i) = Some (Some x)) →
  placed_ok hs (S k)
    (<[Z.to_nat ((h + Z.of_nat m) mod n) := Some (Z.shiftr h 32, Z.of_nat k)]> t).
Proof.
  pose proof n_pos as Hn. intros [Hl He Hre Hem] Hh Hm Hfree Hbefore.
  set (s := Z.to_nat ((h + Z.of_nat m) mod n)). set (o := Some (Z.shiftr h 32, Z.of_nat k)).
  assert (s < length t)%nat as Hs by (by eapply lookup_lt_Some).
  assert (∀ x y, at_slot t x = Some (Some y) → at_slot (<[s := o]> t) x = Some (Some y)) as Hkeep.
  { intros x y Hx. unfold at_slot in *. rewrite list_lookup_insert_ne; [done|]. intros Heq.
    rewrite <-Heq in Hx. unfold s in Hx. congruence. }
  split.
  - by rewrite length_insert.
  - intros s' fp i Hs'. destruct (decide (s' = s)) as [->|Hne].
    + rewrite list_lookup_insert_eq in Hs' by done. injection Hs' as <- <-.
      exists k, h. split_and!; [done|lia|done|done].
    + rewrite list_lookup_insert_ne in Hs' by done. destruct (He s' fp i Hs') as (j & h' & ? & ? & ? & ?).
      exists j, h'. split_and!; [done|lia|done|done].
  - intros j h' Hj Hh'. destruct (decide (j = k)) as [->|Hne].
    + assert (h' = h) as -> by congruence. exists m. split_and!; [done| |].
      * unfold at_slot. fold s. by rewrite list_lookup_insert_eq.
      * intros i Hi. destruct (Hbefore i Hi) as [x Hx]. exists x. by apply Hkeep.
    + destruct (Hre j h' ltac:(lia) Hh') as (m' & Hm' & Hx & Hb). exists m'. split_and!; [done|by apply Hkeep|].
      intros i Hi. destruct (Hb i Hi) as [x Hx']. exists x. by apply Hkeep.
  - rewrite length_insert. pose proof (empties_insert t s (Z.shiftr h 32, Z.of_nat k) Hfree) as Hemp.
    fold s o in Hemp. lia.
Qed.

Lemma place_ok hs pre rest t :
  hs = pre ++ rest → placed_ok hs (length pre) t →
  Z.of_nat (length hs) < n → Z.of_nat (length hs) < hashEmptySlot →
  ∃ placed, place_hashes (slot_idx <$> t) (n - 1) (Z.of_nat (length pre)) rest = Some placed ∧
    Forall (λ x, 0 ≤ x.1.1 ∧ x.1.1 < n) placed ∧
    placed_ok hs (length hs) (fold_left fill placed t).
Proof.
  pose proof n_pos as Hn. intros Hhs Hok Hlen Hmax. revert pre t Hhs Hok.
  induction rest as [|h rest IH]; intros pre t Hhs Hok; pose proof Hok as [Hl He Hre Hem].
  { exists []. rewrite app_nil_r in Hhs. subst pre. split_and!; [done|constructor|done]. }
  assert (hs !! length pre = Some h) as Hh by (rewrite Hhs; by apply list_lookup_middle).
  assert (length hs = (length pre + S (length rest))%nat) as Hlh by (rewrite Hhs; apply length_app).
  assert (∀ x, at_slot (slot_idx <$> t) x = Some hashEmptySlot ↔ at_slot t x = Some None) as Hempty.
  { intros x. rewrite at_slot_fmap. split; [|by intros ->]. unfold at_slot.
    destruct (t !! Z.to_nat (x mod n)) as [[[fp i]|]|] eqn:Ht; cbn; [|done|done]. intros [= Hi].
    destruct (He _ _ _ Ht) as (j & _ & -> & Hj & _). unfold hashEmptySlot in *. lia. }
  assert (∀ x, ∃ o, at_slot t x = Some o) as Hin.
  { intros x. unfold at_slot. apply lookup_lt_is_Some_2. pose proof (Z.mod_pos_bound x n Hn). lia. }
  cbn [place_hashes]. rewrite length_fmap, land_mod by done.
  pose proof (free_slot_spec (length t) (slot_idx <$> t) h) as Hfree.
  destruct (free_slot (length t) (slot_idx <$> t) (n - 1) (h mod n)) as [s|].
  - destruct Hfree as (m & Hm & -> & Hs & Hb). rewrite Hempty in Hs.
    assert (placed_ok hs (S (length pre))
      (<[Z.to_nat ((h + Z.of_nat m) mod n) := Some (Z.shiftr h 32, Z.of_nat (length pre))]> t)) as Hok'.
    { apply placed_insert; [done|done|lia|done|]. intros i Hi. destruct (Hin (h + Z.of_nat i)) as [[x|] Ho].
      - by exists x.
      - exfalso. apply (Hb i Hi). by apply Hempty. }
    destruct (IH (pre ++ [h]) (<[Z.to_nat ((h + Z.of_nat m) mod n) :=
      Some (Z.shiftr h 32, Z.of_nat (length pre))]> t)) as (placed & Hp & Hr & Hf).
    { by rewrite <-app_assoc. }
    { by rewrite length_app, Nat.add_1_r. }
    rewrite length_app, Nat.add_1_r, Nat2Z.inj_succ, <-Z.add_1_r in Hp. cbn [mbind option_bind].
    rewrite list_fmap_insert in Hp. cbn [slot_idx] in Hp. rewrite Hp.
    eexists. split; [done|]. split; [|done]. constructor; [|done]. cbn. by apply Z.mod_pos_bound.
  - exfalso. destruct (empties_some t) as [s Hs]; [lia|]. pose proof (lookup_lt_Some _ _ _ Hs) as Hlt.
    (* the empty slot lies some steps from the hash's own *)
    apply (Hfree (Z.to_nat ((Z.of_nat s - h) mod n))).
    + pose proof (Z.mod_pos_bound (Z.of_nat s - h) n Hn). lia.
    + apply Hempty. unfold at_slot. rewrite Z2Nat.id by (by apply Z.mod_pos_bound).
      rewrite Z.add_mod_idemp_r by lia. replace (h + (Z.of_nat s - h)) with (Z.of_nat s) by lia.
      unfold slot in *. rewrite Z.mod_small by lia. by rewrite Nat2Z.id.
Qed.

Lemma placed_start hs : placed_ok hs 0 (replicate (Z.to_nat n) None).
Proof.
  pose proof n_pos. split.
  - rewrite length_replicate. lia.
  - intros s fp i Hs. by apply lookup_replicate in Hs as [? _].
  - lia.
  - unfold empties. rewrite Nat.add_0_r. f_equal. induction (Z.to_nat n) as [|k IH]; [done|].
    cbn [replicate]. rewrite filter_cons, decide_True by done. by f_equal.
Qed.
End Table.

(** The table of a dictionary: every term is where probing from its hash leads. *)
Lemma hash_table_ok (terms : list string) :
  let count := hashSlotCount (Z.of_nat (length terms)) in
  let hs := (termHash ∘ to_bytes) <$> terms in
  Z.of_nat (length terms) < 2 ^ 31 →
  Forall (λ x, 0 ≤ x.1.1 ∧ x.1.1 < count) (hash_slots count terms) ∧
  placed_ok count hs (length terms) (table_of count (hash_slots count terms)).
Proof.
  intros count hs Hlen. destruct (hashSlotCount_spec (Z.of_nat (length terms))) as [Hpow Hle]; [lia|].
  fold count in Hpow, Hle. pose proof (n_pos count Hpow) as Hpos. assert (length hs = length terms) as Hhs by apply length_fmap.
  destruct (place_ok count Hpow hs [] hs (replicate (Z.to_nat count) None)) as (placed & Hp & Hr & Hok).
  - done.
  - by apply placed_start.
  - lia.
  - unfold hashEmptySlot. lia.
  - rewrite fmap_replicate in Hp. change (slot_idx None) with hashEmptySlot in Hp.
    change (Z.of_nat (length [])) with 0 in Hp.
    unfold hash_slots, empty_table, table_of. fold hs. rewrite Hp. rewrite Hhs in Hok. done.
Qed.

Lemma fill_puts_within base count x :
  0 ≤ x.1.1 ∧ x.1.1 < count → Forall (within base (base + v2HashSlotSize * count)) (fill_puts base x).
Proof.
  destruct x as [[s fp] i]. cbn [fst fill_puts]. intros [Hlo Hhi].
  refine (laid_within _ _ _ (laid_weaken _ _ _ _ _ (slot_puts_laid base s (Some (fp, i))) _ _));
    unfold v2HashSlotSize; lia.
Qed.

Lemma terms_of_rows (terms : list string) (offs : list Z) (ptrs : list (Z * Z)) :
  length offs = length terms → length ptrs = length terms →
  (λ t : term_row, t.1.1) <$> zip (zip terms offs) ptrs = terms.
Proof.
  revert offs ptrs. induction terms as [|t terms IH]; intros [|o offs] [|p ptrs] Ho Hp; try done.
  cbn in *. f_equal. apply IH; lia.
Qed.

Lemma hash_laid off terms ptrs d e :
  planHashDict off terms = (d, e) → length ptrs = length terms → Z.of_nat (length terms) < 2 ^ 31 →
  let ts := zip (zip terms (dTermOff d)) ptrs in
  same_image (writeHashDict d ts) (hash_puts d ts) ∧ laid off e (hash_puts d ts) ∧
  Forall (within off e) (writeHashDict d ts).
Proof.
  unfold planHashDict. destruct (lay off (slen <$> terms)) as [offs e0] eqn:Hl. intros [= <- <-] Hp Hlen.
  destruct (laid_terms _ _ _ _ Hl) as (Hn & Hle & Ht). cbn [dTermOff]. set (ts := zip (zip terms offs) ptrs).
  assert ((λ t : term_row, t.1.1) <$> ts = terms) as Hts by (by apply terms_of_rows).
  set (count := hashSlotCount (Z.of_nat (length terms))).
  destruct (hash_table_ok terms Hlen) as [Hin Hok]. fold count in Hin, Hok.
  pose proof (po_length _ _ _ _ Hok) as Hcount.
  set (slots := align (align e0 8 + 16 + v2FlatEntrySize * Z.of_nat (length terms)) 8).
  set (d := mkDictPlan _ _ _ _ _ _ _ _ _).
  assert (dSlotCount d = count ∧ dSlotsOff d = slots) as [Hdc Hds] by done.
  assert (same_image (writeHashDict d ts) (hash_puts d ts)) as Hsame.
  { apply hash_image. rewrite Hdc. unfold term_row in *. by rewrite Hts. }
  pose proof (align_bounds e0 8 alignment_8).
  pose proof (align_bounds (align e0 8 + 16 + v2FlatEntrySize * Z.of_nat (length terms)) 8 alignment_8) as Hsl.
  fold slots in Hsl.
  assert (laid off (slots + v2HashSlotSize * count) (hash_puts d ts)) as Hlaid.
  { unfold hash_puts. rewrite writeFlatEntries_split, Hdc, Hds. unfold term_row in *. rewrite Hts. unfold ts at 2. rewrite rows_terms by done.
    rewrite <-app_assoc, Permutation_app_swap_app. eapply laid_app; [exact Ht|].
    eapply (laid_app _ (align e0 8 + 16)); [cbn [dOff d dEntriesOff]; laid_fixed|].
    eapply (laid_app _ slots).
    2: { replace (v2HashSlotSize * count) with
           (v2HashSlotSize * Z.of_nat (length (table_of count (hash_slots count terms)))) by (by rewrite Hcount).
         apply laid_rows0; [done|]. intros. apply slot_puts_laid. }
    eapply laid_weaken; [by apply flat_entries_laid|done|]. change (dEntriesOff d) with (align e0 8 + 16).
    clearbody slots. lia. }
  split_and!; [done|done|].
  pose proof (laid_within _ _ _ Hlaid) as Hw. unfold hash_puts in Hw. rewrite !Forall_app in Hw.
  destruct Hw as (W1 & W2 & _). unfold writeHashDict. rewrite !Forall_app. split_and!; [done|done| |].
  - rewrite Hdc, Hds. eapply laid_within. eapply laid_weaken; [|apply Z.le_trans with slots; [|apply Z.le_refl]|].
    + apply laid_rows0 with (w := v2HashSlotSize); [done|]. intros j x _. apply (slot_puts_laid slots j None).
    + unfold v2FlatEntrySize in *. lia.
    + rewrite length_replicate. unfold v2HashSlotSize. lia.
  - rewrite Hdc, Hds. unfold term_row in *. rewrite Hts. apply Forall_forall. intros p Hp'.
    apply list_elem_of_join in Hp' as (l & Hp' & Hl'). apply list_elem_of_fmap in Hl' as (x & -> & Hx).
    rewrite Forall_forall in Hin. pose proof (fill_puts_within slots count x (Hin x Hx)) as Hf.
    rewrite Forall_forall in Hf. specialize (Hf p). destruct x as [[s fp] i]. specialize (Hf Hp') as [? ?].
    unfold v2FlatEntrySize in *. split; [lia|done].
Qed.
