(* ===== verification/Bm25Blocks.v ===== *)
(** * The front-coded dictionary of a bm25 segment is laid without overlap

    Terms are cut into blocks; the first of each is stored whole, the others as what they
    add to the one before. *)

From Stdlib Require Import Ascii.
From S2P Require Import Prelude Supersession Bm25Layout Bm25Read Bm25Encode Bm25Image Bm25Dicts.

Local Open Scope Z_scope.

(** ** Blocks *)

Definition blockSize : nat := Z.to_nat blockedBlockTerms.

Lemma chunk_lookup {A} fuel (l : list A) b :
  (length l ≤ fuel)%nat →
  chunk fuel l !! b =
    if decide (blockSize * b < length l)%nat then Some (take blockSize (drop (blockSize * b) l)) else None.
Proof.
  change blockSize with 32%nat.
  revert l b. induction fuel as [|fuel IH]; intros l b Hl.
  { destruct l; [|cbn in Hl; lia]. cbn [chunk length]. rewrite lookup_nil, decide_False by lia. done. }
  destruct l as [|x l]; [cbn [chunk length]; by rewrite lookup_nil, decide_False by lia|].
  cbn [chunk]. change (Z.to_nat blockedBlockTerms) with 32%nat. destruct b as [|b].
  - rewrite Nat.mul_0_r, drop_0, decide_True by (cbn [length]; lia). done.
  - rewrite lookup_cons. rewrite IH by (rewrite length_drop; cbn [length] in *; lia).
    rewrite drop_drop, length_drop. replace (32 + 32 * b)%nat with (32 * S b)%nat by lia.
    case_decide as H1; case_decide as H2; cbn [length] in *; (lia || done).
Qed.

Lemma blocks_lookup {A} (l : list A) b :
  blocks l !! b =
    if decide (blockSize * b < length l)%nat then Some (take blockSize (drop (blockSize * b) l)) else None.
Proof. by apply chunk_lookup. Qed.

Lemma blocks_fmap {A B} (f : A → B) (l : list A) : blocks (f <$> l) = (λ b : list A, f <$> b) <$> blocks l.
Proof.
  apply list_eq. intros b. rewrite list_lookup_fmap, !blocks_lookup, length_fmap.
  case_decide; [|done]. cbn. by rewrite fmap_take, fmap_drop.
Qed.

Lemma blocks_nonempty {A} (l : list A) block : block ∈ blocks l → block ≠ [].
Proof.
  intros [b Hb]%list_elem_of_lookup. rewrite blocks_lookup in Hb. case_decide as Hlt; [|done].
  injection Hb as <-. intros Hn%(f_equal length). rewrite length_take, length_drop in Hn.
  change blockSize with 32%nat in *. cbn [length] in Hn. lia.
Qed.

Lemma length_blocks {A} (l : list A) :
  Z.of_nat (length (blocks l)) = (Z.of_nat (length l) + blockedBlockTerms - 1) / blockedBlockTerms.
Proof.
  assert (∀ b, (b < length (blocks l))%nat ↔ (32 * b < length l)%nat) as Hb.
  { intros b. rewrite <-lookup_lt_is_Some, blocks_lookup. change blockSize with 32%nat.
    case_decide as Hlt; (split; [intros Hx|intros Hx]); try done; destruct Hx as [? Hx]; done. }
  unfold blockedBlockTerms. set (n := length (blocks l)) in *.
  pose proof (Z.div_mod (Z.of_nat (length l) + 32 - 1) 32 ltac:(lia)).
  pose proof (Z.mod_pos_bound (Z.of_nat (length l) + 32 - 1) 32 ltac:(lia)).
  pose proof (Hb n) as H1. destruct (decide (n = 0%nat)) as [Hz|Hz].
  - lia.
  - pose proof (Hb (n - 1)%nat) as H2. lia.
Qed.

(** ** Payloads *)

Lemma sharedPrefixLen_take a b : take (sharedPrefixLen a b) a = take (sharedPrefixLen a b) b.
Proof.
  revert b. induction a as [|x a IH]; intros [|y b]; try done. cbn [sharedPrefixLen].
  case_decide as Hxy; [|done]. subst. cbn [take]. by rewrite IH.
Qed.

Lemma sharedPrefixLen_le a b : (sharedPrefixLen a b ≤ length a)%nat ∧ (sharedPrefixLen a b ≤ length b)%nat.
Proof.
  revert b. induction a as [|x a IH]; intros [|y b]; cbn; try lia. case_decide; [|lia].
  specialize (IH b). lia.
Qed.

Lemma suffixes_laid at_ prev (ts : list (string * (Z * Z))) :
  laid at_ (at_ + suffixes_size prev (fst <$> ts)) (writeSuffixes at_ prev ts).
Proof.
  revert at_ prev. induction ts as [|[t [p c]] ts IH]; intros at_ prev.
  { apply laid_nil. cbn. lia. }
  cbn [writeSuffixes fmap list_fmap fst suffixes_size].
  pose proof (proj2 (sharedPrefixLen_le (to_bytes prev) (to_bytes t))) as Hs.
  set (sh := sharedPrefixLen (to_bytes prev) (to_bytes t)) in *.
  assert (blen (drop sh (to_bytes t)) = slen t - Z.of_nat sh) as Hd.
  { unfold slen, blen. rewrite length_drop. lia. }
  unfold put16, put32. rewrite Hd. set (m := slen t - Z.of_nat sh) in *.
  assert (0 ≤ m) by (rewrite <-Hd; apply blen_nonneg). cbn [app].
  do 2 apply laid_step. eapply laid_weaken; [apply laid_cons|lia|apply Z.le_refl]. rewrite Hd.
  eapply laid_weaken; [apply laid_step|lia|apply Z.le_refl].
  eapply laid_weaken; [apply laid_step|lia|apply Z.le_refl].
  eapply laid_weaken; [apply (IH (at_ + 4 + m + 8) t)|lia|]. lia.
Qed.

Lemma payload_laid at_ (ts : list (string * (Z * Z))) :
  ts ≠ [] → laid at_ (at_ + blockedPayloadSize (fst <$> ts)) (writeBlockedPayload at_ ts).
Proof.
  destruct ts as [|[t [p c]] ts]; [done|]. intros _. cbn [writeBlockedPayload fmap list_fmap fst blockedPayloadSize].
  unfold put32. cbn [app]. apply laid_step. eapply laid_weaken; [apply laid_step|lia|apply Z.le_refl].
  eapply laid_weaken; [apply (suffixes_laid (at_ + 8) t ts)|lia|lia].
Qed.

(** ** The dictionary *)

(** A block with where its first term and its payload go. *)
Definition block_row : Type := list (string * (Z * Z)) * (Z * Z).

Definition first_term (block : list (string * (Z * Z))) : string := default "" (fst <$> head block).

Definition first_puts (base b : Z) (x : block_row) : list put :=
  [put32 (base + 8 * b) x.2.1; put32 (base + 8 * b + 4) (slen (first_term x.1))].

Definition index_puts (base b : Z) (x : block_row) : list put := [put32 (base + 4 * b) x.2.2].

Lemma writeBlockedDict_split d ts :
  writeBlockedDict d ts ≡ₚ
    rows (λ _ (x : block_row), [putStr x.2.1 (first_term x.1)]) 0 (zip (blocks ts) (zip (dTermOff d) (dBlockOff d)))
    ++ [put32 (dOff d) (Z.of_nat (length ts)); put32 (dOff d + 4) (dBlockCount d);
        put32 (dOff d + 8) (dOff d + 16); put32 (dOff d + 12) (dBlockIdxOff d)]
    ++ rows (first_puts (dOff d + 16)) 0 (zip (blocks ts) (zip (dTermOff d) (dBlockOff d)))
    ++ rows (index_puts (dBlockIdxOff d)) 0 (zip (blocks ts) (zip (dTermOff d) (dBlockOff d)))
    ++ rows (λ _ (x : block_row), writeBlockedPayload x.2.2 x.1) 0
         (zip (blocks ts) (zip (dTermOff d) (dBlockOff d))).
Proof.
  unfold writeBlockedDict. rewrite Permutation_app_swap_app. f_equiv.
  rewrite <-!rows_app. erewrite rows_ext; [done|]. by intros i [block [t o]].
Qed.

Lemma rows_firsts i (bs : list (list (string * (Z * Z)))) (offs blockOffs : list Z) :
  length offs = length bs → length blockOffs = length bs →
  rows (λ _ (x : block_row), [putStr x.2.1 (first_term x.1)]) i (zip bs (zip offs blockOffs)) =
    zip offs ((to_bytes ∘ first_term) <$> bs).
Proof.
  revert i offs blockOffs. induction bs as [|x bs IH]; intros i [|o offs] [|p ptrs] Ho Hp; try done.
  cbn in *. f_equal. apply IH; lia.
Qed.

Lemma rows_payloads i (bs : list (list (string * (Z * Z)))) (offs blockOffs : list Z) :
  length offs = length bs → length blockOffs = length bs →
  rows (λ _ (x : block_row), writeBlockedPayload x.2.2 x.1) i (zip bs (zip offs blockOffs)) =
    mjoin (zip_with writeBlockedPayload blockOffs bs).
Proof.
  revert i offs blockOffs. induction bs as [|x bs IH]; intros i [|o offs] [|p ptrs] Ho Hp; try done.
  cbn in *. f_equal. apply IH; lia.
Qed.

Lemma blocked_laid off terms ptrs d e :
  planBlockedDict off terms = (d, e) → length ptrs = length terms →
  laid off e (writeBlockedDict d (zip terms ptrs)) ∧
  length (dTermOff d) = length (blocks terms) ∧ length (dBlockOff d) = length (blocks terms).
Proof.
  unfold planBlockedDict. intros Hd Hp. set (ts := zip terms ptrs).
  assert (fst <$> ts = terms) as Hts by (apply fst_zip; lia).
  assert (blocks terms = (λ b : list (string * (Z * Z)), fst <$> b) <$> blocks ts) as Hbs by (by rewrite <-blocks_fmap, Hts).
  assert (length (blocks terms) = length (blocks ts)) as Hlb by (by rewrite Hbs, length_fmap).
  assert (slen ∘ first_of <$> blocks terms = blen <$> (to_bytes ∘ first_term <$> blocks ts)) as Hfirst.
  { rewrite Hbs, <-!list_fmap_compose. apply list_fmap_ext. intros i block _. unfold compose, slen, first_of, first_term.
    by destruct block. }
  rewrite Hfirst in Hd. clear Hfirst.
  pose proof (laid_lay off (to_bytes ∘ first_term <$> blocks ts)) as Hlay.
  destruct (lay off (blen <$> (to_bytes ∘ first_term <$> blocks ts))) as [offs e0].
  destruct Hlay as [Hno Hlay]. rewrite length_fmap in Hno. rewrite Hlb in *.
  set (dOff0 := align e0 8) in *. set (idx := align (dOff0 + 16 + 8 * Z.of_nat (length (blocks ts))) 4) in *.
  assert (blockedPayloadSize <$> blocks terms = (λ b, blockedPayloadSize (fst <$> b)) <$> blocks ts) as Hsz.
  { by rewrite Hbs, <-list_fmap_compose. }
  rewrite Hsz in Hd.
  pose proof (laid_lay_with (λ b, blockedPayloadSize (fst <$> b)) writeBlockedPayload
    (idx + 4 * Z.of_nat (length (blocks ts))) (blocks ts)) as Hpay.
  pose proof (length_lay (idx + 4 * Z.of_nat (length (blocks ts)))
    ((λ b, blockedPayloadSize (fst <$> b)) <$> blocks ts)) as Hnb. rewrite length_fmap in Hnb.
  destruct (lay (idx + 4 * Z.of_nat (length (blocks ts))) _) as [blockOffs e1]. cbn [fst] in Hnb.
  injection Hd as <- <-. cbn [dTermOff dBlockOff]. split_and!; [|done|done].
  rewrite writeBlockedDict_split. cbn [dTermOff dBlockOff dOff dBlockCount dBlockIdxOff].
  rewrite rows_firsts, rows_payloads by done. unfold block_row.
  pose proof (align_bounds e0 8 alignment_8) as H1. fold dOff0 in H1.
  pose proof (align_bounds (dOff0 + 16 + 8 * Z.of_nat (length (blocks ts))) 4 alignment_4) as H2. fold idx in H2.
  assert (length (zip (blocks ts) (zip offs blockOffs)) = length (blocks ts)) as Hz by (rewrite !length_zip; lia).
  clearbody dOff0 idx. eapply laid_app; [exact Hlay|].
  eapply (laid_app _ (dOff0 + 16)); [laid_fixed|].
  eapply (laid_app _ idx).
  { eapply laid_weaken; [apply (laid_rows0 _ _ 8); [done|]|done|rewrite Hz; lia].
    intros j x _. unfold first_puts. laid_fixed. }
  eapply (laid_app _ (idx + 4 * Z.of_nat (length (blocks ts)))).
  { rewrite <-Hz. apply laid_rows0; [done|]. intros j x _. unfold index_puts. laid_fixed. }
  apply Hpay. intros o block Hin. apply payload_laid. by eapply blocks_nonempty.
Qed.
