(* ===== verification/Bm25DictReads.v ===== *)
(** * Reading the dictionaries of a bm25 segment back

    Over a buffer that holds what the encoder stored, each kind's lookup is the map of the
    sorted terms and its walk is their list. *)

From Stdlib Require Import Ascii.
From S2P Require Import Prelude Supersession Bm25Layout Bm25Read Bm25Encode Bm25Image Bm25Dicts Bm25Hash Bm25Blocks.

Local Open Scope Z_scope.

(** ** Sorted tables *)

Abbreviation table := (list (string * (Z * Z))).

Definition find_term {A} (ts : list (string * A)) (term : string) : option A :=
  (list_to_map ts : gmap string A) !! term.

Definition sorted_table {A} (ts : list (string * A)) : Prop := StronglySorted str_lt (fst <$> ts).

Lemma sorted_nodup {A} (ts : list (string * A)) : sorted_table ts → NoDup (fst <$> ts).
Proof.
  unfold sorted_table. induction 1 as [|t l Hl IH Ht]; constructor; [|done].
  intros Hin. rewrite Forall_forall in Ht. by apply (str_lt_irrefl t), Ht.
Qed.

Lemma find_term_at {A} (ts : list (string * A)) i t p : sorted_table ts → ts !! i = Some (t, p) → find_term ts t = Some p.
Proof.
  intros Hs Hi. apply elem_of_list_to_map_1; [by apply sorted_nodup|]. by eapply list_elem_of_lookup_2.
Qed.

Lemma find_term_none {A} (ts : list (string * A)) term : (∀ i t p, ts !! i = Some (t, p) → t ≠ term) → find_term ts term = None.
Proof.
  intros Hn. apply not_elem_of_list_to_map_1. intros ([t p] & -> & Hin)%list_elem_of_fmap.
  apply list_elem_of_lookup in Hin as [i Hi]. by apply (Hn i t p).
Qed.

Lemma find_term_cons {A} t p (ts : list (string * A)) term :
  find_term ((t, p) :: ts) term = if decide (t = term) then Some p else find_term ts term.
Proof.
  unfold find_term. cbn. case_decide as Ht; [subst; by rewrite lookup_insert_eq|by rewrite lookup_insert_ne].
Qed.

(** Only the middle can hold the term. *)
Lemma find_term_middle {A} (l1 l2 l3 : list (string * A)) term :
  (∀ x, x ∈ l1 → x.1 ≠ term) → (∀ x, x ∈ l3 → x.1 ≠ term) →
  find_term (l1 ++ l2 ++ l3) term = find_term l2 term.
Proof.
  intros H1 H3. assert (find_term l1 term = None) as E1.
  { apply not_elem_of_list_to_map_1. intros (x & -> & Hx)%list_elem_of_fmap. by apply (H1 x). }
  assert (find_term l3 term = None) as E3.
  { apply not_elem_of_list_to_map_1. intros (x & -> & Hx)%list_elem_of_fmap. by apply (H3 x). }
  unfold find_term in *. rewrite !list_to_map_app, lookup_union_r by done.
  destruct (list_to_map l2 !! term) as [p|] eqn:E2.
  - by apply lookup_union_Some_l.
  - by apply lookup_union_None.
Qed.

Lemma sorted_lt {A} (ts : list (string * A)) i j t p u q :
  sorted_table ts → ts !! i = Some (t, p) → ts !! j = Some (u, q) → (i < j)%nat → t <s u.
Proof.
  intros Hs Hi Hj Hlt. eapply (StronglySorted_lookup_lt _ (fst <$> ts) i j); [done| | |done];
    rewrite list_lookup_fmap; [by rewrite Hi|by rewrite Hj].
Qed.

(** ** Binary search *)

Lemma bisect_spec {A} (probe : Z → result readErr (A + bool)) (f : Z → A + bool) L H fuel lo hi :
  (∀ i, L ≤ i < H → probe i = Ok (f i)) → L ≤ lo → lo ≤ hi → hi ≤ H → hi - lo ≤ Z.of_nat fuel →
  (lo = L ∨ f (lo - 1) = inr true) → (hi = H ∨ f hi = inr false) →
  ∃ r, bisect probe fuel lo hi = Ok r ∧
    match r with
    | inl a => ∃ i, L ≤ i < H ∧ f i = inl a
    | inr m => L ≤ m ≤ H ∧ (m = L ∨ f (m - 1) = inr true) ∧ (m = H ∨ f m = inr false)
    end.
Proof.
  intros Hp. revert lo hi. induction fuel as [|fuel IH]; intros lo hi HL Hle HH Hf Hlo Hhi; cbn [bisect].
  { assert (lo = hi) as -> by lia. by exists (inr hi). }
  destruct (decide (lo < hi)) as [Hlt|Hlt].
  - assert (lo ≤ (lo + hi) / 2 < hi) as Hmid by (split; [apply Z.div_le_lower_bound|apply Z.div_lt_upper_bound]; lia).
    rewrite Hp by lia. cbn [result_bind]. destruct (f ((lo + hi) / 2)) as [a|[|]] eqn:Hfm.
    + exists (inl a). split; [done|]. exists ((lo + hi) / 2). split; [lia|done].
    + apply IH; [lia..| |done]. right. by rewrite Z.add_simpl_r.
    + apply IH; [lia..|done|by right].
  - assert (lo = hi) as -> by lia. by exists (inr hi).
Qed.

(** A search of sorted rows for a term. *)
Lemma bisect_rows {A} (ts : list (string * A)) term (probe : Z → result readErr (A + bool)) :
  sorted_table ts →
  (∀ i t a, ts !! i = Some (t, a) →
    probe (Z.of_nat i) = Ok (if decide (t = term) then inl a else inr (bool_decide (t <s term)))) →
  ∃ r, bisect probe (Z.to_nat (Z.of_nat (length ts))) 0 (Z.of_nat (length ts)) = Ok r ∧
    find_term ts term = match r with inl a => Some a | inr _ => None end.
Proof.
  intros ts_sorted Hprobe.
  set (f := λ i, match ts !! Z.to_nat i with
                 | Some (t, p) => if decide (t = term) then inl p else inr (bool_decide (t <s term))
                 | None => inr false
                 end).
  destruct (bisect_spec probe f 0 (Z.of_nat (length ts)) (Z.to_nat (Z.of_nat (length ts)))
    0 (Z.of_nat (length ts))) as (r & Hr & Hspec); [|lia..|by left|by left|].
  { intros i Hi. destruct (lookup_lt_is_Some_2 ts (Z.to_nat i)) as [[t p] Ht]; [lia|].
    unfold f. rewrite Ht. apply Hprobe in Ht. by rewrite Z2Nat.id in Ht by lia. }
  exists r. split; [done|]. destruct r as [p|m].
  - destruct Hspec as (i & Hi & Hfi). unfold f in Hfi.
    destruct (ts !! Z.to_nat i) as [[t q]|] eqn:Ht; [|done]. case_decide as Htt; [|done].
    injection Hfi as ->. subst. by eapply find_term_at.
  - destruct Hspec as (Hm & Hlo & Hhi). apply find_term_none. intros i t p Hi ->.
    destruct (decide (Z.of_nat i < m)) as [Hlt|Hge].
    + destruct Hlo as [->|Hlo]; [lia|]. unfold f in Hlo.
      destruct (ts !! Z.to_nat (m - 1)) as [[u q]|] eqn:Hu; [|done].
      destruct (decide (u = term)) as [|Hne]; [done|]. injection Hlo as Hlo%bool_decide_eq_true.
      destruct (decide (i = Z.to_nat (m - 1))) as [->|]; [congruence|].
      apply (str_lt_irrefl term). eapply str_lt_trans; [|exact Hlo].
      eapply (sorted_lt ts i (Z.to_nat (m - 1))); [done..|lia].
    + destruct Hhi as [->|Hhi]; [by apply lookup_lt_Some in Hi; lia|]. unfold f in Hhi.
      destruct (ts !! Z.to_nat m) as [[u q]|] eqn:Hu.
      * destruct (decide (u = term)) as [|Hne]; [done|]. injection Hhi as Hhi%bool_decide_eq_false.
        destruct (decide (i = Z.to_nat m)) as [->|]; [congruence|]. apply Hhi.
        eapply (sorted_lt ts (Z.to_nat m) i); [done..|lia].
      * apply lookup_ge_None in Hu. apply lookup_lt_Some in Hi. lia.
Qed.

Section Dict.
Context (mf : mappedField) (ts : table).
Context (ts_sorted : sorted_table ts) (ts_count : termCount mf = Z.of_nat (length ts)).

(** ** Rows: the flat dictionary, and the one behind a hash table *)

Section Rows.
Context (entries_read : ∀ i t p, ts !! i = Some (t, p) → entryAt mf (Z.of_nat i) = Ok (t, p.1, p.2)).

Lemma lookupFlat_spec term : lookupFlat mf term = Ok (find_term ts term).
Proof.
  unfold lookupFlat. rewrite ts_count.
  match goal with |- context [bisect ?p _ _ _] => destruct (bisect_rows ts term p) as (r & Hr & Hf) end; [done| |].
  - intros i t p Hi. rewrite (entries_read _ _ _ Hi). cbn [result_bind]. by destruct p.
  - rewrite Hr, Hf. by destruct r.
Qed.

Context (n : Z) (n_pow : ∃ k, 0 ≤ k ∧ n = 2 ^ k) (tbl : list slot).
Context (tbl_ok : placed_ok n ((termHash ∘ to_bytes) <$> (fst <$> ts)) (length ts) tbl).
Context (small : Z.of_nat (length ts) < hashEmptySlot).
Context (slots_n : slotCount mf = n).
Context (slots_read : ∀ s o, tbl !! s = Some o →
  match o with
  | None => uint 4 (fblob mf) (slotsOff mf + v2HashSlotSize * Z.of_nat s + 4) = Ok hashEmptySlot
  | Some (fp, i) => uint 4 (fblob mf) (slotsOff mf + v2HashSlotSize * Z.of_nat s) = Ok fp ∧
      uint 4 (fblob mf) (slotsOff mf + v2HashSlotSize * Z.of_nat s + 4) = Ok i
  end).

(** A filled slot belongs to one of the terms. *)
Lemma slot_term s fp i :
  tbl !! s = Some (Some (fp, i)) →
  ∃ j t p, i = Z.of_nat j ∧ ts !! j = Some (t, p) ∧ fp = Z.shiftr (termHash (to_bytes t)) 32.
Proof.
  intros Hs. destruct (po_entries _ _ _ _ tbl_ok _ _ _ Hs) as (j & h & -> & Hj & Hh & ->).
  rewrite !list_lookup_fmap in Hh. destruct (ts !! j) as [[t p]|] eqn:Ht; [|done]. injection Hh as <-.
  by exists j, t, p.
Qed.

(** Probing on from [x]: what is stored there decides. *)
Lemma probeSlots_step term fp fuel x :
  probeSlots mf term fp (n - 1) (S fuel) (x mod n) =
  match at_slot n tbl x with
  | Some (Some (fp', i)) =>
      match ts !! Z.to_nat i with
      | Some (t, p) =>
          if decide (fp' = fp ∧ t = term) then Ok (Some p)
          else probeSlots mf term fp (n - 1) fuel ((x + 1) mod n)
      | None => Ok None
      end
  | _ => Ok None
  end.
Proof.
  pose proof (n_pos n n_pow) as Hn. cbn [probeSlots].
  destruct (lookup_lt_is_Some_2 tbl (Z.to_nat (x mod n))) as [o Ho].
  { pose proof (Z.mod_pos_bound x n Hn). pose proof (po_length _ _ _ _ tbl_ok). unfold slot in *. lia. }
  pose proof (slots_read _ _ Ho) as Hr. rewrite Z2Nat.id in Hr by (by apply Z.mod_pos_bound).
  unfold at_slot. rewrite Ho. destruct o as [[fp' i]|].
  - destruct (slot_term _ _ _ Ho) as (j & t & p & -> & Ht & Hfp). destruct Hr as [Hr1 Hr2].
    rewrite Hr2. cbn [result_bind]. pose proof (lookup_lt_Some _ _ _ Ht) as Hj.
    rewrite decide_False by lia. rewrite Hr1. cbn [result_bind].
    rewrite Nat2Z.id, Ht. rewrite (land_mod n) by done. rewrite Z.add_mod_idemp_l by lia.
    destruct (decide (fp' = fp ∧ t = term)) as [[-> ->]|Hne].
    + rewrite decide_True by (split; [done|lia]). rewrite (entries_read _ _ _ Ht). cbn [result_bind].
      rewrite decide_True by done. by destruct p.
    + destruct (decide (fp' = fp ∧ _)) as [[-> _]|]; [|done].
      rewrite (entries_read _ _ _ Ht). cbn [result_bind]. by rewrite decide_False by naive_solver.
  - rewrite Hr. cbn [result_bind]. by rewrite decide_True.
Qed.

Lemma probeSlots_miss term fp fuel x :
  find_term ts term = None → probeSlots mf term fp (n - 1) fuel (x mod n) = Ok None.
Proof.
  intros Hm. revert x. induction fuel as [|fuel IH]; intros x; [done|]. rewrite probeSlots_step.
  destruct (at_slot n tbl x) as [[[fp' i]|]|]; [|done|done].
  destruct (ts !! Z.to_nat i) as [[t p]|] eqn:Ht; [|done]. rewrite decide_False; [by apply IH|].
  intros [_ ->]. rewrite (find_term_at _ _ _ _ ts_sorted Ht) in Hm. done.
Qed.

Lemma probeSlots_hit term p j m fuel x :
  ts !! j = Some (term, p) → (m < fuel)%nat →
  at_slot n tbl (x + Z.of_nat m) = Some (Some (Z.shiftr (termHash (to_bytes term)) 32, Z.of_nat j)) →
  (∀ i : nat, (i < m)%nat → ∃ y, at_slot n tbl (x + Z.of_nat i) = Some (Some y)) →
  probeSlots mf term (Z.shiftr (termHash (to_bytes term)) 32) (n - 1) fuel (x mod n) = Ok (Some p).
Proof.
  intros Hj. revert fuel x. induction m as [|m IH]; intros fuel x Hm Hat Hb; (destruct fuel as [|fuel]; [lia|]).
  - rewrite Z.add_0_r in Hat. rewrite probeSlots_step, Hat, Nat2Z.id, Hj. by rewrite decide_True.
  - rewrite probeSlots_step. destruct (Hb 0%nat) as [[fp' i] Hx]; [lia|]. rewrite Z.add_0_r in Hx. rewrite Hx.
    destruct (slot_term _ _ _ Hx) as (j' & t & q & -> & Ht & _). rewrite Nat2Z.id, Ht.
    case_decide as Hd.
    + destruct Hd as [_ ->]. pose proof (find_term_at _ _ _ _ ts_sorted Ht) as E1.
      rewrite (find_term_at _ _ _ _ ts_sorted Hj) in E1. congruence.
    + apply IH; [lia| |].
      * by replace (x + 1 + Z.of_nat m) with (x + Z.of_nat (S m)) by lia.
      * intros i Hi. replace (x + 1 + Z.of_nat i) with (x + Z.of_nat (S i)) by lia. apply Hb. lia.
Qed.

Lemma lookupHash_spec term : lookupHash mf term = Ok (find_term ts term).
Proof.
  pose proof (n_pos n n_pow) as Hn. unfold lookupHash. rewrite slots_n, decide_False by lia.
  rewrite (land_mod n) by done. set (h := termHash (to_bytes term)).
  destruct (find_term ts term) as [p|] eqn:Hf; [|by apply probeSlots_miss].
  unfold find_term in Hf. apply elem_of_list_to_map_2, list_elem_of_lookup in Hf as [j Hj].
  destruct (po_reach _ _ _ _ tbl_ok j h) as (m & Hm & Hat & Hb).
  - by apply lookup_lt_Some in Hj.
  - rewrite !list_lookup_fmap. by rewrite Hj.
  - eapply probeSlots_hit; [done| |done|done]. lia.
Qed.
End Rows.
End Dict.
