(* ===== verification/Bm25BlockReads.v ===== *)
(** * Reading a front-coded dictionary back

    Every step of a scan rebuilds the next term from the one before; a binary search over
    the first terms picks the only block that can hold a term. *)

From Stdlib Require Import Ascii.
From S2P Require Import Prelude Supersession Bm25Layout Bm25Read Bm25Encode Bm25Image Bm25Dicts Bm25Hash Bm25Blocks Bm25DictReads.

Local Open Scope Z_scope.

Lemma of_to_bytes s : of_bytes (to_bytes s) = s.
Proof. apply String.string_of_list_ascii_of_string. Qed.

(** Pointers and lengths that their fields can hold. *)
Definition pointers_fit (ts : table) : Prop :=
  Forall (λ x, (0 ≤ x.2.1 < 2 ^ 32) ∧ (0 ≤ x.2.2 < 2 ^ 32)) ts.

Definition terms_fit (ts : table) : Prop := Forall (λ x, slen x.1 < 2 ^ 16) ts.

(** What is read at a pointer. *)
Lemma pointer_held (mf : mappedField) at_ (p : Z * Z) :
  holds (fblob mf) at_ (le 4 p.1) → holds (fblob mf) (at_ + 4) (le 4 p.2) →
  0 ≤ p.1 < 2 ^ 32 → 0 ≤ p.2 < 2 ^ 32 →
  blockEntry mf at_ = Ok (Some p) ∧ readEntry mf at_ = Ok p.
Proof.
  intros H1 H2 Hp1 Hp2. unfold blockEntry, readEntry.
  assert (at_ + 8 ≤ blen (fblob mf) ∧ 0 ≤ at_) as [Hhi Hlo].
  { destruct H1 as [? _ _], H2 as [_ H2 _]. rewrite blen_le in H2. split; [lia|done]. }
  rewrite !decide_False by lia. rewrite (uint_holds 4 _ at_ p.1), (uint_holds 4 _ (at_ + 4) p.2) by done.
  by destruct p.
Qed.

(** One step: the next term, where its pointer is, and the rest behind it. *)
Lemma suffix_held b at_ prev t p (ts : table) :
  holds_all b (writeSuffixes at_ prev ((t, p) :: ts)) → slen prev < 2 ^ 16 → slen t < 2 ^ 16 →
  ∃ next, stepFrontCoded b at_ (to_bytes prev) = Ok (to_bytes t, next) ∧
    holds b next (le 4 p.1) ∧ holds b (next + 4) (le 4 p.2) ∧
    holds_all b (writeSuffixes (next + 8) t ts).
Proof.
  destruct p as [off count]. cbn [writeSuffixes app]. unfold put16, put32.
  pose proof (sharedPrefixLen_le (to_bytes prev) (to_bytes t)) as [Hsp Hst].
  pose proof (sharedPrefixLen_take (to_bytes prev) (to_bytes t)) as Htake.
  set (sh := sharedPrefixLen (to_bytes prev) (to_bytes t)) in *.
  rewrite !holds_all_cons. intros (H1 & H2 & H3 & H4 & H5 & Hrest) Hp Ht.
  set (suffix := drop sh (to_bytes t)) in *.
  assert (blen suffix = slen t - Z.of_nat sh) as Hbl.
  { unfold suffix, slen, blen. rewrite length_drop. lia. }
  pose proof (blen_nonneg suffix). unfold slen, blen in Hp, Ht.
  exists (at_ + 4 + blen suffix). split_and!; [|done|done|done].
  unfold stepFrontCoded. pose proof (holds_lo _ _ _ H1). pose proof (holds_hi _ _ _ H2) as Hhi2.
  rewrite blen_le in Hhi2. pose proof (holds_hi _ _ _ H3) as Hhi3. rewrite decide_False by lia.
  rewrite (uint_holds 2 _ at_ (Z.of_nat sh)) by (done || lia). cbn [result_bind].
  rewrite (uint_holds 2 _ (at_ + 2) (blen suffix)) by (done || unfold slen, blen in *; lia). cbn [result_bind].
  rewrite decide_False by (unfold blen in *; lia). rewrite (sub_holds _ _ _ H3). cbn [result_bind].
  rewrite Nat2Z.id, Htake. unfold suffix. by rewrite take_drop.
Qed.

(** A suffix of 65536 bytes or more has its length cut to sixteen bits: no step over what
    the encoder stored for its term returns the term. *)
Lemma long_suffix_is_cut b at_ prev t p (ts : table) next :
  holds_all b (writeSuffixes at_ prev ((t, p) :: ts)) →
  2 ^ 16 ≤ slen t - Z.of_nat (sharedPrefixLen (to_bytes prev) (to_bytes t)) →
  stepFrontCoded b at_ (to_bytes prev) ≠ Ok (to_bytes t, next).
Proof.
  destruct p as [off count]. cbn [writeSuffixes app]. unfold put16, put32.
  pose proof (sharedPrefixLen_le (to_bytes prev) (to_bytes t)) as [Hsp Hst].
  set (sh := sharedPrefixLen (to_bytes prev) (to_bytes t)) in *.
  rewrite !holds_all_cons. intros (H1 & H2 & _) Hlong Hstep. unfold stepFrontCoded in Hstep.
  case_decide; [done|]. ok_bind Hstep shared. ok_bind Hstep len. case_decide; [done|]. ok_bind Hstep sfx.
  injection Hstep as Hterm _.
  assert (blen (drop sh (to_bytes t)) = slen t - Z.of_nat sh) as Hbl.
  { unfold slen, blen. rewrite length_drop. lia. }
  assert (∀ v off, holds b off (le 2 v) → uint 2 b off = Ok (v mod 2 ^ 16)) as Hread.
  { intros v o Hv. apply (uint_holds 2).
    - unfold le in *. change (8 * Z.of_nat 2) with 16 in *. by rewrite Z.mod_mod.
    - change (8 * Z.of_nat 2) with 16. apply Z.mod_pos_bound. lia. }
  rewrite (Hread _ _ H1) in *. rewrite (Hread _ _ H2) in *. simplify_eq.
  assert (length sfx = Z.to_nat (blen (drop sh (to_bytes t)) mod 2 ^ 16)) as Hsl.
  { match goal with H : sub _ _ _ = Ok sfx |- _ => unfold sub in H; case_decide as Hr; [|done]; injection H as <- end.
    rewrite length_take, length_drop. unfold blen in *. lia. }
  apply (f_equal length) in Hterm. rewrite length_app, length_take, Hsl, Hbl in Hterm.
  pose proof (Z.mod_pos_bound (slen t - Z.of_nat sh) (2 ^ 16) ltac:(lia)).
  pose proof (Z.mod_le (Z.of_nat sh) (2 ^ 16) ltac:(lia) ltac:(lia)). unfold slen, blen in *. lia.
Qed.

Lemma scanTerms_spec (mf : mappedField) term at_ prev (ts : table) :
  holds_all (fblob mf) (writeSuffixes at_ prev ts) → sorted_table ts →
  pointers_fit ts → terms_fit ts → slen prev < 2 ^ 16 →
  scanTerms mf term (length ts) (to_bytes prev) at_ = Ok (find_term ts term).
Proof.
  revert at_ prev. induction ts as [|[t p] ts IH]; intros at_ prev Hh Hs Hp Ht Hprev; [done|].
  inv Hp. rename select (_ ∧ _) into Hpt. inv Ht. rename select (slen _ < _) into Htt. cbn in Hpt, Htt.
  unfold sorted_table in Hs. cbn [fmap list_fmap fst] in Hs. apply StronglySorted_cons in Hs as [Hlt Hs].
  destruct (suffix_held _ _ _ _ _ _ Hh Hprev Htt) as (next & Hstep & Hn1 & Hn2 & Hrest).
  cbn [length scanTerms]. rewrite Hstep. cbn [result_bind]. rewrite of_to_bytes, find_term_cons.
  destruct (pointer_held mf next p Hn1 Hn2) as [Hbe _]; [tauto..|].
  destruct (decide (t = term)) as [->|Hne]; [done|].
  destruct (decide (term <s t)) as [Hbefore|]; [|by apply IH].
  f_equal. symmetry. apply find_term_none. intros i u q Hi ->.
  rewrite Forall_forall in Hlt. apply (str_lt_irrefl t). eapply str_lt_trans; [|exact Hbefore].
  apply Hlt. apply list_elem_of_fmap. exists (term, q). split; [done|by eapply list_elem_of_lookup_2].
Qed.

Section Blocked.
Context (mf : mappedField) (ts : table) (blockOffs : list Z).
Context (ts_sorted : sorted_table ts) (ts_count : termCount mf = Z.of_nat (length ts)).
Context (ts_pointers : pointers_fit ts) (ts_terms : terms_fit ts).
Context (blocks_n : blockCount mf = Z.of_nat (length (blocks ts))).
Context (firsts_read : ∀ b block, blocks ts !! b = Some block →
  firstTermAt mf (Z.of_nat b) = Ok (first_term block)).
Context (index_read : ∀ b block, blocks ts !! b = Some block → ∃ at_,
  0 ≤ blockIdxOff mf + 4 * Z.of_nat b ∧ blockIdxOff mf + 4 * Z.of_nat b + 4 ≤ blen (fblob mf) ∧
  uint 4 (fblob mf) (blockIdxOff mf + 4 * Z.of_nat b) = Ok at_ ∧
  holds_all (fblob mf) (writeBlockedPayload at_ block)).

(** A block in its place. *)
Lemma block_split b block :
  blocks ts !! b = Some block →
  ts = take (blockSize * b) ts ++ block ++ drop (blockSize * S b) ts ∧
  ∃ t p tail, block = (t, p) :: tail ∧ ts !! (blockSize * b)%nat = Some (t, p) ∧
    Z.of_nat (length tail) = Z.min (Z.of_nat b * blockedBlockTerms + blockedBlockTerms) (termCount mf)
      - Z.of_nat b * blockedBlockTerms - 1.
Proof.
  rewrite blocks_lookup. case_decide as Hlt; [|done]. intros Hb%(inj Some). subst block. split.
  - replace (drop (blockSize * S b) ts) with (drop blockSize (drop (blockSize * b) ts))
      by (rewrite drop_drop; f_equal; lia).
    by rewrite !take_drop.
  - destruct (drop (blockSize * b) ts) as [|[t p] l] eqn:Hd.
    { apply (f_equal length) in Hd. rewrite length_drop in Hd. cbn [length] in Hd. lia. }
    exists t, p, (take 31 l). split_and!; [done| |].
    + rewrite <-(Nat.add_0_r (blockSize * b)), <-lookup_drop, Hd. done.
    + rewrite ts_count. apply (f_equal length) in Hd. rewrite length_drop in Hd. cbn [length] in Hd.
      rewrite length_take. unfold blockedBlockTerms. change blockSize with 32%nat in *. lia.
Qed.

Lemma sub_sorted (l1 l2 l3 : table) : ts = l1 ++ l2 ++ l3 → sorted_table l2.
Proof.
  intros Hts. pose proof ts_sorted as Hs. rewrite Hts in Hs. unfold sorted_table in *.
  rewrite !fmap_app in Hs. by apply StronglySorted_app_1_r, StronglySorted_app_1_l in Hs.
Qed.

Lemma scanBlock_spec b block term :
  blocks ts !! b = Some block → scanBlock mf (Z.of_nat b) term = Ok (find_term block term).
Proof.
  intros Hb. destruct (block_split b block Hb) as (Hts & t & p & tail & -> & Ht & Hlen).
  destruct (index_read b _ Hb) as (at_ & Hlo & Hhi & Hat & Hpay).
  pose proof (sub_sorted _ _ _ Hts) as Hs. unfold sorted_table in Hs. cbn [fmap list_fmap fst] in Hs.
  apply StronglySorted_cons in Hs as [_ Hs].
  assert (pointers_fit ((t, p) :: tail) ∧ terms_fit ((t, p) :: tail)) as [Hp Htf].
  { pose proof ts_pointers as Hp. pose proof ts_terms as Htf. unfold pointers_fit, terms_fit in *.
    rewrite Hts, !Forall_app in Hp, Htf. tauto. }
  inv Hp. rename select (_ ∧ _) into Hpt. inv Htf. rename select (slen _ < _) into Htt. cbn in Hpt, Htt.
  destruct p as [off count]. cbn [writeBlockedPayload app] in Hpay.
  unfold put32 in Hpay. rewrite !holds_all_cons in Hpay.
  destruct Hpay as (Hn1 & Hn2 & Hrest). cbn [fst snd] in Hn1, Hn2.
  unfold scanBlock. rewrite (firsts_read b _ Hb). cbn [result_bind].
  change (first_term ((t, (off, count)) :: tail)) with t.
  rewrite decide_False by lia. rewrite Hat. cbn [result_bind]. rewrite find_term_cons.
  destruct (pointer_held mf at_ (off, count) Hn1 Hn2) as [Hbe _]; [tauto..|].
  destruct (decide (t = term)) as [->|Hne]; [done|].
  rewrite <-Hlen, Nat2Z.id. by apply scanTerms_spec.
Qed.

Lemma lookupBlocked_spec term : lookupBlocked mf term = Ok (find_term ts term).
Proof.
  unfold lookupBlocked. rewrite blocks_n. set (nb := length (blocks ts)).
  set (f := λ i, inr (A := unit) match blocks ts !! Z.to_nat i with
                                 | Some block => bool_decide (first_term block <=s term)
                                 | None => false
                                 end).
  match goal with |- context [bisect ?p _ _ _] => set (probe := p) end.
  destruct (bisect_spec probe f 0 (Z.of_nat nb) (Z.to_nat (Z.of_nat nb)) 0 (Z.of_nat nb))
    as (r & Hr & Hspec); [|lia..|by left|by left|].
  { intros i Hi. destruct (lookup_lt_is_Some_2 (blocks ts) (Z.to_nat i)) as [block Hb]; [unfold nb in *; lia|].
    unfold probe, f. rewrite Hb. apply firsts_read in Hb. rewrite Z2Nat.id in Hb by lia. by rewrite Hb. }
  rewrite Hr. cbn [result_bind]. destruct r as [u|m]; [by destruct Hspec as (i & _ & ?)|].
  destruct Hspec as (Hm & Hlo & Hhi).
  (* every term from block m on is past the wanted one *)
  assert (∀ i t p, (blockSize * Z.to_nat m ≤ i)%nat → ts !! i = Some (t, p) → t ≠ term) as Hafter.
  { intros i t p Hi Ht ->. destruct Hhi as [->|Hhi].
    - apply lookup_lt_Some in Ht. pose proof (length_blocks ts) as Hlb. fold nb in Hlb.
      rewrite Nat2Z.id in Hi. change blockSize with 32%nat in Hi. unfold blockedBlockTerms in Hlb.
      pose proof (Z.div_mod (Z.of_nat (length ts) + 32 - 1) 32 ltac:(lia)).
      pose proof (Z.mod_pos_bound (Z.of_nat (length ts) + 32 - 1) 32 ltac:(lia)). lia.
    - unfold f in Hhi. destruct (blocks ts !! Z.to_nat m) as [block|] eqn:Hb.
      + injection Hhi as Hhi%bool_decide_eq_false.
        destruct (block_split _ _ Hb) as (_ & u & q & tail & -> & Hu & _). apply Hhi. cbn.
        destruct (decide (i = blockSize * Z.to_nat m)%nat) as [->|Hne].
        * rewrite Hu in Ht. injection Ht as -> _. apply str_le_refl.
        * apply str_lt_le. eapply (sorted_lt ts (blockSize * Z.to_nat m) i); [done..|lia].
      + rewrite blocks_lookup in Hb. case_decide as Hlt; [done|]. apply lookup_lt_Some in Ht. lia. }
  case_decide as Hm0.
  - subst. f_equal. symmetry. apply find_term_none. intros i t p Ht. apply (Hafter i t p); [cbn; lia|done].
  - destruct Hlo as [|Hlo]; [done|].
    destruct (lookup_lt_is_Some_2 (blocks ts) (Z.to_nat (m - 1))) as [block Hb]; [unfold nb in *; lia|].
    replace (m - 1) with (Z.of_nat (Z.to_nat (m - 1))) by lia. rewrite (scanBlock_spec _ block) by done.
    unfold f in Hlo. rewrite Hb in Hlo. injection Hlo as Hlo%bool_decide_eq_true.
    destruct (block_split _ _ Hb) as (Hts & u & q & tail & -> & Hu & _). cbn in Hlo.
    rewrite Hts, find_term_middle; [done| |].
    + intros [t p] [i Hi]%list_elem_of_lookup. cbn. intros ->.
      pose proof (lookup_lt_Some _ _ _ Hi) as Hlt. rewrite length_take in Hlt.
      rewrite lookup_take_lt in Hi by lia.
      apply (str_lt_not_le term u); [|done].
      eapply (sorted_lt ts i (blockSize * Z.to_nat (m - 1))); [done..|lia].
    + intros [t p] [i Hi]%list_elem_of_lookup. rewrite lookup_drop in Hi. cbn.
      replace (S (Z.to_nat (m - 1))) with (Z.to_nat m) in Hi by lia.
      eapply Hafter; [|exact Hi]. lia.
Qed.
End Blocked.
