(* ===== verification/Bm25DictWalk.v ===== *)
(** * Walking a dictionary of a bm25 segment back, and looking a term up in any kind *)

From Stdlib Require Import Ascii.
From S2P Require Import Prelude Supersession Bm25Layout Bm25Read Bm25Encode Bm25Image Bm25Dicts Bm25Hash Bm25Blocks Bm25DictReads Bm25BlockReads.

Local Open Scope Z_scope.

Section Walk.
Context (mf : mappedField) (ts : table) (runs : list (list Z * list Z)).
Context (ts_count : termCount mf = Z.of_nat (length ts)) (runs_length : length runs = length ts).
Context (runs_read : ∀ i t p r, ts !! i = Some (t, p) → runs !! i = Some r → postings mf p.1 p.2 = Ok r).

(** A walk whose iterator stands where [I] says. *)
Section Stands.
Context (I : nat → dictIter → Prop) (I_start : I 0%nat (iter mf)).
Context (I_next : ∀ k it t p, I k it → ts !! k = Some (t, p) → ∃ it',
  next it = Ok (Some it') ∧ I (S k) it' ∧ it_mf it' = mf ∧ it_term it' = t ∧
  it_postOff it' = p.1 ∧ it_count it' = p.2).

Lemma walkTerms_spec n k it :
  I k it → (n + k = length ts)%nat → walkTerms n it = Ok (drop k (zip (fst <$> ts) runs)).
Proof.
  revert k it. induction n as [|n IH]; intros k it Hi Hk; cbn [walkTerms].
  { rewrite drop_ge; [done|]. rewrite length_zip, length_fmap. lia. }
  destruct (lookup_lt_is_Some_2 ts k) as [[t p] Ht]; [lia|].
  destruct (lookup_lt_is_Some_2 runs k) as [r Hr]; [lia|].
  destruct (I_next k it t p Hi Ht) as (it' & Hn & Hi' & Hmf & Hterm & Hoff & Hcount).
  rewrite Hn. cbn [result_bind]. rewrite Hmf, Hoff, Hcount, (runs_read _ _ _ _ Ht Hr). cbn [result_bind].
  rewrite (IH (S k) it') by (done || lia). cbn [result_bind]. rewrite Hterm.
  erewrite <-(drop_S _ (t, r)); [done|].
  by rewrite lookup_zip_with, list_lookup_fmap, Ht, Hr.
Qed.

Lemma eachTerm_stands : eachTerm mf = Ok (zip (fst <$> ts) runs).
Proof.
  unfold eachTerm. rewrite ts_count, Nat2Z.id. rewrite (walkTerms_spec (length ts) 0) by (done || lia).
  by rewrite drop_0.
Qed.
End Stands.

Lemma eachTerm_rows :
  kind mf ≠ dictBlocked →
  (∀ i t p, ts !! i = Some (t, p) → entryAt mf (Z.of_nat i) = Ok (t, p.1, p.2)) →
  eachTerm mf = Ok (zip (fst <$> ts) runs).
Proof.
  intros Hk He. apply (eachTerm_stands (λ k it, it_mf it = mf ∧ it_idx it = Z.of_nat k)); [done|].
  intros k it t p [Hmf Hidx] Ht. unfold next. rewrite Hmf, Hidx.
  pose proof (lookup_lt_Some _ _ _ Ht). rewrite decide_False by lia. rewrite decide_False by done.
  rewrite (He _ _ _ Ht). cbn [result_bind]. eexists. split; [done|]. cbn. split_and!; try done. lia.
Qed.

Section Blocked.
Context (mf_kind : kind mf = dictBlocked) (ts_pointers : pointers_fit ts) (ts_terms : terms_fit ts).
Context (blocks_n : blockCount mf = Z.of_nat (length (blocks ts))).
Context (firsts_read : ∀ b block, blocks ts !! b = Some block →
  firstTermAt mf (Z.of_nat b) = Ok (first_term block)).
Context (index_read : ∀ b block, blocks ts !! b = Some block → ∃ at_,
  0 ≤ blockIdxOff mf + 4 * Z.of_nat b ∧ blockIdxOff mf + 4 * Z.of_nat b + 4 ≤ blen (fblob mf) ∧
  uint 4 (fblob mf) (blockIdxOff mf + 4 * Z.of_nat b) = Ok at_ ∧
  holds_all (fblob mf) (writeBlockedPayload at_ block)).

(** The rest of the block behind [k] terms. *)
Definition block_rest (k : nat) : table := take (32 - k mod 32)%nat (drop k ts).

(** The iterator behind [k] terms: inside a block it has the last one and stands before
    the rest of the block. *)
Definition stands (k : nat) (it : dictIter) : Prop :=
  it_mf it = mf ∧ it_idx it = Z.of_nat k ∧
  ((k mod 32)%nat ≠ 0%nat → ∃ prev, it_scratch it = to_bytes prev ∧ slen prev < 2 ^ 16 ∧
    holds_all (fblob mf) (writeSuffixes (it_at it) prev (block_rest k))).

Lemma fits k t p :
  ts !! k = Some (t, p) → slen t < 2 ^ 16 ∧ 0 ≤ p.1 < 2 ^ 32 ∧ 0 ≤ p.2 < 2 ^ 32.
Proof.
  intros Ht%list_elem_of_lookup_2. pose proof ts_pointers as Hp. pose proof ts_terms as Hf.
  unfold pointers_fit, terms_fit in *. rewrite Forall_forall in Hp, Hf.
  pose proof (Hp _ Ht). pose proof (Hf _ Ht). done.
Qed.

Lemma block_rest_step k t p :
  ts !! k = Some (t, p) → (k mod 32)%nat ≠ 31%nat →
  block_rest k = (t, p) :: block_rest (S k).
Proof.
  intros Ht Hk. unfold block_rest. erewrite drop_S by done.
  pose proof (Nat.mod_upper_bound k 32 ltac:(lia)).
  replace (S k mod 32)%nat with (S (k mod 32)).
  - replace (32 - k mod 32)%nat with (S (32 - S (k mod 32))) by lia. done.
  - pose proof (Nat.div_mod_eq k 32).
    apply (Nat.mod_unique (S k) 32 (k / 32)); lia.
Qed.

Lemma stands_behind k it at_ t p :
  ts !! k = Some (t, p) → it_mf it = mf → it_idx it = Z.of_nat k + 1 →
  it_scratch it = to_bytes t → it_at it = at_ →
  holds_all (fblob mf) (writeSuffixes at_ t (tail (block_rest k))) → stands (S k) it.
Proof.
  intros Ht Hmf Hidx Hs <- Hh. split_and!; [done|lia|]. intros Hk. exists t.
  split_and!; [done|by apply (fits k t p)|]. rewrite (block_rest_step k t p) in Hh; [done|done|].
  intros H31. apply Hk. pose proof (Nat.div_mod_eq k 32).
  symmetry. apply (Nat.mod_unique (S k) 32 (S (k / 32))); lia.
Qed.

Lemma stands_next k it t p :
  stands k it → ts !! k = Some (t, p) → ∃ it',
  next it = Ok (Some it') ∧ stands (S k) it' ∧ it_mf it' = mf ∧ it_term it' = t ∧
  it_postOff it' = p.1 ∧ it_count it' = p.2.
Proof.
  intros (Hmf & Hidx & Hin) Ht. destruct (fits k t p Ht) as (Hlen & Hp1 & Hp2).
  pose proof (lookup_lt_Some _ _ _ Ht) as Hlt.
  assert (∃ at_, nextBlocked it =
      Ok (mkIter mf (Z.of_nat k) (at_ + 8) (to_bytes t) t p.1 p.2) ∧
    holds_all (fblob mf) (writeSuffixes (at_ + 8) t (tail (block_rest k)))) as (at_ & Hnb & Hrest).
  { unfold nextBlocked. rewrite Hmf, Hidx.
    assert (Z.of_nat k mod blockedBlockTerms = Z.of_nat (k mod 32)) as -> by (by rewrite Nat2Z.inj_mod).
    destruct (decide (k mod 32 = 0)%nat) as [H0|H0].
    - rewrite decide_True by lia. set (b := (k / 32)%nat).
      assert (k = (blockSize * b)%nat) as Hkb.
      { pose proof (Nat.div_mod_eq k 32). change blockSize with 32%nat. unfold b. lia. }
      assert (blocks ts !! b = Some ((t, p) :: tail (block_rest k))) as Hb.
      { rewrite blocks_lookup, <-Hkb, decide_True by done. f_equal. unfold block_rest.
        rewrite H0. erewrite drop_S by done. done. }
      destruct (index_read b _ Hb) as (a & Hlo & Hhi & Ha & Hpay). exists a.
      destruct p as [off count]. cbn [writeBlockedPayload app] in Hpay. unfold put32 in Hpay.
      rewrite !holds_all_cons in Hpay. destruct Hpay as (Hn1 & Hn2 & Hrest). cbn [fst snd] in Hn1, Hn2.
      destruct (pointer_held mf a (off, count) Hn1 Hn2 Hp1 Hp2) as [_ Hre].
      unfold openBlock. rewrite Hmf, Hidx.
      assert (Z.of_nat k / blockedBlockTerms = Z.of_nat b) as -> by (unfold b; by rewrite Nat2Z.inj_div).
      pose proof (lookup_lt_Some _ _ _ Hb). rewrite decide_False by lia.
      rewrite Ha. cbn [result_bind]. rewrite (firsts_read b _ Hb). cbn [result_bind].
      rewrite Hre. cbn [result_bind]. change (first_term ((t, (off, count)) :: tail (block_rest k))) with t.
      by rewrite of_to_bytes.
    - rewrite decide_False by lia. destruct (Hin H0) as (prev & Hscr & Hprev & Hh).
      unfold extendPreviousTerm. rewrite Hmf, Hscr.
      assert (block_rest k = (t, p) :: tail (block_rest k)) as Hbr.
      { unfold block_rest. pose proof (Nat.mod_upper_bound k 32 ltac:(lia)).
        replace (32 - k mod 32)%nat with (S (31 - k mod 32)) by lia. by erewrite drop_S by done. }
      rewrite Hbr in Hh. destruct (suffix_held _ _ _ _ _ _ Hh Hprev Hlen) as (nxt & Hst & Hn1 & Hn2 & Hrest).
      exists nxt. rewrite Hst. cbn [result_bind].
      destruct (pointer_held mf nxt p Hn1 Hn2 Hp1 Hp2) as [_ Hre]. rewrite Hre. cbn [result_bind].
      by rewrite of_to_bytes. }
  unfold next. rewrite Hmf, Hidx, decide_False by lia. rewrite decide_True by done. rewrite Hnb.
  cbn [result_bind it_at it_scratch it_term it_postOff it_count]. eexists. split; [done|].
  split; [|done]. by eapply stands_behind.
Qed.

Lemma eachTerm_blocked : eachTerm mf = Ok (zip (fst <$> ts) runs).
Proof.
  apply (eachTerm_stands stands); [|by apply stands_next]. split_and!; [done|done|]. by intros ?.
Qed.
End Blocked.
End Walk.
