(* ===== verification/Bm25DictTrip.v ===== *)
(** * A dictionary of any kind: laid, opened and read back *)

From Stdlib Require Import Ascii.
From S2P Require Import Prelude Supersession Bm25Layout Bm25Read Bm25Encode Bm25Image Bm25Dicts Bm25Hash Bm25Blocks Bm25DictReads Bm25BlockReads Bm25DictWalk.

Local Open Scope Z_scope.

(** ** Laid *)

(** The stores of a dictionary, a hash table in its final state. *)
Definition dict_puts (kind : Z) (d : v2DictPlan) (terms : list string) (ptrs : list (Z * Z)) : list put :=
  if decide (kind = dictBlocked) then writeBlockedDict d (zip terms ptrs)
  else if decide (kind = dictHash) then hash_puts d (zip (zip terms (dTermOff d)) ptrs)
  else writeFlatDict d (zip (zip terms (dTermOff d)) ptrs).

Lemma dict_laid kind off terms ptrs d e :
  planDict kind off terms = (d, e) → length ptrs = length terms → Z.of_nat (length terms) < 2 ^ 31 →
  same_image (writeDict kind d terms ptrs) (dict_puts kind d terms ptrs) ∧
  laid off e (dict_puts kind d terms ptrs) ∧ Forall (within off e) (writeDict kind d terms ptrs).
Proof.
  unfold planDict, writeDict, dict_puts. intros Hd Hp Hlen.
  destruct (decide (kind = dictBlocked)); [|destruct (decide (kind = dictHash))].
  - destruct (blocked_laid _ _ _ _ _ Hd Hp) as [Hl _]. split_and!; [done|done|by apply laid_within in Hl].
  - by apply (hash_laid off).
  - pose proof (flat_laid _ _ _ _ _ Hd Hp) as Hl. split_and!; [done|done|by apply laid_within in Hl].
Qed.

(** ** Opened *)

Lemma checkSection_pass name n off size a :
  0 < a → 0 ≤ off → off mod a = 0 → 0 ≤ size → off + size ≤ n → checkSection name n off size a = Ok tt.
Proof.
  intros Ha Ho Hm Hs Hn. unfold checkSection. rewrite decide_False; [by rewrite decide_False by lia|].
  rewrite Z.rem_mod_nonneg by lia. lia.
Qed.

(** The field after its dictionary is opened. *)
Definition with_dict (mf : mappedField) (terms : list string) (d : v2DictPlan) : mappedField :=
  let n := Z.of_nat (length terms) in
  if decide (kind mf = dictBlocked) then
    mkField (fblob mf) (config mf) (totalTokens mf) (lengths mf) (kind mf) n 0 0 0 (dBlockCount d)
      (dOff d + 16) (dBlockIdxOff d)
  else mkField (fblob mf) (config mf) (totalTokens mf) (lengths mf) (kind mf) n (dEntriesOff d) (dSlotsOff d)
      (dSlotCount d) 0 0 0.

Lemma mod_4_of_8 x : x mod 8 = 0 → x mod 4 = 0.
Proof. intros H. apply Z.mod_divide in H as [k ->]; [|lia]. apply Z.mod_divide; [lia|]. exists (2 * k). lia. Qed.

Lemma holds_all_in b ps off v w : holds_all b ps → (off, le w v) ∈ ps → 0 ≤ v < 2 ^ (8 * Z.of_nat w) → uint w b off = Ok v.
Proof. intros Hh Hin Hv. by apply uint_holds, Hv; apply (Hh _ Hin). Qed.

Lemma termView_held b o t what : holds b o (to_bytes t) → termView b o (slen t) what = Ok t.
Proof.
  intros Hh. unfold termView. pose proof (holds_lo _ _ _ Hh). pose proof (holds_hi _ _ _ Hh) as Hhi.
  fold (slen t) in Hhi. pose proof (blen_nonneg (to_bytes t)) as Hn. fold (slen t) in Hn.
  case_decide as H0; [by destruct t|]. rewrite decide_False by lia.
  unfold slen. rewrite view_holds by (done || unfold slen in *; lia). cbn [result_bind]. by rewrite of_to_bytes.
Qed.

(** The offset and the length of a term that is held fit their fields. *)
Lemma held_fits b o t : blen b < 2 ^ 32 → holds b o (to_bytes t) → 0 ≤ o < 2 ^ 32 ∧ 0 ≤ slen t < 2 ^ 32.
Proof.
  intros Hb Hh. pose proof (holds_lo _ _ _ Hh). pose proof (holds_hi _ _ _ Hh) as Hhi.
  fold (slen t) in Hhi. pose proof (blen_nonneg (to_bytes t)) as Hn. fold (slen t) in Hn. lia.
Qed.

Section Dict.
Context (b : bytes) (terms : list string) (ptrs : list (Z * Z)) (d : v2DictPlan) (off e : Z) (k : Z).
Context (planned : planDict k off terms = (d, e)) (ptrs_n : length ptrs = length terms).
Context (terms_n : Z.of_nat (length terms) < 2 ^ 31) (off_lo : 0 ≤ off) (e_hi : e ≤ blen b).
Context (b_small : blen b < 2 ^ 32) (held : holds_all b (dict_puts k d terms ptrs)).
Context (mf : mappedField) (mf_blob : fblob mf = b) (mf_kind : kind mf = k).

Lemma zip_n : length (zip terms ptrs) = length terms.
Proof. rewrite length_zip. lia. Qed.

Lemma openDict_flat : k = dictFlat → openDict mf (dOff d) = Ok (with_dict mf terms d).
Proof.
  intros Hk. pose proof planned as Hd. pose proof held as Hheld. rewrite Hk in Hd, Hheld.
  unfold planDict in Hd. unfold dict_puts in Hheld. cbn [decide] in Hd, Hheld.
  rewrite !decide_False in Hd by done. rewrite !decide_False in Hheld by done.
  unfold planFlatDict in Hd. destruct (lay off (slen <$> terms)) as [offs e0] eqn:Hl.
  injection Hd as <- <-. destruct (laid_terms _ _ _ _ Hl) as (Hn & Hle & _). cbn [dOff dTermOff] in *.
  pose proof (align_bounds e0 8 alignment_8). pose proof (align_mod e0 8 alignment_8) as Hm.
  unfold v2FlatEntrySize in *. set (o := align e0 8) in *.
  unfold writeFlatDict in Hheld. rewrite length_rows_of in Hheld by done. cbn [dOff dEntriesOff] in Hheld.
  unfold openDict, v2FlatEntrySize. rewrite mf_blob, mf_kind, Hk. rewrite (decide_True (P := dictFlat = dictFlat)) by done.
  rewrite checkSection_pass by (done || lia). cbn [result_bind].
  rewrite (holds_all_in _ _ _ (Z.of_nat (length terms)) _ Hheld) by (in_puts || lia). cbn [result_bind].
  rewrite (decide_False (P := dictFlat = dictBlocked)), (decide_False (P := dictFlat = dictHash)) by done.
  rewrite (holds_all_in _ _ _ (o + 8) _ Hheld) by (in_puts || lia). cbn [result_bind].
  rewrite checkSection_pass by (lia || (rewrite Z.add_mod, Hm by lia; done)). cbn [result_bind].
  unfold with_dict. by rewrite mf_blob, mf_kind, Hk, decide_False by done.
Qed.

Lemma openDict_hash : k = dictHash → openDict mf (dOff d) = Ok (with_dict mf terms d).
Proof.
  intros Hk. pose proof planned as Hd. pose proof held as Hheld. rewrite Hk in Hd, Hheld.
  pose proof (hash_laid off terms ptrs d e) as Hlaid.
  unfold planDict in Hd. unfold dict_puts in Hheld.
  rewrite decide_False, decide_True in Hd by done. rewrite decide_False, decide_True in Hheld by done.
  specialize (Hlaid Hd ptrs_n terms_n) as (_ & [_ Hw _] & _).
  unfold planHashDict in Hd. destruct (lay off (slen <$> terms)) as [offs e0] eqn:Hl.
  set (count := hashSlotCount (Z.of_nat (length terms))) in *.
  assert (0 ≤ count) as Hcount.
  { destruct (hashSlotCount_spec (Z.of_nat (length terms))) as [(j & ? & Hj) _]; [lia|]. unfold count. lia. }
  injection Hd as <- <-. destruct (laid_terms _ _ _ _ Hl) as (Hn & Hle & _).
  cbn [dOff dTermOff dSlotsOff dSlotCount dEntriesOff] in *.
  pose proof (align_bounds e0 8 alignment_8). pose proof (align_mod e0 8 alignment_8) as Hm.
  unfold v2FlatEntrySize, v2HashSlotSize in *. set (o := align e0 8) in *.
  pose proof (align_bounds (o + 16 + 16 * Z.of_nat (length terms)) 8 alignment_8).
  pose proof (align_mod (o + 16 + 16 * Z.of_nat (length terms)) 8 alignment_8) as Hms.
  set (sl := align (o + 16 + 16 * Z.of_nat (length terms)) 8) in *.
  unfold hash_puts in Hheld. rewrite length_rows_of in Hheld by done.
  cbn [dOff dEntriesOff dSlotsOff dSlotCount] in Hheld. clearbody o sl count.
  unfold openDict, v2FlatEntrySize, v2HashSlotSize. rewrite mf_blob, mf_kind, Hk.
  rewrite (decide_False (P := dictHash = dictFlat)) by done.
  rewrite checkSection_pass by (done || lia). cbn [result_bind].
  rewrite (holds_all_in _ _ _ (Z.of_nat (length terms)) _ Hheld) by (in_puts || lia). cbn [result_bind].
  rewrite (decide_False (P := dictHash = dictBlocked)), (decide_True (P := dictHash = dictHash)) by done.
  rewrite (holds_all_in _ _ _ (o + 16) _ Hheld) by (in_puts || lia). cbn [result_bind].
  rewrite (holds_all_in _ _ _ sl _ Hheld) by (in_puts || lia). cbn [result_bind].
  rewrite (holds_all_in _ _ _ count _ Hheld) by (in_puts || lia). cbn [result_bind].
  rewrite checkSection_pass by (lia || (rewrite Z.add_mod, Hm by lia; done)). cbn [result_bind].
  rewrite checkSection_pass by lia. cbn [result_bind].
  unfold with_dict. by rewrite mf_blob, mf_kind, Hk, decide_False by done.
Qed.

Lemma openDict_blocked : k = dictBlocked → openDict mf (dOff d) = Ok (with_dict mf terms d).
Proof.
  intros Hk. pose proof planned as Hd. pose proof held as Hheld. rewrite Hk in Hd, Hheld.
  pose proof (blocked_laid off terms ptrs d e) as Hlaid.
  unfold planDict in Hd. unfold dict_puts in Hheld.
  rewrite decide_True in Hd by done. rewrite decide_True in Hheld by done.
  specialize (Hlaid Hd ptrs_n) as ([Hoe _ _] & _ & Hnb).
  unfold planBlockedDict in Hd. set (n := Z.of_nat (length (blocks terms))) in *.
  pose proof (lay_le off (slen ∘ first_of <$> blocks terms)) as Hle.
  destruct (lay off (slen ∘ first_of <$> blocks terms)) as [offs e0] eqn:Hl. cbn [snd] in Hle.
  pose proof (align_bounds e0 8 alignment_8). pose proof (align_mod e0 8 alignment_8) as Hm.
  set (o := align e0 8) in *.
  pose proof (align_bounds (o + 16 + 8 * n) 4 alignment_4). pose proof (align_mod (o + 16 + 8 * n) 4 alignment_4) as Hmi.
  set (idx := align (o + 16 + 8 * n) 4) in *.
  pose proof (lay_le (idx + 4 * n) (blockedPayloadSize <$> blocks terms)) as Hle2.
  destruct (lay (idx + 4 * n) (blockedPayloadSize <$> blocks terms)) as [boffs e1] eqn:Hl2. cbn [snd] in Hle2.
  injection Hd as <- <-. cbn [dOff dTermOff dBlockIdxOff dBlockCount dBlockOff] in *.
  assert (off ≤ e0) as Hoff.
  { apply Hle, Forall_fmap, Forall_forall. intros x _. apply blen_nonneg. }
  assert (idx + 4 * n ≤ e1) as Hend.
  { apply Hle2, Forall_fmap, Forall_forall. intros [|t l] _; cbn; [lia|]. clear. revert t.
    induction l as [|u l IH]; intros t; cbn [suffixes_size]; [lia|].
    specialize (IH u). pose proof (proj2 (sharedPrefixLen_le (to_bytes t) (to_bytes u))). unfold slen, blen. lia. }
  assert (0 ≤ n) by (unfold n; lia). clearbody o idx n.
  unfold writeBlockedDict in Hheld. rewrite zip_n in Hheld.
  cbn [dOff dTermOff dBlockIdxOff dBlockCount dBlockOff] in Hheld.
  unfold openDict. rewrite mf_blob, mf_kind, Hk.
  rewrite (decide_False (P := dictBlocked = dictFlat)) by done.
  rewrite checkSection_pass by (done || lia). cbn [result_bind].
  rewrite (holds_all_in _ _ _ (Z.of_nat (length terms)) _ Hheld) by (in_puts || lia). cbn [result_bind].
  rewrite (decide_True (P := dictBlocked = dictBlocked)) by done.
  rewrite (holds_all_in _ _ _ n _ Hheld) by (in_puts || lia). cbn [result_bind].
  rewrite (holds_all_in _ _ _ (o + 16) _ Hheld) by (in_puts || lia). cbn [result_bind].
  rewrite (holds_all_in _ _ _ idx _ Hheld) by (in_puts || lia). cbn [result_bind].
  rewrite checkSection_pass by (lia || (rewrite Z.add_mod, (mod_4_of_8 o Hm) by lia; done)). cbn [result_bind].
  rewrite checkSection_pass by lia. cbn [result_bind].
  unfold with_dict. by rewrite mf_blob, mf_kind, Hk, decide_True by done.
Qed.
(** ** Read *)

Lemma openDict_held : 0 ≤ k → k ≤ dictHash → openDict mf (dOff d) = Ok (with_dict mf terms d).
Proof.
  unfold dictHash. intros H0 H2. assert (k = dictFlat ∨ k = dictBlocked ∨ k = dictHash) as [?|[?|?]]
    by (unfold dictFlat, dictBlocked, dictHash; lia);
    [by apply openDict_flat|by apply openDict_blocked|by apply openDict_hash].
Qed.

Lemma entry_held rows_ (g : mappedField) i t o p :
  holds_all b (writeFlatEntries d rows_) → rows_ !! i = Some (t, o, p) →
  fblob g = b → entriesOff g = dEntriesOff d → 0 ≤ p.1 < 2 ^ 32 → 0 ≤ p.2 < 2 ^ 32 →
  entryAt g (Z.of_nat i) = Ok (t, p.1, p.2).
Proof.
  intros Hh Hi Hg He Hp1 Hp2. destruct p as [po c]. cbn [fst snd] in *.
  pose proof (holds_all_rows _ _ _ _ _ Hh Hi) as Hr. cbn beta iota in Hr.
  unfold putStr, put32 in Hr. rewrite !holds_all_cons in Hr. destruct Hr as (H0 & H1 & H2 & H3 & H4 & _).
  destruct (held_fits b o t b_small H0) as [Ho Ht]. unfold entryAt. rewrite Hg, He.
  rewrite (uint_holds 4 _ _ o), (uint_holds 4 _ _ (slen t)), (uint_holds 4 _ _ po), (uint_holds 4 _ _ c) by done.
  cbn [result_bind]. by rewrite termView_held.
Qed.

Context (sorted : sorted_table (zip terms ptrs)) (fit : pointers_fit (zip terms ptrs)).
Context (blocked_terms : k = dictBlocked → terms_fit (zip terms ptrs)) (kind_ok : 0 ≤ k ∧ k ≤ dictHash).

Local Abbreviation g := (with_dict mf terms d).

Lemma with_dict_blob : fblob g = b.
Proof. unfold with_dict. by case_decide. Qed.

Lemma with_dict_kind : kind g = k.
Proof. unfold with_dict. by case_decide. Qed.

Lemma with_dict_count : termCount g = Z.of_nat (length (zip terms ptrs)).
Proof. rewrite zip_n. unfold with_dict. by case_decide. Qed.

Lemma fst_zip_terms : fst <$> zip terms ptrs = terms.
Proof. apply fst_zip. lia. Qed.

Lemma pointer_fit i t p : zip terms ptrs !! i = Some (t, p) → 0 ≤ p.1 < 2 ^ 32 ∧ 0 ≤ p.2 < 2 ^ 32.
Proof.
  intros Hi. pose proof fit as Hf. unfold pointers_fit in Hf. rewrite Forall_forall in Hf.
  by apply (Hf (t, p)), (list_elem_of_lookup_2 _ i).
Qed.

(** The rows of a flat or hash dictionary. *)
Lemma rows_read : k ≠ dictBlocked → length (dTermOff d) = length terms →
  holds_all b (writeFlatEntries d (zip (zip terms (dTermOff d)) ptrs)) →
  ∀ i t p, zip terms ptrs !! i = Some (t, p) → entryAt g (Z.of_nat i) = Ok (t, p.1, p.2).
Proof.
  intros Hk Hn Hh i t p Hi. destruct (pointer_fit i t p Hi) as [Hp1 Hp2].
  apply lookup_zip_with_Some in Hi as (t' & p' & [= -> ->] & Ht & Hp).
  destruct (lookup_lt_is_Some_2 (dTermOff d) i) as [o Ho]; [by apply lookup_lt_Some in Ht; lia|].
  apply (entry_held _ _ _ _ o _ Hh); [|by apply with_dict_blob| |done|done].
  - by rewrite !lookup_zip_with, Ht, Ho, Hp.
  - unfold with_dict. rewrite decide_False by (by rewrite mf_kind). done.
Qed.

Lemma flat_or_hash_rows : k ≠ dictBlocked →
  ∀ i t p, zip terms ptrs !! i = Some (t, p) → entryAt g (Z.of_nat i) = Ok (t, p.1, p.2).
Proof.
  intros Hk. pose proof planned as Hd. pose proof held as Hh. unfold planDict in Hd. unfold dict_puts in Hh.
  rewrite decide_False in Hd by done. rewrite decide_False in Hh by done.
  assert (k = dictHash ∨ k ≠ dictHash) as [E|E] by (destruct (decide (k = dictHash)); tauto).
  - rewrite decide_True in Hd by done. rewrite decide_True in Hh by done. unfold planHashDict in Hd.
    destruct (lay off (slen <$> terms)) as [offs e0] eqn:Hl. destruct (laid_terms _ _ _ _ Hl) as [Hn _].
    apply rows_read; [done|by injection Hd as <- _|]. unfold hash_puts in Hh. rewrite !holds_all_app in Hh. tauto.
  - rewrite decide_False in Hd by done. rewrite decide_False in Hh by done. unfold planFlatDict in Hd.
    destruct (lay off (slen <$> terms)) as [offs e0] eqn:Hl. destruct (laid_terms _ _ _ _ Hl) as [Hn _].
    apply rows_read; [done|by injection Hd as <- _|]. unfold writeFlatDict in Hh. rewrite holds_all_app in Hh. tauto.
Qed.

Lemma hash_lookup : k = dictHash → ∀ t, lookup_term g t = Ok (find_term (zip terms ptrs) t).
Proof.
  intros Hk t. assert (k ≠ dictBlocked) as Hnb by (by rewrite Hk).
  unfold lookup_term. rewrite with_dict_kind, decide_False, decide_True by done.
  destruct (hash_table_ok terms terms_n) as [_ Hok].
  set (count := hashSlotCount (Z.of_nat (length terms))) in *.
  destruct (hashSlotCount_spec (Z.of_nat (length terms))) as [Hpow _]; [lia|]. fold count in Hpow.
  assert (dSlotCount d = count) as Hc.
  { pose proof planned as Hd. unfold planDict in Hd. rewrite decide_False, decide_True in Hd by done.
    unfold planHashDict in Hd. destruct (lay off (slen <$> terms)) as [offs e0] eqn:Hl. by injection Hd as <- _. }
  assert (length (dTermOff d) = length terms) as Hno.
  { pose proof planned as Hd. unfold planDict in Hd. rewrite decide_False, decide_True in Hd by done.
    unfold planHashDict in Hd. destruct (lay off (slen <$> terms)) as [offs e0] eqn:Hl.
    destruct (laid_terms _ _ _ _ Hl) as [Hn _]. by injection Hd as <- _. }
  pose proof held as Hh. unfold dict_puts in Hh. rewrite decide_False, decide_True in Hh by done.
  unfold hash_puts in Hh. unfold term_row in *. rewrite terms_of_rows, Hc in Hh by done. rewrite !holds_all_app in Hh.
  destruct Hh as (_ & _ & Hslots).
  assert (fblob g = b ∧ slotsOff g = dSlotsOff d ∧ slotCount g = count) as (Hgb & Hgs & Hgc).
  { unfold with_dict. rewrite decide_False by (by rewrite mf_kind). done. }
  apply (lookupHash_spec g (zip terms ptrs) sorted with_dict_count (flat_or_hash_rows Hnb) count Hpow
    (table_of count (hash_slots count terms))).
  - by rewrite fst_zip_terms, zip_n.
  - rewrite zip_n. unfold hashEmptySlot. lia.
  - done.
  - intros s o Ho. pose proof (holds_all_rows _ _ _ _ _ Hslots Ho) as Hr. rewrite Hgb, Hgs.
    destruct o as [[fp i]|]; cbn [slot_puts] in Hr; unfold put32 in Hr; rewrite !holds_all_cons in Hr.
    + destruct Hr as (H1 & H2 & _).
      destruct (po_entries _ _ _ _ Hok _ _ _ Ho) as (j & h & -> & Hj & Hjh & ->).
      rewrite !list_lookup_fmap in Hjh. destruct (terms !! j) as [u|] eqn:Hu; [|done]. injection Hjh as <-.
      pose proof (termHash_range (to_bytes u)). rewrite Z.shiftr_div_pow2 in * by lia.
      split; [apply (uint_holds 4); [done|]|apply (uint_holds 4); [done|lia]].
      split; [apply Z.div_pos; lia|apply Z.div_lt_upper_bound; lia].
    + destruct Hr as (H1 & _). apply (uint_holds 4); [done|]. unfold hashEmptySlot. lia.
Qed.

(** The first terms and the index of a front-coded dictionary. *)
Lemma blocks_read : k = dictBlocked → ∀ i block, blocks (zip terms ptrs) !! i = Some block →
  firstTermAt g (Z.of_nat i) = Ok (first_term block) ∧ ∃ at_,
  0 ≤ blockIdxOff g + 4 * Z.of_nat i ∧ blockIdxOff g + 4 * Z.of_nat i + 4 ≤ blen (fblob g) ∧
  uint 4 (fblob g) (blockIdxOff g + 4 * Z.of_nat i) = Ok at_ ∧
  holds_all (fblob g) (writeBlockedPayload at_ block).
Proof.
  intros Hk i block Hb.
  pose proof planned as Hd. pose proof held as Hh. unfold planDict in Hd. unfold dict_puts in Hh.
  rewrite decide_True in Hd by done. rewrite decide_True in Hh by done.
  destruct (blocked_laid _ _ _ _ _ Hd ptrs_n) as (_ & Hn1 & Hn2).
  assert (length (blocks (zip terms ptrs)) = length (blocks terms)) as Hnb.
  { apply Nat2Z.inj. by rewrite !length_blocks, zip_n. }
  pose proof (lookup_lt_Some _ _ _ Hb) as Hlt.
  destruct (lookup_lt_is_Some_2 (dTermOff d) i) as [o Ho]; [lia|].
  destruct (lookup_lt_is_Some_2 (dBlockOff d) i) as [bo Hbo]; [lia|].
  unfold writeBlockedDict in Hh. rewrite holds_all_app in Hh. destruct Hh as [_ Hh].
  pose proof (holds_all_rows _ _ _ i (block, (o, bo)) Hh) as Hr.
  specialize (Hr ltac:(by rewrite !lookup_zip_with, Hb, Ho, Hbo)). cbn beta iota in Hr.
  unfold putStr, put32 in Hr. cbn [app] in Hr. rewrite !holds_all_cons in Hr. destruct Hr as (H0 & H1 & H2 & H3 & Hpay).
  fold (first_term block) in *.
  assert (fblob g = b ∧ firstTermsOff g = dOff d + 16 ∧ blockIdxOff g = dBlockIdxOff d) as (Hgb & Hgf & Hgi).
  { unfold with_dict. rewrite decide_True by (by rewrite mf_kind). done. }
  rewrite Hgb, Hgi. destruct (held_fits b o (first_term block) b_small H0) as [Hof Hlf]. split.
  - unfold firstTermAt. rewrite Hgb, Hgf.
    rewrite (uint_holds 4 _ _ o), (uint_holds 4 _ _ (slen (first_term block))) by done. cbn [result_bind].
    by rewrite termView_held.
  - exists bo. pose proof (holds_lo _ _ _ H3). pose proof (holds_hi _ _ _ H3) as Hhi. rewrite blen_le in Hhi.
    split_and!; [done|lia| |done]. apply (uint_holds 4); [done|].
    destruct block as [|[u [po c]] l]; [by apply list_elem_of_lookup_2, blocks_nonempty in Hb|].
    cbn [writeBlockedPayload app] in Hpay. unfold put32 in Hpay. rewrite !holds_all_cons in Hpay.
    destruct Hpay as (Hp & _). pose proof (holds_lo _ _ _ Hp). pose proof (holds_hi _ _ _ Hp) as Hhp.
    rewrite blen_le in Hhp. lia.
Qed.

Lemma blocks_counted : k = dictBlocked → blockCount g = Z.of_nat (length (blocks (zip terms ptrs))).
Proof.
  intros Hk. pose proof planned as Hd. unfold planDict in Hd. rewrite decide_True in Hd by done.
  unfold planBlockedDict in Hd. destruct (lay off _) as [offs e0]. destruct (lay _ (_ <$> _)) as [boffs e1].
  injection Hd as <- _. unfold with_dict. rewrite decide_True by (by rewrite mf_kind). cbn.
  by rewrite !length_blocks, zip_n.
Qed.

Lemma dict_lookup t : lookup_term g t = Ok (find_term (zip terms ptrs) t).
Proof.
  destruct (decide (k = dictBlocked)) as [Hb|Hb]; [|destruct (decide (k = dictHash)) as [Hh|Hh]].
  - unfold lookup_term. rewrite with_dict_kind, decide_True by done.
    apply (lookupBlocked_spec g _ sorted with_dict_count fit (blocked_terms Hb) (blocks_counted Hb));
      intros i block Hi; by apply (blocks_read Hb).
  - by apply hash_lookup.
  - unfold lookup_term. rewrite with_dict_kind, !decide_False by done.
    apply (lookupFlat_spec g _ sorted with_dict_count). by apply flat_or_hash_rows.
Qed.

Lemma dict_walk (runs : list (list Z * list Z)) :
  length runs = length terms →
  (∀ i t p r, zip terms ptrs !! i = Some (t, p) → runs !! i = Some r → postings g p.1 p.2 = Ok r) →
  eachTerm g = Ok (zip terms runs).
Proof.
  intros Hn Hr. trans (Ok (E := readErr) (zip (fst <$> zip terms ptrs) runs)); [|by rewrite fst_zip_terms].
  destruct (decide (k = dictBlocked)) as [Hb|Hb].
  - apply (eachTerm_blocked g _ runs with_dict_count); [by rewrite zip_n|done|by rewrite with_dict_kind|
      done|by apply blocked_terms|by apply blocks_counted| |]; intros i block Hi; by apply (blocks_read Hb).
  - apply (eachTerm_rows g _ runs with_dict_count); [by rewrite zip_n|done|by rewrite with_dict_kind|].
    by apply flat_or_hash_rows.
Qed.
End Dict.
