(* ===== verification/Bm25Layouts.v ===== *)
(** * A bm25 segment is laid without overlap

    The plan of the fields and of the whole blob: everything the encoder stores, hash
    tables in their final state, falls side by side between zero and the planned size. *)

From Stdlib Require Import Ascii.
From S2P Require Import Prelude Supersession Bm25Layout Bm25Read Bm25Encode Bm25Image Bm25Dicts Bm25Hash Bm25Blocks Bm25DictReads Bm25BlockReads Bm25DictWalk Bm25DictTrip.

Local Open Scope Z_scope.

(** ** Sizes *)

Lemma lay_total off lens : (lay off lens).2 = off + foldr Z.add 0 lens.
Proof.
  revert off. induction lens as [|n lens IH]; intros off; cbn [lay foldr]; [cbn; lia|].
  specialize (IH (off + n)). destruct (lay (off + n) lens). cbn in *. lia.
Qed.

Lemma lay_spec off lens :
  Forall (λ n, 0 ≤ n) lens →
  Forall2 (λ o n, off ≤ o ∧ o + n ≤ (lay off lens).2) (lay off lens).1 lens.
Proof.
  intros Hn. revert off. induction Hn as [|n lens Hn Hl IH]; intros off; cbn [lay]; [constructor|].
  specialize (IH (off + n)). pose proof (lay_le (off + n) lens Hl).
  destruct (lay (off + n) lens) as [offs e]. cbn in *. constructor; [lia|].
  eapply Forall2_impl; [exact IH|]. cbn. lia.
Qed.

Lemma lay_aligned_spec off lens :
  Forall (λ n, 0 ≤ n) lens →
  let '(offs, e) := lay_aligned off lens in
  off ≤ e ∧ Forall2 (λ o n, off ≤ o ∧ o mod 4 = 0 ∧ o + n ≤ e) offs lens.
Proof.
  intros Hn. revert off. induction Hn as [|n lens Hn Hl IH]; intros off; cbn [lay_aligned]; [by split|].
  pose proof (align_bounds off 4 alignment_4). specialize (IH (align off 4 + n)).
  destruct (lay_aligned (align off 4 + n) lens) as [offs e]. destruct IH as [Hle IH].
  split; [lia|]. constructor; [split_and!; [lia|by apply align_mod|lia]|].
  eapply Forall2_impl; [exact IH|]. cbn. intros o m (? & ? & ?). split_and!; [lia|done|lia].
Qed.

Lemma chunk_join {A} fuel (l : list A) : (length l ≤ fuel)%nat → mjoin (chunk fuel l) = l.
Proof.
  revert l. induction fuel as [|fuel IH]; intros l Hl; [by destruct l; [|cbn in Hl; lia]|].
  destruct l as [|x l]; [done|]. cbn [chunk mjoin list_join]. rewrite IH; [by rewrite take_drop|].
  rewrite length_drop. change (Z.to_nat blockedBlockTerms) with 32%nat. cbn [length] in *. lia.
Qed.

Lemma suffixes_size_count prev ts : 8 * Z.of_nat (length ts) ≤ suffixes_size prev ts.
Proof.
  revert prev. induction ts as [|t ts IH]; intros prev; cbn [suffixes_size length]; [lia|]. specialize (IH t).
  pose proof (proj2 (sharedPrefixLen_le (to_bytes prev) (to_bytes t))). unfold slen, blen. lia.
Qed.

Lemma slens_nonneg (l : list string) : Forall (λ n, 0 ≤ n) (slen <$> l).
Proof. apply Forall_nonneg_fmap, slen_nonneg. Qed.

(** A dictionary takes at least eight bytes per term. *)
Lemma planDict_size kind off terms d e : planDict kind off terms = (d, e) → off + 8 * Z.of_nat (length terms) ≤ e.
Proof.
  unfold planDict. intros Hd.
  assert (kind = dictBlocked ∨ kind ≠ dictBlocked) as [E|E] by (destruct (decide (kind = dictBlocked)); tauto).
  { rewrite decide_True in Hd by done. unfold planBlockedDict in Hd.
    pose proof (lay_le off (slen ∘ first_of <$> blocks terms) (Forall_nonneg_fmap _ _ (λ _, slen_nonneg _))) as Hle.
    destruct (lay off (slen ∘ first_of <$> blocks terms)) as [offs e0].
    pose proof (align_bounds e0 8 alignment_8). set (n := Z.of_nat (length (blocks terms))) in *.
    pose proof (align_bounds (align e0 8 + 16 + 8 * n) 4 alignment_4). set (idx := align (align e0 8 + 16 + 8 * n) 4) in *.
    pose proof (lay_total (idx + 4 * n) (blockedPayloadSize <$> blocks terms)) as Hend.
    destruct (lay (idx + 4 * n) (blockedPayloadSize <$> blocks terms)) as [boffs e1].
    injection Hd as _ <-. cbn in Hle, Hend.
    assert (8 * Z.of_nat (length (mjoin (blocks terms))) ≤ foldr Z.add 0 (blockedPayloadSize <$> blocks terms)) as Hb.
    { generalize (blocks terms). intros bs. induction bs as [|b bs IH]; [cbn; lia|].
      change (mjoin (b :: bs)) with (b ++ mjoin bs). rewrite fmap_cons, length_app. cbn [foldr].
      assert (8 * Z.of_nat (length b) ≤ blockedPayloadSize b); [|lia].
      destruct b as [|t b]; cbn [blockedPayloadSize length]; [lia|]. pose proof (suffixes_size_count t b). lia. }
    unfold blocks in Hb at 1. rewrite chunk_join in Hb by done.
    assert (0 ≤ n) by (unfold n; lia). clearbody idx n. lia. }
  rewrite decide_False in Hd by done. pose proof (lay_le off (slen <$> terms) (slens_nonneg _)) as Hle.
  unfold planHashDict, planFlatDict, v2FlatEntrySize, v2HashSlotSize in Hd.
  destruct (lay off (slen <$> terms)) as [offs e0]. cbn in Hle. pose proof (align_bounds e0 8 alignment_8).
  assert (kind = dictHash ∨ kind ≠ dictHash) as [E'|E'] by (destruct (decide (kind = dictHash)); tauto).
  - rewrite decide_True in Hd by done. injection Hd as _ <-.
    pose proof (align_bounds (align e0 8 + 16 + 16 * Z.of_nat (length terms)) 8 alignment_8).
    assert (0 ≤ hashSlotCount (Z.of_nat (length terms))); [|lia].
    destruct (hashSlotCount_loop_spec 64 1 (Z.of_nat (length terms))) as [(j & ? & Hj) _]; [by exists 0|].
    unfold hashSlotCount. lia.
  - rewrite decide_False in Hd by done. injection Hd as _ <-. lia.
Qed.

(** ** Fields *)

Lemma rows_const {A} (f : A → list put) i xs : rows (λ _ x, f x) i xs = mjoin (f <$> xs).
Proof. revert i. induction xs as [|x xs IH]; intros i; [done|]. cbn. by rewrite IH. Qed.

Lemma postings_laid base posts :
  laid base (base + (4 * Z.of_nat (length posts) + 2 * Z.of_nat (length posts))) (writePostings base posts).
Proof.
  unfold writePostings. set (n := Z.of_nat (length posts)).
  rewrite (rows_app (λ j p, [put32 (base + 4 * j) (docID p)]) (λ j p, [put16 (base + 4 * n + 2 * j) (tf p)])).
  apply (laid_app _ (base + 4 * n)).
  - apply laid_rows0; [done|]. intros j x _. laid_fixed.
  - replace (base + (4 * n + 2 * n)) with (base + 4 * n + 2 * n) by lia.
    apply laid_rows0; [done|]. intros j x _. laid_fixed.
Qed.

(** The dictionary of a field and its runs. *)
Definition data_puts (kind : Z) (fd : fieldData) (fp : v2FieldPlan) : list put :=
  dict_puts kind (pDict fp) (pTerms fp) (run_pointers fd fp)
    ++ mjoin (zip_with (λ t o, writePostings o (postingsOf fd t)) (pTerms fp) (pPostOff fp)).

(** What the plan of a field settles. *)
Record field_planned (kind lo hi : Z) (x : Z * Z * fieldData) (fp : v2FieldPlan) : Prop := mkPlanned {
  fpl_name : pNameOff fp = x.1.1;
  fpl_lens : pDocLengthsOff fp = x.1.2;
  fpl_terms : pTerms fp = sortedKeys (fdPostings x.2);
  fpl_dict : ∃ off e, lo ≤ off ∧ e ≤ hi ∧ planDict kind off (pTerms fp) = (pDict fp, e);
  fpl_posts : Forall2 (λ o t, lo ≤ o ∧ o mod 4 = 0 ∧ o + run_size x.2 t ≤ hi) (pPostOff fp) (pTerms fp)
}.

Lemma run_pointers_n fd fp : length (pPostOff fp) = length (pTerms fp) → length (run_pointers fd fp) = length (pTerms fp).
Proof. intros Hn. unfold run_pointers. rewrite length_zip, length_fmap. lia. Qed.

Lemma field_planned_weaken kind lo hi lo' hi' x fp :
  field_planned kind lo hi x fp → lo' ≤ lo → hi ≤ hi' → field_planned kind lo' hi' x fp.
Proof.
  intros [H1 H2 H3 (off & e & ? & ? & ?) H5] Hlo Hhi. split; [done..| |].
  - exists off, e. split_and!; [lia|lia|done].
  - eapply Forall2_impl; [exact H5|]. cbn. intros o t (? & ? & ?). split_and!; [lia|done|lia].
Qed.

Lemma planDicts_le kind off fds fps e : planDicts kind off fds = (fps, e) → off ≤ e.
Proof.
  revert off fps e. induction fds as [|[[a b] f] fds IH]; intros off fps e; cbn [planDicts]; [by intros [= _ <-]|].
  destruct (planDict kind off (sortedKeys (fdPostings f))) as [d1 x1] eqn:H1.
  pose proof (planDict_size _ _ _ _ _ H1).
  pose proof (lay_aligned_spec x1 (run_size f <$> sortedKeys (fdPostings f))) as Hsp.
  destruct (lay_aligned x1 _) as [po x2]. destruct Hsp as [Hx _].
  { apply Forall_fmap, Forall_forall; intros t _; unfold run_size; cbn; lia. }
  destruct (planDicts kind x2 fds) as [ps2 x3] eqn:H2. intros [= _ <-]. specialize (IH _ _ _ H2). lia.
Qed.

Lemma planDicts_spec kind off fds fps e :
  planDicts kind off fds = (fps, e) → e < 2 ^ 32 → 0 ≤ off →
  off ≤ e ∧ Forall2 (field_planned kind off e) fds fps ∧
  laid off e (mjoin (zip_with (λ x fp, data_puts kind x.2 fp) fds fps)) ∧
  Forall2 (λ x fp, same_image (writeDict kind (pDict fp) (pTerms fp) (run_pointers x.2 fp))
                     (dict_puts kind (pDict fp) (pTerms fp) (run_pointers x.2 fp)) ∧
                   Forall (within off e) (writeDict kind (pDict fp) (pTerms fp) (run_pointers x.2 fp))) fds fps.
Proof.
  revert off fps e. induction fds as [|[[no lo] fd] fds IH]; intros off fps e; cbn [planDicts].
  { intros [= <- <-] He Ho. split_and!; [done|constructor|by apply laid_nil|constructor]. }
  set (terms := sortedKeys (fdPostings fd)). destruct (planDict kind off terms) as [d e1] eqn:Hd.
  pose proof (planDict_size _ _ _ _ _ Hd) as Hsize.
  assert (Forall (λ n, 0 ≤ n) (run_size fd <$> terms)) as Hnn
    by (apply Forall_fmap, Forall_forall; intros t _; unfold run_size; cbn; lia).
  pose proof (lay_aligned_spec e1 (run_size fd <$> terms) Hnn) as Hsp.
  pose proof (laid_lay_aligned (run_size fd) (λ o t, writePostings o (postingsOf fd t)) e1 terms) as Hruns.
  destruct (lay_aligned e1 (run_size fd <$> terms)) as [posts e2]. destruct Hsp as [Hle2 Hsp].
  destruct Hruns as (Hnp & _ & Hruns); [intros o t _; apply postings_laid|].
  destruct (planDicts kind e2 fds) as [ps e'] eqn:Hps. intros [= <- <-] He Ho.
  pose proof (planDicts_le _ _ _ _ _ Hps) as Hle'.
  destruct (IH e2 ps e' Hps He) as (_ & Hpl & Hlaid & Him); [lia|].
  set (fp := mkFieldPlan no lo terms posts d).
  assert (length (run_pointers fd fp) = length terms) as Hrp by (by apply run_pointers_n).
  destruct (dict_laid kind off terms (run_pointers fd fp) d e1 Hd Hrp) as (Hsame & Hdict & Hin); [lia|].
  split_and!; [lia| | |].
  - constructor.
    + split; [done..| |].
      * exists off, e1. split_and!; [lia|lia|done].
      * cbn. apply Forall2_fmap_r in Hsp. eapply Forall2_impl; [exact Hsp|]. cbn. intros o t (? & ? & ?).
        split_and!; [lia|done|lia].
    + eapply Forall2_impl; [exact Hpl|]. intros x y Hxy. eapply field_planned_weaken; [exact Hxy|lia|lia].
  - cbn [zip_with mjoin list_join]. apply (laid_app _ e2); [|done].
    unfold data_puts. cbn [pDict pTerms pPostOff snd]. apply (laid_app _ e1); [done|].
    rewrite <-(zip_with_flip (λ t o, writePostings o (postingsOf fd t))). done.
  - constructor; [split; [done|]|].
    + eapply Forall_impl; [exact Hin|]. intros p [? ?]. split; [done|lia].
    + eapply Forall2_impl; [exact Him|]. cbn. intros x y [? Hw]. split; [done|].
      eapply Forall_impl; [exact Hw|]. intros p [? ?]. split; [lia|done].
Qed.

(** ** The segment *)

Definition field_entry (p : v2Plan) (i : Z) (fd : fieldData) (fp : v2FieldPlan) : list put :=
  let e := pFieldTableOff p + v2FieldEntrySize * i in
  let cfg := fdConfig fd in
  [put32 (e + v2FldNameOff) (pNameOff fp); put16 (e + v2FldNameLen) (slen (cfgName cfg));
   put64 (e + v2FldBoost) (Boost cfg); put64 (e + v2FldB) (B cfg);
   put64 (e + v2FldTotalTokens) (fdTotal fd);
   put32 (e + v2FldDocLengths) (pDocLengthsOff fp); put32 (e + v2FldDict) (dOff (pDict fp))].

Definition length_puts (p : v2Plan) (fd : fieldData) (fp : v2FieldPlan) : list put :=
  rows (λ d _, [put32 (pDocLengthsOff fp + 4 * d) (default 0 (docLengths fd !! Z.to_nat d))]) 0
    (replicate (Z.to_nat (pDocCount p)) tt).

Definition field_puts (p : v2Plan) (i : Z) (fd : fieldData) (fp : v2FieldPlan) : list put :=
  field_entry p i fd fp ++ [putStr (pNameOff fp) (cfgName (fdConfig fd))] ++ length_puts p fd fp
    ++ data_puts (pKind p) fd fp.

Definition df_row (p : v2Plan) (df : gmap string Z) (i : Z) (x : string * Z) : list put :=
  let row := pDfEntriesOff p + v2DocFreqRowSize * i in
  [put32 row x.2; put32 (row + 4) (slen x.1); put64 (row + 8) (default 0 (df !! x.1))].

(** Everything the encoder stores, hash tables in their final state. *)
Definition segment_puts (s : bm25Segment) (p : v2Plan) : list put :=
  writeHeader p (Z.of_nat (length (accFields s)))
    ++ rows (λ i o, [put32 (pMemberOffsetsOff p + 4 * i) o]) 0 (pMemberOff p)
    ++ zip_with putStr (pMemberOff p) (members s)
    ++ rows (λ i x, field_puts p i x.1 x.2) 0 (zip (accFields s) (pFields p))
    ++ [put32 (pDfDictOff p) (Z.of_nat (length (pDfTerms p))); put32 (pDfDictOff p + 4) (pDfEntriesOff p)]
    ++ rows (λ i x, df_row p (docFreq s) i x ++ [putStr x.2 x.1]) 0 (zip (pDfTerms p) (pDfTermOff p)).

Lemma writeDocFreqDict_puts p df :
  writeDocFreqDict p df =
    [put32 (pDfDictOff p) (Z.of_nat (length (pDfTerms p))); put32 (pDfDictOff p + 4) (pDfEntriesOff p)]
    ++ rows (λ i x, df_row p df i x ++ [putStr x.2 x.1]) 0 (zip (pDfTerms p) (pDfTermOff p)).
Proof. unfold writeDocFreqDict. f_equal. apply rows_ext. by intros i [t o]. Qed.

Lemma writeFieldV2_puts p i fd fp :
  writeFieldV2 p i fd fp =
    (field_entry p i fd fp ++ [putStr (pNameOff fp) (cfgName (fdConfig fd))] ++ length_puts p fd fp)
    ++ writeDict (pKind p) (pDict fp) (pTerms fp) (run_pointers fd fp)
    ++ mjoin (zip_with (λ t o, writePostings o (postingsOf fd t)) (pTerms fp) (pPostOff fp)).
Proof. done. Qed.

Lemma segment_same s p :
  Forall2 (λ fd fp, same_image (writeDict (pKind p) (pDict fp) (pTerms fp) (run_pointers fd fp))
    (dict_puts (pKind p) (pDict fp) (pTerms fp) (run_pointers fd fp))) (accFields s) (pFields p) →
  same_image (encode_puts s p) (segment_puts s p).
Proof.
  intros Hd. unfold encode_puts, segment_puts. rewrite writeDocFreqDict_puts.
  rewrite (rows_ext (λ i '(fd, fp), writeFieldV2 p i fd fp) (λ i x, writeFieldV2 p i x.1 x.2))
    by (by intros i [fd fp]).
  do 3 (apply same_image_app; [done|]). apply same_image_app; [|done]. apply same_image_rows.
  intros i [fd fp] Hin. cbn [fst snd]. rewrite writeFieldV2_puts. unfold field_puts, data_puts.
  rewrite <-!app_assoc. do 3 (apply same_image_app; [done|]). apply same_image_app; [|done].
  apply list_elem_of_lookup in Hin as [j Hj].
  apply lookup_zip_with_Some in Hj as (fd' & fp' & [= <- <-] & Hfd & Hfp).
  by apply (Forall2_lookup_lr _ _ _ _ _ _ Hd Hfd Hfp).
Qed.

(** The same in the order of the offsets. *)
Lemma segment_puts_split s p :
  segment_puts s p ≡ₚ
  writeHeader p (Z.of_nat (length (accFields s)))
    ++ rows (λ i o, [put32 (pMemberOffsetsOff p + 4 * i) o]) 0 (pMemberOff p)
    ++ zip_with putStr (pMemberOff p) (members s)
    ++ rows (λ i x, field_entry p i x.1 x.2) 0 (zip (accFields s) (pFields p))
    ++ mjoin ((λ x, [putStr (pNameOff x.2) (cfgName (fdConfig x.1))]) <$> zip (accFields s) (pFields p))
    ++ mjoin ((λ x, length_puts p x.1 x.2) <$> zip (accFields s) (pFields p))
    ++ mjoin ((λ x, data_puts (pKind p) x.1 x.2) <$> zip (accFields s) (pFields p))
    ++ [put32 (pDfDictOff p) (Z.of_nat (length (pDfTerms p))); put32 (pDfDictOff p + 4) (pDfEntriesOff p)]
    ++ rows (df_row p (docFreq s)) 0 (zip (pDfTerms p) (pDfTermOff p))
    ++ mjoin ((λ x, [putStr x.2 x.1]) <$> zip (pDfTerms p) (pDfTermOff p)).
Proof.
  unfold segment_puts. do 3 f_equiv. unfold field_puts.
  rewrite (rows_app (λ i x, field_entry p i x.1 x.2)
    (λ i x, [putStr (pNameOff x.2) (cfgName (fdConfig x.1))] ++ length_puts p x.1 x.2
              ++ data_puts (pKind p) x.1 x.2)).
  rewrite (rows_app (λ i x, [putStr (pNameOff x.2) (cfgName (fdConfig x.1))])
    (λ i x, length_puts p x.1 x.2 ++ data_puts (pKind p) x.1 x.2)).
  rewrite (rows_app (λ i x, length_puts p x.1 x.2) (λ i x, data_puts (pKind p) x.1 x.2)).
  rewrite (rows_app (df_row p (docFreq s)) (λ i x, [putStr x.2 x.1])).
  rewrite !rows_const, <-!app_assoc. done.
Qed.
