(* ===== verification/Bm25SegmentLaid.v ===== *)
(** * The plan of a segment, and the blob that holds it

    What [planSegmentV2] settles — where each section starts, that it is aligned as the
    reader demands and ends within the blob — and that the encoder's stores, laid between
    zero and the planned size, leave a blob that holds every piece of the segment. *)

From Stdlib Require Import Ascii.
From S2P Require Import Prelude Supersession Bm25Layout Bm25Read Bm25Encode Bm25Image Bm25Dicts Bm25Hash Bm25Blocks Bm25DictReads Bm25BlockReads Bm25DictWalk Bm25DictTrip Bm25Layouts.

Local Open Scope Z_scope.

(** ** Lists *)

Lemma join_singles {A B} (f : A → B → put) xs ys :
  mjoin (zip_with (λ x y, [f x y]) xs ys) = zip_with f xs ys.
Proof. revert ys. induction xs as [|x xs IH]; intros [|y ys]; [done..|]. cbn. f_equal. apply IH. Qed.

Lemma zip_with_snoc_l {A B C} (f : A → B → C) xs x ys :
  length xs = length ys → zip_with f (xs ++ [x]) ys = zip_with f xs ys.
Proof. revert ys. induction xs as [|z xs IH]; intros [|y ys] Hl; [done..|]. cbn. f_equal. apply IH. by injection Hl. Qed.

(** ** The plan *)

(** What a planned field has, in a blob of [size] bytes and [n] documents. *)
Record field_facts (kind n size : Z) (fd : fieldData) (fp : v2FieldPlan) : Prop := mkFieldFacts {
  ff_name : 0 ≤ pNameOff fp ∧ pNameOff fp + slen (cfgName (fdConfig fd)) ≤ size;
  ff_lens : 0 ≤ pDocLengthsOff fp ∧ pDocLengthsOff fp mod 4 = 0 ∧ pDocLengthsOff fp + 4 * n ≤ size;
  ff_terms : pTerms fp = sortedKeys (fdPostings fd);
  ff_dict : ∃ off e, 0 ≤ off ∧ e ≤ size ∧ planDict kind off (pTerms fp) = (pDict fp, e);
  ff_posts : Forall2 (λ o t, 0 ≤ o ∧ o mod 4 = 0 ∧ o + run_size fd t ≤ size) (pPostOff fp) (pTerms fp)
}.

(** What the plan of a segment settles. *)
Record segment_facts (kind : Z) (s : bm25Segment) (p : v2Plan) : Prop := mkSegFacts {
  sf_kind : pKind p = kind;
  sf_docs : pDocCount p = Z.of_nat (length (members s));
  sf_offsets : pMemberOffsetsOff p = 32 ∧ 36 + 4 * pDocCount p ≤ pSize p;
  sf_members : ∃ e, lay (36 + 4 * pDocCount p) (slen <$> members s) = (removelast (pMemberOff p), e) ∧
    pMemberOff p = removelast (pMemberOff p) ++ [e] ∧ 36 + 4 * pDocCount p ≤ e ∧ e < pSize p;
  sf_table : 0 ≤ pFieldTableOff p ∧ pFieldTableOff p mod 8 = 0 ∧
    pFieldTableOff p + 48 * Z.of_nat (length (accFields s)) ≤ pSize p;
  sf_fields : Forall2 (field_facts kind (pDocCount p) (pSize p)) (accFields s) (pFields p);
  sf_df : 0 ≤ pDfDictOff p ∧ pDfDictOff p mod 8 = 0 ∧ pDfDictOff p + 8 ≤ pDfEntriesOff p ∧
    pDfEntriesOff p mod 8 = 0 ∧ pDfEntriesOff p + 16 * Z.of_nat (length (pDfTerms p)) ≤ pSize p;
  sf_terms : pDfTerms p = sortedKeys (docFreq s) ∧ length (pDfTermOff p) = length (pDfTerms p)
}.

Section Segment.
Context (s : bm25Segment) (kind : Z) (mo names lens dft : list Z) (e1 e2 e3 e4 size : Z) (fps : list v2FieldPlan).

Local Abbreviation n := (Z.of_nat (length (members s))).
Local Abbreviation fto := (align e1 8).
Local Abbreviation dfd := (align e4 8).
Local Abbreviation dfe := (align (align e4 8 + 8) 8).
Local Abbreviation dfs := (sortedKeys (docFreq s)).
Local Abbreviation nf := (Z.of_nat (length (accFields s))).

Context (members_at : lay (32 + 4 * (n + 1)) (slen <$> members s) = (mo, e1)).
Context (names_at : lay (fto + 48 * nf) ((slen ∘ cfgName ∘ fdConfig) <$> accFields s) = (names, e2)).
Context (lens_at : lay_aligned e2 ((λ _, 4 * n) <$> accFields s) = (lens, e3)).
Context (dicts_at : planDicts kind e3 (zip (zip names lens) (accFields s)) = (fps, e4)).
Context (df_at : lay (dfe + 16 * Z.of_nat (length dfs)) (slen <$> dfs) = (dft, size)).
Context (small : size < 2 ^ 32).

Local Abbreviation p := (mkPlan kind n 32 (mo ++ [e1]) fto fps dfs dft dfd dfe size).

Lemma members_laid : length mo = length (members s) ∧ 32 + 4 * (n + 1) ≤ e1 ∧
  laid (32 + 4 * (n + 1)) e1 (zip_with putStr (mo ++ [e1]) (members s)).
Proof.
  pose proof (length_lay (32 + 4 * (n + 1)) (slen <$> members s)) as Hn. rewrite members_at, length_fmap in Hn.
  cbn [fst] in Hn. pose proof (laid_lay_with slen (λ o x, [putStr o x]) (32 + 4 * (n + 1)) (members s)) as Hl.
  rewrite members_at, join_singles in Hl. specialize (Hl (λ o x _, laid_one o (to_bytes x))).
  split_and!; [done|by apply laid_le in Hl|]. by rewrite zip_with_snoc_l.
Qed.

Lemma names_laid : length names = length (accFields s) ∧ fto + 48 * nf ≤ e2 ∧
  laid (fto + 48 * nf) e2 (zip_with (λ o fd, putStr o (cfgName (fdConfig fd))) names (accFields s)).
Proof.
  pose proof (length_lay (fto + 48 * nf) ((slen ∘ cfgName ∘ fdConfig) <$> accFields s)) as Hn.
  rewrite names_at, length_fmap in Hn.
  pose proof (laid_lay_with (slen ∘ cfgName ∘ fdConfig) (λ o fd, [putStr o (cfgName (fdConfig fd))])
    (fto + 48 * nf) (accFields s)) as Hl.
  rewrite names_at, join_singles in Hl. specialize (Hl (λ o x _, laid_one o (to_bytes (cfgName (fdConfig x))))).
  split_and!; [done|by apply laid_le in Hl|done].
Qed.

Definition lengths_at (docs o : Z) (fd : fieldData) : list put :=
  rows (λ d _, [put32 (o + 4 * d) (default 0 (docLengths fd !! Z.to_nat d))]) 0 (replicate (Z.to_nat docs) tt).

Lemma lens_laid : length lens = length (accFields s) ∧ e2 ≤ e3 ∧
  Forall (λ o, e2 ≤ o ∧ o mod 4 = 0) lens ∧ laid e2 e3 (mjoin (zip_with (lengths_at n) lens (accFields s))).
Proof.
  pose proof (laid_lay_aligned (λ _, 4 * n) (lengths_at n) e2 (accFields s)) as Hl. rewrite lens_at in Hl.
  destruct Hl as (? & ? & Hl).
  { intros o fd _. unfold lengths_at. replace (4 * n) with (4 * Z.of_nat (length (replicate (Z.to_nat n) tt)))
      by (rewrite length_replicate; lia).
    apply laid_rows0; [done|]. intros j x _. laid_fixed. }
  split_and!; [done|by apply laid_le in Hl|done|done].
Qed.

Local Abbreviation xs := (zip (zip names lens) (accFields s)).

Lemma zip_fields : xs.*2 = accFields s ∧ xs.*1.*1 = names ∧ xs.*1.*2 = lens.
Proof.
  destruct names_laid as [Hn _]. destruct lens_laid as [Hl _].
  rewrite snd_zip, fst_zip by (rewrite length_zip; lia). split; [done|].
  rewrite fst_zip, snd_zip by lia. done.
Qed.

Lemma dfs_laid : length dft = length dfs ∧ dfe + 16 * Z.of_nat (length dfs) ≤ size ∧
  laid (dfe + 16 * Z.of_nat (length dfs)) size (zip_with putStr dft dfs).
Proof.
  pose proof (length_lay (dfe + 16 * Z.of_nat (length dfs)) (slen <$> dfs)) as Hn. rewrite df_at, length_fmap in Hn.
  pose proof (laid_lay_with slen (λ o x, [putStr o x]) (dfe + 16 * Z.of_nat (length dfs)) dfs) as Hl.
  rewrite df_at, join_singles in Hl. specialize (Hl (λ o x _, laid_one o (to_bytes x))).
  split_and!; [done|by apply laid_le in Hl|done].
Qed.

(** The sections follow one another. *)
Lemma sections_ordered :
  36 + 4 * n ≤ e1 ∧ e1 ≤ fto ∧ fto + 48 * nf ≤ e2 ∧ e2 ≤ e3 ∧ e3 ≤ e4 ∧ e4 ≤ dfd ∧ dfd + 8 ≤ dfe ∧
  dfe + 16 * Z.of_nat (length dfs) ≤ size.
Proof.
  destruct members_laid as (_ & ? & _). destruct names_laid as (_ & ? & _). destruct lens_laid as (_ & ? & _).
  destruct dfs_laid as (_ & ? & _). pose proof (align_bounds e1 8 alignment_8).
  pose proof (align_bounds e4 8 alignment_8). pose proof (align_bounds (dfd + 8) 8 alignment_8).
  split_and!; try lia. clear -dicts_at. revert dicts_at. generalize xs, e3, e4, fps. clear.
  intros l e3 e4 fps. apply planDicts_le.
Qed.

Lemma dicts_planned :
  Forall2 (field_planned kind e3 e4) xs fps ∧
  laid e3 e4 (mjoin ((λ x, data_puts kind x.1 x.2) <$> zip (accFields s) fps)) ∧
  Forall2 (λ fd fp, same_image (writeDict kind (pDict fp) (pTerms fp) (run_pointers fd fp))
                      (dict_puts kind (pDict fp) (pTerms fp) (run_pointers fd fp)) ∧
                    Forall (within e3 e4) (writeDict kind (pDict fp) (pTerms fp) (run_pointers fd fp)))
    (accFields s) fps.
Proof.
  pose proof sections_ordered. destruct (planDicts_spec _ _ _ _ _ dicts_at) as (_ & Hp & Hl & Hs); [lia..|].
  destruct zip_fields as (Hx & _ & _). split; [done|]. rewrite <-Hx. split.
  - assert (∀ (l : list (Z * Z * fieldData)) ys, mjoin (zip_with (λ x fp, data_puts kind x.2 fp) l ys) =
      mjoin ((λ x, data_puts kind x.1 x.2) <$> zip l.*2 ys)) as He.
    { intros l ys. revert ys. induction l as [|x l IH]; intros [|y ys]; [done..|]. cbn. f_equal. apply IH. }
    by rewrite <-He.
  - by apply Forall2_fmap_l.
Qed.

Lemma fields_facts : Forall2 (field_facts kind n size) (accFields s) fps.
Proof.
  destruct dicts_planned as (Hp & _). pose proof sections_ordered as Ho.
  pose proof (Forall2_length _ _ _ Hp) as Hlen. destruct zip_fields as (Hx & Hx1 & Hx2).
  pose proof (f_equal length Hx) as Hxl. rewrite length_fmap in Hxl.
  apply Forall2_same_length_lookup. split; [congruence|]. intros i fd fp Hfd Hfp.
  destruct (lookup_lt_is_Some_2 xs i) as [[[o l] fd'] Hi]; [apply lookup_lt_Some in Hfd; lia|].
  pose proof (Forall2_lookup_lr _ _ _ _ _ _ Hp Hi Hfp) as [H1 H2 H3 (off & e & ? & ? & ?) H5].
  cbn [fst snd] in *. apply lookup_zip_with_Some in Hi as ([o' l'] & fd'' & [= <- <- <-] & Hol & Hfd').
  rewrite Hfd in Hfd'. injection Hfd' as <-.
  apply lookup_zip_with_Some in Hol as (o' & l' & [= <- <-] & Hon & Hll).
  assert (Forall (λ m, 0 ≤ m) ((slen ∘ cfgName ∘ fdConfig) <$> accFields s)) as Hnn
    by (apply Forall_fmap, Forall_forall; intros x _; apply blen_nonneg).
  pose proof (lay_spec (fto + 48 * nf) _ Hnn) as Hns. rewrite names_at in Hns. cbn [fst snd] in Hns.
  assert (Forall (λ m, 0 ≤ m) ((λ _ : fieldData, 4 * n) <$> accFields s)) as Hnl
    by (apply Forall_fmap, Forall_forall; intros x _; cbn; lia).
  pose proof (lay_aligned_spec e2 _ Hnl) as Hls. rewrite lens_at in Hls. destruct Hls as [_ Hls].
  assert (((slen ∘ cfgName ∘ fdConfig) <$> accFields s) !! i = Some (slen (cfgName (fdConfig fd)))) as Hni
    by (by rewrite list_lookup_fmap, Hfd).
  assert (((λ _ : fieldData, 4 * n) <$> accFields s) !! i = Some (4 * n)) as Hli
    by (by rewrite list_lookup_fmap, Hfd).
  pose proof (Forall2_lookup_lr _ _ _ _ _ _ Hns Hon Hni) as Hn'.
  pose proof (Forall2_lookup_lr _ _ _ _ _ _ Hls Hll Hli) as Hl'. cbn beta in Hn', Hl'.
  split; [rewrite H1; lia|rewrite H2; lia|done| |].
  - exists off, e. split_and!; [lia|lia|done].
  - eapply Forall2_impl; [exact H5|]. cbn. lia.
Qed.

Lemma plan_facts : segment_facts kind s p.
Proof.
  pose proof sections_ordered as Ho. destruct members_laid as (Hm & _). destruct dfs_laid as (Hd & _).
  pose proof (align_mod e1 8 alignment_8). pose proof (align_mod e4 8 alignment_8).
  pose proof (align_mod (dfd + 8) 8 alignment_8).
  split; cbn [pKind pDocCount pMemberOffsetsOff pMemberOff pFieldTableOff pFields pDfTerms pDfTermOff pDfDictOff
    pDfEntriesOff pSize]; [done|done|lia| |lia|apply fields_facts|lia|done].
  exists e1. rewrite removelast_last. replace (36 + 4 * n) with (32 + 4 * (n + 1)) by lia.
  split_and!; [done|done|lia|lia].
Qed.

Lemma fields_laid rest :
  laid e4 size rest →
  laid fto size (rows (λ i x, field_entry p i x.1 x.2) 0 (zip (accFields s) fps)
    ++ mjoin ((λ x, [putStr (pNameOff x.2) (cfgName (fdConfig x.1))]) <$> zip (accFields s) fps)
    ++ mjoin ((λ x, length_puts p x.1 x.2) <$> zip (accFields s) fps)
    ++ mjoin ((λ x, data_puts kind x.1 x.2) <$> zip (accFields s) fps) ++ rest).
Proof.
  intros Hrest. destruct dicts_planned as (Hp & Hdata & _). destruct names_laid as (_ & _ & Hnames).
  destruct lens_laid as (_ & _ & _ & Hlens). pose proof sections_ordered.
  pose proof (Forall2_length _ _ _ Hp) as Hlen. destruct zip_fields as (Hx & Hx1 & Hx2).
  pose proof (f_equal length Hx) as Hxl. rewrite length_fmap in Hxl.
  apply (laid_app _ (fto + 48 * nf)).
  { replace nf with (Z.of_nat (length (zip (accFields s) fps))) by (rewrite length_zip; lia).
    apply (laid_rows0 (λ i x, field_entry p i x.1 x.2)); [done|]. intros j x _. unfold field_entry. cbn [pFieldTableOff].
    unfold v2FieldEntrySize, v2FldNameOff, v2FldNameLen, v2FldBoost, v2FldB, v2FldTotalTokens, v2FldDocLengths, v2FldDict.
    laid_fixed. }
  assert (∀ (g : Z → fieldData → list put) (h : Z → fieldData → list put) l ys,
    Forall2 (field_planned kind e3 e4) l ys →
    mjoin (zip_with g l.*1.*1 l.*2) = mjoin ((λ x, g (pNameOff x.2) x.1) <$> zip l.*2 ys) ∧
    mjoin (zip_with h l.*1.*2 l.*2) = mjoin ((λ x, h (pDocLengthsOff x.2) x.1) <$> zip l.*2 ys)) as He.
  { intros g h l ys Hl. induction Hl as [|x y l ys [E1 E2 _ _ _] _ [IH1 IH2]]; [done|].
    cbn. rewrite E1, E2. split; [f_equal; exact IH1|f_equal; exact IH2]. }
  destruct (He (λ o fd, [putStr o (cfgName (fdConfig fd))]) (lengths_at n) _ _ Hp) as [He1 He2].
  rewrite Hx, Hx1, Hx2 in *. rewrite join_singles in He1. rewrite He1 in Hnames. rewrite He2 in Hlens.
  apply (laid_app _ e2); [done|]. apply (laid_app _ e3); [done|]. by apply (laid_app _ e4).
Qed.

Lemma df_laid :
  laid e4 size ([put32 dfd (Z.of_nat (length dfs)); put32 (dfd + 4) dfe]
    ++ rows (df_row p (docFreq s)) 0 (zip dfs dft) ++ mjoin ((λ x, [putStr x.2 x.1]) <$> zip dfs dft)).
Proof.
  pose proof sections_ordered. destruct dfs_laid as (Hd & _ & Hl). apply (laid_app _ dfe); [laid_fixed|].
  apply (laid_app _ (dfe + 16 * Z.of_nat (length dfs))).
  - replace (length dfs) with (length (zip dfs dft)) by (rewrite length_zip; lia).
    apply laid_rows0; [done|]. intros j x _. unfold df_row, v2DocFreqRowSize. cbn [pDfEntriesOff]. laid_fixed.
  - rewrite <-join_singles in Hl.
    assert (∀ (os : list Z) ts, mjoin (zip_with (λ o t, [putStr o t]) os ts) =
      mjoin ((λ x, [putStr x.2 x.1]) <$> zip ts os)) as He; [|by rewrite <-He].
    intros os. induction os as [|o os IH]; intros [|t ts]; [done..|]. cbn. f_equal. apply IH.
Qed.

Lemma blob_laid : laid 0 size (segment_puts s p).
Proof.
  rewrite segment_puts_split. pose proof sections_ordered. pose proof df_laid.
  destruct members_laid as (Hm & _ & Hmembers). unfold writeHeader.
  cbn [pKind pMemberOff pFields pDfTerms pDfTermOff pMemberOffsetsOff pDfDictOff pDfEntriesOff].
  apply (laid_app _ 32).
  { unfold v2HdrVersion, v2HdrDictKind, v2HdrFieldCount, v2HdrDocCount, v2HdrMemberOffsets,
      v2HdrMemberBytes, v2HdrFieldTable, v2HdrDocFreqDict, v2HdrBlobLen. laid_fixed. }
  apply (laid_app _ (32 + 4 * (n + 1))).
  { replace (n + 1) with (Z.of_nat (length (mo ++ [e1]))) by (rewrite length_app; cbn [length]; lia).
    apply laid_rows0; [done|]. intros j x _. laid_fixed. }
  apply (laid_app _ e1); [done|]. eapply laid_weaken; [by apply fields_laid|lia|lia].
Qed.

Lemma encode_same : same_image (encode_puts s p) (segment_puts s p).
Proof.
  apply segment_same. destruct dicts_planned as (_ & _ & Hs). eapply Forall2_impl; [exact Hs|]. by intros fd fp [? _].
Qed.

Lemma encode_within : Forall (within 0 size) (encode_puts s p).
Proof.
  destruct blob_laid as [_ Hw _]. destruct dicts_planned as (_ & _ & Hs). pose proof sections_ordered.
  unfold segment_puts in Hw. unfold encode_puts. rewrite writeDocFreqDict_puts. rewrite !Forall_app in *.
  destruct Hw as (? & ? & ? & Hf & ? & ?). split_and!; [done..| |done|done].
  rewrite Forall_forall in *. intros q Hq. apply elem_of_rows in Hq as (k & [fd fp] & Hk & Hq).
  rewrite writeFieldV2_puts, !elem_of_app in Hq.
  assert (∀ q', q' ∈ field_puts p (0 + Z.of_nat k) fd fp → within 0 size q') as Hff.
  { intros q' Hq'. apply Hf, elem_of_rows. by exists k, (fd, fp). }
  unfold field_puts, data_puts in Hff. setoid_rewrite elem_of_app in Hff.
  destruct Hq as [Hq|[Hq|Hq]].
  - apply Hff. rewrite !elem_of_app. tauto.
  - cbn [pFields] in Hk. apply lookup_zip_with_Some in Hk as (fd' & fp' & [= <- <-] & Hfd & Hfp).
    destruct (Forall2_lookup_lr _ _ _ _ _ _ Hs Hfd Hfp) as [_ Hin]. rewrite Forall_forall in Hin.
    destruct (Hin q Hq). split; lia.
  - apply Hff. rewrite !elem_of_app. tauto.
Qed.

End Segment.

(** ** The blob *)

(** An encoded segment holds every piece of it. *)
Lemma encode_holds s kind :
  0 ≤ kind ≤ dictHash → pSize (planSegmentV2 s kind) ≤ v2MaxBlobBytes →
  let p := planSegmentV2 s kind in
  segment_facts kind s p ∧
  ∃ b, encodeSegmentV2 s kind = Ok b ∧ blen b = pSize p ∧ holds_all b (segment_puts s p).
Proof.
  intros Hk Hsize. cbv zeta. unfold encodeSegmentV2. rewrite decide_False by lia. cbv zeta.
  rewrite decide_False by lia. revert Hsize. unfold v2MaxBlobBytes, planSegmentV2.
  change (align v2HeaderSize 4) with 32. unfold v2FieldEntrySize, v2DocFreqRowSize.
  destruct (lay (32 + _) _) as [mo e1] eqn:H1. destruct (lay (_ + 48 * _) _) as [names e2] eqn:H2.
  destruct (lay_aligned e2 _) as [lens e3] eqn:H3. destruct (planDicts kind e3 _) as [fps e4] eqn:H4.
  destruct (lay (_ + 16 * _) _) as [dft size] eqn:H5. cbn [pSize]. intros Hsize. split.
  - by eapply plan_facts; [..|lia].
  - apply stores_held; [|by eapply encode_within; [..|lia]|by eapply encode_same; [..|lia]|by eapply blob_laid; [..|lia]].
    apply laid_le with (ps := segment_puts s (mkPlan kind (Z.of_nat (length (members s))) 32 (mo ++ [e1]) (align e1 8) fps
      (sortedKeys (docFreq s)) dft (align e4 8) (align (align e4 8 + 8) 8) size)). by eapply blob_laid; [..|lia].
Qed.
