(* ===== verification/Bm25Opened.v ===== *)
(** * Opening an encoded segment

    Over the blob that the encoder leaves, [openSegmentV2] passes every one of its checks
    and returns the segment that was planned: its members, its fields with their lengths
    and dictionaries, its document frequencies. *)

From Stdlib Require Import Ascii.
From S2P Require Import Prelude Supersession Bm25Layout Bm25Read Bm25Encode Bm25Image Bm25Dicts Bm25Hash Bm25Blocks Bm25DictReads Bm25BlockReads Bm25DictWalk Bm25DictTrip Bm25Layouts Bm25SegmentLaid.

Local Open Scope Z_scope.

(** ** What fits its fields *)

Definition posting_fits (p : posting) : Prop := (0 ≤ docID p < 2 ^ 32) ∧ (0 ≤ tf p < 2 ^ 16).

(** A field of a segment of [n] documents whose values fit the layout's widths. *)
Record field_fits (kind n : Z) (fd : fieldData) : Prop := mkFieldFits {
  fit_name : slen (cfgName (fdConfig fd)) < 2 ^ 16;
  fit_boost : 0 ≤ Boost (fdConfig fd) < 2 ^ 64;
  fit_b : 0 ≤ B (fdConfig fd) < 2 ^ 64;
  fit_total : int64_range (fdTotal fd);
  fit_lengths_n : Z.of_nat (length (docLengths fd)) = n;
  fit_lengths : Forall (λ l, 0 ≤ l < 2 ^ 32) (docLengths fd);
  fit_postings : map_Forall (λ _ ps, Forall posting_fits ps) (fdPostings fd);
  fit_terms : kind = dictBlocked → map_Forall (λ t _, slen t < 2 ^ 16) (fdPostings fd)
}.

(** A segment that the encoder stores without cutting a value off. *)
Record encodable (kind : Z) (s : bm25Segment) : Prop := mkEncodable {
  enc_kind : 0 ≤ kind ≤ dictHash;
  enc_size : pSize (planSegmentV2 s kind) ≤ v2MaxBlobBytes;
  enc_fields_n : Z.of_nat (length (accFields s)) < 2 ^ 16;
  enc_fields : Forall (field_fits kind (Z.of_nat (length (members s)))) (accFields s);
  enc_df : map_Forall (λ _ v, int64_range v) (docFreq s)
}.

(** ** Generic reads *)

Lemma each_all {A} (f : Z → result readErr A) l i :
  (∀ k x, l !! k = Some x → f (i + Z.of_nat k) = Ok x) → each f (length l) i = Ok l.
Proof.
  revert i. induction l as [|x l IH]; intros i Hf; [done|]. cbn [each length].
  pose proof (Hf 0%nat x eq_refl) as H0. rewrite Z.add_0_r in H0. rewrite H0. cbn [result_bind].
  rewrite IH; [done|]. intros k y Hk. specialize (Hf (S k) y Hk).
  by replace (i + 1 + Z.of_nat k) with (i + Z.of_nat (S k)) by lia.
Qed.

Lemma openFields_all s fs e :
  (∀ i mf, fs !! i = Some mf → openField s (e + v2FieldEntrySize * Z.of_nat i) = Ok mf) →
  openFields s (length fs) e = Ok fs.
Proof.
  revert e. induction fs as [|mf fs IH]; intros e Hf; [done|]. cbn [openFields length].
  pose proof (Hf 0%nat mf eq_refl) as H0. rewrite Z.mul_0_r, Z.add_0_r in H0. rewrite H0. cbn [result_bind].
  rewrite IH; [done|]. intros k y Hk. specialize (Hf (S k) y Hk).
  by replace (e + v2FieldEntrySize + v2FieldEntrySize * Z.of_nat k) with (e + v2FieldEntrySize * Z.of_nat (S k)) by lia.
Qed.

(** A signed value comes back through its unsigned word. *)
Lemma int64_holds b off v : holds b off (le 8 v) → int64_range v → ∃ u, uint 8 b off = Ok u ∧ wrap64 u = v.
Proof.
  intros Hh Hv. exists (v mod 2 ^ 64). assert (le 8 v = le 8 (v mod 2 ^ 64)) as He.
  { unfold le. change (8 * Z.of_nat 8) with 64. by rewrite Z.mod_mod by lia. }
  rewrite He in Hh. split.
  - apply (uint_holds 8); [done|]. change (2 ^ (8 * Z.of_nat 8)) with (2 ^ 64). apply Z.mod_pos_bound. lia.
  - unfold wrap64. rewrite Z.add_mod_idemp_l by lia. by apply wrap64_id.
Qed.

(** The run of a term. *)
Definition run_of (posts : list posting) : list Z * list Z := (docID <$> posts, tf <$> posts).

Lemma postings_held (mf : mappedField) o posts :
  holds_all (fblob mf) (writePostings o posts) → o mod 4 = 0 → 0 ≤ o → Forall posting_fits posts →
  postings mf o (Z.of_nat (length posts)) = Ok (run_of posts).
Proof.
  intros Hh Hm Ho Hf. unfold postings. case_decide as H0; [by destruct posts|].
  set (n := Z.of_nat (length posts)) in *.
  assert (∀ j p, posts !! j = Some p → holds (fblob mf) (o + 4 * Z.of_nat j) (le 4 (docID p)) ∧
    holds (fblob mf) (o + 4 * n + 2 * Z.of_nat j) (le 2 (tf p))) as Hp.
  { intros j p Hj. pose proof (holds_all_rows _ _ _ _ _ Hh Hj) as Hr. cbn beta in Hr. unfold put32, put16 in Hr.
    rewrite !holds_all_cons in Hr. tauto. }
  destruct (lookup_lt_is_Some_2 posts (length posts - 1)) as [q Hq]; [lia|].
  destruct (Hp _ _ Hq) as [_ Hlast]. pose proof (holds_hi _ _ _ Hlast) as Hhi. rewrite blen_le in Hhi.
  rewrite decide_False by (rewrite Z.rem_mod_nonneg by lia; lia).
  assert (holds (fblob mf) o (mjoin (le 4 <$> (docID <$> posts)))) as Hd.
  { apply holds_words; [lia|lia|]. intros k p Hk. by apply Hp. }
  assert (holds (fblob mf) (o + 4 * n) (mjoin (le 2 <$> (tf <$> posts)))) as Ht.
  { apply holds_words; [lia|lia|]. intros k p Hk. by apply Hp. }
  unfold u32sAt, u16sAt.
  pose proof (uints_holds 4 _ _ _ ltac:(lia) Hd) as E1.
  rewrite length_fmap in E1. fold n in E1. rewrite E1.
  2:{ apply Forall_fmap. eapply Forall_impl; [exact Hf|]. by intros p [? _]. }
  cbn [result_bind]. pose proof (uints_holds 2 _ _ _ ltac:(lia) Ht) as E2.
  rewrite length_fmap in E2. fold n in E2. rewrite E2; [done|].
  apply Forall_fmap. eapply Forall_impl; [exact Hf|]. by intros p [_ ?].
Qed.

(** ** The segment of a blob *)

(** A field as it is opened. *)
Definition field_of (b : bytes) (kind : Z) (fd : fieldData) (fp : v2FieldPlan) : mappedField :=
  with_dict (mkField b (fdConfig fd) (fdTotal fd) (docLengths fd) kind 0 0 0 0 0 0 0) (pTerms fp) (pDict fp).

(** A segment as it is opened. *)
Definition segment_of (b : bytes) (kind : Z) (s : bm25Segment) (p : v2Plan) : mappedSegment :=
  mkSegment b kind (pDocCount p) (pMemberOff p) (zip_with (field_of b kind) (accFields s) (pFields p)).

Section Opened.
Context (b : bytes) (kind : Z) (s : bm25Segment) (p : v2Plan).
Context (facts : segment_facts kind s p) (fits : encodable kind s) (size : pSize p = blen b).
Context (small : blen b < 2 ^ 32) (held : holds_all b (segment_puts s p)).

Lemma field_at i fd : accFields s !! i = Some fd →
  ∃ fp, pFields p !! i = Some fp ∧ field_facts kind (pDocCount p) (blen b) fd fp ∧
    field_fits kind (pDocCount p) fd ∧ holds_all b (field_puts p (Z.of_nat i) fd fp).
Proof.
  intros Hi. pose proof (sf_fields _ _ _ facts) as Hf. rewrite size in Hf.
  destruct (Forall2_lookup_l _ _ _ _ _ Hf Hi) as (fp & Hfp & Hff). exists fp. split; [done|]. split; [done|]. split.
  - rewrite (sf_docs _ _ _ facts). pose proof (enc_fields _ _ fits) as Hfits. rewrite Forall_forall in Hfits.
    apply Hfits. by eapply list_elem_of_lookup_2.
  - pose proof held as Hh. unfold segment_puts in Hh. rewrite !holds_all_app in Hh.
    destruct Hh as (_ & _ & _ & Hrows & _). apply (holds_all_rows _ _ _ i (fd, fp)) in Hrows; [done|].
    by rewrite lookup_zip_with, Hi, Hfp.
Qed.

(** The lengths of a field's documents. *)
Lemma lengths_held fd fp :
  field_facts kind (pDocCount p) (blen b) fd fp → field_fits kind (pDocCount p) fd →
  holds_all b (length_puts p fd fp) → u32sAt b (pDocLengthsOff fp) (pDocCount p) = Ok (docLengths fd).
Proof.
  intros Hff Hfit Hh. destruct (ff_lens _ _ _ _ _ Hff) as (Hlo & _ & Hhi).
  pose proof (fit_lengths_n _ _ _ Hfit) as Hn. unfold u32sAt. rewrite <-Hn.
  pose proof (fit_lengths _ _ _ Hfit) as Hl. apply (uints_holds 4); [lia| |done].
  rewrite <-(list_fmap_id (docLengths fd)) at 1. apply holds_words; [done|lia|]. intros k x Hk.
  unfold length_puts in Hh. apply (holds_all_rows _ _ _ k tt) in Hh.
  - unfold put32 in Hh. rewrite Nat2Z.id, Hk in Hh. rewrite holds_all_cons in Hh. tauto.
  - apply lookup_replicate. split; [done|]. apply lookup_lt_Some in Hk. lia.
Qed.

(** The number of terms of a planned dictionary. *)
Lemma terms_few fd fp :
  field_facts kind (pDocCount p) (blen b) fd fp → Z.of_nat (length (pTerms fp)) < 2 ^ 31.
Proof. intros Hff. destruct (ff_dict _ _ _ _ _ Hff) as (off & e & ? & ? & Hd%planDict_size). lia. Qed.

(** The dictionary starts within the blob. *)
Lemma dict_off_held k d terms ptrs c :
  holds_all c (dict_puts k d terms ptrs) → 0 ≤ dOff d ∧ dOff d + 4 ≤ blen c.
Proof.
  intros Hh. assert (∃ v, (dOff d, le 4 v) ∈ dict_puts k d terms ptrs) as [v Hin].
  { unfold dict_puts, writeBlockedDict, hash_puts, writeFlatDict. repeat case_decide; eexists; by left. }
  destruct (Hh _ Hin) as [Hlo Hhi _]. cbn [fst snd] in Hlo, Hhi. rewrite blen_le in Hhi. lia.
Qed.

Lemma openField_held sg i fd fp :
  blob sg = b → docCount sg = pDocCount p → dictKind sg = kind → 0 ≤ pDocCount p →
  field_facts kind (pDocCount p) (blen b) fd fp → field_fits kind (pDocCount p) fd →
  holds_all b (field_puts p i fd fp) →
  openField sg (pFieldTableOff p + v2FieldEntrySize * i) = Ok (field_of b kind fd fp).
Proof.
  intros Hb Hd Hk Hn Hff Hfit Hh. unfold field_puts in Hh. rewrite !holds_all_app in Hh.
  destruct Hh as (Hentry & Hname & Hlens & Hdata). unfold field_entry in Hentry. cbv zeta in Hentry.
  set (e := pFieldTableOff p + v2FieldEntrySize * i) in *.
  pose proof (ff_name _ _ _ _ _ Hff) as [Hn1 Hn2]. pose proof (ff_lens _ _ _ _ _ Hff) as (Hl1 & Hl2 & Hl3).
  pose proof (blen_nonneg (to_bytes (cfgName (fdConfig fd)))) as Hnn. fold (slen (cfgName (fdConfig fd))) in Hnn.
  pose proof (fit_name _ _ _ Hfit). pose proof (fit_boost _ _ _ Hfit). pose proof (fit_b _ _ _ Hfit).
  unfold put32, put16, put64 in Hentry. unfold openField. rewrite Hb, Hd, Hk.
  rewrite (holds_all_in _ _ _ (pNameOff fp) 4 Hentry) by (in_puts || lia). cbn [result_bind].
  rewrite (holds_all_in _ _ _ (slen (cfgName (fdConfig fd))) 2 Hentry) by (in_puts || lia). cbn [result_bind].
  rewrite checkSection_pass by (rewrite ?Z.mod_1_r; lia). cbn [result_bind].
  rewrite (holds_all_in _ _ _ (pDocLengthsOff fp) 4 Hentry) by (in_puts || lia). cbn [result_bind].
  rewrite checkSection_pass by lia. cbn [result_bind].
  assert (holds b (pNameOff fp) (to_bytes (cfgName (fdConfig fd)))) as Hnm by (apply (Hname (putStr _ _)), list_elem_of_here).
  unfold slen at 1. rewrite (sub_holds _ _ _ Hnm). cbn [result_bind].
  rewrite (holds_all_in _ _ _ (Boost (fdConfig fd)) 8 Hentry) by (in_puts || lia). cbn [result_bind].
  rewrite (holds_all_in _ _ _ (B (fdConfig fd)) 8 Hentry) by (in_puts || lia). cbn [result_bind].
  destruct (int64_holds b (e + v2FldTotalTokens) (fdTotal fd)) as (u & Hu & Hw);
    [apply (Hentry (_, _)); in_puts|apply (fit_total _ _ _ Hfit)|].
  rewrite Hu. cbn [result_bind]. rewrite (lengths_held fd fp) by done. cbn [result_bind].
  unfold data_puts in Hdata. rewrite holds_all_app, (sf_kind _ _ _ facts) in Hdata. destruct Hdata as [Hdict _].
  pose proof (dict_off_held _ _ _ _ _ Hdict).
  rewrite (holds_all_in _ _ _ (dOff (pDict fp)) 4 Hentry) by (in_puts || lia). cbn [result_bind].
  rewrite of_to_bytes, Hw. destruct (ff_dict _ _ _ _ _ Hff) as (off & e' & Ho & He & Hplan).
  unfold field_of. replace (mkConfig (cfgName (fdConfig fd)) (Boost (fdConfig fd)) (B (fdConfig fd)))
    with (fdConfig fd) by (by destruct (fdConfig fd)).
  eapply openDict_held; [exact Hplan| |by eapply terms_few|done|done|done|exact Hdict|done|done|..].
  - apply run_pointers_n. by apply (Forall2_length _ _ _ (ff_posts _ _ _ _ _ Hff)).
  - apply (enc_kind _ _ fits).
  - apply (enc_kind _ _ fits).
Qed.

Lemma header_held off v w :
  (off, le w v) ∈ writeHeader p (Z.of_nat (length (accFields s))) → 0 ≤ v < 2 ^ (8 * Z.of_nat w) →
  uint w b off = Ok v.
Proof.
  intros Hin Hv. pose proof held as Hh. unfold segment_puts in Hh. rewrite holds_all_app in Hh.
  destruct Hh as [Hh _]. by eapply holds_all_in.
Qed.

Lemma offsets_held : u32sAt b 32 (pDocCount p + 1) = Ok (pMemberOff p) ∧
  Z.of_nat (length (pMemberOff p)) = pDocCount p + 1.
Proof.
  destruct (sf_members _ _ _ facts) as (e & Hlay & Happ & Hlo & Hhi). destruct (sf_offsets _ _ _ facts) as [Hmo Hsz].
  pose proof (sf_docs _ _ _ facts) as Hd. pose proof (length_lay (36 + 4 * pDocCount p) (slen <$> members s)) as Hlen.
  rewrite Hlay, length_fmap in Hlen. cbn [fst] in Hlen.
  assert (Z.of_nat (length (pMemberOff p)) = pDocCount p + 1) as Hn.
  { rewrite Happ, length_app. cbn [length]. lia. }
  split; [|done]. unfold u32sAt. rewrite <-Hn. apply (uints_holds 4); [lia| |].
  - rewrite <-(list_fmap_id (pMemberOff p)). apply holds_words; [lia|lia|]. intros k x Hk.
    pose proof held as Hh. unfold segment_puts in Hh. rewrite !holds_all_app in Hh. destruct Hh as (_ & Hrows & _).
    apply (holds_all_rows _ _ _ k x) in Hrows; [|done]. unfold put32 in Hrows. rewrite holds_all_cons, Hmo in Hrows. tauto.
  - rewrite Happ. apply Forall_app. split; [|constructor; [change (2 ^ (8 * Z.of_nat 4)) with (2 ^ 32); lia|done]].
    pose proof (lay_spec (36 + 4 * pDocCount p) _ (slens_nonneg (members s))) as Hs. rewrite Hlay in Hs. cbn [fst snd] in Hs.
    apply Forall_forall. intros o (i & Ho)%list_elem_of_lookup.
    destruct (Forall2_lookup_l _ _ _ _ _ Hs Ho) as (l & Hl & Hb1 & Hb2).
    pose proof (slens_nonneg (members s)) as Hnn. rewrite Forall_forall in Hnn.
    pose proof (Hnn l (list_elem_of_lookup_2 _ _ _ Hl)) as Hl0. cbn beta in Hl0.
    change (2 ^ (8 * Z.of_nat 4)) with (2 ^ 32). lia.
Qed.

Lemma open_held : openSegmentV2 b = Ok (segment_of b kind s p).
Proof.
  destruct (sf_offsets _ _ _ facts) as [Hmo Hsz]. destruct (sf_table _ _ _ facts) as (Ht1 & Ht2 & Ht3).
  destruct (sf_df _ _ _ facts) as (Hd1 & Hd2 & Hd3 & Hd4 & Hd5). pose proof (sf_docs _ _ _ facts) as Hdc.
  pose proof (enc_kind _ _ fits) as Hk. unfold dictHash in Hk. pose proof (enc_fields_n _ _ fits) as Hfn.
  destruct (sf_terms _ _ _ facts) as [Hdt Hdtn]. rewrite size in *. unfold openSegmentV2.
  pose proof (sf_kind _ _ _ facts) as Hkind.
  rewrite decide_False by (unfold v2HeaderSize; lia).
  rewrite (header_held v2HdrVersion serialVersion 1) by (unfold writeHeader, put16, put32; in_puts || done). cbn [result_bind].
  rewrite decide_False by (intros Hne; by apply Hne).
  rewrite (header_held v2HdrBlobLen (pSize p) 4) by (unfold writeHeader, put16, put32; in_puts || lia). cbn [result_bind].
  rewrite size, decide_False by (intros Hne; by apply Hne).
  rewrite (header_held v2HdrDictKind (pKind p) 1) by (unfold writeHeader, put16, put32; in_puts || lia). cbn [result_bind].
  rewrite Hkind.
  rewrite (header_held v2HdrDocCount (pDocCount p) 4) by (unfold writeHeader, put16, put32; in_puts || lia). cbn [result_bind].
  rewrite decide_False by (unfold dictHash; lia).
  rewrite (header_held v2HdrFieldCount (Z.of_nat (length (accFields s))) 2) by (unfold writeHeader, put16, put32; in_puts || lia). cbn [result_bind].
  rewrite (header_held v2HdrMemberOffsets (pMemberOffsetsOff p) 4) by (unfold writeHeader, put16, put32; in_puts || lia). cbn [result_bind].
  rewrite (header_held v2HdrFieldTable (pFieldTableOff p) 4) by (unfold writeHeader, put16, put32; in_puts || lia). cbn [result_bind].
  rewrite Hmo, checkSection_pass by (done || lia). cbn [result_bind].
  destruct offsets_held as [Hoff Hoffn]. rewrite Hoff. cbn [result_bind].
  unfold v2FieldEntrySize at 1. rewrite checkSection_pass by (done || lia). cbn [result_bind].
  cbv zeta. unfold openDocFreqDict. cbn [blob].
  rewrite (header_held v2HdrDocFreqDict (pDfDictOff p) 4) by (unfold writeHeader, put16, put32; in_puts || lia). cbn [result_bind].
  rewrite checkSection_pass by (done || lia). cbn [result_bind].
  pose proof held as Hh. unfold segment_puts in Hh. rewrite !holds_all_app in Hh. destruct Hh as (_ & _ & _ & _ & Hdf & _).
  unfold put32 in Hdf. rewrite (holds_all_in _ _ _ (Z.of_nat (length (pDfTerms p))) 4 Hdf) by (in_puts || lia). cbn [result_bind].
  rewrite (holds_all_in _ _ _ (pDfEntriesOff p) 4 Hdf) by (in_puts || lia). cbn [result_bind].
  unfold v2DocFreqRowSize. rewrite checkSection_pass by (done || lia). cbn [result_bind]. rewrite Nat2Z.id.
  set (fs := zip_with (field_of b kind) (accFields s) (pFields p)).
  assert (length (accFields s) = length fs) as ->.
  { unfold fs. rewrite length_zip_with. pose proof (Forall2_length _ _ _ (sf_fields _ _ _ facts)). lia. }
  rewrite openFields_all with (fs := fs); [done|]. intros i mf Hi. unfold fs in Hi.
  apply lookup_zip_with_Some in Hi as (fd & fp & -> & Hfd & Hfp). destruct (field_at i fd Hfd) as (fp' & Hfp' & Hff & Hfit & Hput).
  rewrite Hfp in Hfp'. injection Hfp' as <-. apply openField_held; [done..|lia|done|done|done].
Qed.


End Opened.
