(* ===== verification/Bm25RoundTrip.v ===== *)
(** * Encoding a bm25 segment and opening it again ([encodeSegmentV2], [openSegmentV2])

    An opened segment [represents] an accumulated one: the same members, document
    frequencies, lengths and posting runs, in the order and under the lookups the searcher
    uses, whatever the dictionary kind.  The blob of every segment whose values fit the
    layout's widths represents it, and [ValidateSegment] accepts that blob. *)

From Stdlib Require Import Ascii.
From S2P Require Import Prelude Supersession Bm25Layout Bm25Read Bm25Encode Bm25Image Bm25Dicts Bm25Hash Bm25Blocks Bm25DictReads Bm25BlockReads Bm25DictWalk Bm25DictTrip Bm25Layouts Bm25SegmentLaid Bm25Opened.

Local Open Scope Z_scope.

(** ** What an opened segment promises *)

(** The entries of a map in the order of the keys. *)
Definition lists {V} (m : gmap string V) (l : list (string * V)) : Prop :=
  StronglySorted str_lt l.*1 ∧ list_to_map l = m.

Record field_represents (fd : fieldData) (mf : mappedField) : Prop := mkFieldRep {
  frep_config : config mf = fdConfig fd;
  frep_total : totalTokens mf = fdTotal fd;
  frep_lengths : lengths mf = docLengths fd;
  frep_lookup : ∀ t, lookup mf t = Ok (run_of <$> fdPostings fd !! t);
  frep_walk : ∃ l, eachTerm mf = Ok l ∧ lists (run_of <$> fdPostings fd) l
}.

Record represents (s : bm25Segment) (seg : mappedSegment) : Prop := mkRep {
  rep_ids : IDs seg = Ok (members s);
  rep_df : ∀ t, segmentDocFreq seg t = Ok (default 0 (docFreq s !! t));
  rep_dfs : ∃ l, docFreqEach seg = Ok l ∧ lists (docFreq s) l;
  rep_fields : Forall2 field_represents (accFields s) (fields seg)
}.

(** ** Sorted keys *)

Lemma elem_of_sortedKeys {V} (m : gmap string V) t : t ∈ sortedKeys m ↔ is_Some (m !! t).
Proof. unfold sortedKeys. by rewrite elem_of_sort_strings, elem_of_elements, elem_of_dom. Qed.

Lemma sortedKeys_sorted {V} (m : gmap string V) : StronglySorted str_lt (sortedKeys m).
Proof.
  assert (NoDup (sortedKeys m)) as Hn.
  { unfold sortedKeys. rewrite sort_strings_perm. apply NoDup_elements. }
  pose proof (sort_strings_sorted (elements (dom m))) as Hs. fold (sortedKeys m) in Hs.
  revert Hn. induction Hs as [|x l Hl IH Hx]; intros Hn; constructor; inv Hn; [by apply IH|].
  rewrite Forall_forall in *. intros y Hy. apply str_lt_not_le. intros Hyx.
  pose proof (Hx y Hy). assert (x = y) as -> by (by apply (anti_symm String.le)). done.
Qed.

Lemma lists_keys {V W} (m : gmap string V) (f : string → W) (g : V → W) :
  (∀ t v, m !! t = Some v → f t = g v) → lists (g <$> m) ((λ t, (t, f t)) <$> sortedKeys m).
Proof.
  intros Hf. split.
  - rewrite <-list_fmap_compose. change (fst ∘ (λ t, (t, f t))) with (id (A := string)). rewrite list_fmap_id.
    apply sortedKeys_sorted.
  - apply map_eq. intros t. rewrite lookup_fmap.
    assert (NoDup ((λ t, (t, f t)) <$> sortedKeys m).*1) as Hn.
    { rewrite <-list_fmap_compose. change (fst ∘ (λ t, (t, f t))) with (id (A := string)). rewrite list_fmap_id.
      unfold sortedKeys. rewrite sort_strings_perm. apply NoDup_elements. }
    destruct (m !! t) as [v|] eqn:Ht; cbn.
    + apply elem_of_list_to_map_1; [done|]. apply list_elem_of_fmap. exists t. rewrite (Hf _ _ Ht).
      split; [done|]. apply elem_of_sortedKeys. by eexists.
    + apply not_elem_of_list_to_map_1. rewrite <-list_fmap_compose.
      change (fst ∘ (λ t, (t, f t))) with (id (A := string)). rewrite list_fmap_id, elem_of_sortedKeys, Ht.
      by intros [? ?].
Qed.

(** Two ways to list one table. *)
Lemma zip_fmap_keys {W} (f : string → W) ts : zip ts (f <$> ts) = (λ t, (t, f t)) <$> ts.
Proof. induction ts as [|t ts IH]; [done|]. cbn. by rewrite IH. Qed.

(** ** Members and document frequencies *)

Lemma lay_next off lens offs e k o n :
  lay off lens = (offs, e) → (offs ++ [e]) !! k = Some o → lens !! k = Some n → (offs ++ [e]) !! S k = Some (o + n).
Proof.
  revert off offs k. induction lens as [|m lens IH]; intros off offs k; [done|]. cbn [lay].
  destruct (lay (off + m) lens) as [os e'] eqn:Hl. intros [= <- <-] Ho Hn. destruct k as [|k].
  - cbn in Ho, Hn. injection Ho as ->. injection Hn as ->. cbn.
    destruct lens as [|m' lens]; cbn [lay] in Hl; [by injection Hl as <- <-|].
    destruct (lay (o + n + m') lens). by injection Hl as <- <-.
  - cbn in Ho, Hn. by apply (IH _ _ _ Hl Ho Hn).
Qed.

Section Reads.
Context (b : bytes) (kind : Z) (s : bm25Segment) (p : v2Plan).
Context (facts : segment_facts kind s p) (fits : encodable kind s) (size : pSize p = blen b).
Context (small : blen b < 2 ^ 32) (held : holds_all b (segment_puts s p)).

Local Abbreviation seg := (segment_of b kind s p).

Lemma member_held k id : members s !! k = Some id → member seg (Z.of_nat k) = Ok id.
Proof.
  intros Hk. destruct (sf_members _ _ _ facts) as (e & Hlay & Happ & Hlo & Hhi). rewrite size in Hhi.
  assert ((slen <$> members s) !! k = Some (slen id)) as Hlen by (by rewrite list_lookup_fmap, Hk).
  pose proof (length_lay (36 + 4 * pDocCount p) (slen <$> members s)) as Hn. rewrite Hlay, length_fmap in Hn. cbn [fst] in Hn.
  destruct (lookup_lt_is_Some_2 (removelast (pMemberOff p)) k) as [o Ho]; [apply lookup_lt_Some in Hk; lia|].
  assert (pMemberOff p !! k = Some o) as Ho' by (rewrite Happ; by apply lookup_app_l_Some).
  pose proof Ho' as Hnext. rewrite Happ in Hnext. apply (lay_next _ _ _ _ _ _ (slen id) Hlay) in Hnext; [|done].
  rewrite <-Happ in Hnext.
  pose proof (lay_spec (36 + 4 * pDocCount p) _ (slens_nonneg (members s))) as Hsp. rewrite Hlay in Hsp. cbn [fst snd] in Hsp.
  pose proof (Forall2_lookup_lr _ _ _ _ _ _ Hsp Ho Hlen) as [Hb1 Hb2].
  pose proof (blen_nonneg (to_bytes id)) as Hnn. fold (slen id) in Hnn.
  unfold member, offset_at. cbn [memberOffsets segment_of blob]. rewrite decide_False by lia. rewrite Nat2Z.id, Ho'. cbn [result_bind].
  rewrite decide_False by lia. replace (Z.to_nat (Z.of_nat k + 1)) with (S k) by lia. rewrite Hnext. cbn [result_bind].
  rewrite decide_False by lia. replace (o + slen id - o) with (slen id) by lia. unfold slen.
  rewrite view_holds; [by rewrite <-(of_to_bytes id) at 2| |lia].
  pose proof held as Hh. unfold segment_puts in Hh. rewrite !holds_all_app in Hh. destruct Hh as (_ & _ & Hm & _).
  apply (Hm (putStr o id)). apply list_elem_of_lookup. exists k. by rewrite lookup_zip_with, Ho', Hk.
Qed.

Lemma ids_held : IDs seg = Ok (members s).
Proof.
  unfold IDs. cbn [docCount segment_of]. rewrite (sf_docs _ _ _ facts), Nat2Z.id.
  apply each_all. intros k x Hk. by apply member_held.
Qed.

Local Abbreviation df t := (default 0 (docFreq s !! t)).

Lemma docFreqHeader_held : docFreqHeader seg = Ok (Z.of_nat (length (pDfTerms p)), pDfEntriesOff p).
Proof.
  destruct (sf_df _ _ _ facts) as (Hd1 & Hd2 & Hd3 & Hd4 & Hd5). rewrite size in Hd5. unfold docFreqHeader. cbn [blob segment_of].
  rewrite (header_held b s p held v2HdrDocFreqDict (pDfDictOff p) 4) by (unfold writeHeader, put16, put32; in_puts || lia).
  cbn [result_bind].
  pose proof held as Hh. unfold segment_puts in Hh. rewrite !holds_all_app in Hh. destruct Hh as (_ & _ & _ & _ & Hdf & _).
  unfold put32 in Hdf. rewrite (holds_all_in _ _ _ (Z.of_nat (length (pDfTerms p))) 4 Hdf) by (in_puts || lia). cbn [result_bind].
  rewrite (holds_all_in _ _ _ (pDfEntriesOff p) 4 Hdf) by (in_puts || lia). done.
Qed.

Lemma docFreqRow_held k t : pDfTerms p !! k = Some t → docFreqRow seg (pDfEntriesOff p) (Z.of_nat k) = Ok (t, df t).
Proof.
  intros Hk. destruct (sf_terms _ _ _ facts) as [Hdt Hdn].
  destruct (lookup_lt_is_Some_2 (pDfTermOff p) k) as [o Ho]; [apply lookup_lt_Some in Hk; lia|].
  pose proof held as Hh. unfold segment_puts in Hh. rewrite !holds_all_app in Hh. destruct Hh as (_ & _ & _ & _ & _ & Hrows).
  apply (holds_all_rows _ _ _ k (t, o)) in Hrows; [|by rewrite lookup_zip_with, Hk, Ho]. cbn [fst snd] in Hrows.
  unfold putStr in Hrows. rewrite holds_all_app, holds_all_cons in Hrows. destruct Hrows as (Hrow & Ht & _). unfold df_row in Hrow. cbn [fst snd] in Hrow.
  destruct (held_fits b o t small Ht) as [Hof Hlf]. pose proof (holds_hi _ _ _ Ht) as Hhi. fold (slen t) in Hhi.
  unfold put32, put64 in Hrow. unfold docFreqRow. cbn [blob segment_of].
  rewrite (holds_all_in _ _ _ o 4 Hrow) by (in_puts || lia). cbn [result_bind].
  rewrite (holds_all_in _ _ _ (slen t) 4 Hrow) by (in_puts || lia). cbn [result_bind].
  destruct (int64_holds b (pDfEntriesOff p + v2DocFreqRowSize * Z.of_nat k + 8) (df t)) as (u & Hu & Hw).
  - apply (Hrow (_, _)). in_puts.
  - assert (t ∈ pDfTerms p) as Hin by (by eapply list_elem_of_lookup_2). rewrite Hdt, elem_of_sortedKeys in Hin.
    destruct Hin as [v Hv]. rewrite Hv. apply (enc_df _ _ fits _ _ Hv).
  - rewrite Hu. cbn [result_bind]. rewrite decide_False by lia. rewrite termView_held by done. cbn [result_bind]. by rewrite Hw.
Qed.

Lemma docFreqEach_held : docFreqEach seg = Ok ((λ t, (t, df t)) <$> sortedKeys (docFreq s)).
Proof.
  destruct (sf_terms _ _ _ facts) as [Hdt Hdn]. unfold docFreqEach. rewrite docFreqHeader_held. cbn [result_bind fst snd].
  rewrite Nat2Z.id, <-Hdt, <-(length_fmap (λ t, (t, df t)) (pDfTerms p)). apply each_all. intros k x Hk.
  rewrite list_lookup_fmap in Hk. destruct (pDfTerms p !! k) as [t|] eqn:Ht; [|done]. injection Hk as <-.
  by apply docFreqRow_held.
Qed.

Lemma df_table_sorted : sorted_table ((λ t, (t, df t)) <$> sortedKeys (docFreq s)).
Proof.
  unfold sorted_table. rewrite <-list_fmap_compose. change (fst ∘ (λ t, (t, df t))) with (id (A := string)).
  rewrite list_fmap_id. apply sortedKeys_sorted.
Qed.

Lemma segmentDocFreq_held t : segmentDocFreq seg t = Ok (df t).
Proof.
  set (rows_ := (λ t, (t, df t)) <$> sortedKeys (docFreq s)). destruct (sf_terms _ _ _ facts) as [Hdt Hdn].
  unfold segmentDocFreq. rewrite docFreqHeader_held. cbn [result_bind].
  assert (length (pDfTerms p) = length rows_) as -> by (unfold rows_; by rewrite length_fmap, Hdt).
  match goal with |- context [bisect ?q _ _ _] => destruct (bisect_rows rows_ t q) as (r & Hr & Hf) end;
    [apply df_table_sorted| |].
  - intros i u v Hi. unfold rows_ in Hi. rewrite list_lookup_fmap, <-Hdt in Hi.
    destruct (pDfTerms p !! i) as [u'|] eqn:Hu; [|done]. injection Hi as -> <-. by rewrite (docFreqRow_held _ _ Hu).
  - rewrite Hr. cbn [result_bind]. pose proof (lists_keys (docFreq s) (λ t, df t) id) as [_ Hl].
    { intros u v Hu. by rewrite Hu. }
    rewrite map_fmap_id in Hl. unfold find_term in Hf. fold rows_ in Hl. rewrite Hl in Hf. rewrite Hf. by destruct r.
Qed.

(** ** Fields *)

Section Field.
Context (i : Z) (fd : fieldData) (fp : v2FieldPlan).
Context (ff : field_facts kind (pDocCount p) (blen b) fd fp) (fit : field_fits kind (pDocCount p) fd).
Context (fheld : holds_all b (field_puts p i fd fp)).

Local Abbreviation mf := (field_of b kind fd fp).
Local Abbreviation tab := (zip (pTerms fp) (run_pointers fd fp)).

Lemma pointers_n : length (run_pointers fd fp) = length (pTerms fp).
Proof. apply run_pointers_n. by apply (Forall2_length _ _ _ (ff_posts _ _ _ _ _ ff)). Qed.

Lemma field_sorted : sorted_table tab.
Proof.
  unfold sorted_table. rewrite fst_zip by (pose proof pointers_n; lia). rewrite (ff_terms _ _ _ _ _ ff). apply sortedKeys_sorted.
Qed.

(** A term of the table: its run, its pointer, and what lies there. *)
Lemma field_row k t q : tab !! k = Some (t, q) →
  ∃ ps, fdPostings fd !! t = Some ps ∧ pTerms fp !! k = Some t ∧ q.2 = Z.of_nat (length ps) ∧
    0 ≤ q.1 < 2 ^ 32 ∧ 0 ≤ q.2 < 2 ^ 32 ∧ postings mf q.1 q.2 = Ok (run_of ps).
Proof.
  intros Hk. apply lookup_zip_with_Some in Hk as (t' & q' & [= <- <-] & Ht & Hq).
  apply lookup_zip_with_Some in Hq as (o & c & -> & Ho & Hc). rewrite list_lookup_fmap, Ht in Hc. injection Hc as <-.
  assert (t ∈ pTerms fp) as Hin by (by eapply list_elem_of_lookup_2).
  rewrite (ff_terms _ _ _ _ _ ff), elem_of_sortedKeys in Hin. destruct Hin as [ps Hps].
  pose proof (Forall2_lookup_lr _ _ _ _ _ _ (ff_posts _ _ _ _ _ ff) Ho Ht) as (H1 & H2 & H3).
  unfold run_size, postingsOf in *. rewrite Hps in *. cbn [default from_option id fst snd] in *.
  exists ps. split_and!; [done..|lia|lia|lia|lia|]. apply postings_held; [|done|done|by apply (fit_postings _ _ _ fit _ _ Hps)].
  assert (fblob mf = b) as -> by (unfold field_of, with_dict; by case_decide).
  pose proof fheld as Hh. unfold field_puts, data_puts in Hh. rewrite !holds_all_app in Hh. destruct Hh as (_ & _ & _ & _ & Hruns).
  intros x Hx. apply Hruns. apply list_elem_of_join. exists (writePostings o (postingsOf fd t)). split.
  - unfold postingsOf. by rewrite Hps.
  - apply list_elem_of_lookup. exists k. by rewrite lookup_zip_with, Ht, Ho.
Qed.

Lemma field_pointers : pointers_fit tab.
Proof.
  apply Forall_forall. intros [t q] [k Hk]%list_elem_of_lookup. by destruct (field_row _ _ _ Hk) as (ps & _ & _ & _ & ? & ? & _).
Qed.

Lemma field_terms : kind = dictBlocked → terms_fit tab.
Proof.
  intros Hk. apply Forall_forall. intros [t q] [j Hj]%list_elem_of_lookup. destruct (field_row _ _ _ Hj) as (ps & Hps & _).
  by apply (fit_terms _ _ _ fit Hk _ _ Hps).
Qed.

Lemma field_dict_held : holds_all b (dict_puts kind (pDict fp) (pTerms fp) (run_pointers fd fp)).
Proof.
  pose proof fheld as Hh. unfold field_puts, data_puts in Hh. rewrite !holds_all_app, (sf_kind _ _ _ facts) in Hh. tauto.
Qed.

Lemma find_term_row t : find_term tab t = None ∧ fdPostings fd !! t = None ∨
  ∃ k q, tab !! k = Some (t, q) ∧ find_term tab t = Some q.
Proof.
  destruct (find_term tab t) as [q|] eqn:Hf.
  - right. pose proof Hf as Hin. unfold find_term in Hin.
    apply elem_of_list_to_map_2, list_elem_of_lookup in Hin as [k Hk]. by exists k, q.
  - left. split; [done|]. apply eq_None_not_Some. intros Hs. apply elem_of_sortedKeys in Hs.
    rewrite <-(ff_terms _ _ _ _ _ ff) in Hs. apply list_elem_of_lookup in Hs as [k Hk].
    destruct (lookup_lt_is_Some_2 (run_pointers fd fp) k) as [q Hq].
    { apply lookup_lt_Some in Hk. pose proof pointers_n. lia. }
    assert (tab !! k = Some (t, q)) as Hr by (by rewrite lookup_zip_with, Hk, Hq).
    rewrite (find_term_at _ _ _ _ field_sorted Hr) in Hf. done.
Qed.

Lemma field_lookup t : lookup mf t = Ok (run_of <$> fdPostings fd !! t).
Proof.
  destruct (ff_dict _ _ _ _ _ ff) as (off & e & Ho & He & Hplan). unfold lookup.
  assert (termCount mf = Z.of_nat (length (pTerms fp))) as -> by (unfold field_of, with_dict; by case_decide).
  case_decide as H0.
  - destruct (find_term_row t) as [[_ ->]|(k & q & Hk & _)]; [done|]. apply lookup_lt_Some in Hk. rewrite length_zip in Hk. lia.
  - unfold field_of. erewrite dict_lookup with (b := b) (k := kind);
      [|exact Hplan|apply pointers_n|eapply terms_few; [exact small|exact ff]|exact small|apply field_dict_held|done|done|apply field_sorted|
        apply field_pointers|apply field_terms|apply (enc_kind _ _ fits)].
    cbn [result_bind]. destruct (find_term_row t) as [[-> ->]|(k & q & Hk & ->)]; [done|].
    destruct (field_row _ _ _ Hk) as (ps & -> & _ & _ & _ & _ & Hp). destruct q as [o c]. cbn [fst snd] in Hp.
    unfold field_of in Hp. rewrite Hp. done.
Qed.

Lemma field_walk : eachTerm mf = Ok ((λ t, (t, run_of (postingsOf fd t))) <$> sortedKeys (fdPostings fd)).
Proof.
  destruct (ff_dict _ _ _ _ _ ff) as (off & e & Ho & He & Hplan).
  rewrite <-zip_fmap_keys, <-(ff_terms _ _ _ _ _ ff). unfold field_of. eapply dict_walk with (b := b) (k := kind);
      [exact Hplan|apply pointers_n|done|apply field_dict_held|done|done|
        apply field_pointers|apply field_terms|apply (enc_kind _ _ fits)|by rewrite length_fmap|].
  intros k t q r Hk Hr. destruct (field_row _ _ _ Hk) as (ps & Hps & Ht & _ & _ & _ & Hp).
  rewrite list_lookup_fmap, Ht in Hr. injection Hr as <-. unfold postingsOf. by rewrite Hps.
Qed.

Lemma field_held : field_represents fd mf.
Proof.
  split; [unfold field_of, with_dict; by case_decide..|apply field_lookup|].
  eexists. split; [apply field_walk|]. apply lists_keys. intros t ps Hps. unfold postingsOf. by rewrite Hps.
Qed.
End Field.

Lemma segment_held : represents s seg.
Proof.
  split; [apply ids_held|apply segmentDocFreq_held| |].
  - eexists. split; [apply docFreqEach_held|]. rewrite <-(map_fmap_id (docFreq s)) at 1. apply lists_keys.
    intros t v Hv. by rewrite Hv.
  - cbn [fields segment_of]. pose proof (Forall2_length _ _ _ (sf_fields _ _ _ facts)) as Hn.
    apply Forall2_same_length_lookup. split; [rewrite length_zip_with; lia|]. intros i fd mf Hfd Hmf.
    apply lookup_zip_with_Some in Hmf as (fd' & fp & -> & Hfd' & Hfp). rewrite Hfd in Hfd'. injection Hfd' as <-.
    destruct (field_at _ _ _ _ facts fits size held i fd Hfd) as (fp' & Hfp' & Hff & Hfit & Hput).
    rewrite Hfp in Hfp'. injection Hfp' as <-. by eapply field_held.
Qed.
End Reads.

(** A segment that represents something validates. *)
Lemma represents_validates b s seg : openSegmentV2 b = Ok seg → represents s seg → ValidateSegment b = Ok tt.
Proof.
  intros Ho [Hids _ (l & Hdf & _) Hf]. unfold ValidateSegment. rewrite Ho. cbn [result_bind].
  assert (each_field (fields seg) = Ok tt) as ->.
  { clear -Hf. induction Hf as [|fd mf fds mfs [_ _ _ _ (l & Hl & _)] _ IH]; [done|]. cbn. by rewrite Hl. }
  cbn [result_bind]. rewrite Hids. cbn [result_bind]. by rewrite Hdf.
Qed.

(** A segment that fits comes back through its blob. *)
Theorem encodable_roundtrip (kind : Z) (s : bm25Segment) (H : encodable kind s) :
  ∃ b seg, encodeSegmentV2 s kind = Ok b ∧ openSegmentV2 b = Ok seg ∧ represents s seg ∧
    ValidateSegment b = Ok tt.
Proof.
  destruct (encode_holds s kind (enc_kind _ _ H) (enc_size _ _ H)) as (facts & b & Hb & Hl & Hh).
  pose proof (enc_size _ _ H) as Hs. unfold v2MaxBlobBytes in Hs.
  exists b, (segment_of b kind s (planSegmentV2 s kind)).
  assert (openSegmentV2 b = Ok (segment_of b kind s (planSegmentV2 s kind))) as Ho by (apply open_held; [done..|lia|done]).
  assert (represents s (segment_of b kind s (planSegmentV2 s kind))) as Hr by (apply segment_held; [done..|lia|done]).
  split_and!; [done..|]. by eapply represents_validates.
Qed.
