(* ===== verification/Bm25Build.v ===== *)
(** * What a build accumulates ([formats/bm25/build.go])

    The accumulator of [buildSegment] is the inverted index of its documents: the run of a
    term lists the documents that have it, in their order, with their frequencies. *)

From Stdlib Require Import Ascii.
From S2P Require Import Prelude Supersession Bm25Layout Bm25Read Bm25Encode.

Local Open Scope Z_scope.

(** ** The index of some documents *)

Abbreviation tokens := (gmap string (gmap string Z)).

(** The documents that are indexed: those with tokens. *)
Definition indexed (docs : list docFieldTokens) : list (string * tokens) :=
  omap (λ r, pair (dftId r) <$> dftFields r) docs.

Definition tokens_in (cfg : FieldConfig) (toks : tokens) : gmap string Z := default ∅ (toks !! cfgName cfg).

Definition token_count (toks : gmap string Z) : Z := map_fold (λ _ freq n, n + freq) 0 toks.

(** The postings of a term: one for each document that has it. *)
Definition run_spec (cfg : FieldConfig) (ds : list tokens) (t : string) : list posting :=
  mjoin (imap (λ d toks, match tokens_in cfg toks !! t with
                         | Some freq => [mkPosting (Z.of_nat d) (clampTF freq)]
                         | None => []
                         end) ds).

Definition has_term (t : string) (toks : tokens) : Prop :=
  Exists (λ cfg, is_Some (tokens_in cfg toks !! t)) defaultFieldConfigs.

#[export] Instance has_term_dec t toks : Decision (has_term t toks).
Proof. unfold has_term. apply _. Defined.

Definition df_spec (ds : list tokens) (t : string) : Z := Z.of_nat (length (filter (has_term t) ds)).

Definition nonempty {A} (l : list A) : option (list A) := match l with [] => None | _ => Some l end.

Lemma nonempty_Some {A} (l l' : list A) : nonempty l = Some l' → l' = l.
Proof. by destruct l; intros [= <-]. Qed.

Record field_built (ds : list tokens) (cfg : FieldConfig) (fd : fieldData) : Prop := mkFieldBuilt {
  fb_config : fdConfig fd = cfg;
  fb_lengths : docLengths fd = (token_count ∘ tokens_in cfg) <$> ds;
  fb_total : fdTotal fd = foldr Z.add 0 (docLengths fd);
  fb_postings : ∀ t, fdPostings fd !! t = nonempty (run_spec cfg ds t)
}.

Record built (ds : list (string * tokens)) (s : bm25Segment) : Prop := mkBuilt {
  bt_members : members s = ds.*1;
  bt_fields : Forall2 (field_built ds.*2) defaultFieldConfigs (accFields s);
  bt_df : ∀ t, docFreq s !! t = if decide (df_spec ds.*2 t = 0) then None else Some (df_spec ds.*2 t)
}.

(** ** One document more *)

Lemma run_spec_snoc cfg ds toks t :
  run_spec cfg (ds ++ [toks]) t =
    run_spec cfg ds t ++ match tokens_in cfg toks !! t with
                         | Some freq => [mkPosting (Z.of_nat (length ds)) (clampTF freq)]
                         | None => []
                         end.
Proof.
  unfold run_spec. rewrite imap_app, join_app. cbn [imap mjoin list_join]. by rewrite app_nil_r, Nat.add_0_r.
Qed.

Lemma df_spec_snoc ds toks t :
  df_spec (ds ++ [toks]) t = df_spec ds t + (if decide (has_term t toks) then 1 else 0).
Proof.
  unfold df_spec. rewrite filter_app, length_app. cbn [filter list_filter].
  case_decide; cbn [length]; lia.
Qed.

Lemma add_postings_lookup d (toks : gmap string Z) m t :
  map_fold (λ term freq m, add_posting (mkPosting d (clampTF freq)) m term) m toks !! t =
    match toks !! t with
    | Some freq => Some (default [] (m !! t) ++ [mkPosting d (clampTF freq)])
    | None => m !! t
    end.
Proof.
  revert t. apply (map_fold_weak_ind (λ acc (toks : gmap string Z), ∀ t, acc !! t =
    match toks !! t with
    | Some freq => Some (default [] (m !! t) ++ [mkPosting d (clampTF freq)])
    | None => m !! t
    end)); [done|]. intros u freq toks' acc Hu IH t. unfold add_posting.
  destruct (decide (u = t)) as [->|Hne].
  - rewrite !lookup_insert_eq. rewrite IH, Hu. done.
  - by rewrite !lookup_insert_ne.
Qed.

Lemma count_terms_lookup (X : gset string) (m : gmap string Z) t :
  let acc := set_fold (λ t m, <[t := default 0 (m !! t) + 1]> m) m X in
  (t ∈ X → acc !! t = Some (default 0 (m !! t) + 1)) ∧ (t ∉ X → acc !! t = m !! t).
Proof.
  cbv zeta. revert t. apply (set_fold_ind_L (λ (acc : gmap string Z) X, ∀ t,
    (t ∈ X → acc !! t = Some (default 0 (m !! t) + 1)) ∧ (t ∉ X → acc !! t = m !! t))).
  - set_solver.
  - intros u X' acc Hu IH t. destruct (decide (u = t)) as [->|Hne].
    + rewrite lookup_insert_eq, (proj2 (IH t) Hu). set_solver.
    + rewrite lookup_insert_ne by done. specialize (IH t). set_solver.
Qed.

Lemma field_built_snoc ds cfg fd toks :
  field_built ds cfg fd →
  field_built (ds ++ [toks]) cfg (addToField (Z.of_nat (length ds)) (toks !! cfgName (fdConfig fd)) fd).
Proof.
  intros [Hc Hl Ht Hp]. split; cbn; [done| | |].
  - by rewrite Hl, fmap_app, Hc.
  - rewrite Ht, foldr_app. cbn. rewrite Z.add_0_r. generalize (docLengths fd). intros l.
    generalize (map_fold (λ _ freq n, n + freq) 0 (default ∅ (toks !! cfgName (fdConfig fd)))). intros z.
    induction l as [|x l IH]; cbn; [lia|]. rewrite <-IH. lia.
  - intros t. rewrite add_postings_lookup, run_spec_snoc, Hp, Hc. fold (tokens_in cfg toks).
    destruct (tokens_in cfg toks !! t) as [freq|]; [|by rewrite app_nil_r].
    by destruct (run_spec cfg ds t).
Qed.

Lemma elem_of_uniqueTerms fields_ toks t :
  t ∈ uniqueTerms fields_ toks ↔ Exists (λ fd, is_Some (tokens_in (fdConfig fd) toks !! t)) fields_.
Proof.
  unfold uniqueTerms. rewrite elem_of_union_list. setoid_rewrite list_elem_of_fmap. rewrite Exists_exists. split.
  - intros (X & (fd & -> & Hfd) & Ht). exists fd. split; [done|]. by apply elem_of_dom in Ht.
  - intros (fd & Hfd & Ht). eexists. split; [by exists fd|]. by apply elem_of_dom.
Qed.

Lemma built_snoc ds s id toks :
  built ds s → built (ds ++ [(id, toks)]) (addDocument s (mkTokens id (Some toks))).
Proof.
  intros [Hm Hf Hd]. assert (length (members s) = length ds.*2) as Hn by (by rewrite Hm, !length_fmap).
  unfold addDocument. cbn [dftFields dftId]. split; cbn [members accFields docFreq].
  - by rewrite Hm, fmap_app.
  - rewrite Hn, fmap_app. apply Forall2_fmap_r. eapply Forall2_impl; [exact Hf|]. intros cfg fd Hfd.
    by apply field_built_snoc.
  - intros t. destruct (count_terms_lookup (uniqueTerms (accFields s) toks) (docFreq s) t) as [Hin Hout].
    rewrite fmap_app. cbn [fmap list_fmap snd]. rewrite df_spec_snoc.
    assert (t ∈ uniqueTerms (accFields s) toks ↔ has_term t toks) as Hiff.
    { rewrite elem_of_uniqueTerms. unfold has_term. clear -Hf. induction Hf as [|cfg fd cfgs fds [Hc _ _ _] _ IH].
      - by rewrite !Exists_nil.
      - by rewrite !Exists_cons, IH, Hc. }
    assert (0 ≤ df_spec ds.*2 t) as Hnn by (unfold df_spec; lia).
    destruct (decide (has_term t toks)) as [Hh|Hh].
    + rewrite Hin by tauto. rewrite Hd, (decide_False (P := df_spec ds.*2 t + 1 = 0)) by lia.
      case_decide as H0; cbn; [by rewrite H0|done].
    + rewrite Hout by tauto. by rewrite Hd, Z.add_0_r.
Qed.

Lemma built_build docs : built (indexed docs) (buildSegment docs).
Proof.
  unfold buildSegment, indexed. induction docs as [|r docs IH] using rev_ind.
  - split; [done| |done]. repeat constructor.
  - rewrite fold_left_app, omap_app. cbn [fold_left omap list_omap]. destruct r as [id [toks|]]; cbn.
    + by apply built_snoc.
    + by rewrite app_nil_r.
Qed.
