(* ===== verification/Bm25Merge.v ===== *)
(** * Merging bm25 segments ([formats/bm25/format.go], [merge_stream.go], [merge_cursor.go],
    [merge_emit.go])

    A merge keeps one copy of each accepted member, the last, renumbers the survivors, and
    walks the inputs' dictionaries together in term order, twice: once to count what
    survives, which fixes the prefix, and once to write it through the coalescing writer.
    Before the header is stamped a gate checks what the rows written refer to. *)

From Stdlib Require Import Ascii.
From S2P Require Import Prelude Supersession Bm25Layout Bm25Writer Bm25Read Bm25Encode.

Local Open Scope Z_scope.

(** ** Members: the last accepted copy of each ([resolveMergeLayout]) *)

Definition acceptFn : Type := option (string → bool).

Definition acceptFor (accept : list acceptFn) (i : nat) : acceptFn := mjoin (accept !! i).

Definition kept (keep : acceptFn) (id : string) : bool :=
  match keep with None => true | Some f => f id end.

(** The members of the inputs, in the order both passes visit them: input, document, id. *)
Fixpoint members_of (i : nat) (ins : list mappedSegment) :
    result readErr (list (nat * Z * string)) :=
  match ins with
  | [] => Ok []
  | ms :: ins =>
      ids <-- IDs ms ;;
      rest <-- members_of (S i) ins ;;
      Ok (imap (λ d id, (i, Z.of_nat d, id)) ids ++ rest)
  end.

Definition resolveMergeWinners (ms : list (nat * Z * string)) (accept : list acceptFn) :
    gmap string (nat * Z) :=
  fold_left (λ winner '(i, d, id),
    if kept (acceptFor accept i) id then <[id := (i, d)]> winner else winner) ms ∅.

Definition winsSlot (winner : gmap string (nat * Z)) (id : string) (i : nat) (d : Z) : bool :=
  match winner !! id with
  | None => true
  | Some w => bool_decide (w = (i, d))
  end.

(** The surviving slots, in order; a survivor's new id is its position. *)
Definition survivors (ms : list (nat * Z * string)) (accept : list acceptFn) :
    list (nat * Z * string) :=
  let winner := resolveMergeWinners ms accept in
  List.filter (λ '(i, d, id), kept (acceptFor accept i) id && winsSlot winner id i d) ms.

(** [remap[i][d]]: the new id of document [d] of input [i], or -1. *)
Definition remap : Type := list (list Z).

Definition slot_id (surv : list (nat * Z * string)) (i : nat) (d : Z) : Z :=
  match list_find (λ s, s.1 = (i, d)) surv with Some (n, _) => Z.of_nat n | None => -1 end.

Definition remap_of (surv : list (nat * Z * string)) (ins : list mappedSegment) : remap :=
  imap (λ i s, (λ d, slot_id surv i (Z.of_nat d)) <$> seq 0 (Z.to_nat (docCount s))) ins.

Definition resolveMergeLayout (ins : list mappedSegment) (accept : list acceptFn) :
    result readErr (list string * remap) :=
  ms <-- members_of 0 ins ;;
  let surv := survivors ms accept in
  Ok (snd <$> surv, remap_of surv ins).

(** ** The k-way walk ([mergeWalk]) *)

Record termCursor := mkCursor { cInput : nat; cField : nat; cIt : dictIter }.

Definition cterm (c : termCursor) : string := it_term (cIt c).

(** [cursorHeap.Less]: by term, field, input. *)
Definition cursor_less (a b : termCursor) : bool :=
  if decide (cterm a = cterm b) then
    if decide (cField a = cField b) then bool_decide (cInput a < cInput b)%nat
    else bool_decide (cField a < cField b)%nat
  else bool_decide (cterm a <s cterm b).

(** [container/heap] keeps a least cursor first.  No two cursors are of the same input and
    field, so the order is strict and only the first is ever looked at: a list kept in
    order stands for the heap's array. *)
Fixpoint push_cursor (c : termCursor) (h : list termCursor) : list termCursor :=
  match h with
  | [] => [c]
  | x :: h' => if cursor_less c x then c :: h else x :: push_cursor c h'
  end.

(** The cursors at their first terms. *)
Fixpoint open_cursors (i f : nat) (mfs : list mappedField) : result readErr (list termCursor) :=
  match mfs with
  | [] => Ok []
  | mf :: mfs =>
      it <-- next (iter mf) ;;
      rest <-- open_cursors i (S f) mfs ;;
      Ok (match it with Some it => mkCursor i f it :: rest | None => rest end)
  end.

Fixpoint all_cursors (i : nat) (ins : list mappedSegment) : result readErr (list termCursor) :=
  match ins with
  | [] => Ok []
  | ms :: ins =>
      cs <-- open_cursors i 0 (fields ms) ;;
      rest <-- all_cursors (S i) ins ;;
      Ok (cs ++ rest)
  end.

(** The surviving postings of a run, renumbered. *)
Definition remap_run (rm : list Z) (docs tfs : list Z) : list (Z * Z) :=
  omap (λ '(d, t), n ← rm !! Z.to_nat d; if decide (0 ≤ n) then Some (n, t) else None)
    (zip docs tfs).

(** [drainCursor]: the first cursor's surviving postings, and the heap with it advanced. *)
Definition drainCursor (rm : remap) (c : termCursor) (h : list termCursor) :
    result readErr (list (Z * Z) * list termCursor) :=
  let it := cIt c in
  p <-- postings (it_mf it) (it_postOff it) (it_count it) ;;
  n <-- next it ;;
  Ok (remap_run (default [] (rm !! cInput c)) (fst p) (snd p),
      match n with
      | Some it => push_cursor (mkCursor (cInput c) (cField c) it) h
      | None => h
      end).

(** The cursors at one term of one field. *)
Fixpoint drain_field (fuel : nat) (rm : remap) (t : string) (f : nat) (h : list termCursor)
    (acc : list (Z * Z)) : fueled readErr (list (Z * Z) * list termCursor) :=
  match h with
  | [] => Some (Ok (acc, []))
  | c :: h' =>
      if decide (cterm c = t ∧ cField c = f) then
        match fuel with
        | O => None
        | S fuel =>
            r <~~ Some (drainCursor rm c h') ;;
            drain_field fuel rm t f (snd r) (acc ++ fst r)
        end
      else Some (Ok (acc, h))
  end.

Inductive mergeEvent :=
| OnField (term : string) (field : nat) (run : list (Z * Z))
| OnTerm (term : string) (df : Z).

(** The fields of one term; [df] collects the documents that carry it. *)
Fixpoint drain_term (fuel : nat) (rm : remap) (t : string) (h : list termCursor) (df : list Z) :
    fueled readErr (list mergeEvent * list Z * list termCursor) :=
  match h with
  | [] => Some (Ok ([], df, []))
  | c :: h' =>
      if decide (cterm c = t) then
        match fuel with
        | O => None
        | S fuel =>
            r <~~ drain_field (S fuel) rm t (cField c) h [] ;;
            let '(run, h) := r in
            rest <~~ drain_term fuel rm t h (df ++ (fst <$> run)) ;;
            let '(evs, df, h) := rest in
            Some (Ok (if decide (run = []) then evs else OnField t (cField c) run :: evs, df, h))
        end
      else Some (Ok ([], df, h))
  end.

(** The number of distinct documents: [slices.Sort], [slices.Compact], [len]. *)
Definition distinct (l : list Z) : Z := Z.of_nat (size (list_to_set l : gset Z)).

Fixpoint walk (fuel : nat) (rm : remap) (h : list termCursor) : fueled readErr (list mergeEvent) :=
  match h with
  | [] => Some (Ok [])
  | c :: _ =>
      match fuel with
      | O => None
      | S fuel' =>
          r <~~ drain_term fuel rm (cterm c) h [] ;;
          let '(evs, df, h) := r in
          rest <~~ walk fuel' rm h ;;
          Some (Ok (evs ++ (if decide (df = []) then rest else OnTerm (cterm c) (distinct df) :: rest)))
      end
  end.

(** Every round takes a term off a dictionary. *)
Definition terms_in (ins : list mappedSegment) : nat :=
  sum_list_with (λ s, sum_list_with (λ mf, Z.to_nat (termCount mf)) (fields s)) ins.

Definition mergeWalk (ins : list mappedSegment) (rm : remap) : fueled readErr (list mergeEvent) :=
  cs <~~ Some (all_cursors 0 ins) ;;
  walk (terms_in ins) rm (foldr push_cursor [] cs).

(** ** The plan of the prefix ([planMerge]) *)

Record dictPlan := mkMergeDict {
  mTermCount : Z;
  mDictOff : Z;
  mEntriesOff : Z;
  mSlotsOff : Z;
  mSlotCount : Z;
  mFirstTermsOff : Z;
  mBlockIdxOff : Z
}.

Record mergePlan := mkMergePlan {
  mKind : Z;
  mMembers : list string;
  mMemberOffsetsOff : Z;
  mMemberOff : list Z;
  mFieldTableOff : Z;
  mNameOff : list Z;
  mDocLengthsOff : list Z;
  mDicts : list dictPlan;
  mDfDictOff : Z;
  mDfEntriesOff : Z;
  mDfCount : Z;
  prefixEnd : Z
}.

Definition block_count (n : Z) : Z := (n + blockedBlockTerms - 1) / blockedBlockTerms.

Definition planFieldDict (kind n off : Z) : dictPlan * Z :=
  let dictOff := align off 8 in
  if decide (kind = dictBlocked) then
    let firsts := dictOff + 16 in
    let idx := align (firsts + 8 * block_count n) 4 in
    (mkMergeDict n dictOff 0 0 0 firsts idx, idx + 4 * block_count n)
  else if decide (kind = dictHash) then
    let entries := dictOff + 16 in
    let slots := align (entries + v2FlatEntrySize * n) 8 in
    let slotCount := hashSlotCount n in
    (mkMergeDict n dictOff entries slots slotCount 0 0, slots + v2HashSlotSize * slotCount)
  else
    let entries := dictOff + 8 in
    (mkMergeDict n dictOff entries 0 0 0 0, entries + v2FlatEntrySize * n).

Fixpoint planFieldDicts (kind : Z) (counts : list Z) (off : Z) : list dictPlan * Z :=
  match counts with
  | [] => ([], off)
  | n :: counts =>
      let '(d, off) := planFieldDict kind n off in
      let '(ds, e) := planFieldDicts kind counts off in
      (d :: ds, e)
  end.

Definition planMerge (kind : Z) (members : list string) (counts : list Z) (dfCount : Z) : mergePlan :=
  let n := Z.of_nat (length members) in
  let moo := align v2HeaderSize 4 in
  let '(mo, e) := lay (moo + 4 * (n + 1)) (slen <$> members) in
  let memberOff := mo ++ [e] in
  let fto := align e 8 in
  let '(nameOff, e) :=
    lay (fto + v2FieldEntrySize * Z.of_nat (length defaultFieldConfigs))
      ((slen ∘ cfgName) <$> defaultFieldConfigs) in
  let '(lensOff, e) := lay_aligned e ((λ _, 4 * n) <$> defaultFieldConfigs) in
  let '(ds, e) := planFieldDicts kind counts e in
  let dfDictOff := align e 8 in
  let dfEntriesOff := align (dfDictOff + 8) 8 in
  mkMergePlan kind members moo memberOff fto nameOff lensOff ds dfDictOff dfEntriesOff dfCount
    (align (dfEntriesOff + v2DocFreqRowSize * dfCount) 8).

(** ** The prefix ([writeMergePrefix]) *)

Definition fieldSlot (name : string) : option nat :=
  fst <$> list_find (λ cfg, cfgName cfg = name) defaultFieldConfigs.

(** One field's lengths carried over: document [d] of the input to its new id. *)
Definition carry_lengths (rm : list Z) (lens : list Z) (out : list Z) : list Z :=
  fold_left (λ out '(n, dl), if decide (0 ≤ n) then <[Z.to_nat n := dl]> out else out)
    (zip rm lens) out.

Definition mergeDocLengths (nMembers : nat) (ins : list mappedSegment) (rm : remap) : list (list Z) :=
  fold_left (λ out '(ms, r),
      fold_left (λ out mf,
          match fieldSlot (cfgName (config mf)) with
          | None => out
          | Some slot => alter (carry_lengths r (lengths mf)) slot out
          end) (fields ms) out)
    (zip ins rm)
    (replicate (length defaultFieldConfigs) (replicate nMembers 0)).

Definition merge_header (p : mergePlan) : bytes :=
  le 1 serialVersion ++ le 1 (mKind p) ++ le 2 (Z.of_nat (length defaultFieldConfigs))
    ++ le 4 (Z.of_nat (length (mMembers p))) ++ le 4 (mMemberOffsetsOff p)
    ++ le 4 (default 0 (head (mMemberOff p))) ++ le 4 (mFieldTableOff p)
    ++ le 4 (mDfDictOff p) ++ le 4 0 ++ le 4 0.

Definition slot_bytes (idx : Z) (fp : Z) : bytes := le 4 fp ++ le 4 idx.

Definition writeMergeDictHeader (kind : Z) (d : dictPlan) : list put :=
  put32 (mDictOff d) (mTermCount d)
    :: (if decide (kind = dictBlocked) then
          [put32 (mDictOff d + 4) (block_count (mTermCount d));
           put32 (mDictOff d + 8) (mFirstTermsOff d); put32 (mDictOff d + 12) (mBlockIdxOff d)]
        else if decide (kind = dictHash) then
          [put32 (mDictOff d + 4) (mEntriesOff d); put32 (mDictOff d + 8) (mSlotsOff d);
           put32 (mDictOff d + 12) (mSlotCount d);
           (mSlotsOff d, mjoin (replicate (Z.to_nat (mSlotCount d)) (slot_bytes hashEmptySlot 0)))]
        else [put32 (mDictOff d + 4) (mEntriesOff d)]).

Definition writeMergeField (p : mergePlan) (i : Z)
    (x : FieldConfig * (Z * Z) * (list Z * dictPlan)) : list put :=
  let '(cfg, (nameOff, lensOff), (lens, d)) := x in
  let e := mFieldTableOff p + v2FieldEntrySize * i in
  [put32 (e + v2FldNameOff) nameOff; put16 (e + v2FldNameLen) (slen (cfgName cfg));
   put64 (e + v2FldBoost) (Boost cfg); put64 (e + v2FldB) (B cfg);
   put32 (e + v2FldDocLengths) lensOff; put32 (e + v2FldDict) (mDictOff d);
   putStr nameOff (cfgName cfg);
   (lensOff, mjoin (le 4 <$> lens));
   put64 (e + v2FldTotalTokens) (foldr Z.add 0 lens)]
    ++ writeMergeDictHeader (mKind p) d.

Definition merge_prefix (p : mergePlan) (lengths : list (list Z)) : list put :=
  [(0, merge_header p)]
    ++ rows (λ i o, [put32 (mMemberOffsetsOff p + 4 * i) o]) 0 (mMemberOff p)
    ++ zip_with putStr (mMemberOff p) (mMembers p)
    ++ rows (writeMergeField p) 0
         (zip (zip defaultFieldConfigs (zip (mNameOff p) (mDocLengthsOff p)))
              (zip lengths (mDicts p)))
    ++ [put32 (mDfDictOff p) (mDfCount p); put32 (mDfDictOff p + 4) (mDfEntriesOff p)].

(** ** Emission ([mergeEmitter]) *)

(** A reference a row makes into the blob; field -1 is the docFreq dictionary. *)
Record dictRef := mkRef { refOff : Z; refEnd : Z; refField : Z; refTerm : string }.
Record blockRef := mkBlockRef { brField : Z; brBlock : Z; brAt : Z; brSize : Z }.

(** The state of one field: rows written, and the front-coded block or the hashes. *)
Record fieldState := mkFState {
  fsNext : Z;
  fsPayload : bytes;
  fsPrev : string;
  fsInBlock : Z;
  fsHashes : list Z
}.

Record mergeEmitter (F : Type) := mkEmitter {
  ew : mergeWriter F;
  ep : mergePlan;
  efields : list fieldState;
  edfNext : Z;
  furthest : dictRef;
  misaligned : option dictRef;
  blockOutside : option blockRef;
  blockFurthest : blockRef;
  blocksNoted : Z
}.
Arguments mkEmitter {F}. Arguments ew {F}. Arguments ep {F}. Arguments efields {F}.
Arguments edfNext {F}. Arguments furthest {F}. Arguments misaligned {F}.
Arguments blockOutside {F}. Arguments blockFurthest {F}. Arguments blocksNoted {F}.

Inductive verifyErr :=
| RunMisaligned (r : dictRef)
| BlockBelowTail (b : blockRef) (floor : Z)
| BlockPastEnd (b : blockRef) (blobLen : Z)
| RowPastEnd (r : dictRef) (blobLen : Z).

Inductive mergeErr :=
| BadInput (e : readErr)
| SinkFailed (e : writeErr)
| MergedTooLarge (size : Z)
| BadReference (e : verifyErr).

Section Merge.
Context {F : Type} `{MergeSink F}.

Definition newMergeEmitter (w : mergeWriter F) (p : mergePlan) : mergeEmitter F :=
  mkEmitter w p (replicate (length defaultFieldConfigs) (mkFState 0 [] "" 0 [])) 0
    (mkRef 0 0 0 "") None None (mkBlockRef 0 0 0 0) 0.

Definition with_w (e : mergeEmitter F) (w : mergeWriter F) : mergeEmitter F :=
  mkEmitter w (ep e) (efields e) (edfNext e) (furthest e) (misaligned e) (blockOutside e)
    (blockFurthest e) (blocksNoted e).
Definition with_field (e : mergeEmitter F) (f : nat) (s : fieldState) : mergeEmitter F :=
  mkEmitter (ew e) (ep e) (<[f := s]> (efields e)) (edfNext e) (furthest e) (misaligned e)
    (blockOutside e) (blockFurthest e) (blocksNoted e).

Definition field_at (e : mergeEmitter F) (f : nat) : fieldState :=
  default (mkFState 0 [] "" 0 []) (efields e !! f).
Definition dict_at (e : mergeEmitter F) (f : nat) : dictPlan :=
  default (mkMergeDict 0 0 0 0 0 0 0) (mDicts (ep e) !! f).

Definition noteSpan (e : mergeEmitter F) (off size field : Z) (term : string) : mergeEmitter F :=
  if decide (size = 0) then e
  else if decide (refEnd (furthest e) < off + size) then
    mkEmitter (ew e) (ep e) (efields e) (edfNext e) (mkRef off (off + size) field term)
      (misaligned e) (blockOutside e) (blockFurthest e) (blocksNoted e)
  else e.

Definition noteRun (e : mergeEmitter F) (off count field : Z) (term : string) : mergeEmitter F :=
  if decide (count = 0) then e
  else
    let e := noteSpan e off (6 * count) field term in
    if decide (Z.rem off 4 ≠ 0 ∧ misaligned e = None) then
      mkEmitter (ew e) (ep e) (efields e) (edfNext e) (furthest e)
        (Some (mkRef off (off + 6 * count) field term)) (blockOutside e) (blockFurthest e)
        (blocksNoted e)
    else e.

Definition noteBlock (e : mergeEmitter F) (field block at_ size : Z) : mergeEmitter F :=
  let b := mkBlockRef field block at_ size in
  let outside :=
    if decide (at_ < prefixEnd (ep e) ∧ blockOutside e = None) then Some b else blockOutside e in
  let far :=
    if decide (brAt (blockFurthest e) + brSize (blockFurthest e) < at_ + size) then b
    else blockFurthest e in
  mkEmitter (ew e) (ep e) (efields e) (edfNext e) (furthest e) (misaligned e) outside far
    (blocksNoted e + 1).

(** Appends and patches through the emitter's writer. *)
Definition e_append (e : mergeEmitter F) (b : bytes) (alignTo : Z) : Z * mergeEmitter F :=
  let '(at_, w) := appendAligned (ew e) b alignTo in (at_, with_w e w).
Definition e_patch (e : mergeEmitter F) (ps : list put) : mergeEmitter F :=
  with_w e (fold_left (λ w '(off, b), patch w off b) ps (ew e)).

Definition run_bytes (run : list (Z * Z)) : bytes :=
  mjoin ((λ x, le 4 (fst x)) <$> run) ++ mjoin ((λ x, le 2 (snd x)) <$> run).

Definition appendPostings (e : mergeEmitter F) (run : list (Z * Z)) : Z * mergeEmitter F :=
  e_append e (run_bytes run) 4.

Definition closeBlock (e : mergeEmitter F) (f : nat) : mergeEmitter F :=
  let s := field_at e f in
  let block := (fsNext s - 1) / blockedBlockTerms in
  let '(at_, e) := e_append e (fsPayload s) 1 in
  let e := e_patch e [put32 (mBlockIdxOff (dict_at e f) + 4 * block) at_] in
  let e := noteBlock e (Z.of_nat f) block at_ (blen (fsPayload s)) in
  with_field e f (mkFState (fsNext s) (fsPayload s) (fsPrev s) 0 (fsHashes s)).

Definition appendBlocked (e : mergeEmitter F) (term : string) (f : nat) (postOff count : Z) :
    mergeEmitter F :=
  let s := field_at e f in
  let ptr := le 4 postOff ++ le 4 count in
  let '(payload, e) :=
    if decide (fsInBlock s = 0) then
      let block := fsNext s / blockedBlockTerms in
      let '(termOff, e) := e_append e (to_bytes term) 1 in
      let e := noteSpan e termOff (slen term) (Z.of_nat f) term in
      let row := mFirstTermsOff (dict_at e f) + 8 * block in
      (ptr, e_patch e [put32 row termOff; put32 (row + 4) (slen term)])
    else
      let shared := sharedPrefixLen (to_bytes (fsPrev s)) (to_bytes term) in
      (fsPayload s ++ le 2 (Z.of_nat shared) ++ le 2 (slen term - Z.of_nat shared)
         ++ drop shared (to_bytes term) ++ ptr, e) in
  let e := with_field e f (mkFState (fsNext s + 1) payload term (fsInBlock s + 1) (fsHashes s)) in
  if decide (fsInBlock s + 1 = blockedBlockTerms) then closeBlock e f else e.

(** [mergeEmitter.field] *)
Definition emit_field (e : mergeEmitter F) (term : string) (f : nat) (run : list (Z * Z)) :
    mergeEmitter F :=
  let count := Z.of_nat (length run) in
  let '(postOff, e) := appendPostings e run in
  let e := noteRun e postOff count (Z.of_nat f) term in
  if decide (mKind (ep e) = dictBlocked) then appendBlocked e term f postOff count
  else
    let '(termOff, e) := e_append e (to_bytes term) 1 in
    let e := noteSpan e termOff (slen term) (Z.of_nat f) term in
    let s := field_at e f in
    let row := mEntriesOff (dict_at e f) + v2FlatEntrySize * fsNext s in
    let e := e_patch e [put32 row termOff; put32 (row + 4) (slen term);
                        put32 (row + 8) postOff; put32 (row + 12) count] in
    let hs := if decide (mKind (ep e) = dictHash) then fsHashes s ++ [termHash (to_bytes term)]
              else fsHashes s in
    with_field e f (mkFState (fsNext s + 1) (fsPayload s) (fsPrev s) (fsInBlock s) hs).

(** [mergeEmitter.term] *)
Definition emit_term (e : mergeEmitter F) (term : string) (df : Z) : mergeEmitter F :=
  let '(termOff, e) := e_append e (to_bytes term) 1 in
  let e := noteSpan e termOff (slen term) (-1) term in
  let row := mDfEntriesOff (ep e) + v2DocFreqRowSize * edfNext e in
  let e := e_patch e [put32 row termOff; put32 (row + 4) (slen term); put64 (row + 8) df] in
  mkEmitter (ew e) (ep e) (efields e) (edfNext e + 1) (furthest e) (misaligned e)
    (blockOutside e) (blockFurthest e) (blocksNoted e).

Definition emit (e : mergeEmitter F) (ev : mergeEvent) : mergeEmitter F :=
  match ev with
  | OnField t f run => emit_field e t f run
  | OnTerm t df => emit_term e t df
  end.

(** The accelerator of one field: the table filled as the encoder fills it. *)
Definition slot_table (slotCount : Z) (hs : list Z) : bytes :=
  let placed := default [] (place_hashes (empty_table slotCount) (slotCount - 1) 0 hs) in
  mjoin (fold_left (λ t '(slot, fp, i), <[Z.to_nat slot := slot_bytes i fp]> t) placed
           (replicate (Z.to_nat slotCount) (slot_bytes hashEmptySlot 0))).

Definition field_ids : list nat := seq 0 (length defaultFieldConfigs).

Definition flushBlocks (e : mergeEmitter F) : mergeEmitter F :=
  if decide (mKind (ep e) = dictBlocked) then
    fold_left (λ e f, if decide (0 < fsInBlock (field_at e f)) then closeBlock e f else e) field_ids e
  else if decide (mKind (ep e) = dictHash) then
    fold_left (λ e f,
        let slots := mSlotCount (dict_at e f) in
        if decide (slots = 0) then e
        else e_patch e [(mSlotsOff (dict_at e f), slot_table slots (fsHashes (field_at e f)))])
      field_ids e
  else e.

Definition verifyWithin (e : mergeEmitter F) (blobLen : Z) : result verifyErr unit :=
  match misaligned e with
  | Some r => Err (RunMisaligned r)
  | None =>
      match blockOutside e with
      | Some b => Err (BlockBelowTail b (prefixEnd (ep e)))
      | None =>
          let b := blockFurthest e in
          if decide (blobLen < brAt b + brSize b) then Err (BlockPastEnd b blobLen)
          else if decide (blobLen < refEnd (furthest e)) then Err (RowPastEnd (furthest e) blobLen)
          else Ok tt
      end
  end.

(** ** [streamMergeToFile] *)

(** The counting pass: [termCount[field]++] indexes an array of the default fields. *)
Fixpoint count_events (evs : list mergeEvent) (counts : list Z) (df : Z) :
    result readErr (list Z * Z) :=
  match evs with
  | [] => Ok (counts, df)
  | OnField _ f _ :: evs =>
      match counts !! f with
      | None => Err IndexPanic
      | Some n => count_events evs (<[f := n + 1]> counts) df
      end
  | OnTerm _ _ :: evs => count_events evs counts (df + 1)
  end.

(** A raise is contained and returned; an index panic is [IndexPanic] and is not. *)
Definition read_part {A} (r : result readErr A) : result mergeErr A :=
  match r with Ok a => Ok a | Err e => Err (BadInput e) end.

(** The writes of a merge whose inputs read as [evs]: the emitter after [flushBlocks]. *)
Definition write_merge (f : F) (p : mergePlan) (lengths : list (list Z)) (evs : list mergeEvent) :
    mergeEmitter F :=
  let w := newMergeWriter f (prefixEnd p) in
  let w := fold_left (λ w '(off, b), patch w off b) (merge_prefix p lengths) w in
  flushBlocks (fold_left emit evs (newMergeEmitter w p)).

(** What follows the emission: the gate, the length stamped, the windows flushed. *)
Definition finish_merge (e : mergeEmitter F) : F * result mergeErr Z :=
  let w := ew e in
  match werr w with
  | Some err => (sink w, Err (SinkFailed err))
  | None =>
      if decide (v2MaxBlobBytes < wtail w) then (sink w, Err (MergedTooLarge (wtail w)))
      else
        match verifyWithin e (wtail w) with
        | Err v => (sink w, Err (BadReference v))
        | Ok _ =>
            let w := flushAll (patchU32 w v2HdrBlobLen (wtail w)) in
            (sink w, match werr w with Some err => Err (SinkFailed err) | None => Ok (wtail w) end)
        end
  end.

(** The layout, the plan and the events of a merge. *)
Definition merge_inputs (ins : list mappedSegment) (accept : list acceptFn) (kind : Z) :
    fueled readErr (mergePlan * list (list Z) * list mergeEvent) :=
  l <~~ Some (resolveMergeLayout ins accept) ;;
  let '(members, rm) := l in
  evs <~~ mergeWalk ins rm ;;
  c <~~ Some (count_events evs (replicate (length defaultFieldConfigs) 0) 0) ;;
  let '(counts, dfCount) := c in
  Some (Ok (planMerge kind members counts dfCount, mergeDocLengths (length members) ins rm, evs)).

Definition streamMergeToFile (f : F) (ins : list mappedSegment) (accept : list acceptFn) (kind : Z) :
    F * fueled mergeErr Z :=
  match merge_inputs ins accept kind with
  | None => (f, None)
  | Some (Err e) => (f, Some (Err (BadInput e)))
  | Some (Ok (p, lengths, evs)) =>
      let '(f, r) := finish_merge (write_merge f p lengths evs) in (f, Some r)
  end.

End Merge.
