(* ===== verification/Bm25Props.v ===== *)
(** * Properties of the bm25 format: reading damaged bytes

    What holds of every sequence of bytes that opens, what of those that validate, and two
    payloads on which the checks of the code fall short of their comments. *)

From Stdlib Require Import Ascii.
From S2P Require Import Prelude Supersession Bm25Layout Bm25Writer Bm25Read Bm25Encode Bm25Merge.

Local Open Scope Z_scope.

(** ** Samples *)

Definition one_field (id field : string) (toks : list (string * Z)) : docFieldTokens :=
  mkTokens id (Some {[ field := list_to_map toks ]}).

(** The blob of some documents, empty if it cannot be encoded. *)
Definition sample_blob (kind : Z) (docs : list docFieldTokens) : bytes :=
  match encodeSegmentV2 (buildSegment docs) kind with Ok b => b | Err _ => [] end.

Definition fruit : list docFieldTokens :=
  [one_field "doc-1" "summary" [("apple", 2); ("apply", 1); ("zebra", 1)];
   one_field "doc-2" "content" [("apple", 5); ("banana", 1)]].

(** The segment of some bytes, a broken one if they do not open. *)
Definition opened (b : bytes) : mappedSegment :=
  match openSegmentV2 b with Ok s => s | Err _ => mkSegment [] 0 0 [] [] end.

(** The bytes with a field overwritten. *)
Definition damaged (b : bytes) (off v : Z) : bytes :=
  match put_in b (put32 off v) with Ok b => b | Err _ => b end.

Definition read32 (b : bytes) (off : Z) : Z := match uint 4 b off with Ok v => v | Err _ => 0 end.

(** ** Any bytes *)

(** C21: Whatever bytes a segment file holds, opening them succeeds or refuses them, and then no
    lookup, walk or document frequency does worse than raise a corruption that names the
    segment: never an index panic of the runtime, which the engine does not contain, and
    never a read past the end of the blob.  Of the members this holds too, except of one
    that starts exactly at the blob's end. *)
Theorem reads_of_any_bytes_are_contained (b : bytes) :
  open_contained (openSegmentV2 b) ∧
  ∀ s, openSegmentV2 b = Ok s →
    (∀ mf, mf ∈ fields s → contained b (eachTerm mf) ∧ ∀ t, contained b (lookup mf t)) ∧
    contained b (docFreqEach s) ∧ (∀ t, contained b (segmentDocFreq s t)) ∧
    ∀ i, 0 ≤ i → i < docCount s → offset_at s i ≠ Ok (blen b) → contained b (member s i).
Proof.
  split; [apply openSegment_contained|]. intros s Ho. pose proof (openSegment_ok b s Ho) as Hs.
  split.
  { intros mf Hmf. pose proof (openSegment_fields b s mf Ho Hmf) as Hf.
    split; [by eapply contained_eachTerm|intros t; by eapply contained_lookup]. }
  split; [by eapply contained_docFreqEach|]. split; [intros t; by eapply contained_segmentDocFreq|].
  intros i. by apply contained_member.
Qed.

(** The first row of the docFreq dictionary put far out of the blob: it opens, and the
    walk of the rows is contained. *)
Definition bad_row_blob : bytes :=
  let b := sample_blob dictFlat fruit in damaged b (read32 b (read32 b 20 + 4)) 4294967295.

Lemma reads_of_any_bytes_are_contained_witness :
  openSegmentV2 bad_row_blob = Ok (opened bad_row_blob) ∧ contained bad_row_blob (docFreqEach (opened bad_row_blob)).
Proof.
  assert (openSegmentV2 bad_row_blob = Ok (opened bad_row_blob)) as Ho by (vm_compute; reflexivity).
  split; [exact Ho|].
  exact (proj1 (proj2 (proj2 (reads_of_any_bytes_are_contained bad_row_blob) _ Ho))).
Defined.

(** ** Validated bytes *)

Lemma each_field_ok fs u mf : each_field fs = Ok u → mf ∈ fs → ∃ l, eachTerm mf = Ok l.
Proof.
  induction fs as [|f fs IH]; intros Hf Hin; [by apply elem_of_nil in Hin|]. cbn [each_field] in Hf.
  ok_bind Hf l. apply elem_of_cons in Hin as [->|Hin]; [by exists l|by apply IH].
Qed.

Lemma docFreqRows_read b s count rows l i :
  segment_ok b s → docFreqHeader s = Ok (count, rows) → docFreqEach s = Ok l →
  0 ≤ i → i < count → reads (docFreqRow s rows i).
Proof.
  intros Hs Hh Hl Hi Hlt. unfold docFreqEach in Hl. rewrite Hh in Hl. cbn [result_bind fst snd] in Hl.
  pose proof (each_ok _ _ _ _ (Z.to_nat i) Hl) as Hr. rewrite Z2Nat.id in Hr by done. apply Hr. lia.
Qed.

Lemma segmentDocFreq_reads b s l t :
  segment_ok b s → docFreqEach s = Ok l → reads (segmentDocFreq s t).
Proof.
  intros Hs Hl. unfold segmentDocFreq. destruct (sok_docFreq _ _ Hs) as (c & r & Hh & Hc & _).
  rewrite Hh. cbn [result_bind].
  set (probe := λ mid, row <-- docFreqRow s r mid ;; _).
  destruct (bisect_reads probe (Z.to_nat c) 0 c) as (x & Hx & _); [|done|].
  - intros i Hi Hlt. destruct (docFreqRows_read b s c r l i Hs Hh Hl Hi Hlt) as [[got df] Hrow].
    unfold probe. rewrite Hrow. by eexists.
  - rewrite Hx. by eexists.
Qed.

(** C22: A segment that [ValidateSegment] accepts answers every read afterwards: its members, the
    document frequency of any term, and a lookup of any term in any field — if no
    front-coded dictionary has more blocks than its terms fill, as no writer here makes. *)
Theorem validated_segments_read (b : bytes) (s : mappedSegment) :
  ValidateSegment b = Ok tt → openSegmentV2 b = Ok s → Forall tight (fields s) →
  reads (IDs s) ∧ (∀ t, reads (segmentDocFreq s t)) ∧
  ∀ mf t, mf ∈ fields s → reads (lookup mf t).
Proof.
  intros Hv Ho Ht. unfold ValidateSegment in Hv. rewrite Ho in Hv. cbn [result_bind] in Hv.
  ok_bind Hv u. ok_bind Hv ids. ok_bind Hv l. pose proof (openSegment_ok b s Ho) as Hs.
  split; [by exists ids|]. split; [intros t; by eapply segmentDocFreq_reads|].
  intros mf t Hmf. pose proof (openSegment_fields b s mf Ho Hmf) as Hf.
  destruct (each_field_ok (fields s) u mf) as [x Hx]; [done..|].
  rewrite Forall_forall in Ht. eapply lookup_reads; [done| |by apply Ht].
  by rewrite (fok_kind _ _ _ Hf).
Qed.

Definition fruit_blob : bytes := Eval vm_compute in sample_blob dictBlocked fruit.

Lemma validated_segments_read_witness :
  ValidateSegment fruit_blob = Ok tt ∧
  ∀ t mf, mf ∈ fields (opened fruit_blob) → reads (lookup mf t).
Proof.
  split; [vm_compute; reflexivity|]. intros t mf.
  destruct (validated_segments_read fruit_blob (opened fruit_blob)) as (_ & _ & H).
  - vm_compute; reflexivity.
  - vm_compute; reflexivity.
  - apply (bool_decide_unpack _). vm_compute. exact I.
  - apply H.
Defined.

(** ** Two gaps *)

(** The dictionary of field [i] of a blob. *)
Definition dict_off (b : bytes) (i : Z) : Z :=
  read32 b (read32 b v2HdrFieldTable + v2FieldEntrySize * i + v2FldDict).

(** One block more than the terms fill. *)
Definition extra_block_blob : bytes :=
  Eval vm_compute in damaged fruit_blob (dict_off fruit_blob 1 + 4) 2.

(** [ValidateSegment] accepts a payload on which a search raises: it walks the blocks the
    terms fill, a lookup searches the first terms of all blocks the header declares. *)
Theorem validation_misses_extra_blocks :
  ValidateSegment extra_block_blob = Ok tt ∧
  ∃ mf c, fields (opened extra_block_blob) !! 1%nat = Some mf ∧
    lookup mf "apple" = Err (Raise extra_block_blob c).
Proof.
  split; [vm_compute; reflexivity|]. eexists _, _.
  split; [vm_compute; reflexivity|vm_compute; reflexivity].
Qed.

(** The only member's span is empty, and at the end. *)
Definition member_at_end_blob : bytes :=
  Eval vm_compute in
    let b := sample_blob dictBlocked [one_field "doc" "summary" [("apple", 1)]] in
    let at_ := read32 b v2HdrMemberOffsets in
    damaged (damaged b at_ (blen b)) (at_ + 4) (blen b).

(** A payload on which [ValidateSegment] does not return at all: the span of a member is
    empty and at the end of the blob, in bounds for [member]'s check, but the address of
    its first byte is an index panic, which nothing contains. *)
Theorem validation_can_panic : ValidateSegment member_at_end_blob = Err IndexPanic.
Proof. vm_compute. reflexivity. Qed.
