(* ===== verification/Bm25Index.v ===== *)
(** * A bm25 segment from its documents to its readers

    Built, encoded and opened again, a segment answers for its documents: their ids, how
    many have a term, and for each field the lengths and the runs that the documents'
    tokens say.  The values must fit the layout; the one bound that the code does not
    enforce is that on the length of a term in a front-coded dictionary. *)

From Stdlib Require Import Ascii.
From S2P Require Import Prelude Supersession Bm25Layout Bm25Read Bm25Encode Bm25Image Bm25DictReads Bm25Layouts Bm25SegmentLaid Bm25Opened Bm25RoundTrip Bm25Build Bm25Props.

Local Open Scope Z_scope.

(** ** Documents that fit *)

Record tokens_fit (kind : Z) (m : gmap string Z) : Prop := mkTokensFit {
  tfit_freq : map_Forall (λ _ freq, 0 ≤ freq) m;
  tfit_count : token_count m < 2 ^ 32;
  tfit_terms : kind = dictBlocked → map_Forall (λ t _, slen t < 2 ^ 16) m
}.

#[export] Instance tokens_fit_dec kind m : Decision (tokens_fit kind m).
Proof.
  refine (cast_if (decide (map_Forall (λ _ freq, 0 ≤ freq) m ∧ token_count m < 2 ^ 32 ∧
    (kind = dictBlocked → map_Forall (λ t _, slen t < 2 ^ 16) m)))).
  - by split; tauto.
  - intros []; tauto.
Defined.

Record index_fits (kind : Z) (docs : list docFieldTokens) : Prop := mkIndexFits {
  ifit_kind : 0 ≤ kind ≤ dictHash;
  ifit_size : pSize (planSegmentV2 (buildSegment docs) kind) ≤ v2MaxBlobBytes;
  ifit_tokens : Forall (λ toks, Forall (λ cfg, tokens_fit kind (tokens_in cfg toks)) defaultFieldConfigs)
                  (indexed docs).*2
}.

#[export] Instance index_fits_dec kind docs : Decision (index_fits kind docs).
Proof.
  refine (cast_if (decide ((0 ≤ kind ≤ dictHash) ∧ pSize (planSegmentV2 (buildSegment docs) kind) ≤ v2MaxBlobBytes ∧
    Forall (λ toks, Forall (λ cfg, tokens_fit kind (tokens_in cfg toks)) defaultFieldConfigs) (indexed docs).*2))).
  - by split; tauto.
  - intros []; tauto.
Defined.

(** ** What they are built into fits *)

Lemma token_count_nonneg (m : gmap string Z) : map_Forall (λ _ freq, 0 ≤ freq) m → 0 ≤ token_count m.
Proof.
  unfold token_count. apply (map_fold_weak_ind (λ n (m : gmap string Z), map_Forall (λ _ freq, 0 ≤ freq) m → 0 ≤ n)); [done|].
  intros t freq m' n Ht IH Hf. apply map_Forall_insert in Hf as [? Hf]; [|done]. specialize (IH Hf). lia.
Qed.

Lemma elem_of_run cfg ds t p : p ∈ run_spec cfg ds t →
  ∃ d toks freq, ds !! d = Some toks ∧ tokens_in cfg toks !! t = Some freq ∧ p = mkPosting (Z.of_nat d) (clampTF freq).
Proof.
  unfold run_spec. intros (l & Hp & Hl)%list_elem_of_join. apply list_elem_of_lookup in Hl as [d Hd].
  rewrite list_lookup_imap in Hd. destruct (ds !! d) as [toks|] eqn:Hds; [|done]. cbn in Hd. injection Hd as <-.
  exists d, toks. destruct (tokens_in cfg toks !! t) as [freq|]; [|by apply elem_of_nil in Hp].
  exists freq. apply list_elem_of_singleton in Hp. done.
Qed.

Lemma clampTF_fits freq : 0 ≤ clampTF freq < 2 ^ 16.
Proof. unfold clampTF. repeat case_decide; lia. Qed.

Lemma sum_bounds (l : list Z) M : 0 ≤ M → Forall (λ x, 0 ≤ x < M) l → 0 ≤ foldr Z.add 0 l ≤ M * Z.of_nat (length l).
Proof. intros HM. induction 1 as [|x l Hx _ IH]; cbn [foldr length]; lia. Qed.

Lemma configs_fit cfg : cfg ∈ defaultFieldConfigs →
  slen (cfgName cfg) < 2 ^ 16 ∧ (0 ≤ Boost cfg < 2 ^ 64) ∧ (0 ≤ B cfg < 2 ^ 64).
Proof.
  unfold defaultFieldConfigs. intros Hin. repeat (apply elem_of_cons in Hin as [->|Hin]; [done|]).
  by apply elem_of_nil in Hin.
Qed.

Lemma built_encodable kind docs : index_fits kind docs → encodable kind (buildSegment docs).
Proof.
  intros [Hk Hs Ht]. destruct (built_build docs) as [Hm Hf Hd]. set (s := buildSegment docs) in *.
  set (ds := indexed docs) in *. split; [done|done| | |].
  - rewrite <-(Forall2_length _ _ _ Hf). done.
  - destruct (encode_holds s kind Hk Hs) as [facts _]. pose proof (sf_docs _ _ _ facts) as Hn.
    destruct (sf_offsets _ _ _ facts) as [_ Hfit]. unfold v2MaxBlobBytes in Hs. rewrite <-Hn.
    assert (Z.of_nat (length ds.*2) = pDocCount (planSegmentV2 s kind)) as Hlen by (by rewrite Hn, Hm, !length_fmap).
    set (n := pDocCount (planSegmentV2 s kind)) in *. assert (0 ≤ n < 2 ^ 30) as Hnb by lia.
    apply Forall_forall. intros fd (i & Hi)%list_elem_of_lookup.
    destruct (Forall2_lookup_r _ _ _ _ _ Hf Hi) as (cfg & Hcfg & [Hc Hl Htot Hp]). clear Hfit.
    assert (cfg ∈ defaultFieldConfigs) as Hin by (by eapply list_elem_of_lookup_2).
    assert (Forall (λ toks, tokens_fit kind (tokens_in cfg toks)) ds.*2) as Hfits.
    { eapply Forall_impl; [exact Ht|]. intros toks Htoks. rewrite Forall_forall in Htoks. by apply Htoks. }
    assert (Forall (λ x, 0 ≤ x < 2 ^ 32) (docLengths fd)) as Hlens.
    { rewrite Hl. apply Forall_fmap. eapply Forall_impl; [exact Hfits|]. intros toks [H1 H2 _]. cbn.
      split; [by apply token_count_nonneg|done]. }
    assert (Z.of_nat (length (docLengths fd)) = n) as Hln by (by rewrite Hl, length_fmap).
    split.
    + rewrite Hc. apply configs_fit, Hin.
    + rewrite Hc. apply configs_fit, Hin.
    + rewrite Hc. apply configs_fit, Hin.
    + rewrite Htot. pose proof (sum_bounds _ (2 ^ 32) ltac:(lia) Hlens). rewrite Hln in *. unfold int64_range. lia.
    + done.
    + done.
    + intros t ps Hps. rewrite Hp in Hps. apply nonempty_Some in Hps as ->.
      apply Forall_forall. intros p (d & toks & freq & Hdd & _ & ->)%elem_of_run. apply lookup_lt_Some in Hdd.
      split; cbn; [lia|apply clampTF_fits].
    + intros Hb t ps Hps. rewrite Hp in Hps. destruct (run_spec cfg ds.*2 t) as [|p l] eqn:Hr; [done|].
      assert (p ∈ run_spec cfg ds.*2 t) as (d & toks & freq & Hdd & Hfr & _)%elem_of_run by (rewrite Hr; by left).
      rewrite Forall_forall in Hfits. destruct (Hfits toks (list_elem_of_lookup_2 _ _ _ Hdd)) as [_ _ Hterms].
      apply (Hterms Hb _ _ Hfr).
  - intros t v Hv. rewrite Hd in Hv. case_decide; [done|]. injection Hv as <-.
    destruct (encode_holds s kind Hk Hs) as [facts _]. pose proof (sf_docs _ _ _ facts) as Hn.
    destruct (sf_offsets _ _ _ facts) as [_ Hfit]. unfold v2MaxBlobBytes in Hs.
    pose proof (length_filter (has_term t) ds.*2). rewrite Hm, length_fmap in Hn. rewrite length_fmap in *.
    unfold df_spec, int64_range. lia.
Qed.

(** ** Members *)

Lemma each_at {A} (f : Z → result readErr A) n i l k x :
  each f n i = Ok l → l !! k = Some x → f (i + Z.of_nat k) = Ok x.
Proof.
  revert i l k. induction n as [|n IH]; intros i l k; cbn [each]; [by intros [= <-]|].
  intros Hl Hk. ok_bind Hl y. ok_bind Hl rest. injection Hl as <-. destruct k as [|k].
  - rewrite Z.add_0_r. cbn in Hk. congruence.
  - replace (i + Z.of_nat (S k)) with (i + 1 + Z.of_nat k) by lia. by eapply IH.
Qed.

Lemma each_length {A} (f : Z → result readErr A) n i l : each f n i = Ok l → length l = n.
Proof.
  revert i l. induction n as [|n IH]; intros i l; cbn [each]; [by intros [= <-]|].
  intros Hl. ok_bind Hl y. ok_bind Hl rest. injection Hl as <-. cbn. f_equal. by eapply IH.
Qed.

(** [ids[i]] *)
Definition id_at (ids : list string) (i : Z) : result readErr string :=
  if decide (i < 0) then Err IndexPanic
  else match ids !! Z.to_nat i with Some id => Ok id | None => Err IndexPanic end.

(** A read of a member, in range or not, is an index of the ids. *)
Lemma member_index b seg ids i :
  segment_ok b seg → IDs seg = Ok ids →
  docCount seg = Z.of_nat (length ids) ∧
  member seg i = id_at ids i.
Proof.
  intros Hs Hids. pose proof (each_length _ _ _ _ Hids) as Hl. pose proof (sok_docs _ _ Hs). split; [lia|].
  unfold id_at. case_decide as Hi; [unfold member, offset_at; by rewrite decide_True by done|].
  destruct (ids !! Z.to_nat i) as [id|] eqn:Hid.
  - pose proof (each_at _ _ _ _ _ _ Hids Hid) as Hm. by replace (0 + Z.of_nat (Z.to_nat i)) with i in Hm by lia.
  - apply lookup_ge_None in Hid. pose proof (sok_offsets _ _ Hs) as Hn. unfold member, offset_at.
    rewrite decide_False by done. destruct (memberOffsets seg !! Z.to_nat i) as [lo|] eqn:Hlo; [|done].
    apply lookup_lt_Some in Hlo. cbn [result_bind]. rewrite decide_False by lia.
    rewrite (lookup_ge_None_2 (memberOffsets seg) (Z.to_nat (i + 1))) by lia. done.
Qed.

(** ** What a reader is answered *)

Record field_answers (ds : list tokens) (cfg : FieldConfig) (mf : mappedField) : Prop := mkFieldAns {
  fans_config : config mf = cfg;
  fans_lengths : lengths mf = (token_count ∘ tokens_in cfg) <$> ds;
  fans_total : totalTokens mf = foldr Z.add 0 (lengths mf);
  fans_lookup : ∀ t, lookup mf t = Ok (run_of <$> nonempty (run_spec cfg ds t));
  fans_walk : ∃ l, eachTerm mf = Ok l ∧ StronglySorted str_lt l.*1 ∧
    ∀ t r, (t, r) ∈ l ↔ run_of <$> nonempty (run_spec cfg ds t) = Some r
}.

Record answers (ds : list (string * tokens)) (seg : mappedSegment) : Prop := mkAnswers {
  ans_ids : IDs seg = Ok ds.*1;
  ans_count : docCount seg = Z.of_nat (length ds);
  ans_member : ∀ i, member seg i = id_at ds.*1 i;
  ans_df : ∀ t, segmentDocFreq seg t = Ok (df_spec ds.*2 t);
  ans_fields : Forall2 (field_answers ds.*2) defaultFieldConfigs (fields seg)
}.

Lemma represents_answers b ds s seg :
  openSegmentV2 b = Ok seg → built ds s → represents s seg → answers ds seg.
Proof.
  intros Ho [Hm Hf Hd] [Hids Hdf _ Hfs]. rewrite Hm in Hids.
  pose proof (member_index b seg _ 0 (openSegment_ok _ _ Ho) Hids) as [Hn _]. split.
  - done.
  - by rewrite Hn, length_fmap.
  - intros i. by apply (member_index b seg _ i (openSegment_ok _ _ Ho) Hids).
  - intros t. rewrite Hdf, Hd. case_decide as H0; cbn; [by rewrite H0|done].
  - apply Forall2_same_length_lookup. split; [by rewrite (Forall2_length _ _ _ Hf), (Forall2_length _ _ _ Hfs)|].
    intros i cfg mf Hcfg Hmf. destruct (Forall2_lookup_l _ _ _ _ _ Hf Hcfg) as (fd & Hfd & [Hc Hl Ht Hp]).
    pose proof (Forall2_lookup_lr _ _ _ _ _ _ Hfs Hfd Hmf) as [Rc Rt Rl Rlk (l & Rw & Rs & Rm)].
    split; [congruence|congruence|congruence|intros t; by rewrite Rlk, Hp|].
    exists l. split_and!; [done|done|]. intros t r.
    rewrite elem_of_list_to_map by (by apply sorted_nodup). by rewrite Rm, lookup_fmap, Hp.
Qed.

(** C6: Whatever the documents, if their tokens fit the layout then for each of the three dictionary kinds
    the segment built from them encodes, the blob opens and validates, and what is opened
    answers for exactly those documents: their ids in order, for every term the number of
    documents that have it, and in every field the lengths, the run of every term —
    document numbers in order, with clamped frequencies — and a walk of the terms in order. *)
Theorem index_roundtrip (kind : Z) (docs : list docFieldTokens) (H : index_fits kind docs) :
  ∃ b seg, encodeSegmentV2 (buildSegment docs) kind = Ok b ∧ openSegmentV2 b = Ok seg ∧
    ValidateSegment b = Ok tt ∧ answers (indexed docs) seg.
Proof.
  destruct (encodable_roundtrip kind _ (built_encodable _ _ H)) as (b & seg & Hb & Ho & Hr & Hv).
  exists b, seg. split_and!; [done..|]. eapply represents_answers; [done|apply built_build|done].
Qed.

Lemma index_roundtrip_witness :
  index_fits dictBlocked fruit ∧
  ∃ b seg, encodeSegmentV2 (buildSegment fruit) dictBlocked = Ok b ∧ openSegmentV2 b = Ok seg ∧
    ValidateSegment b = Ok tt ∧ answers (indexed fruit) seg.
Proof.
  assert (index_fits dictBlocked fruit) as H by (apply (bool_decide_unpack _); vm_compute; exact I).
  split; [exact H|apply (index_roundtrip dictBlocked fruit H)].
Defined.
