(* ===== verification/Bm25Search.v ===== *)
(** * Scoring a bm25 segment ([formats/bm25/mapped_search.go], [segment.go], [stats.go],
    [field.go], [heap.go], [format.go])

    The statistics of a corpus, folded over the headers of its segments, with document
    frequencies resolved on demand and remembered; the BM25F score of a posting; and the
    two searches — over an opened segment, and over the accumulator a segment is built
    from, which the comments call the reference of the first.

    A [float64] is a [spec_float] of 53 bits, its operations those of IEEE 754, one
    rounding each: a compiler that fuses a multiplication and an addition computes other
    last bits.  [math.Log] is an argument. *)

From Stdlib Require Import Ascii Floats.SpecFloat.
From S2P Require Import Prelude TopK Supersession Bm25Layout Bm25Read Bm25Encode.

Local Open Scope Z_scope.

(** ** float64 *)

Definition f_add (a b : spec_float) : spec_float := SFadd 53 1024 a b.
Definition f_sub (a b : spec_float) : spec_float := SFsub 53 1024 a b.
Definition f_mul (a b : spec_float) : spec_float := SFmul 53 1024 a b.
Definition f_div (a b : spec_float) : spec_float := SFdiv 53 1024 a b.

(** [float64(n)] of an integer. *)
Definition f_of_int (n : Z) : spec_float := binary_normalize 53 1024 n 0 false.

Definition f_zero : spec_float := S754_zero false.
Definition f_half : spec_float := S754_finite false 4503599627370496 (-53).

(** [math.Float64frombits] *)
Definition f_of_bits (b : Z) : spec_float :=
  let s := Z.testbit b 63 in
  let e := Z.land (Z.shiftr b 52) 2047 in
  let m := Z.land b (2 ^ 52 - 1) in
  if decide (e = 2047) then (if decide (m = 0) then S754_infinity s else S754_nan)
  else
    match (if decide (e = 0) then m else 2 ^ 52 + m) with
    | Zpos p => S754_finite s p (if decide (e = 0) then -1074 else e - 1075)
    | _ => S754_zero s
    end.

(** ** Statistics of a corpus *)

(** What answers a document frequency: an accumulator or an opened segment. *)
Inductive docFreqProbe :=
| AccProbe (s : bm25Segment)
| MappedProbe (s : mappedSegment).

Definition probe_df (p : docFreqProbe) (term : string) : result readErr Z :=
  match p with
  | AccProbe s => Ok (default 0 (docFreq s !! term))
  | MappedProbe s => segmentDocFreq s term
  end.

(** The chain of probes is a list, the newest first. *)
Record CorpusStats := mkStats {
  TotalDocs : Z;
  FieldAvgLen : gmap string spec_float;
  fieldTokens : gmap string Z;
  probes : list docFreqProbe;
  memo : gmap string Z
}.

Definition newCorpusStats : CorpusStats := mkStats 0 ∅ ∅ [] ∅.

Definition attach (p : docFreqProbe) (s : CorpusStats) : CorpusStats :=
  mkStats (TotalDocs s) (FieldAvgLen s) (fieldTokens s) (p :: probes s) (memo s).

Definition add_tokens (m : gmap string Z) (mf : mappedField) : gmap string Z :=
  let name := cfgName (config mf) in <[name := wrap64 (default 0 (m !! name) + totalTokens mf)]> m.

Definition addSegmentCounts (ms : mappedSegment) (s : CorpusStats) : CorpusStats :=
  let s := mkStats (wrap64 (TotalDocs s + docCount ms)) (FieldAvgLen s) (fieldTokens s) (probes s) (memo s) in
  let s := attach (MappedProbe ms) s in
  mkStats (TotalDocs s) (FieldAvgLen s) (fold_left add_tokens (fields ms) (fieldTokens s)) (probes s) (memo s).

Definition deriveAvgLen (s : CorpusStats) : CorpusStats :=
  if decide (TotalDocs s ≤ 0) then s
  else
    mkStats (TotalDocs s)
      (((λ total, f_div (f_of_int total) (f_of_int (TotalDocs s))) <$> fieldTokens s) ∪ FieldAvgLen s)
      (fieldTokens s) (probes s) (memo s).

(** A published segment: an opened one, or one of another format, which is skipped. *)
Definition Segment : Type := option mappedSegment.

Definition count_segment (st : CorpusStats) (seg : Segment) : CorpusStats :=
  match seg with Some ms => addSegmentCounts ms st | None => st end.

Definition AggregateStats (segs : list Segment) : CorpusStats :=
  deriveAvgLen (fold_left count_segment segs newCorpusStats).

Definition AppendStats (prev : option CorpusStats) (seg : Segment) : CorpusStats :=
  let next := newCorpusStats in
  let next := match prev with
              | Some p => mkStats (TotalDocs p) (FieldAvgLen next) (fieldTokens p) (probes p) (memo next)
              | None => next
              end in
  deriveAvgLen (count_segment next seg).

(** The loop over the probes. *)
Fixpoint sum_df (ps : list docFreqProbe) (term : string) (df : Z) : result readErr Z :=
  match ps with
  | [] => Ok df
  | p :: ps => n <-- probe_df p term ;; sum_df ps term (wrap64 (df + n))
  end.

Definition docFreqOf (s : CorpusStats) (term : string) : result readErr (Z * CorpusStats) :=
  match memo s !! term with
  | Some df => Ok (df, s)
  | None =>
      df <-- sum_df (probes s) term 0 ;;
      Ok (df, mkStats (TotalDocs s) (FieldAvgLen s) (fieldTokens s) (probes s) (<[term := df]> (memo s)))
  end.

(** ** Scores *)

Definition k1 : spec_float := S754_finite false 5404319552844595 (-52).

Definition scoreField (cfg : FieldConfig) (tf docLen : Z) (idfVal k1 avgDocLen : spec_float) : spec_float :=
  let tfFloat := f_of_int tf in
  let dlRatio := if SFltb f_zero avgDocLen then f_div (f_of_int docLen) avgDocLen else f_zero in
  let b := f_of_bits (B cfg) in
  let numerator := f_mul tfFloat (f_add k1 (f_of_int 1)) in
  let denominator :=
    f_add tfFloat (f_mul k1 (f_add (f_sub (f_of_int 1) b) (f_mul b dlRatio))) in
  f_div (f_mul (f_mul (f_of_bits (Boost cfg)) idfVal) numerator) denominator.

Record Query := mkQuery { qtokens : gmap string Z }.

Definition sortedQueryTerms (q : Query) : list string := sortedKeys (qtokens q).

(** The scores by document, and the documents touched in their order. *)
Record scratch := mkScratch { scores : list spec_float; touched : list Z }.

(** The body of both loops over a run. *)
Definition accumulate_posting (cfg : FieldConfig) (docLens : list Z) (idfVal avgDocLen : spec_float)
    (st : scratch) (p : Z * Z) : scratch :=
  let '(docID, tf) := p in
  match docLens !! Z.to_nat docID, scores st !! Z.to_nat docID with
  | Some docLen, Some score =>
      mkScratch
        (<[Z.to_nat docID := f_add score (scoreField cfg tf docLen idfVal k1 avgDocLen)]> (scores st))
        (if SFeqb score f_zero then touched st ++ [docID] else touched st)
  | _, _ => st
  end.

Definition avg_of (stats : CorpusStats) (cfg : FieldConfig) : spec_float :=
  default f_zero (FieldAvgLen stats !! cfgName cfg).

Definition accumulateField (stats : CorpusStats) (term : string) (idfVal : spec_float)
    (fd : fieldData) (st : scratch) : result readErr scratch :=
  match fdPostings fd !! term with
  | None | Some [] => Ok st
  | Some entries =>
      Ok (fold_left (accumulate_posting (fdConfig fd) (docLengths fd) idfVal (avg_of stats (fdConfig fd)))
            ((λ p, (docID p, tf p)) <$> entries) st)
  end.

Definition accumulateMappedField (stats : CorpusStats) (term : string) (idfVal : spec_float)
    (mf : mappedField) (st : scratch) : result readErr scratch :=
  r <-- lookup mf term ;;
  match r with
  | None | Some ([], _) => Ok st
  | Some (docIDs, tfs) =>
      Ok (fold_left (accumulate_posting (config mf) (lengths mf) idfVal (avg_of stats (config mf)))
            (zip docIDs tfs) st)
  end.

(** ** The heap of [container/heap] over scored documents *)

Record scoredDoc := mkScored { sd_id : Z; sd_score : spec_float }.

#[export] Instance scoredDoc_scored : Scored scoredDoc := sd_score.

Definition heap_push (h : list scoredDoc) (x : scoredDoc) : list scoredDoc :=
  siftUp (S (length h)) (h ++ [x]) (length h).

(** [heap.Pop] of a heap that is not empty: the root goes to the end, what is before it is
    sifted, and the end is taken off. *)
Definition heap_pop (h : list scoredDoc) : option (scoredDoc * list scoredDoc) :=
  let n := (length h - 1)%nat in
  let h := swap h 0 n in
  x ← h !! n; Some (x, siftDown n (take n h) 0).

(** One document offered: [heap.Push] while there is room, else [heap.Fix] of the root. *)
Definition offer_doc (k : Z) (h : list scoredDoc) (x : scoredDoc) : list scoredDoc :=
  if decide (Z.of_nat (length h) < k) then heap_push h x
  else if SFltb (sc h 0) (sd_score x) then siftDown (length h) (<[0%nat := x]> h) 0
  else h.

Definition accept_fn : Type := option (string → bool).

(** Collecting the accepted documents into the heap. [member_at] is [s.members[i]] or
    [s.member(i)]. *)
Fixpoint collect (member_at : Z → result readErr string) (docs k : Z) (accept : accept_fn)
    (scores : list spec_float) (touched : list Z) (h : list scoredDoc) :
    result readErr (list scoredDoc) :=
  match touched with
  | [] => Ok h
  | docID :: touched =>
      let continue_ := collect member_at docs k accept scores touched in
      if decide (docs ≤ docID) then continue_ h
      else
        keep <-- (match accept with
                  | None => Ok true
                  | Some f => id <-- member_at docID ;; Ok (f id)
                  end) ;;
        if keep : bool then
          continue_ (offer_doc k h (mkScored docID (default S754_nan (scores !! Z.to_nat docID))))
        else continue_ h
  end.

(** The hits from the last to the first. *)
Fixpoint pop_all (member_at : Z → result readErr string) (n : nat) (h : list scoredDoc) (out : list Hit) :
    result readErr (list Hit) :=
  match n with
  | O => Ok out
  | S n =>
      match heap_pop h with
      | None => Ok out
      | Some (d, h) =>
          id <-- member_at (sd_id d) ;;
          pop_all member_at n h (mkHit id (sd_score d) :: out)
      end
  end.

Definition collectTopK (member_at : Z → result readErr string) (docs : Z) (st : scratch) (k : Z)
    (accept : accept_fn) : result readErr (list Hit) :=
  match touched st with
  | [] => Ok []
  | _ =>
      h <-- collect member_at docs k accept (scores st) (touched st) [] ;;
      pop_all member_at (length h) h []
  end.

(** ** Searches *)

Section Search.
Context (Log : spec_float → spec_float).

Definition idf (term : string) (totalDocs : Z) (stats : option CorpusStats) :
    result readErr (spec_float * option CorpusStats) :=
  let N := f_of_int totalDocs in
  match stats with
  | None => Ok (Log (f_add (f_div (f_add N f_half) f_half) (f_of_int 1)), None)
  | Some stats =>
      r <-- docFreqOf stats term ;;
      let n := f_of_int (fst r) in
      Ok (Log (f_add (f_div (f_add (f_sub N n) f_half) (f_add n f_half)) (f_of_int 1)), Some (snd r))
  end.

(** The loop over the fields of a term. *)
Fixpoint over_fields {F} (one : F → scratch → result readErr scratch) (fs : list F) (st : scratch) :
    result readErr scratch :=
  match fs with
  | [] => Ok st
  | f :: fs => st <-- one f st ;; over_fields one fs st
  end.

(** The loop over the terms of a query. *)
Fixpoint over_terms {F} (accumulate : CorpusStats → string → spec_float → F → scratch → result readErr scratch)
    (fs : list F) (totalDocs : Z) (terms : list string) (stats : CorpusStats) (st : scratch) :
    result readErr (scratch * CorpusStats) :=
  match terms with
  | [] => Ok (st, stats)
  | term :: terms =>
      r <-- idf term totalDocs (Some stats) ;;
      let '(idfVal, stats') := r in
      let stats := default stats stats' in
      if SFleb idfVal f_zero then over_terms accumulate fs totalDocs terms stats st
      else
        st <-- over_fields (accumulate stats term idfVal) fs st ;;
        over_terms accumulate fs totalDocs terms stats st
  end.

Definition search_with {F} (n : Z) (fs : list F)
    (accumulate : CorpusStats → string → spec_float → F → scratch → result readErr scratch)
    (member_at : Z → result readErr string) (q : Query) (stats : option CorpusStats) (k : Z)
    (accept : accept_fn) : result readErr (list Hit * option CorpusStats) :=
  if decide (n = 0 ∨ k ≤ 0 ∨ qtokens q = ∅) then Ok ([], stats)
  else
    match stats with
    | None => Ok ([], stats)
    | Some st =>
        let totalDocs := TotalDocs st in
        if decide (totalDocs = 0) then Ok ([], stats)
        else
          r <-- over_terms accumulate fs totalDocs (sortedQueryTerms q) st
                  (mkScratch (replicate (Z.to_nat n) f_zero) []) ;;
          hits <-- collectTopK member_at n (fst r) k accept ;;
          Ok (hits, Some (snd r))
    end.

(** [s.members[docID]] *)
Definition acc_member (s : bm25Segment) (docID : Z) : result readErr string :=
  if decide (docID < 0) then Err IndexPanic
  else match members s !! Z.to_nat docID with Some id => Ok id | None => Err IndexPanic end.

(** The accumulator's [Search]. *)
Definition AccSearch (s : bm25Segment) :=
  search_with (Z.of_nat (length (members s))) (accFields s) accumulateField (acc_member s).

(** The opened segment's [Search]. *)
Definition Search (s : mappedSegment) :=
  search_with (docCount s) (fields s) accumulateMappedField (member s).
End Search.
