(* ===== verification/Bm25Stats.v ===== *)
(** * The statistics of a corpus of bm25 segments ([formats/bm25/stats.go], [format.go])

    A remembered document frequency is the one the probes answer, so what a statistics
    object remembers cannot be observed; appending a segment is aggregating the longer
    list; and over segments that answer for their documents the statistics are those of
    the documents. *)

From Stdlib Require Import Ascii Floats.SpecFloat.
From S2P Require Import Prelude TopK Supersession Bm25Layout Bm25Read Bm25Encode Bm25Build Bm25Index Bm25Search.

Local Open Scope Z_scope.

(** ** Statistics up to what they remember *)

Record same_corpus (st1 st2 : CorpusStats) : Prop := mkSame {
  same_docs : TotalDocs st1 = TotalDocs st2;
  same_avg : FieldAvgLen st1 = FieldAvgLen st2;
  same_tokens : fieldTokens st1 = fieldTokens st2;
  same_probes : probes st1 = probes st2
}.

#[export] Instance same_corpus_equiv : Equivalence same_corpus.
Proof.
  split; [by intros st|by intros s1 s2 []|]. intros s1 s2 s3 [] []. split; congruence.
Qed.

#[export] Instance avg_of_proper : Proper (same_corpus ==> (=) ==> (=)) avg_of.
Proof. intros s1 s2 [_ Ha _ _] cfg _ <-. unfold avg_of. by rewrite Ha. Qed.

(** What is remembered is what the probes answer. *)
Definition memo_ok (st : CorpusStats) : Prop :=
  map_Forall (λ t df, sum_df (probes st) t 0 = Ok df) (memo st).

Lemma docFreqOf_spec st t df :
  memo_ok st → sum_df (probes st) t 0 = Ok df →
  ∃ st', docFreqOf st t = Ok (df, st') ∧ same_corpus st st' ∧ memo_ok st'.
Proof.
  intros Hm Hs. unfold docFreqOf. destruct (memo st !! t) as [v|] eqn:Ht.
  - assert (sum_df (probes st) t 0 = Ok v) as Hv by apply (Hm _ _ Ht). exists st. rewrite Hs in Hv. injection Hv as ->. done.
  - rewrite Hs. cbn [result_bind]. eexists. split; [done|]. split; [by split|].
    unfold memo_ok. cbn. apply map_Forall_insert_2; [done|exact Hm].
Qed.

(** What the probes answer with an error is not remembered. *)
Lemma docFreqOf_raises st t e :
  memo_ok st → sum_df (probes st) t 0 = Err e → docFreqOf st t = Err e.
Proof.
  intros Hm Hs. unfold docFreqOf. destruct (memo st !! t) as [v|] eqn:Ht; [|by rewrite Hs].
  assert (sum_df (probes st) t 0 = Ok v) by apply (Hm _ _ Ht). congruence.
Qed.

(** ** Appending *)

Lemma count_segment_fresh st seg : memo st = ∅ → FieldAvgLen st = ∅ →
  memo (count_segment st seg) = ∅ ∧ FieldAvgLen (count_segment st seg) = ∅.
Proof. by destruct seg. Qed.

Lemma counted_fresh segs st : memo st = ∅ → FieldAvgLen st = ∅ →
  memo (fold_left count_segment segs st) = ∅ ∧ FieldAvgLen (fold_left count_segment segs st) = ∅.
Proof.
  revert st. induction segs as [|seg segs IH]; intros st Hm Ha; [done|]. cbn. by apply IH; apply count_segment_fresh.
Qed.

Lemma deriveAvgLen_counts st :
  TotalDocs (deriveAvgLen st) = TotalDocs st ∧ fieldTokens (deriveAvgLen st) = fieldTokens st ∧
  probes (deriveAvgLen st) = probes st ∧ memo (deriveAvgLen st) = memo st.
Proof. unfold deriveAvgLen. by case_decide. Qed.

(** Appending a segment to the statistics of a list is aggregating the longer list, whatever
    the statistics have remembered since: the incremental publish and the whole fold give
    the same object. *)
Theorem append_is_aggregate (segs : list Segment) (seg : Segment) (prev : CorpusStats)
    (H : same_corpus prev (AggregateStats segs)) :
  AppendStats (Some prev) seg = AggregateStats (segs ++ [seg]).
Proof.
  unfold AppendStats, AggregateStats in *. rewrite fold_left_app. cbn [fold_left]. do 2 f_equal.
  set (X := fold_left count_segment segs newCorpusStats) in *.
  destruct (counted_fresh segs newCorpusStats eq_refl eq_refl) as [Hm Ha]. fold X in Hm, Ha.
  destruct (deriveAvgLen_counts X) as (H1 & H2 & H3 & _). destruct H as [E1 _ E3 E4].
  rewrite E1, E3, E4, H1, H2, H3, <-Ha, <-Hm at 1. by destruct X.
Qed.

(** ** The statistics of documents *)

Lemma wrap64_add_l a b : wrap64 (wrap64 a + b) = wrap64 (a + b).
Proof.
  unfold wrap64. f_equal. replace ((a + 2 ^ 63) mod 2 ^ 64 - 2 ^ 63 + b + 2 ^ 63) with ((a + 2 ^ 63) mod 2 ^ 64 + b) by lia.
  rewrite Z.add_mod_idemp_l by lia. f_equal. lia.
Qed.

Definition zsum (l : list Z) : Z := foldr Z.add 0 l.

Lemma zsum_app l1 l2 : zsum (l1 ++ l2) = zsum l1 + zsum l2.
Proof. unfold zsum. induction l1 as [|x l1 IH]; cbn; [done|]. rewrite IH. lia. Qed.

#[export] Instance zsum_perm : Proper ((≡ₚ) ==> (=)) zsum.
Proof. unfold zsum. induction 1; cbn; lia. Qed.

Definition tokens_total (cfg : FieldConfig) (ds : list tokens) : Z := zsum ((token_count ∘ tokens_in cfg) <$> ds).

Lemma tokens_total_app cfg ds1 ds2 : tokens_total cfg (ds1 ++ ds2) = tokens_total cfg ds1 + tokens_total cfg ds2.
Proof. unfold tokens_total. by rewrite fmap_app, zsum_app. Qed.

Lemma df_spec_app ds1 ds2 t : df_spec (ds1 ++ ds2) t = df_spec ds1 t + df_spec ds2 t.
Proof. unfold df_spec. rewrite filter_app, length_app. lia. Qed.

(** The documents of all segments, in order. *)
Abbreviation batch := (list (string * tokens)).
Definition corpus (bs : list batch) : list tokens := (concat bs).*2.

Lemma corpus_cons ds bs : corpus (ds :: bs) = ds.*2 ++ corpus bs.
Proof. unfold corpus. cbn. by rewrite fmap_app. Qed.

Definition corpus_docs (bs : list batch) : Z := wrap64 (Z.of_nat (length (corpus bs))).

Definition corpus_df (bs : list batch) (t : string) : Z := wrap64 (df_spec (corpus bs) t).

Definition corpus_avg (bs : list batch) (cfg : FieldConfig) : spec_float :=
  if decide (corpus_docs bs ≤ 0) then f_zero
  else f_div (f_of_int (wrap64 (tokens_total cfg (corpus bs)))) (f_of_int (corpus_docs bs)).

Lemma add_tokens_other mfs m name :
  (∀ mf, mf ∈ mfs → cfgName (config mf) ≠ name) → fold_left add_tokens mfs m !! name = m !! name.
Proof.
  revert m. induction mfs as [|mf mfs IH]; intros m Hn; [done|]. cbn. rewrite IH by set_solver.
  unfold add_tokens. cbv zeta. by rewrite lookup_insert_ne by set_solver.
Qed.

Lemma add_tokens_spec ds cfgs mfs m cfg :
  Forall2 (field_answers ds) cfgs mfs → NoDup (cfgName <$> cfgs) → cfg ∈ cfgs →
  fold_left add_tokens mfs m !! cfgName cfg = Some (wrap64 (default 0 (m !! cfgName cfg) + tokens_total cfg ds)).
Proof.
  intros Hf. revert m. induction Hf as [|c mf cfgs mfs [Hc Hl Ht _ _] Hf IH]; intros m Hn Hin; [by apply elem_of_nil in Hin|].
  apply NoDup_cons in Hn as [Hout Hn]. cbn. apply elem_of_cons in Hin as [->|Hin].
  - rewrite add_tokens_other.
    + unfold add_tokens. cbv zeta. rewrite Hc, lookup_insert_eq, Ht, Hl. done.
    + intros mf' Hmf'. apply list_elem_of_lookup in Hmf' as [i Hi].
      destruct (Forall2_lookup_r _ _ _ _ _ Hf Hi) as (c' & Hc' & [-> _ _ _ _]). intros He. apply Hout. rewrite <-He.
      apply list_elem_of_fmap. exists c'. split; [done|]. by eapply list_elem_of_lookup_2.
  - rewrite IH by done. unfold add_tokens. cbv zeta. rewrite lookup_insert_ne; [done|].
    rewrite Hc. intros He. apply Hout. rewrite He. by apply list_elem_of_fmap_2.
Qed.

Lemma configs_nodup : NoDup (cfgName <$> defaultFieldConfigs).
Proof. apply (bool_decide_unpack _). vm_compute. exact I. Qed.

Lemma counted_spec bs segs st n0 cfg t0 :
  Forall2 answers bs segs → TotalDocs st = wrap64 n0 → cfg ∈ defaultFieldConfigs →
  default 0 (fieldTokens st !! cfgName cfg) = wrap64 t0 →
  let st' := fold_left count_segment (Some <$> segs) st in
  TotalDocs st' = wrap64 (n0 + Z.of_nat (length (corpus bs))) ∧
  default 0 (fieldTokens st' !! cfgName cfg) = wrap64 (t0 + tokens_total cfg (corpus bs)) ∧
  (bs ≠ [] → is_Some (fieldTokens st' !! cfgName cfg)) ∧
  probes st' = reverse (MappedProbe <$> segs) ++ probes st.
Proof.
  cbv zeta. intros Ha. revert st n0 t0. induction Ha as [|ds seg bs segs [_ Hc _ _ Hf] Ha IH]; intros st n0 t0 Hn Hin Ht.
  { cbn. rewrite !Z.add_0_r. done. }
  cbn [fmap list_fmap fold_left count_segment]. pose proof (add_tokens_spec _ _ _ (fieldTokens st) cfg Hf configs_nodup Hin) as Htok.
  destruct (IH (addSegmentCounts seg st) (n0 + Z.of_nat (length ds)) (t0 + tokens_total cfg ds.*2)) as (I1 & I2 & I3 & I4).
  - cbn. by rewrite Hn, Hc, wrap64_add_l.
  - done.
  - cbn. rewrite Htok. cbn. by rewrite Ht, wrap64_add_l.
  - rewrite corpus_cons, length_app, length_fmap, tokens_total_app. split_and!.
    + rewrite I1. f_equal. lia.
    + rewrite I2. f_equal. lia.
    + intros _. destruct bs as [|ds' bs]; [|by apply I3]. apply Forall2_nil_inv_l in Ha as ->. cbn. by rewrite Htok.
    + rewrite I4. change (MappedProbe seg :: (MappedProbe <$> segs)) with ([MappedProbe seg] ++ (MappedProbe <$> segs)).
      rewrite reverse_app, <-app_assoc. done.
Qed.

Lemma sum_df_spec ns ps t a :
  Forall2 (λ n p, probe_df p t = Ok n) ns ps → sum_df ps t (wrap64 a) = Ok (wrap64 (a + zsum ns)).
Proof.
  intros Hp. revert a. induction Hp as [|n p ns ps Hn _ IH]; intros a; cbn [sum_df zsum foldr]; [by rewrite Z.add_0_r|].
  rewrite Hn. cbn [result_bind]. rewrite wrap64_add_l, IH. do 2 f_equal. unfold zsum. lia.
Qed.

Lemma df_spec_concat bs t : df_spec (corpus bs) t = zsum ((λ ds : batch, df_spec ds.*2 t) <$> bs).
Proof. induction bs as [|ds bs IH]; [done|]. rewrite corpus_cons, df_spec_app, IH. done. Qed.

(** Statistics that are those of a corpus, whatever they remember. *)
Record stats_of (bs : list batch) (st : CorpusStats) : Prop := mkStatsOf {
  so_docs : TotalDocs st = corpus_docs bs;
  so_avg : ∀ cfg, cfg ∈ defaultFieldConfigs → avg_of st cfg = corpus_avg bs cfg;
  so_df : ∀ t, sum_df (probes st) t 0 = Ok (corpus_df bs t);
  so_memo : memo_ok st
}.

Lemma stats_of_same bs st st' : stats_of bs st → same_corpus st st' → memo_ok st' → stats_of bs st'.
Proof.
  intros [Hd Ha Hf _] Hs Hm. split; [by rewrite <-(same_docs _ _ Hs)| | |done].
  - intros cfg Hin. rewrite <-Hs. by apply Ha.
  - intros t. rewrite <-(same_probes _ _ Hs). apply Hf.
Qed.

(** The statistics of the segments of a corpus. *)
Lemma aggregate_spec bs segs :
  Forall2 answers bs segs →
  stats_of bs (AggregateStats (Some <$> segs)).
Proof.
  intros Ha. unfold AggregateStats. set (X := fold_left count_segment (Some <$> segs) newCorpusStats).
  destruct (deriveAvgLen_counts X) as (H1 & H2 & H3 & H4).
  destruct (counted_fresh (Some <$> segs) newCorpusStats eq_refl eq_refl) as [Hm Hav]. fold X in Hm, Hav.
  assert (∀ cfg, cfg ∈ defaultFieldConfigs →
    TotalDocs X = corpus_docs bs ∧ default 0 (fieldTokens X !! cfgName cfg) = wrap64 (tokens_total cfg (corpus bs)) ∧
    (bs ≠ [] → is_Some (fieldTokens X !! cfgName cfg)) ∧ probes X = reverse (MappedProbe <$> segs)) as Hspec.
  { intros cfg Hin. destruct (counted_spec bs segs newCorpusStats 0 cfg 0 Ha eq_refl Hin eq_refl) as (A1 & A2 & A3 & A4).
    fold X in A1, A2, A3, A4. rewrite app_nil_r in A4. done. }
  destruct (Hspec (mkConfig "symbol_name" float2 0)) as (HT & _ & _ & HP); [by left|].
  split; rewrite ?H1, ?H3; [done| | |].
  - intros cfg Hin. destruct (Hspec cfg Hin) as (_ & Htok & Hsome & _). unfold avg_of, corpus_avg, deriveAvgLen.
    rewrite HT. case_decide as Hd; [by rewrite Hav|]. cbn [FieldAvgLen]. rewrite Hav, map_union_empty, lookup_fmap.
    destruct bs as [|ds bs]; [done|]. destruct (Hsome ltac:(done)) as [v Hv]. rewrite Hv in *. cbn in Htok |- *. by rewrite Htok.
  - intros t. rewrite HP. change 0 with (wrap64 0) at 1.
    rewrite (sum_df_spec (reverse ((λ ds : batch, df_spec ds.*2 t) <$> bs))).
    + unfold corpus_df. rewrite df_spec_concat. by rewrite reverse_Permutation.
    + apply Forall2_reverse, Forall2_fmap_l, Forall2_fmap_r. eapply Forall2_impl; [exact Ha|].
      intros ds seg [_ _ _ Hdf _]. apply Hdf.
  - unfold memo_ok. rewrite H4, Hm. apply map_Forall_empty.
Qed.
