(* ===== verification/Bm25Scores.v ===== *)
(** * The scores of a bm25 search are those of its documents

    Over a segment that answers for its documents, and under the statistics of a corpus,
    the scoring loops of a search leave for each document the sum of its contributions —
    over the terms of the query in order, over the fields in order — and touch exactly
    the documents that have one. *)

From Stdlib Require Import Ascii Floats.SpecFloat.
From S2P Require Import Prelude TopK Supersession Bm25Layout Bm25Read Bm25Encode Bm25Opened Bm25Build Bm25Index Bm25Search Bm25Stats.

Local Open Scope Z_scope.

(** ** Contributions *)

Section Scores.
Context (Log : spec_float → spec_float).

Definition corpus_idf (bs : list batch) (t : string) : spec_float :=
  let N := f_of_int (corpus_docs bs) in
  let n := f_of_int (corpus_df bs t) in
  Log (f_add (f_div (f_add (f_sub N n) f_half) (f_add n f_half)) (f_of_int 1)).

(** What one field of a document adds for a term. *)
Definition field_contrib (avg : FieldConfig → spec_float) (v : spec_float) (t : string) (toks : tokens)
    (cfg : FieldConfig) : list spec_float :=
  match tokens_in cfg toks !! t with
  | Some freq => [scoreField cfg (clampTF freq) (token_count (tokens_in cfg toks)) v k1 (avg cfg)]
  | None => []
  end.

Definition term_contribs (bs : list batch) (toks : tokens) (t : string) : list spec_float :=
  let v := corpus_idf bs t in
  if SFleb v f_zero then []
  else mjoin (field_contrib (corpus_avg bs) v t toks <$> defaultFieldConfigs).

(** The contributions of a document to a query, in the order of the loops. *)
Definition contribs (bs : list batch) (q : Query) (toks : tokens) : list spec_float :=
  mjoin (term_contribs bs toks <$> sortedQueryTerms q).

Definition f_sum (l : list spec_float) : spec_float := fold_left f_add l f_zero.

Definition doc_score (bs : list batch) (q : Query) (toks : tokens) : spec_float := f_sum (contribs bs q toks).

(** No partial sum falls back to zero. *)
Definition nonzero_sums (l : list spec_float) : Prop :=
  ∀ i, (0 < i ≤ length l)%nat → SFeqb (f_sum (take i l)) f_zero = false.

Lemma nonzero_sums_app l1 l2 : nonzero_sums (l1 ++ l2) → nonzero_sums l1.
Proof.
  intros Hn i Hi. rewrite <-(Hn i) by (rewrite length_app; lia). by rewrite take_app_le by lia.
Qed.

Lemma nonzero_sums_all l : nonzero_sums l → l ≠ [] → SFeqb (f_sum l) f_zero = false.
Proof.
  intros Hn Hl. rewrite <-(Hn (length l)); [by rewrite firstn_all|]. destruct l; [done|]. cbn. lia.
Qed.

(** ** One run *)

Definition posts (cfg : FieldConfig) (ds : list tokens) (t : string) : list (Z * Z) :=
  (λ p, (docID p, tf p)) <$> run_spec cfg ds t.

Definition zero_at (scs : list spec_float) (x : Z) : Prop :=
  match scs !! Z.to_nat x with Some s => SFeqb s f_zero = true | None => False end.

#[export] Instance zero_at_dec scs x : Decision (zero_at scs x).
Proof. unfold zero_at. destruct (scs !! Z.to_nat x); apply _. Defined.

Lemma posts_snoc cfg ds toks t :
  posts cfg (ds ++ [toks]) t = posts cfg ds t ++ match tokens_in cfg toks !! t with
                                                 | Some freq => [(Z.of_nat (length ds), clampTF freq)]
                                                 | None => []
                                                 end.
Proof. unfold posts. rewrite run_spec_snoc, fmap_app. by destruct (tokens_in cfg toks !! t). Qed.

Lemma elem_of_posts cfg ds t x : x ∈ (posts cfg ds t).*1 ↔
  ∃ d toks, x = Z.of_nat d ∧ ds !! d = Some toks ∧ is_Some (tokens_in cfg toks !! t).
Proof.
  induction ds as [|toks ds IH] using rev_ind.
  { split; [by intros ?%elem_of_nil|]. by intros (d & toks & _ & ? & _). }
  rewrite posts_snoc, fmap_app, elem_of_app, IH. split.
  - intros [(d & u & -> & Hd & Hu)|Hx].
    + exists d, u. split_and!; [done| |done]. by apply lookup_app_l_Some.
    + destruct (tokens_in cfg toks !! t) as [f|] eqn:Hf; [|by apply elem_of_nil in Hx].
      apply list_elem_of_singleton in Hx as ->. exists (length ds), toks. split_and!; [done| |by eexists].
      by rewrite lookup_app_r, Nat.sub_diag.
  - intros (d & u & -> & Hd & Hu). apply lookup_snoc_Some in Hd as [[Hlt Hd]|[-> ->]].
    + left. by exists d, u.
    + right. destruct Hu as [f ->]. by left.
Qed.

Lemma posts_nodup cfg ds t : NoDup (posts cfg ds t).*1.
Proof.
  induction ds as [|toks ds IH] using rev_ind; [constructor|]. rewrite posts_snoc, fmap_app.
  apply NoDup_app. split_and!; [done| |destruct (tokens_in cfg toks !! t); repeat constructor; set_solver].
  intros x Hx. apply elem_of_posts in Hx as (d & u & -> & Hd & _). apply lookup_lt_Some in Hd.
  destruct (tokens_in cfg toks !! t); [|set_solver]. cbn. rewrite list_elem_of_singleton. lia.
Qed.

(** The loop over a run, up to the documents [ds1]. *)
Lemma accumulate_run cfg v avg t ds scs tch ds1 ds2 :
  ds = ds1 ++ ds2 → length scs = length ds →
  let st := fold_left (accumulate_posting cfg ((token_count ∘ tokens_in cfg) <$> ds) v avg) (posts cfg ds1 t) (mkScratch scs tch) in
  scores st = zip_with (λ toks s, fold_left f_add (field_contrib (λ _, avg) v t toks cfg) s) ds1 scs ++ drop (length ds1) scs ∧
  touched st = tch ++ filter (zero_at scs) (posts cfg ds1 t).*1.
Proof.
  cbv zeta. revert ds2. induction ds1 as [|toks ds1 IH] using rev_ind; intros ds2 Hds Hn.
  { cbn. by rewrite app_nil_r. }
  destruct (IH (toks :: ds2)) as [IHs IHt]; [by rewrite Hds, <-app_assoc|done|]. clear IH.
  rewrite posts_snoc, fold_left_app. set (st := fold_left _ (posts cfg ds1 t) _) in *.
  assert (length ds1 < length scs)%nat as Hlt by (rewrite Hn, Hds, !length_app; cbn; lia).
  destruct (lookup_lt_is_Some_2 scs (length ds1) Hlt) as [s Hs].
  assert (length (zip_with (λ toks s, fold_left f_add (field_contrib (λ _, avg) v t toks cfg) s) ds1 scs) = length ds1) as Hz
    by (rewrite length_zip_with; lia).
  assert (scores st !! length ds1 = Some s) as Hsc.
  { rewrite IHs, lookup_app_r by lia. rewrite Hz, Nat.sub_diag, lookup_drop, Nat.add_0_r. done. }
  assert (ds !! length ds1 = Some toks) as Hd.
  { rewrite Hds, <-app_assoc, lookup_app_r, Nat.sub_diag by lia. done. }
  assert (drop (length ds1) scs = s :: drop (S (length ds1)) scs) as Hdrop by (by apply drop_S).
  assert (zip_with (λ toks s, fold_left f_add (field_contrib (λ _, avg) v t toks cfg) s) (ds1 ++ [toks]) scs =
    zip_with (λ toks s, fold_left f_add (field_contrib (λ _, avg) v t toks cfg) s) ds1 scs
      ++ [fold_left f_add (field_contrib (λ _, avg) v t toks cfg) s]) as Hzip.
  { clear -Hs. revert scs Hs. induction ds1 as [|u ds1 IH]; intros [|s' scs] Hs; [done|cbn in Hs; by injection Hs as ->|done|].
    cbn. f_equal. by apply IH. }
  rewrite Hzip, length_app, Nat.add_1_r, <-app_assoc. cbn [app].
  pose proof (eq_refl (field_contrib (λ _, avg) v t toks cfg)) as Hcontrib. unfold field_contrib in Hcontrib at 2.
  destruct (tokens_in cfg toks !! t) as [freq|] eqn:Hfreq; cbn [fold_left].
  - unfold accumulate_posting. rewrite Nat2Z.id, list_lookup_fmap, Hd, Hsc.
    cbn [fmap option_fmap option_map compose scores touched]. rewrite fmap_app, filter_app. cbn [fmap list_fmap fst]. split.
    + rewrite IHs, Hdrop. rewrite insert_app_r_alt by lia. rewrite Hz, Nat.sub_diag. cbn [insert list_insert].
      by rewrite Hcontrib.
    + rewrite IHt. assert (zero_at scs (Z.of_nat (length ds1)) ↔ SFeqb s f_zero = true) as Hzero
        by (unfold zero_at; by rewrite Nat2Z.id, Hs).
      destruct (SFeqb s f_zero) eqn:He.
      * rewrite filter_cons_True by (by apply Hzero). by rewrite <-app_assoc.
      * rewrite filter_cons_False by (intros Hzz; apply Hzero in Hzz; done). by rewrite app_nil_r.
  - rewrite app_nil_r. split; [|done]. by rewrite IHs, Hdrop, Hcontrib.
Qed.

(** ** The loops *)

(** The documents [ds] have been credited with the contributions [P]. *)
Record progress (ds : list tokens) (P : tokens → list spec_float) (st : scratch) : Prop := mkProgress {
  pg_scores : scores st = (f_sum ∘ P) <$> ds;
  pg_touched : ∀ x, x ∈ touched st ↔ ∃ d toks, x = Z.of_nat d ∧ ds !! d = Some toks ∧ P toks ≠ [];
  pg_nodup : (∀ toks, toks ∈ ds → nonzero_sums (P toks)) → NoDup (touched st)
}.

Lemma progress_ext ds P Q st : (∀ toks, P toks = Q toks) → progress ds P st → progress ds Q st.
Proof.
  intros He [Hs Ht Hn]. split.
  - rewrite Hs. apply list_fmap_ext. intros i toks _. cbn. by rewrite He.
  - intros x. rewrite Ht. by setoid_rewrite He.
  - intros Hq. apply Hn. intros toks Hin. rewrite He. by apply Hq.
Qed.

Lemma progress_start ds : progress ds (λ _, []) (mkScratch (replicate (length ds) f_zero) []).
Proof.
  split; cbn; [|split; [by intros ?%elem_of_nil|by intros (? & ? & _ & _ & ?)]|constructor].
  induction ds as [|d ds IH]; [done|]. cbn. by rewrite IH.
Qed.

Lemma field_step cfg v avg t ds P st :
  progress ds P st →
  progress ds (λ toks, P toks ++ field_contrib avg v t toks cfg)
    (fold_left (accumulate_posting cfg ((token_count ∘ tokens_in cfg) <$> ds) v (avg cfg)) (posts cfg ds t) st).
Proof.
  destruct st as [scs tch]. intros [Hs Ht Hn]. cbn [scores touched] in *.
  destruct (accumulate_run cfg v (avg cfg) t ds scs tch ds []) as [Es Et];
    [by rewrite app_nil_r|by rewrite Hs, length_fmap|].
  assert (∀ x, x ∈ filter (zero_at scs) (posts cfg ds t).*1 ↔
    ∃ d toks, x = Z.of_nat d ∧ ds !! d = Some toks ∧ SFeqb (f_sum (P toks)) f_zero = true ∧
      field_contrib avg v t toks cfg ≠ []) as Hnew.
  { intros x. rewrite list_elem_of_filter, elem_of_posts. split.
    - intros (Hz & d & toks & -> & Hd & Hf). exists d, toks. split_and!; [done|done| |].
      + unfold zero_at in Hz. by rewrite Nat2Z.id, Hs, list_lookup_fmap, Hd in Hz.
      + unfold field_contrib. by destruct Hf as [f ->].
    - intros (d & toks & -> & Hd & Hz & Hf). split.
      + unfold zero_at. by rewrite Nat2Z.id, Hs, list_lookup_fmap, Hd.
      + exists d, toks. split_and!; [done|done|]. unfold field_contrib in Hf. by destruct (tokens_in cfg toks !! t). }
  split.
  - rewrite Es, drop_ge, app_nil_r by (by rewrite Hs, length_fmap). rewrite Hs. clear. induction ds as [|toks ds IH]; [done|].
    cbn. f_equal; [|done]. unfold f_sum. by rewrite fold_left_app.
  - intros x. rewrite Et, elem_of_app, Ht, Hnew. split.
    + intros [(d & toks & -> & Hd & Hp)|(d & toks & -> & Hd & _ & Hf)]; exists d, toks; (split_and!; [done|done|]).
      * by destruct (P toks).
      * intros [_ ?]%app_eq_nil. done.
    + intros (d & toks & -> & Hd & Hp). destruct (P toks) as [|c l] eqn:Hpt.
      * right. exists d, toks. by rewrite Hpt.
      * left. exists d, toks. by rewrite Hpt.
  - intros Hz. rewrite Et. apply NoDup_app. split_and!.
    + apply Hn. intros toks Hin. by eapply nonzero_sums_app, Hz.
    + intros x (d & toks & -> & Hd & Hp)%Ht (d' & toks' & Hdd & Hd' & Hzero & _)%Hnew.
      apply Nat2Z.inj in Hdd as <-. rewrite Hd in Hd'. injection Hd' as <-.
      rewrite (nonzero_sums_all (P toks)) in Hzero; [done| |done].
      eapply nonzero_sums_app, Hz. by eapply list_elem_of_lookup_2.
    + apply NoDup_filter, posts_nodup.
Qed.

(** A mapped field accumulates the postings of its documents. *)
Lemma accumulateMapped_posts ds cfg mf stats t v st :
  field_answers ds cfg mf →
  accumulateMappedField stats t v mf st =
    Ok (fold_left (accumulate_posting cfg ((token_count ∘ tokens_in cfg) <$> ds) v (avg_of stats cfg)) (posts cfg ds t) st).
Proof.
  intros [Hc Hl _ Hlk _]. unfold accumulateMappedField, posts. rewrite Hlk, Hc, Hl. cbn [result_bind].
  destruct (run_spec cfg ds t) as [|p ps]; [done|]. cbn [nonempty fmap option_fmap option_map run_of].
  do 2 f_equal. generalize (p :: ps). intros l. induction l as [|q l IH]; [done|]. cbn. by rewrite <-IH.
Qed.

Lemma fields_step ds cfgs mfs stats avg v t P st :
  Forall2 (field_answers ds) cfgs mfs → (∀ cfg, cfg ∈ cfgs → avg_of stats cfg = avg cfg) → progress ds P st →
  ∃ st', over_fields (accumulateMappedField stats t v) mfs st = Ok st' ∧
    progress ds (λ toks, P toks ++ mjoin (field_contrib avg v t toks <$> cfgs)) st'.
Proof.
  intros Hf. revert P st. induction Hf as [|cfg mf cfgs mfs Hm _ IH]; intros P st Hav Hp; cbn [over_fields].
  { exists st. split; [done|]. eapply progress_ext; [|done]. intros toks. by rewrite app_nil_r. }
  rewrite (accumulateMapped_posts ds cfg) by done. cbn [result_bind]. rewrite Hav by (by left).
  destruct (IH (λ toks, P toks ++ field_contrib avg v t toks cfg)
    (fold_left (accumulate_posting cfg ((token_count ∘ tokens_in cfg) <$> ds) v (avg cfg)) (posts cfg ds t) st))
    as (st' & Hst' & Hp').
  - intros c Hc. apply Hav. by right.
  - by apply field_step.
  - exists st'. split; [done|]. eapply progress_ext; [|done]. intros toks. cbn. by rewrite app_assoc.
Qed.

Lemma terms_cons bs toks t terms :
  mjoin (term_contribs bs toks <$> t :: terms) = term_contribs bs toks t ++ mjoin (term_contribs bs toks <$> terms).
Proof. done. Qed.

Lemma terms_step bs ds seg terms stats P st :
  stats_of bs stats → Forall2 (field_answers ds) defaultFieldConfigs (fields seg) → progress ds P st →
  ∃ st' stats', over_terms Log accumulateMappedField (fields seg) (corpus_docs bs) terms stats st = Ok (st', stats') ∧
    progress ds (λ toks, P toks ++ mjoin (term_contribs bs toks <$> terms)) st' ∧
    same_corpus stats stats' ∧ memo_ok stats'.
Proof.
  intros Hso Hf. revert stats Hso P st. induction terms as [|t terms IH]; intros stats Hso P st Hp; cbn [over_terms].
  { exists st, stats. split_and!; [done| |done|apply (so_memo _ _ Hso)]. eapply progress_ext; [|done]. intros toks. by rewrite app_nil_r. }
  unfold idf. destruct (docFreqOf_spec stats t _ (so_memo _ _ Hso) (so_df _ _ Hso t)) as (st1 & -> & Hsame & Hmemo).
  cbn [result_bind fst snd default from_option id]. fold (corpus_idf bs t).
  pose proof (stats_of_same bs stats st1 Hso Hsame Hmemo) as Hso1.
  destruct (SFleb (corpus_idf bs t) f_zero) eqn:Hz.
  - destruct (IH st1 Hso1 P st Hp) as (st' & stats' & Hr & Hp' & Hs' & Hm'). exists st', stats'.
    split_and!; [exact Hr| |by etrans|done]. eapply progress_ext; [|exact Hp']. intros toks. rewrite terms_cons.
    unfold term_contribs at 2. by rewrite Hz.
  - destruct (fields_step ds _ _ st1 (corpus_avg bs) (corpus_idf bs t) t P st Hf (so_avg _ _ Hso1) Hp) as (st2 & -> & Hp2).
    cbn [result_bind]. destruct (IH st1 Hso1 _ st2 Hp2) as (st' & stats' & Hr & Hp' & Hs' & Hm'). exists st', stats'.
    split_and!; [exact Hr| |by etrans|done]. eapply progress_ext; [|exact Hp']. intros toks. rewrite terms_cons.
    unfold term_contribs at 2. rewrite Hz. by rewrite app_assoc.
Qed.
End Scores.
