(* ===== verification/Bm25Collect.v ===== *)
(** * Collecting the hits of a bm25 search ([collectTopK], [container/heap])

    The heap of a search, its pops, and what [collectTopK] returns: a best selection of
    the accepted documents among those touched, best first. *)

From Stdlib Require Import Ascii Floats.SpecFloat.
From S2P Require Import Prelude TopK Supersession Bm25Layout Bm25Read Bm25Encode Bm25Build Bm25Index Bm25Search.

(** ** [heap.Pop] *)

Lemma heap_pop_spec (h : list scoredDoc) :
  heap_ok h → all_scored h → h ≠ [] →
  ∃ x h', heap_pop h = Some (x, h') ∧ x :: h' ≡ₚ h ∧ heap_ok h' ∧ ∀ y, y ∈ h → sle (sd_score x) (sd_score y).
Proof.
  intros Hh Hs Hne. assert (0 < length h) as Hl by (destruct h; cbn; [done|lia]).
  unfold heap_pop. set (n := length h - 1). set (g := swap h 0 n).
  assert (length g = length h) as Hg by apply length_swap.
  destruct (lookup_lt_is_Some_2 g n) as [x Hx]; [unfold n; lia|]. rewrite Hx. cbn [mbind option_bind].
  exists x, (siftDown n (take n g) 0). split; [done|].
  assert (take n g ++ [x] = g) as Hsplit.
  { rewrite <-(take_S_r _ _ _ Hx). apply firstn_all2. unfold n. lia. }
  assert (x :: take n g ≡ₚ h) as Hp.
  { rewrite <-(swap_perm h 0 n). fold g. rewrite <-Hsplit at 2. by rewrite Permutation_app_comm. }
  assert (h !! 0 = Some x) as H0.
  { destruct (lookup_lt_is_Some_2 h 0 Hl) as [r Hr]. rewrite Hr. f_equal.
    destruct (lookup_lt_is_Some_2 h n ltac:(unfold n; lia)) as [y Hy].
    unfold g, swap in Hx. rewrite Hr, Hy in Hx. rewrite list_lookup_insert_eq in Hx; [by injection Hx|].
    rewrite length_insert. unfold n. lia. }
  assert (∀ c, c < n → 0 < c → sc (take n g) c = sc h c) as Hsc.
  { intros c Hc Hc0. unfold sc at 1. rewrite lookup_take_lt by done. fold (sc g c). unfold g.
    assert (n < length h) by (unfold n; lia). clearbody n. rewrite sc_swap by lia.
    rewrite decide_False by lia. by rewrite decide_False by lia. }
  split; [by rewrite siftDown_perm|]. split.
  - destruct (decide (n = 0)) as [E|E]; [|].
    { assert (take n g = []) as -> by (by rewrite E). rewrite E. cbn [siftDown]. intros c [_ Hc]. cbn [length] in Hc. lia. }
    apply siftDown_heap; rewrite ?length_take.
    + unfold all_scored in *. rewrite <-Hp in Hs. by inv Hs.
    + lia.
    + lia.
    + intros c [Hc1 Hc2] Hpc%bool_decide_eq_false. rewrite length_take in Hc2. pose proof (parent_lt c Hc1).
      rewrite !Hsc by lia. apply Hh; [lia|done].
    + intros c _ _ ?. lia.
  - intros y Hy. pose proof (root_min_elem h y Hh Hs Hy) as Hm. unfold sc in Hm. by rewrite H0 in Hm.
Qed.

Definition hit_of (ids : list string) (d : scoredDoc) : Hit :=
  mkHit (default "" (ids !! Z.to_nat (sd_id d))) (sd_score d).

(** Best first. *)
Definition descending (hits : list Hit) : Prop := StronglySorted (λ a b, sle (Score b) (Score a)) hits.

Lemma pop_all_spec ids n (h : list scoredDoc) out :
  length h = n → heap_ok h → all_scored h → Forall (λ d, 0 ≤ sd_id d < Z.of_nat (length ids))%Z h →
  ∃ l, pop_all (id_at ids) n h out = Ok ((hit_of ids <$> l) ++ out) ∧ l ≡ₚ h ∧
    StronglySorted (λ a b, sle (sd_score b) (sd_score a)) l.
Proof.
  revert h out. induction n as [|n IH]; intros h out Hn Hh Hs Hids.
  { apply nil_length_inv in Hn as ->. exists []. split_and!; [done|done|constructor]. }
  destruct (heap_pop_spec h Hh Hs) as (x & h' & Hpop & Hp & Hh' & Hmin); [by destruct h|].
  cbn [pop_all]. rewrite Hpop. unfold all_scored in Hs. rewrite <-Hp in Hs, Hids. inv Hs. inv Hids.
  destruct (lookup_lt_is_Some_2 ids (Z.to_nat (sd_id x))) as [id Hid]; [lia|].
  assert (id_at ids (sd_id x) = Ok id) as -> by (unfold id_at; by rewrite decide_False, Hid by lia). cbn [result_bind].
  destruct (IH h' (mkHit id (sd_score x) :: out)) as (l & Hr & Hl & Hsort); [|done..|].
  { apply Permutation_length in Hp. cbn in Hp. lia. }
  exists (l ++ [x]). split_and!.
  - rewrite Hr, fmap_app, <-app_assoc. cbn. unfold hit_of at 3. by rewrite Hid.
  - by rewrite Permutation_app_comm, Hl.
  - apply StronglySorted_app. split_and!; [|done|repeat constructor]. intros a b Ha ->%list_elem_of_singleton.
    apply Hmin. rewrite <-Hp, <-Hl. by right.
Qed.

(** ** Collecting *)

Definition accepts (ids : list string) (accept : accept_fn) (d : Z) : Prop :=
  match accept with Some f => f (default "" (ids !! Z.to_nat d)) = true | None => True end.

#[export] Instance accepts_dec ids accept d : Decision (accepts ids accept d).
Proof. unfold accepts. destruct accept; apply _. Defined.

Definition scored_doc (scs : list spec_float) (d : Z) : scoredDoc := mkScored d (default S754_nan (scs !! Z.to_nat d)).

Lemma offer_doc_Offer k h x : (0 < k)%Z → offer_doc k h x = Offer h x k.
Proof.
  intros Hk. unfold offer_doc, Offer, heap_push. rewrite (proj2 (Z.leb_gt k 0)) by done.
  case_decide; [by rewrite (proj2 (Z.ltb_lt _ _))|by rewrite (proj2 (Z.ltb_ge _ _)) by lia].
Qed.

Lemma collect_spec ids k accept scs tch h :
  (0 < k)%Z → Forall (λ d, 0 ≤ d < Z.of_nat (length ids))%Z tch →
  collect (id_at ids) (Z.of_nat (length ids)) k accept scs tch h =
    Ok (offer_all k (scored_doc scs <$> filter (accepts ids accept) tch) h).
Proof.
  intros Hk Ht. revert h. induction Ht as [|d tch Hd _ IH]; intros h; [done|]. cbn [collect].
  rewrite decide_False by lia. destruct (lookup_lt_is_Some_2 ids (Z.to_nat d)) as [id Hid]; [lia|].
  assert (id_at ids d = Ok id) as Hat by (unfold id_at; by rewrite decide_False, Hid by lia).
  assert (accepts ids accept d ↔ match accept with Some f => f id = true | None => True end) as Ha
    by (unfold accepts; by rewrite Hid).
  assert (∀ b : bool, (b = true ↔ accepts ids accept d) →
    (if b then collect (id_at ids) (Z.of_nat (length ids)) k accept scs tch
                 (offer_doc k h (mkScored d (default S754_nan (scs !! Z.to_nat d))))
     else collect (id_at ids) (Z.of_nat (length ids)) k accept scs tch h) =
    Ok (offer_all k (scored_doc scs <$> filter (accepts ids accept) (d :: tch)) h)) as Hgoal.
  { intros [|] Hb; rewrite IH.
    - rewrite filter_cons_True by (by apply Hb). by rewrite offer_doc_Offer.
    - rewrite filter_cons_False by (intros Hac; apply Hb in Hac; done). done. }
  destruct accept as [f|]; cbn [result_bind].
  - rewrite Hat. cbn [result_bind]. by apply Hgoal.
  - by apply (Hgoal true).
Qed.

(** The hits are a best selection of the accepted documents that were touched. *)
Lemma collectTopK_spec ids st k accept :
  (0 < k)%Z → Forall (λ d, 0 ≤ d < Z.of_nat (length ids))%Z (touched st) →
  let offered := scored_doc (scores st) <$> filter (accepts ids accept) (touched st) in
  all_scored offered →
  ∃ hits, collectTopK (id_at ids) (Z.of_nat (length ids)) st k accept = Ok hits ∧ descending hits ∧
    selection (Z.to_nat k) (hit_of ids <$> offered) hits.
Proof.
  intros Hk Ht offered Hs. unfold collectTopK.
  assert (touched st = [] ∨ touched st ≠ []) as [E|E] by (destruct (touched st); [by left|by right]).
  { unfold offered. rewrite E. exists []. split_and!; [done|constructor|]. split; [cbn; lia|].
    exists []. split; [done|set_solver]. }
  rewrite (collect_spec ids k accept _ (touched st)) by done. fold offered. cbn [result_bind].
  assert (∀ (A B : result readErr (list Hit)), match touched st with [] => A | _ => B end = B) as ->
    by (intros A B; by destruct (touched st)).
  assert (heap_ok (A := scoredDoc) []) as Hnil by (intros c [_ Hc]; cbn in Hc; lia).
  destruct (offer_all_selection k offered [] []) as [Hh Hsel]; [lia|done|done|apply selection_nil|].
  cbn [app] in Hsel. set (h := offer_all k offered []) in *. pose proof (selection_scored _ _ _ Hs Hsel) as Hsh.
  destruct Hsel as (Hlen & rest & Hr & Hbest).
  assert (Forall (λ d, 0 ≤ sd_id d < Z.of_nat (length ids))%Z h) as Hids.
  { apply Forall_forall. intros x Hx. assert (x ∈ offered) as Hin by (rewrite Hr; set_solver).
    unfold offered in Hin. apply list_elem_of_fmap in Hin as (d & -> & Hd). apply list_elem_of_filter in Hd as [_ Hd].
    rewrite Forall_forall in Ht. by apply Ht. }
  destruct (pop_all_spec ids (length h) h [] eq_refl Hh Hsh Hids) as (l & Hpop & Hl & Hsort).
  exists (hit_of ids <$> l). rewrite app_nil_r in Hpop. split_and!; [done| |].
  - unfold descending. clear -Hsort. induction Hsort as [|x l _ IH Hx]; cbn; constructor; [done|].
    apply Forall_fmap. exact Hx.
  - split; [by rewrite !length_fmap, Hl|]. exists (hit_of ids <$> rest). split; [by rewrite Hr, fmap_app, Hl|].
    intros x y Hx Hy. apply list_elem_of_fmap in Hx as (a & -> & Ha), Hy as (b & -> & Hb).
    apply Hbest; [by rewrite <-Hl|done].
Qed.
