(* ===== verification/Bm25SearchProps.v ===== *)
(** * The searches of the bm25 format agree, and with one index over the whole corpus

    The search of an opened segment is that of the accumulator it was encoded from.  With
    the statistics of a set of segments, however reached and whatever they remember, the
    scores of a segment's documents are those of the documents themselves under the
    counts of the whole corpus, however it is divided into segments. *)

From Stdlib Require Import Ascii Floats.SpecFloat.
From S2P Require Import Prelude TopK Supersession Bm25Layout Bm25Read Bm25Encode Bm25Opened Bm25RoundTrip Bm25Build Bm25Props Bm25Index Bm25Search Bm25Stats Bm25Scores Bm25Collect.

Local Open Scope Z_scope.

(** ** The opened segment and its accumulator *)

Lemma accumulate_same stats term idfVal fd mf st :
  field_represents fd mf → accumulateMappedField stats term idfVal mf st = accumulateField stats term idfVal fd st.
Proof.
  intros [Hc _ Hl Hlk _]. unfold accumulateMappedField, accumulateField. rewrite Hlk, Hc, Hl. cbn [result_bind].
  destruct (fdPostings fd !! term) as [[|p ps]|]; [done| |done]. cbn [fmap option_fmap option_map run_of].
  do 2 f_equal. generalize (p :: ps). clear. intros ps. induction ps as [|p ps IH]; [done|]. cbn. by rewrite <-IH.
Qed.

Lemma over_fields_same {F G} (R : F → G → Prop) one1 one2 fs gs st :
  Forall2 R fs gs → (∀ f g st, R f g → one2 g st = one1 f st) → over_fields one2 gs st = over_fields one1 fs st.
Proof.
  intros HR Hone. revert st. induction HR as [|f g fs gs Hfg _ IH]; intros st; [done|]. cbn [over_fields].
  rewrite (Hone f g st Hfg). destruct (one1 f st); [apply IH|done].
Qed.

Section Parity.
Context (Log : spec_float → spec_float).

Lemma over_terms_same fds mfs N terms stats st :
  Forall2 field_represents fds mfs →
  over_terms Log accumulateMappedField mfs N terms stats st = over_terms Log accumulateField fds N terms stats st.
Proof.
  intros Hf. revert stats st. induction terms as [|t terms IH]; intros stats st; [done|]. cbn [over_terms].
  destruct (idf Log t N (Some stats)) as [[v stats']|]; [|done]. cbn [result_bind]. destruct (SFleb v f_zero); [apply IH|].
  rewrite (over_fields_same _ (accumulateField (default stats stats') t v) _ _ _ _ Hf)
    by (intros; by apply accumulate_same).
  destruct (over_fields _ _ _); [apply IH|done].
Qed.

Lemma collectTopK_ext m1 m2 n st k accept : (∀ i, m1 i = m2 i) → collectTopK m1 n st k accept = collectTopK m2 n st k accept.
Proof.
  intros Hm. unfold collectTopK. destruct (touched st) as [|x xs]; [done|].
  assert (∀ l h, collect m1 n k accept (scores st) l h = collect m2 n k accept (scores st) l h) as ->.
  { induction l as [|d l IH]; intros h; [done|]. cbn [collect]. rewrite Hm. case_decide; [apply IH|].
    destruct accept; cbn; [|apply IH]. destruct (m2 d); [|done]. cbn. case_match; apply IH. }
  assert (∀ m h out, pop_all m1 m h out = pop_all m2 m h out) as Hpop.
  { induction m as [|m IH]; intros h out; [done|]. cbn [pop_all]. destruct (heap_pop h) as [[d h']|]; [|done].
    rewrite Hm. destruct (m2 (sd_id d)); [apply IH|done]. }
  destruct (collect m2 n k accept (scores st) (x :: xs) []) as [h|]; [apply Hpop|done].
Qed.

Lemma search_same b seg s q stats k accept :
  segment_ok b seg → represents s seg →
  Search Log seg q stats k accept = AccSearch Log s q stats k accept.
Proof.
  intros Hs [Hids _ _ Hf]. unfold Search, AccSearch, search_with.
  destruct (member_index b seg _ 0 Hs Hids) as [-> _]. case_decide; [done|]. destruct stats as [st|]; [|done].
  case_decide; [done|]. rewrite (over_terms_same _ _ _ _ _ _ Hf). destruct (over_terms _ _ _ _ _ _ _) as [[sc st']|]; [|done].
  cbn [result_bind fst snd]. rewrite (collectTopK_ext (member seg) (acc_member s)); [done|].
  intros i. by destruct (member_index b seg _ i Hs Hids) as [_ ->].
Qed.
End Parity.

(** ** One index over the whole corpus *)

Definition accepted (accept : accept_fn) (id : string) : Prop :=
  match accept with Some f => f id = true | None => True end.

#[export] Instance accepted_dec accept id : Decision (accepted accept id).
Proof. unfold accepted. destruct accept; apply _. Defined.

(** The hits of a batch of documents: those accepted to which the query adds something,
    with the score each has under the counts of the corpus. *)
Definition candidates (Log : spec_float → spec_float) (bs : list batch) (q : Query) (accept : accept_fn)
    (ds : batch) : list Hit :=
  (λ x, mkHit x.1 (doc_score Log bs q x.2)) <$>
    filter (λ x : string * tokens, contribs Log bs q x.2 ≠ [] ∧ accepted accept x.1) ds.

(** No sum of contributions is a NaN, none falls back to zero. *)
Definition regular (Log : spec_float → spec_float) (bs : list batch) (q : Query) (toks : tokens) : Prop :=
  nonzero_sums (contribs Log bs q toks) ∧ scored (doc_score Log bs q toks).

Lemma fmap_filter_seq {A B} (Q : A → Prop) `{∀ x, Decision (Q x)} (P : nat → Prop) `{∀ j, Decision (P j)}
    (f : A → B) (g : nat → B) ds off :
  (∀ j x, ds !! j = Some x → (P (off + j)%nat ↔ Q x) ∧ g (off + j)%nat = f x) →
  g <$> filter P (seq off (length ds)) = f <$> filter Q ds.
Proof.
  revert off. induction ds as [|x ds IH]; intros off Hj; [done|]. cbn [length seq].
  destruct (Hj 0%nat x eq_refl) as [Hpq Hg]. rewrite Nat.add_0_r in Hpq, Hg.
  assert (g <$> filter P (seq (S off) (length ds)) = f <$> filter Q ds) as IH'.
  { apply IH. intros j y Hy. replace (S off + j)%nat with (off + S j)%nat by lia. by apply Hj. }
  destruct (decide (Q x)) as [HQ|HQ].
  - rewrite (filter_cons_True Q), filter_cons_True by tauto. cbn. by rewrite Hg, IH'.
  - rewrite (filter_cons_False Q), filter_cons_False by tauto. done.
Qed.

Lemma offered_candidates Log bs q accept ds st :
  progress ds.*2 (contribs Log bs q) st →
  (∀ toks, toks ∈ ds.*2 → regular Log bs q toks) →
  hit_of ds.*1 <$> (scored_doc (scores st) <$> filter (accepts ds.*1 accept) (touched st)) ≡ₚ candidates Log bs q accept ds ∧
  Forall (λ d, 0 ≤ d < Z.of_nat (length ds.*1)) (touched st).
Proof.
  intros [Hs Ht Hn] Hreg. rewrite length_fmap.
  assert (∀ x, x ∈ touched st → ∃ j, x = Z.of_nat j ∧ (j < length ds)%nat) as Hx.
  { intros x (d & toks & -> & Hd & _)%Ht. exists d. split; [done|]. apply lookup_lt_Some in Hd. by rewrite length_fmap in Hd. }
  split.
  2:{ apply Forall_forall. intros x Hin. destruct (Hx x Hin) as (j & -> & Hj). lia. }
  set (l := filter (accepts ds.*1 accept) (touched st)).
  assert (l ≡ₚ Z.of_nat <$> filter (λ j, Z.of_nat j ∈ l) (seq 0 (length ds))) as Hl.
  { apply NoDup_Permutation.
    - apply NoDup_filter, Hn. intros toks Hin. by apply Hreg.
    - apply NoDup_fmap_2; [apply _|]. apply NoDup_filter, NoDup_seq.
    - intros x. rewrite list_elem_of_fmap. setoid_rewrite list_elem_of_filter. setoid_rewrite elem_of_seq. split.
      + intros Hin. assert (x ∈ touched st) as Hin' by (by apply list_elem_of_filter in Hin as [_ ?]).
        destruct (Hx x Hin') as (j & -> & Hj). exists j. split; [done|]. split; [done|lia].
      + by intros (j & -> & ? & _). }
  rewrite Hl, <-!list_fmap_compose. unfold candidates.
  erewrite (fmap_filter_seq (λ x : string * tokens, contribs Log bs q x.2 ≠ [] ∧ accepted accept x.1)); [done|].
  intros j [name toks] Hj. cbn [fst snd Nat.add].
  assert (ds.*1 !! j = Some name) as Hid by (by rewrite list_lookup_fmap, Hj).
  assert (ds.*2 !! j = Some toks) as Htk by (by rewrite list_lookup_fmap, Hj). split.
  - unfold l. rewrite list_elem_of_filter, Ht. unfold accepts, accepted. rewrite Nat2Z.id, Hid. cbn [default from_option id].
    split; [|intros [Hc Ha]; split; [done|by exists j, toks]].
    intros [Ha (d & u & Hd & Hu & Hc)]. apply Nat2Z.inj in Hd as <-. rewrite Htk in Hu. injection Hu as <-. done.
  - unfold compose, hit_of, scored_doc. cbn [sd_id sd_score]. rewrite Nat2Z.id, Hid, Hs, list_lookup_fmap, Htk. done.
Qed.

(** The search of one segment under the statistics of a corpus it belongs to. *)
Lemma search_under_stats Log bs ds seg st q k accept :
  answers ds seg → ds ∈ bs → stats_of bs st → Z.of_nat (length (corpus bs)) < 2 ^ 63 →
  (∀ toks, toks ∈ ds.*2 → regular Log bs q toks) →
  ∃ hits st', Search Log seg q (Some st) k accept = Ok (hits, Some st') ∧
    same_corpus st st' ∧ memo_ok st' ∧
    descending hits ∧ selection (Z.to_nat k) (candidates Log bs q accept ds) hits.
Proof.
  intros [_ Hc Hm _ Hf] Hin Hso Hsmall Hreg. pose proof (so_memo _ _ Hso) as Hmemo.
  unfold Search, search_with. rewrite Hc. case_decide as H0.
  { exists [], st. split_and!; [done..|constructor|]. split.
    - unfold candidates. destruct H0 as [H0|[H0|H0]].
      + destruct ds; [cbn; lia|done].
      + cbn. lia.
      + assert (∀ toks, contribs Log bs q toks = []) as Hnil.
        { intros toks. unfold contribs, sortedQueryTerms. by rewrite H0. }
        rewrite list_filter_none; [cbn; lia|]. apply Forall_forall. intros x _ [Hx _]. by rewrite Hnil in Hx.
    - exists (candidates Log bs q accept ds). split; [done|set_solver]. }
  assert (ds ≠ []) as Hne by (intros ->; apply H0; by left).
  assert (TotalDocs st = Z.of_nat (length (corpus bs)) ∧ 0 < TotalDocs st) as [HT Hpos].
  { rewrite (so_docs _ _ Hso). unfold corpus_docs. rewrite wrap64_id by (unfold int64_range; lia). split; [done|].
    unfold corpus. rewrite length_fmap. apply list_elem_of_split in Hin as (l1 & l2 & ->).
    rewrite concat_app. cbn [concat]. rewrite !length_app. destruct ds; [done|]. cbn [length]. lia. }
  rewrite decide_False by lia. rewrite (so_docs _ _ Hso).
  destruct (terms_step Log bs ds.*2 seg (sortedQueryTerms q) st (λ _, []) _ Hso Hf (progress_start ds.*2))
    as (st' & stats' & Hr & Hp & Hs' & Hm').
  rewrite length_fmap in Hr. rewrite Nat2Z.id, Hr. cbn [result_bind fst snd].
  assert (progress ds.*2 (contribs Log bs q) st') as Hp' by (eapply progress_ext; [|exact Hp]; done).
  destruct (offered_candidates Log bs q accept ds st' Hp' Hreg) as [Hcand Hrange].
  rewrite (collectTopK_ext (member seg) (id_at ds.*1)) by done.
  replace (Z.of_nat (length ds)) with (Z.of_nat (length ds.*1)) by (by rewrite length_fmap).
  destruct (collectTopK_spec ds.*1 st' k accept) as (hits & -> & Hdesc & Hsel); [tauto || lia|done| |].
  - apply Forall_fmap, Forall_forall. intros d [_ Hd]%list_elem_of_filter. cbn.
    destruct Hp' as [Hs _ _]. rewrite Forall_forall in Hrange. specialize (Hrange d Hd). rewrite length_fmap in Hrange.
    destruct (lookup_lt_is_Some_2 ds.*2 (Z.to_nat d)) as [toks Htk]; [rewrite length_fmap; lia|].
    rewrite Hs, list_lookup_fmap, Htk. cbn. by apply Hreg, (list_elem_of_lookup_2 _ _ _ Htk).
  - exists hits, stats'. split_and!; [done..|]. destruct Hsel as (Hlen & rest & Hperm & Hbest).
    split; [by rewrite Hlen, Hcand|]. exists rest. split; [by rewrite <-Hcand|done].
Qed.

(** C5: Over any division of a corpus into segments, with the statistics of all of them and whatever
    these remember, the search of one segment returns the best accepted documents of that
    segment, best first, each with the score it has under the counts of the whole corpus:
    the division into segments cannot be seen in a score.  It remembers only what the
    segments would answer again. *)
Theorem search_is_global (Log : spec_float → spec_float) (bs : list batch) (segs : list mappedSegment)
    (i : nat) (ds : batch) (seg : mappedSegment) (st : CorpusStats) (q : Query) (k : Z) (accept : accept_fn) :
  Forall2 answers bs segs → bs !! i = Some ds → segs !! i = Some seg →
  same_corpus (AggregateStats (Some <$> segs)) st → memo_ok st →
  Z.of_nat (length (corpus bs)) < 2 ^ 63 →
  (∀ toks, toks ∈ ds.*2 → regular Log bs q toks) →
  ∃ hits st', Search Log seg q (Some st) k accept = Ok (hits, Some st') ∧
    same_corpus st st' ∧ memo_ok st' ∧
    descending hits ∧ selection (Z.to_nat k) (candidates Log bs q accept ds) hits.
Proof.
  intros Ha Hi Hsi Hsame Hmemo Hsmall Hreg. pose proof (Forall2_lookup_lr _ _ _ _ _ _ Ha Hi Hsi) as Hds.
  apply search_under_stats; [done|by eapply list_elem_of_lookup_2| |done|done].
  exact (stats_of_same bs _ st (aggregate_spec bs segs Ha) Hsame Hmemo).
Qed.

(** C10: If its values fit the layout ([index_fits]: counts are not negative, the planned size is within the limit, no
    document has 2^32 tokens in a field, and in a front-coded dictionary every term is
    shorter than 2^16 bytes, a bound that the code does not check), the opened segment
    searches as the accumulator it was encoded from: the same hits with the same scores to
    the last bit, the same statistics afterwards, the same errors of other segments'
    dictionaries, for every query, statistics, limit and filter. *)
Theorem search_parity (Log : spec_float → spec_float) (kind : Z) (docs : list docFieldTokens)
    (H : index_fits kind docs) :
  ∃ b seg, encodeSegmentV2 (buildSegment docs) kind = Ok b ∧ openSegmentV2 b = Ok seg ∧
    ∀ q stats k accept, Search Log seg q stats k accept = AccSearch Log (buildSegment docs) q stats k accept.
Proof.
  destruct (encodable_roundtrip kind _ (built_encodable _ _ H)) as (b & seg & Hb & Ho & Hr & _).
  exists b, seg. split_and!; [done..|]. intros q stats k accept. eapply search_same; [|exact Hr]. by apply openSegment_ok.
Qed.

(** ** A small corpus *)

Lemma opened_answers kind docs : index_fits kind docs → answers (indexed docs) (opened (sample_blob kind docs)).
Proof.
  intros H. destruct (encodable_roundtrip kind _ (built_encodable _ _ H)) as (b & seg & Hb & Ho & Hr & _).
  unfold opened, sample_blob. rewrite Hb, Ho. eapply represents_answers; [exact Ho|apply built_build|exact Hr].
Qed.

#[export] Instance nonzero_sums_dec l : Decision (nonzero_sums l).
Proof.
  refine (cast_if (decide (Forall (λ i, SFeqb (f_sum (take i l)) f_zero = false) (seq 1 (length l))))).
  - rewrite Forall_forall in *. intros i Hi. apply f. apply elem_of_seq. lia.
  - intros Hn. apply n, Forall_forall. intros i Hi%elem_of_seq. apply Hn. lia.
Defined.

#[export] Instance regular_dec Log bs q toks : Decision (regular Log bs q toks).
Proof.
  unfold regular. apply and_dec; [apply _|]. destruct (scored_dec (doc_score Log bs q toks)); [by left|by right].
Defined.

(** One document per segment. *)
Definition fruit_parts : list (list docFieldTokens) := (λ d, [d]) <$> fruit.

Definition fruit_segs : list mappedSegment := (λ docs, opened (sample_blob dictBlocked docs)) <$> fruit_parts.

Definition fruit_bs : list batch := indexed <$> fruit_parts.

Definition apples : Query := mkQuery {["apple" := 1; "zebra" := 1]}.

Lemma fruit_fits : Forall (index_fits dictBlocked) fruit_parts.
Proof. apply (bool_decide_unpack _). vm_compute. exact I. Qed.

Lemma fruit_answers : Forall2 answers fruit_bs fruit_segs.
Proof.
  apply Forall2_fmap, Forall_Forall2_diag. eapply Forall_impl; [exact fruit_fits|]. intros docs. apply opened_answers.
Qed.

Lemma search_is_global_witness :
  ∃ ds seg hits st', fruit_bs !! 0%nat = Some ds ∧ fruit_segs !! 0%nat = Some seg ∧
    Search (λ x, x) seg apples (Some (AggregateStats (Some <$> fruit_segs))) 1 None = Ok (hits, Some st') ∧
    selection 1 (candidates (λ x, x) fruit_bs apples None ds) hits.
Proof.
  destruct (fruit_bs !! 0%nat) as [ds|] eqn:Hds; [|discriminate Hds].
  destruct (fruit_segs !! 0%nat) as [seg|] eqn:Hseg; [|discriminate Hseg].
  destruct (search_is_global (λ x, x) fruit_bs fruit_segs 0 ds seg (AggregateStats (Some <$> fruit_segs)) apples 1 None
    fruit_answers Hds Hseg) as (hits & st' & H1 & _ & _ & _ & H2).
  - reflexivity.
  - apply (so_memo fruit_bs), aggregate_spec, fruit_answers.
  - vm_compute. reflexivity.
  - apply Forall_forall. injection Hds as <-. apply (bool_decide_unpack _). vm_compute. exact I.
  - exists ds, seg, hits, st'. split; [reflexivity|]. split; [reflexivity|]. split; [exact H1|exact H2].
Defined.

Definition not_first (id : string) : bool := bool_decide (id ≠ "doc-1").

Lemma search_parity_witness :
  ∃ b seg, encodeSegmentV2 (buildSegment fruit) dictBlocked = Ok b ∧ openSegmentV2 b = Ok seg ∧
    let found := Search (λ x, x) seg apples (Some (AggregateStats (Some <$> fruit_segs))) 2 (Some not_first) in
    found = AccSearch (λ x, x) (buildSegment fruit) apples (Some (AggregateStats (Some <$> fruit_segs))) 2 (Some not_first) ∧
    match found with Ok (hits, _) => HitID <$> hits = ["doc-2"] | Err _ => False end.
Proof.
  assert (index_fits dictBlocked fruit) as H by (apply (bool_decide_unpack _); vm_compute; exact I).
  destruct (search_parity (λ x, x) dictBlocked fruit H) as (b & seg & Hb & Ho & Hs).
  exists b, seg. split; [exact Hb|]. split; [exact Ho|]. cbv zeta. split; [apply Hs|].
  rewrite Hs. vm_compute. reflexivity.
Defined.

(** What the search of the first document's segment returns, by running it. *)
Lemma fruit_search :
  match fruit_segs with
  | [seg1; seg2] =>
      let st := AggregateStats [Some seg1; Some seg2] in
      match Search (λ x, x) seg1 apples (Some st) 2 None with
      | Ok ([h], Some st') => HitID h = "doc-1" ∧ memo st' = {["apple" := 2; "zebra" := 1]}
      | _ => False
      end
  | _ => False
  end.
Proof. vm_compute. split; reflexivity. Qed.

Definition with_memo (m : gmap string Z) (s : CorpusStats) : CorpusStats :=
  mkStats (TotalDocs s) (FieldAvgLen s) (fieldTokens s) (probes s) m.

Lemma with_memo_same m s : same_corpus (with_memo m s) s.
Proof. by split. Qed.

(** Appending the second document's segment after a query has left its counts in the memo. *)
Lemma append_is_aggregate_witness :
  ∃ prev, memo prev = {["apple" := 1; "zebra" := 1]} ∧
    AppendStats (Some prev) (fruit_segs !! 1%nat) = AggregateStats ((Some <$> take 1 fruit_segs) ++ [fruit_segs !! 1%nat]).
Proof.
  exists (with_memo {["apple" := 1; "zebra" := 1]} (AggregateStats (Some <$> take 1 fruit_segs))).
  split; [reflexivity|].
  exact (append_is_aggregate (Some <$> take 1 fruit_segs) (fruit_segs !! 1%nat) _ (with_memo_same _ _)).
Defined.
