(* ===== verification/Bm25Tokenize.v ===== *)
(** * The tokenizer of the bm25 format ([formats/bm25/tokenizer.go], [strings.go])

    A text is cut into words, a word into its snake-case and camel-case parts; whole words
    and parts are counted in lower case.  The code lowers a whole text or word once and
    takes the parts from the lowered buffer at the offsets they have in the word.

    A slice out of range is the error [SliceBounds], the panic of the runtime.  Counts are
    not wrapped: a text has fewer tokens than twice its bytes. *)

From Stdlib Require Import Ascii.
From S2P Require Import Prelude Supersession Bm25Read Utf8.

Local Open Scope Z_scope.

Inductive panic := SliceBounds.

(** [s[i:j]] *)
Definition slice_of (s : list ascii) (i j : nat) : fueled panic (list ascii) :=
  match slice s i j with Some v => Some (Ok v) | None => Some (Err SliceBounds) end.

Abbreviation counts := (gmap string Z).

(** [tokens[t]++] *)
Definition bump (m : counts) (t : list ascii) : counts :=
  <[of_bytes t := default 0 (m !! of_bytes t) + 1]> m.

(** ** Bytes *)

Definition isUpperASCII (c : ascii) : bool := (65 <=? byte_z c) && (byte_z c <=? 90).
Definition isLowerASCII (c : ascii) : bool := (97 <=? byte_z c) && (byte_z c <=? 122).
Definition isDigitASCII (c : ascii) : bool := (48 <=? byte_z c) && (byte_z c <=? 57).

Definition isWordByte (c : ascii) : bool :=
  isLowerASCII c || isUpperASCII c || isDigitASCII c || bool_decide (c = "_"%char).

Fixpoint isASCII (s : list ascii) : bool :=
  match s with
  | [] => true
  | c :: s => if 128 <=? byte_z c then false else isASCII s
  end.

(** The scan of [toLowerASCII]: whether there is an upper-case byte, whether there is one
    that is not ASCII, where it stops. *)
Fixpoint scan_case (s : list ascii) (hasUpper : bool) : bool * bool :=
  match s with
  | [] => (hasUpper, false)
  | c :: s => if 128 <=? byte_z c then (hasUpper, true) else scan_case s (isUpperASCII c || hasUpper)
  end.

Definition lower_upper (c : ascii) : ascii := if isUpperASCII c then z_byte (byte_z c + 32) else c.

Section Tokenize.
Context `{Unicode}.

Definition toLowerASCII (s : list ascii) : list ascii :=
  let '(hasUpper, hasNonASCII) := scan_case s false in
  if hasNonASCII then map_lower s else if hasUpper then lower_upper <$> s else s.

(** ** The parts of a word *)

Definition lowerPart (word lower : list ascii) (start stop : nat) : fueled panic (list ascii) :=
  if decide (length word = length lower) then slice_of lower start stop
  else part <~~ slice_of word start stop ;; Some (Ok (toLowerASCII part)).

Definition emitCamelPart (word lower : list ascii) (start stop : nat) (m : counts) : fueled panic counts :=
  if decide (stop - start < 2)%nat then Some (Ok m)
  else pl <~~ lowerPart word lower start stop ;; Some (Ok (if decide (pl = lower) then m else bump m pl)).

(** A part starts at the upper-case byte: of ["aB"], and of the ["Bc"] of ["ABc"]. *)
Definition split_at (prev cur : ascii) (next : list ascii) : bool :=
  isLowerASCII prev && isUpperASCII cur ||
  match next with c :: _ => isUpperASCII prev && isUpperASCII cur && isLowerASCII c | [] => false end.

(** The loop at [i]; [prev] and [rest] are the byte before and the bytes from there on. *)
Fixpoint camel_loop (word lower : list ascii) (i : nat) (prev : ascii) (rest : list ascii) (start : nat) (m : counts) :
    fueled panic counts :=
  match rest with
  | [] => emitCamelPart word lower start i m
  | cur :: next =>
      if split_at prev cur next then
        m <~~ emitCamelPart word lower start i m ;; camel_loop word lower (S i) cur next i m
      else camel_loop word lower (S i) cur next start m
  end.

Definition tokenizeCamelParts (word lower : list ascii) (m : counts) : fueled panic counts :=
  match word with
  | [] => emitCamelPart word lower 0 0 m
  | c :: rest => camel_loop word lower 1 c rest 0 m
  end.

(** [strings.SplitSeq] at a byte. *)
Fixpoint SplitSeq (s : list ascii) (sep : ascii) : list (list ascii) :=
  match s with
  | [] => [[]]
  | c :: s =>
      if decide (c = sep) then [] :: SplitSeq s sep
      else match SplitSeq s sep with [] => [[c]] | p :: ps => (c :: p) :: ps end
  end.

Fixpoint snake_loop (word lower : list ascii) (parts : list (list ascii)) (off : nat) (m : counts) :
    fueled panic counts :=
  match parts with
  | [] => Some (Ok m)
  | part :: parts =>
      m <~~ (if decide (2 ≤ length part)%nat then
               partLower <~~ lowerPart word lower off (off + length part) ;;
               tokenizeCamelParts part partLower (bump m partLower)
             else Some (Ok m)) ;;
      snake_loop word lower parts (off + length part + 1) m
  end.

Definition tokenizeSnakeCase (word lower : list ascii) (m : counts) : fueled panic counts :=
  snake_loop word lower (SplitSeq word "_"%char) 0 m.

Definition tokenizeWord (word lower : list ascii) (m : counts) : fueled panic counts :=
  if decide ("_"%char ∈ word) then tokenizeSnakeCase word lower m else tokenizeCamelParts word lower m.

(** ** The words of a text *)

(** [splitOnDelimitersFuncOffset] from [i], before the bytes [rest]; the callback is
    given the offsets of each word. *)
Fixpoint split_offsets (fn : nat → nat → counts → fueled panic counts)
    (i : nat) (rest : list ascii) (wordStart : option nat) (m : counts) : fueled panic counts :=
  match rest with
  | [] => match wordStart with Some start => fn start i m | None => Some (Ok m) end
  | c :: rest =>
      match isWordByte c, wordStart with
      | true, None => split_offsets fn (S i) rest (Some i) m
      | false, Some start => m <~~ fn start i m ;; split_offsets fn (S i) rest None m
      | _, _ => split_offsets fn (S i) rest wordStart m
      end
  end.

Definition splitOnDelimitersFuncOffset (text : list ascii) (fn : nat → nat → counts → fueled panic counts) :
    counts → fueled panic counts :=
  split_offsets fn 0 text None.

Definition isWordRune (r : Z) : bool := IsLetter r || IsDigit r || (r =? 95).

(** The rune-aware loop of [splitOnDelimitersFunc] at [pos]. *)
Fixpoint split_runes (fuel : nat) (text : list ascii) (fn : list ascii → counts → fueled panic counts)
    (pos : nat) (start : option nat) (m : counts) : fueled panic counts :=
  match fuel with
  | O => None
  | S fuel =>
      if decide (pos < length text)%nat then
        let '(r, size) := DecodeRune (drop pos text) in
        match isWordRune r, start with
        | true, None => split_runes fuel text fn (pos + size) (Some pos) m
        | false, Some st =>
            w <~~ slice_of text st pos ;; m <~~ fn w m ;; split_runes fuel text fn (pos + size) None m
        | _, _ => split_runes fuel text fn (pos + size) start m
        end
      else
        match start with
        | Some st => w <~~ slice_of text st (length text) ;; fn w m
        | None => Some (Ok m)
        end
  end.

(** Every rune takes a byte at least, and one round is for the end. *)
Definition splitOnDelimitersFunc (text : list ascii) (fn : list ascii → counts → fueled panic counts) :
    counts → fueled panic counts :=
  if isASCII text then split_offsets (λ i j m, w <~~ slice_of text i j ;; fn w m) 0 text None
  else split_runes (S (length text)) text fn 0 None.

(** ** [tokenize] *)

(** The callback of the fast path: words are slices of the text lowered once. *)
Definition fast_word (text lowerText : list ascii) (i j : nat) (m : counts) : fueled panic counts :=
  if decide (j - i < 2)%nat then Some (Ok m)
  else
    word <~~ slice_of text i j ;;
    lower <~~ slice_of lowerText i j ;;
    tokenizeWord word lower (bump m lower).

Definition slow_word (word : list ascii) (m : counts) : fueled panic counts :=
  if decide (length word < 2)%nat then Some (Ok m)
  else let lower := toLowerASCII word in tokenizeWord word lower (bump m lower).

Definition tokenize (text : list ascii) : fueled panic counts :=
  if isASCII text then splitOnDelimitersFuncOffset text (fast_word text (toLowerASCII text)) ∅
  else splitOnDelimitersFunc text slow_word ∅.
End Tokenize.
