(* ===== verification/Bm25TokenizeProps.v ===== *)
(** * What the tokenizer counts ([formats/bm25/tokenizer.go])

    The tokenizer ends without a panic on any bytes.  If lowering moves no part of a word
    out of its place — always in ASCII — what it counts is the reference: each word of two
    bytes in lower case, and its parts, each lowered by itself.  A word in which one rune
    shrinks and another grows is the exception, in spite of the comment. *)

From Stdlib Require Import Ascii.
From S2P Require Import Prelude Supersession Bm25Read Bm25Build Utf8 Bm25Tokenize.

Local Open Scope Z_scope.

Definition bump_all (m : counts) (ts : list (list ascii)) : counts := foldl bump m ts.

Lemma bump_all_app m ts1 ts2 : bump_all m (ts1 ++ ts2) = bump_all (bump_all m ts1) ts2.
Proof. apply foldl_app. Qed.

(** ** The reference *)

(** The rest of the part that [prev] is in, and the parts after it. *)
Fixpoint humps_from (prev : ascii) (rest : list ascii) : list ascii * list (list ascii) :=
  match rest with
  | [] => ([], [])
  | cur :: next =>
      let '(h, hs) := humps_from cur next in
      if split_at prev cur next then ([], (cur :: h) :: hs) else (cur :: h, hs)
  end.

(** The camel-case parts of a word. *)
Definition humps (word : list ascii) : list (list ascii) :=
  match word with
  | [] => [[]]
  | c :: rest => let '(h, hs) := humps_from c rest in (c :: h) :: hs
  end.

(** The words: maximal runs of word runes. *)
Section Reference.
Context `{Unicode}.

Fixpoint runs (rs : list (Z * list ascii)) (cur : option (list ascii)) : list (list ascii) :=
  match rs with
  | [] => option_list cur
  | (r, v) :: rs =>
      if isWordRune r then runs rs (Some (default [] cur ++ v)) else option_list cur ++ runs rs None
  end.

Definition words_of (text : list ascii) : list (list ascii) := runs (runes text) None.

Definition long (p : list ascii) : Prop := (2 ≤ length p)%nat.

#[export] Instance long_dec p : Decision (long p).
Proof. unfold long. apply _. Defined.

Definition camel_tokens (word : list ascii) : list (list ascii) :=
  filter (.≠ toLowerASCII word) (toLowerASCII <$> filter long (humps word)).

Definition snake_tokens (word : list ascii) : list (list ascii) :=
  mjoin ((λ p, toLowerASCII p :: camel_tokens p) <$> filter long (SplitSeq word "_"%char)).

Definition word_tokens (word : list ascii) : list (list ascii) :=
  toLowerASCII word :: if decide ("_"%char ∈ word) then snake_tokens word else camel_tokens word.

Definition text_tokens (text : list ascii) : list (list ascii) :=
  mjoin (word_tokens <$> filter long (words_of text)).

(** ** What the code takes as a part *)

(** The part [p] at [off]. *)
Definition part_at (word lower : list ascii) (off : nat) (p : list ascii) : list ascii :=
  if decide (length word = length lower) then take (length p) (drop off lower) else toLowerASCII p.

Fixpoint parts_taken (word lower : list ascii) (off : nat) (ps : list (list ascii)) : list (list ascii) :=
  match ps with
  | [] => []
  | p :: ps =>
      (if decide (long p) then
         let t := part_at word lower off p in if decide (t = lower) then [] else [t]
       else []) ++ parts_taken word lower (off + length p) ps
  end.

Lemma slice_of_at a p b : slice_of (a ++ p ++ b) (length a) (length a + length p) = Some (Ok p).
Proof.
  unfold slice_of, slice. rewrite decide_True by (rewrite !length_app; lia).
  rewrite drop_app_length. replace (length a + length p - length a)%nat with (length p) by lia. by rewrite take_app_length.
Qed.

Lemma lowerPart_at a p b lower :
  lowerPart (a ++ p ++ b) lower (length a) (length a + length p) =
    Some (Ok (part_at (a ++ p ++ b) lower (length a) p)).
Proof.
  unfold lowerPart, part_at. case_decide as Hl.
  - unfold slice_of, slice. rewrite decide_True by (rewrite <-Hl, !length_app; lia).
    by replace (length a + length p - length a)%nat with (length p) by lia.
  - by rewrite slice_of_at.
Qed.

Lemma emitCamelPart_at a p b lower m :
  emitCamelPart (a ++ p ++ b) lower (length a) (length a + length p) m =
    Some (Ok (bump_all m (parts_taken (a ++ p ++ b) lower (length a) [p]))).
Proof.
  unfold emitCamelPart. cbn [parts_taken]. rewrite app_nil_r. unfold long.
  destruct (decide (2 ≤ length p)%nat).
  - rewrite decide_False by lia. rewrite lowerPart_at. cbn [fueled_bind]. by destruct (decide (_ = lower)).
  - by rewrite decide_True by lia.
Qed.

(** The loop inside the part [cur_part], of which [prev] is the last byte. *)
Lemma camel_loop_parts lower rest : ∀ a p prev m,
  camel_loop (a ++ (p ++ [prev]) ++ rest) lower (length a + length (p ++ [prev])) prev rest (length a) m =
    Some (Ok (bump_all m (parts_taken (a ++ (p ++ [prev]) ++ rest) lower (length a)
      (let '(h, hs) := humps_from prev rest in ((p ++ [prev]) ++ h) :: hs)))).
Proof.
  induction rest as [|cur next IH]; intros a p prev m; cbn [camel_loop humps_from].
  { rewrite app_nil_r. pose proof (emitCamelPart_at a (p ++ [prev]) [] lower m) as E. by rewrite app_nil_r in E. }
  destruct (humps_from cur next) as [h hs] eqn:Hh. destruct (split_at prev cur next).
  - rewrite emitCamelPart_at. cbn [fueled_bind].
    specialize (IH (a ++ p ++ [prev]) [] cur). rewrite Hh in IH. cbn [app] in IH.
    assert ((a ++ p ++ [prev]) ++ cur :: next = a ++ (p ++ [prev]) ++ cur :: next) as E by (by rewrite <-!app_assoc).
    rewrite E in IH. set (w := a ++ (p ++ [prev]) ++ cur :: next) in *.
    assert (length (a ++ p ++ [prev]) + length [cur] = S (length a + length (p ++ [prev])))%nat as E1
      by (rewrite !length_app; cbn; lia).
    assert (length (a ++ p ++ [prev]) = (length a + length (p ++ [prev]))%nat) as E2 by (by rewrite length_app).
    rewrite E1, E2 in IH. rewrite IH. do 2 f_equal. rewrite <-bump_all_app. f_equal.
    cbn [parts_taken]. by rewrite !app_nil_r.
  - specialize (IH a (p ++ [prev]) cur m). rewrite Hh in IH.
    assert (((p ++ [prev]) ++ [cur]) ++ next = (p ++ [prev]) ++ cur :: next) as E by (by rewrite <-!app_assoc).
    rewrite E in IH. assert (length a + length ((p ++ [prev]) ++ [cur]) = S (length a + length (p ++ [prev])))%nat as E1
      by (rewrite !length_app; cbn; lia). rewrite E1 in IH. rewrite IH. by rewrite <-!app_assoc.
Qed.

Lemma camel_parts word lower m :
  tokenizeCamelParts word lower m = Some (Ok (bump_all m (parts_taken word lower 0 (humps word)))).
Proof.
  destruct word as [|c rest]; cbn [tokenizeCamelParts humps]; [done|].
  pose proof (camel_loop_parts lower rest [] [] c m) as E. cbn [app length Nat.add] in E. rewrite E.
  by destruct (humps_from c rest).
Qed.

Fixpoint snake_taken (word lower : list ascii) (off : nat) (ps : list (list ascii)) : list (list ascii) :=
  match ps with
  | [] => []
  | p :: ps =>
      (if decide (long p) then
         let t := part_at word lower off p in t :: parts_taken p t 0 (humps p)
       else []) ++ snake_taken word lower (off + length p + 1) ps
  end.

(** [strings.Join] at the underscore. *)
Fixpoint join_snake (ps : list (list ascii)) : list ascii :=
  match ps with
  | [] => []
  | [p] => p
  | p :: ps => p ++ "_"%char :: join_snake ps
  end.

Lemma SplitSeq_join w : SplitSeq w "_"%char ≠ [] ∧ join_snake (SplitSeq w "_"%char) = w.
Proof.
  induction w as [|c w [Hn IH]]; [done|]. cbn [SplitSeq].
  destruct (SplitSeq w "_"%char) as [|q qs] eqn:Hs; [done|]. case_decide as Hc.
  - split; [done|]. subst c. cbn [join_snake app] in *. by rewrite IH.
  - split; [done|]. rewrite <-IH. by destruct qs.
Qed.

Lemma snake_loop_parts lower ps : ∀ a m,
  snake_loop (a ++ join_snake ps) lower ps (length a) m =
    Some (Ok (bump_all m (snake_taken (a ++ join_snake ps) lower (length a) ps))).
Proof.
  induction ps as [|p ps IH]; intros a m; [done|]. cbn [snake_loop snake_taken].
  set (w := a ++ join_snake (p :: ps)).
  assert (∃ b, w = a ++ p ++ b) as [b Hw] by (destruct ps; [exists []; by rewrite app_nil_r|by eexists]).
  assert (∀ m', snake_loop w lower ps (length a + length p + 1) m' =
    Some (Ok (bump_all m' (snake_taken w lower (length a + length p + 1) ps)))) as Hrest.
  { intros m'. destruct ps as [|q ps]; [done|]. specialize (IH (a ++ p ++ ["_"%char]) m').
    assert ((a ++ p ++ ["_"%char]) ++ join_snake (q :: ps) = w) as E by (unfold w; cbn [join_snake]; by rewrite <-!app_assoc).
    rewrite E in IH. by rewrite !length_app, Nat.add_assoc in IH. }
  clearbody w. subst w. rewrite bump_all_app, <-Hrest. unfold long.
  destruct (decide (2 ≤ length p)%nat); [|done].
  rewrite lowerPart_at. cbn [fueled_bind]. by rewrite camel_parts.
Qed.

Definition word_taken (word lower : list ascii) : list (list ascii) :=
  if decide ("_"%char ∈ word) then snake_taken word lower 0 (SplitSeq word "_"%char)
  else parts_taken word lower 0 (humps word).

Lemma tokenizeWord_taken word lower m :
  tokenizeWord word lower m = Some (Ok (bump_all m (word_taken word lower))).
Proof.
  unfold tokenizeWord, word_taken. case_decide; [|apply camel_parts].
  unfold tokenizeSnakeCase. destruct (SplitSeq_join word) as [_ Hj].
  pose proof (snake_loop_parts lower (SplitSeq word "_"%char) [] m) as E. cbn [app length] in E. by rewrite Hj in E.
Qed.

(** ** How much is taken *)

Lemma part_at_length word lower off p :
  (length (part_at word lower off p) ≤ 4 * length p)%nat.
Proof.
  unfold part_at. case_decide; [rewrite length_take; lia|].
  unfold toLowerASCII. destruct (scan_case p false) as [[] []]; rewrite ?length_fmap; try apply length_map_lower; lia.
Qed.

Lemma humps_from_concat prev rest :
  (humps_from prev rest).1 ++ concat (humps_from prev rest).2 = rest.
Proof.
  revert prev. induction rest as [|cur next IH]; intros prev; [done|]. cbn [humps_from].
  specialize (IH cur). destruct (humps_from cur next) as [h hs]. cbn [fst snd] in IH.
  destruct (split_at _ _ _); cbn; by rewrite IH.
Qed.

Lemma humps_concat w : concat (humps w) = w.
Proof.
  destruct w as [|c rest]; [done|]. cbn [humps]. pose proof (humps_from_concat c rest) as E.
  destruct (humps_from c rest) as [h hs]. cbn in *. by rewrite E.
Qed.

Definition taken_fit (n : nat) (ts : list (list ascii)) : Prop :=
  Forall (λ t, length t ≤ 4 * n)%nat ts ∧ (2 * length ts ≤ n)%nat.

Lemma parts_taken_fit word lower off ps : taken_fit (length (concat ps)) (parts_taken word lower off ps).
Proof.
  revert off. induction ps as [|p ps IH]; intros off; [by split|]. cbn [parts_taken concat].
  destruct (IH (off + length p)%nat) as [H1 H2]. unfold taken_fit. rewrite length_app.
  assert (∀ l, length l ≤ 1 → (l = [] ∨ long p) → Forall (λ t, length t ≤ 4 * length p)%nat l →
    taken_fit (length p + length (concat ps)) (l ++ parts_taken word lower (off + length p) ps))%nat as Hl.
  { intros l Hl1 Hl2 Hl3. split.
    - apply Forall_app. split; [eapply Forall_impl; [exact Hl3|]|eapply Forall_impl; [exact H1|]]; cbn; lia.
    - rewrite length_app. destruct Hl2 as [->|Hl2]; [cbn; lia|]. unfold long in Hl2. lia. }
  apply Hl; destruct (decide (long p)) as [Hp|Hp]; cbn; try case_decide; auto; try (cbn; lia).
  repeat constructor. apply part_at_length.
Qed.

Lemma camel_taken_fit p lower : taken_fit (length p) (parts_taken p lower 0 (humps p)).
Proof. pose proof (parts_taken_fit p lower 0 (humps p)) as E. by rewrite humps_concat in E. Qed.

Definition words_fit (n : nat) (ts : list (list ascii)) : Prop :=
  Forall (λ t, length t ≤ 4 * n)%nat ts ∧ (length ts ≤ n)%nat.

Lemma words_fit_app n1 n2 ts1 ts2 : words_fit n1 ts1 → words_fit n2 ts2 → words_fit (n1 + n2) (ts1 ++ ts2).
Proof.
  intros [H1 H2] [H3 H4]. split; [|rewrite length_app; lia].
  apply Forall_app. split; (eapply Forall_impl; [eassumption|]); cbn; lia.
Qed.

Lemma words_fit_weaken n1 n2 ts : (n1 ≤ n2)%nat → words_fit n1 ts → words_fit n2 ts.
Proof. intros Hn [H1 H2]. split; [|lia]. eapply Forall_impl; [exact H1|]. cbn. lia. Qed.

Lemma snake_taken_fit word lower off ps : words_fit (length (join_snake ps)) (snake_taken word lower off ps).
Proof.
  revert off. induction ps as [|p ps IH]; intros off; [by split|]. cbn [snake_taken].
  apply (words_fit_weaken (length p + length (join_snake ps))).
  { destruct ps; cbn [join_snake length]; rewrite ?length_app; cbn [length]; lia. }
  apply words_fit_app; [|apply IH]. unfold long. destruct (decide (2 ≤ length p)%nat) as [Hp|]; [|by split; [|cbn; lia]].
  set (t := part_at word lower off p). destruct (camel_taken_fit p t) as [H1 H2].
  split; [|cbn; lia]. constructor; [apply part_at_length|]. exact H1.
Qed.

Lemma word_taken_fit word lower : words_fit (length word) (word_taken word lower).
Proof.
  unfold word_taken. case_decide.
  - destruct (SplitSeq_join word) as [_ Hj]. rewrite <-Hj at 1. apply snake_taken_fit.
  - destruct (camel_taken_fit word lower). split; [done|lia].
Qed.

(** ** Lower case *)

Lemma isASCII_Forall s : isASCII s = true ↔ Forall (λ c, byte_z c < 128) s.
Proof.
  induction s as [|c s IH]; cbn [isASCII]; [done|]. rewrite Forall_cons, <-IH.
  destruct (Z.leb_spec 128 (byte_z c)); split; try done; try lia. tauto.
Qed.

Lemma scan_case_spec s u :
  (isASCII s = true → scan_case s u = (u || existsb isUpperASCII s, false)) ∧
  (isASCII s = false → (scan_case s u).2 = true).
Proof.
  revert u. induction s as [|c s IH]; intros u; cbn [scan_case isASCII existsb]; [by rewrite orb_false_r|].
  destruct (128 <=? byte_z c); [done|]. destruct (IH (isUpperASCII c || u)) as [H1 H2]. split; [|done].
  intros Hs. rewrite H1 by done. f_equal. by destruct (isUpperASCII c), u.
Qed.

Lemma lower_upper_id s : existsb isUpperASCII s = false → lower_upper <$> s = s.
Proof.
  induction s as [|c s IH]; [done|]. cbn [existsb fmap list_fmap]. intros [Hc Hs]%orb_false_iff.
  change (lower_upper c :: (lower_upper <$> s) = c :: s). unfold lower_upper at 1. by rewrite Hc, IH.
Qed.

Lemma toLowerASCII_ascii s : isASCII s = true → toLowerASCII s = lower_upper <$> s.
Proof.
  intros Hs. unfold toLowerASCII. destruct (scan_case_spec s false) as [H1 _]. rewrite H1 by done.
  cbn [orb]. destruct (existsb _ s) eqn:E; [done|]. by rewrite lower_upper_id.
Qed.

Lemma toLowerASCII_other s : isASCII s = false → toLowerASCII s = map_lower s.
Proof.
  intros Hs. unfold toLowerASCII. destruct (scan_case_spec s false) as [_ H1]. specialize (H1 Hs).
  destruct (scan_case s false) as [u n]. cbn in H1. by subst n.
Qed.

Lemma isASCII_app a b : isASCII (a ++ b) = isASCII a && isASCII b.
Proof. induction a as [|c a IH]; cbn [isASCII app]; [done|]. by destruct (128 <=? byte_z c). Qed.

Context `{!UnicodeAscii}.

(** Both ways of lowering are the same function. *)
Lemma toLowerASCII_map s : toLowerASCII s = map_lower s.
Proof.
  destruct (isASCII s) eqn:Hs; [|by apply toLowerASCII_other]. rewrite toLowerASCII_ascii by done.
  apply isASCII_Forall in Hs. unfold map_lower. rewrite runes_ascii by done.
  induction Hs as [|c s Hc _ IH]; [done|]. change (lower_upper c :: (lower_upper <$> s) =
    lower_rune (byte_z c) ++ mjoin (lower_rune ∘ fst <$> ((λ c, (byte_z c, [c])) <$> s))). rewrite <-IH.
  pose proof (byte_z_range c) as Hr. unfold lower_rune. rewrite ToLower_ascii by lia.
  unfold lower_upper, isUpperASCII. destruct (_ && _) eqn:Hu.
  - rewrite (proj2 (Z.ltb_ge _ _)) by lia. unfold AppendRune. rewrite (proj2 (andb_true_iff _ _)) by lia. done.
  - rewrite (proj2 (Z.ltb_ge _ _)) by lia. unfold AppendRune. rewrite (proj2 (andb_true_iff _ _)) by lia.
    by rewrite z_byte_z.
Qed.

(** ** The words of a text *)

Lemma isWordRune_ascii c : byte_z c < 128 → isWordRune (byte_z c) = isWordByte c.
Proof.
  intros Hc. pose proof (byte_z_range c). unfold isWordRune, isWordByte, isLowerASCII, isUpperASCII, isDigitASCII.
  rewrite IsLetter_ascii, IsDigit_ascii by lia.
  assert ((byte_z c =? 95) = bool_decide (c = "_"%char)) as ->.
  { case_bool_decide as E; [by subst|]. apply Z.eqb_neq. intros E'. apply E. rewrite <-(z_byte_z c), E'. done. }
  f_equal. by rewrite (orb_comm (_ && _)).
Qed.

(** The callback counts the tokens [f] of the word it is given. *)
Definition callback_counts (text : list ascii) (f : list ascii → list (list ascii))
    (fn : nat → nat → counts → fueled panic counts) : Prop :=
  ∀ a w b m, text = a ++ w ++ b → fn (length a) (length a + length w)%nat m = Some (Ok (bump_all m (f w))).

Lemma split_offsets_runs text f fn rest : callback_counts text f fn → Forall (λ c, byte_z c < 128) rest →
  ∀ a cur m, text = a ++ default [] cur ++ rest →
  split_offsets fn (length a + length (default [] cur)) rest ((λ _, length a) <$> cur) m =
    Some (Ok (bump_all m (mjoin (f <$> runs ((λ c, (byte_z c, [c])) <$> rest) cur)))).
Proof.
  intros Hfn. induction 1 as [|c rest Hc _ IH]; intros a cur m Ht.
  - cbn [split_offsets fmap list_fmap runs]. destruct cur as [w|]; cbn; [|done].
    rewrite (Hfn a w []) by done. by rewrite app_nil_r.
  - cbn [split_offsets fmap list_fmap runs]. rewrite isWordRune_ascii by done.
    destruct (isWordByte c).
    + specialize (IH a (Some (default [] cur ++ [c])) m). cbn [default from_option id] in IH.
      assert (S (length a + length (default [] cur)) = length a + length (default [] cur ++ [c]))%nat as E
        by (rewrite length_app; cbn; lia).
      destruct cur as [w|]; cbn [default from_option id app] in *; cbn [fmap option_fmap option_map] in *.
      * rewrite E. apply IH. by rewrite Ht, <-!app_assoc.
      * rewrite Nat.add_0_r in *. replace (S (length a)) with (length a + length [c])%nat by (cbn; lia). by apply IH.
    + destruct cur as [w|]; cbn [default from_option id app length] in *.
      * cbn. rewrite (Hfn a w (c :: rest)) by done. cbn [fueled_bind].
        specialize (IH (a ++ w ++ [c]) None (bump_all m (f w))). cbn in IH.
        replace (S (length a + length w)) with (length (a ++ w ++ [c]) + 0)%nat by (rewrite !length_app; cbn; lia).
        rewrite IH by (by rewrite Ht, <-!app_assoc). by rewrite <-bump_all_app.
      * specialize (IH (a ++ [c]) None m). cbn in IH. cbn.
        replace (S (length a + 0)) with (length (a ++ [c]) + 0)%nat by (rewrite !length_app; cbn; lia).
        rewrite IH by (by rewrite Ht, <-!app_assoc). done.
Qed.

Lemma split_runes_runs text f fn rest : (∀ w m, fn w m = Some (Ok (bump_all m (f w)))) →
  ∀ fuel a cur m, text = a ++ default [] cur ++ rest → (length rest < fuel)%nat →
  split_runes fuel text fn (length a + length (default [] cur)) ((λ _, length a) <$> cur) m =
    Some (Ok (bump_all m (mjoin (f <$> runs (runes rest) cur)))).
Proof.
  intros Hfn. induction rest as [|rest Hne IH] using runes_ind; intros fuel a cur m Ht Hf;
    (destruct fuel as [|fuel]; [lia|]); cbn [split_runes].
  - rewrite decide_False by (rewrite Ht, app_nil_r, length_app; lia).
    destruct cur as [w|]; cbn [fmap option_fmap option_map default from_option id] in *; [|done].
    rewrite Ht, app_nil_r in *. pose proof (slice_of_at a w []) as Hs. rewrite app_nil_r in Hs.
    rewrite length_app, Hs. cbn [fueled_bind]. rewrite Hfn. cbn. by rewrite app_nil_r.
  - destruct (DecodeRune_width rest Hne) as [Hw Hle].
    assert (0 < length rest)%nat by (destruct rest; [done|cbn; lia]).
    rewrite decide_True by (rewrite Ht, !length_app; lia).
    assert (drop (length a + length (default [] cur)) text = rest) as ->.
    { rewrite Ht, app_assoc. apply drop_app_length'. by rewrite length_app. }
    rewrite runes_cons by done. destruct (DecodeRune rest) as [r n]. cbn [fst snd] in *. cbn [runs].
    assert (length (take n rest) = n) as Hn by (rewrite length_take; lia).
    assert (length (drop n rest) < fuel)%nat as Hfuel by (rewrite length_drop; lia).
    destruct (isWordRune r).
    + specialize (IH fuel a (Some (default [] cur ++ take n rest)) m).
      cbn [default from_option id fmap option_fmap option_map] in IH. rewrite length_app, Hn, Nat.add_assoc in IH.
      destruct cur as [w|]; cbn [default from_option id app length fmap option_fmap option_map] in *.
      * apply IH; [|done]. by rewrite Ht, <-app_assoc, take_drop.
      * rewrite Nat.add_0_r in *. apply IH; [|done]. by rewrite Ht, take_drop.
    + destruct cur as [w|]; cbn [default from_option id app length fmap option_fmap option_map] in *.
      * rewrite Ht at 1. rewrite slice_of_at. cbn [fueled_bind]. rewrite Hfn. cbn [fueled_bind].
        specialize (IH fuel (a ++ w ++ take n rest) None (bump_all m (f w))).
        cbn [default from_option id app length fmap option_fmap option_map] in IH.
        rewrite !length_app, Hn, Nat.add_0_r, Nat.add_assoc in IH.
        rewrite IH by (done || by rewrite Ht, <-!app_assoc, take_drop). by rewrite <-bump_all_app.
      * specialize (IH fuel (a ++ take n rest) None m).
        cbn [default from_option id app length fmap option_fmap option_map] in IH.
        rewrite !length_app, Hn, !Nat.add_0_r in IH. rewrite Nat.add_0_r.
        rewrite IH by (done || by rewrite Ht, <-!app_assoc, take_drop). done.
Qed.

(** ** The tokens of a text, as the code takes them *)

Definition tokens_taken (word : list ascii) : list (list ascii) :=
  if decide (long word) then toLowerASCII word :: word_taken word (toLowerASCII word) else [].

Definition text_taken (text : list ascii) : list (list ascii) := mjoin (tokens_taken <$> words_of text).

Lemma slow_word_taken w m : slow_word w m = Some (Ok (bump_all m (tokens_taken w))).
Proof.
  unfold slow_word, tokens_taken, long. destruct (decide (2 ≤ length w)%nat).
  - rewrite decide_False by lia. apply tokenizeWord_taken.
  - by rewrite decide_True by lia.
Qed.

Lemma fast_word_taken text : isASCII text = true →
  callback_counts text tokens_taken (fast_word text (toLowerASCII text)).
Proof.
  intros Hs a w b m ->. unfold fast_word, tokens_taken, long.
  replace (length a + length w - length a)%nat with (length w) by lia.
  rewrite !isASCII_app in Hs. destruct (isASCII a) eqn:Ha, (isASCII w) eqn:Hw, (isASCII b) eqn:Hb; try done.
  destruct (decide (2 ≤ length w)%nat); [|by rewrite decide_True by lia].
  rewrite decide_False by lia. rewrite slice_of_at. cbn [fueled_bind].
  rewrite (toLowerASCII_ascii (a ++ w ++ b)) by (by rewrite !isASCII_app, Ha, Hw, Hb).
  rewrite !fmap_app. pose proof (slice_of_at (lower_upper <$> a) (lower_upper <$> w) (lower_upper <$> b)) as E.
  rewrite !length_fmap in E. rewrite E. cbn [fueled_bind]. rewrite (toLowerASCII_ascii w) by done.
  apply tokenizeWord_taken.
Qed.

Lemma tokenize_taken text : tokenize text = Some (Ok (bump_all ∅ (text_taken text))).
Proof.
  unfold tokenize, splitOnDelimitersFuncOffset, splitOnDelimitersFunc, text_taken, words_of.
  destruct (isASCII text) eqn:Hs.
  - pose proof (split_offsets_runs text tokens_taken _ text (fast_word_taken text Hs)) as E.
    apply isASCII_Forall in Hs as Hb. specialize (E Hb [] None ∅ eq_refl). cbn in E. rewrite E.
    by rewrite (runes_ascii text).
  - by rewrite <-(split_runes_runs text tokens_taken slow_word text slow_word_taken (S (length text)) [] None ∅ eq_refl) by lia.
Qed.

(** ** Parts in their places *)

Lemma part_at_level a p b : clean a (p ++ b) → clean p b → level (a ++ p ++ b) →
  part_at (a ++ p ++ b) (toLowerASCII (a ++ p ++ b)) (length a) p = toLowerASCII p.
Proof.
  intros H1 H2 Hl. unfold part_at. rewrite !toLowerASCII_map. case_decide as Hlen; [|done].
  by apply level_slice.
Qed.

Definition starts_part (p : list ascii) : Prop := ∃ c q, p = c :: q ∧ byte_z c < 128.

Lemma starts_concat ps : Forall starts_part ps → starts_ascii (concat ps).
Proof. intros [|p ps' (c & q & -> & Hc) _]; done. Qed.

Lemma split_at_ascii prev cur next : split_at prev cur next = true → byte_z cur < 128.
Proof.
  unfold split_at, isUpperASCII. intros Hs. pose proof (byte_z_range cur).
  destruct (Z.leb_spec (byte_z cur) 90); [lia|]. rewrite !andb_false_r in Hs. by destruct next.
Qed.

Lemma humps_from_starts prev rest : Forall starts_part (humps_from prev rest).2.
Proof.
  revert prev. induction rest as [|cur next IH]; intros prev; [constructor|]. cbn [humps_from].
  specialize (IH cur). destruct (humps_from cur next) as [h hs]. destruct (split_at _ _ _) eqn:Hs; [|done].
  constructor; [|done]. exists cur, h. split; [done|]. by eapply split_at_ascii.
Qed.

Lemma parts_taken_level ps : ∀ a, let w := a ++ concat ps in
  clean a (concat ps) → Forall starts_part (tail ps) → level w →
  parts_taken w (toLowerASCII w) (length a) ps = filter (.≠ toLowerASCII w) (toLowerASCII <$> filter long ps).
Proof.
  cbn zeta. induction ps as [|p ps IH]; intros a Hc Hs Hl; [done|]. cbn [parts_taken concat tail] in *.
  assert (clean p (concat ps)) as Hp by (by apply clean_before, starts_concat).
  rewrite part_at_level by done. rewrite filter_cons.
  specialize (IH (a ++ p)). rewrite <-app_assoc, length_app in IH. rewrite IH; [|by apply clean_before, starts_concat| |done].
  - destruct (decide (long p)); [|done]. rewrite fmap_cons, filter_cons.
    destruct (decide (toLowerASCII p = _)), (decide (toLowerASCII p ≠ _)); done || tauto.
  - by destruct Hs.
Qed.

Lemma camel_taken_level w : level w → parts_taken w (toLowerASCII w) 0 (humps w) = camel_tokens w.
Proof.
  intros Hl. pose proof (parts_taken_level (humps w) []) as E. cbn [app length] in E. rewrite humps_concat in E.
  apply E; [done| |done]. destruct w as [|c rest]; [constructor|]. cbn [humps].
  pose proof (humps_from_starts c rest) as Hs. by destruct (humps_from c rest).
Qed.

Lemma join_snake_cons p ps : ps ≠ [] → join_snake (p :: ps) = p ++ "_"%char :: join_snake ps.
Proof. by destruct ps. Qed.

Lemma snake_taken_level ps : ∀ a, let w := a ++ join_snake ps in
  (∀ b, clean a b) → level w →
  snake_taken w (toLowerASCII w) (length a) ps =
    mjoin ((λ p, toLowerASCII p :: camel_tokens p) <$> filter long ps).
Proof.
  cbn zeta. induction ps as [|p ps IH]; intros a Hc Hl; [done|]. cbn [snake_taken].
  set (w := a ++ join_snake (p :: ps)) in *.
  assert (∃ b, w = a ++ p ++ b ∧ starts_ascii b) as (b & Hw & Hb).
  { destruct (decide (ps = [])) as [->|Hps]; [exists []; by rewrite app_nil_r|]. unfold w. rewrite join_snake_cons by done. by eexists. }
  assert (clean p b) as Hp by (by apply clean_before).
  assert (level p) as Hlp.
  { rewrite Hw in Hl. by apply level_app in Hl as [_ [Hl _]%level_app]. }
  assert (part_at w (toLowerASCII w) (length a) p = toLowerASCII p) as -> by (rewrite Hw in *; by apply part_at_level).
  assert (snake_taken w (toLowerASCII w) (length a + length p + 1) ps =
    mjoin ((λ p, toLowerASCII p :: camel_tokens p) <$> filter long ps)) as ->.
  { destruct (decide (ps = [])) as [->|Hps]; [done|]. specialize (IH (a ++ p ++ ["_"%char])).
    assert ((a ++ p ++ ["_"%char]) ++ join_snake ps = w) as E by (unfold w; rewrite join_snake_cons by done; by rewrite <-!app_assoc).
    rewrite E, !length_app, Nat.add_assoc in IH. apply IH; [|done]. intros b'. rewrite app_assoc. by apply clean_after. }
  rewrite filter_cons. destruct (decide (long p)); [|done]. cbn [fmap list_fmap]. by rewrite camel_taken_level.
Qed.

Lemma tokens_taken_level w : level w → long w → tokens_taken w = word_tokens w.
Proof.
  intros Hl Hw. unfold tokens_taken, word_tokens, word_taken. rewrite decide_True by done. f_equal.
  destruct (decide (_ ∈ w)); [|by apply camel_taken_level]. destruct (SplitSeq_join w) as [_ Hj].
  pose proof (snake_taken_level (SplitSeq w "_"%char) []) as E. cbn [app length] in E. rewrite Hj in E. by apply E.
Qed.

(** In ASCII nothing moves. *)
Lemma level_ascii w : isASCII w = true → level w.
Proof.
  intros Hw%isASCII_Forall. left. rewrite runes_ascii by done. apply Forall_fmap. eapply Forall_impl; [exact Hw|].
  intros c Hc. pose proof (byte_z_range c). cbn in Hc. unfold grows, compose, lower_rune. cbn [fst snd length].
  rewrite ToLower_ascii by lia. destruct (_ && _) eqn:E; rewrite (proj2 (Z.ltb_ge _ _)) by lia;
    apply length_AppendRune.
Qed.

Lemma runs_Forall (P : ascii → Prop) rs cur :
  Forall (Forall P) rs.*2 → Forall P (default [] cur) → Forall (Forall P) (runs rs cur).
Proof.
  revert cur. induction rs as [|[r v] rs IH]; intros cur Hrs Hcur; cbn [runs].
  - destruct cur as [w|]; [by repeat constructor|constructor].
  - apply Forall_cons in Hrs as [Hv Hrs]. destruct (isWordRune r); [apply IH; [done|by apply Forall_app]|].
    apply Forall_app. split; [destruct cur; by repeat constructor|by apply IH].
Qed.

Lemma words_ascii text : isASCII text = true → Forall level (words_of text).
Proof.
  intros Hs%isASCII_Forall. unfold words_of. eapply Forall_impl; [|intros w Hw; by apply level_ascii, isASCII_Forall].
  apply runs_Forall; [|constructor]. rewrite runes_ascii by done. rewrite <-list_fmap_compose. apply Forall_fmap.
  eapply Forall_impl; [exact Hs|]. intros c Hc. by repeat constructor.
Qed.

Lemma text_taken_level text : Forall level (words_of text) → text_taken text = text_tokens text.
Proof.
  intros Hl. unfold text_taken, text_tokens.
  induction Hl as [|w ws Hw _ IH]; [done|]. rewrite filter_cons. cbn [fmap list_fmap mjoin list_join].
  change (tokens_taken w ++ mjoin (tokens_taken <$> ws) = mjoin (word_tokens <$> (if decide (long w) then w :: filter long ws else filter long ws))).
  rewrite IH. case_decide as Hlong; [by rewrite tokens_taken_level|]. unfold tokens_taken. by rewrite decide_False.
Qed.

(** C8: The tokenizer ends without a panic on every text, whatever its bytes.  What it counts,
    of a text in no word of which lowering makes one rune wider and another narrower ([level]),
    is the reference: of every maximal run of letters, digits and underscores, of two bytes at
    least, the run in lower case, its parts between underscores, and the parts of these at
    their camel-case boundaries, each of two bytes at least and lowered by itself; and every
    ASCII text is such a text.  Lengths are in bytes, where the code's comment says
    characters. *)
Theorem tokenize_counts_reference (text : list ascii) :
  (∃ m, tokenize text = Some (Ok m)) ∧
  (Forall level (words_of text) → tokenize text = Some (Ok (bump_all ∅ (text_tokens text)))) ∧
  (isASCII text = true → Forall level (words_of text)).
Proof.
  split; [eexists; apply tokenize_taken|]. split; [|apply words_ascii].
  intros Hl. by rewrite tokenize_taken, text_taken_level.
Qed.

(** On an ASCII text the fast path, which lowers it once and slices, counts what the
    rune-aware path would. *)
Lemma tokenize_paths_agree (text : list ascii) : isASCII text = true →
  tokenize text = split_runes (S (length text)) text slow_word 0 None ∅ ∧
  tokenize text = splitOnDelimitersFunc text slow_word ∅.
Proof.
  intros Hs. rewrite tokenize_taken. split.
  - by rewrite <-(split_runes_runs text tokens_taken slow_word text slow_word_taken (S (length text)) [] None ∅ eq_refl) by lia.
  - unfold splitOnDelimitersFunc. rewrite Hs. apply isASCII_Forall in Hs.
    assert (callback_counts text tokens_taken (λ i j m, w <~~ slice_of text i j ;; slow_word w m)) as Hfn.
    { intros a w b m ->. rewrite slice_of_at. cbn [fueled_bind]. apply slow_word_taken. }
    pose proof (split_offsets_runs text tokens_taken _ text Hfn Hs [] None ∅ eq_refl) as E. cbn in E. rewrite E.
    unfold text_taken, words_of. by rewrite (runes_ascii text).
Qed.

(** ** How much is counted *)

Lemma runs_length rs cur : (length (concat (runs rs cur)) ≤ length (default [] cur) + length (concat rs.*2))%nat.
Proof.
  revert cur. induction rs as [|[r v] rs IH]; intros cur; cbn [runs].
  - destruct cur; cbn; rewrite ?app_nil_r; lia.
  - change (concat ((r, v) :: rs).*2) with (v ++ concat rs.*2). rewrite length_app. destruct (isWordRune r).
    + specialize (IH (Some (default [] cur ++ v))). cbn [default from_option id] in IH. rewrite length_app in IH. lia.
    + specialize (IH None). cbn [default from_option length] in IH. rewrite concat_app, length_app.
      destruct cur; cbn; rewrite ?app_nil_r; lia.
Qed.

Lemma tokens_taken_fit w : words_fit (2 * length w) (tokens_taken w).
Proof.
  unfold tokens_taken, long. destruct (decide (2 ≤ length w)%nat) as [Hw|]; [|by split; [|cbn; lia]].
  destruct (word_taken_fit w (toLowerASCII w)) as [H1 H2]. split; [|cbn [length]; lia]. constructor.
  - rewrite toLowerASCII_map. pose proof (length_map_lower w). lia.
  - eapply Forall_impl; [exact H1|]. cbn. lia.
Qed.

(** No token is longer than four times its word: a rune lowers to four bytes at most. *)
Lemma tokens_taken_le w : Forall (λ t, length t ≤ 4 * length w)%nat (tokens_taken w).
Proof.
  unfold tokens_taken. case_decide; [|constructor]. constructor; [|apply word_taken_fit].
  rewrite toLowerASCII_map. apply length_map_lower.
Qed.

Lemma text_taken_word text t : t ∈ text_taken text → ∃ w, w ∈ words_of text ∧ (length t ≤ 4 * length w)%nat.
Proof.
  unfold text_taken. intros (l & Ht & (w & -> & Hw)%list_elem_of_fmap)%list_elem_of_join. exists w. split; [done|].
  pose proof (tokens_taken_le w) as Hle. rewrite Forall_forall in Hle. by apply Hle.
Qed.

Lemma text_taken_fit text : (length (text_taken text) ≤ 2 * length text)%nat.
Proof.
  unfold text_taken, words_of. pose proof (runs_length (runes text) None) as Hl. rewrite runes_concat in Hl.
  cbn [default from_option length Nat.add] in Hl. revert Hl. generalize (runs (runes text) None). intros ws.
  generalize (length text). intros n. induction ws as [|w ws IH] in n |- *; intros Hl; [by cbn; lia|].
  change (concat (w :: ws)) with (w ++ concat ws) in Hl. rewrite length_app in Hl.
  change (mjoin (tokens_taken <$> w :: ws)) with (tokens_taken w ++ mjoin (tokens_taken <$> ws)).
  specialize (IH (n - length w)%nat ltac:(lia)). rewrite length_app. destruct (tokens_taken_fit w). lia.
Qed.
End Reference.

(** ** Counting *)

Definition occurrences (t : string) (ts : list (list ascii)) : Z :=
  foldr (λ w n, (if decide (of_bytes w = t) then 1 else 0) + n) 0 ts.

Lemma occurrences_pos t ts : 0 ≤ occurrences t ts ∧ (0 < occurrences t ts ↔ ∃ w, w ∈ ts ∧ of_bytes w = t).
Proof.
  unfold occurrences. induction ts as [|w ts [IH1 IH2]]; cbn; [split; [lia|split; [lia|by intros (w & ?%elem_of_nil & _)]]|].
  split; [case_decide; lia|]. case_decide as E.
  - split; [intros _; exists w; split; [by left|done]|lia].
  - rewrite Z.add_0_l, IH2. split; [intros (u & ? & ?); exists u; split; [by right|done]|].
    intros (u & [->|Hu]%elem_of_cons & ?); [done|]. by exists u.
Qed.

Lemma bump_all_lookup ts m t :
  bump_all m ts !! t =
    if decide (occurrences t ts = 0) then m !! t else Some (default 0 (m !! t) + occurrences t ts).
Proof.
  revert m. induction ts as [|w ts IH]; intros m; [done|]. change (bump_all m (w :: ts)) with (bump_all (bump m w) ts).
  rewrite IH. change (occurrences t (w :: ts)) with ((if decide (of_bytes w = t) then 1 else 0) + occurrences t ts).
  destruct (occurrences_pos t ts) as [Hp _]. unfold bump. destruct (decide (of_bytes w = t)) as [<-|Hw].
  - rewrite lookup_insert_eq. cbn [default from_option id]. repeat case_decide; f_equal; lia.
  - by rewrite lookup_insert_ne by done.
Qed.

Lemma token_count_insert (m : counts) k v : token_count (<[k := v]> m) = token_count (delete k m) + v.
Proof.
  rewrite <-insert_delete_eq. unfold token_count. rewrite map_fold_insert_L; [lia|intros; lia|by rewrite lookup_delete_eq].
Qed.

Lemma token_count_delete (m : counts) k : token_count m = token_count (delete k m) + default 0 (m !! k).
Proof.
  destruct (m !! k) as [v|] eqn:Hk; cbn [default from_option id]; [|by rewrite delete_id, Z.add_0_r].
  by rewrite <-token_count_insert, insert_id.
Qed.

Lemma token_count_bump_all m ts : token_count (bump_all m ts) = token_count m + Z.of_nat (length ts).
Proof.
  revert m. induction ts as [|w ts IH]; intros m; [cbn; lia|].
  change (bump_all m (w :: ts)) with (bump_all (bump m w) ts). rewrite IH. unfold bump.
  rewrite token_count_insert, (token_count_delete m (of_bytes w)). cbn [length]. lia.
Qed.

(** ** Words whose runes move *)

Definition is_ascii_letter (r : Z) : bool := (65 <=? r) && (r <=? 90) || (97 <=? r) && (r <=? 122).

(** Some rows of the Unicode tables: É, é, İ and Ⱥ with its lower case, and the Kelvin sign. *)
#[export] Instance sample_unicode : Unicode := {
  IsLetter r := is_ascii_letter r || bool_decide (r ∈ [201; 233; 304; 570; 8490; 11365]);
  IsDigit r := (48 <=? r) && (r <=? 57);
  rune_ToLower r :=
    if decide (r = 201) then 233
    else if decide (r = 304) then 105
    else if decide (r = 570) then 11365
    else if decide (r = 8490) then 107
    else if (65 <=? r) && (r <=? 90) then r + 32 else r
}.

#[export] Instance sample_ascii : UnicodeAscii.
Proof.
  split; intros r Hr; cbn; [|done|by repeat (case_decide; [lia|])].
  rewrite bool_decide_eq_false_2; [by rewrite orb_false_r|]. set_unfold. lia.
Qed.

Abbreviation ascii_text := String.list_ascii_of_string.

(** É shrinks nothing, İ shrinks, and they are not in one word with Ⱥ. *)
Definition sample_text : list ascii :=
  ascii_text "getUserByID x HTTP_serverName " ++ AppendRune 201 ++ ascii_text "tatInitial, " ++
  AppendRune 304 ++ ascii_text "dName " ++ AppendRune 570.

Lemma tokenize_counts_reference_witness :
  tokenize sample_text = Some (Ok (bump_all ∅ (text_tokens sample_text))) ∧
  bump_all ∅ (text_tokens sample_text) !! "user" = Some 1 ∧
  bump_all ∅ (text_tokens sample_text) !! of_bytes (AppendRune 11365) = Some 1.
Proof.
  split; [|by vm_compute].
  apply (proj1 (proj2 (tokenize_counts_reference sample_text))). apply (bool_decide_unpack _). vm_compute. exact I.
Defined.

(** Two runes that grow, then two that shrink: the length of the word is that of its lower
    case, but its parts are elsewhere. *)
Definition drifting_word : list ascii :=
  AppendRune 570 ++ AppendRune 570 ++ ascii_text "aB" ++ AppendRune 304 ++ AppendRune 304.

(** The first part is cut inside a rune, and counted. *)
Lemma part_cut_inside_a_rune :
  length drifting_word = length (toLowerASCII drifting_word) ∧
  ∃ m t, tokenize drifting_word = Some (Ok m) ∧ m !! of_bytes t = Some 1 ∧
    (RuneError ∉ (runes drifting_word).*1) ∧ (RuneError ∈ (runes t).*1) ∧
    bump_all ∅ (text_tokens drifting_word) !! of_bytes t = None.
Proof.
  split; [done|].
  exists (default ∅ (tokenize drifting_word ≫= λ r, match r with Ok m => Some m | Err _ => None end)).
  exists (take 5 (toLowerASCII drifting_word)).
  split; [by vm_compute|]. split; [by vm_compute|].
  split; [apply (bool_decide_unpack _); vm_compute; exact I|].
  split; [apply (bool_decide_unpack _); vm_compute; exact I|by vm_compute].
Qed.

(** The examples of the comment. *)
Lemma comment_examples :
  (∀ t, t ∈ ["get"; "user"; "by"; "id"; "getuserbyid"] → bump_all ∅ (text_tokens (ascii_text "getUserByID")) !! t = Some 1) ∧
  (∀ t, t ∈ ["get"; "user"; "by"; "id"; "get_user_by_id"] → bump_all ∅ (text_tokens (ascii_text "get_user_by_id")) !! t = Some 1).
Proof. split; apply Forall_forall, (bool_decide_unpack _); vm_compute; exact I. Qed.
