(* ===== verification/Bm25Ingest.v ===== *)
(** * From documents to a segment ([formats/bm25/build.go], [format.go], [stats.go])

    The parallel pass that tokenizes the documents of a batch, with a recover around each,
    and [Format.Build], which seals, encodes and opens what it returns.

    The pass is a step relation: each worker takes the documents of its chunk one by one,
    and an interleaving of their steps is a run.  The executable pass lets the workers go
    one after the other. *)

From Stdlib Require Import Ascii.
From stdpp Require Import relations.
From S2P Require Import Prelude TopK Supersession SegmentSet Format Bm25Layout Bm25Read Bm25Encode Bm25Search Utf8 Bm25Tokenize.

Local Open Scope Z_scope.

Definition degradeTokenizePanic : string := "tokenize_panic".

Definition indexedFields : list string := ["symbol_name"; "summary"; "keywords"; "description"; "content"].

(** The zero value of a slot. *)
Definition zeroTokens : docFieldTokens := mkTokens "" None.

(** ** One document *)

Section Ingest.
Context `{Unicode}.

(** The loop over the fields; [None] is a panic. *)
Fixpoint tokenizeFields (d : Document) (names : list string) (fields : option (gmap string (gmap string Z))) :
    option (option (gmap string (gmap string Z))) :=
  match names with
  | [] => Some fields
  | name :: names =>
      let text := default "" (Fields d !! name) in
      if decide (text = "") then tokenizeFields d names fields
      else
        match tokenize (to_bytes text) with
        | Some (Ok toks) =>
            if decide (toks = ∅) then tokenizeFields d names fields
            else tokenizeFields d names (Some (<[name := toks]> (default ∅ fields)))
        | _ => None
        end
  end.

Definition tokenizeOne (d : Document) : option docFieldTokens :=
  fields ← tokenizeFields d indexedFields None; Some (mkTokens (DocID d) fields).

(** ** The parallel pass *)

Section Pass.
Context (one : Document → option docFieldTokens) (docs : list Document).

(** What is left in the slot, and whether the document survived. *)
Definition tokenizeDocRecovered (d : Document) : docFieldTokens * bool :=
  match one d with Some r => (r, true) | None => (zeroTokens, false) end.

(** The chunks of the workers from [w] on, up to the first that is empty. *)
Fixpoint spawn (k w chunkSize : nat) : list (nat * nat) :=
  match k with
  | O => []
  | S k =>
      let start := (w * chunkSize)%nat in
      let stop := Nat.min (start + chunkSize) (length docs) in
      if decide (stop ≤ start)%nat then [] else (start, stop) :: spawn k (S w) chunkSize
  end.

Definition clampWorkers (workers : Z) : nat := if workers <? 1 then 1%nat else Z.to_nat workers.

Definition chunk_size (workers : nat) : nat := ((length docs + workers - 1) / workers)%nat.

(** The shared slots, the counters, and each worker's next document and end. *)
Record pass := mkPass {
  results : list docFieldTokens;
  dropped : list Z;
  at_work : list (nat * nat)
}.

Definition start_pass (workers : nat) : pass :=
  mkPass (replicate (length docs) zeroTokens) (replicate workers 0) (spawn workers 0 (chunk_size workers)).

(** Worker [w] takes document [d] at [i]. *)
Definition take_doc (w i : nat) (stop : nat) (d : Document) (st : pass) : pass :=
  let '(out, ok) := tokenizeDocRecovered d in
  mkPass (<[i := out]> (results st))
    (if ok then dropped st else alter (Z.add 1) w (dropped st))
    (<[w := (S i, stop)]> (at_work st)).

Inductive work_step : pass → pass → Prop :=
| work_take w i stop d st :
    at_work st !! w = Some (i, stop) → (i < stop)%nat → docs !! i = Some d →
    work_step st (take_doc w i stop d st).

(** Every worker is done. *)
Definition finished (st : pass) : Prop := Forall (λ x, x.1 = x.2) (at_work st).

(** The total of the counters; an empty census is none. *)
Definition pass_result (st : pass) : list docFieldTokens * option (gmap string Z) :=
  let total := foldr Z.add 0 (dropped st) in
  (results st, if decide (total = 0) then None else Some {[degradeTokenizePanic := total]}).

(** A worker from [i] on. *)
Fixpoint run_worker (k w i stop : nat) (st : pass) : pass :=
  match k with
  | O => st
  | S k =>
      match docs !! i with
      | Some d => run_worker k w (S i) stop (take_doc w i stop d st)
      | None => st
      end
  end.

Fixpoint run_workers (w : nat) (chunks : list (nat * nat)) (st : pass) : pass :=
  match chunks with
  | [] => st
  | (i, stop) :: chunks => run_workers (S w) chunks (run_worker (stop - i) w i stop st)
  end.

Definition tokenizeDocsParallelWith (workers : Z) : list docFieldTokens * option (gmap string Z) :=
  let st := start_pass (clampWorkers workers) in pass_result (run_workers 0 (at_work st) st).
End Pass.

Definition tokenizeDocsParallel (docs : list Document) (workers : Z) : list docFieldTokens * option (gmap string Z) :=
  tokenizeDocsParallelWith tokenizeOne docs workers.

(** [runtime.NumCPU] is an argument. *)
Definition numWorkers (NumCPU : Z) : Z := Z.max NumCPU 1.

(** ** The format *)

Inductive buildErr := EncodeFails (e : encodeErr) | OpenFails (e : readErr).

Definition publishSegment (acc : bm25Segment) : result buildErr mappedSegment :=
  match encodeSegmentV2 acc defaultDictKind with
  | Err e => Err (EncodeFails e)
  | Ok blob => match openSegmentV2 blob with Err e => Err (OpenFails e) | Ok seg => Ok seg end
  end.

Definition Build (NumCPU : Z) (docs : list Document) : result buildErr mappedSegment * option (gmap string Z) :=
  let '(results, degraded) := tokenizeDocsParallel docs (numWorkers NumCPU) in
  (publishSegment (buildSegment results), degraded).

Definition Decode (blob : bytes) : result readErr mappedSegment := openSegmentV2 blob.

(** [None] is a panic, which nothing here recovers. *)
Definition NewQuery (text : string) : option Query :=
  match tokenize (to_bytes text) with Some (Ok m) => Some (mkQuery m) | _ => None end.
End Ingest.
