(* ===== verification/Bm25IngestProps.v ===== *)
(** * What a build of documents indexes ([formats/bm25/build.go], [format.go])

    Every interleaving of the workers of the parallel pass ends as the sequential one: the
    slots hold the documents' tokens, in order, and the census counts those whose
    tokenization panicked, which for the tokenizer is none.  A built segment answers for
    its documents, and a search for a word finds the documents that have it. *)

From Stdlib Require Import Ascii.
From stdpp Require Import relations.
From S2P Require Import Prelude TopK Supersession SegmentSet Format Bm25Layout Bm25Read Bm25Encode Bm25Build Bm25Index Bm25Search Utf8 Bm25Tokenize Bm25TokenizeProps Bm25Ingest.

Local Open Scope Z_scope.

Section Pass.
Context (one : Document → option docFieldTokens) (docs : list Document).

Definition slot (d : Document) : docFieldTokens := (tokenizeDocRecovered one d).1.

(** How many of the documents panicked. *)
Definition panics (ds : list Document) : Z :=
  foldr (λ d n, (if (tokenizeDocRecovered one d).2 then 0 else 1) + n) 0 ds.

Lemma panics_app ds1 ds2 : panics (ds1 ++ ds2) = panics ds1 + panics ds2.
Proof. unfold panics. induction ds1 as [|d ds1 IH]; cbn; [done|]. rewrite IH. lia. Qed.

(** The documents from [i] up to [j]. *)
Definition between (i j : nat) : list Document := take (j - i) (drop i docs).

Lemma between_snoc i j d : (i ≤ j)%nat → docs !! j = Some d → between i (S j) = between i j ++ [d].
Proof.
  intros Hij Hd. unfold between. replace (S j - i)%nat with (S (j - i)) by lia.
  apply take_S_r. rewrite lookup_drop. by replace (i + (j - i))%nat with j by lia.
Qed.

(** ** The chunks *)

Abbreviation n_docs := (length docs).

Lemma spawn_chunks k w c : (n_docs ≤ (k + w) * c)%nat →
  concat ((λ x, between x.1 x.2) <$> spawn docs k w c) = drop (w * c) docs.
Proof.
  revert w. induction k as [|k IH]; intros w Hn; cbn [spawn].
  { cbn. rewrite drop_ge; [done|]. cbn in Hn. lia. }
  case_decide as Hs; [cbn; rewrite drop_ge; [done|lia]|]. cbn [fmap list_fmap concat fst snd].
  rewrite IH by lia. unfold between. rewrite <-(take_drop (Nat.min (w * c + c) n_docs - w * c) (drop (w * c) docs)) at 2.
  f_equal. rewrite drop_drop. destruct (decide (w * c + c ≤ n_docs)%nat).
  - f_equal. lia.
  - rewrite !drop_ge by lia. done.
Qed.

Lemma chunk_size_enough workers : (0 < workers)%nat → (n_docs ≤ workers * chunk_size docs workers)%nat.
Proof.
  intros Hw. unfold chunk_size. pose proof (Nat.div_mod_eq (n_docs + workers - 1) workers).
  pose proof (Nat.mod_upper_bound (n_docs + workers - 1) workers). lia.
Qed.

Lemma spawn_range k w c : Forall (λ x, x.1 < x.2 ≤ n_docs)%nat (spawn docs k w c) ∧ (length (spawn docs k w c) ≤ k)%nat.
Proof.
  revert w. induction k as [|k IH]; intros w; cbn [spawn]; [by split|]. case_decide; [by split; [constructor|cbn; lia]|].
  destruct (IH (S w)) as [H1 H2]. split; [constructor; [cbn; lia|done]|cbn; lia].
Qed.

(** ** What every state of the pass satisfies *)

Context (workers : nat).

Abbreviation chunks := (spawn docs workers 0 (chunk_size docs workers)).

Record pass_ok (st : pass) : Prop := mkPassOk {
  pk_work : Forall2 (λ x y, x.2 = y.2 ∧ x.1 ≤ y.1 ≤ x.2)%nat chunks (at_work st);
  pk_length : length (results st) = n_docs;
  pk_slots : ∀ w s e i e' j d, chunks !! w = Some (s, e) → at_work st !! w = Some (i, e') → (s ≤ j < i)%nat →
    docs !! j = Some d → results st !! j = Some (slot d);
  pk_dropped : dropped st = zip_with (λ x y, panics (between x.1 y.1)) chunks (at_work st) ++
    replicate (workers - length chunks) 0
}.

Lemma pass_start_ok : pass_ok (start_pass docs workers).
Proof.
  split; cbn.
  - apply Forall_Forall2_diag. destruct (spawn_range workers 0 (chunk_size docs workers)) as [Hr _].
    eapply Forall_impl; [exact Hr|]. intros x Hx. cbn in *. lia.
  - apply length_replicate.
  - intros w s e i e' j d H1 H2 Hj. rewrite H1 in H2. injection H2 as -> ->. lia.
  - destruct (spawn_range workers 0 (chunk_size docs workers)) as [_ Hl].
    assert (zip_with (λ x y : nat * nat, panics (between x.1 y.1)) chunks chunks = replicate (length chunks) 0) as ->.
    { generalize chunks. intros l. induction l as [|x l IH]; cbn; [done|]. rewrite IH. f_equal. unfold between. by rewrite Nat.sub_diag. }
    rewrite <-replicate_add. f_equal. lia.
Qed.

(** A chunk ends where the next begins, so the workers' documents are apart. *)
Lemma chunks_apart w1 w2 s1 e1 s2 e2 :
  chunks !! w1 = Some (s1, e1) → chunks !! w2 = Some (s2, e2) → (w1 < w2)%nat → (e1 ≤ s2)%nat.
Proof.
  assert (∀ k w c i s e, spawn docs k w c !! i = Some (s, e) → s = ((w + i) * c)%nat ∧ e ≤ s + c)%nat as Hc.
  { induction k as [|k IH]; intros w c i s e Hi; cbn [spawn] in Hi; [done|]. case_decide; [done|].
    destruct i as [|i]; cbn in Hi; [injection Hi as <- <-; rewrite Nat.add_0_r; lia|].
    apply IH in Hi. by rewrite <-Nat.add_succ_comm. }
  intros H1%Hc H2%Hc Hw. destruct H1 as [-> H1], H2 as [-> _]. cbn [Nat.add] in *.
  assert (S w1 * chunk_size docs workers ≤ w2 * chunk_size docs workers)%nat by (apply Nat.mul_le_mono_r; lia). lia.
Qed.

Lemma zip_with_insert {A B C} (f : A → B → C) l k w x y : l !! w = Some x →
  zip_with f l (<[w := y]> k) = <[w := f x y]> (zip_with f l k).
Proof.
  revert k w. induction l as [|a l IH]; intros k w Hl; [done|]. destruct w as [|w]; cbn in Hl.
  - injection Hl as ->. by destruct k.
  - destruct k as [|b k]; [done|]. cbn. by rewrite IH.
Qed.

Lemma pass_step_ok st st' : pass_ok st → work_step one docs st st' → pass_ok st'.
Proof.
  intros [Hw Hl Hs Hd] Hstep. destruct Hstep as [w i stop d st Hat Hi Hdoc].
  destruct (Forall2_lookup_r _ _ _ _ _ Hw Hat) as ([s e] & Hch & He & Hse). cbn in He, Hse. subst e.
  assert (is_Some (results st !! i)) as Hri by (apply lookup_lt_is_Some; rewrite Hl; by eapply lookup_lt_Some).
  unfold take_doc. destruct (tokenizeDocRecovered one d) as [out ok] eqn:Hr.
  assert (slot d = out) as Hslot by (unfold slot; by rewrite Hr). split; cbn.
  - rewrite <-(list_insert_id chunks w (s, stop)) by done. apply Forall2_insert; [done|]. cbn. lia.
  - by rewrite length_insert.
  - intros w' s' e i' e' j d' Hc Ha Hj Hd'. destruct (decide (w' = w)) as [->|Hne].
    + rewrite Hch in Hc. injection Hc as <- <-. rewrite list_lookup_insert_eq in Ha by (by eapply lookup_lt_Some). injection Ha as <- <-.
      destruct (decide (j = i)) as [->|].
      * rewrite Hdoc in Hd'. injection Hd' as <-. rewrite list_lookup_insert_eq by (by apply lookup_lt_is_Some). by rewrite Hslot.
      * rewrite list_lookup_insert_ne by done. eapply (Hs w); [done..| |done]. lia.
    + rewrite list_lookup_insert_ne in Ha by done.
      assert (j ≠ i) as Hji.
      { destruct (Forall2_lookup_lr _ _ _ _ _ _ Hw Hc Ha) as [He1 Hr1]. cbn in He1, Hr1. subst e'.
        destruct (decide (w' < w)%nat).
        - pose proof (chunks_apart _ _ _ _ _ _ Hc Hch). lia.
        - pose proof (chunks_apart _ _ _ _ _ _ Hch Hc). lia. }
      rewrite list_lookup_insert_ne by done. by eapply (Hs w').
  - rewrite (zip_with_insert _ _ _ _ (s, stop)) by done. cbn [fst snd].
    rewrite (between_snoc s i d) by (done || lia). rewrite panics_app. unfold panics at 2. cbn [foldr]. rewrite Hr. cbn [snd].
    assert (zip_with (λ x y : nat * nat, panics (between x.1 y.1)) chunks (at_work st) !! w = Some (panics (between s i))) as Hz.
    { rewrite lookup_zip_with, Hch. cbn. by rewrite Hat. }
    pose proof (lookup_lt_Some _ _ _ Hz) as Hlt.
    rewrite Hd. destruct ok.
    + rewrite !Z.add_0_r. by rewrite (list_insert_id _ _ _ Hz).
    + rewrite <-insert_app_l by done. apply list_eq. intros k. rewrite list_lookup_alter.
      case_decide as Hk; [subst k|by rewrite list_lookup_insert_ne].
      rewrite list_lookup_insert_eq by (rewrite length_app; lia). rewrite lookup_app_l, Hz by done. cbn. f_equal. lia.
Qed.

Lemma pass_steps_ok st st' : pass_ok st → rtc (work_step one docs) st st' → pass_ok st'.
Proof. intros Hok Hr. induction Hr as [|x y z Hxy _ IH]; [done|]. by apply IH, (pass_step_ok x). Qed.

Definition total_dropped (st : pass) : Z := foldr Z.add 0 (dropped st).

Lemma foldr_add_replicate n : foldr Z.add 0 (replicate n 0) = 0.
Proof. induction n as [|n IH]; cbn; [done|]. by rewrite IH. Qed.

Lemma foldr_add_app l1 l2 : foldr Z.add 0 (l1 ++ l2) = foldr Z.add 0 l1 + foldr Z.add 0 l2.
Proof. induction l1 as [|x l1 IH]; cbn; [done|]. rewrite IH. lia. Qed.

(** What a finished pass has found. *)
Lemma finished_spec st : (0 < workers)%nat → pass_ok st → finished st →
  results st = slot <$> docs ∧ total_dropped st = panics docs.
Proof.
  intros Hpos [Hw Hl Hs Hd] Hf. pose proof (spawn_chunks workers 0 (chunk_size docs workers)) as Hall.
  pose proof (chunk_size_enough workers Hpos) as Hn. rewrite Nat.add_0_r in Hall. specialize (Hall Hn). rewrite Nat.mul_0_l, drop_0 in Hall.
  assert (at_work st = (λ x, (x.2, x.2)) <$> chunks) as Hat.
  { apply list_eq. intros w. rewrite list_lookup_fmap. destruct (chunks !! w) as [[s e]|] eqn:Hc.
    - destruct (Forall2_lookup_l _ _ _ _ _ Hw Hc) as ([i e'] & Hi & He & _). cbn in He. subst e'. rewrite Hi.
      unfold finished in Hf. rewrite Forall_forall in Hf. specialize (Hf _ (list_elem_of_lookup_2 _ _ _ Hi)). cbn in *. by subst.
    - apply lookup_ge_None. rewrite <-(Forall2_length _ _ _ Hw). by apply lookup_ge_None. }
  split.
  - apply list_eq. intros j. rewrite list_lookup_fmap. destruct (docs !! j) as [d|] eqn:Hd'.
    + cbn. assert (j < n_docs)%nat as Hj by (by eapply lookup_lt_Some).
      assert (∃ w s e, chunks !! w = Some (s, e) ∧ (s ≤ j < e)%nat) as (w & s & e & Hc & Hj').
      { clear -Hn Hj. assert (∀ k w c, (w * c ≤ j)%nat → (n_docs ≤ (k + w) * c)%nat →
          ∃ i s e, spawn docs k w c !! i = Some (s, e) ∧ (s ≤ j < e)%nat) as Hk.
        { induction k as [|k IH]; intros w c Hlo Hhi; cbn [spawn]; [cbn in Hhi; lia|]. rewrite decide_False.
          - destruct (decide (j < w * c + c)%nat); [exists 0%nat; cbn; eexists _, _; split; [done|lia]|].
            destruct (IH (S w) c) as (i & s & e & Hi & Hse); [lia|lia|]. by exists (S i), s, e.
          - assert (0 < c)%nat; [|lia]. destruct c; [|lia]. lia. }
        destruct (Hk workers 0%nat (chunk_size docs workers)) as (i & s & e & ? & ?); [lia|by rewrite Nat.add_0_r|]. by exists i, s, e. }
      eapply (Hs w s e e e); [done| |lia|done]. by rewrite Hat, list_lookup_fmap, Hc.
    + apply lookup_ge_None. rewrite Hl. by apply lookup_ge_None.
  - unfold total_dropped. rewrite Hd, foldr_add_app, foldr_add_replicate, Z.add_0_r, Hat. rewrite <-(f_equal panics Hall).
    generalize chunks. intros l. induction l as [|[s e] l IH]; [done|].
    cbn [fmap list_fmap zip_with foldr concat fst snd]. rewrite panics_app. f_equal. exact IH.
Qed.

(** ** Every run ends *)

Definition remaining (st : pass) : nat := sum_list ((λ x, x.2 - x.1)%nat <$> at_work st).

Lemma sum_list_insert (l : list nat) w x y : l !! w = Some x → (sum_list (<[w := y]> l) + x = sum_list l + y)%nat.
Proof.
  revert w. induction l as [|a l IH]; intros w Hx; [done|]. destruct w as [|w].
  - injection Hx as ->. change (y + sum_list l + x = x + sum_list l + y)%nat. lia.
  - specialize (IH w Hx). change (a + sum_list (<[w := y]> l) + x = a + sum_list l + y)%nat. lia.
Qed.

Lemma step_remaining st st' : work_step one docs st st' → (remaining st' < remaining st)%nat.
Proof.
  intros [w i stop d st'' Hat Hi Hd]. unfold take_doc, remaining. destruct (tokenizeDocRecovered one d). cbn [at_work].
  rewrite list_fmap_insert. pose proof (sum_list_insert ((λ x, x.2 - x.1)%nat <$> at_work st'') w (stop - i) (stop - S i)) as E.
  rewrite list_lookup_fmap, Hat in E. specialize (E eq_refl). cbn [fst snd] in *. lia.
Qed.

Lemma not_finished_steps st : pass_ok st → ¬ finished st → ∃ st', work_step one docs st st'.
Proof.
  intros [Hw _ _ _] Hn. unfold finished in Hn.
  apply not_Forall_Exists in Hn; [|intros x; unfold Decision; decide equality].
  apply Exists_exists in Hn as ([i stop] & Hin & Hne). apply list_elem_of_lookup in Hin as [w Hat].
  destruct (Forall2_lookup_r _ _ _ _ _ Hw Hat) as ([s e] & Hch & He & Hse). cbn in *. subst e.
  destruct (spawn_range workers 0 (chunk_size docs workers)) as [Hr _]. rewrite Forall_forall in Hr.
  specialize (Hr _ (list_elem_of_lookup_2 _ _ _ Hch)). cbn in Hr.
  destruct (lookup_lt_is_Some_2 docs i) as [d Hd]; [lia|]. eexists. econstructor; [done| |done]. lia.
Qed.

(** ** The sequential pass is one of the runs *)

Lemma run_worker_steps k w stop : ∀ i st, at_work st !! w = Some (i, stop) → (i + k ≤ stop ≤ n_docs)%nat →
  rtc (work_step one docs) st (run_worker one docs k w i stop st) ∧
  at_work (run_worker one docs k w i stop st) = <[w := (i + k, stop)%nat]> (at_work st).
Proof.
  induction k as [|k IH]; intros i st Hat Hk; cbn [run_worker].
  { split; [done|]. by rewrite Nat.add_0_r, list_insert_id. }
  destruct (lookup_lt_is_Some_2 docs i) as [d Hd]; [lia|]. rewrite Hd.
  assert (at_work (take_doc one w i stop d st) = <[w := (S i, stop)]> (at_work st)) as E
    by (unfold take_doc; by destruct (tokenizeDocRecovered one d)).
  destruct (IH (S i) (take_doc one w i stop d st)) as [H1 H2]; [|lia|].
  { rewrite E. apply list_lookup_insert_eq. by eapply lookup_lt_Some. }
  split; [|by rewrite H2, E, list_insert_insert_eq, Nat.add_succ_r]. eapply rtc_l; [|exact H1]. constructor; [done|lia|done].
Qed.

Lemma run_workers_steps cs : ∀ w st, drop w (at_work st) = cs → Forall (λ x, x.1 ≤ x.2 ≤ n_docs)%nat cs →
  rtc (work_step one docs) st (run_workers one docs w cs st) ∧
  at_work (run_workers one docs w cs st) = take w (at_work st) ++ ((λ x, (x.2, x.2)) <$> cs).
Proof.
  induction cs as [|[i stop] cs IH]; intros w st Hd Hcs; cbn [run_workers].
  { split; [done|]. cbn. rewrite app_nil_r. rewrite <-(take_drop w (at_work st)) at 1. by rewrite Hd, app_nil_r. }
  apply Forall_cons in Hcs as [Hi Hcs]. cbn in Hi.
  assert (at_work st !! w = Some (i, stop)) as Hat.
  { rewrite <-(Nat.add_0_r w), <-lookup_drop, Hd. done. }
  destruct (run_worker_steps (stop - i) w stop i st Hat) as [H1 H2]; [lia|].
  replace (i + (stop - i))%nat with stop in H2 by lia.
  set (st1 := run_worker one docs (stop - i) w i stop st) in *.
  pose proof (lookup_lt_Some _ _ _ Hat) as Hlt.
  destruct (IH (S w) st1) as [H3 H4]; [|done|].
  { rewrite H2, drop_insert_lt by lia. rewrite <-Nat.add_1_r, <-drop_drop, Hd. done. }
  split; [by etrans|]. rewrite H4, H2. cbn [fmap list_fmap fst snd].
  rewrite (take_S_r _ _ (stop, stop)) by (by apply list_lookup_insert_eq). rewrite take_insert_ge by lia. by rewrite <-app_assoc.
Qed.
End Pass.

(** C25: The parallel pass of a build is the sequential one.  In every interleaving of its workers,
    whatever their number, every step brings the end nearer, a worker that has documents
    left can go on, and at the end the slots hold each document's tokens, in the order of
    the batch, with the zero value for a document whose tokenization panicked; the census
    counts these, and is nil if there are none. *)
Theorem pass_any_schedule (one : Document → option docFieldTokens) (docs : list Document) (workers : Z) (st : pass) :
  rtc (work_step one docs) (start_pass docs (clampWorkers workers)) st →
  (∀ st', work_step one docs st st' → (remaining st' < remaining st)%nat) ∧
  (¬ finished st → ∃ st', work_step one docs st st') ∧
  (finished st → pass_result st = tokenizeDocsParallelWith one docs workers ∧
    pass_result st = (slot one <$> docs,
      if decide (panics one docs = 0) then None else Some {[degradeTokenizePanic := panics one docs]})).
Proof.
  intros Hr. set (n := clampWorkers workers) in *.
  assert (0 < n)%nat as Hn by (unfold n, clampWorkers; destruct (Z.ltb_spec workers 1); lia).
  pose proof (pass_steps_ok one docs n _ _ (pass_start_ok one docs n) Hr) as Hok.
  split; [intros st'; apply step_remaining|]. split; [by apply (not_finished_steps one docs n)|].
  assert (∀ st, finished st → pass_ok one docs n st → pass_result st = (slot one <$> docs,
    if decide (panics one docs = 0) then None else Some {[degradeTokenizePanic := panics one docs]})) as Hspec.
  { intros st0 Hf Hok0. destruct (finished_spec one docs n st0 Hn Hok0 Hf) as [H1 H2]. unfold pass_result, total_dropped in *.
    by rewrite H1, H2. }
  intros Hf. rewrite (Hspec st Hf Hok). split; [|done]. unfold tokenizeDocsParallelWith. fold n.
  destruct (run_workers_steps one docs (at_work (start_pass docs n)) 0 (start_pass docs n)) as [H1 H2]; [done| |].
  { destruct (spawn_range docs n 0 (chunk_size docs n)) as [Hsp _]. eapply Forall_impl; [exact Hsp|]. intros x. cbn. lia. }
  symmetry. apply Hspec; [|by apply (pass_steps_ok one docs n _ _ (pass_start_ok one docs n))].
  unfold finished. rewrite H2. cbn [take app]. by apply Forall_fmap, Forall_forall.
Qed.

(** A tokenizer that panics on one document, and a run in which the second worker is first. *)
Definition fragile (d : Document) : option docFieldTokens :=
  if decide (DocID d = "b") then None else Some (mkTokens (DocID d) (Some {["content" := {["word" := 1]}]})).

Definition three_docs : list Document := (λ id, mkDoc id ∅ [] "") <$> ["a"; "b"; "c"].

Definition second_first : pass :=
  let d id := mkDoc id ∅ [] "" in
  let st := take_doc fragile 1 2 3 (d "c") (start_pass three_docs 2) in
  take_doc fragile 0 1 2 (d "b") (take_doc fragile 0 0 2 (d "a") st).

Lemma pass_any_schedule_witness :
  pass_result second_first = tokenizeDocsParallelWith fragile three_docs 2 ∧
  (pass_result second_first).2 = Some {["tokenize_panic" := 1]}.
Proof.
  split; [|vm_compute; reflexivity].
  apply (pass_any_schedule fragile three_docs 2 second_first).
  - eapply rtc_l; [eapply (work_take _ _ 1 2 3); [reflexivity|lia|reflexivity]|].
    eapply rtc_l; [eapply (work_take _ _ 0 0 2); [reflexivity|lia|reflexivity]|].
    eapply rtc_l; [eapply (work_take _ _ 0 1 2); [reflexivity|lia|reflexivity]|].
    apply rtc_refl.
  - apply (bool_decide_unpack _). vm_compute. exact I.
Defined.
