(* ===== verification/Bm25Found.v ===== *)
(** * A built segment finds its documents ([formats/bm25])

    The composition of the parts: documents are tokenized, accumulated, encoded and opened;
    the segment answers for the tokens of the documents; a query is tokenized as they are;
    and the search returns every document that has a word of the query. *)

From Stdlib Require Import Ascii Floats.SpecFloat.
From stdpp Require Import relations.
From S2P Require Import Prelude TopK Supersession SegmentSet Format Bm25Layout Bm25Read Bm25Encode Bm25BlockReads Bm25RoundTrip Bm25Build Bm25Index Bm25Search Bm25Stats Bm25Scores Bm25SearchProps Utf8 Bm25Tokenize Bm25TokenizeProps Bm25Ingest Bm25IngestProps.

Local Open Scope Z_scope.

Section Found.
Context `{Unicode, !UnicodeAscii}.

(** ** The tokens of a document *)

Definition text_of (d : Document) (name : string) : string := default "" (Fields d !! name).

Definition counts_of (text : string) : counts := bump_all ∅ (text_taken (to_bytes text)).

Lemma tokenize_count text : tokenize (to_bytes text) = Some (Ok (counts_of text)).
Proof. apply tokenize_taken. Qed.

Lemma counts_of_empty : counts_of "" = ∅.
Proof. done. Qed.

Lemma tokenizeFields_spec d names : ∀ acc, NoDup names →
  (∀ name, name ∈ names → default ∅ acc !! name = None) →
  ∃ f, tokenizeFields d names acc = Some f ∧
    (∀ name, default ∅ f !! name =
      if decide (name ∈ names ∧ counts_of (text_of d name) ≠ ∅) then Some (counts_of (text_of d name))
      else default ∅ acc !! name) ∧
    (f = None ↔ acc = None ∧ ∀ name, name ∈ names → counts_of (text_of d name) = ∅).
Proof.
  induction names as [|name names IH]; intros acc Hnd Hacc; cbn [tokenizeFields].
  { exists acc. split; [done|]. split; [|split; [intros ->; split; [done|by intros ? ?%elem_of_nil]|by intros []]].
    intros name. rewrite decide_False; [done|]. by intros [?%elem_of_nil _]. }
  apply NoDup_cons in Hnd as [Hn Hnd]. fold (text_of d name).
  assert (∀ acc', (∀ n, n ∈ names → default ∅ acc' !! n = None) → counts_of (text_of d name) = ∅ → acc' = acc →
    ∃ f, tokenizeFields d names acc' = Some f ∧
    (∀ name0, default ∅ f !! name0 =
      if decide (name0 ∈ name :: names ∧ counts_of (text_of d name0) ≠ ∅) then Some (counts_of (text_of d name0))
      else default ∅ acc !! name0) ∧
    (f = None ↔ acc = None ∧ ∀ name0, name0 ∈ name :: names → counts_of (text_of d name0) = ∅)) as Hskip.
  { intros acc' Ha He ->. destruct (IH acc Hnd Ha) as (f & Hf & Hl & Hnone). exists f. split; [done|]. split.
    - intros n. rewrite Hl. apply decide_ext. rewrite elem_of_cons. split; [tauto|].
      intros [[->|Hin] Hd]; [done|by split].
    - rewrite Hnone. setoid_rewrite elem_of_cons. split; [|naive_solver]. intros [-> Hall]. split; [done|]. intros n [->|]; auto. }
  assert (∀ n, n ∈ names → default ∅ acc !! n = None) as Hacc' by (intros; apply Hacc; by right).
  destruct (decide (text_of d name = "")) as [He|He]; [apply Hskip; [done| |done]; by rewrite He|].
  rewrite tokenize_count. destruct (decide (counts_of (text_of d name) = ∅)) as [Hc|Hc]; [by apply Hskip|].
  destruct (IH (Some (<[name := counts_of (text_of d name)]> (default ∅ acc))) Hnd) as (f & Hf & Hl & Hnone).
  { intros n Hn'. cbn. rewrite lookup_insert_ne by (intros ->; done). by apply Hacc'. }
  exists f. split; [done|]. split.
  - intros n. rewrite Hl. cbn [default from_option id]. destruct (decide (n = name)) as [->|Hne].
    + rewrite decide_False by (by intros [? _]). rewrite lookup_insert_eq. rewrite decide_True; [done|]. split; [by left|done].
    + rewrite lookup_insert_ne by done. apply decide_ext. rewrite elem_of_cons. tauto.
  - rewrite Hnone. split; [by intros [? _]|]. intros [_ Hall]. exfalso. apply Hc, Hall. by left.
Qed.

Definition doc_tokens (d : Document) : docFieldTokens := slot tokenizeOne d.

Lemma tokenizeOne_spec d : ∃ f, tokenizeOne d = Some (mkTokens (DocID d) f) ∧
  (∀ name, name ∈ indexedFields → default ∅ (default ∅ f !! name) = counts_of (text_of d name)) ∧
  (f = None ↔ ∀ name, name ∈ indexedFields → counts_of (text_of d name) = ∅).
Proof.
  destruct (tokenizeFields_spec d indexedFields None) as (f & Hf & Hl & Hn).
  { apply (bool_decide_unpack _). by vm_compute. }
  { done. }
  exists f. unfold tokenizeOne. rewrite Hf. split; [done|]. split; [|rewrite Hn; naive_solver].
  intros name Hin. rewrite Hl. case_decide as Hd; [done|]. cbn. rewrite lookup_empty. cbn.
  destruct (decide (counts_of (text_of d name) = ∅)) as [->|]; [done|tauto].
Qed.

Lemma doc_tokens_one d : tokenizeOne d = Some (doc_tokens d) ∧ tokenizeDocRecovered tokenizeOne d = (doc_tokens d, true).
Proof.
  unfold doc_tokens, slot, tokenizeDocRecovered. destruct (tokenizeOne_spec d) as (f & -> & _). done.
Qed.

Lemma no_panics docs : panics tokenizeOne docs = 0.
Proof.
  unfold panics. induction docs as [|d docs IH]; [done|]. cbn [foldr]. rewrite IH.
  destruct (doc_tokens_one d) as [_ ->]. done.
Qed.

(** The tokens of a batch do not depend on the number of workers, and no document is lost. *)
Lemma tokenizeDocsParallel_spec docs workers : tokenizeDocsParallel docs workers = (doc_tokens <$> docs, None).
Proof.
  unfold tokenizeDocsParallel, tokenizeDocsParallelWith. set (n := clampWorkers workers).
  assert (0 < n)%nat as Hn by (unfold n, clampWorkers; destruct (Z.ltb_spec workers 1); lia).
  destruct (run_workers_steps tokenizeOne docs (at_work (start_pass docs n)) 0 (start_pass docs n)) as [H1 H2]; [done| |].
  { destruct (spawn_range docs n 0 (chunk_size docs n)) as [Hsp _]. eapply Forall_impl; [exact Hsp|]. intros x. cbn. lia. }
  pose proof (pass_steps_ok tokenizeOne docs n _ _ (pass_start_ok tokenizeOne docs n) H1) as Hok.
  destruct (finished_spec tokenizeOne docs n _ Hn Hok) as [H3 H4].
  { unfold finished. rewrite H2. cbn [take app]. by apply Forall_fmap, Forall_forall. }
  unfold pass_result. unfold total_dropped in H4. by rewrite H3, H4, no_panics.
Qed.

Lemma indexed_docs docs id toks : (id, toks) ∈ indexed (doc_tokens <$> docs) ↔
  ∃ d, d ∈ docs ∧ doc_tokens d = mkTokens id (Some toks).
Proof.
  unfold indexed. rewrite list_elem_of_omap. split.
  - intros (r & (d & -> & Hd)%list_elem_of_fmap & Hr). exists d. split; [done|].
    destruct (doc_tokens d) as [i [f|]]; [|done]. cbn in Hr. by injection Hr as -> ->.
  - intros (d & Hd & Hr). exists (doc_tokens d). split; [by apply list_elem_of_fmap_2|]. by rewrite Hr.
Qed.

Lemma doc_tokens_in d id toks cfg : doc_tokens d = mkTokens id (Some toks) → cfg ∈ defaultFieldConfigs →
  id = DocID d ∧ tokens_in cfg toks = counts_of (text_of d (cfgName cfg)).
Proof.
  intros Hd Hcfg. destruct (tokenizeOne_spec d) as (f & Hf & Hl & _). destruct (doc_tokens_one d) as [E _].
  rewrite Hf, Hd in E. injection E as <- ->. split; [done|]. unfold tokens_in. apply Hl.
  unfold defaultFieldConfigs in Hcfg. set_unfold. naive_solver.
Qed.

(** ** The tokens of short words fit a segment *)

Definition short (text : string) : Prop :=
  Z.of_nat (String.length text) < 2 ^ 31 ∧ Forall (λ w, Z.of_nat (length w) < 2 ^ 14) (words_of (to_bytes text)).

Lemma length_to_bytes s : length (to_bytes s) = String.length s.
Proof. unfold to_bytes, id_bytes. induction s as [|c s IH]; cbn; [done|]. by rewrite IH. Qed.

Lemma slen_of_bytes b : slen (of_bytes b) = Z.of_nat (length b).
Proof. unfold slen, blen, to_bytes, id_bytes, of_bytes. by rewrite String.list_ascii_of_string_of_list_ascii. Qed.

Lemma counts_of_lookup text t n : counts_of text !! t = Some n →
  0 < n ∧ ∃ w, w ∈ text_taken (to_bytes text) ∧ of_bytes w = t.
Proof.
  unfold counts_of. rewrite bump_all_lookup, lookup_empty. case_decide as E; [done|]. intros [= <-].
  destruct (occurrences_pos t (text_taken (to_bytes text))) as [H1 H2]. cbn. assert (0 < occurrences t (text_taken (to_bytes text))) by lia.
  split; [done|]. by apply H2.
Qed.

Lemma counts_of_fit text : short text → tokens_fit defaultDictKind (counts_of text).
Proof.
  intros [Hs Hw]. pose proof (text_taken_fit (to_bytes text)) as Hn. rewrite length_to_bytes in Hn.
  split.
  - intros t n Ht. apply counts_of_lookup in Ht as [? _]. lia.
  - unfold counts_of. rewrite token_count_bump_all. change (token_count ∅) with 0. lia.
  - intros _ t n Ht. apply counts_of_lookup in Ht as (_ & u & (w & Hin & Hu)%text_taken_word & <-). rewrite slen_of_bytes.
    rewrite Forall_forall in Hw. specialize (Hw _ Hin). cbn in Hw. lia.
Qed.

Definition short_doc (d : Document) : Prop := Forall (λ name, short (text_of d name)) indexedFields.

#[export] Instance short_doc_dec d : Decision (short_doc d).
Proof. unfold short_doc, short. apply _. Defined.

(** The planned size of the blob, that the code checks. *)
Definition planned_size (docs : list Document) : Z :=
  pSize (planSegmentV2 (buildSegment (doc_tokens <$> docs)) defaultDictKind).

Lemma short_docs_fit docs : Forall short_doc docs → planned_size docs ≤ v2MaxBlobBytes →
  index_fits defaultDictKind (doc_tokens <$> docs).
Proof.
  intros Hs Hsize. split; [done|done|]. apply Forall_forall. intros toks (x & -> & Hx)%list_elem_of_fmap.
  destruct x as [id toks]. apply indexed_docs in Hx as (d & Hd & Hdt). apply Forall_forall. intros cfg Hcfg. cbn [snd].
  destruct (doc_tokens_in d id toks cfg Hdt Hcfg) as [_ ->]. apply counts_of_fit.
  rewrite Forall_forall in Hs. specialize (Hs d Hd). unfold short_doc in Hs. rewrite Forall_forall in Hs. apply Hs.
  unfold defaultFieldConfigs in Hcfg. set_unfold. naive_solver.
Qed.

(** What a build publishes. *)
Lemma Build_answers NumCPU docs : Forall short_doc docs → planned_size docs ≤ v2MaxBlobBytes →
  ∃ seg, Build NumCPU docs = (Ok seg, None) ∧ answers (indexed (doc_tokens <$> docs)) seg.
Proof.
  intros Hs Hsize. destruct (encodable_roundtrip defaultDictKind _ (built_encodable _ _ (short_docs_fit docs Hs Hsize)))
    as (b & seg & Hb & Ho & Hr & _).
  exists seg. unfold Build. rewrite tokenizeDocsParallel_spec. unfold publishSegment. rewrite Hb, Ho.
  split; [done|]. eapply represents_answers; [done|apply built_build|done].
Qed.

(** ** A word is a text of one word *)

Definition all_word (l : list (Z * list ascii)) : Prop := Forall (λ x, isWordRune x.1 = true) l.

Lemma runs_word rs : ∀ cur w, w ∈ runs rs cur →
  (∃ l l2, rs = l ++ l2 ∧ w = default [] cur ++ concat l.*2 ∧ all_word l ∧ (l = [] → cur ≠ None)) ∨
  (∃ l1 l l2, rs = l1 ++ l ++ l2 ∧ w = concat l.*2 ∧ all_word l ∧ l ≠ []).
Proof.
  induction rs as [|[r v] rs IH]; intros cur w Hw; cbn [runs] in Hw.
  { destruct cur as [c|]; [|by apply elem_of_nil in Hw]. apply list_elem_of_singleton in Hw as ->.
    left. exists [], []. cbn. rewrite app_nil_r. split_and!; [done..|constructor|done]. }
  destruct (isWordRune r) eqn:Hr.
  - apply IH in Hw as [(l & l2 & -> & -> & Hl & _)|(l1 & l & l2 & -> & -> & Hl & Hne)].
    + left. exists ((r, v) :: l), l2. cbn. rewrite <-app_assoc. split_and!; [done..|by constructor|done].
    + right. by exists ((r, v) :: l1), l, l2.
  - apply elem_of_app in Hw as [Hw|Hw].
    + destruct cur as [c|]; [|by apply elem_of_nil in Hw]. apply list_elem_of_singleton in Hw as ->.
      left. exists [], ((r, v) :: rs). cbn. rewrite app_nil_r. split_and!; [done..|constructor|done].
    + right. apply IH in Hw as [(l & l2 & -> & -> & Hl & Hne)|(l1 & l & l2 & -> & -> & Hl & Hne)].
      * exists [(r, v)], l, l2. split_and!; [done..|]. intros ->. by apply Hne.
      * by exists ((r, v) :: l1), l, l2.
Qed.

Lemma runs_all_word l cur : all_word l → (l = [] → cur ≠ None) → runs l cur = [default [] cur ++ concat l.*2].
Proof.
  intros Hl. revert cur. induction Hl as [|[r v] l Hr _ IH]; intros cur Hne; cbn [runs].
  - destruct cur; cbn; [by rewrite app_nil_r|by destruct Hne].
  - cbn in Hr. rewrite Hr. rewrite IH by done. cbn. by rewrite <-app_assoc.
Qed.

Lemma words_of_word text w : w ∈ words_of text → words_of w = [w].
Proof.
  unfold words_of. intros Hw.
  assert (∃ l1 l l2, runes text = l1 ++ l ++ l2 ∧ w = concat l.*2 ∧ all_word l ∧ l ≠ []) as (l1 & l & l2 & Hr & -> & Hl & Hne).
  { apply runs_word in Hw as [(l & l2 & Hr & -> & Hl & Hne)|Hw]; [|done]. exists [], l, l2. split_and!; [done..|]. intros ->. by apply Hne. }
  assert (runes (concat l.*2) = l) as E.
  { destruct (runes_split _ _ _ Hr) as [_ H2]. by destruct (runes_split _ _ _ H2) as [H3 _]. }
  rewrite E. by rewrite runs_all_word.
Qed.

(** ** Words are found *)

Definition lowered (w : list ascii) : string := of_bytes (toLowerASCII w).

Lemma word_counted text w : w ∈ words_of (to_bytes text) → long w → is_Some (counts_of text !! lowered w).
Proof.
  intros Hw Hl. unfold counts_of. rewrite bump_all_lookup.
  assert (0 < occurrences (lowered w) (text_taken (to_bytes text))) as Hp.
  { apply occurrences_pos. exists (toLowerASCII w). split; [|done]. unfold text_taken. apply list_elem_of_join.
    exists (tokens_taken w). split; [|by apply list_elem_of_fmap_2]. unfold tokens_taken. rewrite decide_True by done. by left. }
  rewrite decide_False by lia. by eexists.
Qed.

Lemma to_of_bytes b : to_bytes (of_bytes b) = b.
Proof. apply String.list_ascii_of_string_of_list_ascii. Qed.

Lemma query_has_word text w : w ∈ words_of (to_bytes text) → long w → is_Some (counts_of (of_bytes w) !! lowered w).
Proof.
  intros Hw Hl. apply word_counted; [|done]. rewrite to_of_bytes, (words_of_word _ _ Hw). by left.
Qed.

Lemma NewQuery_spec text : NewQuery text = Some (mkQuery (counts_of text)).
Proof. unfold NewQuery. by rewrite tokenize_count. Qed.

Lemma query_terms q t : is_Some (qtokens q !! t) → t ∈ sortedQueryTerms q.
Proof. intros Hq. unfold sortedQueryTerms, sortedKeys. rewrite elem_of_sort_strings, elem_of_elements. by apply elem_of_dom. Qed.

(** A document that has a term of the query, of positive weight, is a candidate. *)
Lemma term_contributes Log bs q toks t cfg :
  is_Some (qtokens q !! t) → SFleb (corpus_idf Log bs t) f_zero = false → cfg ∈ defaultFieldConfigs →
  is_Some (tokens_in cfg toks !! t) → contribs Log bs q toks ≠ [].
Proof.
  intros Hq%query_terms Hidf Hcfg [freq Hf] Hnil.
  assert (scoreField cfg (clampTF freq) (token_count (tokens_in cfg toks)) (corpus_idf Log bs t) k1 (corpus_avg bs cfg)
    ∈ contribs Log bs q toks) as Hin; [|rewrite Hnil in Hin; by apply elem_of_nil in Hin].
  unfold contribs. apply list_elem_of_join. exists (term_contribs Log bs toks t).
  split; [|by apply list_elem_of_fmap_2]. unfold term_contribs. rewrite Hidf. apply list_elem_of_join.
  exists (field_contrib (corpus_avg bs) (corpus_idf Log bs t) t toks cfg). split; [|by apply list_elem_of_fmap_2].
  unfold field_contrib. rewrite Hf. by left.
Qed.

Lemma selection_or_beaten {A} `{Scored A} k (l h : list A) x : selection k l h → x ∈ l →
  x ∈ h ∨ (length h = k ∧ ∀ y, y ∈ h → sle (score_of x) (score_of y)).
Proof.
  intros (Hlen & rest & Hp & Hbest) Hx. rewrite Hp in Hx. apply elem_of_app in Hx as [Hx|Hx]; [by left|right].
  split; [|by auto]. apply Permutation_length in Hp. rewrite length_app in Hp. apply list_elem_of_split in Hx as (a & b & ->).
  rewrite length_app in Hp. cbn [length] in Hp. lia.
Qed.

(** C2: A document is found by each of its words.  Take documents with texts below 2^31 bytes,
    none of whose words reaches sixteen kilobytes, fewer than 2^63 of them, of which the planned
    size of the segment is within the limit of a blob: they build into a segment, with an empty
    census and on any number of workers.  Take a word of two bytes or more in an indexed field of a
    document, of positive weight in the corpus, and such that no sum of scores of the query of that
    word is irregular: the search for it, with any limit, either returns the document or returns as
    many hits as the limit allows, none of which scores below it. *)
Theorem built_documents_are_found (Log : spec_float → spec_float) (NumCPU : Z) (docs : list Document) (d : Document)
    (name : string) (w : list ascii) (k : Z) :
  Forall short_doc docs → planned_size docs ≤ v2MaxBlobBytes → Z.of_nat (length docs) < 2 ^ 63 →
  d ∈ docs → name ∈ indexedFields → w ∈ words_of (to_bytes (text_of d name)) → long w →
  let bs := [indexed (doc_tokens <$> docs)] in
  SFleb (corpus_idf Log bs (lowered w)) f_zero = false →
  (∀ x, x ∈ indexed (doc_tokens <$> docs) → regular Log bs (mkQuery (counts_of (of_bytes w))) x.2) →
  ∃ seg q hits st toks, Build NumCPU docs = (Ok seg, None) ∧ NewQuery (of_bytes w) = Some q ∧
    Search Log seg q (Some (AggregateStats [Some seg])) k None = Ok (hits, Some st) ∧
    doc_tokens d = mkTokens (DocID d) (Some toks) ∧
    (DocID d ∈ HitID <$> hits ∨
     (length hits = Z.to_nat k ∧ ∀ h, h ∈ hits → sle (doc_score Log bs q toks) (Score h))).
Proof.
  intros Hs Hsize Hlen Hd Hname Hw Hl bs Hidf Hreg.
  destruct (Build_answers NumCPU docs Hs Hsize) as (seg & Hb & Ha).
  set (q := mkQuery (counts_of (of_bytes w))) in *. set (ds := indexed (doc_tokens <$> docs)) in *.
  assert (length ds ≤ length docs)%nat as Hds.
  { unfold ds, indexed. rewrite <-(length_fmap doc_tokens docs). generalize (doc_tokens <$> docs). intros l.
    induction l as [|r l IH]; cbn; [lia|]. destruct (dftFields r); cbn; lia. }
  assert (name ∈ cfgName <$> defaultFieldConfigs) as (cfg & Hcn & Hcfg)%list_elem_of_fmap by exact Hname.
  pose proof (word_counted _ _ Hw Hl) as Hterm.
  destruct (tokenizeOne_spec d) as (f & Hf & _ & Hnone). destruct (doc_tokens_one d) as [E _]. rewrite Hf in E.
  injection E as E. destruct f as [toks|]; [|by rewrite (proj1 Hnone eq_refl name Hname) in Hterm; destruct Hterm].
  assert ((DocID d, toks) ∈ ds) as Htoks by (apply indexed_docs; by exists d).
  assert (tokens_in cfg toks = counts_of (text_of d name)) as Htk by (rewrite Hcn; by apply (doc_tokens_in d (DocID d))).
  assert (Forall2 answers bs [seg]) as Hbs by (constructor; [exact Ha|constructor]).
  destruct (search_under_stats Log bs ds seg (AggregateStats [Some seg]) q k None Ha) as (hits & st & Hr & _ & _ & _ & Hsel).
  { by left. }
  { exact (aggregate_spec bs [seg] Hbs). }
  { unfold corpus, bs. cbn. rewrite app_nil_r, length_fmap. lia. }
  { intros u (x & -> & Hx)%list_elem_of_fmap. by apply Hreg. }
  exists seg, q, hits, st, toks. split; [done|]. split; [apply NewQuery_spec|]. split; [done|]. split; [done|].
  destruct (selection_or_beaten _ _ _ (mkHit (DocID d) (doc_score Log bs q toks)) Hsel) as [Hin|Hbeat]; [| |by right].
  - unfold candidates. apply list_elem_of_fmap. exists (DocID d, toks). split; [done|]. apply list_elem_of_filter.
    split; [|done]. split; [|done]. eapply (term_contributes Log bs q toks (lowered w) cfg); [|done|done|by rewrite Htk].
    by apply (query_has_word (text_of d name)).
  - left. apply list_elem_of_fmap. exists (mkHit (DocID d) (doc_score Log bs q toks)). split; [done|exact Hin].
Qed.
End Found.

(** ** Two documents *)

Definition writer_doc : Document :=
  mkDoc "writer" {["symbol_name" := "put_user"; "content" := "writes a user, by id"]} [] "".

Definition shelf : list Document :=
  [mkDoc "reader" {["symbol_name" := "getUserByID"; "summary" := "reads a user"]} [] "";
   mkDoc "empty" {["content" := "- ."]} [] ""; writer_doc].

Lemma built_documents_are_found_witness :
  ∃ seg q hits st toks, Build 4 shelf = (Ok seg, None) ∧ NewQuery "user" = Some q ∧
    Search (λ x, x) seg q (Some (AggregateStats [Some seg])) 1 None = Ok (hits, Some st) ∧
    doc_tokens writer_doc = mkTokens "writer" (Some toks) ∧
    ("writer" ∈ HitID <$> hits ∨
     (length hits = 1%nat ∧ ∀ h, h ∈ hits →
        sle (doc_score (λ x, x) [indexed (doc_tokens <$> shelf)] q toks) (Score h))).
Proof.
  apply (built_documents_are_found (λ x, x) 4 shelf writer_doc "content" (ascii_text "user") 1).
  - apply (bool_decide_unpack _). vm_compute. exact I.
  - apply (bool_decide_unpack _). vm_compute. exact I.
  - reflexivity.
  - right. right. left.
  - apply (bool_decide_unpack _). vm_compute. exact I.
  - apply (bool_decide_unpack _). vm_compute. exact I.
  - apply (bool_decide_unpack _). vm_compute. exact I.
  - vm_compute. reflexivity.
  - apply Forall_forall, (bool_decide_unpack _). vm_compute. exact I.
Defined.
