(* ===== verification/Bm25MergeProps.v ===== *)
(** * Properties of a bm25 merge

    The write-side gate never fires; who survives a merge; and a merge whose output, which
    passes the gate and validates, has lost the only term it should hold. *)

From Stdlib Require Import Ascii.
From S2P Require Import Prelude Supersession Bm25Layout Bm25Writer Bm25Read Bm25Encode Bm25Image Bm25Merge Bm25Props.

Local Open Scope Z_scope.

(** ** The gate *)

Section Gate.
Context {F : Type} `{MergeSink F}.
Implicit Types (w : mergeWriter F) (e : mergeEmitter F).

Lemma patch_err w off b : werr (patch w off b) = None → werr w = None.
Proof.
  destruct (werr w) as [e|] eqn:He; [|done].
  change (patch w off b) with (do_op w (Patch off b)). rewrite (do_op_err w _ e He). congruence.
Qed.

Lemma patches_keep ps w :
  let w' := fold_left (λ w '(off, b), patch w off b) ps w in
  marks w' = marks w ∧ (werr w' = None → werr w = None).
Proof.
  cbv zeta. revert w. induction ps as [|[off b] ps IH]; intros w; [done|]. cbn [fold_left].
  destruct (IH (patch w off b)) as [-> Herr]. split; [apply marks_storeAt|].
  intros Hn. by eapply patch_err, Herr.
Qed.

(** What the gate looks at is within what was written. *)
Record noted e : Prop := mkNoted {
  noted_floor : 0 ≤ prefixEnd (ep e) ∧ prefixEnd (ep e) ≤ wtail (ew e);
  noted_runs : misaligned e = None;
  noted_blocks : blockOutside e = None;
  noted_far : refEnd (furthest e) ≤ wtail (ew e);
  noted_block_far : brAt (blockFurthest e) + brSize (blockFurthest e) ≤ wtail (ew e)
}.

Definition noted_ok e : Prop := werr (ew e) = None → noted e.

Lemma e_patch_ok e ps :
  noted_ok e → noted_ok (e_patch e ps) ∧ wtail (ew (e_patch e ps)) = wtail (ew e) ∧
  ep (e_patch e ps) = ep e ∧ (werr (ew (e_patch e ps)) = None → werr (ew e) = None).
Proof.
  intros He. destruct (patches_keep ps (ew e)) as [Hm Herr].
  assert (wtail (ew (e_patch e ps)) = wtail (ew e)) as Ht by (by injection Hm).
  split; [|done]. intros Hn. destruct (He (Herr Hn)) as [N1 N2 N3 N4 N5].
  split; cbn [e_patch with_w ew ep misaligned blockOutside furthest blockFurthest] in *; rewrite ?Ht; done.
Qed.

Lemma e_append_ok e b a at_ e' :
  alignment a → noted_ok e → e_append e b a = (at_, e') →
  noted_ok e' ∧ ep e' = ep e ∧ (werr (ew e') = None → werr (ew e) = None) ∧
  (werr (ew e') = None → at_ = align (wtail (ew e)) a ∧ wtail (ew e') = at_ + blen b ∧
    prefixEnd (ep e) ≤ at_).
Proof.
  intros Ha He. unfold e_append. destruct (appendAligned (ew e) b a) as [x w] eqn:Hap.
  intros [= -> <-]. unfold appendAligned in Hap. destruct (werr (ew e)) as [er|] eqn:Her.
  - injection Hap as <- <-. unfold noted_ok. cbn [with_w ew ep]. rewrite Her. done.
  - injection Hap as <- <-. cbn [with_w ew ep]. pose proof (align_bounds (wtail (ew e)) a Ha).
    pose proof (blen_nonneg b). destruct (He Her) as [N1 N2 N3 N4 N5].
    split; [|split; [done|split; [done|]]].
    + intros _. split; cbn [with_w ew ep misaligned blockOutside furthest blockFurthest set_tail wtail];
        try done; lia.
    + intros _. cbn [set_tail wtail]. split; [done|]. lia.
Qed.

Lemma noteSpan_ok e off size field term :
  noted_ok e → (werr (ew e) = None → off + size ≤ wtail (ew e)) →
  noted_ok (noteSpan e off size field term).
Proof.
  intros He Hle. unfold noteSpan. repeat case_decide; try done. intros Hn. cbn in Hn.
  destruct (He Hn) as [N1 N2 N3 N4 N5]. specialize (Hle Hn). by split.
Qed.

Lemma noteSpan_keeps e off size field term :
  ew (noteSpan e off size field term) = ew e ∧ ep (noteSpan e off size field term) = ep e ∧
  misaligned (noteSpan e off size field term) = misaligned e ∧
  efields (noteSpan e off size field term) = efields e.
Proof. unfold noteSpan. by repeat case_decide. Qed.

Lemma noteRun_ok e off count field term :
  noted_ok e → (werr (ew e) = None → Z.rem off 4 = 0 ∧ off + 6 * count ≤ wtail (ew e)) →
  noted_ok (noteRun e off count field term).
Proof.
  intros He Hle. unfold noteRun. case_decide; [done|].
  pose proof (noteSpan_ok e off (6 * count) field term He (λ Hn, proj2 (Hle Hn))) as Hs.
  destruct (noteSpan_keeps e off (6 * count) field term) as (Hw & _).
  case_decide as Hm; [|done]. intros Hn. cbn in Hn. rewrite Hw in Hn. destruct (Hle Hn). lia.
Qed.

Lemma noteRun_keeps e off count field term :
  ew (noteRun e off count field term) = ew e ∧ ep (noteRun e off count field term) = ep e.
Proof.
  unfold noteRun. case_decide; [done|].
  destruct (noteSpan_keeps e off (6 * count) field term) as (Hw & Hp & _). by case_decide.
Qed.

Lemma noteBlock_ok e field block at_ size :
  noted_ok e → (werr (ew e) = None → prefixEnd (ep e) ≤ at_ ∧ at_ + size ≤ wtail (ew e)) →
  noted_ok (noteBlock e field block at_ size).
Proof.
  intros He Hle Hn. cbn in Hn. destruct (He Hn) as [N1 N2 N3 N4 N5]. destruct (Hle Hn) as [Hlo Hhi].
  unfold noteBlock. split; cbn [ew ep misaligned blockOutside furthest blockFurthest]; try done.
  - rewrite decide_False by lia. done.
  - case_decide; cbn; lia.
Qed.

Lemma with_field_ok e f s : noted_ok e → noted_ok (with_field e f s).
Proof. intros He Hn. destruct (He Hn). by split. Qed.

Lemma closeBlock_ok e f : noted_ok e → noted_ok (closeBlock e f) ∧ ep (closeBlock e f) = ep e.
Proof.
  intros He. unfold closeBlock. destruct (e_append e _ 1) as [at_ e1] eqn:Ha.
  apply e_append_ok in Ha as (He1 & Hp1 & _ & Hat); [|by left|done].
  set (ps := [put32 _ _]). destruct (e_patch_ok e1 ps He1) as (He2 & Ht2 & Hp2 & Herr2).
  generalize dependent (e_patch e1 ps). intros e2 He2 Ht2 Hp2 Herr2. split; [|cbn; congruence].
  apply with_field_ok, noteBlock_ok; [done|]. intros Hn. destruct (Hat (Herr2 Hn)) as (_ & ? & ?).
  rewrite Hp2, Hp1. lia.
Qed.

Lemma appendBlocked_ok e term f postOff count :
  noted_ok e → noted_ok (appendBlocked e term f postOff count) ∧
  ep (appendBlocked e term f postOff count) = ep e.
Proof.
  intros He. unfold appendBlocked.
  assert (∀ pe : bytes * mergeEmitter F, noted_ok (snd pe) ∧ ep (snd pe) = ep e →
    let '(payload, e0) := pe in
    let e1 := with_field e0 f (mkFState (fsNext (field_at e f) + 1) payload term
      (fsInBlock (field_at e f) + 1) (fsHashes (field_at e f))) in
    noted_ok (if decide (fsInBlock (field_at e f) + 1 = blockedBlockTerms) then closeBlock e1 f else e1) ∧
    ep (if decide (fsInBlock (field_at e f) + 1 = blockedBlockTerms) then closeBlock e1 f else e1) = ep e)
    as Htail.
  { intros [payload e0] [H0 Hp0]. cbv zeta. cbn [snd] in *.
    pose proof (with_field_ok e0 f (mkFState (fsNext (field_at e f) + 1) payload term
      (fsInBlock (field_at e f) + 1) (fsHashes (field_at e f))) H0) as H1.
    case_decide; [|done]. destruct (closeBlock_ok _ f H1) as [? Hp]. split; [done|]. by rewrite Hp. }
  destruct (decide (fsInBlock (field_at e f) = 0)) as [Hin|Hin]; [|by apply (Htail (_, e))].
  destruct (e_append e (to_bytes term) 1) as [termOff e1] eqn:Ha.
  apply e_append_ok in Ha as (He1 & Hp1 & _ & Hat); [|by left|done].
  set (e2 := noteSpan e1 termOff (slen term) (Z.of_nat f) term).
  assert (noted_ok e2 ∧ ep e2 = ep e) as [He2 Hp2].
  { destruct (noteSpan_keeps e1 termOff (slen term) (Z.of_nat f) term) as (_ & Hp & _).
    split; [|by rewrite <-Hp1, <-Hp]. apply noteSpan_ok; [done|]. intros Hn.
    destruct (Hat Hn) as (_ & -> & _). unfold slen. lia. }
  clearbody e2. set (ps := [put32 _ _; put32 _ _]).
  destruct (e_patch_ok e2 ps He2) as (He3 & _ & Hp3 & _).
  apply (Htail (_, e_patch e2 ps)). cbn [snd]. split; [done|congruence].
Qed.

Lemma blen_mjoin_const {A} (f : A → bytes) n (l : list A) :
  (∀ x, blen (f x) = n) → blen (mjoin (f <$> l)) = n * Z.of_nat (length l).
Proof.
  intros Hf. induction l as [|x l IH]; [cbn; unfold blen; cbn; lia|].
  change (mjoin (f <$> x :: l)) with (f x ++ mjoin (f <$> l)). rewrite blen_app, Hf, IH.
  cbn [length]. lia.
Qed.

Lemma blen_run run : blen (run_bytes run) = 6 * Z.of_nat (length run).
Proof.
  unfold run_bytes. rewrite blen_app.
  rewrite (blen_mjoin_const (λ x : Z * Z, le 4 x.1) 4), (blen_mjoin_const (λ x : Z * Z, le 2 x.2) 2); [lia|..];
    intros x; unfold blen; by rewrite length_le.
Qed.

Lemma emit_field_ok e term f run :
  noted_ok e → noted_ok (emit_field e term f run) ∧ ep (emit_field e term f run) = ep e.
Proof.
  intros He. unfold emit_field, appendPostings. destruct (e_append e (run_bytes run) 4) as [postOff e1] eqn:Ha.
  apply e_append_ok in Ha as (He1 & Hp1 & _ & Hat); [|by right; right; left|done].
  set (n := Z.of_nat (length run)). set (e2 := noteRun e1 postOff n (Z.of_nat f) term).
  assert (noted_ok e2 ∧ ep e2 = ep e) as [He2 Hp2].
  { destruct (noteRun_keeps e1 postOff n (Z.of_nat f) term) as (_ & Hp).
    split; [|by rewrite <-Hp1, <-Hp]. apply noteRun_ok; [done|]. intros Hn.
    destruct (Hat Hn) as (Hpo & Htl & _). rewrite blen_run in Htl. split; [|unfold n; lia].
    rewrite Hpo. pose proof (align_mod (wtail (ew e)) 4 ltac:(by right; right; left)) as Hal.
    by apply Z.rem_mod_eq_0. }
  clearbody e2. case_decide.
  { destruct (appendBlocked_ok e2 term f postOff n He2) as [? Hp]. split; [done|congruence]. }
  destruct (e_append e2 (to_bytes term) 1) as [termOff e3] eqn:Ha3.
  apply e_append_ok in Ha3 as (He3 & Hp3 & _ & Hat3); [|by left|done].
  set (e4 := noteSpan e3 termOff (slen term) (Z.of_nat f) term).
  assert (noted_ok e4 ∧ ep e4 = ep e) as [He4 Hp4].
  { destruct (noteSpan_keeps e3 termOff (slen term) (Z.of_nat f) term) as (_ & Hp & _).
    split; [|unfold e4; congruence]. apply noteSpan_ok; [done|]. intros Hn.
    destruct (Hat3 Hn) as (_ & -> & _). unfold slen. lia. }
  clearbody e4.
  set (ps := [put32 _ _; put32 _ _; put32 _ _; put32 _ _]).
  destruct (e_patch_ok e4 ps He4) as (He5 & _ & Hp5 & _).
  split; [by apply with_field_ok|]. cbn [with_field ep]. congruence.
Qed.

Lemma emit_term_ok e term df :
  noted_ok e → noted_ok (emit_term e term df) ∧ ep (emit_term e term df) = ep e.
Proof.
  intros He. unfold emit_term. destruct (e_append e (to_bytes term) 1) as [termOff e1] eqn:Ha.
  apply e_append_ok in Ha as (He1 & Hp1 & _ & Hat); [|by left|done].
  set (e2 := noteSpan e1 termOff (slen term) (-1) term).
  assert (noted_ok e2 ∧ ep e2 = ep e) as [He2 Hp2].
  { destruct (noteSpan_keeps e1 termOff (slen term) (-1) term) as (_ & Hp & _).
    split; [|by rewrite <-Hp1, <-Hp]. apply noteSpan_ok; [done|]. intros Hn.
    destruct (Hat Hn) as (_ & -> & _). unfold slen. lia. }
  clearbody e2. set (ps := [put32 _ _; put32 _ _; put64 _ _]).
  destruct (e_patch_ok e2 ps He2) as (He3 & _ & Hp3 & _).
  generalize dependent (e_patch e2 ps). intros e3 He3 Hp3. split; [|cbn; congruence].
  intros Hn. cbn in Hn. destruct (He3 Hn). by split.
Qed.

Lemma emit_all_ok evs e :
  noted_ok e → noted_ok (fold_left emit evs e) ∧ ep (fold_left emit evs e) = ep e.
Proof.
  revert e. induction evs as [|ev evs IH]; intros e He; [done|]. cbn [fold_left].
  assert (noted_ok (emit e ev) ∧ ep (emit e ev) = ep e) as [He' Hp].
  { destruct ev as [t f run|t df]; [apply emit_field_ok|apply emit_term_ok]; done. }
  destruct (IH _ He') as [? Hp']. split; [done|congruence].
Qed.

Lemma fold_noted (g : mergeEmitter F → nat → mergeEmitter F) l e :
  (∀ e f, noted_ok e → noted_ok (g e f)) → noted_ok e → noted_ok (fold_left g l e).
Proof. intros Hg. revert e. induction l as [|f l IH]; intros e He; [done|]. by apply IH, Hg. Qed.

Lemma flushBlocks_ok e : noted_ok e → noted_ok (flushBlocks e).
Proof.
  intros He. unfold flushBlocks. repeat case_decide; [apply fold_noted|apply fold_noted|]; try done.
  - intros e' f He'. case_decide; [by apply closeBlock_ok|done].
  - intros e' f He'. case_decide; [done|by apply e_patch_ok].
Qed.

Lemma write_merge_noted (f : F) p lengths evs :
  0 ≤ prefixEnd p → noted_ok (write_merge f p lengths evs).
Proof.
  intros Hp. unfold write_merge. apply flushBlocks_ok, emit_all_ok. intros _.
  destruct (patches_keep (merge_prefix p lengths) (newMergeWriter f (prefixEnd p))) as [Hm _].
  generalize dependent (fold_left (λ w '(off, b), patch w off b) (merge_prefix p lengths)
    (newMergeWriter f (prefixEnd p))). intros w Hm. injection Hm as Ht _. cbn in Ht.
  split; cbn [newMergeEmitter ew ep misaligned blockOutside furthest blockFurthest refEnd brAt brSize];
    try done; lia.
Qed.

Lemma noted_verifies e : noted e → verifyWithin e (wtail (ew e)) = Ok tt.
Proof.
  intros [N1 N2 N3 N4 N5]. unfold verifyWithin. rewrite N2, N3.
  by rewrite !decide_False by lia.
Qed.

End Gate.

Lemma hashSlotCount_loop_nonneg fuel k n : 0 ≤ k → 0 ≤ hashSlotCount_loop fuel k n.
Proof.
  revert k. induction fuel as [|m IH]; intros k Hk; [done|]. cbn [hashSlotCount_loop].
  case_decide; [apply IH; lia|done].
Qed.

Lemma hashSlotCount_nonneg n : 0 ≤ hashSlotCount n.
Proof. by apply hashSlotCount_loop_nonneg. Qed.

Lemma planFieldDict_end kind n off : 0 ≤ n → off ≤ snd (planFieldDict kind n off).
Proof.
  intros Hn. unfold planFieldDict, v2FlatEntrySize, v2HashSlotSize. cbv zeta.
  assert (∀ o, o ≤ align o 8 ∧ o ≤ align o 4) as Hal.
  { intros o. pose proof (align_bounds o 8 ltac:(by right; right; right)).
    pose proof (align_bounds o 4 ltac:(by right; right; left)). lia. }
  assert (0 ≤ block_count n) by (unfold block_count, blockedBlockTerms; apply Z.div_pos; lia).
  pose proof (hashSlotCount_nonneg n). pose proof (Hal off) as [H8 _].
  repeat case_decide; cbn [snd].
  - pose proof (Hal (align off 8 + 16 + 8 * block_count n)). lia.
  - pose proof (Hal (align off 8 + 16 + 16 * n)). lia.
  - lia.
Qed.

Lemma planFieldDicts_end kind counts off :
  Forall (Z.le 0) counts → off ≤ snd (planFieldDicts kind counts off).
Proof.
  revert off. induction counts as [|n counts IH]; intros off Hf; [done|]. inv Hf. cbn [planFieldDicts].
  pose proof (planFieldDict_end kind n off ltac:(done)) as Hd.
  destruct (planFieldDict kind n off) as [d off1]. specialize (IH off1 ltac:(done)).
  destruct (planFieldDicts kind counts off1). cbn in *. lia.
Qed.

Lemma planMerge_prefix kind ms counts df :
  Forall (Z.le 0) counts → 0 ≤ df → 0 ≤ prefixEnd (planMerge kind ms counts df).
Proof.
  intros Hc Hdf. assert (0 ≤ 4 * Z.of_nat (length ms)) as Hms by lia. unfold planMerge. cbv zeta.
  assert (∀ o, o ≤ align o 8 ∧ o ≤ align o 4) as Hal.
  { intros o. pose proof (align_bounds o 8 ltac:(by right; right; right)).
    pose proof (align_bounds o 4 ltac:(by right; right; left)). lia. }
  pose proof (Hal v2HeaderSize) as [_ H0]. unfold v2HeaderSize, v2FieldEntrySize, v2DocFreqRowSize in *.
  set (moo := align 32 4) in *.
  pose proof (lay_le (moo + 4 * (Z.of_nat (length ms) + 1)) (slen <$> ms)
    (Forall_nonneg_fmap slen ms slen_nonneg)) as H1.
  destruct (lay _ (slen <$> ms)) as [mo e1]. cbn [snd] in H1. pose proof (Hal e1) as [H2 _].
  pose proof (lay_le (align e1 8 + 48 * Z.of_nat (length defaultFieldConfigs))
    ((slen ∘ cfgName) <$> defaultFieldConfigs)
    (Forall_nonneg_fmap _ _ (λ c, slen_nonneg (cfgName c)))) as H3.
  destruct (lay _ ((slen ∘ cfgName) <$> defaultFieldConfigs)) as [no e2]. cbn [snd] in H3.
  pose proof (lay_aligned_le e2 ((λ _, 4 * Z.of_nat (length ms)) <$> defaultFieldConfigs)
    (Forall_nonneg_fmap (λ _, 4 * Z.of_nat (length ms)) _ (λ _, Hms))) as H4.
  destruct (lay_aligned e2 _) as [lo e3]. cbn [snd] in H4.
  pose proof (planFieldDicts_end kind counts e3 Hc) as H5.
  destruct (planFieldDicts kind counts e3) as [ds e4]. cbn [snd] in H5.
  pose proof (Hal e4) as [H6 _]. pose proof (Hal (align e4 8 + 8)) as [H7 _].
  cbn [prefixEnd]. pose proof (Hal (align (align e4 8 + 8) 8 + 16 * df)) as [H8 _]. lia.
Qed.

Lemma count_events_nonneg evs counts df counts' df' :
  Forall (Z.le 0) counts → 0 ≤ df → count_events evs counts df = Ok (counts', df') →
  Forall (Z.le 0) counts' ∧ 0 ≤ df'.
Proof.
  revert counts df. induction evs as [|[t f run|t n] evs IH]; intros counts df Hc Hd; cbn [count_events].
  - by intros [= <- <-].
  - destruct (counts !! f) as [n|] eqn:Hn; [|done]. apply IH; [|done].
    apply Forall_insert; [done|]. rewrite Forall_lookup in Hc. specialize (Hc _ _ Hn). lia.
  - apply IH; [done|lia].
Qed.

Lemma merge_inputs_plan ins accept kind p lengths evs :
  merge_inputs ins accept kind = Some (Ok (p, lengths, evs)) → 0 ≤ prefixEnd p.
Proof.
  unfold merge_inputs. destruct (resolveMergeLayout ins accept) as [[ms rm]|]; [|done]. cbn [fueled_bind].
  destruct (mergeWalk ins rm) as [[evs'|]|]; [|done..]. cbn [fueled_bind].
  destruct (count_events _ _ _) as [[counts df]|] eqn:Hc; [|done]. cbn [fueled_bind].
  intros [= <- _ _]. apply count_events_nonneg in Hc as [? ?]; [by apply planMerge_prefix| |lia].
  by apply Forall_replicate, Z.le_refl.
Qed.

(** C35: The gate of a merge never refuses: whatever the inputs, the filters and the sink, what
    the rows written refer to is aligned and within what the merge appended.  (The gate
    recomputes from the offsets the emission chose, so it does not see what the writer made
    of the bytes there.) *)
Theorem merge_gate_never_fires {F} `{MergeSink F} (f : F) (ins : list mappedSegment)
    (accept : list acceptFn) (kind : Z) (v : verifyErr) :
  snd (streamMergeToFile f ins accept kind) ≠ Some (Err (BadReference v)).
Proof.
  unfold streamMergeToFile. destruct (merge_inputs ins accept kind) as [[[[p ls] evs]|e]|] eqn:Hm; [|done..].
  apply merge_inputs_plan in Hm. pose proof (write_merge_noted f p ls evs Hm) as Hok.
  generalize dependent (write_merge f p ls evs). intros e Hok. unfold finish_merge.
  destruct (werr (ew e)) as [er|] eqn:Her; [done|]. case_decide; [done|].
  rewrite noted_verifies by (by apply Hok). cbv zeta. cbn [snd].
  by destruct (werr (flushAll _)).
Qed.

(** ** Who survives *)

(** The slot is the last whose member its input's filter accepts under that id. *)
Definition last_copy (accept : list acceptFn) (ms : list (nat * Z * string)) (i : nat) (d : Z)
    (id : string) : Prop :=
  ∃ pre post, ms = pre ++ (i, d, id) :: post ∧ kept (acceptFor accept i) id = true ∧
    ∀ i' d', (i', d', id) ∈ post → kept (acceptFor accept i') id = false.

Lemma winners_last ms accept id i d :
  resolveMergeWinners ms accept !! id = Some (i, d) ↔ last_copy accept ms i d id.
Proof.
  unfold resolveMergeWinners. revert id i d.
  induction ms as [|[[i0 d0] id0] ms IH] using rev_ind; intros id i d.
  { cbn. rewrite lookup_empty. split; [done|]. by intros ([|] & ? & ? & _). }
  rewrite fold_left_app. cbn [fold_left].
  destruct (decide (id0 = id ∧ kept (acceptFor accept i0) id0 = true)) as [[-> Hk]|Hn].
  - rewrite Hk, lookup_insert_eq. split.
    + intros [= -> ->]. exists ms, []. split; [done|]. split; [done|]. by intros ? ? ?%elem_of_nil.
    + intros (pre & post & Heq & Hki & Hpost). destruct post as [|y post _] using rev_ind.
      * apply app_inj_tail in Heq as [_ Heq]. by injection Heq as -> ->.
      * rewrite app_comm_cons, app_assoc in Heq. apply app_inj_tail in Heq as [_ <-].
        rewrite (Hpost i0 d0) in Hk; [done|]. apply elem_of_app. right. by left.
  - assert ((if kept (acceptFor accept i0) id0
             then <[id0 := (i0, d0)]> (fold_left (λ winner '(i, d, id),
               if kept (acceptFor accept i) id then <[id := (i, d)]> winner else winner) ms ∅)
             else fold_left (λ winner '(i, d, id),
               if kept (acceptFor accept i) id then <[id := (i, d)]> winner else winner) ms ∅) !! id
            = resolveMergeWinners ms accept !! id) as ->.
    { unfold resolveMergeWinners. destruct (kept (acceptFor accept i0) id0) eqn:Hk; [|done].
      rewrite lookup_insert_ne; [done|]. intros ->. naive_solver. }
    unfold resolveMergeWinners. rewrite IH. split.
    + intros (pre & post & -> & Hk & Hpost). exists pre, (post ++ [(i0, d0, id0)]).
      split; [by rewrite <-app_assoc|]. split; [done|]. intros i' d' [Hin|Hin]%elem_of_app; [by eapply Hpost|].
      apply list_elem_of_singleton in Hin as [= -> -> <-].
      destruct (kept (acceptFor accept i0) id) eqn:Hk'; [|done]. by destruct Hn.
    + intros (pre & post & Heq & Hk & Hpost). destruct post as [|y post _] using rev_ind.
      * apply app_inj_tail in Heq as [_ Heq]. injection Heq as -> -> ->. by destruct Hn.
      * rewrite app_comm_cons, app_assoc in Heq. apply app_inj_tail in Heq as [-> _].
        exists pre, post. split; [done|]. split; [done|]. intros i' d' Hin. apply (Hpost i' d').
        apply elem_of_app. by left.
Qed.

Lemma last_copy_unique accept ms i d i' d' id :
  last_copy accept ms i d id → last_copy accept ms i' d' id → (i, d) = (i', d').
Proof. rewrite <-!winners_last. congruence. Qed.

Lemma winners_some ms accept i d id :
  (i, d, id) ∈ ms → kept (acceptFor accept i) id = true →
  is_Some (resolveMergeWinners ms accept !! id).
Proof.
  intros Hin Hk. unfold resolveMergeWinners.
  induction ms as [|[[i0 d0] id0] ms IH] using rev_ind; [by apply elem_of_nil in Hin|].
  rewrite fold_left_app. cbn [fold_left]. apply elem_of_app in Hin as [Hin|Hin].
  - destruct (kept (acceptFor accept i0) id0); [|by apply IH].
    destruct (decide (id0 = id)) as [->|]; [rewrite lookup_insert_eq; eauto|].
    rewrite lookup_insert_ne by done. by apply IH.
  - apply list_elem_of_singleton in Hin as [= <- <- <-]. rewrite Hk, lookup_insert_eq. eauto.
Qed.

Lemma elem_of_surviving ms accept i d id :
  (i, d, id) ∈ survivors ms accept ↔ (i, d, id) ∈ ms ∧ last_copy accept ms i d id.
Proof.
  unfold survivors. rewrite !list_elem_of_In, List.filter_In, andb_true_iff. unfold winsSlot.
  rewrite <-winners_last. split.
  - intros [Hin [Hk Hw]]. split; [done|].
    destruct (resolveMergeWinners ms accept !! id) as [w|] eqn:Hl.
    + rewrite bool_decide_eq_true in Hw. by rewrite Hw.
    + apply list_elem_of_In in Hin. destruct (winners_some ms accept i d id Hin Hk) as [w Hw']. congruence.
  - intros [Hin Hl]. pose proof Hl as (pre & post & _ & Hk & _)%winners_last.
    rewrite Hl, bool_decide_true by done. done.
Qed.

Lemma NoDup_filter_bool {A} (f : A → bool) l : NoDup l → NoDup (List.filter f l).
Proof.
  intros Hl. apply NoDup_ListNoDup, List.NoDup_filter. by apply NoDup_ListNoDup.
Qed.

Lemma survivors_ids_nodup ms accept : NoDup ms → NoDup (snd <$> survivors ms accept).
Proof.
  intros Hnd. apply NoDup_fmap_2_strong; [|by apply NoDup_filter_bool].
  intros [[i d] id] [[i' d'] id'] [_ H1]%elem_of_surviving [_ H2]%elem_of_surviving. cbn.
  intros <-. pose proof (last_copy_unique _ _ _ _ _ _ _ H1 H2). congruence.
Qed.

Lemma members_of_spec i0 ins ms i d id :
  members_of i0 ins = Ok ms → (i, d, id) ∈ ms →
  ∃ s l, ins !! (i - i0)%nat = Some s ∧ IDs s = Ok l ∧ (i0 ≤ i)%nat ∧ 0 ≤ d ∧
    l !! Z.to_nat d = Some id.
Proof.
  revert i0 ms. induction ins as [|s ins IH]; intros i0 ms Hm Hin; cbn [members_of] in Hm.
  { injection Hm as <-. by apply elem_of_nil in Hin. }
  ok_bind Hm l. ok_bind Hm others. injection Hm as <-. apply elem_of_app in Hin as [Hin|Hin].
  - apply elem_of_lookup_imap in Hin as (k & y & [= -> -> ->] & Hy).
    exists s, l. rewrite Nat.sub_diag. split_and!; [done|done|done|lia|by rewrite Nat2Z.id].
  - destruct (IH (S i0) others) as (s' & l' & Hs & Hl & Hle & Hd & Hid); [done..|].
    exists s', l'. split_and!; [|done|lia|done|done]. by replace (i - i0)%nat with (S (i - S i0)) by lia.
Qed.

Lemma members_of_nodup i0 ins ms :
  members_of i0 ins = Ok ms → NoDup (fst <$> ms).
Proof.
  revert i0 ms. induction ins as [|s ins IH]; intros i0 ms Hm; cbn [members_of] in Hm.
  { injection Hm as <-. constructor. }
  ok_bind Hm l. ok_bind Hm others. injection Hm as <-. rewrite fmap_app.
  apply NoDup_app. split_and!.
  - rewrite fmap_imap. apply NoDup_alt. intros j k x.
    rewrite !list_lookup_imap. destruct (l !! j), (l !! k); cbn; try done.
    intros [= <-] [= Hjk]. lia.
  - intros [i d] H1 H2. apply list_elem_of_fmap in H1 as ([[i1 d1] id1] & [= -> ->] & H1).
    apply elem_of_lookup_imap in H1 as (k & y & [= -> -> ->] & _).
    apply list_elem_of_fmap in H2 as ([[i2 d2] id2] & [= <- <-] & H2).
    destruct (members_of_spec (S i0) ins others i0 (Z.of_nat k) id2) as (_ & _ & _ & _ & Hle & _);
      [done..|lia].
  - by eapply IH.
Qed.

Lemma length_each {A} (f : Z → result readErr A) n i l : each f n i = Ok l → length l = n.
Proof.
  revert i l. induction n as [|n IH]; intros i l Hl; cbn [each] in Hl; [by injection Hl as <-|].
  ok_bind Hl x. ok_bind Hl r. injection Hl as <-. cbn. f_equal. by eapply IH.
Qed.

Lemma NoDup_fst_inj {A B} (l : list (A * B)) x y :
  NoDup (fst <$> l) → x ∈ l → y ∈ l → x.1 = y.1 → x = y.
Proof.
  intros Hnd [i Hi]%list_elem_of_lookup [j Hj]%list_elem_of_lookup Hxy.
  assert (i = j) as <-; [|congruence].
  eapply (NoDup_lookup _ i j (x.1) Hnd); rewrite list_lookup_fmap; [by rewrite Hi|by rewrite Hj, Hxy].
Qed.

Lemma survivors_in ms accept x : x ∈ survivors ms accept → x ∈ ms.
Proof. unfold survivors. rewrite !list_elem_of_In, List.filter_In. by intros [? _]. Qed.

Lemma survivors_positions ms accept : NoDup (fst <$> ms) → NoDup (fst <$> survivors ms accept).
Proof.
  intros Hnd. apply NoDup_fmap_2_strong.
  - intros x y Hx%survivors_in Hy%survivors_in. by apply (NoDup_fst_inj ms).
  - apply NoDup_filter_bool. by eapply NoDup_fmap_1.
Qed.

Lemma slot_id_spec surv i d id :
  NoDup (fst <$> surv) → (i, d, id) ∈ surv →
  0 ≤ slot_id surv i d ∧ surv !! Z.to_nat (slot_id surv i d) = Some (i, d, id).
Proof.
  intros Hnd Hin. unfold slot_id. destruct (list_find (λ s, s.1 = (i, d)) surv) as [[n x]|] eqn:Hf.
  - apply list_find_Some in Hf as (Hx & Hd & _). rewrite Nat2Z.id. split; [lia|]. rewrite Hx. f_equal.
    apply (NoDup_fst_inj surv); [done|by eapply list_elem_of_lookup_2|done|done].
  - apply list_find_None_Forall in Hf. rewrite Forall_forall in Hf. by destruct (Hf _ Hin).
Qed.

Lemma slot_id_none surv i d : (∀ id, (i, d, id) ∉ surv) → slot_id surv i d = -1.
Proof.
  intros Hn. unfold slot_id. destruct (list_find (λ s, s.1 = (i, d)) surv) as [[n [p id]]|] eqn:Hf; [|done].
  apply list_find_Some in Hf as (Hx & Hd & _). cbn in Hd. subst p.
  apply list_elem_of_lookup_2 in Hx. by destruct (Hn id).
Qed.

Lemma kept_has_last ms accept i d id :
  (i, d, id) ∈ ms → kept (acceptFor accept i) id = true → ∃ i' d', last_copy accept ms i' d' id.
Proof.
  intros Hin Hk. destruct (winners_some ms accept i d id Hin Hk) as [[i' d'] Hw].
  exists i', d'. by apply winners_last.
Qed.

Lemma last_copy_in accept ms i d id : last_copy accept ms i d id → (i, d, id) ∈ ms.
Proof. intros (pre & post & -> & _). apply elem_of_app. right. by left. Qed.

Lemma last_copy_dec accept ms i d id : {last_copy accept ms i d id} + {¬ last_copy accept ms i d id}.
Proof.
  destruct (decide (resolveMergeWinners ms accept !! id = Some (i, d))) as [Hl|Hl];
    [left|right]; by rewrite <-winners_last.
Qed.

(** C15: The members of a merge are the ids some input holds and its filter accepts, each once;
    a slot gets the position of its id among them if it is the last accepted one that
    carries the id, and -1 otherwise. *)
Theorem merge_keeps_the_last_copy (ins : list mappedSegment) (accept : list acceptFn)
    (ms : list (nat * Z * string)) (members : list string) (rm : remap) :
  members_of 0 ins = Ok ms → resolveMergeLayout ins accept = Ok (members, rm) →
  NoDup members ∧
  (∀ id, id ∈ members ↔ ∃ i d, (i, d, id) ∈ ms ∧ kept (acceptFor accept i) id = true) ∧
  ∀ i d id, (i, d, id) ∈ ms →
    ∃ n, (rm !! i ≫= λ l, l !! Z.to_nat d) = Some n ∧
      ((last_copy accept ms i d id ∧ 0 ≤ n ∧ members !! Z.to_nat n = Some id) ∨
       (¬ last_copy accept ms i d id ∧ n = -1)).
Proof.
  intros Hm Hr. unfold resolveMergeLayout in Hr. rewrite Hm in Hr. cbn [result_bind] in Hr.
  injection Hr as <- <-. pose proof (members_of_nodup _ _ _ Hm) as Hnd.
  pose proof (NoDup_fmap_1 _ _ Hnd) as Hnd'. split; [by apply survivors_ids_nodup|]. split.
  - intros id. rewrite list_elem_of_fmap. split.
    + intros ([[i d] id'] & -> & Hin). apply elem_of_surviving in Hin as [Hin (pre & post & _ & Hk & _)].
      by exists i, d.
    + intros (i & d & Hin & Hk). destruct (kept_has_last _ _ _ _ _ Hin Hk) as (i' & d' & Hl).
      exists (i', d', id). split; [done|]. apply elem_of_surviving. split; [by eapply last_copy_in|done].
  - intros i d id Hin. destruct (members_of_spec _ _ _ _ _ _ Hm Hin) as (s & l & Hs & Hl & _ & Hd & Hid).
    rewrite Nat.sub_0_r in Hs. exists (slot_id (survivors ms accept) i d). split.
    + unfold remap_of, remap. rewrite list_lookup_imap, Hs. cbn. rewrite list_lookup_fmap.
      unfold IDs in Hl. apply length_each in Hl. apply lookup_lt_Some in Hid.
      rewrite lookup_seq_lt by lia. cbn. by rewrite Z2Nat.id.
    + destruct (last_copy_dec accept ms i d id) as [Hlc|Hlc].
      * left. split; [done|]. destruct (slot_id_spec (survivors ms accept) i d id) as [? Hx].
        -- by apply survivors_positions.
        -- by apply elem_of_surviving.
        -- split; [done|]. by rewrite list_lookup_fmap, Hx.
      * right. split; [done|]. apply slot_id_none. intros id' Hin'.
        apply elem_of_surviving in Hin' as [Hin' Hlc'].
        assert ((i, d, id') = (i, d, id)) as [= ->] by (by apply (NoDup_fst_inj ms)). done.
Qed.

Definition newer_fruit : list docFieldTokens := [one_field "doc-1" "summary" [("apple", 7); ("fig", 1)]].

Definition fruit_inputs : list mappedSegment :=
  [opened (sample_blob dictBlocked fruit); opened (sample_blob dictFlat newer_fruit)].

Lemma merge_keeps_the_last_copy_witness :
  resolveMergeLayout fruit_inputs [] = Ok (["doc-2"; "doc-1"], [[-1; 0]; [1]]) ∧
  NoDup ["doc-2"; "doc-1"].
Proof.
  assert (resolveMergeLayout fruit_inputs [] = Ok (["doc-2"; "doc-1"], [[-1; 0]; [1]])) as Hr
    by (vm_compute; reflexivity).
  split; [exact Hr|].
  assert (members_of 0 fruit_inputs = Ok [(0%nat, 0, "doc-1"); (0%nat, 1, "doc-2"); (1%nat, 0, "doc-1")])
    as Hm by (vm_compute; reflexivity).
  exact (proj1 (merge_keeps_the_last_copy _ _ _ _ _ Hm Hr)).
Defined.

(** ** A merge that erases what it wrote *)

(** What a merge of some blobs leaves in a file, empty if it fails. *)
Definition merged_blob (kind : Z) (bs : list bytes) : bytes :=
  let '(f, r) := streamMergeToFile ([] : bytes) (opened <$> bs) [] kind in
  match r with Some (Ok n) => take (Z.to_nat n) f | _ => [] end.

(** A document whose whole text is the Kelvin sign: three bytes, so a token, and one byte
    once lowercased. *)
Definition kelvin : list docFieldTokens := [one_field "doc" "summary" [("k", 1)]].

Definition kelvin_blob : bytes := sample_blob dictBlocked kelvin.

(** The field of the document. *)
Definition summary_terms (b : bytes) : result readErr (list (string * (list Z * list Z))) :=
  match fields (opened b) !! 1%nat with Some mf => eachTerm mf | None => Err IndexPanic end.

(** A merge that loses the only term of its only document.  The gap an append pads over is
    not always unwritten: the row that ends the planned prefix is a live window when the
    eight-byte tail behind it (one posting, one front-coded block of a one-byte term) has
    been flushed from another, and the padding extends the row over it.  The gate passes,
    the output validates and lists the document, and its term and count are gone. *)
Theorem merge_can_erase_postings :
  summary_terms kelvin_blob = Ok [("k", ([0], [1]))] ∧
  docFreqEach (opened kelvin_blob) = Ok [("k", 1)] ∧
  snd (streamMergeToFile ([] : bytes) [opened kelvin_blob] [] dictBlocked) = Some (Ok 488) ∧
  ValidateSegment (merged_blob dictBlocked [kelvin_blob]) = Ok tt ∧
  IDs (opened (merged_blob dictBlocked [kelvin_blob])) = Ok ["doc"] ∧
  let nul := String Ascii.zero "" in
  summary_terms (merged_blob dictBlocked [kelvin_blob]) = Ok [(nul, ([0], [0]))] ∧
  docFreqEach (opened (merged_blob dictBlocked [kelvin_blob])) = Ok [(nul, 1)].
Proof. vm_compute. repeat split. Qed.
