(* ===== verification/Bm25WalkProps.v ===== *)
(** * The k-way walk of a bm25 merge is a grouping of the sorted entries

    [mergeWalk] drains one cursor per input and field through a heap.  Its reference: take
    all the dictionary entries of all inputs in the order of (term, field, input), and for
    each term, for each field that has it, concatenate the surviving postings. *)

From Stdlib Require Import Ascii.
From S2P Require Import Prelude Supersession Bm25Layout Bm25Writer Bm25Read Bm25Encode Bm25Merge Bm25Props Bm25MergeProps.

Local Open Scope Z_scope.

(** ** Entries and their order *)

Record entry := mkEntry {
  eTerm : string;
  eField : nat;
  eInput : nat;
  eRun : list Z * list Z
}.

Definition entry_lt (x y : entry) : Prop :=
  eTerm x <s eTerm y ∨
  (eTerm x = eTerm y ∧ (eField x < eField y ∨ (eField x = eField y ∧ eInput x < eInput y)))%nat.

(** ** The reference *)

(** One of each run of equal elements. *)
Fixpoint uniq {A} `{EqDecision A} (l : list A) : list A :=
  match l with
  | x :: ((y :: _) as l') => if decide (x = y) then uniq l' else x :: uniq l'
  | _ => l
  end.

Definition entry_run (rm : remap) (x : entry) : list (Z * Z) :=
  remap_run (default [] (rm !! eInput x)) (fst (eRun x)) (snd (eRun x)).

Definition run_of (rm : remap) (E : list entry) : list (Z * Z) := E ≫= entry_run rm.

Definition field_events (rm : remap) (t : string) (E : list entry) : list mergeEvent :=
  uniq (eField <$> E) ≫= λ f,
    let run := run_of rm (filter (λ x, eField x = f) E) in
    if decide (run = []) then [] else [OnField t f run].

Definition term_events (rm : remap) (E : list entry) (t : string) : list mergeEvent :=
  let Et := filter (λ x, eTerm x = t) E in
  let docs := fst <$> run_of rm Et in
  field_events rm t Et ++ (if decide (docs = []) then [] else [OnTerm t (distinct docs)]).

Definition reference_walk (rm : remap) (E : list entry) : list mergeEvent :=
  uniq (eTerm <$> E) ≫= term_events rm E.

(** The entries of a dictionary, and of all. *)
Definition entries_of (f i : nat) (l : list (string * (list Z * list Z))) : list entry :=
  (λ x, mkEntry x.1 f i x.2) <$> l.

Definition dict_of (mf : mappedField) : list (string * (list Z * list Z)) :=
  match eachTerm mf with Ok l => l | Err _ => [] end.

Fixpoint field_entries (i f : nat) (mfs : list mappedField) : list entry :=
  match mfs with
  | [] => []
  | mf :: mfs => entries_of f i (dict_of mf) ++ field_entries i (S f) mfs
  end.

Fixpoint entries_from (i : nat) (ins : list mappedSegment) : list entry :=
  match ins with
  | [] => []
  | ms :: ins => field_entries i 0 (fields ms) ++ entries_from (S i) ins
  end.

Definition all_entries (ins : list mappedSegment) : list entry := entries_from 0 ins.

(** ** The order *)

Lemma entry_lt_trans x y z : entry_lt x y → entry_lt y z → entry_lt x z.
Proof.
  intros [Hxy|[Hxy Hf]] [Hyz|[Hyz Hg]].
  - left. by eapply str_lt_trans.
  - left. by rewrite <-Hyz.
  - left. by rewrite Hxy.
  - right. split; [congruence|]. lia.
Qed.

Lemma entry_lt_irrefl x : ¬ entry_lt x x.
Proof. intros [H|[_ H]]; [by apply str_lt_irrefl in H|lia]. Qed.

Lemma str_trichotomy (a b : string) : a <s b ∨ a = b ∨ b <s a.
Proof.
  destruct (decide (a <s b)) as [|H]; [by left|]. right. apply str_le_not_lt in H.
  apply str_le_lt_eq in H as [|]; [by right|by left].
Qed.

#[export] Instance entry_eq_dec : EqDecision entry.
Proof. solve_decision. Defined.

#[export] Instance entry_lt_dec x y : Decision (entry_lt x y).
Proof. unfold entry_lt. apply _. Defined.

#[export] Instance strongly_sorted_dec {A} (R : A → A → Prop) `{!RelDecision R} (l : list A) :
  Decision (StronglySorted R l).
Proof.
  induction l as [|x l IH]; [left; constructor|].
  destruct IH as [Hl|Hl]; [|right; by intros [_ ?]%StronglySorted_cons].
  destruct (decide (Forall (R x) l)); [left; by apply StronglySorted_cons|].
  right. by intros [? _]%StronglySorted_cons.
Defined.

(** ** Cursors and what they have left *)

(** The entries a cursor stands before: its own and those of the terms behind it. *)
Definition denotes (c : termCursor) (l : list (string * (list Z * list Z))) : Prop :=
  let it := cIt c in
  ∃ run l', l = (cterm c, run) :: l' ∧
    postings (it_mf it) (it_postOff it) (it_count it) = Ok run ∧
    walkTerms (Z.to_nat (termCount (it_mf it) - it_idx it)) it = Ok l'.

Definition ascending (l : list (string * (list Z * list Z))) : Prop :=
  StronglySorted str_lt (fst <$> l).

Lemma walk_denotes it l i f :
  walkTerms (Z.to_nat (termCount (it_mf it) - it_idx it)) it = Ok l →
  (l = [] ∧ next it = Ok None) ∨
  ∃ it', next it = Ok (Some it') ∧ denotes (mkCursor i f it') l.
Proof.
  intros Hw. destruct (Z.to_nat (termCount (it_mf it) - it_idx it)) as [|n] eqn:Hn.
  - left. injection Hw as <-. split; [done|]. unfold next. by rewrite decide_True by lia.
  - right. cbn [walkTerms] in Hw. ok_bind Hw r. destruct r as [it'|].
    + ok_bind Hw p. ok_bind Hw others. injection Hw as <-. exists it'. split; [done|].
      match goal with H : next _ = Ok (Some _) |- _ => destruct (next_spec _ _ H) as (Hmf & Hidx & _) end.
      exists p, others. split; [done|]. cbn [cIt]. split; [done|].
      rewrite Hmf, Hidx.
      replace (Z.to_nat (termCount (it_mf it) - (it_idx it + 1))) with n by lia. done.
    + exfalso. match goal with H : next _ = Ok None |- _ => revert H end. unfold next.
      rewrite decide_False by lia. intros Hx. by ok_bind Hx y.
Qed.

Lemma denotes_next c t run l :
  denotes c ((t, run) :: l) →
  (l = [] ∧ next (cIt c) = Ok None) ∨
  ∃ it', next (cIt c) = Ok (Some it') ∧ denotes (mkCursor (cInput c) (cField c) it') l.
Proof. intros (run' & l' & [= -> -> ->] & _ & Hw). by apply walk_denotes. Qed.

Definition cursor_entries (c : termCursor) (l : list (string * (list Z * list Z))) : list entry :=
  entries_of (cField c) (cInput c) l.

(** The state of the heap: what each cursor has left, and all of it in order. *)
Record heap_state (h : list termCursor) (ls : list (list (string * (list Z * list Z))))
    (E : list entry) : Prop := mkHeapState {
  hs_denotes : Forall2 denotes h ls;
  hs_ascending : Forall ascending ls;
  hs_sorted : StronglySorted (λ a b, cursor_less a b = true) h;
  hs_distinct : NoDup ((λ c, (cInput c, cField c)) <$> h);
  hs_perm : E ≡ₚ mjoin (zip_with cursor_entries h ls);
  hs_entries : StronglySorted entry_lt E
}.

Definition head_entry (c : termCursor) (run : list Z * list Z) : entry :=
  mkEntry (cterm c) (cField c) (cInput c) run.

Lemma cursor_less_lt a b ra rb :
  cursor_less a b = true → entry_lt (head_entry a ra) (head_entry b rb).
Proof.
  unfold cursor_less, entry_lt. cbn.
  destruct (decide (cterm a = cterm b)); [destruct (decide (cField a = cField b))|];
    rewrite bool_decide_eq_true; intros Hl.
  - right. split; [done|]. by right.
  - right. split; [done|]. by left.
  - by left.
Qed.

Lemma cursor_less_total a b :
  (cInput a, cField a) ≠ (cInput b, cField b) → cursor_less a b = true ∨ cursor_less b a = true.
Proof.
  unfold cursor_less. intros Hne. rewrite (decide_ext (cterm b = cterm a) (cterm a = cterm b)) by done.
  rewrite (decide_ext (cField b = cField a) (cField a = cField b)) by done.
  destruct (decide (cterm a = cterm b)); [destruct (decide (cField a = cField b))|];
    rewrite !bool_decide_eq_true.
  - assert (cInput a ≠ cInput b) by congruence. lia.
  - lia.
  - destruct (str_trichotomy (cterm a) (cterm b)) as [|[|]]; [by left|done|by right].
Qed.

Lemma cursor_less_trans a b c :
  cursor_less a b = true → cursor_less b c = true → cursor_less a c = true.
Proof.
  intros H1 H2. pose proof (entry_lt_trans _ _ _ (cursor_less_lt a b ([], []) ([], []) H1)
    (cursor_less_lt b c ([], []) ([], []) H2)) as [H|[H Hf]]; cbn in *; unfold cursor_less.
  - rewrite decide_False; [by apply bool_decide_eq_true|]. intros Heq. rewrite Heq in H.
    by apply str_lt_irrefl in H.
  - rewrite decide_True by done. destruct (decide (cField a = cField c)); apply bool_decide_eq_true; lia.
Qed.

(** Everything a cursor has left comes after its own entry. *)
Lemma after_head c t run l x :
  denotes c ((t, run) :: l) → ascending ((t, run) :: l) → x ∈ cursor_entries c l →
  entry_lt (head_entry c run) x.
Proof.
  intros (run' & l' & [= -> -> ->] & _ & _) Ha Hx. unfold ascending in Ha. cbn in Ha. inv Ha.
  unfold cursor_entries, entries_of in Hx. apply list_elem_of_fmap in Hx as (y & -> & Hy).
  left. cbn. rewrite Forall_forall in *. match goal with H : ∀ x, _ → str_lt _ x |- _ => apply H end.
  apply list_elem_of_fmap. by exists y.
Qed.

Lemma elem_of_others h ls x :
  Forall2 denotes h ls → Forall ascending ls → x ∈ mjoin (zip_with cursor_entries h ls) →
  ∃ c run, c ∈ h ∧ (x = head_entry c run ∨ entry_lt (head_entry c run) x).
Proof.
  intros Hd. induction Hd as [|c l h ls Hc Hd IH]; intros Ha Hx; [by apply elem_of_nil in Hx|].
  inv Ha. cbn in Hx. apply elem_of_app in Hx as [Hx|Hx].
  - pose proof Hc as (run & l' & -> & _ & _). exists c, run. split; [by left|].
    cbn in Hx. apply elem_of_cons in Hx as [->|Hx]; [by left|right]. by eapply after_head.
  - destruct (IH ltac:(done) Hx) as (c' & run & Hc' & Hx'). exists c', run. split; [by right|done].
Qed.

(** ** The heap *)

Definition cid (c : termCursor) : nat * nat := (cInput c, cField c).

Lemma push_cursor_perm c h : push_cursor c h ≡ₚ c :: h.
Proof.
  induction h as [|x h IH]; [done|]. cbn [push_cursor]. destruct (cursor_less c x); [done|].
  rewrite IH. apply Permutation_swap.
Qed.

Lemma push_cursor_sorted c h :
  StronglySorted (λ a b, cursor_less a b = true) h → cid c ∉ cid <$> h →
  StronglySorted (λ a b, cursor_less a b = true) (push_cursor c h).
Proof.
  induction 1 as [|x h Hh IH Hx]; intros Hn; cbn [push_cursor]; [repeat constructor|].
  rewrite fmap_cons, not_elem_of_cons in Hn. destruct Hn as [Hne Hn].
  destruct (cursor_less c x) eqn:Hcx.
  - constructor; [by constructor|]. constructor; [done|].
    eapply Forall_impl; [exact Hx|]. intros y. by apply cursor_less_trans.
  - constructor; [by apply IH|]. rewrite push_cursor_perm. constructor; [|done].
    destruct (cursor_less_total c x) as [|]; [done|congruence|done].
Qed.

(** Pairs of cursors and what they have left, whatever the order of the heap. *)
Lemma heap_perm h ls h' :
  Forall2 denotes h ls → Forall ascending ls → h' ≡ₚ h →
  ∃ ls', Forall2 denotes h' ls' ∧ Forall ascending ls' ∧
    mjoin (zip_with cursor_entries h' ls') ≡ₚ mjoin (zip_with cursor_entries h ls).
Proof.
  intros Hd Ha Hp. symmetry in Hp. revert ls Hd Ha.
  induction Hp as [|x h h' Hp IH|x y h|h h' h'' _ IH1 _ IH2]; intros ls Hd Ha.
  - inv Hd. by exists [].
  - inv Hd. inv Ha. edestruct IH as (ls' & ? & ? & Hpm); [done..|].
    eexists (_ :: ls'). split_and!; [by constructor..|]. cbn. by rewrite Hpm.
  - inv Hd. match goal with H : Forall2 _ (_ :: _) _ |- _ => inv H end. inv Ha.
    match goal with H : Forall _ (_ :: _) |- _ => inv H end.
    eexists (_ :: _ :: _). split_and!; [repeat constructor; done|repeat constructor; done|].
    cbn. apply Permutation_app_swap_app.
  - destruct (IH1 ls) as (l1 & Hd1 & Ha1 & Hp1); [done..|].
    destruct (IH2 l1) as (l2 & Hd2 & Ha2 & Hp2); [done..|].
    exists l2. split_and!; [done..|]. by rewrite Hp2.
Qed.

Lemma cids_push c h : cid <$> push_cursor c h ≡ₚ cid c :: (cid <$> h).
Proof. by rewrite push_cursor_perm. Qed.

(** One drain takes the least entry off. *)
Lemma drain_step rm h ls x E :
  heap_state h ls (x :: E) →
  ∃ c h' h2 ls2, h = c :: h' ∧ cterm c = eTerm x ∧ cField c = eField x ∧
    drainCursor rm c h' = Ok (entry_run rm x, h2) ∧ heap_state h2 ls2 E.
Proof.
  intros [Hd Ha Hs Hn Hp He].
  destruct h as [|c h'].
  { inv Hd. by apply Permutation_nil_r in Hp. }
  inv Hd. rename select (denotes c _) into Hc. rename select (Forall2 denotes h' _) into Hd.
  match goal with H : denotes c ?l |- _ => rename l into lc end. rename l' into ls.
  pose proof Hc as (run & l & -> & Hrun & _). inv Ha. rename select (ascending _) into Hac.
  rename select (Forall ascending _) into Ha. inv Hs. rename select (Forall _ h') into Hmin.
  inv He. rename select (Forall _ E) into HE. cbn in Hp.
  (* the first cursor's entry is the least *)
  assert (x = head_entry c run) as ->.
  { assert (head_entry c run ∈ x :: E) as Hh by (rewrite Hp; by left).
    apply elem_of_cons in Hh as [|Hh]; [done|]. exfalso.
    rewrite Forall_forall in HE. specialize (HE _ Hh).
    assert (x ∈ head_entry c run :: cursor_entries c l ++ mjoin (zip_with cursor_entries h' ls)) as Hx
      by (rewrite <-Hp; by left).
    apply (entry_lt_irrefl x). apply elem_of_cons in Hx as [->|Hx]; [done|].
    eapply entry_lt_trans; [exact HE|]. apply elem_of_app in Hx as [Hx|Hx]; [by eapply after_head|].
    destruct (elem_of_others h' ls x Hd Ha Hx) as (c' & run' & Hc' & Hx').
    rewrite Forall_forall in Hmin. pose proof (cursor_less_lt c c' run run' (Hmin c' Hc')) as Hlt.
    destruct Hx' as [->|Hx']; [done|]. by eapply entry_lt_trans. }
  apply Permutation_cons_inv in Hp. cbn in Hn. apply NoDup_cons in Hn as [Hni Hn].
  exists c, h'.
  assert (∀ h2, drainCursor rm c h' = Ok (entry_run rm (head_entry c run), h2) →
    (∃ ls2, heap_state h2 ls2 E) → ∃ h2 ls2, c :: h' = c :: h' ∧ cterm c = eTerm (head_entry c run) ∧
      cField c = eField (head_entry c run) ∧
      drainCursor rm c h' = Ok (entry_run rm (head_entry c run), h2) ∧ heap_state h2 ls2 E) as Hdone.
  { intros h2 Hdr [ls2 Hst]. by exists h2, ls2. }
  destruct (denotes_next c (cterm c) run l Hc) as [[-> Hnx]|(it' & Hnx & Hc2)].
  - apply (Hdone h').
    + unfold drainCursor. by rewrite Hrun, Hnx.
    + exists ls. by split.
  - apply (Hdone (push_cursor (mkCursor (cInput c) (cField c) it') h')).
    + unfold drainCursor. by rewrite Hrun, Hnx.
    + set (c2 := mkCursor (cInput c) (cField c) it') in *.
      assert (ascending l) as Hal by (unfold ascending in *; cbn in Hac; by inv Hac).
      destruct (heap_perm (c2 :: h') (l :: ls) (push_cursor c2 h')) as (ls2 & Hd2 & Ha2 & Hp2);
        [by constructor|by constructor|apply push_cursor_perm|].
      exists ls2. split; [done|done| | | |done].
      * by apply push_cursor_sorted.
      * change (NoDup (cid <$> push_cursor c2 h')). rewrite cids_push. by constructor.
      * rewrite Hp2. exact Hp.
Qed.

Lemma heap_nil ls E h : heap_state h ls E → E = [] → h = [].
Proof.
  intros [Hd _ _ _ Hp _] ->. destruct h as [|c h]; [done|]. inv Hd.
  rename select (denotes c _) into Hc. destruct Hc as (run & l & -> & _).
  cbn in Hp. by apply Permutation_nil_cons in Hp.
Qed.

(** ** Grouping a sorted list *)

Lemma filter_all {A} (P : A → Prop) `{∀ x, Decision (P x)} l : Forall P l → filter P l = l.
Proof. induction 1 as [|x l Hx _ IH]; [done|]. rewrite filter_cons, decide_True by done. by f_equal. Qed.

Lemma filter_none {A} (P : A → Prop) `{∀ x, Decision (P x)} l : Forall (λ x, ¬ P x) l → filter P l = [].
Proof. induction 1 as [|x l Hx _ IH]; [done|]. by rewrite filter_cons, decide_False. Qed.

(** A predicate that holds of a prefix of the list. *)
Lemma filter_split {A} (P : A → Prop) `{∀ x, Decision (P x)} (l : list A) (R : A → A → Prop) :
  StronglySorted R l → (∀ x y, x ∈ l → y ∈ l → R x y → P y → P x) →
  l = filter P l ++ filter (λ x, ¬ P x) l.
Proof.
  induction 1 as [|x l Hl IH Hx]; intros HP; [done|]. rewrite !filter_cons.
  specialize (IH ltac:(intros y z Hy Hz; apply HP; by right)).
  destruct (decide (P x)) as [Hp|Hp].
  - rewrite decide_False by naive_solver. cbn. by f_equal.
  - rewrite decide_True by done. rewrite filter_none in IH |- *.
    + cbn in *. by f_equal.
    + apply Forall_forall. intros y Hy Hpy. apply Hp. rewrite Forall_forall in Hx.
      apply (HP x y); [by left|by right|by apply Hx|done].
    + apply Forall_forall. intros y Hy Hpy. apply Hp. rewrite Forall_forall in Hx.
      apply (HP x y); [by left|by right|by apply Hx|done].
Qed.

Lemma uniq_block {A} `{EqDecision A} (a : A) (l1 l2 : list A) :
  l1 ≠ [] → Forall (λ x, x = a) l1 → Forall (λ x, x ≠ a) l2 → uniq (l1 ++ l2) = a :: uniq l2.
Proof.
  intros Hne H1 H2. induction H1 as [|x l1 -> H1 IH]; [done|].
  destruct l1 as [|y l1].
  - destruct l2 as [|y l2]; [done|]. inv H2. cbn. by rewrite decide_False by congruence.
  - inv H1. cbn [app uniq]. rewrite decide_True by done. by apply IH.
Qed.

Lemma elem_of_uniq {A} `{EqDecision A} (x : A) l : x ∈ uniq l → x ∈ l.
Proof.
  induction l as [|y [|z l] IH]; [done|done|]. cbn [uniq]. case_decide; intros Hx.
  - right. by apply IH.
  - apply elem_of_cons in Hx as [->|Hx]; [by left|right; by apply IH].
Qed.

Lemma bind_ext_in {A B} (f g : A → list B) l : (∀ x, x ∈ l → f x = g x) → l ≫= f = l ≫= g.
Proof.
  induction l as [|x l IH]; intros Hfg; [done|]. rewrite !bind_cons. f_equal.
  - apply Hfg. by left.
  - apply IH. intros y Hy. apply Hfg. by right.
Qed.

Lemma run_of_app rm E1 E2 : run_of rm (E1 ++ E2) = run_of rm E1 ++ run_of rm E2.
Proof. apply bind_app. Qed.

Lemma sorted_filter (P : entry → Prop) `{∀ x, Decision (P x)} E :
  StronglySorted entry_lt E → StronglySorted entry_lt (filter P E).
Proof.
  induction 1 as [|x E HE IH Hx]; [constructor|]. rewrite filter_cons. case_decide; [|done].
  constructor; [done|]. rewrite Forall_forall in *. intros y Hy. apply Hx.
  by apply list_elem_of_filter in Hy as [_ ?].
Qed.

Definition at_field (t : string) (f : nat) (x : entry) : Prop := eTerm x = t ∧ eField x = f.
#[export] Instance at_field_dec t f x : Decision (at_field t f x).
Proof. unfold at_field. apply _. Defined.

(** The fields of one term, the first split off. *)
Lemma field_events_split rm t f E1 E2 :
  E1 ≠ [] → Forall (λ x, eField x = f) E1 → Forall (λ x, eField x ≠ f) E2 →
  field_events rm t (E1 ++ E2) =
    (if decide (run_of rm E1 = []) then [] else [OnField t f (run_of rm E1)]) ++ field_events rm t E2.
Proof.
  intros Hne H1 H2. unfold field_events. rewrite fmap_app, (uniq_block f).
  - rewrite bind_cons. cbn. rewrite filter_app, (filter_all _ E1), (filter_none _ E2), app_nil_r by done.
    f_equal. apply bind_ext_in. intros g Hg%elem_of_uniq. apply list_elem_of_fmap in Hg as (y & -> & Hy).
    rewrite Forall_forall in H2. specialize (H2 y Hy).
    rewrite filter_app, (filter_none _ E1); [done|]. eapply Forall_impl; [exact H1|]. cbn. congruence.
  - by destruct E1.
  - by apply Forall_fmap.
  - by apply Forall_fmap.
Qed.

(** ** The loops of the walk *)

Definition from_field (t : string) (f : nat) (x : entry) : Prop :=
  t <s eTerm x ∨ (eTerm x = t ∧ (f ≤ eField x)%nat).

Lemma drain_field_spec rm t f E fuel h ls acc :
  heap_state h ls E → (length E ≤ fuel)%nat → Forall (from_field t f) E →
  ∃ h2 ls2,
    drain_field fuel rm t f h acc = Some (Ok (acc ++ run_of rm (filter (at_field t f) E), h2)) ∧
    heap_state h2 ls2 (filter (λ x, ¬ at_field t f x) E).
Proof.
  revert fuel h ls acc. induction E as [|x E IH]; intros fuel h ls acc Hst Hf Hat.
  { pose proof (heap_nil _ _ _ Hst eq_refl) as ->. exists [], ls.
    destruct fuel; cbn; by rewrite app_nil_r. }
  destruct (drain_step rm h ls x E Hst) as (c & h' & h2 & ls2 & -> & Ht & Hfd & Hdr & Hst2).
  inv Hat. rename select (from_field t f x) into Hx. rename select (Forall _ E) into Hat.
  destruct fuel as [|fuel]; cbn in Hf; [lia|]. cbn [drain_field].
  rewrite Ht, Hfd. rewrite !filter_cons. destruct (decide (at_field t f x)) as [Hp|Hp].
  - pose proof Hp as [Hp1 Hp2]. rewrite !decide_True by done. rewrite decide_False by naive_solver.
    rewrite Hdr. cbn [fueled_bind fst snd].
    destruct (IH fuel h2 ls2 (acc ++ entry_run rm x) Hst2) as (h3 & ls3 & Hd3 & Hst3); [lia|done|].
    exists h3, ls3. split; [|done]. rewrite Hd3. unfold run_of. rewrite bind_cons. by rewrite app_assoc.
  - rewrite decide_False by done. rewrite (decide_True (P := ¬ at_field t f x)) by done.
    pose proof (hs_entries _ _ _ Hst) as Hs. inv Hs. rename select (Forall (entry_lt x) E) into HE.
    assert (Forall (λ y, ¬ at_field t f y) E) as Hnone.
    { rewrite Forall_forall in HE |- *. intros y Hy [Hy1 Hy2]. apply Hp. specialize (HE y Hy).
      destruct Hx as [Hx|[Hx1 Hx2]].
      - exfalso. apply (str_lt_irrefl t). destruct HE as [HE|[HE _]].
        + rewrite Hy1 in HE. by eapply str_lt_trans.
        + by rewrite HE, Hy1 in Hx.
      - split; [done|]. destruct HE as [HE|[_ HE]]; [|lia].
        rewrite Hx1, Hy1 in HE. by apply str_lt_irrefl in HE. }
    exists (c :: h'), ls. rewrite filter_none by done. rewrite app_nil_r. split; [done|].
    by rewrite filter_all.
Qed.

Lemma filter_filter_comm {A} (P Q : A → Prop) `{∀ x, Decision (P x), ∀ x, Decision (Q x)} (l : list A) :
  filter P (filter Q l) = filter Q (filter P l).
Proof. rewrite !list_filter_filter. apply list_filter_iff. tauto. Qed.

(** A sorted list whose first entry is at a field starts with all the entries there. *)
Lemma at_field_first x E :
  StronglySorted entry_lt (x :: E) →
  let t := eTerm x in let f := eField x in
  let E1 := filter (at_field t f) (x :: E) in
  let E2 := filter (λ y, ¬ at_field t f y) (x :: E) in
  Forall (from_field t f) (x :: E) ∧
  filter (λ y, eTerm y = t) (x :: E) = E1 ++ filter (λ y, eTerm y = t) E2 ∧
  filter (λ y, eTerm y ≠ t) (x :: E) = filter (λ y, eTerm y ≠ t) E2 ∧
  E1 ≠ [] ∧ Forall (λ y, eField y = f) E1 ∧
  Forall (λ y, eField y ≠ f) (filter (λ y, eTerm y = t) E2) ∧
  (length E2 ≤ length E)%nat.
Proof.
  intros Hs t f E1 E2. pose proof Hs as Hs'. inv Hs'. rename select (Forall (entry_lt x) E) into HE.
  assert (at_field t f x) as Hx by done.
  assert (∀ y, y ∈ x :: E → y = x ∨ entry_lt x y) as Hfrom.
  { intros y [->|Hy]%elem_of_cons; [by left|right]. rewrite Forall_forall in HE. by apply HE. }
  assert (x :: E = E1 ++ E2) as Hsplit.
  { apply (filter_split _ _ entry_lt); [done|]. intros y z Hy _ Hyz [Hz1 Hz2].
    destruct (Hfrom y Hy) as [->|Hxy]; [done|].
    destruct Hxy as [Hxy|[Hxy1 Hxy2]], Hyz as [Hyz|[Hyz1 Hyz2]].
    - exfalso. apply (str_lt_irrefl t). rewrite <-Hz1 at 2. by eapply str_lt_trans.
    - exfalso. apply (str_lt_irrefl t). rewrite <-Hz1 at 2. by rewrite <-Hyz1.
    - exfalso. apply (str_lt_irrefl t). rewrite <-Hz1 at 2. fold t in Hxy1. by rewrite Hxy1.
    - split; [done|]. unfold f in *. lia. }
  assert (Forall (at_field t f) E1) as HE1 by (apply Forall_forall; intros y Hy;
    by apply list_elem_of_filter in Hy as [? _]).
  assert (E1 ≠ []) as Hne by (unfold E1; rewrite filter_cons, decide_True by done; done).
  split_and!.
  - apply Forall_forall. intros y Hy. destruct (Hfrom y Hy) as [->|[?|[? ?]]];
      [by right|by left|right; unfold f, t; split; [done|lia]].
  - rewrite Hsplit at 1. rewrite filter_app, (filter_all _ E1); [done|].
    eapply Forall_impl; [exact HE1|]. by intros y [? _].
  - rewrite Hsplit at 1. rewrite filter_app, (filter_none _ E1); [done|].
    eapply Forall_impl; [exact HE1|]. intros y [Hy _] Hn. by apply Hn.
  - done.
  - eapply Forall_impl; [exact HE1|]. by intros y [_ ?].
  - apply Forall_forall. intros y Hy Hf. apply list_elem_of_filter in Hy as [Ht Hy].
    apply list_elem_of_filter in Hy as [Hn _]. by apply Hn.
  - assert (length (x :: E) = (length E1 + length E2)%nat) as Hlen by (rewrite Hsplit at 1; apply length_app).
    assert (length E1 ≠ 0%nat) by (intros ?%nil_length_inv; done). cbn [length] in Hlen. lia.
Qed.

Lemma drain_term_spec rm t n E fuel h ls df :
  (length E ≤ n)%nat → heap_state h ls E → (length E ≤ fuel)%nat →
  Forall (λ x, t <s eTerm x ∨ eTerm x = t) E →
  ∃ h2 ls2,
    drain_term fuel rm t h df =
      Some (Ok (field_events rm t (filter (λ x, eTerm x = t) E),
                df ++ (fst <$> run_of rm (filter (λ x, eTerm x = t) E)), h2)) ∧
    heap_state h2 ls2 (filter (λ x, eTerm x ≠ t) E).
Proof.
  revert E fuel h ls df. induction n as [|n IH]; intros E fuel h ls df Hn Hst Hf Hat.
  all: destruct E as [|x E]; cbn [length] in Hn; [|try lia].
  1,2: pose proof (heap_nil _ _ _ Hst eq_refl) as ->; exists [], ls;
    destruct fuel; cbn; by rewrite app_nil_r.
  pose proof (drain_step rm h ls x E Hst) as (c & h' & _ & _ & -> & Ht & Hfd & _ & _).
  destruct fuel as [|fuel]; cbn [length] in Hf; [lia|]. cbn [drain_term]. rewrite Ht.
  pose proof (hs_entries _ _ _ Hst) as Hs.
  destruct (decide (eTerm x = t)) as [Hxt|Hxt].
  - destruct (at_field_first x E Hs) as (Hfrom & HfT & HfN & Hne & H1 & H2 & Hlen).
    rewrite Hxt in *. rewrite Hfd.
    destruct (drain_field_spec rm t (eField x) (x :: E) (S fuel) _ ls [] Hst) as (h2 & ls2 & Hd & Hst2);
      [cbn; lia|done|].
    rewrite Hd. cbn [fueled_bind app].
    destruct (IH (filter (λ y, ¬ at_field t (eField x) y) (x :: E)) fuel h2 ls2
      (df ++ (fst <$> run_of rm (filter (at_field t (eField x)) (x :: E)))))
      as (h3 & ls3 & Hd3 & Hst3); [lia|done|lia| |].
    { apply Forall_forall. intros y Hy. apply list_elem_of_filter in Hy as [_ Hy].
      rewrite Forall_forall in Hat. by apply Hat. }
    rewrite Hd3. cbn [fueled_bind]. exists h3, ls3. split; [|by rewrite HfN].
    rewrite HfT, (field_events_split rm t (eField x)) by done.
    rewrite run_of_app, fmap_app, <-app_assoc. repeat f_equal.
    by case_decide.
  - exists (c :: h'), ls.
    assert (Forall (λ y, eTerm y ≠ t) (x :: E)) as Hno.
    { inv Hat. rename select (_ ∨ _) into Hx. destruct Hx as [Hx|]; [|done].
      inv Hs. rename select (Forall (entry_lt x) E) into HE. constructor; [done|].
      eapply Forall_impl; [exact HE|]. intros y [Hy|[Hy _]] Hyt.
      - apply (str_lt_irrefl t). rewrite <-Hyt at 2. by eapply str_lt_trans.
      - congruence. }
    rewrite (filter_none (λ y, eTerm y = t)) by done. rewrite (filter_all (λ y, eTerm y ≠ t)) by done.
    cbn [fmap list_fmap run_of]. rewrite app_nil_r. by split.
Qed.

(** The terms, the first split off. *)
Lemma reference_walk_split rm x E :
  StronglySorted entry_lt (x :: E) →
  reference_walk rm (x :: E) =
    term_events rm (x :: E) (eTerm x) ++ reference_walk rm (filter (λ y, eTerm y ≠ eTerm x) (x :: E)).
Proof.
  intros Hs. set (t := eTerm x).
  assert (Forall (λ y, t <s eTerm y ∨ eTerm y = t) (x :: E)) as Hfrom.
  { inv Hs. rename select (Forall (entry_lt x) E) into HE. constructor; [by right|].
    eapply Forall_impl; [exact HE|]. intros y [?|[? _]]; [by left|by right]. }
  assert (x :: E = filter (λ y, eTerm y = t) (x :: E) ++ filter (λ y, eTerm y ≠ t) (x :: E)) as Hsplit.
  { apply (filter_split _ _ entry_lt); [done|]. intros y z Hy Hz Hyz Hzt.
    rewrite Forall_forall in Hfrom. destruct (Hfrom y Hy) as [Hy'|]; [|done]. exfalso.
    apply (str_lt_irrefl t). destruct Hyz as [Hyz|[Hyz _]].
    - rewrite <-Hzt at 2. by eapply str_lt_trans.
    - by rewrite Hyz, Hzt in Hy'. }
  set (E1 := filter (λ y, eTerm y = t) (x :: E)) in *.
  set (E2 := filter (λ y, eTerm y ≠ t) (x :: E)) in *.
  assert (Forall (λ y, eTerm y = t) E1) as H1 by (apply Forall_forall; intros y Hy;
    by apply list_elem_of_filter in Hy as [? _]).
  assert (Forall (λ y, eTerm y ≠ t) E2) as H2 by (apply Forall_forall; intros y Hy;
    by apply list_elem_of_filter in Hy as [? _]).
  unfold reference_walk at 1. rewrite Hsplit at 2. rewrite fmap_app, (uniq_block t).
  - rewrite bind_cons. f_equal. unfold reference_walk. apply bind_ext_in.
    intros u Hu%elem_of_uniq. apply list_elem_of_fmap in Hu as (y & -> & Hy).
    rewrite Forall_forall in H2. specialize (H2 y Hy). unfold term_events.
    rewrite Hsplit, filter_app, (filter_none _ E1); [done|].
    eapply Forall_impl; [exact H1|]. cbn. congruence.
  - unfold E1. rewrite filter_cons, decide_True by done. done.
  - by apply Forall_fmap.
  - by apply Forall_fmap.
Qed.

Lemma walk_spec rm n E fuel h ls :
  (length E ≤ n)%nat → heap_state h ls E → (length E ≤ fuel)%nat →
  walk fuel rm h = Some (Ok (reference_walk rm E)).
Proof.
  revert E fuel h ls. induction n as [|n IH]; intros E fuel h ls Hn Hst Hf.
  all: destruct E as [|x E]; cbn [length] in Hn; [|try lia].
  1,2: pose proof (heap_nil _ _ _ Hst eq_refl) as ->; by destruct fuel.
  pose proof (drain_step rm h ls x E Hst) as (c & h' & _ & _ & -> & Ht & _ & _ & _).
  pose proof (hs_entries _ _ _ Hst) as Hs.
  destruct fuel as [|fuel]; cbn [length] in Hf; [lia|]. cbn [walk]. rewrite Ht.
  destruct (drain_term_spec rm (eTerm x) (length (x :: E)) (x :: E) (S fuel) _ ls [] ltac:(lia) Hst)
    as (h2 & ls2 & Hd & Hst2); [cbn; lia| |].
  { inv Hs. rename select (Forall (entry_lt x) E) into HE. constructor; [by right|].
    eapply Forall_impl; [exact HE|]. intros y [?|[? _]]; [by left|by right]. }
  rewrite Hd. cbn [fueled_bind app].
  assert (length (filter (λ y, eTerm y ≠ eTerm x) (x :: E)) ≤ length E)%nat as Hlen.
  { rewrite filter_cons, decide_False by naive_solver. apply length_filter. }
  rewrite (IH (filter (λ y, eTerm y ≠ eTerm x) (x :: E)) fuel h2 ls2) by (lia || done). cbn [fueled_bind].
  rewrite reference_walk_split by done. unfold term_events. rewrite <-app_assoc. do 2 f_equal.
  f_equal. by case_decide.
Qed.

(** ** The cursors opened *)

Definition readable (mf : mappedField) : Prop := ∃ l, eachTerm mf = Ok l ∧ ascending l.

#[export] Instance readable_dec mf : Decision (readable mf).
Proof.
  unfold readable, ascending. destruct (eachTerm mf) as [l|e].
  - destruct (decide (StronglySorted str_lt (fst <$> l))); [left; by exists l|right].
    by intros (l' & [= <-] & ?).
  - right. by intros (l' & ? & _).
Defined.

Lemma length_walkTerms n it l : walkTerms n it = Ok l → (length l ≤ n)%nat.
Proof.
  revert it l. induction n as [|n IH]; intros it l Hw; cbn [walkTerms] in Hw; [by injection Hw as <-|].
  ok_bind Hw r. destruct r as [it'|]; [|injection Hw as <-; cbn; lia].
  ok_bind Hw p. ok_bind Hw others. injection Hw as <-. cbn.
  match goal with H : walkTerms n _ = Ok _ |- _ => apply IH in H end. lia.
Qed.

(** What opening the cursors of some dictionaries gives: cursors that denote what is in
    them, with names in a given set. *)
Definition opened_as (cs : list termCursor) (E : list entry) (N : nat * nat → Prop) : Prop :=
  ∃ ls, Forall2 denotes cs ls ∧ Forall ascending ls ∧
    mjoin (zip_with cursor_entries cs ls) = E ∧ NoDup (cid <$> cs) ∧ Forall N (cid <$> cs).

Lemma opened_as_app cs1 cs2 E1 E2 (N1 N2 N : nat * nat → Prop) :
  opened_as cs1 E1 N1 → opened_as cs2 E2 N2 → (∀ x, N1 x → ¬ N2 x) → (∀ x, N1 x ∨ N2 x → N x) →
  opened_as (cs1 ++ cs2) (E1 ++ E2) N.
Proof.
  intros (l1 & Hd1 & Ha1 & <- & Hn1 & Hi1) (l2 & Hd2 & Ha2 & <- & Hn2 & Hi2) Hdis Hsub.
  exists (l1 ++ l2). split_and!.
  - by apply Forall2_app.
  - by apply Forall_app.
  - rewrite zip_with_app by (by eapply Forall2_length). by rewrite join_app.
  - rewrite fmap_app. apply NoDup_app. rewrite !Forall_forall in *. split_and!; [done| |done].
    intros x Hx Hx'. by apply (Hdis x); auto.
  - rewrite fmap_app. apply Forall_app. rewrite !Forall_forall in *. split; auto.
Qed.

Lemma opened_as_nil N : opened_as [] [] N.
Proof. exists []. split_and!; constructor. Qed.

Lemma open_cursors_spec i f mfs :
  Forall readable mfs →
  ∃ cs, open_cursors i f mfs = Ok cs ∧
    opened_as cs (field_entries i f mfs) (λ x, x.1 = i ∧ (f ≤ x.2)%nat) ∧
    (length (field_entries i f mfs) ≤ sum_list_with (λ mf, Z.to_nat (termCount mf)) mfs)%nat.
Proof.
  intros Hr. revert f. induction Hr as [|mf mfs (l & Hl & Ha) _ IH]; intros f.
  { exists []. split_and!; [done|apply opened_as_nil|cbn; lia]. }
  destruct (IH (S f)) as (cs & Hcs & Ho & Hlen). cbn [open_cursors field_entries].
  unfold dict_of. rewrite Hl. rewrite Hcs. unfold eachTerm in Hl. pose proof (length_walkTerms _ _ _ Hl) as Hn.
  rewrite <-(Z.sub_0_r (termCount mf)) in Hl. change (termCount mf) with (termCount (it_mf (iter mf))) in Hl.
  change 0 with (it_idx (iter mf)) in Hl.
  assert (length (entries_of f i l ++ field_entries i (S f) mfs) ≤
    sum_list_with (λ mf, Z.to_nat (termCount mf)) (mf :: mfs))%nat as Hlen'.
  { rewrite length_app. unfold entries_of. rewrite length_fmap. cbn. lia. }
  destruct (walk_denotes (iter mf) l i f Hl) as [[-> Hnx]|(it' & Hnx & Hd)]; rewrite Hnx; cbn [result_bind].
  - exists cs. split_and!; [done| |done]. apply (opened_as_app [] cs [] _ (λ _, False) _ _
      (opened_as_nil _) Ho); [done|]. intros x [[]|[? ?]]. split; [done|lia].
  - exists (mkCursor i f it' :: cs). split_and!; [done| |done].
    apply (opened_as_app [mkCursor i f it'] cs _ _ (λ x, x = (i, f)) (λ x, x.1 = i ∧ (S f ≤ x.2)%nat));
      [|done| |].
    + exists [l]. split_and!.
      * constructor; [done|constructor].
      * constructor; [done|constructor].
      * apply app_nil_r.
      * apply NoDup_singleton.
      * by constructor.
    + intros x -> [_ Hx]. cbn in Hx. lia.
    + intros x [->|[? ?]]; cbn; (split; [done|lia]).
Qed.

Lemma all_cursors_spec i ins :
  Forall (λ s, Forall readable (fields s)) ins →
  ∃ cs, all_cursors i ins = Ok cs ∧
    opened_as cs (entries_from i ins) (λ x, (i ≤ x.1)%nat) ∧
    (length (entries_from i ins) ≤ terms_in ins)%nat.
Proof.
  intros Hr. revert i. induction Hr as [|s ins Hs _ IH]; intros i.
  { exists []. split_and!; [done|apply opened_as_nil|cbn; lia]. }
  destruct (open_cursors_spec i 0 (fields s) Hs) as (c1 & Hc1 & Ho1 & Hl1).
  destruct (IH (S i)) as (c2 & Hc2 & Ho2 & Hl2). exists (c1 ++ c2).
  cbn [all_cursors entries_from]. rewrite Hc1. cbn [result_bind]. rewrite Hc2. split_and!; [done| |].
  - apply (opened_as_app c1 c2 _ _ _ _ _ Ho1 Ho2).
    + intros x [-> _] ?. lia.
    + intros x [[-> _]|?]; lia.
  - rewrite length_app. unfold terms_in in *. cbn. lia.
Qed.

(** Pushing the cursors one by one makes an ordered heap of them. *)
Lemma heap_of_cursors cs :
  NoDup (cid <$> cs) →
  foldr push_cursor [] cs ≡ₚ cs ∧
  StronglySorted (λ a b, cursor_less a b = true) (foldr push_cursor [] cs).
Proof.
  induction cs as [|c cs IH]; [by repeat constructor|]. rewrite fmap_cons, NoDup_cons. intros [Hni Hn].
  destruct (IH Hn) as [Hp Hs]. cbn [foldr]. split.
  - by rewrite push_cursor_perm, Hp.
  - apply push_cursor_sorted; [done|]. by rewrite Hp.
Qed.

(** ** The walk always returns

    Every round takes a term off a dictionary, whatever the dictionaries hold: a cursor weighs
    the terms it has still to give, the current one among them. *)

Definition weight1 (c : termCursor) : nat := S (Z.to_nat (termCount (it_mf (cIt c)) - it_idx (cIt c))).

Definition weight (h : list termCursor) : nat := sum_list_with weight1 h.

Lemma weight_pos c h : (0 < weight (c :: h))%nat.
Proof. unfold weight. cbn [sum_list_with]. unfold weight1 at 1. lia. Qed.

Lemma weight_push c h : weight (push_cursor c h) = (weight1 c + weight h)%nat.
Proof.
  induction h as [|x h IH]; [done|]. cbn [push_cursor]. destruct (cursor_less c x); [done|].
  unfold weight in *. cbn [sum_list_with]. rewrite IH. lia.
Qed.

Lemma drainCursor_weight rm c h run h2 :
  drainCursor rm c h = Ok (run, h2) → (weight h2 < weight (c :: h))%nat.
Proof.
  unfold drainCursor. intros (q & _ & (n & Hn & [= _ <-])%result_bind_Ok)%result_bind_Ok. unfold weight at 2. cbn [sum_list_with].
  fold (weight h). destruct n as [it|]; [|unfold weight1; lia]. apply next_spec in Hn as (E1 & E2 & E3).
  rewrite weight_push. unfold weight1. cbn [cIt]. rewrite E1, E2. lia.
Qed.

Lemma drain_field_total rm t f fuel : ∀ h acc, (weight h ≤ fuel)%nat →
  ∃ r, drain_field fuel rm t f h acc = Some r ∧
    ∀ x, r = Ok x → (weight x.2 ≤ weight h)%nat ∧
      (∀ c h', h = c :: h' → cterm c = t → cField c = f → (weight x.2 < weight h)%nat).
Proof.
  induction fuel as [|fuel IH]; intros [|c h] acc Hw; cbn [drain_field]; try (eexists; split; [done|]; by intros ? [= <-]).
  { pose proof (weight_pos c h). lia. }
  case_decide as Hc; [|eexists; split; [done|]; intros ? [= <-]; split; [done|]; intros ? ? [= <- <-] ? ?; by destruct Hc].
  destruct (drainCursor rm c h) as [[run h2]|e] eqn:Hd; cbn [fueled_bind]; [|by eexists].
  apply drainCursor_weight in Hd. destruct (IH h2 (acc ++ run) ltac:(lia)) as (r & Hr & Hx). cbn [fst snd]. rewrite Hr.
  exists r. split; [done|]. intros x ->. destruct (Hx x eq_refl) as [H1 _]. split; [lia|]. intros; lia.
Qed.

Lemma drain_term_total rm t fuel : ∀ h df, (weight h ≤ fuel)%nat →
  ∃ r, drain_term fuel rm t h df = Some r ∧
    ∀ x, r = Ok x → (weight x.2 ≤ weight h)%nat ∧
      (∀ c h', h = c :: h' → cterm c = t → (weight x.2 < weight h)%nat).
Proof.
  induction fuel as [|fuel IH]; intros [|c h] df Hw; cbn [drain_term]; try (eexists; split; [done|]; by intros ? [= <-]).
  { pose proof (weight_pos c h). lia. }
  case_decide as Hc; [|eexists; split; [done|]; intros ? [= <-]; split; [done|]; intros ? ? [= <- <-] ?; by destruct Hc].
  destruct (drain_field_total rm t (cField c) (S fuel) (c :: h) [] Hw) as (r & -> & Hx).
  destruct r as [[run h2]|e]; cbn [fueled_bind]; [|by eexists].
  destruct (Hx _ eq_refl) as [_ Hlt]. specialize (Hlt c h eq_refl Hc eq_refl). cbn [snd] in Hlt.
  destruct (IH h2 (df ++ (fst <$> run)) ltac:(lia)) as (r & -> & Hr).
  destruct r as [[[evs df2] h3]|e]; cbn [fueled_bind]; [|by eexists]. destruct (Hr _ eq_refl) as [H1 _]. cbn [snd] in H1.
  eexists. split; [done|]. intros x [= <-]. cbn [snd]. split; [lia|]. intros; lia.
Qed.

Lemma walk_total rm fuel : ∀ h, (weight h ≤ fuel)%nat → is_Some (walk fuel rm h).
Proof.
  induction fuel as [|fuel IH]; intros [|c h] Hw; cbn [walk]; try by eexists.
  { pose proof (weight_pos c h). lia. }
  destruct (drain_term_total rm (cterm c) (S fuel) (c :: h) [] Hw) as (r & -> & Hx).
  destruct r as [[[evs df] h2]|e]; cbn [fueled_bind]; [|by eexists].
  destruct (Hx _ eq_refl) as [_ Hlt]. specialize (Hlt c h eq_refl eq_refl). cbn [snd] in Hlt.
  destruct (IH h2 ltac:(lia)) as [[evs2|e] ->]; cbn [fueled_bind]; by eexists.
Qed.

Lemma weight_heap cs : weight (foldr push_cursor [] cs) = weight cs.
Proof. induction cs as [|c cs IH]; [done|]. cbn [foldr]. rewrite weight_push, IH. done. Qed.

Lemma weight_app h1 h2 : weight (h1 ++ h2) = (weight h1 + weight h2)%nat.
Proof. unfold weight. by rewrite sum_list_with_app. Qed.

Lemma open_cursors_weight i mfs : ∀ f cs, open_cursors i f mfs = Ok cs →
  (weight cs ≤ sum_list_with (λ mf, Z.to_nat (termCount mf)) mfs)%nat.
Proof.
  induction mfs as [|mf mfs IH]; intros f cs; cbn [open_cursors sum_list_with]; [by intros [= <-]|].
  intros (it & Hit & (rest & Hrest & [= <-])%result_bind_Ok)%result_bind_Ok. specialize (IH _ _ Hrest).
  destruct it as [it|]; [|lia]. apply next_spec in Hit as (E1 & E2 & E3). cbn in E1, E2, E3.
  unfold weight in *. cbn [sum_list_with]. unfold weight1 at 1. cbn [cIt]. rewrite E1, E2. lia.
Qed.

Lemma all_cursors_weight ins : ∀ i cs, all_cursors i ins = Ok cs → (weight cs ≤ terms_in ins)%nat.
Proof.
  unfold terms_in. induction ins as [|s ins IH]; intros i cs; cbn [all_cursors sum_list_with]; [by intros [= <-]|].
  intros (c1 & H1%open_cursors_weight & (c2 & H2%IH & [= <-])%result_bind_Ok)%result_bind_Ok. rewrite weight_app. lia.
Qed.

(** Whatever the dictionaries hold, the fuel of the walk is enough. *)
Lemma mergeWalk_total ins rm : is_Some (mergeWalk ins rm).
Proof.
  unfold mergeWalk. destruct (all_cursors 0 ins) as [cs|e] eqn:Hc; cbn [fueled_bind]; [|by eexists].
  apply walk_total. rewrite weight_heap. by apply (all_cursors_weight ins 0).
Qed.

(** C12: The walk of a merge returns within its fuel, whatever the dictionaries of its inputs
    hold.  If moreover every one of them reads to its end and is in ascending order, the walk,
    whatever the heap does, is the grouping of the inputs' entries in the order of term, field
    and input: one event per term and field with a surviving posting, and one per term with the
    number of documents.  (A dictionary derailed by a long word or a corruption may not read, or
    not be ascending; of it only the first sentence holds.) *)
Theorem merge_walk_groups_entries (ins : list mappedSegment) (rm : remap) :
  (∃ r, mergeWalk ins rm = Some r) ∧
  ∀ E : list entry,
    Forall (λ s, Forall (λ mf, ∃ l, eachTerm mf = Ok l ∧ ascending l) (fields s)) ins →
    StronglySorted entry_lt E → E ≡ₚ all_entries ins →
    mergeWalk ins rm = Some (Ok (reference_walk rm E)).
Proof.
  split; [apply mergeWalk_total|]. intros E Hr Hs Hp.
  destruct (all_cursors_spec 0 ins Hr) as (cs & Hcs & (ls & Hd & Ha & HE & Hn & _) & Hlen).
  destruct (heap_of_cursors cs Hn) as [Hph Hsh].
  destruct (heap_perm cs ls _ Hd Ha Hph) as (ls' & Hd' & Ha' & Hp').
  unfold mergeWalk. rewrite Hcs. cbn [fueled_bind].
  apply (walk_spec rm (length E) E _ _ ls'); [done| |by rewrite Hp].
  split; [done..| | |done].
  - change (NoDup (cid <$> foldr push_cursor [] cs)). by rewrite Hph.
  - by rewrite Hp', HE.
Qed.

(** The entries of two inputs that share a document and a term, in order. *)
Definition fruit_entries : list entry :=
  [mkEntry "apple" 1 0 ([0], [2]); mkEntry "apple" 1 1 ([0], [7]); mkEntry "apple" 4 0 ([1], [5]);
   mkEntry "apply" 1 0 ([0], [1]); mkEntry "banana" 4 0 ([1], [1]); mkEntry "fig" 1 1 ([0], [1]);
   mkEntry "zebra" 1 0 ([0], [1])].

Lemma merge_walk_groups_entries_witness :
  mergeWalk fruit_inputs [[-1; 0]; [1]] =
    Some (Ok [OnField "apple" 1 [(1, 7)]; OnField "apple" 4 [(0, 5)]; OnTerm "apple" 2;
              OnField "banana" 4 [(0, 1)]; OnTerm "banana" 1;
              OnField "fig" 1 [(1, 1)]; OnTerm "fig" 1]).
Proof.
  rewrite (proj2 (merge_walk_groups_entries fruit_inputs [[-1; 0]; [1]]) fruit_entries);
    [vm_compute; reflexivity| | |].
  - change (Forall (λ s, Forall readable (fields s)) fruit_inputs).
    apply (bool_decide_unpack _). vm_compute. exact I.
  - apply (bool_decide_unpack _). vm_compute. exact I.
  - apply (bool_decide_unpack _). vm_compute. exact I.
Defined.
