(* ===== verification/Bm25Format.v ===== *)
(** * The bm25 format as a format of the engine ([formats/bm25/format.go], [validate.go])

    The parts of the bm25 format assembled into a [SegmentFormat], the interface through which
    the engine uses them, and the promises it keeps: a build indexes the documents that have a
    token, and no others; a decoded segment is the one encoded; a search returns accepted ids
    only; and a merge always returns.

    Of the promises of [Format], [MergeLaws] is not claimed: a merge selects the right members
    ([Bm25MergeProps.merge_keeps_the_last_copy]), but its padding can overwrite bytes stored
    before ([Bm25MergeProps.merge_can_erase_postings]). *)

From Stdlib Require Import Ascii Floats.SpecFloat.
From S2P Require Import Prelude TopK Supersession Bucket SegmentSet Format Utf8 Bm25Layout Bm25Writer Bm25Read Bm25Encode Bm25Image Bm25Dicts Bm25Layouts Bm25SegmentLaid Bm25Opened Bm25RoundTrip Bm25Build Bm25Merge Bm25Props Bm25Search Bm25Stats Bm25Collect Bm25SearchProps Bm25Tokenize Bm25TokenizeProps Bm25Ingest Bm25Found Bm25MergeProps Bm25WalkProps.

Local Open Scope Z_scope.

(** ** Errors *)

(** The kinds of the details, without their numbers. *)
Definition corruption_detail (c : corruption) : string :=
  match c with
  | MemberSpan _ _ _ => "member span"
  | TermSpan what _ _ => what
  | PostingRun _ _ => "posting run"
  | DictionaryBlock _ => "dictionary block"
  | DictionaryEntry _ => "dictionary entry"
  | BlockIndexPast _ => "block index"
  | BlockEntryPast _ => "block entry"
  | FrontCodedHeader _ => "front-coded header"
  | FrontCodedStep _ _ _ => "front-coded step"
  end.

(** What a read fails with, raised ([flag]) or, caught, returned.  A raise names the segment
    whose bytes it read.  The panics of the runtime are no corruption. *)
Definition read_failure (flag : bool) (e : readErr) : formatErr :=
  match e with
  | Refuse _ => Refused "bm25 decode"
  | Raise b c => Corrupt flag (contentHash b) (corruption_detail c)
  | IndexPanic | WildRead => Panicked
  end.

Definition build_failure (e : buildErr) : formatErr :=
  match e with
  | EncodeFails (StoreOutside _) => Panicked
  | EncodeFails _ => Refused "bm25 encode"
  | OpenFails e => read_failure true e
  end.

Definition merge_failure (e : mergeErr) : formatErr :=
  match e with BadInput e => read_failure false e | _ => Refused "bm25 merge" end.

Definition map_err {E E' A} (f : E → E') (r : result E A) : result E' A :=
  match r with Ok a => Ok a | Err e => Err (f e) end.

Lemma map_err_Ok {E E' A} (f : E → E') (r : result E A) a : map_err f r = Ok a ↔ r = Ok a.
Proof. destruct r; cbn; split; congruence. Qed.

(** ** Segments

    A published segment is the reader that [openSegmentV2] made over a blob: it is known by
    the blob. *)

Definition opens (b : bytes) : Prop := Is_true (is_ok (openSegmentV2 b)).

Definition segment : Type := { b : bytes | opens b }.

Definition reader (p : segment) : mappedSegment := opened (`p).

Lemma opens_ok b s : openSegmentV2 b = Ok s → opens b.
Proof. intros H. unfold opens. by rewrite H. Qed.

Definition open_as (b : bytes) (r : result readErr mappedSegment) : openSegmentV2 b = r → result readErr segment :=
  match r with
  | Ok s => λ H, Ok (b ↾ opens_ok b s H)
  | Err e => λ _, Err e
  end.

Definition open_blob (b : bytes) : result readErr segment := open_as b (openSegmentV2 b) eq_refl.

Lemma open_blob_ok b p : open_blob b = Ok p → `p = b ∧ openSegmentV2 b = Ok (reader p).
Proof.
  assert (∀ r H, open_as b r H = Ok p → `p = b ∧ r = Ok (reader p)) as Hr; [|apply Hr].
  intros [s|e] H; cbn; [|done]. intros [= <-]. unfold reader, opened. cbn. by rewrite H.
Qed.

Lemma open_blob_segment p : open_blob (`p) = Ok p.
Proof.
  assert (∀ r H, is_ok r = true → open_as (`p) r H = Ok p) as Hr.
  { intros [s|e] H; [|done]. intros _. cbn. f_equal. by apply sig_eq_pi; [apply _|]. }
  apply Hr. destruct p as [b Hb]. cbn. by apply Is_true_true.
Qed.

Lemma opened_blob b s : openSegmentV2 b = Ok s → blob s = b.
Proof. intros Ho. by destruct (openSegment_ok b s Ho). Qed.

(** What an encoder's blob lists, once opened. *)
Lemma encoded_ids s kind b seg : 0 ≤ kind ≤ dictHash →
  encodeSegmentV2 s kind = Ok b → openSegmentV2 b = Ok seg → IDs seg = Ok (members s).
Proof.
  intros Hk He Ho. assert (pSize (planSegmentV2 s kind) ≤ v2MaxBlobBytes) as Hsize.
  { revert He. unfold encodeSegmentV2. case_decide; [done|]. cbv zeta. case_decide; [done|]. lia. }
  destruct (encode_holds s kind Hk Hsize) as (facts & b' & Hb & Hl & Hh). set (p := planSegmentV2 s kind) in *.
  rewrite He in Hb. injection Hb as <-.
  assert (blen b < 2 ^ 32) as Hsmall by (unfold v2MaxBlobBytes in Hsize; lia).
  rewrite <-(ids_held b kind s p facts (eq_sym Hl) Hh).
  assert (blob seg = b ∧ docCount seg = pDocCount p ∧ memberOffsets seg = pMemberOff p) as (E1 & E2 & E3).
  { pose proof (sf_docs _ _ _ facts) as Hd. destruct (sf_offsets _ _ _ facts) as [Hmo Hsz].
    assert (uint 4 b v2HdrDocCount = Ok (pDocCount p)) as H1.
    { apply (header_held b s p Hh); [unfold writeHeader, put16, put32; in_puts|]. lia. }
    assert (uint 4 b v2HdrMemberOffsets = Ok (pMemberOffsetsOff p)) as H2.
    { apply (header_held b s p Hh); [unfold writeHeader, put16, put32; in_puts|]. lia. }
    destruct (offsets_held b kind s p facts (eq_sym Hl) Hsmall Hh) as [H3 _]. unfold openSegmentV2 in Ho.
    repeat first [ case_decide; [discriminate Ho|] | apply result_bind_Ok in Ho as (? & ? & Ho) ]. cbv zeta in Ho.
    repeat apply result_bind_Ok in Ho as (? & ? & Ho). injection Ho as <-. cbn [blob docCount memberOffsets].
    rewrite H1 in *. rewrite H2, Hmo in *. simplify_eq. rewrite H3 in *. by simplify_eq. }
  unfold IDs, member, offset_at. rewrite E1, E2, E3. done.
Qed.

(** ** The format *)

(** [f.Truncate(n)] of a file in memory. *)
Definition truncate (f : bytes) (n : Z) : bytes :=
  take (Z.to_nat n) (f ++ replicate (Z.to_nat n - length f) Ascii.zero).

Section Format.
Context `{Unicode, !UnicodeAscii} (Log : spec_float → spec_float) (NumCPU : Z).

Definition stats_of_segments (ps : list segment) : CorpusStats := Bm25Search.AggregateStats ((λ p, Some (reader p)) <$> ps).

Definition stats_appended (st : CorpusStats) (p : segment) : CorpusStats := Bm25Search.AppendStats (Some st) (Some (reader p)).

Lemma bm25_stats_agree ps p : stats_appended (stats_of_segments ps) p = stats_of_segments (ps ++ [p]).
Proof. unfold stats_appended, stats_of_segments. rewrite fmap_app. by apply append_is_aggregate. Qed.

#[local] Instance bm25_stats : SegmentStats segment CorpusStats := {
  AggregateStats := stats_of_segments;
  AppendStats := stats_appended;
  AppendStats_agrees := bm25_stats_agree
}.

(** The reader that a build published, by its blob. *)
Definition build (docs : list Document) : BuildReport * result formatErr segment :=
  let '(r, degraded) := Bm25Ingest.Build NumCPU docs in
  (default ∅ degraded,
   match r with Ok s => map_err (read_failure true) (open_blob (blob s)) | Err e => Err (build_failure e) end).

(** The merge, into a file in memory, which the engine sizes to the length reported. *)
Definition merge_inputs_of (segs : list (segment * (string → bool))) : list mappedSegment * list acceptFn :=
  ((λ x, reader x.1) <$> segs, (λ x, Some x.2) <$> segs).

Definition merge (segs : list (segment * (string → bool))) : result formatErr bytes :=
  let '(ins, accept) := merge_inputs_of segs in
  let '(f, r) := streamMergeToFile ([] : bytes) ins accept defaultDictKind in
  match r with
  | Some (Ok n) => Ok (truncate f n)
  | Some (Err e) => Err (merge_failure e)
  | None => Err Panicked
  end.

Definition validate (id : string) (payload : bytes) : option formatErr :=
  match Bm25Read.ValidateSegment payload with Ok _ => None | Err e => Some (read_failure false e) end.

(** What the statistics remember afterwards is dropped: it cannot be observed. *)
Definition search (p : segment) (q : Query) (st : CorpusStats) (k : Z) (acc : string → bool) : result formatErr (list Hit) :=
  map_err (read_failure true) (r <-- Bm25Search.Search Log (reader p) q (Some st) k (Some acc) ;; Ok (fst r)).

#[local] Instance bm25_format : SegmentFormat segment CorpusStats Query := {
  FormatName := "bm25v2";
  Build := build;
  Decode b := map_err (read_failure true) (open_blob b);
  MergeTo := merge;
  ValidateSegment := validate;
  SearchSegment := search;
  IDs p := map_err (read_failure true) (Bm25Read.IDs (reader p));
  Encode p := Ok (`p)
}.

(** The branch out of fuel of [merge] is never taken. *)
Lemma merge_returns f ins accept kind : snd (streamMergeToFile (f : bytes) ins accept kind) ≠ None.
Proof.
  unfold streamMergeToFile, merge_inputs. destruct (resolveMergeLayout ins accept) as [[ms rm]|e]; cbn [fueled_bind]; [|done].
  destruct (mergeWalk_total ins rm) as [[evs|e] ->]; cbn [fueled_bind]; [|done].
  destruct (count_events _ _ _) as [[counts df]|e]; cbn [fueled_bind]; [|done]. by destruct (finish_merge _).
Qed.

(** ** Builds *)

(** A document with a token in an indexed field. *)
Definition has_token (d : Document) : bool :=
  match dftFields (doc_tokens d) with Some _ => true | None => false end.

Lemma built_ids docs rep p : build docs = (rep, Ok p) →
  Format.IDs p = Ok (indexed (doc_tokens <$> docs)).*1.
Proof.
  unfold build, Bm25Ingest.Build. rewrite tokenizeDocsParallel_spec. cbn [default].
  unfold publishSegment. destruct (encodeSegmentV2 _ _) as [b|e] eqn:He; [|done].
  destruct (openSegmentV2 b) as [s|e] eqn:Ho; [|done]. rewrite (opened_blob _ _ Ho). intros [= _ Hp].
  apply map_err_Ok, open_blob_ok in Hp as [_ Hr]. cbn [Format.IDs bm25_format]. apply map_err_Ok.
  assert (0 ≤ defaultDictKind ≤ dictHash) as Hk by done.
  rewrite <-(bt_members _ _ (built_build (doc_tokens <$> docs))).
  exact (encoded_ids (buildSegment (doc_tokens <$> docs)) defaultDictKind b (reader p) Hk He Hr).
Qed.

Lemma indexed_ids_of docs id :
  id ∈ (indexed (doc_tokens <$> docs)).*1 ↔ ∃ d, d ∈ docs ∧ has_token d = true ∧ DocID d = id.
Proof.
  rewrite list_elem_of_fmap. split.
  - intros ([i toks] & -> & (d & Hd & Ht)%indexed_docs). exists d. unfold has_token. rewrite Ht.
    destruct (tokenizeOne_spec d) as (f & Hf & _). destruct (doc_tokens_one d) as [E _]. rewrite Hf, Ht in E.
    by injection E as -> _.
  - intros (d & Hd & Ht & <-). unfold has_token in Ht. destruct (doc_tokens d) as [i [toks|]] eqn:Hdt; [|done].
    exists (DocID d, toks). split; [done|]. apply indexed_docs. exists d. split; [done|].
    destruct (tokenizeOne_spec d) as (f & Hf & _). destruct (doc_tokens_one d) as [E _]. rewrite Hf, Hdt in E.
    injection E as -> _. done.
Qed.

#[local] Instance bm25_build : BuildLaws segment CorpusStats Query.
Proof.
  refine {| indexable := has_token |}.
  - intros docs rep p id Hb%built_ids. unfold ids_of. rewrite Hb. apply indexed_ids_of.
  - intros docs p d Hb%built_ids _ Hd Ht. unfold ids_of. rewrite Hb. apply indexed_ids_of. by exists d.
Defined.

(** ** Blobs *)

#[local] Instance bm25_codec : CodecLaws segment CorpusStats Query.
Proof. split. intros p b [= <-]. cbn [Decode bm25_format]. apply map_err_Ok, open_blob_segment. Qed.

(** ** Searches *)

Section Accepted.
Context (member_at : Z → result readErr string) (accept : string → bool).

(** A document whose id reads and is accepted. *)
Definition accepted_doc (x : scoredDoc) : Prop := ∃ id, member_at (sd_id x) = Ok id ∧ accept id = true.

Lemma offer_doc_elem k h x y : y ∈ offer_doc k h x → y ∈ h ∨ y = x.
Proof.
  unfold offer_doc, heap_push. case_decide; [|destruct (SFltb _ _)].
  - rewrite siftUp_perm, elem_of_app, list_elem_of_singleton. done.
  - rewrite siftDown_perm. intros (i & Hi)%list_elem_of_lookup. apply list_lookup_insert_Some in Hi as [(_ & -> & _)|(_ & Hi)]; [by right|].
    left. by eapply list_elem_of_lookup_2.
  - by left.
Qed.

Lemma collect_accepted docs k scs tch : ∀ h h', collect member_at docs k (Some accept) scs tch h = Ok h' →
  Forall accepted_doc h → Forall accepted_doc h'.
Proof.
  induction tch as [|d tch IH]; intros h h'; cbn [collect]; [by intros [= <-]|]. case_decide; [apply IH|].
  intros (keep & (id & Hid & [= <-])%result_bind_Ok & Hc)%result_bind_Ok Hh.
  destruct (accept id) eqn:Ha; [|by eapply IH]. eapply IH; [exact Hc|]. apply Forall_forall. intros y Hy.
  apply offer_doc_elem in Hy as [Hy| ->]; [by eapply Forall_forall in Hy|]. exists id. by split.
Qed.

Lemma heap_pop_elem h x h' : heap_pop h = Some (x, h') → x ∈ h ∧ ∀ y, y ∈ h' → y ∈ h.
Proof.
  unfold heap_pop. set (n := (length h - 1)%nat). intros (z & Hz & [= <- <-])%bind_Some. split.
  - rewrite <-(swap_perm h 0 n). by eapply list_elem_of_lookup_2.
  - intros y. rewrite siftDown_perm. intros (i & Hy & _)%elem_of_take. rewrite <-(swap_perm h 0 n).
    by eapply list_elem_of_lookup_2.
Qed.

Lemma pop_all_accepted n : ∀ h out hits, pop_all member_at n h out = Ok hits →
  Forall accepted_doc h → Forall (λ x, accept (HitID x) = true) out → Forall (λ x, accept (HitID x) = true) hits.
Proof.
  induction n as [|n IH]; intros h out hits; cbn [pop_all]; [by intros [= <-]|].
  destruct (heap_pop h) as [[x h']|] eqn:Hp; [|by intros [= <-]]. apply heap_pop_elem in Hp as [Hx Hsub].
  intros (id & Hid & Hr)%result_bind_Ok Hh Hout. rewrite Forall_forall in Hh. eapply IH; [exact Hr| |].
  - apply Forall_forall. auto.
  - constructor; [|done]. destruct (Hh x Hx) as (id' & Hid' & Ha). rewrite Hid in Hid'. by injection Hid' as <-.
Qed.
End Accepted.

Lemma search_accepted seg q st k acc hits st' h :
  Bm25Search.Search Log seg q st k (Some acc) = Ok (hits, st') → h ∈ hits → acc (HitID h) = true.
Proof.
  unfold Bm25Search.Search, search_with, collectTopK. intros Hs Hh. enough (Forall (λ x, acc (HitID x) = true) hits) as Hf.
  { rewrite Forall_forall in Hf. by apply Hf. }
  clear Hh h. revert Hs. case_decide; [by intros [= <- _]|]. destruct st as [st|]; [|by intros [= <- _]].
  cbv zeta. case_decide; [by intros [= <- _]|]. intros (r & _ & Hr)%result_bind_Ok.
  apply result_bind_Ok in Hr as (hs & Hc & [= -> _]). destruct (touched (fst r)) as [|t ts]; [by injection Hc as <-|].
  apply result_bind_Ok in Hc as (g & Hg & Hp). eapply pop_all_accepted; [exact Hp| |constructor].
  by eapply collect_accepted.
Qed.

#[local] Instance bm25_search : SearchLaws segment CorpusStats Query.
Proof.
  split. intros p q st k acc hits h Hs. cbn [SearchSegment bm25_format] in Hs. unfold search in Hs.
  apply map_err_Ok, result_bind_Ok in Hs as ([hs st'] & Hs & [= <-]). by eapply search_accepted.
Qed.
End Format.

(** ** Instances for runs

    The identity stands for the logarithm, and there are four processors. *)

#[export] Instance sample_bm25 : SegmentFormat segment CorpusStats Query := bm25_format (λ x, x) 4.
#[export] Instance sample_bm25_build : BuildLaws segment CorpusStats Query := bm25_build (λ x, x) 4.
#[export] Instance sample_bm25_codec : CodecLaws segment CorpusStats Query := bm25_codec (λ x, x) 4.
#[export] Instance sample_bm25_search : SearchLaws segment CorpusStats Query := bm25_search (λ x, x) 4.

(** The shelf of [Bm25Found], built: the document without a token is passed over. *)
Example shelf_ids :
  (λ r, match r with Ok p => ids_of p | Err _ => [] end) (snd (Format.Build shelf)) = ["reader"; "writer"].
Proof. vm_compute. reflexivity. Qed.
