(* ===== verification/Engine.v ===== *)
(** * The segmented index: state, writes, reads
    ([internal/searchengine/engine.go], [engine_search.go],
    [engine_resident_aggregates.go], [bucket_membership.go], [corruption.go])

    The engine owns the published snapshot, the active buffer and the live bitsets.
    A handler is a function of the engine state that returns the new state and a
    result; a bitset is an object in a store, named by an address, so that snapshots
    sharing an entry share its bits.  A compare-and-swap loop re-reads the snapshot
    until it wins: here it applies its derivation to the current snapshot. *)

From Stdlib Require Import Ascii Floats.SpecFloat.
From S2P Require Import Prelude LiveDocs TopK Bucket Supersession SegmentSet Format.

(** ** State *)

Record SegmentBlob := mkBlob {
  BlobID : string;
  BlobFormat : string;
  BlobGeneration : Z;
  BlobDocCount : Z;
  Bytes : bytes;
  Envelope : bytes;
  Release : bool;
  keepAlive : option nat
}.

Record MergeResult := mkMergeResult { Removed : list string; Merged : SegmentBlob }.

(** The hooks' calls, in order: what the owner of the engine observes. *)
Inductive event :=
| EvMerge (r : MergeResult)
| EvCorrupt (id detail : string)
| EvDegrade (rep : BuildReport).

Inductive engErr :=
| EFormat (e : formatErr)
| EMergeInvalid (constituents : list string) (e : formatErr)
| EDuplicateIDs (nodes ids : nat)
| EEnvelope (e : supErr)
| EMap (msg : string)
| ECanceled
| ELayer (msg : string).

Record Options := mkOptions {
  MinSegmentDocs : Z;
  DeletesPctAllowed : spec_float;
  SegmentCountTarget : Z;
  OnMerge : bool;
  OnCorruptSegment : bool;
  OnBuildDegrade : bool;
  MapBlob : bytes → result string bytes
}.

Record engine (P St : Type) := mkEngine {
  engine_id : nat;
  opts : Options;
  eset : segmentSet P St;
  active : list Document;
  lives : gmap nat liveDocs;
  next_live : nat;
  merge_signal : bool;
  stopped : bool;
  mergeCnt : Z;
  settleCnt : Z;
  mergeScanCnt : Z;
  events : list event
}.
Arguments mkEngine {P St}.
Arguments engine_id {P St}.
Arguments opts {P St}.
Arguments eset {P St}.
Arguments active {P St}.
Arguments lives {P St}.
Arguments next_live {P St}.
Arguments merge_signal {P St}.
Arguments stopped {P St}.
Arguments mergeCnt {P St}.
Arguments settleCnt {P St}.
Arguments mergeScanCnt {P St}.
Arguments events {P St}.

(** The rollback-free state and error monad of the handlers: an error returns the
    state reached so far, as the Go code does. *)
Definition M (P St A : Type) : Type := engine P St → engine P St * result engErr A.

Section Monad.
Context {P St : Type}.

Definition ret {A} (a : A) : M P St A := λ e, (e, Ok a).
Definition fail {A} (err : engErr) : M P St A := λ e, (e, Err err).
Definition bind {A B} (m : M P St A) (f : A → M P St B) : M P St B :=
  λ e, match m e with
       | (e', Ok a) => f a e'
       | (e', Err err) => (e', Err err)
       end.
Definition lift {A} (r : result engErr A) : M P St A := λ e, (e, r).
Definition lift_format {A} (r : result formatErr A) : M P St A :=
  λ e, (e, match r with Ok a => Ok a | Err err => Err (EFormat err) end).
Definition get : M P St (engine P St) := λ e, (e, Ok e).
Definition modify (f : engine P St → engine P St) : M P St () := λ e, (f e, Ok ()).
(** [r, err := m()]: the error as a value. *)
Definition attempt {A} (m : M P St A) : M P St (result engErr A) :=
  λ e, let '(e', r) := m e in (e', Ok r).

Definition set_set (s : segmentSet P St) (e : engine P St) : engine P St :=
  mkEngine (engine_id e) (opts e) s (active e) (lives e) (next_live e) (merge_signal e)
    (stopped e) (mergeCnt e) (settleCnt e) (mergeScanCnt e) (events e).
Definition set_active (a : list Document) (e : engine P St) : engine P St :=
  mkEngine (engine_id e) (opts e) (eset e) a (lives e) (next_live e) (merge_signal e)
    (stopped e) (mergeCnt e) (settleCnt e) (mergeScanCnt e) (events e).
Definition set_lives (l : gmap nat liveDocs) (n : nat) (e : engine P St) : engine P St :=
  mkEngine (engine_id e) (opts e) (eset e) (active e) l n (merge_signal e)
    (stopped e) (mergeCnt e) (settleCnt e) (mergeScanCnt e) (events e).
Definition set_signal (e : engine P St) : engine P St :=
  mkEngine (engine_id e) (opts e) (eset e) (active e) (lives e) (next_live e) true
    (stopped e) (mergeCnt e) (settleCnt e) (mergeScanCnt e) (events e).
Definition set_counts (mc sc scan : Z) (e : engine P St) : engine P St :=
  mkEngine (engine_id e) (opts e) (eset e) (active e) (lives e) (next_live e) (merge_signal e)
    (stopped e) mc sc scan (events e).
Definition set_stopped (e : engine P St) : engine P St :=
  mkEngine (engine_id e) (opts e) (eset e) (active e) (lives e) (next_live e) (merge_signal e)
    true (mergeCnt e) (settleCnt e) (mergeScanCnt e) (events e).
Definition emit (ev : event) (e : engine P St) : engine P St :=
  mkEngine (engine_id e) (opts e) (eset e) (active e) (lives e) (next_live e) (merge_signal e)
    (stopped e) (mergeCnt e) (settleCnt e) (mergeScanCnt e) (events e ++ [ev]).
End Monad.

Notation "'let!' x ':=' m 'in' k" := (bind m (λ x, k))
  (at level 10, x pattern, m at level 100, k at level 200) : go_scope.
Notation "m ';;;' k" := (bind m (λ _, k)) (at level 100, right associativity) : go_scope.

(** ** Options *)

(** The float64 0.33, 0 and 1. *)
Definition f033 : spec_float := S754_finite false 5944751508129055 (-54).
Definition f0 : spec_float := S754_zero false.

Definition defaultMinSegmentDocs : Z := 1024.
Definition defaultSegmentCountTarget : Z := 16.
Definition MergeDisabledCountTarget : Z := 2 ^ 30.
Definition MergeDisabledDeadRatio : spec_float := two.

(** [MapBlob] is never nil here: the default reads the file back. *)
Definition withDefaults (o : Options) : Options :=
  mkOptions
    (if (MinSegmentDocs o <=? 0)%Z then defaultMinSegmentDocs else MinSegmentDocs o)
    (if SFleb (DeletesPctAllowed o) f0 then f033 else DeletesPctAllowed o)
    (if (SegmentCountTarget o <=? 0)%Z then defaultSegmentCountTarget else SegmentCountTarget o)
    (OnMerge o) (OnCorruptSegment o) (OnBuildDegrade o) (MapBlob o).

Definition readBlobFromFile (data : bytes) : result string bytes := Ok data.

Section Engine.
Context {P St Q : Type} `{F : SegmentFormat P St Q}.
Abbreviation M := (M P St).
Implicit Types (eng : engine P St) (e : segmentEntry P) (s : segmentSet P St).

Definition New (id : nat) (o : Options) : engine P St :=
  mkEngine id (withDefaults o) (newSegmentSet []) [] ∅ 0 false false 0 0 0 [].

(** ** Live bits *)

Definition live_of eng e : liveDocs := default (newLiveDocs 0) (lives eng !! live e).

Definition kill_at (loc : nat) (ord : Z) eng : engine P St :=
  set_lives (alter (λ l, Kill l ord) loc (lives eng)) (next_live eng) eng.
Definition revive_at (loc : nat) (ord : Z) eng : engine P St :=
  set_lives (alter (λ l, Revive l ord) loc (lives eng)) (next_live eng) eng.

(** [ord, ok := entry.members[id]; ok && entry.live.Live(ord)] *)
Definition live_in eng e (id : string) : bool :=
  match members e !! id with Some ord => Live (live_of eng e) ord | None => false end.

(** The nil entry is [None]. *)
Definition residentMemberIn eng (o : option (segmentEntry P)) (id : string) : bool :=
  match o with None => false | Some e => live_in eng e id end.

(** ** Sealing *)

Definition reportDegrade (rep : BuildReport) : M () :=
  modify (λ eng, if decide (rep = ∅) then eng
                 else if OnBuildDegrade (opts eng) then emit (EvDegrade rep) eng else eng).

(** [for ord, extID := range ids { members[extID] = ord }] *)
Definition members_of (ids : list string) : idSet :=
  fold_left (λ m '(i, id), <[id := Z.of_nat i]> m) (imap pair ids) ∅.

Inductive payloadProvenance := payloadBuilt | payloadMapped.

Definition newEntry (seg : P) (tombstones : list string) (prov : payloadProvenance) :
    M (segmentEntry P) :=
  let! blob := lift_format (Encode seg) in
  let id := contentHash blob in
  let! ids := lift_format (IDs seg) in
  let ms := members_of ids in
  if decide (length ids ≠ size ms) then fail (EDuplicateIDs (length ids) (size ms))
  else
    let l := match tombstones with
             | [] => newLiveDocs (Z.of_nat (length ids))
             | _ => newLiveDocsFromTombstones (Z.of_nat (length ids)) tombstones ms
             end in
    let heap := match prov with payloadBuilt => Z.of_nat (length blob) | payloadMapped => 0%Z end in
    let! eng := get in
    modify (set_lives (<[next_live eng := l]> (lives eng)) (S (next_live eng))) ;;;
    ret (mkEntry seg (next_live eng) ms
           (mkMeta id FormatName 0 (Z.of_nat (size ms)) (distinctDeadCount ms l))
           noRecord heap None).

Definition publishAppend e : M bool :=
  let! eng := get in
  match entryByID (eset eng) (sid e) with
  | Some _ => ret false
  | None => modify (set_set (withAppended (eset eng) e)) ;;; ret true
  end.

Definition signalMerge : M () := modify set_signal.

(** [seg, rep, err := e.format.Build(docs); e.reportDegrade(rep)] *)
Definition build (docs : list Document) : M P :=
  let '(rep, r) := Build (dedupeDocsByID docs) in
  reportDegrade rep ;;; lift_format r.

Definition seal (docs : list Document) : M (string * bool) :=
  let! seg := build docs in
  let! e := newEntry seg [] payloadBuilt in
  let! created := publishAppend e in
  signalMerge ;;; ret (sid e, created).

Definition Add (docs : list Document) : M () :=
  if decide (docs = []) then ret ()
  else
    modify (λ eng, set_active (active eng ++ docs) eng) ;;;
    let! eng := get in
    if (Z.of_nat (length (active eng)) <? MinSegmentDocs (opts eng))%Z then ret ()
    else modify (set_active []) ;;; seal (active eng) ;;; ret ().

Definition Flush : M () :=
  let! eng := get in
  match active eng with
  | [] => ret ()
  | drained => modify (set_active []) ;;; seal drained ;;; ret ()
  end.

(** The first active document with the id leaves the buffer. *)
Fixpoint remove_active (id : string) (docs : list Document) : list Document :=
  match docs with
  | [] => []
  | d :: docs => if decide (DocID d = id) then docs else d :: remove_active id docs
  end.

Definition Delete (id : string) : M () :=
  let! eng := get in
  match entryOf (eset eng) id with
  | Some e =>
      match members e !! id with
      | Some ord => modify (kill_at (live e) ord) ;;; signalMerge
      | None => ret ()
      end
  | None => modify (λ eng, set_active (remove_active id (active eng)) eng)
  end.

(** [killSuperseded(set, superseded)]: the route is the given snapshot's. *)
Definition kill_one s (id : string) eng : engine P St :=
  match entryOf s id with
  | None => eng
  | Some e =>
      match members e !! id with Some ord => kill_at (live e) ord eng | None => eng end
  end.

Definition killSuperseded s (superseded : list string) : M () :=
  modify (λ eng, fold_left (λ eng id, kill_one s id eng) superseded eng).

Definition KillSuperseded (ids : list string) : M () :=
  let! eng := get in killSuperseded (eset eng) ids.

Record SealResult := mkSealResult { SealID : string; Created : bool }.

(** The copies that answer for the incoming ids before the seal. *)
Definition victims_of s (docs : list Document) : list (segmentEntry P * string * Z) :=
  omap (λ d, e ← entryOf s (DocID d); ord ← members e !! DocID d; Some (e, sid e, ord)) docs.

Definition revive_docs e (docs : list Document) eng : engine P St :=
  fold_left (λ eng d, match members e !! DocID d with
                      | Some ord => revive_at (live e) ord eng | None => eng end) docs eng.

Definition kill_victims (sealedID : string) (victims : list (segmentEntry P * string * Z)) eng :
    engine P St :=
  fold_left (λ eng '(e, seg, ord), if decide (seg = sealedID) then eng
                                   else kill_at (live e) ord eng) victims eng.

Definition AddSealAndSupersede (docs : list Document) : M SealResult :=
  if decide (docs = []) then ret (mkSealResult "" false)
  else
    let! eng := get in
    let victims := victims_of (eset eng) docs in
    modify (set_active []) ;;;
    let! sealed := seal (active eng ++ docs) in
    let! post := get in
    match entryByID (eset post) (fst sealed) with
    | None => ret (mkSealResult (fst sealed) (snd sealed))
    | Some answering =>
        modify (revive_docs answering docs) ;;;
        modify (kill_victims (fst sealed) victims) ;;;
        ret (mkSealResult (fst sealed) (snd sealed))
    end.

(** ** Corruption containment *)

Definition WithdrawSegment (id : string) : M bool :=
  let! eng := get in
  match entryByID (eset eng) id with
  | None => ret false
  | Some _ => modify (set_set (newSegmentSet (filter (λ e, sid e ≠ id) (entries (eset eng))))) ;;;
              ret true
  end.

Definition reportCorrupt (id detail : string) : M () :=
  (if decide (id = "") then ret () else WithdrawSegment id ;;; ret ()) ;;;
  modify (λ eng, if OnCorruptSegment (opts eng) then emit (EvCorrupt id detail) eng else eng).

(** A raised corruption becomes the error, attributed and reported. *)
Definition containCorrupt {A} (id : string) (m : M A) : M A :=
  let! r := attempt m in
  match r with
  | Err (EFormat (Corrupt true cid detail)) =>
      let cid := if decide (cid = "") then id else cid in
      reportCorrupt cid detail ;;; fail (EFormat (Corrupt true cid detail))
  | r => lift r
  end.

(** A corruption that was returned, not raised, has not been reported yet. *)
Definition reportCorruptFrom (err : engErr) : M bool :=
  match err with
  | EFormat (Corrupt raised id detail) =>
      (if raised : bool then ret () else reportCorrupt id detail) ;;; ret true
  | _ => ret false
  end.

(** ** Searching *)

Definition search_accept eng e (accepts : string → bool) (id : string) : bool :=
  live_in eng e id && accepts id.

(** One segment's goroutine: its hits, or the contained corruption and no hits; any
    other panic is not recovered. *)
Definition search_entry s (q : Q) (k : Z) (accepts : string → bool) e : M (list Hit) :=
  let! eng := get in
  match SearchSegment (payload e) q (stats s) k (search_accept eng e accepts) with
  | Ok hits => ret hits
  | Err (Corrupt true cid detail) =>
      reportCorrupt (if decide (cid = "") then sid e else cid) detail ;;; ret []
  | Err err => fail (EFormat err)
  end.

Fixpoint mapM_entries {A} (f : segmentEntry P → M A) (es : list (segmentEntry P)) : M (list A) :=
  match es with
  | [] => ret []
  | e :: es => let! a := f e in let! l := mapM_entries f es in ret (a :: l)
  end.

Definition SearchAccepting (q : Q) (k : Z) (accepts : string → bool) : M (list Hit) :=
  let! eng := get in
  let s := eset eng in
  if decide (entries s = []) then ret []
  else if (k <=? 0)%Z then ret []
  else
    let! results := mapM_entries (search_entry s q k accepts) (entries s) in
    ret (mergeTopK results k).

Definition Search (q : Q) (k : Z) : M (list Hit) := SearchAccepting q k (λ _, true).

(** ** Residency aggregates *)

Definition ResidentDocCount eng : Z :=
  foldr (λ e n, DocCount (meta e) + n)%Z 0%Z (entries (eset eng)).

Definition DistinctResidentDocCount eng : Z := distinct (eset eng).
Definition ResidentSegmentCount eng : nat := length (entries (eset eng)).

Definition entryIndex s : gmap string (segmentEntry P) :=
  fold_left (λ idx e, <[sid e := e]> idx) (entries s) ∅.

Definition LiveResidentCount eng : Z :=
  let idx := entryIndex (eset eng) in
  Z.of_nat (length (filter (λ '(id, x), residentMemberIn eng (idx !! x) id = true)
    (rangeRoute (eset eng)))).

Definition UncoveredFrom eng (ids : list string) : list string :=
  let idx := entryIndex (eset eng) in
  filter (λ id, match routeOf (eset eng) id with
                | None => true
                | Some x => negb (residentMemberIn eng (idx !! x) id)
                end = true) ids.

(** How many live members of [e] are not covered. *)
Definition live_outside eng e (covered : gset string) : Z :=
  Z.of_nat (size (filter (λ id, (id ∉ covered) ∧ live_in eng e id = true) (dom (members e)))).

Definition LiveMembersOutside eng (ids : list string) (covered : gset string) : gmap string Z :=
  let idx := entryIndex (eset eng) in
  fold_left (λ out x,
      match idx !! x with
      | None => out
      | Some e => if (0 <? live_outside eng e covered)%Z
                  then <[x := live_outside eng e covered]> out else out
      end) ids ∅.

(** The buckets of an entry's members, live or dead. *)
Definition spans_of e (bucketCount : Z) : gset Z :=
  set_map (λ id, BucketOf id bucketCount) (dom (members e)).

Definition SegmentSpans eng (bucketCount : Z) : gmap string (list Z) :=
  fold_left (λ out e,
      if decide (spans_of e bucketCount = ∅) then out
      else <[sid e := merge_sort Z.le (elements (spans_of e bucketCount))]> out)
    (entries (eset eng)) ∅.

Definition BucketConstituents eng (bucket bucketCount : Z) : list string :=
  sid <$> filter (λ e, bucket ∈ spans_of e bucketCount) (entries (eset eng)).
End Engine.
