(* ===== verification/EngineSwap.v ===== *)
(** * Consolidations: merges, bucket swaps, layer swaps
    ([merge_entry.go], [merge.go], [bucket_swap.go], [bucket_swap_group.go],
    [layer_swap.go], [layer_release.go], [supersession.go])

    Each handler resolves its constituents in the snapshot it loads, builds its
    output, records what the output supersedes and swaps the set once.  The harvests
    of a group run in the order of the work list: their results are index-addressed
    and they share no state but the allocation of new bitsets. *)

From Stdlib Require Import Ascii Floats.SpecFloat.
From S2P Require Import Prelude LiveDocs TopK Bucket Supersession SegmentSet Format Engine.

Record BucketWork := mkWork { Bucket : Z; WorkSuperseded : list string; Docs : list Document }.

Record GroupHarvestStats := mkStats {
  ResolvedSegments : nat;
  WalkedSegments : nat;
  MaxWalkedSegments : nat
}.

(** What the context of a group swap answers when asked: on entry, before each
    partition's harvest, and before the publish. *)
Record ctx_answers := mkCtx { ctx_entry : bool; ctx_part : nat → bool; ctx_publish : bool }.
Definition ctx_open : ctx_answers := mkCtx true (λ _, true) true.

Section Swap.
Context {P St Q : Type} `{F : SegmentFormat P St Q}.
Abbreviation M := (M P St).
Implicit Types (eng : engine P St) (e : segmentEntry P) (s : segmentSet P St).

(** ** Stored form of an entry *)

Definition stampSupersession e (superseded cohort : list string) : segmentEntry P :=
  match superseded with
  | [] => e
  | _ => mkEntry (payload e) (live e) (members e) (meta e) (mkSupersession superseded cohort)
           (heapPayload e) (pin e)
  end.

Definition blobParts e : result formatErr (bytes * bytes) :=
  b <-- Encode (payload e) ;; Ok (encodeSupersessionPrefix (record e), b).

Definition entry_blob e (parts : bytes * bytes) : SegmentBlob :=
  mkBlob (sid e) FormatName (Generation (meta e)) (DocCount (meta e)) (snd parts) (fst parts)
    false (Some (live e)).

Definition fireMergeHook e (removed : list string) : M () :=
  modify (λ eng,
    if negb (OnMerge (opts eng)) || bool_decide (removed = []) then eng
    else match blobParts e with
         | Err _ => eng
         | Ok parts => emit (EvMerge (mkMergeResult removed (entry_blob e parts))) eng
         end).

(** ** Merging *)

(** The scratch file holds exactly the merge's output; mapping it may fail. *)
Definition map_scratch (data : bytes) : M bytes :=
  let! eng := get in
  match MapBlob (opts eng) data with Ok b => ret b | Err msg => fail (EMap msg) end.

Definition mergeEntry (segs : list (P * (string → bool))) (constituents : list string) :
    M (segmentEntry P) :=
  let! data := containCorrupt "" (lift_format (MergeTo segs)) in
  let! data := map_scratch data in
  match ValidateSegment "" data with
  | Some verr => fail (EMergeInvalid constituents verr)
  | None =>
      containCorrupt ""
        (let! seg := lift_format (Decode data) in newEntry seg [] payloadMapped)
  end.

(** [acceptLiveMembers], reading the bits when the merge calls it. *)
Definition acceptLiveMembers eng e (bucket bucketCount : Z) (id : string) : bool :=
  live_in eng e id && (BucketOf id bucketCount =? bucket)%Z.

Definition resolve s (constituents : list string) : list (segmentEntry P) :=
  omap (entryByID s) constituents.

(** The fresh segment over the incoming documents, if there are any. *)
Definition build_fresh (docs : list Document) : M (option (segmentEntry P)) :=
  match docs with
  | [] => ret None
  | _ => let! seg := build docs in
         let! e := newEntry seg [] payloadBuilt in ret (Some e)
  end.

Definition merge_inputs eng (es : list (segmentEntry P)) (bucket bucketCount : Z) :
    list (P * (string → bool)) :=
  (λ e, (payload e, acceptLiveMembers eng e bucket bucketCount)) <$> es.

Definition ReplaceBucket (bucket bucketCount : Z) (constituents superseded : list string)
    (docs : list Document) : M string :=
  let! eng := get in
  let s := eset eng in
  let resolved := resolve s constituents in
  killSuperseded s superseded ;;;
  let! fresh := build_fresh docs in
  let! eng := get in
  let inputs := resolved ++ opt_list fresh in
  let removed := sid <$> resolved in
  let remove : gset string := list_to_set (sid <$> inputs) in
  if decide (inputs = []) then ret ""
  else
    let! r := attempt (mergeEntry (merge_inputs eng inputs bucket bucketCount) removed) in
    match r with
    | Err err => reportCorruptFrom err ;;; fail err
    | Ok e =>
        let reclaimable := excluding removed {[sid e]} in
        let e := stampSupersession e reclaimable [sid e] in
        modify (λ eng, set_set (withReplaced (eset eng) remove (Some e)) eng) ;;;
        fireMergeHook e reclaimable ;;;
        ret (sid e)
    end.

(** ** The group swap *)

Definition harvestPartition (spanning : list (segmentEntry P)) (w : BucketWork)
    (bucketCount : Z) : M (option (segmentEntry P) * string) :=
  let! fresh := build_fresh (Docs w) in
  let! eng := get in
  let freshID := match fresh with Some f => sid f | None => "" end in
  let inputs := spanning ++ opt_list fresh in
  if decide (inputs = []) then ret (None, freshID)
  else
    let! e := mergeEntry (merge_inputs eng inputs (Bucket w) bucketCount) (sid <$> spanning) in
    if (DocCount (meta e) =? 0)%Z then ret (None, freshID) else ret (Some e, freshID).

Definition bucketSpans (resolved : list (segmentEntry P)) (bucketCount : Z) :
    gmap string (gset Z) :=
  fold_left (λ spans e, <[sid e := spans_of e bucketCount]> spans) resolved ∅.

Definition entriesSpanningBucket (resolved : list (segmentEntry P))
    (spans : gmap string (gset Z)) (bucket : Z) : list (segmentEntry P) :=
  filter (λ e, bucket ∈ default ∅ (spans !! sid e)) resolved.

(** One slot of the harvest: the partition's result and how many segments it walked. *)
Definition harvest_slot : Type := result engErr (option (segmentEntry P) * string) * nat.

Fixpoint harvestGroup (ctx : ctx_answers) (resolved : list (segmentEntry P))
    (spans : gmap string (gset Z)) (i : nat) (work : list BucketWork) (bucketCount : Z) :
    M (list harvest_slot) :=
  match work with
  | [] => ret []
  | w :: work =>
      let! slot :=
        if ctx_part ctx i then
          let share := entriesSpanningBucket resolved spans (Bucket w) in
          let! r := attempt (harvestPartition share w bucketCount) in ret (r, length share)
        else ret (Err ECanceled, 0)
      in
      let! slots := harvestGroup ctx resolved spans (S i) work bucketCount in
      ret (slot :: slots)
  end.

(** The serial fold over the slots, in work order: the first error ends the group. *)
Fixpoint fold_harvest (work : list BucketWork) (slots : list harvest_slot)
    (added : list (segmentEntry P)) (publishedBy : gmap Z string) (remove : gset string) :
    result engErr (list (segmentEntry P) * gmap Z string * gset string) :=
  match work, slots with
  | w :: work, (Err err, _) :: _ => Err err
  | w :: work, (Ok (harvested, freshID), _) :: slots =>
      let remove := if decide (freshID = "") then remove else {[freshID]} ∪ remove in
      match harvested with
      | None => fold_harvest work slots added publishedBy remove
      | Some e => fold_harvest work slots (added ++ [e]) (<[Bucket w := sid e]> publishedBy) remove
      end
  | _, _ => Ok (added, publishedBy, remove)
  end.

Definition stampGroupSupersession (added : list (segmentEntry P)) (removed : list string) :
    list (segmentEntry P) * list string :=
  let cohort := sid <$> added in
  let survivors := excluding removed (list_to_set cohort) in
  ((λ e, stampSupersession e survivors cohort) <$> added, survivors).

(** The first output carries the removals, the others none. *)
Fixpoint fire_all (added : list (segmentEntry P)) (survivors : list string) : M () :=
  match added with
  | [] => ret ()
  | e :: added => fireMergeHook e survivors ;;; fire_all added []
  end.

Definition group_stats (resolved : list (segmentEntry P)) (slots : list harvest_slot) :
    GroupHarvestStats :=
  mkStats (length resolved) (sum_list (snd <$> slots)) (max_list (snd <$> slots)).

Definition ReplaceBucketGroup (ctx : ctx_answers) (bucketCount : Z) (constituents : list string)
    (work : list BucketWork) : M (GroupHarvestStats * result engErr (gmap Z string)) :=
  if negb (ctx_entry ctx) then ret (mkStats 0 0 0, Err ECanceled)
  else
    let! eng := get in
    let s := eset eng in
    let resolved := resolve s constituents in
    modify (λ eng, fold_left (λ eng w,
      fold_left (λ eng id, kill_one s id eng) (WorkSuperseded w) eng) work eng) ;;;
    let removed := sid <$> resolved in
    let spans := bucketSpans resolved bucketCount in
    let! slots := harvestGroup ctx resolved spans 0 work bucketCount in
    let stats := group_stats resolved slots in
    match fold_harvest work slots [] ∅ (list_to_set removed) with
    | Err err => reportCorruptFrom err ;;; ret (stats, Err err)
    | Ok (added, publishedBy, remove) =>
        if negb (ctx_publish ctx) then ret (stats, Err ECanceled)
        else if decide (added = []) then ret (stats, Ok publishedBy)
        else
          let '(added, survivors) := stampGroupSupersession added removed in
          modify (λ eng, set_set (withReplacedGroup (eset eng) remove added) eng) ;;;
          fire_all added survivors ;;;
          ret (stats, Ok publishedBy)
    end.

(** ** The background merge *)

(** [float64(n)] and the quotient of two of them. *)
Definition float_of_int (n : Z) : spec_float := binary_normalize 53 1024 n 0 false.
Definition dead_ratio (dead total : Z) : spec_float :=
  SFdiv 53 1024 (float_of_int dead) (float_of_int total).

Definition deadRatioReachable eng : bool := SFleb (DeletesPctAllowed (opts eng)) one.

Definition dirty eng e : bool :=
  negb (DocCount (meta e) =? 0)%Z
  && SFleb (DeletesPctAllowed (opts eng)) (dead_ratio (DeadCount (live_of eng e)) (DocCount (meta e))).

Definition pickMergeTargets s : M (list (segmentEntry P)) :=
  let! eng := get in
  if decide (entries s = []) then ret []
  else if (SegmentCountTarget (opts eng) <? Z.of_nat (length (entries s)))%Z then ret (entries s)
  else if negb (deadRatioReachable eng) then ret []
  else
    modify (λ eng, set_counts (mergeCnt eng) (settleCnt eng)
                     (mergeScanCnt eng + Z.of_nat (length (entries s))) eng) ;;;
    ret (filter (λ e, dirty eng e = true) (entries s)).

Definition doMerge (chosen : list (segmentEntry P)) : M () :=
  let! eng := get in
  if stopped eng then ret ()
  else
    let remove : gset string := list_to_set (sid <$> chosen) in
    let removed := sortedSegmentIDs remove in
    let! r := attempt (mergeEntry ((λ e, (payload e, live_in eng e)) <$> chosen) removed) in
    match r with
    | Err err => reportCorruptFrom err ;;; ret ()
    | Ok e =>
        let e := stampSupersession e removed [sid e] in
        modify (λ eng, set_set (withReplaced (eset eng) remove (Some e)) eng) ;;;
        modify (λ eng, set_counts (mergeCnt eng + 1) (settleCnt eng) (mergeScanCnt eng) eng) ;;;
        fireMergeHook e removed ;;;
        modify (λ eng, set_counts (mergeCnt eng) (settleCnt eng + 1) (mergeScanCnt eng) eng)
    end.

Definition maybeMerge : M () :=
  let! eng := get in
  let! chosen := pickMergeTargets (eset eng) in
  if decide (chosen = []) then ret () else doMerge chosen.

Definition MergeEligible : M bool :=
  let! eng := get in
  let! chosen := pickMergeTargets (eset eng) in
  ret (negb (bool_decide (chosen = []))).

Definition Close : M () := modify set_stopped.

(** ** Layers *)

Record BuiltLayer := mkLayer {
  built_engine : nat;
  built_entries : list (segmentEntry P);
  built_blobs : list SegmentBlob;
  capturedOldIDs : list string;
  capturedOldSet : gset string;
  unreleased : list string;
  releaseErr : list (string * formatErr)
}.

(** The owner's persist hook: the stored copy, mapped or declined. *)
Definition LayerPartitionPersist : Type := SegmentBlob → result string (SegmentBlob * bool).

Definition add_partition (b : BuiltLayer) e (blob : SegmentBlob) : BuiltLayer :=
  mkLayer (built_engine b) (built_entries b ++ [e]) (built_blobs b ++ [blob])
    (capturedOldIDs b) (capturedOldSet b) (unreleased b) (releaseErr b).

Definition note_unreleased (b : BuiltLayer) (id : string) (err : list (string * formatErr)) :
    BuiltLayer :=
  mkLayer (built_engine b) (built_entries b) (built_blobs b) (capturedOldIDs b)
    (capturedOldSet b) (unreleased b ++ [id]) (releaseErr b ++ err).

Definition releaseBuiltPartition (b : BuiltLayer) e (blob : SegmentBlob)
    (persist : LayerPartitionPersist) :
    result engErr (BuiltLayer * segmentEntry P * SegmentBlob) :=
  match persist blob with
  | Err msg => Err (ELayer msg)
  | Ok (mapped, false) => Ok (note_unreleased b (sid e) [], e, blob)
  | Ok (mapped, true) =>
      match Decode (Bytes mapped) with
      | Err derr => Ok (note_unreleased b (sid e) [(sid e, derr)], e, blob)
      | Ok seg =>
          let next := mkEntry seg (live e) (members e) (meta e) (record e) 0 (keepAlive mapped) in
          Ok (b, next,
              mkBlob (sid next) (BlobFormat blob) 0 (DocCount (meta next)) (Bytes mapped)
                (Envelope mapped) false (Some (live next)))
      end
  end.

Definition buildLayerPartition (b : BuiltLayer) (w : BucketWork)
    (persist : option LayerPartitionPersist) : M BuiltLayer :=
  if decide (dedupeDocsByID (Docs w) = []) then ret b
  else
    let! seg := build (Docs w) in
    let! e := newEntry seg [] payloadBuilt in
    let! parts := lift_format (blobParts e) in
    let blob := mkBlob (sid e) FormatName 0 (DocCount (meta e)) (snd parts) (fst parts) false
                  (Some (live e)) in
    match persist with
    | None => ret (add_partition b e blob)
    | Some persist =>
        let! r := lift (releaseBuiltPartition b e blob persist) in
        let '(b, e, blob) := r in ret (add_partition b e blob)
    end.

Fixpoint build_partitions (b : BuiltLayer) (work : list BucketWork)
    (persist : option LayerPartitionPersist) : M BuiltLayer :=
  match work with
  | [] => ret b
  | w :: work => let! b := buildLayerPartition b w persist in build_partitions b work persist
  end.

Definition BuildLayerReleasing (work : list BucketWork)
    (persist : option LayerPartitionPersist) : M BuiltLayer :=
  let! eng := get in
  let ids := sid <$> entries (eset eng) in
  build_partitions (mkLayer (engine_id eng) [] [] ids (list_to_set ids) [] []) work persist.

Definition BuildLayer (work : list BucketWork) : M BuiltLayer := BuildLayerReleasing work None.

Definition ReplaceLayer (built : option BuiltLayer) : M (list string * list string) :=
  let! eng := get in
  match built with
  | None => fail (ELayer "nil")
  | Some b =>
      if decide (built_engine b ≠ engine_id eng) then fail (ELayer "different engine")
      else if decide (built_entries b = []) then fail (ELayer "empty")
      else
        let published := sid <$> built_entries b in
        let retired := excluding (capturedOldIDs b) (list_to_set published) in
        modify (λ eng, set_set (withReplacedGroup (eset eng) (capturedOldSet b) (built_entries b)) eng) ;;;
        fire_all (built_entries b) retired ;;;
        ret (published, retired)
  end.
End Swap.
