(* ===== verification/EngineLoad.v ===== *)
(** * Loading and shipping segments
    ([internal/searchengine/distribution.go], [mapping_lifetime.go])

    Export, import with supersession and tombstones, unload and remap.  The release
    of mappings is keyed on garbage collection and is not modelled. *)

From Stdlib Require Import Ascii Floats.SpecFloat.
From S2P Require Import Prelude LiveDocs TopK Bucket Supersession SegmentSet Format Engine.
From S2P Require Import EngineSwap.

Inductive RemapOutcome := RemapRepublished | RemapDeclined | RemapFailed (e : formatErr).

Section Load.
Context {P St Q : Type} `{F : SegmentFormat P St Q}.
Abbreviation M := (M P St).
Implicit Types (eng : engine P St) (e : segmentEntry P) (s : segmentSet P St).

Definition Export eng : list SegmentBlob :=
  omap (λ e, match blobParts e with Ok parts => Some (entry_blob e parts) | Err _ => None end)
    (entries (eset eng)).

Definition ResidentSegmentIDs eng : list string := sid <$> entries (eset eng).

(** ** Import *)

(** Every id is present; an empty cohort proves nothing. *)
Definition subsetPresent (ids : list string) (present : gset string) : bool :=
  match ids with [] => false | _ => forallb (λ id, bool_decide (id ∈ present)) ids end.

(** The ids the honored records name. *)
Definition honored (es : list (segmentEntry P)) : gset string :=
  let present : gset string := list_to_set (sid <$> es) in
  foldr (λ e dead,
      if empty_record (record e) || negb (subsetPresent (Cohort (record e)) present) then dead
      else list_to_set (Superseded (record e)) ∪ dead) ∅ es.

Definition declineSuperseded (es : list (segmentEntry P)) : list (segmentEntry P) :=
  filter (λ e, sid e ∉ honored es) es.

Definition entryFromDecoded (seg : P) (blob : SegmentBlob) (tombstones : list string) :
    M (segmentEntry P) :=
  let! ids := lift_format (IDs seg) in
  let ms := members_of ids in
  let l := newLiveDocsFromTombstones (Z.of_nat (length ids)) tombstones ms in
  let heap := if Release blob || bool_decide (is_Some (keepAlive blob)) then 0%Z
              else Z.of_nat (length (Bytes blob)) in
  let! eng := get in
  modify (set_lives (<[next_live eng := l]> (lives eng)) (S (next_live eng))) ;;;
  ret (mkEntry seg (next_live eng) ms
         (mkMeta (BlobID blob) (BlobFormat blob) (BlobGeneration blob) (Z.of_nat (size ms))
            (distinctDeadCount ms l))
         noRecord heap (keepAlive blob)).

Definition with_record e (rec : supersessionRecord) : segmentEntry P :=
  mkEntry (payload e) (live e) (members e) (meta e) rec (heapPayload e) (pin e).

(** One blob's goroutine. *)
Definition import_blob (tombstones : list string) (blob : SegmentBlob) : M (segmentEntry P) :=
  let! rec := lift (match decodeSupersessionEnvelope (Envelope blob) with
                    | Ok rec => Ok rec | Err err => Err (EEnvelope err) end) in
  let! seg := lift_format (Decode (Bytes blob)) in
  let! e := containCorrupt (BlobID blob) (entryFromDecoded seg blob tombstones) in
  ret (with_record e rec).

(** Every blob is decoded; the first error in batch order is the batch's. *)
Fixpoint import_all (tombstones : list string) (blobs : list SegmentBlob) :
    M (list (segmentEntry P)) :=
  match blobs with
  | [] => ret []
  | blob :: blobs =>
      let! r := attempt (import_blob tombstones blob) in
      let! rest := attempt (import_all tombstones blobs) in
      lift (e <-- r ;; es <-- rest ;; Ok (e :: es))
  end.

(** The entries whose id is neither resident nor earlier in the batch. *)
Fixpoint fresh_entries (present : gset string) (es : list (segmentEntry P)) :
    list (segmentEntry P) :=
  match es with
  | [] => []
  | e :: es => if decide (sid e ∈ present) then fresh_entries present es
               else e :: fresh_entries ({[sid e]} ∪ present) es
  end.

Definition publishImport (es : list (segmentEntry P)) : M () :=
  let! eng := get in
  let old := entries (eset eng) in
  let fresh := fresh_entries (list_to_set (sid <$> old)) es in
  if decide (fresh = []) then ret ()
  else modify (set_set (newSegmentSet (old ++ fresh))) ;;; signalMerge.

Definition Import (blobs : list SegmentBlob) (tombstones : list string) : M () :=
  if decide (blobs = []) then ret ()
  else let! es := import_all tombstones blobs in publishImport (declineSuperseded es).

Definition Unload (ids : list string) : M () :=
  if decide (ids = []) then ret ()
  else modify (λ eng, set_set (newSegmentSet
         (survivors (entries (eset eng)) (list_to_set ids))) eng).

(** ** Remap *)

(** The blobs that decode, and the outcome of every blob so far. *)
Definition remap_decode (blobs : list SegmentBlob) :
    gmap string RemapOutcome * list (SegmentBlob * P) :=
  fold_left (λ '(outcomes, pending) blob,
      match Decode (Bytes blob) with
      | Err err => (<[BlobID blob := RemapFailed err]> outcomes, pending)
      | Ok seg => (<[BlobID blob := RemapDeclined]> outcomes, pending ++ [(blob, seg)])
      end) blobs (∅, []).

(** The last entry of each id, by position. *)
Definition indexByID s : gmap string nat :=
  fold_left (λ m '(i, e), <[sid e := i]> m) (imap pair (entries s)) ∅.

Definition remap_entry e (blob : SegmentBlob) (seg : P) : segmentEntry P :=
  mkEntry seg (live e) (members e) (meta e) (record e) 0 (keepAlive blob).

Definition remap_replacements s (pending : list (SegmentBlob * P)) :
    gmap nat (segmentEntry P) :=
  fold_left (λ m '(blob, seg),
      match indexByID s !! BlobID blob with
      | None => m
      | Some i => match entries s !! i with
                  | Some src => <[i := remap_entry src blob seg]> m
                  | None => m
                  end
      end) pending ∅.

Definition RemapResidentBatch (blobs : list SegmentBlob) : M (gmap string RemapOutcome) :=
  let '(outcomes, pending) := remap_decode blobs in
  let! eng := get in
  let replacements := remap_replacements (eset eng) pending in
  if decide (replacements = ∅) then ret outcomes
  else
    modify (set_set (withReplacedPayloads (eset eng) replacements)) ;;;
    ret (fold_left (λ out '(blob, _),
           if decide (is_Some (indexByID (eset eng) !! BlobID blob))
           then <[BlobID blob := RemapRepublished]> out else out) pending outcomes).

(** The error of the one outcome, nil when it is absent or not a failure. *)
Definition RemapResident (id : string) (blob : SegmentBlob) : M (option formatErr) :=
  let blob := mkBlob id (BlobFormat blob) (BlobGeneration blob) (BlobDocCount blob) (Bytes blob)
                (Envelope blob) (Release blob) (keepAlive blob) in
  let! outcomes := RemapResidentBatch [blob] in
  ret (match outcomes !! id with Some (RemapFailed err) => Some err | _ => None end).
End Load.
