(* ===== verification/EngineProps.v ===== *)
(** * The engine's write and read paths, verified

    The state invariant of the engine and the theorems on sealing, superseding,
    deleting and searching, for any format that keeps the interface's laws; and the
    concrete runs, over the reference format, on which the code does not do what its
    comments say. *)

From Stdlib Require Import Ascii Floats.SpecFloat.
From S2P Require Import Prelude LiveDocs TopK Bucket Supersession SegmentSet Format Engine.
From S2P Require Import EngineSwap EngineLoad.

(** ** Running the monad *)

Lemma bind_Ok {P St A B} (m : M P St A) (f : A → M P St B) eng eng' b :
  bind m f eng = (eng', Ok b) ↔ ∃ a eng1, m eng = (eng1, Ok a) ∧ f a eng1 = (eng', Ok b).
Proof.
  unfold bind. destruct (m eng) as [eng1 [a|err]]; split.
  - intros H. by exists a, eng1.
  - by intros (a' & eng1' & [= <- <-] & H).
  - done.
  - by intros (a' & eng1' & ? & _).
Qed.

(** Split a run that returned into the runs of its parts. *)
Ltac run_split :=
  repeat match goal with
  | H : bind _ _ _ = (_, Ok _) |- _ => apply bind_Ok in H as (? & ? & ? & H)
  | H : get _ = (_, Ok _) |- _ => injection H as <- <-
  | H : modify _ _ = (_, Ok _) |- _ => injection H as <- <-
  | H : ret _ _ = (_, Ok _) |- _ => injection H as <- <-
  | H : fail _ _ = (_, Ok _) |- _ => discriminate H
  end; cbn beta zeta in *.

(** ** Members *)

Definition members_fold (k : nat) (ids : list string) (m : idSet) : idSet :=
  fold_left (λ m '(i, id), <[id := Z.of_nat i]> m) (imap (λ i id, (k + i, id)) ids) m.

Lemma members_of_app ids id :
  members_of (ids ++ [id]) = <[id := Z.of_nat (length ids)]> (members_of ids).
Proof.
  unfold members_of. rewrite imap_app, fold_left_app. simpl. by rewrite Nat.add_0_r.
Qed.

Lemma members_of_lookup ids id o :
  members_of ids !! id = Some o → ∃ i, o = Z.of_nat i ∧ ids !! i = Some id.
Proof.
  induction ids as [|id' ids IH] using rev_ind; [unfold members_of; simpl; by rewrite lookup_empty|].
  rewrite members_of_app. destruct (decide (id' = id)) as [->|Hne].
  - rewrite lookup_insert_eq. intros [= <-]. exists (length ids).
    split; [done|]. by rewrite list_lookup_middle.
  - rewrite lookup_insert_ne by done. intros Ho. destruct (IH Ho) as (i & -> & Hi).
    exists i. split; [done|]. by apply lookup_app_l_Some.
Qed.

Lemma members_of_elem ids id : is_Some (members_of ids !! id) ↔ id ∈ ids.
Proof.
  induction ids as [|id' ids IH] using rev_ind.
  { unfold members_of. simpl. rewrite lookup_empty. split; [by intros [? ?]|].
    intros H. by apply elem_of_nil in H. }
  rewrite members_of_app, elem_of_app, list_elem_of_singleton.
  destruct (decide (id' = id)) as [->|Hne].
  - rewrite lookup_insert_eq. naive_solver.
  - rewrite lookup_insert_ne, IH by done. naive_solver.
Qed.

Section Props.
Context {P St Q : Type} `{F : SegmentFormat P St Q}.
Implicit Types (eng : engine P St) (e : segmentEntry P) (s : segmentSet P St).

(** ** The invariant *)

(** An entry's members are its payload's ids, each with an ordinal of its bitset. *)
Record entry_wf (lv : gmap nat liveDocs) e : Prop := {
  wf_ids : IDs (payload e) = Ok (ids_of (payload e));
  wf_members : members e = members_of (ids_of (payload e));
  wf_live : ∃ l, lv !! live e = Some l ∧ live_wf l ∧
    n_ords l = Z.of_nat (length (ids_of (payload e)));
  wf_count : DocCount (meta e) = Z.of_nat (size (members e))
}.

(** Addresses of bitsets are allocated below [next_live] and never shared by two
    entries of a snapshot. *)
Record eng_inv eng : Prop := {
  ei_set : set_inv (eset eng);
  ei_wf : Forall (entry_wf (lives eng)) (entries (eset eng));
  ei_addr : NoDup (live <$> entries (eset eng));
  ei_fresh : ∀ loc, is_Some (lives eng !! loc) → loc < next_live eng
}.

(** Every live copy of an id is the one the route answers with. *)
Definition single_live eng : Prop :=
  ∀ e id, e ∈ entries (eset eng) → live_in eng e id = true →
    newest (entries (eset eng)) id = Some e.

Lemma wf_ordinal lv e id o :
  entry_wf lv e → members e !! id = Some o → (0 <= o < Z.of_nat (length (ids_of (payload e))))%Z.
Proof.
  intros Hwf. rewrite (wf_members _ _ Hwf). intros (i & -> & Hi)%members_of_lookup.
  apply lookup_lt_Some in Hi. lia.
Qed.

Lemma wf_injective lv e id1 id2 o :
  entry_wf lv e → members e !! id1 = Some o → members e !! id2 = Some o → id1 = id2.
Proof.
  intros Hwf. rewrite (wf_members _ _ Hwf).
  intros (i & -> & Hi)%members_of_lookup (j & Heq & Hj)%members_of_lookup.
  apply Nat2Z.inj in Heq. subst j. congruence.
Qed.

Lemma live_in_held eng e id : live_in eng e id = true → is_Some (members e !! id).
Proof. unfold live_in. by destruct (members e !! id). Qed.

(** ** Setting bits *)

Lemma lives_kill_at loc ord eng : lives (kill_at loc ord eng) = alter (λ l, Kill l ord) loc (lives eng).
Proof. done. Qed.

Lemma entry_wf_alter lv (f : liveDocs → Z → liveDocs) loc (ord : Z) e :
  (∀ l, live_wf l → live_wf (f l ord)) → (∀ l, n_ords (f l ord) = n_ords l) →
  entry_wf lv e → entry_wf (alter (λ l, f l ord) loc lv) e.
Proof.
  intros Hf Hn [Hi Hm (l & Hl & Hwf & Hords) Hc]. split; [done|done| |done].
  destruct (decide (live e = loc)) as [<-|Hne].
  - exists (f l ord). rewrite lookup_alter_eq, Hl. simpl. rewrite Hn. eauto.
  - exists l. by rewrite lookup_alter_ne.
Qed.

Lemma live_of_alter eng (f : liveDocs → Z → liveDocs) loc (ord : Z) n e :
  is_Some (lives eng !! live e) →
  live_of (set_lives (alter (λ l, f l ord) loc (lives eng)) n eng) e
  = if decide (live e = loc) then f (live_of eng e) ord else live_of eng e.
Proof.
  intros [l Hl]. unfold live_of. simpl. case_decide as He.
  - subst loc. by rewrite lookup_alter_eq, Hl.
  - by rewrite lookup_alter_ne.
Qed.

(** Killing a member of one entry: that copy dies, every other bit stays. *)
Lemma live_in_kill eng e e' id o id' :
  entry_wf (lives eng) e → members e' !! id' = Some o →
  (live e = live e' → members e = members e') →
  live_in (kill_at (live e') o eng) e id
  = if decide (live e = live e' ∧ id = id') then false else live_in eng e id.
Proof.
  intros Hwf Ho Hsame. unfold live_in.
  destruct (members e !! id) as [o1|] eqn:Ho1; [|by case_decide].
  pose proof Hwf as [_ _ (l & Hl & Hlwf & Hlen) _].
  assert (live_of (kill_at (live e') o eng) e
          = if decide (live e = live e') then Kill (live_of eng e) o else live_of eng e) as ->.
  { apply (live_of_alter eng Kill). by rewrite Hl. }
  assert (live_of eng e = l) as -> by (unfold live_of; by rewrite Hl).
  pose proof (wf_ordinal _ _ _ _ Hwf Ho1) as Hr1.
  destruct (decide (live e = live e')) as [Hle|Hle].
  2:{ by rewrite decide_False by naive_solver. }
  rewrite Live_Kill by done. rewrite <-(Hsame Hle) in Ho.
  destruct (decide (id = id')) as [->|Hid].
  - rewrite decide_True by done. rewrite Ho1 in Ho. injection Ho as ->. by rewrite Z.eqb_refl, andb_false_r.
  - rewrite decide_False by naive_solver. rewrite (proj2 (Z.eqb_neq o1 o)); [by rewrite andb_true_r|].
    intros ->. apply Hid. by eapply (wf_injective _ e).
Qed.

Lemma live_in_revive eng e e' id o id' :
  entry_wf (lives eng) e → members e' !! id' = Some o →
  (live e = live e' → members e = members e') →
  live_in (revive_at (live e') o eng) e id
  = if decide (live e = live e' ∧ id = id') then true else live_in eng e id.
Proof.
  intros Hwf Ho Hsame. unfold live_in.
  pose proof Hwf as [_ _ (l & Hl & Hlwf & Hlen) _].
  assert (live_of (revive_at (live e') o eng) e
          = if decide (live e = live e') then Revive (live_of eng e) o else live_of eng e) as ->.
  { apply (live_of_alter eng Revive). by rewrite Hl. }
  assert (live_of eng e = l) as -> by (unfold live_of; by rewrite Hl).
  destruct (decide (live e = live e')) as [Hle|Hle].
  2:{ by rewrite decide_False by naive_solver. }
  rewrite <-(Hsame Hle) in Ho. pose proof (wf_ordinal _ _ _ _ Hwf Ho) as Hr.
  destruct (decide (id = id')) as [->|Hid].
  - rewrite decide_True by done. rewrite Ho, Live_Revive by done.
    rewrite Z.eqb_refl, andb_true_r, orb_true_iff. right. apply in_range_spec. lia.
  - rewrite decide_False by naive_solver.
    destruct (members e !! id) as [o1|] eqn:Ho1; [|done]. rewrite Live_Revive by done.
    rewrite (proj2 (Z.eqb_neq o1 o)); [by rewrite andb_false_r, orb_false_r|].
    intros ->. apply Hid. by eapply (wf_injective _ e).
Qed.

Lemma alter_inv eng (f : liveDocs → Z → liveDocs) loc ord :
  (∀ l, live_wf l → live_wf (f l ord)) → (∀ l, n_ords (f l ord) = n_ords l) →
  eng_inv eng →
  eng_inv (set_lives (alter (λ l, f l ord) loc (lives eng)) (next_live eng) eng).
Proof.
  intros Hf Hn [Hs Hwf Ha Hfr]. split; simpl; [done| |done|].
  - eapply Forall_impl; [exact Hwf|]. intros e He. by apply entry_wf_alter.
  - intros loc' Hloc. apply Hfr. by apply lookup_alter_is_Some in Hloc.
Qed.

Lemma kill_at_inv eng loc ord : eng_inv eng → eng_inv (kill_at loc ord eng).
Proof. apply (alter_inv eng Kill); [intros l; apply Kill_wf|intros l; apply n_ords_Kill]. Qed.

Lemma revive_at_inv eng loc ord : eng_inv eng → eng_inv (revive_at loc ord eng).
Proof. apply (alter_inv eng Revive); [intros l; apply Revive_wf|intros l; apply n_ords_Revive]. Qed.

(** ** New entries *)

(** An entry just built over [seg]: every member live, at a fresh address. *)
Record fresh_entry eng (seg : P) e eng' : Prop := {
  fe_lives : lives eng'
    = <[next_live eng := newLiveDocs (Z.of_nat (length (ids_of seg)))]> (lives eng);
  fe_next : next_live eng' = S (next_live eng);
  fe_payload : payload e = seg;
  fe_ids : IDs seg = Ok (ids_of seg);
  fe_live : live e = next_live eng;
  fe_members : members e = members_of (ids_of seg);
  fe_record : record e = noRecord;
  fe_count : DocCount (meta e) = Z.of_nat (size (members e));
  fe_sid : ∃ blob, Encode seg = Ok blob ∧ sid e = contentHash blob
}.

Lemma newEntry_spec seg prov eng eng' e :
  newEntry seg [] prov eng = (eng', Ok e) →
  fresh_entry eng seg e eng' ∧
  eng' = set_lives (lives eng') (next_live eng') eng ∧
  (DocCount (meta e) = Z.of_nat (length (ids_of seg))).
Proof.
  unfold newEntry. intros H. apply bind_Ok in H as (blob & eng1 & Hb & H).
  unfold lift_format in Hb. destruct (Encode seg) as [blob'|] eqn:Henc; [|done].
  injection Hb as <- <-. apply bind_Ok in H as (ids & eng2 & Hi & H).
  unfold lift_format in Hi. destruct (IDs seg) as [ids'|] eqn:Hids; [|done]. injection Hi as <- <-.
  assert (ids_of seg = ids') as Hof by (unfold ids_of; by rewrite Hids).
  rewrite <-Hof in H, Hids. cbv zeta in H. case_decide as Hd; [done|].
  run_split. split; [|split].
  - split; simpl; try done. by exists blob'.
  - done.
  - simpl. destruct (decide (length (ids_of seg) = size (members_of (ids_of seg)))) as [->|]; [done|].
    by destruct Hd.
Qed.

Lemma fresh_wf eng seg e eng' : fresh_entry eng seg e eng' → entry_wf (lives eng') e.
Proof.
  intros Hf. split.
  - rewrite (fe_payload _ _ _ _ Hf). by apply (fe_ids _ _ _ _ Hf).
  - by rewrite (fe_members _ _ _ _ Hf), (fe_payload _ _ _ _ Hf).
  - eexists. rewrite (fe_lives _ _ _ _ Hf), (fe_live _ _ _ _ Hf), lookup_insert_eq.
    split; [done|]. rewrite (fe_payload _ _ _ _ Hf). split; [apply newLiveDocs_wf; lia|done].
  - by apply (fe_count _ _ _ _ Hf).
Qed.

Lemma fresh_live eng seg e eng' id :
  fresh_entry eng seg e eng' → live_in eng' e id = true ↔ id ∈ ids_of seg.
Proof.
  intros Hf. unfold live_in, live_of.
  rewrite (fe_lives _ _ _ _ Hf), (fe_live _ _ _ _ Hf), (fe_members _ _ _ _ Hf), lookup_insert_eq.
  simpl. rewrite <-members_of_elem. destruct (members_of (ids_of seg) !! id) as [o|] eqn:Ho.
  - split; [done|]. intros _. apply members_of_lookup in Ho as (i & -> & Hi).
    apply lookup_lt_Some in Hi. rewrite Live_newLiveDocs by lia. apply in_range_spec. simpl. lia.
  - split; [done|by intros [? ?]].
Qed.

Lemma fresh_old_wf eng seg e eng' e' :
  fresh_entry eng seg e eng' → (∀ loc, is_Some (lives eng !! loc) → loc < next_live eng) →
  entry_wf (lives eng) e' →
  entry_wf (lives eng') e' ∧ live e' ≠ live e ∧ ∀ id, live_in eng' e' id = live_in eng e' id.
Proof.
  intros Hf Hfr [Hi Hm (l & Hl & Hw) Hc]. pose proof (Hfr (live e') ltac:(by rewrite Hl)).
  assert (next_live eng ≠ live e') as Hne by lia.
  split_and!.
  - split; [done|done| |done]. exists l. by rewrite (fe_lives _ _ _ _ Hf), lookup_insert_ne.
  - rewrite (fe_live _ _ _ _ Hf). lia.
  - intros id. unfold live_in, live_of. by rewrite (fe_lives _ _ _ _ Hf), lookup_insert_ne.
Qed.

(** Allocating a bitset disturbs nothing. *)
Lemma fresh_eng_inv eng seg e eng' :
  eng_inv eng → fresh_entry eng seg e eng' → eset eng' = eset eng → eng_inv eng'.
Proof.
  intros [Hs Hwf Ha Hfr] Hf Hset. split; rewrite ?Hset; try done.
  - eapply Forall_impl; [exact Hwf|]. intros e' He'. by eapply fresh_old_wf.
  - intros loc. rewrite (fe_lives _ _ _ _ Hf), (fe_next _ _ _ _ Hf).
    destruct (decide (next_live eng = loc)) as [<-|Hne]; [lia|].
    rewrite lookup_insert_ne by done. intros Hl. apply Hfr in Hl. lia.
Qed.

(** ** Sealing *)

Lemma build_Ok docs eng eng' seg :
  build docs eng = (eng', Ok seg) →
  ∃ rep, Build (dedupeDocsByID docs) = (rep, Ok seg) ∧
    eset eng' = eset eng ∧ active eng' = active eng ∧ lives eng' = lives eng ∧
    next_live eng' = next_live eng ∧ opts eng' = opts eng.
Proof.
  unfold build. destruct (Build (dedupeDocsByID docs)) as [rep r]. intros H.
  apply bind_Ok in H as (u & eng1 & Hr & H). injection Hr as <-. unfold lift_format in H.
  destruct r as [seg'|]; [|done]. injection H as <- <-. exists rep.
  split; [done|]. repeat case_match; done.
Qed.

(** What a successful seal leaves: the batch's entry appended to the set, or dropped
    because its id is resident. *)
Definition sealed eng (docs : list Document) eng' (id : string) (created : bool) : Prop :=
  ∃ rep seg e eng1,
    Build (dedupeDocsByID docs) = (rep, Ok seg) ∧ fresh_entry eng1 seg e eng' ∧
    eset eng1 = eset eng ∧ lives eng1 = lives eng ∧ next_live eng1 = next_live eng ∧
    active eng' = active eng ∧ id = sid e ∧
    (if created : bool
     then eset eng' = withAppended (eset eng) e ∧ id ∉ sid <$> entries (eset eng)
     else eset eng' = eset eng ∧ id ∈ sid <$> entries (eset eng)).

Lemma entryByID_None s x : entryByID s x = None ↔ x ∉ sid <$> entries s.
Proof.
  unfold entryByID. rewrite fmap_None, list_find_None, Forall_forall. split.
  - intros Hall (e & -> & He)%list_elem_of_fmap. by apply (Hall e).
  - intros Hn e He <-. apply Hn. by apply list_elem_of_fmap_2.
Qed.

Lemma seal_spec docs eng eng' id created :
  seal docs eng = (eng', Ok (id, created)) → sealed eng docs eng' id created.
Proof.
  unfold seal. intros H. apply bind_Ok in H as (seg & eng1 & Hb & H).
  apply build_Ok in Hb as (rep & Hb & Hs1 & Ha1 & Hl1 & Hn1 & _).
  apply bind_Ok in H as (e & eng2 & He & H).
  apply newEntry_spec in He as (Hf & Heng2 & _).
  assert (eset eng2 = eset eng1 ∧ active eng2 = active eng1) as [Hs2 Ha2] by (by rewrite Heng2).
  apply bind_Ok in H as (cr & eng3 & Hp & H). unfold signalMerge in H. run_split.
  unfold publishAppend in Hp. run_split.
  destruct (entryByID (eset eng2) (sid e)) as [e0|] eqn:Hres.
  - injection Hp as <- <-. subst created. exists rep, seg, e, eng1. split_and!; try (simpl; congruence).
    + destruct Hf. by split.
    + rewrite <-Hs1, <-Hs2. apply entryByID_elem in Hres as [Hin Hid]. rewrite <-Hid. by apply list_elem_of_fmap_2.
  - run_split. subst. exists rep, seg, e, eng1. split_and!; try (simpl; congruence).
    + destruct Hf. by split.
    + rewrite <-Hs1, <-Hs2. by apply entryByID_None.
Qed.

Lemma withAppended_entries s e : entries (withAppended s e) = entries s ++ [e].
Proof. unfold withAppended. by case_decide. Qed.

Lemma seal_inv eng docs eng' id created :
  eng_inv eng → sealed eng docs eng' id created → eng_inv eng'.
Proof.
  intros Hinv (rep & seg & e & eng1 & Hb & Hf & Hs1 & Hl1 & Hn1 & Ha & -> & Hset).
  assert (eng_inv eng1) as Hinv1.
  { destruct Hinv as [H1 H2 H3 H4]. split; rewrite ?Hs1, ?Hl1, ?Hn1; done. }
  assert (∀ loc, is_Some (lives eng' !! loc) → loc < next_live eng') as Hfr.
  { intros loc. rewrite (fe_lives _ _ _ _ Hf), (fe_next _ _ _ _ Hf).
    destruct (decide (next_live eng1 = loc)) as [<-|Hne]; [lia|].
    rewrite lookup_insert_ne by done. intros Hl. apply (ei_fresh _ Hinv1) in Hl. lia. }
  destruct created.
  2:{ destruct Hset as [Hset _]. rewrite <-Hs1 in Hset. by eapply fresh_eng_inv. }
  destruct Hset as [Hset Hnew]. rewrite <-Hs1 in Hset, Hnew.
  split; rewrite ?Hset, ?withAppended_entries; [| | |done].
  - apply withAppended_inv; [by apply ei_set|done].
  - apply Forall_app. split; [|constructor; [by eapply fresh_wf|done]].
    eapply Forall_impl; [apply (ei_wf _ Hinv1)|]. intros e' He'.
    eapply fresh_old_wf; [done|apply (ei_fresh _ Hinv1)|done].
  - rewrite fmap_app, NoDup_app. split_and!; [by apply ei_addr| |apply NoDup_singleton].
    intros loc Hloc Hloc'%list_elem_of_singleton. subst loc.
    apply list_elem_of_fmap in Hloc as (e' & Heq & He').
    pose proof (ei_wf _ Hinv1) as Hwf. rewrite Forall_forall in Hwf.
    destruct (fresh_old_wf _ _ _ _ e' Hf (ei_fresh _ Hinv1) (Hwf e' He')) as (_ & Hne & _).
    by rewrite Heq in Hne.
Qed.

(** Liveness after a seal: the fresh segment is all live, the rest as before. *)
Lemma sealed_live eng docs eng' id :
  eng_inv eng → sealed eng docs eng' id true →
  ∃ rep seg e, Build (dedupeDocsByID docs) = (rep, Ok seg) ∧
    entries (eset eng') = entries (eset eng) ++ [e] ∧ sid e = id ∧
    (id ∉ sid <$> entries (eset eng)) ∧ members e = members_of (ids_of seg) ∧
    (∀ i, live_in eng' e i = true ↔ i ∈ ids_of seg) ∧
    (∀ e' i, e' ∈ entries (eset eng) → live_in eng' e' i = live_in eng e' i).
Proof.
  intros Hinv (rep & seg & e & eng1 & Hb & Hf & Hs1 & Hl1 & Hn1 & Ha & -> & Hset & Hnew).
  exists rep, seg, e. split_and!; try done.
  - by rewrite Hset, withAppended_entries.
  - apply (fe_members _ _ _ _ Hf).
  - intros i. by eapply fresh_live.
  - intros e' i He'. pose proof (ei_wf _ Hinv) as Hwf. rewrite Forall_forall in Hwf.
    rewrite <-Hl1 in Hwf.
    assert (∀ loc, is_Some (lives eng1 !! loc) → loc < next_live eng1) as Hfr
      by (rewrite Hl1, Hn1; apply (ei_fresh _ Hinv)).
    destruct (fresh_old_wf _ _ _ _ e' Hf Hfr (Hwf e' He')) as (_ & _ & ->).
    unfold live_in, live_of. by rewrite Hl1.
Qed.

(** ** Folds of kills and revives *)

(** Two routed entries with the same bitset are the same resident entry. *)
Definition resident_key eng e : Prop := seg_key e ∈ seg_key <$> entries (eset eng).

Lemma same_bits_members eng e e' :
  eng_inv eng → e ∈ entries (eset eng) → resident_key eng e' → live e = live e' →
  members e = members e'.
Proof.
  intros Hinv He Hk Hl. apply list_elem_of_fmap in Hk as (e0 & Hk & He0).
  injection Hk as Hs Hm Hl'.
  assert (e = e0) as ->; [|done].
  apply (NoDup_fmap_elem live (entries (eset eng))); [by apply (ei_addr eng)|done|done|congruence].
Qed.

Lemma entryOf_resident eng id e :
  eng_inv eng → entryOf (eset eng) id = Some e →
  resident_key eng e ∧ seg_key <$> newest (entries (eset eng)) id = Some (seg_key e).
Proof.
  intros Hinv He. pose proof (entryOf_newest (eset eng) id (ei_set eng Hinv)) as Hn.
  rewrite He in Hn. simpl in Hn. split; [|done].
  destruct (newest (entries (eset eng)) id) as [h|] eqn:Hh; [|done]. injection Hn as H1 H2 H3.
  apply newest_Some in Hh as [Hin _]. apply list_elem_of_fmap. exists h. split; [|done].
  unfold seg_key. congruence.
Qed.

Lemma wf_of eng e : eng_inv eng → e ∈ entries (eset eng) → entry_wf (lives eng) e.
Proof. intros Hinv. apply (proj1 (Forall_forall _ _) (ei_wf eng Hinv)). Qed.

Lemma kill_victims_spec x vs eng e id :
  eng_inv eng → e ∈ entries (eset eng) →
  (∀ v seg ord, (v, seg, ord) ∈ vs → resident_key eng v ∧ ∃ i, members v !! i = Some ord) →
  eng_inv (kill_victims x vs eng) ∧ eset (kill_victims x vs eng) = eset eng ∧
  (live_in (kill_victims x vs eng) e id = true ↔
   live_in eng e id = true ∧
   ¬ ∃ v seg ord, (v, seg, ord) ∈ vs ∧ seg ≠ x ∧ live e = live v ∧ members v !! id = Some ord).
Proof.
  unfold kill_victims. revert eng. induction vs as [|[[v seg] ord] vs IH]; intros eng Hinv He Hvs.
  { simpl. split_and!; [done|done|]. split; [|naive_solver].
    intros H. split; [done|]. intros (? & ? & ? & Hin & _). by apply elem_of_nil in Hin. }
  cbn [fold_left]. destruct (Hvs v seg ord ltac:(by left)) as [Hk [i Hi]].
  case_decide as Hx.
  - destruct (IH eng Hinv He) as (H1 & H2 & H3).
    { intros v' seg' ord' Hin. apply (Hvs v' seg' ord'). by right. }
    split_and!; [done|done|]. rewrite H3.
    assert ((∃ v' seg' ord', (v', seg', ord') ∈ (v, seg, ord) :: vs ∧ seg' ≠ x ∧
              live e = live v' ∧ members v' !! id = Some ord') ↔
            (∃ v' seg' ord', (v', seg', ord') ∈ vs ∧ seg' ≠ x ∧
              live e = live v' ∧ members v' !! id = Some ord')) as ->; [|done].
    split; intros (v' & seg' & ord' & Hin & Hne & Hr); exists v', seg', ord';
      (split; [|done]); [|by right].
    apply elem_of_cons in Hin as [[= -> -> ->]|Hin]; [done|done].
  - assert (live_in (kill_at (live v) ord eng) e id
            = if decide (live e = live v ∧ id = i) then false else live_in eng e id) as Hkill.
    { apply live_in_kill; [by apply wf_of|done|by apply (same_bits_members eng)]. }
    destruct (IH (kill_at (live v) ord eng)) as (H1 & H2 & H3).
    { by apply kill_at_inv. } { done. }
    { intros v' seg' ord' Hin. apply (Hvs v' seg' ord'). by right. }
    split_and!; [done|done|]. rewrite H3, Hkill.
    assert (live_in eng e id = true → live e = live v →
            (id = i ↔ members v !! id = Some ord)) as Hid.
    { intros Hlive Hl. split; [by intros ->|]. intros Ho.
      pose proof (wf_of eng e Hinv He) as Hwf.
      pose proof (same_bits_members eng e v Hinv He Hk Hl) as Hm. rewrite <-Hm in Ho, Hi.
      by eapply wf_injective. }
    split.
    + case_decide as Hd; [by intros [? _]|]. intros [Hlive Hno]. split; [done|].
      intros (v' & seg' & ord' & Hin & Hne & Hl & Hm).
      apply elem_of_cons in Hin as [[= -> -> ->]|Hin]; [|apply Hno; by exists v', seg', ord'].
      apply Hd. split; [done|]. by apply Hid.
    + intros [Hlive Hno]. split.
      * case_decide as Hd; [|done]. exfalso. destruct Hd as [Hl ->]. apply Hno.
        exists v, seg, ord. split_and!; [by left|done|done|done].
      * intros (v' & seg' & ord' & Hin & Hr). apply Hno. exists v', seg', ord'.
        split; [by right|done].
Qed.

Lemma revive_docs_spec a docs eng e id :
  eng_inv eng → e ∈ entries (eset eng) → resident_key eng a →
  eng_inv (revive_docs a docs eng) ∧ eset (revive_docs a docs eng) = eset eng ∧
  (live_in (revive_docs a docs eng) e id = true ↔
   live_in eng e id = true ∨
   (live e = live a ∧ id ∈ DocID <$> docs ∧ is_Some (members a !! id))).
Proof.
  unfold revive_docs. intros Hinv He Hk. revert eng Hinv He Hk.
  induction docs as [|d docs IH]; intros eng Hinv He Hk.
  { simpl. split_and!; [done|done|]. split; [by left|]. intros [|(_ & Hin & _)]; [done|].
    by apply elem_of_nil in Hin. }
  cbn [fold_left]. rewrite fmap_cons.
  destruct (members a !! DocID d) as [o|] eqn:Ho.
  - assert (live_in (revive_at (live a) o eng) e id
            = if decide (live e = live a ∧ id = DocID d) then true else live_in eng e id) as Hrev.
    { apply live_in_revive; [by apply wf_of|done|by apply (same_bits_members eng)]. }
    destruct (IH (revive_at (live a) o eng)) as (H1 & H2 & H3); [by apply revive_at_inv|done|done|].
    split_and!; [done|done|]. rewrite H3, Hrev. clear H3.
    case_decide as Hd.
    + destruct Hd as [Hl ->]. split; [|by left]. intros _. right.
      split_and!; [done|by left|by rewrite Ho].
    + rewrite elem_of_cons. split; [naive_solver|]. intros [|(Hl & [->|Hin] & Hm)]; [by left| |].
      * by destruct Hd.
      * by right.
  - destruct (IH eng Hinv He Hk) as (H1 & H2 & H3). split_and!; [done|done|]. rewrite H3.
    rewrite elem_of_cons. split; [naive_solver|]. intros [|(Hl & [->|Hin] & Hm)]; [by left| |].
    + rewrite Ho in Hm. by destruct Hm.
    + by right.
Qed.

Lemma victims_elem s docs v seg ord :
  (v, seg, ord) ∈ victims_of s docs ↔
  ∃ d, d ∈ docs ∧ entryOf s (DocID d) = Some v ∧ members v !! DocID d = Some ord ∧ seg = sid v.
Proof.
  unfold victims_of. rewrite list_elem_of_omap. split.
  - intros (d & Hd & Hv). destruct (entryOf s (DocID d)) as [e|] eqn:He; [|done]. simpl in Hv.
    destruct (members e !! DocID d) as [o|] eqn:Ho; [|done]. injection Hv as <- <- <-.
    exists d. by split_and!.
  - intros (d & Hd & He & Ho & ->). exists d. split; [done|]. by rewrite He; simpl; rewrite Ho.
Qed.

Lemma set_active_inv eng a : eng_inv eng → eng_inv (set_active a eng).
Proof. by intros [H1 H2 H3 H4]; split. Qed.

(** What a superseding seal does, from the state [engs] in which its segment [e] was
    appended to [eng]'s entries. *)
Section Superseding.
Context (eng engs : engine P St) (docs : list Document) (e : segmentEntry P).
Context (Hinv : eng_inv eng) (Hinvs : eng_inv engs) (Hsingle : single_live eng).
Context (Hes : entries (eset engs) = entries (eset eng) ++ [e]).
Context (Hnew : sid e ∉ sid <$> entries (eset eng)).
Let vs := victims_of (eset eng) docs.
Let eng' := kill_victims (sid e) vs (revive_docs e docs engs).

Lemma sup_elem e' : e' ∈ entries (eset engs) ↔ e' ∈ entries (eset eng) ∨ e' = e.
Proof. by rewrite Hes, elem_of_app, list_elem_of_singleton. Qed.

Lemma sup_victim v seg ord :
  (v, seg, ord) ∈ vs → resident_key eng v ∧ resident_key engs v ∧ ∃ i, members v !! i = Some ord.
Proof.
  intros Hv. apply victims_elem in Hv as (d & _ & Hv & Ho & _).
  apply entryOf_resident in Hv as [Hk _]; [|done]. split_and!; [done| |by exists (DocID d)].
  unfold resident_key in *. rewrite Hes, fmap_app. apply elem_of_app. by left.
Qed.

(** A bitset names one entry, so an older entry never shares the new one's. *)
Lemma sup_same_live e' : e' ∈ entries (eset engs) → live e' = live e → e' = e.
Proof.
  intros He' Hl. apply (NoDup_fmap_elem live (entries (eset engs))); [by apply (ei_addr engs)|done| |done].
  apply sup_elem. by right.
Qed.

Lemma sup_live e' i :
  e' ∈ entries (eset engs) →
  eng_inv eng' ∧ eset eng' = eset engs ∧
  (live_in eng' e' i = true ↔
   (live_in engs e' i = true ∨ (e' = e ∧ i ∈ DocID <$> docs ∧ is_Some (members e !! i))) ∧
   ¬ ∃ v seg ord, (v, seg, ord) ∈ vs ∧ seg ≠ sid e ∧ live e' = live v ∧ members v !! i = Some ord).
Proof.
  intros He'.
  assert (resident_key engs e) as Hke by (apply list_elem_of_fmap_2, sup_elem; by right).
  destruct (revive_docs_spec e docs engs e' i Hinvs He' Hke) as (Hinvr & Hsetr & Hliver).
  destruct (kill_victims_spec (sid e) vs (revive_docs e docs engs) e' i) as (H1 & H2 & H3).
  - done.
  - by rewrite Hsetr.
  - intros v seg ord Hv. destruct (sup_victim v seg ord Hv) as (_ & Hk & Ho).
    split; [|done]. unfold resident_key. by rewrite Hsetr.
  - split_and!; [done|by rewrite <-Hsetr|]. unfold eng'. rewrite H3, Hliver.
    split; intros [[Hl|(He & Hr)] Hn]; (split; [|done]); [by left| |by left|].
    + right. split; [by apply sup_same_live|done].
    + right. subst e'. done.
Qed.

(** The new segment keeps every copy: no victim has its bitset. *)
Lemma sup_new_live i :
  live_in eng' e i = true ↔
  live_in engs e i = true ∨ (i ∈ DocID <$> docs ∧ is_Some (members e !! i)).
Proof.
  destruct (sup_live e i) as (_ & _ & ->); [apply sup_elem; by right|].
  split; [naive_solver|]. intros Hl. split; [naive_solver|].
  intros (v & seg & ord & Hv & _ & Hlv & _). destruct (sup_victim v seg ord Hv) as (Hk & _).
  apply list_elem_of_fmap in Hk as (e0 & Hk0 & He0). injection Hk0 as _ _ Hl0.
  assert (e0 = e) as ->; [apply sup_same_live; [apply sup_elem; by left|congruence]|].
  apply Hnew. by apply list_elem_of_fmap_2.
Qed.

(** An older copy dies exactly when its id is in the batch. *)
Lemma sup_old_live e' i :
  e' ∈ entries (eset eng) → live_in engs e' i = live_in eng e' i →
  live_in eng' e' i = true ↔ live_in eng e' i = true ∧ i ∉ DocID <$> docs.
Proof.
  intros He' Hsame. destruct (sup_live e' i) as (_ & _ & ->); [apply sup_elem; by left|].
  rewrite Hsame.
  assert (e' ≠ e) as Hne by (intros ->; apply Hnew; by apply list_elem_of_fmap_2).
  split.
  - intros [[Hl|[? _]] Hno]; [|done]. split; [done|]. intros Hdoc. apply Hno.
    apply list_elem_of_fmap in Hdoc as (d & -> & Hd).
    pose proof (entryOf_newest (eset eng) (DocID d) (ei_set eng Hinv)) as Hof.
    rewrite (Hsingle e' _ He' Hl) in Hof.
    destruct (entryOf (eset eng) (DocID d)) as [v|] eqn:Hv; [|done].
    injection Hof as Hs0 Hm0 Hl0. destruct (live_in_held _ _ _ Hl) as [o Ho].
    exists v, (sid v), o. split_and!; [|rewrite Hs0|done|by rewrite Hm0].
    + apply victims_elem. exists d. split_and!; [done|done|by rewrite Hm0|done].
    + intros Heq. apply Hnew. rewrite <-Heq. by apply list_elem_of_fmap_2.
  - intros [Hl Hdoc]. split; [by left|]. intros (v & seg0 & ord & Hv & _ & Hlv & Ho).
    apply victims_elem in Hv as (d & Hd & Hof & Ho' & _).
    apply entryOf_resident in Hof as [Hk _]; [|done].
    apply Hdoc. pose proof (same_bits_members eng e' v Hinv He' Hk Hlv) as Hmv.
    rewrite <-Hmv in Ho, Ho'.
    rewrite (wf_injective _ e' i (DocID d) ord (wf_of eng e' Hinv He') Ho Ho').
    by apply list_elem_of_fmap_2.
Qed.
End Superseding.

(** The shared body of [AddSealAndSupersede] after a seal that published. *)
Lemma supersede_spec eng docs engs id rep seg :
  eng_inv eng → single_live eng → sealed (set_active [] eng) docs engs id true →
  Build (dedupeDocsByID docs) = (rep, Ok seg) →
  ∃ e, entryByID (eset engs) id = Some e ∧
    let eng' := kill_victims id (victims_of (eset eng) docs) (revive_docs e docs engs) in
    eng_inv eng' ∧ eset eng' = eset engs ∧
    entries (eset eng') = entries (eset eng) ++ [e] ∧ sid e = id ∧
    IDs seg = Ok (ids_of seg) ∧
    (∀ i, is_Some (members e !! i) ↔ i ∈ ids_of seg) ∧
    (∀ i, live_in eng' e i = true ↔ i ∈ ids_of seg) ∧
    (∀ e' i, e' ∈ entries (eset eng) →
       live_in eng' e' i = true ↔ live_in eng e' i = true ∧ i ∉ DocID <$> docs).
Proof.
  intros Hinv Hsingle Hsealed Hb.
  assert (IDs seg = Ok (ids_of seg)) as Hids.
  { destruct Hsealed as (rep' & seg' & e & eng1 & Hb' & Hf & _). rewrite Hb in Hb'.
    injection Hb' as _ <-. by eapply fe_ids. }
  pose proof (seal_inv _ _ _ _ _ (set_active_inv eng [] Hinv) Hsealed) as Hinvs.
  destruct (sealed_live _ _ _ _ (set_active_inv eng [] Hinv) Hsealed)
    as (rep' & seg' & e & Hb' & Hes & Hsid & Hnew & Hm & Hle & Hold).
  rewrite Hb in Hb'. injection Hb' as <- <-. simpl in Hes, Hnew, Hold. subst id.
  assert (e ∈ entries (eset engs)) as Hein by (apply (sup_elem eng engs e Hes); by right).
  destruct (sup_live eng engs docs e Hinv Hinvs Hes e "" Hein) as (H1 & H2 & _).
  exists e. split; [by apply entryByID_Some; [apply ei_set|]|]. cbv zeta.
  split_and!; [done|done|by rewrite H2|done|done| | |].
  - intros i. by rewrite Hm, members_of_elem.
  - intros i. rewrite (sup_new_live eng engs docs e Hinv Hinvs Hes Hnew), Hle, Hm, members_of_elem. tauto.
  - intros e' i He'. apply (sup_old_live eng engs docs e Hinv Hinvs Hsingle Hes Hnew); [done|].
    by rewrite Hold.
Qed.

(** The ids a build of a batch indexes: of the documents it keeps, one per id, those that
    can be indexed. *)
Definition indexed_ids `{!BuildLaws P St Q} (docs : list Document) : list string :=
  DocID <$> filter (λ d, indexable (P:=P) (St:=St) (Q:=Q) d = true) (dedupeDocsByID docs).

Lemma indexed_ids_sub `{!BuildLaws P St Q} docs i : i ∈ indexed_ids docs → i ∈ DocID <$> docs.
Proof.
  intros (d & -> & [_ Hd]%list_elem_of_filter)%list_elem_of_fmap. apply dedupe_ids.
  by apply list_elem_of_fmap_2.
Qed.

Lemma Build_ids `{!BuildLaws P St Q} docs seg :
  Build (dedupeDocsByID docs) = (∅, Ok seg) → IDs seg = Ok (ids_of seg) →
  ∀ i, i ∈ ids_of seg ↔ i ∈ indexed_ids docs.
Proof.
  intros Hb Hids i. unfold indexed_ids. rewrite list_elem_of_fmap. split.
  - intros Hi. destruct (Build_sound _ _ _ _ Hb Hi) as (d & Hd & Hx & <-).
    exists d. split; [done|]. by apply list_elem_of_filter.
  - intros (d & -> & [Hx Hd]%list_elem_of_filter). by eapply Build_complete.
Qed.
End Props.

Arguments indexed_ids P St Q {F _} docs.
