(* ===== verification/EngineWrites.v ===== *)
(** * Writes, deletes and searches of the engine, verified

    The theorems on superseding, deleting and searching for any format that keeps the
    interface's laws, and the concrete runs over the reference format on which the
    code does not do what its comments say. *)

From Stdlib Require Import Ascii Floats.SpecFloat.
From S2P Require Import Prelude LiveDocs TopK Bucket Supersession SegmentSet Bm25Search Bm25Found Bm25Format Format Engine.
From S2P Require Import EngineSwap EngineLoad EngineProps.

Section Writes.
Context {P St Q : Type} `{F : SegmentFormat P St Q}.
Implicit Types (eng : engine P St) (e : segmentEntry P) (s : segmentSet P St).

(** A run of [AddSealAndSupersede] that created its segment. *)
Lemma supersede_run eng docs eng' id :
  docs ≠ [] → active eng = [] → AddSealAndSupersede docs eng = (eng', Ok (mkSealResult id true)) →
  ∃ engs, sealed (set_active [] eng) docs engs id true ∧
    ∀ e, entryByID (eset engs) id = Some e →
      eng' = kill_victims id (victims_of (eset eng) docs) (revive_docs e docs engs).
Proof.
  unfold AddSealAndSupersede. intros Hd Ha. rewrite decide_False by done. intros H. run_split.
  match goal with H : seal _ _ = (?e, Ok ?p) |- _ => destruct p as [x b]; rename e into engs;
    rewrite Ha in H; apply seal_spec in H; rename H into Hs end.
  exists engs. cbn [fst snd] in *.
  destruct (entryByID (eset engs) x) as [e|] eqn:He.
  - run_split. split; [by subst|]. intros e0 He0. subst. congruence.
  - run_split. split; [by subst|]. intros e0 He0. subst. congruence.
Qed.

Lemma newest_snoc es e id :
  newest (es ++ [e]) id = if decide (is_Some (members e !! id)) then Some e else newest es id.
Proof.
  rewrite newest_app. simpl. destruct (members e !! id) as [o|] eqn:Ho.
  - by rewrite decide_True.
  - rewrite decide_False by (intros [? ?]; done). done.
Qed.

(** An id is live in the index: some resident entry holds a live copy. *)
Definition searchable eng (id : string) : Prop :=
  ∃ e, e ∈ entries (eset eng) ∧ live_in eng e id = true.

Lemma supersede_created `{!BuildLaws P St Q} eng eng' docs id :
  eng_inv eng → single_live eng → docs ≠ [] → active eng = [] →
  fst (Build (dedupeDocsByID docs)) = ∅ →
  AddSealAndSupersede docs eng = (eng', Ok (mkSealResult id true)) →
  ∃ e, eng_inv eng' ∧ entries (eset eng') = entries (eset eng) ++ [e] ∧ sid e = id ∧
    (∀ i, is_Some (members e !! i) ↔ i ∈ indexed_ids P St Q docs) ∧
    (∀ i, live_in eng' e i = true ↔ i ∈ indexed_ids P St Q docs) ∧
    (∀ e' i, e' ∈ entries (eset eng) →
       live_in eng' e' i = true ↔ live_in eng e' i = true ∧ i ∉ DocID <$> docs).
Proof.
  intros Hinv Hsingle Hd Ha Hrep Hrun.
  destruct (supersede_run _ _ _ _ Hd Ha Hrun) as (engs & Hs & Heng').
  pose proof Hs as (rep & seg & _ & _ & Hb & _). rewrite Hb in Hrep. simpl in Hrep. subst rep.
  destruct (supersede_spec eng docs engs id ∅ seg Hinv Hsingle Hs Hb) as (e & He & Hspec).
  rewrite <-(Heng' e He) in Hspec. destruct Hspec as (H1 & _ & H3 & H4 & Hids & Hm & Hl & Hold).
  exists e. pose proof (Build_ids docs seg Hb Hids) as Hi. naive_solver.
Qed.

Lemma supersede_single_live `{!BuildLaws P St Q} eng eng' docs id :
  eng_inv eng → single_live eng → docs ≠ [] → active eng = [] →
  fst (Build (dedupeDocsByID docs)) = ∅ →
  AddSealAndSupersede docs eng = (eng', Ok (mkSealResult id true)) →
  eng_inv eng' ∧ single_live eng'.
Proof.
  intros Hinv Hsingle Hd Ha Hrep Hrun.
  destruct (supersede_created _ _ _ _ Hinv Hsingle Hd Ha Hrep Hrun)
    as (e & Hinv' & Hes & _ & Hm & Hle & Hold).
  split; [done|]. intros e' i. rewrite Hes, newest_snoc, elem_of_app, list_elem_of_singleton.
  intros [He'| ->] Hl.
  - apply Hold in Hl as [Hl Hi]; [|done]. rewrite decide_False by (rewrite Hm; by intros ?%indexed_ids_sub). by apply Hsingle.
  - apply Hle, Hm in Hl. by rewrite decide_True.
Qed.

Lemma New_inv id o : eng_inv (New (P:=P) (St:=St) id o) ∧ single_live (New (P:=P) (St:=St) id o).
Proof.
  split; [|by intros e i He%elem_of_nil]. split; simpl.
  - apply newSegmentSet_inv. constructor.
  - constructor.
  - constructor.
  - intros loc. rewrite lookup_empty. by intros [? ?].
Qed.

(** ** Deleting *)

Lemma Delete_routed eng id e :
  eng_inv eng → entryOf (eset eng) id = Some e →
  ∃ ord, members e !! id = Some ord ∧
    Delete id eng = (set_signal (kill_at (live e) ord eng), Ok ()) ∧
    ∀ e' i, e' ∈ entries (eset eng) →
      live_in (kill_at (live e) ord eng) e' i
      = if decide (live e' = live e ∧ i = id) then false else live_in eng e' i.
Proof.
  intros Hinv He. destruct (entryOf_resident eng id e Hinv He) as [Hk Hn].
  destruct (newest (entries (eset eng)) id) as [h|] eqn:Hh; [|done]. injection Hn as _ Hm _.
  apply newest_Some in Hh as [_ [ord Ho]]. rewrite Hm in Ho. exists ord. split; [done|]. split.
  - unfold Delete, bind, get, modify, signalMerge. by rewrite He, Ho.
  - intros e' i He'. apply live_in_kill; [by apply wf_of|done|by apply (same_bits_members eng)].
Qed.

Lemma entryOf_None eng id :
  eng_inv eng → entryOf (eset eng) id = None → ∀ e, e ∈ entries (eset eng) → members e !! id = None.
Proof.
  intros Hinv He. apply newest_None.
  pose proof (entryOf_newest (eset eng) id (ei_set eng Hinv)) as Hn. rewrite He in Hn.
  by destruct (newest (entries (eset eng)) id).
Qed.

(** ** Searching *)

(** What one segment contributes: its hits, none when it raises a corruption. *)
Definition entry_hits eng (q : Q) (k : Z) (accepts : string → bool) e : list Hit :=
  match SearchSegment (payload e) q (stats (eset eng)) k (search_accept eng e accepts) with
  | Ok hits => hits
  | Err _ => []
  end.

(** The segment a raised corruption names: the one searched when it names none. *)
Definition corrupt_id eng (q : Q) (k : Z) (accepts : string → bool) e : option string :=
  match SearchSegment (payload e) q (stats (eset eng)) k (search_accept eng e accepts) with
  | Err (Corrupt true cid _) => Some (if decide (cid = "") then sid e else cid)
  | _ => None
  end.

(** No segment's search panics but with a corruption, which is contained. *)
Definition only_corruptions eng (q : Q) (k : Z) (accepts : string → bool) : Prop :=
  ∀ e err, e ∈ entries (eset eng) →
    SearchSegment (payload e) q (stats (eset eng)) k (search_accept eng e accepts) = Err err →
    raised_corruption err = true.

Lemma reportCorrupt_spec id detail eng :
  id ≠ "" → ∃ eng', reportCorrupt id detail eng = (eng', Ok ()) ∧ lives eng' = lives eng ∧
    entries (eset eng') = filter (λ e, sid e ≠ id) (entries (eset eng)).
Proof.
  intros Hid. unfold reportCorrupt. rewrite decide_False by done.
  unfold WithdrawSegment, bind, get, modify, ret.
  destruct (entryByID (eset eng) id) as [e0|] eqn:He.
  - eexists. split; [done|]. simpl. case_match; done.
  - eexists. split; [done|]. apply entryByID_None in He.
    assert (filter (λ e, sid e ≠ id) (entries (eset eng)) = entries (eset eng)) as ->.
    { apply list_filter_every. apply Forall_forall. intros e Hin Heq. apply He. rewrite <-Heq.
      by apply list_elem_of_fmap_2. }
    case_match; done.
Qed.

Lemma filter_filter_ids (es : list (segmentEntry P)) x (ids : list string) :
  filter (λ e, sid e ∉ ids) (filter (λ e, sid e ≠ x) es)
  = filter (λ e, sid e ∉ x :: ids) es.
Proof.
  induction es as [|e es IH]; [done|]. rewrite !filter_cons.
  destruct (decide (sid e ≠ x)) as [Hx|Hx].
  - rewrite filter_cons. rewrite IH.
    destruct (decide (sid e ∉ ids)) as [Hi|Hi].
    + rewrite decide_True; [done|]. rewrite elem_of_cons. naive_solver.
    + rewrite decide_False; [done|]. rewrite elem_of_cons. intros Hn. apply Hi. naive_solver.
  - rewrite IH, decide_False; [done|]. rewrite elem_of_cons. intros Hn. apply Hn. left.
    by destruct (decide (sid e = x)).
Qed.

Lemma mapM_search eng eng1 q k accepts es :
  lives eng1 = lives eng → (∀ e, e ∈ es → sid e ≠ "") →
  (∀ e err, e ∈ es →
    SearchSegment (payload e) q (stats (eset eng)) k (search_accept eng e accepts) = Err err →
    raised_corruption err = true) →
  ∃ eng', mapM_entries (search_entry (eset eng) q k accepts) es eng1
          = (eng', Ok (entry_hits eng q k accepts <$> es)) ∧
    lives eng' = lives eng ∧
    entries (eset eng')
    = filter (λ e, sid e ∉ omap (corrupt_id eng q k accepts) es) (entries (eset eng1)).
Proof.
  revert eng1. induction es as [|e es IH]; intros eng1 Hl Hne Hc.
  { exists eng1. split_and!; [done|done|]. symmetry. apply list_filter_every, Forall_forall.
    intros x _ Hin. by apply elem_of_nil in Hin. }
  assert (search_accept eng1 e accepts = search_accept eng e accepts) as Hacc
    by (unfold search_accept, live_in, live_of; by rewrite Hl).
  cbn [mapM_entries]. unfold bind at 1. unfold search_entry at 1. unfold bind at 1, get at 1.
  rewrite Hacc, fmap_cons.
  destruct (SearchSegment (payload e) q (stats (eset eng)) k (search_accept eng e accepts))
    as [hits|err] eqn:Hs.
  - assert (omap (corrupt_id eng q k accepts) (e :: es) = omap (corrupt_id eng q k accepts) es)
      as -> by (cbn [omap list_omap]; unfold corrupt_id at 1; by rewrite Hs).
    assert (entry_hits eng q k accepts e = hits) as -> by (unfold entry_hits; by rewrite Hs).
    destruct (IH eng1 Hl) as (eng' & Hrun & Hl' & Hes'); [intros; apply Hne; by right|by intros; eapply Hc; [right|]|].
    exists eng'. unfold ret at 1, bind at 1. by rewrite Hrun.
  - pose proof (Hc e err ltac:(by left) Hs) as Hr. destruct err as [[] cid detail| |]; [|done..].
    set (x := if decide (cid = "") then sid e else cid).
    assert (omap (corrupt_id eng q k accepts) (e :: es)
            = x :: omap (corrupt_id eng q k accepts) es)
      as -> by (cbn [omap list_omap]; unfold corrupt_id at 1; by rewrite Hs).
    assert (entry_hits eng q k accepts e = []) as -> by (unfold entry_hits; by rewrite Hs).
    assert (x ≠ "") as Hx by (unfold x; case_decide; [apply Hne; by left|done]).
    destruct (reportCorrupt_spec x detail eng1 Hx) as (eng2 & Hrun2 & Hl2 & Hes2).
    destruct (IH eng2) as (eng' & Hrun & Hl' & Hes'); [congruence|intros; apply Hne; by right|by intros; eapply Hc; [right|]|].
    exists eng'.
    assert ((reportCorrupt x detail ;;; ret []) eng1 = (eng2, Ok ([] : list Hit))) as ->
      by (unfold bind; by rewrite Hrun2).
    unfold bind. rewrite Hrun.
    split_and!; [done|done|]. rewrite Hes', Hes2. apply filter_filter_ids.
Qed.

Lemma entry_hits_ok `{!SearchLaws P St Q} eng q k accepts e h :
  e ∈ entries (eset eng) → h ∈ entry_hits eng q k accepts e →
  accepts (HitID h) = true ∧ searchable eng (HitID h).
Proof.
  unfold entry_hits. intros He Hh. destruct (SearchSegment _ _ _ _ _) as [hits|] eqn:Hs;
    [|by apply elem_of_nil in Hh].
  pose proof (Search_accepted _ _ _ _ _ _ _ Hs Hh) as Hacc.
  unfold search_accept in Hacc. apply andb_true_iff in Hacc as [Hl Ha].
  split; [done|]. by exists e.
Qed.

Lemma SearchAccepting_run eng q k accepts :
  (0 < k)%Z → (∀ e, e ∈ entries (eset eng) → sid e ≠ "") → only_corruptions eng q k accepts →
  ∃ eng', SearchAccepting q k accepts eng
          = (eng', Ok (mergeTopK (entry_hits eng q k accepts <$> entries (eset eng)) k)) ∧
    lives eng' = lives eng ∧
    entries (eset eng')
    = filter (λ e, sid e ∉ omap (corrupt_id eng q k accepts) (entries (eset eng)))
        (entries (eset eng)).
Proof.
  intros Hk Hne Hc. unfold SearchAccepting, bind at 1, get.
  destruct (decide (entries (eset eng) = [])) as [Hnil|_].
  { exists eng. rewrite Hnil. unfold mergeTopK. by rewrite (proj2 (Z.leb_gt k 0)). }
  rewrite (proj2 (Z.leb_gt k 0)) by done.
  destruct (mapM_search eng eng q k accepts (entries (eset eng)) eq_refl Hne Hc)
    as (eng' & Hrun & Hl & Hes).
  exists eng'. unfold bind. by rewrite Hrun.
Qed.
End Writes.

(** C9: superseding keeps one live copy per id.  Over an empty buffer and a state in
    which every live copy is the one the route names, a batch whose build reports nothing
    and that creates a segment leaves such a state: the new segment is appended, its live
    ids exactly those of the batch's documents that the format indexes; every older copy
    of an id of the batch is dead, and no other copy's liveness changes.  So a document of
    the batch that the format cannot index is not searchable afterwards. *)
Theorem AddSealAndSupersede_one_live {P St Q : Type} `{F : SegmentFormat P St Q, !BuildLaws P St Q}
    (eng eng' : engine P St) (docs : list Document) (id : string) :
  eng_inv eng → single_live eng → docs ≠ [] → active eng = [] →
  fst (Build (dedupeDocsByID docs)) = ∅ →
  AddSealAndSupersede docs eng = (eng', Ok (mkSealResult id true)) →
  eng_inv eng' ∧ single_live eng' ∧
  ∃ e, entries (eset eng') = entries (eset eng) ++ [e] ∧ sid e = id ∧
    (∀ i, live_in eng' e i = true ↔ i ∈ indexed_ids P St Q docs) ∧
    (∀ e' i, e' ∈ entries (eset eng) →
       live_in eng' e' i = true ↔ live_in eng e' i = true ∧ i ∉ DocID <$> docs) ∧
    ∀ i, searchable eng' i ↔
      (searchable eng i ∧ i ∉ DocID <$> docs) ∨ i ∈ indexed_ids P St Q docs.
Proof.
  intros Hinv Hsingle Hd Ha Hrep Hrun.
  destruct (supersede_single_live _ _ _ _ Hinv Hsingle Hd Ha Hrep Hrun) as [Hinv' Hsingle'].
  destruct (supersede_created _ _ _ _ Hinv Hsingle Hd Ha Hrep Hrun)
    as (e & _ & Hes & Hsid & Hm & Hle & Hold).
  split_and!; [done|done|]. exists e. split_and!; try done.
  intros i. unfold searchable. rewrite Hes. split.
  - intros (e' & Hin & Hl). apply elem_of_app in Hin as [Hin|Hin].
    + left. apply Hold in Hl as [Hl Hi]; [|done]. split; [by exists e'|done].
    + apply list_elem_of_singleton in Hin as ->. right. by apply Hle.
  - intros [[(e' & Hin & Hl) Hi]|Hi].
    + exists e'. split; [apply elem_of_app; by left|]. by apply Hold.
    + exists e. split; [apply elem_of_app; right; by apply list_elem_of_singleton|by apply Hle].
Qed.

(** A delete returns, forgets the id and nothing else: no resident copy of the id
    is live afterwards, every other copy keeps its bit, the set is the same snapshot,
    and the buffer loses the id's first document only when no segment routes the id. *)
Theorem Delete_forgets {P St Q : Type} `{SegmentFormat P St Q} (eng : engine P St) (id : string) :
  eng_inv eng → single_live eng →
  ∃ eng', Delete id eng = (eng', Ok ()) ∧ eng_inv eng' ∧ single_live eng' ∧
    eset eng' = eset eng ∧ ¬ searchable eng' id ∧
    (∀ e i, e ∈ entries (eset eng) → i ≠ id → live_in eng' e i = live_in eng e i) ∧
    active eng' = (if routeOf (eset eng) id is Some _ then active eng else remove_active id (active eng)).
Proof.
  intros Hinv Hsingle. rewrite (routeOf_newest (eset eng) id (ei_set eng Hinv)).
  destruct (entryOf (eset eng) id) as [e|] eqn:He.
  - destruct (Delete_routed eng id e Hinv He) as (ord & Ho & Hrun & Hlive).
    destruct (entryOf_resident eng id e Hinv He) as [_ Hn].
    destruct (newest (entries (eset eng)) id) as [h|] eqn:Hh; [|done]. injection Hn as _ _ Hlh.
    eexists. split; [exact Hrun|].
    assert (eng_inv (set_signal (kill_at (live e) ord eng))) as Hinv'.
    { destruct (kill_at_inv eng (live e) ord Hinv) as [H1 H2 H3 H4]. by split. }
    split_and!; [done| |done| | |done].
    + intros e' i He' Hl. change (live_in (kill_at (live e) ord eng) e' i = true) in Hl.
      rewrite Hlive in Hl by done. case_decide; [done|]. by apply Hsingle.
    + intros (e' & He' & Hl). change (live_in (kill_at (live e) ord eng) e' id = true) in Hl.
      rewrite Hlive in Hl by done. case_decide as Hd; [done|]. apply Hd. split; [|done].
      apply Hsingle in Hl; [|done]. congruence.
    + intros e' i He' Hi. change (live_in (kill_at (live e) ord eng) e' i = live_in eng e' i).
      rewrite Hlive by done. by rewrite decide_False by naive_solver.
  - pose proof (entryOf_None eng id Hinv He) as Hnone.
    assert (newest (entries (eset eng)) id = None) as -> by (by apply newest_None).
    exists (set_active (remove_active id (active eng)) eng).
    split_and!; [|by apply set_active_inv|done|done| |done|done].
    + unfold Delete, bind, get, modify. by rewrite He.
    + intros (e & Hin & Hl). destruct (live_in_held _ _ _ Hl) as [o Ho].
      by rewrite (Hnone e Hin) in Ho.
Qed.

(** C11: a search whose segments panic with nothing but corruptions returns, whatever
    segments turn out corrupt.  Its answer is the merge of the hits of the segments that
    could be read: min(k, total) of them, each an accepted id with a live resident copy;
    and, when no score is a NaN, in order of score and then of id, with none left out that
    scores above one kept.  Exactly the segments named corrupt leave the set, the live
    bits untouched. *)
Theorem SearchAccepting_sound {P St Q : Type} `{F : SegmentFormat P St Q, !SearchLaws P St Q}
    (eng : engine P St) (q : Q) (k : Z) (accepts : string → bool) :
  (0 < k)%Z → (∀ e, e ∈ entries (eset eng) → sid e ≠ "") → only_corruptions eng q k accepts →
  let results := entry_hits eng q k accepts <$> entries (eset eng) in
  ∃ eng' hits, SearchAccepting q k accepts eng = (eng', Ok hits) ∧
    length hits = Z.to_nat k `min` length (concat results) ∧
    (∀ h, h ∈ hits → h ∈ concat results ∧ accepts (HitID h) = true ∧ searchable eng (HitID h)) ∧
    (all_scored (concat results) → StronglySorted hit_le hits ∧
       selection (Z.to_nat k) (concat results) hits) ∧
    lives eng' = lives eng ∧
    entries (eset eng')
    = filter (λ e, sid e ∉ omap (corrupt_id eng q k accepts) (entries (eset eng)))
        (entries (eset eng)).
Proof.
  intros Hk Hne Hc results.
  destruct (SearchAccepting_run eng q k accepts Hk Hne Hc) as (eng' & Hrun & Hl & Hes).
  fold results in Hrun. destruct (mergeTopK_kept results k) as (Hlen & rest & Hr).
  exists eng', (mergeTopK results k). split_and!; try done.
  - intros h Hh. assert (h ∈ concat results) as Hin by (rewrite Hr; apply elem_of_app; by left).
    split; [done|]. apply list_elem_of_In, in_concat in Hin as (hits & Hin & He).
    apply list_elem_of_In in Hin, He.
    apply list_elem_of_fmap in Hin as (e & -> & Hein). by eapply entry_hits_ok.
  - intros Hs. split; [by apply mergeTopK_sorted|by apply mergeTopK_selection].
Qed.

(** ** Concrete runs over the reference format *)

#[export] Existing Instances TableFormat.table_format TableFormat.table_build
  TableFormat.table_codec TableFormat.table_merge TableFormat.table_search.

Module Runs.

Definition eng : Type := engine TableFormat.table nat.
Definition index_opts (min : Z) : Options := mkOptions min two 1000 true true true readBlobFromFile.
Definition doc (id c : string) : Document := mkDoc id {["content" := c]} [] "".

(** The state a handler leaves. *)
Definition after {A} (m : M TableFormat.table nat A) (e : eng) : eng := fst (m e).
Definition sealed_id (r : result engErr SealResult) : string :=
  match r with Ok r => SealID r | Err _ => "" end.
Definition hits (r : result engErr (list Hit)) : list string :=
  match r with Ok l => HitID <$> l | Err _ => [] end.
Definition found (q : string) (e : eng) : list string := hits (snd (Search q 10 e)).

(** A fresh index, and one after a first batch. *)
Definition e0 : eng := New 0 (index_opts 1).
Definition e1 : eng := after (AddSealAndSupersede [doc "a" "v1"; doc "b" "v1"]) e0.

(** "a" is written, overwritten, then written back to its first content. *)
Definition aba : eng :=
  after (AddSealAndSupersede [doc "a" "v1"])
    (after (AddSealAndSupersede [doc "a" "v2"])
      (after (AddSealAndSupersede [doc "a" "v1"]) e0)).

(** A buffered update of a resident document. *)
Definition buffered : eng :=
  after (Add [doc "a" "v2"])
    (after Flush (after (Add [doc "a" "v1"]) (New 0 (index_opts 10)))).

(** A document sealed, deleted, added again unchanged and flushed. *)
Definition readded : eng :=
  after (Add [doc "a" "v1"]) (after (Delete "a") (after (Add [doc "a" "v1"]) e0)).

(** An index of the bm25 format, fresh and after a batch of three documents, of which one
    has no token. *)
Definition bm25_e0 : engine Bm25Format.segment CorpusStats := New 0 (index_opts 1).
Definition bm25_e1 : engine Bm25Format.segment CorpusStats := fst (AddSealAndSupersede shelf bm25_e0).
Definition bm25_id : string := sealed_id (snd (AddSealAndSupersede shelf bm25_e0)).
End Runs.

(** Writing a document back to an earlier content revives the copy in the old
    segment while the route still names the newer one, whose copy was killed: a delete
    of the id then misses the live copy and the document stays searchable; the
    coverage read-outs report it as not resident. *)
Theorem rewrite_to_old_content_escapes_delete :
  let s := Runs.aba in
  Runs.found "" s = ["a"] ∧ LiveResidentCount s = 0%Z ∧ UncoveredFrom s ["a"] = ["a"] ∧
  Runs.found "" (Runs.after (Delete "a") s) = ["a"] ∧
  Runs.found "" (Runs.after (KillSuperseded ["a"]) s) = ["a"].
Proof. cbv zeta. split_and!; vm_compute; reflexivity. Qed.

(** A delete of a document whose update waits in the buffer kills the sealed copy
    only; the flush then publishes the update, and the deleted document is back. *)
Theorem delete_misses_buffered_update :
  DocID <$> active Runs.buffered = ["a"] ∧
  let s := Runs.after (Delete "a") Runs.buffered in
  Runs.found "" s = [] ∧ Runs.found "v2" (Runs.after Flush s) = ["a"].
Proof. cbv zeta. split_and!; vm_compute; reflexivity. Qed.

(** Adding a deleted document back unchanged through [Add] is lost: the seal
    reproduces the resident segment, the append is dropped, and the dead bit stays. *)
Theorem readd_unchanged_stays_deleted :
  snd (Add [Runs.doc "a" "v1"] (Runs.after (Delete "a") (Runs.after (Add [Runs.doc "a" "v1"]) Runs.e0)))
    = Ok () ∧
  active Runs.readded = [] ∧ Runs.found "" Runs.readded = [] ∧
  Runs.found "" (Runs.after (AddSealAndSupersede [Runs.doc "a" "v1"])
    (Runs.after (Delete "a") (Runs.after (Add [Runs.doc "a" "v1"]) Runs.e0))) = ["a"].
Proof. cbv zeta. split_and!; vm_compute; reflexivity. Qed.

(** ** Witnesses *)

Lemma e0_inv : eng_inv Runs.e0 ∧ single_live Runs.e0.
Proof. apply New_inv. Qed.

Lemma e1_inv : eng_inv Runs.e1 ∧ single_live Runs.e1.
Proof.
  destruct e0_inv as [H1 H2].
  apply (supersede_single_live Runs.e0 Runs.e1 [Runs.doc "a" "v1"; Runs.doc "b" "v1"]
    (Runs.sealed_id (snd (AddSealAndSupersede [Runs.doc "a" "v1"; Runs.doc "b" "v1"] Runs.e0))));
    try done; vm_compute; reflexivity.
Qed.

Lemma bm25_e1_run : AddSealAndSupersede shelf Runs.bm25_e0 = (Runs.bm25_e1, Ok (mkSealResult Runs.bm25_id true)).
Proof.
  assert (snd (AddSealAndSupersede shelf Runs.bm25_e0) = Ok (mkSealResult Runs.bm25_id true)) as <- by (vm_compute; reflexivity).
  apply surjective_pairing.
Qed.

Lemma bm25_e0_inv : eng_inv Runs.bm25_e0 ∧ single_live Runs.bm25_e0.
Proof. apply New_inv. Qed.

Lemma shelf_report : fst (Build (dedupeDocsByID shelf)) = ∅.
Proof. vm_compute. reflexivity. Qed.

Lemma bm25_e1_inv : eng_inv Runs.bm25_e1 ∧ single_live Runs.bm25_e1.
Proof.
  destruct bm25_e0_inv as [H1 H2].
  exact (supersede_single_live Runs.bm25_e0 Runs.bm25_e1 shelf _ H1 H2 ltac:(done) eq_refl shelf_report bm25_e1_run).
Qed.

(** A batch over the reference format, and one over the bm25 format. *)
Lemma AddSealAndSupersede_one_live_witness :
  (let docs := [Runs.doc "b" "v2"; Runs.doc "c" "v1"] in
   let eng' := Runs.after (AddSealAndSupersede docs) Runs.e1 in
   eng_inv eng' ∧ single_live eng' ∧ Runs.found "" eng' = ["a"; "b"; "c"]) ∧
  (let eng0 := Runs.bm25_e0 in
   let eng' := Runs.bm25_e1 in
   eng_inv eng' ∧ ∀ i, searchable eng' i ↔ searchable eng0 i ∧ i ∉ DocID <$> shelf ∨ i ∈ ["reader"; "writer"]).
Proof.
  split.
  - intros docs eng'.
    destruct (AddSealAndSupersede_one_live Runs.e1 eng' docs
      (Runs.sealed_id (snd (AddSealAndSupersede docs Runs.e1)))) as (H1 & H2 & _).
    + apply e1_inv.
    + apply e1_inv.
    + done.
    + vm_compute. reflexivity.
    + vm_compute. reflexivity.
    + vm_compute. reflexivity.
    + split_and!; [exact H1|exact H2|vm_compute; reflexivity].
  - intros eng0 eng'.
    destruct (AddSealAndSupersede_one_live eng0 eng' shelf Runs.bm25_id (proj1 bm25_e0_inv) (proj2 bm25_e0_inv)
      ltac:(done) eq_refl shelf_report bm25_e1_run) as (H1 & _ & e & _ & _ & _ & _ & H2).
    split; [exact H1|]. intros i. rewrite H2.
    assert (indexed_ids Bm25Format.segment CorpusStats Query shelf = ["reader"; "writer"]) as -> by (vm_compute; reflexivity). done.
Defined.

Lemma Delete_forgets_witness :
  ∃ eng', Delete "a" Runs.e1 = (eng', Ok ()) ∧ ¬ searchable eng' "a".
Proof.
  destruct (Delete_forgets Runs.e1 "a" (proj1 e1_inv) (proj2 e1_inv))
    as (eng' & Hrun & _ & _ & _ & Hs & _).
  exists eng'. exact (conj Hrun Hs).
Defined.

(** A search over the reference format, and one over the bm25 format. *)
Lemma SearchAccepting_sound_witness :
  (∃ eng' hits, SearchAccepting "" 1 (λ id, bool_decide (id = "b")) Runs.e1 = (eng', Ok hits) ∧
    length hits = 1 ∧ ∀ h, h ∈ hits → HitID h = "b") ∧
  ∃ eng' hits, SearchAccepting (mkQuery {["user" := 1%Z]}) 5 (λ _, true) Runs.bm25_e1 = (eng', Ok hits) ∧
    length hits = 2 ∧ entries (eset eng') = entries (eset Runs.bm25_e1).
Proof.
  split.
  - destruct (SearchAccepting_sound Runs.e1 "" 1 (λ id, bool_decide (id = "b")))
      as (eng' & hits & Hrun & Hlen & Hhits & _).
    + lia.
    + apply Forall_forall. apply (bool_decide_unpack (Forall (λ e, sid e ≠ "") (entries (eset Runs.e1)))).
      vm_compute. exact I.
    + intros e err _ Hs. discriminate Hs.
    + exists eng', hits. split; [exact Hrun|]. split; [rewrite Hlen; vm_compute; reflexivity|].
      intros h Hh. exact (bool_decide_eq_true_1 _ (proj1 (proj2 (Hhits h Hh)))).
  - set (q := mkQuery {["user" := 1%Z]}). set (all := (λ _ : string, true)).
    assert (Forall (λ e, is_ok (SearchSegment (payload e) q (stats (eset Runs.bm25_e1)) 5 (search_accept Runs.bm25_e1 e all)) = true)
      (entries (eset Runs.bm25_e1))) as Hok by (apply (bool_decide_unpack _); vm_compute; exact I).
    destruct (SearchAccepting_sound Runs.bm25_e1 q 5 all) as (eng' & hits & Hrun & Hlen & _ & _ & _ & Hes).
    + lia.
    + apply Forall_forall. apply (bool_decide_unpack (Forall (λ e, sid e ≠ "") (entries (eset Runs.bm25_e1)))).
      vm_compute. exact I.
    + intros e err He Hs. rewrite Forall_forall in Hok. specialize (Hok e He). by rewrite Hs in Hok.
    + exists eng', hits. split; [exact Hrun|]. split; [rewrite Hlen; vm_compute; reflexivity|].
      rewrite Hes. assert (omap (corrupt_id Runs.bm25_e1 q 5 all) (entries (eset Runs.bm25_e1)) = []) as -> by (vm_compute; reflexivity).
      apply list_filter_every. apply Forall_forall. by intros e _ ?%elem_of_nil.
Defined.
