(* ===== verification/EngineConsolidate.v ===== *)
(** * Consolidations of the engine, verified

    Merges, bucket swaps and group swaps: what a consolidation publishes, and that no
    live document is lost by one, for any format that keeps the interface's laws. *)

From Stdlib Require Import Ascii Floats.SpecFloat.
From S2P Require Import Prelude LiveDocs TopK Bucket Supersession SegmentSet Format Engine.
From S2P Require Import EngineSwap EngineLoad EngineProps EngineWrites.

Section Consolidate.
Context {P St Q : Type} `{F : SegmentFormat P St Q}.
Implicit Types (eng : engine P St) (e : segmentEntry P) (s : segmentSet P St).

(** ** Runs that only allocate *)

(** [eng'] is [eng] with bitsets allocated (and events emitted): the snapshot and every
    bitset of [eng] are as they were. *)
Record extends eng eng' : Prop := {
  ex_set : eset eng' = eset eng;
  ex_opts : opts eng' = opts eng;
  ex_next : next_live eng ≤ next_live eng';
  ex_lives : ∀ loc, loc < next_live eng → lives eng' !! loc = lives eng !! loc;
  ex_fresh : (∀ loc, is_Some (lives eng !! loc) → loc < next_live eng) →
    ∀ loc, is_Some (lives eng' !! loc) → loc < next_live eng'
}.

#[export] Instance extends_preorder : PreOrder extends.
Proof.
  split; [by intros eng; split|].
  intros e1 e2 e3 [A1 A2 A3 A4 A5] [B1 B2 B3 B4 B5]. split; [congruence|congruence|lia| |eauto].
  intros loc Hloc. rewrite B4 by lia. by apply A4.
Qed.

Lemma extends_live_in eng eng' e id :
  extends eng eng' → live e < next_live eng → live_in eng' e id = live_in eng e id.
Proof. intros Hx Hl. unfold live_in, live_of. by rewrite (ex_lives _ _ Hx). Qed.

Lemma extends_fresh eng seg e eng' :
  fresh_entry eng seg e eng' → eset eng' = eset eng → opts eng' = opts eng → extends eng eng'.
Proof.
  intros Hf Hs Ho. split; [done|done|rewrite (fe_next _ _ _ _ Hf); lia| |].
  - intros loc Hloc. rewrite (fe_lives _ _ _ _ Hf), lookup_insert_ne by lia. done.
  - intros Hfr loc. rewrite (fe_lives _ _ _ _ Hf), (fe_next _ _ _ _ Hf).
    destruct (decide (next_live eng = loc)) as [<-|Hne]; [lia|].
    rewrite lookup_insert_ne by done. intros Hl. apply Hfr in Hl. lia.
Qed.

Lemma build_extends docs eng eng' seg :
  build docs eng = (eng', Ok seg) →
  extends eng eng' ∧ lives eng' = lives eng ∧ next_live eng' = next_live eng ∧
  ∃ rep, Build (dedupeDocsByID docs) = (rep, Ok seg).
Proof.
  intros H. apply build_Ok in H as (rep & Hb & Hs & _ & Hl & Hn & Ho).
  split_and!; [split|done|done|by exists rep]; rewrite ?Hl, ?Hn; auto.
Qed.

Lemma newEntry_extends seg prov eng eng' e :
  newEntry seg [] prov eng = (eng', Ok e) → extends eng eng' ∧ fresh_entry eng seg e eng' ∧
  DocCount (meta e) = Z.of_nat (length (ids_of seg)).
Proof.
  intros H. apply newEntry_spec in H as (Hf & Heng & Hc). split_and!; [|done|done].
  apply (extends_fresh eng seg e); [done|by rewrite Heng|by rewrite Heng].
Qed.

(** ** Merging *)

Lemma attempt_Ok {A} (m : M P St A) eng eng' a :
  attempt m eng = (eng', Ok (Ok a)) ↔ m eng = (eng', Ok a).
Proof. unfold attempt. destruct (m eng). split; congruence. Qed.

Lemma containCorrupt_Ok {A} x (m : M P St A) eng eng' a :
  containCorrupt x m eng = (eng', Ok a) → m eng = (eng', Ok a).
Proof.
  unfold containCorrupt. intros H. apply bind_Ok in H as (r & eng1 & Hr & H).
  unfold attempt in Hr. destruct (m eng) as [eng2 r2]. injection Hr as <- <-.
  destruct r2 as [a'|[[[] c d| |]| | | | | |]]; try by injection H as <- <-.
  all: try (by discriminate H). by apply bind_Ok in H as (? & ? & _ & H).
Qed.

(** A merge that returns: the entry is fresh over the decoded output. *)
Lemma mergeEntry_Ok segs cs eng eng' e :
  (∀ b, MapBlob (opts eng) b = Ok b) → mergeEntry segs cs eng = (eng', Ok e) →
  ∃ data seg, MergeTo segs = Ok data ∧ Decode data = Ok seg ∧ extends eng eng' ∧
    fresh_entry eng seg e eng' ∧ DocCount (meta e) = Z.of_nat (length (ids_of seg)).
Proof.
  intros Hmap H. unfold mergeEntry in H.
  apply bind_Ok in H as (data & eng1 & Hm & H). apply containCorrupt_Ok in Hm.
  unfold lift_format in Hm. destruct (MergeTo segs) as [data'|] eqn:Hmerge; [|done].
  injection Hm as <- <-.
  apply bind_Ok in H as (data2 & eng2 & Hsc & H). unfold map_scratch in Hsc. run_split.
  rewrite Hmap in Hsc. injection Hsc as <- <-.
  destruct (ValidateSegment "" data'); [by discriminate H|].
  apply containCorrupt_Ok in H. apply bind_Ok in H as (seg & eng3 & Hd & H).
  unfold lift_format in Hd. destruct (Decode data') as [seg'|] eqn:Hdec; [|done].
  injection Hd as <- <-. apply newEntry_extends in H as (Hx & Hf & Hc). by exists data', seg'.
Qed.

(** The members a merge of entries keeps. *)
Lemma mergeEntry_live `{!MergeLaws P St Q} eng0 (es : list (segmentEntry P))
    (acc : segmentEntry P → string → bool) cs eng eng' e id :
  (∀ b, MapBlob (opts eng) b = Ok b) →
  Forall (λ x, members x = members_of (ids_of (payload x))) es →
  (∀ x, x ∈ es → acc x id = true → live_in eng0 x id = true) →
  mergeEntry ((λ x, (payload x, acc x)) <$> es) cs eng = (eng', Ok e) →
  live_in eng' e id = true ↔ ∃ x, x ∈ es ∧ acc x id = true.
Proof.
  intros Hmap Hwf Hacc H.
  apply mergeEntry_Ok in H as (data & seg & Hm & Hd & Hx & Hf & _); [|done].
  rewrite (fresh_live _ _ _ _ _ Hf), (MergeTo_ids _ _ _ _ Hm Hd (fe_ids _ _ _ _ Hf)). split.
  - intros (p & a & Hin & _ & Ha). apply list_elem_of_fmap in Hin as (x & [= -> ->] & Hin).
    by exists x.
  - intros (x & Hin & Ha). exists (payload x), (acc x).
    split_and!; [apply list_elem_of_fmap; by exists x| |done].
    apply members_of_elem. rewrite Forall_forall in Hwf. rewrite <-(Hwf x Hin).
    eapply live_in_held. by apply Hacc.
Qed.

(** ** Killing what the batch supersedes *)

Lemma kill_one_spec eng id :
  eng_inv eng → single_live eng →
  let eng' := kill_one (eset eng) id eng in
  eng_inv eng' ∧ single_live eng' ∧ eset eng' = eset eng ∧ opts eng' = opts eng ∧
  next_live eng' = next_live eng ∧
  ∀ e i, e ∈ entries (eset eng) → live_in eng' e i = true ↔ live_in eng e i = true ∧ i ≠ id.
Proof.
  intros Hinv Hsingle. unfold kill_one. destruct (entryOf (eset eng) id) as [h|] eqn:Hh.
  - destruct (Delete_routed eng id h Hinv Hh) as (ord & Ho & _ & Hlive). rewrite Ho.
    destruct (entryOf_resident eng id h Hinv Hh) as [_ Hn].
    destruct (newest (entries (eset eng)) id) as [h'|] eqn:Hn'; [|done].
    injection Hn as _ _ Hlh. cbv zeta.
    assert (∀ e i, e ∈ entries (eset eng) →
      live_in (kill_at (live h) ord eng) e i = true ↔ live_in eng e i = true ∧ i ≠ id) as Hspec.
    { intros e i He. rewrite Hlive by done. case_decide as Hd; [naive_solver|].
      split; [|naive_solver]. intros Hl. split; [done|]. intros ->. apply Hd. split; [|done].
      apply Hsingle in Hl; [|done]. congruence. }
    split_and!; [by apply kill_at_inv| |done|done|done|done].
    intros e i He Hl. apply Hspec in Hl as [Hl _]; [|done]. by apply Hsingle.
  - cbv zeta. split_and!; try done. intros e i He. split; [|by intros [? _]].
    intros Hl. split; [done|]. intros ->. destruct (live_in_held _ _ _ Hl) as [o Ho].
    by rewrite (entryOf_None eng id Hinv Hh e He) in Ho.
Qed.

Lemma kill_list_spec s ids eng :
  eset eng = s → eng_inv eng → single_live eng →
  let eng' := fold_left (λ eng id, kill_one s id eng) ids eng in
  eng_inv eng' ∧ single_live eng' ∧ eset eng' = s ∧ opts eng' = opts eng ∧
  next_live eng' = next_live eng ∧
  ∀ e i, e ∈ entries s → live_in eng' e i = true ↔ live_in eng e i = true ∧ i ∉ ids.
Proof.
  revert eng. induction ids as [|id ids IH]; intros eng Hs Hinv Hsingle.
  { cbv zeta. simpl. split_and!; try done. intros e i _. split; [|by intros [? _]].
    intros Hl. split; [done|]. by intros Hi%elem_of_nil. }
  cbn [fold_left]. rewrite <-Hs.
  destruct (kill_one_spec eng id Hinv Hsingle) as (H1 & H2 & H3 & H4 & H5 & H6).
  destruct (IH (kill_one (eset eng) id eng)) as (K1 & K2 & K3 & K4 & K5 & K6);
    [congruence|done|done|]. rewrite <-Hs in K1, K2, K3, K4, K5, K6. cbv zeta.
  split_and!; [done|done|done|congruence|congruence|].
  intros e i He. rewrite K6, H6, elem_of_cons by done. naive_solver.
Qed.

(** The kills of a group: every id its partitions supersede, through one snapshot. *)
Lemma kill_work_spec s (work : list BucketWork) eng :
  eset eng = s → eng_inv eng → single_live eng →
  let eng' := fold_left (λ eng w,
    fold_left (λ eng id, kill_one s id eng) (WorkSuperseded w) eng) work eng in
  eng_inv eng' ∧ single_live eng' ∧ eset eng' = s ∧ opts eng' = opts eng ∧
  ∀ e i, e ∈ entries s →
    live_in eng' e i = true ↔ live_in eng e i = true ∧ i ∉ concat (WorkSuperseded <$> work).
Proof.
  revert eng. induction work as [|w work IH]; intros eng Hs Hinv Hsingle.
  { cbv zeta. simpl. split_and!; try done. intros e i _. split; [|by intros [? _]].
    intros Hl. split; [done|]. by intros Hi%elem_of_nil. }
  cbn [fold_left].
  destruct (kill_list_spec s (WorkSuperseded w) eng Hs Hinv Hsingle)
    as (H1 & H2 & H3 & H4 & _ & H6).
  destruct (IH _ H3 H1 H2) as (K1 & K2 & K3 & K4 & K5). cbv zeta.
  split_and!; [done|done|done|congruence|].
  intros e i He. rewrite K5, H6 by done. rewrite fmap_cons. cbn [concat].
  rewrite elem_of_app. naive_solver.
Qed.

(** ** Narrowing the harvest *)

(** Entries of one snapshot with the same id are the same entry. *)
Definition sid_unique (es : list (segmentEntry P)) : Prop :=
  ∀ x y, x ∈ es → y ∈ es → sid x = sid y → x = y.

Lemma bucketSpans_lookup (es : list (segmentEntry P)) n x :
  sid_unique es → x ∈ es → bucketSpans es n !! sid x = Some (spans_of x n).
Proof.
  unfold bucketSpans. induction es as [|e es IH] using rev_ind; intros Hu Hx.
  { by apply elem_of_nil in Hx. }
  rewrite fold_left_app. simpl. destruct (decide (sid e = sid x)) as [Heq|Hne].
  - assert (e = x) as ->; [|by rewrite lookup_insert_eq].
    apply Hu; [|done|done]. apply elem_of_app. right. by apply list_elem_of_singleton.
  - rewrite lookup_insert_ne by done. apply IH.
    + intros a b Ha Hb. apply Hu; apply elem_of_app; by left.
    + apply elem_of_app in Hx as [Hx|Hx]; [done|]. apply list_elem_of_singleton in Hx as ->. done.
Qed.

Lemma elem_of_spans e n b : b ∈ spans_of e n ↔ ∃ id, is_Some (members e !! id) ∧ b = BucketOf id n.
Proof.
  unfold spans_of. rewrite elem_of_map. split.
  - intros (id & -> & Hid). apply elem_of_dom in Hid. by exists id.
  - intros (id & Hid & ->). exists id. split; [done|]. by apply elem_of_dom.
Qed.

Lemma elem_of_spanning (es : list (segmentEntry P)) n b x :
  sid_unique es →
  x ∈ entriesSpanningBucket es (bucketSpans es n) b ↔ x ∈ es ∧ b ∈ spans_of x n.
Proof.
  intros Hu. unfold entriesSpanningBucket. rewrite list_elem_of_filter. split.
  - intros [Hb Hx]. split; [done|]. by rewrite bucketSpans_lookup in Hb.
  - intros [Hx Hb]. split; [|done]. by rewrite bucketSpans_lookup.
Qed.

(** A segment outside a bucket has nothing the bucket's harvest would keep. *)
Lemma accept_spanning (es : list (segmentEntry P)) eng n b x id :
  sid_unique es → x ∈ es → acceptLiveMembers eng x b n id = true →
  x ∈ entriesSpanningBucket es (bucketSpans es n) b.
Proof.
  intros Hu Hx Ha. apply elem_of_spanning; [done|]. split; [done|].
  unfold acceptLiveMembers in Ha. apply andb_true_iff in Ha as [Hl Hb].
  apply elem_of_spans. exists id. split; [by eapply live_in_held|]. apply Z.eqb_eq in Hb. done.
Qed.

Lemma elem_of_resolve s cs e :
  set_inv s → e ∈ resolve s cs ↔ e ∈ entries s ∧ sid e ∈ cs.
Proof.
  intros Hs. unfold resolve. rewrite list_elem_of_omap. split.
  - intros (x & Hx & He). apply entryByID_elem in He as [He <-]. done.
  - intros [He Hc]. exists (sid e). split; [done|]. by apply entryByID_Some.
Qed.

Lemma resolve_unique s cs : set_inv s → sid_unique (resolve s cs).
Proof.
  intros Hs x y Hx Hy. apply elem_of_resolve in Hx as [Hx _], Hy as [Hy _]; [|done|done].
  by apply (NoDup_fmap_elem sid (entries s)); [apply inv_nodup| |].
Qed.

(** ** Harvesting one partition *)

Context `{BL : !BuildLaws P St Q, ML : !MergeLaws P St Q}.

(** The id a build of the documents would have. *)
Definition fresh_id (docs : list Document) (x : string) : Prop :=
  ∃ rep seg b, Build (dedupeDocsByID docs) = (rep, Ok seg) ∧ Encode seg = Ok b ∧ x = contentHash b.

(** What a partition's output should hold. *)
Definition wanted eng (share : list (segmentEntry P)) (w : BucketWork) (n : Z) (id : string) : Prop :=
  BucketOf id n = Bucket w ∧
  ((∃ x, x ∈ share ∧ live_in eng x id = true) ∨ id ∈ indexed_ids P St Q (Docs w)).

(** Entries whose bitset is allocated and whose members are their payload's. *)
Definition placed eng e : Prop :=
  live e < next_live eng ∧ members e = members_of (ids_of (payload e)).

Lemma build_fresh_Ok docs eng eng' fresh :
  fst (Build (dedupeDocsByID docs)) = ∅ → build_fresh docs eng = (eng', Ok fresh) →
  extends eng eng' ∧
  match fresh with
  | None => docs = []
  | Some f => placed eng' f ∧ fresh_id docs (sid f) ∧
      ∀ id, live_in eng' f id = true ↔ id ∈ indexed_ids P St Q docs
  end.
Proof.
  intros Hrep H. unfold build_fresh in H. destruct docs as [|d docs]; [by injection H as <- <-|].
  apply bind_Ok in H as (seg & eng1 & Hb & H).
  apply build_extends in Hb as (Hx1 & Hl1 & Hn1 & rep & Hb).
  apply bind_Ok in H as (f & eng2 & Hf & H). injection H as <- <-.
  apply newEntry_extends in Hf as (Hx2 & Hf & _).
  split; [by transitivity eng1|]. split_and!.
  - split; [rewrite (fe_live _ _ _ _ Hf), (fe_next _ _ _ _ Hf); lia|].
    by rewrite (fe_members _ _ _ _ Hf), (fe_payload _ _ _ _ Hf).
  - destruct (fe_sid _ _ _ _ Hf) as (b & Hb' & ->). by exists rep, seg, b.
  - intros id. rewrite (fresh_live _ _ _ _ _ Hf). rewrite Hb in Hrep. simpl in Hrep. subst rep.
    apply Build_ids; [done|by apply (fe_ids _ _ _ _ Hf)].
Qed.

Lemma placed_extends eng eng' e : extends eng eng' → placed eng e → placed eng' e.
Proof. intros Hx [Hl Hm]. split; [|done]. pose proof (ex_next _ _ Hx). lia. Qed.

Lemma harvestPartition_Ok share w n eng eng' r fid :
  (∀ b, MapBlob (opts eng) b = Ok b) → Forall (placed eng) share →
  fst (Build (dedupeDocsByID (Docs w))) = ∅ →
  harvestPartition share w n eng = (eng', Ok (r, fid)) →
  extends eng eng' ∧ (fid = "" ∨ fresh_id (Docs w) fid) ∧
  match r with
  | None => ∀ id, ¬ wanted eng share w n id
  | Some e => placed eng' e ∧ ∀ id, live_in eng' e id = true ↔ wanted eng share w n id
  end.
Proof.
  intros Hmap Hplaced Hrep H. unfold harvestPartition in H.
  apply bind_Ok in H as (fresh & eng1 & Hf & H).
  apply (build_fresh_Ok _ _ _ _ Hrep) in Hf as [Hx1 Hfresh].
  apply bind_Ok in H as (? & ? & Hget & H). injection Hget as <- <-. cbv zeta in H.
  assert (∀ id, (∃ x, x ∈ share ++ opt_list fresh ∧ acceptLiveMembers eng1 x (Bucket w) n id = true)
    ↔ wanted eng share w n id) as Hwanted.
  { intros id. unfold wanted, acceptLiveMembers. setoid_rewrite andb_true_iff.
    setoid_rewrite Z.eqb_eq. split.
    - intros (x & Hin & Hl & Hb). split; [done|]. apply elem_of_app in Hin as [Hin|Hin].
      + left. exists x. split; [done|]. rewrite Forall_forall in Hplaced.
        by rewrite <-(extends_live_in eng eng1) by (try done; by apply Hplaced).
      + right. destruct fresh as [f|]; [|by apply elem_of_nil in Hin].
        apply list_elem_of_singleton in Hin as ->. by apply Hfresh.
    - intros [Hb [(x & Hin & Hl)|Hd]].
      + exists x. split; [apply elem_of_app; by left|]. rewrite Forall_forall in Hplaced.
        by rewrite (extends_live_in eng eng1) by (try done; by apply Hplaced).
      + destruct fresh as [f|]; [|rewrite Hfresh in Hd; by apply elem_of_nil in Hd].
        exists f. split; [apply elem_of_app; right; by left|]. split; [by apply Hfresh|done]. }
  assert ((match fresh with Some f => sid f | None => "" end) = "" ∨
    fresh_id (Docs w) (match fresh with Some f => sid f | None => "" end)) as Hfid
    by (destruct fresh as [f|]; [right; by apply Hfresh|by left]).
  case_decide as Hnil.
  { injection H as <- <- <-. split_and!; [done|done|]. intros id Hw%Hwanted.
    destruct Hw as (x & Hin & _). rewrite Hnil in Hin. by apply elem_of_nil in Hin. }
  apply bind_Ok in H as (e & eng2 & Hm & H).
  assert (∀ id, live_in eng2 e id = true ↔ wanted eng share w n id) as Hlive.
  { intros id. rewrite <-Hwanted. eapply (mergeEntry_live eng1 (share ++ opt_list fresh)
      (λ x, acceptLiveMembers eng1 x (Bucket w) n)); [|..|exact Hm].
    - by rewrite (ex_opts _ _ Hx1).
    - apply Forall_app. split.
      + eapply Forall_impl; [exact Hplaced|]. by intros x [_ ?].
      + destruct fresh as [f|]; constructor; [|done]. by destruct Hfresh as [[_ ?] _].
    - intros x _ Ha. by apply andb_true_iff in Ha as [? _]. }
  apply mergeEntry_Ok in Hm as (data & seg & _ & _ & Hx2 & Hfe & Hc);
    [|by rewrite (ex_opts _ _ Hx1)].
  destruct (DocCount (meta e) =? 0)%Z eqn:Hz; injection H as <- <- <-; (split; [by transitivity eng1|]);
    (split; [done|]).
  - intros id Hw. apply Hlive in Hw. apply (fresh_live _ _ _ _ _ Hfe) in Hw.
    apply Z.eqb_eq in Hz. rewrite Hz in Hc. destruct (ids_of seg); [by apply elem_of_nil in Hw|done].
  - split; [|done]. split; [rewrite (fe_live _ _ _ _ Hfe), (fe_next _ _ _ _ Hfe); lia|].
    by rewrite (fe_members _ _ _ _ Hfe), (fe_payload _ _ _ _ Hfe).
Qed.

(** ** The group *)

(** A slot of the harvest that succeeded, seen from a later state. *)
Definition slot_ok eng0 eng (es : list (segmentEntry P)) (n : Z) (w : BucketWork)
    (slot : harvest_slot (P:=P)) : Prop :=
  match fst slot with
  | Err _ => True
  | Ok (r, fid) =>
      (fid = "" ∨ fresh_id (Docs w) fid) ∧
      match r with
      | None => ∀ id, ¬ wanted eng0 es w n id
      | Some e => placed eng e ∧ ∀ id, live_in eng e id = true ↔ wanted eng0 es w n id
      end
  end.

Lemma slot_ok_extends eng0 eng eng' es n w slot :
  extends eng eng' → slot_ok eng0 eng es n w slot → slot_ok eng0 eng' es n w slot.
Proof.
  intros Hx. unfold slot_ok. destruct (fst slot) as [[[e|] fid]|err]; [|done|done].
  intros (Hf & Hp & Hl). split_and!; [done|by eapply placed_extends|].
  intros id. rewrite <-Hl. by rewrite (extends_live_in eng eng') by (try done; by destruct Hp).
Qed.

Lemma wanted_narrow eng0 (es : list (segmentEntry P)) w n id :
  sid_unique es →
  wanted eng0 (entriesSpanningBucket es (bucketSpans es n) (Bucket w)) w n id ↔
  wanted eng0 es w n id.
Proof.
  intros Hu. unfold wanted. split; intros [Hb [(x & Hin & Hl)|Hd]]; (split; [done|]);
    [left|by right|left|by right]; exists x; (split; [|done]).
  - by apply elem_of_spanning in Hin as [? _].
  - apply (accept_spanning es eng0 n (Bucket w) x id); [done|done|].
    unfold acceptLiveMembers. rewrite Hl, Hb. by rewrite Z.eqb_refl.
Qed.

Lemma wanted_extends eng0 eng (es : list (segmentEntry P)) w n id :
  extends eng0 eng → Forall (placed eng0) es → wanted eng es w n id ↔ wanted eng0 es w n id.
Proof.
  intros Hx Hp. rewrite Forall_forall in Hp. unfold wanted.
  split; intros [Hb [(x & Hin & Hl)|Hd]]; (split; [done|]); [left|by right|left|by right];
    exists x; (split; [done|]); destruct (Hp x Hin) as [Hlt _];
    revert Hl; by rewrite (extends_live_in eng0 eng).
Qed.

Lemma harvestGroup_Ok ctx eng0 (es : list (segmentEntry P)) i work n
    eng eng' slots :
  sid_unique es → Forall (placed eng0) es →
  (∀ b, MapBlob (opts eng0) b = Ok b) →
  Forall (λ w, fst (Build (dedupeDocsByID (Docs w))) = ∅) work →
  extends eng0 eng → Forall (λ slot : harvest_slot, ∀ err, fst slot ≠ Err err) slots →
  harvestGroup ctx es (bucketSpans es n) i work n eng = (eng', Ok slots) →
  extends eng eng' ∧ Forall2 (slot_ok eng0 eng' es n) work slots.
Proof.
  intros Hu Hplaced Hmap. revert i eng eng' slots.
  induction work as [|w work IH]; intros i eng eng' slots Hrep Hx Hok H.
  { injection H as <- <-. split; [done|constructor]. }
  cbn [harvestGroup] in H. apply bind_Ok in H as (slot & eng1 & Hslot & H).
  apply bind_Ok in H as (rest & eng2 & Hrest & H). injection H as <- <-.
  apply Forall_cons in Hrep as [Hrep1 Hrep]. apply Forall_cons in Hok as [Hok1 Hok].
  destruct (ctx_part ctx i); [|injection Hslot as <- <-; by destruct (Hok1 ECanceled)].
  apply bind_Ok in Hslot as (r & eng3 & Ha & Hslot). injection Hslot as <- <-.
  destruct r as [[r fid]|err]; [|by destruct (Hok1 err)].
  apply (proj1 (attempt_Ok _ _ _ _)) in Ha.
  set (share := entriesSpanningBucket es (bucketSpans es n) (Bucket w)) in *.
  assert (Forall (placed eng0) share) as Hshare.
  { rewrite Forall_forall in Hplaced. apply Forall_forall. intros x Hin. apply Hplaced.
    by apply elem_of_spanning in Hin as [? _]. }
  apply harvestPartition_Ok in Ha as (Hx1 & Hfid & Hr);
    [|by rewrite (ex_opts _ _ Hx)
     |eapply Forall_impl; [exact Hshare|]; intros x; by apply placed_extends|done].
  destruct (IH (S i) eng3 eng2 rest Hrep ltac:(by transitivity eng) Hok Hrest) as [Hx2 Hall].
  split; [by transitivity eng3|]. constructor; [|done].
  apply (slot_ok_extends eng0 eng3); [done|]. unfold slot_ok. cbn [fst]. split; [done|].
  destruct r as [e|].
  - destruct Hr as [Hp Hl]. split; [done|]. intros id.
    by rewrite Hl, (wanted_extends eng0) by done; apply wanted_narrow.
  - intros id Hw. apply (Hr id). rewrite (wanted_extends eng0) by done. by apply wanted_narrow.
Qed.

Lemma harvestGroup_length ctx (es : list (segmentEntry P)) spans i work n eng eng' slots :
  harvestGroup ctx es spans i work n eng = (eng', Ok slots) → length slots = length work.
Proof.
  revert i eng slots. induction work as [|w work IH]; intros i eng slots H.
  { by injection H as <- <-. }
  cbn [harvestGroup] in H. apply bind_Ok in H as (slot & eng1 & _ & H).
  apply bind_Ok in H as (rest & eng2 & Hrest & H). injection H as <- <-.
  simpl. f_equal. by eapply IH.
Qed.

Lemma fold_harvest_no_err work (slots : list (harvest_slot (P:=P))) added pub remove r :
  length slots = length work → fold_harvest work slots added pub remove = Ok r →
  Forall (λ slot : harvest_slot, ∀ err, fst slot ≠ Err err) slots.
Proof.
  revert slots added pub remove. induction work as [|w work IH];
    intros [|[[[[e|] fid]|err] m] slots] added pub remove Hlen H; try done; simpl in Hlen.
  - constructor; [done|]. eapply IH; [lia|exact H].
  - constructor; [done|]. eapply IH; [lia|exact H].
Qed.

(** The fold over good slots: the outputs hold what the partitions want, and the set
    to remove grows by ids of fresh segments only. *)
Lemma fold_harvest_ok eng0 eng (es : list (segmentEntry P)) n work slots added pub remove r :
  Forall2 (slot_ok eng0 eng es n) work slots →
  fold_harvest work slots added pub remove = Ok r →
  ∃ new, fst (fst r) = added ++ new ∧ Forall (placed eng) new ∧
    (∀ x, x ∈ remove → x ∈ snd r) ∧
    (∀ x, x ∈ snd r → x ∈ remove ∨ ∃ w, w ∈ work ∧ fresh_id (Docs w) x) ∧
    (∀ id, (∃ e, e ∈ new ∧ live_in eng e id = true) ↔ ∃ w, w ∈ work ∧ wanted eng0 es w n id).
Proof.
  intros Hall. revert added pub remove. induction Hall as [|w slot work slots Hs Hall IH];
    intros added pub remove H.
  { injection H as <-. exists []. simpl. rewrite app_nil_r. split_and!; try done; [by left|].
    intros id. split; intros (? & Hin & _); by apply elem_of_nil in Hin. }
  destruct slot as [[[h fid]|err] m]; [|done]. unfold slot_ok in Hs. cbn [fst] in Hs.
  destruct Hs as [Hfid Hh]. cbn [fold_harvest] in H.
  set (remove' := if decide (fid = "") then remove else {[fid]} ∪ remove) in H.
  assert (∀ x, x ∈ remove → x ∈ remove') as Hsub
    by (intros x; unfold remove'; case_decide; set_solver).
  assert (∀ x, x ∈ remove' → x ∈ remove ∨ fresh_id (Docs w) x) as Hsup.
  { intros x. unfold remove'. case_decide as Hd; [by left|].
    rewrite elem_of_union, elem_of_singleton. intros [->|?]; [|by left].
    by destruct Hfid as [?|?]; [|right]. }
  destruct h as [e|].
  - destruct (IH _ _ _ H) as (new & Hr & Hp & H1 & H2 & H3). destruct Hh as [Hpe Hle].
    exists (e :: new). split_and!.
    + by rewrite Hr, <-app_assoc.
    + by constructor.
    + auto.
    + intros x Hx. destruct (H2 x Hx) as [Hx'|(w' & Hw' & Hf)].
      * destruct (Hsup x Hx') as [?|?]; [by left|]. right. exists w. split; [by left|done].
      * right. exists w'. split; [by right|done].
    + intros id. split.
      * intros (e' & [->|Hin]%elem_of_cons & Hl).
        -- exists w. split; [by left|]. by apply Hle.
        -- destruct (proj1 (H3 id)) as (w' & Hw' & Hwant); [by exists e'|].
           exists w'. split; [by right|done].
      * intros (w' & [->|Hin]%elem_of_cons & Hl).
        -- exists e. split; [by left|]. by apply Hle.
        -- destruct (proj2 (H3 id)) as (e' & He' & Hlive); [by exists w'|].
           exists e'. split; [by right|done].
  - destruct (IH _ _ _ H) as (new & Hr & Hp & H1 & H2 & H3).
    exists new. split_and!; [done|done|auto| |].
    + intros x Hx. destruct (H2 x Hx) as [Hx'|(w' & Hw' & Hf)].
      * destruct (Hsup x Hx') as [?|?]; [by left|]. right. exists w. split; [by left|done].
      * right. exists w'. split; [by right|done].
    + intros id. rewrite H3. split; intros (w' & Hin & Hwant).
      * exists w'. split; [by right|done].
      * apply elem_of_cons in Hin as [->|Hin]; [by destruct (Hh id)|]. by exists w'.
Qed.

Lemma fireMergeHook_run e removed eng :
  ∃ eng', fireMergeHook e removed eng = (eng', Ok ()) ∧ eset eng' = eset eng ∧ lives eng' = lives eng.
Proof.
  unfold fireMergeHook, modify. eexists. split; [done|].
  case_match; [done|]. by case_match.
Qed.

Lemma fire_all_run added sv eng :
  ∃ eng', fire_all added sv eng = (eng', Ok ()) ∧ eset eng' = eset eng ∧ lives eng' = lives eng.
Proof.
  revert sv eng. induction added as [|e added IH]; intros sv eng; [by exists eng|].
  destruct (fireMergeHook_run e sv eng) as (eng1 & H1 & Hs1 & Hl1).
  destruct (IH [] eng1) as (eng2 & H2 & Hs2 & Hl2).
  exists eng2. cbn [fire_all]. unfold bind. rewrite H1. split_and!; [done|congruence|congruence].
Qed.

(** The kills of a group swap. *)
Definition group_killed (work : list BucketWork) eng : engine P St :=
  fold_left (λ eng1 w, fold_left (λ eng2 id, kill_one (eset eng) id eng2) (WorkSuperseded w) eng1) work eng.

(** A group swap that publishes, step by step. *)
Lemma ReplaceBucketGroup_run ctx n cs work eng eng' st pub :
  ReplaceBucketGroup ctx n cs work eng = (eng', Ok (st, Ok pub)) →
  let es := resolve (eset eng) cs in
  ∃ eng2 slots added remove,
    harvestGroup ctx es (bucketSpans es n) 0 work n (group_killed work eng) = (eng2, Ok slots) ∧
    fold_harvest work slots [] ∅ (list_to_set (sid <$> es)) = Ok (added, pub, remove) ∧
    lives eng' = lives eng2 ∧
    entries (eset eng') =
      (if decide (added = []) then entries (eset eng2)
       else survivors (entries (eset eng2)) remove ++ fst (stampGroupSupersession added (sid <$> es))).
Proof.
  unfold ReplaceBucketGroup. destruct (ctx_entry ctx); [|by intros [= _ ?]]. cbn [negb].
  intros H. set (es := resolve (eset eng) cs). run_split.
  match goal with H : harvestGroup _ _ _ _ _ _ _ = (?e, Ok ?s) |- _ =>
    rename e into eng2, s into slots, H into Hh end.
  fold es in H, Hh. fold (group_killed work eng) in Hh.
  destruct (fold_harvest work slots [] ∅ (list_to_set (sid <$> es)))
    as [[[added pub'] remove]|err] eqn:Hf.
  2:{ apply bind_Ok in H as (? & ? & _ & H). by injection H. }
  destruct (ctx_publish ctx); [|by injection H]. cbn [negb] in H.
  case_decide as Hnil.
  - injection H as <- <- <-. exists eng2, slots, added, remove. subst added.
    split_and!; [done|done|done|by rewrite decide_True].
  - cbn [stampGroupSupersession] in H. run_split.
    match goal with H : fire_all ?a ?sv ?e0 = (?e1, _) |- _ =>
      destruct (fire_all_run a sv e0) as (eng3 & Hfire & Hs3 & Hl3); rewrite Hfire in H;
      injection H as <- end.
    match goal with H : _ = pub |- _ => subst pub end.
    exists eng2, slots, added, remove.
    split_and!; [done|done|by rewrite Hl3|by rewrite decide_False, Hs3].
Qed.

Lemma live_in_stamp eng e sup cohort id :
  live_in eng (stampSupersession e sup cohort) id = live_in eng e id.
Proof. by destruct sup. Qed.

Lemma inv_placed eng e : eng_inv eng → e ∈ entries (eset eng) → placed eng e.
Proof.
  intros Hinv He. pose proof (wf_of eng e Hinv He) as [_ Hm (l & Hl & _) _].
  split; [|done]. apply (ei_fresh eng Hinv). by rewrite Hl.
Qed.

(** What a group swap owes for nothing to be lost: the scratch file reads back, the
    builds degrade nothing, a partition's documents belong to it, the partitions cover
    the constituents' members, and ids do not collide: a resident segment outside the
    constituents whose id a partition's build has holds what that build indexes. *)
Record group_ok eng (n : Z) (cs : list string) (work : list BucketWork) : Prop := {
  go_map : ∀ b, MapBlob (opts eng) b = Ok b;
  go_build : Forall (λ w, fst (Build (dedupeDocsByID (Docs w))) = ∅) work;
  go_docs : ∀ w id, w ∈ work → id ∈ DocID <$> Docs w → BucketOf id n = Bucket w;
  go_cover : ∀ e id, e ∈ entries (eset eng) → sid e ∈ cs → is_Some (members e !! id) →
    ∃ w, w ∈ work ∧ Bucket w = BucketOf id n;
  go_fresh : ∀ w e id, w ∈ work → e ∈ entries (eset eng) → fresh_id (Docs w) (sid e) →
    sid e ∉ cs → is_Some (members e !! id) → id ∈ indexed_ids P St Q (Docs w)
}.

Lemma elem_of_concat_fmap {A} (f : BucketWork → list A) (work : list BucketWork) x :
  x ∈ concat (f <$> work) ↔ ∃ w, w ∈ work ∧ x ∈ f w.
Proof.
  rewrite list_elem_of_In, in_concat. split.
  - intros (l & Hl & Hx). apply list_elem_of_In in Hl, Hx.
    apply list_elem_of_fmap in Hl as (w & -> & Hw). by exists w.
  - intros (w & Hw & Hx). exists (f w). split; apply list_elem_of_In; [|done].
    by apply list_elem_of_fmap_2.
Qed.

(** The copies a published group leaves live. *)
Lemma group_live ctx n cs work eng eng' st pub :
  eng_inv eng → single_live eng → group_ok eng n cs work →
  ReplaceBucketGroup ctx n cs work eng = (eng', Ok (st, Ok pub)) →
  ∃ new remove, Forall (λ x, x ∈ cs ∨ ∃ w, w ∈ work ∧ fresh_id (Docs w) x) (elements remove) ∧
    (∀ id, (∃ e, e ∈ new ∧ live_in eng' e id = true) ↔
       ∃ w, w ∈ work ∧ wanted (group_killed work eng) (resolve (eset eng) cs) w n id) ∧
    (∀ e id, e ∈ entries (eset eng) → live_in eng' e id = true ↔
       live_in eng e id = true ∧ id ∉ concat (WorkSuperseded <$> work)) ∧
    (∀ e id, e ∈ entries (eset eng) → live_in (group_killed work eng) e id = true ↔
       live_in eng e id = true ∧ id ∉ concat (WorkSuperseded <$> work)) ∧
    ((new = [] ∧ entries (eset eng') = entries (eset eng)) ∨
     ∃ sup cohort, entries (eset eng')
       = survivors (entries (eset eng)) remove ++ ((λ e, stampSupersession e sup cohort) <$> new)).
Proof.
  intros Hinv Hsingle Hok Hrun.
  destruct (kill_work_spec (eset eng) work eng eq_refl Hinv Hsingle) as (Kinv & _ & Kset & Kopts & Klive).
  fold (group_killed work eng) in Kinv, Kset, Kopts, Klive.
  set (es := resolve (eset eng) cs).
  apply ReplaceBucketGroup_run in Hrun as (eng2 & slots & new & remove & Hh & Hf & Hl2 & Hes).
  fold es in Hh, Hf, Hes.
  assert (sid_unique es) as Hu by apply resolve_unique, ei_set, Hinv.
  assert (Forall (placed (group_killed work eng)) es) as Hplaced.
  { apply Forall_forall. intros e He. apply inv_placed; [done|]. rewrite Kset.
    by apply elem_of_resolve in He as [? _]; [|apply ei_set]. }
  destruct (harvestGroup_Ok ctx (group_killed work eng) es 0 work n (group_killed work eng) eng2 slots)
    as [Hx Hall]; [done|done|rewrite Kopts; apply (go_map _ _ _ _ Hok)|apply (go_build _ _ _ _ Hok)
      |done|by eapply fold_harvest_no_err; [eapply harvestGroup_length|]|done|].
  destruct (fold_harvest_ok _ _ _ _ _ _ _ _ _ _ Hall Hf) as (new' & Hnew & Hp & _ & Hsup & Hlive).
  simpl in Hnew, Hsup. subst new'.
  assert (∀ e id, live_in eng' e id = live_in eng2 e id) as Hsame
    by (intros e id; unfold live_in, live_of; by rewrite Hl2).
  exists new, remove. split_and!.
  - apply Forall_forall. intros x Hx'. apply elem_of_elements, Hsup in Hx'.
    destruct Hx' as [Hx'|Hx']; [left|by right]. apply elem_of_list_to_set in Hx'.
    apply list_elem_of_fmap in Hx' as (e & -> & He).
    by apply elem_of_resolve in He as [_ ?]; [|apply ei_set].
  - intros id. setoid_rewrite Hsame. apply Hlive.
  - intros e id He. rewrite Hsame, (extends_live_in _ _ _ _ Hx); [by apply Klive|].
    by apply inv_placed; [|rewrite Kset].
  - done.
  - rewrite (ex_set _ _ Hx), Kset in Hes. case_decide as Hnil; [by left|]. right.
    unfold stampGroupSupersession in Hes. cbn [fst] in Hes. eauto.
Qed.

(** What the partitions of a covering group want, together. *)
Lemma group_wanted n cs work eng id :
  eng_inv eng → group_ok eng n cs work →
  (∀ e i, e ∈ entries (eset eng) → live_in (group_killed work eng) e i = true ↔
     live_in eng e i = true ∧ i ∉ concat (WorkSuperseded <$> work)) →
  (∃ w, w ∈ work ∧ wanted (group_killed work eng) (resolve (eset eng) cs) w n id) ↔
  (∃ e, e ∈ entries (eset eng) ∧ sid e ∈ cs ∧ live_in eng e id = true ∧
     id ∉ concat (WorkSuperseded <$> work)) ∨
  id ∈ concat ((λ w, indexed_ids P St Q (Docs w)) <$> work).
Proof.
  intros Hinv Hok Hk. rewrite (elem_of_concat_fmap (λ w, indexed_ids P St Q (Docs w))). split.
  - intros (w & Hw & Hb & [(x & Hx & Hl)|Hd]); [left|right; by exists w].
    apply elem_of_resolve in Hx as [Hx Hc]; [|by apply ei_set].
    apply Hk in Hl; [|done]. by exists x.
  - intros [(e & He & Hc & Hl)|(w & Hw & Hd)].
    + destruct (go_cover _ _ _ _ Hok e id He Hc) as (w & Hw & Hb);
        [by eapply live_in_held; destruct Hl|].
      exists w. split; [done|]. split; [done|]. left. exists e.
      split; [apply elem_of_resolve; [by apply ei_set|done]|by apply Hk].
    + exists w. split; [done|]. split; [by eapply go_docs, indexed_ids_sub|by right].
Qed.

(** A resident entry the group removes is one of the constituents, or a copy of what
    one of the partitions brought. *)
Lemma group_removed n cs work eng (remove : gset string) e id :
  group_ok eng n cs work →
  Forall (λ x, x ∈ cs ∨ ∃ w, w ∈ work ∧ fresh_id (Docs w) x) (elements remove) →
  e ∈ entries (eset eng) → sid e ∈ remove → sid e ∉ cs → is_Some (members e !! id) →
  id ∈ concat ((λ w, indexed_ids P St Q (Docs w)) <$> work).
Proof.
  intros Hok Hrem He Hs Hc Hm. rewrite Forall_forall in Hrem.
  destruct (Hrem (sid e)) as [?|(w & Hw & Hf)]; [by apply elem_of_elements|done|].
  apply (elem_of_concat_fmap (λ w, indexed_ids P St Q (Docs w))). exists w. split; [done|]. by eapply go_fresh.
Qed.
End Consolidate.

(** C1: a group swap that publishes loses no document and resurrects none: an id is
    searchable afterwards exactly when it was searchable and not superseded, or a
    partition brought a document with it that the format indexes; whatever constituents,
    narrowing and partition count.  The swap must be in order: the scratch file reads back
    what was merged into it, the builds report nothing, each partition's documents fall in
    its bucket, the partitions cover the buckets of the constituents' members, and a
    segment that is not a constituent but has the content hash of a partition's build
    holds what that build indexes ([group_ok]); and every live copy is at first the one
    the route names. *)
Theorem ReplaceBucketGroup_conserves {P St Q : Type}
    `{F : SegmentFormat P St Q, BL : !BuildLaws P St Q, ML : !MergeLaws P St Q}
    (ctx : ctx_answers) (n : Z) (cs : list string) (work : list BucketWork)
    (eng eng' : engine P St) (st : GroupHarvestStats) (pub : gmap Z string) :
  eng_inv eng → single_live eng → group_ok eng n cs work →
  ReplaceBucketGroup ctx n cs work eng = (eng', Ok (st, Ok pub)) →
  ∀ id, searchable eng' id ↔
    (searchable eng id ∧ id ∉ concat (WorkSuperseded <$> work)) ∨
    id ∈ concat ((λ w, indexed_ids P St Q (Docs w)) <$> work).
Proof.
  intros Hinv Hsingle Hok Hrun id.
  destruct (group_live _ _ _ _ _ _ _ _ Hinv Hsingle Hok Hrun)
    as (new & remove & Hrem & Hnew & Hold & Hk & Hes).
  specialize (Hnew id). rewrite (group_wanted n cs work eng id Hinv Hok Hk) in Hnew.
  unfold searchable. split.
  - intros (e & He & Hl).
    assert (e ∈ entries (eset eng) ∨ ∃ e', e' ∈ new ∧ live_in eng' e' id = true) as [Hin|Hin].
    { destruct Hes as [[_ Hes]|(sup & cohort & Hes)]; rewrite Hes in He; [by left|].
      apply elem_of_app in He as [He|He]; [left; by apply elem_of_survivors in He as [_ ?]|].
      apply list_elem_of_fmap in He as (e' & -> & He'). rewrite live_in_stamp in Hl.
      right. by exists e'. }
    + apply Hold in Hl as [Hl Hs]; [|done]. left. split; [by exists e|done].
    + apply Hnew in Hin as [(x & Hx & _ & Hlx & Hs)|?]; [left|by right]. split; [by exists x|done].
  - assert ((∃ e, e ∈ new ∧ live_in eng' e id = true) →
            ∃ e, e ∈ entries (eset eng') ∧ live_in eng' e id = true) as Hpub.
    { intros (e & He & Hl). destruct Hes as [[-> _]|(sup & cohort & Hes)];
        [by apply elem_of_nil in He|].
      exists (stampSupersession e sup cohort). rewrite live_in_stamp. split; [|done].
      rewrite Hes. apply elem_of_app. right. apply list_elem_of_fmap. by exists e. }
    intros [[(e & He & Hl) Hs]|Hd]; [|apply Hpub, Hnew; by right].
    destruct (decide (sid e ∈ cs)) as [Hc|Hc].
    { apply Hpub, Hnew. left. by exists e. }
    destruct (decide (sid e ∈ remove)) as [Hr|Hr].
    { apply Hpub, Hnew. right. eapply group_removed; [done..|]. by eapply live_in_held. }
    exists e. split; [|by apply Hold].
    destruct Hes as [[_ ->]|(sup & cohort & ->)]; [done|].
    apply elem_of_app. left. by apply elem_of_survivors.
Qed.

(** ** Concrete runs *)

Module Swaps.
Import Runs.

(** Two batches over two buckets; the group moves the document "d" on. *)
Definition e2 : eng := after (AddSealAndSupersede [doc "d" "v1"; doc "b" "v2"]) e1.
Definition work : list BucketWork :=
  [mkWork 1 ["d"] [doc "d" "v2"]; mkWork 0 [] []].
Definition cs : list string := sid <$> entries (eset e2).

Definition stats_of (r : result engErr (GroupHarvestStats * result engErr (gmap Z string))) :
    GroupHarvestStats :=
  match r with Ok (st, _) => st | Err _ => mkStats 0 0 0 end.
Definition pub_of (r : result engErr (GroupHarvestStats * result engErr (gmap Z string))) :
    gmap Z string :=
  match r with Ok (_, Ok pub) => pub | _ => ∅ end.

(** An index whose merger is armed at one segment, over two segments: the second holds
    the live copy of "x", the first holds the dead one and "y". *)
Definition armed : eng :=
  after (AddSealAndSupersede [doc "x" "1"])
    (after (AddSealAndSupersede [doc "y" "1"; doc "x" "1"])
      (New 0 (mkOptions 1 two 1 true true true readBlobFromFile))).
Definition merged : eng := after maybeMerge armed.

(** What the merge hook was told: the removed ids and the merged id. *)
Definition hook (ev : event) : list string * string :=
  match ev with EvMerge r => (Removed r, BlobID (Merged r)) | _ => ([], "") end.
End Swaps.

(** A background merge whose output reproduces one of its constituents tells its
    owner to remove the very segment it published, and stamps that segment as
    superseding itself: the exported corpus then imports as empty, and nothing fails. *)
Theorem doMerge_can_supersede_its_output :
  let m := Swaps.merged in
  Runs.found "" m = ["x"; "y"] ∧
  (∃ x rest, sid <$> entries (eset m) = [x] ∧ Swaps.hook <$> events m = [(x :: rest, x)]) ∧
  snd (Import (Export m) [] Runs.e0) = Ok () ∧
  Runs.found "" (Runs.after (Import (Export m) []) Runs.e0) = [].
Proof.
  cbv zeta. split; [vm_compute; reflexivity|]. split.
  - eexists _, _. vm_compute. split; reflexivity.
  - split; vm_compute; reflexivity.
Qed.

(** ** Witnesses *)

Lemma e2_inv : eng_inv Swaps.e2 ∧ single_live Swaps.e2.
Proof.
  destruct e1_inv as [H1 H2].
  apply (supersede_single_live Runs.e1 Swaps.e2 [Runs.doc "d" "v1"; Runs.doc "b" "v2"]
    (Runs.sealed_id (snd (AddSealAndSupersede [Runs.doc "d" "v1"; Runs.doc "b" "v2"] Runs.e1))));
    try assumption; [done|vm_compute; reflexivity..].
Qed.

Lemma e2_group_ok : group_ok Swaps.e2 2 Swaps.cs Swaps.work.
Proof.
  split.
  - intros b. vm_compute. reflexivity.
  - repeat constructor.
  - intros w id Hw Hid. apply elem_of_cons in Hw as [->|Hw].
    + apply list_elem_of_singleton in Hid as ->. vm_compute. reflexivity.
    + apply list_elem_of_singleton in Hw as ->. by apply elem_of_nil in Hid.
  - intros e id He _ Hid.
    assert (Forall (λ e, set_Forall (λ id, BucketOf id 2 = 1%Z ∨ BucketOf id 2 = 0%Z)
      (dom (members e))) (entries (eset Swaps.e2))) as Hall
      by (apply (bool_decide_unpack _); vm_compute; exact I).
    rewrite Forall_forall in Hall. apply elem_of_dom in Hid.
    destruct (Hall e He id Hid) as [->| ->].
    + exists (mkWork 1 ["d"] [Runs.doc "d" "v2"]). split; [by left|done].
    + exists (mkWork 0 [] []). split; [by right; left|done].
  - intros w e id _ He _ Hc. destruct Hc. by apply list_elem_of_fmap_2.
Qed.

Lemma ReplaceBucketGroup_conserves_witness :
  let run := ReplaceBucketGroup ctx_open 2 Swaps.cs Swaps.work Swaps.e2 in
  searchable (fst run) "a" ∧ searchable (fst run) "d" ∧ Runs.found "" (fst run) = ["a"; "b"; "d"].
Proof.
  intros run.
  assert (∀ id, searchable (fst run) id ↔
    (searchable Swaps.e2 id ∧ id ∉ concat (WorkSuperseded <$> Swaps.work)) ∨
    id ∈ concat ((λ w, indexed_ids TableFormat.table nat string (Docs w)) <$> Swaps.work)) as Hc.
  { apply (ReplaceBucketGroup_conserves ctx_open 2 Swaps.cs Swaps.work Swaps.e2 (fst run)
      (Swaps.stats_of (snd run)) (Swaps.pub_of (snd run)));
      [apply e2_inv|apply e2_inv|apply e2_group_ok|vm_compute; reflexivity]. }
  split; [|split].
  - apply Hc. left. split.
    + assert (Exists (λ e, live_in Swaps.e2 e "a" = true) (entries (eset Swaps.e2))) as Hex
        by (apply (bool_decide_unpack _); vm_compute; exact I).
      apply Exists_exists in Hex as (e & He & Hl). exists e. exact (conj He Hl).
    + apply (bool_decide_unpack _). vm_compute. exact I.
  - apply Hc. right. apply (bool_decide_unpack _). vm_compute. exact I.
  - vm_compute. reflexivity.
Defined.
