(* ===== verification/EngineShip.v ===== *)
(** * Shipping and loading segments, verified

    Import is a function of the batch: which entries it publishes depends on the
    stored bytes and the resident ids only.  Export followed by import restores an
    index; importing again changes nothing; a declined segment's documents are carried
    by the segments kept, when records are written in order. *)

From Stdlib Require Import Ascii Floats.SpecFloat.
From S2P Require Import Prelude LiveDocs TopK Bucket Supersession SegmentSet Bm25Search Bm25Format Format Engine.
From S2P Require Import EngineSwap EngineLoad EngineProps EngineWrites EngineConsolidate.

Section Ship.
Context {P St Q : Type} `{F : SegmentFormat P St Q}.
Implicit Types (eng : engine P St) (e : segmentEntry P) (s : segmentSet P St).

(** ** Decoding a batch *)

(** The segment a raised corruption is stamped with. *)
Definition stamped (id cid : string) : string := if decide (cid = "") then id else cid.

Definition stamp (id : string) (err : formatErr) : formatErr :=
  match err with Corrupt true cid detail => Corrupt true (stamped id cid) detail | _ => err end.

(** What a stored blob says, without the engine. *)
Definition read_blob (blob : SegmentBlob) : result engErr (string * P * supersessionRecord) :=
  match decodeSupersessionEnvelope (Envelope blob) with
  | Err err => Err (EEnvelope err)
  | Ok rec => match Decode (Bytes blob) with
              | Err err => Err (EFormat err)
              | Ok seg => match IDs seg with
                          | Err err => Err (EFormat (stamp (BlobID blob) err))
                          | Ok _ => Ok (BlobID blob, seg, rec)
                          end
              end
  end.

(** The segment that a contained corruption withdraws. *)
Definition withdrawn (err : formatErr) : list string :=
  match err with Corrupt true x _ => if decide (x = "") then [] else [x] | _ => [] end.

(** The segments that are withdrawn because the ids of a blob cannot be read. *)
Definition corrupt_of (blob : SegmentBlob) : list string :=
  match decodeSupersessionEnvelope (Envelope blob), Decode (Bytes blob) with
  | Ok _, Ok seg => match IDs seg with Err err => withdrawn (stamp (BlobID blob) err) | Ok _ => [] end
  | _, _ => []
  end.

Lemma corrupt_of_read blob k : read_blob blob = Ok k → corrupt_of blob = [].
Proof.
  unfold read_blob, corrupt_of. destruct (decodeSupersessionEnvelope _); [|done].
  destruct (Decode _) as [seg|]; [|done]. by destruct (IDs seg).
Qed.

Fixpoint read_blobs (blobs : list SegmentBlob) :
    result engErr (list (string * P * supersessionRecord)) :=
  match blobs with
  | [] => Ok []
  | blob :: blobs =>
      match read_blob blob, read_blobs blobs with
      | Err err, _ => Err err
      | Ok _, Err err => Err err
      | Ok k, Ok ks => Ok (k :: ks)
      end
  end.

(** What identifies an entry across processes. *)
Definition stored_key e : string * P * supersessionRecord := (sid e, payload e, record e).

(** An entry just decoded: its members live unless tombstoned. *)
Record imported (ts : list string) eng e : Prop := {
  im_wf : entry_wf (lives eng) e;
  im_placed : live e < next_live eng;
  im_live : ∀ id, live_in eng e id = true ↔ is_Some (members e !! id) ∧ id ∉ ts
}.

Lemma imported_extends ts eng eng' e : extends eng eng' → imported ts eng e → imported ts eng' e.
Proof.
  intros Hx [[Hid Hm (l & Hl & Hw) Hc] Hp Hlive]. split.
  - split; [done|done| |done]. exists l. by rewrite (ex_lives _ _ Hx).
  - pose proof (ex_next _ _ Hx). lia.
  - intros id. by rewrite (extends_live_in eng eng').
Qed.

(** What decoding does to the index: bitsets are allocated, and the segments of [gone]
    leave. *)
Record decoding (gone : list string) eng eng' : Prop := {
  dc_entries : entries (eset eng') = filter (λ e, sid e ∉ gone) (entries (eset eng));
  dc_extends : gone = [] → extends eng eng'
}.

Lemma decoding_extends eng eng' : extends eng eng' → decoding [] eng eng'.
Proof.
  intros Hx. split; [|done]. rewrite (ex_set _ _ Hx). symmetry. apply list_filter_every, Forall_forall.
  intros e _. by intros ?%elem_of_nil.
Qed.

Lemma decoding_trans gone1 gone2 eng1 eng2 eng3 :
  decoding gone1 eng1 eng2 → decoding gone2 eng2 eng3 → decoding (gone1 ++ gone2) eng1 eng3.
Proof.
  intros [He1 Hx1] [He2 Hx2]. split.
  - rewrite He2, He1. clear. induction (entries (eset eng1)) as [|e es IH]; [done|].
    rewrite !filter_cons. destruct (decide (sid e ∉ gone1)) as [H1|H1].
    + rewrite filter_cons, IH. apply decide_ext. rewrite elem_of_app. tauto.
    + rewrite IH, decide_False; [done|]. rewrite elem_of_app. tauto.
  - intros [Hg1 Hg2]%app_eq_nil. transitivity eng2; auto.
Qed.

Lemma entryFromDecoded_run ts blob seg eng :
  ∃ eng' r, entryFromDecoded seg blob ts eng = (eng', r) ∧ extends eng eng' ∧
    match IDs seg with
    | Err err => r = Err (EFormat err) ∧ eng' = eng
    | Ok _ => ∃ e, r = Ok e ∧ sid e = BlobID blob ∧ payload e = seg ∧
        imported ts eng' e ∧ live e = next_live eng
    end.
Proof.
  unfold entryFromDecoded, bind at 1, lift_format.
  destruct (IDs seg) as [ids|err] eqn:Hids; [|by eexists eng, _].
  assert (ids_of seg = ids) as Hof by (unfold ids_of; by rewrite Hids). rewrite <-Hof in *. clear ids Hof.
  set (ms := members_of (ids_of seg)).
  set (l := newLiveDocsFromTombstones (Z.of_nat (length (ids_of seg))) ts ms).
  set (eng' := set_lives (<[next_live eng := l]> (lives eng)) (S (next_live eng)) eng).
  eexists eng', _. split; [reflexivity|]. split.
  { split; [done|done|simpl; lia| |].
    - intros loc Hloc. simpl. by rewrite lookup_insert_ne by lia.
    - intros Hfr loc. simpl. destruct (decide (next_live eng = loc)) as [<-|Hne]; [lia|].
      rewrite lookup_insert_ne by done. intros Hl%Hfr. lia. }
  eexists. split; [reflexivity|]. split; [done|]. split; [done|]. split; [|done].
  destruct (tombstones_fold ts ms (newLiveDocs (Z.of_nat (length (ids_of seg))))
    (newLiveDocs_wf (Z.of_nat (length (ids_of seg))) ltac:(lia))) as (Hwf & Hn & Hlive).
  split; [split| |]; simpl.
  - done.
  - done.
  - exists l. rewrite lookup_insert_eq. split; [done|]. split; [exact Hwf|exact Hn].
  - done.
  - lia.
  - intros id. unfold live_in, live_of. simpl. rewrite lookup_insert_eq. simpl. fold ms.
    destruct (ms !! id) as [o|] eqn:Ho; [|by split; [|intros [[? ?] _]]].
    unfold l, newLiveDocsFromTombstones. rewrite Hlive, andb_true_iff, negb_true_iff,
      bool_decide_eq_false, Exists_exists.
    pose proof Ho as Ho'. apply members_of_lookup in Ho' as (i & -> & Hi).
    rewrite Live_newLiveDocs, in_range_spec by lia. simpl. apply lookup_lt_Some in Hi as Hlt.
    split.
    + intros [_ Hn']. split; [done|]. intros Hin. apply Hn'. by exists id.
    + intros [_ Hn']. split; [lia|]. intros (id' & Hin & Ho'). apply Hn'.
      apply members_of_lookup in Ho' as (j & Heq & Hj). apply Nat2Z.inj in Heq. subst j.
      assert (id' = id) as -> by congruence. done.
Qed.

(** A raised corruption is contained: the error names the segment, which is withdrawn. *)
Lemma containCorrupt_Err {A} id (m : M P St A) eng err :
  m eng = (eng, Err (EFormat err)) →
  ∃ eng', containCorrupt id m eng = (eng', Err (EFormat (stamp id err))) ∧
    decoding (withdrawn (stamp id err)) eng eng'.
Proof.
  intros Hm. unfold containCorrupt, bind at 1, attempt. rewrite Hm.
  destruct err as [[] cid detail|msg|]; [|exists eng; split; [done|]; by apply decoding_extends..].
  cbn [stamp withdrawn]. fold (stamped id cid). set (x := stamped id cid).
  destruct (decide (x = "")) as [Hx|Hx].
  - eexists. split; [unfold reportCorrupt; rewrite Hx, decide_True by done; reflexivity|].
    apply decoding_extends. case_match; by split.
  - destruct (reportCorrupt_spec x detail eng Hx) as (eng' & Hr & Hl & He).
    exists eng'. unfold bind. rewrite Hr. split; [done|]. split; [|done]. rewrite He.
    apply list_filter_iff. intros e. by rewrite list_elem_of_singleton.
Qed.

Lemma containCorrupt_done {A} id (m : M P St A) eng eng' a :
  m eng = (eng', Ok a) → containCorrupt id m eng = (eng', Ok a).
Proof. intros Hm. unfold containCorrupt, bind, attempt. by rewrite Hm. Qed.

Lemma import_blob_run ts blob eng :
  ∃ eng' r, import_blob ts blob eng = (eng', r) ∧ decoding (corrupt_of blob) eng eng' ∧
    match read_blob blob with
    | Err err => r = Err err
    | Ok k => ∃ e, r = Ok e ∧ stored_key e = k ∧ imported ts eng' e ∧ live e = next_live eng
    end.
Proof.
  unfold import_blob, corrupt_of, read_blob, bind at 1, lift.
  destruct (decodeSupersessionEnvelope (Envelope blob)) as [rec|err];
    [|eexists eng, _; split_and!; [done|by apply decoding_extends|done]].
  unfold bind at 1, lift_format.
  destruct (Decode (Bytes blob)) as [seg|err] eqn:Hd.
  2:{ eexists eng, _. split_and!; [done|by apply decoding_extends|done]. }
  destruct (entryFromDecoded_run ts blob seg eng) as (eng' & r & Hrun & Hx & Hr).
  destruct (IDs seg) as [ids|err].
  - destruct Hr as (e & -> & Hs & Hp & Hi & Hl). eexists eng', _. unfold bind.
    rewrite (containCorrupt_done _ _ _ _ _ Hrun). split; [reflexivity|].
    split; [by apply decoding_extends|]. eexists. split; [done|].
    split; [unfold stored_key, with_record, sid in *; simpl; by rewrite Hs, Hp|].
    split; [|done]. destruct Hi as [[] ? ?]. by split.
  - destruct Hr as [-> ->]. destruct (containCorrupt_Err (BlobID blob) _ eng err Hrun) as (eng2 & Hc & Hg).
    eexists eng2, _. unfold bind. by rewrite Hc.
Qed.

(** A batch decodes to one entry per blob, at fresh addresses, or fails with the first
    blob's error in batch order. *)
Lemma import_all_run ts blobs eng :
  ∃ eng' r, import_all ts blobs eng = (eng', r) ∧ decoding (concat (corrupt_of <$> blobs)) eng eng' ∧
    match read_blobs blobs with
    | Err err => r = Err err
    | Ok ks => extends eng eng' ∧ ∃ es, r = Ok es ∧ stored_key <$> es = ks ∧ Forall (imported ts eng') es ∧
        NoDup (live <$> es) ∧ Forall (λ e, next_live eng ≤ live e) es
    end.
Proof.
  revert eng. induction blobs as [|blob blobs IH]; intros eng.
  { exists eng, (Ok []). split; [done|]. split; [by apply decoding_extends|]. cbn.
    split; [done|]. exists []. split_and!; by try constructor. }
  destruct (import_blob_run ts blob eng) as (eng1 & r1 & H1 & Hx1 & Hr1).
  destruct (IH eng1) as (eng2 & r2 & H2 & Hx2 & Hr2).
  cbn [import_all read_blobs]. unfold bind, attempt. rewrite H1, H2. eexists eng2, _.
  split; [reflexivity|]. split; [by eapply decoding_trans|].
  destruct (read_blob blob) as [k|err] eqn:Hb; [|by rewrite Hr1].
  destruct Hr1 as (e & -> & Hk & Hi & Hl). apply dc_extends in Hx1; [|by eapply corrupt_of_read].
  destruct (read_blobs blobs) as [ks|err]; [|by rewrite Hr2].
  destruct Hr2 as (Hx & es & -> & Hks & His & Hnd & Hge). split; [by transitivity eng1|].
  exists (e :: es). pose proof (im_placed _ _ _ Hi) as Hlt. split_and!.
  - done.
  - by rewrite fmap_cons, Hk, Hks.
  - constructor; [by eapply imported_extends|done].
  - rewrite fmap_cons. constructor; [|done]. intros (e' & Heq & He')%list_elem_of_fmap.
    rewrite Forall_forall in Hge. specialize (Hge e' He'). lia.
  - constructor; [lia|]. eapply Forall_impl; [exact Hge|]. intros e' He'. simpl in *.
    pose proof (ex_next _ _ Hx1). lia.
Qed.

(** ** Publishing a batch *)

Lemma fresh_entries_sub present (es : list (segmentEntry P)) :
  fresh_entries present es `sublist_of` es.
Proof.
  revert present. induction es as [|e es IH]; intros present; [done|]. cbn [fresh_entries].
  case_decide; [by apply sublist_cons|by apply sublist_skip].
Qed.

Lemma fresh_entries_nodup present (es : list (segmentEntry P)) :
  NoDup (sid <$> fresh_entries present es) ∧ ∀ e, e ∈ fresh_entries present es → sid e ∉ present.
Proof.
  revert present. induction es as [|e es IH]; intros present.
  { split; [constructor|]. by intros e ?%elem_of_nil. }
  cbn [fresh_entries]. case_decide as Hp; [apply IH|].
  destruct (IH ({[sid e]} ∪ present)) as [Hnd Hn]. split.
  - rewrite fmap_cons. constructor; [|done]. intros (e' & Heq & He')%list_elem_of_fmap.
    apply (Hn e' He'). rewrite <-Heq. set_solver.
  - intros e' [->|He']%elem_of_cons; [done|]. specialize (Hn e' He'). set_solver.
Qed.

Lemma fresh_entries_covered present (es : list (segmentEntry P)) e :
  e ∈ es → sid e ∈ present ∨ sid e ∈ sid <$> fresh_entries present es.
Proof.
  revert present. induction es as [|x es IH]; intros present; [by intros ?%elem_of_nil|].
  cbn [fresh_entries]. intros [->|He]%elem_of_cons.
  - case_decide; [by left|]. right. rewrite fmap_cons. by left.
  - case_decide as Hp; [by apply IH|]. rewrite fmap_cons.
    destruct (IH ({[sid x]} ∪ present) He) as [Hin|Hin]; [|by right; right].
    apply elem_of_union in Hin as [Hin|Hin]; [|by left].
    apply elem_of_singleton in Hin. right. rewrite Hin. by left.
Qed.

Lemma fresh_entries_none (present : gset string) (es : list (segmentEntry P)) :
  (∀ e, e ∈ es → sid e ∈ present) → fresh_entries present es = [].
Proof.
  induction es as [|e es IH]; [done|]. intros Hall. cbn [fresh_entries].
  rewrite decide_True by (apply Hall; by left). apply IH. intros e' He'. apply Hall. by right.
Qed.

Lemma fresh_entries_all (present : gset string) (es : list (segmentEntry P)) :
  NoDup (sid <$> es) → (∀ e, e ∈ es → sid e ∉ present) → fresh_entries present es = es.
Proof.
  revert present. induction es as [|e es IH]; [done|]. intros present Hnd Hall.
  rewrite fmap_cons in Hnd. apply NoDup_cons in Hnd as [Hn Hnd]. cbn [fresh_entries].
  rewrite decide_False by (apply Hall; by left). f_equal. apply IH; [done|].
  intros e' He'. rewrite elem_of_union, elem_of_singleton. intros [Heq|Hin].
  - apply Hn. rewrite <-Heq. by apply list_elem_of_fmap_2.
  - by eapply Hall; [right|].
Qed.

Lemma publishImport_run (es : list (segmentEntry P)) eng :
  ∃ eng', publishImport es eng = (eng', Ok ()) ∧ lives eng' = lives eng ∧
    next_live eng' = next_live eng ∧
    let fresh := fresh_entries (list_to_set (sid <$> entries (eset eng))) es in
    (fresh = [] → eset eng' = eset eng) ∧
    (fresh ≠ [] → eset eng' = newSegmentSet (entries (eset eng) ++ fresh)) ∧
    entries (eset eng') = entries (eset eng) ++ fresh.
Proof.
  unfold publishImport, bind at 1, get.
  set (fresh := fresh_entries (list_to_set (sid <$> entries (eset eng))) es).
  case_decide as Hf.
  - exists eng. rewrite Hf. split_and!; try done. by rewrite app_nil_r.
  - eexists. split; [reflexivity|]. by split_and!.
Qed.

(** ** Declining the superseded *)

Lemma elem_of_honored (es : list (segmentEntry P)) x :
  x ∈ honored es ↔ ∃ e, e ∈ es ∧ empty_record (record e) = false ∧
    subsetPresent (Cohort (record e)) (list_to_set (sid <$> es)) = true ∧ x ∈ Superseded (record e).
Proof.
  unfold honored. generalize (list_to_set (sid <$> es) : gset string) as present. intros present.
  induction es as [|e es IH].
  { simpl. split; [set_solver|]. by intros (e & ?%elem_of_nil & _). }
  simpl. case_match eqn:Hb.
  - rewrite IH. split.
    + intros (e' & He' & Hr). exists e'. split; [by right|done].
    + intros (e' & [->|He']%elem_of_cons & He & Hs & Hx); [|by exists e'].
      by rewrite He, Hs in Hb.
  - apply orb_false_iff in Hb as [He Hs]. apply negb_false_iff in Hs.
    rewrite elem_of_union, elem_of_list_to_set, IH. split.
    + intros [Hx|(e' & He' & Hr)]; [exists e; split; [by left|done]|].
      exists e'. split; [by right|done].
    + intros (e' & [->|He']%elem_of_cons & Hr); [left; by destruct Hr as (_ & _ & ?)|].
      right. by exists e'.
Qed.

Lemma subsetPresent_spec ids present :
  subsetPresent ids present = true ↔ ids ≠ [] ∧ ∀ x, x ∈ ids → x ∈ present.
Proof.
  unfold subsetPresent. destruct ids as [|x ids]; [split; [done|by intros [? _]]|].
  rewrite forallb_forall. split.
  - intros H. split; [done|]. intros y Hy. by apply (bool_decide_eq_true_1 _), H, list_elem_of_In.
  - intros [_ H] y Hy. apply bool_decide_eq_true_2, H. by apply list_elem_of_In.
Qed.

Lemma honored_key (es1 es2 : list (segmentEntry P)) :
  (λ e, (sid e, record e)) <$> es1 = (λ e, (sid e, record e)) <$> es2 → honored es1 = honored es2.
Proof.
  intros Heq.
  assert (sid <$> es1 = sid <$> es2) as Hs.
  { apply (f_equal (fmap fst)) in Heq. by rewrite <-!list_fmap_compose in Heq. }
  assert (∀ es : list (segmentEntry P), ∀ x, x ∈ honored es ↔
    ∃ r, r ∈ (λ e, (sid e, record e)) <$> es ∧ empty_record (snd r) = false ∧
    subsetPresent (Cohort (snd r)) (list_to_set (sid <$> es)) = true ∧ x ∈ Superseded (snd r)) as H.
  { intros es x. rewrite elem_of_honored. split.
    - intros (e & He & Hr). exists (sid e, record e). split; [|done].
      apply list_elem_of_fmap. by exists e.
    - intros (r & Hin & Hr). apply list_elem_of_fmap in Hin as (e & -> & He). by exists e. }
  apply set_eq. intros x. by rewrite !H, Heq, Hs.
Qed.

(** ** Import *)

(** What an import that returned has done. *)
Record import_done (ts : list string) eng (es : list (segmentEntry P)) eng' : Prop := {
  id_extends : ∃ eng1, extends eng eng1 ∧ lives eng' = lives eng1 ∧ next_live eng' = next_live eng1;
  id_imported : Forall (imported ts eng') es;
  id_nodup : NoDup (live <$> es);
  id_above : Forall (λ e, next_live eng ≤ live e) es;
  id_set : let fresh := fresh_entries (list_to_set (sid <$> entries (eset eng))) (declineSuperseded es) in
    (fresh = [] → eset eng' = eset eng) ∧
    (fresh ≠ [] → eset eng' = newSegmentSet (entries (eset eng) ++ fresh)) ∧
    entries (eset eng') = entries (eset eng) ++ fresh
}.

Lemma imported_lives ts eng eng' e :
  lives eng' = lives eng → next_live eng' = next_live eng → imported ts eng e → imported ts eng' e.
Proof.
  intros Hl Hn [H1 H2 H3]. split; [by rewrite Hl|by rewrite Hn|].
  intros id. rewrite <-H3. unfold live_in, live_of. by rewrite Hl.
Qed.

Lemma Import_run blobs ts eng :
  ∃ eng' r, Import blobs ts eng = (eng', r) ∧
    match read_blobs blobs with
    | Err err => r = Err err ∧
        entries (eset eng') = filter (λ e, sid e ∉ concat (corrupt_of <$> blobs)) (entries (eset eng))
    | Ok ks => r = Ok () ∧ ∃ es, stored_key <$> es = ks ∧ import_done ts eng es eng'
    end.
Proof.
  unfold Import. case_decide as Hnil.
  { subst blobs. exists eng, (Ok ()). split; [done|]. simpl. split; [done|]. exists [].
    split; [done|]. split; [by exists eng|constructor|constructor|constructor|].
    unfold declineSuperseded. simpl. by rewrite app_nil_r. }
  destruct (import_all_run ts blobs eng) as (eng1 & r & H1 & Hx & Hr). unfold bind. rewrite H1.
  destruct (read_blobs blobs) as [ks|err].
  2:{ subst r. eexists _, _. split; [reflexivity|]. split; [done|]. apply (dc_entries _ _ _ Hx). }
  clear Hx. destruct Hr as (Hx & es & -> & Hks & His & Hnd & Hge).
  destruct (publishImport_run (declineSuperseded es) eng1) as (eng2 & H2 & Hl & Hn & Hset).
  rewrite H2. eexists _, _. split; [reflexivity|]. split; [done|]. exists es. split; [done|].
  rewrite (ex_set _ _ Hx) in Hset. split; [by exists eng1| |done|done|done].
  eapply Forall_impl; [exact His|]. intros e. by apply imported_lives.
Qed.

Lemma done_live_in ts eng es eng' e id :
  import_done ts eng es eng' → live e < next_live eng → live_in eng' e id = live_in eng e id.
Proof.
  intros [(eng1 & Hx & Hl & Hn) _ _ _ _] Hlt.
  rewrite <-(extends_live_in eng eng1) by done. unfold live_in, live_of. by rewrite Hl.
Qed.

Lemma done_inv ts eng es eng' : eng_inv eng → import_done ts eng es eng' → eng_inv eng'.
Proof.
  intros Hinv Hdone. pose proof Hdone as [(eng1 & Hx & Hl & Hn) His Hnd Hge Hset].
  set (fresh := fresh_entries _ _) in Hset. destruct Hset as (Hset0 & Hset1 & Hes).
  assert (fresh `sublist_of` es) as Hsub.
  { etrans; [apply fresh_entries_sub|]. apply sublist_filter. }
  destruct (fresh_entries_nodup (list_to_set (sid <$> entries (eset eng))) (declineSuperseded es))
    as [Hfnd Hfn]. fold fresh in Hfnd, Hfn.
  assert (∀ e, e ∈ fresh → e ∈ es) as Hin by (intros e He; by eapply elem_of_sublist).
  rewrite Forall_forall in His, Hge.
  assert (∀ e, e ∈ entries (eset eng) → live e < next_live eng) as Hold
    by (intros e He; by apply inv_placed).
  split.
  - destruct (decide (fresh = [])) as [Hf|Hf]; [rewrite Hset0; [apply Hinv|done]|].
    rewrite Hset1 by done. apply newSegmentSet_inv. rewrite fmap_app. apply NoDup_app.
    split_and!; [apply inv_nodup, Hinv| |done].
    intros x Hx1 (e & -> & He)%list_elem_of_fmap. apply (Hfn e He). by apply elem_of_list_to_set.
  - rewrite Hes. apply Forall_app. split.
    + apply Forall_forall. intros e He. pose proof (wf_of eng e Hinv He) as [Hid Hm (l & Hle & Hw) Hc].
      split; [done|done| |done]. exists l. rewrite Hl, (ex_lives _ _ Hx) by (by apply Hold). done.
    + apply Forall_forall. intros e He. by apply im_wf with (ts := ts), His, Hin.
  - rewrite Hes, fmap_app. apply NoDup_app. split_and!; [by apply ei_addr| |].
    + intros loc (e & -> & He)%list_elem_of_fmap (e' & Heq & He')%list_elem_of_fmap.
      pose proof (Hold e He). pose proof (Hge e' (Hin e' He')) as Hg. simpl in Hg. lia.
    + eapply sublist_NoDup; [exact Hnd|by apply fmap_sublist].
  - rewrite Hl, Hn. apply (ex_fresh _ _ Hx). apply (ei_fresh eng Hinv).
Qed.

(** ** Round trip *)

(** The record a stored blob gives back. *)
Definition stored_record (r : supersessionRecord) : supersessionRecord :=
  if empty_record r then noRecord else canonical r.

(** What a record owes to fit the stored form. *)
Definition storable (r : supersessionRecord) : Prop :=
  empty_record r = false → record_fits r.

Lemma envelope_stored r :
  storable r → decodeSupersessionEnvelope (encodeSupersessionPrefix r) = Ok (stored_record r).
Proof.
  unfold storable, stored_record. destruct (empty_record r) eqn:He.
  - intros _. unfold encodeSupersessionPrefix. by rewrite He.
  - intros Hfits. unfold decodeSupersessionEnvelope.
    rewrite <-(app_nil_r (encodeSupersessionPrefix r)), decode_encoded by auto. done.
Qed.

Lemma Export_read `{!CodecLaws P St Q} eng :
  (∀ e, e ∈ entries (eset eng) →
    (∃ b, Encode (payload e) = Ok b) ∧ (∃ ids, IDs (payload e) = Ok ids) ∧ storable (record e)) →
  read_blobs (Export eng)
  = Ok ((λ e, (sid e, payload e, stored_record (record e))) <$> entries (eset eng)).
Proof.
  unfold Export. induction (entries (eset eng)) as [|e es IH]; intros Hall; [done|].
  destruct (Hall e ltac:(by left)) as ([b Hb] & [ids Hids] & Hst). cbn [omap list_omap].
  unfold blobParts at 1. rewrite Hb. cbn [result_bind read_blobs].
  unfold read_blob at 1. cbn [Envelope Bytes BlobID entry_blob fst snd].
  rewrite envelope_stored by done. rewrite (Encode_Decode _ _ Hb), Hids.
  change (omap _ es) with (omap (λ e, match blobParts e with
    Ok parts => Some (entry_blob e parts) | Err _ => None end) es).
  rewrite IH; [done|]. intros e' He'. apply Hall. by right.
Qed.

(** Records with the same names are honored alike. *)
Lemma honored_stored (es1 es2 : list (segmentEntry P)) :
  (λ e, (sid e, record e)) <$> es2 = (λ e, (sid e, stored_record (record e))) <$> es1 →
  honored es2 = honored es1.
Proof.
  intros Heq.
  assert (sid <$> es2 = sid <$> es1) as Hs.
  { apply (f_equal (fmap fst)) in Heq. by rewrite <-!list_fmap_compose in Heq. }
  assert (∀ (r : supersessionRecord) present, empty_record r = false →
    empty_record (stored_record r) = false ∧
    subsetPresent (Cohort (stored_record r)) present = subsetPresent (Cohort r) present ∧
    ∀ x, x ∈ Superseded (stored_record r) ↔ x ∈ Superseded r) as Hrec.
  { intros r present He. unfold stored_record. rewrite He. split_and!.
    - unfold empty_record, canonical in *. apply bool_decide_eq_false in He.
      apply bool_decide_eq_false. simpl. by rewrite sortedUnique_nil.
    - apply eq_true_iff_eq. rewrite !subsetPresent_spec. simpl. rewrite sortedUnique_nil.
      by setoid_rewrite elem_of_sortedUnique.
    - intros x. simpl. apply elem_of_sortedUnique. }
  assert (∀ r, empty_record r = true → empty_record (stored_record r) = true) as Hemp
    by (intros r He; unfold stored_record; by rewrite He).
  apply set_eq. intros x. rewrite !elem_of_honored, Hs. split.
  - intros (e2 & He2 & Hn & Hp & Hx).
    apply (list_elem_of_fmap_2 (λ e, (sid e, record e))) in He2. rewrite Heq in He2.
    apply list_elem_of_fmap in He2 as (e1 & [= _ Hr] & He1). exists e1. rewrite Hr in Hn, Hp, Hx.
    destruct (empty_record (record e1)) eqn:He; [by rewrite Hemp in Hn|].
    destruct (Hrec (record e1) (list_to_set (sid <$> es1)) He) as (_ & H2 & H3).
    rewrite H2 in Hp. apply H3 in Hx. done.
  - intros (e1 & He1 & Hn & Hp & Hx).
    apply (list_elem_of_fmap_2 (λ e, (sid e, stored_record (record e)))) in He1.
    rewrite <-Heq in He1. apply list_elem_of_fmap in He1 as (e2 & [= _ Hr] & He2).
    exists e2. rewrite <-Hr.
    destruct (Hrec (record e1) (list_to_set (sid <$> es1)) Hn) as (H1 & H2 & H3).
    rewrite H2. by rewrite H3.
Qed.

Lemma decline_keys {A} (f1 f2 : segmentEntry P → A) (es1 es2 : list (segmentEntry P)) :
  honored es2 = honored es1 →
  (λ e, (sid e, f2 e)) <$> es2 = (λ e, (sid e, f1 e)) <$> es1 →
  (λ e, (sid e, f2 e)) <$> declineSuperseded es2 = (λ e, (sid e, f1 e)) <$> declineSuperseded es1.
Proof.
  unfold declineSuperseded. intros ->. generalize (honored es1) as dead. intros dead. revert es2.
  induction es1 as [|e1 es1 IH]; intros [|e2 es2] Heq; try done.
  rewrite !fmap_cons in Heq. injection Heq as Hs Hf Heq. rewrite !filter_cons, Hs.
  case_decide; [|by apply IH]. rewrite !fmap_cons, Hs, Hf. f_equal. by apply IH.
Qed.
End Ship.

(** C13: exporting an index and importing it into a fresh one restores it, if each of its
    segments encodes and the names in each record fit the record's layout: the same
    segments in the same order, but for those the records supersede, with the same ids,
    payloads, members and records (their id lists sorted), every member live unless
    tombstoned. *)
Theorem Export_Import_roundtrip {P St Q : Type} `{F : SegmentFormat P St Q, !CodecLaws P St Q}
    (eng : engine P St) (fresh_id : nat) (o : Options) (ts : list string) :
  eng_inv eng →
  (∀ e, e ∈ entries (eset eng) → (∃ b, Encode (payload e) = Ok b) ∧ storable (record e)) →
  ∃ eng', Import (Export eng) ts (New fresh_id o) = (eng', Ok ()) ∧ eng_inv eng' ∧
    (λ e, (sid e, payload e, members e, record e)) <$> entries (eset eng')
    = (λ e, (sid e, payload e, members e, stored_record (record e)))
        <$> declineSuperseded (entries (eset eng)) ∧
    ∀ e id, e ∈ entries (eset eng') →
      live_in eng' e id = true ↔ is_Some (members e !! id) ∧ id ∉ ts.
Proof.
  intros Hinv Hall.
  destruct (Import_run (Export eng) ts (New fresh_id o)) as (eng' & r & Hrun & Hr).
  rewrite (Export_read eng) in Hr.
  2:{ intros e He. destruct (Hall e He). split_and!; [done| |done]. eexists. apply (wf_of eng e Hinv He). }
  destruct Hr as (-> & es & Hks & Hdone).
  exists eng'. split; [done|]. split; [eapply done_inv; [apply New_inv|done]|].
  pose proof (id_set _ _ _ _ Hdone) as (_ & _ & Hes). simpl in Hes.
  assert ((λ e, (sid e, record e)) <$> es
          = (λ e, (sid e, stored_record (record e))) <$> entries (eset eng)) as Hrec.
  { apply (f_equal (fmap (λ k : string * P * supersessionRecord, (k.1.1, k.2)))) in Hks.
    by rewrite <-!list_fmap_compose in Hks. }
  pose proof (honored_stored _ _ Hrec) as Hhon.
  assert (sid <$> es = sid <$> entries (eset eng)) as Hsids.
  { apply (f_equal (fmap fst)) in Hrec. by rewrite <-!list_fmap_compose in Hrec. }
  rewrite fresh_entries_all in Hes.
  2:{ eapply sublist_NoDup; [|apply fmap_sublist, sublist_filter].
      rewrite Hsids. apply inv_nodup, Hinv. }
  2:{ intros e _. set_solver. }
  pose proof (id_imported _ _ _ _ Hdone) as His. rewrite Forall_forall in His.
  rewrite Hes. split.
  - assert ((λ e, (sid e, (payload e, members e, record e))) <$> declineSuperseded es
      = (λ e, (sid e, (payload e, members e, stored_record (record e))))
          <$> declineSuperseded (entries (eset eng))) as Hfull.
    { apply decline_keys; [done|].
      assert (∀ e, e ∈ entries (eset eng) → members e = members_of (ids_of (payload e))) as Hm1
        by (intros e He; apply (wf_of eng e Hinv He)).
      assert (∀ e, e ∈ es → members e = members_of (ids_of (payload e))) as Hm2
        by (intros e He; apply (im_wf _ _ _ (His e He))).
      clear -Hks Hm1 Hm2. revert es Hks Hm2.
      induction (entries (eset eng)) as [|e1 es1 IH]; intros [|e2 es2] Hks Hm2; try done.
      rewrite !fmap_cons in Hks. rewrite !fmap_cons. injection Hks as Hs Hp Hr Hks.
      rewrite (Hm1 e1), (Hm2 e2), Hs, Hp, Hr by (by left). f_equal. apply IH; [|done|].
      - intros e He. apply Hm1. by right.
      - intros e He. apply Hm2. by right. }
    apply (f_equal (fmap (λ k : string * (P * idSet * supersessionRecord),
      (k.1, k.2.1.1, k.2.1.2, k.2.2)))) in Hfull.
    by rewrite <-!list_fmap_compose in Hfull.
  - intros e id He. apply list_elem_of_filter in He as [_ He]. apply (im_live _ _ _ (His e He)).
Qed.

(** An import that fails publishes nothing, and the resident segments that leave are those
    named by corruptions raised while its blobs were read; one that returns appends the
    batch's surviving segments that were not resident, keeps every resident copy's
    liveness, and importing the batch again changes nothing. *)
Theorem Import_idempotent {P St Q : Type} `{SegmentFormat P St Q} (eng : engine P St)
    (blobs : list SegmentBlob) (ts : list string) :
  eng_inv eng →
  let '(eng1, r) := Import blobs ts eng in
  match r with
  | Err _ => entries (eset eng1)
      = filter (λ e, sid e ∉ concat (corrupt_of <$> blobs)) (entries (eset eng))
  | Ok _ => eng_inv eng1 ∧
      (∃ new, entries (eset eng1) = entries (eset eng) ++ new ∧
         ∀ e id, e ∈ new → live_in eng1 e id = true ↔ is_Some (members e !! id) ∧ id ∉ ts) ∧
      (∀ e id, e ∈ entries (eset eng) → live_in eng1 e id = live_in eng e id) ∧
      ∃ eng2, Import blobs ts eng1 = (eng2, Ok ()) ∧ eset eng2 = eset eng1 ∧
        ∀ e id, e ∈ entries (eset eng1) → live_in eng2 e id = live_in eng1 e id
  end.
Proof.
  intros Hinv. destruct (Import_run blobs ts eng) as (eng1 & r & -> & Hr).
  destruct (Import_run blobs ts eng1) as (eng2 & r2 & -> & Hr2).
  destruct (read_blobs blobs) as [ks|err]; [|by destruct Hr as [-> ?]].
  destruct Hr as (-> & es1 & Hk1 & Hd1), Hr2 as (-> & es2 & Hk2 & Hd2).
  pose proof (done_inv _ _ _ _ Hinv Hd1) as Hinv1.
  pose proof (id_set _ _ _ _ Hd1) as (_ & _ & Hes1). pose proof (id_set _ _ _ _ Hd2) as (Hset2 & _).
  split_and!; [done| | |exists eng2; split_and!; [done| |]].
  - eexists. split; [exact Hes1|]. intros e id He.
    apply (im_live ts). pose proof (id_imported _ _ _ _ Hd1) as His. rewrite Forall_forall in His.
    apply His. eapply elem_of_sublist in He; [|apply fresh_entries_sub].
    by apply list_elem_of_filter in He as [_ ?].
  - intros e id He. eapply done_live_in; [done|]. by apply inv_placed.
  - apply Hset2, fresh_entries_none. intros e He.
    apply list_elem_of_filter in He as [Hdead He].
    assert (honored es2 = honored es1) as Hhon.
    { apply honored_key. rewrite <-Hk1 in Hk2.
      apply (f_equal (fmap (λ k : string * P * supersessionRecord, (k.1.1, k.2)))) in Hk2.
      by rewrite <-!list_fmap_compose in Hk2. }
    apply (list_elem_of_fmap_2 stored_key) in He. rewrite Hk2, <-Hk1 in He.
    apply list_elem_of_fmap in He as (e1 & Heq & He1). injection Heq as Hs _ _.
    apply elem_of_list_to_set. rewrite Hs, Hes1, fmap_app, elem_of_app.
    destruct (fresh_entries_covered (list_to_set (sid <$> entries (eset eng)))
      (declineSuperseded es1) e1) as [Hin|Hin].
    + apply list_elem_of_filter. split; [|done]. by rewrite <-Hs, <-Hhon.
    + left. by apply elem_of_list_to_set in Hin.
    + by right.
  - intros e id He. eapply done_live_in; [done|]. by apply inv_placed.
Qed.

(** C39: declining the superseded loses no document.  When a segment's documents are
    carried by the cohort of the record that supersedes it, and records are written in
    order (what is superseded is older than the cohort), every document some segment
    of a batch holds is held by a segment the import keeps. *)
Theorem declineSuperseded_loses_nothing {P : Type} (es : list (segmentEntry P))
    (docs : string → gset string) (age : string → nat) (d : string) :
  (∀ e x, e ∈ es → subsetPresent (Cohort (record e)) (list_to_set (sid <$> es)) = true →
     x ∈ Superseded (record e) →
     (∃ c, c ∈ Cohort (record e) ∧ (d ∈ docs x → d ∈ docs c)) ∧
     ∀ c, c ∈ Cohort (record e) → age x < age c) →
  (∃ e, e ∈ es ∧ d ∈ docs (sid e)) ↔ ∃ e, e ∈ declineSuperseded es ∧ d ∈ docs (sid e).
Proof.
  intros Hcarry. split.
  2:{ intros (e & He & Hd). apply list_elem_of_filter in He as [_ He]. by exists e. }
  intros (e & He & Hd). set (M := max_list (age ∘ sid <$> es)).
  assert (∀ e, e ∈ es → age (sid e) ≤ M) as Hmax.
  { intros x Hx. apply (max_list_elem_of_le (age (sid x)) (age ∘ sid <$> es)).
    apply list_elem_of_fmap. by exists x. }
  remember (M - age (sid e)) as n eqn:Hn. revert e He Hd Hn.
  induction n as [n IH] using lt_wf_ind. intros e He Hd Hn.
  destruct (decide (sid e ∈ honored es)) as [Hh|Hh].
  - apply elem_of_honored in Hh as (h & Hin & _ & Hp & Hx).
    destruct (Hcarry h (sid e) Hin Hp Hx) as [(c & Hc & Hdc) Hage].
    pose proof Hp as Hp'. apply subsetPresent_spec in Hp' as [_ Hp'].
    specialize (Hp' c Hc). apply elem_of_list_to_set, list_elem_of_fmap in Hp' as (e' & -> & He').
    specialize (Hage (sid e') Hc). pose proof (Hmax e He). pose proof (Hmax e' He').
    eapply (IH (M - age (sid e'))); [lia|exact He'|auto|done].
  - exists e. split; [|done]. by apply list_elem_of_filter.
Qed.

(** ** Concrete runs *)

Module Loads.
Import Runs.

(** One document, consolidated to a new content and back: the blobs the owner has
    stored when it stops before reclaiming the middle one. *)
Definition first : eng := after (AddSealAndSupersede [doc "x" "1"]) e0.
Definition ids (e : eng) : list string := sid <$> entries (eset e).
Definition moved : eng := after (ReplaceBucket 0 1 (ids first) ["x"] [doc "x" "2"]) first.
Definition back : eng := after (ReplaceBucket 0 1 (ids moved) ["x"] [doc "x" "1"]) moved.
Definition stored : list SegmentBlob := Export moved ++ Export back.

(** Two segments of which the second replaced the first. *)
Definition swapped : list (segmentEntry nat) :=
  [mkEntry 0 0 ∅ (mkMeta "a" "" 0 0 0) noRecord 0 None;
   mkEntry 0 1 ∅ (mkMeta "b" "" 0 0 0) (mkSupersession ["a"] ["b"]) 0 None].
End Loads.

(** A document consolidated to a new content and back leaves two segments that
    supersede each other, each its own whole cohort; an import that finds both declines
    both, and an index that answered for the document comes back empty, without an
    error. *)
Theorem mutual_supersession_imports_nothing :
  Runs.found "" Loads.back = ["x"] ∧ length Loads.stored = 2 ∧
  snd (Import Loads.stored [] Runs.e0) = Ok () ∧
  entries (eset (fst (Import Loads.stored [] Runs.e0))) = [] ∧
  Runs.found "1" (Runs.after (Import (Export Loads.back) []) Runs.e0) = ["x"].
Proof. split_and!; vm_compute; reflexivity. Qed.

(** ** Witnesses *)

(** An index of the reference format, and one of the bm25 format. *)
Lemma Export_Import_roundtrip_witness :
  (∃ eng', Import (Export Swaps.e2) ["b"] (New 7 (Runs.index_opts 1)) = (eng', Ok ()) ∧
    sid <$> entries (eset eng') = sid <$> entries (eset Swaps.e2)) ∧
  ∃ eng' : engine Bm25Format.segment CorpusStats, Import (Export Runs.bm25_e1) [] (New 7 (Runs.index_opts 1)) = (eng', Ok ()) ∧
    ∀ e id, e ∈ entries (eset eng') → live_in eng' e id = true ↔ is_Some (members e !! id) ∧ id ∉ [].
Proof.
  split.
  - destruct (Export_Import_roundtrip Swaps.e2 7 (Runs.index_opts 1) ["b"])
      as (eng' & Hrun & _ & Hes & _).
    + apply e2_inv.
    + intros e He.
      assert (Forall (λ e, record e = noRecord) (entries (eset Swaps.e2))) as Hr
        by (apply (bool_decide_unpack _); vm_compute; exact I).
      rewrite Forall_forall in Hr. split; [by eexists|]. rewrite (Hr e He). by intros ?.
    + exists eng'. split; [exact Hrun|].
      apply (f_equal (fmap (λ k : string * TableFormat.table * idSet * supersessionRecord, k.1.1.1)))
        in Hes.
      rewrite <-!list_fmap_compose in Hes.
      change (sid <$> entries (eset eng') = sid <$> declineSuperseded (entries (eset Swaps.e2))) in Hes.
      rewrite Hes. vm_compute. reflexivity.
  - destruct (Export_Import_roundtrip Runs.bm25_e1 7 (Runs.index_opts 1) []) as (eng' & Hrun & _ & _ & Hl).
    + apply bm25_e1_inv.
    + intros e He.
      assert (Forall (λ e, record e = noRecord) (entries (eset Runs.bm25_e1))) as Hr
        by (apply (bool_decide_unpack _); vm_compute; exact I).
      rewrite Forall_forall in Hr. split; [by eexists|]. rewrite (Hr e He). by intros ?.
    + exact (ex_intro _ eng' (conj Hrun Hl)).
Defined.

Lemma Import_idempotent_witness :
  let eng1 := fst (Import (Export Swaps.e2) [] Runs.e1) in
  eng_inv eng1 ∧ length (entries (eset eng1)) = 2.
Proof.
  intros eng1. pose proof (Import_idempotent Runs.e1 (Export Swaps.e2) [] (proj1 e1_inv)) as Hi.
  assert (Import (Export Swaps.e2) [] Runs.e1 = (eng1, Ok ())) as Hrun by (vm_compute; reflexivity).
  rewrite Hrun in Hi. destruct Hi as [Hinv _]. split; [exact Hinv|]. vm_compute. reflexivity.
Defined.

Lemma declineSuperseded_loses_nothing_witness :
  ∃ e, e ∈ declineSuperseded Loads.swapped ∧ "d" ∈ (λ _, {["d"]} : gset string) (sid e).
Proof.
  apply (declineSuperseded_loses_nothing Loads.swapped (λ _, {["d"]})
    (λ x, if decide (x = "b") then 1 else 0) "d").
  - intros e x He _ Hx. apply elem_of_cons in He as [->|He]; [by apply elem_of_nil in Hx|].
    apply list_elem_of_singleton in He as ->. apply list_elem_of_singleton in Hx as ->.
    split; [exists "b"; split; [by left|done]|].
    intros c Hc. apply list_elem_of_singleton in Hc as ->. vm_compute. lia.
  - eexists. split; [by left|]. set_solver.
Defined.
