(* ===== verification/EngineReads.v ===== *)
(** * Read-outs and remaps of the engine, verified

    The residency aggregates agree with what a search can return, the two partition
    read-outs agree with each other, and a remap changes nothing a reader can see. *)

From Stdlib Require Import Ascii Floats.SpecFloat.
From S2P Require Import Prelude LiveDocs TopK Bucket Supersession SegmentSet Format Engine.
From S2P Require Import EngineSwap EngineLoad EngineProps EngineWrites EngineConsolidate.

Section Reads.
Context {P St Q : Type} `{F : SegmentFormat P St Q}.
Implicit Types (eng : engine P St) (e : segmentEntry P) (s : segmentSet P St).

(** ** The index by id *)

Lemma entryIndex_fold (es : list (segmentEntry P)) x e :
  NoDup (sid <$> es) →
  fold_left (λ idx e, <[sid e := e]> idx) es (∅ : gmap string _) !! x = Some e ↔ e ∈ es ∧ sid e = x.
Proof.
  induction es as [|a es IH] using rev_ind; intros Hnd.
  { simpl. rewrite lookup_empty. split; [done|]. by intros [?%elem_of_nil _]. }
  rewrite fmap_app in Hnd. apply NoDup_app in Hnd as (Hnd & Hn & _).
  rewrite fold_left_app. simpl. rewrite elem_of_app, list_elem_of_singleton.
  destruct (decide (sid a = x)) as [<-|Hne].
  - rewrite lookup_insert_eq. split; [intros [= <-]; split; [by right|done]|].
    intros [[He| ->] Hs]; [|done]. exfalso. apply (Hn (sid a)); [|by left].
    rewrite <-Hs. by apply list_elem_of_fmap_2.
  - rewrite lookup_insert_ne, IH by done. naive_solver.
Qed.

Lemma entryIndex_lookup s x e : set_inv s → entryIndex s !! x = Some e ↔ e ∈ entries s ∧ sid e = x.
Proof. intros Hs. apply entryIndex_fold, inv_nodup, Hs. Qed.

(** The read-outs' test: the routed copy is live. *)
Lemma routed_live eng id :
  eng_inv eng → single_live eng →
  match routeOf (eset eng) id with
  | None => false
  | Some x => residentMemberIn eng (entryIndex (eset eng) !! x) id
  end = true ↔ searchable eng id.
Proof.
  intros Hinv Hsingle. rewrite (routeOf_newest (eset eng) id (ei_set eng Hinv)).
  destruct (newest (entries (eset eng)) id) as [h|] eqn:Hn; simpl.
  - pose proof (newest_Some _ _ _ Hn) as [Hh _].
    assert (entryIndex (eset eng) !! sid h = Some h) as ->
      by (apply entryIndex_lookup; [apply Hinv|done]).
    simpl. split; [intros Hl; by exists h|].
    intros (e & He & Hl). pose proof (Hsingle e id He Hl). congruence.
  - split; [done|]. intros (e & He & Hl). pose proof (Hsingle e id He Hl). congruence.
Qed.

(** ** Partitions *)

Lemma SegmentSpans_fold (es : list (segmentEntry P)) n x l :
  NoDup (sid <$> es) →
  fold_left (λ out e,
      if decide (spans_of e n = ∅) then out
      else <[sid e := merge_sort Z.le (elements (spans_of e n))]> out) es (∅ : gmap string _) !! x
    = Some l ↔
  ∃ e, e ∈ es ∧ sid e = x ∧ spans_of e n ≠ ∅ ∧ l = merge_sort Z.le (elements (spans_of e n)).
Proof.
  induction es as [|a es IH] using rev_ind; intros Hnd.
  { simpl. rewrite lookup_empty. split; [done|]. by intros (e & ?%elem_of_nil & _). }
  rewrite fmap_app in Hnd. apply NoDup_app in Hnd as (Hnd & Hn & _).
  rewrite fold_left_app. simpl. specialize (IH Hnd).
  assert (∀ e, e ∈ es → sid e ≠ sid a) as Hne.
  { intros e He Heq. apply (Hn (sid a)); [|by left]. rewrite <-Heq. by apply list_elem_of_fmap_2. }
  setoid_rewrite elem_of_app. setoid_rewrite list_elem_of_singleton.
  case_decide as Hs.
  - rewrite IH. split; intros (e & He & Hr); exists e; [split; [by left|done]|].
    destruct He as [He| ->]; [done|]. by destruct Hr as (_ & Hr & _).
  - destruct (decide (sid a = x)) as [<-|Hx].
    + rewrite lookup_insert_eq. split.
      * intros [= <-]. exists a. split_and!; [by right|done..].
      * intros (e & [He| ->] & Hs' & _ & ->); [by destruct (Hne e He)|done].
    + rewrite lookup_insert_ne, IH by done. split; intros (e & He & Hr); exists e; [split; [by left|done]|].
      destruct He as [He| ->]; [done|]. by destruct Hr as (? & _).
Qed.

(** ** Remapping *)

(** All of an entry but where its payload's bytes live. *)
Definition core e : P * nat * idSet * SegmentMeta * supersessionRecord :=
  (payload e, live e, members e, meta e, record e).

Lemma indexByID_lookup s x i :
  NoDup (sid <$> entries s) →
  indexByID s !! x = Some i ↔ ∃ e, entries s !! i = Some e ∧ sid e = x.
Proof.
  unfold indexByID. generalize (entries s) as es. intros es. revert i.
  induction es as [|a es IH] using rev_ind; intros i Hnd.
  { simpl. rewrite lookup_empty. split; [done|]. by intros (e & ? & _). }
  rewrite fmap_app in Hnd. apply NoDup_app in Hnd as (Hnd & Hn & _).
  rewrite imap_app, fold_left_app. simpl. rewrite Nat.add_0_r.
  destruct (decide (sid a = x)) as [<-|Hne].
  - rewrite lookup_insert_eq. split.
    + intros [= <-]. exists a. split; [by rewrite list_lookup_middle|done].
    + intros (e & Hi & Hs). apply lookup_app_Some in Hi as [Hi|[Hle Hi]].
      * exfalso. apply (Hn (sid a)); [|by left]. rewrite <-Hs.
        apply list_elem_of_fmap_2. by eapply list_elem_of_lookup_2.
      * apply list_lookup_singleton_Some in Hi as [Hi _]. f_equal. lia.
  - rewrite lookup_insert_ne, IH by done. split; intros (e & Hi & Hs); exists e; (split; [|done]).
    + by apply lookup_app_l_Some.
    + apply lookup_app_Some in Hi as [Hi|[_ Hi]]; [done|].
      apply list_lookup_singleton_Some in Hi as [_ <-]. done.
Qed.

(** What a remap owes: bytes stored under a resident id decode to that segment. *)
Definition same_content eng (blobs : list SegmentBlob) : Prop :=
  ∀ blob e seg, blob ∈ blobs → e ∈ entries (eset eng) → sid e = BlobID blob →
    Decode (Bytes blob) = Ok seg → seg = payload e.

Lemma remap_decode_app blobs blob :
  remap_decode (blobs ++ [blob]) =
    let '(o, p) := remap_decode blobs in
    match Decode (Bytes blob) with
    | Err err => (<[BlobID blob := RemapFailed err]> o, p)
    | Ok seg => (<[BlobID blob := RemapDeclined]> o, p ++ [(blob, seg)])
    end.
Proof.
  unfold remap_decode. rewrite fold_left_app. cbn [fold_left].
  by destruct (fold_left _ blobs (∅, [])).
Qed.

Lemma remap_decode_pending blobs blob seg :
  (blob, seg) ∈ snd (remap_decode blobs) ↔ blob ∈ blobs ∧ Decode (Bytes blob) = Ok seg.
Proof.
  induction blobs as [|b blobs IH] using rev_ind.
  { simpl. split; [by intros ?%elem_of_nil|]. by intros [?%elem_of_nil _]. }
  rewrite remap_decode_app. destruct (remap_decode blobs) as [o p]. simpl in IH.
  rewrite elem_of_app, list_elem_of_singleton.
  destruct (Decode (Bytes b)) as [s|err] eqn:Hd; simpl.
  - rewrite elem_of_app, list_elem_of_singleton, IH. split.
    + intros [[? ?]|[= -> ->]]; [split; [by left|done]|split; [by right|done]].
    + intros [[?| ->] ?]; [by left|right; congruence].
  - rewrite IH. split; [intros [? ?]; split; [by left|done]|].
    intros [[?| ->] ?]; [done|congruence].
Qed.

Lemma remap_decode_outcome blobs blob :
  NoDup (BlobID <$> blobs) → blob ∈ blobs →
  fst (remap_decode blobs) !! BlobID blob
  = Some (match Decode (Bytes blob) with Err err => RemapFailed err | Ok _ => RemapDeclined end).
Proof.
  induction blobs as [|b blobs IH] using rev_ind; intros Hnd Hin; [by apply elem_of_nil in Hin|].
  rewrite fmap_app in Hnd. apply NoDup_app in Hnd as (Hnd & Hn & _).
  rewrite remap_decode_app. destruct (remap_decode blobs) as [o p]. simpl in IH.
  apply elem_of_app in Hin as [Hin|Hin].
  - assert (BlobID b ≠ BlobID blob) as Hne.
    { intros Heq. apply (Hn (BlobID blob)); [by apply list_elem_of_fmap_2|].
      apply list_elem_of_singleton. by rewrite Heq. }
    destruct (Decode (Bytes b)); simpl; rewrite lookup_insert_ne by done; by apply IH.
  - apply list_elem_of_singleton in Hin as <-.
    destruct (Decode (Bytes blob)); simpl; by rewrite lookup_insert_eq.
Qed.

(** The position a batch replaces, and by what. *)
Lemma remap_replacements_spec s (pending : list (SegmentBlob * P)) :
  set_inv s →
  (∀ i e', remap_replacements s pending !! i = Some e' →
     ∃ e blob seg, entries s !! i = Some e ∧ (blob, seg) ∈ pending ∧ sid e = BlobID blob ∧
       e' = remap_entry e blob seg) ∧
  (∀ blob seg, (blob, seg) ∈ pending → is_Some (indexByID s !! BlobID blob) →
     remap_replacements s pending ≠ ∅).
Proof.
  intros Hs. unfold remap_replacements.
  induction pending as [|[b sg] pending [IH1 IH2]] using rev_ind.
  { cbn [fold_left]. split; [intros i e'; by rewrite lookup_empty|]. by intros blob seg ?%elem_of_nil. }
  rewrite fold_left_app. cbn [fold_left]. set (m := fold_left _ pending ∅) in *.
  assert (∀ blob seg, (blob, seg) ∈ pending → is_Some (indexByID s !! BlobID blob) → m ≠ ∅ ∧
    ∀ i e, <[i := e]> m ≠ ∅) as IH2'.
  { intros blob seg Hin Hi. split; [by eapply IH2|]. intros i e. apply insert_non_empty. }
  destruct (indexByID s !! BlobID b) as [i|] eqn:Hi.
  - pose proof Hi as Hi'. apply indexByID_lookup in Hi' as (src & Hsrc & Hsid); [|apply Hs].
    rewrite Hsrc. split.
    + intros j e'. destruct (decide (i = j)) as [<-|Hne].
      * rewrite lookup_insert_eq. intros [= <-]. exists src, b, sg.
        split_and!; [done| |done|done]. apply elem_of_app. right. by left.
      * rewrite lookup_insert_ne by done. intros Hj.
        destruct (IH1 j e' Hj) as (e & blob & seg & H1 & H2 & H3).
        exists e, blob, seg. split_and!; [done|apply elem_of_app; by left|apply H3..].
    + intros blob seg _ _. apply insert_non_empty.
  - split.
    + intros j e' Hj. destruct (IH1 j e' Hj) as (e & blob & seg & H1 & H2 & H3).
      exists e, blob, seg. split_and!; [done|apply elem_of_app; by left|apply H3..].
    + intros blob seg [Hin|Hin]%elem_of_app Hx; [by eapply IH2|].
      apply list_elem_of_singleton in Hin as [= -> ->]. rewrite Hi in Hx. by destruct Hx.
Qed.

(** A snapshot whose entries differ only in where their bytes live. *)
Lemma remapped_set eng blobs :
  eng_inv eng → same_content eng blobs →
  let r := remap_replacements (eset eng) (snd (remap_decode blobs)) in
  let s' := withReplacedPayloads (eset eng) r in
  set_inv s' ∧ core <$> entries s' = core <$> entries (eset eng) ∧ stats s' = stats (eset eng).
Proof.
  intros Hinv Hsame r s'.
  destruct (remap_replacements_spec (eset eng) (snd (remap_decode blobs)) (ei_set eng Hinv))
    as [Hr _]. fold r in Hr.
  assert (∀ i e', r !! i = Some e' → ∃ e, entries (eset eng) !! i = Some e ∧ core e' = core e) as Hcore.
  { intros i e' Hi. destruct (Hr i e' Hi) as (e & blob & seg & He & Hp & Hs & ->).
    exists e. split; [done|]. apply remap_decode_pending in Hp as [Hb Hd].
    unfold core, remap_entry. simpl. f_equal. f_equal. f_equal. f_equal.
    eapply (Hsame blob e seg); [exact Hb| |exact Hs|exact Hd]. by eapply list_elem_of_lookup_2. }
  assert (core <$> entries s' = core <$> entries (eset eng)) as Hes.
  { apply list_eq. intros i. unfold s', withReplacedPayloads. simpl.
    rewrite !list_lookup_fmap, list_lookup_imap.
    destruct (entries (eset eng) !! i) as [e|] eqn:Hi; [|done]. simpl.
    destruct (r !! i) as [e'|] eqn:Hi'; [|done]. simpl.
    destruct (Hcore i e' Hi') as (e0 & He0 & Hc). rewrite Hi in He0. injection He0 as <-. by rewrite Hc. }
  split_and!; [|done|].
  - apply withReplacedPayloads_inv; [apply Hinv|]. intros i e' Hi.
    destruct (Hcore i e' Hi) as (e & He & Hc). exists e. split; [done|].
    injection Hc as _ Hl Hm Hmt _. unfold seg_key, sid. congruence.
  - rewrite (inv_stats _ (ei_set eng Hinv)). unfold s', withReplacedPayloads. simpl.
    unfold aggregateStatsOver. f_equal.
    apply (f_equal (fmap (λ c : P * nat * idSet * SegmentMeta * supersessionRecord, c.1.1.1.1))) in Hes.
    by rewrite <-!list_fmap_compose in Hes.
Qed.

Lemma core_Forall2 (es1 es2 : list (segmentEntry P)) :
  core <$> es1 = core <$> es2 → Forall2 (λ a b, core a = core b) es1 es2.
Proof.
  revert es2. induction es1 as [|a es1 IH]; intros [|b es2] Heq; try done.
  rewrite !fmap_cons in Heq. injection Heq as H1 H2 H3 H4 H5 Heq.
  constructor; [unfold core; congruence|by apply IH].
Qed.

Lemma entry_hits_core eng eng' q k accepts a b :
  lives eng' = lives eng → stats (eset eng') = stats (eset eng) → core a = core b →
  entry_hits eng' q k accepts a = entry_hits eng q k accepts b.
Proof.
  intros Hl Hs [= Hp Hlv Hm _ _]. unfold entry_hits, search_accept, live_in, live_of.
  by rewrite Hl, Hs, Hp, Hlv, Hm.
Qed.

Lemma sids_of_core (es1 es2 : list (segmentEntry P)) :
  core <$> es1 = core <$> es2 → sid <$> es1 = sid <$> es2.
Proof.
  intros Heq.
  apply (f_equal (fmap (λ c : P * nat * idSet * SegmentMeta * supersessionRecord, ID c.1.2))) in Heq.
  by rewrite <-!list_fmap_compose in Heq.
Qed.

(** The same segments over the same bits answer alike. *)
Lemma search_core eng eng' q k accepts :
  lives eng' = lives eng → stats (eset eng') = stats (eset eng) →
  core <$> entries (eset eng') = core <$> entries (eset eng) →
  (∀ e, e ∈ entries (eset eng) → sid e ≠ "") → only_corruptions eng q k accepts →
  snd (SearchAccepting q k accepts eng') = snd (SearchAccepting q k accepts eng).
Proof.
  intros Hl Hs Hc Hne Hraise. destruct (Z.leb_spec k 0) as [Hk|Hk].
  { unfold SearchAccepting, bind, get. rewrite (proj2 (Z.leb_le k 0) Hk). by repeat case_decide. }
  assert (∀ e, e ∈ entries (eset eng') → sid e ≠ "") as Hne'.
  { intros e He. apply (list_elem_of_fmap_2 sid) in He. rewrite (sids_of_core _ _ Hc) in He.
    apply list_elem_of_fmap in He as (e0 & -> & He0). by apply Hne. }
  assert (only_corruptions eng' q k accepts) as Hraise'.
  { intros e err He Hr. apply list_elem_of_lookup in He as [i Hi].
    destruct (Forall2_lookup_l _ _ _ _ _ (core_Forall2 _ _ Hc) Hi) as (e0 & Hi0 & [= Hp Hlv Hm _ _]).
    apply (Hraise e0); [by eapply list_elem_of_lookup_2|].
    rewrite <-Hr, Hs, <-Hp. unfold search_accept, live_in, live_of. by rewrite Hl, Hlv, Hm. }
  destruct (SearchAccepting_run eng q k accepts Hk Hne Hraise) as (? & -> & _).
  destruct (SearchAccepting_run eng' q k accepts Hk Hne' Hraise') as (? & -> & _).
  simpl. do 2 f_equal. apply list_eq_Forall2, Forall2_fmap.
  eapply Forall2_impl; [apply core_Forall2, Hc|]. intros a b Hab. simpl.
  by apply entry_hits_core.
Qed.

Lemma entry_wf_core lv a b : core a = core b → entry_wf lv b → entry_wf lv a.
Proof.
  intros [= Hp Hl Hm Hmt _] [H0 H1 H2 H3].
  split; [by rewrite Hp|by rewrite Hm, Hp|by rewrite Hl, Hp|by rewrite Hmt, Hm].
Qed.

Lemma core_inv eng s' :
  eng_inv eng → set_inv s' → core <$> entries s' = core <$> entries (eset eng) →
  eng_inv (set_set s' eng).
Proof.
  intros [H1 H2 H3 H4] Hs Hc. split; simpl; [done| | |done].
  - pose proof (core_Forall2 _ _ Hc) as Hf. clear -Hf H2. revert H2.
    induction Hf as [|a b es es' Hab Hf IH]; intros Hw; [constructor|].
    apply Forall_cons in Hw as [Hw Hws]. constructor; [by eapply entry_wf_core|by apply IH].
  - apply (f_equal (fmap (λ c : P * nat * idSet * SegmentMeta * supersessionRecord, c.1.1.1.2))) in Hc.
    rewrite <-!list_fmap_compose in Hc.
    change (live <$> entries s' = live <$> entries (eset eng)) in Hc. by rewrite Hc.
Qed.

(** The outcomes after the swap. *)
Lemma remap_outcomes (idx : gmap string nat) (pending : list (SegmentBlob * P))
    (out : gmap string RemapOutcome) x :
  fold_left (λ out '(blob, _),
      if decide (is_Some (idx !! BlobID blob)) then <[BlobID blob := RemapRepublished]> out
      else out) pending out !! x
  = if decide (x ∈ (BlobID ∘ fst <$> pending) ∧ is_Some (idx !! x)) then Some RemapRepublished
    else out !! x.
Proof.
  revert out. induction pending as [|[b sg] pending IH]; intros out.
  { cbn [fold_left]. rewrite decide_False; [done|]. by intros [?%elem_of_nil _]. }
  cbn [fold_left]. rewrite IH, fmap_cons. cbn [compose fst].
  destruct (decide (x ∈ (BlobID ∘ fst <$> pending) ∧ is_Some (idx !! x))) as [[Hin Hi]|Hn].
  - rewrite decide_True; [done|]. split; [by right|done].
  - destruct (decide (is_Some (idx !! BlobID b))) as [Hb|Hb].
    + destruct (decide (BlobID b = x)) as [<-|Hne].
      * rewrite lookup_insert_eq, decide_True; [done|]. split; [by left|done].
      * rewrite lookup_insert_ne, decide_False; [done| |done].
        intros [[?|?]%elem_of_cons ?]; [by destruct Hne|by apply Hn].
    + rewrite decide_False; [done|]. intros [[->|?]%elem_of_cons ?]; [done|by apply Hn].
Qed.

Lemma RemapResidentBatch_run eng blobs :
  eng_inv eng → same_content eng blobs → NoDup (BlobID <$> blobs) →
  ∃ s' out, RemapResidentBatch blobs eng = (set_set s' eng, Ok out) ∧
    set_inv s' ∧ core <$> entries s' = core <$> entries (eset eng) ∧ stats s' = stats (eset eng) ∧
    ∀ blob, blob ∈ blobs → out !! BlobID blob
      = Some (match Decode (Bytes blob) with
              | Err err => RemapFailed err
              | Ok _ => if decide (BlobID blob ∈ sid <$> entries (eset eng))
                        then RemapRepublished else RemapDeclined
              end).
Proof.
  intros Hinv Hsame Hnd. destruct (remapped_set eng blobs Hinv Hsame) as (Hs & Hc & Hst).
  pose proof (remap_decode_outcome blobs) as Hout. pose proof (remap_decode_pending blobs) as Hpend.
  unfold RemapResidentBatch. destruct (remap_decode blobs) as [outcomes pending]. simpl in *.
  destruct (remap_replacements_spec (eset eng) pending (ei_set eng Hinv)) as [_ Hnonempty].
  unfold bind, get.
  assert (∀ x, is_Some (indexByID (eset eng) !! x) ↔ x ∈ sid <$> entries (eset eng)) as Hres.
  { intros x. split.
    - intros [i Hi]. apply indexByID_lookup in Hi as (e & Hi & <-); [|apply inv_nodup, Hinv].
      apply list_elem_of_fmap_2. by eapply list_elem_of_lookup_2.
    - intros (e & -> & He)%list_elem_of_fmap. apply list_elem_of_lookup in He as [i Hi].
      exists i. apply indexByID_lookup; [apply inv_nodup, Hinv|by exists e]. }
  case_decide as Hnil.
  - exists (eset eng), outcomes. split; [by destruct eng|].
    split_and!; [apply Hinv|done|done|]. intros blob Hb. rewrite Hout by done. f_equal.
    destruct (Decode (Bytes blob)) as [seg|err] eqn:Hd; [|done].
    rewrite decide_False; [done|]. intros Hr%Hres. by apply (Hnonempty blob seg); [apply Hpend| |].
  - eexists _, _. split; [reflexivity|]. split_and!; [done|done|done|].
    intros blob Hb. rewrite remap_outcomes, Hout by done.
    destruct (Decode (Bytes blob)) as [seg|err] eqn:Hd.
    + destruct (decide (BlobID blob ∈ sid <$> entries (eset eng))) as [Hr|Hr].
      * rewrite decide_True; [done|]. split; [|by apply Hres].
        apply list_elem_of_fmap. exists (blob, seg). split; [done|]. by apply Hpend.
      * rewrite decide_False; [done|]. intros [_ ?%Hres]; done.
    + rewrite decide_False; [done|]. intros [Hin _].
      apply list_elem_of_fmap in Hin as ([b sg] & Heq & Hin). apply Hpend in Hin as [Hin Hdb].
      assert (b = blob) as ->; [|congruence].
      apply (NoDup_fmap_elem BlobID blobs); [done|done|done|]. by rewrite Heq.
Qed.
End Reads.

(** The residency read-outs count what a search can return: the live resident
    count is the number of searchable ids, and the uncovered ids are those no search
    can return, in the caller's order. *)
Theorem readouts_agree_with_search {P St Q : Type} `{SegmentFormat P St Q} (eng : engine P St)
    (found : gset string) (ids : list string) :
  eng_inv eng → single_live eng → (∀ id, id ∈ found ↔ searchable eng id) →
  LiveResidentCount eng = Z.of_nat (size found) ∧
  UncoveredFrom eng ids = filter (λ id, id ∉ found) ids.
Proof.
  intros Hinv Hsingle Hfound. split.
  - unfold LiveResidentCount. f_equal. set (l := filter _ (rangeRoute (eset eng))).
    destruct (rangeRoute_ok (eset eng) (ei_set eng Hinv)) as [Hnd Hin].
    rewrite <-(length_fmap fst), <-(size_list_to_set (C:=gset string)).
    2:{ eapply sublist_NoDup; [exact Hnd|]. apply fmap_sublist, sublist_filter. }
    f_equal. apply set_eq. intros id. rewrite elem_of_list_to_set, Hfound.
    rewrite <-(routed_live eng id Hinv Hsingle), list_elem_of_fmap. split.
    + intros ([i x] & -> & Hl). apply list_elem_of_filter in Hl as [Hr Hl].
      apply Hin in Hl. simpl. by rewrite Hl.
    + destruct (routeOf (eset eng) id) as [x|] eqn:Hr; [|done]. intros Hl. exists (id, x).
      split; [done|]. apply list_elem_of_filter. split; [done|]. by apply Hin.
  - unfold UncoveredFrom. apply list_filter_iff. intros id. rewrite Hfound.
    rewrite <-(routed_live eng id Hinv Hsingle). destruct (routeOf (eset eng) id) as [x|]; [|naive_solver].
    by destruct (residentMemberIn eng _ id).
Qed.

(** The two partition read-outs agree: a segment is a constituent of a bucket
    exactly when its span lists the bucket, that is when one of its members, live or
    dead, hashes there; spans are sorted and duplicate-free. *)
Theorem SegmentSpans_constituents {P St Q : Type} `{SegmentFormat P St Q} (eng : engine P St)
    (n : Z) (x : string) :
  set_inv (eset eng) →
  (∀ b, x ∈ BucketConstituents eng b n ↔ ∃ l, SegmentSpans eng n !! x = Some l ∧ b ∈ l) ∧
  (∀ b, x ∈ BucketConstituents eng b n ↔
     ∃ e id, e ∈ entries (eset eng) ∧ sid e = x ∧ is_Some (members e !! id) ∧ BucketOf id n = b) ∧
  ∀ l, SegmentSpans eng n !! x = Some l → Sorted Z.le l ∧ NoDup l.
Proof.
  intros Hinv. unfold BucketConstituents, SegmentSpans.
  setoid_rewrite (SegmentSpans_fold (entries (eset eng)) n x _ (inv_nodup _ Hinv)).
  assert (∀ b, x ∈ sid <$> filter (λ e, b ∈ spans_of e n) (entries (eset eng)) ↔
    ∃ e, e ∈ entries (eset eng) ∧ sid e = x ∧ b ∈ spans_of e n) as Hc.
  { intros b. rewrite list_elem_of_fmap. split.
    - intros (e & -> & He). apply list_elem_of_filter in He as [Hb He]. by exists e.
    - intros (e & He & <- & Hb). exists e. split; [done|]. by apply list_elem_of_filter. }
  split_and!.
  - intros b. rewrite Hc. split.
    + intros (e & He & Hs & Hb). eexists. split.
      * exists e. split_and!; [done|done| |reflexivity]. set_solver.
      * by rewrite merge_sort_Permutation, elem_of_elements.
    + intros (l & (e & He & Hs & _ & ->) & Hb).
      rewrite merge_sort_Permutation, elem_of_elements in Hb. by exists e.
  - intros b. rewrite Hc. setoid_rewrite elem_of_spans. naive_solver.
  - intros l (e & _ & _ & _ & ->). split.
    + apply Sorted_merge_sort. apply _.
    + rewrite merge_sort_Permutation. apply NoDup_elements.
Qed.

(** A remap is unobservable: republishing stored copies of resident segments
    changes only where their bytes live, so every search that panics with nothing but
    corruptions, every route and every liveness answer is the same, the state stays well formed, and each blob is reported as what happened
    to it: refused, declined because not resident, or republished. *)
Theorem RemapResidentBatch_unobservable {P St Q : Type} `{SegmentFormat P St Q}
    (eng : engine P St) (blobs : list SegmentBlob) :
  eng_inv eng → same_content eng blobs → NoDup (BlobID <$> blobs) →
  (∀ e, e ∈ entries (eset eng) → sid e ≠ "") →
  ∃ eng' out, RemapResidentBatch blobs eng = (eng', Ok out) ∧ eng_inv eng' ∧
    lives eng' = lives eng ∧ core <$> entries (eset eng') = core <$> entries (eset eng) ∧
    (∀ q k accepts, only_corruptions eng q k accepts →
       snd (SearchAccepting q k accepts eng') = snd (SearchAccepting q k accepts eng)) ∧
    (∀ id, routeOf (eset eng') id = routeOf (eset eng) id) ∧
    ∀ blob, blob ∈ blobs → out !! BlobID blob
      = Some (match Decode (Bytes blob) with
              | Err err => RemapFailed err
              | Ok _ => if decide (BlobID blob ∈ sid <$> entries (eset eng))
                        then RemapRepublished else RemapDeclined
              end).
Proof.
  intros Hinv Hsame Hnd Hne.
  destruct (RemapResidentBatch_run eng blobs Hinv Hsame Hnd) as (s' & out & Hrun & Hs & Hc & Hst & Hout).
  exists (set_set s' eng), out. split_and!; [done|by apply core_inv|done|done| | |done].
  - intros q k accepts Hr. by apply search_core.
  - intros id. rewrite !routeOf_newest by (done || apply Hinv). simpl.
    assert (seg_key <$> entries s' = seg_key <$> entries (eset eng)) as Hk.
    { apply (f_equal (fmap (λ c : P * nat * idSet * SegmentMeta * supersessionRecord,
        (ID c.1.2, c.1.1.2, c.1.1.1.2)))) in Hc. by rewrite <-!list_fmap_compose in Hc. }
    pose proof (newest_keys _ _ id Hk) as Hn.
    destruct (newest (entries s') id), (newest (entries (eset eng)) id); try done.
    injection Hn as Hn _ _. simpl. by rewrite Hn.
Qed.

(** ** Witnesses *)

Lemma e2_searchable id : id ∈ ({["a"; "b"; "d"]} : gset string) ↔ searchable Swaps.e2 id.
Proof.
  assert (set_Forall (λ id, Exists (λ e, live_in Swaps.e2 e id = true) (entries (eset Swaps.e2)))
    ({["a"; "b"; "d"]} : gset string)) as Hall by (apply (bool_decide_unpack _); vm_compute; exact I).
  assert (Forall (λ e, set_Forall (λ id, id ∈ ({["a"; "b"; "d"]} : gset string)) (dom (members e)))
    (entries (eset Swaps.e2))) as Hmem by (apply (bool_decide_unpack _); vm_compute; exact I).
  split.
  - intros Hin. specialize (Hall id Hin). apply Exists_exists in Hall as (e & He & Hl).
    exists e. exact (conj He Hl).
  - intros (e & He & Hl). rewrite Forall_forall in Hmem. apply (Hmem e He id).
    apply elem_of_dom. by eapply live_in_held.
Qed.

Lemma readouts_agree_with_search_witness :
  LiveResidentCount Swaps.e2 = 3%Z ∧ UncoveredFrom Swaps.e2 ["z"; "a"; "y"] = ["z"; "y"].
Proof.
  destruct (readouts_agree_with_search Swaps.e2 {["a"; "b"; "d"]} ["z"; "a"; "y"]
    (proj1 e2_inv) (proj2 e2_inv) e2_searchable) as [H1 H2].
  rewrite H1, H2. split; vm_compute; reflexivity.
Defined.

Lemma SegmentSpans_constituents_witness :
  ∃ x l, BucketConstituents Swaps.e2 1 2 = [x] ∧ SegmentSpans Swaps.e2 2 !! x = Some l ∧ 1%Z ∈ l.
Proof.
  destruct (BucketConstituents Swaps.e2 1 2) as [|x [|y l]] eqn:Hc.
  1, 3: exfalso; vm_compute in Hc; discriminate.
  destruct (SegmentSpans_constituents Swaps.e2 2 x (ei_set _ (proj1 e2_inv))) as [Hs _].
  destruct (proj1 (Hs 1%Z)) as (l & Hl & Hin).
  - rewrite Hc. by left.
  - exists x, l. exact (conj eq_refl (conj Hl Hin)).
Defined.

Lemma RemapResidentBatch_unobservable_witness :
  ∃ eng' out, RemapResidentBatch (Export Swaps.e2) Swaps.e2 = (eng', Ok out) ∧ eng_inv eng' ∧
    heapPayload <$> entries (eset Swaps.e2) ≠ [0%Z; 0%Z] ∧
    (map_to_list out).*2 = [RemapRepublished; RemapRepublished].
Proof.
  destruct (RemapResidentBatch_unobservable Swaps.e2 (Export Swaps.e2)) as (eng' & out & Hrun & Hi & _).
  - apply e2_inv.
  - intros blob e seg Hb He Hs Hd.
    assert (Forall (λ b, Forall (λ e, sid e = BlobID b →
      match Decode (Bytes b) with Ok s => bool_decide (s = payload e) | Err _ => false end = true)
      (entries (eset Swaps.e2))) (Export Swaps.e2)) as Hall
      by (apply (bool_decide_unpack _); vm_compute; exact I).
    rewrite Forall_forall in Hall. specialize (Hall blob Hb). rewrite Forall_forall in Hall.
    specialize (Hall e He Hs). rewrite Hd in Hall. exact (bool_decide_eq_true_1 _ Hall).
  - apply (bool_decide_unpack _). vm_compute. exact I.
  - apply Forall_forall. apply (bool_decide_unpack (Forall (λ e, sid e ≠ "") (entries (eset Swaps.e2)))).
    vm_compute. exact I.
  - exists eng', out. split; [exact Hrun|]. split; [exact Hi|].
    assert (out = match snd (RemapResidentBatch (Export Swaps.e2) Swaps.e2) with
                  | Ok o => o | Err _ => ∅ end) as -> by (rewrite Hrun; reflexivity).
    split; vm_compute; [discriminate|reflexivity].
Defined.
