(* ===== verification/Gostd.v ===== *)
(** * The functions of Go's standard library that the modelled sources call

    [strconv.Itoa] (the [%d] of [fmt]) and [strconv.Atoi], [strings.CutPrefix],
    [strings.Cut], [strings.Join], [strings.TrimSpace], [strings.ToLower] on ASCII,
    [sort.SliceStable], slice expressions on strings and left shifts of an int64.
    Strings are byte strings.  *)

From S2P Require Import Prelude.
From Stdlib Require Import Ascii.

#[local] Open Scope Z_scope.

(** ** [strconv.Itoa] and [strconv.Atoi] *)

Definition digit (d : Z) : ascii := ascii_of_N (Z.to_N (48 + d)).
Definition digit_value (c : ascii) : Z := Z.of_N (N_of_ascii c) - 48.
Definition is_digit (c : ascii) : bool := (0 <=? digit_value c) && (digit_value c <=? 9).

(** The decimal digits of [n], written in front of [acc], last digit first. *)
Fixpoint digits (fuel : nat) (n : Z) (acc : string) : string :=
  match fuel with
  | O => acc
  | S fuel' =>
      let acc' := String (digit (n mod 10)) acc in
      if n / 10 =? 0 then acc' else digits fuel' (n / 10) acc'
  end.

(** Twenty digits are enough for every int64. *)
Definition itoa (z : Z) : string :=
  if z <? 0 then String "-" (digits 20 (- z) "") else digits 20 z "".

Fixpoint read_digits (s : string) (acc : Z) : option Z :=
  match s with
  | EmptyString => Some acc
  | String c s' => if is_digit c then read_digits s' (10 * acc + digit_value c) else None
  end.

(** [None] is any of [Atoi]'s errors: a syntax error or a value out of range. *)
Definition Atoi (s : string) : option Z :=
  let '(neg, r) :=
    match s with
    | String "-" r => (true, r)
    | String "+" r => (false, r)
    | _ => (false, s)
    end in
  match r with
  | EmptyString => None
  | _ =>
      n ← read_digits r 0;
      let v := if neg : bool then - n else n in
      if (- 2 ^ 63 <=? v) && (v <? 2 ^ 63) then Some v else None
  end.

Lemma digit_value_digit d : 0 <= d < 10 → digit_value (digit d) = d.
Proof.
  intros H. unfold digit_value, digit. rewrite N_ascii_embedding; lia.
Qed.

Lemma is_digit_digit d : 0 <= d < 10 → is_digit (digit d) = true.
Proof. intros H. unfold is_digit. rewrite (digit_value_digit d H). lia. Qed.

Lemma read_digits_digits f n acc :
  0 <= n < 10 ^ Z.of_nat (S f) → read_digits (digits (S f) n acc) 0 = read_digits acc n.
Proof.
  revert n acc. induction f as [|f IH]; intros n acc Hn.
  - assert (n / 10 = 0) as E by (apply Z.div_small; simpl in Hn; lia).
    cbn [digits]. rewrite E, Z.eqb_refl. cbn [read_digits].
    assert (n mod 10 = n) as -> by (apply Z.mod_small; simpl in Hn; lia).
    rewrite is_digit_digit, digit_value_digit by (simpl in Hn; lia). f_equal.
  - pose proof (Z.mod_pos_bound n 10 ltac:(lia)) as Hm.
    pose proof (Z.div_mod n 10 ltac:(lia)) as Hd.
    cbn [digits]. destruct (Z.eqb_spec (n / 10) 0) as [E|E].
    + cbn [read_digits]. rewrite is_digit_digit, digit_value_digit by lia.
      f_equal. lia.
    + change (read_digits (digits (S f) (n / 10) (String (digit (n mod 10)) acc)) 0
              = read_digits acc n).
      rewrite IH.
      * cbn [read_digits]. rewrite is_digit_digit, digit_value_digit by lia.
        f_equal. lia.
      * rewrite Nat2Z.inj_succ, Z.pow_succ_r in Hn by lia. split.
        -- apply Z.div_pos; lia.
        -- apply Z.div_lt_upper_bound; lia.
Qed.

(** The first byte of a rendering is a digit. *)
Lemma digits_first f n acc :
  0 <= n → ∃ d r, 0 <= d < 10 ∧ digits (S f) n acc = String (digit d) r.
Proof.
  revert n acc. induction f as [|f IH]; intros n acc Hn.
  - pose proof (Z.mod_pos_bound n 10 ltac:(lia)).
    cbn [digits]. destruct (_ =? _); eauto.
  - pose proof (Z.mod_pos_bound n 10 ltac:(lia)).
    cbn [digits]. destruct (_ =? _); [eauto|].
    destruct (IH (n / 10) (String (digit (n mod 10)) acc)) as (d & r & Hd & E).
    { apply Z.div_pos; lia. }
    exists d, r. split; [done|exact E].
Qed.

Lemma digit_ne_sign d : 0 <= d < 10 → digit d ≠ "-"%char ∧ digit d ≠ "+"%char.
Proof.
  intros H. split; intros E; apply (f_equal digit_value) in E;
    rewrite digit_value_digit in E by done; vm_compute in E; lia.
Qed.

Lemma Atoi_nonneg n r :
  0 <= n < 2 ^ 63 →
  (∃ d s, 0 <= d < 10 ∧ r = String (digit d) s) → read_digits r 0 = Some n → Atoi r = Some n.
Proof.
  intros Hn (d & s & Hd & ->) Hr. destruct (digit_ne_sign d Hd) as [H1 H2].
  unfold Atoi.
  assert (match String (digit d) s with
          | String "-" r => (true, r) | String "+" r => (false, r)
          | _ => (false, String (digit d) s) end = (false, String (digit d) s)) as ->.
  { generalize dependent (digit d). intros c _ H1 H2.
    destruct c as [[] [] [] [] [] [] [] []]; done. }
  rewrite Hr. cbn [mbind option_bind].
  destruct (_ && _) eqn:E; [done|]. apply andb_false_iff in E. lia.
Qed.

(** Reading back what [Itoa] writes gives the number. *)
Lemma Atoi_itoa z : int64_range z → Atoi (itoa z) = Some z.
Proof.
  unfold int64_range, itoa. intros Hz. destruct (Z.ltb_spec z 0) as [H|H].
  - unfold Atoi. destruct (digits_first 19 (- z) "") as (d & r & Hd & E); [lia|].
    pose proof (read_digits_digits 19 (- z) "" ltac:(simpl; lia)) as HR.
    rewrite E in HR |- *. rewrite HR. cbn [read_digits mbind option_bind].
    rewrite Z.opp_involutive. destruct (_ && _) eqn:C; [done|].
    apply andb_false_iff in C. lia.
  - apply Atoi_nonneg; [lia|by apply digits_first|].
    by rewrite read_digits_digits by (simpl; lia).
Qed.

(** ** Package [strings] *)

Lemma str_app_assoc a b c : (a +:+ b) +:+ c = a +:+ (b +:+ c).
Proof. induction a as [|x a IH]; [done|]. exact (f_equal (String x) IH). Qed.

Lemma str_app_nil_r s : s +:+ "" = s.
Proof. induction s as [|c s IH]; [done|]. exact (f_equal (String c) IH). Qed.

(** [strings.CutPrefix]. *)
Fixpoint CutPrefix (s p : string) {struct p} : option string :=
  match p, s with
  | EmptyString, _ => Some s
  | String a p', String b s' => if decide (a = b) then CutPrefix s' p' else None
  | String _ _, EmptyString => None
  end.

Lemma CutPrefix_app p s : CutPrefix (p +:+ s) p = Some s.
Proof. induction p as [|a p IH]; [done|]. simpl. by rewrite decide_True. Qed.

Lemma CutPrefix_Some s p r : CutPrefix s p = Some r ↔ s = p +:+ r.
Proof.
  split; [|intros ->; apply CutPrefix_app].
  revert s. induction p as [|a p IH]; intros s H; simpl in H; [by injection H as ->|].
  destruct s as [|b s]; [done|]. case_decide; [subst|done].
  rewrite (IH s H). reflexivity.
Qed.

(** [strings.Cut] around a one-byte separator: what is before and after its first
    occurrence, and whether there is one. *)
Fixpoint Cut (s : string) (sep : ascii) : string * string * bool :=
  match s with
  | EmptyString => (EmptyString, EmptyString, false)
  | String c s' =>
      if decide (c = sep) then (EmptyString, s', true)
      else let '(a, b, found) := Cut s' sep in (String c a, b, found)
  end.

(** [strings.Join]. *)
Fixpoint Join (parts : list string) (sep : string) : string :=
  match parts with
  | [] => ""
  | [p] => p
  | p :: ps => p +:+ sep +:+ Join ps sep
  end.

(** ** Shifts of an int64 *)

(** [x << n] of an int64 keeps the low 64 bits, read as a signed number. *)
Definition shl64 (x n : Z) : Z := wrap64 (Z.shiftl x n).

Lemma shl64_exact x n :
  0 <= x → 0 <= n → x * 2 ^ n < 2 ^ 63 → shl64 x n = x * 2 ^ n.
Proof.
  intros Hx Hn H. unfold shl64. rewrite Z.shiftl_mul_pow2 by done.
  apply wrap64_id. unfold int64_range. split; [|done].
  assert (0 <= x * 2 ^ n) by (apply Z.mul_nonneg_nonneg; lia). lia.
Qed.

(** ** [strings.TrimSpace] and [strings.ToLower] *)

(** The UTF-8 encodings of the white space of Unicode. *)
Definition white_space : list (list ascii) :=
  (λ w : list nat, ascii_of_nat <$> w) <$>
    [[9]; [10]; [11]; [12]; [13]; [32]; [194; 133]; [194; 160]; [225; 154; 128];
     [226; 128; 128]; [226; 128; 129]; [226; 128; 130]; [226; 128; 131]; [226; 128; 132];
     [226; 128; 133]; [226; 128; 134]; [226; 128; 135]; [226; 128; 136]; [226; 128; 137];
     [226; 128; 138]; [226; 128; 168]; [226; 128; 169]; [226; 128; 175]; [226; 129; 159];
     [227; 128; 128]]%nat.

Fixpoint trim_left (runes : list (list ascii)) (fuel : nat) (s : list ascii) : list ascii :=
  match fuel with
  | O => s
  | S fuel' =>
      match list_find (λ w, w `prefix_of` s) runes with
      | Some (_, w) => trim_left runes fuel' (drop (length w) s)
      | None => s
      end
  end.

Definition trim_space (s : list ascii) : list ascii :=
  let l := trim_left white_space (length s) s in
  reverse (trim_left (reverse <$> white_space) (length l) (reverse l)).

Definition TrimSpace (s : string) : string :=
  String.string_of_list_ascii (trim_space (String.list_ascii_of_string s)).

(** A text that neither starts nor ends with a byte of white space is its own trim. *)
Definition no_space_byte (c : ascii) : Prop :=
  Forall (λ w, head w ≠ Some c ∧ last w ≠ Some c) white_space.

Lemma trim_left_stop (runes : list (list ascii)) fuel c s :
  Forall (λ w, w ≠ [] ∧ head w ≠ Some c) runes → trim_left runes fuel (c :: s) = c :: s.
Proof.
  intros H. destruct fuel as [|fuel]; cbn [trim_left]; [done|].
  destruct (list_find _ runes) as [[i w]|] eqn:E; [|done].
  apply list_find_Some in E as (Hi & [t Ht] & _). apply list_elem_of_lookup_2 in Hi.
  rewrite Forall_forall in H. destruct (H w Hi) as [Hn Hh].
  destruct w as [|d w]; [done|]. injection Ht as -> _. done.
Qed.

Lemma trim_space_id a s b : no_space_byte a → no_space_byte b →
  trim_space (a :: s ++ [b]) = a :: s ++ [b].
Proof.
  unfold no_space_byte, trim_space. intros Ha Hb.
  assert (Hne : Forall (λ w : list ascii, w ≠ []) white_space) by by repeat constructor.
  rewrite trim_left_stop.
  2: { rewrite Forall_forall in *. intros w Hw. split; [by apply Hne|apply (Ha w Hw)]. }
  assert (Hr : reverse (a :: s ++ [b]) = b :: reverse (a :: s)).
  { by rewrite app_comm_cons, reverse_app. }
  rewrite Hr, trim_left_stop, <- Hr.
  - apply reverse_involutive.
  - rewrite Forall_forall in *. intros w (v & -> & Hv)%list_elem_of_fmap. split.
    + intros Hv'. apply (f_equal reverse) in Hv'. rewrite reverse_involutive in Hv'. by apply (Hne v Hv).
    + rewrite head_reverse. apply (Hb v Hv).
Qed.

(** Of an ASCII string. *)
Definition lower_byte (c : ascii) : ascii :=
  let n := N_of_ascii c in
  if (65 <=? n)%N && (n <=? 90)%N then ascii_of_N (n + 32) else c.

Definition ToLower (s : string) : string :=
  String.string_of_list_ascii (lower_byte <$> String.list_ascii_of_string s).

(** ** Slice expressions *)

(** [s[i:j]] of a string; [None] is the panic of indices out of range. *)
Definition slice_string (s : string) (i j : Z) : option string :=
  if (0 <=? i) && (i <=? j) && (j <=? Z.of_nat (String.length s))
  then Some (String.substring (Z.to_nat i) (Z.to_nat (j - i)) s) else None.

(** ** [sort.SliceStable] *)

Section SliceStable.
Context {A : Type} (less : A → A → bool).

  (** In front of the first element that is not before it. *)
Fixpoint insert_stable (x : A) (l : list A) : list A :=
    match l with
    | [] => [x]
    | y :: l' => if less y x then y :: insert_stable x l' else x :: l
    end.

Definition SliceStable (l : list A) : list A := foldr insert_stable [] l.

Lemma insert_stable_perm x l : insert_stable x l ≡ₚ x :: l.
Proof.
    induction l as [|y l IH]; cbn; [done|]. destruct (less y x); [|done].
    rewrite IH. apply Permutation_swap.
  Qed.

Lemma SliceStable_perm l : SliceStable l ≡ₚ l.
Proof. induction l as [|x l IH]; cbn; [done|]. by rewrite insert_stable_perm, IH. Qed.

  (** Elements that do not come before each other keep their order. *)
Lemma SliceStable_stable (K : A → Prop) `{∀ x, Decision (K x)} l :
    (∀ x y, K x → K y → less x y = false) → filter K (SliceStable l) = filter K l.
Proof.
    intros HK. induction l as [|x l IH]; [done|].
    change (SliceStable (x :: l)) with (insert_stable x (SliceStable l)).
    rewrite filter_cons, <- IH. clear IH. generalize (SliceStable l). intros s.
    induction s as [|y s IHs]; cbn [insert_stable].
    - by rewrite filter_cons.
    - destruct (less y x) eqn:E; [|by rewrite filter_cons].
      rewrite !(filter_cons K y), IHs. repeat case_decide; try done.
      by rewrite HK in E.
  Qed.

  (** With an order that is total and transitive in the large, the result is sorted. *)
Context (Hanti : ∀ x y, less x y = true → less y x = false).
Context (Htrans : ∀ x y z, less y x = false → less z y = false → less z x = false).

Definition not_after (x y : A) : Prop := less y x = false.

Lemma insert_stable_sorted x l :
    StronglySorted not_after l → StronglySorted not_after (insert_stable x l).
Proof.
    induction 1 as [|y l Hs IH Hy]; cbn; [by repeat constructor|].
    destruct (less y x) eqn:E.
    - constructor; [done|]. rewrite insert_stable_perm. constructor; [|done]. by apply Hanti.
    - constructor; [by constructor|]. constructor; [done|].
      eapply Forall_impl; [done|]. intros z Hz. by apply (Htrans x y z).
  Qed.

Lemma SliceStable_sorted l : StronglySorted not_after (SliceStable l).
Proof. induction l as [|x l IH]; cbn; [constructor|by apply insert_stable_sorted]. Qed.
End SliceStable.
