(* ===== verification/Breaker.v ===== *)
(** * The circuit breakers of the enrichment pipeline

    [internal/pipeline/error_class.go], [circuit_breaker.go], [escalation.go],
    [pipeline_control.go], and the error type of [internal/llm/errors.go] they read.

    A breaker is a record and every method a function of it; a method that reads the
    clock or makes a channel takes the reading or the channel as an argument.  Channels
    are numbers; who is parked on which, and which are closed, is the state of the step
    relation at the end of the definitions, in which workers wait, operators pause and
    resume, and calls report, in any order. *)

From S2P Require Import Prelude Gostd.

#[local] Open Scope Z_scope.

(** ** Errors of the language-model transports *)

(** [llm.LLMError]; durations are in nanoseconds. *)
Record LLMError := {
  Transient : bool;
  Reason : string;
  RetryAfter : Z;
  InputChars : Z;
  MaxInputChars : Z;
}.

(** An [error] as [errors.AsType] sees it: what the value is itself, its message, and
    what its [Unwrap] yields ([Unwrap() []error] gives several).  A [connect.Error] is
    known by its code and the delay its metadata states. *)
Inductive errvalue :=
| LLM (e : LLMError)
| Connect (code : Z) (retryAfter : Z)
| Plain.

#[warnings="-register-all"]
Inductive goerror := GoError (self : errvalue) (message : string) (wrapped : list goerror).

(** [errors.AsType]: the first match of a pre-order walk of the error tree. *)
Section AsType.
Context {T : Type} (is_a : errvalue → string → option T).

Fixpoint AsType (e : goerror) : option T :=
    match e with
    | GoError self message wrapped =>
        match is_a self message with
        | Some t => Some t
        | None =>
            (fix walk (es : list goerror) : option T :=
               match es with
               | [] => None
               | e' :: es' => match AsType e' with Some t => Some t | None => walk es' end
               end) wrapped
        end
    end.
End AsType.

Definition as_llm (v : errvalue) (_ : string) : option LLMError :=
  match v with LLM e => Some e | _ => None end.
Definition as_connect (v : errvalue) (_ : string) : option (Z * Z) :=
  match v with Connect code retryAfter => Some (code, retryAfter) | _ => None end.
(** The text of the transport error itself, without what wraps it. *)
Definition as_llm_message (v : errvalue) (message : string) : option string :=
  match v with LLM _ => Some message | _ => None end.

(** [err.Error()]. *)
Definition Error (err : goerror) : string := let '(GoError _ message _) := err in message.

Definition ReasonInputTooLarge : string := "input_too_large".

Definition InputTooLargeOf (err : goerror) : option (Z * Z) :=
  match AsType as_llm err with
  | Some le =>
      if decide (Reason le ≠ ReasonInputTooLarge) then None
      else Some (InputChars le, MaxInputChars le)
  | None => None
  end.

Definition IsTransient (err : goerror) : bool :=
  match AsType as_llm err with
  | Some le => Transient le
  | None => false
  end.

Definition RetryAfterOf (err : goerror) : Z :=
  match AsType as_llm err with
  | Some le => RetryAfter le
  | None => 0
  end.

Definition HTTPStatusToTransient (status : Z) : bool :=
  (status =? 429) || ((500 <=? status) && (status <? 600)).

(** ** Error classes *)

Inductive ErrClass :=
| ClassOther
| ClassParse
| ClassTruncation
| ClassAuthQuota
| ClassTimeoutTransport
| ClassInvalidRequest.

#[export] Instance ErrClass_eq_dec : EqDecision ErrClass.
Proof. solve_decision. Defined.

(** The underlying integer of the enumeration. *)
Definition ErrClass_int (c : ErrClass) : nat :=
  match c with
  | ClassOther => 0 | ClassParse => 1 | ClassTruncation => 2
  | ClassAuthQuota => 3 | ClassTimeoutTransport => 4 | ClassInvalidRequest => 5
  end.

Definition ErrClass_of_int (n : nat) : option ErrClass :=
  [ClassOther; ClassParse; ClassTruncation; ClassAuthQuota; ClassTimeoutTransport;
ClassInvalidRequest] !! n.

#[export] Instance ErrClass_countable : Countable ErrClass.
Proof.
  apply (inj_countable ErrClass_int ErrClass_of_int). by intros [].
Defined.

Definition IsDeterministicTerminal (c : ErrClass) : bool :=
  match c with
  | ClassParse | ClassInvalidRequest | ClassTruncation => true
  | _ => false
  end.

(** The class of an HTTP status; the order of the cases is the code's. *)
Definition status_class (status : Z) : ErrClass :=
  if (status =? 401) || (status =? 403) || (status =? 429) then ClassAuthQuota
  else if (status =? 400) || (status =? 404) || (status =? 422) then ClassInvalidRequest
  else if (500 <=? status) && (status <=? 599) then ClassTimeoutTransport
  else if (400 <=? status) && (status <=? 499) then ClassInvalidRequest
  else ClassOther.

(** [None] is [(ClassOther, false)]: not an [http_] reason at all. *)
Definition classifyHTTPReason (reason : string) : option ErrClass :=
  match CutPrefix reason "http_" with
  | None => None
  | Some suffix =>
      match Atoi suffix with
      | None => Some ClassOther
      | Some status => Some (status_class status)
      end
  end.

Definition parse_reasons : list string :=
  ["parse_summaries_json"; "parse_response"; "parse_cli_response"; "decode_response";
   "empty_structured_output"; "no_choices"; "no_candidates"; "prompt_blocked"].
Definition auth_reasons : list string := ["cli_exec"; "cli_response_error"].
Definition transport_reasons : list string :=
  ["network"; "read_response"; "cli_deadline"; "subprocess_timeout"; "subprocess_failed";
   "subprocess_error"].
Definition other_reasons : list string :=
  ["config"; "marshal_request"; "create_request"; "translate_request"; "build_request";
   "subprocess_setup"; "cli_not_found"; "turn_failed"; "openai_api_error";
   "summarize_generate"].

(** The switch of [classify] on a reason. *)
Definition classifyReason (reason : string) : ErrClass :=
  if decide (reason ∈ parse_reasons) then ClassParse
  else if decide (reason = "response_truncated") then ClassTruncation
  else if decide (reason ∈ auth_reasons) then ClassAuthQuota
  else if decide (reason ∈ transport_reasons) then ClassTimeoutTransport
  else if decide (reason = ReasonInputTooLarge) then ClassInvalidRequest
  else if decide (reason ∈ other_reasons) then ClassOther
  else match classifyHTTPReason reason with
       | Some cls => cls
       | None => ClassOther
       end.

Definition classify (err : goerror) : ErrClass :=
  match AsType as_llm err with
  | None => ClassOther
  | Some le => classifyReason (Reason le)
  end.

Definition ShouldAdvanceFallback (err : goerror) : bool :=
  negb (IsDeterministicTerminal (classify err)).

Definition Label (c : ErrClass) : string :=
  match c with
  | ClassParse =>
      "response-parse failures (model output did not match the requested schema)"
  | ClassTruncation => "response-truncation failures (model output hit max_tokens)"
  | ClassAuthQuota => "auth/quota failures"
  | ClassTimeoutTransport => "timeout/transport failures"
  | ClassInvalidRequest => "invalid-request failures (malformed request)"
  | ClassOther => "errors"
  end.

Definition shortLabel (c : ErrClass) : string :=
  match c with
  | ClassParse => "parse"
  | ClassTruncation => "truncation"
  | ClassAuthQuota => "auth/quota"
  | ClassTimeoutTransport => "timeout/transport"
  | ClassInvalidRequest => "invalid-request"
  | ClassOther => "other"
  end.

(** ** The breaker *)

Definition DefaultCircuitBreakerThreshold : Z := 20.
Definition DefaultDeterministicFastTripThreshold : Z := 2.

(** A time is nanoseconds since some epoch; [None] is the zero [time.Time]. *)
Record circuitBreaker := {
  tripThreshold : Z;
  paused : bool;
  reason : string;
  pausedAt : option Z;
  consecErrors : Z;
  consecDeterministic : Z;
  lastDeterministicClass : ErrClass;
  classCounts : option (gmap ErrClass Z);   (* [None] is the nil map *)
  resumed : option nat;
}.

Definition newCircuitBreaker (threshold : Z) : circuitBreaker := {|
  tripThreshold := if threshold <=? 0 then DefaultCircuitBreakerThreshold else threshold;
  paused := false; reason := ""; pausedAt := None;
  consecErrors := 0; consecDeterministic := 0; lastDeterministicClass := ClassOther;
  classCounts := None; resumed := None;
|}.

(** [c.classCounts\[class\]]: an absent key, or the nil map, reads as zero. *)
Definition count_of (c : circuitBreaker) (class : ErrClass) : Z :=
  default 0 (default ∅ (classCounts c) !! class).

Definition set_counters (errors streak : Z) (last : ErrClass)
    (counts : option (gmap ErrClass Z)) (c : circuitBreaker) : circuitBreaker := {|
  tripThreshold := tripThreshold c; paused := paused c; reason := reason c;
  pausedAt := pausedAt c; consecErrors := errors; consecDeterministic := streak;
  lastDeterministicClass := last; classCounts := counts; resumed := resumed c;
|}.

(** The zeroing that [recordOK] and [resume] share; [clear] of a nil map does nothing. *)
Definition clear_window (c : circuitBreaker) : circuitBreaker :=
  set_counters 0 0 ClassOther ((λ _, ∅) <$> classCounts c) c.

Definition recordOK (c : circuitBreaker) : circuitBreaker := clear_window c.

Definition classSeverityOrder : list ErrClass :=
  [ClassParse; ClassTruncation; ClassAuthQuota; ClassInvalidRequest;
ClassTimeoutTransport; ClassOther].

Definition dominant_step (c : circuitBreaker) (acc : ErrClass * Z) (class : ErrClass)
    : ErrClass * Z :=
  if acc.2 <? count_of c class then (class, count_of c class) else acc.

Definition dominantClassLocked (c : circuitBreaker) : ErrClass * Z :=
  foldl (dominant_step c) (ClassOther, 0) classSeverityOrder.

(** The classes of the window, in severity order. *)
Definition present (c : circuitBreaker) : list ErrClass :=
  filter (λ class, 0 < count_of c class) classSeverityOrder.

Definition breakdownLocked (c : circuitBreaker) : string :=
  let parts := (λ class, shortLabel class +:+ "=" +:+ itoa (count_of c class)) <$> present c in
  if (length parts <=? 1)%nat then "" else Join parts ", ".

Definition autoTripReasonLocked (c : circuitBreaker) : string :=
  let '(dominant, count) := dominantClassLocked c in
  let total := foldl (λ t class, t + count_of c class) 0 (present c) in
  let r := "full error round — " +:+ itoa count +:+ "/" +:+ itoa total +:+ " "
           +:+ Label dominant in
  if (1 <? length (present c))%nat
  then r +:+ " (breakdown: " +:+ breakdownLocked c +:+ ")"
  else r.

Definition deterministicFastTripReasonLocked (c : circuitBreaker) (class : ErrClass)
    : string :=
  "fast-trip — " +:+ itoa (consecDeterministic c) +:+ " consecutive " +:+ Label class
  +:+ " (deterministic: identical input reproduces the same terminal failure, so retrying only burns billed API calls)".

(** [now] is the clock, [ch] the channel [make] would give. *)
Definition tripLocked (now : Z) (ch : nat) (r : string) (c : circuitBreaker)
    : circuitBreaker :=
  if paused c then
    {| tripThreshold := tripThreshold c; paused := true; reason := r;
       pausedAt := pausedAt c; consecErrors := consecErrors c;
       consecDeterministic := consecDeterministic c;
       lastDeterministicClass := lastDeterministicClass c;
       classCounts := classCounts c; resumed := resumed c |}
  else
    {| tripThreshold := tripThreshold c; paused := true; reason := r;
       pausedAt := Some now; consecErrors := consecErrors c;
       consecDeterministic := consecDeterministic c;
       lastDeterministicClass := lastDeterministicClass c;
       classCounts := classCounts c;
       resumed := match resumed c with None => Some ch | Some old => Some old end |}.

Definition advanceDeterministicStreakLocked (class : ErrClass) (c : circuitBreaker)
    : circuitBreaker * bool :=
  if negb (IsDeterministicTerminal class) then
    (set_counters (consecErrors c) 0 ClassOther (classCounts c) c, false)
  else
    let streak := if decide (class = lastDeterministicClass c)
                  then consecDeterministic c + 1 else 1 in
    (set_counters (consecErrors c) streak class (classCounts c) c,
     negb (paused c) && (DefaultDeterministicFastTripThreshold <=? streak)).

(** The tally at the head of [recordErr]. *)
Definition tally (class : ErrClass) (c : circuitBreaker) : circuitBreaker :=
  set_counters (consecErrors c + 1) (consecDeterministic c) (lastDeterministicClass c)
    (Some (<[class := count_of c class + 1]> (default ∅ (classCounts c)))) c.

Definition recordErr (now : Z) (ch : nat) (class : ErrClass) (c : circuitBreaker)
    : circuitBreaker * bool :=
  let '(c', fastTrip) := advanceDeterministicStreakLocked class (tally class c) in
  if fastTrip : bool then
    (tripLocked now ch (deterministicFastTripReasonLocked c' class) c', true)
  else if negb (paused c') && (tripThreshold c' <=? consecErrors c') then
    (tripLocked now ch (autoTripReasonLocked c') c', true)
  else (c', false).

Definition pause (now : Z) (ch : nat) (r : string) (c : circuitBreaker) : circuitBreaker :=
  tripLocked now ch r c.

(** The new breaker, and the channel [resume] closes. *)
Definition resume (c : circuitBreaker) : circuitBreaker * option nat :=
  let c' := clear_window c in
  if negb (paused c') then (c', None)
  else
    ({| tripThreshold := tripThreshold c'; paused := false; reason := "";
        pausedAt := None; consecErrors := consecErrors c';
        consecDeterministic := consecDeterministic c';
        lastDeterministicClass := lastDeterministicClass c';
        classCounts := classCounts c'; resumed := None |}, resumed c').

Record circuitStatus := {
  Paused : bool;
  StatusReason : string;
  Since : option Z;
  DominantClass : ErrClass;
  DominantCount : Z;
  Breakdown : string;
}.

Definition status (c : circuitBreaker) : circuitStatus :=
  let '(dominant, count) := dominantClassLocked c in
  {| Paused := paused c; StatusReason := reason c; Since := pausedAt c;
     DominantClass := dominant; DominantCount := count; Breakdown := breakdownLocked c |}.

(** ** The two axes and their coordinator *)

Inductive breakerAxis := summaryBreakerAxis | embedBreakerAxis.

Definition label (a : breakerAxis) : string :=
  match a with embedBreakerAxis => "embed" | summaryBreakerAxis => "summary" end.

(** The fields of [Pipeline] the coordinator reads. *)
Record axes := {
  summaryCircuit : circuitBreaker;
  embedCircuit : circuitBreaker;
  summaryProvider : string;
  embedProvider : string;
}.

Definition circuit (a : breakerAxis) (p : axes) : circuitBreaker :=
  match a with summaryBreakerAxis => summaryCircuit p | embedBreakerAxis => embedCircuit p end.

Definition set_circuit (a : breakerAxis) (c : circuitBreaker) (p : axes) : axes :=
  match a with
  | summaryBreakerAxis =>
      {| summaryCircuit := c; embedCircuit := embedCircuit p;
         summaryProvider := summaryProvider p; embedProvider := embedProvider p |}
  | embedBreakerAxis =>
      {| summaryCircuit := summaryCircuit p; embedCircuit := c;
         summaryProvider := summaryProvider p; embedProvider := embedProvider p |}
  end.

Definition other_axis (a : breakerAxis) : breakerAxis :=
  match a with summaryBreakerAxis => embedBreakerAxis | embedBreakerAxis => summaryBreakerAxis end.

Definition cross_trip_reason (tripped : breakerAxis) (provider why : string) : string :=
  "cross-tripped from " +:+ label tripped +:+ " axis (shared " +:+ provider
  +:+ " provider auth/quota failure): " +:+ why.

Definition escalateOnTrip (now : Z) (ch : nat) (tripped : breakerAxis) (p : axes) : axes :=
  let st := status (circuit tripped p) in
  if decide (DominantClass st ≠ ClassAuthQuota) then p
  else if decide (summaryProvider p = "" ∨ summaryProvider p ≠ embedProvider p) then p
  else
    let other := other_axis tripped in
    set_circuit other
      (pause now ch (cross_trip_reason tripped (summaryProvider p) (StatusReason st))
         (circuit other p)) p.

(** What the worker of an axis does with the breakers when its call fails: the first
    statement of [handleSummarizerError] and of [handleEmbedderError]. *)
Definition reportErr (now : Z) (ch ch' : nat) (a : breakerAxis) (err : goerror) (p : axes)
    : axes :=
  let '(c, tripped) := recordErr now ch (classify err) (circuit a p) in
  let p := set_circuit a c p in
  if tripped : bool then escalateOnTrip now ch' a p else p.

Definition PausePipeline (now : Z) (ch ch' : nat) (r : string) (p : axes) : axes :=
  set_circuit embedBreakerAxis (pause now ch' r (embedCircuit p))
    (set_circuit summaryBreakerAxis (pause now ch r (summaryCircuit p)) p).

Definition ResumePipeline (p : axes) : axes :=
  set_circuit embedBreakerAxis (resume (embedCircuit p)).1
    (set_circuit summaryBreakerAxis (resume (summaryCircuit p)).1 p).

Record AxisStatus := { axis : circuitStatus; ActiveSummarizer : string }.

Definition circuitStatusToAxis (c : circuitStatus) : AxisStatus :=
  {| axis := c; ActiveSummarizer := "" |}.

(** The six aggregate fields have the shape of a [circuitStatus]. *)
Record PipelineStatusT := {
  aggregate : circuitStatus;
  Summary : AxisStatus;
  Embed : AxisStatus;
}.

(** [active] is the answer of the wired accessor, [None] when none is wired. *)
Definition PipelineStatus (active : option string) (p : axes) : PipelineStatusT :=
  let summary := status (summaryCircuit p) in
  let embed := status (embedCircuit p) in
  let rep := if negb (Paused summary) && Paused embed then embed else summary in
  let any := Paused summary || Paused embed in
  {| aggregate :=
       if any then
         {| Paused := any; StatusReason := StatusReason rep; Since := Since rep;
            DominantClass := DominantClass rep; DominantCount := DominantCount rep;
            Breakdown := Breakdown rep |}
       else {| Paused := any; StatusReason := ""; Since := None;
               DominantClass := ClassOther; DominantCount := 0; Breakdown := "" |};
     Summary := {| axis := axis (circuitStatusToAxis summary);
                   ActiveSummarizer := default "" active |};
     Embed := circuitStatusToAxis embed |}.

(** ** Waiting on a breaker *)

(** What can happen to a breaker. *)
Inductive event :=
| EvOK
| EvErr (now : Z) (class : ErrClass)
| EvPause (now : Z) (why : string)
| EvResume.

(** A goroutine in [waitResumed]: about to check under the lock, parked on a channel
    ([None] is the nil channel, never ready), or back in its caller, by cancellation or
    because the axis runs. *)
Inductive waiter := Checking | Parked (ch : option nat) | Returned (cancelled : bool).

(** A breaker, the channels made and closed so far, and its waiters. *)
Record cell := {
  breaker : circuitBreaker;
  made : nat;
  closed : gset nat;
  cancelled : bool;
  waiters : gmap nat waiter;
}.

Definition set_breaker (c : circuitBreaker) (n : nat) (cl : gset nat) (s : cell) : cell :=
  {| breaker := c; made := n; closed := cl; cancelled := cancelled s; waiters := waiters s |}.
Definition set_waiter (i : nat) (w : waiter) (s : cell) : cell :=
  {| breaker := breaker s; made := made s; closed := closed s; cancelled := cancelled s;
     waiters := <[i := w]> (waiters s) |}.

(** The effect of an event; [None] is the panic of closing a closed channel.  An event
    that may make a channel is offered a fresh one. *)
Definition exec (e : event) (s : cell) : option cell :=
  match e with
  | EvOK => Some (set_breaker (recordOK (breaker s)) (made s) (closed s) s)
  | EvErr now class =>
      Some (set_breaker (recordErr now (made s) class (breaker s)).1 (S (made s)) (closed s) s)
  | EvPause now why =>
      Some (set_breaker (pause now (made s) why (breaker s)) (S (made s)) (closed s) s)
  | EvResume =>
      match resume (breaker s) with
      | (c, None) => Some (set_breaker c (made s) (closed s) s)
      | (c, Some ch) =>
          if decide (ch ∈ closed s) then None
          else Some (set_breaker c (made s) ({[ch]} ∪ closed s) s)
      end
  end.

(** One atomic step: an event under the lock, or a move of a goroutine in
    [waitResumed]. *)
Inductive step : cell → cell → Prop :=
| step_event e s s' : exec e s = Some s' → step s s'
| step_enter i s : waiters s !! i = None → step s (set_waiter i Checking s)
| step_pass i s :
    waiters s !! i = Some Checking → paused (breaker s) = false →
    step s (set_waiter i (Returned false) s)
| step_park i s :
    waiters s !! i = Some Checking → paused (breaker s) = true →
    step s (set_waiter i (Parked (resumed (breaker s))) s)
| step_wake i ch s :
    waiters s !! i = Some (Parked (Some ch)) → ch ∈ closed s →
    step s (set_waiter i Checking s)
| step_cancel s :
    step s {| breaker := breaker s; made := made s; closed := closed s;
              cancelled := true; waiters := waiters s |}
| step_give_up i ch s :
    waiters s !! i = Some (Parked ch) → cancelled s = true →
    step s (set_waiter i (Returned true) s).

Definition new_cell (threshold : Z) : cell :=
  {| breaker := newCircuitBreaker threshold; made := 0; closed := ∅; cancelled := false;
     waiters := ∅ |}.

Inductive reachable (threshold : Z) : cell → Prop :=
| reach_new : reachable threshold (new_cell threshold)
| reach_step s s' : reachable threshold s → step s s' → reachable threshold s'.

(** ** What a breaker promises

    The specification forgets counters, streaks and channels: it keeps the classes of
    the errors since the last success or resume, newest first, and since when the axis
    is latched. *)
Record latch := { window : list ErrClass; since : option Z }.

Definition trips (threshold : Z) (class : ErrClass) (w : list ErrClass) : bool :=
  bool_decide (threshold <= Z.of_nat (S (length w)))
  || (IsDeterministicTerminal class && bool_decide (head w = Some class)).

(** The specified successor, and the answer of [recordErr]. *)
Definition latch_step (threshold : Z) (e : event) (l : latch) : latch * bool :=
  match e with
  | EvOK => ({| window := []; since := since l |}, false)
  | EvErr now class =>
      let t := match since l with None => trips threshold class (window l) | _ => false end in
      ({| window := class :: window l; since := if t then Some now else since l |}, t)
  | EvPause now _ =>
      ({| window := window l; since := Some (default now (since l)) |}, false)
  | EvResume => ({| window := []; since := None |}, false)
  end.

(** The breaker alone, and what the caller is told. *)
Definition breaker_step (ch : nat) (e : event) (c : circuitBreaker) : circuitBreaker * bool :=
  match e with
  | EvOK => (recordOK c, false)
  | EvErr now class => recordErr now ch class c
  | EvPause now why => (pause now ch why c, false)
  | EvResume => ((resume c).1, false)
  end.

Fixpoint run_breaker (ch : nat) (es : list event) (c : circuitBreaker)
    : circuitBreaker * list bool :=
  match es with
  | [] => (c, [])
  | e :: es' =>
      let '(c', t) := breaker_step ch e c in
      let '(c'', ts) := run_breaker (S ch) es' c' in (c'', t :: ts)
  end.

Fixpoint run_latch (threshold : Z) (es : list event) (l : latch) : latch * list bool :=
  match es with
  | [] => (l, [])
  | e :: es' =>
      let '(l', t) := latch_step threshold e l in
      let '(l'', ts) := run_latch threshold es' l' in (l'', t :: ts)
  end.

(** How often a class occurs in a window, and how long its head repeats. *)
Definition occurrences (class : ErrClass) (w : list ErrClass) : Z :=
  Z.of_nat (length (filter (λ c, c = class) w)).

Fixpoint leading (class : ErrClass) (w : list ErrClass) : Z :=
  match w with
  | [] => 0
  | c :: w' => if decide (c = class) then 1 + leading class w' else 0
  end.

Definition streak (w : list ErrClass) : Z :=
  match w with
  | c :: _ => if IsDeterministicTerminal c then leading c w else 0
  | [] => 0
  end.

Definition streak_class (w : list ErrClass) : ErrClass :=
  match w with
  | c :: _ => if IsDeterministicTerminal c then c else ClassOther
  | [] => ClassOther
  end.

(** A breaker implements a latch. *)
Record implements (threshold : Z) (c : circuitBreaker) (l : latch) : Prop := {
  imp_threshold : tripThreshold c = threshold;
  imp_paused : paused c = match since l with Some _ => true | None => false end;
  imp_since : pausedAt c = since l;
  imp_errors : consecErrors c = Z.of_nat (length (window l));
  imp_counts : ∀ class, count_of c class = occurrences class (window l);
  imp_streak : consecDeterministic c = streak (window l);
  imp_class : lastDeterministicClass c = streak_class (window l);
}.

(** ** The breaker implements the specification *)

Lemma count_of_set errors s last m c class :
  count_of (set_counters errors s last (Some m) c) class = default 0 (m !! class).
Proof. done. Qed.

Lemma count_of_clear c class : count_of (clear_window c) class = 0.
Proof. unfold count_of. simpl. by destruct (classCounts c). Qed.

Lemma count_of_tally c cls class :
  count_of (tally cls c) class = count_of c class + (if decide (class = cls) then 1 else 0).
Proof.
  unfold tally. rewrite count_of_set. case_decide as E.
  - subst. by rewrite lookup_insert_eq.
  - rewrite lookup_insert_ne by done. unfold count_of. lia.
Qed.

Lemma occurrences_cons cls class w :
  occurrences class (cls :: w) = occurrences class w + (if decide (class = cls) then 1 else 0).
Proof.
  unfold occurrences. rewrite filter_cons.
  repeat case_decide; subst; simpl; try done; lia.
Qed.

Lemma tripLocked_counters now ch r c :
  tripThreshold (tripLocked now ch r c) = tripThreshold c ∧
  consecErrors (tripLocked now ch r c) = consecErrors c ∧
  consecDeterministic (tripLocked now ch r c) = consecDeterministic c ∧
  lastDeterministicClass (tripLocked now ch r c) = lastDeterministicClass c ∧
  (∀ class, count_of (tripLocked now ch r c) class = count_of c class).
Proof. unfold tripLocked, count_of. by destruct (paused c). Qed.

Lemma tripLocked_implements threshold now ch r c l :
  implements threshold c l →
  implements threshold (tripLocked now ch r c)
    {| window := window l; since := Some (default now (since l)) |}.
Proof.
  intros [H1 H2 H3 H4 H5 H6 H7].
  destruct (tripLocked_counters now ch r c) as (E1 & E2 & E3 & E4 & E5).
  split; simpl.
  - congruence.
  - unfold tripLocked. by destruct (paused c).
  - unfold tripLocked. rewrite H2. destruct (since l) as [t|]; simpl; [by rewrite H3|done].
  - congruence.
  - intros class. by rewrite E5.
  - congruence.
  - congruence.
Qed.

Lemma clear_window_implements threshold c l :
  implements threshold c l →
  implements threshold (clear_window c) {| window := []; since := since l |}.
Proof.
  intros [H1 H2 H3 _ _ _ _]. split; simpl; try done. apply count_of_clear.
Qed.

Lemma resume_implements threshold c l :
  implements threshold c l → implements threshold (resume c).1 {| window := []; since := None |}.
Proof.
  intros [H1 H2 H3 _ _ _ _]. unfold resume. simpl.
  destruct (paused c) eqn:E; split; simpl; try done; try apply count_of_clear.
  by destruct (since l).
Qed.

Lemma streak_cons class w :
  streak (class :: w) =
    if IsDeterministicTerminal class
    then (if decide (class = streak_class w) then streak w + 1 else 1) else 0.
Proof.
  unfold streak at 1. destruct (IsDeterministicTerminal class) eqn:E; [|done].
  simpl. rewrite decide_True by done. destruct w as [|c w]; simpl.
  - rewrite decide_False; [lia|]. by intros ->.
  - destruct (decide (c = class)) as [->|Hne].
    + rewrite E, !decide_True by done. lia.
    + rewrite decide_False; [lia|].
      destruct (IsDeterministicTerminal c); [congruence|by intros ->].
Qed.

(** The counters after the bookkeeping of one errored call, before any trip. *)
Lemma advance_implements threshold class c l c' fast :
  implements threshold c l →
  advanceDeterministicStreakLocked class (tally class c) = (c', fast) →
  implements threshold c' {| window := class :: window l; since := since l |} ∧
  fast = negb (paused c) && (IsDeterministicTerminal class && bool_decide (head (window l) = Some class)).
Proof.
  intros [H1 H2 H3 H4 H5 H6 H7]. unfold advanceDeterministicStreakLocked.
  pose proof (streak_cons class (window l)) as HS.
  assert (∀ n last, implements threshold
      (set_counters (consecErrors (tally class c)) n last (classCounts (tally class c)) (tally class c))
      {| window := class :: window l; since := since l |}
    ↔ n = streak (class :: window l) ∧ last = streak_class (class :: window l)) as Himp.
  { intros n last. split; [by intros []|]. intros [-> ->]. split; simpl; try done.
    - rewrite H4. lia.
    - intros cls. change (count_of (tally class c) cls = occurrences cls (class :: window l)).
      by rewrite count_of_tally, occurrences_cons, H5. }
  destruct (IsDeterministicTerminal class) eqn:ED; cbn [negb].
  - intros [= <- <-]. cbn [lastDeterministicClass tally set_counters consecDeterministic paused].
    rewrite H6, H7. split.
    + apply Himp. split; [by rewrite HS|]. simpl. by rewrite ED.
    + f_equal. rewrite andb_true_l. unfold DefaultDeterministicFastTripThreshold.
      destruct (window l) as [|c0 w]; cbn [streak streak_class head leading].
      * rewrite decide_False by (by intros ->). done.
      * destruct (decide (c0 = class)) as [->|Hne].
        -- rewrite ED, !decide_True, bool_decide_eq_true_2 by done.
           assert (0 <= leading class w); [|lia].
           clear. induction w as [|d w IH]; simpl; [lia|]. case_decide; lia.
        -- rewrite (bool_decide_eq_false_2 (Some c0 = Some class)) by congruence.
           destruct (IsDeterministicTerminal c0) eqn:E0.
           ++ rewrite decide_False by congruence. done.
           ++ rewrite decide_False; [done|]. by intros ->.
  - intros [= <- <-]. rewrite andb_false_r. split; [|done].
    apply Himp. rewrite HS. simpl. by rewrite ED.
Qed.

Lemma recordErr_implements threshold now ch class c l :
  implements threshold c l →
  implements threshold (recordErr now ch class c).1 (latch_step threshold (EvErr now class) l).1 ∧
  (recordErr now ch class c).2 = (latch_step threshold (EvErr now class) l).2.
Proof.
  intros H. pose proof (imp_paused _ _ _ H) as HP. unfold recordErr.
  destruct (advanceDeterministicStreakLocked _ _) as [c' fast] eqn:E.
  destruct (advance_implements _ _ _ _ _ _ H E) as [H' Hf].
  pose proof (imp_paused _ _ _ H') as HP'. simpl in HP'.
  rewrite HP in Hf. cbn [latch_step]. unfold trips. simpl.
  rewrite (imp_threshold _ _ _ H'), (imp_errors _ _ _ H'), HP'. cbn [window length].
  destruct (since l) as [t|] eqn:Es; cbn [negb andb] in Hf |- *; subst fast; [done|].
  destruct (IsDeterministicTerminal class && _) eqn:Ed; cbn [fst snd].
  - rewrite orb_true_r. split; [|done]. apply (tripLocked_implements _ now ch _ _ _ H').
  - rewrite orb_false_r. rewrite (Z.leb_compare threshold). fold (Z.leb threshold (Z.of_nat (S (length (window l))))).
    destruct (Z.leb_spec threshold (Z.of_nat (S (length (window l))))) as [Hle|Hlt].
    + rewrite bool_decide_eq_true_2 by lia. split; [|done].
      apply (tripLocked_implements _ now ch _ _ _ H').
    + by rewrite bool_decide_eq_false_2 by lia.
Qed.

Lemma breaker_step_implements threshold ch e c l :
  implements threshold c l →
  implements threshold (breaker_step ch e c).1 (latch_step threshold e l).1 ∧
  (breaker_step ch e c).2 = (latch_step threshold e l).2.
Proof.
  intros H. destruct e as [|now class|now why|]; simpl.
  - split; [|done]. by apply clear_window_implements.
  - by apply recordErr_implements.
  - split; [|done]. by apply tripLocked_implements.
  - split; [|done]. by eapply resume_implements.
Qed.

Lemma run_breaker_implements threshold ch es c l :
  implements threshold c l →
  implements threshold (run_breaker ch es c).1 (run_latch threshold es l).1 ∧
  (run_breaker ch es c).2 = (run_latch threshold es l).2.
Proof.
  revert ch c l. induction es as [|e es IH]; intros ch c l H; [done|]. simpl.
  destruct (breaker_step_implements threshold ch e c l H) as [H1 H2].
  destruct (breaker_step ch e c) as [c' t], (latch_step threshold e l) as [l' t'].
  simpl in H1, H2. subst t'. destruct (IH (S ch) c' l' H1) as [H3 H4].
  destruct (run_breaker (S ch) es c') as [c'' ts], (run_latch threshold es l') as [l'' ts'].
  simpl in *. by subst.
Qed.

Lemma newCircuitBreaker_implements threshold :
  implements (if threshold <=? 0 then DefaultCircuitBreakerThreshold else threshold)
    (newCircuitBreaker threshold) {| window := []; since := None |}.
Proof. by split. Qed.

(** C32: A breaker is the latch of its specification: after any sequence of successes,
    errors, pauses and resumes, its counters, its tally per class, its streak, whether
    it is paused and since when are those of the window of errors since the last success
    or resume, and [recordErr] has reported a trip exactly when the running axis reached
    the threshold without a success, or saw a deterministic class twice in a row. *)
Theorem breaker_refines_latch (threshold : Z) (ch : nat) (es : list event) :
  let th := if threshold <=? 0 then DefaultCircuitBreakerThreshold else threshold in
  let '(c, answers) := run_breaker ch es (newCircuitBreaker threshold) in
  let '(l, answers') := run_latch th es {| window := []; since := None |} in
  implements th c l ∧ answers = answers'.
Proof.
  intros th.
  destruct (run_breaker_implements th ch es _ _ (newCircuitBreaker_implements threshold)).
  by destruct (run_breaker _ _ _), (run_latch _ _ _).
Qed.

(** ** Naming the storm *)

(** The rank of a class in [classSeverityOrder]. *)
Definition severity (c : ErrClass) : nat :=
  match c with
  | ClassParse => 0 | ClassTruncation => 1 | ClassAuthQuota => 2
  | ClassInvalidRequest => 3 | ClassTimeoutTransport => 4 | ClassOther => 5
  end.

(** [d] dominates a tally with [n] errors: no class has more, none more severe as many;
    the empty tally is dominated by [ClassOther] with zero. *)
Definition dominates (count : ErrClass → Z) (d : ErrClass) (n : Z) : Prop :=
  (∀ class, count class <= n) ∧
  (n = count d ∨ (n = 0 ∧ d = ClassOther)) ∧
  (0 < n → ∀ class, (severity class < severity d)%nat → count class < n).

Lemma dominantClassLocked_dominates c :
  (∀ class, 0 <= count_of c class) →
  dominates (count_of c) (dominantClassLocked c).1 (dominantClassLocked c).2.
Proof.
  intros Hpos. unfold dominantClassLocked, classSeverityOrder, dominates.
  pose proof (Hpos ClassParse). pose proof (Hpos ClassTruncation).
  pose proof (Hpos ClassAuthQuota). pose proof (Hpos ClassInvalidRequest).
  pose proof (Hpos ClassTimeoutTransport). pose proof (Hpos ClassOther).
  cbn [foldl]. unfold dominant_step. cbn [fst snd].
  repeat match goal with
  | |- context [?x <? ?y] =>
      lazymatch x with
      | context [if _ then _ else _] => fail
      | _ => destruct (Z.ltb_spec x y); cbn [fst snd]
      end
  end.
  all: split_and!; [intros []; lia|first [by left|by right]|intros ? []; cbn [severity]; lia].
Qed.

Lemma dominantClassLocked_window threshold c l :
  implements threshold c l →
  dominates (λ class, occurrences class (window l)) (dominantClassLocked c).1
    (dominantClassLocked c).2.
Proof.
  intros H. pose proof (imp_counts _ _ _ H) as HC.
  destruct (dominantClassLocked_dominates c) as (H1 & H2 & H3).
  { intros class. rewrite HC. unfold occurrences. lia. }
  split_and!.
  - intros class. rewrite <- HC. apply H1.
  - by rewrite <- HC.
  - intros Hn class Hs. rewrite <- HC. by apply H3.
Qed.

Lemma occurrences_sum w :
  occurrences ClassParse w + occurrences ClassTruncation w + occurrences ClassAuthQuota w
  + occurrences ClassInvalidRequest w + occurrences ClassTimeoutTransport w
  + occurrences ClassOther w = Z.of_nat (length w).
Proof.
  induction w as [|cls w IH]; [done|]. rewrite !occurrences_cons. cbn [length].
  destruct cls; repeat (first [rewrite decide_True by done|rewrite decide_False by done]); lia.
Qed.

Lemma present_total c :
  (∀ class, 0 <= count_of c class) →
  foldl (λ t class, t + count_of c class) 0 (present c) =
  count_of c ClassParse + count_of c ClassTruncation + count_of c ClassAuthQuota
  + count_of c ClassInvalidRequest + count_of c ClassTimeoutTransport + count_of c ClassOther.
Proof.
  intros Hpos. unfold present.
  assert (∀ ls t, foldl (λ t class, t + count_of c class) t
            (filter (λ class, 0 < count_of c class) ls) =
          foldl (λ t class, t + count_of c class) t ls) as ->.
  { induction ls as [|x ls IH]; intros t; [done|]. rewrite filter_cons.
    case_decide; cbn [foldl]; [done|]. specialize (Hpos x). rewrite IH. f_equal. lia. }
  unfold classSeverityOrder. cbn [foldl]. lia.
Qed.

(** The reason of an automatic pause names the storm: a repeated deterministic class
    gives the fast-trip text with the length of its run; otherwise the text gives the
    dominant class of the window, its count, and the length of the whole window, all
    including the error that tripped. *)
Theorem trip_reason_names_storm (threshold now : Z) (ch : nat) (class : ErrClass)
    (c : circuitBreaker) (l : latch)
    (Hc : implements threshold c l) (Htrip : (recordErr now ch class c).2 = true) :
  let w := class :: window l in
  let why := reason (recordErr now ch class c).1 in
  (if IsDeterministicTerminal class && bool_decide (head (window l) = Some class) then
     why = "fast-trip — " +:+ itoa (leading class w) +:+ " consecutive " +:+ Label class
           +:+ " (deterministic: identical input reproduces the same terminal failure, so retrying only burns billed API calls)"
   else
     ∃ d n rest, dominates (λ cls, occurrences cls w) d n ∧
       why = ("full error round — " +:+ itoa n +:+ "/" +:+ itoa (Z.of_nat (length w))
              +:+ " " +:+ Label d) +:+ rest).
Proof.
  intros w why. subst why. unfold recordErr in Htrip |- *.
  destruct (advanceDeterministicStreakLocked _ _) as [c' fast] eqn:E.
  destruct (advance_implements _ _ _ _ _ _ Hc E) as [H' Hf].
  pose proof (imp_paused _ _ _ H') as HP'. pose proof (imp_paused _ _ _ Hc) as HP.
  simpl in HP'. rewrite <- HP in HP'.
  destruct (paused c) eqn:Ep; cbn [negb andb] in Hf.
  { subst fast. rewrite HP' in Htrip. done. }
  assert (∀ r, reason (tripLocked now ch r c') = r) as Hr.
  { intros r. unfold tripLocked. by rewrite HP'. }
  rewrite <- Hf. destruct fast.
  - cbn [fst]. rewrite Hr. unfold deterministicFastTripReasonLocked.
    rewrite (imp_streak _ _ _ H'). unfold streak. cbn [window].
    symmetry in Hf. apply andb_true_iff in Hf as [-> _]. done.
  - rewrite HP' in Htrip |- *. cbn [negb andb] in Htrip |- *.
    destruct (_ <=? _); [|done]. cbn [fst]. rewrite Hr. unfold autoTripReasonLocked.
    pose proof (dominantClassLocked_window _ _ _ H') as HD.
    destruct (dominantClassLocked c') as [d n]. cbn [fst snd window] in HD.
    rewrite present_total.
    2:{ intros cls. rewrite (imp_counts _ _ _ H'). unfold occurrences. lia. }
    rewrite !(imp_counts _ _ _ H'), occurrences_sum. cbn [window].
    destruct (1 <? length (present c'))%nat.
    + exists d, n, (" (breakdown: " +:+ breakdownLocked c' +:+ ")"). done.
    + exists d, n, "". split; [done|]. by rewrite str_app_nil_r.
Qed.

(** The trip reason over a run: two parse failures, then a window of three timeouts. *)
Example trip_reason_names_storm_witness :
  ∃ c l, implements 3 c l ∧ (recordErr 7 0 ClassAuthQuota c).2 = true ∧
    ∃ d n rest, dominates (λ cls, occurrences cls (ClassAuthQuota :: window l)) d n ∧
      reason (recordErr 7 0 ClassAuthQuota c).1 =
        ("full error round — " +:+ itoa n +:+ "/" +:+ itoa 3 +:+ " " +:+ Label d) +:+ rest.
Proof.
  set (es := [EvErr 1 ClassTimeoutTransport; EvErr 2 ClassTimeoutTransport]).
  assert (implements 3 (run_breaker 0 es (newCircuitBreaker 3)).1
            (run_latch 3 es {| window := []; since := None |}).1) as H.
  { apply run_breaker_implements. apply (newCircuitBreaker_implements 3). }
  assert ((recordErr 7 0 ClassAuthQuota (run_breaker 0 es (newCircuitBreaker 3)).1).2 = true) as Ht.
  { vm_compute. reflexivity. }
  exact (ex_intro _ _ (ex_intro _ _ (conj H (conj Ht
    (trip_reason_names_storm 3 7 0 ClassAuthQuota _ _ H Ht))))).
Defined.

(** ** Independence of the axes *)

Lemma circuit_set_eq a c p : circuit a (set_circuit a c p) = c.
Proof. by destruct a. Qed.
Lemma circuit_set_other a c p : circuit (other_axis a) (set_circuit a c p) = circuit (other_axis a) p.
Proof. by destruct a. Qed.
Lemma circuit_set_this a c p : circuit a (set_circuit (other_axis a) c p) = circuit a p.
Proof. by destruct a. Qed.
Lemma providers_set a c p :
  summaryProvider (set_circuit a c p) = summaryProvider p ∧
  embedProvider (set_circuit a c p) = embedProvider p.
Proof. by destruct a. Qed.

(** A failed call touches its own axis as [recordErr] says, and the other axis in
    one case only: the call tripped the axis, auth or quota errors dominate its window,
    and both axes are bound to the same, named, provider.  Then the other axis is
    paused; its counters, and the time it was paused at if it was, do not change. *)
Theorem axes_are_independent (now : Z) (ch ch' : nat) (a : breakerAxis) (err : goerror)
    (p : axes) :
  let p' := reportErr now ch ch' a err p in
  let rec := recordErr now ch (classify err) (circuit a p) in
  let mine := circuit a p' in
  let old := circuit (other_axis a) p in
  let new := circuit (other_axis a) p' in
  let shared := rec.2 && bool_decide (summaryProvider p ≠ "")
                && bool_decide (summaryProvider p = embedProvider p)
                && bool_decide ((dominantClassLocked mine).1 = ClassAuthQuota) in
  mine = rec.1 ∧
  (if shared then
     paused new = true ∧
     pausedAt new = (if paused old then pausedAt old else Some now) ∧
     reason new = cross_trip_reason a (summaryProvider p) (reason mine) ∧
     consecErrors new = consecErrors old ∧
     consecDeterministic new = consecDeterministic old ∧
     classCounts new = classCounts old
   else new = old).
Proof.
  cbn zeta. unfold reportErr.
  destruct (recordErr now ch (classify err) (circuit a p)) as [c tripped]. cbn [fst snd].
  destruct tripped; [|by rewrite circuit_set_eq, circuit_set_other].
  unfold escalateOnTrip. destruct (providers_set a c p) as [-> ->].
  rewrite circuit_set_eq. unfold status.
  destruct (dominantClassLocked c) as [d n] eqn:Ed. cbn [DominantClass StatusReason].
  assert (∀ x, circuit a (set_circuit (other_axis a) x (set_circuit a c p)) = c) as Hmine.
  { intros x. by rewrite circuit_set_this, circuit_set_eq. }
  destruct (decide (d ≠ ClassAuthQuota)) as [Hd|Hd].
  { rewrite circuit_set_eq, circuit_set_other, Ed. cbn [fst].
    rewrite (bool_decide_eq_false_2 (d = ClassAuthQuota)) by done.
    by rewrite !andb_false_r. }
  apply dec_stable in Hd as ->.
  destruct (decide _) as [Hp|Hp].
  - rewrite circuit_set_eq, circuit_set_other, Ed. cbn [fst andb]. split; [done|].
    destruct Hp as [Hp|Hp].
    + by rewrite (bool_decide_eq_false_2 (summaryProvider p ≠ "")) by (intros H; by apply H).
    + rewrite (bool_decide_eq_false_2 (summaryProvider p = embedProvider p)) by done.
      by rewrite !andb_false_r.
  - rewrite !Hmine, Ed, circuit_set_eq, circuit_set_other. cbn [fst andb].
    rewrite !bool_decide_eq_true_2; [|done| |intros E; apply Hp; by left].
    + cbn [andb]. split; [done|]. unfold pause, tripLocked.
      destruct (paused (circuit (other_axis a) p)); done.
    + destruct (decide (summaryProvider p = embedProvider p)); [done|].
      destruct Hp. by right.
Qed.

(** ** Waiting: no lost wake-up *)

(** What holds of a cell in every reachable state. *)
Record cell_ok (s : cell) : Prop := {
  ok_resumed : ∀ ch, resumed (breaker s) = Some ch → (ch < made s)%nat ∧ ch ∉ closed s;
  ok_paused : paused (breaker s) = true ↔ is_Some (resumed (breaker s));
  ok_closed : ∀ ch, ch ∈ closed s → (ch < made s)%nat;
  ok_parked : ∀ i ch, waiters s !! i = Some (Parked ch) →
    ∃ k, ch = Some k ∧ (k ∈ closed s ∨ resumed (breaker s) = Some k);
}.

Lemma resumed_trip now ch r c :
  resumed (tripLocked now ch r c) =
    if paused c then resumed c
    else match resumed c with None => Some ch | Some old => Some old end.
Proof. unfold tripLocked. by destruct (paused c). Qed.

Lemma paused_trip now ch r c : paused (tripLocked now ch r c) = true.
Proof. unfold tripLocked. by destruct (paused c). Qed.

(** An event that may trip leaves a running breaker without a channel, or with the
    fresh one; a paused one with its own. *)
Definition keeps_or_fresh (ch : nat) (c c' : circuitBreaker) : Prop :=
  (paused c' = paused c ∧ resumed c' = resumed c) ∨
  (paused c = false ∧ paused c' = true ∧ resumed c' = Some (default ch (resumed c))).

Lemma trip_keeps_or_fresh now ch r c c' :
  paused c' = paused c → resumed c' = resumed c →
  keeps_or_fresh ch c (tripLocked now ch r c').
Proof.
  intros H1 H2. unfold keeps_or_fresh. rewrite paused_trip, resumed_trip, H1, H2.
  destruct (paused c); [by left|right]. by destruct (resumed c).
Qed.

Lemma recordErr_keeps_or_fresh now ch class c :
  keeps_or_fresh ch c (recordErr now ch class c).1.
Proof.
  unfold recordErr, advanceDeterministicStreakLocked.
  destruct (IsDeterministicTerminal class); cbn [negb];
    repeat case_match; simpl in *; simplify_eq; try (by left); by apply trip_keeps_or_fresh.
Qed.

Lemma cell_ok_set_breaker s c :
  cell_ok s → keeps_or_fresh (made s) (breaker s) c →
  cell_ok (set_breaker c (S (made s)) (closed s) s).
Proof.
  intros [H1 H2 H3 H4] Hc. split; simpl.
  - intros ch Hch. destruct Hc as [[_ E]|(Hp & _ & E)].
    + rewrite E in Hch. destruct (H1 ch Hch). split; [lia|done].
    + destruct (resumed (breaker s)) as [k|] eqn:Ek; simpl in E.
      * rewrite E in Hch. injection Hch as ->. destruct (H1 ch eq_refl). split; [lia|done].
      * rewrite E in Hch. injection Hch as <-. split; [lia|]. intros Hin.
        specialize (H3 _ Hin). lia.
  - destruct Hc as [[-> ->]|(_ & -> & ->)]; [done|]. by split.
  - intros ch Hch. specialize (H3 ch Hch). lia.
  - intros i ch Hi. destruct (H4 i ch Hi) as (k & -> & [Hk|Hk]); [eauto|].
    exists k. split; [done|]. right. destruct Hc as [[_ ->]|(Hp & _ & ->)]; [done|].
    by rewrite Hk.
Qed.

Lemma exec_ok e s s' : cell_ok s → exec e s = Some s' → cell_ok s'.
Proof.
  intros Hs. destruct e as [|now class|now why|]; simpl.
  - intros [= <-]. destruct Hs as [H1 H2 H3 H4]. by split.
  - intros [= <-]. apply cell_ok_set_breaker; [done|]. apply recordErr_keeps_or_fresh.
  - intros [= <-]. apply cell_ok_set_breaker; [done|]. by apply trip_keeps_or_fresh.
  - destruct Hs as [H1 H2 H3 H4]. unfold resume. simpl.
    destruct (paused (breaker s)) eqn:Ep; simpl.
    + destruct (proj1 H2 eq_refl) as [k Hk]. rewrite Hk.
      destruct (H1 k Hk) as [Hlt Hnin]. rewrite decide_False by done.
      intros [= <-]. split; simpl; [done|by split; [|intros []]| |].
      * intros ch [->%elem_of_singleton|Hch]%elem_of_union; auto.
      * intros i ch Hi. destruct (H4 i ch Hi) as (k' & -> & [Hk'|Hk']).
        -- exists k'. split; [done|]. left. by apply elem_of_union_r.
        -- exists k'. split; [done|]. left. rewrite Hk in Hk'. injection Hk' as <-.
           by apply elem_of_union_l, elem_of_singleton.
    + intros [= <-]. split; simpl; [done|by rewrite Ep|done|done].
Qed.

Lemma set_waiter_ok i w s :
  cell_ok s →
  (∀ ch, w = Parked ch → ∃ k, ch = Some k ∧ (k ∈ closed s ∨ resumed (breaker s) = Some k)) →
  cell_ok (set_waiter i w s).
Proof.
  intros [H1 H2 H3 H4] Hw. split; simpl; [done..|].
  intros j ch [[<- E]|[_ E]]%lookup_insert_Some; eauto.
Qed.

Lemma step_ok s s' : cell_ok s → step s s' → cell_ok s'.
Proof.
  intros Hs Hstep. pose proof Hs as [H1 H2 H3 H4].
  destruct Hstep as [e s s' E|i s Hi|i s Hi Hp|i s Hi Hp|i ch s Hi Hc|s|i ch s Hi Hc].
  - by eapply exec_ok.
  - by apply set_waiter_ok.
  - by apply set_waiter_ok.
  - apply set_waiter_ok; [done|]. intros ch [= <-].
    destruct (proj1 H2 Hp) as [k Hk]. eauto.
  - by apply set_waiter_ok.
  - by split.
  - by apply set_waiter_ok.
Qed.

Lemma reachable_ok threshold s : reachable threshold s → cell_ok s.
Proof.
  induction 1 as [|s s' _ IH Hstep]; [|by eapply step_ok].
  split; simpl; [done|by split; [|intros []]|set_solver|intros i ch; by rewrite lookup_empty].
Qed.

Lemma set_waiter_lookup i w s : waiters (set_waiter i w s) !! i = Some w.
Proof. apply lookup_insert_eq. Qed.

(** C37: No wake-up is lost and nothing panics.  In every reachable state of a breaker
    and its waiters: no event closes a closed channel; a worker that is parked while the
    axis runs can go on by itself, and two steps return it to its caller; a worker that
    is parked when the context is cancelled can return at once; and a resume makes the
    axis run. *)
Theorem waitResumed_no_lost_wakeup (threshold : Z) (s : cell) (Hs : reachable threshold s) :
  (∀ e, is_Some (exec e s)) ∧
  (∀ s', exec EvResume s = Some s' → paused (breaker s') = false) ∧
  (∀ i ch, waiters s !! i = Some (Parked ch) →
     (paused (breaker s) = false →
        step s (set_waiter i Checking s) ∧
        step (set_waiter i Checking s) (set_waiter i (Returned false) (set_waiter i Checking s))) ∧
     (cancelled s = true → step s (set_waiter i (Returned true) s))).
Proof.
  pose proof (reachable_ok _ _ Hs) as [H1 H2 H3 H4]. split_and!.
  - intros []; simpl; [eauto..|]. unfold resume. simpl.
    destruct (paused (breaker s)); simpl; [|eauto].
    destruct (resumed (breaker s)) as [k|] eqn:E; [|eauto].
    rewrite decide_False; [eauto|]. by apply H1.
  - intros s'. simpl. unfold resume. simpl. destruct (paused (breaker s)) eqn:E; simpl.
    + destruct (resumed (breaker s)); [case_decide|]; by intros [= <-].
    + by intros [= <-].
  - intros i ch Hi. split; [|intros Hc; by eapply step_give_up].
    intros Hp. destruct (H4 i ch Hi) as (k & -> & [Hk|Hk]).
    + split; [by eapply step_wake|]. apply step_pass; [by apply set_waiter_lookup|done].
    + assert (paused (breaker s) = true) by (apply H2; eauto). congruence.
Qed.

(** A worker parks on a tripped axis; the operator resumes; the worker can return. *)
Example waitResumed_no_lost_wakeup_witness :
  ∃ s, reachable 1 s ∧ waiters s !! 0%nat = Some (Parked (Some 0%nat)) ∧
    paused (breaker s) = false ∧
    step (set_waiter 0 Checking s) (set_waiter 0 (Returned false) (set_waiter 0 Checking s)).
Proof.
  set (s0 := new_cell 1). set (s1 := default s0 (exec (EvErr 5 ClassAuthQuota) s0)).
  set (s2 := set_waiter 0 Checking s1).
  set (s3 := set_waiter 0 (Parked (resumed (breaker s2))) s2).
  set (s4 := default s3 (exec EvResume s3)).
  assert (reachable 1 s4) as H.
  { apply (reach_step _ s3); [|apply (step_event EvResume); vm_compute; reflexivity].
    apply (reach_step _ s2); [|apply step_park; vm_compute; reflexivity].
    apply (reach_step _ s1); [|apply step_enter; vm_compute; reflexivity].
    apply (reach_step _ s0); [apply reach_new|].
    apply (step_event (EvErr 5 ClassAuthQuota)); vm_compute; reflexivity. }
  assert (waiters s4 !! 0%nat = Some (Parked (Some 0%nat))) as Hw by (vm_compute; reflexivity).
  assert (paused (breaker s4) = false) as Hp by (vm_compute; reflexivity).
  exact (ex_intro _ s4 (conj H (conj Hw (conj Hp
    (proj2 (proj1 (proj2 (proj2 (waitResumed_no_lost_wakeup 1 s4 H)) 0%nat _ Hw) Hp)))))).
Defined.

(** A paused axis stays paused, with its reason, whatever its calls report. *)
Lemma paused_until_resume now ch class c :
  paused c = true →
  paused (recordErr now ch class c).1 = true ∧
  reason (recordErr now ch class c).1 = reason c ∧ (recordErr now ch class c).2 = false ∧
  paused (recordOK c) = true ∧ reason (recordOK c) = reason c.
Proof.
  intros Hp. unfold recordErr, advanceDeterministicStreakLocked.
  destruct (IsDeterministicTerminal class); cbn; by rewrite ?Hp.
Qed.

(** ** Classification *)

(** [classify] of a transport error whose reason is [http_] and a status. *)
Lemma classify_http e status message :
  int64_range status → Reason e = "http_" +:+ itoa status →
  classify (GoError (LLM e) message []) = status_class status.
Proof.
  intros Hr HR. unfold classify. simpl. unfold classifyReason. rewrite HR.
  assert (∀ s, CutPrefix s "http_" = None → "http_" +:+ itoa status ≠ s) as Hne.
  { intros s Hs E. rewrite <- E, CutPrefix_app in Hs. done. }
  assert (∀ ls, Forall (λ s, CutPrefix s "http_" = None) ls → "http_" +:+ itoa status ∉ ls) as Hnin.
  { intros ls HF Hin. rewrite Forall_forall in HF. by apply (Hne _ (HF _ Hin)). }
  rewrite !decide_False by first [apply Hne; reflexivity|apply Hnin; by repeat constructor].
  unfold classifyHTTPReason. by rewrite CutPrefix_app, Atoi_itoa.
Qed.

(** The reasons of the transports that are not HTTP: what the doc comments say of each
    class, by evaluation. *)
Example classify_named_reasons :
  (classifyReason <$> parse_reasons) = replicate 8 ClassParse ∧
  (classifyReason <$> auth_reasons) = replicate 2 ClassAuthQuota ∧
  (classifyReason <$> transport_reasons) = replicate 6 ClassTimeoutTransport ∧
  (classifyReason <$> other_reasons) = replicate 10 ClassOther ∧
  (classifyReason <$> [ReasonInputTooLarge; "response_truncated"])
    = [ClassInvalidRequest; ClassTruncation].
Proof. by vm_compute. Qed.

(** The class of an HTTP failure decides as documented: rendered into a reason and
    read back, a status is auth or quota for 401, 403 and 429, a transport failure for
    5xx, an invalid request for every other 4xx, and unclassified otherwise; so a
    fallback chain stops exactly on the other 4xx, and whatever the HTTP transports call
    transient never stops it. *)
Theorem http_failures_classified (e : LLMError) (status : Z) (message : string)
    (Hstatus : int64_range status) (Hreason : Reason e = "http_" +:+ itoa status) :
  let err := GoError (LLM e) message [] in
  (classify err = ClassAuthQuota ↔ status = 401 ∨ status = 403 ∨ status = 429) ∧
  (classify err = ClassTimeoutTransport ↔ 500 <= status <= 599) ∧
  (ShouldAdvanceFallback err = false ↔
     400 <= status <= 499 ∧ status ≠ 401 ∧ status ≠ 403 ∧ status ≠ 429) ∧
  (HTTPStatusToTransient status = true → ShouldAdvanceFallback err = true).
Proof.
  intros err. unfold ShouldAdvanceFallback. subst err.
  rewrite (classify_http e status message Hstatus Hreason).
  unfold status_class, HTTPStatusToTransient.
  repeat match goal with |- context [?x =? ?y] => destruct (Z.eqb_spec x y); subst end;
    cbn [orb]; try (split_and!; try split; (done || lia)).
  repeat match goal with
  | |- context [?x <=? ?y] => destruct (Z.leb_spec x y); cbn [andb]
  | |- context [?x <? ?y] => destruct (Z.ltb_spec x y); cbn [andb]
  end; split_and!; try split; simpl; (done || lia).
Qed.

Example http_failures_classified_witness :
  ShouldAdvanceFallback (GoError (LLM {| Transient := true; Reason := "http_503";
    RetryAfter := 0; InputChars := 0; MaxInputChars := 0 |}) "upstream" []) = true.
Proof.
  set (e := {| Transient := true; Reason := "http_503"; RetryAfter := 0;
               InputChars := 0; MaxInputChars := 0 |}).
  apply (http_failures_classified e 503 "upstream");
    [split; lia|vm_compute; reflexivity|reflexivity].
Defined.

(** The wrapping of an error is not seen: an error that wraps, at any depth, exactly
    one transport error has its class, its transience, its retry delay and its sizes. *)
Theorem classification_sees_through_wrapping (err : goerror) (messages : list string) :
  let wrapped := foldr (λ m e, GoError Plain m [e]) err messages in
  classify wrapped = classify err ∧ IsTransient wrapped = IsTransient err ∧
  RetryAfterOf wrapped = RetryAfterOf err ∧ InputTooLargeOf wrapped = InputTooLargeOf err ∧
  ShouldAdvanceFallback wrapped = ShouldAdvanceFallback err.
Proof.
  intros wrapped.
  assert (AsType as_llm wrapped = AsType as_llm err) as E.
  { subst wrapped. induction messages as [|m ms IH]; [done|]. simpl. rewrite IH.
    by destruct (AsType as_llm err). }
  unfold ShouldAdvanceFallback, classify, IsTransient, RetryAfterOf, InputTooLargeOf.
  by rewrite E.
Qed.

(** A deterministic fast trip can pause the other axis for quota: auth failures with
    two parse failures after them trip the axis as a parse storm, but the class that
    dominates the window is auth, so an embedder on the same provider is paused too, for
    a reason that names both. *)
Theorem fast_trip_cross_trips_for_quota :
  let auth := GoError (LLM {| Transient := false; Reason := "http_401"; RetryAfter := 0;
                InputChars := 0; MaxInputChars := 0 |}) "unauthorized" [] in
  let parse := GoError (LLM {| Transient := false; Reason := "parse_response"; RetryAfter := 0;
                InputChars := 0; MaxInputChars := 0 |}) "not json" [] in
  let p0 := {| summaryCircuit := newCircuitBreaker 0; embedCircuit := newCircuitBreaker 0;
               summaryProvider := "gemini"; embedProvider := "gemini" |} in
  let p := foldl (λ p err, reportErr 1 0 1 summaryBreakerAxis err p) p0
             [auth; auth; auth; parse; parse] in
  reason (summaryCircuit p) = "fast-trip — 2 consecutive response-parse failures (model output did not match the requested schema) (deterministic: identical input reproduces the same terminal failure, so retrying only burns billed API calls)" ∧
  paused (embedCircuit p) = true ∧ consecErrors (embedCircuit p) = 0 ∧
  reason (embedCircuit p) = "cross-tripped from summary axis (shared gemini provider auth/quota failure): " +:+ reason (summaryCircuit p).
Proof. by vm_compute. Qed.
