(* ===== verification/Backoff.v ===== *)
(** * Pacing the calls of the enrichment pipeline

    [internal/pipeline/backoff.go], [rpmgate.go], [ratelimit.go], the retry loop of
    [rpc.go] and [ParseRetryAfter] of [internal/llm/errors.go].

    Times and durations are nanoseconds; a duration is an int64 and its arithmetic wraps
    where the code's does.  The clock and the random draws are arguments. *)

From S2P Require Import Prelude Gostd Breaker.

#[local] Open Scope Z_scope.

Definition Millisecond : Z := 1000000.
Definition Second : Z := 1000000000.
Definition Minute : Z := 60000000000.

(** ** The shared backoff gate *)

(** [blockedUntil] is [None] for the zero time. *)
Record errBackoff := {
  base : Z;
  maxDelay : Z;
  consecutive : Z;
  blockedUntil : option Z;
}.

Definition newErrBackoff (b m : Z) : errBackoff :=
  let b := if b <=? 0 then 500 * Millisecond else b in
  let m := if m <? b then 60 * Second else m in
  {| base := b; maxDelay := m; consecutive := 0; blockedUntil := None |}.

(** How long [wait] waits at [now]. *)
Definition wait_delay (now : Z) (b : errBackoff) : Z :=
  match blockedUntil b with
  | None => 0
  | Some t => Z.max 0 (t - now)
  end.

Definition ok (b : errBackoff) : errBackoff :=
  if consecutive b =? 0 then b
  else {| base := base b; maxDelay := maxDelay b; consecutive := 0; blockedUntil := None |}.

(** [draw n] is the answer of [rng.Int63n(n)]. *)
Definition jitter (draw : Z → Z) (d : Z) (symmetric : bool) : Z :=
  let span := Z.quot d 5 in
  if span <=? 0 then 0
  else if symmetric then draw (2 * span + 1) - span
  else draw (span + 1).

(** The window before its jitter. *)
Definition exponential (b : errBackoff) : Z :=
  let shift := Z.min (consecutive b - 1) 32 in
  let d := shl64 (base b) shift in
  if (d <=? 0) || (maxDelay b <? d) then maxDelay b else d.

Definition nextDelayLocked (draw : Z → Z) (hint : Z) (b : errBackoff) : Z :=
  if 0 <? hint then wrap64 (hint + jitter draw hint false)
  else wrap64 (exponential b + jitter draw (exponential b) true).

Definition failHint (now : Z) (draw : Z → Z) (hint : Z) (b : errBackoff) : errBackoff * Z :=
  let b := {| base := base b; maxDelay := maxDelay b; consecutive := consecutive b + 1;
              blockedUntil := blockedUntil b |} in
  let d := nextDelayLocked draw hint b in
  let until := now + d in
  let later := match blockedUntil b with None => true | Some t => t <? until end in
  ({| base := base b; maxDelay := maxDelay b; consecutive := consecutive b;
      blockedUntil := if later : bool then Some until else blockedUntil b |}, d).

Definition fail (now : Z) (draw : Z → Z) (b : errBackoff) : errBackoff * Z :=
  failHint now draw 0 b.

(** ** The requests-per-minute pacer *)

(** [lastGrant] is [None] for the zero time, which any clock reading is after by more
    than an interval. *)
Record rpmGate := { interval : Z; lastGrant : option Z }.

Definition newRPMGate (rpm : Z) : rpmGate :=
  if rpm <=? 0 then {| interval := 0; lastGrant := None |}
  else {| interval := Z.quot Minute rpm; lastGrant := None |}.

(** The critical section of [wait]: the slot it reserves. *)
Definition reserve (now : Z) (g : rpmGate) : rpmGate * Z :=
  if interval g <=? 0 then (g, now)
  else
    let target := match lastGrant g with
                  | None => now
                  | Some t => if t + interval g <? now then now else t + interval g
                  end in
    ({| interval := interval g; lastGrant := Some target |}, target).

(** The slots that a sequence of waits reserves, given the clock at each. *)
Fixpoint grants (nows : list Z) (g : rpmGate) : list Z :=
  match nows with
  | [] => []
  | now :: nows' => let '(g', t) := reserve now g in t :: grants nows' g'
  end.

(** ** Server-stated delays *)

(** [ParseRetryAfter] of a header value, already trimmed; [None] is an absent header.
    [ParseTime] reads an HTTP date. *)
Definition ParseRetryAfter (ParseTime : string → option Z) (now : Z) (header : option string)
    : Z :=
  match header with
  | None | Some EmptyString => 0
  | Some v =>
      match Atoi v with
      | Some secs => if secs <=? 0 then 0 else wrap64 (secs * Second)
      | None =>
          match ParseTime v with
          | Some t => if 0 <? t - now then t - now else 0
          | None => 0
          end
      end
  end.

Definition CodeResourceExhausted : Z := 8.
Definition CodeUnavailable : Z := 14.

(** The delay and whether the error is a rate limit; a nil error is no error here. *)
Definition rateLimitHint (err : goerror) : Z * bool :=
  match AsType as_connect err with
  | Some (code, retryAfter) =>
      if (code =? CodeResourceExhausted) || (code =? CodeUnavailable)
      then (retryAfter, true) else (0, false)
  | None =>
      match AsType as_llm err with
      | Some le => if Transient le then (RetryAfter le, true) else (0, false)
      | None => (0, false)
      end
  end.

(** ** The retry loop of a writeback *)

Definition maxWritebackRetries : Z := 5.
Definition writebackBackoffBase : Z := 500 * Millisecond.
Definition writebackBackoffMax : Z := 30 * Second.

(** What the loop does, in order.  [admitWriteback] takes a permit, which the closure it
    returns gives back ([Release]), or the context ends first ([Refuse]): the closure then
    does nothing, and the call is made without a permit. *)
Inductive action := Admit | Refuse | Execute | Release | Sleep (d : Z).

(** How it ends: written, the last error, or cancelled in a sleep. *)
Inductive written := Written | Failed (err : goerror) | CancelledInSleep.

(** [answer n] is what the server says to the [n]-th [Execute]; [interrupted n] whether
    the context ends the sleep before it; [refused n] whether it ends its admission. *)
Section Retry.
Context (answer : Z → option goerror) (interrupted refused : Z → bool).

Definition next_wait (attempt hint : Z) : Z :=
    if hint <=? 0 then Z.min (shl64 writebackBackoffBase attempt) writebackBackoffMax
    else hint.

Fixpoint retry_loop (fuel : nat) (attempt wait : Z) : option (list action * written) :=
    match fuel with
    | O => None
    | S fuel' =>
        let slept := if 0 <? wait then [Sleep wait] else [] in
        if (0 <? wait) && interrupted attempt then Some (slept, CancelledInSleep)
        else
          let did := slept ++ if refused attempt then [Refuse; Execute] else [Admit; Execute; Release] in
          match answer attempt with
          | None => Some (did, Written)
          | Some err =>
              let '(hint, isRateLimit) := rateLimitHint err in
              if negb isRateLimit || (maxWritebackRetries <=? attempt) then
                Some (did, Failed err)
              else
                r ← retry_loop fuel' (attempt + 1) (next_wait attempt hint);
                Some (did ++ r.1, r.2)
          end
    end.

Definition executeBatchWithRetry : option (list action * written) := retry_loop 6 0 0.
End Retry.

(** ** Bounds of the backoff *)

(** What [rng.Int63n] promises. *)
Definition draws_in_range (draw : Z → Z) : Prop := ∀ n, 0 < n → 0 <= draw n < n.

Lemma jitter_symmetric_bounds draw d :
  draws_in_range draw → 0 <= d → - (d / 5) <= jitter draw d true <= d / 5.
Proof.
  intros Hdraw Hd. unfold jitter. rewrite Z.quot_div_nonneg by lia.
  pose proof (Z.div_pos d 5 Hd ltac:(lia)).
  destruct (Z.leb_spec (d / 5) 0); [lia|].
  specialize (Hdraw (2 * (d / 5) + 1)). lia.
Qed.

Lemma jitter_positive_bounds draw d :
  draws_in_range draw → 0 <= d → 0 <= jitter draw d false <= d / 5.
Proof.
  intros Hdraw Hd. unfold jitter. rewrite Z.quot_div_nonneg by lia.
  pose proof (Z.div_pos d 5 Hd ltac:(lia)).
  destruct (Z.leb_spec (d / 5) 0); [lia|].
  specialize (Hdraw (d / 5 + 1)). lia.
Qed.

(** The gates that [newErrBackoff] makes and its methods keep. *)
Record backoff_ok (b : errBackoff) : Prop := {
  base_pos : 0 < base b;
  max_pos : 0 < maxDelay b;
  consecutive_nonneg : 0 <= consecutive b;
  blocked_consecutive : consecutive b = 0 → blockedUntil b = None;
}.

Lemma newErrBackoff_ok b m : backoff_ok (newErrBackoff b m).
Proof.
  unfold newErrBackoff, Second, Millisecond.
  destruct (Z.leb_spec b 0) as [Hb|Hb];
    [destruct (Z.ltb_spec m (500 * 1000000))|destruct (Z.ltb_spec m b)];
    split; simpl; (done || lia).
Qed.

Lemma failHint_ok now draw hint b : backoff_ok b → backoff_ok (failHint now draw hint b).1.
Proof.
  intros [H1 H2 H3 H4]. unfold failHint. split; simpl; [done|done|lia|lia].
Qed.

Lemma ok_ok b : backoff_ok b → backoff_ok (ok b).
Proof.
  intros [H1 H2 H3 H4]. unfold ok. destruct (Z.eqb_spec (consecutive b) 0); by split.
Qed.

Lemma exponential_bounds b : backoff_ok b → 0 < exponential b <= maxDelay b.
Proof.
  intros [H1 H2 H3 H4]. unfold exponential.
  destruct (Z.leb_spec (shl64 (base b) (Z.min (consecutive b - 1) 32)) 0); cbn [orb]; [lia|].
  destruct (Z.ltb_spec (maxDelay b) (shl64 (base b) (Z.min (consecutive b - 1) 32))); lia.
Qed.

(** Without wrap-around it is the exponential, saturated. *)
Lemma exponential_exact b :
  backoff_ok b → 1 <= consecutive b → base b < 2 ^ 31 →
  exponential b = Z.min (base b * 2 ^ Z.min (consecutive b - 1) 32) (maxDelay b).
Proof.
  intros [H1 H2 H3 H4] Hc Hb. unfold exponential.
  assert (base b * 2 ^ Z.min (consecutive b - 1) 32 < 2 ^ 63) as Hlt.
  { assert (2 ^ Z.min (consecutive b - 1) 32 <= 2 ^ 32) by (apply Z.pow_le_mono_r; lia).
    change (2 ^ 63) with (2 ^ 31 * 2 ^ 32). nia. }
  assert (0 < 2 ^ Z.min (consecutive b - 1) 32) by (apply Z.pow_pos_nonneg; lia).
  rewrite shl64_exact by lia.
  destruct (Z.leb_spec (base b * 2 ^ Z.min (consecutive b - 1) 32) 0); cbn [orb]; [nia|].
  destruct (Z.ltb_spec (maxDelay b) (base b * 2 ^ Z.min (consecutive b - 1) 32)); lia.
Qed.

Lemma five_sixths x m : 0 < x <= m → m < 2 ^ 60 → m + m / 5 < 2 ^ 63 ∧ 0 <= x / 5 <= m / 5 ∧ x / 5 < x.
Proof.
  intros Hx Hm.
  pose proof (Z.div_le_mono x m 5 ltac:(lia) ltac:(lia)).
  pose proof (Z.div_pos x 5 ltac:(lia) ltac:(lia)).
  pose proof (Z.mul_div_le m 5 ltac:(lia)). pose proof (Z.mul_div_le x 5 ltac:(lia)). lia.
Qed.

(** Bounds of the backoff window, for any draw of the generator.  Without a hint
    the delay is positive, within a fifth of the un-jittered window, and that window is
    the doubling of the base saturated at the maximum, exactly, when the base is below
    2^31 ns; with a hint the delay is at least the hint and at most a fifth more. *)
Theorem backoff_delay_bounds (draw : Z → Z) (now hint : Z) (b : errBackoff)
    (Hb : backoff_ok b) (Hdraw : draws_in_range draw)
    (Hmax : maxDelay b < 2 ^ 60) (Hhint : hint < 2 ^ 60) :
  let '(b', d) := failHint now draw hint b in
  (0 < hint → hint <= d <= hint + hint / 5) ∧
  (hint <= 0 →
     0 < d <= maxDelay b + maxDelay b / 5 ∧
     exponential b' - exponential b' / 5 <= d <= exponential b' + exponential b' / 5 ∧
     (base b < 2 ^ 31 →
        exponential b' = Z.min (base b * 2 ^ Z.min (consecutive b) 32) (maxDelay b))).
Proof.
  destruct (failHint now draw hint b) as [b' d] eqn:E.
  set (b1 := {| base := base b; maxDelay := maxDelay b; consecutive := consecutive b + 1;
                blockedUntil := blockedUntil b |}) in *.
  assert (backoff_ok b1) as Hb1.
  { destruct Hb as [H1 H2 H3 H4]. split; simpl; [done|done|lia|lia]. }
  assert (exponential b' = exponential b1 ∧ d = nextDelayLocked draw hint b1) as [-> ->]
    by by injection E as <- <-.
  pose proof (exponential_bounds b1 Hb1) as Hx. change (maxDelay b1) with (maxDelay b) in Hx.
  unfold nextDelayLocked. destruct (Z.ltb_spec 0 hint) as [Hpos|Hneg]; split; try lia; intros _.
  - pose proof (jitter_positive_bounds draw hint Hdraw ltac:(lia)).
    destruct (five_sixths hint hint) as (? & ? & ?); [lia..|].
    rewrite wrap64_id; [lia|]. unfold int64_range. lia.
  - pose proof (jitter_symmetric_bounds draw (exponential b1) Hdraw ltac:(lia)).
    destruct (five_sixths (exponential b1) (maxDelay b)) as (? & ? & ?); [lia..|].
    rewrite wrap64_id by (unfold int64_range; lia). split; [lia|]. split; [lia|].
    intros Hlt. rewrite exponential_exact; [|done| |done].
    + simpl. by replace (consecutive b + 1 - 1) with (consecutive b) by lia.
    + simpl. destruct Hb. lia.
Qed.

Example backoff_delay_bounds_witness :
  let '(b', d) := failHint 10 (λ n, n - 1) 0 (newErrBackoff 0 0) in
  0 < d <= 60 * Second + 60 * Second / 5 ∧ d = 600 * Millisecond.
Proof.
  assert (draws_in_range (λ n, n - 1)) as Hd by (intros n Hn; lia).
  pose proof (backoff_delay_bounds (λ n, n - 1) 10 0 (newErrBackoff 0 0)
    (newErrBackoff_ok 0 0) Hd ltac:(vm_compute; reflexivity) ltac:(lia)) as H.
  destruct (failHint 10 (λ n, n - 1) 0 (newErrBackoff 0 0)) as [b' d] eqn:E.
  destruct H as [_ H]. destruct (H ltac:(lia)) as [H1 _]. split; [exact H1|].
  vm_compute in E. injection E as _ <-. vm_compute. reflexivity.
Defined.

(** The shift can wrap.  For a base above 2^31 ns the product leaves the int64 range
    although the shift is capped "so the exponent never overflows": a gate with a base of
    2^32 + 1 ns and a maximum of ten minutes waits ten minutes after 8 failures and
    about four seconds after 33. *)
Theorem backoff_shift_wraps :
  let b := newErrBackoff (2 ^ 32 + 1) (10 * Minute) in
  let after n := {| base := base b; maxDelay := maxDelay b; consecutive := n;
                    blockedUntil := None |} in
  exponential (after 1) = 2 ^ 32 + 1 ∧ exponential (after 9) = 10 * Minute ∧
  exponential (after 33) = 2 ^ 32 ∧ exponential (after 33) < exponential (after 1).
Proof. by vm_compute. Qed.

(** ** One window *)

Inductive backoff_event :=
| BOk
| BFail (now : Z) (draw : Z → Z) (hint : Z).

(** The gate, and the ends of the windows its failures asked for since the last
    success. *)
Definition backoff_step (s : errBackoff * list Z) (e : backoff_event) : errBackoff * list Z :=
  match e with
  | BOk => (ok s.1, [])
  | BFail now draw hint =>
      let '(b, d) := failHint now draw hint s.1 in (b, (now + d) :: s.2)
  end.

Definition latest (ends : list Z) : option Z :=
  foldr (λ t m, Some (match m with None => t | Some u => Z.max t u end)) None ends.

Lemma latest_ge ends t : t ∈ ends → ∃ u, latest ends = Some u ∧ t <= u.
Proof.
  induction ends as [|x ends IH]; [by intros ?%elem_of_nil|].
  simpl. intros [->|Hin]%elem_of_cons.
  - destruct (latest ends); eexists; (split; [done|lia]).
  - destruct (IH Hin) as (u & -> & Hu). eexists. split; [done|lia].
Qed.

(** Failures share one window.  After any sequence of successes and failures, seen
    in any order by the workers, the gate is blocked until the latest of the ends its
    failures since the last success asked for, they are counted once each, and a worker
    that waits at any moment comes back after all of those ends. *)
Theorem backoff_opens_one_window (b m : Z) (es : list backoff_event) :
  let '(g, ends) := foldl backoff_step (newErrBackoff b m, []) es in
  consecutive g = Z.of_nat (length ends) ∧ blockedUntil g = latest ends ∧
  ∀ now t, t ∈ ends → t <= now + wait_delay now g.
Proof.
  assert (∀ s, consecutive s.1 = Z.of_nat (length s.2) → blockedUntil s.1 = latest s.2 →
            let s' := foldl backoff_step s es in
            consecutive s'.1 = Z.of_nat (length s'.2) ∧ blockedUntil s'.1 = latest s'.2) as Hrun.
  { induction es as [|e es IH]; intros [g ends] H1 H2; [done|]. simpl in *. apply IH.
    - destruct e as [|now draw hint]; simpl; [|lia].
      unfold ok. by destruct (Z.eqb_spec (consecutive g) 0).
    - destruct e as [|now draw hint]; simpl.
      + unfold ok. destruct (Z.eqb_spec (consecutive g) 0) as [E|]; [|done].
        destruct ends; [done|simpl in H1; lia].
      + rewrite H2. destruct (latest ends) as [u|]; [|done].
        destruct (Z.ltb_spec u (now + nextDelayLocked draw hint
          {| base := base g; maxDelay := maxDelay g; consecutive := consecutive g + 1;
             blockedUntil := Some u |})) as [Hlt|Hge]; f_equal; lia. }
  destruct (Hrun (newErrBackoff b m, []) eq_refl eq_refl) as [H1 H2].
  destruct (foldl _ _ es) as [g ends]. simpl in H1, H2. split; [done|]. split; [done|].
  intros now t Ht. destruct (latest_ge ends t Ht) as (u & Hu & Hle).
  unfold wait_delay. rewrite H2, Hu. lia.
Qed.

(** ** The pacer *)

(** Each slot is at least an interval after the one before, and so after all before. *)
Definition spaced (iv : Z) (l : list Z) : Prop := StronglySorted (λ x y, x + iv <= y) l.

Lemma grants_spaced iv nows g :
  0 < iv → interval g = iv →
  spaced iv (grants nows g) ∧
  Forall2 (λ now t, now <= t) nows (grants nows g) ∧
  (∀ t0, lastGrant g = Some t0 → Forall (λ t, t0 + iv <= t) (grants nows g)).
Proof.
  intros Hiv. revert g. induction nows as [|now nows IH]; intros g Hg; simpl.
  { split_and!; by constructor. }
  unfold reserve. rewrite Hg. destruct (Z.leb_spec iv 0); [lia|].
  set (target := match lastGrant g with
                 | Some t => if t + iv <? now then now else t + iv
                 | None => now end).
  destruct (IH {| interval := iv; lastGrant := Some target |} eq_refl) as (H1 & H2 & H3).
  specialize (H3 target eq_refl).
  assert (now <= target) as Hnow.
  { unfold target. destruct (lastGrant g) as [t|]; [|lia]. destruct (Z.ltb_spec (t + iv) now); lia. }
  split_and!.
  - by constructor.
  - by constructor.
  - intros t0 Ht0. assert (t0 + iv <= target) as Hle.
    { unfold target. rewrite Ht0. destruct (Z.ltb_spec (t0 + iv) now); lia. }
    constructor; [done|]. eapply Forall_impl; [exact H3|]. intros x Hx. simpl in Hx. lia.
Qed.

Lemma spaced_filter iv P `{∀ x : Z, Decision (P x)} l : spaced iv l → spaced iv (filter P l).
Proof.
  induction 1 as [|x l Hl IH Hx]; [constructor|]. rewrite filter_cons.
  case_decide; [|done]. constructor; [done|]. rewrite Forall_forall in Hx |- *.
  intros y [_ Hy]%list_elem_of_filter. by apply Hx.
Qed.

Lemma spaced_length iv l lo hi :
  0 < iv → spaced iv l → Forall (λ x, lo <= x < hi) l → lo < hi →
  Z.of_nat (length l) * iv < hi - lo + iv.
Proof.
  intros Hiv Hl. revert lo. induction Hl as [|x l Hl IH Hx]; intros lo HF Hlo; simpl; [lia|].
  apply Forall_cons in HF as [Hb HF]. destruct l as [|y l]; [simpl; lia|].
  assert (Forall (λ z, x + iv <= z < hi) (y :: l)) as HF'.
  { rewrite Forall_forall in HF, Hx |- *. intros z Hz. specialize (HF z Hz).
    specialize (Hx z Hz). lia. }
  assert (x + iv < hi) as Hlt by (apply Forall_cons in HF' as [? _]; lia).
  specialize (IH (x + iv) HF' Hlt). rewrite Nat2Z.inj_succ. lia.
Qed.

(** C36: The pacer spaces the calls of any number of workers: whatever the clock readings
    of the waits, in the order they take the lock, the slots are in order, pairwise at
    least an interval apart, none before its wait; so a window of one minute holds at
    most the configured number when that divides a minute, and in any case fewer than
    one plus a minute over the interval. *)
Theorem rpm_pacing (rpm : Z) (nows : list Z) (Hrpm : 0 < rpm <= Minute) :
  let ts := grants nows (newRPMGate rpm) in
  spaced (Minute `quot` rpm) ts ∧ Forall2 (λ now t, now <= t) nows ts ∧
  ∀ t, let inside := filter (λ x, t <= x < t + Minute) ts in
    Z.of_nat (length inside) * (Minute `quot` rpm) < Minute + Minute `quot` rpm ∧
    (Minute mod rpm = 0 → Z.of_nat (length inside) <= rpm).
Proof.
  intros ts. unfold Minute in *.
  assert (0 < 60000000000 `quot` rpm) as Hiv by (apply Z.quot_str_pos; lia).
  assert (interval (newRPMGate rpm) = 60000000000 `quot` rpm) as Hint.
  { unfold newRPMGate. destruct (Z.leb_spec rpm 0); [lia|done]. }
  destruct (grants_spaced _ nows _ Hiv Hint) as (H1 & H2 & _).
  split; [exact H1|]. split; [exact H2|]. intros t. set (inside := filter _ ts).
  assert (Z.of_nat (length inside) * (60000000000 `quot` rpm)
          < 60000000000 + 60000000000 `quot` rpm) as Hlen.
  { replace 60000000000 with (t + 60000000000 - t) at 2 by lia.
    apply spaced_length; [done|by apply spaced_filter| |lia].
    apply Forall_forall. by intros x [? _]%list_elem_of_filter. }
  split; [exact Hlen|]. intros Hdiv.
  rewrite Z.quot_div_nonneg in Hlen by lia.
  pose proof (Z.div_mod 60000000000 rpm ltac:(lia)). nia.
Qed.

Example rpm_pacing_witness :
  let inside := filter (λ x, 5 <= x < 5 + Minute) (grants [0; 0; 0; 100] (newRPMGate 2)) in
  Z.of_nat (length inside) <= 2 ∧ inside = [30000000000; 60000000000].
Proof.
  split; [|vm_compute; reflexivity].
  apply (proj2 (proj2 (proj2 (rpm_pacing 2 [0; 0; 0; 100] ltac:(unfold Minute; lia))) 5)).
  vm_compute. reflexivity.
Defined.

(** A ceiling that does not divide a minute is exceeded by one: at seven requests a
    minute, eight are granted within one minute. *)
Theorem rpm_ceiling_exceeded :
  let ts := grants (replicate 8 0) (newRPMGate 7) in
  length (filter (λ x, 0 <= x < Minute) ts) = 8%nat.
Proof. by vm_compute. Qed.

(** ** The retry loop *)

(** Where the loop is: without a permit, with one, with one that its call has used, or
    about to call without one because the context has ended. *)
Inductive permit := NoPermit | Permit | Used | Ended.

(** [None] when an action is out of place: a sleep, or a second admission or call, while
    holding a permit; a call without a permit that no ended context explains. *)
Definition bracket (held : option permit) (a : action) : option permit :=
  match held, a with
  | Some NoPermit, Admit => Some Permit
  | Some Permit, Execute => Some Used
  | Some Used, Release => Some NoPermit
  | Some NoPermit, Refuse => Some Ended
  | Some Ended, Execute => Some NoPermit
  | Some NoPermit, Sleep _ => Some NoPermit
  | _, _ => None
  end.

Definition bracketed (acts : list action) : Prop :=
  foldl bracket (Some NoPermit) acts = Some NoPermit.

#[export] Instance action_eq_dec : EqDecision action.
Proof. solve_decision. Defined.

Definition executes (acts : list action) : nat :=
  length (filter (λ a, a = Execute) acts).

(** The calls without a permit. *)
Definition refusals (acts : list action) : nat :=
  length (filter (λ a, a = Refuse) acts).

Lemma bracketed_app a b : bracketed a → bracketed b → bracketed (a ++ b).
Proof. unfold bracketed. intros Ha Hb. by rewrite foldl_app, Ha. Qed.

Section RetryProps.
Context (answer : Z → option goerror) (interrupted refused : Z → bool).

Definition attempt_actions (n wait : Z) : list action :=
  (if 0 <? wait then [Sleep wait] else []) ++
  if refused n then [Refuse; Execute] else [Admit; Execute; Release].

Lemma attempt_bracketed n wait : bracketed (attempt_actions n wait).
Proof. unfold bracketed, attempt_actions. by destruct (0 <? wait), (refused n). Qed.

Lemma attempt_executes n wait acts : executes (attempt_actions n wait ++ acts) = S (executes acts).
Proof. unfold executes, attempt_actions. by destruct (0 <? wait), (refused n). Qed.

Lemma attempt_executes_alone n wait : executes (attempt_actions n wait) = 1%nat.
Proof. unfold executes, attempt_actions. by destruct (0 <? wait), (refused n). Qed.

Lemma attempt_refusals n wait acts :
  refusals (attempt_actions n wait ++ acts) = ((if refused n then 1 else 0) + refusals acts)%nat.
Proof. unfold refusals, attempt_actions. by destruct (0 <? wait), (refused n). Qed.

Lemma attempt_refusals_alone n wait :
  refusals (attempt_actions n wait) = if refused n then 1%nat else 0%nat.
Proof. unfold refusals, attempt_actions. by destruct (0 <? wait), (refused n). Qed.

(** A context that has ended an admission ends the sleep after it. *)
Definition stays_ended : Prop := ∀ n, refused n = true → interrupted (n + 1) = true.

  (** The [n]-th [Execute] was refused for its rate. *)
Definition rate_limited (n : Z) : Prop :=
    ∃ err, answer n = Some err ∧ (rateLimitHint err).2 = true.

  (** The wait before attempt [n + 1], after a rate-limited attempt [n]. *)
Lemma next_wait_pos n hint : 0 <= n <= 4 → 0 < next_wait n hint.
Proof.
    intros Hn. unfold next_wait. destruct (Z.leb_spec hint 0); [|done].
    assert (n = 0 ∨ n = 1 ∨ n = 2 ∨ n = 3 ∨ n = 4) as Hc by lia.
    by repeat destruct Hc as [->|Hc]; [..|subst n]; vm_compute.
  Qed.

Lemma next_wait_cap n hint : hint <= 0 → next_wait n hint <= writebackBackoffMax.
Proof. intros H. unfold next_wait. destruct (Z.leb_spec hint 0); lia. Qed.

  (** What a run of the loop from attempt [n], which waits first, does. *)
Definition run_spec (n wait : Z) (acts : list action) (res : written) : Prop :=
    bracketed acts ∧ (Z.of_nat (executes acts) <= 6 - n) ∧
    (res = Written ↔ ∃ k, n <= k <= 5 ∧ answer k = None ∧
       (∀ j, n <= j < k → rate_limited j) ∧
       (∀ j, n <= j <= k → (j = n → 0 < wait) → interrupted j = false)) ∧
    (∀ err, res = Failed err → ∃ k, n <= k <= 5 ∧ answer k = Some err ∧
       ((rateLimitHint err).2 = false ∨ k = 5)) ∧
    (∀ d, Sleep d ∈ acts → 0 < d ∧ (d = wait ∨ d <= writebackBackoffMax ∨
       ∃ k err, n <= k < 5 ∧ answer k = Some err ∧ d = (rateLimitHint err).1)) ∧
    (stays_ended → (refusals acts ≤ 1)%nat ∧
       (0 < wait → interrupted n = true → refusals acts = 0%nat)).

Lemma sleep_in_attempt d n wait : Sleep d ∈ attempt_actions n wait → d = wait ∧ 0 < d.
Proof.
    unfold attempt_actions. destruct (Z.ltb_spec 0 wait), (refused n); simpl;
      rewrite ?elem_of_cons, ?elem_of_nil; intros Hin;
      repeat destruct Hin as [Hin|Hin]; simplify_eq; done.
  Qed.

  (** The four ways an attempt ends. *)
Lemma run_cancelled n wait :
    0 <= n <= 5 → (0 <? wait) = true → interrupted n = true →
    run_spec n wait [Sleep wait] CancelledInSleep.
Proof.
    intros Hn Hw Hi. unfold run_spec.
    change (executes [Sleep wait]) with 0%nat. change (refusals [Sleep wait]) with 0%nat.
    split_and!; [done|lia| |done| |intros _; split; [lia|done]].
    - split; [done|]. intros (k & Hk & _ & _ & HI).
      rewrite HI in Hi; [done|lia|intros _; lia].
    - intros d Hd%list_elem_of_singleton. injection Hd as ->. split; [lia|by left].
  Qed.

Lemma run_written n wait :
    0 <= n <= 5 → (0 < wait → interrupted n = false) → answer n = None →
    run_spec n wait (attempt_actions n wait) Written.
Proof.
    intros Hn Hi Ha. unfold run_spec.
    rewrite attempt_executes_alone.
    split_and!; [apply attempt_bracketed|lia| |done| |].
    - split; [|done]. intros _. exists n. split_and!; [lia|lia|done|intros ??; lia|].
      intros j Hj Hw. assert (j = n) as -> by lia. by apply Hi, Hw.
    - intros d [-> Hd]%sleep_in_attempt. split; [done|by left].
    - rewrite attempt_refusals_alone. intros _. split; [destruct (refused n); lia|]. intros Hw E. by rewrite Hi in E.
  Qed.

Lemma run_failed n wait err :
    0 <= n <= 5 → (0 < wait → interrupted n = false) → answer n = Some err →
    (rateLimitHint err).2 = false ∨ n = 5 →
    run_spec n wait (attempt_actions n wait) (Failed err).
Proof.
    intros Hn Hi Ha Hstop. unfold run_spec.
    rewrite attempt_executes_alone.
    split_and!; [apply attempt_bracketed|lia| | | |].
    - split; [done|]. intros (k & Hk & Hnone & Hlim & _).
      destruct (decide (k = n)) as [->|]; [congruence|].
      destruct Hstop as [Hstop|]; [|lia].
      destruct (Hlim n) as (err' & E & Hl); [lia|]. rewrite Ha in E. injection E as <-. congruence.
    - intros err' [= <-]. exists n. split; [lia|done].
    - intros d [-> Hd]%sleep_in_attempt. split; [done|by left].
    - rewrite attempt_refusals_alone. intros _. split; [destruct (refused n); lia|]. intros Hw E. by rewrite Hi in E.
  Qed.

Lemma run_retried n wait err acts res :
    0 <= n < 5 → (0 < wait → interrupted n = false) → answer n = Some err →
    (rateLimitHint err).2 = true →
    run_spec (n + 1) (next_wait n (rateLimitHint err).1) acts res →
    run_spec n wait (attempt_actions n wait ++ acts) res.
Proof.
    intros Hn Hi Ha Hl (H1 & H2 & H3 & H4 & H5 & H6). unfold run_spec.
    pose proof (next_wait_pos n (rateLimitHint err).1 ltac:(lia)) as Hpos.
    rewrite attempt_executes.
    split_and!; [apply bracketed_app; [apply attempt_bracketed|done]|lia| | | |].
    - rewrite H3. split; intros (k & Hk & Hnone & Hlim & HI).
      + exists k. split_and!; [lia|lia|done| |].
        * intros j Hj. destruct (decide (j = n)) as [->|]; [by exists err|apply Hlim; lia].
        * intros j Hj Hw. destruct (decide (j = n)) as [->|]; [by apply Hi, Hw|].
          apply HI; [lia|done].
      + assert (k ≠ n) by congruence. exists k. split_and!; [lia|lia|done| |].
        * intros j Hj. apply Hlim. lia.
        * intros j Hj _. apply HI; [lia|lia].
    - intros err' E. destruct (H4 err' E) as (k & Hk & Hrest). exists k. split; [lia|done].
    - intros d [Hd|Hd]%elem_of_app.
      + apply sleep_in_attempt in Hd as [-> Hd]. split; [done|by left].
      + destruct (H5 d Hd) as (Hd0 & [->|[Hcap|(k & err' & Hk & Hrest)]]).
        * split; [done|]. destruct (Z.leb_spec (rateLimitHint err).1 0) as [Hle|Hgt].
          -- right; left. by apply next_wait_cap.
          -- right; right. exists n, err. unfold next_wait.
             destruct (Z.leb_spec (rateLimitHint err).1 0); [lia|]. split; [lia|done].
        * split; [done|by right; left].
        * split; [done|]. right; right. exists k, err'. split; [lia|done].
    - intros Hended. destruct (H6 Hended) as [H7 H8]. rewrite attempt_refusals. split.
      + destruct (refused n) eqn:E; [|exact H7]. rewrite H8; [lia|done|by apply Hended].
      + intros Hw E. by rewrite Hi in E.
  Qed.

Lemma retry_loop_spec fuel n wait :
    0 <= n <= 5 → 6 - n <= Z.of_nat fuel →
    ∃ acts res, retry_loop answer interrupted refused fuel n wait = Some (acts, res) ∧
      run_spec n wait acts res.
Proof.
    revert n wait. induction fuel as [|fuel IH]; intros n wait Hn Hf; [lia|].
    cbn [retry_loop]. fold (attempt_actions n wait).
    destruct ((0 <? wait) && interrupted n) eqn:Eint.
    { apply andb_true_iff in Eint as [Hw Hi]. rewrite Hw.
      eexists _, _. split; [done|]. by apply run_cancelled. }
    assert (0 < wait → interrupted n = false) as Hi.
    { intros Hw. apply andb_false_iff in Eint as [E|E]; [lia|done]. }
    destruct (answer n) as [err|] eqn:Ea.
    2:{ eexists _, _. split; [done|]. by apply run_written. }
    destruct (rateLimitHint err) as [hint limited] eqn:Eh.
    destruct (negb limited || (maxWritebackRetries <=? n)) eqn:Estop.
    { eexists _, _. split; [done|]. apply run_failed; [done|done|done|]. rewrite Eh. cbn [snd].
      unfold maxWritebackRetries in Estop.
      destruct limited; [right; cbn [negb orb] in Estop; lia|by left]. }
    apply orb_false_iff in Estop as [El En]. unfold maxWritebackRetries in En.
    destruct (IH (n + 1) (next_wait n hint)) as (acts & res & -> & Hspec); [lia..|].
    eexists _, _. split; [done|]. cbn [fst snd].
    apply (run_retried n wait err acts res); [lia|done|done|..]; rewrite Eh;
      [by destruct limited|done].
  Qed.
End RetryProps.

(** C38: A writeback always ends, after at most six calls.  Each call holds a permit of its
    own, unless the context ended during its admission: that call is then made without
    one.  No permit is held in a sleep, and none is kept; if a context that has ended an
    admission also ends the sleep after it, at most one call is without a permit.  It is
    written exactly when some call of the first six is answered after rate limits only,
    uninterrupted; it fails with the error of a call that was not rate-limited, or of the
    sixth; it sleeps for the server's hint, or at most thirty seconds. *)
Theorem writeback_retries_bounded (answer : Z → option goerror) (interrupted refused : Z → bool) :
  ∃ acts res, executeBatchWithRetry answer interrupted refused = Some (acts, res) ∧
    run_spec answer interrupted refused 0 0 acts res.
Proof. apply retry_loop_spec; lia. Qed.
