(* ===== verification/Admission.v ===== *)
(** * Admission of writebacks

    [internal/pipeline/writeback_admission.go]: at most two writebacks of one server lock
    domain are in flight.  A gate is a channel of capacity two; what matters of it is how
    many permits it holds.  Workers and the cancellation of their contexts interleave as
    steps of [step]. *)

From S2P Require Import Prelude Gostd.
From Stdlib Require Import Ascii.

#[local] Open Scope nat_scope.

Definition WritebackHoldersPerGraph : nat := 2.

(** [graphKey]; the destination is a storage and an account. *)
Record graphKey := { GraphType : string; GraphName : string; Destination : string * string }.

#[export] Instance graphKey_eq_dec : EqDecision graphKey.
Proof. solve_decision. Defined.

#[export] Instance graphKey_countable : Countable graphKey.
Proof.
  refine (inj_countable' (λ k, (GraphType k, GraphName k, Destination k))
            (λ '(t, n, d), {| GraphType := t; GraphName := n; Destination := d |}) _).
  by intros [].
Defined.

Definition GraphCode : string := "code".

(** The destination of the key is the zero one for every family. *)
Definition admissionKeyFor (gt graphName : string) : graphKey :=
  if decide (gt = GraphCode) then
    {| GraphType := gt; GraphName := graphName; Destination := ("", "") |}
  else
    {| GraphType := gt; GraphName := (Cut graphName "@"%char).1.1; Destination := ("", "") |}.

(** ** The gates and the workers *)

(** Where a worker is: outside; blocked in [admitWriteback]; past it, with the closure
    that gives its permit back, or with the one that does nothing. *)
Inductive worker := Outside | Waiting (k : graphKey) | Holding (k : graphKey) | Refused (k : graphKey).

#[export] Instance worker_eq_dec : EqDecision worker.
Proof. solve_decision. Defined.

(** [gates] maps a key to the permits its channel holds; a key without a gate has none.
    [done] are the workers whose context is cancelled. *)
Record admission := {
  gates : gmap graphKey nat;
  workers : gmap nat worker;
  done : gset nat;
}.

Definition permits (s : admission) (k : graphKey) : nat := default 0 (gates s !! k).

Definition move (i : nat) (w : worker) (g : gmap graphKey nat) (s : admission) : admission :=
  {| gates := g; workers := <[i := w]> (workers s); done := done s |}.

(** [gateFor] makes the channel on first use. *)
Definition gateFor (k : graphKey) (g : gmap graphKey nat) : gmap graphKey nat :=
  match g !! k with Some _ => g | None => <[k := 0]> g end.

Inductive step : admission → admission → Prop :=
| step_ask i k s :
    workers s !! i = Some Outside →
    step s (move i (Waiting k) (gateFor k (gates s)) s)
| step_admit i k n s :
    workers s !! i = Some (Waiting k) → gates s !! k = Some n →
    n < WritebackHoldersPerGraph →
    step s (move i (Holding k) (<[k := S n]> (gates s)) s)
| step_refuse i k s :
    workers s !! i = Some (Waiting k) → i ∈ done s →
    step s (move i (Refused k) (gates s) s)
| step_release i k n s :
    workers s !! i = Some (Holding k) → gates s !! k = Some (S n) →
    step s (move i Outside (<[k := n]> (gates s)) s)
| step_leave i k s :
    workers s !! i = Some (Refused k) → step s (move i Outside (gates s) s)
| step_cancel i s :
    step s {| gates := gates s; workers := workers s; done := {[i]} ∪ done s |}.

(** Any number of workers, none inside. *)
Definition start (n : nat) : admission :=
  {| gates := ∅; workers := gset_to_gmap Outside (set_seq 0 n); done := ∅ |}.

Inductive reachable (n : nat) : admission → Prop :=
| reach_start : reachable n (start n)
| reach_step s s' : reachable n s → step s s' → reachable n s'.

(** ** The permits are those of the admitted workers *)

(** The workers inside with a permit of [k]. *)
Definition holders (s : admission) (k : graphKey) : gset nat :=
  dom (filter (λ '(_, w), w = Holding k) (workers s)).

Record gates_ok (s : admission) : Prop := {
  ok_permits : ∀ k, permits s k = size (holders s k);
  ok_capacity : ∀ k, permits s k ≤ WritebackHoldersPerGraph;
  ok_gate : ∀ i k, workers s !! i = Some (Waiting k) ∨ workers s !! i = Some (Holding k) →
    is_Some (gates s !! k);
}.

Lemma elem_of_holders s k i : i ∈ holders s k ↔ workers s !! i = Some (Holding k).
Proof.
  unfold holders. rewrite elem_of_dom. unfold is_Some.
  setoid_rewrite map_lookup_filter_Some. split; [by intros (w & H & ->)|eauto].
Qed.

Lemma holders_move i w g s k :
  holders (move i w g s) k =
    if decide (w = Holding k) then {[i]} ∪ holders s k else holders s k ∖ {[i]}.
Proof.
  apply set_eq. intros j. rewrite elem_of_holders. simpl. rewrite lookup_insert_Some.
  case_decide as E.
  - rewrite elem_of_union, elem_of_singleton, elem_of_holders. destruct (decide (j = i)); intuition congruence.
  - rewrite elem_of_difference, elem_of_singleton, elem_of_holders. intuition congruence.
Qed.

Lemma holders_absent s k i : workers s !! i ≠ Some (Holding k) → holders s k ∖ {[i]} = holders s k.
Proof.
  intros H. apply set_eq. intros j.
  rewrite elem_of_difference, elem_of_singleton, elem_of_holders. intuition congruence.
Qed.

Lemma size_holders_move_in i g s k :
  workers s !! i ≠ Some (Holding k) →
  size (holders (move i (Holding k) g s) k) = S (size (holders s k)).
Proof.
  intros H. rewrite holders_move, decide_True by done.
  rewrite size_union, size_singleton; [lia|].
  apply disjoint_singleton_l. by rewrite elem_of_holders.
Qed.

Lemma holders_nonempty i s k : workers s !! i = Some (Holding k) → size (holders s k) ≠ 0.
Proof.
  intros Hi E%size_empty_inv. apply (not_elem_of_empty (C:=gset nat) i).
  rewrite <- E. by apply elem_of_holders.
Qed.

Lemma size_holders_move_out i w g s k :
  workers s !! i = Some (Holding k) → w ≠ Holding k →
  S (size (holders (move i w g s) k)) = size (holders s k).
Proof.
  intros H Hw. rewrite holders_move, decide_False by done.
  rewrite size_difference, size_singleton.
  - pose proof (holders_nonempty i s k H). lia.
  - intros j ->%elem_of_singleton. by apply elem_of_holders.
Qed.

Lemma holders_move_other i w g s k :
  w ≠ Holding k → workers s !! i ≠ Some (Holding k) →
  holders (move i w g s) k = holders s k.
Proof. intros Hw Hi. rewrite holders_move, decide_False by done. by apply holders_absent. Qed.

Lemma permits_move i w g s k : permits (move i w g s) k = default 0 (g !! k).
Proof. done. Qed.

Lemma gateFor_permits k g k' : default 0 (gateFor k g !! k') = default 0 (g !! k').
Proof.
  unfold gateFor. destruct (g !! k) eqn:E; [done|].
  rewrite lookup_insert. case_decide; [subst; by rewrite E|done].
Qed.

Lemma gateFor_present k g : is_Some (gateFor k g !! k).
Proof. unfold gateFor. destruct (g !! k) eqn:E; [by rewrite E|]. rewrite lookup_insert_eq. eauto. Qed.

Lemma gateFor_keeps k g k' : is_Some (g !! k') → is_Some (gateFor k g !! k').
Proof.
  unfold gateFor. destruct (g !! k); [done|]. rewrite lookup_insert. case_decide; eauto.
Qed.

(** Every gate a worker waits at or holds a permit of survives an update. *)
Lemma ok_gate_move s i w g :
  (∀ j k, workers s !! j = Some (Waiting k) ∨ workers s !! j = Some (Holding k) → is_Some (gates s !! k)) →
  (∀ k, is_Some (gates s !! k) → is_Some (g !! k)) →
  (∀ k, w = Waiting k ∨ w = Holding k → is_Some (g !! k)) →
  ∀ j k, workers (move i w g s) !! j = Some (Waiting k)
         ∨ workers (move i w g s) !! j = Some (Holding k) → is_Some (g !! k).
Proof.
  intros H Hg Hw j k. simpl. rewrite !lookup_insert. case_decide; [naive_solver|]. eauto.
Qed.

Lemma is_Some_insert (g : gmap graphKey nat) k n k' :
  is_Some (g !! k') → is_Some (<[k := n]> g !! k').
Proof. rewrite lookup_insert. case_decide; eauto. Qed.

Lemma gates_ok_idle s i w g :
  gates_ok s → (∀ k, w ≠ Holding k) → (∀ k, workers s !! i ≠ Some (Holding k)) →
  (∀ k, default 0 (g !! k) = permits s k) →
  (∀ k, is_Some (gates s !! k) → is_Some (g !! k)) →
  (∀ k, w = Waiting k → is_Some (g !! k)) →
  gates_ok (move i w g s).
Proof.
  intros [H1 H2 H3] Hw Hi Hp Hg Hk. split.
  - intros k. by rewrite permits_move, Hp, holders_move_other, H1.
  - intros k. by rewrite permits_move, Hp.
  - apply ok_gate_move; naive_solver.
Qed.

Lemma gates_step_ok s s' : gates_ok s → step s s' → gates_ok s'.
Proof.
  intros Hs Hstep. pose proof Hs as [H1 H2 H3].
  destruct Hstep as [i k s Hi|i k n s Hi Hk Hn|i k s Hi Hd|i k n s Hi Hk|i k s Hi|i s].
  - apply gates_ok_idle; try done; try congruence.
    + intros k'. by rewrite gateFor_permits.
    + intros k'. apply gateFor_keeps.
    + intros k' [= <-]. apply gateFor_present.
  - assert (permits s k = n) as Hp by (unfold permits; by rewrite Hk).
    split.
    + intros k'. rewrite permits_move, lookup_insert. case_decide as E.
      * subst k'. rewrite size_holders_move_in by congruence. by rewrite <- H1, Hp.
      * rewrite holders_move_other by congruence. apply H1.
    + intros k'. rewrite permits_move, lookup_insert. case_decide; [exact Hn|apply H2].
    + apply ok_gate_move; [done|by intros; apply is_Some_insert|].
      intros k' [?|[= <-]]; [done|]. simpl. rewrite lookup_insert_eq. eauto.
  - apply gates_ok_idle; try done; try congruence.
  - assert (permits s k = S n) as Hp by (unfold permits; by rewrite Hk).
    split.
    + intros k'. rewrite permits_move, lookup_insert. case_decide as E.
      * subst k'. simpl. pose proof (size_holders_move_out i Outside (<[k := n]> (gates s)) s k Hi ltac:(done)).
        specialize (H1 k). lia.
      * rewrite holders_move_other by congruence. apply H1.
    + intros k'. rewrite permits_move, lookup_insert. case_decide; [|apply H2].
      subst. specialize (H2 k'). simpl. lia.
    + apply ok_gate_move; [done|by intros; apply is_Some_insert|]. by intros k' [?|?].
  - apply gates_ok_idle; try done; try congruence.
  - by split.
Qed.

Lemma gates_reachable_ok n s : reachable n s → gates_ok s.
Proof.
  induction 1 as [|s s' _ IH Hstep]; [|by eapply gates_step_ok].
  assert (∀ i w, workers (start n) !! i = Some w → w = Outside) as Hw.
  { intros i w Hw. simpl in Hw. by apply lookup_gset_to_gmap_Some in Hw as [_ <-]. }
  split.
  - intros k. assert (holders (start n) k = ∅) as ->.
    { apply set_eq. intros i. rewrite elem_of_holders. split; [|set_solver].
      by intros ?%Hw. }
    by rewrite size_empty.
  - intros k. unfold permits. simpl. rewrite lookup_empty. simpl. lia.
  - intros i k [H|H]; by apply Hw in H.
Qed.

(** C34: Admission keeps its bound and leaks nothing, under every interleaving of any
    number of workers and cancellations: the permits of a gate are exactly the workers
    inside with one, at most two per lock domain; a worker with a permit can always give
    it back without blocking; one without can always leave, and gives none back; and a
    waiting worker can enter as soon as fewer than two are inside. *)
Theorem admission_bounded (n : nat) (s : admission) (Hs : reachable n s) :
  (∀ k, permits s k = size (holders s k) ∧ permits s k ≤ 2) ∧
  (∀ i k, workers s !! i = Some (Holding k) →
     ∃ s', step s s' ∧ workers s' !! i = Some Outside ∧ S (permits s' k) = permits s k) ∧
  (∀ i k, workers s !! i = Some (Refused k) →
     ∃ s', step s s' ∧ workers s' !! i = Some Outside ∧ gates s' = gates s) ∧
  (∀ i k, workers s !! i = Some (Waiting k) → size (holders s k) < 2 →
     ∃ s', step s s' ∧ workers s' !! i = Some (Holding k)).
Proof.
  pose proof (gates_reachable_ok n s Hs) as [H1 H2 H3]. split_and!.
  - intros k. split; [apply H1|apply H2].
  - intros i k Hi. pose proof (holders_nonempty i s k Hi) as Hsz.
    destruct (H3 i k (or_intror Hi)) as [m Hm].
    specialize (H1 k). unfold permits in H1 |- *. rewrite Hm in H1 |- *. simpl in H1.
    destruct m as [|m]; [lia|]. eexists. split; [by eapply step_release|]. simpl.
    by rewrite !lookup_insert_eq.
  - intros i k Hi. eexists. split; [by eapply step_leave|]. simpl. by rewrite lookup_insert_eq.
  - intros i k Hi Hlt. destruct (H3 i k (or_introl Hi)) as [m Hm].
    specialize (H1 k). unfold permits in H1. rewrite Hm in H1. simpl in H1.
    eexists. split; [eapply step_admit; [done..|unfold WritebackHoldersPerGraph; lia]|].
    simpl. by rewrite lookup_insert_eq.
Qed.

(** Two workers inside one domain and a third waiting. *)
Example admission_bounded_witness :
  ∃ s k, reachable 3 s ∧ workers s !! 2 = Some (Waiting k) ∧ permits s k = 2 ∧ permits s k ≤ 2.
Proof.
  set (k := admissionKeyFor "code" "repo@branch").
  set (into i s := move i (Waiting k) (gateFor k (gates s)) s).
  set (enter i s := move i (Holding k) (<[k := S (permits s k)]> (gates s)) s).
  set (s := into 2 (enter 1 (into 1 (enter 0 (into 0 (start 3)))))).
  assert (reachable 3 s) as H.
  { apply (reach_step _ (enter 1 (into 1 (enter 0 (into 0 (start 3))))));
      [|apply step_ask; vm_compute; reflexivity].
    apply (reach_step _ (into 1 (enter 0 (into 0 (start 3)))));
      [|apply step_admit; [vm_compute; reflexivity..|vm_compute; lia]].
    apply (reach_step _ (enter 0 (into 0 (start 3))));
      [|apply step_ask; vm_compute; reflexivity].
    apply (reach_step _ (into 0 (start 3)));
      [|apply step_admit; [vm_compute; reflexivity..|vm_compute; lia]].
    apply (reach_step _ (start 3)); [apply reach_start|].
    apply step_ask; vm_compute; reflexivity. }
  assert (workers s !! 2 = Some (Waiting k)) as Hw by (vm_compute; reflexivity).
  assert (permits s k = 2) as Hp by (vm_compute; reflexivity).
  exact (ex_intro _ s (ex_intro _ k (conj H (conj Hw (conj Hp
    (proj2 (proj1 (admission_bounded 3 s H) k))))))).
Defined.

(** The key of a writeback mirrors the server's lock domain: the code family keeps
    its overlay, so distinct names are distinct domains; every other family drops it, so
    a base and its overlays share one, and stripping twice changes nothing. *)
Theorem admissionKeyFor_mirrors (gt base overlay name name' : string)
    (Hbase : (Cut base "@"%char).2 = false) :
  (admissionKeyFor GraphCode name = admissionKeyFor GraphCode name' → name = name') ∧
  (gt ≠ GraphCode →
     admissionKeyFor gt (base +:+ "@" +:+ overlay) = admissionKeyFor gt base ∧
     GraphName (admissionKeyFor gt base) = base).
Proof.
  assert ((Cut base "@"%char).1.1 = base ∧ (Cut (base +:+ "@" +:+ overlay) "@"%char).1.1 = base)
    as [E1 E2].
  { revert Hbase. induction base as [|c base IH]; intros H; [done|].
    cbn [Cut] in H |- *. rewrite (eq_refl : String c base +:+ "@" +:+ overlay
      = String c (base +:+ "@" +:+ overlay)). cbn [Cut].
    case_decide; [done|]. destruct (Cut base "@"%char) as [[a b] f]. simpl in H |- *.
    destruct (IH H) as [IH1 IH2]. simpl in IH1. subst a.
    destruct (Cut (base +:+ "@" +:+ overlay) "@"%char) as [[a' b'] f']. simpl in *. by subst a'. }
  split.
  - unfold admissionKeyFor. rewrite !decide_True by done. by intros [= ->].
  - intros Hgt. unfold admissionKeyFor. rewrite !decide_False by done. by rewrite E1, E2.
Qed.

Example admissionKeyFor_mirrors_witness :
  admissionKeyFor "knowledge" "default@session-x" = admissionKeyFor "knowledge" "default".
Proof.
  apply (proj2 (admissionKeyFor_mirrors "knowledge" "default" "session-x" "a" "b" eq_refl)).
  by vm_compute.
Defined.
