(* ===== verification/SummaryWork.v ===== *)
(** * The summary worker: leases, calls, and the split of an oversize batch

    [internal/pipeline/worker.go], [worker_summary_split.go], [worker_summary_lease.go].

    A worker is a function of what the outside answers: the summarizer's answer to the
    [n]-th call, the [n]-th poll of the context, the [n]-th writeback.  What it does to
    the shared gates, the metrics and the server is the trace it leaves; [Breaker.v],
    [Backoff.v] and [Admission.v] say what the gates do with it.  The clients of a group
    (graph and backend) are fixed, so they are not carried.  Logging is not modelled. *)

From S2P Require Import Prelude Gostd Breaker.

#[local] Open Scope Z_scope.

(** ** Work items, chunks and results *)

(** [SummaryWork], less the fields that only address the group and the collector. *)
Record SummaryWork := { NodeID : string; SummarizeText : string }.

Record BatchChunk := { ChunkID : string; Content : string }.

Record SummarizeResult := { ResSummary : string; ResKeywords : string }.

(** [updateBatchItem], with the fields this axis sets. *)
Record updateBatchItem := {
  ItemID : string;
  ItemSummary : option string;
  ItemKeywords : option string;
  ItemMetadata : gmap string string;
}.

Record summaryMarkerItem := { MarkID : string; Meta : gmap string string }.

Definition MetaKeySummaryFailureReason : string := "summary_failure_reason".
Definition MetaKeySummaryFailureTerminal : string := "summary_failure_terminal".

(** [len(w.SummarizeText)]. *)
Definition size_of (w : SummaryWork) : Z := Z.of_nat (String.length (SummarizeText w)).

(** ** Splitting a batch *)

Definition knownOversizeSummaryItems (items : list SummaryWork) (limit : Z) : list SummaryWork :=
  if limit <=? 0 then [] else filter (λ w, limit < size_of w) items.

Definition halveSummaryItems (items : list SummaryWork) : list (list SummaryWork) :=
  if (length items <? 2)%nat then [items]
  else let mid := Nat.div (length items) 2 in [take mid items; drop mid items].

(** The loop of [packSummaryItems]: the parts closed so far, the part being filled and
    its size. *)
Fixpoint pack_loop (limit : Z) (items : list SummaryWork) (parts : list (list SummaryWork))
    (current : list SummaryWork) (running : Z) : list (list SummaryWork) :=
  match items with
  | [] => match current with [] => parts | _ => parts ++ [current] end
  | w :: items' =>
      let size := size_of w in
      if limit <? size then pack_loop limit items' parts current running
      else if bool_decide (current ≠ []) && (limit <? running + size)
      then pack_loop limit items' (parts ++ [current]) [w] (0 + size)
      else pack_loop limit items' parts (current ++ [w]) (running + size)
  end.

Definition packSummaryItems (items : list SummaryWork) (limit : Z) : list (list SummaryWork) :=
  if limit <=? 0 then halveSummaryItems items else pack_loop limit items [] [] 0.

(** ** The texts of the markers *)

Definition limitLabel (limit : Z) : string :=
  if limit <=? 0 then "unknown" else itoa limit.

Definition oversizeFailureReason (size limit : Z) : string :=
  ReasonInputTooLarge +:+ ": composed summarize text is " +:+ itoa size
  +:+ " characters, provider limit " +:+ limitLabel limit.

Definition oversizeTerminalDetail (size limit : Z) : string :=
  "reason=" +:+ ReasonInputTooLarge +:+ " size=" +:+ itoa size +:+ " limit=" +:+ limitLabel limit.

Definition oversize_mark (limit : Z) (w : SummaryWork) : summaryMarkerItem := {|
  MarkID := NodeID w;
  Meta := <[MetaKeySummaryFailureReason := oversizeFailureReason (size_of w) limit]>
            {[MetaKeySummaryFailureTerminal := oversizeTerminalDetail (size_of w) limit]};
|}.

(** ** What a worker does *)

Inductive outcome := Summarized | Refused | Errored.

Inductive act :=
| Gates                                             (* the breaker's and the backoff's wait *)
| Call (chunks : list BatchChunk) (answer : outcome)
| RecordOK                                          (* breaker and backoff *)
| RecordErr (class : ErrClass)                      (* and [escalateOnTrip] when it trips *)
| FailHint (hint : Z)
| SummaryFail
| SummaryOK
| WriteMarkers (marks : list summaryMarkerItem) (written : bool)
| WriteResults (items : list updateBatchItem) (written : bool).

(** How much of the outside was consumed, and the trace, oldest first. *)
Record wstate := { calls : nat; polls : nat; writes : nat; trace : list act }.

Definition emit (a : list act) (s : wstate) : wstate :=
  {| calls := calls s; polls := polls s; writes := writes s; trace := trace s ++ a |}.

Definition results := gmap string SummarizeResult.

Section Worker.
  (** The outside.  [None] is the nil summarizer. *)
Context (summarizer : option (nat → list BatchChunk → result goerror results)).
Context (ctx_err : nat → bool) (write_ok : nat → bool).

Definition poll (s : wstate) : wstate * bool :=
    ({| calls := calls s; polls := S (polls s); writes := writes s; trace := trace s |},
     ctx_err (polls s)).

Definition buildSummaryChunks (items : list SummaryWork)
      : list BatchChunk * gmap string string :=
    foldl (λ '(chunks, idMap) w,
        if decide (SummarizeText w = "") then (chunks, idMap)
        else (chunks ++ [{| ChunkID := NodeID w; Content := SummarizeText w |}],
              <[NodeID w := NodeID w]> idMap))
      ([], ∅) items.

  (** [writeBatchUpdates]: one RPC, answered by the server. *)
Definition write (mk : bool → act) (s : wstate) : wstate * bool :=
    let ok := write_ok (writes s) in
    ({| calls := calls s; polls := polls s; writes := S (writes s);
        trace := trace s ++ [mk ok] |}, ok).

Definition writeSummaryMarkers (marks : list summaryMarkerItem) (s : wstate) : wstate :=
    match marks with
    | [] => s
    | _ => emit (replicate (length marks) SummaryFail) (write (WriteMarkers marks) s).1
    end.

Definition markSummaryItemsWithReason (ids : list string) (reason : string) (s : wstate)
      : wstate :=
    writeSummaryMarkers
      ((λ id, {| MarkID := id; Meta := {[MetaKeySummaryFailureReason := reason]} |}) <$> ids) s.

Definition markOversizeSummaryItems (items : list SummaryWork) (limit : Z) (s : wstate)
      : wstate :=
    writeSummaryMarkers (oversize_mark limit <$> items) s.

Definition handleSummarizerError (items : list SummaryWork) (err : goerror) (s : wstate)
      : wstate :=
    let s := emit [RecordErr (classify err)] s in
    if IsTransient err then
      emit (FailHint (RetryAfterOf err) :: replicate (length items) SummaryFail) s
    else
      let reason := default (Error err) (AsType as_llm_message err) in
      markSummaryItemsWithReason (NodeID <$> items) reason s.

Definition nothing : results * gmap string string := (∅, ∅).

  (** The loop over the parts of a split, and over the strides of a lease: stop on
      cancellation, else spend the part and merge ([maps.Copy] overwrites). *)
Fixpoint spend (once : list SummaryWork → wstate → option (wstate * (results * gmap string string)))
      (parts : list (list SummaryWork)) (merged : results * gmap string string) (s : wstate)
      : option (wstate * (results * gmap string string)) :=
    match parts with
    | [] => Some (s, merged)
    | sub :: parts' =>
        let '(s, cancelled) := poll s in
        if cancelled : bool then Some (s, merged)
        else
          r ← once sub s;
          spend once parts' (r.2.1 ∪ merged.1, r.2.2 ∪ merged.2) r.1
    end.

Definition split_parts (items : list SummaryWork) (limit : Z) : list (list SummaryWork) :=
    let parts := packSummaryItems items limit in
    match parts with
    | [only] => if (length only =? length items)%nat then halveSummaryItems items else parts
    | _ => parts
    end.

Definition splitOversizeSummaryGroup
      (once : list SummaryWork → wstate → option (wstate * (results * gmap string string)))
      (items : list SummaryWork) (limit : Z) (s : wstate)
      : option (wstate * (results * gmap string string)) :=
    if (length items =? 1)%nat then Some (markOversizeSummaryItems items limit s, nothing)
    else
      let parts := split_parts items limit in
      let oversize := knownOversizeSummaryItems items limit in
      let s := match oversize with
               | [] => s
               | _ => markOversizeSummaryItems oversize limit s
               end in
      spend once parts nothing s.

  (** The recursion passes through the split; fuel bounds its depth. *)
Fixpoint summaryGroupOnce (fuel : nat) (items : list SummaryWork) (s : wstate)
      : option (wstate * (results * gmap string string)) :=
    match fuel with
    | O => None
    | S fuel' =>
        match summarizer with
        | None => Some (s, nothing)
        | Some summarize =>
            let '(chunks, idMap) := buildSummaryChunks items in
            match chunks with
            | [] => Some (s, nothing)
            | _ =>
                let s := emit [Gates] s in
                let answer := summarize (calls s) chunks in
                let called o := {| calls := S (calls s); polls := polls s;
                                   writes := writes s; trace := trace s ++ [Call chunks o] |} in
                match answer with
                | Ok results => Some (emit [RecordOK] (called Summarized), (results, idMap))
                | Err err =>
                    match InputTooLargeOf err with
                    | Some (_, limit) =>
                        splitOversizeSummaryGroup (summaryGroupOnce fuel') items limit
                          (called Refused)
                    | None =>
                        Some (handleSummarizerError items err (called Errored), nothing)
                    end
                end
            end
        end
    end.

  (** The order in which a map is ranged over is not specified; here it is that of
      [map_to_list]. *)
Definition writeSummaryResults (res : results) (idMap : gmap string string) (s : wstate)
      : wstate :=
    let items := omap (λ '(chunkID, r),
        nodeID ← idMap !! chunkID;
        Some {| ItemID := nodeID; ItemSummary := Some (ResSummary r);
                ItemKeywords := Some (ResKeywords r);
                ItemMetadata := <[MetaKeySummaryFailureReason := ""]>
                                  {[MetaKeySummaryFailureTerminal := ""]} |})
      (map_to_list res) in
    match items with
    | [] => s
    | _ =>
        let '(s, ok) := write (WriteResults items) s in
        emit (replicate (length items) (if ok : bool then SummaryOK else SummaryFail)) s
    end.

  (** [items\[start:end\]] for [start] in steps of [stride]. *)
Fixpoint strides (fuel stride : nat) (items : list SummaryWork) : list (list SummaryWork) :=
    match fuel, items with
    | S fuel', _ :: _ => take stride items :: strides fuel' stride (drop stride items)
    | _, _ => []
    end.

Definition processSummaryLeaseGroup (fuel : nat) (batchSize : Z) (items : list SummaryWork)
      (s : wstate) : option wstate :=
    let stride := Z.to_nat (Z.max batchSize 1) in
    r ← spend (summaryGroupOnce fuel) (strides (length items) stride items) nothing s;
    let '(s, (mergedResults, mergedIDMap)) := r in
    Some (if decide (mergedResults = ∅) then s
          else writeSummaryResults mergedResults mergedIDMap s).
End Worker.

(** ** Packing *)

Definition total (p : list SummaryWork) : Z := foldr (λ w t, size_of w + t) 0 p.

Lemma size_of_nonneg w : 0 <= size_of w.
Proof. unfold size_of. lia. Qed.

Lemma total_app p q : total (p ++ q) = total p + total q.
Proof. induction p as [|w p IH]; simpl; [done|]. unfold total in *. simpl. lia. Qed.

(** Every part is closed because the next document did not fit. *)
Definition greedy (limit : Z) (parts : list (list SummaryWork)) : Prop :=
  ∀ i p w q, parts !! i = Some p → parts !! S i = Some (w :: q) → limit < total p + size_of w.

(** The parts of a pack: they fit, none is empty, and they are greedy. *)
Definition packed (limit : Z) (parts : list (list SummaryWork)) : Prop :=
  Forall (λ p, p ≠ [] ∧ total p <= limit) parts ∧ greedy limit parts.

Lemma packed_snoc limit parts w q :
  packed limit parts → total (w :: q) <= limit →
  (∀ p, last parts = Some p → limit < total p + size_of w) →
  packed limit (parts ++ [w :: q]).
Proof.
  intros [HF HG] Hq Hl. split.
  - apply Forall_app. split; [done|]. by constructor.
  - intros i p w' q' Hi Hi'.
    apply lookup_app_Some in Hi as [Hi|[Hlen Hi]].
    + apply lookup_app_Some in Hi' as [Hi'|[Hlen' Hi']]; [by eapply HG|].
      assert (S i - length parts = 0)%nat as E0.
      { apply lookup_lt_Some in Hi. lia. }
      rewrite E0 in Hi'. simpl in Hi'. injection Hi' as <- <-. apply Hl.
      rewrite last_lookup. by replace (Nat.pred (length parts)) with i by (apply lookup_lt_Some in Hi; lia).
    + apply lookup_app_Some in Hi' as [Hi'|[Hlen' Hi']].
      * apply lookup_lt_Some in Hi'. lia.
      * destruct (S i - length parts)%nat eqn:E; [lia|done].
Qed.

(** What the loop keeps: the part being filled is empty only before anything was closed,
    or its first document did not fit the last closed part. *)
Lemma pack_loop_packed limit items parts current running :
  packed limit parts → running = total current → total current <= limit →
  match current with
  | [] => parts = []
  | w :: _ => ∀ p, last parts = Some p → limit < total p + size_of w
  end →
  packed limit (pack_loop limit items parts current running) ∧
  concat (pack_loop limit items parts current running)
    = concat parts ++ current ++ filter (λ w, size_of w <= limit) items.
Proof.
  revert parts current running.
  induction items as [|w items IH]; intros parts current running HP Hr Hc Hhd; simpl.
  { rewrite app_nil_r. destruct current as [|w q]; [by rewrite app_nil_r|].
    split; [by apply packed_snoc|]. rewrite concat_app. simpl. by rewrite app_nil_r. }
  pose proof (size_of_nonneg w) as Hw. rewrite filter_cons.
  destruct (Z.ltb_spec limit (size_of w)) as [Hbig|Hsmall].
  { rewrite decide_False by lia. by apply IH. }
  rewrite decide_True by done.
  destruct (bool_decide (current ≠ []) && (limit <? running + size_of w)) eqn:E.
  - apply andb_true_iff in E as [Hne Hover]. apply bool_decide_eq_true in Hne.
    destruct current as [|w0 q]; [done|].
    destruct (IH (parts ++ [w0 :: q]) [w] (0 + size_of w)) as [H1 H2].
    + by apply packed_snoc.
    + unfold total. simpl. lia.
    + unfold total. simpl. lia.
    + intros p Hp. rewrite last_snoc in Hp. injection Hp as <-. lia.
    + split; [done|]. rewrite H2, concat_app. simpl. by rewrite app_nil_r, <- app_assoc.
  - assert (total (current ++ [w]) <= limit) as Hfit.
    { rewrite total_app. unfold total at 2. simpl.
      apply andb_false_iff in E as [E|E]; [|lia].
      apply bool_decide_eq_false in E. destruct current; [simpl in *; lia|by destruct E]. }
    destruct (IH parts (current ++ [w]) (running + size_of w)) as [H1 H2].
    + done.
    + rewrite total_app. unfold total at 2. simpl. lia.
    + done.
    + destruct current as [|w0 q]; simpl; [|exact Hhd]. subst parts. done.
    + split; [done|]. by rewrite H2, <- app_assoc.
Qed.

(** The pack for a reported limit keeps the documents that fit alone, each once and
    in order, in non-empty parts that each fit the limit; and it is greedy: a part is
    closed only when the next document did not fit it. *)
Theorem packSummaryItems_spec (items : list SummaryWork) (limit : Z) (Hlimit : 0 < limit) :
  let parts := packSummaryItems items limit in
  concat parts = filter (λ w, size_of w <= limit) items ∧
  Forall (λ p, p ≠ [] ∧ total p <= limit) parts ∧ greedy limit parts.
Proof.
  intros parts. subst parts. unfold packSummaryItems.
  destruct (Z.leb_spec limit 0); [lia|].
  destruct (pack_loop_packed limit items [] [] 0) as [[HF HG] HC]; [|done|simpl; lia|done|done].
  split; [constructor|]. by intros i p w q.
Qed.

Example packSummaryItems_spec_witness :
  let items := [{| NodeID := "a"; SummarizeText := "123" |}; {| NodeID := "b"; SummarizeText := "12" |};
                {| NodeID := "c"; SummarizeText := "123456" |}; {| NodeID := "d"; SummarizeText := "1" |}] in
  map (map NodeID) (packSummaryItems items 4) = [["a"]; ["b"; "d"]] ∧
  greedy 4 (packSummaryItems items 4).
Proof.
  intros items. split; [vm_compute; reflexivity|].
  exact (proj2 (proj2 (packSummaryItems_spec items 4 ltac:(lia)))).
Defined.

(** ** The parts of a split *)

(** The documents with a text, by id. *)
Definition docs (items : list SummaryWork) : list string :=
  NodeID <$> filter (λ w, SummarizeText w ≠ "") items.

Lemma docs_app p q : docs (p ++ q) = docs p ++ docs q.
Proof. unfold docs. by rewrite filter_app, fmap_app. Qed.

(** How many calls a list of parts may cost. *)
Definition call_budget (parts : list (list SummaryWork)) : nat :=
  foldr (λ p n, (2 * length p - 1) + n)%nat 0%nat parts.

Lemma call_budget_nonempty parts :
  Forall (λ p, p ≠ []) parts →
  (call_budget parts + length parts = 2 * length (concat parts))%nat.
Proof.
  induction 1 as [|p parts Hp _ IH]; simpl; [done|]. rewrite length_app.
  destruct p; [done|]. simpl. simpl in IH. lia.
Qed.

Lemma halve_spec items :
  (2 <= length items)%nat →
  ∃ p q, halveSummaryItems items = [p; q] ∧ p ++ q = items ∧ p ≠ [] ∧ q ≠ [].
Proof.
  intros H. unfold halveSummaryItems. destruct (Nat.ltb_spec (length items) 2); [lia|].
  pose proof (Nat.div_lt (length items) 2 ltac:(lia) ltac:(lia)).
  assert (1 <= Nat.div (length items) 2)%nat by (apply Nat.div_le_lower_bound; lia).
  eexists _, _. split; [done|]. split; [apply take_drop|].
  split; intros E; apply (f_equal length) in E;
    rewrite ?length_take, ?length_drop in E; simpl in E; lia.
Qed.

Lemma filter_partition_docs (P : SummaryWork → Prop) `{∀ w, Decision (P w)} items :
  docs (filter P items) ++ docs (filter (λ w, ¬ P w) items) ≡ₚ docs items.
Proof.
  induction items as [|w items IH]; [done|]. rewrite !filter_cons.
  unfold docs in *. rewrite filter_cons.
  destruct (decide (P w)) as [HP|HP].
  - rewrite (decide_False (P := ¬ P w)) by (by intros HP'). rewrite !filter_cons.
    case_decide; simpl; [by rewrite IH|done].
  - rewrite (decide_True (P := ¬ P w)) by done. rewrite !filter_cons.
    case_decide; simpl; [|done]. rewrite <- IH. by rewrite Permutation_middle.
Qed.

Lemma filter_full (P : SummaryWork → Prop) `{∀ w, Decision (P w)} items :
  length (filter P items) = length items → filter (λ w, ¬ P w) items = [].
Proof.
  induction items as [|w items IH]; [done|]. rewrite !filter_cons. simpl.
  pose proof (length_filter P items). case_decide; simpl; intros E; [|lia].
  rewrite decide_False by (by intros HP). apply IH. lia.
Qed.

Lemma part_shorter parts (p : list SummaryWork) :
  Forall (λ p, p ≠ []) parts → p ∈ parts →
  (length p + length parts <= S (length (concat parts)))%nat.
Proof.
  intros HF. revert p. induction HF as [|q parts Hq HF IH]; intros p; [by intros ?%elem_of_nil|].
  assert (1 <= length q)%nat by (destruct q; [done|simpl; lia]).
  simpl. rewrite length_app. intros [->|Hp]%elem_of_cons.
  - pose proof (call_budget_nonempty parts HF) as HB.
    assert (length parts <= length (concat parts))%nat; [|lia].
    clear -HF. induction HF as [|q parts Hq HF IH]; simpl; [lia|].
    rewrite length_app. destruct q; [done|simpl; lia].
  - specialize (IH p Hp). lia.
Qed.

(** The parts of a split of two or more documents: with the documents known oversize
    they are the batch; each is smaller than the batch; and they cost at most two calls
    fewer than twice the batch. *)
Lemma split_parts_spec items limit :
  (2 <= length items)%nat →
  docs (concat (split_parts items limit)) ++ docs (knownOversizeSummaryItems items limit)
    ≡ₚ docs items ∧
  Forall (λ p, p ≠ [] ∧ (length p < length items)%nat) (split_parts items limit) ∧
  (call_budget (split_parts items limit) + 2 <= 2 * length items)%nat.
Proof.
  intros Hlen. destruct (halve_spec items Hlen) as (p & q & Eh & Epq & Hp & Hq).
  assert (Forall (λ p, p ≠ [] ∧ (length p < length items)%nat) [p; q] ∧
          (call_budget [p; q] + 2 <= 2 * length items)%nat) as [HFh HBh].
  { rewrite <- Epq, length_app. destruct p as [|x p]; [done|]. destruct q as [|y q]; [done|].
    split; [|simpl; lia]. rewrite !Forall_cons, Forall_nil.
    split_and!; simpl; (done || lia). }
  unfold split_parts. destruct (Z.leb_spec limit 0) as [Hl|Hl].
  - assert (packSummaryItems items limit = [p; q]) as ->.
    { unfold packSummaryItems. destruct (Z.leb_spec limit 0); [done|lia]. }
    split; [|done]. unfold knownOversizeSummaryItems. destruct (Z.leb_spec limit 0); [|lia].
    simpl. by rewrite !app_nil_r, Epq.
  - destruct (packSummaryItems_spec items limit Hl) as (HC & HF & _).
    assert (docs (filter (λ w, size_of w <= limit) items) ++ docs (knownOversizeSummaryItems items limit)
            ≡ₚ docs items) as HD.
    { unfold knownOversizeSummaryItems. destruct (Z.leb_spec limit 0); [lia|].
      rewrite <- (filter_partition_docs (λ w, size_of w <= limit) items).
      by rewrite (list_filter_iff (λ w, limit < size_of w) (λ w, ¬ size_of w <= limit))
        by (intros; lia). }
    assert (Forall (λ p, p ≠ []) (packSummaryItems items limit)) as HNE.
    { eapply Forall_impl; [exact HF|]. by intros ? []. }
    pose proof (call_budget_nonempty _ HNE) as HB.
    assert (length (concat (packSummaryItems items limit)) <= length items)%nat as HL.
    { rewrite HC. apply length_filter. }
    destruct (packSummaryItems items limit) as [|p1 [|p2 ps]] eqn:E.
    + split; [by rewrite HC|]. split; [constructor|]. simpl in *. lia.
    + destruct (Nat.eqb_spec (length p1) (length items)) as [El|El].
      * rewrite Eh. split; [|done].
        assert (knownOversizeSummaryItems items limit = []) as ->.
        { simpl in HC. rewrite app_nil_r in HC. subst p1.
          unfold knownOversizeSummaryItems. destruct (Z.leb_spec limit 0); [lia|].
          rewrite (list_filter_iff _ (λ w, ¬ size_of w <= limit)) by (intros; lia).
          by apply filter_full. }
        simpl. by rewrite !app_nil_r, Epq.
      * split; [by rewrite HC|]. simpl in HB, HL |- *. rewrite app_nil_r in HB, HL.
        split; [|lia]. constructor; [|constructor].
        split; [by apply Forall_cons in HNE as [? _]|lia].
    + split; [by rewrite HC|]. split; [|cbn [length] in HB; lia].
      apply Forall_forall. intros p' Hp'.
      split; [by apply (proj1 (Forall_forall _ _) HNE)|].
      pose proof (part_shorter _ p' HNE Hp') as Hs. cbn [length] in Hs. lia.
Qed.

(** ** What becomes of every document *)

(** The documents an action settles: those of a call that was answered or failed, and
    those marked terminally.  A call refused for its size settles nothing. *)
Definition accounted_by (a : act) : list string :=
  match a with
  | Call _ Refused => []
  | Call chunks _ => ChunkID <$> chunks
  | WriteMarkers marks _ =>
      MarkID <$> filter (λ m, is_Some (Meta m !! MetaKeySummaryFailureTerminal)) marks
  | _ => []
  end.

Definition accounted (tr : list act) : list string := concat (accounted_by <$> tr).

Definition summarized_by (a : act) : list string :=
  match a with Call chunks Summarized => ChunkID <$> chunks | _ => [] end.

Definition summarized (tr : list act) : list string := concat (summarized_by <$> tr).

(** An action that the breaker or the backoff counts as a failure. *)
Definition is_failure (a : act) : bool :=
  match a with RecordErr _ | FailHint _ => true | Call _ Errored => true | _ => false end.

Definition quiet (tr : list act) : Prop := Forall (λ a, is_failure a = false) tr.

(** The writeback of results is the lease's, not a call's. *)
Definition writes_results (a : act) : bool :=
  match a with WriteResults _ _ => true | _ => false end.

Definition no_results (tr : list act) : Prop := Forall (λ a, writes_results a = false) tr.

Lemma accounted_app a b : accounted (a ++ b) = accounted a ++ accounted b.
Proof. unfold accounted. by rewrite fmap_app, concat_app. Qed.
Lemma summarized_app a b : summarized (a ++ b) = summarized a ++ summarized b.
Proof. unfold summarized. by rewrite fmap_app, concat_app. Qed.

Lemma accounted_cons a tr : accounted (a :: tr) = accounted_by a ++ accounted tr.
Proof. done. Qed.
Lemma summarized_cons a tr : summarized (a :: tr) = summarized_by a ++ summarized tr.
Proof. done. Qed.
Lemma metric_neutral n :
  accounted (replicate n SummaryFail) = [] ∧ summarized (replicate n SummaryFail) = [].
Proof. by induction n. Qed.

Lemma buildSummaryChunks_spec items :
  ChunkID <$> (buildSummaryChunks items).1 = docs items ∧
  ∀ id x, (buildSummaryChunks items).2 !! id = Some x ↔ x = id ∧ id ∈ docs items.
Proof.
  unfold buildSummaryChunks, docs. induction items as [|w items [IH1 IH2]] using rev_ind.
  { split; [done|]. intros id x. simpl. rewrite lookup_empty, elem_of_nil. naive_solver. }
  rewrite foldl_app, filter_app, fmap_app, filter_cons. simpl.
  destruct (foldl _ _ items) as [chunks idMap]. simpl in IH1, IH2.
  destruct (decide (SummarizeText w = "")) as [E|E].
  - rewrite decide_False by (by intros HE). simpl. by rewrite app_nil_r.
  - rewrite decide_True by done. simpl. rewrite fmap_app, IH1. split; [done|].
    intros id x. rewrite lookup_insert_Some, IH2, elem_of_app, list_elem_of_singleton.
    destruct (decide (id = NodeID w)); naive_solver.
Qed.

Section Accounting.
Context (summarize : nat → list BatchChunk → result goerror results).
Context (ctx_err : nat → bool) (write_ok : nat → bool).

Definition only_refusals : Prop :=
    ∀ n chunks err, summarize n chunks = Err err → is_Some (InputTooLargeOf err).

  (** From [s] to [s'], at most [budget] calls: every document of [want] is settled at
      most once, and exactly once when no poll of the context was answered with a
      cancellation; refusals alone are no failure for the gates; and the id map is that
      of the calls that were answered. *)
Definition spent (s s' : wstate) (want : list string) (budget : nat)
      (out : results * gmap string string) : Prop :=
    ∃ tr, trace s' = trace s ++ tr ∧ (polls s <= polls s')%nat ∧
      (calls s' <= calls s + budget)%nat ∧ no_results tr ∧
      accounted tr ⊆+ want ∧
      ((∀ n, (polls s <= n < polls s')%nat → ctx_err n = false) → accounted tr ≡ₚ want) ∧
      (only_refusals → quiet tr) ∧
      (∀ id x, out.2 !! id = Some x ↔ x = id ∧ id ∈ summarized tr).

Lemma spent_refl s : spent s s [] 0 nothing.
Proof.
    exists []. rewrite app_nil_r. split_and!; try done; [lia|constructor|by intros _; constructor|].
    intros id x. simpl. rewrite lookup_empty, elem_of_nil. naive_solver.
  Qed.

Lemma spent_trans s1 s2 s3 w1 w2 b1 b2 o1 o2 :
    spent s1 s2 w1 b1 o1 → spent s2 s3 w2 b2 o2 →
    spent s1 s3 (w1 ++ w2) (b1 + b2) (o2.1 ∪ o1.1, o2.2 ∪ o1.2).
Proof.
    intros (t1 & T1 & P1 & C1 & N1 & S1 & E1 & Q1 & M1) (t2 & T2 & P2 & C2 & N2 & S2 & E2 & Q2 & M2).
    exists (t1 ++ t2). rewrite accounted_app, summarized_app. split_and!.
    - by rewrite T2, T1, app_assoc.
    - lia.
    - lia.
    - by apply Forall_app.
    - by apply submseteq_app.
    - intros H. f_equiv; [apply E1|apply E2]; intros n Hn; apply H; lia.
    - intros H. apply Forall_app. split; [by apply Q1|by apply Q2].
    - intros id x. simpl. rewrite lookup_union_Some_raw, elem_of_app, M1.
      specialize (M2 id). destruct (o2.2 !! id) as [y|] eqn:Ey.
      + destruct (proj1 (M2 y) eq_refl) as [-> Hin]. naive_solver.
      + assert (id ∉ summarized t2) as Hnin.
        { intros Hin. by pose proof (proj2 (M2 id) (conj eq_refl Hin)). }
        naive_solver.
  Qed.

  (** A smaller account is an account of more documents only when they are settled; the
      budget may be raised. *)
Lemma spent_weaken s s' w w' b b' o :
    spent s s' w b o → w ≡ₚ w' → (b <= b')%nat → spent s s' w' b' o.
Proof.
    intros (tr & T & P & C & N & S & E & Q & M) Hw Hb. exists tr. split_and!; try done; [lia|by rewrite <- Hw|].
    intros H. rewrite <- Hw. by apply E.
  Qed.

  (** Actions that settle [want] at once. *)
Lemma spent_emit s s' tr want budget out :
    trace s' = trace s ++ tr → polls s' = polls s → (calls s' <= calls s + budget)%nat →
    no_results tr → accounted tr ≡ₚ want → (only_refusals → quiet tr) →
    (∀ id x, out.2 !! id = Some x ↔ x = id ∧ id ∈ summarized tr) → spent s s' want budget out.
Proof.
    intros T P C N E Q M. exists tr. split_and!; try done; [lia|by rewrite E].
  Qed.

Lemma spend_spec once parts s0 s w0 b0 merged :
    Forall (λ p, ∀ s, ∃ s' r, once p s = Some (s', r) ∧
                   spent s s' (docs p) (2 * length p - 1) r) parts →
    spent s0 s w0 b0 merged →
    ∃ s' r, spend ctx_err once parts merged s = Some (s', r) ∧
      spent s0 s' (w0 ++ docs (concat parts)) (b0 + call_budget parts) r.
Proof.
    intros HF. revert s w0 b0 merged.
    induction HF as [|p parts Hp HF IH]; intros s w0 b0 merged Hs; simpl.
    { eexists _, _. split; [done|]. unfold docs. simpl. rewrite app_nil_r.
      eapply spent_weaken; [exact Hs|done|lia]. }
    set (s1 := {| calls := calls s; polls := S (polls s); writes := writes s; trace := trace s |}).
    destruct (ctx_err (polls s)) eqn:Ec.
    - eexists _, _. split; [done|].
      destruct Hs as (tr & T & P & C & N & S & E & Q & M). exists tr. split_and!; try done.
      + simpl. lia.
      + simpl. lia.
      + by apply submseteq_inserts_r.
      + intros H. rewrite H in Ec; [done|]. simpl. lia.
    - destruct (Hp s1) as (s2 & r & -> & Hr). simpl.
      assert (spent s0 s1 w0 b0 merged) as Hs1.
      { destruct Hs as (tr & T & P & C & N & S & E & Q & M). exists tr. split_and!; try done.
        - simpl. lia.
        - intros H. apply E. intros n Hn. apply H. simpl. lia. }
      pose proof (spent_trans _ _ _ _ _ _ _ _ _ Hs1 Hr) as Hs2.
      destruct (IH s2 _ _ _ Hs2) as (s' & r' & -> & Hs'). eexists _, _. split; [done|].
      eapply spent_weaken; [exact Hs'| |lia]. by rewrite docs_app, app_assoc.
  Qed.

  (** Marking documents oversize settles them. *)
Lemma mark_oversize_spent items limit s :
    spent s (markOversizeSummaryItems write_ok items limit s) (NodeID <$> items) 0 nothing.
Proof.
    unfold markOversizeSummaryItems, writeSummaryMarkers.
    destruct items as [|w items]; [apply spent_refl|]. cbn [fmap list_fmap].
    set (marks := oversize_mark limit w :: (oversize_mark limit <$> items)).
    set (ok := write_ok (writes s)).
    apply (spent_emit _ _ (WriteMarkers marks ok :: replicate (length marks) SummaryFail)).
    - simpl. by rewrite <- app_assoc.
    - done.
    - simpl. lia.
    - constructor; [done|]. by apply Forall_replicate.
    - rewrite accounted_cons, (proj1 (metric_neutral _)), app_nil_r. cbn [accounted_by].
      change (NodeID w :: (NodeID <$> items)) with (NodeID <$> (w :: items)).
      rewrite list_filter_every.
      + change marks with (oversize_mark limit <$> (w :: items)). by rewrite <- list_fmap_compose.
      + change marks with (oversize_mark limit <$> (w :: items)).
        apply Forall_forall. intros m (x & -> & _)%list_elem_of_fmap. simpl.
        rewrite lookup_insert_ne, lookup_singleton_eq by done. eauto.
    - intros _. constructor; [done|]. by apply Forall_replicate.
    - intros id x. rewrite summarized_cons, (proj2 (metric_neutral _)). simpl.
      rewrite lookup_empty, elem_of_nil. naive_solver.
  Qed.

Lemma spent_trans_nothing s1 s2 s3 w1 w2 b1 b2 :
    spent s1 s2 w1 b1 nothing → spent s2 s3 w2 b2 nothing →
    spent s1 s3 (w1 ++ w2) (b1 + b2) nothing.
Proof.
    intros H1 H2. pose proof (spent_trans _ _ _ _ _ _ _ _ _ H1 H2) as H.
    unfold nothing in H |- *. simpl in H. by rewrite !(left_id_L ∅ (∪)) in H.
  Qed.

Lemma docs_all items : (∀ w, w ∈ items → SummarizeText w ≠ "") → docs items = NodeID <$> items.
Proof. intros H. unfold docs. rewrite list_filter_every; [done|]. by apply Forall_forall. Qed.

Lemma docs_oversize items limit :
    docs (knownOversizeSummaryItems items limit) = NodeID <$> knownOversizeSummaryItems items limit.
Proof.
    apply docs_all. intros w. unfold knownOversizeSummaryItems.
    destruct (Z.leb_spec limit 0); [by intros ?%elem_of_nil|].
    intros [Hw _]%list_elem_of_filter E. unfold size_of in Hw. rewrite E in Hw. simpl in Hw. lia.
  Qed.

Lemma handle_error_spent items err s chunks idMap :
    buildSummaryChunks items = (chunks, idMap) → items ≠ [] → InputTooLargeOf err = None →
    (only_refusals → False) →
    spent s (handleSummarizerError write_ok items err
               {| calls := S (calls s); polls := polls s; writes := writes s;
                  trace := (trace s ++ [Gates]) ++ [Call chunks Errored] |})
      (docs items) 1 nothing.
Proof.
    intros Eb Hne _ Hno. pose proof (buildSummaryChunks_spec items) as [Hc _].
    rewrite Eb in Hc. simpl in Hc.
    assert (∀ id (x : string), (nothing.2 : gmap string string) !! id = Some x ↔ x = id ∧ id ∈ ([] : list string)) as Hn.
    { intros id x. simpl. rewrite lookup_empty, elem_of_nil. naive_solver. }
    unfold handleSummarizerError. destruct (IsTransient err).
    - apply (spent_emit _ _ (Gates :: Call chunks Errored :: RecordErr (classify err)
        :: FailHint (RetryAfterOf err) :: replicate (length items) SummaryFail)).
      + simpl. by rewrite <- !app_assoc.
      + done.
      + simpl. lia.
      + repeat (constructor; [done|]). by apply Forall_replicate.
      + rewrite !accounted_cons, (proj1 (metric_neutral _)), app_nil_r. simpl.
        by rewrite Hc, ?app_nil_r.
      + done.
      + intros id x. by rewrite !summarized_cons, (proj2 (metric_neutral _)), Hn.
    - set (reason := default (Error err) (AsType as_llm_message err)).
      unfold markSummaryItemsWithReason, writeSummaryMarkers.
      destruct items as [|w items]; [done|]. cbn [fmap list_fmap].
      set (marks := _ :: _). set (ok := write_ok (writes s)).
      apply (spent_emit _ _ (Gates :: Call chunks Errored :: RecordErr (classify err)
        :: WriteMarkers marks ok :: replicate (length marks) SummaryFail)).
      + simpl. by rewrite <- !app_assoc.
      + done.
      + simpl. lia.
      + repeat (constructor; [done|]). by apply Forall_replicate.
      + rewrite !accounted_cons, (proj1 (metric_neutral _)), app_nil_r.
        assert (accounted_by (WriteMarkers marks ok) = []) as ->.
        { cbn [accounted_by]. rewrite list_filter_none; [done|].
          subst marks. apply Forall_forall. intros m Hm.
          change (m ∈ ((λ id, {| MarkID := id; Meta := {[MetaKeySummaryFailureReason := reason]} |})
            <$> (NodeID <$> (w :: items)))) in Hm.
          apply list_elem_of_fmap in Hm as (id & -> & _). cbn [Meta].
          rewrite lookup_singleton_ne by done. by intros []. }
        simpl. by rewrite Hc, ?app_nil_r.
      + done.
      + intros id x. by rewrite !summarized_cons, (proj2 (metric_neutral _)), Hn.
  Qed.

Lemma refused_spent s chunks :
    spent s {| calls := S (calls s); polls := polls s; writes := writes s;
               trace := (trace s ++ [Gates]) ++ [Call chunks Refused] |} [] 1 nothing.
Proof.
    apply (spent_emit _ _ [Gates; Call chunks Refused]); simpl.
    - by rewrite <- app_assoc.
    - done.
    - lia.
    - by repeat constructor.
    - done.
    - intros _. by repeat constructor.
    - intros id x. rewrite lookup_empty. unfold summarized. simpl. rewrite elem_of_nil. naive_solver.
  Qed.

Lemma split_spent once items limit s0 s :
    docs items ≠ [] → spent s0 s [] 1 nothing →
    (∀ p s, p ≠ [] → (length p < length items)%nat → (2 <= length items)%nat →
       ∃ s' r, once p s = Some (s', r) ∧ spent s s' (docs p) (2 * length p - 1) r) →
    ∃ s' r, splitOversizeSummaryGroup ctx_err write_ok once items limit s = Some (s', r) ∧
      spent s0 s' (docs items) (2 * length items - 1) r.
Proof.
    intros Hne Hs Honce. unfold splitOversizeSummaryGroup.
    destruct (Nat.eqb_spec (length items) 1) as [E1|E1].
    - eexists _, _. split; [done|].
      pose proof (spent_trans_nothing _ _ _ _ _ _ _ Hs (mark_oversize_spent items limit s)) as H.
      eapply spent_weaken; [exact H| |lia]. rewrite app_nil_l.
      destruct items as [|w [|]]; [done| |done]. unfold docs in Hne |- *. simpl in Hne |- *.
      rewrite filter_cons in Hne |- *. by case_decide.
    - assert (2 <= length items)%nat as Hlen.
      { destruct items as [|? [|]]; simpl in *; [done|lia|lia]. }
      destruct (split_parts_spec items limit Hlen) as (HD & HF & HB).
      set (s1 := match knownOversizeSummaryItems items limit with
                 | [] => s
                 | _ => markOversizeSummaryItems write_ok (knownOversizeSummaryItems items limit) limit s end).
      assert (spent s0 s1 (docs (knownOversizeSummaryItems items limit)) 1 nothing) as Hs1.
      { rewrite docs_oversize. subst s1.
        destruct (knownOversizeSummaryItems items limit) as [|w ws] eqn:Ek; [done|].
        exact (spent_trans_nothing _ _ _ _ _ _ _ Hs (mark_oversize_spent (w :: ws) limit s)). }
      destruct (spend_spec once (split_parts items limit) s0 s1
        (docs (knownOversizeSummaryItems items limit)) 1%nat nothing) as (s' & r & E & Hr);
        [|exact Hs1|].
      { apply Forall_forall. intros p Hp st.
        destruct (proj1 (Forall_forall _ _) HF p Hp). by apply Honce. }
      exists s', r. split; [exact E|]. eapply spent_weaken; [exact Hr| |lia].
      by rewrite <- HD, (Permutation_app_comm (docs _)).
  Qed.

Lemma summaryGroupOnce_spent fuel items s :
    (length items <= fuel)%nat → (1 <= fuel)%nat →
    ∃ s' r, summaryGroupOnce (Some summarize) ctx_err write_ok fuel items s = Some (s', r) ∧
      spent s s' (docs items) (2 * length items - 1) r.
Proof.
    revert items s. induction fuel as [|fuel IH]; intros items s Hlen Hf; [lia|].
    cbn [summaryGroupOnce].
    pose proof (buildSummaryChunks_spec items) as [Hc HM].
    destruct (buildSummaryChunks items) as [chunks idMap] eqn:Eb. simpl in Hc, HM.
    assert (chunks = [] → docs items = []) as Hnil by (by intros ->).
    destruct chunks as [|c cs] eqn:Ec.
    { eexists _, _. split; [done|]. rewrite (Hnil eq_refl).
      eapply spent_weaken; [apply spent_refl|done|lia]. }
    assert (docs items ≠ []) as Hne by (rewrite <- Hc; done).
    assert (items ≠ []) as Hne' by (intros ->; done).
    assert (1 <= length items)%nat by (destruct items; [done|simpl; lia]).
    destruct (summarize (calls (emit [Gates] s)) (c :: cs)) as [res|err] eqn:Ea.
    - eexists _, _. split; [done|].
      apply (spent_emit _ _ [Gates; Call (c :: cs) Summarized; RecordOK]).
      + simpl. by rewrite <- !app_assoc.
      + done.
      + simpl. lia.
      + by repeat constructor.
      + unfold accounted. simpl. rewrite app_nil_r. by rewrite <- Hc.
      + intros _. by repeat constructor.
      + intros id x. unfold summarized. simpl. rewrite app_nil_r. rewrite HM. by rewrite <- Hc.
    - destruct (InputTooLargeOf err) as [[reported limit]|] eqn:Ei.
      + apply split_spent; [done|apply refused_spent|].
        intros p st Hp Hlt H2. apply IH; lia.
      + eexists _, _. split; [done|].
        assert (only_refusals → False) as Hno.
        { intros Hr. destruct (Hr _ _ _ Ea). congruence. }
        eapply spent_weaken; [exact (handle_error_spent items err s (c :: cs) idMap Eb Hne' Ei Hno)
          |done|lia].
  Qed.
End Accounting.

(** ** One call, one lease *)

(** C33: A call for a batch always ends, whatever the summarizer answers and whenever the
    context is cancelled; fuel equal to the number of documents is enough.  It costs at
    most 2n - 1 calls for n documents.  Every document with a text is settled at most
    once, by an answered call, a failed call or a terminal marker, and exactly once when
    no poll of the context reported a cancellation; the ids to write back are those of
    the answered calls. *)
Theorem summaryGroupOnce_settles (summarize : nat → list BatchChunk → result goerror results)
    (ctx_err write_ok : nat → bool) (items : list SummaryWork) (s : wstate) :
  ∃ s' r, summaryGroupOnce (Some summarize) ctx_err write_ok (Nat.max 1 (length items)) items s
            = Some (s', r) ∧
    spent summarize ctx_err s s' (docs items) (2 * length items - 1) r.
Proof. apply summaryGroupOnce_spent; lia. Qed.

Lemma strides_spec fuel stride items :
  (length items <= fuel)%nat → (1 <= stride)%nat →
  concat (strides fuel stride items) = items ∧
  Forall (λ p, p ≠ [] ∧ (length p <= stride)%nat) (strides fuel stride items).
Proof.
  revert items. induction fuel as [|fuel IH]; intros items Hf Hs.
  { destruct items; [|simpl in Hf; lia]. split; [done|constructor]. }
  destruct items as [|w items]; [split; [done|constructor]|]. cbn [strides].
  destruct (IH (drop stride (w :: items))) as [IH1 IH2]; [rewrite length_drop; simpl in *; lia|done|].
  split; [simpl; by rewrite IH1, take_drop|]. constructor; [|done].
  rewrite length_take. split; [|lia]. by destruct stride; [lia|].
Qed.

Lemma writeSummaryResults_spec write_ok res idMap s :
  ∃ upd ok, trace (writeSummaryResults write_ok res idMap s) =
    trace s ++ match upd with
               | [] => []
               | _ => WriteResults upd ok :: replicate (length upd) (if ok : bool then SummaryOK else SummaryFail)
               end ∧
    (∀ u, u ∈ upd → ∃ chunk r, res !! chunk = Some r ∧ idMap !! chunk = Some (ItemID u) ∧
       ItemSummary u = Some (ResSummary r) ∧ ItemKeywords u = Some (ResKeywords r)) ∧
    (∀ chunk r id, res !! chunk = Some r → idMap !! chunk = Some id → ∃ u, u ∈ upd ∧
       ItemID u = id ∧ ItemSummary u = Some (ResSummary r)) ∧
    polls (writeSummaryResults write_ok res idMap s) = polls s ∧
    calls (writeSummaryResults write_ok res idMap s) = calls s.
Proof.
  unfold writeSummaryResults.
  set (upd := omap _ (map_to_list res)). exists upd, (write_ok (writes s)).
  assert (∀ u, u ∈ upd ↔ ∃ chunk r, res !! chunk = Some r ∧ idMap !! chunk = Some (ItemID u) ∧
     u = {| ItemID := ItemID u; ItemSummary := Some (ResSummary r);
            ItemKeywords := Some (ResKeywords r);
            ItemMetadata := <[MetaKeySummaryFailureReason := ""]>
                              {[MetaKeySummaryFailureTerminal := ""]} |}) as Hupd.
  { intros u. unfold upd. rewrite list_elem_of_omap. split.
    - intros ((chunk & r) & Hin & Hu). apply elem_of_map_to_list in Hin.
      destruct (idMap !! chunk) as [id|] eqn:E; [|done]. simpl in Hu. injection Hu as <-.
      by exists chunk, r.
    - intros (chunk & r & Hr & Hid & ->). exists (chunk, r).
      split; [by apply elem_of_map_to_list|]. simpl in Hid. by rewrite Hid. }
  split_and!.
  - destruct upd as [|u us]; [by rewrite app_nil_r|]. simpl. by rewrite <- app_assoc.
  - intros u Hu. apply Hupd in Hu as (chunk & r & Hr & Hid & ->). by exists chunk, r.
  - intros chunk r id Hr Hid. exists {| ItemID := id; ItemSummary := Some (ResSummary r);
              ItemKeywords := Some (ResKeywords r);
              ItemMetadata := <[MetaKeySummaryFailureReason := ""]>
                                {[MetaKeySummaryFailureTerminal := ""]} |}.
    split; [|done]. apply Hupd. by exists chunk, r.
  - by destruct upd.
  - by destruct upd.
Qed.

(** A lease ends, costs fewer than two calls per document, settles every document at
    most once, and exactly once when it is not cancelled, and makes at most one
    writeback of results, the last of its actions but for the metrics.  That writeback
    carries documents of answered calls only, so a failed stride contributes nothing
    and costs its siblings nothing. *)
Theorem lease_one_writeback (summarize : nat → list BatchChunk → result goerror results)
    (ctx_err write_ok : nat → bool) (batchSize : Z) (items : list SummaryWork) (s : wstate) :
  ∃ s' tr upd ok,
    processSummaryLeaseGroup (Some summarize) ctx_err write_ok
      (Z.to_nat (Z.max batchSize 1)) batchSize items s = Some s' ∧
    trace s' = trace s ++ tr ++
      match upd with
      | [] => []
      | _ => WriteResults upd ok :: replicate (length upd) (if ok : bool then SummaryOK else SummaryFail)
      end ∧
    no_results tr ∧ (calls s' <= calls s + 2 * length items)%nat ∧
    accounted tr ⊆+ docs items ∧
    ((∀ n, (polls s <= n < polls s')%nat → ctx_err n = false) → accounted tr ≡ₚ docs items) ∧
    (∀ u, u ∈ upd → ItemID u ∈ summarized tr).
Proof.
  unfold processSummaryLeaseGroup. set (stride := Z.to_nat (Z.max batchSize 1)).
  destruct (strides_spec (length items) stride items ltac:(lia) ltac:(lia)) as [HC HF].
  destruct (spend_spec summarize ctx_err write_ok (summaryGroupOnce (Some summarize) ctx_err write_ok stride)
    (strides (length items) stride items) s s [] 0 nothing)
    as (s1 & r & E & tr & T & P & C & N & S & F & Q & M); [|apply spent_refl|].
  { eapply Forall_impl; [exact HF|]. intros p [_ Hp] st. simpl.
    apply summaryGroupOnce_spent; lia. }
  rewrite E. simpl. destruct r as [mres mmap]. rewrite app_nil_l, HC in S, F.
  assert (call_budget (strides (length items) stride items) <= 2 * length items)%nat as HB.
  { assert (Forall (λ p, p ≠ []) (strides (length items) stride items)) as HN
      by (eapply Forall_impl; [exact HF|by intros ? []]).
    pose proof (call_budget_nonempty _ HN) as H. rewrite HC in H. lia. }
  destruct (decide (mres = ∅)) as [->|Hne].
  - exists s1, tr, [], true. rewrite app_nil_r. split_and!; try done; [lia|].
    by intros u ?%elem_of_nil.
  - destruct (writeSummaryResults_spec write_ok mres mmap s1) as (upd & ok & HT & HU & _ & HP & HK).
    exists (writeSummaryResults write_ok mres mmap s1), tr, upd, ok.
    rewrite HT, T, HK, HP, app_assoc. split_and!; try done; [lia|].
    intros u Hu. destruct (HU u Hu) as (chunk & r & _ & Hid & _).
    by apply M in Hid as [-> Hin].
Qed.

(** ** The breaker after a lease *)

(** The events of a trace, for the breaker of the axis; the clock does not matter. *)
Definition breaker_events (tr : list act) : list event :=
  omap (λ a, match a with
             | RecordOK => Some EvOK
             | RecordErr class => Some (EvErr 0 class)
             | _ => None
             end) tr.

(** A lease whose failures are all size refusals never trips the breaker: replayed on
    any running breaker, whatever it has counted, its actions leave the axis running, and
    none of them extends a backoff window. *)
Theorem refusals_never_trip (summarize : nat → list BatchChunk → result goerror results)
    (ctx_err write_ok : nat → bool) (batchSize : Z) (items : list SummaryWork) (s : wstate)
    (c : circuitBreaker) (ch : nat)
    (Hrefusals : ∀ n chunks err, summarize n chunks = Err err → is_Some (InputTooLargeOf err))
    (Hrunning : paused c = false) (Hfresh : trace s = []) :
  ∃ s', processSummaryLeaseGroup (Some summarize) ctx_err write_ok
      (Z.to_nat (Z.max batchSize 1)) batchSize items s = Some s' ∧
    paused (run_breaker ch (breaker_events (trace s')) c).1 = false ∧
    ∀ hint, FailHint hint ∉ trace s'.
Proof.
  unfold processSummaryLeaseGroup. set (stride := Z.to_nat (Z.max batchSize 1)).
  destruct (strides_spec (length items) stride items ltac:(lia) ltac:(lia)) as [_ HF].
  destruct (spend_spec summarize ctx_err write_ok (summaryGroupOnce (Some summarize) ctx_err write_ok stride)
    (strides (length items) stride items) s s [] 0 nothing)
    as (s1 & r & E & tr & T & P & C & N & S & F & Q & M); [|apply spent_refl|].
  { eapply Forall_impl; [exact HF|]. intros p [_ Hp] st. simpl.
    apply summaryGroupOnce_spent; lia. }
  rewrite E. simpl. destruct r as [mres mmap]. rewrite Hfresh, app_nil_l in T.
  specialize (Q Hrefusals).
  assert (∀ tr, quiet tr → (∀ hint, FailHint hint ∉ tr) ∧
            ∀ ch c, paused c = false → paused (run_breaker ch (breaker_events tr) c).1 = false) as Hq.
  { clear. induction 1 as [|a tr Ha _ [IH1 IH2]].
    - split; [by intros ? ?%elem_of_nil|done].
    - split; [intros hint [<-|Hin]%elem_of_cons; [done|exact (IH1 _ Hin)]|].
      intros ch c Hp. destruct a; try done; simpl; try (by apply IH2).
      specialize (IH2 (S ch) (recordOK c) Hp). by destruct (run_breaker _ _ _). }
  destruct (decide (mres = ∅)).
  - exists s1. rewrite T. destruct (Hq tr Q). split; [done|]. split; [by auto|done].
  - destruct (writeSummaryResults_spec write_ok mres mmap s1) as (upd & ok & HT & _).
    eexists. split; [done|]. rewrite HT, T.
    assert (quiet (tr ++ match upd with
                         | [] => []
                         | _ => WriteResults upd ok :: replicate (length upd) (if ok then SummaryOK else SummaryFail)
                         end)) as HQ.
    { apply Forall_app. split; [done|]. destruct upd; [constructor|].
      constructor; [done|]. apply Forall_replicate. by destruct ok. }
    destruct (Hq _ HQ). split; [by auto|done].
Qed.

(** ** A run: a provider that takes four characters a call *)

Module Runs.
Definition refusal : goerror :=
    GoError (LLM {| Transient := false; Reason := ReasonInputTooLarge; RetryAfter := 0;
                    InputChars := 0; MaxInputChars := 4 |}) "too large" [].

Definition summarize (_ : nat) (chunks : list BatchChunk) : result goerror results :=
    if (4 <? foldr (λ c n, String.length (Content c) + n) 0 chunks)%nat then Err refusal
    else Ok (list_to_map ((λ c, (ChunkID c, {| ResSummary := Content c; ResKeywords := "" |})) <$> chunks)).

Definition batch : list SummaryWork :=
    [{| NodeID := "a"; SummarizeText := "123" |}; {| NodeID := "b"; SummarizeText := "12" |};
     {| NodeID := "c"; SummarizeText := "123456" |}; {| NodeID := "d"; SummarizeText := "1" |}].

Definition s0 : wstate := {| calls := 0; polls := 0; writes := 0; trace := [] |}.

  (** One refused call, one marker, two calls, one writeback. *)
Example batch_run :
    (λ s, (calls s, writes s, accounted (trace s))) <$>
      processSummaryLeaseGroup (Some summarize) (λ _, false) (λ _, true) 20 20 batch s0
    = Some (3%nat, 2%nat, ["c"; "a"; "b"; "d"]).
Proof. vm_compute. reflexivity. Qed.

Lemma only_refused : ∀ n chunks err, summarize n chunks = Err err → is_Some (InputTooLargeOf err).
Proof.
    intros n chunks err. unfold summarize. destruct (_ <? _)%nat; [|done].
    intros [= <-]. eexists. reflexivity.
  Qed.
End Runs.

Example refusals_never_trip_witness :
  ∃ s', processSummaryLeaseGroup (Some Runs.summarize) (λ _, false) (λ _, true)
          (Z.to_nat (Z.max 20 1)) 20 Runs.batch Runs.s0 = Some s' ∧
    paused (run_breaker 0 (breaker_events (trace s')) (newCircuitBreaker 0)).1 = false ∧
    ∀ hint, FailHint hint ∉ trace s'.
Proof.
  exact (refusals_never_trip Runs.summarize (λ _, false) (λ _, true) 20 Runs.batch Runs.s0
    (newCircuitBreaker 0) 0 Runs.only_refused eq_refl eq_refl).
Defined.
