(* ===== verification/RecipeLex.v ===== *)
(** * The lexer of the recipe language

    [internal/recipe/lexer.go], [lexer_tokens.go].

    The source is a list of bytes; the cursor holds the bytes not read yet and their
    position.  The text of an error message is not rendered: [reason] has one
    constructor per format string, with its arguments. *)

From S2P Require Import Prelude Gostd.
From Stdlib Require Import Ascii.

#[local] Open Scope Z_scope.

(** ** Tokens *)

Inductive TokenKind :=
| TokEOF | TokNewline | TokIdent | TokString | TokVar | TokRegex | TokArrow | TokRelArrow
| TokColonEq | TokDot | TokComma | TokLParen | TokRParen | TokLBrace | TokRBrace
| TokTildeEq | TokBangTilde | TokWhereJSON.

#[export] Instance TokenKind_eq_dec : EqDecision TokenKind.
Proof. solve_decision. Defined.

Record Position := { Line : Z; Col : Z }.

#[export] Instance Position_eq_dec : EqDecision Position.
Proof. solve_decision. Defined.

Record Token := { Kind : TokenKind; Value : string; Pos : Position }.

Definition zero_token : Token :=
  {| Kind := TokEOF; Value := ""; Pos := {| Line := 0; Col := 0 |} |}.

Inductive reason :=
| UnexpectedByte (ch : ascii)
| ExpectedArrow (next : ascii)
| ExpectedArrowAfterDashes
| UnterminatedRelation
| ExpectedArrowAfterRelation (rel : string)
| UnterminatedString
| TrailingBackslash
| ExpectedIdentAfterDollar
| UnterminatedRegex
| UnterminatedWhereString
| UnterminatedWhere.

Record LexError := { ErrPos : Position; Msg : reason }.

(** ** The cursor *)

Definition newline : ascii := "010".
Definition tab : ascii := "009".
Definition carriage_return : ascii := "013".
Definition quote : ascii := "034".
Definition backslash : ascii := "092".

Record lexer := { rest : list ascii; pos : Position; prev : Token }.

(** The position after the byte [c] at [p]. *)
Definition step_pos (p : Position) (c : ascii) : Position :=
  if Ascii.eqb c newline then {| Line := Line p + 1; Col := 1 |}
  else {| Line := Line p; Col := Col p + 1 |}.

Definition advance (l : lexer) : lexer :=
  match rest l with
  | [] => l
  | c :: s => {| rest := s; pos := step_pos (pos l) c; prev := prev l |}
  end.

Definition peek (n : nat) (l : lexer) : ascii := default Ascii.zero (rest l !! n).

Definition matchAhead (s : string) (l : lexer) : bool :=
  bool_decide (take (String.length s) (rest l) = String.list_ascii_of_string s).

Definition errorf {A} (l : lexer) (r : reason) : result LexError A :=
  Err {| ErrPos := pos l; Msg := r |}.

Definition byte_between (lo hi ch : ascii) : bool :=
  (N_of_ascii lo <=? N_of_ascii ch)%N && (N_of_ascii ch <=? N_of_ascii hi)%N.

Definition isIdentStart (ch : ascii) : bool :=
  byte_between "a" "z" ch || byte_between "A" "Z" ch || Ascii.eqb ch "_".

Definition isIdentPart (ch : ascii) : bool :=
  isIdentStart ch || byte_between "0" "9" ch || Ascii.eqb ch "-".

(** The loops [for l.off < len(l.src) && P(l.src[l.off]) { l.advance() }]; [s] is the rest
    of the source. *)
Fixpoint advance_while (P : ascii → bool) (s : list ascii) (l : lexer) : lexer :=
  match s with
  | c :: s' => if P c then advance_while P s' (advance l) else l
  | [] => l
  end.

(** [string(l.src[start:l.off])], where [l0] is the cursor at [start]. *)
Definition lexeme (l0 l : lexer) : string :=
  String.string_of_list_ascii (take (length (rest l0) - length (rest l)) (rest l0)).

(** The flag is that of the inner loop, in a comment. *)
Fixpoint skip (in_comment : bool) (s : list ascii) (l : lexer) : lexer :=
  match s with
  | [] => l
  | ch :: s' =>
      if in_comment then
        if Ascii.eqb ch newline then l else skip true s' (advance l)
      else if Ascii.eqb ch " " || Ascii.eqb ch tab || Ascii.eqb ch carriage_return then
        skip false s' (advance l)
      else if Ascii.eqb ch "#" then skip true s' (advance l)
      else l
  end.

Definition skipInsignificant (l : lexer) : lexer := skip false (rest l) l.

(** ** The tokens with a loop *)

Definition lexRelArrow (p : Position) (l : lexer) : result LexError (Token * lexer) :=
  let start := advance l in
  let l := advance_while (λ c, negb (Ascii.eqb c "]") && negb (Ascii.eqb c newline))
             (rest start) start in
  if bool_decide (head (rest l) ≠ Some "]"%char) then errorf l UnterminatedRelation
  else
    let rel := lexeme start l in
    let l := advance l in
    if negb (matchAhead "-->" l) then errorf l (ExpectedArrowAfterRelation rel)
    else Ok ({| Kind := TokRelArrow; Value := rel; Pos := p |}, advance (advance (advance l))).

Definition lexArrow (l : lexer) : result LexError (Token * lexer) :=
  if negb (Ascii.eqb (peek 1 l) "-") then errorf l (ExpectedArrow (peek 1 l))
  else
    let l' := advance (advance l) in
    if bool_decide (head (rest l') = Some "["%char) then lexRelArrow (pos l) l'
    else if negb (matchAhead ">" l') then errorf l' ExpectedArrowAfterDashes
    else Ok ({| Kind := TokArrow; Value := "-->"; Pos := pos l |}, advance l').

Definition unescape (esc : ascii) : ascii :=
  if Ascii.eqb esc "n" then newline
  else if Ascii.eqb esc "t" then tab
  else if Ascii.eqb esc "r" then carriage_return
  else esc.

Fixpoint lexString_loop (p : Position) (s : list ascii) (l : lexer) (buf : list ascii)
    : result LexError (Token * lexer) :=
  match s with
  | [] => errorf l UnterminatedString
  | ch :: s' =>
      if Ascii.eqb ch newline then errorf l UnterminatedString
      else if Ascii.eqb ch quote then
        Ok ({| Kind := TokString; Value := String.string_of_list_ascii buf; Pos := p |}, advance l)
      else if Ascii.eqb ch backslash then
        match s' with
        | [] => errorf l TrailingBackslash
        | esc :: s'' =>
            if Ascii.eqb esc Ascii.zero then errorf l TrailingBackslash
            else lexString_loop p s'' (advance (advance l)) (buf ++ [unescape esc])
        end
      else lexString_loop p s' (advance l) (buf ++ [ch])
  end.

Definition lexString (l : lexer) : result LexError (Token * lexer) :=
  let l' := advance l in lexString_loop (pos l) (rest l') l' [].

Definition lexVar (l : lexer) : result LexError (Token * lexer) :=
  let start := advance l in
  if negb (match rest start with c :: _ => isIdentStart c | [] => false end)
  then errorf start ExpectedIdentAfterDollar
  else
    let l' := advance_while isIdentPart (rest start) start in
    Ok ({| Kind := TokVar; Value := lexeme start l'; Pos := pos l |}, l').

Fixpoint lexRegex_loop (p : Position) (s : list ascii) (l : lexer) (buf : list ascii)
    : result LexError (Token * lexer) :=
  match s with
  | [] => errorf l UnterminatedRegex
  | ch :: s' =>
      if Ascii.eqb ch newline then errorf l UnterminatedRegex
      else if Ascii.eqb ch "/" then
        Ok ({| Kind := TokRegex; Value := String.string_of_list_ascii buf; Pos := p |}, advance l)
      else
        match s' with
        | d :: s'' =>
            if Ascii.eqb ch backslash && Ascii.eqb d "/" then
              lexRegex_loop p s'' (advance (advance l)) (buf ++ ["/"%char])
            else lexRegex_loop p s' (advance l) (buf ++ [ch])
        | [] => lexRegex_loop p s' (advance l) (buf ++ [ch])
        end
  end.

Definition lexRegex (l : lexer) : result LexError (Token * lexer) :=
  let l' := advance l in lexRegex_loop (pos l) (rest l') l' [].

(** The error of both failures cites the opening brace. *)
Fixpoint lexWhereJSON_loop (start : lexer) (s : list ascii) (l : lexer) (depth : Z)
    (inString : bool) : result LexError (Token * lexer) :=
  match s with
  | [] => errorf start (if inString then UnterminatedWhereString else UnterminatedWhere)
  | ch :: s' =>
      if inString && Ascii.eqb ch backslash then
        match s' with
        | [] => errorf start UnterminatedWhereString
        | _ :: s'' => lexWhereJSON_loop start s'' (advance (advance l)) depth inString
        end
      else if Ascii.eqb ch quote then
        lexWhereJSON_loop start s' (advance l) depth (negb inString)
      else if inString then lexWhereJSON_loop start s' (advance l) depth inString
      else if Ascii.eqb ch "{" then lexWhereJSON_loop start s' (advance l) (depth + 1) inString
      else if Ascii.eqb ch "}" then
        if depth - 1 =? 0 then
          Ok ({| Kind := TokWhereJSON; Value := lexeme start (advance l); Pos := pos start |},
              advance l)
        else lexWhereJSON_loop start s' (advance l) (depth - 1) inString
      else lexWhereJSON_loop start s' (advance l) depth inString
  end.

Definition lexWhereJSON (l : lexer) : result LexError (Token * lexer) :=
  lexWhereJSON_loop l (rest l) l 0 false.

Definition lexIdent (l : lexer) : Token * lexer :=
  let l' := advance_while isIdentPart (rest l) l in
  ({| Kind := TokIdent; Value := lexeme l l'; Pos := pos l |}, l').

(** ** The dispatch *)

Definition singleCharKinds (ch : ascii) : option TokenKind :=
  if Ascii.eqb ch newline then Some TokNewline
  else if Ascii.eqb ch "." then Some TokDot
  else if Ascii.eqb ch "," then Some TokComma
  else if Ascii.eqb ch "(" then Some TokLParen
  else if Ascii.eqb ch ")" then Some TokRParen
  else if Ascii.eqb ch "{" then Some TokLBrace
  else if Ascii.eqb ch "}" then Some TokRBrace
  else None.

Definition singleCharToken (ch : ascii) (l : lexer) : option (Token * lexer) :=
  kind ← singleCharKinds ch;
  Some ({| Kind := kind; Value := String ch ""; Pos := pos l |}, advance l).

Definition twoCharToken (ch : ascii) (l : lexer) : option (Token * lexer) :=
  '(kind, val) ←
    (if Ascii.eqb ch ":" then if Ascii.eqb (peek 1 l) "=" then Some (TokColonEq, ":=") else None
     else if Ascii.eqb ch "~" then if Ascii.eqb (peek 1 l) "=" then Some (TokTildeEq, "~=") else None
     else if Ascii.eqb ch "!" then if Ascii.eqb (peek 1 l) "~" then Some (TokBangTilde, "!~") else None
     else None);
  Some ({| Kind := kind; Value := val; Pos := pos l |}, advance (advance l)).

(** An open brace starts a where-tree after the word [where] or [filter]. *)
Definition opens_where (ch : ascii) (l : lexer) : bool :=
  Ascii.eqb ch "{" && bool_decide (Kind (prev l) = TokIdent)
  && (bool_decide (Value (prev l) = "where") || bool_decide (Value (prev l) = "filter")).

Definition next (l : lexer) : result LexError (Token * lexer) :=
  let l := skipInsignificant l in
  match rest l with
  | [] => Ok ({| Kind := TokEOF; Value := ""; Pos := pos l |}, l)
  | ch :: _ =>
      if opens_where ch l then lexWhereJSON l
      else match singleCharToken ch l with
      | Some r => Ok r
      | None =>
          match twoCharToken ch l with
          | Some r => Ok r
          | None =>
              if Ascii.eqb ch "-" then lexArrow l
              else if Ascii.eqb ch quote then lexString l
              else if Ascii.eqb ch "$" then lexVar l
              else if Ascii.eqb ch "/" then lexRegex l
              else if isIdentStart ch then Ok (lexIdent l)
              else errorf l (UnexpectedByte ch)
          end
      end
  end.

(** [None]: the fuel ran out. *)
Fixpoint lex_loop (fuel : nat) (l : lexer) (out : list Token)
    : option (result LexError (list Token)) :=
  match fuel with
  | O => None
  | S fuel' =>
      match next l with
      | Err e => Some (Err e)
      | Ok (tok, l') =>
          let l' := {| rest := rest l'; pos := pos l'; prev := tok |} in
          let out := out ++ [tok] in
          if decide (Kind tok = TokEOF) then Some (Ok out) else lex_loop fuel' l' out
      end
  end.

Definition start_lexer (src : list ascii) : lexer :=
  {| rest := src; pos := {| Line := 1; Col := 1 |}; prev := zero_token |}.

Definition Lex (src : list ascii) : option (result LexError (list Token)) :=
  lex_loop (S (length src)) (start_lexer src) [].

(** ** Reading bytes *)

(** The position after the bytes [s], from [p]. *)
Definition after (p : Position) (s : list ascii) : Position := fold_left step_pos s p.

Lemma after_app p a b : after p (a ++ b) = after (after p a) b.
Proof. apply fold_left_app. Qed.

(** [l'] is [l] after it read [s]. *)
Record reads (l : lexer) (s : list ascii) (l' : lexer) : Prop := {
  reads_rest : rest l = s ++ rest l';
  reads_pos : pos l' = after (pos l) s;
  reads_prev : prev l' = prev l;
}.

Lemma reads_refl l : reads l [] l.
Proof. by split. Qed.

Lemma reads_trans l1 s1 l2 s2 l3 : reads l1 s1 l2 → reads l2 s2 l3 → reads l1 (s1 ++ s2) l3.
Proof.
  intros [R1 P1 V1] [R2 P2 V2]. split.
  - by rewrite R1, R2, app_assoc.
  - by rewrite after_app, P2, P1.
  - congruence.
Qed.

Lemma reads_advance l c s : rest l = c :: s → reads l [c] (advance l) ∧ rest (advance l) = s.
Proof. intros H. unfold advance. rewrite H. by repeat split. Qed.

Lemma reads_advance2 l c d s :
  rest l = c :: d :: s →
  reads l [c; d] (advance (advance l)) ∧ rest (advance (advance l)) = s.
Proof.
  intros H. destruct (reads_advance l c _ H) as [R1 E1].
  destruct (reads_advance (advance l) d _ E1) as [R2 E2].
  split; [exact (reads_trans _ [c] _ [d] _ R1 R2) | exact E2].
Qed.

Lemma reads_lexeme l s l' : reads l s l' → lexeme l l' = String.string_of_list_ascii s.
Proof.
  intros [R _ _]. unfold lexeme. rewrite R, length_app.
  by rewrite Nat.add_sub, take_app_length.
Qed.

Lemma advance_while_reads P s : ∀ l, rest l = s →
  ∃ t, reads l t (advance_while P s l) ∧ Forall (λ c, P c = true) t ∧
    match rest (advance_while P s l) with c :: _ => P c = false | [] => True end.
Proof.
  induction s as [|c s IH]; intros l E; cbn [advance_while].
  - exists []. split; [apply reads_refl|]. split; [done|]. by rewrite E.
  - destruct (P c) eqn:Hc.
    + destruct (reads_advance l c s E) as [R1 E1].
      destruct (IH (advance l) E1) as (t & R2 & Ht & Hs).
      exists (c :: t). split; [exact (reads_trans _ [c] _ t _ R1 R2)|]. split; [|exact Hs].
      by constructor.
    + exists []. split; [apply reads_refl|]. split; [done|]. by rewrite E.
Qed.

(** The loop over bytes that satisfy [P], up to one that does not. *)
Lemma advance_while_exact P t s : ∀ l, rest l = t ++ s →
  Forall (λ c, P c = true) t → match s with c :: _ => P c = false | [] => True end →
  reads l t (advance_while P (t ++ s) l) ∧ rest (advance_while P (t ++ s) l) = s.
Proof.
  induction t as [|c t IH]; intros l E Ht Hs; cbn [app advance_while] in *.
  - split; [|destruct s as [|d s]; cbn [advance_while]; [done|by rewrite Hs]].
    destruct s as [|d s]; cbn [advance_while]; [apply reads_refl|]. rewrite Hs. apply reads_refl.
  - inversion Ht as [|? ? Hc Ht']; subst. rewrite Hc.
    destruct (reads_advance l c _ E) as [R1 E1].
    destruct (IH (advance l) E1 Ht' Hs) as [R2 E2].
    split; [exact (reads_trans _ [c] _ t _ R1 R2)|exact E2].
Qed.

(** ** The language: how tokens are spelled *)

Definition no_newline (s : list ascii) : Prop := newline ∉ s.

Inductive string_body : list ascii → list ascii → Prop :=
| sb_nil : string_body [] []
| sb_plain c s v : c ≠ newline → c ≠ quote → c ≠ backslash →
    string_body s v → string_body (c :: s) (c :: v)
| sb_escape e s v : e ≠ Ascii.zero → string_body s v →
    string_body (backslash :: e :: s) (unescape e :: v).

(** A backslash is literal unless a slash follows, so none can be last. *)
Inductive regex_body : list ascii → list ascii → Prop :=
| rb_nil : regex_body [] []
| rb_plain c s v : c ≠ newline → c ≠ "/"%char → (c = backslash → s ≠ []) →
    regex_body s v → regex_body (c :: s) (c :: v)
| rb_slash s v : regex_body s v → regex_body (backslash :: "/"%char :: s) ("/"%char :: v).

(** A JSON string, from after its opening quote to its closing one. *)
Inductive json_literal : list ascii → Prop :=
| jl_end : json_literal [quote]
| jl_plain c s : c ≠ quote → c ≠ backslash → json_literal s → json_literal (c :: s)
| jl_escape e s : json_literal s → json_literal (backslash :: e :: s).

(** What stands between matching braces, braces in strings not counted. *)
Inductive where_items : list ascii → Prop :=
| wi_nil : where_items []
| wi_plain c s : c ≠ quote → c ≠ "{"%char → c ≠ "}"%char → where_items s → where_items (c :: s)
| wi_string lit s : json_literal lit → where_items s → where_items (quote :: lit ++ s)
| wi_object a s : where_items a → where_items s →
    where_items ("{"%char :: a ++ "}"%char :: s).

Definition where_span (s : list ascii) : Prop :=
  ∃ a, where_items a ∧ s = "{"%char :: a ++ ["}"%char].

Definition is_ident (s : list ascii) : Prop :=
  match s with
  | c :: s' => isIdentStart c = true ∧ Forall (λ c, isIdentPart c = true) s'
  | [] => False
  end.

(** Kind, value and bytes of a token. *)
Inductive spelled : TokenKind → list ascii → list ascii → Prop :=
| sp_single c k : singleCharKinds c = Some k → spelled k [c] [c]
| sp_colon_eq : spelled TokColonEq [":"; "="]%char [":"; "="]%char
| sp_tilde_eq : spelled TokTildeEq ["~"; "="]%char ["~"; "="]%char
| sp_bang_tilde : spelled TokBangTilde ["!"; "~"]%char ["!"; "~"]%char
| sp_arrow : spelled TokArrow ["-"; "-"; ">"]%char ["-"; "-"; ">"]%char
| sp_rel_arrow v : no_newline v → "]"%char ∉ v →
    spelled TokRelArrow v (["-"; "-"; "["]%char ++ v ++ ["]"; "-"; "-"; ">"]%char)
| sp_string v s : string_body s v → spelled TokString v (quote :: s ++ [quote])
| sp_var v : is_ident v → spelled TokVar v ("$"%char :: v)
| sp_regex v s : regex_body s v → spelled TokRegex v ("/"%char :: s ++ ["/"%char])
| sp_ident v : is_ident v → spelled TokIdent v v
| sp_where v : where_span v → spelled TokWhereJSON v v.

Definition is_blank (c : ascii) : bool :=
  Ascii.eqb c " " || Ascii.eqb c tab || Ascii.eqb c carriage_return.

(** What is skipped before [s]: blanks, then possibly a comment, up to a newline or the
    end. *)
Definition gap (g s : list ascii) : Prop :=
  ∃ ws cm, g = ws ++ cm ∧ Forall (λ c, is_blank c = true) ws ∧
    (cm = [] ∨ ∃ b, cm = "#"%char :: b ∧ no_newline b ∧ (s = [] ∨ head s = Some newline)).

(** A where-tree follows the words [where] and [filter], and there a brace opens one. *)
Definition awaits_where (t : Token) : bool :=
  bool_decide (Kind t = TokIdent)
  && (bool_decide (Value t = "where") || bool_decide (Value t = "filter")).

Definition in_context (before : Token) (k : TokenKind) : Prop :=
  (k = TokWhereJSON → awaits_where before = true) ∧ (k = TokLBrace → awaits_where before = false).

(** A source read into tokens, from position [p] and after the token [before]. *)
Inductive lexed : Token → Position → list ascii → list Token → Prop :=
| lexed_eof before p g : gap g [] →
    lexed before p g [{| Kind := TokEOF; Value := ""; Pos := after p g |}]
| lexed_token before p g s k v src toks t :
    gap g (s ++ src) → spelled k v s → in_context before k →
    t = {| Kind := k; Value := String.string_of_list_ascii v; Pos := after p g |} →
    lexed t (after p (g ++ s)) src toks →
    lexed before p (g ++ s ++ src) (t :: toks).

(** An error is at a position of the source that was read. *)
Definition errs_in (l : lexer) (e : LexError) : Prop :=
  ∃ s t, rest l = s ++ t ∧ ErrPos e = after (pos l) s.

Lemma errs_here l r : errs_in l {| ErrPos := pos l; Msg := r |}.
Proof. by exists [], (rest l). Qed.

Lemma errs_later l s l' e : reads l s l' → errs_in l' e → errs_in l e.
Proof.
  intros [R P _] (s' & t & E & H). exists (s ++ s'), t. split.
  - by rewrite R, E, app_assoc.
  - by rewrite H, P, after_app.
Qed.

#[local] Hint Resolve reads_refl errs_here : core.

(** What a scanner does: it reads the spelling of its token, or fails inside. *)
Definition scans (l : lexer) (p : Position) (sp : list ascii → list ascii → Prop) (k : TokenKind)
    (r : result LexError (Token * lexer)) : Prop :=
  match r with
  | Ok (tok, l') => ∃ s v, reads l s l' ∧ sp s v ∧
      tok = {| Kind := k; Value := String.string_of_list_ascii v; Pos := p |}
  | Err e => errs_in l e
  end.

Lemma scans_after l s1 l1 p (sp sp' : list ascii → list ascii → Prop) k r :
  reads l s1 l1 → (∀ s v, sp' s v → sp (s1 ++ s) v) →
  scans l1 p sp' k r → scans l p sp k r.
Proof.
  intros R Hsp. destruct r as [[tok l']|e]; cbn [scans].
  - intros (s & v & R' & H & E). exists (s1 ++ s), v.
    split; [exact (reads_trans _ s1 _ s _ R R')|]. auto.
  - intros H. exact (errs_later l s1 l1 e R H).
Qed.

Lemma ascii_eqb_true a b : Ascii.eqb a b = true → a = b.
Proof. apply Ascii.eqb_eq. Qed.

Lemma ascii_eqb_false a b : Ascii.eqb a b = false → a ≠ b.
Proof. apply Ascii.eqb_neq. Qed.

Lemma ascii_eqb_ne a b : a ≠ b → Ascii.eqb a b = false.
Proof. apply Ascii.eqb_neq. Qed.

(** Case analysis on the first byte test of the goal, and on all. *)
Ltac byte_case :=
  match goal with
  | |- context [if Ascii.eqb ?a ?b then _ else _] =>
      let E := fresh "Hbyte" in
      destruct (Ascii.eqb a b) eqn:E;
      [apply ascii_eqb_true in E; try subst a | apply ascii_eqb_false in E]
  end.
Ltac byte_cases := repeat byte_case.

Lemma lexString_loop_scans p n : ∀ l s buf, rest l = s → (length s < n)%nat →
  scans l p (λ s v, ∃ b w, s = b ++ [quote] ∧ v = buf ++ w ∧ string_body b w) TokString
    (lexString_loop p s l buf).
Proof.
  induction n as [|n IH]; [lia|]. intros l s buf E Hn.
  destruct s as [|ch s]; cbn [lexString_loop]; [apply errs_here|]. cbn [length] in Hn.
  destruct (reads_advance l ch s E) as [R1 E1].
  byte_cases; try apply errs_here.
  - exists [quote], buf. split; [exact R1|]. split; [|done].
    exists [], []. rewrite app_nil_r. split; [done|]. split; [done|]. constructor.
  - destruct s as [|esc s]; [apply errs_here|]. cbn [length] in Hn.
    byte_cases; [apply errs_here|].
    destruct (reads_advance2 l _ esc s E) as [R2 E2].
    eapply scans_after; [exact R2| |apply IH; [exact E2|lia]].
    intros s' v (b & w & -> & -> & Hb). exists (backslash :: esc :: b), (unescape esc :: w).
    split; [done|]. split; [by rewrite <- app_assoc|]. by constructor.
  - eapply scans_after; [exact R1| |apply IH; [exact E1|lia]].
    intros s' v (b & w & -> & -> & Hb). exists (ch :: b), (ch :: w).
    split; [done|]. split; [by rewrite <- app_assoc|]. by constructor.
Qed.

Lemma lexRegex_loop_scans p n : ∀ l s buf, rest l = s → (length s < n)%nat →
  scans l p (λ s v, ∃ b w, s = b ++ ["/"%char] ∧ v = buf ++ w ∧ regex_body b w) TokRegex
    (lexRegex_loop p s l buf).
Proof.
  induction n as [|n IH]; [lia|]. intros l s buf E Hn.
  destruct s as [|ch s]; cbn [lexRegex_loop]; [apply errs_here|]. cbn [length] in Hn.
  destruct (reads_advance l ch s E) as [R1 E1].
  byte_cases; try apply errs_here.
  { exists ["/"%char], buf. split; [exact R1|]. split; [|done].
    exists [], []. rewrite app_nil_r. split; [done|]. split; [done|]. constructor. }
  assert (Hplain : (ch = backslash → head s ≠ Some "/"%char) →
    scans l p (λ s v, ∃ b w, s = b ++ ["/"%char] ∧ v = buf ++ w ∧ regex_body b w) TokRegex
      (lexRegex_loop p s (advance l) (buf ++ [ch]))).
  { intros Hbs. pose proof (IH (advance l) s (buf ++ [ch]) E1 ltac:(lia)) as H.
    destruct (lexRegex_loop p s (advance l) (buf ++ [ch])) as [[tok l']|e] eqn:Hr;
      [|exact (errs_later _ _ _ _ R1 H)].
    destruct H as (s' & v & R & (b & w & -> & -> & Hb) & Ht).
    exists (ch :: b ++ ["/"%char]), (buf ++ ch :: w).
    split; [exact (reads_trans _ [ch] _ _ _ R1 R)|].
    split; [|by rewrite Ht, <- app_assoc].
    exists (ch :: b), (ch :: w). split; [done|]. split; [done|].
    constructor; [done|done| |done]. intros -> ->. apply (Hbs eq_refl).
    rewrite <- E1, (reads_rest _ _ _ R). done. }
  destruct s as [|d s]; [by apply Hplain|].
  destruct (Ascii.eqb ch backslash) eqn:Hc; [apply ascii_eqb_true in Hc; subst ch|
    cbn [andb]; apply Hplain; apply ascii_eqb_false in Hc; congruence].
  destruct (Ascii.eqb d "/") eqn:Hd; cbn [andb].
  - apply ascii_eqb_true in Hd as ->. destruct (reads_advance2 l _ _ s E) as [R2 E2].
    eapply scans_after; [exact R2| |apply IH; [exact E2|cbn [length] in Hn; lia]].
    intros s' v (b & w & -> & -> & Hb). exists (backslash :: "/"%char :: b), ("/"%char :: w).
    split; [done|]. split; [by rewrite <- app_assoc|]. by constructor.
  - apply ascii_eqb_false in Hd. apply Hplain. cbn [head]. congruence.
Qed.

(** ** Where-trees *)

(** Bytes that close [n] braces, and end with the last of them. *)
Inductive closes : nat → list ascii → Prop :=
| cl_last a : where_items a → closes 1 (a ++ ["}"%char])
| cl_more n a s : where_items a → closes (S n) s → closes (S (S n)) (a ++ "}"%char :: s).

Lemma closes_head n u (f : list ascii → list ascii) :
  (∀ a s, f (a ++ s) = f a ++ s) → (∀ a, where_items a → where_items (f a)) →
  closes n u → closes n (f u).
Proof.
  intros Hf Hi H. destruct H as [a Ha|n a s Ha Hs]; rewrite Hf.
  - by constructor; apply Hi.
  - by constructor; [apply Hi|].
Qed.

Lemma closes_plain n c u :
  c ≠ quote → c ≠ "{"%char → c ≠ "}"%char → closes n u → closes n (c :: u).
Proof. intros H1 H2 H3. apply (closes_head n u (cons c)); [done|]. intros. by constructor. Qed.

Lemma closes_string n lit u : json_literal lit → closes n u → closes n (quote :: lit ++ u).
Proof.
  intros Hl. apply (closes_head n u (λ u, quote :: lit ++ u)).
  - intros a s. by rewrite app_assoc.
  - intros a Ha. by constructor.
Qed.

Lemma closes_open n u : closes (S (S n)) u → closes (S n) ("{"%char :: u).
Proof.
  intros H. inversion H as [|? a s Ha Hs]; subst.
  apply (closes_head (S n) s (λ s, "{"%char :: a ++ "}"%char :: s)) in Hs; [done| |].
  - intros b c. by rewrite <- app_comm_cons, <- app_assoc.
  - intros b Hb. by constructor.
Qed.

Lemma closes_close n u : closes (S n) u → closes (S (S n)) ("}"%char :: u).
Proof. intros H. by apply (cl_more n [] u (wi_nil)). Qed.

(** The rest of a span at depth [d], in or out of a string. *)
Definition tail_of_span (inString : bool) (d : nat) (u : list ascii) : Prop :=
  if inString then ∃ lit w, u = lit ++ w ∧ json_literal lit ∧ closes d w else closes d u.

Lemma lexWhereJSON_loop_sound start n : ∀ l s d b, rest l = s → (length s < n)%nat →
  match lexWhereJSON_loop start s l (Z.of_nat (S d)) b with
  | Ok (tok, l') => ∃ u, reads l u l' ∧ tail_of_span b (S d) u ∧
      tok = {| Kind := TokWhereJSON; Value := lexeme start l'; Pos := pos start |}
  | Err e => ErrPos e = pos start
  end.
Proof.
  induction n as [|n IH]; [lia|]. intros l s d b E Hn.
  destruct s as [|ch s]; cbn [lexWhereJSON_loop]; [done|]. cbn [length] in Hn.
  destruct (reads_advance l ch s E) as [R1 E1].
  assert (Hnext : ∀ d' b', (∀ u, tail_of_span b' (S d') u → tail_of_span b (S d) (ch :: u)) →
    match lexWhereJSON_loop start s (advance l) (Z.of_nat (S d')) b' with
    | Ok (tok, l') => ∃ u, reads l u l' ∧ tail_of_span b (S d) u ∧
        tok = {| Kind := TokWhereJSON; Value := lexeme start l'; Pos := pos start |}
    | Err e => ErrPos e = pos start
    end).
  { intros d' b' Hb. specialize (IH (advance l) s d' b' E1 ltac:(lia)).
    destruct (lexWhereJSON_loop start s (advance l) (Z.of_nat (S d')) b') as [[tok l']|e]; [|done].
    destruct IH as (u & R & Hu & Ht). exists (ch :: u).
    split; [exact (reads_trans _ [ch] _ u _ R1 R)|]. auto. }
  destruct (b && Ascii.eqb ch backslash) eqn:Hesc.
  { apply andb_true_iff in Hesc as [-> Hch]. apply ascii_eqb_true in Hch as ->.
    destruct s as [|c s]; [done|]. cbn [length] in Hn.
    destruct (reads_advance2 l _ c s E) as [R2 E2].
    specialize (IH (advance (advance l)) s d true E2 ltac:(lia)).
    destruct (lexWhereJSON_loop start s _ (Z.of_nat (S d)) true) as [[tok l']|e]; [|done].
    destruct IH as (u & R & (lit & w & -> & Hl & Hw) & Ht). exists (backslash :: c :: lit ++ w).
    split; [exact (reads_trans _ [_; c] _ _ _ R2 R)|]. split; [|done].
    exists (backslash :: c :: lit), w. split; [done|]. split; [by constructor|done]. }
  byte_case.
  { apply (Hnext d (negb b)). destruct b; cbn [negb tail_of_span].
    - intros u Hu. exists [quote], u. split; [done|]. split; [constructor|done].
    - intros u (lit & w & -> & Hl & Hw). by apply closes_string. }
  destruct b.
  { apply (Hnext d true). intros u (lit & w & -> & Hl & Hw).
    exists (ch :: lit), w. split; [done|]. split; [|done].
    apply ascii_eqb_false in Hesc. by constructor. }
  byte_cases.
  - replace (Z.of_nat (S d) + 1) with (Z.of_nat (S (S d))) by lia.
    apply (Hnext (S d) false). intros u. apply closes_open.
  - destruct d as [|d].
    + cbn [Z.eqb]. replace (Z.of_nat 1 - 1 =? 0) with true by done.
      exists ["}"%char]. split; [exact R1|]. split; [|done].
      apply (cl_last [] wi_nil).
    + rewrite (proj2 (Z.eqb_neq _ _)) by lia.
      replace (Z.of_nat (S (S d)) - 1) with (Z.of_nat (S d)) by lia.
      apply (Hnext d false). intros u. apply closes_close.
  - apply (Hnext d false). intros u Hu. by apply closes_plain.
Qed.

Lemma reads_app l a b t : rest l = (a ++ b) ++ t → ∃ l', reads l a l' ∧ rest l' = b ++ t.
Proof.
  revert l. induction a as [|c a IH]; intros l E; [by exists l|].
  destruct (reads_advance l c _ E) as [R1 E1]. destruct (IH _ E1) as (l' & R & E').
  exists l'. split; [exact (reads_trans _ [c] _ a _ R1 R)|done].
Qed.

Lemma lexWhereJSON_literal start lit : json_literal lit → ∀ l t d, rest l = lit ++ t →
  ∃ l', reads l lit l' ∧ rest l' = t ∧
    lexWhereJSON_loop start (lit ++ t) l d true = lexWhereJSON_loop start t l' d false.
Proof.
  induction 1 as [|c s H1 H2 H IH|e s H IH]; intros l t d E; cbn [app] in *.
  - destruct (reads_advance l _ t E) as [R E1]. by exists (advance l).
  - destruct (reads_advance l c _ E) as [R E1]. destruct (IH _ t d E1) as (l' & R' & E' & Hl).
    exists l'. split; [exact (reads_trans _ [c] _ s _ R R')|]. split; [done|].
    cbn [lexWhereJSON_loop andb]. by rewrite !ascii_eqb_ne.
  - destruct (reads_advance2 l _ e _ E) as [R E1].
    destruct (IH _ t d E1) as (l' & R' & E' & Hl).
    exists l'. split; [exact (reads_trans _ [_; e] _ s _ R R')|]. split; done.
Qed.

Lemma lexWhereJSON_items start a : where_items a → ∀ l t d, 1 <= d → rest l = a ++ t →
  ∃ l', reads l a l' ∧ rest l' = t ∧
    lexWhereJSON_loop start (a ++ t) l d false = lexWhereJSON_loop start t l' d false.
Proof.
  induction 1 as [|c s H1 H2 H3 H IH|lit s Hl H IH|a s Ha IHa Hs IHs]; intros l t d Hd E;
    cbn [app] in *.
  - by exists l.
  - destruct (reads_advance l c _ E) as [R E1]. destruct (IH _ t d Hd E1) as (l' & R' & E' & Hl).
    exists l'. split; [exact (reads_trans _ [c] _ s _ R R')|]. split; [done|].
    cbn [lexWhereJSON_loop andb]. by rewrite !ascii_eqb_ne.
  - destruct (reads_advance l _ _ E) as [R E1]. rewrite <- app_assoc in E1.
    destruct (lexWhereJSON_literal start lit Hl _ (s ++ t) d E1) as (l1 & R1 & E2 & Hlit).
    destruct (IH l1 t d Hd E2) as (l' & R' & E' & Hrun).
    exists l'. split; [|split; [done|]].
    { apply (reads_trans _ [_] _ (lit ++ s) _ R). exact (reads_trans _ lit _ s _ R1 R'). }
    cbn [lexWhereJSON_loop andb negb]. rewrite <- app_assoc, Ascii.eqb_refl. congruence.
  - destruct (reads_advance l _ _ E) as [R E1]. rewrite <- app_assoc in E1. cbn [app] in E1.
    destruct (IHa _ ("}"%char :: s ++ t) (d + 1) ltac:(lia) E1) as (l1 & R1 & E2 & H1).
    destruct (reads_advance l1 _ _ E2) as [R2 E3].
    destruct (IHs _ t d Hd E3) as (l' & R' & E' & H2).
    exists l'. split; [|split; [done|]].
    { apply (reads_trans _ [_] _ (a ++ "}"%char :: s) _ R).
      apply (reads_trans _ a _ ("}"%char :: s) _ R1). exact (reads_trans _ [_] _ s _ R2 R'). }
    rewrite <- app_assoc. cbn [app].
    change (lexWhereJSON_loop start ("{"%char :: (a ++ "}"%char :: s ++ t)) l d false)
      with (lexWhereJSON_loop start (a ++ "}"%char :: s ++ t) (advance l) (d + 1) false).
    rewrite H1.
    transitivity (lexWhereJSON_loop start (s ++ t) (advance l1) d false); [|exact H2].
    cbn [lexWhereJSON_loop andb]. rewrite (ascii_eqb_ne "}" quote) by done.
    change (Ascii.eqb "}" "{") with false. change (Ascii.eqb "}" "}") with true. cbn [negb].
    rewrite (proj2 (Z.eqb_neq _ _)) by lia. by replace (d + 1 - 1) with d by lia.
Qed.

Lemma reads_unique l s l1 l2 : reads l s l1 → reads l s l2 → l1 = l2.
Proof.
  intros [R1 P1 V1] [R2 P2 V2]. rewrite R1 in R2. apply app_inv_head in R2.
  destruct l1, l2; cbn in *. congruence.
Qed.

Lemma lexWhereJSON_span l v t : where_span v → rest l = v ++ t →
  ∃ l', reads l v l' ∧ rest l' = t ∧
    lexWhereJSON l = Ok ({| Kind := TokWhereJSON; Value := String.string_of_list_ascii v;
                            Pos := pos l |}, l').
Proof.
  intros (a & Ha & ->) E. unfold lexWhereJSON. rewrite E. cbn [app] in *.
  rewrite <- app_assoc in E |- *.
  destruct (reads_advance l _ _ E) as [R E1].
  destruct (lexWhereJSON_items l a Ha _ _ 1 ltac:(lia) E1) as (l1 & R1 & E2 & H1).
  destruct (reads_advance l1 _ _ E2) as [R2 E3].
  assert (Rv : reads l ("{"%char :: a ++ ["}"%char]) (advance l1)).
  { apply (reads_trans _ [_] _ (a ++ ["}"%char]) _ R). exact (reads_trans _ a _ [_] _ R1 R2). }
  exists (advance l1). split; [exact Rv|]. split; [done|].
  change (lexWhereJSON_loop l (a ++ ["}"%char] ++ t) (advance l) 1 false
    = Ok ({| Kind := TokWhereJSON;
             Value := String.string_of_list_ascii ("{"%char :: a ++ ["}"%char]);
             Pos := pos l |}, advance l1)).
  rewrite H1. cbn [app lexWhereJSON_loop andb].
  rewrite (ascii_eqb_ne "}" quote) by done.
  change (Ascii.eqb "}" "{") with false. change (Ascii.eqb "}" "}") with true.
  cbn [negb]. replace (1 - 1 =? 0) with true by done. by rewrite (reads_lexeme _ _ _ Rv).
Qed.

Lemma where_span_exact_lemma (l : lexer) (Hbrace : head (rest l) = Some "{"%char) :
  (∀ tok l', lexWhereJSON l = Ok (tok, l') ↔
     ∃ v, where_span v ∧ reads l v l' ∧
       tok = {| Kind := TokWhereJSON; Value := String.string_of_list_ascii v; Pos := pos l |}) ∧
  (∀ e, lexWhereJSON l = Err e →
     ErrPos e = pos l ∧ ∀ v t, where_span v → rest l ≠ v ++ t).
Proof.
  destruct (rest l) as [|c s] eqn:E; [done|]. injection Hbrace as ->.
  destruct (reads_advance l _ s E) as [R E1].
  assert (Hlex : lexWhereJSON l = lexWhereJSON_loop l s (advance l) (Z.of_nat 1) false).
  { unfold lexWhereJSON. by rewrite E. }
  pose proof (lexWhereJSON_loop_sound l (S (length s)) (advance l) s 0 false E1 ltac:(lia)) as H.
  rewrite <- Hlex in H. split.
  - intros tok l'. split.
    + intros Hok. rewrite Hok in H. destruct H as (u & Ru & Hu & ->).
      cbn [tail_of_span] in Hu. inversion Hu as [a Ha| ]; subst.
      pose proof (reads_trans _ [_] _ _ _ R Ru) as Rv.
      exists ("{"%char :: a ++ ["}"%char]). split; [by exists a|]. split; [exact Rv|].
      by rewrite (reads_lexeme _ _ _ Rv).
    + intros (v & Hv & Rv & ->). destruct (lexWhereJSON_span l v _ Hv (reads_rest _ _ _ Rv))
        as (l2 & R2 & _ & ->). by rewrite (reads_unique _ _ _ _ Rv R2).
  - intros e He. rewrite He in H. split; [exact H|]. intros v t Hv Ht.
    rewrite <- E in Ht. destruct (lexWhereJSON_span l v t Hv Ht) as (l' & _ & _ & Hok). congruence.
Qed.

(** C26: The span of a where-tree is found exactly: from an open brace the lexer returns the
    bytes up to the brace that matches it, braces inside JSON strings not counted and
    escapes in them respected, whatever follows; and when there is none it fails with
    the position of the open brace. *)
Theorem where_span_exact (l : lexer) (Hbrace : head (rest l) = Some "{"%char) :
  (∀ tok l', lexWhereJSON l = Ok (tok, l') ↔
     ∃ v, where_span v ∧ reads l v l' ∧
       tok = {| Kind := TokWhereJSON; Value := String.string_of_list_ascii v; Pos := pos l |}) ∧
  (∀ e, lexWhereJSON l = Err e →
     ErrPos e = pos l ∧ ∀ v t, where_span v → rest l ≠ v ++ t).
Proof. exact (where_span_exact_lemma l Hbrace). Qed.

(** ** Soundness of the lexer *)

Lemma skip_reads s : ∀ b l, rest l = s →
  ∃ g, reads l g (skip b s l) ∧
    if b : bool then no_newline g ∧ (rest (skip b s l) = [] ∨ head (rest (skip b s l)) = Some newline)
    else gap g (rest (skip b s l)).
Proof.
  induction s as [|ch s IH]; intros b l E; cbn [skip].
  - exists []. split; [apply reads_refl|]. destruct b; [by split; [apply not_elem_of_nil|left]|].
    exists [], []. auto.
  - destruct (reads_advance l ch s E) as [R E1].
    destruct b.
    + byte_case.
      * exists []. split; [apply reads_refl|]. split; [apply not_elem_of_nil|]. right. by rewrite E.
      * destruct (IH true _ E1) as (g & Rg & Hn & Hs). exists (ch :: g).
        split; [exact (reads_trans _ [_] _ g _ R Rg)|]. split; [|exact Hs].
        unfold no_newline. apply not_elem_of_cons. auto.
    + fold (is_blank ch). destruct (is_blank ch) eqn:Hb.
      * destruct (IH false _ E1) as (g & Rg & ws & cm & -> & Hws & Hcm). exists (ch :: ws ++ cm).
        split; [exact (reads_trans _ [_] _ _ _ R Rg)|]. exists (ch :: ws), cm. auto.
      * byte_case.
        -- destruct (IH true _ E1) as (g & Rg & Hn & Hs). exists ("#"%char :: g).
           split; [exact (reads_trans _ [_] _ g _ R Rg)|].
           exists [], ("#"%char :: g). split; [done|]. split; [done|]. right. by exists g.
        -- exists []. split; [apply reads_refl|]. exists [], []. auto.
Qed.

Lemma matchAhead_true s l :
  matchAhead s l = true → ∃ t, rest l = String.list_ascii_of_string s ++ t.
Proof.
  intros H. apply bool_decide_eq_true in H. exists (drop (String.length s) (rest l)).
  by rewrite <- H, take_drop.
Qed.

Lemma reads_many l a t : rest l = a ++ t →
  ∃ l', reads l a l' ∧ rest l' = t ∧ l' = Nat.iter (length a) advance l.
Proof.
  revert l. induction a as [|c a IH]; intros l E; [by exists l|].
  destruct (reads_advance l c _ E) as [R1 E1]. destruct (IH _ E1) as (l' & R & E' & ->).
  exists (Nat.iter (length a) advance (advance l)).
  split; [exact (reads_trans _ [c] _ a _ R1 R)|]. split; [done|].
  cbn [length]. by rewrite Nat.iter_succ_r.
Qed.

(** The scanner of one token at a byte that starts it. *)
Definition scans_token (l : lexer) (r : result LexError (Token * lexer)) : Prop :=
  match r with
  | Ok (tok, l') => ∃ s v k, reads l s l' ∧ spelled k v s ∧ in_context (prev l) k ∧
      tok = {| Kind := k; Value := String.string_of_list_ascii v; Pos := pos l |}
  | Err e => errs_in l e
  end.

Lemma in_context_free before k : k ≠ TokWhereJSON → k ≠ TokLBrace → in_context before k.
Proof. by split. Qed.

#[local] Hint Extern 1 (in_context _ _) => (apply in_context_free; congruence) : core.

Lemma lexRelArrow_scans l l0 s : rest l = "[" %char :: s →
  reads l0 ["-"; "-"]%char l → scans_token l0 (lexRelArrow (pos l0) l).
Proof.
  intros E R0. unfold lexRelArrow. destruct (reads_advance l _ s E) as [R E1].
  pose proof (reads_trans _ _ _ _ _ R0 R) as Ra. cbn [app] in Ra.
  destruct (advance_while_reads (λ c, negb (Ascii.eqb c "]") && negb (Ascii.eqb c newline)) s
              (advance l) E1) as (rel & Rr & Hrel & Hstop).
  rewrite E1. cbn zeta. set (l1 := advance_while _ _ _) in *.
  pose proof (reads_trans _ _ _ _ _ Ra Rr) as Rb.
  case_bool_decide as Hhead; [exact (errs_later _ _ _ _ Rb (errs_here _ _))|].
  destruct (rest l1) as [|c s1] eqn:Es; [done|]. injection Hhead as ->.
  destruct (reads_advance l1 _ s1 Es) as [Rc Ec].
  pose proof (reads_trans _ _ _ _ _ Rb Rc) as Rd.
  destruct (matchAhead "-->" (advance l1)) eqn:Hm; cbn [negb];
    [|exact (errs_later _ _ _ _ Rd (errs_here _ _))].
  apply matchAhead_true in Hm as (t & Et).
  destruct (reads_many _ ["-"; "-"; ">"]%char t Et) as (l2 & R2 & E2 & ->).
  exists (["-"; "-"; "["]%char ++ rel ++ ["]"; "-"; "-"; ">"]%char), rel, TokRelArrow.
  split; [|split; [|split; [auto|]]].
  - pose proof (reads_trans _ _ _ _ _ Rd R2) as Re. cbn [app] in Re |- *.
    by rewrite <- !app_assoc in Re.
  - rewrite Forall_forall in Hrel.
    constructor; intros Hin; specialize (Hrel _ Hin); cbn in Hrel; done.
  - by rewrite (reads_lexeme _ _ _ Rr).
Qed.

Lemma peek1 l a c s : rest l = a :: c :: s → peek 1 l = c.
Proof. intros E. unfold peek. by rewrite E. Qed.

Lemma lexArrow_scans l s : rest l = "-"%char :: s → scans_token l (lexArrow l).
Proof.
  intros E. unfold lexArrow.
  destruct s as [|c s]; [unfold peek; rewrite E; apply errs_here|]. rewrite (peek1 l _ c s E).
  destruct (Ascii.eqb c "-") eqn:Hc; cbn [negb]; [|apply errs_here].
  apply ascii_eqb_true in Hc as ->.
  destruct (reads_advance2 l _ _ s E) as [R E1].
  case_bool_decide as Hb.
  - rewrite E1 in Hb. destruct s as [|c s]; [done|]. injection Hb as ->.
    by apply (lexRelArrow_scans _ _ s).
  - destruct (matchAhead ">" (advance (advance l))) eqn:Hm; cbn [negb];
      [|exact (errs_later _ _ _ _ R (errs_here _ _))].
    apply matchAhead_true in Hm as (t & Et).
    destruct (reads_advance _ _ t Et) as [R' E'].
    exists ["-"; "-"; ">"]%char, ["-"; "-"; ">"]%char, TokArrow.
    split; [exact (reads_trans _ _ _ _ _ R R')|]. split; [constructor|]. by split; [auto|].
Qed.

Lemma lexString_scans l s : rest l = quote :: s → scans_token l (lexString l).
Proof.
  intros E. destruct (reads_advance l _ s E) as [R E1]. unfold lexString. rewrite E1.
  pose proof (lexString_loop_scans (pos l) (S (length s)) (advance l) s [] E1 ltac:(lia)) as H.
  destruct (lexString_loop _ _ _ _) as [[tok l']|e]; [|exact (errs_later _ _ _ _ R H)].
  destruct H as (s' & v & R' & (b & w & -> & -> & Hb) & ->).
  exists (quote :: b ++ [quote]), w, TokString.
  split; [exact (reads_trans _ [_] _ _ _ R R')|]. split; [by constructor|]. by split; [auto|].
Qed.

Lemma lexRegex_scans l s : rest l = "/"%char :: s → scans_token l (lexRegex l).
Proof.
  intros E. destruct (reads_advance l _ s E) as [R E1]. unfold lexRegex. rewrite E1.
  pose proof (lexRegex_loop_scans (pos l) (S (length s)) (advance l) s [] E1 ltac:(lia)) as H.
  destruct (lexRegex_loop _ _ _ _) as [[tok l']|e]; [|exact (errs_later _ _ _ _ R H)].
  destruct H as (s' & v & R' & (b & w & -> & -> & Hb) & ->).
  exists ("/"%char :: b ++ ["/"%char]), w, TokRegex.
  split; [exact (reads_trans _ [_] _ _ _ R R')|]. split; [by constructor|]. by split; [auto|].
Qed.

Lemma isIdentStart_part c : isIdentStart c = true → isIdentPart c = true.
Proof. intros H. unfold isIdentPart. by rewrite H. Qed.

Lemma ident_run l c s : rest l = c :: s → isIdentStart c = true →
  ∃ v, reads l v (advance_while isIdentPart (c :: s) l) ∧ is_ident v.
Proof.
  intros E Hc. destruct (reads_advance l c s E) as [R E1].
  cbn [advance_while]. rewrite (isIdentStart_part c Hc).
  destruct (advance_while_reads isIdentPart s (advance l) E1) as (t & Rt & Ht & _).
  exists (c :: t). split; [exact (reads_trans _ [c] _ t _ R Rt)|]. by split.
Qed.

Lemma lexVar_scans l s : rest l = "$"%char :: s → scans_token l (lexVar l).
Proof.
  intros E. destruct (reads_advance l _ s E) as [R E1]. unfold lexVar. rewrite E1.
  destruct s as [|c s]; cbn [negb]; [exact (errs_later _ _ _ _ R (errs_here _ _))|].
  destruct (isIdentStart c) eqn:Hc; cbn [negb]; [|exact (errs_later _ _ _ _ R (errs_here _ _))].
  destruct (ident_run (advance l) c s E1 Hc) as (v & Rv & Hv).
  exists ("$"%char :: v), v, TokVar.
  split; [exact (reads_trans _ [_] _ _ _ R Rv)|]. split; [by constructor|]. split; [auto|].
  by rewrite (reads_lexeme _ _ _ Rv).
Qed.

Lemma lexWhereJSON_scans l s : rest l = "{"%char :: s → awaits_where (prev l) = true →
  scans_token l (lexWhereJSON l).
Proof.
  intros E Ha. assert (Hb : head (rest l) = Some "{"%char) by by rewrite E.
  destruct (where_span_exact_lemma l Hb) as [Hok Herr].
  destruct (lexWhereJSON l) as [[tok l']|e] eqn:H.
  - destruct (proj1 (Hok tok l') eq_refl) as (v & Hv & R & ->).
    exists v, v, TokWhereJSON. split; [done|]. split; [by constructor|]. by split; [split|].
  - destruct (Herr e eq_refl) as [Hp _]. exists [], (rest l). by rewrite Hp.
Qed.

Lemma singleCharToken_scans l ch s r : rest l = ch :: s → singleCharToken ch l = Some r →
  (ch = "{"%char → awaits_where (prev l) = false) → scans_token l (Ok r).
Proof.
  intros E H Hctx. unfold singleCharToken in H.
  destruct (singleCharKinds ch) as [k|] eqn:Hk; [|done]. injection H as <-.
  destruct (reads_advance l ch s E) as [R _].
  exists [ch], [ch], k. split; [done|]. split; [by constructor|]. split; [|done].
  unfold singleCharKinds in Hk. revert Hk.
  byte_cases; intros [= <-]; try (apply in_context_free; congruence).
  split; [done|]. auto.
Qed.

Lemma twoCharToken_scans l ch s r : rest l = ch :: s → twoCharToken ch l = Some r →
  scans_token l (Ok r).
Proof.
  intros E. unfold twoCharToken.
  assert (H2 : ∀ k a b, ch = a → peek 1 l = b → b ≠ Ascii.zero → spelled k [a; b] [a; b] →
    k ≠ TokWhereJSON → k ≠ TokLBrace →
    scans_token l (Ok ({| Kind := k; Value := String a (String b ""); Pos := pos l |},
                       advance (advance l)))).
  { intros k a b -> Hb Hz Hs Hk1 Hk2. unfold peek in Hb. rewrite E in Hb.
    destruct s as [|c s]; [by destruct Hz|]. cbn in Hb. subst c.
    destruct (reads_advance2 l a b s E) as [R _].
    exists [a; b], [a; b], k. split; [done|]. split; [done|]. by split; [auto|]. }
  remember (peek 1 l) as d eqn:Hd.
  byte_cases; cbn; intros H; first [discriminate H | injection H as <-];
    (apply H2; [reflexivity|congruence|discriminate|constructor|done|done]).
Qed.

Lemma spelled_not_nil k v s : spelled k v s → s ≠ [].
Proof.
  intros H. inversion H as [| | | | | | |v' Hv|?|v' Hv|v' (a & _ & ->)]; subst; try done.
  by destruct s.
Qed.

Lemma spelled_not_eof k v s : spelled k v s → k ≠ TokEOF.
Proof.
  intros H. inversion H as [c k' Hk| | | | | | | | | |]; subst; try done.
  revert Hk. unfold singleCharKinds. byte_cases; congruence.
Qed.

(** What [next] does: it skips a gap, and then ends or reads a token. *)
Definition reads_token (l : lexer) (r : result LexError (Token * lexer)) : Prop :=
  match r with
  | Ok (tok, l') =>
      (∃ g, reads l g l' ∧ gap g [] ∧ rest l' = [] ∧
         tok = {| Kind := TokEOF; Value := ""; Pos := after (pos l) g |}) ∨
      (∃ g s v k, reads l (g ++ s) l' ∧ gap g (s ++ rest l') ∧ spelled k v s ∧
         in_context (prev l) k ∧
         tok = {| Kind := k; Value := String.string_of_list_ascii v; Pos := after (pos l) g |})
  | Err e => errs_in l e
  end.

Lemma reads_token_after l g l1 r :
  reads l g l1 → gap g (rest l1) → scans_token l1 r → reads_token l r.
Proof.
  intros Rg Hg. destruct r as [[tok l']|e]; cbn.
  - intros (s & v & k & R & Hs & Hc & ->). right. exists g, s, v, k.
    split; [exact (reads_trans _ g _ s _ Rg R)|].
    split; [by rewrite <- (reads_rest _ _ _ R)|]. split; [done|].
    rewrite <- (reads_prev _ _ _ Rg). split; [done|]. by rewrite (reads_pos _ _ _ Rg).
  - exact (errs_later _ _ _ _ Rg).
Qed.

Lemma next_reads l : reads_token l (next l).
Proof.
  unfold next. destruct (skip_reads (rest l) false l eq_refl) as (g & Rg & Hg).
  fold (skipInsignificant l) in Rg, Hg. set (l1 := skipInsignificant l) in *. cbn zeta.
  destruct (rest l1) as [|ch s] eqn:E.
  { left. exists g. split; [done|]. split; [done|]. split; [done|].
    by rewrite (reads_pos _ _ _ Rg). }
  rewrite <- E in Hg. apply (reads_token_after l g l1 _ Rg Hg). fold (awaits_where (prev l1)).
  assert (Ho : opens_where ch l1 = Ascii.eqb ch "{" && awaits_where (prev l1)).
  { unfold opens_where, awaits_where. by rewrite andb_assoc. }
  rewrite Ho. destruct (Ascii.eqb ch "{" && awaits_where (prev l1)) eqn:Hw.
  { apply andb_true_iff in Hw as [Hch Hw]. apply ascii_eqb_true in Hch as ->.
    exact (lexWhereJSON_scans l1 s E Hw). }
  destruct (singleCharToken ch l1) as [r|] eqn:H1.
  { apply (singleCharToken_scans l1 ch s r E H1). intros ->. exact Hw. }
  destruct (twoCharToken ch l1) as [r|] eqn:H2; [exact (twoCharToken_scans l1 ch s r E H2)|].
  byte_case; [exact (lexArrow_scans l1 s E)|].
  byte_case; [exact (lexString_scans l1 s E)|].
  byte_case; [exact (lexVar_scans l1 s E)|].
  byte_case; [exact (lexRegex_scans l1 s E)|].
  destruct (isIdentStart ch) eqn:Hid; [|apply errs_here].
  destruct (ident_run l1 ch s E Hid) as (v & R & Hv).
  unfold lexIdent. rewrite E. exists v, v, TokIdent.
  split; [done|]. split; [by constructor|]. split; [auto|]. by rewrite (reads_lexeme _ _ _ R).
Qed.

Lemma lex_loop_lexed fuel : ∀ l out, (length (rest l) < fuel)%nat →
  ∃ r, lex_loop fuel l out = Some r ∧
    match r with
    | Ok ts => ∃ toks, ts = out ++ toks ∧ lexed (prev l) (pos l) (rest l) toks
    | Err e => errs_in l e
    end.
Proof.
  induction fuel as [|fuel IH]; [lia|]. intros l out Hf. cbn [lex_loop].
  pose proof (next_reads l) as H. destruct (next l) as [[tok l']|e]; [|by exists (Err e)].
  destruct H as [(g & R & Hg & Hr & ->)|(g & s & v & k & R & Hg & Hs & Hc & ->)].
  - rewrite decide_True by done. eexists. split; [done|]. cbn. eexists. split; [done|].
    rewrite (reads_rest _ _ _ R), Hr, app_nil_r. by constructor.
  - rewrite decide_False by exact (spelled_not_eof _ _ _ Hs).
    pose proof (spelled_not_nil _ _ _ Hs) as Hn.
    match goal with |- context [lex_loop fuel ?l1 ?o] => set (l2 := l1); set (out' := o) end.
    destruct (IH l2 out') as (r & -> & Hr).
    { cbn. rewrite (reads_rest _ _ _ R), !length_app in Hf. destruct s; [done|]. cbn in Hf. lia. }
    exists r. split; [done|]. destruct r as [ts|e].
    + destruct Hr as (toks & -> & Hl). eexists (_ :: toks).
      split; [unfold out'; rewrite <- app_assoc; reflexivity|].
      rewrite (reads_rest _ _ _ R), <- app_assoc. cbn in Hl.
      rewrite (reads_pos _ _ _ R) in Hl. exact (lexed_token _ _ g s k v _ _ _ Hg Hs Hc eq_refl Hl).
    + destruct Hr as (s' & t & Es & He). exists ((g ++ s) ++ s'), t. cbn in Es, He.
      rewrite (reads_rest _ _ _ R), Es, <- app_assoc. split; [by rewrite !app_assoc|].
      by rewrite He, (reads_pos _ _ _ R), (after_app _ (g ++ s)).
Qed.

(** C28: Every source is lexed or refused: a token stream ends with the only end-of-input
    token, spells the whole source, blanks and comments apart, with each token at the
    line and column its bytes start at and where-trees exactly after [where] and
    [filter]; and an error is at a position of the source. *)
Theorem Lex_sound (src : list ascii) :
  ∃ r, Lex src = Some r ∧
    match r with
    | Ok toks => lexed zero_token {| Line := 1; Col := 1 |} src toks
    | Err e => ∃ s t, src = s ++ t ∧ ErrPos e = after {| Line := 1; Col := 1 |} s
    end.
Proof.
  destruct (lex_loop_lexed (S (length src)) (start_lexer src) [] ltac:(cbn; lia)) as (r & H & Hr).
  exists r. split; [exact H|]. destruct r as [ts|e]; [|exact Hr].
  destruct Hr as (toks & -> & Hl). exact Hl.
Qed.

(** ** Completeness of the lexer: spelled tokens are read back *)

(** Where a token ends: at the end of the source, a blank, a newline or a comment. *)
Definition is_cut (c : ascii) : bool := is_blank c || Ascii.eqb c newline || Ascii.eqb c "#".

Definition cut (s : list ascii) : Prop := match s with [] => True | c :: _ => is_cut c = true end.

Lemma is_cut_part c : is_cut c = true → isIdentPart c = false.
Proof.
  unfold is_cut, is_blank. intros H. repeat (apply orb_true_iff in H as [H|H]); apply ascii_eqb_true in H as ->; done.
Qed.

Lemma skip_start l c s : rest l = c :: s → is_blank c = false → c ≠ "#"%char →
  skipInsignificant l = l.
Proof.
  intros E Hb Hc. unfold skipInsignificant. rewrite E. cbn [skip]. fold (is_blank c).
  by rewrite Hb, (ascii_eqb_ne c "#" Hc).
Qed.

(** The token [k], [v] at the cursor, before [t]. *)
Definition reads_back (l : lexer) (k : TokenKind) (v t : list ascii) : Prop :=
  ∃ l', next l = Ok ({| Kind := k; Value := String.string_of_list_ascii v; Pos := pos l |}, l') ∧
    rest l' = t.

Lemma lexString_loop_complete p s v : string_body s v → ∀ l buf t,
  rest l = s ++ quote :: t →
  ∃ l', lexString_loop p (s ++ quote :: t) l buf
    = Ok ({| Kind := TokString; Value := String.string_of_list_ascii (buf ++ v); Pos := p |}, l') ∧
    rest l' = t.
Proof.
  induction 1 as [|c s v H1 H2 H3 H IH|e s v He H IH]; intros l buf t E; cbn [app] in *.
  - destruct (reads_advance l _ t E) as [_ E1]. exists (advance l). by rewrite app_nil_r.
  - destruct (reads_advance l c _ E) as [_ E1].
    destruct (IH _ (buf ++ [c]) t E1) as (l' & Hl & Hr). exists l'. split; [|done].
    cbn [lexString_loop]. rewrite !ascii_eqb_ne by done. by rewrite Hl, <- app_assoc.
  - destruct (reads_advance2 l _ e _ E) as [_ E1].
    destruct (IH _ (buf ++ [unescape e]) t E1) as (l' & Hl & Hr). exists l'. split; [|done].
    cbn [lexString_loop]. rewrite (ascii_eqb_ne backslash newline), (ascii_eqb_ne backslash quote),
      Ascii.eqb_refl, (ascii_eqb_ne e) by done. by rewrite Hl, <- app_assoc.
Qed.

Lemma regex_body_head s v : regex_body s v → head s ≠ Some "/"%char.
Proof. intros H. inversion H; subst; cbn; [done|congruence|discriminate]. Qed.

Lemma lexRegex_loop_complete p s v : regex_body s v → ∀ l buf t,
  rest l = s ++ "/"%char :: t →
  ∃ l', lexRegex_loop p (s ++ "/"%char :: t) l buf
    = Ok ({| Kind := TokRegex; Value := String.string_of_list_ascii (buf ++ v); Pos := p |}, l') ∧
    rest l' = t.
Proof.
  induction 1 as [|c s v H1 H2 H3 H IH|s v H IH]; intros l buf t E; cbn [app] in *.
  - destruct (reads_advance l _ t E) as [_ E1]. exists (advance l). by rewrite app_nil_r.
  - destruct (reads_advance l c _ E) as [_ E1].
    destruct (IH _ (buf ++ [c]) t E1) as (l' & Hl & Hr). exists l'. split; [|done].
    cbn [lexRegex_loop]. rewrite (ascii_eqb_ne c newline), (ascii_eqb_ne c "/") by done.
    rewrite <- app_assoc in Hl. cbn [app] in Hl. rewrite <- Hl.
    destruct (s ++ "/"%char :: t) as [|d s'] eqn:Es; [done|].
    destruct (Ascii.eqb c backslash && Ascii.eqb d "/") eqn:Hcd; [|done].
    apply andb_true_iff in Hcd as [Hc Hd]. apply ascii_eqb_true in Hc as ->, Hd as ->.
    apply regex_body_head in H. specialize (H3 eq_refl). destruct s as [|d s]; [done|].
    injection Es as -> _. done.
  - destruct (reads_advance2 l _ _ _ E) as [_ E1].
    destruct (IH _ (buf ++ ["/"%char]) t E1) as (l' & Hl & Hr). exists l'. split; [|done].
    rewrite <- app_assoc in Hl. exact Hl.
Qed.

Lemma isIdentStart_dispatch c : isIdentStart c = true →
  is_blank c = false ∧ singleCharKinds c = None ∧
  Forall (λ d, c ≠ d) [":"; "~"; "!"; "-"; quote; "$"; "/"; "{"; "#"]%char.
Proof.
  intros H. assert (Hne : ∀ d, isIdentStart d = false → c ≠ d) by (intros d Hd ->; congruence).
  split; [|split].
  - unfold is_blank. by rewrite !ascii_eqb_ne by (apply Hne; reflexivity).
  - unfold singleCharKinds. by rewrite !ascii_eqb_ne by (apply Hne; reflexivity).
  - repeat (apply Forall_cons; split; [by apply Hne|]). apply Forall_nil_2.
Qed.

Lemma ident_exact l v t : is_ident v → cut t → rest l = v ++ t →
  reads l v (advance_while isIdentPart (v ++ t) l) ∧ rest (advance_while isIdentPart (v ++ t) l) = t.
Proof.
  intros Hv Ht E. apply advance_while_exact; [exact E| |].
  - destruct v as [|c v]; [done|]. destruct Hv as [Hc Hv].
    constructor; [by apply isIdentStart_part|done].
  - destruct t as [|c t]; [done|]. by apply is_cut_part.
Qed.

Lemma next_dispatch l c s : rest l = c :: s → is_blank c = false → c ≠ "#"%char →
  next l = if Ascii.eqb c "{" && awaits_where (prev l) then lexWhereJSON l
    else match singleCharToken c l with
    | Some r => Ok r
    | None => match twoCharToken c l with
      | Some r => Ok r
      | None =>
          if Ascii.eqb c "-" then lexArrow l
          else if Ascii.eqb c quote then lexString l
          else if Ascii.eqb c "$" then lexVar l
          else if Ascii.eqb c "/" then lexRegex l
          else if isIdentStart c then Ok (lexIdent l)
          else errorf l (UnexpectedByte c)
      end
    end.
Proof.
  intros E Hb Hc. unfold next. rewrite (skip_start l c s E Hb Hc), E.
  assert (Ho : opens_where c l = Ascii.eqb c "{" && awaits_where (prev l)).
  { unfold opens_where, awaits_where. by rewrite andb_assoc. }
  by rewrite Ho.
Qed.

Lemma read_ident l v t : is_ident v → cut t → rest l = v ++ t → reads_back l TokIdent v t.
Proof.
  intros Hv Ht E. destruct (ident_exact l v t Hv Ht E) as [R Er].
  destruct v as [|c v]; [done|]. pose proof (proj1 Hv) as Hc.
  destruct (isIdentStart_dispatch c Hc) as (Hb & Hs & Hne).
  repeat (apply Forall_cons in Hne as [? Hne]).
  unfold reads_back. rewrite (next_dispatch l c (v ++ t) E) by done.
  unfold singleCharToken, twoCharToken. rewrite Hs, !ascii_eqb_ne by done. cbn [andb mbind option_bind].
  rewrite Hc. unfold lexIdent. rewrite E. cbn zeta. rewrite (reads_lexeme _ _ _ R). eauto.
Qed.

Lemma read_var l v t : is_ident v → cut t → rest l = "$"%char :: v ++ t → reads_back l TokVar v t.
Proof.
  intros Hv Ht E. destruct (reads_advance l _ _ E) as [_ E1].
  destruct (ident_exact (advance l) v t Hv Ht E1) as [R Er].
  unfold reads_back. rewrite (next_dispatch l _ _ E) by done. cbn.
  unfold lexVar. rewrite E1. destruct v as [|c v]; [done|]. cbn [app] in *.
  rewrite (proj1 Hv). cbn [negb]. rewrite (reads_lexeme _ _ _ R). eauto.
Qed.

Lemma read_rel_arrow l v t : no_newline v → "]"%char ∉ v →
  rest l = ["-"; "-"; "["]%char ++ v ++ ["]"; "-"; "-"; ">"]%char ++ t →
  reads_back l TokRelArrow v t.
Proof.
  intros Hn Hb E. cbn [app] in E. destruct (reads_advance2 l _ _ _ E) as [_ E2].
  destruct (reads_advance _ _ _ E2) as [_ E3].
  destruct (advance_while_exact (λ c, negb (Ascii.eqb c "]") && negb (Ascii.eqb c newline)) v
              ("]"%char :: "-"%char :: "-"%char :: ">"%char :: t) _ E3) as [R Er]; [|done|].
  { apply Forall_forall. intros c Hc. rewrite !ascii_eqb_ne; [done| |]; congruence. }
  unfold reads_back. rewrite (next_dispatch l _ _ E) by done. cbn.
  unfold lexArrow. rewrite (peek1 _ _ _ _ E). cbn [negb Ascii.eqb Bool.eqb].
  rewrite E2. cbn [head]. rewrite bool_decide_true by done. unfold lexRelArrow. rewrite E3.
  set (l1 := advance_while _ _ _) in *. rewrite Er. cbn [head]. rewrite bool_decide_false by (intros []; done).
  destruct (reads_advance l1 _ _ Er) as [_ E4].
  destruct (reads_many _ ["-"; "-"; ">"]%char t E4) as (l2 & _ & E5 & El2).
  unfold matchAhead. rewrite E4. cbn [String.length take firstn].
  rewrite bool_decide_true by done. cbn [negb]. rewrite (reads_lexeme _ _ _ R).
  eexists. split; [reflexivity|]. by rewrite El2 in E5.
Qed.

Lemma next_reads_back l k v s t : spelled k v s → in_context (prev l) k → cut t →
  rest l = s ++ t → reads_back l k v t.
Proof.
  intros Hs Hc Ht E. destruct Hs as [c k Hk| | | | |v Hn Hb|v s Hs|v Hv|v s Hs|v Hv|v Hv];
    cbn [app] in E; try (unfold reads_back; rewrite (next_dispatch l _ _ E) by done;
      unfold singleCharToken, twoCharToken; cbn; rewrite (peek1 _ _ _ _ E); cbn;
      destruct (reads_advance2 l _ _ _ E) as [_ E1]; by eauto).
  - assert (Hcase : is_blank c = false ∧ c ≠ "#"%char ∧ (c = "{"%char → k = TokLBrace)).
    { revert Hk. unfold singleCharKinds. byte_cases; intros [= <-]; by split_and!. }
    destruct Hcase as (Hb & Hh & Hl). unfold reads_back. rewrite (next_dispatch l _ _ E Hb Hh).
    assert (Hw : Ascii.eqb c "{" && awaits_where (prev l) = false).
    { destruct (Ascii.eqb c "{") eqn:Ec; [|done]. apply ascii_eqb_true in Ec.
      by apply (proj2 Hc), Hl. }
    rewrite Hw. unfold singleCharToken. rewrite Hk. cbn.
    destruct (reads_advance l _ _ E) as [_ E1]. eauto.
  - unfold reads_back. rewrite (next_dispatch l _ _ E) by done. cbn.
    unfold lexArrow. rewrite (peek1 _ _ _ _ E). cbn [negb Ascii.eqb Bool.eqb].
    destruct (reads_advance2 l _ _ _ E) as [_ E1]. destruct (reads_advance _ _ _ E1) as [_ E2].
    unfold matchAhead. rewrite E1. cbn [head String.length take firstn].
    rewrite bool_decide_false, bool_decide_true by done. cbn [negb]. eauto.
  - rewrite <- !app_assoc in E. by apply (read_rel_arrow l v t Hn Hb).
  - unfold reads_back. rewrite (next_dispatch l _ _ E) by done. cbn.
    destruct (reads_advance l _ _ E) as [_ E1]. rewrite <- app_assoc in E1. cbn [app] in E1.
    unfold lexString. rewrite E1.
    exact (lexString_loop_complete (pos l) s v Hs (advance l) [] t E1).
  - by apply read_var.
  - unfold reads_back. rewrite (next_dispatch l _ _ E) by done. cbn.
    destruct (reads_advance l _ _ E) as [_ E1]. rewrite <- app_assoc in E1. cbn [app] in E1.
    unfold lexRegex. rewrite E1.
    exact (lexRegex_loop_complete (pos l) s v Hs (advance l) [] t E1).
  - by apply read_ident.
  - destruct (lexWhereJSON_span l v _ Hv E) as (l' & _ & Er & Hl). exists l'. split; [|done].
    rewrite <- Hl. destruct Hv as (a & _ & ->). cbn [app] in E.
    rewrite (next_dispatch l _ _ E) by done. by rewrite (proj1 Hc eq_refl).
Qed.
(** ** Printing *)

Definition bytes (s : string) : list ascii := String.list_ascii_of_string s.

(** A token without its position. *)
Definition symbol : Type := TokenKind * string.

Definition symbol_of (t : Token) : symbol := (Kind t, Value t).

Fixpoint escape_string (v : list ascii) : list ascii :=
  match v with
  | [] => []
  | c :: v' =>
      (if Ascii.eqb c newline then [backslash; "n"%char]
       else if Ascii.eqb c quote || Ascii.eqb c backslash then [backslash; c]
       else [c]) ++ escape_string v'
  end.

Fixpoint escape_regex (v : list ascii) : list ascii :=
  match v with
  | [] => []
  | c :: v' => (if Ascii.eqb c "/" then [backslash; "/"%char] else [c]) ++ escape_regex v'
  end.

Definition spell (x : symbol) : list ascii :=
  let v := bytes x.2 in
  match x.1 with
  | TokString => quote :: escape_string v ++ [quote]
  | TokRegex => "/"%char :: escape_regex v ++ ["/"%char]
  | TokVar => "$"%char :: v
  | TokRelArrow => ["-"; "-"; "["]%char ++ v ++ ["]"; "-"; "-"; ">"]%char
  | _ => v
  end.

(** The symbols that have a spelling. *)
Definition printable (x : symbol) : Prop :=
  let v := bytes x.2 in
  match x.1 with
  | TokEOF => False
  | TokIdent | TokVar => is_ident v
  | TokString => True
  | TokRegex => no_newline v ∧ last v ≠ Some backslash
  | TokRelArrow => no_newline v ∧ "]"%char ∉ v
  | TokWhereJSON => where_span v
  | TokArrow => x.2 = "-->"
  | TokColonEq => x.2 = ":="
  | TokTildeEq => x.2 = "~="
  | TokBangTilde => x.2 = "!~"
  | k => ∃ c, singleCharKinds c = Some k ∧ x.2 = String c ""
  end.

Definition print_with (sep : list ascii) (xs : list symbol) : list ascii :=
  concat ((λ x, spell x ++ sep) <$> xs).

Definition print : list symbol → list ascii := print_with [" "%char].

(** The symbols laid out in a source: blanks and comments before each and at the end, and each
    apart from the next. *)
Inductive laid : list symbol → list ascii → Prop :=
| laid_end g : gap g [] → laid [] g
| laid_symbol g x xs s : gap g (spell x ++ s) → cut s → laid xs s → laid (x :: xs) (g ++ spell x ++ s).

(** Where-trees stand after [where] and [filter], and no other brace does. *)
Fixpoint in_contexts (before : Token) (xs : list symbol) : Prop :=
  match xs with
  | [] => True
  | x :: xs' => in_context before x.1 ∧
      in_contexts {| Kind := x.1; Value := x.2; Pos := Pos before |} xs'
  end.

Lemma escape_string_body v : string_body (escape_string v) v.
Proof.
  induction v as [|c v IH]; [constructor|]. cbn [escape_string]. byte_case.
  - by apply (sb_escape "n"%char).
  - destruct (Ascii.eqb c quote || Ascii.eqb c backslash) eqn:E.
    + assert (Hc : unescape c = c ∧ c ≠ Ascii.zero).
      { apply orb_true_iff in E as [E|E]; apply ascii_eqb_true in E as ->; done. }
      rewrite <- (proj1 Hc) at 2. constructor; [apply Hc|done].
    + apply orb_false_iff in E as [E1 E2]. apply ascii_eqb_false in E1, E2. by constructor.
Qed.

Lemma escape_regex_body v : no_newline v → last v ≠ Some backslash →
  regex_body (escape_regex v) v.
Proof.
  induction v as [|c v IH]; intros Hn Hl; [constructor|]. cbn [escape_regex].
  apply not_elem_of_cons in Hn as [Hc Hn].
  assert (IHv : regex_body (escape_regex v) v).
  { apply IH; [done|]. destruct v as [|d v]; [done|]. by rewrite last_cons_cons in Hl. }
  byte_case; [by constructor|]. constructor; [congruence|done| |done].
  intros -> Hv. destruct v as [|d v]; [done|]. cbn [escape_regex] in Hv.
  by destruct (Ascii.eqb d "/").
Qed.

Lemma spell_spelled k v : printable (k, v) → spelled k (bytes v) (spell (k, v)).
Proof.
  destruct k; cbn [printable spell fst snd]; intros H; try done;
    try (destruct H as (c & Hc & ->); by apply (sp_single c));
    try (subst v; constructor); try (by constructor).
  - constructor. apply escape_string_body.
  - destruct H as [Hn Hl]. apply sp_regex. by apply escape_regex_body.
  - by destruct H; constructor.
Qed.

Lemma next_end l : rest l = [] → next l = Ok ({| Kind := TokEOF; Value := ""; Pos := pos l |}, l).
Proof.
  intros E. unfold next, skipInsignificant. rewrite E. cbn [skip]. by rewrite E.
Qed.

Lemma in_context_same t t' k : symbol_of t = symbol_of t' → in_context t k → in_context t' k.
Proof. unfold symbol_of. intros [= H1 H2]. unfold in_context, awaits_where. by rewrite H1, H2. Qed.

Lemma in_contexts_same xs : ∀ t t', symbol_of t = symbol_of t' → in_contexts t xs → in_contexts t' xs.
Proof.
  induction xs as [|x xs IH]; intros t t' H; [done|]. intros [H1 H2].
  split; [exact (in_context_same t t' _ H H1)|]. by eapply IH; [|exact H2].
Qed.

(** Blanks and comments are skipped up to a token. *)
Definition token_start (s : list ascii) : Prop :=
  match s with [] => True | c :: _ => is_blank c = false ∧ c ≠ "#"%char end.

Lemma skip_comment b s : no_newline b → (s = [] ∨ head s = Some newline) → ∀ l, rest l = b ++ s →
  rest (skip true (b ++ s) l) = s ∧ prev (skip true (b ++ s) l) = prev l.
Proof.
  intros Hb Hs. induction b as [|c b IH]; intros l E; cbn [app] in *.
  - destruct s as [|c s]; [by cbn|]. destruct Hs as [Hs|Hs]; [done|]. cbn in Hs. injection Hs as ->. cbn [skip].
    by rewrite Ascii.eqb_refl.
  - apply not_elem_of_cons in Hb as [Hc Hb]. cbn [skip]. rewrite (ascii_eqb_ne c newline) by congruence.
    destruct (reads_advance l _ _ E) as [R E1]. destruct (IH Hb _ E1) as [H1 H2]. split; [done|].
    by rewrite H2, (reads_prev _ _ _ R).
Qed.

Lemma skip_gap g s l : gap g s → token_start s → rest l = g ++ s →
  rest (skipInsignificant l) = s ∧ prev (skipInsignificant l) = prev l.
Proof.
  intros (ws & cm & -> & Hws & Hcm) Hs. unfold skipInsignificant. revert l.
  induction Hws as [|c ws Hc _ IH]; intros l E; cbn [app] in *.
  - rewrite E. destruct Hcm as [->|(b & -> & Hb & Hn)].
    + cbn [app] in *. destruct s as [|c s]; [by cbn|]. cbn [skip]. fold (is_blank c). destruct Hs as [H1 H2].
      by rewrite H1, (ascii_eqb_ne c "#" H2).
    + cbn [app skip]. cbn [Ascii.eqb Bool.eqb orb tab carriage_return].
      destruct (reads_advance l _ _ E) as [R E1].
      destruct (skip_comment b s Hb Hn _ E1) as [H1 H2]. split; [exact H1|]. by rewrite <- (reads_prev _ _ _ R).
  - rewrite E. cbn [skip]. fold (is_blank c). rewrite Hc. destruct (reads_advance l _ _ E) as [R E1].
    destruct (IH _ E1) as [H1 H2]. rewrite E1 in H1, H2. split; [exact H1|]. by rewrite H2, (reads_prev _ _ _ R).
Qed.

Lemma spelled_start k v s t : spelled k v s → token_start (s ++ t).
Proof.
  intros H. destruct H as [c k Hk| | | | |v Hn Hb|v s Hs|v Hv|v s Hs|v Hv|v (a & _ & ->)]; cbn; try done.
  - revert Hk. unfold singleCharKinds. byte_cases; intros [= <-]; done.
  - destruct v as [|c v]; [done|]. destruct (isIdentStart_dispatch c (proj1 Hv)) as (H & _ & Hne). split; [exact H|].
    by repeat (apply Forall_cons in Hne as [? Hne]).
Qed.

Lemma next_skips l : (∀ c s, rest (skipInsignificant l) = c :: s → is_blank c = false ∧ c ≠ "#"%char) →
  next l = next (skipInsignificant l).
Proof.
  intros H. unfold next. set (l1 := skipInsignificant l) in *.
  assert (skipInsignificant l1 = l1) as ->; [|done].
  destruct (rest l1) as [|c s] eqn:E; [unfold skipInsignificant; by rewrite E|].
  destruct (H c s eq_refl) as [H1 H2]. exact (skip_start l1 c s E H1 H2).
Qed.

Lemma lex_loop_laid fuel : ∀ xs s l out, laid xs s → rest l = s → (length xs < fuel)%nat →
  Forall printable xs → in_contexts (prev l) xs →
  ∃ toks, lex_loop fuel l out = Some (Ok (out ++ toks)) ∧
    symbol_of <$> toks = xs ++ [(TokEOF, "")].
Proof.
  induction fuel as [|fuel IH]; [lia|]. intros xs s l out Hl E Hf Hp Hc. cbn [lex_loop].
  destruct Hl as [g Hg|g [k v] xs s Hg Hs Hl].
  - destruct (skip_gap g [] l Hg I ltac:(by rewrite app_nil_r)) as [E1 _].
    rewrite next_skips by (rewrite E1; done). rewrite (next_end _ E1). cbn [Kind]. rewrite decide_True by done. by eexists [_].
  - apply Forall_cons in Hp as [Hkv Hp]. destruct Hc as [Hc1 Hc2].
    pose proof (spell_spelled k v Hkv) as Hsp. pose proof (spelled_start _ _ _ s Hsp) as Hts.
    destruct (skip_gap g _ l Hg Hts E) as [E1 V1]. set (l1 := skipInsignificant l) in *. rewrite <- V1 in Hc1.
    rewrite next_skips by (fold l1; intros c s' Ec; rewrite E1 in Ec; by rewrite Ec in Hts). fold l1.
    destruct (next_reads_back l1 k _ _ _ Hsp Hc1 Hs E1) as (l' & -> & Er).
    cbn [Kind]. rewrite decide_False by exact (spelled_not_eof _ _ _ Hsp).
    unfold bytes. rewrite String.string_of_list_ascii_of_string.
    set (tok := {| Kind := k; Value := v; Pos := pos l1 |}).
    edestruct (IH xs s {| rest := rest l'; pos := pos l'; prev := tok |} (out ++ [tok]))
      as (toks & -> & Ht); [done|exact Er|cbn in Hf; lia|done| |].
    { eapply in_contexts_same; [|exact Hc2]. done. }
    exists (tok :: toks). rewrite <- app_assoc. split; [done|]. cbn. by rewrite Ht.
Qed.

Lemma spelled_length k v s : spelled k v s → (0 < length s)%nat.
Proof.
  intros H. destruct H as [| | | | | | | | |v Hv|v (a & _ & ->)]; cbn; try lia. destruct v; [done|cbn; lia].
Qed.

Lemma laid_length xs s : Forall printable xs → laid xs s → (length xs ≤ length s)%nat.
Proof.
  intros Hp Hl. induction Hl as [|g [k v] xs s _ _ _ IH]; [cbn; lia|]. apply Forall_cons in Hp as [Hkv Hp].
  pose proof (spelled_length _ _ _ (spell_spelled k v Hkv)). specialize (IH Hp). rewrite !length_app. cbn [length]. lia.
Qed.

Lemma lex_laid_runs (xs : list symbol) (s : list ascii) (Hlaid : laid xs s) (Hprint : Forall printable xs)
    (Hcontext : in_contexts zero_token xs) :
  ∃ toks, Lex s = Some (Ok toks) ∧ symbol_of <$> toks = xs ++ [(TokEOF, "")].
Proof.
  destruct (lex_loop_laid (S (length s)) xs s (start_lexer s) [])
    as (toks & H & Ht); [done|done| |done|done|by exists toks].
  pose proof (laid_length xs s Hprint Hlaid). lia.
Qed.

(** Symbols with the same blanks between them are laid out. *)
Lemma print_laid sep xs : sep ≠ [] → Forall (λ c, is_blank c = true) sep →
  ∀ g, Forall (λ c, is_blank c = true) g → laid xs (g ++ print_with sep xs).
Proof.
  intros Hne Hsep. assert (∀ g s, Forall (λ c, is_blank c = true) g → gap g s) as Hgap.
  { intros g s Hg. exists g, []. rewrite app_nil_r. auto. }
  induction xs as [|x xs IH]; intros g Hg.
  - change (print_with sep []) with (@nil ascii). rewrite app_nil_r. constructor. by apply Hgap.
  - change (print_with sep (x :: xs)) with ((spell x ++ sep) ++ print_with sep xs). rewrite <- app_assoc.
    constructor; [by apply Hgap| |by apply IH].
    destruct sep as [|c sep]; [done|]. apply Forall_cons in Hsep as [Hc _]. cbn. unfold is_cut. by rewrite Hc.
Qed.

(** Lexing undoes printing: symbols written out with a blank after each, strings and
    patterns escaped, are read back as they were, ended by the end of input. *)
Theorem Lex_print_roundtrip (xs : list symbol) (Hprint : Forall printable xs)
    (Hcontext : in_contexts zero_token xs) :
  ∃ toks, Lex (print xs) = Some (Ok toks) ∧ symbol_of <$> toks = xs ++ [(TokEOF, "")].
Proof.
  apply lex_laid_runs; [|done|done]. apply (print_laid [" "%char] xs ltac:(done) ltac:(by repeat constructor) []). constructor.
Qed.

Module Samples.
Definition kinds (s : string) : option (result LexError (list (TokenKind * string))) :=
  match Lex (bytes s) with
  | Some (Ok ts) => Some (Ok ((λ t, (Kind t, Value t)) <$> ts))
  | Some (Err e) => Some (Err e)
  | None => None
  end.

Example filter_rule : kinds "filter {}#x
emit a-b { n := $p.q !~ /^\/x/ } --[r]-->" = Some (Ok
  [(TokIdent, "filter"); (TokWhereJSON, "{}"); (TokNewline, String newline ""); (TokIdent, "emit");
   (TokIdent, "a-b"); (TokLBrace, "{"); (TokIdent, "n"); (TokColonEq, ":="); (TokVar, "p");
   (TokDot, "."); (TokIdent, "q"); (TokBangTilde, "!~"); (TokRegex, "^/x"); (TokRBrace, "}");
   (TokRelArrow, "r"); (TokEOF, "")]).
Proof. vm_compute. reflexivity. Qed.

Example bad_byte : kinds "a
 ;" = Some (Err {| ErrPos := {| Line := 2; Col := 2 |}; Msg := UnexpectedByte ";" |}).
Proof. vm_compute. reflexivity. Qed.

Definition filter_symbols : list symbol :=
  [(TokIdent, "filter"); (TokWhereJSON, "{}"); (TokIdent, "bind"); (TokVar, "x");
   (TokColonEq, ":="); (TokString, String quote (String newline "a")); (TokTildeEq, "~=");
   (TokRegex, "^/x"); (TokRelArrow, "to")].
End Samples.

Lemma where_span_exact_witness :
  ∃ l tok l', head (rest l) = Some "{"%char ∧ lexWhereJSON l = Ok (tok, l') ∧
    ∃ v, where_span v ∧ reads l v l' ∧
      tok = {| Kind := TokWhereJSON; Value := String.string_of_list_ascii v; Pos := pos l |}.
Proof.
  eexists (start_lexer (bytes "{a{}} }")), _, _. split; [reflexivity|]. split; [reflexivity|].
  apply (where_span_exact (start_lexer (bytes "{a{}} }"))); reflexivity.
Defined.

Lemma Lex_print_roundtrip_witness :
  ∃ toks, Lex (print Samples.filter_symbols) = Some (Ok toks) ∧
    symbol_of <$> toks = Samples.filter_symbols ++ [(TokEOF, "")].
Proof.
  apply Lex_print_roundtrip.
  - assert (Hspan : where_span (bytes "{}")) by (exists []; split; [constructor|reflexivity]).
    repeat (apply Forall_cons; split); try apply Forall_nil_2; cbn;
      first [exact Hspan | exact I | reflexivity | idtac].
    1-3: repeat constructor.
    + split; [|discriminate]. unfold no_newline. apply (bool_decide_unpack _). reflexivity.
    + split; apply (bool_decide_unpack _); reflexivity.
  - repeat split; intros; try discriminate.
Defined.
