(* ===== verification/RecipeParse.v ===== *)
(** * The recipe language: syntax tree, parser, scoping of field heads

    [internal/recipe/ast.go], [parser.go], [parser_expr.go], [parser_helpers.go],
    [parser_heads.go] and [ParseWhereTree] of [where_tree.go].

    A parser is a function on the tokens from the cursor on.  The decoding of a where-tree
    by [encoding/json] is a parameter.  As in [RecipeLex.v] the text of a message is not
    rendered: [preason] has one constructor per format string, with its arguments. *)

From S2P Require Import Prelude Gostd RecipeLex.
From Stdlib Require Import Ascii.

#[local] Open Scope Z_scope.

(** ** The syntax tree *)

Record KindLeaf := { KindOf : string; KindIs : list string }.
Record MatchesLeaf := { MatchesOf : string; MatchesRegex : string }.
Record EqualsLeaf := { EqualsOf : string; EqualsValue : string }.
Record ExistsLeaf := { ExistsOf : string }.
Record CompareLeaf := { CompareOf : string; CompareOp : string; CompareValue : string }.

(** A where-tree; [None] is a nil node.  An edge leaf is its edge and its sub-tree. *)
#[warnings="-register-all"]
Inductive WhereNode := MkWhere {
  WAll : list (option WhereNode);
  WAny : list (option WhereNode);
  WNot : option WhereNode;
  WKind : option KindLeaf;
  WMatches : option MatchesLeaf;
  WEquals : option EqualsLeaf;
  WExists : option ExistsLeaf;
  WCompare : option CompareLeaf;
  WAncestor : option (string * option WhereNode);
  WDescendant : option (string * option WhereNode);
}.

#[warnings="-register-all"]
Inductive Expr :=
| ExprField (Path : list string) (At : Position)
| ExprLit (Literal : string) (At : Position)
| ExprVar (Name : string) (At : Position)
| ExprRegex (LHS : Expr) (Pattern : string) (Negate : bool) (At : Position)
| ExprFunc (Name : string) (Args : list Expr) (At : Position).

Inductive Rule :=
| RuleSelect (NodeType : string) (Where : option WhereNode) (At : Position)
| RuleTraverse (EdgeType Direction As : string) (At : Position)
| RuleWalk (EdgeType As : string) (At : Position)
| RuleFilter (Where : WhereNode) (At : Position)
| RuleBind (Var : string) (Val : Expr) (At : Position)
| RuleGroupBy (Key : Expr) (At : Position)
| RuleEmit (NodeType : string) (Fields : gmap string Expr) (As : string) (At : Position)
| RuleLookup (NodeType : string) (Identity : Expr) (As : string) (At : Position)
| RuleLink (From : Expr) (Rel : string) (To : Expr) (At : Position)
| RuleSourceRef (Ref : Expr) (At : Position).

Record Recipe := { Rules : list Rule; RecipePos : Position }.

Inductive preason :=
| LexFailed (r : reason)
| ExpectedRuleKeyword (got : string)
| UnknownRuleKeyword (got : string)
| Expected (label got : string)
| BadWherePredicate (keyword got : string)
| EmptyWhereTree
| WhereTreeRejected (err : string)
| BadDirection (got : string)
| ExpectedVar (keyword : string)
| ExpectedBy (got : string)
| ExpectedAsAfterIdentity
| ExpectedRelArrow
| EmitWithoutIdentity (node_type : string)
| DuplicateField (name : string)
| ExpectedPattern (op got : string)
| UnexpectedToken (got : string)
| ExpectedPathHead
| NoRowToRead (field : string)
| UnknownHead (field : string) (legal : list string).

Record ParseError := { PErrPos : Position; PMsg : preason }.

(** ** The parser monad: the cursor, errors, and fuel *)

Definition parser (A : Type) : Type := list Token → fueled ParseError (A * list Token).

#[export] Instance parser_ret : MRet parser := λ A a ts, Some (Ok (a, ts)).
#[export] Instance parser_bind : MBind parser := λ A B f m ts,
  match m ts with
  | Some (Ok (a, ts')) => f a ts'
  | Some (Err e) => Some (Err e)
  | None => None
  end.

Definition out_of_fuel {A} : parser A := λ _, None.

Definition errorf {A} (at_ : Token) (r : preason) : parser A := λ _,
  Some (Err {| PErrPos := Pos at_; PMsg := r |}).

Definition lift {A} (r : result ParseError A) : parser A := λ ts,
  match r with Ok a => Some (Ok (a, ts)) | Err e => Some (Err e) end.

(** The token under a cursor; past the end it has no position. *)
Definition token_at (ts : list Token) : Token := default zero_token (head ts).

Definition peek : parser Token := λ ts, Some (Ok (token_at ts, ts)).

Definition lookahead (n : nat) : parser Token := λ ts,
  Some (Ok (default zero_token (ts !! n), ts)).

Definition consume : parser Token := λ ts, Some (Ok (token_at ts, tail ts)).

Definition is_word (name : string) (t : Token) : bool :=
  bool_decide (Kind t = TokIdent) && bool_decide (Value t = name).

Definition matchIdent (name : string) : parser bool :=
  t ← peek; mret (is_word name t).

Definition expect (kind : TokenKind) (label : string) : parser unit :=
  t ← peek;
  if decide (Kind t = kind) then _ ← consume; mret tt
  else errorf t (Expected label (Value t)).

Definition expectIdent (label : string) : parser Token :=
  t ← peek;
  if decide (Kind t = TokIdent) then _ ← consume; mret t
  else errorf t (Expected label (Value t)).

Fixpoint drop_kinds (skipped : TokenKind → bool) (ts : list Token) : list Token :=
  match ts with
  | t :: ts' => if skipped (Kind t) then drop_kinds skipped ts' else ts
  | [] => []
  end.

Definition skipNewlines : parser unit := λ ts,
  Some (Ok (tt, drop_kinds (λ k, bool_decide (k = TokNewline)) ts)).

Definition skipSeparators : parser unit := λ ts,
  Some (Ok (tt, drop_kinds (λ k, bool_decide (k = TokNewline) || bool_decide (k = TokComma)) ts)).

(** ** Expressions *)

Fixpoint path_loop (fuel : nat) : parser (list string) :=
  match fuel with
  | O => out_of_fuel
  | S fuel' =>
      t ← peek;
      if decide (Kind t = TokDot) then
        _ ← consume;
        seg ← expectIdent "field name after '.'";
        path ← path_loop fuel';
        mret (Value seg :: path)
      else mret []
  end.

Definition parseVarPath (fuel : nat) : parser Expr :=
  head ← consume;
  first ← match Kind head with
          | TokVar => mret ("$" +:+ Value head)
          | TokIdent => mret (Value head)
          | _ => errorf head ExpectedPathHead
          end;
  path ← path_loop fuel;
  match path with
  | [] => if decide (Kind head = TokVar) then mret (ExprVar (Value head) (Pos head))
          else mret (ExprField [first] (Pos head))
  | _ => mret (ExprField (first :: path) (Pos head))
  end.

(** [expr] and [args] are the parsers of nested expressions and of a non-empty argument
    list. *)
Definition parseFuncCall (args : parser (list Expr)) : parser Expr :=
  name ← consume;
  _ ← expect TokLParen "'('";
  t ← peek;
  es ← (if decide (Kind t = TokRParen) then mret [] else args);
  _ ← expect TokRParen "')'";
  mret (ExprFunc (Value name) es (Pos name)).

Definition parsePrimary (fuel : nat) (expr : parser Expr) (args : parser (list Expr)) : parser Expr :=
  t ← peek;
  match Kind t with
  | TokString => _ ← consume; mret (ExprLit (Value t) (Pos t))
  | TokVar => parseVarPath fuel
  | TokIdent =>
      t1 ← lookahead 1;
      if decide (Kind t1 = TokLParen) then parseFuncCall args else parseVarPath fuel
  | TokLParen =>
      _ ← consume;
      inner ← expr;
      _ ← expect TokRParen "')'";
      mret inner
  | _ => errorf t (UnexpectedToken (Value t))
  end.

Fixpoint parseExpr (fuel : nat) : parser Expr :=
  match fuel with
  | O => out_of_fuel
  | S fuel' =>
      lhs ← parsePrimary fuel' (λ ts, parseExpr fuel' ts) (λ ts, parseArgs fuel' ts);
      op ← peek;
      if negb (bool_decide (Kind op = TokTildeEq)) && negb (bool_decide (Kind op = TokBangTilde))
      then mret lhs
      else
        _ ← consume;
        rt ← peek;
        if decide (Kind rt = TokRegex) then
          _ ← consume;
          mret (ExprRegex lhs (Value rt) (bool_decide (Kind op = TokBangTilde)) (Pos op))
        else errorf rt (ExpectedPattern (Value op) (Value rt))
  end
with parseArgs (fuel : nat) : parser (list Expr) :=
  match fuel with
  | O => out_of_fuel
  | S fuel' =>
      arg ← (λ ts, parseExpr fuel' ts) : parser Expr;
      t ← peek;
      if decide (Kind t = TokComma) then
        _ ← consume;
        rest ← (λ ts, parseArgs fuel' ts) : parser (list Expr);
        mret (arg :: rest)
      else mret [arg]
  end.

(** The fuel for the expressions of a token stream. *)
Definition expr_fuel (ts : list Token) : nat := 2 * length ts + 2.
Definition parse_expr : parser Expr := λ ts, parseExpr (expr_fuel ts) ts.

(** ** Rules *)

Section Where.
  (** [strictUnmarshal] into a where-node, of a trimmed text; the error is its message. *)
Context (strictUnmarshal : string → result string WhereNode).

Definition ParseWhereTree (data : string) (p : Position) : result ParseError WhereNode :=
    let trimmed := TrimSpace data in
    if bool_decide (trimmed = "") || bool_decide (trimmed = "null") then
      Err {| PErrPos := p; PMsg := EmptyWhereTree |}
    else match strictUnmarshal trimmed with
    | Ok w => Ok w
    | Err e => Err {| PErrPos := p; PMsg := WhereTreeRejected e |}
    end.

Definition parseWhereTreeClause (keyword : string) : parser WhereNode :=
    tok ← peek;
    if decide (Kind tok = TokWhereJSON) then
      _ ← consume; lift (ParseWhereTree (Value tok) (Pos tok))
    else errorf tok (BadWherePredicate keyword (Value tok)).

Definition parseSelect : parser Rule :=
    kw ← consume;
    nt ← expectIdent "node type after 'select'";
    has ← matchIdent "where";
    if has : bool then
      _ ← consume;
      w ← parseWhereTreeClause "where";
      mret (RuleSelect (Value nt) (Some w) (Pos kw))
    else mret (RuleSelect (Value nt) None (Pos kw)).

  (** The variable that must follow a keyword. *)
Definition expectVar (keyword : string) : parser Token :=
    v ← peek;
    if decide (Kind v = TokVar) then _ ← consume; mret v else errorf v (ExpectedVar keyword).

  (** The optional tail [as $var]. *)
Definition parseAs : parser string :=
    has ← matchIdent "as";
    if has : bool then _ ← consume; v ← expectVar "as"; mret (Value v) else mret "".

Definition parseTraverse : parser Rule :=
    kw ← consume;
    edge ← expectIdent "edge type after 'traverse'";
    dir ← expectIdent "direction (in|out|both)";
    let d := ToLower (Value dir) in
    if bool_decide (d ≠ "in") && bool_decide (d ≠ "out") && bool_decide (d ≠ "both")
    then errorf dir (BadDirection (Value dir))
    else asName ← parseAs; mret (RuleTraverse (Value edge) d asName (Pos kw)).

Definition parseWalk : parser Rule :=
    kw ← consume;
    edge ← expectIdent "edge type after 'walk'";
    asName ← parseAs;
    mret (RuleWalk (Value edge) asName (Pos kw)).

Definition parseFilter : parser Rule :=
    kw ← consume; tree ← parseWhereTreeClause "filter"; mret (RuleFilter tree (Pos kw)).

Definition parseBind : parser Rule :=
    kw ← consume;
    v ← expectVar "bind";
    _ ← expect TokColonEq "':='";
    val ← parse_expr;
    mret (RuleBind (Value v) val (Pos kw)).

Definition parseGroupBy : parser Rule :=
    kw ← consume; e ← parse_expr; mret (RuleGroupBy e (Pos kw)).

Fixpoint field_loop (fuel : nat) (fields : gmap string Expr) : parser (gmap string Expr) :=
    match fuel with
    | O => out_of_fuel
    | S fuel' =>
        t ← peek;
        if bool_decide (Kind t = TokRBrace) || bool_decide (Kind t = TokEOF) then mret fields
        else
          name ← expectIdent "field name";
          _ ← expect TokColonEq "':='";
          val ← parse_expr;
          match fields !! Value name with
          | Some _ => errorf name (DuplicateField (Value name))
          | None => _ ← skipSeparators; field_loop fuel' (<[Value name := val]> fields)
          end
    end.

Definition field_map : parser (gmap string Expr) := λ ts, field_loop (S (length ts)) ∅ ts.

Definition parseFieldMap : parser (gmap string Expr) := _ ← skipNewlines; field_map.

Definition parseEmit : parser Rule :=
    kw ← consume;
    nt ← expectIdent "target node type after 'emit'";
    _ ← expect TokLBrace "'{'";
    fields ← parseFieldMap;
    if bool_decide (fields !! "name" = None) && bool_decide (fields !! "identity" = None)
    then errorf kw (EmitWithoutIdentity (Value nt))
    else
      _ ← expect TokRBrace "'}'";
      asName ← parseAs;
      mret (RuleEmit (Value nt) fields asName (Pos kw)).

Definition parseLookup : parser Rule :=
    kw ← consume;
    nt ← expectIdent "target node type after 'lookup'";
    by_ ← matchIdent "by";
    t ← peek;
    if negb by_ then errorf t (ExpectedBy (Value t))
    else
      _ ← consume;
      identity ← parse_expr;
      as_ ← matchIdent "as";
      t ← peek;
      if negb as_ then errorf t ExpectedAsAfterIdentity
      else
        _ ← consume;
        v ← expectVar "as";
        mret (RuleLookup (Value nt) identity (Value v) (Pos kw)).

Definition parseLink : parser Rule :=
    kw ← consume;
    from ← parse_expr;
    rt ← peek;
    if decide (Kind rt = TokRelArrow) then
      _ ← consume;
      to ← parse_expr;
      mret (RuleLink from (Value rt) to (Pos kw))
    else errorf rt ExpectedRelArrow.

Definition parseSourceRef : parser Rule :=
    kw ← consume; e ← parse_expr; mret (RuleSourceRef e (Pos kw)).

Definition parseRule : parser Rule :=
    tok ← peek;
    if decide (Kind tok = TokIdent) then
      let v := Value tok in
      if decide (v = "select") then parseSelect
      else if decide (v = "traverse") then parseTraverse
      else if decide (v = "walk") then parseWalk
      else if decide (v = "filter") then parseFilter
      else if decide (v = "bind") then parseBind
      else if decide (v = "group_by") then parseGroupBy
      else if decide (v = "emit") then parseEmit
      else if decide (v = "lookup") then parseLookup
      else if decide (v = "link") then parseLink
      else if decide (v = "source_ref") then parseSourceRef
      else errorf tok (UnknownRuleKeyword v)
    else errorf tok (ExpectedRuleKeyword (Value tok)).

Fixpoint rules_loop (fuel : nat) : parser (list Rule) :=
    match fuel with
    | O => out_of_fuel
    | S fuel' =>
        t ← peek;
        if decide (Kind t = TokEOF) then mret []
        else
          rule ← parseRule;
          _ ← skipNewlines;
          rules ← rules_loop fuel';
          mret (rule :: rules)
    end.
End Where.

(** ** Scoping of bare field heads *)

Definition edgeHead : string := "edge".
Definition universalHeads : list string := ["group"; "node"].

Record bareHeadScope := { legal : gset string; selected : bool }.

Definition newBareHeadScope : bareHeadScope := {| legal := ∅; selected := false |}.

Definition reset (nodeType : string) : bareHeadScope :=
  {| legal := {[nodeType]} ∪ list_to_set universalHeads; selected := true |}.

Definition add (alias : string) (s : bareHeadScope) : bareHeadScope :=
  if decide (alias = "") then s
  else {| legal := {[alias]} ∪ legal s; selected := selected s |}.

Definition sorted (s : bareHeadScope) : list string := sort_strings (elements (legal s)).

Definition refuse (p : Position) (r : preason) : option ParseError :=
  Some {| PErrPos := p; PMsg := r |}.

Definition HasPrefix (s p : string) : bool := bool_decide (is_Some (CutPrefix s p)).

(** [None]: no error. *)
Definition checkFieldHead (path : list string) (p : Position) (s : bareHeadScope)
    : option ParseError :=
  match path with
  | [] => None
  | head :: _ =>
      if HasPrefix head "$" then None
      else if negb (selected s) then refuse p (NoRowToRead head)
      else if bool_decide (head ∈ legal s) then None
      else refuse p (UnknownHead head (sorted s))
  end.

(** The first error of a list of checks. *)
Fixpoint first_error {A} (check : A → option ParseError) (l : list A) : option ParseError :=
  match l with
  | [] => None
  | a :: l' => match check a with Some e => Some e | None => first_error check l' end
  end.

Fixpoint checkExprHeads (s : bareHeadScope) (e : Expr) : option ParseError :=
  match e with
  | ExprField path p => checkFieldHead path p s
  | ExprRegex lhs _ _ _ => checkExprHeads s lhs
  | ExprFunc _ args _ => first_error (checkExprHeads s) args
  | ExprLit _ _ | ExprVar _ _ => None
  end.

(** [strings.Split(of, ".")]. *)
Fixpoint split_dots (s : string) (acc : string) : list string :=
  match s with
  | EmptyString => [acc]
  | String c s' =>
      if Ascii.eqb c "." then acc :: split_dots s' "" else split_dots s' (acc +:+ String c "")
  end.
Definition splitFieldPath (of_ : string) : list string := split_dots of_ "".

Definition own {A} (f : A → string) (l : option A) : list string := from_option (λ x, [f x]) [] l.

Definition whereNodeOwnPaths (w : WhereNode) : list string :=
  own KindOf (WKind w) ++ own MatchesOf (WMatches w) ++ own EqualsOf (WEquals w)
  ++ own ExistsOf (WExists w) ++ own CompareOf (WCompare w).

Definition neighborScope : bareHeadScope :=
  {| legal := {["node"; edgeHead]}; selected := true |}.

Fixpoint checkWhereTreeHeads (p : Position) (s : bareHeadScope) (w : WhereNode)
    : option ParseError :=
  let sub s (o : option WhereNode) := match o with Some c => checkWhereTreeHeads p s c | None => None end in
  let leaf (l : option (string * option WhereNode)) :=
    match l with
    | Some (_, Some c) => checkWhereTreeHeads p neighborScope c
    | _ => None
    end in
  match first_error (sub s) (WAll w) with Some e => Some e | None =>
  match first_error (sub s) (WAny w) with Some e => Some e | None =>
  match sub s (WNot w) with Some e => Some e | None =>
  match first_error (λ of_, checkFieldHead (splitFieldPath of_) p s) (whereNodeOwnPaths w) with
  | Some e => Some e | None =>
  match leaf (WAncestor w) with Some e => Some e | None => leaf (WDescendant w)
  end end end end end.

(** The names of the fields of an emit, sorted. *)
Definition sorted_names (fields : gmap string Expr) : list string :=
  sort_strings (fst <$> map_to_list fields).

(** The error of one rule, and the scope after it. *)
Definition validateRuleHeads (rule : Rule) (s : bareHeadScope) : option ParseError * bareHeadScope :=
  match rule with
  | RuleSelect ty w p =>
      let s := reset ty in
      (match w with Some w => checkWhereTreeHeads p s w | None => None end, s)
  | RuleTraverse _ _ as_ _ => (None, add edgeHead (add as_ s))
  | RuleWalk _ as_ _ => (None, add edgeHead (add "walk" (add as_ s)))
  | RuleFilter w p => (checkWhereTreeHeads p s w, s)
  | RuleBind _ e _ | RuleGroupBy e _ | RuleLookup _ e _ _ | RuleSourceRef e _ =>
      (checkExprHeads s e, s)
  | RuleEmit _ fields _ _ =>
      (first_error (λ name, match fields !! name with
                            | Some e => checkExprHeads s e
                            | None => None
                            end) (sorted_names fields), s)
  | RuleLink from _ to _ =>
      (match checkExprHeads s from with Some e => Some e | None => checkExprHeads s to end, s)
  end.

Fixpoint validate_rules (rules : list Rule) (s : bareHeadScope) : option ParseError :=
  match rules with
  | [] => None
  | r :: rules' =>
      let '(err, s') := validateRuleHeads r s in
      match err with Some e => Some e | None => validate_rules rules' s' end
  end.

Definition validateBareHeads (r : Recipe) : option ParseError :=
  validate_rules (Rules r) newBareHeadScope.

(** ** The grammar entry *)

Section Entry.
Context (strictUnmarshal : string → result string WhereNode).

Definition parseRecipe : parser Recipe :=
    _ ← skipNewlines;
    start ← peek;
    rules ← (λ ts, rules_loop strictUnmarshal (S (length ts)) ts) : parser (list Rule);
    let out := {| Rules := rules; RecipePos := Pos start |} in
    match validateBareHeads out with
    | Some e => lift (Err e)
    | None => mret out
    end.

Definition Parse (src : list ascii) : fueled ParseError Recipe :=
    match Lex src with
    | None => None
    | Some (Err e) => Some (Err {| PErrPos := ErrPos e; PMsg := LexFailed (Msg e) |})
    | Some (Ok tokens) =>
        match parseRecipe tokens with
        | None => None
        | Some (Err e) => Some (Err e)
        | Some (Ok (r, _)) => Some (Ok r)
        end
    end.
End Entry.

(** ** Every parser ends, inside the source *)

(** Induction over expressions, through argument lists. *)
Lemma Expr_nested_ind (P : Expr → Prop) :
  (∀ path p, P (ExprField path p)) → (∀ v p, P (ExprLit v p)) → (∀ n p, P (ExprVar n p)) →
  (∀ lhs pat neg p, P lhs → P (ExprRegex lhs pat neg p)) →
  (∀ n args p, Forall P args → P (ExprFunc n args p)) → ∀ e, P e.
Proof.
  intros Hf Hl Hv Hr Hc. fix IH 1. intros [path p|v p|n p|lhs pat neg p|n args p].
  - apply Hf.
  - apply Hl.
  - apply Hv.
  - apply Hr, IH.
  - apply Hc. induction args as [|e es IHes]; constructor; [apply IH|exact IHes].
Qed.

(** The sub-trees of a where-tree at its own row, and those at a walked neighbour. *)
Definition where_children (w : WhereNode) : list WhereNode :=
  omap id (WAll w) ++ omap id (WAny w) ++ option_list (WNot w).
Definition where_subtrees (w : WhereNode) : list WhereNode :=
  option_list (WAncestor w ≫= snd) ++ option_list (WDescendant w ≫= snd).

Lemma WhereNode_nested_ind (P : WhereNode → Prop) :
  (∀ w, Forall P (where_children w) → Forall P (where_subtrees w) → P w) → ∀ w, P w.
Proof.
  intros H. fix IH 1. intros w. apply H; destruct w as [wall wany wnot k m e x c anc desc];
    cbn [where_children where_subtrees WAll WAny WNot WAncestor WDescendant].
  - repeat apply Forall_app_2.
    + induction wall as [|[w|] l IHl]; [constructor|constructor; [apply IH|exact IHl]|exact IHl].
    + induction wany as [|[w|] l IHl]; [constructor|constructor; [apply IH|exact IHl]|exact IHl].
    + destruct wnot as [w|]; [constructor; [apply IH|constructor]|constructor].
  - apply Forall_app_2.
    + destruct anc as [[? [w|]]|]; cbn; [constructor; [apply IH|constructor]|constructor|constructor].
    + destruct desc as [[? [w|]]|]; cbn; [constructor; [apply IH|constructor]|constructor|constructor].
Qed.

Lemma first_error_app {A} (check : A → option ParseError) a b :
  first_error check (a ++ b) =
    match first_error check a with Some e => Some e | None => first_error check b end.
Proof.
  induction a as [|x a IH]; [done|]. cbn. destruct (check x); [done|]. by rewrite IH.
Qed.

Lemma first_error_none {A} (check : A → option ParseError) l :
  first_error check l = None ↔ Forall (λ a, check a = None) l.
Proof.
  induction l as [|a l IH]; cbn; [by split|]. rewrite Forall_cons.
  destruct (check a); [split; [done|by intros [? _]]|]. rewrite IH. by split; [|intros [_ ?]].
Qed.

Lemma first_error_omap {A} (check : A → option ParseError) (l : list (option A)) :
  first_error (λ o, match o with Some a => check a | None => None end) l
  = first_error check (omap id l).
Proof. induction l as [|[a|] l IH]; cbn; [done| |done]. destruct (check a); [done|]. exact IH. Qed.

(** The check of a where-tree: its own row's sub-trees, its own paths, its walks. *)
Lemma checkWhereTreeHeads_eq p s w :
  checkWhereTreeHeads p s w =
    match first_error (checkWhereTreeHeads p s) (where_children w) with Some e => Some e | None =>
    match first_error (λ of_, checkFieldHead (splitFieldPath of_) p s) (whereNodeOwnPaths w) with
    | Some e => Some e
    | None => first_error (checkWhereTreeHeads p neighborScope) (where_subtrees w)
    end end.
Proof.
  unfold where_children, where_subtrees, option_list.
  rewrite !first_error_app, <- !first_error_omap.
  destruct w as [wall wany wnot k m e x c anc desc].
  cbn [checkWhereTreeHeads WAll WAny WNot WAncestor WDescendant].
  destruct (first_error _ wall); [done|]. destruct (first_error _ wany); [done|].
  destruct wnot as [w|]; cbn [option_rect first_error];
    [destruct (checkWhereTreeHeads p s w); [done|]|];
    (destruct (first_error _ (whereNodeOwnPaths _)); [done|]);
    destruct anc as [[? [a|]]|], desc as [[? [d|]]|]; cbn [mbind option_bind snd option_rect first_error];
    repeat match goal with |- context [match checkWhereTreeHeads p neighborScope ?a with _ => _ end] =>
      destruct (checkWhereTreeHeads p neighborScope a) end; done.
Qed.

(** An identifier of the language. *)
Definition is_name (v : string) : Prop := is_ident (String.list_ascii_of_string v).

(** The token is a name or a variable, and well spelled. *)
Definition names_well (t : Token) : Prop := Kind t = TokIdent ∨ Kind t = TokVar → is_name (Value t).

Section Runs.
  (** The token stream, ended by [eof]. *)
Context (eof : Token) (all : list Token) (Heof : Kind eof = TokEOF).
Context (Hnames : Forall names_well all).

Definition valid (ts : list Token) : Prop := ∃ a b, all = a ++ ts ∧ ts = b ++ [eof].

Definition token_pos (p : Position) : Prop := ∃ t, t ∈ all ∧ Pos t = p.

  (** [m] returns: with a result that satisfies [Q] and a cursor not before [ts], or with an
      error at a token. *)
Definition runs {A} (m : parser A) (ts : list Token) (Q : A → list Token → Prop) : Prop :=
    match m ts with
    | Some (Ok (a, ts')) => valid ts' ∧ (length ts' ≤ length ts)%nat ∧ Q a ts'
    | Some (Err e) => token_pos (PErrPos e)
    | None => False
    end.

Lemma runs_bind {A B} (m : parser A) (f : A → parser B) ts Q R :
    runs m ts Q →
    (∀ a ts', valid ts' → (length ts' ≤ length ts)%nat → Q a ts' → runs (f a) ts' R) →
    runs (m ≫= f) ts R.
Proof.
    unfold runs, mbind, parser_bind. destruct (m ts) as [[[a ts']|e]|]; [|done|done].
    intros (V & L & HQ) Hf. specialize (Hf a ts' V L HQ).
    destruct (f a ts') as [[[b ts'']|e]|]; [|done|done].
    destruct Hf as (V' & L' & HR). split; [done|]. split; [lia|done].
  Qed.

  (** The first parser of a sequence, by a tactic for its [runs]. *)
  Tactic Notation "bind" tactic(t) := eapply runs_bind; [t | cbn beta].

Lemma runs_ret {A} (a : A) ts (Q : A → list Token → Prop) : valid ts → Q a ts → runs (mret a) ts Q.
Proof. intros V HQ. by repeat split. Qed.

Lemma runs_weaken {A} (m : parser A) ts (Q R : A → list Token → Prop) :
    runs m ts Q → (∀ a ts', Q a ts' → R a ts') → runs m ts R.
Proof.
    unfold runs. destruct (m ts) as [[[a ts']|e]|]; [|done|done]. naive_solver.
  Qed.

Lemma valid_nonempty ts : valid ts → ∃ t ts', ts = t :: ts'.
Proof. intros (a & [|t b] & _ & ->); [by exists eof, []|by exists t, (b ++ [eof])]. Qed.

Lemma valid_token_in ts : valid ts → token_at ts ∈ all.
Proof.
    intros V. destruct (valid_nonempty ts V) as (t & ts' & ->). destruct V as (a & b & -> & _).
    apply elem_of_app. right. apply list_elem_of_here.
  Qed.

Lemma valid_token_pos ts : valid ts → token_pos (Pos (token_at ts)).
Proof. intros V. exists (token_at ts). split; [by apply valid_token_in|done]. Qed.

Lemma valid_named ts : valid ts → Kind (token_at ts) = TokIdent ∨ Kind (token_at ts) = TokVar →
    is_name (Value (token_at ts)).
Proof.
    intros V. pose proof (valid_token_in ts V) as Hin. rewrite Forall_forall in Hnames.
    by apply Hnames.
  Qed.

Lemma valid_tail ts : valid ts → Kind (token_at ts) ≠ TokEOF →
    valid (tail ts) ∧ (length (tail ts) < length ts)%nat.
Proof.
    intros (a & b & E & ->) Hk. destruct b as [|t b]; [done|]. cbn. split; [|lia].
    exists (a ++ [t]), b. by rewrite E, <- app_assoc.
  Qed.

Lemma runs_peek ts : valid ts → runs peek ts (λ t ts', ts' = ts ∧ t = token_at ts).
Proof. intros V. by repeat split. Qed.

Lemma runs_lookahead n ts : valid ts → runs (lookahead n) ts (λ _ ts', ts' = ts).
Proof. intros V. by repeat split. Qed.

Lemma runs_errorf {A} ts r ts' (Q : A → list Token → Prop) :
    valid ts → runs (errorf (token_at ts) r) ts' Q.
Proof. intros V. exact (valid_token_pos ts V). Qed.

Lemma runs_consume ts : valid ts → Kind (token_at ts) ≠ TokEOF →
    runs consume ts (λ t ts', t = token_at ts ∧ (length ts' < length ts)%nat).
Proof. intros V Hk. destruct (valid_tail ts V Hk). repeat split; [done|lia|lia]. Qed.

  (** A keyword and its position. *)
Definition at_token (ts : list Token) (k : TokenKind) (t : Token) (ts' : list Token) : Prop :=
    t = token_at ts ∧ Kind t = k ∧ token_pos (Pos t) ∧ (length ts' < length ts)%nat.

Lemma runs_take {A} (k : TokenKind) (f : A) ts : valid ts → Kind (token_at ts) = k → k ≠ TokEOF →
    runs (_ ← consume; mret f) ts (λ a ts', a = f ∧ (length ts' < length ts)%nat).
Proof.
    intros V Hk Hne. bind (apply runs_consume; congruence).
    intros t ts' V' L [-> L']. by apply runs_ret.
  Qed.

Lemma runs_expect k label ts : valid ts → k ≠ TokEOF →
    runs (expect k label) ts (λ _ ts', (length ts' < length ts)%nat).
Proof.
    intros V Hk. unfold expect. bind (by apply runs_peek). intros t ts' _ _ [-> ->].
    case_decide as Hd; [|by apply runs_errorf].
    eapply runs_weaken; [by apply (runs_take k)|]. by intros a ts' [_ L].
  Qed.

Lemma runs_expectIdent label ts : valid ts →
    runs (expectIdent label) ts (at_token ts TokIdent).
Proof.
    intros V. unfold expectIdent. bind (by apply runs_peek). intros t ts' _ _ [-> ->].
    case_decide as Hd; [|by apply runs_errorf].
    eapply runs_weaken; [by apply (runs_take TokIdent)|]. intros a ts' [-> L].
    split; [done|]. split; [done|]. split; [by apply valid_token_pos|done].
  Qed.

Lemma runs_matchIdent name ts : valid ts →
    runs (matchIdent name) ts (λ b ts', ts' = ts ∧ b = is_word name (token_at ts)).
Proof.
    intros V. unfold matchIdent. bind (by apply runs_peek). intros t ts' _ _ [-> ->].
    by apply runs_ret.
  Qed.

Lemma valid_drop_kinds skipped ts : valid ts → skipped TokEOF = false →
    valid (drop_kinds skipped ts) ∧ (length (drop_kinds skipped ts) ≤ length ts)%nat.
Proof.
    intros V Hs. destruct V as (a & b & E & ->). revert a E.
    induction b as [|t b IH]; intros a E; cbn [app drop_kinds].
    - rewrite Heof, Hs. split; [by exists a, []|done].
    - destruct (skipped (Kind t)); [|by split; [exists a, (t :: b)|]].
      destruct (IH (a ++ [t])) as [V L]; [by rewrite <- app_assoc|]. split; [done|]. cbn. lia.
  Qed.

Lemma runs_skipNewlines ts : valid ts → runs skipNewlines ts (λ _ _, True).
Proof. intros V. by destruct (valid_drop_kinds (λ k, bool_decide (k = TokNewline)) ts V). Qed.

Lemma runs_skipSeparators ts : valid ts → runs skipSeparators ts (λ _ _, True).
Proof.
    intros V. by destruct (valid_drop_kinds
      (λ k, bool_decide (k = TokNewline) || bool_decide (k = TokComma)) ts V).
  Qed.

  (** *** Expressions *)

  (** A path is a name or a variable, and names below it. *)
Definition path_ok (path : list string) : Prop :=
    match path with
    | [] => False
    | first :: names => (is_name first ∨ ∃ v, is_name v ∧ first = "$" +:+ v) ∧ Forall is_name names
    end.

  (** The positions of an expression are those of tokens, and its paths are well formed. *)
Fixpoint expr_ok (e : Expr) : Prop :=
    match e with
    | ExprField path p => path_ok path ∧ token_pos p
    | ExprLit _ p | ExprVar _ p => token_pos p
    | ExprRegex lhs _ _ p => expr_ok lhs ∧ token_pos p
    | ExprFunc _ args p => foldr (λ e, and (expr_ok e)) True args ∧ token_pos p
    end.

  (** What an expression parser promises. *)
Definition gives_expr (ts : list Token) (e : Expr) (ts' : list Token) : Prop :=
    expr_ok e ∧ (length ts' < length ts)%nat.

Lemma runs_path_loop fuel ts : valid ts → (length ts < fuel)%nat →
    runs (path_loop fuel) ts (λ path _, Forall is_name path).
Proof.
    revert ts. induction fuel as [|fuel IH]; [lia|]. intros ts V Hf. cbn [path_loop].
    bind (by apply runs_peek). intros t ts1 _ _ [-> ->].
    case_decide as Hd; [|by apply runs_ret].
    bind (apply runs_consume; congruence). intros ? ts1 V1 _ [_ L1].
    bind (by apply runs_expectIdent). intros seg ts2 V2 L2 (-> & Hk & _).
    bind (apply IH; [done|lia]). intros path ts3 V3 _ Hpath. apply runs_ret; [done|].
    constructor; [|done]. apply valid_named; auto.
  Qed.

Lemma runs_parseVarPath fuel ts : valid ts → (length ts < fuel)%nat →
    Kind (token_at ts) = TokVar ∨ Kind (token_at ts) = TokIdent →
    runs (parseVarPath fuel) ts (gives_expr ts).
Proof.
    intros V Hf Hk. unfold parseVarPath.
    bind (apply runs_consume; destruct Hk; congruence). intros t ts1 V1 _ [-> L1].
    pose proof (valid_named ts V ltac:(tauto)) as Hname.
    eapply (runs_bind _ _ _ (λ first ts', ts' = ts1 ∧ path_ok [first])).
    { destruct Hk as [-> | ->]; (apply runs_ret; [done|split; [done|]]); (split; [|constructor]).
      - right. by eexists.
      - by left. }
    intros first ts2 V2 L2 [-> Hfirst].
    bind (apply runs_path_loop; [done|lia]). intros path ts3 V3 L3 Hpath.
    assert (L : (length ts3 < length ts)%nat) by lia. pose proof (valid_token_pos ts V) as Hp.
    destruct path as [|seg path]; [case_decide|]; apply runs_ret; try done.
    split; [|done]. split; [|done]. split; [apply Hfirst|done].
  Qed.

  (** The fuel that an expression and an argument list need. *)
Definition enough_expr (fuel : nat) (ts : list Token) : Prop := (2 * length ts < fuel)%nat.
Definition enough_args (fuel : nat) (ts : list Token) : Prop := (2 * length ts + 1 < fuel)%nat.

Definition gives_args (ts : list Token) (es : list Expr) (ts' : list Token) : Prop :=
    foldr (λ e, and (expr_ok e)) True es.

Lemma runs_parseFuncCall args ts : valid ts → Kind (token_at ts) = TokIdent →
    (∀ ts', valid ts' → (length ts' + 2 ≤ length ts)%nat → runs args ts' (gives_args ts')) →
    runs (parseFuncCall args) ts (gives_expr ts).
Proof.
    intros V Hk Hargs. unfold parseFuncCall.
    bind (apply runs_consume; congruence). intros t ts1 V1 _ [-> L1].
    bind (by apply runs_expect). intros ? ts2 V2 _ L2.
    bind (by apply runs_peek). intros t2 ts2' _ _ [-> ->].
    eapply (runs_bind _ _ _ (gives_args ts2)).
    { case_decide; [by apply runs_ret|]. apply Hargs; [done|lia]. }
    intros es ts3 V3 L3 Hes.
    bind (by apply runs_expect). intros ? ts4 V4 _ L4.
    apply runs_ret; [done|]. split; [|lia]. split; [exact Hes|]. by apply valid_token_pos.
  Qed.

Lemma runs_parsePrimary fuel expr args ts : valid ts → (length ts < fuel)%nat →
    (∀ ts', valid ts' → (length ts' < length ts)%nat → runs expr ts' (gives_expr ts')) →
    (∀ ts', valid ts' → (length ts' + 2 ≤ length ts)%nat → runs args ts' (gives_args ts')) →
    runs (parsePrimary fuel expr args) ts (gives_expr ts).
Proof.
    intros V Hf Hexpr Hargs. unfold parsePrimary.
    bind (by apply runs_peek). intros t ts1 _ _ [-> ->].
    destruct (Kind (token_at ts)) eqn:Hk; try (by apply runs_errorf).
    - bind (by apply (runs_lookahead 1)). intros t1 ts1 _ _ ->.
      case_decide; [by apply runs_parseFuncCall|]. by apply runs_parseVarPath; auto.
    - bind (apply runs_consume; congruence).
      intros t ts1 V1 _ [_ L1]. apply runs_ret; [done|]. split; [by apply valid_token_pos|done].
    - by apply runs_parseVarPath; auto.
    - bind (apply runs_consume; congruence). intros ? ts1 V1 _ [_ L1].
      bind (by apply Hexpr). intros e ts2 V2 _ [He L2].
      bind (by apply runs_expect). intros ? ts3 V3 _ L3.
      apply runs_ret; [done|]. split; [done|lia].
  Qed.
Lemma runs_expressions fuel :
    (∀ ts, valid ts → enough_expr fuel ts → runs (parseExpr fuel) ts (gives_expr ts)) ∧
    (∀ ts, valid ts → enough_args fuel ts → runs (parseArgs fuel) ts (gives_args ts)).
Proof.
    unfold enough_expr, enough_args. induction fuel as [|fuel [IHe IHa]]; [split; lia|]. split.
    - intros ts V Hf. cbn [parseExpr].
      assert (Hlen : (1 ≤ length ts)%nat) by (destruct (valid_nonempty ts V) as (? & ? & ->); cbn; lia).
      bind (apply runs_parsePrimary; [done|lia|intros; apply IHe; [done|lia]|intros; apply IHa; [done|lia]]).
      intros lhs ts1 V1 _ [Hl L1].
      bind (by apply runs_peek). intros op ts1' _ _ [-> ->].
      destruct (negb _ && negb _) eqn:Hop; [by apply runs_ret|].
      bind (apply runs_consume; [done|intros Hk; rewrite Hk in Hop; discriminate]).
      intros ? ts2 V2 _ [_ L2].
      bind (by apply runs_peek). intros rt ts2' _ _ [-> ->].
      destruct (decide (Kind (token_at ts2) = TokRegex)) as [Hr|Hr]; [|by apply runs_errorf].
      eapply runs_weaken; [by apply (runs_take TokRegex)|]. cbn beta. intros e ts3 [-> L3].
      split; [|lia]. split; [done|by apply valid_token_pos].
    - intros ts V Hf. cbn [parseArgs].
      bind (apply IHe; [done|lia]). intros arg ts1 V1 _ [Ha L1].
      bind (by apply runs_peek). intros t ts1' _ _ [-> ->].
      case_decide as Hd; [|by apply runs_ret].
      bind (apply runs_consume; congruence). intros ? ts2 V2 _ [_ L2].
      bind (apply IHa; [done|lia]). intros es ts3 V3 _ Hes. by apply runs_ret.
  Qed.

Lemma runs_parse_expr ts : valid ts → runs parse_expr ts (gives_expr ts).
Proof.
    intros V. unfold runs, parse_expr.
    apply (proj1 (runs_expressions (expr_fuel ts)) ts V). unfold enough_expr, expr_fuel. lia.
  Qed.

  (** *** Rules *)

Definition rule_pos (r : Rule) : Position :=
    match r with
    | RuleSelect _ _ p | RuleTraverse _ _ _ p | RuleWalk _ _ p | RuleFilter _ p | RuleBind _ _ p
    | RuleGroupBy _ p | RuleEmit _ _ _ p | RuleLookup _ _ _ p | RuleLink _ _ _ p
    | RuleSourceRef _ p => p
    end.

  (** What the parser promises of a rule: the positions are those of tokens, a select names
      a type, a direction is one of three, an emit has an identity. *)
Definition rule_ok (r : Rule) : Prop :=
    token_pos (rule_pos r) ∧
    match r with
    | RuleTraverse _ d _ _ => d ∈ ["in"; "out"; "both"]
    | RuleBind _ e _ | RuleGroupBy e _ | RuleLookup _ e _ _ | RuleSourceRef e _ => expr_ok e
    | RuleEmit _ fields _ _ =>
        (is_Some (fields !! "name") ∨ is_Some (fields !! "identity")) ∧
        map_Forall (λ _, expr_ok) fields
    | RuleLink from _ to _ => expr_ok from ∧ expr_ok to
    | RuleSelect ty _ _ => is_name ty
    | RuleWalk _ _ _ | RuleFilter _ _ => True
    end.

Definition gives_rule (ts : list Token) (r : Rule) (ts' : list Token) : Prop :=
    rule_ok r ∧ (length ts' < length ts)%nat.

Context (strictUnmarshal : string → result string WhereNode).

Lemma runs_expectVar keyword ts : valid ts →
    runs (expectVar keyword) ts (λ _ ts', (length ts' < length ts)%nat).
Proof.
    intros V. unfold expectVar. bind (by apply runs_peek). intros t ts1 _ _ [-> ->].
    case_decide; [|by apply runs_errorf].
    eapply runs_weaken; [by apply (runs_take TokVar)|]. by intros ? ? [_ L].
  Qed.

Lemma is_word_ident name t : is_word name t = true → Kind t ≠ TokEOF.
Proof. unfold is_word. intros [H _]%andb_true_iff. apply bool_decide_eq_true in H. congruence. Qed.

Lemma runs_parseAs ts : valid ts → runs parseAs ts (λ _ _, True).
Proof.
    intros V. unfold parseAs. bind (by apply runs_matchIdent). intros b ts1 _ _ [-> ->].
    destruct (is_word "as" (token_at ts)) eqn:Hw; [|by apply runs_ret].
    bind (by apply runs_consume; [done|apply (is_word_ident "as")]). intros ? ts2 V2 _ _.
    bind (by apply runs_expectVar). intros v ts3 V3 _ _. by apply runs_ret.
  Qed.

Lemma runs_where keyword ts : valid ts →
    runs (parseWhereTreeClause strictUnmarshal keyword) ts (λ _ _, True).
Proof.
    intros V. unfold parseWhereTreeClause. bind (by apply runs_peek). intros t ts1 _ _ [-> ->].
    case_decide as Hd; [|by apply runs_errorf].
    bind (apply runs_consume; congruence). intros ? ts2 V2 _ _.
    pose proof (valid_token_pos ts V) as Hp. unfold runs, lift, ParseWhereTree.
    destruct (_ || _); [exact Hp|]. by destruct (strictUnmarshal _); [|exact Hp].
  Qed.

  (** The keyword of a rule. *)
Lemma runs_keyword {A} (f : Token → parser A) ts Q : valid ts → Kind (token_at ts) = TokIdent →
    (∀ ts', valid ts' → (length ts' < length ts)%nat → runs (f (token_at ts)) ts' Q) →
    runs (consume ≫= f) ts Q.
Proof.
    intros V Hk Hf. bind (apply runs_consume; congruence). intros t ts1 V1 _ [-> L1]. by apply Hf.
  Qed.

Lemma runs_one_expr (f : Expr → Position → Rule) ts :
    valid ts → Kind (token_at ts) = TokIdent →
    (∀ e p, expr_ok e → token_pos p → rule_ok (f e p)) →
    runs (kw ← consume; e ← parse_expr; mret (f e (Pos kw))) ts (gives_rule ts).
Proof.
    intros V Hk Hf. apply runs_keyword; [done|done|]. intros ts1 V1 L1.
    bind (by apply runs_parse_expr). intros e ts2 V2 _ [He L2].
    apply runs_ret; [done|]. split; [by apply Hf, valid_token_pos|lia].
  Qed.

Lemma runs_field_loop fuel : ∀ ts fields, valid ts → (length ts < fuel)%nat →
    map_Forall (λ _, expr_ok) fields →
    runs (field_loop fuel fields) ts (λ fields' _, map_Forall (λ _, expr_ok) fields').
Proof.
    induction fuel as [|fuel IH]; [lia|]. intros ts fields V Hf Hok. cbn [field_loop].
    bind (by apply runs_peek). intros t ts1 _ _ [-> ->].
    destruct (_ || _); [by apply runs_ret|].
    bind (by apply runs_expectIdent). intros name ts1 V1 _ (-> & _ & Hp & L1).
    bind (by apply runs_expect). intros ? ts2 V2 _ L2.
    bind (by apply runs_parse_expr). intros val ts3 V3 _ [Hv L3].
    destruct (fields !! _) eqn:Hl; [by apply runs_errorf|].
    bind (by apply runs_skipSeparators). intros ? ts4 V4 L4 _.
    apply IH; [done|lia|]. by apply map_Forall_insert_2.
  Qed.

Lemma runs_parseFieldMap ts : valid ts →
    runs parseFieldMap ts (λ fields _, map_Forall (λ _, expr_ok) fields).
Proof.
    intros V. unfold parseFieldMap. bind (by apply runs_skipNewlines). intros ? ts1 V1 _ _.
    apply (runs_field_loop (S (length ts1)) ts1 ∅); [done|lia|]. apply map_Forall_empty.
  Qed.

Lemma runs_parseSelect ts : valid ts → Kind (token_at ts) = TokIdent →
    runs (parseSelect strictUnmarshal) ts (gives_rule ts).
Proof.
    intros V Hk. pose proof (valid_token_pos ts V) as Hp.
    apply runs_keyword; [done|done|]. intros ts1 V1 L1.
    bind (by apply runs_expectIdent). intros nt ts2 V2 _ (-> & Hnt & _ & L2).
    pose proof (valid_named ts1 V1 ltac:(auto)) as Hname.
    bind (by apply runs_matchIdent). intros b ts3 _ _ [-> ->].
    destruct (is_word "where" (token_at ts2)) eqn:Hw; [|apply runs_ret; [done|by split; [|lia]]].
    bind (by apply runs_consume; [done|apply (is_word_ident "where")]). intros ? ts3 V3 _ [_ L3].
    bind (by apply runs_where). intros w ts4 V4 L4 _. apply runs_ret; [done|by split; [|lia]].
  Qed.

Lemma runs_parseTraverse ts : valid ts → Kind (token_at ts) = TokIdent →
    runs parseTraverse ts (gives_rule ts).
Proof.
    intros V Hk. pose proof (valid_token_pos ts V) as Hp.
    apply runs_keyword; [done|done|]. intros ts1 V1 L1.
    bind (by apply runs_expectIdent). intros edge ts2 V2 _ (_ & _ & _ & L2).
    bind (by apply runs_expectIdent). intros dir ts3 V3 _ (-> & _ & _ & L3). cbn zeta.
    set (d := ToLower _). destruct (_ && _ && _) eqn:Hd; [by apply runs_errorf|].
    bind (by apply runs_parseAs). intros as_ ts4 V4 L4 _.
    apply runs_ret; [done|]. split; [|lia]. split; [done|].
    rewrite !elem_of_cons. apply andb_false_iff in Hd as [Hd|Hd].
    - apply andb_false_iff in Hd as [Hd|Hd]; apply bool_decide_eq_false in Hd;
        apply dec_stable in Hd; auto.
    - apply bool_decide_eq_false, dec_stable in Hd. auto.
  Qed.

Lemma runs_parseWalk ts : valid ts → Kind (token_at ts) = TokIdent → runs parseWalk ts (gives_rule ts).
Proof.
    intros V Hk. pose proof (valid_token_pos ts V) as Hp.
    apply runs_keyword; [done|done|]. intros ts1 V1 L1.
    bind (by apply runs_expectIdent). intros edge ts2 V2 _ (_ & _ & _ & L2).
    bind (by apply runs_parseAs). intros as_ ts4 V4 L4 _. apply runs_ret; [done|by split; [|lia]].
  Qed.

Lemma runs_parseFilter ts : valid ts → Kind (token_at ts) = TokIdent →
    runs (parseFilter strictUnmarshal) ts (gives_rule ts).
Proof.
    intros V Hk. pose proof (valid_token_pos ts V) as Hp.
    apply runs_keyword; [done|done|]. intros ts1 V1 L1.
    bind (by apply runs_where). intros w ts4 V4 L4 _. apply runs_ret; [done|by split; [|lia]].
  Qed.

Lemma runs_parseBind ts : valid ts → Kind (token_at ts) = TokIdent → runs parseBind ts (gives_rule ts).
Proof.
    intros V Hk. pose proof (valid_token_pos ts V) as Hp.
    apply runs_keyword; [done|done|]. intros ts1 V1 L1.
    bind (by apply runs_expectVar). intros v ts2 V2 _ L2.
    bind (by apply runs_expect). intros ? ts3 V3 _ L3.
    bind (by apply runs_parse_expr). intros e ts4 V4 _ [He L4].
    apply runs_ret; [done|]. by split; [|lia].
  Qed.

Lemma runs_parseEmit ts : valid ts → Kind (token_at ts) = TokIdent → runs parseEmit ts (gives_rule ts).
Proof.
    intros V Hk. pose proof (valid_token_pos ts V) as Hp.
    apply runs_keyword; [done|done|]. intros ts1 V1 L1.
    bind (by apply runs_expectIdent). intros nt ts2 V2 _ (_ & _ & _ & L2).
    bind (by apply runs_expect). intros ? ts3 V3 _ L3.
    bind (by apply runs_parseFieldMap). intros fields ts4 V4 L4 Hf.
    destruct (_ && _) eqn:Hid; [by apply runs_errorf|].
    bind (by apply runs_expect). intros ? ts5 V5 _ L5.
    bind (by apply runs_parseAs). intros as_ ts6 V6 L6 _.
    apply runs_ret; [done|]. split; [|lia]. split; [done|]. split; [|done].
    apply andb_false_iff in Hid as [Hid|Hid]; apply bool_decide_eq_false in Hid;
      apply not_eq_None_Some in Hid; auto.
  Qed.

Lemma runs_parseLookup ts : valid ts → Kind (token_at ts) = TokIdent →
    runs parseLookup ts (gives_rule ts).
Proof.
    intros V Hk. pose proof (valid_token_pos ts V) as Hp.
    apply runs_keyword; [done|done|]. intros ts1 V1 L1.
    bind (by apply runs_expectIdent). intros nt ts2 V2 _ (_ & _ & _ & L2).
    bind (by apply runs_matchIdent). intros b ts3 _ _ [-> ->].
    bind (by apply runs_peek). intros t ts3 _ _ [-> ->].
    destruct (is_word "by" (token_at ts2)) eqn:Hw; cbn [negb]; [|by apply runs_errorf].
    bind (by apply runs_consume; [done|apply (is_word_ident "by")]). intros ? ts3 V3 _ [_ L3].
    bind (by apply runs_parse_expr). intros e ts4 V4 _ [He L4].
    bind (by apply runs_matchIdent). intros b ts5 _ _ [-> ->].
    bind (by apply runs_peek). intros t ts5 _ _ [-> ->].
    destruct (is_word "as" (token_at ts4)) eqn:Hw'; cbn [negb]; [|by apply runs_errorf].
    bind (by apply runs_consume; [done|apply (is_word_ident "as")]). intros ? ts5 V5 _ [_ L5].
    bind (by apply runs_expectVar). intros v ts6 V6 _ L6.
    apply runs_ret; [done|]. by split; [|lia].
  Qed.

Lemma runs_parseLink ts : valid ts → Kind (token_at ts) = TokIdent → runs parseLink ts (gives_rule ts).
Proof.
    intros V Hk. pose proof (valid_token_pos ts V) as Hp.
    apply runs_keyword; [done|done|]. intros ts1 V1 L1.
    bind (by apply runs_parse_expr). intros e ts2 V2 _ [He L2].
    bind (by apply runs_peek). intros t ts3 _ _ [-> ->].
    destruct (decide (Kind (token_at ts2) = TokRelArrow)) as [Hr|Hr]; [|by apply runs_errorf].
    bind (apply runs_consume; congruence). intros ? ts3 V3 _ [_ L3].
    bind (by apply runs_parse_expr). intros e' ts4 V4 _ [He' L4].
    apply runs_ret; [done|]. by split; [|lia].
  Qed.

Lemma runs_parseRule ts : valid ts → runs (parseRule strictUnmarshal) ts (gives_rule ts).
Proof.
    intros V. unfold parseRule. bind (by apply runs_peek). intros t ts1 _ _ [-> ->].
    destruct (decide (Kind (token_at ts) = TokIdent)) as [Hk|Hk]; [|by apply runs_errorf].
    cbn zeta.
    repeat match goal with |- context [if decide ?P then _ else _] => destruct (decide P) end;
      auto using runs_parseSelect, runs_parseTraverse, runs_parseWalk, runs_parseFilter,
        runs_parseBind, runs_parseEmit, runs_parseLookup, runs_parseLink.
    - apply (runs_one_expr RuleGroupBy); [done|done|by split].
    - apply (runs_one_expr RuleSourceRef); [done|done|by split].
    - by apply runs_errorf.
  Qed.

Lemma runs_rules_loop fuel : ∀ ts, valid ts → (length ts < fuel)%nat →
    runs (rules_loop strictUnmarshal fuel) ts (λ rules _, Forall rule_ok rules).
Proof.
    induction fuel as [|fuel IH]; [lia|]. intros ts V Hf. cbn [rules_loop].
    bind (by apply runs_peek). intros t ts1 _ _ [-> ->].
    case_decide; [by apply runs_ret|].
    bind (by apply runs_parseRule). intros r ts1 V1 _ [Hr L1].
    bind (by apply runs_skipNewlines). intros ? ts2 V2 L2 _.
    bind (apply IH; [done|lia]). intros rs ts3 V3 _ Hrs. apply runs_ret; [done|by constructor].
  Qed.

  (** *** Errors of the head check *)

Definition none_or_at (o : option ParseError) : Prop :=
    match o with Some e => token_pos (PErrPos e) | None => True end.

Lemma first_error_at {A} (check : A → option ParseError) l :
    Forall (λ a, none_or_at (check a)) l → none_or_at (first_error check l).
Proof. induction 1 as [|a l H _ IH]; [done|]. cbn. by destruct (check a). Qed.

Lemma checkFieldHead_at path p s : token_pos p → none_or_at (checkFieldHead path p s).
Proof.
    intros Hp. unfold checkFieldHead. destruct path as [|h path]; [done|].
    destruct (HasPrefix h "$"); [done|]. destruct (negb _); [done|]. by destruct (bool_decide _).
  Qed.

Lemma foldr_and_Forall {A} (P : A → Prop) l : foldr (λ a, and (P a)) True l ↔ Forall P l.
Proof.
    induction l as [|a l IH]; cbn; [by split|]. rewrite IH, Forall_cons. done.
  Qed.

Lemma checkExprHeads_at s e : expr_ok e → none_or_at (checkExprHeads s e).
Proof.
    induction e as [path p|v p|n p|lhs pat neg p IH|n args p IH] using Expr_nested_ind;
      cbn [expr_ok checkExprHeads]; try done.
    - intros [_ Hp]. by apply checkFieldHead_at.
    - intros [He _]. by apply IH.
    - intros [Hargs _]. apply first_error_at. apply foldr_and_Forall in Hargs.
      rewrite Forall_forall in *. auto.
  Qed.

Lemma checkWhereTreeHeads_at p w : token_pos p → ∀ s, none_or_at (checkWhereTreeHeads p s w).
Proof.
    intros Hp. induction w as [w IHc IHs] using WhereNode_nested_ind. intros s.
    rewrite checkWhereTreeHeads_eq. rewrite Forall_forall in IHc, IHs.
    assert (H1 : none_or_at (first_error (checkWhereTreeHeads p s) (where_children w))).
    { apply first_error_at, Forall_forall. intros c Hc. by apply IHc. }
    destruct (first_error _ (where_children w)); [exact H1|].
    assert (H2 : none_or_at (first_error (λ of_, checkFieldHead (splitFieldPath of_) p s)
                               (whereNodeOwnPaths w))).
    { apply first_error_at, Forall_forall. intros of_ _. by apply checkFieldHead_at. }
    destruct (first_error _ (whereNodeOwnPaths w)); [exact H2|].
    apply first_error_at, Forall_forall. intros c Hc. by apply IHs.
  Qed.

Lemma validateRuleHeads_at r s : rule_ok r → none_or_at (validateRuleHeads r s).1.
Proof.
    intros [Hp Hr]. destruct r as [ty [w|] p|e d as_ p|e as_ p|w p|x e p|e p|ty fs as_ p|ty e as_ p
      |e1 rel e2 p|e p]; cbn in *; try done; try (by apply checkExprHeads_at);
      try (by apply checkWhereTreeHeads_at).
    - apply first_error_at, Forall_forall. intros name _. destruct (fs !! name) as [e|] eqn:He; [|done].
      apply checkExprHeads_at. exact (proj2 Hr name e He).
    - destruct Hr as [H1 H2]. apply (checkExprHeads_at s) in H1, H2. by destruct (checkExprHeads s e1).
  Qed.

Lemma validate_rules_at rules : Forall rule_ok rules → ∀ s, none_or_at (validate_rules rules s).
Proof.
    induction 1 as [|r rules Hr _ IH]; intros s; [done|]. cbn [validate_rules].
    pose proof (validateRuleHeads_at r s Hr) as H. destruct (validateRuleHeads r s) as [[e|] s'];
      [exact H|apply IH].
  Qed.

Definition recipe_ok (r : Recipe) : Prop :=
    token_pos (RecipePos r) ∧ Forall rule_ok (Rules r) ∧ validateBareHeads r = None.

Lemma runs_parseRecipe ts : valid ts →
    runs (parseRecipe strictUnmarshal) ts (λ r _, recipe_ok r).
Proof.
    intros V. unfold parseRecipe. bind (by apply runs_skipNewlines). intros ? ts1 V1 _ _.
    bind (by apply runs_peek). intros t ts2 _ _ [-> ->].
    eapply (runs_bind _ _ _ (λ rules _, Forall rule_ok rules)).
    { by apply (runs_rules_loop (S (length ts1)) ts1); [|lia]. }
    intros rules ts2 V2 _ Hr. cbn zeta.
    set (r := {| Rules := rules; RecipePos := _ |}).
    pose proof (validate_rules_at rules Hr newBareHeadScope) as Hv.
    destruct (validateBareHeads r) as [e|] eqn:He.
    - unfold validateBareHeads in He. cbn [Rules r] in He. rewrite He in Hv. exact Hv.
    - apply runs_ret; [done|]. split; [by apply valid_token_pos|done].
  Qed.
End Runs.

Arguments valid : clear implicits.
Arguments token_pos : clear implicits.

Lemma spelled_names k v s : spelled k v s → k = TokIdent ∨ k = TokVar → is_ident v.
Proof.
  destruct 1 as [c k Hc| | | | | | |v Hv| |v Hv|]; intros Hk; try done; try naive_solver.
  unfold singleCharKinds in Hc. exfalso. repeat (destruct (Ascii.eqb _ _); [naive_solver|]). naive_solver.
Qed.

Lemma lexed_tokens before p src toks : lexed before p src toks →
  (∃ b eof, toks = b ++ [eof] ∧ Kind eof = TokEOF) ∧ Forall names_well toks ∧
  Forall (λ t, ∃ s r, src = s ++ r ∧ Pos t = after p s) toks.
Proof.
  induction 1 as [before p g Hg|before p g s k v src toks t Hg Hs Hc -> Hl [(b & eof & -> & He) [IHn IH]]].
  - split; [by eexists [], _|]. split.
    + constructor; [|constructor]. by intros [|].
    + constructor; [|constructor]. exists g, []. by rewrite app_nil_r.
  - split; [by eexists (_ :: b), eof|]. split.
    + constructor; [|done]. intros Hk. unfold is_name. cbn [Value].
      rewrite String.list_ascii_of_string_of_list_ascii. by apply (spelled_names k _ s).
    + constructor; [by exists g, (s ++ src)|].
      eapply Forall_impl; [exact IH|]. cbn. intros t (s' & r & -> & ->).
      exists (g ++ s ++ s'), r. rewrite <- !app_assoc. split; [done|].
      by rewrite !after_app.
Qed.

(** ** The scoping judgement *)

(** The heads a row offers; [None] before any select. *)
Definition scope : Type := option (gset string).

(** A path reads a variable, or a field whose head is offered. *)
Definition visible (Γ : scope) (path : list string) : Prop :=
  match path with
  | [] => True
  | head :: _ => HasPrefix head "$" = true ∨ ∃ L, Γ = Some L ∧ head ∈ L
  end.

Definition extend (names : list string) (Γ : scope) : scope :=
  (λ L, list_to_set (filter (λ n, n ≠ "") names) ∪ L) <$> Γ.

Definition selected_scope (ty : string) : scope := Some {[ty; "group"; "node"]}.
Definition walked_scope : scope := Some {["node"; "edge"]}.

#[warnings="-register-all"]
Inductive expr_scoped (Γ : scope) : Expr → Prop :=
| es_field path p : visible Γ path → expr_scoped Γ (ExprField path p)
| es_lit v p : expr_scoped Γ (ExprLit v p)
| es_var n p : expr_scoped Γ (ExprVar n p)
| es_regex lhs pat neg p : expr_scoped Γ lhs → expr_scoped Γ (ExprRegex lhs pat neg p)
| es_func n args p : Forall (expr_scoped Γ) args → expr_scoped Γ (ExprFunc n args p).

#[warnings="-register-all"]
Inductive where_scoped : scope → WhereNode → Prop :=
| ws_node Γ w :
    Forall (where_scoped Γ) (where_children w) →
    Forall (λ of_, visible Γ (splitFieldPath of_)) (whereNodeOwnPaths w) →
    Forall (where_scoped walked_scope) (where_subtrees w) →
    where_scoped Γ w.

(** A rule in the scope before it, and the scope after it. *)
Inductive rule_scoped : scope → Rule → scope → Prop :=
| rs_select Γ ty w p :
    from_option (where_scoped (selected_scope ty)) True w →
    rule_scoped Γ (RuleSelect ty w p) (selected_scope ty)
| rs_traverse Γ e d as_ p : rule_scoped Γ (RuleTraverse e d as_ p) (extend [as_; "edge"] Γ)
| rs_walk Γ e as_ p : rule_scoped Γ (RuleWalk e as_ p) (extend [as_; "walk"; "edge"] Γ)
| rs_filter Γ w p : where_scoped Γ w → rule_scoped Γ (RuleFilter w p) Γ
| rs_bind Γ x e p : expr_scoped Γ e → rule_scoped Γ (RuleBind x e p) Γ
| rs_group_by Γ e p : expr_scoped Γ e → rule_scoped Γ (RuleGroupBy e p) Γ
| rs_emit Γ ty fields as_ p :
    map_Forall (λ _, expr_scoped Γ) fields → rule_scoped Γ (RuleEmit ty fields as_ p) Γ
| rs_lookup Γ ty e as_ p : expr_scoped Γ e → rule_scoped Γ (RuleLookup ty e as_ p) Γ
| rs_link Γ e rel e' p : expr_scoped Γ e → expr_scoped Γ e' → rule_scoped Γ (RuleLink e rel e' p) Γ
| rs_source_ref Γ e p : expr_scoped Γ e → rule_scoped Γ (RuleSourceRef e p) Γ.

Inductive rules_scoped : scope → list Rule → Prop :=
| rss_nil Γ : rules_scoped Γ []
| rss_cons Γ Γ' r rs : rule_scoped Γ r Γ' → rules_scoped Γ' rs → rules_scoped Γ (r :: rs).

(** The validator's scope stands for [Γ]. *)
Definition stands_for (s : bareHeadScope) (Γ : scope) : Prop :=
  match Γ with
  | None => selected s = false
  | Some L => selected s = true ∧ legal s = L
  end.

Lemma reset_stands_for ty : stands_for (reset ty) (selected_scope ty).
Proof. split; [done|]. cbn [legal reset]. unfold universalHeads. cbn [list_to_set foldr]. set_solver. Qed.

Lemma neighbor_stands_for : stands_for neighborScope walked_scope.
Proof. done. Qed.

Lemma add_stands_for n s Γ : stands_for s Γ → stands_for (add n s) (extend [n] Γ).
Proof.
  unfold stands_for, add, extend. destruct Γ as [L|]; cbn [fmap option_fmap option_map].
  - intros [H1 H2]. rewrite filter_cons. destruct (decide (n = "")) as [->|Hn].
    + rewrite decide_False by (intros []; done). split; [done|]. rewrite H2. cbn. set_solver.
    + rewrite decide_True by done. split; [done|]. cbn. rewrite H2. set_solver.
  - by intros H; case_decide.
Qed.

Lemma extend_app a b Γ : extend a (extend b Γ) = extend (b ++ a) Γ.
Proof.
  unfold extend. destruct Γ as [L|]; [|done]. cbn. f_equal.
  rewrite filter_app, list_to_set_app_L. set_solver.
Qed.

Lemma checkFieldHead_visible s Γ path p : stands_for s Γ →
  checkFieldHead path p s = None ↔ visible Γ path.
Proof.
  unfold checkFieldHead, visible, stands_for. intros Hs. destruct path as [|h path]; [done|].
  destruct (HasPrefix h "$"); [by split; [left|]|].
  destruct Γ as [L|].
  - destruct Hs as [-> ->]. cbn [negb]. case_bool_decide as Hin.
    + split; [right; by exists L|done].
    + split; [done|]. intros [|(L' & [= <-] & Hin')]; done.
  - rewrite Hs. cbn [negb]. split; [done|]. intros [|(L & ? & _)]; done.
Qed.

Lemma checkExprHeads_scoped s Γ e : stands_for s Γ → checkExprHeads s e = None ↔ expr_scoped Γ e.
Proof.
  intros Hs. induction e as [path p|v p|n p|lhs pat neg p IH|n args p IH] using Expr_nested_ind;
    cbn [checkExprHeads].
  - rewrite (checkFieldHead_visible s Γ) by done. split; [by constructor|by inversion 1].
  - split; [constructor|done].
  - split; [constructor|done].
  - rewrite IH. split; [by constructor|by inversion 1].
  - rewrite first_error_none. rewrite Forall_forall in IH. split.
    + intros H. rewrite Forall_forall in H. constructor. apply Forall_forall. intros e He.
      by apply IH, H.
    + intros H. inversion H as [| | | |? ? ? Hargs]; subst. rewrite Forall_forall in Hargs |- *.
      intros e He. by apply IH, Hargs.
Qed.

Lemma checkWhereTreeHeads_scoped p w : ∀ s Γ, stands_for s Γ →
  checkWhereTreeHeads p s w = None ↔ where_scoped Γ w.
Proof.
  induction w as [w IHc IHs] using WhereNode_nested_ind. intros s Γ Hs.
  rewrite checkWhereTreeHeads_eq.
  assert (H1 : first_error (checkWhereTreeHeads p s) (where_children w) = None
               ↔ Forall (where_scoped Γ) (where_children w)).
  { rewrite first_error_none, !Forall_forall. rewrite Forall_forall in IHc.
    split; intros H c Hc; by apply (IHc c Hc s Γ Hs), H. }
  assert (H2 : first_error (λ of_, checkFieldHead (splitFieldPath of_) p s) (whereNodeOwnPaths w) = None
               ↔ Forall (λ of_, visible Γ (splitFieldPath of_)) (whereNodeOwnPaths w)).
  { rewrite first_error_none, !Forall_forall.
    split; intros H c Hc; by apply (checkFieldHead_visible s Γ _ p Hs), H. }
  assert (H3 : first_error (checkWhereTreeHeads p neighborScope) (where_subtrees w) = None
               ↔ Forall (where_scoped walked_scope) (where_subtrees w)).
  { rewrite first_error_none, !Forall_forall. rewrite Forall_forall in IHs.
    split; intros H c Hc; by apply (IHs c Hc _ _ neighbor_stands_for), H. }
  split.
  - destruct (first_error _ (where_children w)); [done|].
    destruct (first_error _ (whereNodeOwnPaths w)); [done|]. intros H.
    constructor; [by apply H1|by apply H2|by apply H3].
  - inversion 1 as [? ? Hc Ho Hw]; subst.
    apply H1 in Hc as ->. apply H2 in Ho as ->. by apply H3.
Qed.

Lemma elem_of_sorted_names fields n : n ∈ sorted_names fields ↔ is_Some (fields !! n).
Proof.
  unfold sorted_names. rewrite elem_of_sort_strings, list_elem_of_fmap. split.
  - intros ([n' e] & -> & H%elem_of_map_to_list). by exists e.
  - intros [e H]. exists (n, e). split; [done|]. by apply elem_of_map_to_list.
Qed.

Lemma validateRuleHeads_scoped r s Γ : stands_for s Γ →
  ∃ Γ', stands_for (validateRuleHeads r s).2 Γ' ∧
    ((validateRuleHeads r s).1 = None ↔ rule_scoped Γ r Γ') ∧
    (∀ Γ'', rule_scoped Γ r Γ'' → Γ'' = Γ').
Proof.
  intros Hs. destruct r as [ty [w|] p|e d as_ p|e as_ p|w p|x e p|e p|ty fs as_ p|ty e as_ p
      |e1 rel e2 p|e p]; cbn [validateRuleHeads fst snd].
  - exists (selected_scope ty). split; [apply reset_stands_for|]. split; [|by inversion 1].
    rewrite (checkWhereTreeHeads_scoped p w _ _ (reset_stands_for ty)).
    split; [by intros; constructor|by inversion 1].
  - exists (selected_scope ty). split; [apply reset_stands_for|]. split; [|by inversion 1].
    split; [by intros; constructor|done].
  - exists (extend [as_; "edge"] Γ). split.
    + change [as_; "edge"] with ([as_] ++ ["edge"]). rewrite <- extend_app.
      by do 2 apply add_stands_for.
    + split; [|by inversion 1]. split; [by constructor|done].
  - exists (extend [as_; "walk"; "edge"] Γ). split.
    + change [as_; "walk"; "edge"] with (([as_] ++ ["walk"]) ++ ["edge"]). rewrite <- !extend_app.
      by do 3 apply add_stands_for.
    + split; [|by inversion 1]. split; [by constructor|done].
  - exists Γ. split; [done|]. split; [|by inversion 1].
    rewrite (checkWhereTreeHeads_scoped p w s Γ Hs). split; [by constructor|by inversion 1].
  - exists Γ. split; [done|]. split; [|by inversion 1].
    rewrite (checkExprHeads_scoped s Γ e Hs). split; [by constructor|by inversion 1].
  - exists Γ. split; [done|]. split; [|by inversion 1].
    rewrite (checkExprHeads_scoped s Γ e Hs). split; [by constructor|by inversion 1].
  - exists Γ. split; [done|]. split; [|by inversion 1]. rewrite first_error_none, Forall_forall.
    split.
    + intros H. constructor. intros n e He. apply (checkExprHeads_scoped s Γ e Hs).
      specialize (H n). rewrite elem_of_sorted_names, He in H. by apply H.
    + inversion 1 as [| | | | | |? ? ? ? ? Hf| | |]; subst. intros n _.
      destruct (fs !! n) as [e|] eqn:He; [|done].
      apply (checkExprHeads_scoped s Γ e Hs). exact (Hf n e He).
  - exists Γ. split; [done|]. split; [|by inversion 1].
    rewrite (checkExprHeads_scoped s Γ e Hs). split; [by constructor|by inversion 1].
  - exists Γ. split; [done|]. split; [|by inversion 1].
    pose proof (checkExprHeads_scoped s Γ e1 Hs) as H1. pose proof (checkExprHeads_scoped s Γ e2 Hs) as H2.
    destruct (checkExprHeads s e1).
    + split; [done|]. inversion 1 as [| | | | | | | |? ? ? ? ? He1 _|]; subst. by apply H1 in He1.
    + rewrite H2. split; [intros; constructor; [by apply H1|done]|by inversion 1].
  - exists Γ. split; [done|]. split; [|by inversion 1].
    rewrite (checkExprHeads_scoped s Γ e Hs). split; [by constructor|by inversion 1].
Qed.

Lemma validate_rules_scoped rules : ∀ s Γ, stands_for s Γ →
  validate_rules rules s = None ↔ rules_scoped Γ rules.
Proof.
  induction rules as [|r rules IH]; intros s Γ Hs; cbn [validate_rules].
  { split; [constructor|done]. }
  destruct (validateRuleHeads_scoped r s Γ Hs) as (Γ' & Hs' & Hr & Hdet).
  destruct (validateRuleHeads r s) as [[e|] s']; cbn [fst snd] in *.
  - split; [done|]. inversion 1 as [|? Γ'' ? ? Hr']; subst.
    rewrite (Hdet _ Hr') in Hr'. by apply Hr in Hr'.
  - rewrite (IH s' Γ' Hs'). split.
    + intros H. exact (rss_cons Γ Γ' r rules (proj1 Hr eq_refl) H).
    + inversion 1 as [|? Γ'' ? ? Hr' H']; subst. by rewrite <- (Hdet _ Hr').
Qed.

(** C18: The head check is the scoping judgement: a recipe passes exactly when every bare
    head is one its row offers: the selected type, [group] and [node] after a select, the
    aliases and [edge] after a traverse or walk as well, and only [node] and [edge] in the
    sub-tree of a walk leaf; nothing before the first select. *)
Theorem head_check_is_scoping (r : Recipe) :
  validateBareHeads r = None ↔ rules_scoped None (Rules r).
Proof. by apply validate_rules_scoped. Qed.

Lemma Parse_spec (strictUnmarshal : string → result string WhereNode) (src : list ascii) :
  ∃ r, Parse strictUnmarshal src = Some r ∧
    match r with
    | Ok recipe => ∃ toks, Lex src = Some (Ok toks) ∧ recipe_ok toks recipe
    | Err e => ∃ s t, src = s ++ t ∧ PErrPos e = after {| Line := 1; Col := 1 |} s
    end.
Proof.
  unfold Parse. destruct (lex_loop_lexed (S (length src)) (start_lexer src) [] ltac:(cbn; lia))
    as (r & Hlex & Hr). fold (Lex src) in Hlex. rewrite Hlex. destruct r as [toks|e].
  2: { eexists. split; [done|]. destruct Hr as (s & t & Hs & Ht). by exists s, t. }
  destruct Hr as (toks' & -> & Hl). cbn [app] in *.
  apply lexed_tokens in Hl as [(b & eof & -> & Heof) [Hnames Hpos]].
  cbn [start_lexer rest pos] in Hpos.
  assert (V : valid eof (b ++ [eof]) (b ++ [eof])) by by exists [], b.
  pose proof (runs_parseRecipe eof (b ++ [eof]) Heof Hnames strictUnmarshal _ V) as H. unfold runs in H.
  destruct (parseRecipe strictUnmarshal (b ++ [eof])) as [[[recipe ts]|e]|]; [| |done].
  - destruct H as (_ & _ & Hok). exists (Ok recipe). split; [done|]. by exists (b ++ [eof]).
  - exists (Err e). split; [done|]. destruct H as (t & Ht & <-).
    rewrite Forall_forall in Hpos. exact (Hpos t Ht).
Qed.

(** C27: Every source parses or is refused: the parser always ends; a recipe it returns is
    well-scoped, has only well-formed field paths, the three directions, an identity on
    every emit and positions of tokens; and an error cites a position of the source. *)
Theorem Parse_sound (strictUnmarshal : string → result string WhereNode) (src : list ascii) :
  ∃ r, Parse strictUnmarshal src = Some r ∧
    match r with
    | Ok recipe => rules_scoped None (Rules recipe) ∧
        ∃ toks, Lex src = Some (Ok toks) ∧ Forall (rule_ok toks) (Rules recipe)
    | Err e => ∃ s t, src = s ++ t ∧ PErrPos e = after {| Line := 1; Col := 1 |} s
    end.
Proof.
  destruct (Parse_spec strictUnmarshal src) as ([recipe|e] & Hr & H); eexists; (split; [exact Hr|]); [|exact H].
  destruct H as (toks & Hl & _ & Hrules & Hv). split; [|by exists toks].
  by apply (validate_rules_scoped _ newBareHeadScope None).
Qed.
