(* ===== verification/RecipePrint.v ===== *)
(** * Parsing undoes printing

    A printer of recipes, symbol by symbol, and the proof that the parser of
    [RecipeParse.v], on the tokens of [RecipeLex.v], reads a printed recipe back,
    positions apart. *)

From S2P Require Import Prelude Gostd RecipeLex RecipeParse.
From Stdlib Require Import Ascii.

(** ** Positions erased *)

Definition nowhere : Position := {| Line := 0; Col := 0 |}.

Fixpoint erase (e : Expr) : Expr :=
  match e with
  | ExprField path _ => ExprField path nowhere
  | ExprLit v _ => ExprLit v nowhere
  | ExprVar n _ => ExprVar n nowhere
  | ExprRegex lhs pat neg _ => ExprRegex (erase lhs) pat neg nowhere
  | ExprFunc n args _ => ExprFunc n (map erase args) nowhere
  end.

Definition erase_rule (r : Rule) : Rule :=
  match r with
  | RuleSelect ty w _ => RuleSelect ty w nowhere
  | RuleTraverse e d as_ _ => RuleTraverse e d as_ nowhere
  | RuleWalk e as_ _ => RuleWalk e as_ nowhere
  | RuleFilter w _ => RuleFilter w nowhere
  | RuleBind x e _ => RuleBind x (erase e) nowhere
  | RuleGroupBy e _ => RuleGroupBy (erase e) nowhere
  | RuleEmit ty fields as_ _ => RuleEmit ty (erase <$> fields) as_ nowhere
  | RuleLookup ty e as_ _ => RuleLookup ty (erase e) as_ nowhere
  | RuleLink e rel e' _ => RuleLink (erase e) rel (erase e') nowhere
  | RuleSourceRef e _ => RuleSourceRef (erase e) nowhere
  end.

(** ** The printer *)

Definition word (s : string) : symbol := (TokIdent, s).
Definition lparen : symbol := (TokLParen, "(").
Definition rparen : symbol := (TokRParen, ")").
Definition comma : symbol := (TokComma, ",").
Definition dot : symbol := (TokDot, ".").
Definition colon_eq : symbol := (TokColonEq, ":=").
Definition line_end : symbol := (TokNewline, String newline "").

Definition head_symbol (h : string) : symbol :=
  match CutPrefix h "$" with Some n => (TokVar, n) | None => word h end.

Definition path_symbols (path : list string) : list symbol :=
  match path with
  | h :: segs => head_symbol h :: concat ((λ s, [dot; word s]) <$> segs)
  | [] => []
  end.

Fixpoint separated (parts : list (list symbol)) : list symbol :=
  match parts with
  | [] => []
  | [p] => p
  | p :: ps => p ++ comma :: separated ps
  end.

(** The flag asks for a primary expression: an operator is put in parentheses. *)
Fixpoint symbols (primary : bool) (e : Expr) : list symbol :=
  match e with
  | ExprField path _ => path_symbols path
  | ExprLit v _ => [(TokString, v)]
  | ExprVar n _ => [(TokVar, n)]
  | ExprRegex lhs pat neg _ =>
      let s := symbols true lhs ++
        [if neg then (TokBangTilde, "!~") else (TokTildeEq, "~="); (TokRegex, pat)] in
      if primary then lparen :: s ++ [rparen] else s
  | ExprFunc n args _ => word n :: lparen :: separated (map (symbols false) args) ++ [rparen]
  end.

Definition as_symbols (a : string) : list symbol :=
  if decide (a = "") then [] else [word "as"; (TokVar, a)].

Definition field_symbols (l : list (string * Expr)) : list symbol :=
  concat ((λ '(n, e), word n :: colon_eq :: symbols false e ++ [comma]) <$> l).

Section Printer.
Context (encode : WhereNode → string).

Definition rule_symbols (r : Rule) : list symbol :=
    match r with
    | RuleSelect ty w _ => [word "select"; word ty]
        ++ match w with Some w => [word "where"; (TokWhereJSON, encode w)] | None => [] end
    | RuleTraverse e d as_ _ => [word "traverse"; word e; word d] ++ as_symbols as_
    | RuleWalk e as_ _ => [word "walk"; word e] ++ as_symbols as_
    | RuleFilter w _ => [word "filter"; (TokWhereJSON, encode w)]
    | RuleBind x e _ => [word "bind"; (TokVar, x); colon_eq] ++ symbols false e
    | RuleGroupBy e _ => word "group_by" :: symbols false e
    | RuleEmit ty fields as_ _ => [word "emit"; word ty; (TokLBrace, "{")]
        ++ field_symbols (map_to_list fields) ++ (TokRBrace, "}") :: as_symbols as_
    | RuleLookup ty e as_ _ => [word "lookup"; word ty; word "by"] ++ symbols false e
        ++ [word "as"; (TokVar, as_)]
    | RuleLink e rel e' _ => word "link" :: symbols false e ++ (TokRelArrow, rel) :: symbols false e'
    | RuleSourceRef e _ => word "source_ref" :: symbols false e
    end.

Definition recipe_symbols (rs : list Rule) : list symbol :=
    concat ((λ r, rule_symbols r ++ [line_end]) <$> rs).
End Printer.

(** ** What can be printed *)

Definition name_ok (s : string) : Prop := is_ident (bytes s).

(** Names are identifiers, a pattern can be spelled, and a path is one the grammar has. *)
Fixpoint expr_printable (e : Expr) : Prop :=
  match e with
  | ExprField path _ =>
      match path with
      | [] => False
      | h :: segs =>
          match CutPrefix h "$" with
          | Some n => name_ok n ∧ segs ≠ []
          | None => name_ok h
          end ∧ Forall name_ok segs
      end
  | ExprLit _ _ => True
  | ExprVar n _ => name_ok n
  | ExprRegex lhs pat _ _ => expr_printable lhs ∧ printable (TokRegex, pat)
  | ExprFunc n args _ => name_ok n ∧ foldr (λ e, and (expr_printable e)) True args
  end.

Definition var_ok (a : string) : Prop := a = "" ∨ name_ok a.

Definition rule_printable (r : Rule) : Prop :=
  match r with
  | RuleSelect ty _ _ => name_ok ty
  | RuleTraverse e d as_ _ => name_ok e ∧ d ∈ ["in"; "out"; "both"] ∧ var_ok as_
  | RuleWalk e as_ _ => name_ok e ∧ var_ok as_
  | RuleFilter _ _ => True
  | RuleBind x e _ => name_ok x ∧ expr_printable e
  | RuleGroupBy e _ | RuleSourceRef e _ => expr_printable e
  | RuleEmit ty fields as_ _ => name_ok ty ∧ ty ≠ "where" ∧ ty ≠ "filter" ∧ var_ok as_ ∧
      (is_Some (fields !! "name") ∨ is_Some (fields !! "identity")) ∧
      map_Forall (λ n e, name_ok n ∧ expr_printable e) fields
  | RuleLookup ty e as_ _ => name_ok ty ∧ expr_printable e ∧ name_ok as_
  | RuleLink e rel e' _ => expr_printable e ∧ printable (TokRelArrow, rel) ∧ expr_printable e'
  end.

(** The where-trees of a rule. *)
Definition rule_wheres (r : Rule) : list WhereNode :=
  match r with
  | RuleSelect _ w _ => option_list w
  | RuleFilter w _ => [w]
  | _ => []
  end.

(** ** Reading symbols *)

(** [m] reads [xs], when [ys] follows, into a value that satisfies [R]. *)
Definition reads_symbols {A} (m : parser A) (xs ys : list symbol) (R : A → Prop) : Prop :=
  ∀ ts, symbol_of <$> ts = xs ++ ys →
    ∃ a ts', m ts = Some (Ok (a, ts')) ∧ symbol_of <$> ts' = ys ∧ R a.

Lemma reads_bind {A B} (m : parser A) (f : A → parser B) xs ys zs Q R :
  reads_symbols m xs (ys ++ zs) Q → (∀ a, Q a → reads_symbols (f a) ys zs R) →
  reads_symbols (m ≫= f) (xs ++ ys) zs R.
Proof.
  intros Hm Hf ts Hts. rewrite <- app_assoc in Hts.
  destruct (Hm ts Hts) as (a & ts1 & E1 & H1 & Ha).
  destruct (Hf a Ha ts1 H1) as (b & ts2 & E2 & H2 & Hb).
  exists b, ts2. unfold mbind, parser_bind. by rewrite E1.
Qed.

(** A parser that reads nothing, in front of another. *)
Lemma reads_bind_nil {A B} (m : parser A) (f : A → parser B) xs ys Q R :
  reads_symbols m [] (xs ++ ys) Q → (∀ a, Q a → reads_symbols (f a) xs ys R) →
  reads_symbols (m ≫= f) xs ys R.
Proof. exact (reads_bind m f [] xs ys Q R). Qed.

Lemma reads_ret {A} (a : A) ys (R : A → Prop) : R a → reads_symbols (mret a) [] ys R.
Proof. intros HR ts Hts. by exists a, ts. Qed.

Lemma reads_weaken {A} (m : parser A) xs ys (Q R : A → Prop) :
  reads_symbols m xs ys Q → (∀ a, Q a → R a) → reads_symbols m xs ys R.
Proof. intros H HQ ts Hts. destruct (H ts Hts) as (a & ts' & ? & ? & ?). eauto 10. Qed.

(** The first symbol of a continuation; the end of input past its end. *)
Definition first_symbol (ys : list symbol) : symbol := default (TokEOF, "") (head ys).

Lemma token_at_symbol ts ys : symbol_of <$> ts = ys → symbol_of (token_at ts) = first_symbol ys.
Proof. intros <-. by destruct ts. Qed.

Lemma kind_at ts ys : symbol_of <$> ts = ys → Kind (token_at ts) = (first_symbol ys).1.
Proof. intros H. by rewrite <- (token_at_symbol ts ys H). Qed.

Lemma symbols_cons ts x xs : symbol_of <$> ts = x :: xs →
  ∃ t ts', ts = t :: ts' ∧ symbol_of t = x ∧ symbol_of <$> ts' = xs.
Proof.
  destruct ts as [|t ts]; [done|]. cbn [fmap list_fmap]. intros H.
  exists t, ts. by injection H.
Qed.

(** Nothing is skipped before a brace or a word. *)
Lemma drop_kinds_stop skipped ts ys : symbol_of <$> ts = ys →
  skipped (first_symbol ys).1 = false → drop_kinds skipped ts = ts.
Proof.
  intros H Hs. rewrite <- (kind_at ts ys H) in Hs. destruct ts as [|t ts]; [done|].
  cbn [drop_kinds]. change (Kind (token_at (t :: ts))) with (Kind t) in Hs. by rewrite Hs.
Qed.

Lemma reads_peek ys : reads_symbols peek [] ys (λ t, symbol_of t = first_symbol ys).
Proof. intros ts Hts. exists (token_at ts), ts. split; [done|]. split; [done|by apply token_at_symbol]. Qed.

Lemma reads_consume x ys : reads_symbols consume [x] ys (λ t, symbol_of t = x).
Proof.
  intros ts Hts. destruct ts as [|t ts]; [done|]. injection Hts as Hx Hts.
  by exists t, ts.
Qed.

Lemma symbol_kind t k v : symbol_of t = (k, v) → Kind t = k.
Proof. by intros [= ? ?]. Qed.
Lemma symbol_value t k v : symbol_of t = (k, v) → Value t = v.
Proof. by intros [= ? ?]. Qed.

Lemma reads_expect k v label ys : reads_symbols (expect k label) [(k, v)] ys (λ _, True).
Proof.
  unfold expect. apply (reads_bind_nil _ _ _ _ _ _ (reads_peek _)). intros t Ht.
  rewrite decide_True by exact (symbol_kind t k v Ht).
  apply (reads_bind _ _ [_] [] ys _ _ (reads_consume (k, v) _)). intros _ _. by apply reads_ret.
Qed.

Lemma reads_expectIdent v label ys :
  reads_symbols (expectIdent label) [word v] ys (λ t, symbol_of t = word v).
Proof.
  unfold expectIdent. apply (reads_bind_nil _ _ _ _ _ _ (reads_peek _)). intros t Ht.
  rewrite decide_True by exact (symbol_kind t _ v Ht).
  apply (reads_bind _ _ [_] [] ys _ _ (reads_consume (word v) _)). intros _ _. by apply reads_ret.
Qed.

Lemma is_word_symbol name t k v : symbol_of t = (k, v) →
  is_word name t = bool_decide (k = TokIdent) && bool_decide (v = name).
Proof. intros [= <- <-]. done. Qed.

Lemma reads_matchIdent name ys :
  reads_symbols (matchIdent name) [] ys (λ b, b = bool_decide (first_symbol ys = word name)).
Proof.
  unfold matchIdent. apply (reads_bind_nil _ _ [] _ _ _ (reads_peek _)). intros t Ht.
  apply reads_ret. cbn [app] in Ht. destruct (first_symbol ys) as [k v].
  rewrite (is_word_symbol name t k v Ht). unfold word.
  repeat case_bool_decide; cbn; congruence.
Qed.

(** The end of what an expression is followed by: no dot, operator or call. *)
Definition ends_primary (ys : list symbol) : Prop :=
  (first_symbol ys).1 ∉ [TokDot; TokLParen].
Definition ends_expr (ys : list symbol) : Prop :=
  (first_symbol ys).1 ∉ [TokDot; TokLParen; TokTildeEq; TokBangTilde].

Lemma ends_expr_primary ys : ends_expr ys → ends_primary ys.
Proof. unfold ends_expr, ends_primary. rewrite !not_elem_of_cons. tauto. Qed.

Lemma reads_path_loop segs : ∀ fuel ys, (length segs < fuel)%nat → (first_symbol ys).1 ≠ TokDot →
  reads_symbols (path_loop fuel) (concat ((λ s, [dot; word s]) <$> segs)) ys (λ p, p = segs).
Proof.
  induction segs as [|s segs IH]; intros fuel ys Hf Hy; destruct fuel as [|fuel];
    cbn [length] in Hf; try lia; cbn [path_loop fmap list_fmap concat].
  - apply (reads_bind_nil _ _ [] _ _ _ (reads_peek _)). intros t Ht. cbn [app] in Ht.
    rewrite decide_False; [by apply reads_ret|]. destruct (first_symbol ys) as [k v].
    by rewrite (symbol_kind t k v Ht).
  - apply (reads_bind_nil _ _ _ _ _ _ (reads_peek _)). intros t Ht.
    rewrite decide_True by exact (symbol_kind t _ _ Ht).
    apply (reads_bind _ _ [dot] (word s :: _) ys _ _ (reads_consume dot _)). intros _ _.
    apply (reads_bind _ _ [word s] _ ys _ _ (reads_expectIdent s _ _)). intros t' Ht'.
    rewrite <- (app_nil_r (concat _)).
    apply (reads_bind _ _ _ [] ys _ _ (IH fuel ys ltac:(lia) Hy)). intros p ->.
    rewrite (symbol_value t' _ _ Ht'). by apply reads_ret.
Qed.

(** A path is parsed from its symbols; the head is a variable or an identifier. *)
Lemma reads_parseVarPath h segs fuel ys : (length segs < fuel)%nat → (first_symbol ys).1 ≠ TokDot →
  (CutPrefix h "$" ≠ None → segs ≠ []) →
  reads_symbols (parseVarPath fuel) (path_symbols (h :: segs)) ys
    (λ e, erase e = ExprField (h :: segs) nowhere).
Proof.
  intros Hf Hy Hv. unfold parseVarPath. cbn [path_symbols].
  apply (reads_bind _ _ [head_symbol h] _ ys _ _ (reads_consume _ _)). intros t Ht.
  apply (reads_bind_nil _ _ _ _ (λ first, first = h)).
  { unfold head_symbol in Ht. destruct (CutPrefix h "$") as [n|] eqn:Hc.
    - apply CutPrefix_Some in Hc as ->. rewrite (symbol_kind t _ _ Ht), (symbol_value t _ _ Ht).
      by apply reads_ret.
    - rewrite (symbol_kind t _ _ Ht), (symbol_value t _ _ Ht). by apply reads_ret. }
  intros first ->. rewrite <- (app_nil_r (concat _)).
  apply (reads_bind _ _ _ [] ys _ _ (reads_path_loop segs fuel ys Hf Hy)). intros p ->.
  destruct segs as [|s segs]; [|by apply reads_ret].
  unfold head_symbol in Ht. destruct (CutPrefix h "$") as [n|]; [by destruct Hv|].
  rewrite decide_False by (rewrite (symbol_kind t _ _ Ht); done). by apply reads_ret.
Qed.

Lemma reads_var n fuel ys : (first_symbol ys).1 ≠ TokDot → (0 < fuel)%nat →
  reads_symbols (parseVarPath fuel) [(TokVar, n)] ys (λ e, erase e = ExprVar n nowhere).
Proof.
  intros Hy Hf. unfold parseVarPath.
  apply (reads_bind _ _ [(TokVar, n)] [] ys _ _ (reads_consume _ _)). intros t Ht.
  rewrite (symbol_kind t _ _ Ht), (symbol_value t _ _ Ht).
  apply (reads_bind_nil _ _ _ _ (λ first, first = "$" +:+ n)); [by apply reads_ret|].
  intros first ->.
  apply (reads_bind_nil _ _ [] ys _ _ (reads_path_loop [] fuel ys Hf Hy)). intros p ->.
  rewrite decide_True by done. by apply reads_ret.
Qed.

(** ** Expressions *)

(** The start of a primary expression decides the branch of the parser. *)
Definition reads_primary (e : Expr) : Prop := ∀ fuel ys,
  (2 * length (symbols true e) ≤ fuel)%nat → ends_primary ys →
  reads_symbols (parsePrimary fuel (parseExpr fuel) (parseArgs fuel)) (symbols true e) ys
    (λ e', erase e' = erase e).
Definition reads_expr (e : Expr) : Prop := ∀ fuel ys,
  (2 * length (symbols false e) < fuel)%nat → ends_expr ys →
  reads_symbols (parseExpr fuel) (symbols false e) ys (λ e', erase e' = erase e).

(** An expression that is not an operator is a primary. *)
Lemma reads_expr_primary e : symbols false e = symbols true e → reads_primary e → reads_expr e.
Proof.
  intros Heq Hp [|fuel] ys Hf Hy; [lia|]. cbn [parseExpr]. rewrite Heq in *.
  rewrite <- (app_nil_r (symbols true e)).
  apply (reads_bind _ _ _ [] ys _ _ (Hp fuel ys ltac:(lia) (ends_expr_primary ys Hy))).
  intros e' He'. apply (reads_bind_nil _ _ [] _ _ _ (reads_peek _)). intros t Ht. cbn [app] in Ht.
  unfold ends_expr in Hy. destruct (first_symbol ys) as [k v]. cbn [fst] in Hy.
  rewrite !not_elem_of_cons in Hy.
  rewrite (symbol_kind t k v Ht), !bool_decide_false by tauto. by apply reads_ret.
Qed.

Lemma reads_operator lhs pat neg p : reads_primary lhs → reads_expr (ExprRegex lhs pat neg p).
Proof.
  intros Hl [|fuel] ys Hf Hy; [lia|]. cbn [parseExpr symbols] in *. rewrite length_app in Hf.
  set (op := if neg then (TokBangTilde, "!~") else (TokTildeEq, "~=")) in *.
  apply (reads_bind _ _ _ [op; (TokRegex, pat)] ys _ _
           (Hl fuel ([op; (TokRegex, pat)] ++ ys) ltac:(lia)
              ltac:(unfold ends_primary, op; destruct neg; cbn; rewrite !not_elem_of_cons;
                    repeat split; try done; apply not_elem_of_nil))).
  intros e' He'. apply (reads_bind_nil _ _ _ _ _ _ (reads_peek _)). intros t Ht. cbn [app] in Ht.
  change (first_symbol (op :: _)) with op in Ht.
  destruct op as [k v] eqn:Hop.
  assert (Hk : negb (bool_decide (Kind t = TokTildeEq)) && negb (bool_decide (Kind t = TokBangTilde)) = false
    ∧ bool_decide (Kind t = TokBangTilde) = neg).
  { rewrite (symbol_kind t k v Ht). unfold op in Hop. destruct neg; by injection Hop as <- <-. }
  destruct Hk as [-> Hneg].
  apply (reads_bind _ _ [(k, v)] [(TokRegex, pat)] ys _ _ (reads_consume _ _)). intros _ _.
  apply (reads_bind_nil _ _ _ _ _ _ (reads_peek _)). intros rt Hrt.
  rewrite decide_True by exact (symbol_kind rt _ _ Hrt).
  apply (reads_bind _ _ [(TokRegex, pat)] [] ys _ _ (reads_consume _ _)). intros _ _.
  apply reads_ret. cbn [erase]. by rewrite He', (symbol_value rt _ _ Hrt), Hneg.
Qed.

(** A symbol that ends an expression. *)
Definition ender (x : symbol) : Prop := x.1 ∉ [TokDot; TokLParen; TokTildeEq; TokBangTilde].

Lemma ends_by x ys : ender x → ends_expr (x :: ys).
Proof. done. Qed.

Ltac solve_ender := apply ends_by; unfold ender; rewrite !not_elem_of_cons;
  repeat split; try discriminate; apply not_elem_of_nil.

(** The first symbol of an expression. *)
Lemma symbols_first b e : expr_printable e →
  ∃ x xs, symbols b e = x :: xs ∧ x.1 ≠ TokRParen.
Proof.
  revert b. induction e as [[|h segs] p|v p|n p|lhs pat neg p IH|n args p _] using Expr_nested_ind;
    intros b Hp.
  - done.
  - cbn. eexists _, _. split; [done|]. unfold head_symbol. by destruct (CutPrefix h "$").
  - by eexists _, _.
  - by eexists _, _.
  - cbn [symbols]. destruct b; [by eexists _, _|].
    destruct (IH true (proj1 Hp)) as (x & xs & -> & Hx). by eexists _, _.
  - by eexists _, _.
Qed.

Lemma reads_paren e p lhs pat neg : e = ExprRegex lhs pat neg p →
  reads_expr e → reads_primary e.
Proof.
  intros -> He fuel ys Hf Hy. unfold parsePrimary.
  assert (Hs : symbols true (ExprRegex lhs pat neg p)
    = lparen :: symbols false (ExprRegex lhs pat neg p) ++ [rparen]) by done.
  rewrite Hs in Hf |- *. cbn [length] in Hf. rewrite length_app in Hf. cbn [length] in Hf.
  apply (reads_bind_nil _ _ _ _ _ _ (reads_peek _)). intros t Ht.
  rewrite (symbol_kind t _ _ Ht).
  apply (reads_bind _ _ [lparen] _ ys _ _ (reads_consume lparen _)). intros _ _.
  apply (reads_bind _ _ _ [rparen] ys _ _
           (He fuel ([rparen] ++ ys) ltac:(lia) ltac:(solve_ender))).
  intros e' He'. apply (reads_bind _ _ [rparen] [] ys _ _ (reads_expect _ _ _ _)). intros _ _.
  by apply reads_ret.
Qed.

Lemma reads_args args : args ≠ [] → Forall reads_expr args → ∀ fuel ys,
  (2 * length (separated (map (symbols false) args)) + 1 < fuel)%nat →
  reads_symbols (parseArgs fuel) (separated (map (symbols false) args)) (rparen :: ys)
    (λ es, map erase es = map erase args).
Proof.
  intros Hne H. induction H as [|e args He Hargs IH]; [done|]. intros [|fuel] ys Hf; [lia|].
  cbn [parseArgs]. destruct args as [|e2 args].
  - cbn [map separated] in *. rewrite <- (app_nil_r (symbols false e)).
    apply (reads_bind _ _ _ [] _ _ _ (He fuel (rparen :: ys) ltac:(lia) ltac:(solve_ender))).
    intros e' He'. apply (reads_bind_nil _ _ [] _ _ _ (reads_peek _)). intros t Ht.
    rewrite decide_False by (rewrite (symbol_kind t _ _ Ht); done). apply reads_ret. cbn. by rewrite He'.
  - change (separated (map (symbols false) (e :: e2 :: args)))
      with (symbols false e ++ comma :: separated (map (symbols false) (e2 :: args))) in *.
    rewrite length_app in Hf. cbn [length] in Hf.
    apply (reads_bind _ _ _ (comma :: _) _ _ _
      (He fuel ((comma :: separated (map (symbols false) (e2 :: args))) ++ rparen :: ys)
         ltac:(lia) ltac:(solve_ender))).
    intros e' He'. apply (reads_bind_nil _ _ _ _ _ _ (reads_peek _)). intros t Ht.
    rewrite decide_True by exact (symbol_kind t _ _ Ht).
    apply (reads_bind _ _ [comma] _ _ _ _ (reads_consume comma _)). intros _ _.
    rewrite <- (app_nil_r (separated _)).
    apply (reads_bind _ _ _ [] _ _ _ (IH ltac:(done) fuel ys ltac:(lia))). intros es Hes.
    apply reads_ret. cbn [map]. cbn [map] in Hes. by rewrite He', Hes.
Qed.

Lemma reads_call n args p : Forall expr_printable args → Forall reads_expr args →
  reads_primary (ExprFunc n args p).
Proof.
  intros Hpr Hargs fuel ys Hf Hy. unfold parsePrimary.
  change (symbols true (ExprFunc n args p))
    with (word n :: lparen :: separated (map (symbols false) args) ++ [rparen]) in *.
  cbn [length] in Hf. rewrite length_app in Hf.
  apply (reads_bind_nil _ _ _ _ _ _ (reads_peek _)). intros t Ht. rewrite (symbol_kind t _ _ Ht).
  apply (reads_bind_nil _ _ _ _ (λ t1, Kind t1 = TokLParen)).
  { intros ts Hts. destruct ts as [|a [|b ts]]; [done|done|].
    exists b, (a :: b :: ts). split; [done|]. split; [done|]. by injection Hts. }
  intros t1 Ht1. rewrite decide_True by done. unfold parseFuncCall.
  apply (reads_bind _ _ [word n] _ ys _ _ (reads_consume (word n) _)). intros t2 Ht2.
  apply (reads_bind _ _ [lparen] _ ys _ _ (reads_expect _ _ _ _)). intros _ _.
  apply (reads_bind_nil _ _ _ _ _ _ (reads_peek _)). intros t3 Ht3.
  apply (reads_bind _ _ _ [rparen] ys (λ es, map erase es = map erase args)).
  - destruct args as [|e args].
    + cbn [map separated app] in *. rewrite decide_True by exact (symbol_kind t3 _ _ Ht3).
      by apply reads_ret.
    + assert (Hk : Kind t3 ≠ TokRParen).
      { inversion Hpr as [|? ? He _]; subst. intros Hk.
        destruct (symbols_first false e He) as (x & xs & E & Hx).
        cbn [map separated] in Ht3. apply Hx.
        destruct (map (symbols false) args); rewrite E in Ht3; cbn in Ht3; by rewrite <- Ht3. }
      rewrite decide_False by done. apply (reads_args (e :: args) ltac:(done) Hargs). lia.
  - intros es Hes. apply (reads_bind _ _ [rparen] [] ys _ _ (reads_expect _ _ _ _)). intros _ _.
    apply reads_ret. cbn [erase]. by rewrite (symbol_value t2 _ _ Ht2), Hes.
Qed.

Lemma reads_field h segs p : expr_printable (ExprField (h :: segs) p) →
  reads_primary (ExprField (h :: segs) p).
Proof.
  intros [Hh Hsegs] fuel ys Hf Hy. cbn [symbols path_symbols length] in Hf |- *.
  assert (Hlen : (length segs < fuel)%nat).
  { assert (Hc : (length segs ≤ length (concat ((λ s, [dot; word s]) <$> segs)))%nat).
    { clear. induction segs as [|s segs IH]; cbn; lia. }
    lia. }
  assert (Hdot : (first_symbol ys).1 ≠ TokDot ∧ (first_symbol ys).1 ≠ TokLParen).
  { unfold ends_primary in Hy. rewrite !not_elem_of_cons in Hy. tauto. }
  assert (Hv : CutPrefix h "$" ≠ None → segs ≠ []) by (destruct (CutPrefix h "$"); tauto).
  pose proof (reads_parseVarPath h segs fuel ys Hlen (proj1 Hdot) Hv) as Hread.
  unfold parsePrimary. apply (reads_bind_nil _ _ _ _ _ _ (reads_peek _)). intros t Ht.
  cbn [app first_symbol head default] in Ht. unfold head_symbol in Ht.
  change (reads_symbols
    match Kind t with
    | TokIdent => t1 ← lookahead 1;
        if decide (Kind t1 = TokLParen) then parseFuncCall (parseArgs fuel) else parseVarPath fuel
    | TokVar => parseVarPath fuel
    | TokString => _ ← consume; mret (ExprLit (Value t) (Pos t))
    | TokLParen => _ ← consume; inner ← parseExpr fuel; _ ← expect TokRParen "')'"; mret inner
    | _ => errorf t (UnexpectedToken (Value t))
    end (path_symbols (h :: segs)) ys (λ e', erase e' = ExprField (h :: segs) nowhere)).
  destruct (CutPrefix h "$") as [n|] eqn:Hc; rewrite (symbol_kind t _ _ Ht); [exact Hread|].
  apply (reads_bind_nil _ _ _ _ (λ t1, Kind t1 ≠ TokLParen)).
  - intros ts Hts. exists (default zero_token (ts !! 1%nat)), ts. split; [done|]. split; [done|].
    destruct ts as [|a ts]; [done|]. cbn [fmap list_fmap path_symbols app] in Hts.
    injection Hts as _ Hts. change ((a :: ts) !! 1%nat) with (ts !! 0%nat).
    assert (Htok : default zero_token (ts !! 0%nat) = token_at ts) by by destruct ts.
    rewrite Htok. apply token_at_symbol in Hts. intros Hk.
    apply (f_equal fst) in Hts. change (Kind (token_at ts) = (first_symbol
      (concat ((λ s, [dot; word s]) <$> segs) ++ ys)).1) in Hts. rewrite Hk in Hts.
    destruct segs as [|s segs]; [|done]. by apply (proj2 Hdot).
  - intros t1 Ht1. by rewrite decide_False.
Qed.

Lemma reads_back_expr e : expr_printable e → reads_expr e ∧ reads_primary e.
Proof.
  induction e as [path p|v p|n p|lhs pat neg p IH|n args p IH] using Expr_nested_ind; intros Hp.
  - destruct path as [|h segs]; [done|]. pose proof (reads_field h segs p Hp) as H.
    split; [by apply reads_expr_primary|done].
  - assert (H : reads_primary (ExprLit v p)).
    { intros fuel ys Hf Hy. unfold parsePrimary. cbn [symbols].
      apply (reads_bind_nil _ _ _ _ _ _ (reads_peek _)). intros t Ht.
      rewrite (symbol_kind t _ _ Ht), (symbol_value t _ _ Ht).
      apply (reads_bind _ _ [_] [] ys _ _ (reads_consume _ _)). intros _ _. by apply reads_ret. }
    split; [by apply reads_expr_primary|done].
  - assert (H : reads_primary (ExprVar n p)).
    { intros fuel ys Hf Hy. unfold parsePrimary. cbn [symbols length] in *.
      apply (reads_bind_nil _ _ _ _ _ _ (reads_peek _)). intros t Ht.
      rewrite (symbol_kind t _ _ Ht). apply reads_var; [|lia].
      unfold ends_primary in Hy. rewrite !not_elem_of_cons in Hy. tauto. }
    split; [by apply reads_expr_primary|done].
  - assert (H : reads_expr (ExprRegex lhs pat neg p)) by by apply reads_operator, IH, Hp.
    split; [done|by eapply reads_paren].
  - destruct Hp as [_ Hargs]. apply foldr_and_Forall in Hargs.
    assert (H : reads_primary (ExprFunc n args p)).
    { apply reads_call; [done|]. rewrite Forall_forall in *. intros e He. by apply IH, Hargs. }
    split; [by apply reads_expr_primary|done].
Qed.

Lemma reads_parse_expr e ys : expr_printable e → ends_expr ys →
  reads_symbols parse_expr (symbols false e) ys (λ e', erase e' = erase e).
Proof.
  intros Hp Hy ts Hts. unfold parse_expr.
  apply (proj1 (reads_back_expr e Hp) (expr_fuel ts) ys); [|done|done].
  unfold expr_fuel. rewrite <- (length_fmap symbol_of ts), Hts, length_app. lia.
Qed.

(** ** Rules *)

(** The end of a rule: what follows continues no rule. *)
Definition ends_rule (ys : list symbol) : Prop := (first_symbol ys).1 = TokNewline.

Lemma ends_rule_expr ys : ends_rule ys → ends_expr ys.
Proof.
  unfold ends_rule, ends_expr. intros ->. rewrite !not_elem_of_cons.
  repeat split; try discriminate. apply not_elem_of_nil.
Qed.

Lemma reads_expectVar keyword a ys :
  reads_symbols (expectVar keyword) [(TokVar, a)] ys (λ t, Value t = a).
Proof.
  unfold expectVar. apply (reads_bind_nil _ _ _ _ _ _ (reads_peek _)). intros t Ht.
  rewrite decide_True by exact (symbol_kind t _ _ Ht).
  apply (reads_bind _ _ [_] [] ys _ _ (reads_consume _ _)). intros _ _.
  apply reads_ret. exact (symbol_value t _ _ Ht).
Qed.

Lemma reads_parseAs a ys : ends_rule ys → reads_symbols parseAs (as_symbols a) ys (λ b, b = a).
Proof.
  intros Hy. unfold parseAs, as_symbols. destruct (decide (a = "")) as [->|Ha].
  - apply (reads_bind_nil _ _ [] _ _ _ (reads_matchIdent "as" _)). intros b ->.
    rewrite bool_decide_false; [by apply reads_ret|]. cbn [app].
    intros E. unfold ends_rule in Hy. by rewrite E in Hy.
  - apply (reads_bind_nil _ _ _ _ _ _ (reads_matchIdent "as" _)). intros b ->.
    rewrite bool_decide_true by done.
    apply (reads_bind _ _ [word "as"] [_] ys _ _ (reads_consume _ _)). intros _ _.
    apply (reads_bind _ _ [_] [] ys _ _ (reads_expectVar _ a _)). intros t <-. by apply reads_ret.
Qed.

Section Rules.
Context (strictUnmarshal : string → result string WhereNode) (encode : WhereNode → string).

  (** The printed where-tree is one object and decodes to the tree. *)
Definition encodes (w : WhereNode) : Prop :=
    where_span (bytes (encode w)) ∧ strictUnmarshal (encode w) = Ok w.

Lemma trim_span s : where_span (bytes s) → TrimSpace s = s.
Proof.
    intros (a & _ & E). unfold TrimSpace. change (String.list_ascii_of_string s) with (bytes s).
    rewrite E, trim_space_id, <- E.
    - apply String.string_of_list_ascii_of_string.
    - unfold no_space_byte. repeat constructor; discriminate.
    - unfold no_space_byte. repeat constructor; discriminate.
  Qed.

Lemma reads_where keyword w ys : encodes w →
    reads_symbols (parseWhereTreeClause strictUnmarshal keyword) [(TokWhereJSON, encode w)] ys
      (λ w', w' = w).
Proof.
    intros [Hspan Hdec]. unfold parseWhereTreeClause.
    apply (reads_bind_nil _ _ _ _ _ _ (reads_peek _)). intros t Ht.
    rewrite decide_True by exact (symbol_kind t _ _ Ht).
    apply (reads_bind _ _ [_] [] ys _ _ (reads_consume _ _)). intros _ _ ts Hts.
    exists w, ts. split; [|done]. unfold lift, ParseWhereTree.
    rewrite (symbol_value t _ _ Ht), (trim_span _ Hspan), Hdec.
    destruct Hspan as (a & _ & E).
    destruct (encode w) as [|c s]; [done|]. injection E as -> _.
    by rewrite !bool_decide_false.
  Qed.

Lemma reads_keyword {A} v (f : Token → parser A) xs ys R :
    (∀ t, reads_symbols (f t) xs ys R) → reads_symbols (consume ≫= f) (word v :: xs) ys R.
Proof. intros Hf. apply (reads_bind _ _ [word v] xs ys _ _ (reads_consume _ _)). auto. Qed.

  (** Entering the parser of the rule with keyword [v]. *)
Ltac enter_rule :=
    unfold parseRule; apply (reads_bind_nil _ _ _ _ _ _ (reads_peek _));
    let t := fresh "t" in let Ht := fresh "Ht" in intros t Ht;
    rewrite decide_True by exact (symbol_kind t _ _ Ht);
    rewrite (symbol_value t _ _ Ht); cbn zeta;
    repeat (rewrite decide_False by done); rewrite decide_True by done.

Lemma reads_fields l : ∀ fuel fields ys,
    Forall (λ '(n, e), expr_printable e) l → NoDup (fst <$> l) →
    Forall (λ n, fields !! n = None) (fst <$> l) → (length (field_symbols l) < fuel)%nat →
    (first_symbol ys).1 = TokRBrace →
    reads_symbols (field_loop fuel fields) (field_symbols l) ys
      (λ res, erase <$> res = list_to_map (prod_map id erase <$> l) ∪ (erase <$> fields)).
Proof.
    induction l as [|[n e] l IH]; intros [|fuel] fields ys Hp Hnd Hnew Hf Hy;
      try (cbn [length] in Hf; lia); cbn [field_loop].
    - apply (reads_bind_nil _ _ [] _ _ _ (reads_peek _)). intros t Ht. cbn [app] in Ht.
      apply (f_equal fst) in Ht. cbn [symbol_of fst] in Ht. rewrite Ht, Hy, bool_decide_true by done.
      cbn [orb]. apply reads_ret. symmetry. apply (left_id_L ∅ (∪)).
    - change (field_symbols ((n, e) :: l))
        with ((word n :: colon_eq :: symbols false e ++ [comma]) ++ field_symbols l) in *.
      cbn [app] in *. cbn [length] in Hf. rewrite !length_app in Hf. cbn [length] in Hf.
      apply Forall_cons in Hp as [He Hp]. cbn [fmap list_fmap fst] in Hnd, Hnew.
      apply NoDup_cons in Hnd as [Hn Hnd]. apply Forall_cons in Hnew as [Hn0 Hnew].
      apply (reads_bind_nil _ _ _ _ _ _ (reads_peek _)). intros t Ht.
      rewrite (symbol_kind t _ _ Ht), !bool_decide_false by done. cbn [orb].
      apply (reads_bind _ _ [word n] _ ys _ _ (reads_expectIdent n _ _)). intros nt Hnt.
      apply (reads_bind _ _ [colon_eq] _ ys _ _ (reads_expect _ _ _ _)). intros _ _.
      rewrite <- app_assoc. cbn [app].
      apply (reads_bind _ _ (symbols false e) _ ys _ _
               (reads_parse_expr e ((comma :: field_symbols l) ++ ys) He ltac:(solve_ender))).
      intros e' He'. rewrite (symbol_value nt _ _ Hnt), Hn0.
      apply (reads_bind _ _ [comma] (field_symbols l) ys (λ _, True)).
      { intros ts Hts. apply symbols_cons in Hts as (c & ts' & -> & Hc & Hts).
        exists tt, ts'. split; [|done]. unfold skipSeparators. cbn [drop_kinds].
        rewrite (symbol_kind c TokComma "," Hc), (drop_kinds_stop _ ts' _ Hts); [done|].
        destruct l as [|[n2 e2] l]; [|done].
        cbn [field_symbols fmap list_fmap concat app]. by rewrite Hy. }
      intros _ _. eapply reads_weaken.
      + apply (IH fuel (<[n:=e']> fields) ys Hp Hnd); [|lia|done].
        rewrite Forall_forall in *. intros m Hm. rewrite lookup_insert_ne; [by apply Hnew|].
        intros ->. done.
      + cbn beta. intros res ->. cbn [fmap list_fmap prod_map list_to_map foldr uncurry fst snd id].
        change (list_to_map (prod_map id erase <$> (n, e) :: l))
          with (<[n := erase e]> (list_to_map (prod_map id erase <$> l) : gmap string Expr)).
        rewrite fmap_insert, He', <- insert_union_r; [by rewrite insert_union_l|].
        apply not_elem_of_list_to_map_1. rewrite <- list_fmap_compose. exact Hn.
  Qed.

Lemma reads_parseFieldMap fields ys :
    map_Forall (λ n e, name_ok n ∧ expr_printable e) fields → (first_symbol ys).1 = TokRBrace →
    reads_symbols parseFieldMap (field_symbols (map_to_list fields)) ys
      (λ res, erase <$> res = erase <$> fields).
Proof.
    intros Hf Hy. unfold parseFieldMap.
    apply (reads_bind_nil _ _ _ _ (λ _, True)).
    { intros ts Hts. exists tt, ts. split; [|done]. unfold skipNewlines.
      rewrite (drop_kinds_stop _ ts _ Hts); [done|].
      destruct (map_to_list fields) as [|[n e] l]; [|done].
      cbn [field_symbols fmap list_fmap concat app]. by rewrite Hy. }
    intros _ _. eapply reads_weaken.
    - intros ts Hts. unfold field_map.
      apply (reads_fields (map_to_list fields) (S (length ts)) ∅ ys); [| | | |done|done].
      + apply Forall_forall. intros [n e] Hin%elem_of_map_to_list. by apply (Hf n e).
      + apply NoDup_fst_map_to_list.
      + apply Forall_forall. intros n _. apply lookup_empty.
      + rewrite <- (length_fmap symbol_of ts), Hts, length_app. lia.
    - cbn beta. intros res ->. rewrite fmap_empty, (right_id_L ∅ (∪)).
      by rewrite list_to_map_fmap, list_to_map_to_list.
  Qed.

Definition gives_rule_back (r r' : Rule) : Prop := erase_rule r' = erase_rule r.

  (** A rule of a keyword and one expression. *)
Lemma reads_one_expr (f : Expr → Position → Rule) v e p ys :
    (∀ e1 e2 p1 p2, erase e1 = erase e2 → erase_rule (f e1 p1) = erase_rule (f e2 p2)) →
    expr_printable e → ends_rule ys →
    reads_symbols (kw ← consume; e ← parse_expr; mret (f e (Pos kw))) (word v :: symbols false e) ys
      (gives_rule_back (f e p)).
Proof.
    intros Hf He Hy. apply reads_keyword. intros kw. rewrite <- (app_nil_r (symbols false e)).
    apply (reads_bind _ _ _ [] ys _ _ (reads_parse_expr e ys He (ends_rule_expr ys Hy))).
    intros e' He'. apply reads_ret. by apply Hf.
  Qed.

Lemma reads_select ty w p ys : Forall encodes (option_list w) → ends_rule ys →
    reads_symbols (parseSelect strictUnmarshal) (rule_symbols encode (RuleSelect ty w p)) ys
      (gives_rule_back (RuleSelect ty w p)).
Proof.
    intros Hw Hy. apply reads_keyword. intros kw. cbn [app].
    apply (reads_bind _ _ [word ty] _ ys _ _ (reads_expectIdent ty _ _)). intros nt Hnt.
    apply (reads_bind_nil _ _ _ _ _ _ (reads_matchIdent "where" _)). intros b ->.
    destruct w as [w|].
    - rewrite bool_decide_true by done.
      apply (reads_bind _ _ [word "where"] [_] ys _ _ (reads_consume _ _)). intros _ _.
      inversion Hw; subst. apply (reads_bind _ _ [_] [] ys _ _ (reads_where _ w _ ltac:(done))).
      intros w' ->. apply reads_ret. unfold gives_rule_back. cbn. by rewrite (symbol_value nt _ _ Hnt).
    - rewrite bool_decide_false; [|intros E; cbn [app] in E; unfold ends_rule in Hy; by rewrite E in Hy].
      apply reads_ret. unfold gives_rule_back. cbn. by rewrite (symbol_value nt _ _ Hnt).
  Qed.

Lemma ToLower_direction d : d ∈ ["in"; "out"; "both"] → ToLower d = d.
Proof. rewrite !elem_of_cons. intros [->|[->|[->|H]]]; [done|done|done|by apply elem_of_nil in H]. Qed.

Lemma reads_traverse e d as_ p ys : d ∈ ["in"; "out"; "both"] → ends_rule ys →
    reads_symbols parseTraverse (rule_symbols encode (RuleTraverse e d as_ p)) ys
      (gives_rule_back (RuleTraverse e d as_ p)).
Proof.
    intros Hd Hy. apply reads_keyword. intros kw. cbn [app].
    apply (reads_bind _ _ [word e] _ ys _ _ (reads_expectIdent e _ _)). intros et Het.
    apply (reads_bind _ _ [word d] _ ys _ _ (reads_expectIdent d _ _)). intros dt Hdt.
    rewrite (symbol_value dt _ _ Hdt), (ToLower_direction d Hd). cbn zeta.
    assert (Hok : bool_decide (d ≠ "in") && bool_decide (d ≠ "out") && bool_decide (d ≠ "both") = false).
    { rewrite !elem_of_cons in Hd.
      destruct Hd as [->|[->|[->|Hd]]]; [done|done|done|by apply elem_of_nil in Hd]. }
    rewrite Hok. rewrite <- (app_nil_r (as_symbols as_)).
    apply (reads_bind _ _ _ [] ys _ _ (reads_parseAs as_ ys Hy)). intros a ->.
    apply reads_ret. unfold gives_rule_back. cbn. by rewrite (symbol_value et _ _ Het).
  Qed.

Lemma reads_walk e as_ p ys : ends_rule ys →
    reads_symbols parseWalk (rule_symbols encode (RuleWalk e as_ p)) ys
      (gives_rule_back (RuleWalk e as_ p)).
Proof.
    intros Hy. apply reads_keyword. intros kw. cbn [app].
    apply (reads_bind _ _ [word e] _ ys _ _ (reads_expectIdent e _ _)). intros et Het.
    rewrite <- (app_nil_r (as_symbols as_)).
    apply (reads_bind _ _ _ [] ys _ _ (reads_parseAs as_ ys Hy)). intros a ->.
    apply reads_ret. unfold gives_rule_back. cbn. by rewrite (symbol_value et _ _ Het).
  Qed.

Lemma reads_filter w p ys : encodes w →
    reads_symbols (parseFilter strictUnmarshal) (rule_symbols encode (RuleFilter w p)) ys
      (gives_rule_back (RuleFilter w p)).
Proof.
    intros Hw. apply reads_keyword. intros kw.
    apply (reads_bind _ _ [_] [] ys _ _ (reads_where _ w _ Hw)). intros w' ->. by apply reads_ret.
  Qed.

Lemma reads_bind_rule x e p ys : expr_printable e → ends_rule ys →
    reads_symbols parseBind (rule_symbols encode (RuleBind x e p)) ys
      (gives_rule_back (RuleBind x e p)).
Proof.
    intros He Hy. apply reads_keyword. intros kw. cbn [app].
    apply (reads_bind _ _ [(TokVar, x)] _ ys _ _ (reads_expectVar _ x _)). intros v <-.
    apply (reads_bind _ _ [colon_eq] _ ys _ _ (reads_expect _ _ _ _)). intros _ _.
    rewrite <- (app_nil_r (symbols false e)).
    apply (reads_bind _ _ _ [] ys _ _ (reads_parse_expr e ys He (ends_rule_expr ys Hy))).
    intros e' He'. apply reads_ret. unfold gives_rule_back. cbn. by rewrite He'.
  Qed.

Lemma fmap_erase_is_Some (f g : gmap string Expr) n :
    erase <$> f = erase <$> g → is_Some (g !! n) → f !! n ≠ None.
Proof.
    intros E [e He] Hn. apply (f_equal (lookup n)) in E. by rewrite !lookup_fmap, Hn, He in E.
  Qed.

Lemma reads_emit ty fields as_ p ys : rule_printable (RuleEmit ty fields as_ p) → ends_rule ys →
    reads_symbols parseEmit (rule_symbols encode (RuleEmit ty fields as_ p)) ys
      (gives_rule_back (RuleEmit ty fields as_ p)).
Proof.
    intros (_ & _ & _ & _ & Hid & Hf) Hy. apply reads_keyword. intros kw. cbn [app].
    apply (reads_bind _ _ [word ty] _ ys _ _ (reads_expectIdent ty _ _)). intros nt Hnt.
    apply (reads_bind _ _ [(TokLBrace, "{")] _ ys _ _ (reads_expect _ _ _ _)). intros _ _.
    apply (reads_bind _ _ _ ((TokRBrace, "}") :: as_symbols as_) ys _ _
             (reads_parseFieldMap fields (((TokRBrace, "}") :: as_symbols as_) ++ ys) Hf eq_refl)).
    intros res Hres.
    assert (Hok : bool_decide (res !! "name" = None) && bool_decide (res !! "identity" = None) = false).
    { apply andb_false_iff. rewrite !bool_decide_eq_false.
      destruct Hid as [Hid|Hid]; [left|right]; by apply (fmap_erase_is_Some _ _ _ Hres). }
    rewrite Hok.
    apply (reads_bind _ _ [(TokRBrace, "}")] _ ys _ _ (reads_expect _ _ _ _)). intros _ _.
    rewrite <- (app_nil_r (as_symbols as_)).
    apply (reads_bind _ _ _ [] ys _ _ (reads_parseAs as_ ys Hy)). intros a ->.
    apply reads_ret. unfold gives_rule_back. cbn. by rewrite (symbol_value nt _ _ Hnt), Hres.
  Qed.

Lemma reads_lookup ty e as_ p ys : expr_printable e →
    reads_symbols parseLookup (rule_symbols encode (RuleLookup ty e as_ p)) ys
      (gives_rule_back (RuleLookup ty e as_ p)).
Proof.
    intros He. apply reads_keyword. intros kw. cbn [app].
    apply (reads_bind _ _ [word ty] _ ys _ _ (reads_expectIdent ty _ _)). intros nt Hnt.
    apply (reads_bind_nil _ _ _ _ _ _ (reads_matchIdent "by" _)). intros b ->.
    rewrite bool_decide_true by done.
    apply (reads_bind_nil _ _ _ _ _ _ (reads_peek _)). intros t _. cbn [negb].
    apply (reads_bind _ _ [word "by"] _ ys _ _ (reads_consume _ _)). intros _ _.
    apply (reads_bind _ _ (symbols false e) _ ys _ _
             (reads_parse_expr e ([word "as"; (TokVar, as_)] ++ ys) He ltac:(solve_ender))).
    intros e' He'.
    apply (reads_bind_nil _ _ _ _ _ _ (reads_matchIdent "as" _)). intros b ->.
    rewrite bool_decide_true by done.
    apply (reads_bind_nil _ _ _ _ _ _ (reads_peek _)). intros t' _. cbn [negb].
    apply (reads_bind _ _ [word "as"] _ ys _ _ (reads_consume _ _)). intros _ _.
    apply (reads_bind _ _ [_] [] ys _ _ (reads_expectVar _ as_ _)). intros v <-.
    apply reads_ret. unfold gives_rule_back. cbn. by rewrite (symbol_value nt _ _ Hnt), He'.
  Qed.

Lemma reads_link e rel e' p ys : expr_printable e → expr_printable e' → ends_rule ys →
    reads_symbols parseLink (rule_symbols encode (RuleLink e rel e' p)) ys
      (gives_rule_back (RuleLink e rel e' p)).
Proof.
    intros He He' Hy. apply reads_keyword. intros kw.
    apply (reads_bind _ _ (symbols false e) _ ys _ _
             (reads_parse_expr e (((TokRelArrow, rel) :: symbols false e') ++ ys) He ltac:(solve_ender))).
    intros e1 He1. apply (reads_bind_nil _ _ _ _ _ _ (reads_peek _)). intros rt Hrt.
    rewrite decide_True by exact (symbol_kind rt _ _ Hrt).
    apply (reads_bind _ _ [(TokRelArrow, rel)] _ ys _ _ (reads_consume _ _)). intros _ _.
    rewrite <- (app_nil_r (symbols false e')).
    apply (reads_bind _ _ _ [] ys _ _ (reads_parse_expr e' ys He' (ends_rule_expr ys Hy))).
    intros e2 He2. apply reads_ret. unfold gives_rule_back. cbn.
    by rewrite He1, He2, (symbol_value rt _ _ Hrt).
  Qed.

Lemma reads_rule r ys : rule_printable r → Forall encodes (rule_wheres r) → ends_rule ys →
    reads_symbols (parseRule strictUnmarshal) (rule_symbols encode r) ys (gives_rule_back r).
Proof.
    intros Hr Hw Hy.
    destruct r as [ty w p|e d as_ p|e as_ p|w p|x e p|e p|ty fs as_ p|ty e as_ p|e rel e' p|e p];
      enter_rule; cbn [rule_printable rule_wheres] in Hr, Hw.
    - by apply reads_select.
    - apply reads_traverse; [apply Hr|done].
    - by apply reads_walk.
    - inversion Hw; subst. by apply reads_filter.
    - apply reads_bind_rule; [apply Hr|done].
    - apply (reads_one_expr RuleGroupBy "group_by" e p ys); [|done|done]. intros. cbn. congruence.
    - by apply reads_emit.
    - apply reads_lookup. apply Hr.
    - apply reads_link; [apply Hr|apply Hr|done].
    - apply (reads_one_expr RuleSourceRef "source_ref" e p ys); [|done|done]. intros. cbn. congruence.
  Qed.

Lemma rule_symbols_first r : ∃ v xs, rule_symbols encode r = word v :: xs.
Proof. destruct r; by eexists _, _. Qed.

Lemma reads_rules rs : ∀ fuel, (length (recipe_symbols encode rs) < fuel)%nat →
    Forall rule_printable rs → Forall (λ r, Forall encodes (rule_wheres r)) rs →
    reads_symbols (rules_loop strictUnmarshal fuel) (recipe_symbols encode rs) [(TokEOF, "")]
      (λ rs', erase_rule <$> rs' = erase_rule <$> rs).
Proof.
    induction rs as [|r rs IH]; intros [|fuel] Hf Hp Hw; try (cbn in Hf; lia); cbn [rules_loop].
    - apply (reads_bind_nil _ _ [] _ _ _ (reads_peek _)). intros t Ht.
      rewrite decide_True by exact (symbol_kind t _ _ Ht). by apply reads_ret.
    - change (recipe_symbols encode (r :: rs))
        with ((rule_symbols encode r ++ [line_end]) ++ recipe_symbols encode rs) in *.
      rewrite <- app_assoc in *. rewrite !length_app in Hf. cbn [length] in Hf.
      apply Forall_cons in Hp as [Hr Hp], Hw as [Hwr Hw].
      apply (reads_bind_nil _ _ _ _ _ _ (reads_peek _)). intros t Ht.
      destruct (rule_symbols_first r) as (v & xs & Hv). rewrite Hv in Ht.
      rewrite decide_False by (rewrite (symbol_kind t _ _ Ht); done).
      apply (reads_bind _ _ _ ([line_end] ++ recipe_symbols encode rs) _ _ _
               (reads_rule r (([line_end] ++ recipe_symbols encode rs) ++ [(TokEOF, "")]) Hr Hwr eq_refl)).
      intros r' Hr'.
      apply (reads_bind _ _ [line_end] (recipe_symbols encode rs) _ (λ _, True)).
      { intros ts Hts. apply symbols_cons in Hts as (c & ts' & -> & Hc & Hts).
        exists tt, ts'. split; [|done]. unfold skipNewlines. cbn [drop_kinds].
        rewrite (symbol_kind c _ _ Hc), (drop_kinds_stop _ ts' _ Hts); [done|].
        destruct rs as [|r2 rs]; [done|]. cbn [recipe_symbols fmap list_fmap concat].
        destruct (rule_symbols_first r2) as (v2 & xs2 & ->). done. }
      intros _ _. rewrite <- (app_nil_r (recipe_symbols encode rs)).
      apply (reads_bind _ _ _ [] _ _ _ (IH fuel ltac:(lia) Hp Hw)). intros rs' Hrs'.
      apply reads_ret. cbn. by rewrite Hr', Hrs'.
  Qed.
End Rules.

(** ** Scoping does not see positions *)

Lemma expr_scoped_erase Γ e : expr_scoped Γ (erase e) ↔ expr_scoped Γ e.
Proof.
  induction e as [path p|v p|n p|lhs pat neg p IH|n args p IH] using Expr_nested_ind; cbn [erase].
  - split; inversion 1; by constructor.
  - split; constructor.
  - split; constructor.
  - split; inversion 1; subst; constructor; by apply IH.
  - split; intros Hs; inversion Hs as [| | | |? ? ? Hargs]; subst; constructor.
    + rewrite Forall_forall in *. intros e He. apply IH; [done|]. apply Hargs.
      by apply (list_elem_of_fmap_2 erase).
    + rewrite Forall_forall in *. intros e' (e & -> & He)%(list_elem_of_fmap_1 erase).
      apply IH; [done|]. by apply Hargs.
Qed.

Lemma rule_scoped_erase Γ r Γ' : rule_scoped Γ (erase_rule r) Γ' ↔ rule_scoped Γ r Γ'.
Proof.
  destruct r as [ty w p|e d as_ p|e as_ p|w p|x e p|e p|ty fs as_ p|ty e as_ p|e rel e' p|e p];
    cbn [erase_rule]; split; inversion 1; subst; constructor;
    rewrite ?expr_scoped_erase in *; try done.
  - match goal with Hf : map_Forall _ _ |- _ => intros n e He; apply expr_scoped_erase, (Hf n) end.
    by rewrite lookup_fmap, He.
  - match goal with Hf : map_Forall _ _ |- _ => rename Hf into Hfields end.
    intros n e He. rewrite lookup_fmap in He. apply fmap_Some in He as (e' & He & ->).
    apply expr_scoped_erase. by apply (Hfields n).
Qed.

Lemma rules_scoped_erase rs : ∀ Γ, rules_scoped Γ (erase_rule <$> rs) ↔ rules_scoped Γ rs.
Proof.
  induction rs as [|r rs IH]; intros Γ; [done|]. cbn [fmap list_fmap].
  split; inversion 1 as [|? Γ' ? ? Hr Hrs]; subst; apply (rss_cons Γ Γ');
    first [by apply rule_scoped_erase | by apply IH].
Qed.

(** ** The printed symbols can be spelled, in their contexts *)

Definition plain (x : symbol) : Prop := printable x ∧ x.1 ≠ TokWhereJSON ∧ x.1 ≠ TokLBrace.

Lemma plain_word s : name_ok s → plain (word s).
Proof. by split. Qed.

(** A keyword is one. *)
Ltac solve_keyword := split; [by repeat constructor | by split].

Lemma plain_single k c : singleCharKinds c = Some k → k ≠ TokLBrace → plain (k, String c "").
Proof.
  intros Hc Hk. assert (Hp : ∃ d, singleCharKinds d = Some k ∧ String c "" = String d "") by by exists c.
  destruct k; try (by split; [exact Hp|]); try done;
    (revert Hc; unfold singleCharKinds; byte_cases; discriminate).
Qed.

Lemma plain_path path : expr_printable (ExprField path nowhere) → Forall plain (path_symbols path).
Proof.
  destruct path as [|h segs]; [done|]. intros [Hh Hs]. cbn [path_symbols]. constructor.
  - unfold head_symbol. destruct (CutPrefix h "$") as [n|]; [|by apply plain_word]. by split; [apply Hh|].
  - clear Hh. induction Hs as [|s segs Hs _ IH]; [constructor|]. cbn.
    constructor; [by apply (plain_single TokDot ".")|]. constructor; [by apply plain_word|exact IH].
Qed.

Lemma plain_symbols e : ∀ b, expr_printable e → Forall plain (symbols b e).
Proof.
  induction e as [path p|v p|n p|lhs pat neg p IH|n args p IH] using Expr_nested_ind; intros b Hp.
  - by apply plain_path.
  - by constructor; [split|].
  - by constructor; [split|].
  - destruct Hp as [Hl Hpat]. cbn [symbols].
    assert (Hs : Forall plain (symbols true lhs
      ++ [if neg then (TokBangTilde, "!~") else (TokTildeEq, "~="); (TokRegex, pat)])).
    { apply Forall_app. split; [by apply IH|]. constructor; [by destruct neg|]. by constructor; [split|]. }
    destruct b; [|exact Hs]. constructor; [by apply (plain_single TokLParen "(")|].
    apply Forall_app. split; [exact Hs|]. constructor; [by apply (plain_single TokRParen ")")|done].
  - destruct Hp as [Hn Hargs]. apply foldr_and_Forall in Hargs. cbn [symbols].
    constructor; [by apply plain_word|]. constructor; [by apply (plain_single TokLParen "(")|].
    apply Forall_app. split; [|constructor; [by apply (plain_single TokRParen ")")|done]].
    induction args as [|e args IHargs]; [constructor|].
    apply Forall_cons in IH as [He IH]. apply Forall_cons in Hargs as [Hpe Hargs].
    cbn [map separated]. specialize (IHargs IH Hargs).
    destruct (map (symbols false) args); [by apply He|].
    apply Forall_app. split; [by apply He|].
    constructor; [by apply (plain_single TokComma ",")|exact IHargs].
Qed.

Lemma plain_as a : var_ok a → Forall plain (as_symbols a).
Proof.
  intros H. unfold as_symbols. destruct (decide (a = "")) as [|Ha]; [constructor|].
  constructor; [solve_keyword|]. constructor; [|constructor]. split; [by destruct H|done].
Qed.

(** Symbols that any context allows, in front of others that any context allows. *)
Definition anywhere (xs : list symbol) : Prop := ∀ t, in_contexts t xs.

Lemma anywhere_plain xs ys : Forall plain xs → anywhere ys → anywhere (xs ++ ys).
Proof.
  intros H Hy. induction H as [|x xs (_ & H1 & H2) _ IH]; [exact Hy|]. intros t. split; [|apply IH].
  by split.
Qed.

(** A printed rule is spelled and in context, wherever it stands. *)
Lemma rule_printed strictUnmarshal encode r ys : rule_printable r →
  Forall (encodes strictUnmarshal encode) (rule_wheres r) →
  Forall printable ys → anywhere ys →
  Forall printable (rule_symbols encode r ++ ys) ∧ anywhere (rule_symbols encode r ++ ys).
Proof.
  assert (Hplain : ∀ xs ys, Forall plain xs → Forall printable ys → anywhere ys →
    Forall printable (xs ++ ys) ∧ anywhere (xs ++ ys)).
  { intros xs zs Hxs Hp Hz. split; [|by apply anywhere_plain]. apply Forall_app. split; [|done].
    eapply Forall_impl; [exact Hxs|]. by intros x [H _]. }
  intros Hr Hw Hp Hy. destruct r as [ty [w|] p|e d as_ p|e as_ p|w p|x e p|e p|ty fs as_ p|ty e as_ p
      |e rel e' p|e p]; cbn [rule_printable rule_wheres option_list option_rect] in Hr, Hw;
    cbn [rule_symbols].
  - inversion Hw as [|? ? [Hspan _] _]; subst.
    change (([word "select"; word ty] ++ [word "where"; (TokWhereJSON, encode w)]) ++ ys)
      with ([word "select"; word ty] ++ word "where" :: (TokWhereJSON, encode w) :: ys).
    apply Hplain; [constructor; [solve_keyword|constructor; [by apply plain_word|constructor]]| |].
    + constructor; [by repeat constructor|by constructor].
    + intros t. split; [by apply in_context_free|]. split; [by split|apply Hy].
  - apply Hplain; [|done|done]. cbn [app].
    constructor; [solve_keyword|constructor; [by apply plain_word|constructor]].
  - destruct Hr as (He & Hd & Ha). apply Hplain; [|done|done]. apply Forall_app. split; [|by apply plain_as].
    constructor; [solve_keyword|]. constructor; [by apply plain_word|]. constructor; [|constructor].
    rewrite !elem_of_cons in Hd. destruct Hd as [->|[->|[->|Hd]]]; [solve_keyword..|].
    by apply elem_of_nil in Hd.
  - destruct Hr as (He & Ha). apply Hplain; [|done|done]. apply Forall_app. split; [|by apply plain_as].
    constructor; [solve_keyword|]. constructor; [by apply plain_word|constructor].
  - inversion Hw as [|? ? [Hspan _] _]; subst. cbn [app]. split.
    + constructor; [by repeat constructor|by constructor].
    + intros t. split; [by apply in_context_free|]. split; [by split|apply Hy].
  - destruct Hr as (Hx & He). apply Hplain; [|done|done].
    constructor; [solve_keyword|]. constructor; [by split|]. constructor; [by split|].
    by apply plain_symbols.
  - apply Hplain; [|done|done]. constructor; [solve_keyword|]. by apply plain_symbols.
  - destruct Hr as (Hty & Hn1 & Hn2 & Ha & _ & Hf).
    change (([word "emit"; word ty; (TokLBrace, "{")]
        ++ field_symbols (map_to_list fs) ++ (TokRBrace, "}") :: as_symbols as_) ++ ys)
      with ([word "emit"] ++ word ty :: (TokLBrace, "{")
        :: (field_symbols (map_to_list fs) ++ (TokRBrace, "}") :: as_symbols as_) ++ ys).
    assert (Hrest : Forall plain (field_symbols (map_to_list fs) ++ (TokRBrace, "}") :: as_symbols as_)).
    { apply Forall_app. split.
      - unfold field_symbols. apply Forall_concat, Forall_fmap, Forall_forall.
        intros [n e] Hin%elem_of_map_to_list. destruct (Hf n e Hin) as [Hn He]. cbn.
        constructor; [by apply plain_word|]. constructor; [by split|]. apply Forall_app.
        split; [by apply plain_symbols|]. constructor; [by apply (plain_single TokComma ",")|done].
      - constructor; [by apply (plain_single TokRBrace "}")|by apply plain_as]. }
    destruct (Hplain _ ys Hrest Hp Hy) as [H1 H2]. apply Hplain; [constructor; [solve_keyword|done]| |].
    + constructor; [done|]. constructor; [by exists "{"%char|done].
    + intros t. split; [by apply in_context_free|]. split; [|apply H2]. split; [done|].
      intros _. unfold awaits_where. cbn [Kind Value word fst snd].
      by rewrite (bool_decide_false (ty = "where")), (bool_decide_false (ty = "filter")).
  - destruct Hr as (Hty & He & Ha). apply Hplain; [|done|done].
    constructor; [solve_keyword|]. constructor; [by apply plain_word|]. constructor; [solve_keyword|].
    apply Forall_app. split; [by apply plain_symbols|].
    constructor; [solve_keyword|]. by constructor; [split|].
  - destruct Hr as (He & Hrel & He'). apply Hplain; [|done|done].
    constructor; [solve_keyword|]. apply Forall_app. split; [by apply plain_symbols|].
    constructor; [by split|by apply plain_symbols].
  - apply Hplain; [|done|done]. constructor; [solve_keyword|]. by apply plain_symbols.
Qed.

Lemma recipe_printed strictUnmarshal encode rs : Forall rule_printable rs →
  Forall (λ r, Forall (encodes strictUnmarshal encode) (rule_wheres r)) rs →
  Forall printable (recipe_symbols encode rs) ∧ anywhere (recipe_symbols encode rs).
Proof.
  induction 1 as [|r rs Hr _ IH]; intros Hw; [by split|]. apply Forall_cons in Hw as [Hwr Hw].
  destruct (IH Hw) as [Hp Ha].
  change (recipe_symbols encode (r :: rs))
    with ((rule_symbols encode r ++ [line_end]) ++ recipe_symbols encode rs).
  rewrite <- app_assoc. apply (rule_printed strictUnmarshal); [done|done| |].
  - constructor; [by exists newline|done].
  - intros t. split; [by apply in_context_free|apply Ha].
Qed.

(** C14: Parsing undoes printing.  Take a well-scoped recipe whose names are identifiers, of
    which no emit is of the type [where] or [filter] (the parser refuses those,
    [emit_filter_refused]) and whose patterns and relations can be spelled ([rule_printable]),
    and spell its where-trees in balanced JSON that decodes to them.  Written out with operands
    in parentheses where needed, strings and patterns escaped, each rule on a line of its own,
    and any blanks and comments laid between the symbols, it is read back as the same rules,
    positions apart. *)
Theorem Parse_print_roundtrip (strictUnmarshal : string → result string WhereNode)
    (encode : WhereNode → string) (rs : list Rule) (src : list ascii)
    (Hprint : Forall rule_printable rs) (Hscope : rules_scoped None rs)
    (Hjson : Forall (λ r, Forall (encodes strictUnmarshal encode) (rule_wheres r)) rs)
    (Hlaid : laid (recipe_symbols encode rs) src) :
  ∃ r, Parse strictUnmarshal src = Some (Ok r) ∧
    erase_rule <$> Rules r = erase_rule <$> rs.
Proof.
  destruct (recipe_printed strictUnmarshal encode rs Hprint Hjson) as [Hp Hc].
  destruct (lex_laid_runs (recipe_symbols encode rs) src Hlaid Hp (Hc _)) as (toks & Hlex & Htoks).
  unfold Parse. rewrite Hlex. unfold parseRecipe, mbind, parser_bind.
  assert (Hskip : skipNewlines toks = Some (Ok (tt, toks))).
  { unfold skipNewlines. rewrite (drop_kinds_stop _ toks _ Htoks); [done|].
    destruct rs as [|r rs]; [done|]. cbn [recipe_symbols fmap list_fmap concat].
    destruct (rule_symbols_first encode r) as (v & xs & ->). done. }
  rewrite Hskip. cbn [peek].
  destruct (reads_rules strictUnmarshal encode rs (S (length toks))
    ltac:(rewrite <- (length_fmap symbol_of toks), Htoks, length_app; lia) Hprint Hjson toks Htoks)
    as (rs' & ts' & Hrun & _ & Hrs).
  rewrite Hrun.
  assert (Hv : validateBareHeads {| Rules := rs'; RecipePos := Pos (token_at toks) |} = None).
  { apply (validate_rules_scoped rs' newBareHeadScope None); [done|].
    apply rules_scoped_erase. rewrite Hrs. by apply rules_scoped_erase. }
  cbn zeta. rewrite Hv. by eexists.
Qed.

(** ** Runs *)

Module Samples.
Definition any_row : WhereNode := MkWhere [] [] None None None None None None None None.
Definition decode (s : string) : result string WhereNode :=
  if decide (s = "{}") then Ok any_row else Err "unknown key".

Definition name_field : Expr := ExprField ["page"; "name"] nowhere.

Definition rules : list Rule :=
  [RuleSelect "page" (Some any_row) nowhere;
   RuleTraverse "links-to" "out" "to" nowhere;
   RuleBind "x" (ExprRegex (ExprFunc "concat" [name_field; ExprLit "/" nowhere] nowhere) "^a/" true nowhere) nowhere;
   RuleEmit "card" {["name" := ExprRegex (ExprRegex name_field "b" false nowhere) "c" false nowhere]} "c" nowhere;
   RuleLink (ExprVar "c" nowhere) "cites" (ExprField ["$to"; "id"] nowhere) nowhere].

(** The rules, with a tab and two blanks after each symbol. *)
Definition text : list ascii := print_with [tab; " "%char; " "%char] (recipe_symbols (λ _, "{}") rules).

Definition src (s : string) : list ascii := bytes s.

(** One step of a proof that concrete names and patterns can be printed. *)
Ltac solve_printable :=
  match goal with
  | |- _ ∧ _ => split
  | |- True => exact I
  | |- Forall _ _ => constructor
  | |- name_ok _ => split
  | |- _ = true => reflexivity
  | |- context [decide ?P] => destruct (decide P); try done; try discriminate
  | |- no_newline _ => unfold no_newline
  | |- _ ∉ _ => apply (bool_decide_unpack _); reflexivity
  | |- _ ∈ _ => apply (bool_decide_unpack _); reflexivity
  | |- _ ≠ _ => discriminate
  end.
End Samples.

Lemma Parse_print_roundtrip_witness :
  ∃ r, Parse Samples.decode Samples.text = Some (Ok r) ∧
    erase_rule <$> Rules r = erase_rule <$> Samples.rules.
Proof.
  apply (Parse_print_roundtrip Samples.decode (λ _, "{}")).
  - repeat (apply Forall_cons; split); try apply Forall_nil_2; cbn -[map_Forall is_Some lookup];
      repeat Samples.solve_printable.
    + right. repeat Samples.solve_printable.
    + right. repeat Samples.solve_printable.
    + left. by eexists.
    + apply map_Forall_singleton. cbn. repeat Samples.solve_printable.
  - eapply rss_cons; [constructor; cbn; constructor; constructor|].
    eapply rss_cons; [constructor|].
    assert (Hname : expr_scoped (extend ["to"; "edge"] (selected_scope "page")) Samples.name_field).
    { constructor. right. eexists. split; [reflexivity|]. set_solver. }
    eapply rss_cons.
    { apply rs_bind, es_regex, es_func. constructor; [exact Hname|].
      constructor; [apply es_lit|constructor]. }
    eapply rss_cons; [apply rs_emit, map_Forall_singleton, es_regex, es_regex, Hname|].
    eapply rss_cons; [|constructor]. apply rs_link; [apply es_var|apply es_field; left; reflexivity].
  - assert (Hw : encodes Samples.decode (λ _, "{}") Samples.any_row).
    { split; [exists []; split; [constructor|reflexivity]|reflexivity]. }
    apply Forall_cons. split; [apply Forall_singleton; exact Hw|].
    repeat (apply Forall_cons; split); apply Forall_nil_2.
  - apply (print_laid [tab; " "%char; " "%char] _ ltac:(done) ltac:(by repeat constructor) []). constructor.
Defined.

(** An emit of a node type named [filter] (or [where]) cannot be parsed: its brace is lexed
    as a where-tree. *)
Theorem emit_filter_refused (strictUnmarshal : string → result string WhereNode) :
  Parse strictUnmarshal (Samples.src "select page
emit filter { name := page.name }")
    = Some (Err {| PErrPos := {| Line := 2; Col := 13 |};
                   PMsg := Expected "'{'" "{ name := page.name }" |}) ∧
  is_ok <$> Parse strictUnmarshal (Samples.src "select page
emit filters { name := page.name }") = Some true.
Proof. split; vm_compute; reflexivity. Qed.

(** Two rules on one line are read as two rules. *)
Theorem rules_need_no_newline (strictUnmarshal : string → result string WhereNode) :
  (λ r, match r with Ok r => length (Rules r) | Err _ => 0 end)
    <$> Parse strictUnmarshal (Samples.src "select page select section emit a { name := section.name } as $x walk CONTAINS")
  = Some 4.
Proof. vm_compute. reflexivity. Qed.
