(* ===== verification/RecipeSource.v ===== *)
(** * The graph a recipe reads, and its reading order

    [internal/recipe/source_view.go], [document_order.go], [positionFromEvidence] of
    [lineage.go], [source_census.go], [edgeEvidenceMap] of [interpret_field.go].

    The view is four indexes over the drained nodes and edges.  Its two memo fields cache
    functions of the indexes; here the functions are called.  Where the code ranges over a
    Go map, the order of [map_to_list] stands for the order Go leaves open: what is
    computed from it is a set, or is sorted. *)

From S2P Require Import Prelude Gostd Paging.
From Stdlib Require Import Ascii SpecFloat.

#[local] Open Scope Z_scope.

(** ** What the evaluation of recipes asks of the standard library

    [regexp], [encoding/json], the Unicode tables of [strings] and
    [strconv.ParseFloat]. *)

Class Host := {
  regexp : Type;
  (** [regexp.Compile], the text of its error. *)
  Compile : string → result string regexp;
  MatchString : regexp → string → bool;
  FindString : regexp → string → string;
  (** [None] is nil. *)
  FindStringSubmatch : regexp → string → option (list string);
  (** [json.Unmarshal] into a [map[string]string], and into a [containsEvidence], of
      which the [position] is given; [None] is an error. *)
  UnmarshalStringMap : string → option (gmap string string);
  UnmarshalPosition : string → option string;
  strings_ToLower : string → string;
  strings_ToUpper : string → string;
  (** [strconv.ParseFloat(s, 64)]. *)
  ParseFloat : string → option spec_float;
}.

(** ** Nodes *)

(** The fields a recipe can read. *)
Record Node := mkNode {
  Id : string;
  NType : string;
  SymbolName : string;
  Summary : string;
  Description : string;
  Content : string;
  Source : string;
  Status : string;
  Metadata : gmap string string;
}.

Module kgtypes.
Definition Value (n : Node) (key : string) : string := default "" (Metadata n !! key).
End kgtypes.

(** ** The view *)

Inductive edgeDirection := outgoingEdges | incomingEdges | bothEdges.

#[export] Instance edgeDirection_eq_dec : EqDecision edgeDirection.
Proof. solve_decision. Defined.

Record sourceView := mkView {
  byID : gmap string Node;
  byType : gmap string (list Node);
  outEdges : gmap string (list Edge);
  inEdges : gmap string (list Edge);
  graphType : string;
  name : string;
}.

(** [m[k] = append(m[k], x)]. *)
Definition append_at {A} (m : gmap string (list A)) (k : string) (x : A) : gmap string (list A) :=
  <[k := default [] (m !! k) ++ [x]]> m.

Definition index_node (sv : sourceView) (n : option Node) : sourceView :=
  match n with
  | None => sv
  | Some n => mkView (<[Id n := n]> (byID sv)) (append_at (byType sv) (NType n) n)
                (outEdges sv) (inEdges sv) (graphType sv) (name sv)
  end.

Definition index_edge (sv : sourceView) (e : Edge) : sourceView :=
  mkView (byID sv) (byType sv) (append_at (outEdges sv) (FromId e) e)
    (append_at (inEdges sv) (ToId e) e) (graphType sv) (name sv).

Inductive loadErr := LoadNodes (err : string) | LoadEdges (err : string).

(** The two drains are the caller's; a nil node is [None]. *)
Definition loadSourceView (FetchAllNodes : result string (list (option Node)))
    (FetchAllEdges : list string → result string (list Edge)) (graphType name : string)
    : result loadErr sourceView :=
  match FetchAllNodes with
  | Err e => Err (LoadNodes e)
  | Ok nodes =>
      let sv := foldl index_node (mkView ∅ ∅ ∅ ∅ graphType name) nodes in
      if decide (byID sv = ∅) then Ok sv
      else match FetchAllEdges (fst <$> map_to_list (byID sv)) with
      | Err e => Err (LoadEdges e)
      | Ok edges => Ok (foldl index_edge sv edges)
      end
  end.

Definition nodesByType (sv : sourceView) (nodeType : string) : list Node :=
  default [] (byType sv !! nodeType).

Definition nodeByID (sv : sourceView) (id : string) : option Node := byID sv !! id.

Definition follows (dir arm : edgeDirection) : bool :=
  bool_decide (dir = arm) || bool_decide (dir = bothEdges).

Definition of_type (edgeType : string) (e : Edge) : bool := bool_decide (EType e = edgeType).

Definition edgesFrom (sv : sourceView) (id edgeType : string) (dir : edgeDirection) : list string :=
  (if follows dir outgoingEdges
   then ToId <$> filter (of_type edgeType) (default [] (outEdges sv !! id)) else []) ++
  (if follows dir incomingEdges
   then FromId <$> filter (of_type edgeType) (default [] (inEdges sv !! id)) else []).

Record neighborEdge := mkNeighbor { NeighborID : string; Via : Edge }.

Definition edgesAlong (sv : sourceView) (id edgeType : string) (dir : edgeDirection)
    : list neighborEdge :=
  (if follows dir outgoingEdges
   then (λ e, mkNeighbor (ToId e) e) <$> filter (of_type edgeType) (default [] (outEdges sv !! id))
   else []) ++
  (if follows dir incomingEdges
   then (λ e, mkNeighbor (FromId e) e) <$> filter (of_type edgeType) (default [] (inEdges sv !! id))
   else []).

(** ** Positions *)

Section Order.
Context `{Host}.

Definition edgeEvidenceMap (evidence : string) : gmap string string :=
  if bool_decide (evidence = "") then ∅ else default ∅ (UnmarshalStringMap evidence).

Definition positionFromEvidence (evidence : string) : option Z :=
  if bool_decide (evidence = "") then None
  else position ← UnmarshalPosition evidence; Atoi position.

Definition childOrderKey (sv : sourceView) (e : Edge) : option Z :=
  match (child ← byID sv !! ToId e; Atoi (kgtypes.Value child "position")) with
  | Some pos => Some pos
  | None => positionFromEvidence (Evidence e)
  end.

Definition edge_before (sv : sourceView) (a b : Edge) : bool :=
  match childOrderKey sv a, childOrderKey sv b with
  | Some pi, Some pj => pi <? pj
  | Some _, None => true
  | None, _ => false
  end.

Definition sortEdgesByOrderKey (sv : sourceView) (out : list Edge) : list Edge :=
  SliceStable (edge_before sv) out.

Definition childEdgesOrdered (sv : sourceView) (id edgeType : string) : list Edge :=
  sortEdgesByOrderKey sv (filter (of_type edgeType) (default [] (outEdges sv !! id))).

(** ** The reading order *)

Record positionedClaim := mkClaim { parent : string; position : Z }.

#[export] Instance positionedClaim_eq_dec : EqDecision positionedClaim.
Proof. solve_decision. Defined.

Record childClaim := mkChildClaim { child : string; child_position : Z }.

#[export] Instance childClaim_eq_dec : EqDecision childClaim.
Proof. solve_decision. Defined.

(** The elements that have a key, the first of each key. *)
Fixpoint first_by {A K} `{EqDecision K} (key : A → option K) (seen : list K) (l : list A) : list A :=
  match l with
  | [] => []
  | x :: l' =>
      match key x with
      | None => first_by key seen l'
      | Some k => if decide (k ∈ seen) then first_by key seen l' else x :: first_by key (k :: seen) l'
      end
  end.

Definition positionedChildEdges (sv : sourceView) (id : string) : list Edge :=
  sortEdgesByOrderKey sv
    (first_by (λ e, mkChildClaim (ToId e) <$> childOrderKey sv e) [] (default [] (outEdges sv !! id))).

(** The claims each child receives, and the parents that make any. *)
Definition claim_index : Type := gmap string (list positionedClaim) * gset string.

Definition claim_edge (sv : sourceView) (from : string) (acc : claim_index) (e : Edge) : claim_index :=
  match childOrderKey sv e with
  | None => acc
  | Some key =>
      match byID sv !! ToId e with
      | None => acc
      | Some _ => (append_at acc.1 (ToId e) (mkClaim from key), {[from]} ∪ acc.2)
      end
  end.

Definition claims_of (sv : sourceView) : claim_index :=
  foldl (λ acc '(from, edges), foldl (claim_edge sv from) acc edges) (∅, ∅)
    (map_to_list (outEdges sv)).

(** The node a refusal names, and the claims on it. *)
Record ambiguity := mkAmbiguity { amb_child : string; amb_claims : list positionedClaim }.

Definition distinct_claims (received : list positionedClaim) : list positionedClaim :=
  first_by Some [] received.

Definition refuseAmbiguousPositions (claims : gmap string (list positionedClaim)) : option ambiguity :=
  let distinct := distinct_claims <$> claims in
  let ambiguous := filter (λ p : string * list positionedClaim, (1 < length p.2)%nat) (map_to_list distinct) in
  match sort_strings (fst <$> ambiguous) with
  | [] => None
  | child :: _ => Some (mkAmbiguity child (default [] (distinct !! child)))
  end.

(** Ranks, and the next one. *)
Definition ranking : Type := gmap string nat * nat.

Definition put_rank (st : ranking) (id : string) : ranking := (<[id := st.2]> st.1, S st.2).

(** [None]: out of fuel. *)
Fixpoint foldM {S A} (f : S → A → option S) (s : S) (l : list A) : option S :=
  match l with
  | [] => Some s
  | a :: l' => s' ← f s a; foldM f s' l'
  end.

Fixpoint descend (sv : sourceView) (fuel : nat) (st : ranking) (id : string) : option ranking :=
  match fuel with
  | O => None
  | S fuel' =>
      foldM (λ st e, match byID sv !! ToId e with
                     | None => Some st
                     | Some _ => descend sv fuel' st (ToId e)
                     end)
        (put_rank st id) (positionedChildEdges sv id)
  end.

Definition roots_of (claims : claim_index) : list string :=
  sort_strings (filter (λ id, default [] (claims.1 !! id) = []) (elements claims.2)).

(** A descent is no deeper than the nodes of the graph under its root. *)
Definition descend_fuel (sv : sourceView) : nat := S (size (byID sv)).

Definition documentOrderIndex (sv : sourceView) : fueled ambiguity (gmap string nat) :=
  let claims := claims_of sv in
  match refuseAmbiguousPositions claims.1 with
  | Some a => Some (Err a)
  | None =>
      st ← foldM (descend sv (descend_fuel sv)) (∅, 0%nat) (roots_of claims);
      Some (Ok st.1)
  end.
End Order.

(** ** What the reading order promises *)

Section Reading.
Context `{Host} (sv : sourceView).

(** [p] places the node [c] at [k]. *)
Definition claim (p : string) (k : Z) (c : string) : Prop :=
  ∃ e, e ∈ default [] (outEdges sv !! p) ∧ ToId e = c ∧ childOrderKey sv e = Some k ∧
    is_Some (byID sv !! c).

Definition child_of (p c : string) : Prop := ∃ k, claim p k c.

(** Two places for one node. *)
Definition ambiguous (c : string) : Prop :=
  ∃ p k p' k', claim p k c ∧ claim p' k' c ∧ (p, k) ≠ (p', k').

Definition root (r : string) : Prop := (∃ c, child_of r c) ∧ ∀ p, ¬ child_of p r.

(** The children of [n], in the order of their places. *)
Definition children (n : string) (kids : list string) : Prop :=
  NoDup kids ∧ (∀ c, c ∈ kids ↔ child_of n c) ∧
  StronglySorted (λ a b, ∀ k l, claim n k a → claim n l b → k ≤ l) kids.

(** A forest, read depth first: each node before its children, and a node with all below
    it before its siblings to the right. *)
Inductive preorder : list string → list string → Prop :=
| preorder_nil : preorder [] []
| preorder_cons n kids a rest b :
    children n kids → preorder kids a → preorder rest b → preorder (n :: rest) (n :: a ++ b).

(** *** Claims *)

Lemma elem_of_append_at {A} (m : gmap string (list A)) k x j y :
  y ∈ default [] (append_at m k x !! j) ↔ y ∈ default [] (m !! j) ∨ (j = k ∧ y = x).
Proof.
  unfold append_at. destruct (decide (j = k)) as [->|Hne].
  - rewrite lookup_insert_eq. cbn. rewrite elem_of_app, list_elem_of_singleton. naive_solver.
  - rewrite lookup_insert_ne by done. naive_solver.
Qed.

Definition in_claims (acc : claim_index) (c : string) (pc : positionedClaim) : Prop :=
  pc ∈ default [] (acc.1 !! c).

(** The edge [e] makes the claim [pc] on [c]. *)
Definition claims_by (c : string) (pc : positionedClaim) (e : Edge) : Prop :=
  ToId e = c ∧ childOrderKey sv e = Some (position pc) ∧ is_Some (byID sv !! c).

Lemma claim_edge_spec from acc e :
  (∀ c pc, in_claims (claim_edge sv from acc e) c pc ↔
    in_claims acc c pc ∨ (parent pc = from ∧ claims_by c pc e)) ∧
  (∀ p, p ∈ (claim_edge sv from acc e).2 ↔ p ∈ acc.2 ∨ (p = from ∧ ∃ c pc, claims_by c pc e)).
Proof.
  unfold claim_edge, in_claims, claims_by. destruct (childOrderKey sv e) as [key|] eqn:Hk.
  2: { naive_solver. }
  destruct (byID sv !! ToId e) as [n|] eqn:Hn; cbn [fst snd].
  2: { split; intros; split; [by left|intros [?|H']; [done|]|by left|intros [?|H']; [done|]].
       - destruct H' as (_ & <- & _ & [? ?]). congruence.
       - destruct H' as (_ & ? & ? & <- & _ & [? ?]). congruence. }
  split.
  - intros c [p k]. rewrite elem_of_append_at. cbn. split.
    + intros [?|[-> [= -> ->]]]; [by left|right]. repeat split; eauto.
    + intros [?|(-> & <- & [= ->] & _)]; [by left|by right].
  - intros p. rewrite elem_of_union, elem_of_singleton. split.
    + intros [->|?]; [right|by left]. split; [done|]. exists (ToId e), (mkClaim from key). by eauto.
    + intros [?|[-> _]]; [by right|by left].
Qed.

Lemma claim_edges_spec from es : ∀ acc,
  (∀ c pc, in_claims (foldl (claim_edge sv from) acc es) c pc ↔
    in_claims acc c pc ∨ (∃ e, e ∈ es ∧ parent pc = from ∧ claims_by c pc e)) ∧
  (∀ p, p ∈ (foldl (claim_edge sv from) acc es).2 ↔
    p ∈ acc.2 ∨ ∃ e, e ∈ es ∧ p = from ∧ ∃ c pc, claims_by c pc e).
Proof.
  induction es as [|e es IH]; intros acc; cbn [foldl].
  - split; intros; set_solver.
  - destruct (IH (claim_edge sv from acc e)) as [IH1 IH2].
    destruct (claim_edge_spec from acc e) as [H1 H2]. split.
    + intros c pc. rewrite IH1, H1, exists_elem_cons. tauto.
    + intros p. rewrite IH2, H2, exists_elem_cons. tauto.
Qed.

Lemma claim_groups_spec (l : list (string * list Edge)) : ∀ acc,
  let acc' := foldl (λ acc '(from, edges), foldl (claim_edge sv from) acc edges) acc l in
  (∀ c pc, in_claims acc' c pc ↔
    in_claims acc c pc ∨
    ∃ g, g ∈ l ∧ ∃ e, e ∈ g.2 ∧ parent pc = g.1 ∧ claims_by c pc e) ∧
  (∀ p, p ∈ acc'.2 ↔
    p ∈ acc.2 ∨ ∃ g, g ∈ l ∧ ∃ e, e ∈ g.2 ∧ p = g.1 ∧ ∃ c pc, claims_by c pc e).
Proof.
  induction l as [|[from es] l IH]; intros acc; cbn [foldl]; cbv zeta.
  - split; intros; set_solver.
  - destruct (IH (foldl (claim_edge sv from) acc es)) as [IH1 IH2].
    destruct (claim_edges_spec from es acc) as [H1 H2]. split.
    + intros c pc. rewrite IH1, H1, exists_elem_cons. cbn [fst snd]. tauto.
    + intros p. rewrite IH2, H2, exists_elem_cons. cbn [fst snd]. tauto.
Qed.

Lemma claims_of_spec :
  (∀ c pc, in_claims (claims_of sv) c pc ↔ claim (parent pc) (position pc) c) ∧
  (∀ p, p ∈ (claims_of sv).2 ↔ ∃ c, child_of p c).
Proof.
  destruct (claim_groups_spec (map_to_list (outEdges sv)) (∅, ∅)) as [H1 H2].
  fold (claims_of sv) in H1, H2. split.
  - intros c pc. rewrite H1. unfold in_claims. cbn [fst]. rewrite lookup_empty. cbn [default].
    split.
    + intros [[]%elem_of_nil|([p es] & Hg & e & He & -> & Hto & Hk & Hp)].
      apply elem_of_map_to_list in Hg. exists e. cbn. by rewrite Hg.
    + intros (e & He & Hto & Hk & Hp). right. destruct (outEdges sv !! parent pc) as [es|] eqn:Hes.
      2: { by apply elem_of_nil in He. }
      exists (parent pc, es). split; [by apply elem_of_map_to_list|]. by exists e.
  - intros p. rewrite H2. split.
    + intros [[]%elem_of_empty|([q es] & Hg & e & He & -> & c & pc & Hto & Hk & Hp)].
      apply elem_of_map_to_list in Hg. exists c, (position pc), e. cbn. by rewrite Hg.
    + intros (c & k & e & He & Hto & Hk & Hp). right. destruct (outEdges sv !! p) as [es|] eqn:Hes.
      2: { by apply elem_of_nil in He. }
      exists (p, es). split; [by apply elem_of_map_to_list|]. exists e. repeat split; [done|].
      by exists c, (mkClaim p k).
Qed.

(** *** The refusal *)

Lemma first_by_spec {A K} `{EqDecision K} (key : A → option K) (l : list A) : ∀ seen,
  NoDup (omap key (first_by key seen l)) ∧
  (∀ k, k ∈ omap key (first_by key seen l) ↔ k ∈ omap key l ∧ k ∉ seen) ∧
  (∀ x, x ∈ first_by key seen l → x ∈ l ∧ is_Some (key x)).
Proof.
  induction l as [|x l IH]; intros seen; cbn [first_by].
  { split; [constructor|]. split; set_solver. }
  cbn [omap list_omap]. destruct (key x) as [k|] eqn:Hk.
  2: { destruct (IH seen) as (H1 & H2 & H3). split; [done|]. split; [done|].
       intros y Hy. destruct (H3 y Hy). split; [by right|done]. }
  destruct (decide (k ∈ seen)) as [Hs|Hs].
  - destruct (IH seen) as (H1 & H2 & H3). split; [done|]. split; [|set_solver].
    intros j. rewrite H2, elem_of_cons. naive_solver.
  - destruct (IH (k :: seen)) as (H1 & H2 & H3). cbn [omap list_omap]. rewrite Hk. split.
    { constructor; [|done]. rewrite H2. set_solver. }
    split.
    + intros j. rewrite !elem_of_cons, H2, not_elem_of_cons. destruct (decide (j = k)); naive_solver.
    + intros y [->|Hy]%elem_of_cons; [split; [by left|by eexists]|]. set_solver.
Qed.

Lemma omap_Some {A} (l : list A) : omap Some l = l.
Proof. induction l as [|x l IH]; [done|]. cbn. by rewrite IH. Qed.

Lemma distinct_claims_spec l : NoDup (distinct_claims l) ∧ ∀ x, x ∈ distinct_claims l ↔ x ∈ l.
Proof.
  destruct (first_by_spec Some l []) as (H1 & H2 & _). rewrite !omap_Some in *. split; [done|].
  intros x. rewrite H2. set_solver.
Qed.

Lemma two_distinct {A} (l : list A) : NoDup l → (1 < length l)%nat →
  ∃ x y, x ∈ l ∧ y ∈ l ∧ x ≠ y.
Proof.
  intros Hl Hlen. destruct l as [|x [|y l]]; cbn in Hlen; [lia..|].
  exists x, y. split; [by left|]. split; [by right; left|]. inversion Hl; set_solver.
Qed.

Lemma at_most_one {A} (l : list A) x y : (length l ≤ 1)%nat → x ∈ l → y ∈ l → x = y.
Proof. destruct l as [|z [|? ?]]; cbn; [set_solver|set_solver|lia]. Qed.

Lemma in_claims_claim c pc : pc ∈ default [] ((claims_of sv).1 !! c) ↔ claim (parent pc) (position pc) c.
Proof. apply claims_of_spec. Qed.

Lemma refuse_none : refuseAmbiguousPositions (claims_of sv).1 = None → ∀ c, ¬ ambiguous c.
Proof.
  unfold refuseAmbiguousPositions. destruct (sort_strings _) as [|x l] eqn:Hs; [|done].
  intros _ c (p & k & p' & k' & H1 & H2 & Hne).
  pose proof (proj2 (in_claims_claim c (mkClaim p k)) H1) as H1'.
  pose proof (proj2 (in_claims_claim c (mkClaim p' k')) H2) as H2'.
  destruct ((claims_of sv).1 !! c) as [l|] eqn:Hl; [|by apply elem_of_nil in H1'].
  destruct (distinct_claims_spec l) as [_ Hd]. rewrite <- Hd in H1', H2'.
  destruct (decide (1 < length (distinct_claims l))%nat) as [Hlen|Hlen].
  - assert (c ∈ @nil string) as []%elem_of_nil. rewrite <- Hs, elem_of_sort_strings, list_elem_of_fmap.
    exists (c, distinct_claims l). split; [done|]. apply list_elem_of_filter. split; [done|].
    apply elem_of_map_to_list. by rewrite lookup_fmap, Hl.
  - assert (mkClaim p k = mkClaim p' k') by (apply (at_most_one (distinct_claims l)); [lia|done|done]).
    congruence.
Qed.

Lemma refuse_some a : refuseAmbiguousPositions (claims_of sv).1 = Some a →
  ambiguous (amb_child a) ∧ ∀ c, ambiguous c → amb_child a <=s c.
Proof.
  intros Ha. assert (Hmem : ∀ c, c ∈ sort_strings (fst <$> filter
      (λ p : string * list positionedClaim, (1 < length p.2)%nat)
      (map_to_list (distinct_claims <$> (claims_of sv).1))) ↔ ambiguous c).
  { intros c. rewrite elem_of_sort_strings, list_elem_of_fmap. split.
    - intros ([c' d] & -> & [Hlen Hin]%list_elem_of_filter). cbn [fst snd] in *.
      apply elem_of_map_to_list in Hin. rewrite lookup_fmap in Hin.
      destruct ((claims_of sv).1 !! c') as [l|] eqn:Hl; cbn in Hin; [injection Hin as <-|done].
      destruct (distinct_claims_spec l) as [Hnd Hd].
      destruct (two_distinct _ Hnd Hlen) as ([p k] & [p' k'] & H1 & H2 & Hne).
      exists p, k, p', k'. apply Hd in H1, H2.
      split; [apply (in_claims_claim c' (mkClaim p k)); by rewrite Hl|].
      split; [apply (in_claims_claim c' (mkClaim p' k')); by rewrite Hl|]. congruence.
    - intros (p & k & p' & k' & H1 & H2 & Hne).
      pose proof (proj2 (in_claims_claim c (mkClaim p k)) H1) as H1'.
      pose proof (proj2 (in_claims_claim c (mkClaim p' k')) H2) as H2'.
      destruct ((claims_of sv).1 !! c) as [l|] eqn:Hl; [|by apply elem_of_nil in H1'].
      exists (c, distinct_claims l). split; [done|]. apply list_elem_of_filter. cbn [snd].
      split; [|apply elem_of_map_to_list; by rewrite lookup_fmap, Hl].
      destruct (distinct_claims_spec l) as [_ Hd]. apply Hd in H1', H2'.
      destruct (decide (length (distinct_claims l) ≤ 1)%nat) as [Hle|]; [|lia].
      pose proof (at_most_one _ _ _ Hle H1' H2'). congruence. }
  unfold refuseAmbiguousPositions in Ha.
  set (S := sort_strings _) in *. pose proof (sort_strings_sorted (fst <$> filter
      (λ p : string * list positionedClaim, (1 < length p.2)%nat)
      (map_to_list (distinct_claims <$> (claims_of sv).1)))) as Hsort. fold S in Hsort.
  destruct S as [|c l]; [done|]. injection Ha as <-. cbn [amb_child]. split.
  - apply Hmem. by left.
  - intros d Hd. apply Hmem in Hd. inversion Hsort as [|? ? _ Hall]; subst.
    apply elem_of_cons in Hd as [->|Hd]; [done|]. rewrite Forall_forall in Hall. by apply Hall.
Qed.

(** *** The children of a node *)

Lemma edge_before_anti a b : edge_before sv a b = true → edge_before sv b a = false.
Proof.
  unfold edge_before. destruct (childOrderKey sv a), (childOrderKey sv b); try done.
  intros Hlt%Z.ltb_lt. apply Z.ltb_ge. lia.
Qed.

Lemma edge_before_trans a b c :
  edge_before sv b a = false → edge_before sv c b = false → edge_before sv c a = false.
Proof.
  unfold edge_before. destruct (childOrderKey sv a), (childOrderKey sv b), (childOrderKey sv c);
    try done. intros H1%Z.ltb_ge H2%Z.ltb_ge. apply Z.ltb_ge. lia.
Qed.

Definition present (e : Edge) : Prop := is_Some (byID sv !! ToId e).

#[local] Instance present_dec e : Decision (present e).
Proof. unfold present. apply _. Defined.

(** The children a descent visits. *)
Definition kids (n : string) : list string := ToId <$> filter present (positionedChildEdges sv n).

Lemma elem_of_positioned n e : e ∈ positionedChildEdges sv n →
  e ∈ default [] (outEdges sv !! n) ∧ is_Some (childOrderKey sv e).
Proof.
  unfold positionedChildEdges, sortEdgesByOrderKey. rewrite SliceStable_perm. intros Hin.
  destruct (first_by_spec (λ e, mkChildClaim (ToId e) <$> childOrderKey sv e)
    (default [] (outEdges sv !! n)) []) as (_ & _ & H3).
  destruct (H3 e Hin) as [H1 H2]. split; [done|]. by apply fmap_is_Some in H2.
Qed.

Lemma positioned_claim n e : e ∈ positionedChildEdges sv n → present e →
  ∃ k, childOrderKey sv e = Some k ∧ claim n k (ToId e).
Proof. intros [Hin [k Hk]]%elem_of_positioned Hp. exists k. split; [done|]. by exists e. Qed.

Lemma NoDup_omap_filter {A K} (key : A → option K) (P : A → Prop) `{∀ x, Decision (P x)} l :
  NoDup (omap key l) → NoDup (omap key (filter P l)).
Proof.
  induction l as [|x l IH]; [done|]. rewrite filter_cons. cbn [omap list_omap]. intros Hnd.
  assert (Hsub : ∀ k, k ∈ omap key (filter P l) → k ∈ omap key l).
  { intros k (y & Hy & Hk)%list_elem_of_omap. apply list_elem_of_omap. exists y.
    split; [|done]. by apply list_elem_of_filter in Hy as [_ Hy]. }
  destruct (key x) as [k|] eqn:Hk.
  - apply NoDup_cons in Hnd as [Hn Hnd]. case_decide; [|by apply IH].
    cbn [omap list_omap]. rewrite Hk. constructor; [|by apply IH]. naive_solver.
  - case_decide; [|by apply IH]. cbn [omap list_omap]. rewrite Hk. by apply IH.
Qed.

Lemma NoDup_fmap_key {A B K} (key : A → option K) (f : A → B) l :
  NoDup (omap key l) → (∀ x, x ∈ l → is_Some (key x)) →
  (∀ x y, x ∈ l → y ∈ l → f x = f y → key x = key y) → NoDup (f <$> l).
Proof.
  induction l as [|x l IH]; [constructor|]. cbn [omap list_omap]. intros Hnd Hs Hf.
  destruct (Hs x ltac:(by left)) as [k Hk]. rewrite Hk in Hnd.
  apply NoDup_cons in Hnd as [Hn Hnd]. rewrite fmap_cons. constructor.
  - intros (y & Hxy & Hy)%list_elem_of_fmap. apply Hn, list_elem_of_omap. exists y. split; [done|].
    rewrite <- Hk. symmetry. apply Hf; [by left|by right|done].
  - apply IH; [done|set_solver|]. intros a b Ha Hb. apply Hf; by right.
Qed.

Lemma kids_children n : (∀ c, ¬ ambiguous c) → children n (kids n).
Proof.
  intros Hamb. set (key := λ e, mkChildClaim (ToId e) <$> childOrderKey sv e).
  destruct (first_by_spec key (default [] (outEdges sv !! n)) []) as (Hnd & Hin & _).
  assert (Hone : ∀ c k k', claim n k c → claim n k' c → k = k').
  { intros c k k' H1 H2. destruct (decide (k = k')) as [|Hne]; [done|].
    destruct (Hamb c). exists n, k, n, k'. split; [done|]. split; [done|]. congruence. }
  assert (Hclaim : ∀ e, e ∈ filter present (positionedChildEdges sv n) →
    ∃ k, childOrderKey sv e = Some k ∧ claim n k (ToId e)).
  { intros e [Hp He]%list_elem_of_filter. by apply positioned_claim. }
  split; [|split].
  - unfold kids. apply (NoDup_fmap_key key).
    + apply NoDup_omap_filter. unfold positionedChildEdges, sortEdgesByOrderKey.
      by rewrite SliceStable_perm.
    + intros e He. destruct (Hclaim e He) as (k & Hk & _). unfold key. rewrite Hk. by eexists.
    + intros e e' He He' Hto. destruct (Hclaim e He) as (k & Hk & H1).
      destruct (Hclaim e' He') as (k' & Hk' & H2). unfold key. rewrite Hk, Hk', Hto in *. cbn.
      by rewrite (Hone _ _ _ H1 H2).
  - intros c. unfold kids. rewrite list_elem_of_fmap. split.
    + intros (e & -> & He). destruct (Hclaim e He) as (k & _ & Hc). by exists k.
    + intros (k & e & He & <- & Hk & Hp).
      assert (Hkey : mkChildClaim (ToId e) k ∈ omap key (default [] (outEdges sv !! n))).
      { apply list_elem_of_omap. exists e. split; [done|]. unfold key. by rewrite Hk. }
      pose proof (proj2 (Hin _) (conj Hkey (not_elem_of_nil _))) as Hkey'.
      apply list_elem_of_omap in Hkey' as (e' & He' & Hk'). unfold key in Hk'.
      destruct (childOrderKey sv e') as [k'|]; cbn in Hk'; [|done]. injection Hk' as Hto _.
      exists e'. split; [done|]. apply list_elem_of_filter. unfold present. rewrite Hto.
      split; [done|]. unfold positionedChildEdges, sortEdgesByOrderKey. by rewrite SliceStable_perm.
  - unfold kids. apply (StronglySorted_filter_fmap (not_after (edge_before sv))).
    + intros e e' He He' Hp Hp' Hle k k' Hk Hk'.
      destruct (positioned_claim n e He Hp) as (j & Hj & Hcj).
      destruct (positioned_claim n e' He' Hp') as (j' & Hj' & Hcj').
      rewrite (Hone _ _ _ Hk Hcj), (Hone _ _ _ Hk' Hcj'). unfold not_after, edge_before in Hle.
      rewrite Hj, Hj' in Hle. by apply Z.ltb_ge in Hle.
    + apply SliceStable_sorted; [apply edge_before_anti|apply edge_before_trans].
Qed.

(** *** Without ambiguity the positioned relation is a forest *)

Section Forest.
Context (Hamb : ∀ c, ¬ ambiguous c).

Lemma one_parent p q c : child_of p c → child_of q c → p = q.
Proof.
  intros [k Hp] [l Hq]. destruct (decide (p = q)) as [|Hne]; [done|].
  destruct (Hamb c). exists p, k, q, l. split; [done|]. split; [done|]. congruence.
Qed.

Lemma ancestors_unique d : ∀ n m x, nsteps child_of d n x → nsteps child_of d m x → n = m.
Proof.
  induction d as [|d IH]; intros n m x Hn Hm.
  - inversion Hn; inversion Hm; congruence.
  - apply nsteps_inv_r in Hn as (y & Hn & Hy), Hm as (z & Hm & Hz).
    rewrite (one_parent z y x Hz Hy) in Hm. by apply (IH n m y).
Qed.

(** [n] is [d] steps below a root. *)
Definition depth (d : nat) (n : string) : Prop := ∃ r, root r ∧ nsteps child_of d r n.

Lemma depth_step d p c : depth d p → child_of p c → depth (S d) c.
Proof. intros (r & Hr & Hs) Hc. exists r. split; [done|]. by apply nsteps_r with p. Qed.

Lemma depth_steps d j n x : depth d n → nsteps child_of j n x → depth (d + j) x.
Proof. intros (r & Hr & Hs) Hx. exists r. split; [done|]. by apply nsteps_trans with n. Qed.

Lemma depth_unique d : ∀ d' n, depth d n → depth d' n → d = d'.
Proof.
  induction d as [|d IH]; intros [|d'] n (r & Hr & Hs) (r' & Hr' & Hs'); [done|..].
  - inversion Hs; subst. apply nsteps_inv_r in Hs' as (y & _ & Hy). by destruct (proj2 Hr y).
  - inversion Hs'; subst. apply nsteps_inv_r in Hs as (y & _ & Hy). by destruct (proj2 Hr' y).
  - apply nsteps_inv_r in Hs as (y & Hs & Hy), Hs' as (z & Hs' & Hz).
    rewrite (one_parent z y n Hz Hy) in Hs'. f_equal. apply (IH d' y); [by exists r|by exists r'].
Qed.

(** The nodes on the way down are present and distinct. *)
Lemma depth_bound d n : depth d n → (d ≤ size (byID sv))%nat.
Proof.
  intros Hd. assert (Hpath : ∀ d n, depth d n → ∃ l, length l = d ∧ NoDup l ∧
    ∀ x, x ∈ l → x ∈ dom (byID sv) ∧ ∃ i, (i ≤ d)%nat ∧ depth i x).
  { clear d n Hd. induction d as [|d IH]; intros n (r & Hr & Hs).
    - exists []. split; [done|]. split; [constructor|set_solver].
    - apply nsteps_inv_r in Hs as (y & Hs & Hy).
      destruct (IH y ltac:(by exists r)) as (l & Hlen & Hnd & Hl).
      assert (Hn : depth (S d) n) by (apply depth_step with y; [by exists r|done]).
      exists (n :: l). split; [by cbn; rewrite Hlen|]. split.
      + constructor; [|done]. intros Hin. destruct (Hl n Hin) as (_ & i & Hi & Hdi).
        pose proof (depth_unique _ _ _ Hdi Hn). lia.
      + intros x [->|Hx]%elem_of_cons.
        * split; [|by exists (S d)]. destruct Hy as (k & e & _ & _ & _ & Hp).
          by apply elem_of_dom.
        * destruct (Hl x Hx) as (H1 & i & Hi & Hdi). split; [done|]. exists i. split; [lia|done]. }
  destruct (Hpath d n Hd) as (l & <- & Hnd & Hl). rewrite <- size_dom.
  rewrite <- (size_list_to_set l Hnd : size (list_to_set l : gset string) = _).
  apply subseteq_size. intros x Hx%elem_of_list_to_set. by apply Hl.
Qed.

(** *** The descent *)

Definition ranks (st : ranking) (order : list string) : ranking := foldl put_rank st order.

(** [f] ranks [a] in this order. *)
Lemma descend_forest (f : ranking → string → option ranking) (es : list Edge) :
  (∀ e, e ∈ es → present e → ∀ st, ∃ a, children (ToId e) (kids (ToId e)) ∧
    preorder (kids (ToId e)) a ∧ f st (ToId e) = Some (ranks st (ToId e :: a))) →
  ∀ st, ∃ a, preorder (ToId <$> filter present es) a ∧
    foldM (λ st e, match byID sv !! ToId e with None => Some st | Some _ => f st (ToId e) end) st es
    = Some (ranks st a).
Proof.
  induction es as [|e es IH]; intros Hf st; cbn [foldM].
  { exists []. split; [constructor|done]. }
  rewrite filter_cons. destruct (decide (present e)) as [Hp|Hp].
  - destruct (Hf e ltac:(by left) Hp st) as (a & Hc & Ha & Hfa).
    destruct (IH (λ e' He', Hf e' (list_elem_of_further _ _ _ He')) (ranks st (ToId e :: a)))
      as (b & Hb & Hfold).
    exists (ToId e :: a ++ b). split; [rewrite fmap_cons; by econstructor|].
    pose proof Hp as [n Hn]. rewrite Hn, Hfa. cbn [mbind option_bind]. rewrite Hfold.
    unfold ranks. by rewrite <- foldl_app.
  - assert (Hn : byID sv !! ToId e = None) by (destruct (byID sv !! ToId e) eqn:E; [|done];
      destruct Hp; by eexists).
    rewrite Hn. cbn [mbind option_bind]. apply IH. intros e' He'. apply Hf. by right.
Qed.

Lemma descend_ranks fuel : ∀ d n st, depth d n → (size (byID sv) < d + fuel)%nat →
  ∃ a, preorder (kids n) a ∧ descend sv fuel st n = Some (ranks st (n :: a)).
Proof.
  induction fuel as [|fuel IH]; intros d n st Hd Hf; [apply depth_bound in Hd; lia|].
  cbn [descend]. apply (descend_forest (λ st n, descend sv fuel st n)).
  intros e He Hp st'. destruct (positioned_claim n e He Hp) as (k & _ & Hc).
  assert (Hs : depth (S d) (ToId e)) by (apply depth_step with n; [done|by exists k]).
  destruct (IH (S d) (ToId e) st' Hs ltac:(lia)) as (a & Ha & Hdesc). exists a.
  split; [by apply kids_children|]. by split.
Qed.

Lemma roots_ranks (roots : list string) : (∀ r, r ∈ roots → root r) → ∀ st, ∃ order,
  preorder roots order ∧ foldM (descend sv (descend_fuel sv)) st roots = Some (ranks st order).
Proof.
  induction roots as [|r roots IH]; intros Hr st; cbn [foldM].
  { exists []. split; [constructor|done]. }
  destruct (descend_ranks (descend_fuel sv) 0 r st) as (a & Ha & Hdesc).
  { exists r. split; [apply Hr; by left|constructor]. }
  { unfold descend_fuel. lia. }
  destruct (IH (λ r' Hr', Hr r' (list_elem_of_further _ _ _ Hr')) (ranks st (r :: a)))
    as (b & Hb & Hfold).
  exists (r :: a ++ b). split; [by econstructor; [apply kids_children| |]|].
  rewrite Hdesc. cbn [mbind option_bind]. rewrite Hfold. unfold ranks. by rewrite <- foldl_app.
Qed.

(** *** The order lists each node below its roots once *)

Lemma preorder_below l a : preorder l a → ∀ x, x ∈ a ↔ ∃ n j, n ∈ l ∧ nsteps child_of j n x.
Proof.
  induction 1 as [|n kids a rest b Hk _ IHa _ IHb]; intros x.
  { split; [set_solver|]. intros (? & ? & []%elem_of_nil & _). }
  rewrite elem_of_cons, elem_of_app, IHa, IHb. destruct Hk as (_ & Hk & _). split.
  - intros [->|[(c & j & Hc & Hs)|(m & j & Hm & Hs)]].
    + exists n, 0%nat. split; [by left|constructor].
    + exists n, (S j). split; [by left|]. apply nsteps_l with c; [by apply Hk|done].
    + exists m, j. split; [by right|done].
  - intros (m & j & [->|Hm]%elem_of_cons & Hs); [|right; right; by exists m, j].
    inversion Hs as [|j' ? c ? Hc Hs']; subst; [by left|]. right; left. exists c, j'.
    split; [by apply Hk|done].
Qed.

Lemma preorder_NoDup l a : preorder l a → ∀ d, (∀ n, n ∈ l → depth d n) → NoDup l → NoDup a.
Proof.
  induction 1 as [|n kids a rest b Hk Ha IHa Hb IHb]; intros d Hd Hnd; [constructor|].
  apply NoDup_cons in Hnd as [Hn Hnd].
  assert (Hdn : depth d n) by (apply Hd; by left).
  assert (Hkd : ∀ c, c ∈ kids → depth (S d) c).
  { intros c Hc. apply depth_step with n; [done|]. by apply (proj1 (proj2 Hk)). }
  apply NoDup_cons. split.
  - rewrite elem_of_app. intros [Hx|Hx].
    + apply (preorder_below _ _ Ha) in Hx as (c & j & Hc & Hs).
      pose proof (depth_unique _ _ _ (depth_steps _ _ _ _ (Hkd c Hc) Hs) Hdn). lia.
    + apply (preorder_below _ _ Hb) in Hx as (m & j & Hm & Hs).
      assert (Hdm : depth d m) by (apply Hd; by right).
      pose proof (depth_unique _ _ _ (depth_steps _ _ _ _ Hdm Hs) Hdn).
      assert (j = 0%nat) as -> by lia. inversion Hs; subst. done.
  - apply NoDup_app. split; [by apply (IHa (S d)); [|apply Hk]|]. split.
    + intros x (c & j & Hc & Hs)%(preorder_below _ _ Ha) (m & i & Hm & Hs')%(preorder_below _ _ Hb).
      assert (Hdm : depth d m) by (apply Hd; by right).
      assert (Hs'' : nsteps child_of (S j) n x) by (apply nsteps_l with c; [by apply Hk|done]).
      pose proof (depth_unique _ _ _ (depth_steps _ _ _ _ Hdm Hs') (depth_steps _ _ _ _ Hdn Hs'')).
      assert (i = S j) as -> by lia. by rewrite (ancestors_unique _ _ _ _ Hs'' Hs') in Hn.
    + apply (IHb d); [|done]. intros m Hm. apply Hd. by right.
Qed.
End Forest.

Lemma ranks_lookup order : NoDup order → ∀ n i,
  (ranks (∅, 0%nat) order).1 !! n = Some i ↔ order !! i = Some n.
Proof.
  assert (Hgen : (ranks (∅, 0%nat) order).2 = length order).
  { induction order as [|x l IH] using rev_ind; [done|]. unfold ranks in *.
    rewrite foldl_app, length_app. cbn. lia. }
  induction order as [|x l IH] using rev_ind; intros Hnd n i; [by rewrite lookup_nil|].
  apply NoDup_app in Hnd as (Hnd & Hx & _). assert (Hxl : x ∉ l) by (intros ?; by apply (Hx x), list_elem_of_here).
  unfold ranks in *. rewrite foldl_app in *. cbn [foldl put_rank fst snd] in *.
  rewrite length_app in Hgen. cbn in Hgen. rewrite Nat.add_1_r in Hgen. injection Hgen as Hgen.
  specialize (IH Hgen Hnd). rewrite Hgen. destruct (decide (n = x)) as [->|Hne].
  - rewrite lookup_insert_eq. split.
    + intros [= <-]. by rewrite lookup_app_r, Nat.sub_diag by lia.
    + intros [Hi|[Hle Hi]]%lookup_app_Some; [by apply list_elem_of_lookup_2 in Hi|].
      destruct (i - length l)%nat eqn:E; [|done]. f_equal. lia.
  - rewrite lookup_insert_ne by done. rewrite IH. split.
    + intros Hi. by apply lookup_app_l_Some.
    + intros [Hi|[Hle Hi]]%lookup_app_Some; [done|]. destruct (i - length l)%nat; cbn in Hi; [|done].
      congruence.
Qed.

Lemma elem_of_roots r : r ∈ roots_of (claims_of sv) ↔ root r.
Proof.
  unfold roots_of, root. rewrite elem_of_sort_strings, list_elem_of_filter, elem_of_elements.
  rewrite (proj2 claims_of_spec). split.
  - intros [H1 H2]. split; [done|]. intros p [k Hc]. apply (proj2 (in_claims_claim r (mkClaim p k))) in Hc.
    rewrite H1 in Hc. by apply elem_of_nil in Hc.
  - intros [H1 H2]. split; [|done]. apply elem_of_nil_inv. intros [p k] Hc.
    apply in_claims_claim in Hc. apply (H2 p). by exists k.
Qed.
End Reading.

(** C16: The reading order is a depth-first walk of the positioned containment: the index
    refuses exactly the graphs in which a node is placed twice, naming the first such
    node; on every other graph the descent ends without a visited set, though the graph
    may have cycles, and ranks every node below a root once, each before its children,
    a node with all below it before its siblings of later position. *)
Theorem documentOrderIndex_reading_order `{Host} (sv : sourceView) :
  ∃ r, documentOrderIndex sv = Some r ∧
    match r with
    | Err a => ambiguous sv (amb_child a) ∧ ∀ c, ambiguous sv c → amb_child a <=s c
    | Ok rank => (∀ c, ¬ ambiguous sv c) ∧ ∃ roots order,
        StronglySorted String.le roots ∧ (∀ r, r ∈ roots ↔ root sv r) ∧
        preorder sv roots order ∧ NoDup order ∧ ∀ n i, rank !! n = Some i ↔ order !! i = Some n
    end.
Proof.
  unfold documentOrderIndex. destruct (refuseAmbiguousPositions _) as [a|] eqn:Ha.
  { eexists. split; [done|]. by apply refuse_some. }
  pose proof (refuse_none sv Ha) as Hamb.
  destruct (roots_ranks sv Hamb (roots_of (claims_of sv))
    (λ r, proj1 (elem_of_roots sv r)) (∅, 0%nat)) as (order & Hpre & Hrun).
  assert (Hnd : NoDup order).
  { apply (preorder_NoDup sv Hamb _ _ Hpre 0).
    - intros r Hr%elem_of_roots. exists r. split; [done|constructor].
    - unfold roots_of. rewrite sort_strings_perm. apply NoDup_filter, NoDup_elements. }
  rewrite Hrun. cbn [mbind option_bind]. eexists. split; [done|]. split; [done|].
  exists (roots_of (claims_of sv)), order. split; [apply sort_strings_sorted|].
  split; [apply elem_of_roots|]. split; [done|]. split; [done|]. by apply ranks_lookup.
Qed.

(** ** A host to evaluate examples on

    Patterns are literal text, without groups; JSON objects have one pair, written
    [key=value]; numbers are integers. *)
Module LiteralHost.
Definition meta (c : ascii) : bool := bool_decide (c ∈ String.list_ascii_of_string "\^$.|?*+()[]{}").

Definition compile (pattern : string) : result string string :=
  if existsb meta (String.list_ascii_of_string pattern) then Err "not a literal" else Ok pattern.

Definition found (re s : string) : bool := bool_decide (is_Some (String.index 0 re s)).

Definition object (s : string) : option (gmap string string) :=
  let '(k, v, ok) := Cut s "="%char in if ok : bool then Some {[k := v]} else None.

Definition upper (c : ascii) : ascii :=
  let n := N_of_ascii c in
  if ((97 <=? n) && (n <=? 122))%N then ascii_of_N (n - 32) else c.

#[export] Instance host : Host := {|
  regexp := string;
  Compile := compile;
  MatchString := found;
  FindString re s := if found re s then re else "";
  FindStringSubmatch re s := if found re s then Some [re] else None;
  UnmarshalStringMap := object;
  UnmarshalPosition s := m ← object s; Some (default "" (m !! "position"));
  strings_ToLower := ToLower;
  strings_ToUpper s := String.string_of_list_ascii (upper <$> String.list_ascii_of_string s);
  ParseFloat s := (λ n, binary_normalize 53 1024 n 0 false) <$> Atoi s;
|}.

(** A document of two sections in their order, the second of which cites the first. *)
Definition node (id ty name : string) : Node := mkNode id ty name "" "" "" "" "" ∅.
Definition edge (from to ty evidence : string) : Edge :=
  mkEdge from to ty (S754_zero false) (S754_zero false) "" evidence 0 0.

Definition nodes : list Node :=
  [node "d" "book" "Manual"; node "s" "section" "Start"; node "t" "section" "Tools"].
Definition edges : list Edge :=
  [edge "d" "t" "contains" "position=2"; edge "d" "s" "contains" "position=1"; edge "t" "s" "cites" ""].

Definition view (nodes : list Node) (edges : list Edge) : sourceView :=
  match loadSourceView (Ok (Some <$> nodes)) (λ _, Ok edges) "documents" "manual" with
  | Ok sv => sv
  | Err _ => mkView ∅ ∅ ∅ ∅ "" ""
  end.

Definition book : sourceView := view nodes edges.
End LiteralHost.
