(* ===== verification/RecipeEval.v ===== *)
(** * The evaluation of recipes: fields, expressions, where-trees

    [internal/recipe/interpret_expr.go], [interpret_field.go], [interpret_funcs.go],
    [interpret_render.go], [where_eval.go], [interpret_env.go] and the comparison of
    [compare_ops.go].

    A nil row is [None]; a nil map of variables reads as an empty one and is [∅].  No two
    rows share a map of variables (each rule that makes a row makes its map), so a row
    holds its map by value.  The run's maps of compiled patterns and resolved
    comparisons are keyed on the addresses of leaves in the code and on leaves here: what
    is recorded for a leaf is a function of the leaf.  [evalError] has one constructor
    per message, with its arguments. *)

From S2P Require Import Prelude Gostd Paging RecipeLex RecipeParse RecipeSource.
From Stdlib Require Import Ascii SpecFloat.

#[local] Open Scope Z_scope.

(** ** Rows, environments, errors *)

#[export] Instance MatchesLeaf_eq_dec : EqDecision MatchesLeaf.
Proof. solve_decision. Defined.
#[export] Instance MatchesLeaf_countable : Countable MatchesLeaf.
Proof.
  refine (inj_countable' (λ l, (MatchesOf l, MatchesRegex l))
    (λ p, {| MatchesOf := p.1; MatchesRegex := p.2 |}) _). by intros [].
Defined.

#[export] Instance CompareLeaf_eq_dec : EqDecision CompareLeaf.
Proof. solve_decision. Defined.
#[export] Instance CompareLeaf_countable : Countable CompareLeaf.
Proof.
  refine (inj_countable' (λ l, (CompareOf l, CompareOp l, CompareValue l))
    (λ p, {| CompareOf := p.1.1; CompareOp := p.1.2; CompareValue := p.2 |}) _). by intros [].
Defined.

(** The generated enum of comparison operators. *)
Inductive MetadataPredicate_Op :=
| OP_UNSPECIFIED | OP_EQ | OP_NE | OP_LT | OP_LTE | OP_GT | OP_GTE | OP_EXISTS | OP_PREFIX.

Record compareResolution := mkResolution { op : MetadataPredicate_Op; operand : spec_float }.

Record Row := mkRow {
  NodeID : string;
  RNode : Node;
  Vars : gmap string string;
  REdge : option Edge;
}.

Record Env `{Host} := mkEnv {
  Rows : list Row;
  EVars : gmap string string;
  EmitMap : gmap string (gmap string string);
  SourceRef : string;
  whereRegexes : gmap MatchesLeaf regexp;
  whereCompares : gmap CompareLeaf compareResolution;
}.

Inductive evalError :=
| EmptyFieldPath
| EdgeNamesNothing
| EdgeNotWalked (rest : list string)
| EvidenceNamesNothing
| PatternRefused (pattern err : string) (At : Position)
| UnknownFunction (name : string) (At : Position)
| BadArity (name : string) (want got : Z)
| SliceOutOfRange
| WhereOfEmpty
| WhereWithoutRow (of_ : string)
| MatchesUncompiled (leaf : MatchesLeaf)
| CompareUnresolved (leaf : CompareLeaf)
| CompareNotApplied (o : MetadataPredicate_Op)
| BadDirectionOf (d : string)
| NotAnInteger (builtin got : string)
| NegativeGroup (n : Z)
| BuiltinPattern (builtin pattern err : string)
| RowNotANumber (of_ value node : string)
| AmbiguousOrder (a : ambiguity)
| DuplicateIdentity (nodeType identity node id : string) (At : Position)
| NegativeOffset (n : Z)
| InEmitField (field : string) (e : evalError)
| InLookupIdentity (e : evalError).

Section Eval.
Context `{Host}.

(** ** Fields *)

Definition lookupVar (env : Env) (row : option Row) (name : string) : string :=
  match (r ← row; Vars r !! name) with
  | Some v => v
  | None => default "" (EVars env !! name)
  end.

Definition evalVarField (env : Env) (row : option Row) (name : string) (rest : list string) : string :=
  let value := lookupVar env row name in
  match rest with
  | [] => value
  | _ =>
      match (r ← row; Vars r !! name) with
      | Some nodeID => if bool_decide (nodeID ≠ "") then nodeID else value
      | None => value
      end
  end.

Definition readNodeField (n : Node) (rest : list string) : string :=
  match rest with
  | [] => SymbolName n
  | head :: rest' =>
      if decide (head = "type") then NType n
      else if decide (head = "symbol_name") then SymbolName n
      else if decide (head = "name") then SymbolName n
      else if decide (head = "summary") then Summary n
      else if decide (head = "description") then Description n
      else if decide (head = "content") then Content n
      else if decide (head = "source") then Source n
      else if decide (head = "status") then Status n
      else if decide (head = "id") then Id n
      else if decide (head = "body") then
        if bool_decide (Content n ≠ "") then Content n else Description n
      else if decide (head = "metadata") then
        match rest' with
        | [] => ""
        | key :: _ => kgtypes.Value n key
        end
      else kgtypes.Value n head
  end.

Definition edgeEvidenceKey : string := "evidence".

Definition wellKnownEdgeFields : gset string := {["type"]}.

Definition readEdgeField (e : option Edge) (rest : list string) : result evalError string :=
  match rest with
  | [] => Err EdgeNamesNothing
  | head :: rest' =>
      match e with
      | None => Err (EdgeNotWalked rest)
      | Some e =>
          if decide (head ∈ wellKnownEdgeFields) then Ok (EType e)
          else if decide (head = edgeEvidenceKey) then
            match rest' with
            | [] => Err EvidenceNamesNothing
            | key :: _ => Ok (default "" (edgeEvidenceMap (Evidence e) !! key))
            end
          else Ok (default "" (edgeEvidenceMap (Evidence e) !! head))
      end
  end.

Definition evalField (env : Env) (row : option Row) (path : list string) : result evalError string :=
  match path with
  | [] => Err EmptyFieldPath
  | head :: rest =>
      match CutPrefix head "$" with
      | Some name => Ok (evalVarField env row name rest)
      | None =>
          match row with
          | None => Ok ""
          | Some r =>
              if decide (head = edgeHead) then readEdgeField (REdge r) rest
              else match rest with
              | [] => Ok (SymbolName (RNode r))
              | _ =>
                  match Vars r !! Join path "." with
                  | Some v => Ok v
                  | None => Ok (readNodeField (RNode r) rest)
                  end
              end
          end
      end
  end.

(** ** Builtins *)

Definition compileRegex (pattern : string) : result string regexp := Compile pattern.

Definition checkArity (name : string) (args : list string) (want : nat) : result evalError unit :=
  if decide (length args = want) then Ok tt
  else Err (BadArity name (Z.of_nat want) (Z.of_nat (length args))).

(** [args[i]], after a check of the arity. *)
Definition arg (args : list string) (i : nat) : string := default "" (args !! i).

Definition integer (builtin s : string) : result evalError Z :=
  match Atoi s with Some n => Ok n | None => Err (NotAnInteger builtin s) end.

Definition sliceString (input startStr endStr : string) : result evalError string :=
  (start <-- integer "slice" startStr ;;
   end_ <-- integer "slice" endStr ;;
   let start := if start <? 0 then 0 else start in
   let len := Z.of_nat (String.length input) in
   let end_ := if len <? end_ then len else end_ in
   if end_ <? start then Ok ""
   else match slice_string input start end_ with
   | Some s => Ok s
   | None => Err SliceOutOfRange
   end)%go.

Definition andBool (a b : string) : string :=
  if bool_decide (a = "") || bool_decide (b = "") then "" else b.
Definition orBool (a b : string) : string := if bool_decide (a ≠ "") then a else b.
Definition notBool (a : string) : string := if bool_decide (a = "") then "1" else "".

Definition matchGroup (input pattern nStr : string) : result evalError string :=
  (n <-- integer "match_group" nStr ;;
   if n <? 0 then Err (NegativeGroup n)
   else match compileRegex pattern with
   | Err e => Err (BuiltinPattern "match_group" pattern e)
   | Ok re =>
       match FindStringSubmatch re input with
       | None => Ok ""
       | Some matches => Ok (default "" (matches !! Z.to_nat n))
       end
   end)%go.

(** A builtin of [want] arguments; [None] is "not handled". *)
Definition builtin (name : string) (args : list string) (want : nat)
    (v : result evalError string) : option (result evalError string) :=
  Some (_ <-- checkArity name args want ;; v)%go.

Definition evalStringFunc (name : string) (args : list string) : option (result evalError string) :=
  if decide (name = "concat") then Some (Ok (Join args ""))
  else if decide (name = "trim") then builtin "trim" args 1 (Ok (TrimSpace (arg args 0)))
  else if decide (name = "lower") then builtin "lower" args 1 (Ok (strings_ToLower (arg args 0)))
  else if decide (name = "upper") then builtin "upper" args 1 (Ok (strings_ToUpper (arg args 0)))
  else if decide (name = "length") then
    builtin "length" args 1 (Ok (itoa (Z.of_nat (String.length (arg args 0)))))
  else if decide (name = "slice") then
    builtin "slice" args 3 (sliceString (arg args 0) (arg args 1) (arg args 2))
  else if decide (name = "match_group") then
    builtin "match_group" args 3 (matchGroup (arg args 0) (arg args 1) (arg args 2))
  else None.

Definition parseDirection (d : string) : result evalError edgeDirection :=
  let l := strings_ToLower d in
  if decide (l = "in") then Ok incomingEdges
  else if decide (l = "out") then Ok outgoingEdges
  else if decide (l = "both") then Ok bothEdges
  else Err (BadDirectionOf d).

(** [row == nil || row.NodeID == ""]. *)
Definition row_id (row : option Row) : option string :=
  r ← row; if decide (NodeID r = "") then None else Some (NodeID r).

Definition hasEdge (row : option Row) (edgeType direction : string) (sv : sourceView)
    : result evalError string :=
  match row_id row with
  | None => Ok ""
  | Some id =>
      (dir <-- parseDirection direction ;;
       Ok (if bool_decide (edgesFrom sv id edgeType dir ≠ []) then "true" else ""))%go
  end.

Definition collectNeighborField (id edgeType : string) (dir : edgeDirection) (field : string)
    (sv : sourceView) : list string :=
  omap (λ neighborID,
    node ← nodeByID sv neighborID;
    let val := readNodeField node [field] in
    if bool_decide (val ≠ "") then Some val else None) (edgesFrom sv id edgeType dir).

Definition childrenConcat (row : option Row) (edgeType field sep : string) (sv : sourceView) : string :=
  match row_id row with
  | None => ""
  | Some id => Join (collectNeighborField id edgeType outgoingEdges field sv) sep
  end.

Definition ancestorsConcat (row : option Row) (edgeType field sep : string) (sv : sourceView) : string :=
  match row_id row with
  | None => ""
  | Some id => Join (collectNeighborField id edgeType incomingEdges field sv) sep
  end.

(** One level of [hasAncestor]; [None] is "found". *)
Fixpoint ancestor_hops (re : regexp) (field : string) (sv : sourceView) (ids : list string)
    (visited : gset string) (next : list string) : option (gset string * list string) :=
  match ids with
  | [] => Some (visited, next)
  | id :: ids' =>
      if decide (id ∈ visited) then ancestor_hops re field sv ids' visited next
      else
        let visited := {[id]} ∪ visited in
        match nodeByID sv id with
        | None => ancestor_hops re field sv ids' visited next
        | Some node =>
            if MatchString re (readNodeField node [field]) then None
            else ancestor_hops re field sv ids' visited (next ++ [id])
        end
  end.

Fixpoint ancestor_frontier (re : regexp) (field edgeType : string) (sv : sourceView)
    (frontier : list string) (visited : gset string) (next : list string)
    : option (gset string * list string) :=
  match frontier with
  | [] => Some (visited, next)
  | id :: frontier' =>
      '(visited, next) ← ancestor_hops re field sv (edgesFrom sv id edgeType incomingEdges) visited next;
      ancestor_frontier re field edgeType sv frontier' visited next
  end.

Fixpoint ancestor_levels (depth : nat) (re : regexp) (field edgeType : string) (sv : sourceView)
    (visited : gset string) (frontier : list string) : string :=
  match depth with
  | O => ""
  | S depth' =>
      if decide (frontier = []) then ""
      else match ancestor_frontier re field edgeType sv frontier visited [] with
      | None => "1"
      | Some (visited, next) => ancestor_levels depth' re field edgeType sv visited next
      end
  end.

Definition hasAncestor (row : option Row) (edgeType field pattern : string) (sv : sourceView)
    : result evalError string :=
  match row_id row with
  | None => Ok ""
  | Some id =>
      match compileRegex pattern with
      | Err e => Err (BuiltinPattern "has_ancestor" pattern e)
      | Ok re => Ok (ancestor_levels 32 re field edgeType sv {[id]} [id])
      end
  end.

Definition evalGraphFunc (row : option Row) (name : string) (args : list string) (sv : sourceView)
    : option (result evalError string) :=
  if decide (name = "has_edge") then
    builtin "has_edge" args 2 (hasEdge row (arg args 0) (arg args 1) sv)
  else if decide (name = "children_concat") then
    builtin "children_concat" args 3 (Ok (childrenConcat row (arg args 0) (arg args 1) (arg args 2) sv))
  else if decide (name = "ancestors_concat") then
    builtin "ancestors_concat" args 3 (Ok (ancestorsConcat row (arg args 0) (arg args 1) (arg args 2) sv))
  else if decide (name = "has_ancestor") then
    builtin "has_ancestor" args 3 (hasAncestor row (arg args 0) (arg args 1) (arg args 2) sv)
  else None.

Definition evalBoolFunc (name : string) (args : list string) : option (result evalError string) :=
  if decide (name = "and") then builtin "and" args 2 (Ok (andBool (arg args 0) (arg args 1)))
  else if decide (name = "or") then builtin "or" args 2 (Ok (orBool (arg args 0) (arg args 1)))
  else if decide (name = "not") then builtin "not" args 1 (Ok (notBool (arg args 0)))
  else None.

Definition maxRenderDepth : nat := 32.

(** The values from the row upwards. *)
Fixpoint heading_loop (n : nat) (edgeType field : string) (sv : sourceView) (current : string)
    (visited : gset string) : list string :=
  match n with
  | O => []
  | S n' =>
      match edgesFrom sv current edgeType incomingEdges with
      | [] => []
      | parentID :: _ =>
          if decide (parentID ∈ visited) then []
          else match nodeByID sv parentID with
          | None => []
          | Some node =>
              let val := readNodeField node [field] in
              let above := heading_loop n' edgeType field sv parentID ({[parentID]} ∪ visited) in
              if bool_decide (val ≠ "") then val :: above else above
          end
      end
  end.

Definition headingPath (row : option Row) (edgeType field sep : string) (sv : sourceView) : string :=
  match row_id row with
  | None => ""
  | Some id => Join (reverse (heading_loop maxRenderDepth edgeType field sv id {[id]})) sep
  end.

(** [walk]; [levels] is [maxDepth - depth + 1]. *)
Fixpoint subtree_walk (levels : nat) (edgeType field : string) (sv : sourceView)
    (st : gset string * list string) (id : string) : gset string * list string :=
  match levels with
  | O => st
  | S levels' =>
      foldl (λ st e,
        if decide (ToId e ∈ st.1) then st
        else
          let visited := {[ToId e]} ∪ st.1 in
          match nodeByID sv (ToId e) with
          | None => (visited, st.2)
          | Some node =>
              let val := readNodeField node [field] in
              subtree_walk levels' edgeType field sv
                (visited, if bool_decide (val ≠ "") then st.2 ++ [val] else st.2) (ToId e)
          end) st (childEdgesOrdered sv id edgeType)
  end.

Definition subtreeConcat (row : option Row) (edgeType field sep maxDepthStr : string) (sv : sourceView)
    : result evalError string :=
  (maxDepth <-- integer "subtree_concat" maxDepthStr ;;
   match row_id row with
   | None => Ok ""
   | Some id =>
       if maxDepth <=? 0 then Ok ""
       else
         let maxDepth := if Z.of_nat maxRenderDepth <? maxDepth then Z.of_nat maxRenderDepth else maxDepth in
         Ok (Join (subtree_walk (Z.to_nat maxDepth) edgeType field sv ({[id]}, []) id).2 sep)
   end)%go.

Definition evalRenderFunc (row : option Row) (name : string) (args : list string) (sv : sourceView)
    : option (result evalError string) :=
  if decide (name = "heading_path") then
    builtin "heading_path" args 3 (Ok (headingPath row (arg args 0) (arg args 1) (arg args 2) sv))
  else if decide (name = "subtree_concat") then
    builtin "subtree_concat" args 4
      (subtreeConcat row (arg args 0) (arg args 1) (arg args 2) (arg args 3) sv)
  else None.

(** ** Expressions *)

Definition evalFunc (row : option Row) (name : string) (p : Position) (args : list string)
    (sv : sourceView) : result evalError string :=
  match evalStringFunc name args with Some r => r | None =>
  match evalGraphFunc row name args sv with Some r => r | None =>
  match evalBoolFunc name args with Some r => r | None =>
  match evalRenderFunc row name args sv with Some r => r | None =>
  Err (UnknownFunction name p)
  end end end end.

Definition evalRegex (lhs pattern : string) (negate : bool) (p : Position) : result evalError string :=
  match compileRegex pattern with
  | Err e => Err (PatternRefused pattern e p)
  | Ok re =>
      let found := FindString re lhs in
      if negate then Ok (if bool_decide (found = "") then "1" else "") else Ok found
  end.

(** Each element in turn, up to the first error. *)
Fixpoint map_ok {A B} (f : A → result evalError B) (l : list A) : result evalError (list B) :=
  match l with
  | [] => Ok []
  | a :: l' => (b <-- f a ;; bs <-- map_ok f l' ;; Ok (b :: bs))%go
  end.

Fixpoint evalExpr (env : Env) (row : option Row) (sv : sourceView) (e : Expr)
    : result evalError string :=
  match e with
  | ExprLit v _ => Ok v
  | ExprVar name _ => Ok (lookupVar env row name)
  | ExprField path _ => evalField env row path
  | ExprRegex lhs pattern negate p =>
      (v <-- evalExpr env row sv lhs ;; evalRegex v pattern negate p)%go
  | ExprFunc name args p =>
      (vs <-- map_ok (evalExpr env row sv) args ;; evalFunc row name p vs sv)%go
  end.

(** ** Comparisons *)

Definition op_values : list (string * MetadataPredicate_Op) :=
  [("OP_UNSPECIFIED", OP_UNSPECIFIED); ("OP_EQ", OP_EQ); ("OP_NE", OP_NE); ("OP_LT", OP_LT);
   ("OP_LTE", OP_LTE); ("OP_GT", OP_GT); ("OP_GTE", OP_GTE); ("OP_EXISTS", OP_EXISTS);
   ("OP_PREFIX", OP_PREFIX)].

Definition declinedCompareOps (o : MetadataPredicate_Op) : bool :=
  match o with OP_UNSPECIFIED | OP_EXISTS | OP_PREFIX => true | _ => false end.

Definition compareOp (name : string) : option MetadataPredicate_Op :=
  if bool_decide (name ≠ strings_ToLower name) then None
  else
    '(_, (_, o)) ← list_find (λ p, p.1 = "OP_" +:+ strings_ToUpper name) op_values;
    if declinedCompareOps o then None else Some o.

Definition is_finite (f : spec_float) : bool :=
  match f with S754_nan | S754_infinity _ => false | _ => true end.

Definition parseNumericOperand (s : string) : option spec_float :=
  f ← ParseFloat s; if is_finite f then Some f else None.

Definition compareOrdered (o : MetadataPredicate_Op) (got want : spec_float) : result evalError bool :=
  match o with
  | OP_EQ => Ok (SFeqb got want)
  | OP_NE => Ok (negb (SFeqb got want))
  | OP_LT => Ok (SFltb got want)
  | OP_LTE => Ok (SFleb got want)
  | OP_GT => Ok (SFltb want got)
  | OP_GTE => Ok (SFleb want got)
  | OP_UNSPECIFIED | OP_EXISTS | OP_PREFIX => Err (CompareNotApplied o)
  end.

(** ** Where-trees *)

Definition maxWhereWalkDepth : nat := 32.

Definition readOf (env : Env) (row : option Row) (of_ : string) : result evalError string :=
  if decide (of_ = "") then Err WhereOfEmpty
  else match row with
  | None => Err (WhereWithoutRow of_)
  | Some _ => evalField env row (splitFieldPath of_)
  end.

Definition evalKindLeaf (env : Env) (row : option Row) (leaf : KindLeaf) : result evalError bool :=
  if decide (KindOf leaf = "") then Err WhereOfEmpty
  else match row with
  | None => Err (WhereWithoutRow (KindOf leaf))
  | Some _ =>
      (got <-- evalField env row (splitFieldPath (KindOf leaf) ++ ["type"]) ;;
       Ok (bool_decide (got ∈ KindIs leaf)))%go
  end.

Definition evalMatchesLeaf (env : Env) (row : option Row) (leaf : MatchesLeaf) : result evalError bool :=
  match whereRegexes env !! leaf with
  | None => Err (MatchesUncompiled leaf)
  | Some compiled =>
      (v <-- readOf env row (MatchesOf leaf) ;; Ok (MatchString compiled v))%go
  end.

Definition evalEqualsLeaf (env : Env) (row : option Row) (leaf : EqualsLeaf) : result evalError bool :=
  (v <-- readOf env row (EqualsOf leaf) ;; Ok (bool_decide (v = EqualsValue leaf)))%go.

Definition evalExistsLeaf (env : Env) (row : option Row) (leaf : ExistsLeaf) : result evalError bool :=
  (v <-- readOf env row (ExistsOf leaf) ;; Ok (bool_decide (v ≠ "")))%go.

Definition evalCompareLeaf (env : Env) (row : option Row) (leaf : CompareLeaf) : result evalError bool :=
  match whereCompares env !! leaf with
  | None => Err (CompareUnresolved leaf)
  | Some resolved =>
      (v <-- readOf env row (CompareOf leaf) ;;
       if decide (v = "") then Ok false
       else match parseNumericOperand v with
       | None => Err (RowNotANumber (CompareOf leaf) v (from_option NodeID "" row))
       | Some got => compareOrdered (op resolved) got (operand resolved)
       end)%go
  end.

(** One level of the walk of an edge leaf; [None] is "matched". *)
Fixpoint walk_hops (test : Row → result evalError bool) (vars : gmap string string)
    (sv : sourceView) (hops : list neighborEdge) (visited : gset string) (next : list string)
    : result evalError (option (gset string * list string)) :=
  match hops with
  | [] => Ok (Some (visited, next))
  | hop :: hops' =>
      let id := NeighborID hop in
      if decide (id ∈ visited) then walk_hops test vars sv hops' visited next
      else
        let visited := {[id]} ∪ visited in
        match nodeByID sv id with
        | None => walk_hops test vars sv hops' visited next
        | Some node =>
            match test (mkRow id node vars (Some (Via hop))) with
            | Err e => Err e
            | Ok true => Ok None
            | Ok false => walk_hops test vars sv hops' visited (next ++ [id])
            end
        end
  end.

Fixpoint walk_frontier (test : Row → result evalError bool) (vars : gmap string string)
    (sv : sourceView) (edgeType : string) (dir : edgeDirection) (frontier : list string)
    (visited : gset string) (next : list string)
    : result evalError (option (gset string * list string)) :=
  match frontier with
  | [] => Ok (Some (visited, next))
  | id :: frontier' =>
      match walk_hops test vars sv (edgesAlong sv id edgeType dir) visited next with
      | Ok (Some (visited, next)) =>
          walk_frontier test vars sv edgeType dir frontier' visited next
      | r => r
      end
  end.

Fixpoint walk_levels (depth : nat) (test : Row → result evalError bool) (vars : gmap string string)
    (sv : sourceView) (edgeType : string) (dir : edgeDirection) (visited : gset string)
    (frontier : list string) : result evalError bool :=
  match depth with
  | O => Ok false
  | S depth' =>
      if decide (frontier = []) then Ok false
      else match walk_frontier test vars sv edgeType dir frontier visited [] with
      | Err e => Err e
      | Ok None => Ok true
      | Ok (Some (visited, next)) => walk_levels depth' test vars sv edgeType dir visited next
      end
  end.

(** [test] evaluates the sub-tree of the leaf on a candidate row. *)
Definition evalEdgeLeaf (test : Row → result evalError bool) (sv : sourceView) (row : option Row)
    (edgeType : string) (dir : edgeDirection) : result evalError bool :=
  match row with
  | None => Ok false
  | Some r =>
      if decide (NodeID r = "") then Ok false
      else walk_levels maxWhereWalkDepth test (Vars r) sv edgeType dir {[NodeID r]} [NodeID r]
  end.

(** The first that is not true, and the first that is not false. *)
Fixpoint all_of {A} (f : A → result evalError bool) (l : list A) : result evalError bool :=
  match l with
  | [] => Ok true
  | a :: l' => match f a with Ok true => all_of f l' | r => r end
  end.

Fixpoint any_of {A} (f : A → result evalError bool) (l : list A) : result evalError bool :=
  match l with
  | [] => Ok false
  | a :: l' => match f a with Ok false => any_of f l' | r => r end
  end.

(** A leaf that is not set holds. *)
Definition leaf_holds {A} (f : A → result evalError bool) (leaf : option A) : result evalError bool :=
  from_option f (Ok true) leaf.

(** Conjunction that stops at an error or a false. *)
Definition both (a b : result evalError bool) : result evalError bool :=
  match a with Ok true => b | r => r end.

Fixpoint evalWhereTree (env : Env) (sv : sourceView) (w : WhereNode) (row : option Row)
    : result evalError bool :=
  let sub (o : option WhereNode) (row : option Row) :=
    match o with Some c => evalWhereTree env sv c row | None => Ok true end in
  both (all_of (λ o, match o with Some c => evalWhereTree env sv c row | None => Ok true end) (WAll w))
  (both (if decide (WAny w = []) then Ok true
         else any_of (λ o, match o with Some c => evalWhereTree env sv c row | None => Ok true end) (WAny w))
  (both (match WNot w with
         | None => Ok true
         | Some c => (ok <-- evalWhereTree env sv c row ;; Ok (negb ok))%go
         end)
  (both (leaf_holds (evalKindLeaf env row) (WKind w))
  (both (leaf_holds (evalMatchesLeaf env row) (WMatches w))
  (both (leaf_holds (evalEqualsLeaf env row) (WEquals w))
  (both (leaf_holds (evalExistsLeaf env row) (WExists w))
  (both (match WAncestor w with
         | None => Ok true
         | Some (edge, o) => evalEdgeLeaf (λ r, sub o (Some r)) sv row edge incomingEdges
         end)
  (both (match WDescendant w with
         | None => Ok true
         | Some (edge, o) => evalEdgeLeaf (λ r, sub o (Some r)) sv row edge outgoingEdges
         end)
  (leaf_holds (evalCompareLeaf env row) (WCompare w)))))))))).

(** A nil tree holds. *)
Definition evalWhere (env : Env) (sv : sourceView) (w : option WhereNode) (row : option Row)
    : result evalError bool :=
  match w with Some w => evalWhereTree env sv w row | None => Ok true end.
End Eval.

(** ** Walks of edge leaves *)

Lemma edgesAlong_ids sv id edgeType dir :
  NeighborID <$> edgesAlong sv id edgeType dir = edgesFrom sv id edgeType dir.
Proof.
  unfold edgesAlong, edgesFrom. rewrite fmap_app.
  destruct (follows dir outgoingEdges), (follows dir incomingEdges);
    by rewrite <- ?list_fmap_compose.
Qed.

Section Walk.
Context `{Host} (sv : sourceView) (edgeType : string) (dir : edgeDirection).

(** One hop to a node of the graph. *)
Definition hop (a b : string) : Prop :=
  b ∈ edgesFrom sv a edgeType dir ∧ is_Some (byID sv !! b).

Section Test.
Context (vars : gmap string string) (test : Row → result evalError bool) (P : string → bool).
(** The answer on a candidate depends on its node. *)
Context (Htest : ∀ n node e, byID sv !! n = Some node →
  test (mkRow n node vars (Some e)) = Ok (P n)).

Lemma walk_hops_app a : ∀ b visited next,
  walk_hops test vars sv (a ++ b) visited next =
    match walk_hops test vars sv a visited next with
    | Ok (Some (visited, next)) => walk_hops test vars sv b visited next
    | r => r
    end.
Proof.
  induction a as [|h a IH]; intros b visited next; cbn [walk_hops app]; [done|].
  destruct (decide _); [apply IH|]. destruct (nodeByID sv (NeighborID h)) as [node|]; [|apply IH].
  destruct (test _) as [[]|]; [done|apply IH|done].
Qed.

Lemma walk_frontier_hops frontier : ∀ visited next,
  walk_frontier test vars sv edgeType dir frontier visited next =
  walk_hops test vars sv (frontier ≫= (λ id, edgesAlong sv id edgeType dir)) visited next.
Proof.
  induction frontier as [|id frontier IH]; intros visited next; [done|].
  cbn [walk_frontier mbind list_bind]. rewrite walk_hops_app.
  destruct (walk_hops _ _ _ _ _ _) as [[[v n]|]|]; [apply IH|done|done].
Qed.

(** [ids] are the ends of the hops of one level. *)
Lemma walk_hops_spec hops : ∀ visited next, let ids := NeighborID <$> hops in
  (walk_hops test vars sv hops visited next = Ok None ∧
    ∃ n, n ∈ ids ∧ n ∉ visited ∧ is_Some (byID sv !! n) ∧ P n = true) ∨
  (∃ visited' next', walk_hops test vars sv hops visited next = Ok (Some (visited', next')) ∧
    (∀ n, n ∈ visited' ↔ n ∈ visited ∨ n ∈ ids) ∧
    (∀ n, n ∈ next' ↔ n ∈ next ∨ (n ∈ ids ∧ n ∉ visited ∧ is_Some (byID sv !! n))) ∧
    (∀ n, n ∈ ids → n ∉ visited → is_Some (byID sv !! n) → P n = false)).
Proof.
  induction hops as [|h hops IH]; intros visited next; cbn [walk_hops fmap list_fmap]; cbv zeta.
  { right. exists visited, next. split; [done|]. set_solver. }
  set (id := NeighborID h). destruct (decide (id ∈ visited)) as [Hv|Hv].
  - destruct (IH visited next) as [[Hr (n & Hn & Hrest)]|(v' & n' & Hr & H1 & H2 & H3)].
    + left. split; [done|]. exists n. split; [by right|done].
    + right. exists v', n'. split; [done|]. split; [|split].
      * intros n. rewrite H1, elem_of_cons. naive_solver.
      * intros n. rewrite H2, elem_of_cons. naive_solver.
      * intros n [->|Hn]%elem_of_cons; [done|by apply H3].
  - assert (Hin : ∀ n : string, n ∈ {[id]} ∪ visited ↔ n = id ∨ n ∈ visited).
    { intros n. by rewrite elem_of_union, elem_of_singleton. }
    destruct (nodeByID sv id) as [node|] eqn:Hid; unfold nodeByID in Hid.
    + rewrite (Htest id node (Via h) Hid). destruct (P id) eqn:HP.
      { left. split; [done|]. exists id. split; [by left|]. split; [done|]. by rewrite Hid. }
      destruct (IH ({[id]} ∪ visited) (next ++ [id]))
        as [[Hr (n & Hn & Hnv & Hrest)]|(v' & n' & Hr & H1 & H2 & H3)].
      * left. split; [done|]. exists n. rewrite Hin in Hnv. split; [by right|]. tauto.
      * right. exists v', n'. split; [done|]. split; [|split].
        -- intros n. rewrite H1, Hin, elem_of_cons. tauto.
        -- intros n. rewrite H2, Hin, elem_of_app, list_elem_of_singleton, elem_of_cons.
           assert (n = id → is_Some (byID sv !! n)) by (intros ->; by rewrite Hid).
           assert (n = id → n ∉ visited) by (by intros ->).
           destruct (decide (n = id)); tauto.
        -- intros n [->|Hn]%elem_of_cons Hnv Hs; [done|].
           destruct (decide (n = id)) as [->|Hne]; [done|]. apply H3; [done|rewrite Hin; tauto|done].
    + destruct (IH ({[id]} ∪ visited) next)
        as [[Hr (n & Hn & Hnv & Hrest)]|(v' & n' & Hr & H1 & H2 & H3)].
      * left. split; [done|]. exists n. rewrite Hin in Hnv. split; [by right|]. tauto.
      * assert (Hnone : ∀ n, is_Some (byID sv !! n) → n ≠ id) by (intros n [? Hs] ->; congruence).
        right. exists v', n'. split; [done|]. split; [|split].
        -- intros n. rewrite H1, Hin, elem_of_cons. tauto.
        -- intros n. rewrite H2, Hin, elem_of_cons. pose proof (Hnone n). tauto.
        -- intros n [->|Hn]%elem_of_cons Hnv Hs; [by destruct (Hnone id)|].
           apply H3; [done|rewrite Hin; pose proof (Hnone n); tauto|done].
Qed.

(** [d] levels below [id] are done. *)
Record level (id : string) (d : nat) (visited : gset string) (frontier : list string) : Prop := {
  level_frontier : ∀ n, n ∈ frontier ↔ nsteps hop d id n ∧ ∀ j, (j < d)%nat → ¬ nsteps hop j id n;
  level_visited : ∀ n, n = id ∨ is_Some (byID sv !! n) →
    n ∈ visited ↔ ∃ j, (j ≤ d)%nat ∧ nsteps hop j id n;
}.

Lemma nsteps_present id d n : nsteps hop (S d) id n → is_Some (byID sv !! n).
Proof. intros (m & _ & _ & Hn)%nsteps_inv_r. done. Qed.

(** The ends of the hops of a level. *)
Definition ends (frontier : list string) : list string :=
  NeighborID <$> (frontier ≫= (λ m, edgesAlong sv m edgeType dir)).

Lemma elem_of_ends frontier n :
  n ∈ ends frontier ↔ ∃ m, m ∈ frontier ∧ n ∈ edgesFrom sv m edgeType dir.
Proof.
  unfold ends. rewrite list_elem_of_fmap. split.
  - intros (h & -> & (m & Hh & Hm)%list_elem_of_bind). exists m. split; [done|].
    rewrite <- edgesAlong_ids. by apply list_elem_of_fmap_2.
  - intros (m & Hm & Hn). rewrite <- edgesAlong_ids in Hn.
    apply list_elem_of_fmap in Hn as (h & -> & Hh). exists h. split; [done|].
    apply list_elem_of_bind. by exists m.
Qed.

(** The nodes one hop behind the frontier that are not visited. *)
Lemma level_fresh id d visited frontier n : level id d visited frontier →
  is_Some (byID sv !! n) → n ∉ visited → n ∈ ends frontier ↔ nsteps hop (S d) id n.
Proof.
  intros [Hf Hv] Hs Hn. rewrite elem_of_ends. split.
  - intros (m & Hm & Hmn). apply Hf in Hm as [Hm _]. by apply nsteps_r with m.
  - intros (m & Hm & Hmn)%nsteps_inv_r. exists m. split; [|apply Hmn]. apply Hf. split; [done|].
    intros j Hj Hjm. apply Hn, Hv; [by right|]. exists (S j). split; [lia|]. by apply nsteps_r with m.
Qed.

Lemma level_next id d visited frontier visited' next' : level id d visited frontier →
  (∀ n, n ∈ visited' ↔ n ∈ visited ∨ n ∈ ends frontier) →
  (∀ n, n ∈ next' ↔ n ∈ @nil string ∨ (n ∈ ends frontier ∧ n ∉ visited ∧ is_Some (byID sv !! n))) →
  level id (S d) visited' next'.
Proof.
  intros HL H1 H2. pose proof HL as [Hf Hv]. split.
  - intros n. rewrite H2. split.
    + intros [[]%elem_of_nil|(Hn & Hnv & Hs)]. split; [by apply (level_fresh id d visited frontier)|].
      intros j Hj Hjn. apply Hnv, Hv; [by right|]. exists j. split; [lia|done].
    + intros [Hn Hmin]. right. pose proof (nsteps_present _ _ _ Hn) as Hs.
      assert (Hnv : n ∉ visited).
      { intros Hin. apply Hv in Hin as (j & Hj & Hjn); [|by right]. by apply (Hmin j); [lia|]. }
      split; [by apply (level_fresh id d visited frontier)|done].
  - intros n Hn. rewrite H1. split.
    + intros [Hin|Hin].
      * apply Hv in Hin as (j & Hj & Hjn); [|done]. exists j. split; [lia|done].
      * destruct (decide (n ∈ visited)) as [Hnv|Hnv].
        { apply Hv in Hnv as (j & Hj & Hjn); [|done]. exists j. split; [lia|done]. }
        destruct Hn as [->|Hs]; [exists 0%nat; split; [lia|constructor]|].
        exists (S d). split; [lia|]. by apply (level_fresh id d visited frontier).
    + intros (j & Hj & Hjn). destruct (decide (n ∈ visited)) as [Hnv|Hnv]; [by left|right].
      destruct (decide (j ≤ d)%nat) as [Hle|Hgt].
      * destruct Hnv. apply Hv; [done|]. by exists j.
      * assert (j = S d) as -> by lia. pose proof (nsteps_present _ _ _ Hjn) as Hs.
        by apply (level_fresh id d visited frontier).
Qed.

(** Behind an empty frontier nothing is new. *)
Lemma level_exhausted id d visited k : level id d visited [] →
  ∀ n, nsteps hop k id n → n ∈ visited.
Proof.
  intros [Hf Hv]. induction k as [|k IH]; intros n Hn.
  { inversion Hn; subst. apply Hv; [by left|]. exists 0%nat. split; [lia|done]. }
  destruct (decide (n ∈ visited)) as [|Hnv]; [done|exfalso].
  pose proof (nsteps_present _ _ _ Hn) as Hs. apply nsteps_inv_r in Hn as (m & Hm & Hmn).
  assert (Hmp : m = id ∨ is_Some (byID sv !! m)).
  { destruct k; [inversion Hm; by left|right; by apply nsteps_present in Hm]. }
  apply (Hv m Hmp) in IH as (j & Hj & Hjm); [|done].
  assert (Hlow : ∀ i, (i < d)%nat → ¬ nsteps hop i id m).
  { intros i Hi Him. apply Hnv, Hv; [by right|]. exists (S i). split; [lia|]. by apply nsteps_r with m. }
  destruct (decide (j = d)) as [->|]; [|by apply (Hlow j); [lia|]].
  assert (m ∈ @nil string) as []%elem_of_nil by by apply Hf.
Qed.

(** A node that satisfies [P] at some distance up to [d], the row itself not counted. *)
Definition found_within (id : string) (d : nat) : Prop :=
  ∃ k n, (k ≤ d)%nat ∧ nsteps hop k id n ∧ n ≠ id ∧ P n = true.

Lemma walk_levels_spec id depth : ∀ d visited frontier,
  level id d visited frontier → ¬ found_within id d →
  ∃ b, walk_levels depth test vars sv edgeType dir visited frontier = Ok b ∧
    (b = true ↔ found_within id (d + depth)).
Proof.
  induction depth as [|depth IH]; intros d visited frontier HL Hno; cbn [walk_levels].
  { exists false. rewrite Nat.add_0_r. by split. }
  destruct (decide (frontier = [])) as [->|Hne].
  - exists false. split; [done|]. split; [done|]. intros (k & n & _ & Hk & Hnid & HP). exfalso.
    pose proof (level_exhausted _ _ _ _ HL n Hk) as Hv.
    assert (Hs : n = id ∨ is_Some (byID sv !! n)).
    { destruct k; [inversion Hk; by left|right; by apply nsteps_present in Hk]. }
    apply (level_visited _ _ _ _ HL n Hs) in Hv as (j & Hj & Hjn). apply Hno. by exists j, n.
  - rewrite walk_frontier_hops.
    destruct (walk_hops_spec (frontier ≫= (λ id, edgesAlong sv id edgeType dir)) visited [])
      as [[-> (n & Hn & Hnv & Hs & HP)]|(v' & n' & -> & H1 & H2 & H3)].
    + exists true. split; [done|]. split; [|done]. intros _. exists (S d), n. split; [lia|].
      split; [by apply (level_fresh id d visited frontier)|]. split; [|done].
      intros ->. apply Hnv, (level_visited _ _ _ _ HL); [by left|]. exists 0%nat.
      split; [lia|constructor].
    + destruct (IH (S d) v' n') as (b & -> & Hb).
      * by apply (level_next id d visited frontier).
      * intros (k & n & Hk & Hkn & Hnid & HP). destruct (decide (k ≤ d)%nat) as [Hle|Hgt].
        { apply Hno. by exists k, n. }
        assert (k = S d) as -> by lia. pose proof (nsteps_present _ _ _ Hkn) as Hs.
        destruct (decide (n ∈ visited)) as [Hnv|Hnv].
        { apply (level_visited _ _ _ _ HL) in Hnv as (j & Hj & Hjn); [|by right].
          apply Hno. by exists j, n. }
        assert (Hends : n ∈ ends frontier) by by apply (level_fresh id d visited frontier).
        rewrite (H3 n Hends Hnv Hs) in HP. done.
      * exists b. split; [done|]. rewrite Hb. by rewrite Nat.add_succ_comm.
Qed.
End Test.

(** *** The order in which the nodes are tested, whatever the test *)

(** A node to be tested, and the edge that reaches it. *)
Definition reached : Type := string * Node * Edge.

Definition rids (l : list reached) : list string := (λ x, x.1.1) <$> l.

Definition test_reached (vars : gmap string string) (test : Row → result evalError bool) (x : reached) :
    result evalError bool :=
  test (mkRow x.1.1 x.1.2 vars (Some x.2)).

Fixpoint hops_order (hops : list neighborEdge) (visited : gset string) : list reached * gset string :=
  match hops with
  | [] => ([], visited)
  | h :: hops' =>
      let id := NeighborID h in
      if decide (id ∈ visited) then hops_order hops' visited
      else
        let '(l, v) := hops_order hops' ({[id]} ∪ visited) in
        match nodeByID sv id with Some node => ((id, node, Via h) :: l, v) | None => (l, v) end
  end.

Definition level_hops (frontier : list string) : list neighborEdge :=
  frontier ≫= (λ id, edgesAlong sv id edgeType dir).

Fixpoint levels_order (depth : nat) (visited : gset string) (frontier : list string) : list reached :=
  match depth with
  | O => []
  | S depth' =>
      let '(l, v) := hops_order (level_hops frontier) visited in
      l ++ levels_order depth' v (rids l)
  end.

Lemma any_of_app {A} (f : A → result evalError bool) l1 l2 :
  any_of f (l1 ++ l2) = match any_of f l1 with Ok false => any_of f l2 | r => r end.
Proof. induction l1 as [|x l1 IH]; [done|]. cbn. by destruct (f x) as [[]|]. Qed.

Lemma walk_hops_order vars test hops : ∀ visited next,
  walk_hops test vars sv hops visited next =
  let '(l, v) := hops_order hops visited in
  match any_of (test_reached vars test) l with
  | Ok true => Ok None
  | Ok false => Ok (Some (v, next ++ rids l))
  | Err e => Err e
  end.
Proof.
  induction hops as [|h hops IH]; intros visited next; cbn [walk_hops hops_order].
  { cbn. by rewrite app_nil_r. }
  destruct (decide _) as [|_]; [apply IH|]. cbv zeta.
  specialize (IH ({[NeighborID h]} ∪ visited)). destruct (hops_order hops _) as [l v].
  destruct (nodeByID sv (NeighborID h)) as [node|]; [|apply IH]. cbn [any_of]. unfold test_reached at 1.
  cbn [fst snd]. destruct (test _) as [[]|]; [done| |done]. rewrite IH.
  destruct (any_of _ l) as [[]|]; [done| |done]. unfold rids. by rewrite fmap_cons, <-app_assoc.
Qed.

Lemma walk_levels_order vars test depth : ∀ visited frontier,
  walk_levels depth test vars sv edgeType dir visited frontier =
  any_of (test_reached vars test) (levels_order depth visited frontier).
Proof.
  induction depth as [|depth IH]; intros visited frontier; cbn [walk_levels levels_order]; [done|].
  destruct (decide (frontier = [])) as [->|_].
  { cbn [level_hops mbind list_bind hops_order rids fmap list_fmap app]. clear IH.
    induction depth as [|depth IH] in visited |- *; [done|]. apply IH. }
  rewrite walk_frontier_hops, walk_hops_order. fold (level_hops frontier).
  destruct (hops_order _ visited) as [l v]. rewrite any_of_app.
  destruct (any_of _ l) as [[]|]; [done|apply IH|done].
Qed.

(** Each node comes once, over an edge of a node of the frontier. *)
Lemma hops_order_spec hops : ∀ visited, let '(l, v) := hops_order hops visited in
  NoDup (rids l) ∧ (∀ n, n ∈ rids l → n ∉ visited ∧ n ∈ v) ∧ (∀ n, n ∈ visited → n ∈ v) ∧
  Forall (λ x, byID sv !! x.1.1 = Some x.1.2 ∧ ∃ h, h ∈ hops ∧ NeighborID h = x.1.1 ∧ Via h = x.2) l.
Proof.
  induction hops as [|h hops IH]; intros visited; cbn [hops_order].
  { split; [constructor|]. split; [by intros n ?%elem_of_nil|]. split; [done|constructor]. }
  assert (∀ l, Forall (λ x : reached, byID sv !! x.1.1 = Some x.1.2 ∧
      ∃ h', h' ∈ hops ∧ NeighborID h' = x.1.1 ∧ Via h' = x.2) l →
    Forall (λ x : reached, byID sv !! x.1.1 = Some x.1.2 ∧
      ∃ h', h' ∈ h :: hops ∧ NeighborID h' = x.1.1 ∧ Via h' = x.2) l) as Hmono.
  { intros l Hl. eapply Forall_impl; [exact Hl|]. intros x (Hx & h' & Hh & Hr). split; [done|]. exists h'.
    split; [by right|done]. }
  destruct (decide _) as [Hv|Hv].
  { specialize (IH visited). destruct (hops_order hops visited). naive_solver. }
  cbv zeta. specialize (IH ({[NeighborID h]} ∪ visited)).
  destruct (hops_order hops _) as [l v]. destruct IH as (H1 & H2 & H3 & H4).
  destruct (nodeByID sv (NeighborID h)) as [node|] eqn:Hn.
  - split_and!.
    + unfold rids. rewrite fmap_cons. constructor; [|done]. intros Hin. apply H2 in Hin as [Hin _].
      apply Hin. set_solver.
    + unfold rids. rewrite fmap_cons. intros n [->|Hin]%elem_of_cons.
      * split; [done|]. apply H3. set_solver.
      * apply H2 in Hin as [? ?]. set_solver.
    + intros n Hin. apply H3. set_solver.
    + constructor; [|by apply Hmono]. split; [done|]. exists h. split; [by left|done].
  - split_and!; [done| |intros n Hin; apply H3; set_solver|by apply Hmono].
    intros n Hin. apply H2 in Hin as [? ?]. set_solver.
Qed.

Lemma levels_order_spec depth : ∀ visited frontier,
  let l := levels_order depth visited frontier in
  NoDup (rids l) ∧ (∀ n, n ∈ rids l → n ∉ visited) ∧
  Forall (λ x, byID sv !! x.1.1 = Some x.1.2 ∧
    ∃ m h, (m ∈ frontier ∨ m ∈ rids l) ∧ h ∈ edgesAlong sv m edgeType dir ∧
      NeighborID h = x.1.1 ∧ Via h = x.2) l.
Proof.
  induction depth as [|depth IH]; intros visited frontier; cbn [levels_order]; cbv zeta.
  { split; [constructor|]. split; [by intros n ?%elem_of_nil|constructor]. }
  pose proof (hops_order_spec (level_hops frontier) visited) as Hh.
  destruct (hops_order _ visited) as [l v]. destruct Hh as (H1 & H2 & H3 & H4).
  destruct (IH v (rids l)) as (K1 & K2 & K3). unfold rids in *. rewrite fmap_app. split_and!.
  - apply NoDup_app. split_and!; [done| |done]. intros n Hl Hr. apply H2 in Hl as [_ Hl].
    by apply (K2 n Hr).
  - intros n [Hl|Hr]%elem_of_app; [by apply H2 in Hl as [? _]|]. intros Hv. by apply (K2 n Hr), H3.
  - apply Forall_app. split.
    + eapply Forall_impl; [exact H4|]. intros x (Hx & h & Hin & Hr). split; [done|].
      apply list_elem_of_bind in Hin as (m & Hin & Hm). exists m, h. split; [by left|done].
    + eapply Forall_impl; [exact K3|]. intros x (Hx & m & h & Hm & Hr). split; [done|].
      exists m, h. split; [right; rewrite elem_of_app; tauto|done].
Qed.

Lemma levels_order_prefix d1 d2 : ∀ visited frontier, (d1 ≤ d2)%nat →
  levels_order d1 visited frontier `prefix_of` levels_order d2 visited frontier.
Proof.
  revert d2. induction d1 as [|d1 IH]; intros d2 visited frontier Hd; [apply prefix_nil|].
  destruct d2 as [|d2]; [lia|]. cbn [levels_order]. destruct (hops_order _ visited) as [l v].
  apply prefix_app, IH. lia.
Qed.

(** A test for one id. *)
Definition is_node (id : string) (r : Row) : result evalError bool := Ok (bool_decide (NodeID r = id)).

Lemma any_of_is_node vars id l :
  any_of (test_reached vars (is_node id)) l = Ok (bool_decide (id ∈ rids l)).
Proof.
  induction l as [|x l IH]; [done|]. cbn [any_of]. unfold test_reached at 1, is_node at 1. cbn [NodeID].
  unfold rids in *. rewrite fmap_cons. destruct (decide (x.1.1 = id)) as [E|E].
  - rewrite !bool_decide_eq_true_2; [done| |done]. rewrite <-E. by left.
  - rewrite (bool_decide_eq_false_2 (x.1.1 = id)) by done. rewrite IH. do 2 f_equal.
    apply bool_decide_ext. rewrite elem_of_cons. naive_solver.
Qed.

Lemma start_level id : level id 0 {[id]} [id].
Proof.
  split.
  - intros n. rewrite list_elem_of_singleton. split.
    + intros ->. split; [constructor|lia].
    + intros [Hn _]. by inversion Hn.
  - intros n _. rewrite elem_of_singleton. split.
    + intros ->. exists 0%nat. split; [lia|constructor].
    + intros (j & Hj & Hjn). assert (j = 0%nat) as -> by lia. by inversion Hjn.
Qed.

(** The nodes of the order are those within so many hops. *)
Lemma levels_order_nodes id depth n :
  n ∈ rids (levels_order depth {[id]} [id]) ↔
  n ≠ id ∧ ∃ k, (1 ≤ k ≤ depth)%nat ∧ nsteps hop k id n.
Proof.
  destruct (walk_levels_spec ∅ (is_node n) (λ m, bool_decide (m = n)) ltac:(done) id depth 0 {[id]} [id])
    as (b & Hb & Hiff); [apply start_level| |].
  { intros (k & m & Hk & Hkn & Hmid & _). assert (k = 0%nat) as -> by lia. by inversion Hkn. }
  rewrite walk_levels_order, any_of_is_node in Hb. injection Hb as <-.
  rewrite bool_decide_eq_true in Hiff. rewrite Hiff. unfold found_within. cbn [plus]. split.
  - intros (k & m & Hk & Hkm & Hm & Hmn). apply bool_decide_eq_true in Hmn as ->. split; [done|].
    exists k. split; [|done]. destruct k; [inversion Hkm; congruence|lia].
  - intros (Hn & k & Hk & Hkn). exists k, n. rewrite bool_decide_eq_true. split; [lia|done].
Qed.
End Walk.

(** C20: An edge leaf tests the nodes within 32 hops, breadth first.  On a row of the graph
    there is one order, that does not depend on the sub-tree, such that the leaf is the
    disjunction in this order of the sub-tree's answers, up to the first that holds or
    fails: every node of the graph other than the row that is at most 32 hops away along
    edges of the leaf's type is in it exactly once, nearer nodes before farther ones, with
    the edge under which it is tested, which comes from the row or from a node of the
    order.  So cycles, orphan edges and repeated edges are harmless; and where several
    edges reach a node, the sub-tree sees one of them. *)
Theorem edge_leaf_is_reachability `{Host} (sv : sourceView) (r : Row) (edgeType : string)
    (dir : edgeDirection) (Hid : NodeID r ≠ "") :
  ∃ order : list reached,
    (∀ test, evalEdgeLeaf test sv (Some r) edgeType dir = any_of (test_reached (Vars r) test) order) ∧
    NoDup (rids order) ∧
    (∀ d, (d ≤ 32)%nat → ∃ near, near `prefix_of` order ∧ (d = 32%nat → near = order) ∧
       ∀ n, n ∈ rids near ↔
         n ≠ NodeID r ∧ ∃ k, (1 ≤ k ≤ d)%nat ∧ nsteps (hop sv edgeType dir) k (NodeID r) n) ∧
    Forall (λ x, byID sv !! x.1.1 = Some x.1.2 ∧
      ∃ m h, (m = NodeID r ∨ m ∈ rids order) ∧ h ∈ edgesAlong sv m edgeType dir ∧
        NeighborID h = x.1.1 ∧ Via h = x.2) order.
Proof.
  exists (levels_order sv edgeType dir 32 {[NodeID r]} [NodeID r]).
  destruct (levels_order_spec sv edgeType dir 32 {[NodeID r]} [NodeID r]) as (H1 & _ & H3).
  split_and!; [|done| |].
  - intros test. unfold evalEdgeLeaf. rewrite decide_False by done. apply walk_levels_order.
  - intros d Hd. exists (levels_order sv edgeType dir d {[NodeID r]} [NodeID r]).
    split; [by apply levels_order_prefix|]. split; [by intros ->|]. intros n. apply levels_order_nodes.
  - eapply Forall_impl; [exact H3|]. intros x (Hx & m & h & Hm & Hr). split; [done|].
    exists m, h. by rewrite list_elem_of_singleton in Hm.
Qed.

(** Where the sub-tree's answer depends on the node only, the leaf is bounded reachability. *)
Lemma edge_leaf_holds `{Host} (sv : sourceView) (r : Row) (edgeType : string)
    (dir : edgeDirection) (test : Row → result evalError bool) (P : string → bool)
    (Hid : NodeID r ≠ "")
    (Htest : ∀ n node e, byID sv !! n = Some node →
      test (mkRow n node (Vars r) (Some e)) = Ok (P n)) :
  ∃ b, evalEdgeLeaf test sv (Some r) edgeType dir = Ok b ∧
    (b = true ↔ ∃ k n, (1 ≤ k ≤ 32)%nat ∧ nsteps (hop sv edgeType dir) k (NodeID r) n ∧
                       n ≠ NodeID r ∧ P n = true).
Proof.
  unfold evalEdgeLeaf. rewrite decide_False by done.
  destruct (walk_levels_spec sv edgeType dir (Vars r) test P Htest (NodeID r) maxWhereWalkDepth 0
    {[NodeID r]} [NodeID r]) as (b & -> & Hb); [apply start_level| |].
  - intros (k & n & Hk & Hkn & Hnid & _). assert (k = 0%nat) as -> by lia. by inversion Hkn.
  - exists b. split; [done|]. rewrite Hb. unfold found_within, maxWhereWalkDepth. cbn [plus]. split.
    + intros (k & n & Hk & Hkn & Hnid & HP). exists k, n. split; [|done].
      destruct k; [inversion Hkn; congruence|lia].
    + intros (k & n & Hk & Hrest). exists k, n. split; [lia|done].
Qed.

(** A sub-tree that reads the edge. *)
Definition second_part (r : Row) : result evalError bool :=
  Ok (bool_decide (Evidence <$> REdge r = Some "position=2")).

Lemma edge_leaf_is_reachability_witness :
  let row := mkRow "d" (LiteralHost.node "d" "book" "Manual") ∅ None in
  evalEdgeLeaf second_part LiteralHost.book (Some row) "contains" outgoingEdges = Ok true ∧
  ∃ order, any_of (test_reached ∅ second_part) order = Ok true ∧ NoDup (rids order).
Proof.
  intros row. split; [vm_compute; reflexivity|].
  destruct (@edge_leaf_is_reachability LiteralHost.host LiteralHost.book row "contains" outgoingEdges)
    as (order & Hrun & Hnd & _); [discriminate|].
  exists order. split; [|exact Hnd]. rewrite <-Hrun. vm_compute. reflexivity.
Defined.

(** ** The builtin [has_ancestor] and the ancestor leaf *)

Section Ancestor.
Context `{Host} (sv : sourceView) (edgeType field : string) (re : regexp).
Context (vars : gmap string string) (test : Row → result evalError bool).
Context (Htest : ∀ n node e,
  test (mkRow n node vars (Some e)) = Ok (MatchString re (readNodeField node [field]))).

Lemma ancestor_hops_agree hops : ∀ visited next,
  walk_hops test vars sv hops visited next
  = Ok (ancestor_hops re field sv (NeighborID <$> hops) visited next).
Proof.
  induction hops as [|h hops IH]; intros visited next; cbn [walk_hops fmap list_fmap ancestor_hops]; [done|].
  destruct (decide _); [apply IH|]. destruct (nodeByID sv (NeighborID h)); [|apply IH].
  rewrite Htest. destruct (MatchString _ _); [done|apply IH].
Qed.

Lemma ancestor_frontier_agree frontier : ∀ visited next,
  walk_frontier test vars sv edgeType incomingEdges frontier visited next
  = Ok (ancestor_frontier re field edgeType sv frontier visited next).
Proof.
  induction frontier as [|id frontier IH]; intros visited next; cbn [walk_frontier ancestor_frontier]; [done|].
  rewrite ancestor_hops_agree, edgesAlong_ids. destruct (ancestor_hops _ _ _ _ _ _) as [[v n]|]; [|done].
  apply IH.
Qed.

Lemma ancestor_levels_agree depth : ∀ visited frontier,
  ∃ b, walk_levels depth test vars sv edgeType incomingEdges visited frontier = Ok b ∧
    ancestor_levels depth re field edgeType sv visited frontier = (if b : bool then "1" else "").
Proof.
  induction depth as [|depth IH]; intros visited frontier; cbn [walk_levels ancestor_levels].
  { by exists false. }
  destruct (decide _); [by exists false|]. rewrite ancestor_frontier_agree.
  destruct (ancestor_frontier _ _ _ _ _ _ _) as [[v nx]|]; [apply IH|by exists true].
Qed.
End Ancestor.

Definition no_where : WhereNode := MkWhere [] [] None None None None None None None None.
Definition matches_node (leaf : MatchesLeaf) : WhereNode :=
  MkWhere [] [] None None (Some leaf) None None None None None.
Definition has_ancestor_where (edgeType : string) (w : WhereNode) : WhereNode :=
  MkWhere [] [] None None None None None None (Some (edgeType, Some w)) None.

Lemma split_dots_none s : (∀ a b, s ≠ a +:+ "." +:+ b) → ∀ acc, split_dots s acc = [acc +:+ s].
Proof.
  induction s as [|c s IH]; intros Hs acc; cbn [split_dots].
  - by rewrite str_app_nil_r.
  - destruct (Ascii.eqb_spec c "."%char) as [->|Hc]; [by destruct (Hs "" s)|].
    rewrite IH.
    + f_equal. by rewrite str_app_assoc.
    + intros a b ->. by apply (Hs (String c a) b).
Qed.

Lemma both_true (a : result evalError bool) : both a (Ok true) = a.
Proof. by destruct a as [[]|]. Qed.

Lemma eval_matches_node `{Host} env sv leaf row :
  evalWhereTree env sv (matches_node leaf) row = evalMatchesLeaf env row leaf.
Proof. cbn. by rewrite decide_True, both_true. Qed.

Lemma eval_has_ancestor_where `{Host} env sv edgeType w row :
  evalWhereTree env sv (has_ancestor_where edgeType w) row
  = evalEdgeLeaf (λ r, evalWhereTree env sv w (Some r)) sv row edgeType incomingEdges.
Proof. cbn. by rewrite decide_True, both_true. Qed.

(** The builtin [has_ancestor] and the ancestor leaf of a where-tree do the same walk: on
    every row, also a nil one, the builtin answers 1 exactly when the leaf over a match of
    the same field and pattern holds. *)
Theorem has_ancestor_is_ancestor_leaf `{Host} (env : Env) (sv : sourceView) (row : option Row)
    (edgeType field pattern : string) (re : regexp)
    (Hfield : ∀ a b, field ≠ a +:+ "." +:+ b)
    (Hcompile : compileRegex pattern = Ok re)
    (Hrun : whereRegexes env !! {| MatchesOf := "node." +:+ field; MatchesRegex := pattern |} = Some re)
    (Hvars : ∀ r, row = Some r → Vars r !! ("node." +:+ field) = None) :
  ∃ b, evalWhereTree env sv (has_ancestor_where edgeType
         (matches_node {| MatchesOf := "node." +:+ field; MatchesRegex := pattern |})) row = Ok b ∧
       hasAncestor row edgeType field pattern sv = Ok (if b then "1" else "").
Proof.
  unfold hasAncestor. rewrite Hcompile, eval_has_ancestor_where. unfold evalEdgeLeaf, row_id.
  destruct row as [r|]; cbn [mbind option_bind]; [|by exists false].
  destruct (decide (NodeID r = "")) as [_|_]; [by exists false|].
  destruct (ancestor_levels_agree sv edgeType field re (Vars r)
    (λ cand, evalWhereTree env sv
       (matches_node {| MatchesOf := "node." +:+ field; MatchesRegex := pattern |}) (Some cand)))
    with (depth := 32%nat) (visited := {[NodeID r]} : gset string) (frontier := [NodeID r])
    as (b & Hw & Ha).
  { intros n node e. rewrite eval_matches_node. unfold evalMatchesLeaf. rewrite Hrun.
    unfold readOf. cbn [MatchesOf]. rewrite decide_False by done.
    assert (Hsplit : splitFieldPath ("node." +:+ field) = ["node"; field]).
    { change (splitFieldPath ("node." +:+ field)) with ("node" :: split_dots field "").
      by rewrite split_dots_none. }
    rewrite Hsplit. cbn [evalField CutPrefix]. rewrite decide_False by done.
    cbn [Vars RNode Join]. change ("node" +:+ "." +:+ field) with ("node." +:+ field).
    by rewrite (Hvars r) by done. }
  exists b. split; [exact Hw|by rewrite Ha].
Qed.

Lemma has_ancestor_is_ancestor_leaf_witness :
  let leaf := {| MatchesOf := "node.name"; MatchesRegex := "Man" |} in
  let env := @mkEnv LiteralHost.host [] ∅ ∅ "" {[leaf := "Man"]} ∅ in
  let row := Some (mkRow "t" (LiteralHost.node "t" "section" "Tools") ∅ None) in
  evalWhereTree env LiteralHost.book (has_ancestor_where "contains" (matches_node leaf)) row = Ok true ∧
  @hasAncestor LiteralHost.host row "contains" "name" "Man" LiteralHost.book = Ok "1".
Proof.
  intros leaf env row.
  destruct (@has_ancestor_is_ancestor_leaf LiteralHost.host env LiteralHost.book row "contains" "name" "Man" "Man")
    as (b & Hw & Ha).
  - intros a b. destruct a as [|? [|? [|? [|? [|? a]]]]]; discriminate.
  - reflexivity.
  - reflexivity.
  - by intros r [= <-].
  - change ("node." +:+ "name") with "node.name" in Hw. fold leaf in Hw. rewrite Hw, Ha.
    vm_compute in Ha. destruct b; [by split|discriminate Ha].
Defined.
