(* ===== verification/RecipeCheck.v ===== *)
(** * The check of a recipe against its source graph

    [internal/recipe/source_census.go], [validate_source.go], [validate_source_fields.go],
    [expr_static_validate.go], [compileWhereTree] of [where_tree.go], and the enrolled node
    types of [internal/kgtypes/node_types.go].

    A refusal is a list of violations, a reason each: their text, with its near-miss
    suggestions, is not rendered, so violations are ordered by position only and not,
    within a position, by text.  The counters kept for tests are left out. *)

From S2P Require Import Prelude Gostd Paging RecipeLex RecipeParse RecipeSource RecipeEval.
From Stdlib Require Import Ascii SpecFloat.

#[local] Open Scope Z_scope.

(** ** The census *)

Definition censusNodeType : string := "node type".
Definition censusEdgeType : string := "edge type".
Definition censusMetaKey : string := "metadata key".
Definition censusEdgeEvidenceKey : string := "edge evidence key".

Record sourceCensus := mkCensus {
  nodeTypes : list string;
  edgeTypes : list string;
  metaKeys : list string;
  edgeEvidenceKeys : list string;
}.

(** Every edge of the graph. *)
Definition all_edges (sv : sourceView) : list Edge := mjoin (snd <$> map_to_list (outEdges sv)).

Definition sorted_set (l : list string) : list string :=
  sort_strings (elements (list_to_set l : gset string)).

Definition buildCensus `{Host} (sv : sourceView) : sourceCensus := {|
  nodeTypes := sort_strings (fst <$> map_to_list (byType sv));
  edgeTypes := sorted_set (EType <$> all_edges sv);
  metaKeys := sorted_set (map_to_list (byID sv) ≫= λ p, fst <$> map_to_list (Metadata p.2));
  edgeEvidenceKeys := sorted_set (all_edges sv ≫= λ e, fst <$> map_to_list (edgeEvidenceMap (Evidence e)));
|}.

(** ** Violations *)

Inductive violationReason :=
| NotInSource (site kind value : string)
| EmitTypeNotEnrolled (nodeType : string)
| RegexDoesNotCompile (site pattern err : string)
| BadCompareOperator (of_ op : string)
| BadCompareOperand (of_ value : string)
| UnknownBuiltin (name : string)
| BuiltinArity (name : string) (want got : Z)
| EdgeTypeNotLiteral (name : string)
| NamesNoEdgeAttribute (site : string)
| NamesNoEvidenceKey (site : string)
| EdgeOwnFields (site : string)
| NotStamped (site path : string).

Record sourceViolation := mkViolation { vpos : Position; vmsg : violationReason }.

Section Check.
Context `{Host}.

Record sourceValidator := mkValidator {
  census : sourceCensus;
  violations : list sourceViolation;
  compiled : gmap MatchesLeaf regexp;
  compares : gmap CompareLeaf compareResolution;
}.

Definition add (p : Position) (r : violationReason) (v : sourceValidator) : sourceValidator :=
  mkValidator (census v) (violations v ++ [mkViolation p r]) (compiled v) (compares v).

Definition contains (vocabulary : list string) (value : string) : bool :=
  bool_decide (value ∈ vocabulary).

Definition refuseVocabulary (p : Position) (site kind value : string) (v : sourceValidator)
    : sourceValidator :=
  add p (NotInSource site kind value) v.

(** ** Field paths *)

Definition wellKnownNodeFields : gset string :=
  {["type"; "symbol_name"; "name"; "summary"; "description"; "content"; "source"; "status";
    "id"; "body"]}.

Definition checkEdgeFieldPath (segments : list string) (p : Position) (site : string)
    (v : sourceValidator) : sourceValidator :=
  match tail segments with
  | [] => add p (NamesNoEdgeAttribute site) v
  | key :: rest =>
      let check key :=
        if contains (edgeEvidenceKeys (census v)) key then v
        else add p (EdgeOwnFields site) (refuseVocabulary p site censusEdgeEvidenceKey key v) in
      if decide (key ∈ wellKnownEdgeFields) then v
      else if decide (key = edgeEvidenceKey) then
        match rest with
        | [] => add p (NamesNoEvidenceKey site) v
        | key :: _ => check key
        end
      else check key
  end.

Definition pseudoVariableNames : list string := ["group.keys"; "walk.depth"; "walk.position"].

Definition isPseudoVariableName (path : string) : bool := bool_decide (path ∈ pseudoVariableNames).

Definition isPseudoVariableHead (head : string) : bool :=
  existsb (λ name, let '(h, _, ok) := Cut name "."%char in ok && bool_decide (h = head))
    pseudoVariableNames.

Definition checkPseudoVariable (path : string) (p : Position) (site : string) (v : sourceValidator)
    : sourceValidator :=
  if isPseudoVariableName path then v else add p (NotStamped site path) v.

Definition checkFieldPath (path : string) (p : Position) (site : string) (v : sourceValidator)
    : sourceValidator :=
  let segments := splitFieldPath path in
  match segments with
  | [] => v
  | head :: rest =>
      if decide (head = edgeHead) then checkEdgeFieldPath segments p (site +:+ " " +:+ path) v
      else if isPseudoVariableHead head then checkPseudoVariable path p (site +:+ " " +:+ path) v
      else match rest with
      | [] => v
      | key :: rest' =>
          let check key :=
            if contains (metaKeys (census v)) key then v
            else refuseVocabulary p (site +:+ " " +:+ path) censusMetaKey key v in
          if HasPrefix head "$" then v
          else if decide (key = "metadata") then
            match rest' with
            | [] => v
            | key :: _ => check key
            end
          else if decide (key ∈ wellKnownNodeFields) then v
          else check key
      end
  end.

(** ** Expressions *)

Record builtinSpec := mkSpec { wantArgs : Z; edgeArg : Z; regexArg : Z }.

Definition builtinTable : list (string * builtinSpec) := [
  ("concat", mkSpec (-1) (-1) (-1));
  ("trim", mkSpec 1 (-1) (-1));
  ("lower", mkSpec 1 (-1) (-1));
  ("upper", mkSpec 1 (-1) (-1));
  ("length", mkSpec 1 (-1) (-1));
  ("slice", mkSpec 3 (-1) (-1));
  ("match_group", mkSpec 3 (-1) 1);
  ("has_edge", mkSpec 2 0 (-1));
  ("children_concat", mkSpec 3 0 (-1));
  ("ancestors_concat", mkSpec 3 0 (-1));
  ("has_ancestor", mkSpec 3 0 2);
  ("and", mkSpec 2 (-1) (-1));
  ("or", mkSpec 2 (-1) (-1));
  ("not", mkSpec 1 (-1) (-1));
  ("heading_path", mkSpec 3 0 (-1));
  ("subtree_concat", mkSpec 4 0 (-1))].

(** The entry of a key of a table. *)
Definition assoc {A} (name : string) (table : list (string * A)) : option A :=
  '(_, (_, a)) ← list_find (λ p, p.1 = name) table; Some a.

Definition checkLiteralRegex (pattern : string) (p : Position) (site : string) (v : sourceValidator)
    : sourceValidator :=
  match compileRegex pattern with
  | Ok _ => v
  | Err e => add p (RegexDoesNotCompile site pattern e) v
  end.

(** [0 <= i < len(args)], and the argument. *)
Definition arg_at (args : list Expr) (i : Z) : option Expr :=
  if 0 <=? i then args !! Z.to_nat i else None.

Definition checkEdgeTypeArgument (name : string) (arg : Expr) (p : Position) (v : sourceValidator)
    : sourceValidator :=
  match arg with
  | ExprLit value _ =>
      if contains (edgeTypes (census v)) value then v
      else refuseVocabulary p name censusEdgeType value v
  | _ => add p (EdgeTypeNotLiteral name) v
  end.

Definition checkFunc (name : string) (args : list Expr) (p : Position) (v : sourceValidator)
    : sourceValidator :=
  match assoc name builtinTable with
  | None => add p (UnknownBuiltin name) v
  | Some spec =>
      if (0 <=? wantArgs spec) && negb (Z.of_nat (length args) =? wantArgs spec)
      then add p (BuiltinArity name (wantArgs spec) (Z.of_nat (length args))) v
      else
        let v := match arg_at args (regexArg spec) with
                 | Some (ExprLit value _) => checkLiteralRegex value p (name +:+ " pattern") v
                 | _ => v
                 end in
        match arg_at args (edgeArg spec) with
        | Some arg => checkEdgeTypeArgument name arg p v
        | None => v
        end
  end.

Fixpoint checkExpr (e : Expr) (v : sourceValidator) : sourceValidator :=
  match e with
  | ExprField path p => checkFieldPath (Join path ".") p "field" v
  | ExprRegex lhs pattern _ p => checkLiteralRegex pattern p "regex literal" (checkExpr lhs v)
  | ExprFunc name args p => foldl (λ v arg, checkExpr arg v) (checkFunc name args p v) args
  | ExprLit _ _ | ExprVar _ _ => v
  end.

(** ** Where-trees *)

(** The patterns of the tree, up to the first that does not compile. *)
Definition compile_result : Type :=
  gmap MatchesLeaf regexp * option (MatchesLeaf * string).

Definition and_then (r : compile_result) (f : gmap MatchesLeaf regexp → compile_result)
    : compile_result :=
  match r.2 with Some _ => r | None => f r.1 end.

Fixpoint compileWhereTree (w : WhereNode) (into : gmap MatchesLeaf regexp) : compile_result :=
  let sub (r : compile_result) (o : option WhereNode) :=
    and_then r (λ m, match o with Some c => compileWhereTree c m | None => (m, None) end) in
  let leaf (r : compile_result) (l : option (string * option WhereNode)) :=
    match l with
    | Some (_, Some c) => and_then r (compileWhereTree c)
    | _ => r
    end in
  let r := foldl sub (into, None) (WAll w) in
  let r := foldl sub r (WAny w) in
  let r := match WNot w with Some c => and_then r (compileWhereTree c) | None => r end in
  let r := leaf (leaf r (WAncestor w)) (WDescendant w) in
  match WMatches w with
  | None => r
  | Some l =>
      and_then r (λ m,
        match compileRegex (MatchesRegex l) with
        | Ok re => (<[l := re]> m, None)
        | Err e => (m, Some (l, e))
        end)
  end.

Definition checkCompareLeaf (leaf : CompareLeaf) (p : Position) (v : sourceValidator)
    : sourceValidator :=
  match compareOp (CompareOp leaf) with
  | None => add p (BadCompareOperator (CompareOf leaf) (CompareOp leaf)) v
  | Some o =>
      match parseNumericOperand (CompareValue leaf) with
      | None => add p (BadCompareOperand (CompareOf leaf) (CompareValue leaf)) v
      | Some value =>
          mkValidator (census v) (violations v) (compiled v)
            (<[leaf := mkResolution o value]> (compares v))
      end
  end.

Fixpoint checkWhereNode (p : Position) (w : WhereNode) (v : sourceValidator) : sourceValidator :=
  let sub v (o : option WhereNode) := match o with Some c => checkWhereNode p c v | None => v end in
  let leaf site (l : option (string * option WhereNode)) v :=
    match l with
    | None => v
    | Some (edge, o) =>
        let v := if contains (edgeTypes (census v)) edge then v
                 else refuseVocabulary p site censusEdgeType edge v in
        match o with Some c => checkWhereNode p c v | None => v end
    end in
  let v := foldl sub v (WAll w) in
  let v := foldl sub v (WAny w) in
  let v := match WNot w with Some c => checkWhereNode p c v | None => v end in
  let v := match WKind w with
           | None => v
           | Some k => foldl (λ v want,
               if contains (nodeTypes (census v)) want then v
               else refuseVocabulary p "kind leaf" censusNodeType want v) v (KindIs k)
           end in
  let v := foldl (λ v path, checkFieldPath path p "where-tree" v) v (whereNodeOwnPaths w) in
  let v := leaf "descendant leaf" (WDescendant w) (leaf "ancestor leaf" (WAncestor w) v) in
  match WCompare w with Some c => checkCompareLeaf c p v | None => v end.

Definition checkWhereTree (w : option WhereNode) (p : Position) (v : sourceValidator) : sourceValidator :=
  match w with
  | None => v
  | Some w =>
      let '(m, err) := compileWhereTree w (compiled v) in
      let v := mkValidator (census v) (violations v) m (compares v) in
      let v := match err with
               | None => v
               | Some (l, e) => add p (RegexDoesNotCompile (MatchesOf l) (MatchesRegex l) e) v
               end in
      checkWhereNode p w v
  end.

(** ** Rules *)

Definition enrolledNodeTypes : list string :=
  ["file"; "package"; "branch"; "language"; "project"; "ticket"; "plan"; "phase"; "step";
   "criterion"; "decision"; "finding"; "memory"; "research"; "question"; "reference";
   "resource"; "event"; "document"; "github_repo"; "rule"; "test_plan"; "test_step";
   "test_run"; "agent"; "skill"; "tool_guide"; "thought"; "charge"; "thought_session";
   "proxy"; "pattern"; "reuse_check"; "use_case"; "example"; "idiom"; "source";
   "graph_type_def"; "plan_section"; "plan_annotation"; "meta_value"].

Definition IsEnrolled (t : string) : bool := bool_decide (t ∈ enrolledNodeTypes).

Definition checkEmitNodeType (nodeType : string) (p : Position) (v : sourceValidator) : sourceValidator :=
  if IsEnrolled nodeType then v else add p (EmitTypeNotEnrolled nodeType) v.

Definition checkRule (v : sourceValidator) (rule : Rule) : sourceValidator :=
  match rule with
  | RuleSelect ty w p =>
      let v := if contains (nodeTypes (census v)) ty then v
               else refuseVocabulary p "select" censusNodeType ty v in
      checkWhereTree w p v
  | RuleTraverse ty _ _ p =>
      if contains (edgeTypes (census v)) ty then v
      else refuseVocabulary p "traverse" censusEdgeType ty v
  | RuleWalk ty _ p =>
      if contains (edgeTypes (census v)) ty then v
      else refuseVocabulary p "walk" censusEdgeType ty v
  | RuleFilter w p => checkWhereTree (Some w) p v
  | RuleBind _ e _ | RuleGroupBy e _ | RuleLookup _ e _ _ | RuleSourceRef e _ => checkExpr e v
  | RuleEmit ty fields _ p =>
      foldl (λ v name, match fields !! name with Some e => checkExpr e v | None => v end)
        (checkEmitNodeType ty p v) (sorted_names fields)
  | RuleLink from _ to _ => checkExpr to (checkExpr from v)
  end.

Definition violation_before (a b : sourceViolation) : bool :=
  if Line (vpos a) =? Line (vpos b) then Col (vpos a) <? Col (vpos b)
  else Line (vpos a) <? Line (vpos b).

(** The refusal, or what the run needs of the check. *)
Definition validateAgainstSource (r : Recipe) (sv : sourceView)
    : result (list sourceViolation)
        (gmap MatchesLeaf regexp * gmap CompareLeaf compareResolution) :=
  let v := foldl checkRule (mkValidator (buildCensus sv) [] ∅ ∅) (Rules r) in
  if decide (violations v = []) then Ok (compiled v, compares v)
  else Err (SliceStable violation_before (violations v)).
End Check.
