(* ===== verification/RecipeRun.v ===== *)
(** * Running a recipe

    [internal/recipe/interpret.go], [interpret_select.go], [interpret_emit.go], [extract.go],
    [types.go], [StableID] of [lineage.go], [sortRowsByDocumentOrder] of
    [document_order.go] and the bindings of [interpret_env.go].

    A rule takes the state of the run to its next state and, if it fails, an error: what
    was emitted before the error is in the state, as the code returns it.  The wall-clock
    counter is left out. *)

From S2P Require Import Prelude Gostd Sha256 Bucket Paging RecipeLex RecipeParse RecipeSource RecipeEval RecipeCheck.
From Stdlib Require Import Ascii.

#[local] Open Scope Z_scope.

(** ** Targets, options, results *)

Record TargetSpec := mkTarget { GraphType : string; GraphName : string }.

Record Options := mkOptions { Extract : bool; MaxRows : Z; Offset : Z }.

Record BatchEdge := mkBatchEdge { FromIdx : Z; ToIdx : Z; FromID : string; ToID : string;
  BType : string; BMethod : string; BEvidence : string }.

Record Stats := mkStats { NodesEmitted : Z; SkippedChunks : Z; LookupsResolved : Z;
  LookupMisses : Z; LinkMisses : Z }.

Record ExtractRow := mkExtractRow { RowType : string; SourceNodeID : string;
  RowFields : gmap string string }.

Record ExtractResult := mkExtract { ERows : list ExtractRow; RowsMatched : Z; RowsReturned : Z;
  BytesReturned : Z; Truncated : bool; TruncatedBy : string }.

Record Result := mkResult { Nodes : list Node; Edges : list BatchEdge; RStats : Stats;
  RExtract : option ExtractResult }.

Definition DefaultExtractMaxRows : Z := 200.

Definition effectiveMaxRows (opts : Options) : Z :=
  if 0 <? MaxRows opts then MaxRows opts else DefaultExtractMaxRows.

Definition effectiveOffset (opts : Options) : result evalError Z :=
  if Offset opts <? 0 then Err (NegativeOffset (Offset opts)) else Ok (Offset opts).

Definition recordExtractRow (ex : ExtractResult) (offset cap : Z) (row : ExtractRow) : ExtractResult :=
  let matched := RowsMatched ex + 1 in
  if matched - 1 <? offset then
    mkExtract (ERows ex) matched (RowsReturned ex) (BytesReturned ex) (Truncated ex) (TruncatedBy ex)
  else if cap <=? Z.of_nat (length (ERows ex)) then
    mkExtract (ERows ex) matched (RowsReturned ex) (BytesReturned ex) true "max_rows"
  else
    let rows := ERows ex ++ [row] in
    mkExtract rows matched (Z.of_nat (length rows)) (BytesReturned ex) (Truncated ex) (TruncatedBy ex).

(** ** Identities *)

Definition null_byte : string := String Ascii.zero "".

Definition hex_string (b : list ascii) : string :=
  String.string_of_list_ascii (concat (hex_byte <$> b)).

Definition StableID (targetGraph sourceSlug kind identity : string) : string :=
  let bytes := targetGraph +:+ null_byte +:+ sourceSlug +:+ null_byte +:+ kind +:+ null_byte +:+ identity in
  hex_string (take 8 (Sha256.Sum256 (String.list_ascii_of_string bytes))).

Definition versionIdentitySeparator : string := String Ascii.zero "v".

Definition VersionedTwinID (targetGraph sourceSlug kind residentID : string) (version : Z) : string :=
  StableID targetGraph sourceSlug kind (residentID +:+ versionIdentitySeparator +:+ itoa version).

Definition TargetKey (t : TargetSpec) : string := GraphType t +:+ "/" +:+ GraphName t.

Section Run.
Context `{Host}.

Definition set_rows (env : Env) (rows : list Row) : Env :=
  mkEnv _ rows (EVars env) (EmitMap env) (SourceRef env) (whereRegexes env) (whereCompares env).
Definition set_vars (env : Env) (vars : gmap string string) : Env :=
  mkEnv _ (Rows env) vars (EmitMap env) (SourceRef env) (whereRegexes env) (whereCompares env).
Definition set_source_ref (env : Env) (ref : string) : Env :=
  mkEnv _ (Rows env) (EVars env) (EmitMap env) ref (whereRegexes env) (whereCompares env).
Definition set_emit_map (env : Env) (m : gmap string (gmap string string)) : Env :=
  mkEnv _ (Rows env) (EVars env) m (SourceRef env) (whereRegexes env) (whereCompares env).

(** ** Rules that make rowsets *)

Definition row_before (rank : gmap string nat) (a b : Row) : bool :=
  match rank !! NodeID a, rank !! NodeID b with
  | Some i, Some j => (i <? j)%nat
  | Some _, None => true
  | None, Some _ => false
  | None, None => String.ltb (NodeID a) (NodeID b)
  end.

Definition sortRowsByDocumentOrder (rows : list Row) (sv : sourceView) : fueled evalError (list Row) :=
  match documentOrderIndex sv with
  | None => None
  | Some (Err a) => Some (Err (AmbiguousOrder a))
  | Some (Ok rank) => Some (Ok (SliceStable (row_before rank) rows))
  end.

(** The rows that pass, in order, up to the first error. *)
Fixpoint filter_rows (test : Row → result evalError bool) (rows : list Row)
    : result evalError (list Row) :=
  match rows with
  | [] => Ok []
  | r :: rows' =>
      (ok <-- test r ;;
       kept <-- filter_rows test rows' ;;
       Ok (if ok : bool then r :: kept else kept))%go
  end.

(** A rule's new rows, sorted into the environment. *)
Definition install (env : Env) (sv : sourceView) (rows : result evalError (list Row))
    : fueled evalError Env :=
  match rows with
  | Err e => Some (Err e)
  | Ok rows =>
      match sortRowsByDocumentOrder rows sv with
      | None => None
      | Some (Err e) => Some (Err e)
      | Some (Ok rows) => Some (Ok (set_rows env rows))
      end
  end.

Definition evalSelect (env : Env) (nodeType : string) (w : option WhereNode) (sv : sourceView)
    : fueled evalError Env :=
  let rows := (λ n, mkRow (Id n) n ∅ None) <$> nodesByType sv nodeType in
  install env sv (match w with
                  | None => Ok rows
                  | Some w => filter_rows (λ r, evalWhereTree env sv w (Some r)) rows
                  end).

(** The variables of a row, with the target of the step bound if it is named. *)
Definition bind_as (as_ target : string) (vars : gmap string string) : gmap string string :=
  if decide (as_ = "") then vars else <[as_ := target]> vars.

Definition traverse_row (sv : sourceView) (edgeType as_ : string) (dir : edgeDirection) (prev : Row)
    : list Row :=
  omap (λ hop,
    target ← nodeByID sv (NeighborID hop);
    Some (mkRow (NeighborID hop) target (bind_as as_ (NeighborID hop) (Vars prev)) (Some (Via hop))))
    (edgesAlong sv (NodeID prev) edgeType dir).

Definition evalTraverse (env : Env) (edgeType direction as_ : string) (sv : sourceView)
    : fueled evalError Env :=
  match parseDirection direction with
  | Err e => Some (Err e)
  | Ok dir => install env sv (Ok (Rows env ≫= traverse_row sv edgeType as_ dir))
  end.

Definition walk_vars (sv : sourceView) (as_ : string) (depth : Z) (e : Edge)
    (vars : gmap string string) : gmap string string :=
  let vars := <["walk.depth" := itoa depth]> vars in
  let vars := <["walk.position" := from_option itoa "" (childOrderKey sv e)]> vars in
  bind_as as_ (ToId e) vars.

(** [None]: out of fuel. *)
Fixpoint walk_descend (fuel : nat) (sv : sourceView) (edgeType as_ : string) (prev : Row)
    (depth : Z) (st : gset string * list Row) (id : string) : option (gset string * list Row) :=
  match fuel with
  | O => None
  | S fuel' =>
      foldM (λ st e,
        match nodeByID sv (ToId e) with
        | None => Some st
        | Some target =>
            if decide (ToId e ∈ st.1) then Some st
            else
              let row := mkRow (ToId e) target (walk_vars sv as_ depth e (Vars prev)) (Some e) in
              walk_descend fuel' sv edgeType as_ prev (depth + 1)
                ({[ToId e]} ∪ st.1, st.2 ++ [row]) (ToId e)
        end) st (childEdgesOrdered sv id edgeType)
  end.

(** Each descent visits a node of the graph for the first time. *)
Definition walk_fuel (sv : sourceView) : nat := S (size (byID sv)).

Definition walk_row (sv : sourceView) (edgeType as_ : string) (out : list Row) (prev : Row)
    : option (list Row) :=
  st ← walk_descend (walk_fuel sv) sv edgeType as_ prev 1 ({[NodeID prev]}, out) (NodeID prev);
  Some st.2.

Definition evalWalk (env : Env) (edgeType as_ : string) (sv : sourceView) : fueled evalError Env :=
  match foldM (walk_row sv edgeType as_) [] (Rows env) with
  | None => None
  | Some out => install env sv (Ok out)
  end.

Definition evalFilter (env : Env) (w : WhereNode) (sv : sourceView) : result evalError Env :=
  (kept <-- filter_rows (λ r, evalWhereTree env sv w (Some r)) (Rows env) ;;
   Ok (set_rows env kept))%go.

Definition set_row_var (var value : string) (r : Row) : Row :=
  mkRow (NodeID r) (RNode r) (<[var := value]> (Vars r)) (REdge r).

Definition evalBind (env : Env) (var : string) (value : Expr) (sv : sourceView) : result evalError Env :=
  match Rows env with
  | [] =>
      (v <-- evalExpr env None sv value ;;
       Ok (set_vars env (<[var := v]> (EVars env))))%go
  | rows =>
      (vs <-- map_ok (λ r, evalExpr env (Some r) sv value) rows ;;
       let rows := zip_with (set_row_var var) vs rows in
       Ok (set_vars (set_rows env rows) (<[var := default "" (last vs)]> (EVars env))))%go
  end.

Definition evalGroupBy (env : Env) (key : Expr) (sv : sourceView) : result evalError Env :=
  (ks <-- map_ok (λ r, evalExpr env (Some r) sv key) (Rows env) ;;
   let groups := first_by (λ p : string * Row, Some p.1) [] (zip ks (Rows env)) in
   let joined := Join (sort_strings groups.*1) "," in
   Ok (set_rows env ((λ p, set_row_var "group.keys" joined p.2) <$> groups)))%go.

(** ** Emission *)

Record run := mkRun { env : Env; res : Result; emitted : gset string }.

Definition evalEmitFields (env : Env) (row : Row) (fields : gmap string Expr) (sv : sourceView)
    : result evalError (gmap string string) :=
  (vs <-- map_ok (λ p, match evalExpr env (Some row) sv p.2 with
                       | Ok v => Ok (p.1, v)
                       | Err e => Err (InEmitField p.1 e)
                       end) (map_to_list fields) ;;
   Ok (list_to_map vs))%go.

(** A key of a Go map, the zero value if it is absent. *)
Definition get (fields : gmap string string) (k : string) : string := default "" (fields !! k).

Definition emitIdentity (row : Row) (fields : gmap string string) : string :=
  if bool_decide (get fields "identity" ≠ "") then get fields "identity"
  else if bool_decide (get fields "name" ≠ "") then get fields "name"
  else NodeID row.

(** One field of an emitted node. *)
Definition assemble_field (n : Node) (kv : string * string) : Node :=
  let '(k, v) := kv in
  let '(mkNode id ty nm su de co so st md) := n in
  if decide (k = "type") then mkNode id v nm su de co so st md
  else if decide (k = "name") then mkNode id ty v su de co so st md
  else if decide (k = "symbol_name") then mkNode id ty v su de co so st md
  else if decide (k = "summary") then mkNode id ty nm v de co so st md
  else if decide (k = "description") then mkNode id ty nm su v co so st md
  else if decide (k = "content") then mkNode id ty nm su de v so st md
  else if decide (k = "source") then mkNode id ty nm su de co v st md
  else if decide (k = "status") then mkNode id ty nm su de co so v md
  else if decide (k = "identity") then n
  else mkNode id ty nm su de co so st (<[k := v]> md).

(** [order] is the order in which the range over the fields yields them. *)
Definition assembleEmittedNode (nodeID fallbackType : string) (order : list (string * string))
    (sourceSlug : string) : Node :=
  let n := foldl assemble_field (mkNode nodeID fallbackType "" "" "" "" "" "" ∅) order in
  let '(mkNode id ty nm su de co so st md) := n in
  if decide (so = "") then mkNode id ty nm su de co ("recipe:" +:+ sourceSlug) st md else n.

Definition rememberEmit (env : Env) (varName sourceRowID targetNodeID : string) (row : Row)
    : Env * Row :=
  if decide (varName = "") then (env, row)
  else
    let bucket := default ∅ (EmitMap env !! varName) in
    (set_emit_map env (<[varName := <[sourceRowID := targetNodeID]> bucket]> (EmitMap env)),
     set_row_var varName targetNodeID row).

(** What a rule does to one row: the state, the row, an error. *)
Definition row_outcome : Type := run * Row * option evalError.

Fixpoint each_row (f : run → Row → row_outcome) (st : run) (rows : list Row)
    : run * list Row * option evalError :=
  match rows with
  | [] => (st, [], None)
  | r :: rows' =>
      let '(st, r, err) := f st r in
      match err with
      | Some e => (st, r :: rows', Some e)
      | None => let '(st, rows', err) := each_row f st rows' in (st, r :: rows', err)
      end
  end.

(** The loop over the rows of the run. *)
Definition over_rows (f : run → Row → row_outcome) (st : run) : run * option evalError :=
  let '(st', rows, err) := each_row f st (Rows (env st)) in
  (mkRun (set_rows (env st') rows) (res st') (emitted st'), err).

Definition map_stats (f : Stats → Stats) (r : Result) : Result :=
  mkResult (Nodes r) (Edges r) (f (RStats r)) (RExtract r).

Definition count_emitted (s : Stats) : Stats := mkStats (NodesEmitted s + 1) (SkippedChunks s)
  (LookupsResolved s) (LookupMisses s) (LinkMisses s).
Definition count_skipped (s : Stats) : Stats := mkStats (NodesEmitted s) (SkippedChunks s + 1)
  (LookupsResolved s) (LookupMisses s) (LinkMisses s).
Definition count_resolved (s : Stats) : Stats := mkStats (NodesEmitted s) (SkippedChunks s)
  (LookupsResolved s + 1) (LookupMisses s) (LinkMisses s).
Definition count_lookup_miss (s : Stats) : Stats := mkStats (NodesEmitted s) (SkippedChunks s)
  (LookupsResolved s) (LookupMisses s + 1) (LinkMisses s).
Definition count_link_miss (s : Stats) : Stats := mkStats (NodesEmitted s) (SkippedChunks s)
  (LookupsResolved s) (LookupMisses s) (LinkMisses s + 1).

Definition with_res (st : run) (r : Result) : run := mkRun (env st) r (emitted st).
Definition with_env (st : run) (e : Env) : run := mkRun e (res st) (emitted st).

Definition emit_row (sv : sourceView) (targetKey sourceSlug : string) (extract : bool)
    (rowOffset rowCap : Z) (nodeType : string) (exprs : gmap string Expr) (as_ : string)
    (p : Position) (st : run) (row : Row) : row_outcome :=
  match evalEmitFields (env st) row exprs sv with
  | Err e => (st, row, Some e)
  | Ok fields =>
      if bool_decide (get fields "name" = "") && bool_decide (get fields "identity" = "") then
        (with_res st (map_stats count_skipped (res st)), row, None)
      else
        let identity := emitIdentity row fields in
        let nodeID := StableID targetKey sourceSlug nodeType identity in
        if decide (nodeID ∈ emitted st) then
          (st, row, Some (DuplicateIdentity nodeType identity (NodeID row) nodeID p))
        else
          let node := assembleEmittedNode nodeID nodeType (map_to_list fields) sourceSlug in
          let anchor := if decide (SourceRef (env st) = "") then NodeID row else SourceRef (env st) in
          let r := res st in
          let ex := if extract
                    then (λ ex, recordExtractRow ex rowOffset rowCap (mkExtractRow nodeType anchor fields))
                           <$> RExtract r
                    else RExtract r in
          let r := mkResult (Nodes r ++ [node]) (Edges r) (count_emitted (RStats r)) ex in
          let '(env', row') := rememberEmit (env st) as_ (NodeID row) nodeID row in
          (mkRun env' r ({[nodeID]} ∪ emitted st), row', None)
  end.

Definition evalEmit (sv : sourceView) (target : TargetSpec) (sourceSlug : string) (opts : Options)
    (nodeType : string) (fields : gmap string Expr) (as_ : string) (p : Position) (st : run)
    : run * option evalError :=
  match effectiveOffset opts with
  | Err e => (st, Some e)
  | Ok rowOffset =>
      over_rows (emit_row sv (TargetKey target) sourceSlug (Extract opts) rowOffset
                   (effectiveMaxRows opts) nodeType fields as_ p) st
  end.

Definition lookup_row (sv : sourceView) (targetKey sourceSlug nodeType : string) (identity : Expr)
    (as_ : string) (st : run) (row : Row) : row_outcome :=
  match evalExpr (env st) (Some row) sv identity with
  | Err e => (st, row, Some (InLookupIdentity e))
  | Ok identity =>
      if decide (identity = "") then (with_res st (map_stats count_lookup_miss (res st)), row, None)
      else
        let nodeID := StableID targetKey sourceSlug nodeType identity in
        if decide (nodeID ∉ emitted st) then
          (with_res st (map_stats count_lookup_miss (res st)), row, None)
        else
          let '(env', row') := rememberEmit (env st) as_ (NodeID row) nodeID row in
          (mkRun env' (map_stats count_resolved (res st)) (emitted st), row', None)
  end.

Definition evalLookup (sv : sourceView) (target : TargetSpec) (sourceSlug nodeType : string)
    (identity : Expr) (as_ : string) (st : run) : run * option evalError :=
  over_rows (lookup_row sv (TargetKey target) sourceSlug nodeType identity as_) st.

Definition resolveLinkEndpoint (env : Env) (row : Row) (e : Expr) (sv : sourceView)
    : result evalError string :=
  evalExpr env (Some row) sv e.

Definition link_row (sv : sourceView) (from_ : Expr) (rel : string) (to_ : Expr) (st : run) (row : Row)
    : row_outcome :=
  match resolveLinkEndpoint (env st) row from_ sv with
  | Err e => (st, row, Some e)
  | Ok from =>
      match resolveLinkEndpoint (env st) row to_ sv with
      | Err e => (st, row, Some e)
      | Ok to =>
          let miss := (with_res st (map_stats count_link_miss (res st)), row, None) in
          if bool_decide (from = "") || bool_decide (to = "") then miss
          else if bool_decide (from ∉ emitted st) || bool_decide (to ∉ emitted st) then miss
          else
            let r := res st in
            let e := mkBatchEdge (-1) (-1) from to rel "recipe" "" in
            (with_res st (mkResult (Nodes r) (Edges r ++ [e]) (RStats r) (RExtract r)), row, None)
      end
  end.

Definition evalLink (sv : sourceView) (from_ : Expr) (rel : string) (to_ : Expr) (st : run)
    : run * option evalError :=
  over_rows (link_row sv from_ rel to_) st.

Definition evalSourceRef (env : Env) (ref : Expr) (sv : sourceView) : result evalError Env :=
  (v <-- evalExpr env (head (Rows env)) sv ref ;; Ok (set_source_ref env v))%go.

(** ** The loop over the rules *)

(** A rule that changes the environment only. *)
Definition in_env (st : run) (r : fueled evalError Env) : option (run * option evalError) :=
  match r with
  | None => None
  | Some (Err e) => Some (st, Some e)
  | Some (Ok env) => Some (with_env st env, None)
  end.

Definition dispatchRule (sv : sourceView) (target : TargetSpec) (sourceSlug : string)
    (opts : Options) (st : run) (rule : Rule) : option (run * option evalError) :=
  match rule with
  | RuleSelect ty w _ => in_env st (evalSelect (env st) ty w sv)
  | RuleTraverse ty dir as_ _ => in_env st (evalTraverse (env st) ty dir as_ sv)
  | RuleWalk ty as_ _ => in_env st (evalWalk (env st) ty as_ sv)
  | RuleFilter w _ => in_env st (Some (evalFilter (env st) w sv))
  | RuleBind x e _ => in_env st (Some (evalBind (env st) x e sv))
  | RuleGroupBy e _ => in_env st (Some (evalGroupBy (env st) e sv))
  | RuleSourceRef e _ => in_env st (Some (evalSourceRef (env st) e sv))
  | RuleEmit ty fields as_ p => Some (evalEmit sv target sourceSlug opts ty fields as_ p st)
  | RuleLookup ty e as_ _ => Some (evalLookup sv target sourceSlug ty e as_ st)
  | RuleLink from rel to _ => Some (evalLink sv from rel to st)
  end.

Fixpoint run_rules (sv : sourceView) (target : TargetSpec) (sourceSlug : string) (opts : Options)
    (st : run) (rules : list Rule) : option (run * option evalError) :=
  match rules with
  | [] => Some (st, None)
  | rule :: rules' =>
      match dispatchRule sv target sourceSlug opts st rule with
      | None => None
      | Some (st, Some e) => Some (st, Some e)
      | Some (st, None) => run_rules sv target sourceSlug opts st rules'
      end
  end.

Definition no_stats : Stats := mkStats 0 0 0 0 0.

Definition start (opts : Options) (regexes : gmap MatchesLeaf regexp)
    (compares : gmap CompareLeaf compareResolution) : run :=
  mkRun (mkEnv _ [] ∅ ∅ "" regexes compares)
    (mkResult [] [] no_stats (if Extract opts then Some (mkExtract [] 0 0 0 false "") else None)) ∅.

(** The violations of a recipe that is refused; else the result, and an error if a rule
    failed.  [None]: out of fuel. *)
Definition Interpret (recipe : Recipe) (sv : sourceView) (target : TargetSpec) (sourceSlug : string)
    (opts : Options) : option (result (list sourceViolation) (Result * option evalError)) :=
  match validateAgainstSource recipe sv with
  | Err vs => Some (Err vs)
  | Ok (regexes, compares) =>
      match run_rules sv target sourceSlug opts (start opts regexes compares) (Rules recipe) with
      | None => None
      | Some (st, err) => Some (Ok (res st, err))
      end
  end.
End Run.

(** ** Every rule returns *)

Lemma foldM_total {S A} (I : S → Prop) (f : S → A → option S) l :
  (∀ s a, a ∈ l → I s → ∃ s', f s a = Some s' ∧ I s') →
  ∀ s, I s → ∃ s', foldM f s l = Some s' ∧ I s'.
Proof.
  induction l as [|a l IH]; intros Hf s Hs; cbn [foldM]; [by exists s|].
  destruct (Hf s a ltac:(by left) Hs) as (s' & -> & Hs'). cbn [mbind option_bind].
  apply IH; [|done]. intros. apply Hf; [by right|done].
Qed.

Section Returns.
Context `{Host}.

Lemma documentOrderIndex_returns sv : ∃ r, documentOrderIndex sv = Some r.
Proof.
  unfold documentOrderIndex. destruct (refuseAmbiguousPositions _) as [a|] eqn:Ha; [by eexists|].
  destruct (roots_ranks sv (refuse_none sv Ha) (roots_of (claims_of sv))
    (λ r, proj1 (elem_of_roots sv r)) (∅, 0%nat)) as (order & _ & ->). by eexists.
Qed.

Lemma documentOrderIndex_refuses sv a : documentOrderIndex sv = Some (Err a) →
  ambiguous sv (amb_child a).
Proof.
  unfold documentOrderIndex. destruct (refuseAmbiguousPositions _) as [b|] eqn:Ha.
  - intros [= <-]. by apply (refuse_some sv).
  - by destruct (foldM _ _ _).
Qed.

Lemma install_returns env sv rows : ∃ r, install env sv rows = Some r.
Proof.
  unfold install, sortRowsByDocumentOrder. destruct rows as [rows|e]; [|by eexists].
  destruct (documentOrderIndex_returns sv) as [[rank|a] ->]; by eexists.
Qed.

(** The nodes not visited yet. *)
Definition unvisited (sv : sourceView) (visited : gset string) : nat :=
  size (dom (byID sv) ∖ visited).

Lemma unvisited_visit sv visited id : is_Some (byID sv !! id) → id ∉ visited →
  (unvisited sv ({[id]} ∪ visited) < unvisited sv visited)%nat.
Proof.
  intros Hid%elem_of_dom Hv. unfold unvisited. apply subset_size.
  split; [set_solver|]. intros Hsub.
  assert (id ∈ dom (byID sv) ∖ ({[id]} ∪ visited)) by (apply Hsub; set_solver). set_solver.
Qed.

Lemma unvisited_mono sv v v' : v ⊆ v' → (unvisited sv v' ≤ unvisited sv v)%nat.
Proof. intros Hv. apply subseteq_size. set_solver. Qed.

Lemma walk_descend_returns sv edgeType as_ prev fuel : ∀ depth st id,
  (unvisited sv st.1 < fuel)%nat →
  ∃ st', walk_descend fuel sv edgeType as_ prev depth st id = Some st' ∧ st.1 ⊆ st'.1.
Proof.
  induction fuel as [|fuel IH]; intros depth st id Hf; [lia|]. cbn [walk_descend].
  apply (foldM_total (λ s, st.1 ⊆ s.1)); [|done]. intros s e _ Hs.
  destruct (nodeByID sv (ToId e)) as [target|] eqn:Ht; [|by exists s].
  destruct (decide (ToId e ∈ s.1)) as [|Hv]; [by exists s|].
  pose proof (unvisited_visit sv s.1 (ToId e) ltac:(by eexists) Hv).
  pose proof (unvisited_mono sv _ _ Hs).
  edestruct IH as (st' & -> & Hst'); [|exists st'; split; [done|]]; cbn [fst] in *; [lia|set_solver].
Qed.

Lemma evalWalk_returns env edgeType as_ sv : ∃ r, evalWalk env edgeType as_ sv = Some r.
Proof.
  unfold evalWalk.
  destruct (foldM_total (λ _, True) (walk_row sv edgeType as_) (Rows env)) with (s := @nil Row)
    as (out & -> & _); [|done|apply install_returns].
  intros out prev _ _. unfold walk_row.
  destruct (walk_descend_returns sv edgeType as_ prev (walk_fuel sv) 1
    ({[NodeID prev]}, out) (NodeID prev)) as (st & -> & _); [|by eexists].
  unfold walk_fuel, unvisited. rewrite <- size_dom.
  apply Nat.lt_succ_r, subseteq_size. set_solver.
Qed.

Lemma in_env_returns st r : is_Some r → ∃ o, in_env st r = Some o.
Proof. intros [[e|e] ->]; by eexists. Qed.

Lemma dispatchRule_returns sv target slug opts st rule :
  ∃ o, dispatchRule sv target slug opts st rule = Some o.
Proof.
  destruct rule; cbn [dispatchRule]; try (by eexists); apply in_env_returns; try (by eexists).
  - apply install_returns.
  - unfold evalTraverse. destruct (parseDirection _); [apply install_returns|by eexists].
  - apply evalWalk_returns.
Qed.
End Returns.

(** ** What a run emits *)

Section Emits.
Context `{Host} (sv : sourceView) (target : TargetSpec) (slug : string) (opts : Options).

(** The identity an emission is keyed on. *)
Definition identity_of (fields : gmap string string) : string :=
  if decide (get fields "identity" = "") then get fields "name" else get fields "identity".

(** The node made of an emission. *)
Definition made_of (n : Node) (row : ExtractRow) : Prop :=
  identity_of (RowFields row) ≠ "" ∧
  n = assembleEmittedNode (StableID (TargetKey target) slug (RowType row) (identity_of (RowFields row)))
        (RowType row) (map_to_list (RowFields row)) slug.

(** The window of the emissions that an extract returns. *)
Record window (rows : list ExtractRow) (ex : ExtractResult) : Prop := {
  window_rows : ERows ex = take (Z.to_nat (effectiveMaxRows opts)) (drop (Z.to_nat (Offset opts)) rows);
  window_matched : RowsMatched ex = Z.of_nat (length rows);
  window_returned : RowsReturned ex = Z.of_nat (length (ERows ex));
  window_truncated : Truncated ex = bool_decide
    (Offset opts + effectiveMaxRows opts < Z.of_nat (length rows));
  window_by : TruncatedBy ex = if Truncated ex then "max_rows" else "";
}.

(** The result [r], with [ids] the set of what was emitted. *)
Record result_ok (r : Result) (ids : gset string) : Prop := {
  result_ids : NoDup (Id <$> Nodes r) ∧ ids = list_to_set (Id <$> Nodes r);
  result_edges : Forall (λ e, FromID e ∈ ids ∧ ToID e ∈ ids) (Edges r);
  result_count : NodesEmitted (RStats r) = Z.of_nat (length (Nodes r));
  result_rows : ∃ rows, Forall2 made_of (Nodes r) rows ∧
    match RExtract r with
    | None => Extract opts = false
    | Some ex => Extract opts = true ∧ (0 <= Offset opts → window rows ex)
    end;
}.

Definition run_ok (st : run) : Prop := result_ok (res st) (emitted st).

Lemma Id_assemble id ty order : Id (assembleEmittedNode id ty order slug) = id.
Proof.
  assert (Hf : ∀ n kv, Id (assemble_field n kv) = Id n).
  { intros [] [k v]. unfold assemble_field. by repeat case_decide. }
  assert (Hfold : ∀ l n, Id (foldl assemble_field n l) = Id n).
  { induction l as [|kv l IH]; intros n; cbn [foldl]; [done|]. by rewrite IH, Hf. }
  unfold assembleEmittedNode.
  pose proof (Hfold order (mkNode id ty "" "" "" "" "" "" ∅)) as Hid.
  destruct (foldl _ _ _). cbn in Hid |- *. by case_decide.
Qed.

Lemma window_record rows ex row : 0 <= Offset opts → window rows ex →
  window (rows ++ [row]) (recordExtractRow ex (Offset opts) (effectiveMaxRows opts) row).
Proof.
  intros Ho [H1 H2 H3 H4 H5].
  assert (Hcap : 0 < effectiveMaxRows opts).
  { unfold effectiveMaxRows, DefaultExtractMaxRows. destruct (Z.ltb_spec 0 (MaxRows opts)); lia. }
  assert (Hlen : length (ERows ex) = ((length rows - Z.to_nat (Offset opts)) `min` Z.to_nat (effectiveMaxRows opts))%nat)
    by (rewrite H1, length_take, length_drop; lia).
  unfold recordExtractRow. rewrite H2.
  destruct (Z.ltb_spec (Z.of_nat (length rows) + 1 - 1) (Offset opts)) as [Hlt|Hge].
  - split; cbn [ERows RowsMatched RowsReturned Truncated TruncatedBy]; rewrite ?length_app; cbn [length].
    + rewrite H1, !drop_ge by (rewrite ?length_app; cbn; lia). done.
    + lia.
    + done.
    + rewrite H4. apply bool_decide_ext. lia.
    + done.
  - destruct (Z.leb_spec (effectiveMaxRows opts) (Z.of_nat (length (ERows ex)))) as [Hfull|Hroom].
    + split; cbn [ERows RowsMatched RowsReturned Truncated TruncatedBy]; rewrite ?length_app; cbn [length].
      * rewrite H1, drop_app_le, take_app_le by (rewrite ?length_drop; lia). done.
      * lia.
      * done.
      * symmetry. apply bool_decide_eq_true. lia.
      * done.
    + split; cbn [ERows RowsMatched RowsReturned Truncated TruncatedBy]; rewrite ?length_app; cbn [length].
      * rewrite H1, drop_app_le by lia. rewrite !take_ge; rewrite ?length_app, ?length_drop; cbn; try done; lia.
      * lia.
      * done.
      * rewrite H4. apply bool_decide_ext. lia.
      * done.
Qed.

Lemma emit_row_ok nodeType exprs as_ p st row : 0 <= Offset opts → run_ok st →
  run_ok (emit_row sv (TargetKey target) slug (Extract opts) (Offset opts) (effectiveMaxRows opts)
    nodeType exprs as_ p st row).1.1.
Proof.
  intros Ho Hok. unfold emit_row. destruct (evalEmitFields _ _ _ _) as [fields|e]; [|done].
  destruct (_ && _) eqn:Hskip; [by destruct Hok; split|].
  destruct (decide _) as [Hin|Hin]; [done|].
  destruct (rememberEmit _ _ _ _ _) as [env' row'].
  assert (Hident : emitIdentity row fields = identity_of fields ∧ identity_of fields ≠ "").
  { unfold emitIdentity, identity_of. apply andb_false_iff in Hskip.
    rewrite !bool_decide_eq_false in Hskip. repeat case_bool_decide; repeat case_decide; naive_solver. }
  destruct Hident as [Hident Hne]. unfold run_ok. cbn [fst res emitted]. rewrite Hident in *.
  set (id := StableID _ _ _ _) in *. destruct Hok as [[Hnd Hids] Hedges Hcount (rows & Hmade & Hex)].
  assert (Hfresh : id ∉ Id <$> Nodes (res st)) by (rewrite Hids in Hin; set_solver).
  split; cbn [Nodes Edges RStats RExtract].
  - rewrite fmap_app, list_to_set_app_L. cbn [fmap list_fmap list_to_set foldr]. rewrite Id_assemble. split.
    + apply NoDup_app. split; [done|]. split; [set_solver|apply NoDup_singleton].
    + rewrite Hids. set_solver.
  - eapply Forall_impl; [done|]. intros e [? ?]. set_solver.
  - rewrite length_app. cbn [count_emitted NodesEmitted length]. lia.
  - set (anchor := if decide _ then _ else _).
    exists (rows ++ [mkExtractRow nodeType anchor fields]). split.
    { apply Forall2_app; [done|]. constructor; [|constructor]. split; [done|]. done. }
    destruct (RExtract (res st)) as [ex|]; [|by destruct (Extract opts)].
    destruct Hex as [He Hw]. rewrite He. cbn [fmap option_fmap option_map]. split; [done|].
    intros Ho'. by apply window_record; [|apply Hw].
Qed.

Lemma lookup_row_ok nodeType identity as_ st row : run_ok st →
  run_ok (lookup_row sv (TargetKey target) slug nodeType identity as_ st row).1.1.
Proof.
  intros Hok. unfold lookup_row. destruct (evalExpr _ _ _ _) as [i|e]; [|done].
  destruct (decide _); [by destruct Hok; split|]. destruct (decide _); [by destruct Hok; split|].
  destruct (rememberEmit _ _ _ _ _). by destruct Hok; split.
Qed.

Lemma link_row_ok from_ rel to_ st row : run_ok st → run_ok (link_row sv from_ rel to_ st row).1.1.
Proof.
  intros Hok. unfold link_row. destruct (resolveLinkEndpoint _ _ from_ _) as [from|e]; [|done].
  destruct (resolveLinkEndpoint _ _ to_ _) as [to|e]; [|done].
  destruct (_ || _); [by destruct Hok; split|].
  destruct (bool_decide (from ∉ _) || _) eqn:Hin; [by destruct Hok; split|].
  apply orb_false_iff in Hin as [Hf Ht]. apply bool_decide_eq_false in Hf, Ht.
  apply dec_stable in Hf, Ht.
  destruct Hok as [Hids Hedges Hcount Hrows]. split; [done| |done|done].
  cbn [fst res with_res Edges emitted]. apply Forall_app. split; [done|]. by repeat constructor.
Qed.

Lemma over_rows_ok f st : (∀ st row, run_ok st → run_ok (f st row).1.1) → run_ok st →
  run_ok (over_rows f st).1.
Proof.
  intros Hf Hok. unfold over_rows.
  assert (Heach : ∀ rows st, run_ok st → run_ok (each_row f st rows).1.1).
  { induction rows as [|r rows IH]; intros st' Hok'; cbn [each_row]; [done|].
    specialize (Hf st' r Hok'). destruct (f st' r) as [[st1 r1] [e|]]; cbn [fst] in *; [done|].
    specialize (IH st1 Hf). by destruct (each_row f st1 rows) as [[st2 rows2] err]. }
  specialize (Heach (Rows (env st)) st Hok). by destruct (each_row _ _ _) as [[st' rows] err].
Qed.

Lemma dispatchRule_ok st rule o : run_ok st → dispatchRule sv target slug opts st rule = Some o →
  run_ok o.1.
Proof.
  intros Hok Hd. assert (Henv : ∀ r, in_env st r = Some o → run_ok o.1).
  { intros [[env'|e]|] [= <-]; done. }
  destruct rule; cbn [dispatchRule] in Hd; try (by eapply Henv); injection Hd as <-.
  - unfold evalEmit, effectiveOffset. destruct (Z.ltb_spec (Offset opts) 0); [done|].
    apply over_rows_ok; [|done]. intros. by apply emit_row_ok.
  - apply over_rows_ok; [|done]. intros. by apply lookup_row_ok.
  - apply over_rows_ok; [|done]. intros. by apply link_row_ok.
Qed.

Lemma run_rules_ok rules : ∀ st, run_ok st → ∃ o,
  run_rules sv target slug opts st rules = Some o ∧ run_ok o.1.
Proof.
  induction rules as [|rule rules IH]; intros st Hok; cbn [run_rules]; [by eexists|].
  destruct (dispatchRule_returns sv target slug opts st rule) as [[st' err] Hd].
  pose proof (dispatchRule_ok _ _ _ Hok Hd) as Hok'. rewrite Hd.
  destruct err as [e|]; [by eexists|]. by apply IH.
Qed.

Lemma start_ok regexes cmps : run_ok (start opts regexes cmps).
Proof.
  split; cbn.
  - split; [constructor|done].
  - constructor.
  - done.
  - exists []. split; [constructor|]. destruct (Extract opts); [|done]. split; [done|].
    intros Ho. split; cbn; [by rewrite drop_nil, take_nil|done|done| |done].
    symmetry. apply bool_decide_eq_false.
    unfold effectiveMaxRows, DefaultExtractMaxRows. destruct (Z.ltb_spec 0 (MaxRows opts)); lia.
Qed.
End Emits.

(** C17: A recipe is refused with its violations or runs to an end, whatever the graph; also
    when a rule fails, every emitted node has an id of its own, the hash of its identity,
    every edge joins two emitted nodes, the count is the number of nodes, and an extract
    returns the window of the emissions asked for and says how many there were. *)
Theorem Interpret_result_ok `{Host} (recipe : Recipe) (sv : sourceView) (target : TargetSpec)
    (slug : string) (opts : Options) :
  ∃ r, Interpret recipe sv target slug opts = Some r ∧
    match r with
    | Err vs => vs ≠ []
    | Ok (result, _) => ∃ ids, result_ok target slug opts result ids
    end.
Proof.
  unfold Interpret, validateAgainstSource. set (v := foldl checkRule _ _).
  destruct (decide _) as [Hv|Hv].
  - destruct (run_rules_ok sv target slug opts (Rules recipe) _
      (start_ok target slug opts (compiled v) (compares v))) as ([st err] & -> & Hok).
    eexists. split; [done|]. by exists (emitted st).
  - eexists. split; [done|]. intros Hnil. apply Hv.
    pose proof (SliceStable_perm violation_before (violations v)) as Hp. rewrite Hnil in Hp.
    by apply Permutation_nil.
Qed.

(** ** The order in which a node is assembled *)

(** The two spellings of the symbol name. *)
Definition same_slot (j k : string) : Prop := j = "name" ∧ k = "symbol_name" ∨ j = "symbol_name" ∧ k = "name".

Lemma assemble_field_comm n a b : a.1 ≠ b.1 → ¬ same_slot a.1 b.1 →
  assemble_field (assemble_field n a) b = assemble_field (assemble_field n b) a.
Proof.
  destruct n as [id ty nm su de co so st md], a as [j v], b as [k w]. unfold same_slot. cbn [fst].
  intros Hne Hslot. unfold assemble_field.
  repeat case_decide; try done; try congruence; try solve [exfalso; apply Hslot; auto].
  f_equal. by rewrite insert_insert_ne.
Qed.

(** The node made of an emission does not depend on the order in which the range over
    its fields yields them, unless both spellings of the symbol name are among them. *)
Theorem assembleEmittedNode_order (nodeID fallbackType sourceSlug : string)
    (order order' : list (string * string)) (Hperm : order ≡ₚ order') (Hkeys : NoDup order.*1)
    (Hslot : ¬ ("name" ∈ order.*1 ∧ "symbol_name" ∈ order.*1)) :
  assembleEmittedNode nodeID fallbackType order sourceSlug
  = assembleEmittedNode nodeID fallbackType order' sourceSlug.
Proof.
  assert (Hf : ∀ n, foldl assemble_field n order = foldl assemble_field n order').
  { induction Hperm as [|x l l' _ IH|x y l|l l' l'' H1 IH1 _ IH2]; intros n; cbn [foldl fmap list_fmap] in *;
      [done| | |].
    - apply IH; [by inversion Hkeys|set_solver].
    - rewrite assemble_field_comm; [done| |].
      + inversion Hkeys. set_solver.
      + intros [[H1 H2]|[H1 H2]]; apply Hslot; rewrite H1, H2; set_solver.
    - rewrite IH1 by done. apply IH2; [by rewrite <- H1|by rewrite <- H1]. }
  unfold assembleEmittedNode. by rewrite Hf.
Qed.

Lemma assembleEmittedNode_order_witness :
  let order := [("name", "Maps"); ("summary", "About maps"); ("page", "3")] in
  order ≡ₚ reverse order ∧
  assembleEmittedNode "id" "pattern" order "book" = assembleEmittedNode "id" "pattern" (reverse order) "book".
Proof.
  intros order. split; [by rewrite reverse_Permutation|]. apply assembleEmittedNode_order.
  - by rewrite reverse_Permutation.
  - cbn. repeat (constructor; [set_solver|]). constructor.
  - cbn. set_solver.
Defined.

(** With both, the name is the one the range yields last. *)
Lemma emitted_name_depends_on_order :
  let order := [("name", "Maps"); ("symbol_name", "maps")] in
  SymbolName (assembleEmittedNode "id" "pattern" order "book") = "maps" ∧
  SymbolName (assembleEmittedNode "id" "pattern" (reverse order) "book") = "Maps".
Proof. by vm_compute. Qed.

(** ** The rows of a walk *)

Section Walks.
Context `{Host} (sv : sourceView) (edgeType as_ : string).

(** One step of the walk. *)
#[local] Abbreviation step := (hop sv edgeType outgoingEdges).

Lemma elem_of_childEdges id e : e ∈ childEdgesOrdered sv id edgeType →
  EType e = edgeType ∧ (is_Some (byID sv !! ToId e) → step id (ToId e)).
Proof.
  unfold childEdgesOrdered, sortEdgesByOrderKey. rewrite SliceStable_perm.
  intros [Ht He]%list_elem_of_filter. apply bool_decide_unpack in Ht. split; [done|].
  intros Hs. split; [|done]. unfold edgesFrom, follows. cbn. rewrite app_nil_r.
  apply list_elem_of_fmap_2, list_elem_of_filter. split; [|done]. by apply bool_decide_pack.
Qed.

Lemma step_childEdges id n : step id n → ∃ e, e ∈ childEdgesOrdered sv id edgeType ∧ ToId e = n.
Proof.
  intros [Hn _]. unfold edgesFrom, follows in Hn. cbn in Hn. rewrite app_nil_r in Hn.
  apply list_elem_of_fmap in Hn as (e & -> & He). exists e. split; [|done].
  unfold childEdgesOrdered, sortEdgesByOrderKey. by rewrite SliceStable_perm.
Qed.

(** A row of the walk from [prev]: the node, the edge it was reached along, its level. *)
Definition walked (prev r : Row) : Prop :=
  ∃ e k, byID sv !! NodeID r = Some (RNode r) ∧ REdge r = Some e ∧ EType e = edgeType ∧
    ToId e = NodeID r ∧ nsteps step k (NodeID prev) (NodeID r) ∧
    Vars r = walk_vars sv as_ (Z.of_nat k) e (Vars prev).

(** What a descent adds to its state, below the nodes [from]. *)
Record descended (prev : Row) (from : string → Prop) (st st' : gset string * list Row)
    (new : list Row) : Prop := {
  desc_visited : st'.1 = list_to_set (NodeID <$> new) ∪ st.1;
  desc_rows : st'.2 = st.2 ++ new;
  desc_fresh : Forall (λ r, NodeID r ∉ st.1) new;
  desc_nodup : NoDup (NodeID <$> new);
  desc_walked : Forall (walked prev) new;
  desc_closed : ∀ x y, from x ∨ x ∈ NodeID <$> new → step x y → y ∈ st'.1;
}.

Lemma walk_descend_spec prev fuel : ∀ k st id,
  (unvisited sv st.1 < fuel)%nat → nsteps step k (NodeID prev) id →
  ∃ st' new, walk_descend fuel sv edgeType as_ prev (Z.of_nat (S k)) st id = Some st' ∧
    descended prev (λ x, x = id) st st' new.
Proof.
  induction fuel as [|fuel IH]; intros k st id Hf Hk; [lia|]. cbn [walk_descend].
  (* along the edges [l] that are left *)
  assert (Hfold : ∀ l, (∀ e, e ∈ l → e ∈ childEdgesOrdered sv id edgeType) → ∀ s,
    st.1 ⊆ s.1 → ∃ st' new, foldM (λ st e,
      match nodeByID sv (ToId e) with
      | None => Some st
      | Some target =>
          if decide (ToId e ∈ st.1) then Some st
          else walk_descend fuel sv edgeType as_ prev (Z.of_nat (S k) + 1)
                 ({[ToId e]} ∪ st.1, st.2 ++ [mkRow (ToId e) target
                    (walk_vars sv as_ (Z.of_nat (S k)) e (Vars prev)) (Some e)]) (ToId e)
      end) s l = Some st' ∧ descended prev (λ _, False) s st' new ∧
      ∀ e, e ∈ l → is_Some (byID sv !! ToId e) → ToId e ∈ st'.1).
  { induction l as [|e l IHl]; intros Hl s Hs; cbn [foldM].
    { exists s, []. split; [done|]. split; [|set_solver]. split; try constructor; cbn.
      - set_solver.
      - by rewrite app_nil_r.
      - set_solver. }
    destruct (elem_of_childEdges id e (Hl e ltac:(by left))) as [Ht Hstep].
    assert (Hl' : ∀ e, e ∈ l → e ∈ childEdgesOrdered sv id edgeType) by (intros; apply Hl; by right).
    destruct (nodeByID sv (ToId e)) as [target|] eqn:Hn; unfold nodeByID in Hn; cbn [mbind option_bind].
    2: { destruct (IHl Hl' s Hs) as (st' & new & Hr & Hd & Hin). exists st', new. split; [done|].
         split; [done|]. intros e' [->|He']%elem_of_cons [? Hs']; [congruence|]. apply Hin; [done|by eexists]. }
    destruct (decide (ToId e ∈ s.1)) as [Hv|Hv]; cbn [mbind option_bind].
    { destruct (IHl Hl' s Hs) as (st' & new & Hr & Hd & Hin). exists st', new. split; [done|].
      split; [done|]. intros e' [->|He']%elem_of_cons Hs'; [|by apply Hin].
      rewrite (desc_visited _ _ _ _ _ Hd). set_solver. }
    set (row := mkRow (ToId e) target (walk_vars sv as_ (Z.of_nat (S k)) e (Vars prev)) (Some e)).
    pose proof (unvisited_visit sv s.1 (ToId e) ltac:(by eexists) Hv).
    pose proof (unvisited_mono sv _ _ Hs).
    assert (Hk' : nsteps step (S k) (NodeID prev) (ToId e)).
    { apply nsteps_r with id; [done|]. apply Hstep. by eexists. }
    destruct (IH (S k) ({[ToId e]} ∪ s.1, s.2 ++ [row]) (ToId e)) as (s1 & new1 & Hr1 & [V1 R1 F1 N1 W1 C1]);
      [cbn; lia|done|].
    replace (Z.of_nat (S k) + 1) with (Z.of_nat (S (S k))) by lia. rewrite Hr1. cbn [mbind option_bind].
    cbn [fst snd] in *.
    destruct (IHl Hl' s1) as (st' & new2 & Hr2 & [V2 R2 F2 N2 W2 C2] & Hin2); [set_solver|].
    replace (Z.of_nat (S k) + 1) with (Z.of_nat (S (S k))) in Hr2 by lia.
    exists st', (row :: new1 ++ new2). split; [exact Hr2|].
    assert (Hid : NodeID row = ToId e) by done.
    rewrite Forall_forall in F1, F2, W1, W2. split; [split|].
    - rewrite V2, V1, fmap_cons, fmap_app, list_to_set_cons, list_to_set_app_L, Hid. set_solver.
    - by rewrite R2, R1, <- !app_assoc.
    - apply Forall_forall. intros r [->|[Hr|Hr]%elem_of_app]%elem_of_cons; [done| |].
      + specialize (F1 r Hr). set_solver.
      + specialize (F2 r Hr). set_solver.
    - rewrite fmap_cons, fmap_app, Hid. apply NoDup_cons. split.
      + rewrite elem_of_app, !list_elem_of_fmap. intros [(r & Hr & Hin)|(r & Hr & Hin)].
        * specialize (F1 r Hin). set_solver.
        * specialize (F2 r Hin). set_solver.
      + apply NoDup_app. split; [done|]. split; [|done].
        intros x Hx1 (r & -> & Hr)%list_elem_of_fmap. specialize (F2 r Hr). set_solver.
    - constructor; [|apply Forall_forall; intros r [Hr|Hr]%elem_of_app; auto].
      exists e, (S k). by rewrite Hid.
    - intros x y [[]|Hx] Hxy. rewrite fmap_cons, fmap_app, elem_of_cons, elem_of_app, Hid in Hx.
      assert (y ∈ s1.1 → y ∈ st'.1) by (rewrite V2; set_solver).
      destruct Hx as [->|[Hx|Hx]]; [|by eauto|by eauto]. by eauto.
    - intros e' [->|He']%elem_of_cons Hs'; [|by apply Hin2]. rewrite V2, V1. set_solver. }
  destruct (Hfold (childEdgesOrdered sv id edgeType) (λ e He, He) st) as (st' & new & Hr & Hd & Hin); [done|].
  exists st', new. split; [exact Hr|]. destruct Hd as [V R F N W C]. split; [done..|].
  intros x y [->|Hx] Hxy; [|by apply (C x); [right|]].
  destruct (step_childEdges _ _ Hxy) as (e & He & <-). apply Hin; [done|apply Hxy].
Qed.

(** The rows of the walk from [prev]: each node below it once. *)
Definition subtree (prev : Row) (rows : list Row) : Prop :=
  NoDup (NodeID <$> rows) ∧ Forall (walked prev) rows ∧
  ∀ n, n ∈ NodeID <$> rows ↔ n ≠ NodeID prev ∧ rtc step (NodeID prev) n.

Lemma walk_row_subtree out prev : ∃ rows,
  walk_row sv edgeType as_ out prev = Some (out ++ rows) ∧ subtree prev rows.
Proof.
  destruct (walk_descend_spec prev (walk_fuel sv) 0 ({[NodeID prev]}, out) (NodeID prev))
    as (st & new & Hr & [V R F N W C]); cbn [fst snd] in *.
  - unfold walk_fuel, unvisited. rewrite <- size_dom. apply Nat.lt_succ_r, subseteq_size. set_solver.
  - constructor.
  - exists new. unfold walk_row. change 1 with (Z.of_nat 1). rewrite Hr. cbn [mbind option_bind].
    rewrite R. split; [done|]. split; [done|]. split; [done|]. intros n.
    rewrite Forall_forall in F, W. split.
    + intros (r & -> & Hin)%list_elem_of_fmap. split; [specialize (F r Hin); set_solver|].
      destruct (W r Hin) as (e & k & _ & _ & _ & _ & Hk & _). by apply rtc_nsteps_2 in Hk.
    + intros [Hne Hreach].
      assert (Hin : ∀ x y, rtc step x y → x ∈ st.1 → y ∈ st.1).
      { induction 1 as [|x y z Hxy _ IH]; [done|]. intros Hx. apply IH, (C x); [|done].
        rewrite V, elem_of_union, elem_of_list_to_set in Hx. set_solver. }
      specialize (Hin _ _ Hreach ltac:(rewrite V; set_solver)).
      rewrite V, elem_of_union, elem_of_list_to_set in Hin. set_solver.
Qed.

Lemma walk_rows_subtrees prevs : ∀ out, ∃ subtrees,
  foldM (walk_row sv edgeType as_) out prevs = Some (out ++ mjoin subtrees) ∧
  Forall2 subtree prevs subtrees.
Proof.
  induction prevs as [|prev prevs IH]; intros out; cbn [foldM].
  { exists []. cbn. by rewrite app_nil_r. }
  destruct (walk_row_subtree out prev) as (rows & -> & Hrows). cbn [mbind option_bind].
  destruct (IH (out ++ rows)) as (subtrees & -> & Hsub). exists (rows :: subtrees).
  cbn. rewrite <- app_assoc. split; [done|]. by constructor.
Qed.
End Walks.

(** The order of the rows of a rule is a weak order. *)
Lemma row_before_anti rank a b : row_before rank a b = true → row_before rank b a = false.
Proof.
  unfold row_before. destruct (rank !! NodeID a), (rank !! NodeID b); try done.
  - intros Hlt%Nat.ltb_lt. apply Nat.ltb_ge. lia.
  - intros Hlt. apply not_true_iff_false. intros Hlt'.
    apply str_lt_not_le in Hlt. by apply Hlt, str_lt_le.
Qed.

Lemma row_before_trans rank a b c :
  row_before rank b a = false → row_before rank c b = false → row_before rank c a = false.
Proof.
  unfold row_before. destruct (rank !! NodeID a), (rank !! NodeID b), (rank !! NodeID c); try done.
  - intros H1%Nat.ltb_ge H2%Nat.ltb_ge. apply Nat.ltb_ge. lia.
  - rewrite <- !not_true_iff_false. intros H1 H2. apply str_le_not_lt.
    apply str_le_trans with (NodeID b); by apply str_le_not_lt.
Qed.

(** C24: A walk makes of each row the rows below it: from every row it lists once each node
    that the edges of its type lead to from there, cycles included, with the edge and the
    level it was reached at; all of them then stand in reading order.  It fails only if
    the reading order is ambiguous. *)
Theorem evalWalk_subtrees `{Host} (env : Env) (edgeType as_ : string) (sv : sourceView) :
  ∃ r, evalWalk env edgeType as_ sv = Some r ∧
    match r with
    | Err e => ∃ a, e = AmbiguousOrder a ∧ ambiguous sv (amb_child a)
    | Ok env' => ∃ rank subtrees, documentOrderIndex sv = Some (Ok rank) ∧
        Forall2 (subtree sv edgeType as_) (Rows env) subtrees ∧
        Rows env' ≡ₚ mjoin subtrees ∧ StronglySorted (not_after (row_before rank)) (Rows env')
    end.
Proof.
  unfold evalWalk. destruct (walk_rows_subtrees sv edgeType as_ (Rows env) []) as (subtrees & -> & Hsub).
  unfold install, sortRowsByDocumentOrder.
  destruct (documentOrderIndex_returns sv) as [[rank|a] Hd]; rewrite Hd.
  - eexists. split; [done|]. exists rank, subtrees. split; [done|]. split; [done|]. cbn [Rows set_rows].
    split; [by rewrite SliceStable_perm|].
    apply SliceStable_sorted; [apply row_before_anti|apply row_before_trans].
  - eexists. split; [done|]. exists a. split; [done|]. by apply documentOrderIndex_refuses.
Qed.
