(* ===== verification/RecipeTypes.v ===== *)
(** * Accepted recipes do not go wrong

    A typing judgement for recipes, the proof that the check of [RecipeCheck] establishes
    it, and that a run of a typed recipe raises none of the errors the code calls its own
    bugs: no field path it cannot read, no unknown builtin or wrong arity, no pattern or
    comparison that was not resolved before the run. *)

From S2P Require Import Prelude Gostd Paging RecipeLex RecipeParse RecipeSource RecipeEval RecipeCheck RecipeRun.
From Stdlib Require Import Ascii.

#[local] Open Scope Z_scope.

(** ** The errors that a check rules out *)

(** The others depend on the values the run computes: a number that does not parse, a
    computed direction or pattern, a reading order, an identity. *)
Fixpoint ruled_out (e : evalError) : bool :=
  match e with
  | EmptyFieldPath | EdgeNamesNothing | EdgeNotWalked _ | EvidenceNamesNothing
  | PatternRefused _ _ _ | UnknownFunction _ _ | BadArity _ _ _ | SliceOutOfRange
  | WhereOfEmpty | WhereWithoutRow _ | MatchesUncompiled _ | CompareUnresolved _
  | CompareNotApplied _ => true
  | InEmitField _ e | InLookupIdentity e => ruled_out e
  | BadDirectionOf _ | NotAnInteger _ _ | NegativeGroup _ | BuiltinPattern _ _ _
  | RowNotANumber _ _ _ | AmbiguousOrder _ | DuplicateIdentity _ _ _ _ _ | NegativeOffset _ => false
  end.

Definition safe {A} (r : result evalError A) : Prop :=
  match r with Ok _ => True | Err e => ruled_out e = false end.

Lemma safe_bind {A B} (m : result evalError A) (f : A → result evalError B) :
  safe m → (∀ a, safe (f a)) → safe (a <-- m ;; f a)%go.
Proof. intros Hm Hf. destruct m; [apply Hf|exact Hm]. Qed.

Lemma safe_both a b : safe a → safe b → safe (both a b).
Proof. intros Ha Hb. by destruct a as [[]|]. Qed.

Lemma safe_all_of {A} (f : A → result evalError bool) l : (∀ a, a ∈ l → safe (f a)) → safe (all_of f l).
Proof.
  induction l as [|a l IH]; intros Hf; [done|]. cbn [all_of].
  pose proof (Hf a ltac:(by left)) as Ha. destruct (f a) as [[]|]; [|done|exact Ha].
  apply IH. intros. apply Hf. by right.
Qed.

Lemma safe_any_of {A} (f : A → result evalError bool) l : (∀ a, a ∈ l → safe (f a)) → safe (any_of f l).
Proof.
  induction l as [|a l IH]; intros Hf; [done|]. cbn [any_of].
  pose proof (Hf a ltac:(by left)) as Ha. destruct (f a) as [[]|]; [done| |exact Ha].
  apply IH. intros. apply Hf. by right.
Qed.

Lemma safe_map_ok {A B} (f : A → result evalError B) l : (∀ a, a ∈ l → safe (f a)) → safe (map_ok f l).
Proof.
  induction l as [|a l IH]; intros Hf; [done|]. cbn [map_ok]. apply safe_bind; [apply Hf; by left|].
  intros b. apply safe_bind; [|done]. apply IH. intros. apply Hf. by right.
Qed.

Lemma map_ok_length {A B} (f : A → result evalError B) l bs : map_ok f l = Ok bs → length bs = length l.
Proof.
  revert bs. induction l as [|a l IH]; intros bs; cbn [map_ok]; [by intros [= <-]|].
  destruct (f a) as [b|]; [|done]. cbn [result_bind]. destruct (map_ok f l) as [bs'|]; [|done].
  intros [= <-]. cbn. by rewrite (IH bs').
Qed.

(** ** Field paths *)

(** A path of the edge names an attribute of it. *)
Definition path_typed (path : list string) : Prop :=
  match path with
  | [] => False
  | head :: rest => head = edgeHead → rest ≠ [] ∧ rest ≠ [edgeEvidenceKey]
  end.

(** No dot in a string. *)
Definition dotless (s : string) : Prop := ∀ a b, s ≠ a +:+ "." +:+ b.

Lemma dotless_cons c s : c ≠ "."%char → dotless s → dotless (String c s).
Proof. intros Hc Hs [|c' a] b; cbn; intros [= E1 E2]; [done|]. by apply (Hs a b). Qed.

Lemma is_name_dotless v : is_name v → dotless v.
Proof.
  unfold is_name. destruct v as [|c v]; [done|]. cbn. intros [Hc Hv]. apply isIdentStart_part in Hc.
  apply dotless_cons; [by intros ->|]. clear Hc c.
  induction v as [|d v IH]; cbn in Hv; [by intros [] ?|]. apply Forall_cons in Hv as [Hd Hv].
  apply dotless_cons; [by intros ->|by apply IH].
Qed.

Lemma split_dots_app s : dotless s → ∀ t acc,
  split_dots (s +:+ "." +:+ t) acc = (acc +:+ s) :: split_dots t "".
Proof.
  induction s as [|c s IH]; intros Hs t acc.
  { change ("" +:+ "." +:+ t) with ("." +:+ t). by rewrite str_app_nil_r. }
  assert (Hc : c ≠ "."%char) by (intros ->; by apply (Hs "" s)).
  apply Ascii.eqb_neq in Hc. change (String c s +:+ "." +:+ t) with (String c (s +:+ "." +:+ t)).
  cbn [split_dots]. rewrite Hc, IH; [by rewrite str_app_assoc|].
  intros a b ->. by apply (Hs (String c a) b).
Qed.

Lemma splitFieldPath_Join path : path ≠ [] → Forall dotless path → splitFieldPath (Join path ".") = path.
Proof.
  induction path as [|s path IH]; [done|]. intros _ [Hs Hp]%Forall_cons. unfold splitFieldPath in *.
  destruct path as [|t path]; [by apply split_dots_none|].
  change (Join (s :: t :: path) ".") with (s +:+ "." +:+ Join (t :: path) ".").
  rewrite split_dots_app by done. by rewrite IH.
Qed.

Lemma path_ok_splits path : path_ok path → splitFieldPath (Join path ".") = path.
Proof.
  intros Hp. apply splitFieldPath_Join; [by destruct path|]. destruct path as [|first path]; [done|].
  destruct Hp as [Hf Hp]. constructor.
  - destruct Hf as [Hf|(v & Hf & ->)]; [by apply is_name_dotless|].
    apply dotless_cons; [done|by apply is_name_dotless].
  - eapply Forall_impl; [exact Hp|exact is_name_dotless].
Qed.

(** ** What a check leaves *)

Section Accepts.
Context `{Host}.

(** What the check resolves can be applied. *)
Definition resolved (v : sourceValidator) : Prop :=
  ∀ l r, compares v !! l = Some r → declinedCompareOps (op r) = false.

(** The later state refused no less, and resolved no less. *)
Record grows (v v' : sourceValidator) : Prop := {
  grows_accepts : violations v' = [] → violations v = [];
  grows_compiled : dom (compiled v) ⊆ dom (compiled v');
  grows_compares : dom (compares v) ⊆ dom (compares v');
  grows_census : census v' = census v;
  grows_resolved : resolved v → resolved v';
}.

#[export] Instance grows_preorder : PreOrder grows.
Proof.
  split; [by split|]. intros v1 v2 v3 [A1 B1 C1 D1 E1] [A2 B2 C2 D2 E2].
  split; [auto|set_solver|set_solver|congruence|auto].
Qed.

Lemma refused p r v : violations (add p r v) ≠ [].
Proof. unfold add. cbn. by destruct (violations v). Qed.

Lemma grows_add p r v : grows v (add p r v).
Proof. split; [by intros []%refused|done..]. Qed.

Lemma grows_foldl {A} (f : sourceValidator → A → sourceValidator) l : (∀ v a, grows v (f v a)) →
  ∀ v, grows v (foldl f v l).
Proof. intros Hf. induction l as [|a l IH]; intros v; [done|]. cbn. etrans; [apply Hf|apply IH]. Qed.

(** A fold of checks accepts when each accepts. *)
Lemma foldl_accepts {A} (f : sourceValidator → A → sourceValidator) (P : sourceValidator → A → Prop) l :
  (∀ v a, grows v (f v a)) → (∀ v a, a ∈ l → violations (f v a) = [] → P (f v a) a) →
  (∀ v v' a, grows v v' → P v a → P v' a) →
  ∀ v, violations (foldl f v l) = [] → Forall (P (foldl f v l)) l.
Proof.
  intros Hg Hf Hmono. induction l as [|a l IH]; intros v Hv; [constructor|]. cbn [foldl] in *.
  pose proof (grows_foldl f l Hg (f v a)) as Hgr. constructor.
  - apply (Hmono (f v a)); [done|]. apply Hf; [by left|]. by apply (grows_accepts _ _ Hgr).
  - apply IH; [|done]. intros. apply Hf; [by right|done].
Qed.
End Accepts.

Create HintDb grows.
#[export] Hint Resolve grows_add : grows.
#[export] Hint Extern 1 (grows ?v ?v) => reflexivity : grows.
#[export] Hint Extern 2 (grows _ (refuseVocabulary _ _ _ _ _)) => apply grows_add : grows.

(** A check that looks at cases and refuses in some. *)
Ltac grows_cases :=
  repeat (case_match || case_decide); eauto with grows; (etrans; [|apply grows_add]; eauto with grows).

Section Paths.
Context `{Host}.

Lemma checkEdgeFieldPath_grows segs p site v : grows v (checkEdgeFieldPath segs p site v).
Proof. unfold checkEdgeFieldPath. grows_cases. Qed.

Lemma checkFieldPath_grows path p site v : grows v (checkFieldPath path p site v).
Proof.
  unfold checkFieldPath, checkPseudoVariable.
  repeat (case_match || case_decide); eauto using checkEdgeFieldPath_grows with grows.
Qed.

Lemma checkFieldPath_accepts path p site v : violations (checkFieldPath path p site v) = [] →
  path_typed (splitFieldPath path).
Proof.
  unfold checkFieldPath. destruct (splitFieldPath path) as [|head rest] eqn:Hs.
  { exfalso. unfold splitFieldPath in Hs. revert Hs. generalize "". induction path as [|c path IH]; [done|].
    intros acc. cbn [split_dots]. destruct (Ascii.eqb c _); [done|]. apply IH. }
  intros Hv Hedge. rewrite decide_True in Hv by done. unfold checkEdgeFieldPath in Hv. cbn [tail] in Hv.
  destruct rest as [|key rest]; [by apply refused in Hv|]. split; [done|]. intros [= -> ->].
  rewrite decide_False in Hv by (by intros ?%elem_of_singleton). rewrite decide_True in Hv by done.
  by apply refused in Hv.
Qed.
End Paths.

(** ** Builtins *)

(** The builtin takes [n] arguments. *)
Definition builtin_takes (name : string) (n : nat) : Prop :=
  ∃ spec, assoc name builtinTable = Some spec ∧ (wantArgs spec < 0 ∨ Z.of_nat n = wantArgs spec).

Lemma assoc_in {A} name (table : list (string * A)) a : assoc name table = Some a → (name, a) ∈ table.
Proof.
  unfold assoc. intros ([i [n x]] & Hf & [= ->])%bind_Some.
  apply list_find_Some in Hf as (Hi & Hn & _). cbn in Hn. subst.
  by apply list_elem_of_lookup_2 in Hi.
Qed.

Section Builtins.
Context `{Host}.

Lemma safe_integer b s : safe (integer b s).
Proof. unfold integer. by destruct (Atoi s). Qed.

Lemma safe_slice a b c : safe (sliceString a b c).
Proof.
  unfold sliceString. apply safe_bind; [apply safe_integer|]. intros i.
  apply safe_bind; [apply safe_integer|]. intros j. cbv zeta.
  set (start := if i <? 0 then 0 else i).
  set (end_ := if Z.of_nat (String.length a) <? j then Z.of_nat (String.length a) else j).
  destruct (Z.ltb_spec end_ start); [done|].
  assert (0 <= start) by (unfold start; destruct (Z.ltb_spec i 0); lia).
  assert (end_ <= Z.of_nat (String.length a))
    by (unfold end_; destruct (Z.ltb_spec (Z.of_nat (String.length a)) j); lia).
  unfold slice_string. rewrite !(proj2 (Z.leb_le _ _)) by lia. done.
Qed.

Lemma safe_matchGroup a b c : safe (matchGroup a b c).
Proof.
  unfold matchGroup. apply safe_bind; [apply safe_integer|]. intros n. destruct (n <? 0); [done|].
  destruct (compileRegex b) as [re|]; [|done]. by destruct (FindStringSubmatch re a).
Qed.

Lemma safe_hasEdge row a b sv : safe (hasEdge row a b sv).
Proof.
  unfold hasEdge. destruct (row_id row); [|done]. apply safe_bind; [|done].
  unfold parseDirection. cbv zeta. by repeat case_decide.
Qed.

Lemma safe_hasAncestor row a b c sv : safe (hasAncestor row a b c sv).
Proof. unfold hasAncestor. destruct (row_id row); [|done]. by destruct (compileRegex c). Qed.

Lemma safe_subtreeConcat row a b c d sv : safe (subtreeConcat row a b c d sv).
Proof.
  unfold subtreeConcat. apply safe_bind; [apply safe_integer|]. intros n.
  destruct (row_id row); [|done]. by destruct (n <=? 0).
Qed.

Lemma safe_arity name args want (v : result evalError string) :
  length args = want → safe v → safe (_ <-- checkArity name args want ;; v)%go.
Proof. intros Ha Hv. unfold checkArity. rewrite decide_True by done. exact Hv. Qed.

Lemma safe_evalFunc row name p args sv : builtin_takes name (length args) →
  safe (evalFunc row name p args sv).
Proof.
  intros (spec & Hs & Hn). apply assoc_in in Hs. unfold builtinTable in Hs.
  unfold evalFunc, evalStringFunc, evalGraphFunc, evalBoolFunc, evalRenderFunc, builtin.
  repeat (apply elem_of_cons in Hs as [[= -> ->]|Hs]; [
    cbn [wantArgs] in Hn;
    repeat (case_decide as Hname;
      [first [discriminate Hname|clear Hname]|first [by destruct Hname|clear Hname]]);
    first [exact I|apply safe_arity; [lia|]; solve [exact I|auto using safe_slice, safe_matchGroup,
      safe_hasEdge, safe_hasAncestor, safe_subtreeConcat]]|]).
  by apply elem_of_nil in Hs.
Qed.
End Builtins.

(** ** Expressions *)

Section Expressions.
Context `{Host}.

#[warnings="-register-all"]
Inductive expr_typed : Expr → Prop :=
| et_field path p : path_typed path → expr_typed (ExprField path p)
| et_lit v p : expr_typed (ExprLit v p)
| et_var n p : expr_typed (ExprVar n p)
| et_regex lhs pat neg p re : compileRegex pat = Ok re → expr_typed lhs →
    expr_typed (ExprRegex lhs pat neg p)
| et_func name args p : builtin_takes name (length args) → Forall expr_typed args →
    expr_typed (ExprFunc name args p).

(** The row has what the scope offers: under a rule that offers [edge], an edge. *)
Definition in_scope (Γ : scope) (r : Row) : Prop :=
  ∀ L, Γ = Some L → edgeHead ∈ L → is_Some (REdge r).

Lemma safe_evalField env Γ row path : path_typed path → visible Γ path →
  from_option (in_scope Γ) True row → safe (evalField env row path).
Proof.
  intros Ht Hv Hr. destruct path as [|head rest]; [done|]. cbn [evalField].
  destruct (CutPrefix head "$") as [name|] eqn:Hc; [done|]. destruct row as [r|]; [|done].
  case_decide as Hedge.
  - subst. destruct (Ht eq_refl) as [Hne Hev].
    destruct Hv as [Hp|(L & -> & HL)]; [done|].
    destruct (Hr L eq_refl HL) as [e He]. rewrite He. destruct rest as [|k rest]; [done|].
    cbn [readEdgeField]. case_decide; [done|]. case_decide as Hk; [|done].
    destruct rest; [|done]. by subst.
  - destruct rest; [done|]. by destruct (Vars r !! _).
Qed.

Lemma safe_evalExpr env Γ row sv e : from_option (in_scope Γ) True row →
  expr_typed e → expr_scoped Γ e → safe (evalExpr env row sv e).
Proof.
  intros Hr. induction e as [path p|v p|n p|lhs pat neg p IH|name args p IH] using Expr_nested_ind;
    intros Ht Hs; inversion Ht; inversion Hs; subst; try done; cbn [evalExpr].
  - by apply (safe_evalField env Γ).
  - apply safe_bind; [by apply IH|]. intros v. unfold evalRegex.
    match goal with Hc : compileRegex _ = _ |- _ => rewrite Hc end. by destruct neg.
  - rewrite !Forall_forall in *.
    assert (Hargs : safe (map_ok (evalExpr env row sv) args)) by (apply safe_map_ok; auto).
    destruct (map_ok (evalExpr env row sv) args) as [vs|] eqn:Hvs; [|exact Hargs].
    cbn [result_bind]. apply safe_evalFunc. by rewrite (map_ok_length _ _ _ Hvs).
Qed.

Lemma checkEdgeTypeArgument_grows name a p v : grows v (checkEdgeTypeArgument name a p v).
Proof. unfold checkEdgeTypeArgument. grows_cases. Qed.

Lemma checkLiteralRegex_grows pat p site v : grows v (checkLiteralRegex pat p site v).
Proof. unfold checkLiteralRegex. grows_cases. Qed.
#[local] Hint Resolve checkEdgeTypeArgument_grows checkLiteralRegex_grows checkFieldPath_grows : grows.

Lemma checkFunc_grows name args p v : grows v (checkFunc name args p v).
Proof.
  unfold checkFunc. destruct (assoc name builtinTable) as [spec|]; [|apply grows_add].
  destruct (_ && _); [apply grows_add|]. cbv zeta.
  set (v' := match arg_at args (regexArg spec) with Some (ExprLit _ _) => _ | _ => v end).
  assert (Hg : grows v v') by (unfold v'; repeat case_match; eauto with grows).
  destruct (arg_at args (edgeArg spec)); [|exact Hg]. etrans; [exact Hg|]. eauto with grows.
Qed.
#[local] Hint Resolve checkFunc_grows : grows.

Lemma checkExpr_grows e : ∀ v, grows v (checkExpr e v).
Proof.
  induction e as [path p|v p|n p|lhs pat neg p IH|name args p IH] using Expr_nested_ind; intros v';
    cbn [checkExpr]; eauto with grows.
  - etrans; [apply IH|]. eauto with grows.
  - etrans; [apply (checkFunc_grows name args p)|]. generalize (checkFunc name args p v').
    induction IH as [|a l Ha _ IHl]; intros v''; [reflexivity|]. cbn [foldl]. etrans; [apply Ha|apply IHl].
Qed.

Lemma checkFunc_accepts name args p v : violations (checkFunc name args p v) = [] →
  builtin_takes name (length args).
Proof.
  unfold checkFunc, builtin_takes. destruct (assoc name builtinTable) as [spec|]; [|by intros []%refused].
  destruct (Z.leb_spec 0 (wantArgs spec)); cbn [andb]; [|intros _; exists spec; split; [done|lia]].
  destruct (Z.eqb_spec (Z.of_nat (length args)) (wantArgs spec)); cbn [negb]; [|by intros []%refused].
  intros _. exists spec. split; [done|by right].
Qed.

Lemma checkExpr_accepts all e : expr_ok all e → ∀ v, violations (checkExpr e v) = [] → expr_typed e.
Proof.
  induction e as [path p|v p|n p|lhs pat neg p IH|name args p IH] using Expr_nested_ind;
    intros Hok v' Hv; cbn [checkExpr expr_ok] in *; try by constructor.
  - constructor. rewrite <- (path_ok_splits path) by apply Hok. by apply checkFieldPath_accepts in Hv.
  - destruct Hok as [Hok _]. unfold checkLiteralRegex in Hv.
    destruct (compileRegex pat) as [re|] eqn:Hre; [|by apply refused in Hv].
    econstructor; [done|]. by apply IH in Hv.
  - destruct Hok as [Hok _]. apply foldr_and_Forall in Hok. rewrite Forall_forall in Hok, IH.
    assert (Hg : ∀ v a, grows v (checkExpr a v)) by (intros; apply checkExpr_grows).
    constructor.
    + eapply checkFunc_accepts, grows_accepts; [|exact Hv]. by apply grows_foldl.
    + apply (foldl_accepts _ (λ _ a, expr_typed a)) in Hv; auto. intros v a Ha. by apply IH; [|apply Hok].
Qed.
End Expressions.

(** ** Where-trees *)

(** Every node of the tree, at its own row or below a walk. *)
#[warnings="-register-all"]
Inductive where_every (Q : WhereNode → Prop) : WhereNode → Prop :=
| we_node w : Q w → Forall (where_every Q) (where_children w) →
    Forall (where_every Q) (where_subtrees w) → where_every Q w.

Lemma where_every_impl (P Q : WhereNode → Prop) w : (∀ w, P w → Q w) →
  where_every P w → where_every Q w.
Proof.
  intros HPQ. induction w as [w Hc Hs] using WhereNode_nested_ind. inversion 1; subst.
  rewrite Forall_forall in Hc, Hs. constructor; [auto|..]; eapply Forall_forall; intros c Hin.
  - apply Hc; [done|]. eapply Forall_forall; [|exact Hin]. done.
  - apply Hs; [done|]. eapply Forall_forall; [|exact Hin]. done.
Qed.

Lemma where_every_and (P Q : WhereNode → Prop) w :
  where_every P w → where_every Q w → where_every (λ w, P w ∧ Q w) w.
Proof.
  induction w as [w Hc Hs] using WhereNode_nested_ind.
  inversion 1 as [? HP HPc HPs]; inversion 1 as [? HQ HQc HQs]; subst.
  rewrite Forall_forall in *. constructor; [done|..]; apply Forall_forall; auto.
Qed.

Lemma foldl_omap {A B} (f : B → A → B) (l : list (option A)) : ∀ b,
  foldl (λ b o, match o with Some a => f b a | None => b end) b l = foldl f b (omap id l).
Proof. induction l as [|[a|] l IH]; intros b; cbn; [done|apply IH|apply IH]. Qed.

Section Wheres.
Context `{Host}.

(** What the evaluation of one node needs of the run. *)
Definition node_typed (regexes : gmap MatchesLeaf regexp) (cmps : gmap CompareLeaf compareResolution)
    (w : WhereNode) : Prop :=
  from_option (λ l, is_Some (regexes !! l)) True (WMatches w) ∧
  Forall (λ path, path_typed (splitFieldPath path)) (whereNodeOwnPaths w) ∧
  from_option (λ l, is_Some (cmps !! l)) True (WCompare w).

Definition where_typed regexes cmps (w : WhereNode) : Prop := where_every (node_typed regexes cmps) w.

(** *** The patterns *)

Definition matches_in (m : gmap MatchesLeaf regexp) (w : WhereNode) : Prop :=
  from_option (λ l, is_Some (m !! l)) True (WMatches w).

Lemma compileWhereTree_eq w into :
  compileWhereTree w into =
    let r := foldl (λ r c, and_then r (compileWhereTree c)) (into, None)
               (where_children w ++ where_subtrees w) in
    match WMatches w with
    | None => r
    | Some l =>
        and_then r (λ m, match compileRegex (MatchesRegex l) with
                         | Ok re => (<[l := re]> m, None)
                         | Err e => (m, Some (l, e))
                         end)
    end.
Proof.
  assert (Hsub : ∀ l r, foldl (λ r o, and_then r (λ m, match o with
      Some c => compileWhereTree c m | None => (m, None) end)) r l
    = foldl (λ r c, and_then r (compileWhereTree c)) r (omap id l)).
  { induction l as [|[c|] l IH]; intros r; cbn [foldl omap list_omap id]; [done|apply IH|].
    rewrite IH. f_equal. unfold and_then. by destruct r as [m [e|]]. }
  destruct w as [wall wany wnot k m e x c anc desc].
  unfold where_children, where_subtrees, option_list. cbn [compileWhereTree WAll WAny WNot WMatches WAncestor WDescendant].
  rewrite !foldl_app, !Hsub.
  destruct wnot as [?|], anc as [[? [?|]]|], desc as [[? [?|]]|]; done.
Qed.

(** What a compilation leaves: more patterns, and those of the tree unless it failed. *)
Lemma compile_spec w : ∀ into,
  dom into ⊆ dom (compileWhereTree w into).1 ∧
  ((compileWhereTree w into).2 = None → where_every (matches_in (compileWhereTree w into).1) w).
Proof.
  assert (Hmono : ∀ (m m' : gmap MatchesLeaf regexp) w, dom m ⊆ dom m' → matches_in m w → matches_in m' w).
  { intros m m' w' Hd. unfold matches_in. destruct (WMatches w') as [l|]; [|done]. cbn.
    rewrite <- !elem_of_dom. set_solver. }
  assert (Hlist : ∀ l, Forall (λ c, ∀ into, dom into ⊆ dom (compileWhereTree c into).1 ∧
      ((compileWhereTree c into).2 = None → where_every (matches_in (compileWhereTree c into).1) c)) l →
    ∀ r, let r' := foldl (λ r c, and_then r (compileWhereTree c)) r l in
      dom r.1 ⊆ dom r'.1 ∧ (r'.2 = None → r.2 = None ∧ Forall (where_every (matches_in r'.1)) l)).
  { induction 1 as [|c l Hc _ IH]; intros r; cbn [foldl]; cbv zeta; [done|].
    destruct (IH (and_then r (compileWhereTree c))) as [IH1 IH2]. cbv zeta in IH1, IH2.
    destruct (Hc r.1) as [Hc1 Hc2]. unfold and_then in *. destruct r as [m [err|]]; cbn [fst snd] in *.
    - split; [done|]. intros Hr. by destruct (IH2 Hr) as [? _].
    - split; [set_solver|]. intros Hr. destruct (IH2 Hr) as [Hn Hall]. split; [done|].
      constructor; [|done]. apply (where_every_impl (matches_in (compileWhereTree c m).1)); [|auto].
      intros w'. by apply Hmono. }
  induction w as [w Hc Hs] using WhereNode_nested_ind. intros into. rewrite compileWhereTree_eq. cbv zeta.
  destruct (Hlist (where_children w ++ where_subtrees w) (Forall_app_2 _ _ _ Hc Hs) (into, None)) as [H1 H2].
  cbv zeta in H1, H2. set (r := foldl _ _ _) in *. cbn [fst snd] in *.
  destruct (WMatches w) as [l|] eqn:Hl; unfold and_then.
  - destruct r as [m [err|]] eqn:Hr; cbn [fst snd] in *; [done|].
    destruct (compileRegex (MatchesRegex l)) as [re|]; cbn [fst snd]; [|done]. split; [set_solver|]. intros _.
    destruct (H2 eq_refl) as [_ [Hch Hsub]%Forall_app]. constructor.
    + unfold matches_in. rewrite Hl. cbn. by rewrite lookup_insert_eq.
    + eapply Forall_impl; [exact Hch|]. intros c. apply where_every_impl. intros w'. apply Hmono. set_solver.
    + eapply Forall_impl; [exact Hsub|]. intros c. apply where_every_impl. intros w'. apply Hmono. set_solver.
  - split; [done|]. intros Hr. destruct (H2 Hr) as [_ [Hch Hsub]%Forall_app]. constructor; [|done..].
    unfold matches_in. by rewrite Hl.
Qed.

(** *** The check of a tree *)

Definition check_edge_leaf (p : Position) (site : string) (l : option (string * option WhereNode))
    (v : sourceValidator) : sourceValidator :=
  match l with
  | None => v
  | Some (edge, o) =>
      let v := if contains (edgeTypes (census v)) edge then v
               else refuseVocabulary p site censusEdgeType edge v in
      match o with Some c => checkWhereNode p c v | None => v end
  end.

Definition check_kinds (p : Position) (k : option KindLeaf) (v : sourceValidator) : sourceValidator :=
  match k with
  | None => v
  | Some k => foldl (λ v want, if contains (nodeTypes (census v)) want then v
                               else refuseVocabulary p "kind leaf" censusNodeType want v) v (KindIs k)
  end.

Definition check_compare (p : Position) (c : option CompareLeaf) (v : sourceValidator) : sourceValidator :=
  match c with Some c => checkCompareLeaf c p v | None => v end.

Definition check_sub (p : Position) (v : sourceValidator) (o : option WhereNode) : sourceValidator :=
  match o with Some c => checkWhereNode p c v | None => v end.

Lemma checkWhereNode_unfold p w v :
  checkWhereNode p w v =
    check_compare p (WCompare w) (check_edge_leaf p "descendant leaf" (WDescendant w)
      (check_edge_leaf p "ancestor leaf" (WAncestor w)
        (foldl (λ v path, checkFieldPath path p "where-tree" v)
          (check_kinds p (WKind w)
            (check_sub p (foldl (check_sub p) (foldl (check_sub p) v (WAll w)) (WAny w)) (WNot w)))
          (whereNodeOwnPaths w)))).
Proof. destruct w. reflexivity. Qed.

Lemma checkWhereNode_eq p w v :
  checkWhereNode p w v =
    check_compare p (WCompare w) (check_edge_leaf p "descendant leaf" (WDescendant w)
      (check_edge_leaf p "ancestor leaf" (WAncestor w)
        (foldl (λ v path, checkFieldPath path p "where-tree" v)
          (check_kinds p (WKind w) (foldl (λ v c, checkWhereNode p c v) v (where_children w)))
          (whereNodeOwnPaths w)))).
Proof.
  rewrite checkWhereNode_unfold. unfold where_children. rewrite !foldl_app, <- !foldl_omap.
  by destruct (WNot w).
Qed.

Lemma check_kinds_grows p k v : grows v (check_kinds p k v).
Proof.
  destruct k as [k|]; [|reflexivity]. apply grows_foldl. intros v' want.
  destruct (contains _ _); eauto with grows.
Qed.

Lemma compareOp_applies name o : compareOp name = Some o → declinedCompareOps o = false.
Proof.
  unfold compareOp. case_bool_decide; [done|]. intros ([i [k o']] & _ & Ho)%bind_Some.
  destruct (declinedCompareOps o') eqn:E; [done|]. by injection Ho as <-.
Qed.

Lemma check_compare_grows p c v : grows v (check_compare p c v).
Proof.
  destruct c as [c|]; [|reflexivity]. cbn. unfold checkCompareLeaf.
  destruct (compareOp _) as [o|] eqn:Ho; [|apply grows_add].
  destruct (parseNumericOperand _); [|apply grows_add].
  split; cbn; [done|done|set_solver|done|]. intros Hv l r. cbn [compares].
  destruct (decide (l = c)) as [->|Hne]; [rewrite lookup_insert_eq; intros [= <-]|
    rewrite lookup_insert_ne by done; apply Hv]. by apply compareOp_applies in Ho.
Qed.

Lemma check_edge_leaf_grows p site l v :
  from_option (λ c, ∀ v, grows v (checkWhereNode p c v)) True (l ≫= snd) →
  grows v (check_edge_leaf p site l v).
Proof.
  destruct l as [[edge o]|]; [|reflexivity]. cbn. intros Ho.
  etrans; [|destruct o as [c|]; [apply Ho|reflexivity]]. destruct (contains _ _); eauto with grows.
Qed.

Lemma option_subtrees (Q : WhereNode → Prop) w : Forall Q (where_subtrees w) →
  from_option Q True (WAncestor w ≫= snd) ∧ from_option Q True (WDescendant w ≫= snd).
Proof.
  unfold where_subtrees, option_list. intros [H1 H2]%Forall_app.
  split; [destruct (WAncestor w ≫= snd)|destruct (WDescendant w ≫= snd)]; cbn in *; try done;
    by apply Forall_singleton.
Qed.

Lemma foldl_checks_grow p l : Forall (λ c, ∀ v, grows v (checkWhereNode p c v)) l → ∀ v,
  grows v (foldl (λ v c, checkWhereNode p c v) v l).
Proof.
  induction 1 as [|c l Hc _ IH]; intros v; cbn [foldl]; [reflexivity|]. etrans; [apply Hc|apply IH].
Qed.

Lemma checkWhereNode_grows p w : ∀ v, grows v (checkWhereNode p w v).
Proof.
  induction w as [w Hc Hs] using WhereNode_nested_ind. intros v. rewrite checkWhereNode_eq.
  apply option_subtrees in Hs as [Ha Hd].
  etrans; [apply (foldl_checks_grow p _ Hc)|]. etrans; [apply (check_kinds_grows p (WKind w))|].
  etrans; [apply (grows_foldl (λ v path, checkFieldPath path p "where-tree" v) (whereNodeOwnPaths w));
    intros; apply checkFieldPath_grows|].
  etrans; [by apply (check_edge_leaf_grows p "ancestor leaf" (WAncestor w))|].
  etrans; [by apply (check_edge_leaf_grows p "descendant leaf" (WDescendant w))|].
  apply check_compare_grows.
Qed.

(** What the check of a tree settles, apart from its patterns. *)
Definition node_checked (v : sourceValidator) (w : WhereNode) : Prop :=
  Forall (λ path, path_typed (splitFieldPath path)) (whereNodeOwnPaths w) ∧
  from_option (λ l, is_Some (compares v !! l)) True (WCompare w).

Lemma node_checked_grows v v' w : grows v v' →
  where_every (node_checked v) w → where_every (node_checked v') w.
Proof.
  intros [_ _ Hd _ _]. apply where_every_impl. intros w' [Hp Hc]. split; [done|].
  destruct (WCompare w') as [l|]; [|done]. cbn in *. rewrite <- !elem_of_dom in *. set_solver.
Qed.

Lemma check_edge_leaf_accepts p site l v Q :
  from_option (λ c, ∀ v, violations (checkWhereNode p c v) = [] → Q (checkWhereNode p c v) c)
    True (l ≫= snd) →
  violations (check_edge_leaf p site l v) = [] →
  from_option (Q (check_edge_leaf p site l v)) True (l ≫= snd).
Proof. destruct l as [[edge [c|]]|]; cbn; auto. Qed.

Lemma checkWhereNode_accepts p w : ∀ v, violations (checkWhereNode p w v) = [] →
  where_every (node_checked (checkWhereNode p w v)) w.
Proof.
  induction w as [w Hc Hs] using WhereNode_nested_ind. intros v Hv.
  rewrite checkWhereNode_eq in *. apply option_subtrees in Hs as [Ha Hd].
  assert (Hg : ∀ v c, grows v (checkWhereNode p c v)) by (intros; apply checkWhereNode_grows).
  assert (Hl : ∀ site l v, grows v (check_edge_leaf p site l v)).
  { intros site l v'. apply check_edge_leaf_grows. destruct l as [[? [?|]]|]; cbn; auto. }
  assert (Hp : ∀ v path, grows v (checkFieldPath path p "where-tree" v))
    by (intros; apply checkFieldPath_grows).
  set (v1 := foldl _ v (where_children w)) in *. set (v2 := check_kinds p (WKind w) v1) in *.
  set (v3 := foldl _ v2 (whereNodeOwnPaths w)) in *.
  set (v4 := check_edge_leaf p _ (WAncestor w) v3) in *.
  set (v5 := check_edge_leaf p _ (WDescendant w) v4) in *.
  set (v6 := check_compare p (WCompare w) v5) in *.
  assert (G6 : grows v5 v6) by apply check_compare_grows.
  assert (G5 : grows v4 v5) by apply Hl. assert (G4 : grows v3 v4) by apply Hl.
  assert (G3 : grows v2 v3) by by apply grows_foldl.
  assert (G2 : grows v1 v2) by apply check_kinds_grows.
  assert (V5 : violations v5 = []) by by apply G6. assert (V4 : violations v4 = []) by by apply G5.
  assert (V3 : violations v3 = []) by by apply G4.
  assert (V1 : violations v1 = []) by by apply G2, G3.
  assert (G16 : grows v1 v6) by (do 4 (etrans; [eassumption|]); done).
  constructor.
  - split.
    + apply (foldl_accepts (λ v path, checkFieldPath path p "where-tree" v)
        (λ _ path, path_typed (splitFieldPath path)) _ Hp) in V3; [done| |done].
      intros v' path _. apply checkFieldPath_accepts.
    + unfold v6, check_compare in *. destruct (WCompare w) as [l|]; [|done]. cbn in *.
      unfold checkCompareLeaf in *. destruct (compareOp _); [|by apply refused in Hv].
      destruct (parseNumericOperand _); [|by apply refused in Hv]. cbn. by rewrite lookup_insert_eq.
  - rewrite Forall_forall in Hc.
    apply (foldl_accepts (λ v c, checkWhereNode p c v) (λ v c, where_every (node_checked v) c) _ Hg) in V1.
    + eapply Forall_impl; [exact V1|]. intros c. by apply node_checked_grows.
    + intros v' c Hin. by apply Hc.
    + intros v' v'' c. apply node_checked_grows.
  - apply check_edge_leaf_accepts with (Q := λ v c, where_every (node_checked v) c) in V4; [|done].
    apply check_edge_leaf_accepts with (Q := λ v c, where_every (node_checked v) c) in V5; [|done].
    unfold where_subtrees, option_list. apply Forall_app. split.
    + destruct (WAncestor w ≫= snd) as [c|]; cbn in *; constructor; [|constructor].
      apply (node_checked_grows v4); [by etrans|done].
    + destruct (WDescendant w ≫= snd) as [c|]; cbn in *; constructor; [|constructor].
      by apply (node_checked_grows v5).
Qed.
End Wheres.

(** ** The evaluation of where-trees *)

Section EvalWheres.
Context `{Host}.

(** No path reads the empty name. *)
Definition names_scope (Γ : scope) : Prop := ∀ L, Γ = Some L → "" ∉ L.

(** What was resolved before the run can be applied. *)
Definition applicable (env : Env) : Prop :=
  ∀ l r, whereCompares env !! l = Some r → declinedCompareOps (op r) = false.

Lemma safe_readOf env Γ r of_ : names_scope Γ → in_scope Γ r → path_typed (splitFieldPath of_) →
  visible Γ (splitFieldPath of_) → safe (readOf env (Some r) of_).
Proof.
  intros Hn Hr Ht Hv. unfold readOf. destruct (decide (of_ = "")) as [->|_].
  - destruct Hv as [Hp|(L & -> & HL)]; [done|]. by destruct (Hn L).
  - by apply (safe_evalField env Γ).
Qed.

Lemma path_typed_type path : path_typed path → path_typed (path ++ ["type"]).
Proof.
  destruct path as [|head rest]; [done|]. cbn. intros Ht Hedge. destruct (Ht Hedge) as [Hne Hev].
  destruct rest as [|k [|? ?]]; done.
Qed.

Lemma visible_app Γ path l : path ≠ [] → visible Γ path → visible Γ (path ++ l).
Proof. by destruct path. Qed.

Lemma safe_edge_leaf test sv row edgeType dir :
  (∀ r, is_Some (REdge r) → safe (test r)) → safe (evalEdgeLeaf test sv row edgeType dir).
Proof.
  intros Ht. unfold evalEdgeLeaf. destruct row as [r|]; [|done]. case_decide; [done|].
  assert (Hhops : ∀ hops visited next, safe (walk_hops test (Vars r) sv hops visited next)).
  { induction hops as [|h hops IH]; intros visited next; cbn [walk_hops]; [done|]. case_decide; [apply IH|].
    destruct (nodeByID sv (NeighborID h)) as [node|]; [|apply IH].
    pose proof (Ht (mkRow (NeighborID h) node (Vars r) (Some (Via h))) ltac:(by eexists)) as Hs.
    destruct (test _) as [[]|]; [done|apply IH|exact Hs]. }
  assert (Hfront : ∀ frontier visited next,
    safe (walk_frontier test (Vars r) sv edgeType dir frontier visited next)).
  { induction frontier as [|id frontier IH]; intros visited next; cbn [walk_frontier]; [done|].
    specialize (Hhops (edgesAlong sv id edgeType dir) visited next).
    destruct (walk_hops _ _ _ _ _ _) as [[[v n]|]|]; [apply IH|done|exact Hhops]. }
  generalize maxWhereWalkDepth, ({[NodeID r]} : gset string), [NodeID r].
  induction n as [|n IH]; intros visited frontier; cbn [walk_levels]; [done|]. case_decide; [done|].
  specialize (Hfront frontier visited []).
  destruct (walk_frontier _ _ _ _ _ _ _ _) as [[[v f]|]|]; [apply IH|done|exact Hfront].
Qed.

Lemma safe_compare env Γ r leaf : applicable env → names_scope Γ → in_scope Γ r →
  is_Some (whereCompares env !! leaf) → path_typed (splitFieldPath (CompareOf leaf)) →
  visible Γ (splitFieldPath (CompareOf leaf)) → safe (evalCompareLeaf env (Some r) leaf).
Proof.
  intros Happ Hn Hr [res Hres] Ht Hv. unfold evalCompareLeaf. rewrite Hres.
  apply safe_bind; [by apply (safe_readOf env Γ)|]. intros v. case_decide; [done|].
  destruct (parseNumericOperand v); [|done]. specialize (Happ _ _ Hres).
  unfold compareOrdered. by destruct (op res).
Qed.

Lemma safe_evalWhereTree env sv w : ∀ Γ r, applicable env → names_scope Γ → in_scope Γ r →
  where_typed (whereRegexes env) (whereCompares env) w → where_scoped Γ w →
  safe (evalWhereTree env sv w (Some r)).
Proof.
  induction w as [w Hc Hs] using WhereNode_nested_ind. intros Γ r Happ Hn Hr Ht Hv.
  inversion Ht as [? (Hm & Hpaths & Hcmp) Htc Hts]; inversion Hv as [? ? Hvc Hvp Hvs]; subst.
  rewrite Forall_forall in Hc, Hs, Htc, Hts, Hvc, Hvs.
  assert (Hchild : ∀ c, c ∈ where_children w → safe (evalWhereTree env sv c (Some r)))
    by (intros c Hin; apply (Hc c Hin Γ); [done..|by apply Htc|by apply Hvc]).
  assert (Hbelow : ∀ c, c ∈ where_subtrees w → ∀ r', is_Some (REdge r') →
    safe (evalWhereTree env sv c (Some r'))).
  { intros c Hin r' Hr'. apply (Hs c Hin walked_scope); [done| | |by apply Hts|by apply Hvs].
    - intros L [= <-]. set_solver.
    - by intros L _ _. }
  clear Hc Hs Htc Hts Hvc Hvs Ht Hv. unfold where_children, where_subtrees in *.
  rewrite Forall_forall in Hpaths, Hvp.
  assert (Hread : ∀ of_, of_ ∈ whereNodeOwnPaths w → safe (readOf env (Some r) of_))
    by (intros of_ Hin; apply (safe_readOf env Γ); auto).
  unfold whereNodeOwnPaths, own in *.
  destruct w as [wall wany wnot k m e x c anc desc].
  cbn [evalWhereTree WAll WAny WNot WKind WMatches WEquals WExists WCompare WAncestor WDescendant] in *.
  repeat apply safe_both.
  - apply safe_all_of. intros [a|] Ha; [|done]. apply Hchild. rewrite !elem_of_app. left.
    apply list_elem_of_omap. by exists (Some a).
  - case_decide; [done|]. apply safe_any_of. intros [a|] Ha; [|done]. apply Hchild.
    rewrite !elem_of_app. right; left. apply list_elem_of_omap. by exists (Some a).
  - destruct wnot as [a|]; [|done]. apply safe_bind; [|done]. apply Hchild. rewrite !elem_of_app.
    right; right. by left.
  - destruct k as [leaf|]; [|done]. cbn. unfold evalKindLeaf.
    assert (Hin : KindOf leaf ∈ KindOf leaf :: from_option (λ x, [MatchesOf x]) [] m
      ++ from_option (λ x, [EqualsOf x]) [] e ++ from_option (λ x, [ExistsOf x]) [] x
      ++ from_option (λ x, [CompareOf x]) [] c) by by left.
    specialize (Hpaths _ Hin). specialize (Hvp _ Hin). destruct (decide (KindOf leaf = "")) as [Hk|_].
    + rewrite Hk in Hvp. destruct Hvp as [Hp|(L & -> & HL)]; [done|]. by destruct (Hn L).
    + apply safe_bind; [|done]. apply (safe_evalField env Γ); [by apply path_typed_type| |done].
      apply visible_app; [by intros Hk; rewrite Hk in Hpaths|done].
  - destruct m as [leaf|]; [|done]. destruct Hm as [re Hre]. cbn. unfold evalMatchesLeaf. rewrite Hre.
    apply safe_bind; [|done]. apply Hread. set_solver.
  - destruct e as [leaf|]; [|done]. cbn. apply safe_bind; [|done]. apply Hread. set_solver.
  - destruct x as [leaf|]; [|done]. cbn. apply safe_bind; [|done]. apply Hread. set_solver.
  - destruct anc as [[edge [a|]]|]; [| |done]; apply safe_edge_leaf; [|done].
    intros r' Hr'. apply Hbelow; [|done]. by left.
  - destruct desc as [[edge [a|]]|]; [| |done]; apply safe_edge_leaf; [|done].
    intros r' Hr'. apply Hbelow; [|done]. apply elem_of_app. right. by left.
  - destruct c as [leaf|]; [|done]. cbn in Hcmp |- *.
    apply (safe_compare env Γ); auto; [apply Hpaths|apply Hvp]; rewrite !elem_of_app; set_solver.
Qed.
End EvalWheres.

(** ** Rules *)

Section Rules.
Context `{Host}.

Definition rule_typed regexes cmps (rule : Rule) : Prop :=
  match rule with
  | RuleSelect ty w _ => ty ≠ "" ∧ ty ≠ edgeHead ∧ from_option (where_typed regexes cmps) True w
  | RuleFilter w _ => where_typed regexes cmps w
  | RuleBind _ e _ | RuleGroupBy e _ | RuleLookup _ e _ _ | RuleSourceRef e _ => expr_typed e
  | RuleEmit _ fields _ _ => map_Forall (λ _, expr_typed) fields
  | RuleLink from _ to _ => expr_typed from ∧ expr_typed to
  | RuleTraverse _ _ _ _ | RuleWalk _ _ _ => True
  end.

(** *** The check establishes the judgement *)

Lemma checkWhereTree_grows w p v : grows v (checkWhereTree w p v).
Proof.
  destruct w as [w|]; [|reflexivity]. cbn. destruct (compileWhereTree w (compiled v)) as [m err] eqn:Hc.
  destruct (compile_spec w (compiled v)) as [Hd _]. rewrite Hc in Hd.
  etrans; [|apply checkWhereNode_grows].
  assert (Hg : grows v (mkValidator (census v) (violations v) m (compares v))) by by split.
  destruct err as [[l e]|]; [|exact Hg]. etrans; [exact Hg|apply grows_add].
Qed.

Lemma checkWhereTree_accepts w p v : let v' := checkWhereTree (Some w) p v in
  violations v' = [] → where_typed (compiled v') (compares v') w.
Proof.
  cbn. destruct (compileWhereTree w (compiled v)) as [m err] eqn:Hc.
  destruct (compile_spec w (compiled v)) as [_ Hm]. rewrite Hc in Hm. cbn [fst snd] in Hm. intros Hv.
  pose proof (checkWhereNode_accepts p w _ Hv) as Hnode.
  assert (Herr : err = None).
  { destruct err as [[l e]|]; [|done]. apply (grows_accepts _ _ (checkWhereNode_grows p w _)) in Hv.
    by apply refused in Hv. }
  subst. specialize (Hm eq_refl). pose proof (checkWhereNode_grows p w
    (mkValidator (census v) (violations v) m (compares v))) as [_ Hd _ _ _]. cbn [compiled] in Hd.
  unfold where_typed. eapply where_every_impl; [|exact (where_every_and _ _ _ Hm Hnode)].
  intros w' [Hmatch [Hpaths Hcmp]]. split; [|done]. unfold matches_in in Hmatch.
  destruct (WMatches w') as [l|]; [|done]. cbn in *. rewrite <- !elem_of_dom in *. set_solver.
Qed.

Lemma where_typed_grows v v' w : grows v v' →
  where_typed (compiled v) (compares v) w → where_typed (compiled v') (compares v') w.
Proof.
  intros [_ Hd Hd' _ _]. apply where_every_impl. intros w' (Hm & Hp & Hc). split; [|split; [done|]].
  - destruct (WMatches w') as [l|]; [|done]. cbn in *. rewrite <- !elem_of_dom in *. set_solver.
  - destruct (WCompare w') as [l|]; [|done]. cbn in *. rewrite <- !elem_of_dom in *. set_solver.
Qed.

Lemma rule_typed_grows v v' rule : grows v v' →
  rule_typed (compiled v) (compares v) rule → rule_typed (compiled v') (compares v') rule.
Proof.
  intros Hg. destruct rule; cbn; try done.
  - intros (H1 & H2 & H3). split; [done|]. split; [done|]. destruct Where; [|done].
    by apply (where_typed_grows v).
  - by apply where_typed_grows.
Qed.

Lemma checkRule_grows v rule : grows v (checkRule v rule).
Proof.
  assert (Hv : ∀ v site kind p value list, grows v
    (if contains list value then v else refuseVocabulary p site kind value v)).
  { intros. destruct (contains _ _); eauto with grows. }
  destruct rule; cbn [checkRule]; auto using checkExpr_grows, checkWhereTree_grows.
  - etrans; [apply Hv|apply checkWhereTree_grows].
  - etrans; [|apply grows_foldl; intros v' name; destruct (Fields !! name);
      [apply checkExpr_grows|reflexivity]].
    unfold checkEmitNodeType. destruct (IsEnrolled _); eauto with grows.
  - etrans; apply checkExpr_grows.
Qed.

(** The census of a graph without a node of type [edge] does not list it. *)
Definition no_edge_type (v : sourceValidator) : Prop := edgeHead ∉ nodeTypes (census v).

Lemma checkRule_accepts all v rule : no_edge_type v → rule_ok all rule →
  violations (checkRule v rule) = [] →
  rule_typed (compiled (checkRule v rule)) (compares (checkRule v rule)) rule.
Proof.
  intros Hedge [_ Hok] Hv. destruct rule; cbn [checkRule rule_typed] in *; try done;
    try (by eapply checkExpr_accepts).
  - split; [by intros ->|]. split.
    + intros ->. unfold contains, no_edge_type in *. rewrite bool_decide_false in Hv by done.
      apply (grows_accepts _ _ (checkWhereTree_grows _ _ _)) in Hv. by apply refused in Hv.
    + destruct Where as [w|]; [|done]. cbn [from_option]. by apply checkWhereTree_accepts.
  - by apply checkWhereTree_accepts.
  - intros name e He. destruct Hok as [_ Hok]. specialize (Hok name e He). cbn in Hok.
    assert (Hg : ∀ v name, grows v match Fields !! name with Some e => checkExpr e v | None => v end).
    { intros v' n'. destruct (Fields !! n'); [apply checkExpr_grows|reflexivity]. }
    apply (foldl_accepts _ (λ _ name, ∀ e, Fields !! name = Some e → expr_ok all e → expr_typed e) _ Hg) in Hv.
    + rewrite Forall_forall in Hv. apply (Hv name); [|done..]. by apply elem_of_sorted_names.
    + intros v' n' _ Hv' e' He' Hok'. rewrite He' in Hv'. by eapply checkExpr_accepts.
    + auto.
  - destruct Hok as [Hf Ht]. split; [|by eapply checkExpr_accepts].
    eapply checkExpr_accepts; [done|]. eapply grows_accepts; [apply checkExpr_grows|done].
Qed.

Lemma validate_typed all rules sv : Forall (rule_ok all) rules → byType sv !! edgeHead = None →
  let v := foldl checkRule (mkValidator (buildCensus sv) [] ∅ ∅) rules in
  violations v = [] → Forall (rule_typed (compiled v) (compares v)) rules.
Proof.
  intros Hok Hedge v Hv. subst v.
  apply (foldl_accepts checkRule (λ v rule, no_edge_type v → rule_typed (compiled v) (compares v) rule)
    rules checkRule_grows) in Hv.
  - rewrite Forall_forall in *. intros rule Hin. apply (Hv rule Hin). unfold no_edge_type.
    rewrite (grows_census _ _ (grows_foldl checkRule rules checkRule_grows _)). cbn.
    rewrite elem_of_sort_strings. intros ([k ns] & Hty & Hk)%list_elem_of_fmap.
    apply elem_of_map_to_list in Hk. cbn in Hty. congruence.
  - rewrite Forall_forall in Hok. intros v rule Hin Hv' Hno. eapply checkRule_accepts; [|by apply Hok|done].
    unfold no_edge_type in *. by rewrite (grows_census _ _ (checkRule_grows v rule)) in Hno.
  - intros v v' rule Hg Ht Hno. apply (rule_typed_grows v); [done|]. apply Ht. unfold no_edge_type in *.
    by rewrite (grows_census _ _ Hg) in Hno.
Qed.
End Rules.

(** ** Runs *)

Lemma safe_filter_rows test rows : (∀ r, r ∈ rows → safe (test r)) → safe (filter_rows test rows).
Proof.
  induction rows as [|r rows IH]; intros Ht; cbn [filter_rows]; [done|].
  apply safe_bind; [apply Ht; by left|]. intros ok. apply safe_bind; [|done].
  apply IH. intros. apply Ht. by right.
Qed.

Lemma filter_rows_sub test rows kept : filter_rows test rows = Ok kept → ∀ r, r ∈ kept → r ∈ rows.
Proof.
  revert kept. induction rows as [|r rows IH]; intros kept; cbn [filter_rows]; [by intros [= <-]|].
  destruct (test r) as [ok|]; [|done]. cbn [result_bind]. destruct (filter_rows test rows) as [kept'|]; [|done].
  intros [= <-] x Hx. destruct ok; [|right; by apply (IH kept')].
  apply elem_of_cons in Hx as [->|Hx]; [by left|right; by apply (IH kept')].
Qed.

Section Soundness.
Context `{Host} (sv : sourceView) (target : TargetSpec) (slug : string) (opts : Options).
Context (regexes : gmap MatchesLeaf regexp) (cmps : gmap CompareLeaf compareResolution).
Context (Happ : ∀ l r, cmps !! l = Some r → declinedCompareOps (op r) = false).

(** The environment of a run under the scope. *)
Record env_ok (Γ : scope) (env : Env) : Prop := {
  env_regexes : whereRegexes env = regexes;
  env_compares : whereCompares env = cmps;
  env_rows : Forall (in_scope Γ) (Rows env);
}.

Definition outcome_ok {A} (P : A → Prop) (r : fueled evalError A) : Prop :=
  match r with
  | Some (Ok a) => P a
  | Some (Err e) => ruled_out e = false
  | None => True
  end.

Lemma in_scope_edge Γ r : is_Some (REdge r) → in_scope Γ r.
Proof. by intros He L _ _. Qed.

Lemma in_scope_var Γ x v r : in_scope Γ r → in_scope Γ (set_row_var x v r).
Proof. done. Qed.

Lemma in_scope_select ty r : ty ≠ edgeHead → in_scope (selected_scope ty) r.
Proof. intros Hty L [= <-]. intros HL. exfalso. unfold edgeHead in *. set_solver. Qed.

Lemma install_ok Γ Γ' env rows : env_ok Γ env → safe rows →
  (∀ rs, rows = Ok rs → Forall (in_scope Γ') rs) → outcome_ok (env_ok Γ') (install env sv rows).
Proof.
  intros [H1 H2 _] Hs Hr. unfold install, sortRowsByDocumentOrder. destruct rows as [rs|e]; [|exact Hs].
  destruct (documentOrderIndex_returns sv) as [[rank|a] ->]; [|done]. split; [done..|]. cbn.
  rewrite SliceStable_perm. by apply Hr.
Qed.

Lemma evalSelect_ok Γ env ty w : env_ok Γ env → ty ≠ edgeHead → ty ≠ "" →
  from_option (where_typed regexes cmps) True w →
  from_option (where_scoped (selected_scope ty)) True w →
  outcome_ok (env_ok (selected_scope ty)) (evalSelect env ty w sv).
Proof.
  intros Hok He Hne Ht Hv. apply (install_ok Γ); [done| |].
  - destruct w as [w|]; [|done]. apply safe_filter_rows. intros r _.
    apply safe_evalWhereTree with (Γ := selected_scope ty).
    + unfold applicable. by rewrite (env_compares _ _ Hok).
    + intros L [= <-]. set_solver.
    + by apply in_scope_select.
    + by rewrite (env_regexes _ _ Hok), (env_compares _ _ Hok).
    + done.
  - intros rs _. apply Forall_forall. intros r _. by apply in_scope_select.
Qed.

Lemma evalTraverse_ok Γ Γ' env ty dir as_ : env_ok Γ env →
  outcome_ok (env_ok Γ') (evalTraverse env ty dir as_ sv).
Proof.
  intros Hok. unfold evalTraverse. destruct (parseDirection dir) as [d|e] eqn:Hd.
  - apply (install_ok Γ); [done..|]. intros rs [= <-]. apply Forall_forall.
    intros r (prev & Hr & _)%list_elem_of_bind. apply list_elem_of_omap in Hr as (h & _ & Hr).
    apply bind_Some in Hr as (node & _ & [= <-]). apply in_scope_edge. by eexists.
  - unfold parseDirection in Hd. repeat case_decide; try done. by injection Hd as <-.
Qed.

Lemma evalWalk_ok Γ Γ' env ty as_ : env_ok Γ env → outcome_ok (env_ok Γ') (evalWalk env ty as_ sv).
Proof.
  intros Hok. unfold evalWalk.
  destruct (walk_rows_subtrees sv ty as_ (Rows env) []) as (subtrees & -> & Hsub).
  apply (install_ok Γ); [done..|]. intros rs [= <-]. apply Forall_forall.
  intros r (rows & Hr & Hin)%list_elem_of_join.
  apply list_elem_of_lookup in Hin as [i Hi].
  destruct (Forall2_lookup_r _ _ _ _ _ Hsub Hi) as (prev & _ & _ & Hw & _).
  rewrite Forall_forall in Hw. destruct (Hw r Hr) as (e & _ & _ & He & _).
  apply in_scope_edge. rewrite He. by eexists.
Qed.

Lemma evalFilter_ok Γ env w : env_ok Γ env → names_scope Γ → where_typed regexes cmps w →
  where_scoped Γ w → outcome_ok (env_ok Γ) (Some (evalFilter env w sv)).
Proof.
  intros [H1 H2 Hr] Hn Ht Hv. rewrite Forall_forall in Hr. unfold evalFilter.
  assert (Hs : safe (filter_rows (λ r, evalWhereTree env sv w (Some r)) (Rows env))).
  { apply safe_filter_rows. intros r Hin. apply safe_evalWhereTree with (Γ := Γ); try done.
    - unfold applicable. by rewrite H2.
    - by apply Hr.
    - by rewrite H1, H2. }
  destruct (filter_rows _ _) as [kept|] eqn:Hf; [|exact Hs]. split; [done..|]. cbn.
  apply Forall_forall. intros r Hin. apply Hr. by eapply filter_rows_sub.
Qed.

Lemma evalBind_ok Γ env x e : env_ok Γ env → expr_typed e → expr_scoped Γ e →
  outcome_ok (env_ok Γ) (Some (evalBind env x e sv)).
Proof.
  intros [H1 H2 Hr] Ht Hv. unfold evalBind. destruct (Rows env) as [|r rows] eqn:Hrows.
  - pose proof (safe_evalExpr env Γ None sv e I Ht Hv) as Hs.
    destruct (evalExpr env None sv e) as [v|]; [|exact Hs]. split; [done..|]. cbn. by rewrite Hrows.
  - rewrite <- Hrows in *. rewrite Forall_forall in Hr.
    assert (Hs : safe (map_ok (λ r, evalExpr env (Some r) sv e) (Rows env))).
    { apply safe_map_ok. intros r' Hin. apply (safe_evalExpr env Γ); [by apply Hr|done..]. }
    rewrite Hrows in *. destruct (map_ok _ _) as [vs|]; [|exact Hs]. split; [done..|]. cbn [Rows set_vars set_rows result_bind].
    apply Forall_forall. intros r' Hin. apply elem_of_zip_with in Hin as (v & r0 & -> & _ & Hin).
    apply in_scope_var. by apply Hr.
Qed.

Lemma evalGroupBy_ok Γ env e : env_ok Γ env → expr_typed e → expr_scoped Γ e →
  outcome_ok (env_ok Γ) (Some (evalGroupBy env e sv)).
Proof.
  intros [H1 H2 Hr] Ht Hv. rewrite Forall_forall in Hr. unfold evalGroupBy.
  assert (Hs : safe (map_ok (λ r, evalExpr env (Some r) sv e) (Rows env))).
  { apply safe_map_ok. intros r Hin. apply (safe_evalExpr env Γ); [by apply Hr|done..]. }
  destruct (map_ok _ _) as [ks|]; [|exact Hs]. split; [done..|]. cbn [Rows set_rows result_bind].
  apply Forall_forall. intros r ([k r0] & -> & Hin)%list_elem_of_fmap.
  apply in_scope_var, Hr. destruct (first_by_spec (λ p : string * Row, Some p.1) (zip ks (Rows env)) [])
    as (_ & _ & Hsub). destruct (Hsub _ Hin) as [Hz _]. by apply elem_of_zip_r in Hz.
Qed.

Lemma evalSourceRef_ok Γ env e : env_ok Γ env → expr_typed e → expr_scoped Γ e →
  outcome_ok (env_ok Γ) (Some (evalSourceRef env e sv)).
Proof.
  intros [H1 H2 Hr] Ht Hv. unfold evalSourceRef.
  assert (Hrow : from_option (in_scope Γ) True (head (Rows env))).
  { destruct (Rows env) as [|r rows]; [done|]. by apply Forall_cons in Hr as [Hr _]. }
  pose proof (safe_evalExpr env Γ (head (Rows env)) sv e Hrow Ht Hv) as Hs.
  destruct (evalExpr env _ sv e) as [v|]; [|exact Hs]. by split.
Qed.

(** *** Rules over rows *)

(** An error, if there is one, is not ruled out. *)
Definition fine (err : option evalError) : Prop := from_option (λ e, ruled_out e = false) True err.

(** One row of a rule: the environment and the row keep what the next ones need. *)
Definition row_rule_ok (Γ : scope) (f : run → Row → row_outcome) : Prop :=
  ∀ st r, whereRegexes (env st) = regexes → whereCompares (env st) = cmps → in_scope Γ r →
    let '(st', r', err) := f st r in
    fine err ∧ whereRegexes (env st') = regexes ∧ whereCompares (env st') = cmps ∧ REdge r' = REdge r.

Lemma over_rows_safe Γ f st : row_rule_ok Γ f → env_ok Γ (env st) →
  let '(st', err) := over_rows f st in fine err ∧ env_ok Γ (env st').
Proof.
  intros Hf [H1 H2 Hr]. unfold over_rows.
  assert (Heach : ∀ rows st, whereRegexes (env st) = regexes → whereCompares (env st) = cmps →
    Forall (in_scope Γ) rows → let '(st', rows', err) := each_row f st rows in
    fine err ∧ whereRegexes (env st') = regexes ∧ whereCompares (env st') = cmps ∧ Forall (in_scope Γ) rows').
  { induction rows as [|r rows IH]; intros s1 E1 E2 Hrows; cbn [each_row]; [done|].
    apply Forall_cons in Hrows as [Hr0 Hrows]. specialize (Hf s1 r E1 E2 Hr0).
    destruct (f s1 r) as [[s2 r2] err]. destruct Hf as (Herr & F1 & F2 & Fe).
    assert (Hr2 : in_scope Γ r2) by (unfold in_scope; by rewrite Fe).
    destruct err as [e|]; [split; [done|]; split; [done|]; split; [done|by constructor]|].
    specialize (IH s2 F1 F2 Hrows). destruct (each_row f s2 rows) as [[s3 rows3] err3].
    destruct IH as (I1 & I2 & I3 & I4). split; [done|]. split; [done|]. split; [done|by constructor]. }
  specialize (Heach (Rows (env st)) st H1 H2 Hr). destruct (each_row _ _ _) as [[st' rows'] err].
  destruct Heach as (I1 & I2 & I3 & I4). by split.
Qed.

Lemma rememberEmit_keeps env x a b r : let '(env', r') := rememberEmit env x a b r in
  whereRegexes env' = whereRegexes env ∧ whereCompares env' = whereCompares env ∧ REdge r' = REdge r.
Proof. unfold rememberEmit. by case_decide. Qed.

Lemma emit_row_safe Γ offset cap ty fields as_ p : map_Forall (λ _, expr_typed) fields →
  map_Forall (λ _, expr_scoped Γ) fields →
  row_rule_ok Γ (emit_row sv (TargetKey target) slug (Extract opts) offset cap ty fields as_ p).
Proof.
  intros Ht Hv st r E1 E2 Hr. unfold emit_row.
  assert (Hs : safe (evalEmitFields (env st) r fields sv)).
  { unfold evalEmitFields. apply safe_bind; [|done]. apply safe_map_ok. intros [k e] Hin%elem_of_map_to_list.
    pose proof (safe_evalExpr (env st) Γ (Some r) sv e Hr (Ht k e Hin) (Hv k e Hin)) as Hs. cbn [fst snd].
    by destruct (evalExpr _ _ _ _). }
  destruct (evalEmitFields _ _ _ _) as [vals|e]; [|by repeat split].
  destruct (_ && _); [by repeat split|]. cbv zeta. case_decide; [by repeat split|].
  pose proof (rememberEmit_keeps (env st) as_ (NodeID r)
    (StableID (TargetKey target) slug ty (emitIdentity r vals)) r) as Hk.
  destruct (rememberEmit _ _ _ _ _) as [env' r']. destruct Hk as (K1 & K2 & K3). cbn [env].
  by rewrite K1, K2.
Qed.

Lemma lookup_row_safe Γ ty e as_ : expr_typed e → expr_scoped Γ e →
  row_rule_ok Γ (lookup_row sv (TargetKey target) slug ty e as_).
Proof.
  intros Ht Hv st r E1 E2 Hr. unfold lookup_row.
  pose proof (safe_evalExpr (env st) Γ (Some r) sv e Hr Ht Hv) as Hs.
  destruct (evalExpr _ _ _ _) as [id|err]; [|by repeat split].
  case_decide; [by repeat split|]. cbv zeta. case_decide; [by repeat split|].
  pose proof (rememberEmit_keeps (env st) as_ (NodeID r) (StableID (TargetKey target) slug ty id) r) as Hk.
  destruct (rememberEmit _ _ _ _ _) as [env' r']. destruct Hk as (K1 & K2 & K3). cbn [env].
  by rewrite K1, K2.
Qed.

Lemma link_row_safe Γ from rel to : expr_typed from → expr_scoped Γ from →
  expr_typed to → expr_scoped Γ to → row_rule_ok Γ (link_row sv from rel to).
Proof.
  intros Hf Hfv Ht Htv st r E1 E2 Hr. unfold link_row, resolveLinkEndpoint.
  pose proof (safe_evalExpr (env st) Γ (Some r) sv from Hr Hf Hfv) as Hs.
  destruct (evalExpr _ _ _ from) as [a|err]; [|by repeat split].
  pose proof (safe_evalExpr (env st) Γ (Some r) sv to Hr Ht Htv) as Hs'.
  destruct (evalExpr _ _ _ to) as [b|err]; [|by repeat split].
  cbv zeta. destruct (_ || _); [by repeat split|]. by destruct (_ || _).
Qed.

(** *** The loop over the rules *)

Lemma names_scope_step Γ rule Γ' : names_scope Γ → rule_typed regexes cmps rule →
  rule_scoped Γ rule Γ' → names_scope Γ'.
Proof.
  assert (Hext : ∀ l Γ, names_scope Γ → names_scope (extend l Γ)).
  { intros l [L|] Hn; intros L' [= <-]. rewrite elem_of_union, elem_of_list_to_set, list_elem_of_filter.
    intros [[? _]|HL]; [done|]. by apply (Hn L). }
  intros Hn Ht. inversion 1; subst; auto. intros L [= <-]. destruct Ht as (Hty & _ & _). set_solver.
Qed.

Lemma in_env_ok Γ st r o : outcome_ok (env_ok Γ) r → in_env st r = Some o →
  fine o.2 ∧ (o.2 = None → env_ok Γ (env o.1)).
Proof. destruct r as [[env'|e]|]; cbn; intros Hok [= <-]; done. Qed.

Lemma dispatchRule_safe Γ rule Γ' st o : env_ok Γ (env st) → names_scope Γ →
  rule_typed regexes cmps rule → rule_scoped Γ rule Γ' →
  dispatchRule sv target slug opts st rule = Some o →
  fine o.2 ∧ (o.2 = None → env_ok Γ' (env o.1)).
Proof.
  intros Hok Hn Ht Hv Hd. destruct rule; inversion Hv; subst; cbn [dispatchRule rule_typed] in *;
    try (eapply in_env_ok; [|exact Hd]).
  - destruct Ht as (H1 & H2 & H3). by apply (evalSelect_ok Γ).
  - by apply (evalTraverse_ok Γ).
  - by apply (evalWalk_ok Γ).
  - by apply evalFilter_ok.
  - by apply evalBind_ok.
  - by apply evalGroupBy_ok.
  - injection Hd as <-. unfold evalEmit, effectiveOffset. destruct (Offset opts <? 0); [done|].
    match goal with |- context [over_rows ?f st] => pose proof (over_rows_safe Γ' f st) as Hs end.
    destruct (over_rows _ _) as [st' err]. cbn. destruct Hs; [by apply emit_row_safe|done|by split].
  - injection Hd as <-. unfold evalLookup.
    match goal with |- context [over_rows ?f st] => pose proof (over_rows_safe Γ' f st) as Hs end.
    destruct (over_rows _ _) as [st' err]. cbn. destruct Hs; [by apply lookup_row_safe|done|by split].
  - injection Hd as <-. unfold evalLink. destruct Ht as [Hf Ht].
    match goal with |- context [over_rows ?f st] => pose proof (over_rows_safe Γ' f st) as Hs end.
    destruct (over_rows _ _) as [st' err]. cbn. destruct Hs; [by apply link_row_safe|done|by split].
  - by apply evalSourceRef_ok.
Qed.

Lemma run_rules_safe rules : ∀ Γ st o, env_ok Γ (env st) → names_scope Γ →
  Forall (rule_typed regexes cmps) rules → rules_scoped Γ rules →
  run_rules sv target slug opts st rules = Some o → fine o.2.
Proof.
  induction rules as [|rule rules IH]; intros Γ st o Hok Hn Ht Hv; cbn [run_rules]; [by intros [= <-]|].
  apply Forall_cons in Ht as [Ht Hts]. inversion Hv as [|? Γ' ? ? Hr Hrs]; subst.
  destruct (dispatchRule _ _ _ _ _ _) as [[st' err]|] eqn:Hd; [|done].
  destruct (dispatchRule_safe Γ rule Γ' st _ Hok Hn Ht Hr Hd) as [Hf Hnext]. cbn [fst snd] in *.
  destruct err as [e|]; [by intros [= <-]|].
  apply (IH Γ'); auto. by apply (names_scope_step Γ rule).
Qed.
End Soundness.

(** C4: On a source none of whose nodes has the type [edge], a recipe that parses and passes the
    check of its source does not go wrong: whatever the run fails of, it is not a path, a
    builtin, a pattern or a comparison that the check was to settle.  The condition is needed: a
    node of the type [edge] shares its name with the edge of a walk, and a recipe that selects it
    is accepted and goes wrong ([edge_typed_node_goes_wrong]). *)
Theorem accepted_recipes_do_not_go_wrong `{Host} (strictUnmarshal : string → result string WhereNode)
    (src : list ascii) (recipe : Recipe) (sv : sourceView) (target : TargetSpec) (slug : string)
    (opts : Options) (result : Result) (e : evalError)
    (Hparse : Parse strictUnmarshal src = Some (Ok recipe))
    (Hedge : byType sv !! edgeHead = None)
    (Hrun : Interpret recipe sv target slug opts = Some (Ok (result, Some e))) :
  ruled_out e = false.
Proof.
  destruct (Parse_spec strictUnmarshal src) as (r & Hr & Hok). rewrite Hparse in Hr. injection Hr as <-.
  destruct Hok as (toks & _ & _ & Hrules & Hheads).
  apply (validate_rules_scoped _ newBareHeadScope None eq_refl) in Hheads.
  unfold Interpret, validateAgainstSource in Hrun. set (v := foldl checkRule _ _) in Hrun.
  destruct (decide (violations v = [])) as [Hv|]; [|done].
  destruct (run_rules _ _ _ _ _ _) as [[st err]|] eqn:Hrr; [|done]. injection Hrun as <- ->.
  pose proof (validate_typed toks _ sv Hrules Hedge Hv) as Htyped. cbv zeta in Htyped. fold v in Htyped.
  assert (Hres : resolved v).
  { apply (grows_resolved _ _ (grows_foldl checkRule (Rules recipe) checkRule_grows _)).
    intros l r. cbn. by rewrite lookup_empty. }
  apply (run_rules_safe sv target slug opts (compiled v) (compares v) Hres (Rules recipe) None _ (st, Some e)
    ) in Hrr; [exact Hrr|by split|by intros L|done..].
Qed.

Module Samples.
(** The bytes of a recipe of two rules. *)
Definition recipe_source (a b : string) : list ascii :=
  String.list_ascii_of_string a ++ newline :: String.list_ascii_of_string b.

Definition parsed (a b : string) : Recipe :=
  match Parse (λ _, Err "no where-trees") (recipe_source a b) with
  | Some (Ok r) => r
  | _ => {| Rules := []; RecipePos := {| Line := 0; Col := 0 |} |}
  end.

Definition run_sample (r : Recipe) (sv : sourceView) :=
  @Interpret LiteralHost.host r sv (mkTarget "knowledge" "patterns") "book" (mkOptions false 0 0).

Definition failed (o : option (result (list sourceViolation) (Result * option evalError))) : option evalError :=
  match o with Some (Ok (_, Some e)) => Some e | _ => None end.

Definition result_of (o : option (result (list sourceViolation) (Result * option evalError))) : Result :=
  match o with Some (Ok (r, _)) => r | _ => mkResult [] [] no_stats None end.
End Samples.

Lemma accepted_recipes_do_not_go_wrong_witness :
  let r := Samples.parsed "select section" "emit reference { name := slice(node.name, node.name, node.id) }" in
  Samples.failed (Samples.run_sample r LiteralHost.book)
    = Some (InEmitField "name" (NotAnInteger "slice" "Start")) ∧
  ruled_out (InEmitField "name" (NotAnInteger "slice" "Start")) = false.
Proof.
  intros r. split; [vm_compute; reflexivity|].
  apply (@accepted_recipes_do_not_go_wrong LiteralHost.host (λ _, Err "no where-trees")
    (Samples.recipe_source "select section" "emit reference { name := slice(node.name, node.name, node.id) }")
    r LiteralHost.book (mkTarget "knowledge" "patterns") "book" (mkOptions false 0 0)
    (Samples.result_of (Samples.run_sample r LiteralHost.book))).
  - vm_compute. reflexivity.
  - vm_compute. reflexivity.
  - vm_compute. reflexivity.
Defined.

(** With a node of type [edge] in the source, a select of that type offers the head [edge]
    over rows that walked none. *)
Lemma edge_typed_node_goes_wrong :
  let r := Samples.parsed "select edge" "emit reference { name := edge.type }" in
  Samples.failed (Samples.run_sample r (LiteralHost.view [LiteralHost.node "e" "edge" "E"] []))
  = Some (InEmitField "name" (EdgeNotWalked ["type"])).
Proof. vm_compute. reflexivity. Qed.
